(* ===== verification/_CoqProject ===== *)
-Q . S2P
Prelude.v
CxxLib.v
TypeInfo.v
Assign.v
Traits.v
BitStruct.v
Decls.v
SemanticDB.v
CFloat.v
Syntax.v
ComptimeValue.v
ConstEval.v
Comptime.v
Flow.v
Builtins.v
Ownership.v
Attributes.v
Modules.v
Imports.v
ExprType.v
ExprTypeSafety.v
ConstTyping.v
ConstDecl.v
LspTransport.v
LspServer.v
LspLiveness.v
RtHash.v
RtTable.v
RtMap.v
RtSet.v
RtEncoding.v
Methods.v
TypeSpec.v
TypeSpecSafety.v
GenericInfer.v
RtVec.v
RtVecText.v
RtString.v
RtOwned.v
CBuffer.v
Calls.v
CallsKeep.v
CallsSafety.v
ExprTypeKeep.v
AssignStmts.v
AssignSafety.v
AssignAccept.v
CallStmts.v
Statements.v
StatementKeep.v
StatementSteps.v
StatementScopes.v
StatementFlow.v
