(* ===== verification/Prelude.v ===== *)
(** * Lucis: a verification development

    Lucis is a compiler in C++.  Its [src/] directory holds an ANTLR grammar and parser, a
    semantic checker ([checkers/]) over a type registry ([types/]) and a semantic database
    ([semantic/]), an interpreter for compile-time functions ([comptime/]), a generator of
    LLVM code ([IRBuilder/]), a run-time library in C ([builtins/]), a language server
    ([lsp/]) and a command line ([cli/]).  This
    library models the core of the checker and of the compile-time evaluation, the language
    server's loop and the run-time library's data structures as shallow embeddings and proves
    what they do, with the places where they do not do what they mean to.  A path below is relative to [src/src/] of the repository.

    ** How the model reads

    A C++ function is a Rocq function.  A fallible or partial one returns [outcome]: a
    value ([Ret]), an exception of the standard library ([Throw]), or undefined behaviour
    ([Undef]: signed overflow, division by zero, a shift out of range, a dangling or null
    dereference).  A function that changes state is in the monad [M], which passes the state
    and keeps it when an exception is thrown ([ROk], [RThrow], [RUndef], [RNoFuel]).
    Integers are [Z] with the range checks and the wrapping of their width; [double] is the
    executable IEEE model of the Standard Library.  Hash tables are [gmap]s, with the order
    of iteration an argument where the code's result could depend on it.  Records are
    updated with [r <| field := v |>].

    Fuel stands for C++ recursion and loops that are not structural, and [NoFuel] is never a
    result of the code.  Each bound below is proved to be enough by the theorem it names:
    - assignability of well-founded types: the rank of the left-hand type
      ([isAssignable_decides]); compile-time functions: rank of the function times nesting
      depth ([evaluate_terminates]); decoding of escapes: the length of the literal
      ([decodeLoop_ends]); consumption fixpoint: one more than the number of edges
      ([resolveLoop_ends]);
    - types of expressions: the nesting depth of the types that exist plus the types the
      expression makes ([N + spawns D e < fuel] in [resolveExprType_safe]); type specifiers:
      the same with the levels of the specifier ([resolveTypeSpec_safe]); calls: the same with
      those of the receiver, the arguments and the signature of the callee
      ([methodCall_safe], [fnCall_safe]); assignments: the same with those of their expressions
      ([checkAssignment_safe]);
    - the language server: the length of the input for the headers of a message, two for
      publishing, and more than the number of messages for the loop ([run_answers]);
    - run-time tables: the capacity for a search ([findLoop] in [map_refines] and
      [set_refines]); 65 for the doubling of a vector's capacity and 64 for that of a text
      buffer, whose sizes are below [2^64]; the length of a string or vector, plus one, for
      the loops over it; the length of the input for URL decoding.

    ** Files

    The checker and its tables:
    - [Prelude]: outcomes, the state monad, record update, shared tactics and hints.
    - [CxxLib]: the parts of C++ and its library in use: fixed-width arithmetic, [stoll] and
      [stoull], string searches, decimal printing.  [CFloat]: [double] and [stod].
    - [TypeInfo]: [types/TypeInfo.h], [types/TypeRegistry.{h,cpp}] and the constructors of
      dynamic types in [checkers/Checker_type.cpp].
    - [Assign]: type queries, [isAssignable], [canWidenTo] and the classification of enums
      for unwrap-catch ([checkers/Checker_type.cpp]).
    - [Traits]: [types/TraitRegistry.{h,cpp}], generic constraints
      ([checkers/Checker_generic.cpp]) and method lookup along parents
      ([checkers/Checker_decl.cpp]).
    - [BitStruct]: [checkBitStructDecl] ([checkers/Checker_decl.cpp]).
    - [Decls]: [semantic/Decl.{h,cpp}], the declarations and their cloning and substitution.
    - [SemanticDB]: [semantic/SemanticDB.{h,cpp}] without its cache file, over a heap of
      declarations.
    - [Builtins]: [types/BuiltinRegistry.{h,cpp}].  [Methods]: [types/MethodRegistry.cpp] and
      [types/ExtendedTypeRegistry.cpp].
    - [Syntax]: the parse trees of [grammar/LucisParser.g4] the passes below look at.
    - [Flow]: [blockAlwaysReturns] and [isTerminatorStmt] ([checkers/Checker_stmt.cpp]).
    - [Ownership]: [checkers/Checker_safety.cpp] and [checkBlock]
      ([checkers/Checker_stmt.cpp]).  [CBuffer]: [analyzeUnsafeCBufferCall] of the same file.
    - [Attributes]: [attributes/] and the conditional compilation of the checker.
    - [Modules]: [namespace/ModuleRegistry.cpp].  [Imports]: [imports/].
    - [ExprType]: [resolveExprType] and [resolveExprArrayDims] ([checkers/Checker_type.cpp]);
      [Calls]: its branches for method and function calls; [TypeSpec]: [resolveTypeSpec] and
      [resolveTypeSpecWithSubst]; [GenericInfer]: the inference of type arguments, in the
      checker and in the code generator ([IRBuilder/IRGen_generic.cpp]).
    - [ExprTypeSafety], [TypeSpecSafety], [CallsKeep], [CallsSafety]: the proofs that those
      keep the invariant of the typing state.
    - [AssignStmts]: the assignment statements of [checkers/Checker_assign.cpp]; [ExprTypeKeep],
      [AssignSafety], [AssignAccept]: what typing keeps, and the theorems about assignments.
    - [ConstDecl]: [checkConstDeclStmt]; [ConstTyping]: the agreement of the type of a constant
      with its value.
    - [CallStmts]: [checkCallStmt] and [isKnownFunction].  [Statements]: [checkStmt], [checkBlock]
      and the other statements of [checkers/Checker_stmt.cpp], with [checkFunction]
      ([checkers/Checker_decl.cpp]).  [StatementKeep], [StatementSteps]: what every statement
      keeps, by one induction for every relation between states; [StatementScopes]: scopes and
      unused variables; [StatementFlow]: the control flow of accepted functions.

    Compile-time evaluation:
    - [ComptimeValue]: values, registries and built-in functions of [comptime/].
    - [ConstEval]: [evaluateConstExpr], [isValidConstExpr] and the literal parsers
      ([checkers/Checker_decl.cpp]).
    - [Comptime]: [comptime/ComptimeInterpreter.cpp] and [comptime/ComptimeEngine.cpp].

    The language server:
    - [LspTransport]: [lsp/LspTransport.cpp].  [LspServer]: the loop, the caches and the
      handlers of [lsp/LspServer.cpp], with [lsp/DocumentStore.cpp] and [lsp/ParseCache.cpp].
      [LspLiveness]: the theorems about them.

    The run-time library, which compiled programs call:
    - [RtHash], [RtTable], [RtMap], [RtSet]: [builtins/hash/hash.c],
      [builtins/collections/map.c] and [set.c].
    - [RtVec], [RtVecText]: [builtins/collections/vec.c].
    - [RtString], [RtOwned]: [builtins/string/string.c].
    - [RtEncoding]: [builtins/encoding/encoding.c].
    In these, whether an allocation succeeds is a parameter ([malloc], [granted]; in [RtOwned]
    the system's allocator [allocate] is one); [exit(1)] is the exception [OtherException]
    in [RtVec]; reads and writes outside of a block are undefined.

    ** How the parts meet

    The engine of [Comptime] calls the checker's evaluator through a function pointer, a
    parameter of the interpreter, and both compute with the values of [ComptimeValue].
    [Ownership] asks [Builtins] which arguments are consumed, and [Assign], [Traits],
    [BitStruct] and [SemanticDB] share the types of [TypeInfo] and [Decls].  [ExprType] uses
    [Assign], [Traits], [Ownership] and [Imports]; [Calls] adds [Methods], [GenericInfer],
    [CBuffer] and [Comptime]'s registry.  [ConstDecl] composes [resolveExprType],
    [evaluateConstExpr] and [setConstValue].  [Statements] composes them all, on the state of [ConstDecl]
    with the scopes around it, and forgets places and types ([shape]) to give a body to
    [Flow].  [ExprType] is written over parameters for type
    specifiers ([resolveTypeSpec]) and for the expressions it does not cover
    ([resolveRest]); [TypeSpecSafety] and [CallsSafety] show that the code of [TypeSpec] and
    [Calls] meets what is assumed of those.  [LspServer] runs on [LspTransport] and on an
    interface [Extern] for the providers behind its handlers.  [RtMap] and [RtSet] are proved
    against [RtTable] and the interface [HashKey], whose instances are in [RtHash].

    ** What is proved

    - The semantic database: every reachable state is memory safe, which means that the
      declarations it refers to are live, owned once, filed under their names and not leaked
      ([reachable_memory_safe]); what registration, extension and instantiation do on every
      branch; that extend methods can come before or after their struct; cloning and
      substitution.
    - Types: [isAssignable] decides the relation it means and ends; [canWidenTo] is a
      preorder inside it that keeps every value; pointer types are hash-consed; enum
      classification; traits and constraints agree; bit struct layouts do not overlap.
    - Typing: resolving an expression, a type specifier, a method call or a function call
      ends, keeps every existing type, leaves no dangling pointer to a type and restores the
      recursion depth; a constant gets a type and a value that agree; inference of generic
      arguments finds the least substitution that matches, and the checker's version agrees
      with the code generator's.
    - Assignments: checking one is safe, an accepted one is well typed, and the assignments
      that are accepted or rejected against their meaning.
    - Statements: after a block the variables, variants and depths are what they were before it,
      apart from the marks of use ([checkBlock_restores]), so that no unused variable of a
      function is reported ([checkFunction_unused]); in an accepted function no [break] or
      [continue] leaves the body and, by [Flow], its end is not reached without a value
      ([accepted_flow]); the programs on which scopes by name go wrong ([statement_gaps]).
    - Constants: the evaluator never throws and ends; it computes what the operator tokens
      mean wherever operands do not contain operator characters; literals are read back.
    - Compile-time functions: termination, balanced frames, agreement with the constant
      evaluator, and the programs on which evaluation does not end or departs from the
      language.
    - Return analysis: sound and, without loops, exact with respect to the outcomes of
      statements; a [break] defeats it.
    - Ownership: the checker refines a protocol on the set of moved variables along a
      straight line of code; the consumption fixpoint ends with the least solution in any
      order; ranges contain the values; literal lengths and buffers are right; a call with a
      destination of known capacity is warned of exactly when the range of its size exceeds
      that; the table of built-in functions is consistent.
    - Modules: mangled names are injective on canonical paths.
    - The language server: its loop ends, answers every request once and in order, and
      follows no pointer to a parse result that is gone, for the histories described there;
      the histories that break this; messages are read back as they were sent.
    - The run-time library: maps and sets refine finite maps and sets, vectors refine lists;
      printing of wide integers, splitting and joining, searching and replacing of strings,
      and base64 are correct; allocation is tracked without double frees; and the inputs on
      which those functions leave their buffers.

    Every theorem with hypotheses has a witness, named after it, that applies it to a
    concrete program.

    ** What is not modelled

    Calls into LLVM, libclang, ANTLR and the operating system ([IRBuilder/] apart from the
    inference of type arguments, [LLVM_*/], [machine_code/], [ffi/], [generated/], [cli/]),
    the providers of the language server and the help browser (presentation), and the parts
    of the run-time library that are wrappers of the C library.  Of the checker, the typing of
    initialisers, lambdas, match expressions, unwrapping, inline assembly and comprehensions,
    blocks of C macros (whose check runs a C compiler), the checks of declarations of types and
    the cache file of the semantic database are not modelled. *)

From Stdlib Require Export ZArith Lia.
From Stdlib Require Ascii String.
From stdpp Require Export base tactics option list strings gmap fin_maps sets.
Export (notations) Stdlib.Strings.Ascii.
Export Stdlib.Strings.Ascii (ascii(..), N_of_ascii, ascii_of_N).

(** ** Outcomes of C++ code

    The modelled C++ can return a value, throw a standard-library exception,
    or run into undefined behaviour (signed overflow, a null or dangling
    dereference, an integer division by zero).  Fuelled definitions add
    [NoFuel], which no C++ execution has. *)

Inductive exn :=
| InvalidArgument
| OutOfRange
| OtherException.

Inductive outcome (A : Type) : Type :=
| Ret (a : A)
| Throw (e : exn)
| Undef
| NoFuel.
Arguments Ret {_} _.
Arguments Throw {_} _.
Arguments Undef {_}.
Arguments NoFuel {_}.

#[export] Instance exn_eq_dec : EqDecision exn.
Proof. solve_decision. Defined.
#[export] Instance outcome_eq_dec {A} `{EqDecision A} : EqDecision (outcome A).
Proof. solve_decision. Defined.

#[export] Instance outcome_ret : MRet outcome := @Ret.
#[export] Instance outcome_bind : MBind outcome := λ A B f m,
  match m with
  | Ret a => f a
  | Throw e => Throw e
  | Undef => Undef
  | NoFuel => NoFuel
  end.

(** [catch_all m] is [try { return m; } catch (...) { return nullopt; }]. *)
Definition catch_all {A} (m : outcome A) : outcome (option A) :=
  match m with
  | Ret a => Ret (Some a)
  | Throw _ => Ret None
  | Undef => Undef
  | NoFuel => NoFuel
  end.

Definition is_ret {A} (m : outcome A) : bool :=
  match m with Ret _ => true | _ => false end.

Lemma outcome_bind_ret {A B} (f : A → outcome B) a : (Ret a ≫= f) = f a.
Proof. reflexivity. Qed.

Lemma outcome_bind_inv {A B} (f : A → outcome B) m b :
  m ≫= f = Ret b → ∃ a, m = Ret a ∧ f a = Ret b.
Proof. destruct m; simpl; intros [=]; eauto. Qed.

(** ** State-and-outcome monad

    [M S A] threads a state [S]; a thrown exception carries the state in which
    it was thrown, since C++ does not undo the side effects that precede it. *)

Inductive result (S A : Type) : Type :=
| ROk (a : A) (s : S)
| RThrow (e : exn) (s : S)
| RUndef
| RNoFuel.
Arguments ROk {_ _} _ _.
Arguments RThrow {_ _} _ _.
Arguments RUndef {_ _}.
Arguments RNoFuel {_ _}.

Definition M (S A : Type) : Type := S → result S A.

Section monad.
Context {S : Type}.

#[global] Instance M_ret : MRet (M S) := λ A a s, ROk a s.
#[global] Instance M_bind : MBind (M S) := λ A B f m s,
  match m s with
  | ROk a s' => f a s'
  | RThrow e s' => RThrow e s'
  | RUndef => RUndef
  | RNoFuel => RNoFuel
  end.

Definition getS : M S S := λ s, ROk s s.
Definition putS (s : S) : M S unit := λ _, ROk () s.
Definition modifyS (f : S → S) : M S unit := λ s, ROk () (f s).
Definition noFuel {A} : M S A := λ _, RNoFuel.
Definition liftO {A} (m : outcome A) : M S A := λ s,
  match m with
  | Ret a => ROk a s
  | Throw e => RThrow e s
  | Undef => RUndef
  | NoFuel => RNoFuel
  end.

(** Left-to-right evaluation of a list of arguments. *)
Fixpoint mapM_ {A B} (f : A → M S B) (l : list A) : M S (list B) :=
  match l with
  | [] => mret []
  | a :: l => b ← f a; bs ← mapM_ f l; mret (b :: bs)
  end.
End monad.

Lemma M_bind_ok {S A B} (m : M S A) (f : A → M S B) s a s' :
  m s = ROk a s' → (m ≫= f) s = f a s'.
Proof. intros H. unfold mbind, M_bind. by rewrite H. Qed.

(** Nothing is added twice to a list that ends as it began. *)
Lemma prefix_split {A} (a b c : list A) : a `prefix_of` b → b `prefix_of` c → c = a → b = a ∧ c = b.
Proof.
  intros [k ->] [l ->] H. rewrite <-(app_nil_r a) in H at 2. rewrite <-app_assoc in H.
  apply app_inv_head in H. apply app_eq_nil in H as [-> ->]. by rewrite !app_nil_r.
Qed.

Lemma M_bind_inv {S A B} (m : M S A) (f : A → M S B) s b s'' :
  (m ≫= f) s = ROk b s'' → ∃ a s', m s = ROk a s' ∧ f a s' = ROk b s''.
Proof. unfold mbind, M_bind. destruct (m s); intros [=]; eauto. Qed.

(** ** Record updates

    [r <| f := v |>] is [r] with the field [f] set to [v].  A record type opts in
    with an instance of [Settable] that rebuilds its argument field by field. *)

Class Settable (R : Type) := mk_eta : R → R.
Class Setter {R E : Type} (proj : R → E) := set_field : (E → E) → R → R.

Ltac solve_setter R E proj :=
  let inst := constr:(ltac:(typeclasses eauto) : Settable R) in
  let eta := eval red in inst in
  let eta := eval hnf in eta in
  let p := eval pattern proj in eta in
  lazymatch p with
  | ?g _ =>
      let s := eval cbv beta in (fun (f : E → E) => g (fun r : R => f (proj r))) in
      exact s
  end.
#[export] Hint Extern 1 (@Setter ?R ?E ?proj) => solve_setter R E proj : typeclass_instances.

Declare Scope record_scope.
Open Scope record_scope.
Notation "r <| proj := v |>" := (set_field (proj := proj) (λ _, v) r)
  (at level 1, left associativity, format "r <| proj  :=  v |>") : record_scope.

(** ** Automation *)

Create HintDb lucis discriminated.
#[export] Hint Resolve outcome_bind_ret : lucis.

(** Case analysis on every [match] of the goal and the context. *)
Ltac crush_match := repeat (case_match; simplify_eq/=; try done).

Ltac inv_bind H :=
  let a := fresh "a" in let Ha := fresh "Hm" in
  apply outcome_bind_inv in H as (a & Ha & H).

Ltac inv_M H :=
  let a := fresh "a" in let s := fresh "s" in let Ha := fresh "Hm" in
  apply M_bind_inv in H as (a & s & Ha & H).

(** ** Generic lemmas *)

Lemma bool_decide_andb (P Q : Prop) `{Decision P, Decision Q} :
  bool_decide (P ∧ Q) = bool_decide P && bool_decide Q.
Proof. repeat case_bool_decide; naive_solver. Qed.

(** [existsb] and [∈] for a boolean equality that decides it. *)
Lemma existsb_bool_decide_elem_of {A} `{EqDecision A} (x : A) l :
  existsb (λ y, bool_decide (y = x)) l = true ↔ x ∈ l.
Proof.
  rewrite existsb_exists. setoid_rewrite bool_decide_eq_true.
  rewrite list_elem_of_In. naive_solver.
Qed.

Lemma NoDup_omap_inj {A B} (f : A → option B) l :
  (∀ x y b, x ∈ l → y ∈ l → f x = Some b → f y = Some b → x = y) → NoDup l → NoDup (omap f l).
Proof.
  intros Hf Hl. induction Hl as [|x l Hx Hl IH]; [constructor|]. cbn [omap list_omap].
  assert (IH' : NoDup (omap f l)) by (apply IH; intros; eapply Hf; eauto using list_elem_of_further).
  destruct (f x) as [b|] eqn:E; [|done]. constructor; [|done].
  intros (y & Hy & Eb)%list_elem_of_omap. apply Hx.
  by rewrite (Hf x y b (list_elem_of_here _ _) (list_elem_of_further _ _ _ Hy) E Eb).
Qed.
