(* ===== verification/CxxLib.v ===== *)
(** * The parts of C++ and of its standard library the sources use

    Fixed-width integers ([int64_t], [uint64_t], 32-bit [unsigned]) as [Z] with
    their range checks, [std::string] searches, [std::stoll] / [std::stoull],
    decimal printing, and extraction of words from an [std::istringstream].
    Signed overflow is undefined behaviour in C++17 and is [Undef] here;
    unsigned arithmetic wraps. *)

From S2P Require Import Prelude.
Local Open Scope Z_scope.

(** ** Integers *)

Definition int64_min : Z := - 2 ^ 63.
Definition int64_max : Z := 2 ^ 63 - 1.
Definition uint64_max : Z := 2 ^ 64 - 1.

Definition in_int64 (z : Z) : bool := (int64_min <=? z) && (z <=? int64_max).
Definition in_uint64 (z : Z) : bool := (0 <=? z) && (z <=? uint64_max).

Lemma in_int64_spec z : in_int64 z = true ↔ int64_min ≤ z ≤ int64_max.
Proof. unfold in_int64. rewrite andb_true_iff, !Z.leb_le. done. Qed.
Lemma in_uint64_spec z : in_uint64 z = true ↔ 0 ≤ z ≤ uint64_max.
Proof. unfold in_uint64. rewrite andb_true_iff, !Z.leb_le. done. Qed.

(** Conversions modulo [2^n], as [static_cast] does. *)
Definition to_int64 (z : Z) : Z := (z + 2 ^ 63) mod 2 ^ 64 - 2 ^ 63.
Definition to_uint64 (z : Z) : Z := z mod 2 ^ 64.
Definition to_uint32 (z : Z) : Z := z mod 2 ^ 32.

Lemma to_int64_range z : in_int64 (to_int64 z) = true.
Proof.
  apply in_int64_spec. unfold to_int64, int64_min, int64_max.
  pose proof (Z.mod_pos_bound (z + 2 ^ 63) (2 ^ 64)). lia.
Qed.
Lemma to_int64_id z : in_int64 z = true → to_int64 z = z.
Proof.
  intros Hz%in_int64_spec. unfold to_int64, int64_min, int64_max in *.
  rewrite Z.mod_small; lia.
Qed.

Lemma to_uint32_range z : 0 ≤ to_uint32 z < 2 ^ 32.
Proof. by apply Z.mod_pos_bound. Qed.
Lemma to_uint64_range z : 0 ≤ to_uint64 z < 2 ^ 64.
Proof. by apply Z.mod_pos_bound. Qed.
Lemma to_uint64_small z : 0 ≤ z < 2 ^ 64 → to_uint64 z = z.
Proof. apply Z.mod_small. Qed.

(** Words of [n] bits. *)
Lemma word_shiftr n x : 0 ≤ n → (0 ≤ x < 2 ^ n ↔ Z.shiftr x n = 0).
Proof. intros Hn. rewrite Z.shiftr_div_pow2, Z.div_small_iff by lia. lia. Qed.

Lemma word_lxor n x y : 0 ≤ n → 0 ≤ x < 2 ^ n → 0 ≤ y < 2 ^ n → 0 ≤ Z.lxor x y < 2 ^ n.
Proof. intros Hn. rewrite !word_shiftr, Z.shiftr_lxor by done. by intros -> ->. Qed.

Lemma word_shr n x k : 0 ≤ k → 0 ≤ x < 2 ^ n → 0 ≤ Z.shiftr x k < 2 ^ n.
Proof.
  intros Hk Hx. rewrite Z.shiftr_div_pow2 by done. split; [apply Z.div_pos; lia|].
  pose proof (Z.div_le_upper_bound x (2 ^ k) x). nia.
Qed.

(** ** Arrays *)

Definition arr_get {A} (l : list A) (i : Z) : outcome A :=
  if 0 <=? i then match l !! Z.to_nat i with Some a => Ret a | None => Undef end else Undef.

Definition arr_set {A} (l : list A) (i : Z) (a : A) : outcome (list A) :=
  if (0 <=? i) && (i <? Z.of_nat (length l)) then Ret (<[Z.to_nat i := a]> l) else Undef.

Lemma arr_get_ok {A} (l : list A) (i : nat) a : l !! i = Some a → arr_get l (Z.of_nat i) = Ret a.
Proof. intros H. unfold arr_get. rewrite (proj2 (Z.leb_le _ _)) by lia. by rewrite Nat2Z.id, H. Qed.

Lemma arr_set_ok {A} (l : list A) (i : nat) a : (i < length l)%nat →
  arr_set l (Z.of_nat i) a = Ret (<[i := a]> l).
Proof.
  intros H. unfold arr_set. rewrite (proj2 (Z.leb_le _ _)), (proj2 (Z.ltb_lt _ _)) by lia.
  by rewrite Nat2Z.id.
Qed.

(** Result of a signed 64-bit operation: undefined when out of range. *)
Definition chk64 (z : Z) : outcome Z := if in_int64 z then Ret z else Undef.

Definition add64 (a b : Z) : outcome Z := chk64 (a + b).
Definition sub64 (a b : Z) : outcome Z := chk64 (a - b).
Definition mul64 (a b : Z) : outcome Z := chk64 (a * b).
Definition neg64 (a : Z) : outcome Z := chk64 (- a).

(** [/] and [%] truncate towards zero.  Both are undefined for a zero divisor
    and for [INT64_MIN / -1], whose quotient is not representable. *)
Definition div64 (a b : Z) : outcome Z := if b =? 0 then Undef else chk64 (Z.quot a b).
Definition rem64 (a b : Z) : outcome Z :=
  if b =? 0 then Undef else if in_int64 (Z.quot a b) then Ret (Z.rem a b) else Undef.

(** C++17 [<<] on a signed operand: undefined for a negative operand, for a
    shift amount outside [0..63], and when the exact result does not fit in the
    corresponding unsigned type; otherwise converted modulo [2^64]. *)
Definition shl64 (a b : Z) : outcome Z :=
  if (a <? 0) || (b <? 0) || (64 <=? b) || (uint64_max <? Z.shiftl a b)
  then Undef else Ret (to_int64 (Z.shiftl a b)).
(** [>>] on a signed operand: arithmetic shift (implementation-defined, and what
    GCC and Clang do). *)
Definition shr64 (a b : Z) : outcome Z :=
  if (b <? 0) || (64 <=? b) then Undef else Ret (Z.shiftr a b).

Lemma chk64_ok z : in_int64 z = true → chk64 z = Ret z.
Proof. unfold chk64. by intros ->. Qed.
Lemma chk64_inv z v : chk64 z = Ret v → v = z ∧ in_int64 z = true.
Proof. unfold chk64. destruct (in_int64 z) eqn:E; intros; simplify_eq; auto. Qed.
Lemma chk64_not_throw z e : chk64 z ≠ Throw e.
Proof. unfold chk64. by destruct (in_int64 z). Qed.

(** ** The 64-bit range is closed under the operations *)

Lemma in_int64_shiftr z : in_int64 z = true ↔ Z.shiftr z 63 = 0 ∨ Z.shiftr z 63 = -1.
Proof.
  rewrite in_int64_spec, Z.shiftr_div_pow2 by lia. unfold int64_min, int64_max.
  pose proof (Z.div_mod z (2 ^ 63)). pose proof (Z.mod_pos_bound z (2 ^ 63)). lia.
Qed.
Lemma land_int64 x y : in_int64 x = true → in_int64 y = true → in_int64 (Z.land x y) = true.
Proof.
  rewrite !in_int64_shiftr, Z.shiftr_land. intros [-> | ->] [-> | ->]; auto.
Qed.
Lemma lor_int64 x y : in_int64 x = true → in_int64 y = true → in_int64 (Z.lor x y) = true.
Proof.
  rewrite !in_int64_shiftr, Z.shiftr_lor. intros [-> | ->] [-> | ->]; auto.
Qed.
Lemma lxor_int64 x y : in_int64 x = true → in_int64 y = true → in_int64 (Z.lxor x y) = true.
Proof.
  rewrite !in_int64_shiftr, Z.shiftr_lxor. intros [-> | ->] [-> | ->]; auto.
Qed.
Lemma lnot_int64 x : in_int64 x = true → in_int64 (Z.lnot x) = true.
Proof. rewrite !in_int64_spec. unfold Z.lnot, int64_min, int64_max. lia. Qed.
Lemma quot_rem_int64 x y : y ≠ 0 → in_int64 y = true → in_int64 (Z.rem x y) = true.
Proof.
  rewrite !in_int64_spec. unfold int64_min, int64_max. intros Hy ?.
  pose proof (Z.rem_bound_abs x y Hy). lia.
Qed.
Lemma shr_int64 x y : 0 ≤ y → in_int64 x = true → in_int64 (Z.shiftr x y) = true.
Proof.
  intros Hy.
  rewrite !in_int64_shiftr, Z.shiftr_shiftr, Z.add_comm, <-Z.shiftr_shiftr by lia.
  intros [-> | ->]; [left|right]; rewrite Z.shiftr_div_pow2 by done.
  - apply Z.div_0_l. lia.
  - assert (0 < 2 ^ y) by (apply Z.pow_pos_nonneg; lia).
    symmetry. apply (Z.div_unique_pos _ _ _ (2 ^ y - 1)); lia.
Qed.

(** An integer operation that keeps to 64 bits where it is defined. *)
Definition int_or_undef (m : outcome Z) : Prop :=
  match m with Ret z => in_int64 z = true | Undef => True | _ => False end.

Lemma chk64_good z : int_or_undef (chk64 z).
Proof. unfold chk64. by destruct (in_int64 z) eqn:E. Qed.
Lemma div64_good a b : int_or_undef (div64 a b).
Proof. unfold div64. destruct (b =? 0); [done|]. apply chk64_good. Qed.
Lemma rem64_good a b : in_int64 b = true → int_or_undef (rem64 a b).
Proof.
  intros Hb. unfold rem64. destruct (Z.eqb_spec b 0); [done|].
  destruct (in_int64 (Z.quot a b)); [|done]. by apply quot_rem_int64.
Qed.
Lemma shl64_good a b : int_or_undef (shl64 a b).
Proof. unfold shl64. destruct (_ || _); [done|]. apply to_int64_range. Qed.
Lemma shr64_good a b : in_int64 a = true → int_or_undef (shr64 a b).
Proof.
  intros Ha. unfold shr64. destruct (Z.ltb_spec b 0); [done|]. destruct (64 <=? b); [done|].
  by apply shr_int64.
Qed.

#[export] Hint Resolve chk64_good div64_good rem64_good shl64_good shr64_good
  land_int64 lor_int64 lxor_int64 lnot_int64 : lucis.

(** ** Characters *)

Definition is_space : ascii → bool := Ascii.is_space.

Definition code (c : ascii) : Z := Z.of_N (N_of_ascii c).

Definition is_alpha (c : ascii) : bool :=
  ((97 <=? code c) && (code c <=? 122)) || ((65 <=? code c) && (code c <=? 90)).

(** [std::tolower] in the "C" locale. *)
Definition tolower (c : ascii) : ascii :=
  if (65 <=? code c) && (code c <=? 90) then ascii_of_N (Z.to_N (code c + 32)) else c.

(** Value of a digit in bases up to 36, as [strtol] reads it. *)
Definition digit_val (c : ascii) : option Z :=
  let n := code c in
  if (48 <=? n) && (n <=? 57) then Some (n - 48)
  else if (97 <=? n) && (n <=? 122) then Some (n - 87)
  else if (65 <=? n) && (n <=? 90) then Some (n - 55)
  else None.

Definition digit_char (d : Z) : ascii := ascii_of_N (Z.to_N (d + 48)).

Lemma digit_val_char d : 0 ≤ d < 10 → digit_val (digit_char d) = Some d.
Proof.
  intros H.
  assert (d = 0 ∨ d = 1 ∨ d = 2 ∨ d = 3 ∨ d = 4 ∨ d = 5 ∨ d = 6 ∨ d = 7 ∨ d = 8 ∨ d = 9)
    as E by lia.
  by repeat (destruct E as [->|E]; [reflexivity|]); subst.
Qed.

(** ** [std::string] *)

(** [s.find(sub)]: index of the first occurrence. *)
Definition str_find (sub s : string) : option nat := String.index 0 sub s.
Definition str_contains (sub s : string) : bool :=
  match str_find sub s with Some _ => true | None => false end.

(** [s.find(c)] on a single character. *)
Fixpoint find_char (c : ascii) (s : string) : option nat :=
  match s with
  | "" => None
  | String a s => if bool_decide (a = c) then Some 0%nat else S <$> find_char c s
  end.

(** [s.substr(n)]: the suffix from position [n] on, for [n] at most the length. *)
Fixpoint str_drop (n : nat) (s : string) : string :=
  match n, s with
  | O, _ => s
  | S n, "" => ""
  | S n, String _ s => str_drop n s
  end.
(** [s.substr(0, n)] *)
Fixpoint str_take (n : nat) (s : string) : string :=
  match n, s with
  | O, _ => ""
  | S n, "" => ""
  | S n, String a s => String a (str_take n s)
  end.

(** [s.rfind(pre, 0) == 0] *)
Definition starts_with (pre s : string) : bool := String.prefix pre s.

(** [text.compare(size - suf.size(), suf.size(), suf) == 0] under
    [text.size() > suf.size()]. *)
Definition ends_with_strict (suf s : string) : bool :=
  (String.length suf <? String.length s)%nat &&
  bool_decide (str_drop (String.length s - String.length suf) s = suf).

(** [s.erase(std::remove(s.begin(), s.end(), c), s.end())] *)
Fixpoint str_remove (c : ascii) (s : string) : string :=
  match s with
  | "" => ""
  | String a s => if bool_decide (a = c) then str_remove c s else String a (str_remove c s)
  end.

Fixpoint str_map (f : ascii → ascii) (s : string) : string :=
  match s with "" => "" | String a s => String (f a) (str_map f s) end.

Fixpoint str_forall (f : ascii → bool) (s : string) : bool :=
  match s with "" => true | String a s => f a && str_forall f s end.

(** [s.substr(i)] where [i = s.find_first_not_of(cs)]; [None] for [npos]. *)
Fixpoint drop_while (f : ascii → bool) (s : string) : string :=
  match s with
  | "" => ""
  | String a s' => if f a then drop_while f s' else s
  end.

(** Concatenation of a list of strings with a separator. *)
Fixpoint str_join (sep : string) (l : list string) : string :=
  match l with
  | [] => ""
  | [x] => x
  | x :: l => x +:+ sep +:+ str_join sep l
  end.

(** ** Numbers from text *)

(** Reads the longest prefix of digits of the base; [n] counts the digits. *)
Fixpoint read_digits (base acc : Z) (n : nat) (s : string) : Z * nat * string :=
  match s with
  | "" => (acc, n, s)
  | String c s' =>
      match digit_val c with
      | Some d => if d <? base then read_digits base (acc * base + d) (S n) s' else (acc, n, s)
      | None => (acc, n, s)
      end
  end.

Definition is_x (c : ascii) : bool := bool_decide (c = "x"%char) || bool_decide (c = "X"%char).

(** Does the string go on with a hexadecimal digit? *)
Definition hex_follows (s : string) : bool :=
  match s with
  | String c _ => match digit_val c with Some d => d <? 16 | None => false end
  | "" => false
  end.

(** Subject sequence of [strtoll] after the sign: the base it is read in and
    the text left after a [0x] prefix.  Base 0 asks for the C conventions. *)
Definition strtol_prefix (base : Z) (s : string) : Z * string :=
  match s with
  | String z (String x s') =>
      if bool_decide (z = "0"%char) && is_x x && hex_follows s' && ((base =? 0) || (base =? 16))
      then (16, s')
      else if base =? 0 then (if bool_decide (z = "0"%char) then 8 else 10, s) else (base, s)
  | String z "" =>
      if base =? 0 then (if bool_decide (z = "0"%char) then 8 else 10, s) else (base, s)
  | "" => (if base =? 0 then 10 else base, s)
  end.

(** The exact value denoted by the subject sequence and the text behind it;
    [None] when there is no digit to read. *)
Definition strtol_core (base : Z) (s : string) : option (Z * string) :=
  let s := drop_while is_space s in
  let '(neg, s) :=
    match s with
    | String c s' =>
        if bool_decide (c = "-"%char) then (true, s')
        else if bool_decide (c = "+"%char) then (false, s') else (false, s)
    | "" => (false, s)
    end in
  let '(b, s) := strtol_prefix base s in
  let '(v, n, rest) := read_digits b 0 0 s in
  if (n =? 0)%nat then None else Some (if neg then - v else v, rest).

(** [std::stoll(s, nullptr, base)] *)
Definition stoll (base : Z) (s : string) : outcome Z :=
  match strtol_core base s with
  | None => Throw InvalidArgument
  | Some (v, _) => if in_int64 v then Ret v else Throw OutOfRange
  end.

(** [std::stoull(s)] and, on an LP64 target, [std::stoul(s)]: a leading minus
    negates modulo [2^64]. *)
Definition stoull (base : Z) (s : string) : outcome Z :=
  match strtol_core base s with
  | None => Throw InvalidArgument
  | Some (v, _) => if Z.abs v <=? uint64_max then Ret (to_uint64 v) else Throw OutOfRange
  end.

(** ** Decimal printing: [std::to_string] and [operator<<] *)

Fixpoint print_digits (fuel : nat) (n : Z) (acc : string) : string :=
  let acc := String (digit_char (n mod 10)) acc in
  match fuel with
  | O => acc
  | S fuel => if n / 10 =? 0 then acc else print_digits fuel (n / 10) acc
  end.

(** The fuel exceeds the number of decimal digits. *)
Definition print_nonneg (n : Z) : string := print_digits (Z.to_nat (Z.log2 n)) n "".
Definition to_string (n : Z) : string :=
  if n <? 0 then String "-" (print_nonneg (- n)) else print_nonneg n.

(** ** Printing and reading back *)

(** Printed text starts with a decimal digit, which is [0] only for zero. *)
Lemma print_digits_head f n acc :
  0 ≤ n → Z.log2 n ≤ Z.of_nat f →
  ∃ d s, print_digits f n acc = String (digit_char d) s ∧ 0 ≤ d < 10 ∧
         (n ≠ 0 → d ≠ 0) ∧ (n = 0 → d = 0 ∧ s = acc).
Proof.
  revert n acc. induction f as [|f IH]; intros n acc Hn Hf; simpl.
  - assert (n < 2) by (destruct (Z.lt_ge_cases n 2); [done|];
      pose proof (Z.log2_le_mono 2 n); change (Z.log2 2) with 1 in *; lia).
    assert (n = 0 ∨ n = 1) as [->| ->] by lia.
    + exists 0, acc. done.
    + exists 1, acc. done.
  - assert (Hm := Z.mod_pos_bound n 10 ltac:(lia)).
    assert (Hd := Z.div_mod n 10 ltac:(lia)).
    destruct (Z.eqb_spec (n / 10) 0) as [H0|H0].
    + eexists _, _; split; [done|]. split; [lia|]. split; [lia|].
      intros ->. done.
    + assert (0 < n / 10) by (pose proof (Z.div_pos n 10); lia).
      destruct (IH (n / 10) (String (digit_char (n mod 10)) acc)) as (d & s & -> & ?&?&?).
      * lia.
      * assert (Z.log2 (n / 10) < Z.log2 n); [|lia].
        assert (Z.log2 (2 * (n / 10)) ≤ Z.log2 n) by (apply Z.log2_le_mono; lia).
        rewrite Z.log2_double in * by lia. lia.
      * eexists _, _; split; [done|]. split; [done|]. split; [auto with lia|]. intros ->. exfalso. lia.
Qed.

(** Reading digits back: the printed number is appended to what was read. *)
Lemma read_print_digits f n acc b v k :
  10 ≤ b → 0 ≤ n → Z.log2 n ≤ Z.of_nat f → b = 10 →
  ∃ m, (0 < m)%nat ∧ 
  read_digits b v k (print_digits f n acc)
  = read_digits b (v * 10 ^ Z.of_nat m + n) (k + m) acc.
Proof.
  intros Hb. revert n acc v k. induction f as [|f IH]; intros n acc v k Hn Hf ->; simpl.
  - assert (n < 2) by (destruct (Z.lt_ge_cases n 2); [done|];
      pose proof (Z.log2_le_mono 2 n); change (Z.log2 2) with 1 in *; lia).
    exists 1%nat. split; [lia|].
    rewrite digit_val_char by (apply Z.mod_pos_bound; lia).
    rewrite Z.mod_small by lia. destruct (Z.ltb_spec n 10); [|lia].
    f_equal; lia.
  - assert (Hm := Z.mod_pos_bound n 10 ltac:(lia)).
    assert (Hd := Z.div_mod n 10 ltac:(lia)).
    assert (Hone : ∀ v k, read_digits 10 v k (String (digit_char (n mod 10)) acc)
              = read_digits 10 (v * 10 + n mod 10) (S k) acc).
    { intros v' k'. simpl. rewrite digit_val_char by lia.
      by destruct (Z.ltb_spec (n mod 10) 10); [|lia]. }
    destruct (Z.eqb_spec (n / 10) 0) as [H0|H0].
    + exists 1%nat. split; [lia|]. rewrite Hone. f_equal; lia.
    + assert (0 < n / 10) by (pose proof (Z.div_pos n 10); lia).
      destruct (IH (n / 10) (String (digit_char (n mod 10)) acc) v k) as (m & Hpos & ->);
        [lia| |done|].
      { assert (Z.log2 (2 * (n / 10)) ≤ Z.log2 n) by (apply Z.log2_le_mono; lia).
        rewrite Z.log2_double in * by lia. lia. }
      exists (S m). split; [lia|]. rewrite Hone, Nat2Z.inj_succ, Z.pow_succ_r by lia.
      f_equal; lia.
Qed.

Lemma digit_char_not_sign d : 0 ≤ d < 10 →
  is_space (digit_char d) = false ∧ digit_char d ≠ "-"%char ∧ digit_char d ≠ "+"%char ∧
  is_x (digit_char d) = false ∧ (digit_char d = "0"%char → d = 0).
Proof.
  intros H.
  assert (d = 0 ∨ d = 1 ∨ d = 2 ∨ d = 3 ∨ d = 4 ∨ d = 5 ∨ d = 6 ∨ d = 7 ∨ d = 8 ∨ d = 9)
    as E by lia.
  by repeat (destruct E as [->|E]; [done|]); subst.
Qed.

(** Printed numbers are read back whole, in base 10 and with the base chosen by the C
    conventions. *)
Lemma strtol_core_print base n :
  base = 0 ∨ base = 10 → 0 ≤ n → strtol_core base (to_string n) = Some (n, "").
Proof.
  intros Hbase Hn. unfold to_string. destruct (Z.ltb_spec n 0); [lia|].
  destruct (decide (n = 0)) as [->|Hn0].
  { by destruct Hbase as [-> | ->]. }
  assert (Hf : Z.log2 n ≤ Z.of_nat (Z.to_nat (Z.log2 n)))
    by (pose proof (Z.log2_nonneg n); lia).
  destruct (print_digits_head (Z.to_nat (Z.log2 n)) n "" Hn Hf) as (d & s & Hs & Hd & Hd0 & _).
  destruct (read_print_digits (Z.to_nat (Z.log2 n)) n "" 10 0 0) as (m & Hm & Hr);
    [lia..|].
  unfold print_nonneg, strtol_core. rewrite Hs in *. simpl drop_while.
  destruct (digit_char_not_sign d Hd) as (-> & ? & ? & ? & Hz).
  rewrite !bool_decide_eq_false_2 by done.
  assert (Hp : strtol_prefix base (String (digit_char d) s) = (10, String (digit_char d) s)).
  { unfold strtol_prefix. rewrite !(bool_decide_eq_false_2 (_ = "0"%char)) by tauto.
    destruct Hbase as [-> | ->]; by destruct s. }
  rewrite Hp, Hr. simpl. destruct (Nat.eqb_spec m 0); [lia|].
  by rewrite Z.mul_0_l, Z.add_0_l.
Qed.

(** [std::stoll] reads printed numbers back. *)
Lemma stoll_print_nonneg base n :
  base = 0 ∨ base = 10 → 0 ≤ n ≤ int64_max → stoll base (to_string n) = Ret n.
Proof.
  intros Hbase [Hn Hmax]. unfold stoll. rewrite strtol_core_print by done.
  by rewrite (proj2 (in_int64_spec n)) by (unfold int64_min, int64_max in *; lia).
Qed.

(** ** Strings *)

Ltac split_free :=
  repeat match goal with
  | H : (_ && _) = true |- _ => apply andb_true_iff in H as [? ?]
  | H : negb _ = true |- _ => apply negb_true_iff in H
  end.

Lemma str_app_cons a s t : String a s +:+ t = String a (s +:+ t).
Proof. reflexivity. Qed.
Lemma str_app_nil t : "" +:+ t = t.
Proof. reflexivity. Qed.

Lemma str_app_nil_r a : a +:+ "" = a.
Proof. induction a as [|x a IH]; rewrite ?str_app_cons; [done|by rewrite IH]. Qed.
Lemma str_app_assoc a b c : (a +:+ b) +:+ c = a +:+ (b +:+ c).
Proof. induction a as [|x a IH]; rewrite ?str_app_nil, ?str_app_cons; [done|by rewrite IH]. Qed.

Lemma print_digits_forall p f n acc :
  (∀ d, 0 ≤ d < 10 → p (digit_char d) = true) → str_forall p acc = true →
  str_forall p (print_digits f n acc) = true.
Proof.
  intros Hp. revert n acc. induction f as [|f IH]; intros n acc Hacc; simpl;
    pose proof (Hp (n mod 10) ltac:(apply Z.mod_pos_bound; lia)) as Hd.
  - by rewrite Hd, Hacc.
  - destruct (n / 10 =? 0); [|apply IH]; simpl; by rewrite Hd, Hacc.
Qed.

Lemma str_remove_id c s :
  str_forall (λ a, negb (bool_decide (a = c))) s = true → str_remove c s = s.
Proof.
  induction s as [|a s IH]; simpl; [done|]. intros H. split_free.
  destruct (bool_decide (a = c)); [done|]. by rewrite IH.
Qed.
Lemma drop_while_id p s : str_forall (λ a, negb (p a)) s = true → drop_while p s = s.
Proof. destruct s as [|a s]; simpl; [done|]. intros H. split_free. by rewrite H. Qed.

Lemma print_nonneg_forall p n :
  (∀ d, 0 ≤ d < 10 → p (digit_char d) = true) → 0 ≤ n → str_forall p (to_string n) = true.
Proof.
  intros Hp Hn. unfold to_string. destruct (Z.ltb_spec n 0); [lia|].
  by apply print_digits_forall.
Qed.

Ltac by_digits :=
  let d := fresh "d" in let H := fresh "H" in intros d H;
  assert (d = 0 ∨ d = 1 ∨ d = 2 ∨ d = 3 ∨ d = 4 ∨ d = 5 ∨ d = 6 ∨ d = 7 ∨ d = 8 ∨ d = 9) as H' by lia;
  by repeat (destruct H' as [->|H']; [reflexivity|]); subst.

Lemma str_app_inv (a b a' b' : string) :
  a +:+ b = a' +:+ b' →
  (∃ k, a' = a +:+ k ∧ b = k +:+ b') ∨ (∃ k, a = a' +:+ k ∧ k +:+ b = b').
Proof.
  revert a'. induction a as [|c a IH]; intros a'; rewrite ?str_app_nil, ?str_app_cons.
  - intros ->. left. by exists a'.
  - destruct a' as [|c' a']; rewrite ?str_app_nil, ?str_app_cons.
    + intros <-. right. by exists (String c a).
    + intros [= -> E]. destruct (IH _ E) as [(k & -> & ->)|(k & -> & <-)];
        [left|right]; exists k; by rewrite ?str_app_cons.
Qed.

Lemma str_drop_app a b : str_drop (String.length a) (a +:+ b) = b.
Proof. by induction a. Qed.
Lemma str_take_app a b : str_take (String.length a) (a +:+ b) = a.
Proof. induction a as [|c a IH]; [by destruct b|]. rewrite str_app_cons. simpl. by rewrite IH. Qed.
Lemma str_take_drop n s : str_take n s +:+ str_drop n s = s.
Proof.
  revert s. induction n as [|n IH]; intros s; [done|].
  destruct s as [|c s]; [done|]. simpl. by rewrite str_app_cons, IH.
Qed.
Lemma str_length_app a b : String.length (a +:+ b) = (String.length a + String.length b)%nat.
Proof. induction a as [|c a IH]; [done|]. rewrite str_app_cons. simpl. by rewrite IH. Qed.
