(* ===== verification/TypeInfo.v ===== *)
(** * Types of the checker and their registry

    [types/TypeInfo.h], [types/TypeRegistry.cpp], and the constructors of
    dynamic types in [checkers/Checker_type.cpp].

    A [const TypeInfo*] points either at a node of the registry's [std::map]
    (stable, and overwritten in place by [registerType]) or at an element of the
    checker's vector of owned dynamic types; it is a [tyref] here, and null is
    [None]. *)

From S2P Require Import Prelude CxxLib.
Local Open Scope Z_scope.

Module TK.
Inductive TypeKind :=
| Integer | Float | Bool | Char | Void | String
| Struct | Union | Enum | Pointer | Function | Extended
| BitStruct | Tuple | VAList | Closure | Fallible | Trait.
End TK.
Export TK (TypeKind).

#[export] Instance TypeKind_eq_dec : EqDecision TypeKind.
Proof. solve_decision. Defined.

(** Pointers to [TypeInfo] objects. *)
Inductive tyref :=
| RegT (name : string)   (* &types_.at(name) *)
| DynT (index : nat).    (* dynamicTypes_[index].get() *)

#[export] Instance tyref_eq_dec : EqDecision tyref.
Proof. solve_decision. Defined.

Record FieldInfo := {
  fi_name : string;
  fi_typeInfo : option tyref;
  fi_arrayDims : Z;
  fi_arraySizes : list Z;
  fi_autoFill : bool }.

Inductive EnumPayloadKind := PayloadUnit | PayloadTuple | PayloadNamed.

Record BitFieldInfo := {
  bf_name : string;
  bf_offset : Z;
  bf_width : Z;
  bf_isPadding : bool }.

Record EnumVariantInfo := {
  ev_name : string;
  ev_discriminant : Z;
  ev_payloadKind : EnumPayloadKind;
  ev_payloadFields : list FieldInfo;
  ev_isError : bool }.

Record CaptureInfo := {
  ci_name : string;
  ci_type : option tyref;
  ci_arrayDims : Z }.

(** The two opaque AST pointers ([genericStructDecl], [genericEnumDecl]) are left
    out: nothing modelled here reads them. *)
Record TypeInfo := {
  ti_name : string;
  ti_kind : TypeKind;
  ti_bitWidth : Z;
  ti_isSigned : bool;
  ti_builtinSuffix : string;
  ti_fields : list FieldInfo;
  ti_parentType : option tyref;
  ti_enumVariants : list string;
  ti_enumVariantInfos : list EnumVariantInfo;
  ti_bitFields : list BitFieldInfo;
  ti_backingType : option tyref;
  ti_pointeeType : option tyref;
  ti_returnType : option tyref;
  ti_paramTypes : list (option tyref);
  ti_paramDims : list Z;
  ti_isVolatile : bool;
  ti_isVariadic : bool;
  ti_variadicElementType : option tyref;
  ti_elementType : option tyref;
  ti_keyType : option tyref;
  ti_valueType : option tyref;
  ti_successType : option tyref;
  ti_errorType : option tyref;
  ti_extendedKind : string;
  ti_arraySize : Z;
  ti_arraySizes : list Z;
  ti_tupleElements : list (option tyref);
  ti_dropTracked : bool;
  ti_moveOnly : bool;
  ti_fromDependencyWalk : bool;
  ti_implementedTraits : list string;
  ti_isGenericInstance : bool;
  ti_genericBaseName : string;
  ti_typeParamNames : list string;
  ti_typeArgs : list (option tyref);
  ti_closureCaptures : list CaptureInfo;
  ti_syntheticFuncName : string }.

#[export] Instance settable_TypeInfo : Settable TypeInfo := λ t,
  Build_TypeInfo (ti_name t) (ti_kind t) (ti_bitWidth t) (ti_isSigned t)
    (ti_builtinSuffix t) (ti_fields t) (ti_parentType t) (ti_enumVariants t)
    (ti_enumVariantInfos t) (ti_bitFields t) (ti_backingType t) (ti_pointeeType t)
    (ti_returnType t) (ti_paramTypes t) (ti_paramDims t) (ti_isVolatile t)
    (ti_isVariadic t) (ti_variadicElementType t) (ti_elementType t) (ti_keyType t)
    (ti_valueType t) (ti_successType t) (ti_errorType t) (ti_extendedKind t)
    (ti_arraySize t) (ti_arraySizes t) (ti_tupleElements t) (ti_dropTracked t)
    (ti_moveOnly t) (ti_fromDependencyWalk t) (ti_implementedTraits t)
    (ti_isGenericInstance t) (ti_genericBaseName t) (ti_typeParamNames t)
    (ti_typeArgs t) (ti_closureCaptures t) (ti_syntheticFuncName t).

(** [TypeInfo{ name, kind, bitWidth, isSigned, suffix }]: the other members take
    their default initialisers. *)
Definition mkTypeInfo (name : string) (k : TypeKind) (bw : Z) (sg : bool) (suffix : string)
    : TypeInfo := {|
  ti_name := name; ti_kind := k; ti_bitWidth := bw; ti_isSigned := sg;
  ti_builtinSuffix := suffix; ti_fields := []; ti_parentType := None;
  ti_enumVariants := []; ti_enumVariantInfos := []; ti_bitFields := [];
  ti_backingType := None; ti_pointeeType := None; ti_returnType := None;
  ti_paramTypes := []; ti_paramDims := []; ti_isVolatile := false;
  ti_isVariadic := false; ti_variadicElementType := None; ti_elementType := None;
  ti_keyType := None; ti_valueType := None; ti_successType := None;
  ti_errorType := None; ti_extendedKind := ""; ti_arraySize := 0;
  ti_arraySizes := []; ti_tupleElements := []; ti_dropTracked := false;
  ti_moveOnly := false; ti_fromDependencyWalk := false; ti_implementedTraits := [];
  ti_isGenericInstance := false; ti_genericBaseName := ""; ti_typeParamNames := [];
  ti_typeArgs := []; ti_closureCaptures := []; ti_syntheticFuncName := "" |}.

(** [TypeInfo ti;] *)
Definition emptyTypeInfo : TypeInfo := mkTypeInfo "" TK.Void 0 false "".

Definition hasKind (k : TypeKind) (t : TypeInfo) : bool := bool_decide (ti_kind t = k).

(** ** The registry: [TypeRegistry] *)

Definition types_map := gmap string TypeInfo.

Definition reg_lookup (types_ : types_map) (name : string) : option TypeInfo := types_ !! name.

(** [lookup] as the pointer it returns. *)
Definition reg_lookup_ref (types_ : types_map) (name : string) : option tyref :=
  (λ _, RegT name) <$> types_ !! name.

Definition registerType (info : TypeInfo) (types_ : types_map) : types_map :=
  <[ti_name info := info]> types_.

(** The names in map order, which the model leaves unspecified. *)
Definition allTypes (types_ : types_map) : list string := (map_to_list types_).*1.

Definition isIntegerType (types_ : types_map) (name : string) : bool :=
  match reg_lookup types_ name with
  | Some ti => hasKind TK.Integer ti
  | None => false
  end.

Definition isUnsignedType (types_ : types_map) (name : string) : bool :=
  match reg_lookup types_ name with
  | Some ti => hasKind TK.Integer ti && negb (ti_isSigned ti)
  | None => false
  end.

Definition builtinPrimitives : list TypeInfo := [
  mkTypeInfo "int1" TK.Integer 1 false "i1";
  mkTypeInfo "int8" TK.Integer 8 true "i8";
  mkTypeInfo "int16" TK.Integer 16 true "i16";
  mkTypeInfo "int32" TK.Integer 32 true "i32";
  mkTypeInfo "int64" TK.Integer 64 true "i64";
  mkTypeInfo "int128" TK.Integer 128 true "i128";
  mkTypeInfo "intinf" TK.Integer 256 true "iinf";
  mkTypeInfo "isize" TK.Integer 0 true "i64";
  mkTypeInfo "uint1" TK.Integer 1 false "u1";
  mkTypeInfo "uint8" TK.Integer 8 false "u8";
  mkTypeInfo "uint16" TK.Integer 16 false "u16";
  mkTypeInfo "uint32" TK.Integer 32 false "u32";
  mkTypeInfo "uint64" TK.Integer 64 false "u64";
  mkTypeInfo "uint128" TK.Integer 128 false "u128";
  mkTypeInfo "usize" TK.Integer 0 false "u64";
  mkTypeInfo "float32" TK.Float 32 true "f32";
  mkTypeInfo "float64" TK.Float 64 true "f64";
  mkTypeInfo "float80" TK.Float 80 true "f80";
  mkTypeInfo "float128" TK.Float 128 true "f128";
  mkTypeInfo "double" TK.Float 64 true "f64";
  mkTypeInfo "bool" TK.Bool 1 true "bool";
  mkTypeInfo "char" TK.Char 8 true "char";
  mkTypeInfo "void" TK.Void 0 true "";
  mkTypeInfo "*void" TK.Pointer 0 true "ptr";
  mkTypeInfo "string" TK.String 0 true "str" ].

Definition mutexTI : TypeInfo :=
  (mkTypeInfo "Mutex" TK.Extended 0 false "mutex") <| ti_extendedKind := "Mutex" |>.

Definition errorTI (types_ : types_map) : TypeInfo :=
  let strTI := reg_lookup_ref types_ "string" in
  let i32TI := reg_lookup_ref types_ "int32" in
  let i64TI := reg_lookup_ref types_ "int64" in
  (mkTypeInfo "Error" TK.Struct 0 false "") <| ti_fields := [
    Build_FieldInfo "message" strTI 0 [] false;
    Build_FieldInfo "file" strTI 0 [] true;
    Build_FieldInfo "line" i32TI 0 [] true;
    Build_FieldInfo "column" i32TI 0 [] true;
    Build_FieldInfo "type_id" i64TI 0 [] false;
    Build_FieldInfo "parent_type_id" i64TI 0 [] false ] |>.

Definition registerBuiltins (types_ : types_map) : types_map :=
  let types_ := fold_left (λ m t, registerType t m) builtinPrimitives types_ in
  let types_ := registerType mutexTI types_ in
  registerType (errorTI types_) types_.

(** The constructor [TypeRegistry()]. *)
Definition newTypeRegistry : types_map := registerBuiltins ∅.

(** ** The checker's types: registry plus owned dynamic types *)

Record type_env := {
  te_types : types_map;              (* typeRegistry_.types_ *)
  te_dynamicTypes : list TypeInfo }. (* dynamicTypes_ *)

#[export] Instance settable_type_env : Settable type_env := λ e,
  Build_type_env (te_types e) (te_dynamicTypes e).

Definition resolve (e : type_env) (p : tyref) : option TypeInfo :=
  match p with
  | RegT n => te_types e !! n
  | DynT i => te_dynamicTypes e !! i
  end.

(** Dereference: undefined on a dangling pointer. *)
Definition deref (e : type_env) (p : tyref) : outcome TypeInfo :=
  match resolve e p with Some t => Ret t | None => Undef end.

(** [dynamicTypes_.push_back(...)], with the raw pointer to the new object. *)
Definition pushDynamic (e : type_env) (t : TypeInfo) : type_env * tyref :=
  (e <| te_dynamicTypes := te_dynamicTypes e ++ [t] |>, DynT (length (te_dynamicTypes e))).

Definition isPointerTo (pointee : tyref) (t : TypeInfo) : bool :=
  hasKind TK.Pointer t && bool_decide (ti_pointeeType t = Some pointee).

Definition getPointerType (e : type_env) (pointee : tyref) : outcome (type_env * tyref) :=
  match list_find (λ t, isPointerTo pointee t = true) (te_dynamicTypes e) with
  | Some (i, _) => Ret (e, DynT i)
  | None =>
      pt ← deref e pointee;
      let suffix := if bool_decide (ti_name pt = "char") then "cstr" else "ptr" in
      let ti := (mkTypeInfo ("*" +:+ ti_name pt) TK.Pointer 0 false suffix)
                  <| ti_pointeeType := Some pointee |> in
      Ret (pushDynamic e ti)
  end.

(** Names of the parameters, joined as [makeFunctionType] does; [last] says
    whether the final one gets the variadic dots. *)
Fixpoint paramNames (e : type_env) (isVariadic : bool) (i n : nat) (ps : list tyref)
    : outcome string :=
  match ps with
  | [] => Ret ""
  | p :: ps =>
      pt ← deref e p;
      rest ← paramNames e isVariadic (S i) n ps;
      Ret ((if (0 <? i)%nat then "," else "") +:+
           (if isVariadic && (i =? n - 1)%nat then "..." else "") +:+
           ti_name pt +:+ rest)
  end.

Definition makeFunctionType (e : type_env) (returnType : tyref) (paramTypes : list tyref)
    (isVariadic : bool) (variadicElementType : option tyref) (paramDims : option (list Z))
    : outcome (type_env * tyref) :=
  names ← paramNames e isVariadic 0 (length paramTypes) paramTypes;
  rt ← deref e returnType;
  let ti := (mkTypeInfo ("fn(" +:+ names +:+ ")->" +:+ ti_name rt) TK.Function 0 false "ptr")
    <| ti_returnType := Some returnType |>
    <| ti_paramTypes := Some <$> paramTypes |>
    <| ti_paramDims := default [] paramDims |>
    <| ti_isVariadic := isVariadic |>
    <| ti_variadicElementType := variadicElementType |> in
  Ret (pushDynamic e ti).

(** [s.back() == '>'] on a non-empty string. *)
Definition ends_with_char (c : ascii) (s : string) : bool :=
  match String.get (String.length s - 1) s with
  | Some d => bool_decide (d = c)
  | None => false
  end.

Definition resolveBuiltinReturnType (e : type_env) (retName : string)
    : type_env * option tyref :=
  if (4 <? String.length retName)%nat && bool_decide (str_take 4 retName = "Vec<")
     && ends_with_char ">" retName
  then
    let elemName := str_take (String.length retName - 5) (str_drop 4 retName) in
    match reg_lookup (te_types e) elemName with
    | None => (e, None)
    | Some elemType =>
        match list_find (λ t, ti_name t = retName) (te_dynamicTypes e) with
        | Some (i, _) => (e, Some (DynT i))
        | None =>
            let ti := (mkTypeInfo retName TK.Extended 0 false (ti_builtinSuffix elemType))
              <| ti_elementType := Some (RegT elemName) |>
              <| ti_extendedKind := "Vec" |> in
            let '(e', p) := pushDynamic e ti in (e', Some p)
        end
    end
  else (e, reg_lookup_ref (te_types e) retName).

(** ** Registry lemmas *)

Lemma reg_lookup_registerType types_ t n :
  reg_lookup (registerType t types_) n =
  if bool_decide (ti_name t = n) then Some t else reg_lookup types_ n.
Proof.
  unfold reg_lookup, registerType. case_bool_decide as H.
  - subst. apply lookup_insert_eq.
  - by apply lookup_insert_ne.
Qed.

Lemma isUnsigned_isInteger types_ n :
  isUnsignedType types_ n = true → isIntegerType types_ n = true.
Proof.
  unfold isUnsignedType, isIntegerType. destruct (reg_lookup types_ n); [|done].
  rewrite andb_true_iff. tauto.
Qed.

(** Every entry is stored under its own name. *)
Definition registry_named (types_ : types_map) : Prop :=
  map_Forall (λ n t, ti_name t = n) types_.

Lemma registry_named_empty : registry_named ∅.
Proof. apply map_Forall_empty. Qed.

Lemma registry_named_register types_ t :
  registry_named types_ → registry_named (registerType t types_).
Proof. intros H. apply map_Forall_insert_2; auto. Qed.

Lemma registry_named_fold ts types_ :
  registry_named types_ →
  registry_named (fold_left (λ m t, registerType t m) ts types_).
Proof. revert types_. induction ts; simpl; auto using registry_named_register. Qed.

Lemma registry_named_builtins types_ :
  registry_named types_ → registry_named (registerBuiltins types_).
Proof.
  intros. unfold registerBuiltins.
  auto using registry_named_register, registry_named_fold.
Qed.

Create HintDb types discriminated.
#[export] Hint Resolve registry_named_empty registry_named_register registry_named_builtins
  : types.

(** ** Pointers that resolve *)

(** The pointers an object holds. *)
Definition opt_list {A} (o : option A) : list A := match o with Some a => [a] | None => [] end.

Definition ti_pointers (t : TypeInfo) : list tyref :=
  (f ← ti_fields t; opt_list (fi_typeInfo f)) ++
  (v ← ti_enumVariantInfos t; f ← ev_payloadFields v; opt_list (fi_typeInfo f)) ++
  opt_list (ti_parentType t) ++ opt_list (ti_backingType t) ++
  opt_list (ti_pointeeType t) ++ opt_list (ti_returnType t) ++
  (p ← ti_paramTypes t; opt_list p) ++ opt_list (ti_variadicElementType t) ++
  opt_list (ti_elementType t) ++ opt_list (ti_keyType t) ++ opt_list (ti_valueType t) ++
  opt_list (ti_successType t) ++ opt_list (ti_errorType t) ++
  (p ← ti_tupleElements t; opt_list p) ++ (p ← ti_typeArgs t; opt_list p) ++
  (c ← ti_closureCaptures t; opt_list (ci_type c)).

(** No dangling pointer: every pointer held by an object of the environment
    resolves in it. *)
Definition closed (e : type_env) : Prop :=
  ∀ p t, resolve e p = Some t → Forall (λ q, is_Some (resolve e q)) (ti_pointers t).

(** [e'] keeps every object of [e] where it was. *)
Definition extends (e e' : type_env) : Prop :=
  ∀ p t, resolve e p = Some t → resolve e' p = Some t.

Lemma extends_refl e : extends e e.
Proof. by intros p t. Qed.
Lemma extends_trans e1 e2 e3 : extends e1 e2 → extends e2 e3 → extends e1 e3.
Proof. unfold extends. eauto. Qed.

Lemma deref_ret e p t : deref e p = Ret t ↔ resolve e p = Some t.
Proof. unfold deref. destruct (resolve e p); naive_solver. Qed.

Lemma resolve_pushDynamic e t p :
  resolve (pushDynamic e t).1 p =
  if bool_decide (p = (pushDynamic e t).2) then Some t else resolve e p.
Proof.
  destruct p as [n|i]; [by rewrite bool_decide_eq_false_2|]; simpl resolve.
  case_bool_decide as H; simpl in H; simplify_eq.
  - by rewrite lookup_app_r, Nat.sub_diag by lia.
  - destruct (decide (i < length (te_dynamicTypes e))%nat).
    + by rewrite lookup_app_l by lia.
    + rewrite lookup_app_r by lia. rewrite (lookup_ge_None_2 (te_dynamicTypes e)) by lia.
      assert (i ≠ length (te_dynamicTypes e)) by congruence.
      by destruct (i - length (te_dynamicTypes e))%nat eqn:?; [lia|].
Qed.

Lemma pushDynamic_extends e t : extends e (pushDynamic e t).1.
Proof.
  intros p t' H. rewrite resolve_pushDynamic. case_bool_decide as Hp; [|done].
  subst p. simpl in H. by rewrite lookup_ge_None_2 in H.
Qed.

Lemma pushDynamic_closed e t :
  closed e → Forall (λ q, is_Some (resolve e q)) (ti_pointers t) →
  closed (pushDynamic e t).1.
Proof.
  intros He Ht p t' Hp.
  assert (Forall (λ q, is_Some (resolve e q)) (ti_pointers t')) as H.
  { rewrite resolve_pushDynamic in Hp. case_bool_decide; simplify_eq; eauto. }
  eapply Forall_impl; [exact H|]. intros q [tq Hq].
  exists tq. by apply pushDynamic_extends.
Qed.

#[export] Hint Resolve extends_refl pushDynamic_extends : types.

(** The registry a checker starts from. *)
Definition initial_env : type_env := Build_type_env newTypeRegistry [].

Lemma newTypeRegistry_closed : closed initial_env.
Proof.
  assert (H : map_Forall (λ _ t, Forall (λ q, is_Some (resolve initial_env q)) (ti_pointers t))
                newTypeRegistry).
  { apply (bool_decide_unpack _). vm_compute. exact I. }
  intros [n|i] t Ht; [exact (H n t Ht)|by destruct i].
Qed.

(** No two dynamic pointer types share a pointee, so that comparing pointers
    compares the pointer types they denote; the volatile copies of a pointer type are
    others. *)
Definition pointers_unique (e : type_env) : Prop :=
  ∀ i j ti tj q,
    te_dynamicTypes e !! i = Some ti → te_dynamicTypes e !! j = Some tj →
    ti_isVolatile ti = false → ti_isVolatile tj = false →
    isPointerTo q ti = true → isPointerTo q tj = true → i = j.

Lemma isPointerTo_inv q q' t :
  isPointerTo q t = true → isPointerTo q' t = true → q = q'.
Proof.
  unfold isPointerTo. rewrite !andb_true_iff.
  intros [_ H%bool_decide_eq_true_1] [_ H2%bool_decide_eq_true_1]. congruence.
Qed.

Lemma pointers_unique_push e t q :
  pointers_unique e → isPointerTo q t = true →
  (∀ i ti, te_dynamicTypes e !! i = Some ti → isPointerTo q ti = false) →
  pointers_unique (pushDynamic e t).1.
Proof.
  intros Hu Ht Hfresh i j ti tj q' Hi Hj Hvi Hvj Hti Htj. simpl in Hi, Hj.
  assert (Hcase : ∀ k tk, (te_dynamicTypes e ++ [t]) !! k = Some tk →
     te_dynamicTypes e !! k = Some tk ∨ k = length (te_dynamicTypes e) ∧ tk = t).
  { intros k tk [Hk|[Hk1 Hk2]]%lookup_app_Some; [by left|].
    right. apply list_lookup_singleton_Some in Hk2 as [? ->]. split; [lia|done]. }
  apply Hcase in Hi as [Hi|[-> ->]]; apply Hcase in Hj as [Hj|[-> ->]].
  - eauto.
  - rewrite (isPointerTo_inv q' q t Htj Ht) in Hti. by rewrite (Hfresh i ti) in Hti.
  - rewrite (isPointerTo_inv q' q t Hti Ht) in Htj. by rewrite (Hfresh j tj) in Htj.
  - done.
Qed.

Lemma isPointerTo_new pt pointee s :
  isPointerTo pointee ((mkTypeInfo (String.append "*" (ti_name pt)) TK.Pointer 0 false s)
    <| ti_pointeeType := Some pointee |>) = true.
Proof.
  apply andb_true_intro. split; apply bool_decide_eq_true_2; reflexivity.
Qed.

(** [getPointerType] either finds a pointer type or pushes a fresh one. *)
Lemma getPointerType_cases e q :
  (∃ i t, getPointerType e q = Ret (e, DynT i) ∧ te_dynamicTypes e !! i = Some t ∧
          isPointerTo q t = true) ∨
  ((∀ i t, te_dynamicTypes e !! i = Some t → isPointerTo q t = false) ∧
   ∀ pt, resolve e q = Some pt →
     ∃ t, getPointerType e q = Ret (pushDynamic e t) ∧ isPointerTo q t = true ∧
          ti_pointers t = [q] ∧ ti_name t = String.append "*" (ti_name pt)).
Proof.
  unfold getPointerType.
  destruct (list_find _ (te_dynamicTypes e)) as [[i t]|] eqn:Hf.
  - left. apply list_find_Some in Hf as (Hi & Ht & _). eauto.
  - right. apply list_find_None in Hf. rewrite Forall_lookup in Hf. split.
    + intros i t Hi. apply not_true_is_false, (Hf i t Hi).
    + intros pt Hpt. unfold deref. rewrite Hpt. simpl.
      eexists. split; [reflexivity|]. split; [apply isPointerTo_new|]. done.
Qed.

Lemma list_find_first_pointer l q i t :
  l !! i = Some t → isPointerTo q t = true →
  (∀ j tj, l !! j = Some tj → isPointerTo q tj = true → j = i) →
  list_find (λ t, isPointerTo q t = true) l = Some (i, t).
Proof.
  intros Hi Ht Hu. apply list_find_Some. split_and!; [done|done|].
  intros j y Hj Hlt Hy. apply (Hu j y Hj) in Hy. lia.
Qed.

(** pointer types are hash-consed.  For a pointee that resolves,
    [getPointerType] returns an object of kind [Pointer] with exactly that pointee;
    it keeps every existing object, the absence of dangling pointers and the
    uniqueness of pointer types; and asking again returns the same object without
    creating another, so pointer types can be compared by address. *)
Lemma getPointerType_spec e q :
  closed e → pointers_unique e → is_Some (resolve e q) →
  ∃ e' p t, getPointerType e q = Ret (e', p) ∧
    resolve e' p = Some t ∧ isPointerTo q t = true ∧
    extends e e' ∧ closed e' ∧ pointers_unique e' ∧
    getPointerType e' q = Ret (e', p).
Proof.
  intros Hc Hu [pt Hpt].
  destruct (getPointerType_cases e q) as [(i & t & Hg & Hi & Ht)|[Hfresh Hnew]].
  - exists e, (DynT i), t. split_and!; auto with types.
  - destruct (Hnew pt Hpt) as (t & Hg & Ht & Hptrs & _).
    destruct (pushDynamic e t) as [e' p] eqn:Hpush.
    assert (He' : e' = (pushDynamic e t).1) by (by rewrite Hpush).
    assert (Hp : p = DynT (length (te_dynamicTypes e))) by (unfold pushDynamic in Hpush; congruence).
    assert (Hlook : te_dynamicTypes e' !! length (te_dynamicTypes e) = Some t).
    { subst e'. simpl. by rewrite lookup_app_r, Nat.sub_diag by lia. }
    assert (Huniq : pointers_unique e') by (subst e'; by eapply pointers_unique_push).
    exists e', p, t. split_and!; subst e'; auto with types.
    + by subst p.
    + apply pushDynamic_closed; [done|]. rewrite Hptrs. by repeat constructor.
    + unfold getPointerType. rewrite (list_find_first_pointer _ q _ t Hlook Ht); [by subst p|].
      intros j tj Hj Htj. simpl in Hj. apply lookup_app_Some in Hj as [Hj|[Hle Hj]].
      * by rewrite (Hfresh j tj Hj) in Htj.
      * apply list_lookup_singleton_Some in Hj as [Hj _]. lia.
Qed.

Lemma getPointerType_spec_witness :
  let e := initial_env in
  ∃ e' p t, getPointerType e (RegT "int32") = Ret (e', p) ∧
    resolve e' p = Some t ∧ isPointerTo (RegT "int32") t = true ∧
    extends e e' ∧ closed e' ∧ pointers_unique e' ∧
    getPointerType e' (RegT "int32") = Ret (e', p).
Proof.
  intros e. apply (getPointerType_spec e (RegT "int32")).
  - apply newTypeRegistry_closed.
  - intros i j ti tj q Hi. by destruct i.
  - eexists. vm_compute. reflexivity.
Defined.
