(* ===== verification/Assign.v ===== *)
(** * Type queries, assignability and widening

    The type-query helpers of [checkers/Checker_type.cpp]: [isNumeric] and its
    siblings, [isAssignable], [canWidenTo], and the classification of enums for
    unwrap-catch expressions. *)

From S2P Require Import Prelude CxxLib TypeInfo.
Local Open Scope Z_scope.

(** ** Queries on one type *)

(** [ti && (...)]: null answers false. *)
Definition isNumeric (ti : option TypeInfo) : bool :=
  match ti with
  | Some t => hasKind TK.Integer t || hasKind TK.Float t || hasKind TK.Char t
  | None => false
  end.

Definition isInteger (ti : option TypeInfo) : bool :=
  match ti with
  | Some t => hasKind TK.Integer t || hasKind TK.Char t
  | None => false
  end.

Definition isIntegerOrPointer (ti : option TypeInfo) : bool :=
  match ti with
  | Some t => hasKind TK.Integer t || hasKind TK.Char t || hasKind TK.Pointer t
  | None => false
  end.

Definition isConditionType (ti : option TypeInfo) : bool :=
  match ti with
  | None => true
  | Some t => hasKind TK.Bool t || hasKind TK.Integer t || hasKind TK.Float t
  end.

(** ** Assignability *)

(** Pointer-sized integers count as 64 bits. *)
Definition effBitWidth (t : TypeInfo) : Z :=
  if ti_bitWidth t =? 0 then 64 else ti_bitWidth t.

(** The integer rule of [isAssignable]. *)
Definition intRule (lt rt : TypeInfo) : bool :=
  hasKind TK.Integer lt && hasKind TK.Integer rt &&
  (eqb (ti_isSigned lt) (ti_isSigned rt)
   || (negb (ti_isSigned lt) && ti_isSigned rt && (effBitWidth lt <=? effBitWidth rt))
   || (negb (ti_isSigned rt) && ti_isSigned lt && (effBitWidth rt <=? effBitWidth lt))).

(** [t->kind == Pointer && t->pointeeType && t->pointeeType->kind == Function] *)
Definition isFunctionPointer (e : type_env) (t : TypeInfo) : outcome bool :=
  if hasKind TK.Pointer t then
    match ti_pointeeType t with
    | Some q => qt ← deref e q; Ret (hasKind TK.Function qt)
    | None => Ret false
    end
  else Ret false.

(** [a && b && !rec(a, b)] as the early exit it guards: [Ret true] to go on. *)
Definition bothAssignable (rec : option tyref → option tyref → outcome bool)
    (a b : option tyref) : outcome bool :=
  match a, b with
  | Some _, Some _ => rec a b
  | _, _ => Ret true
  end.

(** [for (auto* ti = rhs; ti; ti = ti->parentType) if (ti == lhs) return true;] *)
Fixpoint parentChainHas (fuel : nat) (e : type_env) (l : tyref) (r : option tyref)
    : outcome bool :=
  match fuel with
  | O => NoFuel
  | S fuel =>
      match r with
      | None => Ret false
      | Some q =>
          if bool_decide (q = l) then Ret true
          else t ← deref e q; parentChainHas fuel e l (ti_parentType t)
      end
  end.

Fixpoint isAssignable (fuel : nat) (e : type_env) (lhs rhs : option tyref) : outcome bool :=
  match fuel with
  | O => NoFuel
  | S fuel =>
    match lhs, rhs with
    | Some l, Some r =>
      if bool_decide (l = r) then Ret true else
      lt ← deref e l;
      rt ← deref e r;
      if bool_decide (ti_name lt = ti_name rt) then Ret true else
      if intRule lt rt then Ret true else
      if hasKind TK.Enum lt && hasKind TK.Integer rt then Ret true else
      if hasKind TK.Integer lt && hasKind TK.Enum rt then Ret true else
      if hasKind TK.Enum lt && hasKind TK.Enum rt then Ret true else
      if (hasKind TK.Char lt && hasKind TK.Integer rt)
         || (hasKind TK.Integer lt && hasKind TK.Char rt) then Ret true else
      if hasKind TK.Float lt && hasKind TK.Float rt then Ret true else
      if hasKind TK.Function lt && hasKind TK.Function rt then Ret true else
      lfp ← isFunctionPointer e lt;
      if lfp && hasKind TK.Function rt then Ret true else
      rfp ← isFunctionPointer e rt;
      if rfp && hasKind TK.Function lt then Ret true else
      if hasKind (ti_kind lt) rt then
        if hasKind TK.Extended lt then
          if negb (bool_decide (ti_extendedKind lt = ti_extendedKind rt)) then Ret false else
          be ← bothAssignable (isAssignable fuel e) (ti_elementType lt) (ti_elementType rt);
          if negb be then Ret false else
          bk ← bothAssignable (isAssignable fuel e) (ti_keyType lt) (ti_keyType rt);
          if negb bk then Ret false else
          bv ← bothAssignable (isAssignable fuel e) (ti_valueType lt) (ti_valueType rt);
          if negb bv then Ret false else Ret true
        else Ret true
      else
        inh ← (if hasKind TK.Struct lt && hasKind TK.Struct rt
               then parentChainHas fuel e l (Some r) else Ret false);
        if (inh : bool) then Ret true else
        if hasKind TK.Fallible lt then
          bs ← match ti_successType lt with
               | Some s => isAssignable fuel e (Some s) rhs | None => Ret false end;
          if (bs : bool) then Ret true else
          match ti_errorType lt with
          | Some s => isAssignable fuel e (Some s) rhs | None => Ret false end
        else Ret false
    | _, _ => Ret true
    end
  end.

(** ** Widening *)

Definition canWidenTo (e : type_env) (from to : option tyref) : outcome bool :=
  match from, to with
  | Some f, Some t =>
      if bool_decide (f = t) then Ret true else
      ft ← deref e f;
      tt ← deref e t;
      if bool_decide (ti_name ft = ti_name tt) then Ret true else
      if hasKind TK.Integer ft && hasKind TK.Integer tt then
        if negb (eqb (ti_isSigned ft) (ti_isSigned tt)) then Ret false
        else Ret (effBitWidth ft <=? effBitWidth tt)
      else if hasKind TK.Float ft && hasKind TK.Float tt then
        Ret (ti_bitWidth ft <=? ti_bitWidth tt)
      else Ret false
  | _, _ => Ret false
  end.

(** ** Unwrap-catch classification *)

Definition singlePayloadType (variant : EnumVariantInfo) : option tyref :=
  match ev_payloadFields variant with
  | [f] => fi_typeInfo f
  | _ => None
  end.

Fixpoint isOrInheritsFrom (fuel : nat) (e : type_env) (ti : option tyref) (name : string)
    : outcome bool :=
  match fuel with
  | O => NoFuel
  | S fuel =>
      match ti with
      | None => Ret false
      | Some p =>
          t ← deref e p;
          if bool_decide (ti_name t = name) then Ret true
          else isOrInheritsFrom fuel e (ti_parentType t) name
      end
  end.

(** [UnwrapCatchPatternInfo]: the variants found so far, by position. *)
Record UnwrapCatchPatternInfo := {
  uc_okVariant : option nat;
  uc_errVariant : option nat }.

#[export] Instance settable_unwrap : Settable UnwrapCatchPatternInfo := λ u,
  Build_UnwrapCatchPatternInfo (uc_okVariant u) (uc_errVariant u).

Definition looksLikeErr (fuel : nat) (e : type_env) (variant : EnumVariantInfo)
    : outcome bool :=
  if (length (ev_payloadFields variant) =? 0)%nat then Ret true else
  if ev_isError variant then Ret true else
  if bool_decide (ev_name variant = "Err") then Ret true else
  match ev_payloadFields variant with
  | [f] => match fi_typeInfo f with
           | Some p => isOrInheritsFrom fuel e (Some p) "Error"
           | None => Ret false
           end
  | _ => Ret false
  end.

Inductive unwrap_reason :=
| NotEnum | NotTwoVariants | TwoErrors | OkPayload | TwoOks | Missing.

(** The loop over the variants, from index [i]: the filled pattern, or the reason
    and the pattern at the point of failure. *)
Fixpoint classifyVariants (fuel : nat) (e : type_env) (i : nat) (vs : list EnumVariantInfo)
    (out : UnwrapCatchPatternInfo)
    : outcome (option unwrap_reason * UnwrapCatchPatternInfo) :=
  match vs with
  | [] => Ret (None, out)
  | v :: vs =>
      err ← looksLikeErr fuel e v;
      if (err : bool) then
        match uc_errVariant out with
        | Some _ => Ret (Some TwoErrors, out)
        | None => classifyVariants fuel e (S i) vs (out <| uc_errVariant := Some i |>)
        end
      else if negb (length (ev_payloadFields v) =? 1)%nat then Ret (Some OkPayload, out)
      else match uc_okVariant out with
           | Some _ => Ret (Some TwoOks, out)
           | None => classifyVariants fuel e (S i) vs (out <| uc_okVariant := Some i |>)
           end
  end.

Definition classifyUnwrapCatchEnum (fuel : nat) (e : type_env) (enumType : option tyref)
    (out : UnwrapCatchPatternInfo)
    : outcome (option unwrap_reason * UnwrapCatchPatternInfo) :=
  match enumType with
  | None => Ret (Some NotEnum, out)
  | Some p =>
      t ← deref e p;
      if negb (hasKind TK.Enum t) then Ret (Some NotEnum, out) else
      if negb (length (ti_enumVariantInfos t) =? 2)%nat then Ret (Some NotTwoVariants, out) else
      r ← classifyVariants fuel e 0 (ti_enumVariantInfos t) out;
      match r with
      | (Some why, out) => Ret (Some why, out)
      | (None, out) =>
          match uc_errVariant out, uc_okVariant out with
          | Some _, Some _ => Ret (None, out)
          | _, _ => Ret (Some Missing, out)
          end
      end
  end.

(** ** What the rules amount to

    [assignable] is the relation the checker decides, stated without the order in
    which the code tries its rules. *)

Definition pointsToFunction (e : type_env) (t : TypeInfo) : bool :=
  hasKind TK.Pointer t &&
  match ti_pointeeType t ≫= resolve e with
  | Some qt => hasKind TK.Function qt
  | None => false
  end.

Definition directRule (e : type_env) (lt rt : TypeInfo) : bool :=
  (hasKind (ti_kind lt) rt && negb (hasKind TK.Extended lt))
  || (hasKind TK.Enum lt && hasKind TK.Integer rt)
  || (hasKind TK.Integer lt && hasKind TK.Enum rt)
  || (hasKind TK.Char lt && hasKind TK.Integer rt)
  || (hasKind TK.Integer lt && hasKind TK.Char rt)
  || (pointsToFunction e lt && hasKind TK.Function rt)
  || (hasKind TK.Function lt && pointsToFunction e rt).

Inductive assignable (e : type_env) : tyref → tyref → Prop :=
| as_refl p : assignable e p p
| as_name l r lt rt :
    resolve e l = Some lt → resolve e r = Some rt → ti_name lt = ti_name rt →
    assignable e l r
| as_direct l r lt rt :
    resolve e l = Some lt → resolve e r = Some rt → directRule e lt rt = true →
    assignable e l r
| as_extended l r lt rt :
    resolve e l = Some lt → resolve e r = Some rt →
    ti_kind lt = TK.Extended → ti_kind rt = TK.Extended →
    ti_extendedKind lt = ti_extendedKind rt →
    (∀ a b, ti_elementType lt = Some a → ti_elementType rt = Some b → assignable e a b) →
    (∀ a b, ti_keyType lt = Some a → ti_keyType rt = Some b → assignable e a b) →
    (∀ a b, ti_valueType lt = Some a → ti_valueType rt = Some b → assignable e a b) →
    assignable e l r
| as_success l r lt s :
    resolve e l = Some lt → ti_kind lt = TK.Fallible → ti_successType lt = Some s →
    assignable e s r → assignable e l r
| as_error l r lt s :
    resolve e l = Some lt → ti_kind lt = TK.Fallible → ti_errorType lt = Some s →
    assignable e s r → assignable e l r.

(** The pointers [isAssignable] recurses through. *)
Definition componentTypes (t : TypeInfo) : list tyref :=
  opt_list (ti_elementType t) ++ opt_list (ti_keyType t) ++ opt_list (ti_valueType t) ++
  opt_list (ti_successType t) ++ opt_list (ti_errorType t).

(** Types are built from components that exist before them: [rank] decreases
    along every component pointer. *)
Definition ranked (e : type_env) (rank : tyref → nat) : Prop :=
  ∀ p t q, resolve e p = Some t → q ∈ componentTypes t → (rank q < rank p)%nat.

(** Decomposition of [hasKind] over all kinds at once. *)
Ltac by_kinds lt rt :=
  unfold intRule, directRule, pointsToFunction, hasKind in *;
  destruct (ti_kind lt) eqn:?, (ti_kind rt) eqn:?; simpl in *; simplify_eq/=; try done.

Section assignability.
Context (e : type_env) (rank : tyref → nat).
Context (Hclosed : closed e) (Hranked : ranked e rank).

Lemma component_resolves p t q :
  resolve e p = Some t → q ∈ ti_pointers t → is_Some (resolve e q).
Proof. intros Hp Hq. by eapply Forall_forall in Hq; [|exact (Hclosed p t Hp)]. Qed.

Lemma component_ok p t q :
  resolve e p = Some t → q ∈ componentTypes t →
  (rank q < rank p)%nat ∧ is_Some (resolve e q).
Proof.
  intros Hp Hq. split; [eauto|]. apply (component_resolves p t); [done|].
  unfold componentTypes in Hq. unfold ti_pointers. rewrite !elem_of_app in *. tauto.
Qed.

Lemma isFunctionPointer_ret p t :
  resolve e p = Some t → isFunctionPointer e t = Ret (pointsToFunction e t).
Proof.
  intros Hp. unfold isFunctionPointer, pointsToFunction.
  destruct (hasKind TK.Pointer t); [|done]. simpl.
  destruct (ti_pointeeType t) as [q|] eqn:Hq; [|done]. simpl.
  destruct (component_resolves p t q Hp) as [qt Hqt].
  { unfold ti_pointers. rewrite !elem_of_app, Hq. simpl. rewrite list_elem_of_singleton. tauto. }
  unfold deref. by rewrite Hqt.
Qed.

(** The part of [isAssignable] for two [Extended] types and for a fallible
    target, over the recursive calls. *)
Definition extendedPart (rec : option tyref → option tyref → outcome bool)
    (lt rt : TypeInfo) : outcome bool :=
  if negb (bool_decide (ti_extendedKind lt = ti_extendedKind rt)) then Ret false else
  be ← bothAssignable rec (ti_elementType lt) (ti_elementType rt);
  if negb be then Ret false else
  bk ← bothAssignable rec (ti_keyType lt) (ti_keyType rt);
  if negb bk then Ret false else
  bv ← bothAssignable rec (ti_valueType lt) (ti_valueType rt);
  if negb bv then Ret false else Ret true.

Definition falliblePart (rec : option tyref → option tyref → outcome bool)
    (lt : TypeInfo) (r : tyref) : outcome bool :=
  bs ← match ti_successType lt with
       | Some s => rec (Some s) (Some r) | None => Ret false end;
  if (bs : bool) then Ret true else
  match ti_errorType lt with
  | Some s => rec (Some s) (Some r) | None => Ret false end.

(** One round of [isAssignable], with the rules that decide at once collected in
    [directRule] and the two unreachable ones gone. *)
Lemma isAssignable_step fuel l r lt rt :
  resolve e l = Some lt → resolve e r = Some rt →
  isAssignable (S fuel) e (Some l) (Some r) =
  if bool_decide (l = r) then Ret true else
  if bool_decide (ti_name lt = ti_name rt) then Ret true else
  if directRule e lt rt then Ret true else
  if hasKind TK.Extended lt && hasKind TK.Extended rt
  then extendedPart (isAssignable fuel e) lt rt
  else if hasKind TK.Fallible lt then falliblePart (isAssignable fuel e) lt r
  else Ret false.
Proof.
  intros Hl Hr. cbn [isAssignable].
  case_bool_decide; [done|].
  unfold deref at 1 2. rewrite Hl, Hr. cbn [mbind outcome_bind].
  rewrite (isFunctionPointer_ret l lt Hl), (isFunctionPointer_ret r rt Hr).
  cbn [mbind outcome_bind]. case_bool_decide; [done|].
  unfold extendedPart, falliblePart. by_kinds lt rt; rewrite ?andb_false_r, ?andb_true_r;
    repeat case_match; done.
Qed.

(** [rec] decides assignability of the components of [lt]. *)
Definition decides (rec : option tyref → option tyref → outcome bool) (l r : tyref) : Prop :=
  ∃ v : bool, rec (Some l) (Some r) = Ret v ∧ (v = true ↔ assignable e l r).

Lemma bothAssignable_correct rec (a b : option tyref) :
  (∀ l r, a = Some l → b = Some r → decides rec l r) →
  ∃ v : bool, bothAssignable rec a b = Ret v ∧
    (v = true ↔ ∀ l r, a = Some l → b = Some r → assignable e l r).
Proof.
  intros H. destruct a as [l|], b as [r|]; simpl; try (exists true; naive_solver).
  destruct (H l r) as (v & -> & Hv); [done..|]. exists v. split; [done|].
  rewrite Hv. naive_solver.
Qed.

(** With the rules above, an assignability derivation ends in one of two ways. *)
Definition extendedOk (lt rt : TypeInfo) : Prop :=
  ti_extendedKind lt = ti_extendedKind rt ∧
  (∀ a b, ti_elementType lt = Some a → ti_elementType rt = Some b → assignable e a b) ∧
  (∀ a b, ti_keyType lt = Some a → ti_keyType rt = Some b → assignable e a b) ∧
  (∀ a b, ti_valueType lt = Some a → ti_valueType rt = Some b → assignable e a b).
Definition fallibleOk (lt : TypeInfo) (r : tyref) : Prop :=
  ∃ s, (ti_successType lt = Some s ∨ ti_errorType lt = Some s) ∧ assignable e s r.

Lemma assignable_inv l r lt rt :
  resolve e l = Some lt → resolve e r = Some rt → l ≠ r → ti_name lt ≠ ti_name rt →
  directRule e lt rt = false → assignable e l r →
  (ti_kind lt = TK.Extended ∧ ti_kind rt = TK.Extended ∧ extendedOk lt rt) ∨
  (ti_kind lt = TK.Fallible ∧ fallibleOk lt r).
Proof.
  unfold extendedOk, fallibleOk. intros Hl Hr ??? H.
  destruct H; simplify_eq; [congruence|left; tauto|right; eauto..].
Qed.

Lemma extendedPart_correct rec lt rt :
  (∀ a b, a ∈ componentTypes lt → b ∈ componentTypes rt → decides rec a b) →
  ∃ v, extendedPart rec lt rt = Ret v ∧ (v = true ↔ extendedOk lt rt).
Proof.
  intros Hrec. unfold extendedPart, extendedOk.
  destruct (bothAssignable_correct rec (ti_elementType lt) (ti_elementType rt)) as (be & -> & Hbe).
  { intros a b Ha Hb. apply Hrec; unfold componentTypes; rewrite ?Ha, ?Hb; set_solver. }
  destruct (bothAssignable_correct rec (ti_keyType lt) (ti_keyType rt)) as (bk & Ek & Hbk).
  { intros a b Ha Hb. apply Hrec; unfold componentTypes; rewrite ?Ha, ?Hb; set_solver. }
  destruct (bothAssignable_correct rec (ti_valueType lt) (ti_valueType rt)) as (bv & Ev & Hbv).
  { intros a b Ha Hb. apply Hrec; unfold componentTypes; rewrite ?Ha, ?Hb; set_solver. }
  setoid_rewrite <-Hbe. setoid_rewrite <-Hbk. setoid_rewrite <-Hbv.
  case_bool_decide; cbn [negb mbind outcome_bind]; [|exists false; naive_solver].
  destruct be; cbn [negb]; [|exists false; naive_solver].
  rewrite Ek. destruct bk; cbn [negb mbind outcome_bind]; [|exists false; naive_solver].
  rewrite Ev. destruct bv; cbn [negb mbind outcome_bind]; [exists true|exists false]; naive_solver.
Qed.

Lemma falliblePart_correct rec lt r :
  (∀ s, s ∈ componentTypes lt → decides rec s r) →
  ∃ v, falliblePart rec lt r = Ret v ∧ (v = true ↔ fallibleOk lt r).
Proof.
  intros Hrec. unfold falliblePart, fallibleOk.
  assert (Hs : ∀ s, ti_successType lt = Some s → decides rec s r).
  { intros s Hs. apply Hrec. unfold componentTypes. rewrite Hs. set_solver. }
  assert (He : ∀ s, ti_errorType lt = Some s → decides rec s r).
  { intros s Hs'. apply Hrec. unfold componentTypes. rewrite Hs'. set_solver. }
  unfold decides in *.
  destruct (ti_successType lt) as [s|] eqn:?.
  - destruct (Hs s) as ([] & -> & Hv); [done|exists true; naive_solver|].
    cbn [mbind outcome_bind]. destruct (ti_errorType lt) as [s'|].
    + destruct (He s') as (v & -> & Hv'); [done|]. exists v. naive_solver.
    + exists false. naive_solver.
  - cbn [mbind outcome_bind]. destruct (ti_errorType lt) as [s'|].
    + destruct (He s') as (v & -> & Hv'); [done|]. exists v. naive_solver.
    + exists false. naive_solver.
Qed.

Lemma isAssignable_correct fuel l r :
  (rank l < fuel)%nat → is_Some (resolve e l) → is_Some (resolve e r) →
  decides (isAssignable fuel e) l r.
Proof.
  revert l r. induction fuel as [|fuel IH]; intros l r Hrank [lt Hl] [rt Hr]; [lia|].
  unfold decides. rewrite (isAssignable_step fuel l r lt rt Hl Hr).
  assert (Hrec : ∀ l' r', l' ∈ componentTypes lt → is_Some (resolve e r') →
    decides (isAssignable fuel e) l' r').
  { intros l' r' Hin Hr'. destruct (component_ok l lt l' Hl Hin). apply IH; [lia|done..]. }
  case_bool_decide as Hlr; [subst; exists true; naive_solver eauto using assignable|].
  case_bool_decide as Hname; [exists true; naive_solver eauto using assignable|].
  destruct (directRule e lt rt) eqn:Hdir; [exists true; naive_solver eauto using assignable|].
  assert (Hinv := assignable_inv l r lt rt Hl Hr Hlr Hname Hdir).
  destruct (hasKind TK.Extended lt && hasKind TK.Extended rt) eqn:Hext.
  - apply andb_true_iff in Hext as [Hkl%bool_decide_eq_true_1 Hkr%bool_decide_eq_true_1].
    destruct (extendedPart_correct (isAssignable fuel e) lt rt) as (v & -> & Hv).
    { intros a b Ha Hb. apply Hrec; [done|]. by apply (component_ok r rt). }
    exists v. split; [done|]. rewrite Hv. split; [|naive_solver congruence].
    intros (?&?&?&?). by eapply as_extended.
  - destruct (hasKind TK.Fallible lt) eqn:Hf.
    + apply bool_decide_eq_true_1 in Hf.
      destruct (falliblePart_correct (isAssignable fuel e) lt r) as (v & -> & Hv); [eauto|].
      exists v. split; [done|]. rewrite Hv. split; [|naive_solver congruence].
      intros (s & [Hs|Hs] & ?); [by eapply as_success|by eapply as_error].
    + exists false. split; [done|]. split; [done|]. intros Ha.
      unfold hasKind in *. destruct (Hinv Ha) as [(E1&E2&_)|(E1&_)].
      * by rewrite E1, E2 in Hext.
      * by rewrite E1 in Hf.
Qed.
End assignability.

(** ** Properties of assignability *)

(** A type environment as the checker builds it: no dangling pointer, and types
    built from components that exist before them. *)
Definition well_founded_env (e : type_env) : Prop :=
  closed e ∧ ∃ rank, ranked e rank.

(** C15: [isAssignable] terminates and decides the assignability relation.  In an
    environment without dangling pointers whose types are built from earlier
    components, there is a recursion depth from which on the function returns, for
    any two types, [true] exactly when the relation [assignable] holds between
    them; a null operand is always accepted. *)
Theorem isAssignable_decides e l r :
  well_founded_env e → is_Some (resolve e l) → is_Some (resolve e r) →
  ∃ n, ∀ fuel, (n ≤ fuel)%nat →
    (∃ b, isAssignable fuel e (Some l) (Some r) = Ret b ∧ (b = true ↔ assignable e l r)) ∧
    isAssignable fuel e None (Some r) = Ret true ∧
    isAssignable fuel e (Some l) None = Ret true.
Proof.
  intros [Hc [rank Hr]] Hl Hr'. exists (S (rank l)). intros fuel Hf.
  destruct fuel as [|fuel]; [lia|].
  split; [|done]. apply (isAssignable_correct e rank); [done|done|lia|done|done].
Qed.

(** within one kind the checker distinguishes only extended types.  Any two
    types of the same kind other than [Extended] are assignable in both
    directions: two integers of any width and signedness, any two structs related
    by inheritance or not, any two pointers whatever they point to. *)
Lemma isAssignable_same_kind e l r lt rt fuel :
  closed e → resolve e l = Some lt → resolve e r = Some rt →
  ti_kind lt = ti_kind rt → ti_kind lt ≠ TK.Extended →
  isAssignable (S fuel) e (Some l) (Some r) = Ret true.
Proof.
  intros Hc Hl Hr Hk Hne. rewrite (isAssignable_step e Hc fuel l r lt rt Hl Hr).
  assert (directRule e lt rt = true) as ->.
  { unfold directRule, hasKind. rewrite (bool_decide_eq_true_2 _ (eq_sym Hk)).
    by rewrite bool_decide_eq_false_2. }
  by repeat case_bool_decide.
Qed.

(** ** Properties of widening *)

(** The values of an integer type, by width and signedness. *)
Definition int_value (t : TypeInfo) (z : Z) : Prop :=
  if ti_isSigned t then - 2 ^ (effBitWidth t - 1) ≤ z < 2 ^ (effBitWidth t - 1)
  else 0 ≤ z < 2 ^ effBitWidth t.

(** Types of one name agree on what widening looks at. *)
Definition names_determine (e : type_env) : Prop :=
  ∀ p q tp tq, resolve e p = Some tp → resolve e q = Some tq → ti_name tp = ti_name tq →
    ti_kind tp = ti_kind tq ∧ ti_isSigned tp = ti_isSigned tq ∧ ti_bitWidth tp = ti_bitWidth tq.

(** Widths are unsigned machine integers. *)
Definition widths_ok (e : type_env) : Prop :=
  ∀ p t, resolve e p = Some t → 0 ≤ ti_bitWidth t.

(** Agreement on kind, signedness and an ordering of widths. *)
Definition widens (ft tt : TypeInfo) : Prop :=
  ti_name ft = ti_name tt ∨
  (ti_kind ft = TK.Integer ∧ ti_kind tt = TK.Integer ∧
   ti_isSigned ft = ti_isSigned tt ∧ effBitWidth ft ≤ effBitWidth tt) ∨
  (ti_kind ft = TK.Float ∧ ti_kind tt = TK.Float ∧ ti_bitWidth ft ≤ ti_bitWidth tt).

Lemma canWidenTo_ret e f t ft tt :
  resolve e f = Some ft → resolve e t = Some tt →
  ∃ b, canWidenTo e (Some f) (Some t) = Ret b ∧ (b = true ↔ widens ft tt).
Proof.
  intros Hf Ht. unfold canWidenTo, widens, deref. rewrite Hf, Ht. simpl.
  case_bool_decide; [simplify_eq; exists true; tauto|].
  case_bool_decide; [exists true; tauto|].
  unfold hasKind.
  destruct (decide (ti_kind ft = TK.Integer)) as [Ei|Ei];
    [rewrite (bool_decide_eq_true_2 _ Ei)|rewrite (bool_decide_eq_false_2 _ Ei)]; simpl.
  - destruct (decide (ti_kind tt = TK.Integer)) as [Ej|Ej];
      [rewrite (bool_decide_eq_true_2 _ Ej)|rewrite (bool_decide_eq_false_2 _ Ej)]; simpl.
    + destruct (eqb (ti_isSigned ft) (ti_isSigned tt)) eqn:Es; simpl.
      * apply eqb_prop in Es. eexists. split; [done|]. rewrite Z.leb_le. naive_solver congruence.
      * apply eqb_false_iff in Es. exists false. naive_solver congruence.
    + rewrite bool_decide_eq_false_2 by congruence. exists false. naive_solver congruence.
  - destruct (decide (ti_kind ft = TK.Float)) as [Ef|Ef];
      [rewrite (bool_decide_eq_true_2 _ Ef)|rewrite (bool_decide_eq_false_2 _ Ef)]; simpl.
    + case_bool_decide; simpl; [|exists false; naive_solver congruence].
      eexists. split; [done|]. rewrite Z.leb_le. naive_solver congruence.
    + exists false. naive_solver congruence.
Qed.

Lemma widens_trans e p q r tp tq tr :
  names_determine e →
  resolve e p = Some tp → resolve e q = Some tq → resolve e r = Some tr →
  widens tp tq → widens tq tr → widens tp tr.
Proof.
  intros Hn Hp Hq Hr H1 H2. unfold widens, effBitWidth in *.
  destruct H1 as [Hpq|H1].
  - destruct (Hn p q tp tq Hp Hq Hpq) as (-> & -> & ->). rewrite Hpq. done.
  - destruct H2 as [Hqr|H2].
    + destruct (Hn q r tq tr Hq Hr Hqr) as (<- & <- & <-). rewrite <-Hqr. tauto.
    + right. destruct H1 as [(?&?&?&?)|(?&?&?)], H2 as [(?&?&?&?)|(?&?&?)];
        try congruence; [left|right]; split_and!; (congruence || lia).
Qed.

(** widening is a sound preorder.  [canWidenTo] always answers on types that
    resolve; it is reflexive and transitive; what it accepts [isAssignable] accepts;
    and when it lets one integer type widen to another, every value of the first is
    a value of the second, so the implicit conversion loses nothing. *)
Lemma canWidenTo_sound e p q r tp tq tr :
  closed e → names_determine e → widths_ok e →
  resolve e p = Some tp → resolve e q = Some tq → resolve e r = Some tr →
  is_ret (canWidenTo e (Some p) (Some q)) = true ∧
  canWidenTo e (Some p) (Some p) = Ret true ∧
  (canWidenTo e (Some p) (Some q) = Ret true →
   canWidenTo e (Some q) (Some r) = Ret true →
   canWidenTo e (Some p) (Some r) = Ret true) ∧
  (canWidenTo e (Some p) (Some q) = Ret true →
   (∀ fuel, isAssignable (S fuel) e (Some q) (Some p) = Ret true) ∧
   (ti_kind tp = TK.Integer →
    ti_kind tq = TK.Integer ∧ ∀ z, int_value tp z → int_value tq z)).
Proof.
  intros Hc Hn Hw Hp Hq Hr.
  destruct (canWidenTo_ret e p q tp tq Hp Hq) as (bpq & -> & Hpq).
  destruct (canWidenTo_ret e q r tq tr Hq Hr) as (bqr & -> & Hqr).
  destruct (canWidenTo_ret e p r tp tr Hp Hr) as (bpr & -> & Hpr).
  split_and!; [done|simpl; by rewrite bool_decide_eq_true_2| |].
  - intros [= ->] [= ->]. f_equal. apply Hpr.
    eapply (widens_trans e p q r); eauto; tauto.
  - intros [= ->]. assert (widens tp tq) as Hwid by tauto. split.
    + intros fuel. rewrite (isAssignable_step e Hc fuel q p tq tp Hq Hp).
      case_bool_decide; [done|]. case_bool_decide; [done|].
      destruct Hwid as [?|[(Ep&Eq&_)|(Ep&Eq&_)]]; [congruence|..];
        unfold directRule, hasKind; by rewrite Ep, Eq.
    + intros Hk. destruct Hwid as [Hpq'|[(_&Hk'&Hs&Hle)|(?&_)]]; [| |congruence].
      * destruct (Hn p q tp tq Hp Hq Hpq') as (<- & Es & Eb). split; [done|].
        unfold int_value, effBitWidth. by rewrite Es, Eb.
      * split; [done|]. intros z. unfold int_value. rewrite Hs.
        assert (1 ≤ effBitWidth tp).
        { pose proof (Hw p tp Hp). unfold effBitWidth. destruct (Z.eqb_spec (ti_bitWidth tp) 0); lia. }
        pose proof (Z.pow_le_mono_r 2 (effBitWidth tp - 1) (effBitWidth tq - 1)).
        pose proof (Z.pow_le_mono_r 2 (effBitWidth tp) (effBitWidth tq)).
        destruct (ti_isSigned tq); lia.
Qed.

(** ** Instances *)

Lemma names_determine_registry types_ :
  registry_named types_ → names_determine (Build_type_env types_ []).
Proof.
  intros H [n|i] [m|j] tp tq; simpl; try by (intros ?; rewrite ?lookup_nil).
  intros Hn Hm Heq. rewrite (H n tp Hn), (H m tq Hm) in Heq. naive_solver.
Qed.

Lemma widths_ok_initial : widths_ok initial_env.
Proof.
  assert (H : map_Forall (λ _ t, 0 ≤ ti_bitWidth t) newTypeRegistry).
  { apply (bool_decide_unpack _). vm_compute. exact I. }
  intros [n|i] t Ht; [exact (H n t Ht)|by destruct i].
Qed.

(** The initial registry with [Vec<int32>] added. *)
Definition vec_env : type_env := (resolveBuiltinReturnType initial_env "Vec<int32>").1.

Lemma vec_env_well_founded : well_founded_env vec_env.
Proof.
  split.
  - apply (pushDynamic_closed initial_env); [apply newTypeRegistry_closed|].
    apply (bool_decide_unpack _). vm_compute. exact I.
  - exists (λ p, match p with RegT _ => 0%nat | DynT i => S i end).
    assert (H : map_Forall (λ _ t, componentTypes t = []) newTypeRegistry).
    { apply (bool_decide_unpack _). vm_compute. exact I. }
    intros [n|[|i]] t q Ht Hq.
    + by rewrite (H n t Ht) in Hq; apply not_elem_of_nil in Hq.
    + vm_compute in Ht. simplify_eq. vm_compute in Hq.
      apply list_elem_of_singleton in Hq as ->. lia.
    + vm_compute in Ht. by destruct i.
Qed.

Lemma isAssignable_decides_witness :
  ∃ n, ∀ fuel, (n ≤ fuel)%nat →
    (∃ b, isAssignable fuel vec_env (Some (DynT 0)) (Some (RegT "Mutex")) = Ret b ∧
       (b = true ↔ assignable vec_env (DynT 0) (RegT "Mutex"))) ∧
    isAssignable fuel vec_env None (Some (RegT "Mutex")) = Ret true ∧
    isAssignable fuel vec_env (Some (DynT 0)) None = Ret true.
Proof.
  apply (isAssignable_decides vec_env (DynT 0) (RegT "Mutex") vec_env_well_founded);
    eexists; vm_compute; reflexivity.
Defined.

Lemma isAssignable_same_kind_witness :
  isAssignable 1 initial_env (Some (RegT "uint8")) (Some (RegT "int64")) = Ret true.
Proof.
  eapply (isAssignable_same_kind initial_env (RegT "uint8") (RegT "int64"));
    [apply newTypeRegistry_closed|vm_compute; reflexivity|vm_compute; reflexivity
    |reflexivity|discriminate].
Defined.

Lemma canWidenTo_sound_witness :
  let e := initial_env in
  canWidenTo e (Some (RegT "uint8")) (Some (RegT "usize")) = Ret true ∧
  ∀ z, int_value (mkTypeInfo "uint8" TK.Integer 8 false "u8") z →
       int_value (mkTypeInfo "usize" TK.Integer 0 false "u64") z.
Proof.
  intros e.
  destruct (canWidenTo_sound e (RegT "uint8") (RegT "usize") (RegT "usize")
    (mkTypeInfo "uint8" TK.Integer 8 false "u8") (mkTypeInfo "usize" TK.Integer 0 false "u64")
    (mkTypeInfo "usize" TK.Integer 0 false "u64")) as (_ & _ & _ & H).
  - apply newTypeRegistry_closed.
  - apply names_determine_registry, registry_named_builtins, registry_named_empty.
  - apply widths_ok_initial.
  - vm_compute. reflexivity.
  - vm_compute. reflexivity.
  - vm_compute. reflexivity.
  - assert (Hw : canWidenTo e (Some (RegT "uint8")) (Some (RegT "usize")) = Ret true)
      by (vm_compute; reflexivity).
    split; [done|]. apply (proj2 (proj2 (H Hw) eq_refl)).
Defined.

(** ** Unwrap-catch classification *)

(** An enum that unwrap-catch accepts: two variants, one that signals an error and
    one, with a single payload field, that does not. *)
Definition unwrapShape (err : EnumVariantInfo → bool) (vs : list EnumVariantInfo)
    : option UnwrapCatchPatternInfo :=
  match vs with
  | [a; b] =>
      let one v := (length (ev_payloadFields v) =? 1)%nat in
      if err a && negb (err b) && one b
      then Some (Build_UnwrapCatchPatternInfo (Some 1%nat) (Some 0%nat)) else
      if negb (err a) && err b && one a
      then Some (Build_UnwrapCatchPatternInfo (Some 0%nat) (Some 1%nat)) else None
  | _ => None
  end.

Definition emptyPattern : UnwrapCatchPatternInfo := Build_UnwrapCatchPatternInfo None None.

(** classification of an enum for unwrap-catch.  From an empty pattern, and
    whenever the error test returns on every variant, [classifyUnwrapCatchEnum]
    succeeds exactly on the enums of the accepted shape, and then records the
    error variant and the success variant at their positions. *)
Lemma classifyUnwrapCatchEnum_spec fuel e p t err :
  resolve e p = Some t →
  (∀ v, v ∈ ti_enumVariantInfos t → looksLikeErr fuel e v = Ret (err v)) →
  ∃ why out, classifyUnwrapCatchEnum fuel e (Some p) emptyPattern = Ret (why, out) ∧
    (why = None ↔
       ti_kind t = TK.Enum ∧ is_Some (unwrapShape err (ti_enumVariantInfos t))) ∧
    (why = None → unwrapShape err (ti_enumVariantInfos t) = Some out).
Proof.
  intros Hp Herr. unfold classifyUnwrapCatchEnum, deref. rewrite Hp. simpl.
  unfold hasKind. case_bool_decide as Hk; simpl.
  2: { eexists _, _. split; [done|]. split; [|done]. naive_solver. }
  destruct (ti_enumVariantInfos t) as [|a [|b [|c vs]]] eqn:Hvs; simpl;
    try (eexists _, _; split; [done|]; split; [|done]; split; [done|by intros [_ []]]).
  rewrite (Herr a), (Herr b) by set_solver. simpl.
  destruct (err a), (err b); simpl; repeat case_match; simplify_eq/=;
    (eexists _, _; split; [done|]; split; [|done]); split; intros; eauto;
    try by destruct_and?; naive_solver.
Qed.

(** [enum Parsed { Got(int32), Failed(Error) }] *)
Definition parsedEnum : TypeInfo :=
  (mkTypeInfo "Parsed" TK.Enum 32 false "") <| ti_enumVariantInfos := [
    Build_EnumVariantInfo "Got" 0 PayloadTuple
      [Build_FieldInfo "0" (Some (RegT "int32")) 0 [] false] false;
    Build_EnumVariantInfo "Failed" 1 PayloadTuple
      [Build_FieldInfo "0" (Some (RegT "Error")) 0 [] false] false ] |>.

Definition parsed_env : type_env := Build_type_env (registerType parsedEnum newTypeRegistry) [].

Lemma classifyUnwrapCatchEnum_spec_witness :
  ∃ why out, classifyUnwrapCatchEnum 5 parsed_env (Some (RegT "Parsed")) emptyPattern
      = Ret (why, out) ∧
    (why = None ↔ TK.Enum = TK.Enum ∧
       is_Some (unwrapShape (λ v, bool_decide (ev_name v = "Failed"))
                  (ti_enumVariantInfos parsedEnum))) ∧
    (why = None → unwrapShape (λ v, bool_decide (ev_name v = "Failed"))
                    (ti_enumVariantInfos parsedEnum) = Some out).
Proof.
  apply (classifyUnwrapCatchEnum_spec 5 parsed_env (RegT "Parsed") parsedEnum
           (λ v, bool_decide (ev_name v = "Failed"))).
  - vm_compute. reflexivity.
  - intros v Hv.
    assert (Hall : Forall (λ v, looksLikeErr 5 parsed_env v
        = Ret (bool_decide (ev_name v = "Failed"))) (ti_enumVariantInfos parsedEnum)).
    { repeat constructor; vm_compute; reflexivity. }
    by eapply Forall_forall in Hall.
Defined.
