(* ===== verification/Traits.v ===== *)
(** * Traits, generic constraints and methods along the parent chain

    [types/TraitRegistry.cpp], the constraint functions of
    [checkers/Checker_generic.cpp] and [checkers/Checker_decl.cpp], and the
    method lookups along a struct's parents ([checkers/Checker_decl.cpp]). *)

From S2P Require Import Prelude CxxLib TypeInfo.
Local Open Scope Z_scope.

(** ** Data *)

Record TraitMethodInfo := {
  tm_name : string;
  tm_returnType : option tyref;
  tm_paramTypes : list (option tyref);
  tm_isStatic : bool;
  tm_hasSelfReceiver : bool }.

(** The AST pointers and source positions are left out. *)
Record TraitInfo := {
  tr_name : string;
  tr_modulePath : string;
  tr_typeParams : list string;
  tr_methods : list TraitMethodInfo;
  tr_isBuiltin : bool;
  tr_builtinValidator : option (TypeInfo → bool) }.

Record ImplInfo := {
  im_traitName : string;
  im_typeName : string;
  im_typeArgs : list (option tyref);
  im_implTypeParams : list string;
  im_methodBodies : list TraitMethodInfo;
  im_modulePath : string }.

Record TraitRegistry := {
  tg_traits : gmap string TraitInfo;
  tg_impls : gmap string (gmap string ImplInfo) }.

#[export] Instance settable_TraitRegistry : Settable TraitRegistry := λ g,
  Build_TraitRegistry (tg_traits g) (tg_impls g).

(** ** The registry *)

Definition registerTrait (info : TraitInfo) (g : TraitRegistry) : TraitRegistry :=
  g <| tg_traits := <[tr_name info := info]> (tg_traits g) |>.

Definition trait_lookup (g : TraitRegistry) (name : string) : option TraitInfo :=
  tg_traits g !! name.

Definition isTrait (g : TraitRegistry) (name : string) : bool :=
  bool_decide (is_Some (tg_traits g !! name)).

Definition allTraitNames (g : TraitRegistry) : list string := (map_to_list (tg_traits g)).*1.

(** [impls_[traitName][typeName] = info] *)
Definition registerImpl (info : ImplInfo) (g : TraitRegistry) : TraitRegistry :=
  let inner := default ∅ (tg_impls g !! im_traitName info) in
  g <| tg_impls := <[im_traitName info := <[im_typeName info := info]> inner]> (tg_impls g) |>.

Definition findImpl (g : TraitRegistry) (traitName typeName : string) : option ImplInfo :=
  match tg_impls g !! traitName with
  | None => None
  | Some m => m !! typeName
  end.

Definition typeSatisfiesTrait (g : TraitRegistry) (type : option TypeInfo)
    (trait : option TraitInfo) : bool :=
  match trait, type with
  | Some tr, Some ti =>
      match tr_isBuiltin tr, tr_builtinValidator tr with
      | true, Some validator => validator ti
      | _, _ => bool_decide (is_Some (findImpl g (tr_name tr) (ti_name ti)))
      end
  | _, _ => true
  end.

Definition builtinTrait (name : string) (validator : TypeInfo → bool) : TraitInfo := {|
  tr_name := name; tr_modulePath := ""; tr_typeParams := []; tr_methods := [];
  tr_isBuiltin := true; tr_builtinValidator := Some validator |}.

Definition registerBuiltinTraits (g : TraitRegistry) : TraitRegistry :=
  let g := registerTrait (builtinTrait "numeric"
             (λ ti, hasKind TK.Integer ti || hasKind TK.Float ti)) g in
  let g := registerTrait (builtinTrait "integer" (λ ti, hasKind TK.Integer ti)) g in
  let g := registerTrait (builtinTrait "float" (λ ti, hasKind TK.Float ti)) g in
  let g := registerTrait (builtinTrait "signed"
             (λ ti, hasKind TK.Integer ti && ti_isSigned ti)) g in
  let g := registerTrait (builtinTrait "unsigned"
             (λ ti, hasKind TK.Integer ti && negb (ti_isSigned ti))) g in
  let g := registerTrait (builtinTrait "bool" (λ ti, hasKind TK.Bool ti)) g in
  registerTrait (builtinTrait "string" (λ ti, hasKind TK.String ti)) g.

(** The constructor [TraitRegistry()]. *)
Definition newTraitRegistry : TraitRegistry :=
  registerBuiltinTraits (Build_TraitRegistry ∅ ∅).

(** ** Generic constraints *)

(** Constraint types that are not language types: the local statics of
    [resolveTypeParamConstraint]. *)
Definition constraintType (name : string) (k : TypeKind) (sg : bool) : TypeInfo :=
  mkTypeInfo name k 0 sg "".

(** The names [resolveTypeParamConstraint] knows by itself: [Some None] for
    [any], which constrains nothing, and [None] for every other name. *)
Definition namedConstraint (constraintName : string) : option (option TypeInfo) :=
  let oneOf a b := bool_decide (constraintName = a) || bool_decide (constraintName = b) in
  if oneOf "any" "Any" then Some None else
  if oneOf "numeric" "Numeric" then Some (Some (constraintType "numeric" TK.Integer false)) else
  if oneOf "integer" "Integer" then Some (Some (constraintType "integer" TK.Integer false)) else
  if oneOf "float" "Float" then Some (Some (constraintType "float" TK.Float false)) else
  if oneOf "signed" "Signed" then Some (Some (constraintType "signed" TK.Integer true)) else
  if oneOf "unsigned" "Unsigned" then Some (Some (constraintType "unsigned" TK.Integer false)) else
  if oneOf "bool" "Bool" then Some (Some (constraintType "bool" TK.Bool false)) else
  if oneOf "string" "String" then Some (Some (constraintType "string" TK.String false)) else
  None.

Inductive constraint_error :=
| UnknownConstraint (name : string)
| MustBe (what param got : string)
| UnknownTrait (name : string)
| DoesNotSatisfy (type trait param : string)
| DoesNotImplement (type trait param : string).

(** [typeSatisfiesTraitConstraint]: the answer and the error it reports. *)
Definition typeSatisfiesTraitConstraint (g : TraitRegistry) (type : TypeInfo)
    (trait : option TraitInfo) (paramName : string) : bool * list constraint_error :=
  match trait with
  | None => (true, [])
  | Some tr =>
      match tr_isBuiltin tr, tr_builtinValidator tr with
      | true, Some validator =>
          if validator type then (true, [])
          else (false, [DoesNotSatisfy (ti_name type) (tr_name tr) paramName])
      | _, _ =>
          if typeSatisfiesTrait g (Some type) (Some tr) then (true, [])
          else (false, [DoesNotImplement (ti_name type) (tr_name tr) paramName])
      end
  end.

Definition satisfiesConstraint (g : TraitRegistry) (typeArg : TypeInfo)
    (constraint : option TypeInfo) (paramName : string) : bool * list constraint_error :=
  match constraint with
  | None => (true, [])
  | Some c =>
      let named n := bool_decide (ti_name c = n) in
      let require what (ok : bool) :=
        if ok then (true, []) else (false, [MustBe what paramName (ti_name typeArg)]) in
      if named "numeric" then
        require "numeric" (hasKind TK.Integer typeArg || hasKind TK.Float typeArg)
      else if named "integer" then require "an integer" (hasKind TK.Integer typeArg)
      else if named "float" then require "a float" (hasKind TK.Float typeArg)
      else if named "signed" then
        require "a signed integer" (hasKind TK.Integer typeArg && ti_isSigned typeArg)
      else if named "unsigned" then
        require "an unsigned integer" (hasKind TK.Integer typeArg && negb (ti_isSigned typeArg))
      else if named "bool" then require "a bool" (hasKind TK.Bool typeArg)
      else if named "string" then require "a string" (hasKind TK.String typeArg)
      else if hasKind TK.Trait c then
        match trait_lookup g (ti_name c) with
        | None => (false, [UnknownTrait (ti_name c)])
        | Some tr => typeSatisfiesTraitConstraint g typeArg (Some tr) paramName
        end
      else (true, [])
  end.

(** [resolveTraitConstraint]: null, with an error, for an unknown name. *)
Definition resolveTraitConstraint (g : TraitRegistry) (name : string)
    : option TraitInfo * list constraint_error :=
  match trait_lookup g name with
  | Some tr => (Some tr, [])
  | None => (None, [UnknownConstraint name])
  end.

Definition findTraitImpl (g : TraitRegistry) (traitName : string) (type : TypeInfo)
    : option ImplInfo := findImpl g traitName (ti_name type).

Definition findMethod (name : string) (ms : list TraitMethodInfo) : option TraitMethodInfo :=
  snd <$> list_find (λ m, tm_name m = name) ms.

Definition findTraitMethodImpl (g : TraitRegistry) (traitName : string) (type : TypeInfo)
    (methodName : string) : option TraitMethodInfo :=
  match findTraitImpl g traitName type with
  | None => None
  | Some impl => findMethod methodName (im_methodBodies impl)
  end.

(** [findMethodInTraits]: the first trait of the set, in its iteration order,
    whose implementation for the type has the method. *)
Fixpoint findMethodInTraitList (g : TraitRegistry) (typeName name : string)
    (traits : list string) : option TraitMethodInfo :=
  match traits with
  | [] => None
  | tr :: traits =>
      match findImpl g tr typeName with
      | None => findMethodInTraitList g typeName name traits
      | Some impl =>
          match findMethod name (im_methodBodies impl) with
          | Some m => Some m
          | None => findMethodInTraitList g typeName name traits
          end
      end
  end.

Definition findMethodInTraits (g : TraitRegistry) (ti : TypeInfo) (name : string)
    : option TraitMethodInfo :=
  findMethodInTraitList g (ti_name ti) name (ti_implementedTraits ti).

(** ** Methods along the parent chain *)

Section chain.
(** [StructMethodInfo] or [OperatorInfo], with the name looked at. *)
Context {Member : Type} (member_name : Member → string).

(** [findMethodInChain] / [findOperatorInChain]: [methods] is [structMethods_]
    or [operatorMethods_]. *)
Fixpoint findInChain (fuel : nat) (e : type_env) (methods : gmap string (list Member))
    (ti : option tyref) (name : string) : outcome (option Member) :=
  match fuel with
  | O => NoFuel
  | S fuel =>
      match ti with
      | None => Ret None
      | Some p =>
          t ← deref e p;
          match methods !! ti_name t with
          | None => findInChain fuel e methods (ti_parentType t) name
          | Some ms =>
              match list_find (λ m, member_name m = name) ms with
              | Some (_, m) => Ret (Some m)
              | None => findInChain fuel e methods (ti_parentType t) name
              end
          end
      end
  end.

(** [collectMethodsInChain] *)
Fixpoint collectInChain (fuel : nat) (e : type_env) (methods : gmap string (list Member))
    (ti : option tyref) : outcome (list Member) :=
  match fuel with
  | O => NoFuel
  | S fuel =>
      match ti with
      | None => Ret []
      | Some p =>
          t ← deref e p;
          rest ← collectInChain fuel e methods (ti_parentType t);
          Ret (default [] (methods !! ti_name t) ++ rest)
      end
  end.
End chain.

(** ** Registry lemmas *)

Lemma findImpl_registerImpl g info tr ty :
  findImpl (registerImpl info g) tr ty =
  if bool_decide (tr = im_traitName info ∧ ty = im_typeName info) then Some info
  else findImpl g tr ty.
Proof.
  unfold findImpl, registerImpl. simpl.
  destruct (decide (tr = im_traitName info)) as [->|Hne].
  - rewrite lookup_insert_eq. destruct (decide (ty = im_typeName info)) as [->|Hty].
    + by rewrite lookup_insert_eq, bool_decide_eq_true_2.
    + rewrite lookup_insert_ne, bool_decide_eq_false_2 by naive_solver.
      by destruct (tg_impls g !! im_traitName info); simpl; rewrite ?lookup_empty.
  - by rewrite lookup_insert_ne, bool_decide_eq_false_2 by naive_solver.
Qed.

Lemma trait_lookup_registerTrait g info n :
  trait_lookup (registerTrait info g) n =
  if bool_decide (n = tr_name info) then Some info else trait_lookup g n.
Proof.
  unfold trait_lookup, registerTrait. simpl. case_bool_decide as H.
  - subst. apply lookup_insert_eq.
  - apply lookup_insert_ne. congruence.
Qed.

(** Implementations are kept under their own key. *)
Definition impls_keyed (g : TraitRegistry) : Prop :=
  ∀ tr ty info, findImpl g tr ty = Some info → im_traitName info = tr ∧ im_typeName info = ty.

Lemma impls_keyed_registerImpl g info : impls_keyed g → impls_keyed (registerImpl info g).
Proof.
  intros H tr ty i. rewrite findImpl_registerImpl.
  case_bool_decide as Hc; [|apply H]. destruct Hc; intros [= ->]; done.
Qed.

(** an implementation is found once it is registered, and nothing else
    changes.  After [registerImpl], [typeSatisfiesTrait] answers true on a trait
    with no built-in validator exactly for the new pair and for those it answered
    true on before; every entry stays filed under its trait and type. *)
Lemma registerImpl_spec g info ti tr :
  impls_keyed g → tr_builtinValidator tr = None →
  impls_keyed (registerImpl info g) ∧
  findImpl (registerImpl info g) (im_traitName info) (im_typeName info) = Some info ∧
  (typeSatisfiesTrait (registerImpl info g) (Some ti) (Some tr) = true ↔
   (tr_name tr = im_traitName info ∧ ti_name ti = im_typeName info) ∨
   typeSatisfiesTrait g (Some ti) (Some tr) = true).
Proof.
  intros Hk Hnone. split_and!.
  - by apply impls_keyed_registerImpl.
  - rewrite findImpl_registerImpl. by rewrite bool_decide_eq_true_2.
  - unfold typeSatisfiesTrait. rewrite Hnone. destruct (tr_isBuiltin tr);
      rewrite !bool_decide_eq_true, findImpl_registerImpl; (case_bool_decide as Hc;
      [split; [auto|by eauto]|tauto]).
Qed.

Definition hashableTrait : TraitInfo :=
  Build_TraitInfo "Hashable" "app" [] [] false None.
Definition hashableImpl : ImplInfo := Build_ImplInfo "Hashable" "Point" [] [] [] "app".

Lemma registerImpl_spec_witness :
  let g := registerTrait hashableTrait newTraitRegistry in
  let point := mkTypeInfo "Point" TK.Struct 0 false "" in
  impls_keyed (registerImpl hashableImpl g) ∧
  findImpl (registerImpl hashableImpl g) "Hashable" "Point" = Some hashableImpl ∧
  (typeSatisfiesTrait (registerImpl hashableImpl g) (Some point) (Some hashableTrait) = true ↔
   ("Hashable" = "Hashable" ∧ "Point" = "Point") ∨
   typeSatisfiesTrait g (Some point) (Some hashableTrait) = true).
Proof.
  apply (registerImpl_spec (registerTrait hashableTrait newTraitRegistry) hashableImpl
           (mkTypeInfo "Point" TK.Struct 0 false "") hashableTrait).
  - intros tr ty info. vm_compute. discriminate.
  - reflexivity.
Defined.

(** ** Two implementations of the built-in constraints *)

Definition builtinConstraintNames : list string :=
  ["numeric"; "integer"; "float"; "signed"; "unsigned"; "bool"; "string"].

Ltac each_name H :=
  repeat (apply elem_of_cons in H as [->|H]); [..|by apply not_elem_of_nil in H].

(** the checker's hard-coded constraint test and the trait registry agree.
    For each built-in constraint name, resolving the name and testing a type
    argument with [satisfiesConstraint] gives the same answer as the validator the
    fresh [TraitRegistry] has under that name, for every type argument and
    whatever the registry the test is given; and an error is reported exactly when
    the answer is no. *)
Lemma satisfiesConstraint_agrees_with_traits g name ti param :
  name ∈ builtinConstraintNames →
  ∃ c tr, namedConstraint name = Some (Some c) ∧
    trait_lookup newTraitRegistry name = Some tr ∧
    (satisfiesConstraint g ti (Some c) param).1
      = typeSatisfiesTrait newTraitRegistry (Some ti) (Some tr) ∧
    ((satisfiesConstraint g ti (Some c) param).2 = [] ↔
     (satisfiesConstraint g ti (Some c) param).1 = true).
Proof.
  intros Hn. unfold builtinConstraintNames in Hn.
  each_name Hn; eexists _, _; (split; [reflexivity|]); (split; [reflexivity|]); simpl;
    unfold hasKind; destruct (ti_kind ti), (ti_isSigned ti); done.
Qed.

Lemma satisfiesConstraint_agrees_with_traits_witness :
  ∃ c tr, namedConstraint "signed" = Some (Some c) ∧
    trait_lookup newTraitRegistry "signed" = Some tr ∧
    (satisfiesConstraint newTraitRegistry (mkTypeInfo "uint8" TK.Integer 8 false "u8")
       (Some c) "T").1
    = typeSatisfiesTrait newTraitRegistry (Some (mkTypeInfo "uint8" TK.Integer 8 false "u8"))
        (Some tr) ∧
    ((satisfiesConstraint newTraitRegistry (mkTypeInfo "uint8" TK.Integer 8 false "u8")
       (Some c) "T").2 = [] ↔
     (satisfiesConstraint newTraitRegistry (mkTypeInfo "uint8" TK.Integer 8 false "u8")
       (Some c) "T").1 = true).
Proof.
  apply (satisfiesConstraint_agrees_with_traits newTraitRegistry "signed").
  apply (bool_decide_unpack _). vm_compute. exact I.
Defined.

(** ** Lookup along the chain *)

Section chain_lemmas.
Context {Member : Type} (member_name : Member → string).
Context (e : type_env) (methods : gmap string (list Member)).

Lemma list_find_app_lookup (P : Member → Prop) `{∀ m, Decision (P m)} l1 l2 :
  snd <$> list_find P (l1 ++ l2) =
  match snd <$> list_find P l1 with Some m => Some m | None => snd <$> list_find P l2 end.
Proof.
  induction l1 as [|m l1 IH]; simpl; [done|].
  destruct (decide (P m)); simpl; [done|].
  destruct (list_find P (l1 ++ l2)) as [[]|], (list_find P l1) as [[]|],
    (list_find P l2) as [[]|]; simpl in *; done.
Qed.

Lemma findInChain_collect_gen fuel ti name ms :
  collectInChain fuel e methods ti = Ret ms →
  findInChain member_name fuel e methods ti name
  = Ret (snd <$> list_find (λ m, member_name m = name) ms).
Proof.
  revert ti ms. induction fuel as [|fuel IH]; intros ti ms; simpl; [done|].
  destruct ti as [p|]; [|naive_solver].
  destruct (deref e p) as [t| | |]; simpl; [|done..]. intros Hc.
  destruct (collectInChain fuel e methods (ti_parentType t)) as [rest| | |] eqn:Hrest;
    simpl in Hc; simplify_eq.
  rewrite list_find_app_lookup, (IH _ _ Hrest).
  destruct (methods !! ti_name t) as [own|]; simpl; [|done].
  by destruct (list_find _ own) as [[]|].
Qed.

(** The parent chain of a type ends after at most [fuel] steps. *)
Fixpoint chain_ends (fuel : nat) (ti : option tyref) : Prop :=
  match ti with
  | None => True
  | Some p =>
      match fuel with
      | O => False
      | S fuel => ∃ t, resolve e p = Some t ∧ chain_ends fuel (ti_parentType t)
      end
  end.

Lemma collectInChain_ret fuel ti :
  chain_ends fuel ti → ∃ ms, collectInChain (S fuel) e methods ti = Ret ms.
Proof.
  revert ti. induction fuel as [|fuel IH]; intros [p|] H; try (by destruct H); try (by eexists).
  destruct H as (t & Ht & Hend). destruct (IH _ Hend) as [rest Hrest].
  remember (S fuel) as fuel'. cbn [collectInChain]. unfold deref. rewrite Ht.
  cbn [mbind outcome_bind]. rewrite Hrest. by eexists.
Qed.
End chain_lemmas.

(** method lookup finds the most derived definition.  When the parent chain of
    a type ends within [fuel] steps, collecting the methods of the chain
    terminates, and looking a name up along the chain gives the first method of
    that name in the collected list, which starts with the type's own methods and
    goes on with those of its parent. *)
Lemma findMethodInChain_collect {Member} (member_name : Member → string) fuel e methods
    p t name :
  chain_ends e fuel (Some p) → resolve e p = Some t →
  ∃ own rest, default [] (methods !! ti_name t) = own ∧
    collectInChain (S fuel) e methods (Some p) = Ret (own ++ rest) ∧
    findInChain member_name (S fuel) e methods (Some p) name
      = Ret (snd <$> list_find (λ m, member_name m = name) (own ++ rest)).
Proof.
  intros Hend Ht. destruct (collectInChain_ret e methods fuel (Some p) Hend) as [ms Hms].
  assert (Hsplit : ∃ rest, ms = default [] (methods !! ti_name t) ++ rest).
  { cbn [collectInChain] in Hms. unfold deref in Hms. rewrite Ht in Hms.
    cbn [mbind outcome_bind] in Hms. apply outcome_bind_inv in Hms as (rest & _ & Hms).
    simplify_eq. eauto. }
  destruct Hsplit as [rest ->]. eexists _, rest. split; [done|]. split; [done|].
  by apply findInChain_collect_gen.
Qed.

(** [struct Dog : Animal], both with a method [speak]. *)
Definition dogType : TypeInfo :=
  (mkTypeInfo "Dog" TK.Struct 0 false "") <| ti_parentType := Some (RegT "Animal") |>.
Definition animal_env : type_env := Build_type_env
  (registerType dogType
     (registerType (mkTypeInfo "Animal" TK.Struct 0 false "") newTypeRegistry)) [].
Definition animal_methods : gmap string (list (string * nat)) :=
  <["Dog" := [("speak", 1%nat)]]> {["Animal" := [("speak", 2%nat)]]}.

Lemma findMethodInChain_collect_witness :
  ∃ own rest, default [] (animal_methods !! ti_name dogType) = own ∧
    collectInChain 3 animal_env animal_methods (Some (RegT "Dog")) = Ret (own ++ rest) ∧
    findInChain fst 3 animal_env animal_methods (Some (RegT "Dog")) "speak"
    = Ret (snd <$> list_find (λ m, m.1 = "speak") (own ++ rest)).
Proof.
  apply (findMethodInChain_collect fst 2 animal_env animal_methods (RegT "Dog") dogType).
  - cbn [chain_ends]. exists dogType. split; [vm_compute; reflexivity|].
    exists (mkTypeInfo "Animal" TK.Struct 0 false ""). split; [vm_compute; reflexivity|].
    exact I.
  - vm_compute. reflexivity.
Defined.
