(* ===== verification/BitStruct.v ===== *)
(** * Bit structs

    [Checker::checkBitStructDecl] ([checkers/Checker_decl.cpp]): offsets and widths
    of the fields, choice of the backing type, and the check that they fit.
    Widths and the running offset are 32-bit [unsigned] and wrap. *)

From S2P Require Import Prelude CxxLib TypeInfo.
Local Open Scope Z_scope.

(** A [bitstructField] of the parse tree: the identifier, if any, and the texts of
    its integer literals (two for padding). *)
Record BitstructField := {
  bsf_ident : option string;
  bsf_ints : list string }.

Inductive bs_error :=
| BackingNotInteger (got : string)
| BackingSigned (got : string)
| ZeroWidth (field : string)
| Over128 (name : string)
| DoesNotFit (name : string) (bits : Z) (backing : string) (backBits : Z).

(** The loop over the fields: the bit fields, the running offset and the errors. *)
Fixpoint layoutFields (fields : list BitstructField) (runningOffset : Z)
    (bitFields : list BitFieldInfo) (errs : list bs_error)
    : outcome (list BitFieldInfo * Z * list bs_error) :=
  match fields with
  | [] => Ret (bitFields, runningOffset, errs)
  | field :: fields =>
      match bsf_ints field, bsf_ident field with
      | [_; w], _ =>
          n ← stoull 10 w;
          let width := to_uint32 n in
          layoutFields fields (to_uint32 (runningOffset + width))
            (bitFields ++ [Build_BitFieldInfo "" runningOffset width true]) errs
      | [w], Some fieldName =>
          n ← stoull 10 w;
          let width := to_uint32 n in
          if width =? 0 then layoutFields fields runningOffset bitFields (errs ++ [ZeroWidth fieldName])
          else layoutFields fields (to_uint32 (runningOffset + width))
                 (bitFields ++ [Build_BitFieldInfo fieldName runningOffset width false]) errs
      | _, _ => layoutFields fields runningOffset bitFields errs
      end
  end.

Definition autoBackBits (runningOffset : Z) : option Z :=
  if runningOffset <=? 8 then Some 8
  else if runningOffset <=? 16 then Some 16
  else if runningOffset <=? 32 then Some 32
  else if runningOffset <=? 64 then Some 64
  else if runningOffset <=? 128 then Some 128
  else None.

(** The part after the validation of the backing type [backTI], which is [None]
    for [auto]. *)
Definition finishBitStruct (e : type_env) (name : string)
    (backTI : option (TypeInfo * option tyref)) (fields : list BitstructField)
    : outcome (type_env * list bs_error) :=
  layout ← layoutFields fields 0 [] [];
  let '(bitFields, runningOffset, errs) := layout in
  let choice :=
    match backTI with
    | None => match autoBackBits runningOffset with
              | None => None
              | Some b => Some (b, reg_lookup_ref (te_types e) ("uint" +:+ to_string b))
              end
    | Some (bt, p) => Some (if ti_bitWidth bt =? 0 then 64 else ti_bitWidth bt, p)
    end in
  match choice with
  | None => Ret (e, errs ++ [Over128 name])
  | Some (backBits, backingType) =>
      if backBits <? runningOffset then
        match backingType with
        | Some p => bt ← deref e p;
                    Ret (e, errs ++ [DoesNotFit name runningOffset (ti_name bt) backBits])
        | None => Undef
        end
      else
        let ti := (mkTypeInfo name TK.BitStruct backBits false "")
          <| ti_backingType := backingType |> <| ti_bitFields := bitFields |> in
        Ret (e <| te_types := registerType ti (te_types e) |>, errs)
  end.

(** [active] is [isDeclActive(...)] and [backType] the resolved type specifier,
    null for [auto] and when it does not resolve. *)
Definition checkBitStructDecl (e : type_env) (active : bool) (name : string) (isAuto : bool)
    (backType : option tyref) (fields : list BitstructField)
    : outcome (type_env * list bs_error) :=
  if negb active then Ret (e, []) else
  let backType := if isAuto then None else backType in
  if negb isAuto && negb (bool_decide (is_Some backType)) then Ret (e, []) else
  backTI ← match backType with
           | Some p => t ← deref e p; Ret (Some t)
           | None => Ret None
           end;
  match (backTI : option TypeInfo) with
  | Some bt =>
      if negb (hasKind TK.Integer bt) then Ret (e, [BackingNotInteger (ti_name bt)])
      else if ti_isSigned bt then Ret (e, [BackingSigned (ti_name bt)])
      else finishBitStruct e name (Some (bt, backType)) fields
  | None => finishBitStruct e name None fields
  end.

(** ** The layout *)

Definition widthsSum (l : list BitFieldInfo) : Z := foldr (λ b n, bf_width b + n) 0 l.

Lemma widthsSum_app l1 l2 : widthsSum (l1 ++ l2) = widthsSum l1 + widthsSum l2.
Proof. induction l1; simpl; lia. Qed.

(** Offsets are the running sums of the widths, modulo [2^32]. *)
Definition offsets_wrapped (l : list BitFieldInfo) : Prop :=
  ∀ i b, l !! i = Some b → bf_offset b = to_uint32 (widthsSum (take i l)).

(** What the loop maintains: wrapped offsets, widths that fit 32 bits, and every
    named field at least one bit wide. *)
Definition layout_inv (l : list BitFieldInfo) (off : Z) : Prop :=
  offsets_wrapped l ∧ off = to_uint32 (widthsSum l) ∧
  Forall (λ b, 0 ≤ bf_width b < 2 ^ 32 ∧ (bf_isPadding b = false → 0 < bf_width b)) l.

Lemma layout_inv_snoc l off w nm pad :
  layout_inv l off → 0 ≤ w < 2 ^ 32 → (pad = false → 0 < w) →
  layout_inv (l ++ [Build_BitFieldInfo nm off w pad]) (to_uint32 (off + w)).
Proof.
  intros (Hoff & -> & Hw) Hw32 Hpos. split_and!.
  - intros i b [Hi|[Hi Hb]]%lookup_app_Some.
    + rewrite take_app_le by (apply lookup_lt_Some in Hi; lia). by apply Hoff.
    + apply list_lookup_singleton_Some in Hb as [Hi0 <-]. simpl.
      by rewrite take_app_length' by lia.
  - rewrite widthsSum_app. simpl. unfold to_uint32. rewrite Z.add_0_r, Zplus_mod_idemp_l. done.
  - apply Forall_app. split; [done|]. by apply Forall_singleton.
Qed.

Lemma layoutFields_inv fields off l errs l' off' errs' :
  layoutFields fields off l errs = Ret (l', off', errs') →
  layout_inv l off → layout_inv l' off'.
Proof.
  revert off l errs. induction fields as [|f fields IH]; intros off l errs; simpl;
    [intros; by simplify_eq|].
  destruct (bsf_ints f) as [|w [|w' [|]]]; [by apply IH|..| |by apply IH].
  - destruct (bsf_ident f); [|by apply IH]. intros H Hinv. inv_bind H.
    destruct (Z.eqb_spec (to_uint32 a) 0); [by eapply IH in H|].
    eapply IH in H; [done|]. pose proof (to_uint32_range a).
    apply layout_inv_snoc; [done|done|lia].
  - intros H Hinv. inv_bind H. eapply IH in H; [done|].
    apply layout_inv_snoc; [done|apply to_uint32_range|done].
Qed.

Lemma widthsSum_take l i b :
  Forall (λ b, 0 ≤ bf_width b) l → l !! i = Some b →
  0 ≤ widthsSum (take i l) ∧ widthsSum (take i l) + bf_width b ≤ widthsSum l.
Proof.
  intros Hl. revert i. induction Hl as [|x l Hx Hl IH]; intros [|i] Hi; simplify_eq/=.
  - split; [done|]. assert (0 ≤ widthsSum l); [|lia]. clear -Hl. induction Hl; simpl; lia.
  - destruct (IH i Hi). lia.
Qed.

Lemma widthsSum_take_S l i b :
  l !! i = Some b → widthsSum (take (S i) l) = widthsSum (take i l) + bf_width b.
Proof.
  intros Hi. rewrite (take_S_r _ _ _ Hi), widthsSum_app. simpl. lia.
Qed.

(** Registration of the bit struct [name] with layout [ti]. *)
Lemma finishBitStruct_registered e name back fields e' errs :
  finishBitStruct e name back fields = Ret (e', errs) →
  e' = e ∨
  ∃ ti, te_types e' !! name = Some ti ∧ ti_kind ti = TK.BitStruct ∧
    te_dynamicTypes e' = te_dynamicTypes e ∧
    layout_inv (ti_bitFields ti) (to_uint32 (widthsSum (ti_bitFields ti))) ∧
    to_uint32 (widthsSum (ti_bitFields ti)) ≤ ti_bitWidth ti.
Proof.
  unfold finishBitStruct. intros H. inv_bind H. destruct a as [[bits off] errs0].
  apply layoutFields_inv in Hm as Hinv.
  2: { split_and!; [by intros i b|done|constructor]. }
  assert (off = to_uint32 (widthsSum bits)) as -> by apply Hinv.
  destruct (match back with Some _ => _ | None => _ end) as [[bb p]|]; [|by simplify_eq; left].
  destruct (Z.ltb_spec bb (to_uint32 (widthsSum bits))).
  - destruct p; [|done]. inv_bind H. simplify_eq. by left.
  - simplify_eq. right. eexists. split; [apply lookup_insert_eq|]. done.
Qed.

(** The widths must add up in 32 bits for the layout to be sound.  A field of
    [4294967295] bits followed by one of two bits wraps the running offset to 1, so
    the declaration is accepted without an error as one [uint8], with a first field
    far wider than its backing type and both fields overlapping. *)
Lemma checkBitStructDecl_wraps :
  ∃ e' ti a b,
    checkBitStructDecl initial_env true "Wide" false (Some (RegT "uint8"))
      [Build_BitstructField (Some "a") ["4294967295"]; Build_BitstructField (Some "b") ["2"]]
    = Ret (e', []) ∧
    te_types e' !! "Wide" = Some ti ∧ ti_bitFields ti = [a; b] ∧ ti_bitWidth ti = 8 ∧
    bf_width a = 4294967295 ∧ bf_offset a = 0 ∧ bf_offset b = 4294967295.
Proof.
  eexists _, _, _, _. split; [vm_compute; reflexivity|].
  split; [vm_compute; reflexivity|]. split; [reflexivity|]. done.
Qed.

(** A registered bit struct has a sound layout, as long as the declared widths
    add up to less than [2^32].  Fields lie next to each other in declaration
    order, none overlaps another, every field lies inside the backing type, and
    every named field has at least one bit. *)
Lemma registered_layout e active name isAuto back fields e' errs :
  te_types e !! name = None →
  checkBitStructDecl e active name isAuto back fields = Ret (e', errs) →
  te_types e' !! name = None ∨
  ∃ ti, te_types e' !! name = Some ti ∧ ti_kind ti = TK.BitStruct ∧
    (widthsSum (ti_bitFields ti) < 2 ^ 32 →
     (∀ i b, ti_bitFields ti !! i = Some b →
        0 ≤ bf_offset b ∧ bf_offset b + bf_width b ≤ ti_bitWidth ti ∧
        (bf_isPadding b = false → 0 < bf_width b)) ∧
     (∀ i b c, ti_bitFields ti !! i = Some b → ti_bitFields ti !! S i = Some c →
        bf_offset c = bf_offset b + bf_width b)).
Proof.
  intros Hfresh H.
  assert (Hreg : e' = e ∨ ∃ back, finishBitStruct e name back fields = Ret (e', errs)).
  { unfold checkBitStructDecl in H. destruct active; [|by simplify_eq/=; left].
    simpl in H. destruct (negb isAuto && _); [by simplify_eq; left|].
    inv_bind H. destruct a as [bt|]; [|by right; eexists].
    destruct (hasKind TK.Integer bt), (ti_isSigned bt); simplify_eq/=; eauto. }
  destruct Hreg as [->|[back' Hfin]]; [by left|].
  apply finishBitStruct_registered in Hfin
    as [->|(ti & Hti & Hk & _ & (Hoff & _ & Hw) & Hfit)]; [by left|].
  right. exists ti. split_and!; [done..|]. intros Hsmall.
  assert (Hnn : Forall (λ b, 0 ≤ bf_width b) (ti_bitFields ti))
    by (eapply Forall_impl; [exact Hw|naive_solver]).
  assert (Htotal : ∀ i b, ti_bitFields ti !! i = Some b →
    bf_offset b = widthsSum (take i (ti_bitFields ti)) ∧
    0 ≤ bf_offset b ∧ bf_offset b + bf_width b ≤ widthsSum (ti_bitFields ti)).
  { intros i b Hi. destruct (widthsSum_take _ i b Hnn Hi).
    assert (0 ≤ bf_width b) by (by eapply Forall_lookup in Hnn).
    rewrite (Hoff i b Hi). unfold to_uint32. rewrite Z.mod_small by lia. lia. }
  split.
  - intros i b Hi. destruct (Htotal i b Hi) as (_ & ? & ?).
    assert (to_uint32 (widthsSum (ti_bitFields ti)) = widthsSum (ti_bitFields ti)).
    { apply Z.mod_small. eapply Forall_lookup in Hw as [??]; [|done]. lia. }
    eapply Forall_lookup in Hw as [??]; [|done]. split_and!; [lia|lia|done].
  - intros i b c Hi Hc. destruct (Htotal i b Hi) as (-> & _). 
    destruct (Htotal (S i) c Hc) as (-> & _). by apply widthsSum_take_S.
Qed.

(** [bitstruct Flags : uint8 { ready: 1; 0: 3; mode: 4; }] *)
Definition flagsFields : list BitstructField := [
  Build_BitstructField (Some "ready") ["1"];
  Build_BitstructField None ["0"; "3"];
  Build_BitstructField (Some "mode") ["4"] ].

Definition flags_env : type_env :=
  match checkBitStructDecl initial_env true "Flags" false (Some (RegT "uint8")) flagsFields with
  | Ret (e, _) => e
  | _ => initial_env
  end.

(** C37: a registered bit struct has a sound layout, as long as the declared widths
    add up to less than [2^32].  Fields lie next to each other in declaration
    order, none overlaps another, every field lies inside the backing type, and
    every named field has at least one bit.  The condition is needed: a field of
    [4294967295] bits followed by one of two wraps the 32-bit running offset, and the
    declaration is accepted without an error as one [uint8]. *)
Theorem checkBitStructDecl_layout :
  (∀ e active name isAuto back fields e' errs,
     te_types e !! name = None →
     checkBitStructDecl e active name isAuto back fields = Ret (e', errs) →
     te_types e' !! name = None ∨
     ∃ ti, te_types e' !! name = Some ti ∧ ti_kind ti = TK.BitStruct ∧
       (widthsSum (ti_bitFields ti) < 2 ^ 32 →
        (∀ i b, ti_bitFields ti !! i = Some b →
           0 ≤ bf_offset b ∧ bf_offset b + bf_width b ≤ ti_bitWidth ti ∧
           (bf_isPadding b = false → 0 < bf_width b)) ∧
        (∀ i b c, ti_bitFields ti !! i = Some b → ti_bitFields ti !! S i = Some c →
           bf_offset c = bf_offset b + bf_width b))) ∧
  ∃ e' ti a b,
    checkBitStructDecl initial_env true "Wide" false (Some (RegT "uint8"))
      [Build_BitstructField (Some "a") ["4294967295"]; Build_BitstructField (Some "b") ["2"]]
    = Ret (e', []) ∧
    te_types e' !! "Wide" = Some ti ∧ ti_bitFields ti = [a; b] ∧ ti_bitWidth ti = 8 ∧
    bf_width a = 4294967295 ∧ bf_offset a = 0 ∧ bf_offset b = 4294967295.
Proof. split; [exact registered_layout|exact checkBitStructDecl_wraps]. Qed.

Lemma checkBitStructDecl_layout_witness :
  is_Some (te_types flags_env !! "Flags") ∧
  (te_types flags_env !! "Flags" = None ∨
  ∃ ti, te_types flags_env !! "Flags" = Some ti ∧ ti_kind ti = TK.BitStruct ∧
    (widthsSum (ti_bitFields ti) < 2 ^ 32 →
     (∀ i b, ti_bitFields ti !! i = Some b →
        0 ≤ bf_offset b ∧ bf_offset b + bf_width b ≤ ti_bitWidth ti ∧
        (bf_isPadding b = false → 0 < bf_width b)) ∧
     (∀ i b c, ti_bitFields ti !! i = Some b → ti_bitFields ti !! S i = Some c →
        bf_offset c = bf_offset b + bf_width b))).
Proof.
  split; [vm_compute; by eexists|].
  apply (proj1 checkBitStructDecl_layout initial_env true "Flags" false (Some (RegT "uint8"))
           flagsFields flags_env []); vm_compute; reflexivity.
Defined.
