(* ===== verification/Decls.v ===== *)
(** * Declarations of the semantic database

    [semantic/Decl.h] and [semantic/Decl.cpp]: the declaration classes, cloning,
    and substitution of type parameters.

    A [Decl*] held by a declaration is a non-owning pointer into the database; it
    is an address of the [heap] here, and null is [None].  The pattern of a generic
    template is owned by the template and is a value.  [BitStructDecl] is declared in
    the header but never defined nor created, and is left out. *)

From S2P Require Import Prelude CxxLib.
Local Open Scope Z_scope.

Record SourceLocation := {
  sl_file : string;
  sl_line : Z;
  sl_column : Z }.

Module DK.
Inductive DeclKind :=
| Integer | Float | Bool | Char | Void | String | VAList
| Struct | BitStruct | Union | Enum | Pointer | Function | Extended | Tuple | Fallible
| TypeAlias | GenericTemplate
| Intrinsic
| Trait | Impl.
End DK.
Export DK (DeclKind).

#[export] Instance DeclKind_eq_dec : EqDecision DeclKind.
Proof. solve_decision. Defined.

(** Address of a declaration owned by the database. *)
Notation addr := positive.

Record FieldInfo := {
  fd_name : string;
  fd_type : option addr;
  fd_arrayDims : Z;
  fd_arraySizes : list Z;
  fd_autoFill : bool }.

Inductive VariantPayloadKind := VUnit | VTuple | VNamed.

Record VariantInfo := {
  va_name : string;
  va_discriminant : Z;
  va_payloadKind : VariantPayloadKind;
  va_payloadFields : list FieldInfo }.

Record ParamInfo := {
  pa_name : string;
  pa_type : option addr;
  pa_isVariadic : bool }.

Record MethodInfo := {
  me_name : string;
  me_returnType : option addr;
  me_params : list ParamInfo;
  me_isStatic : bool }.

Inductive IntrinsicLowering := LLVMIntrinsic | BuiltinCall | InlineIR.

(** The members of the base class [Decl]. *)
Record DeclBase := {
  de_name : string;
  de_modulePath : string;
  de_loc : SourceLocation;
  de_kind : DeclKind;
  de_dropTracked : bool;
  de_moveOnly : bool }.

#[export] Instance settable_DeclBase : Settable DeclBase := λ d,
  Build_DeclBase (de_name d) (de_modulePath d) (de_loc d) (de_kind d) (de_dropTracked d)
    (de_moveOnly d).

(** A declaration: base members and those of its class. *)
Inductive Decl :=
| mkDecl (base : DeclBase) (body : DeclBody)
with DeclBody :=
| PrimitiveDecl (bitWidth : Z) (isSigned : bool) (builtinSuffix : string)
| StructDecl (genericParams : list string) (fields : list FieldInfo)
    (methods : list MethodInfo) (parentName : string)
| UnionDecl (genericParams : list string) (fields : list FieldInfo)
| EnumDecl (genericParams : list string) (variants : list VariantInfo) (bitWidth : Z)
| PointerDecl (pointeeType : option addr)
| FunctionDecl (returnType : option addr) (params : list ParamInfo) (isVariadic isExtern : bool)
    (externABI : string) (genericParams : list string)
| ExtendedDecl (extendedKind : string) (elementType keyType valueType : option addr)
    (cPrefix : string)
| TupleDecl (elements : list (option addr))
| TypeAliasDecl (target : option addr) (arraySize : Z) (arraySizes : list Z)
| GenericTemplateDecl (typeParams : list string) (pattern : option Decl)
| TraitDecl (genericParams : list string) (methods : list MethodInfo)
| ImplDecl (traitName typeName : string) (implTypeParams : list string)
    (methods : list MethodInfo)
| IntrinsicDecl (returnType : option addr) (params : list ParamInfo)
    (lowering : IntrinsicLowering) (llvmIntrinsic builtinName : string).

Definition d_base (d : Decl) : DeclBase := let 'mkDecl b _ := d in b.
Definition d_body (d : Decl) : DeclBody := let 'mkDecl _ b := d in b.
Definition d_name (d : Decl) : string := de_name (d_base d).
Definition d_kind (d : Decl) : DeclKind := de_kind (d_base d).
Definition d_modulePath (d : Decl) : string := de_modulePath (d_base d).

(** The kind a class's constructor sets; a [PrimitiveDecl] is given its kind. *)
Definition body_kind (b : DeclBody) : option DeclKind :=
  match b with
  | PrimitiveDecl _ _ _ => None
  | StructDecl _ _ _ _ => Some DK.Struct
  | UnionDecl _ _ => Some DK.Union
  | EnumDecl _ _ _ => Some DK.Enum
  | PointerDecl _ => Some DK.Pointer
  | FunctionDecl _ _ _ _ _ _ => Some DK.Function
  | ExtendedDecl _ _ _ _ _ => Some DK.Extended
  | TupleDecl _ => Some DK.Tuple
  | TypeAliasDecl _ _ _ => Some DK.TypeAlias
  | GenericTemplateDecl _ _ => Some DK.GenericTemplate
  | TraitDecl _ _ => Some DK.Trait
  | ImplDecl _ _ _ _ => Some DK.Impl
  | IntrinsicDecl _ _ _ _ _ => Some DK.Intrinsic
  end.

Definition isPrimitive (d : Decl) : bool :=
  match d_kind d with
  | DK.Integer | DK.Float | DK.Bool | DK.Char | DK.Void | DK.String | DK.VAList => true
  | _ => false
  end.

Definition hasPayload (variants : list VariantInfo) : bool :=
  existsb (λ v, match va_payloadFields v with [] => false | _ => true end) variants.

(** ** Cloning *)

(** The copying loops [cloneFields], [cloneMethods] and [cloneVariants], which
    append to a destination. *)
Fixpoint cloneFields (dst src : list FieldInfo) : list FieldInfo :=
  match src with
  | [] => dst
  | f :: src =>
      cloneFields (dst ++ [Build_FieldInfo (fd_name f) (fd_type f) (fd_arrayDims f)
                             (fd_arraySizes f) (fd_autoFill f)]) src
  end.

Fixpoint cloneParams (dst src : list ParamInfo) : list ParamInfo :=
  match src with
  | [] => dst
  | p :: src =>
      cloneParams (dst ++ [Build_ParamInfo (pa_name p) (pa_type p) (pa_isVariadic p)]) src
  end.

Fixpoint cloneMethods (dst src : list MethodInfo) : list MethodInfo :=
  match src with
  | [] => dst
  | m :: src =>
      cloneMethods (dst ++ [Build_MethodInfo (me_name m) (me_returnType m)
                              (cloneParams [] (me_params m)) (me_isStatic m)]) src
  end.

Fixpoint cloneVariants (dst src : list VariantInfo) : list VariantInfo :=
  match src with
  | [] => dst
  | v :: src =>
      cloneVariants (dst ++ [Build_VariantInfo (va_name v) (va_discriminant v)
                               (va_payloadKind v) (cloneFields [] (va_payloadFields v))]) src
  end.

(** The base of a fresh object of a class, and the copy of the members that most
    clone methods make. *)
Definition freshBase (k : DeclKind) : DeclBase :=
  Build_DeclBase "" "" (Build_SourceLocation "" 0 0) k false false.

Definition copyBase (b : DeclBase) (k : DeclKind) : DeclBase :=
  (freshBase k) <| de_name := de_name b |> <| de_modulePath := de_modulePath b |>
    <| de_loc := de_loc b |> <| de_dropTracked := de_dropTracked b |>
    <| de_moveOnly := de_moveOnly b |>.

(** [ImplDecl::clone] and [IntrinsicDecl::clone] leave out the two flags. *)
Definition copyBaseNoFlags (b : DeclBase) (k : DeclKind) : DeclBase :=
  (freshBase k) <| de_name := de_name b |> <| de_modulePath := de_modulePath b |>
    <| de_loc := de_loc b |>.

Fixpoint clone (d : Decl) : Decl :=
  let 'mkDecl b body := d in
  match body with
  | PrimitiveDecl bw sg suffix =>
      mkDecl (copyBase b (de_kind b)) (PrimitiveDecl bw sg suffix)
  | StructDecl gp fields methods parent =>
      mkDecl (copyBase b DK.Struct)
        (StructDecl gp (cloneFields [] fields) (cloneMethods [] methods) parent)
  | UnionDecl gp fields =>
      mkDecl (copyBase b DK.Union) (UnionDecl gp (cloneFields [] fields))
  | EnumDecl gp variants bw =>
      mkDecl (copyBase b DK.Enum) (EnumDecl gp (cloneVariants [] variants) bw)
  | PointerDecl p => mkDecl (copyBase b DK.Pointer) (PointerDecl p)
  | FunctionDecl rt params va ext abi gp =>
      mkDecl (copyBase b DK.Function) (FunctionDecl rt (cloneParams [] params) va ext abi gp)
  | ExtendedDecl k e ky v c => mkDecl (copyBase b DK.Extended) (ExtendedDecl k e ky v c)
  | TupleDecl es => mkDecl (copyBase b DK.Tuple) (TupleDecl es)
  | TypeAliasDecl t n ns => mkDecl (copyBase b DK.TypeAlias) (TypeAliasDecl t n ns)
  | GenericTemplateDecl tps pattern =>
      mkDecl (copyBase b DK.GenericTemplate)
        (GenericTemplateDecl tps
           match pattern with Some p => Some (clone p) | None => None end)
  | TraitDecl gp methods =>
      mkDecl (copyBase b DK.Trait) (TraitDecl gp (cloneMethods [] methods))
  | ImplDecl tr ty tps methods =>
      mkDecl (copyBaseNoFlags b DK.Impl) (ImplDecl tr ty tps (cloneMethods [] methods))
  | IntrinsicDecl rt params low llvm bn =>
      mkDecl (copyBaseNoFlags b DK.Intrinsic)
        (IntrinsicDecl rt (cloneParams [] params) low llvm bn)
  end.

(** ** Substitution of type parameters *)

Notation heap := (gmap addr Decl).

Notation substMap := (gmap string (option addr)).

(** [if (!t) continue; auto it = subst.find(t->name); if (found) t = it->second;] *)
Definition substRef (h : heap) (subst : substMap) (t : option addr) : outcome (option addr) :=
  match t with
  | None => Ret None
  | Some a =>
      match h !! a with
      | None => Undef
      | Some d => match subst !! d_name d with
                  | Some t' => Ret t'
                  | None => Ret (Some a)
                  end
      end
  end.

(** A loop that replaces the elements of a vector in place. *)
Fixpoint mapO {A B} (f : A → outcome B) (l : list A) : outcome (list B) :=
  match l with
  | [] => Ret []
  | a :: l => b ← f a; bs ← mapO f l; Ret (b :: bs)
  end.

Definition substituteInFields (h : heap) (subst : substMap) (fields : list FieldInfo)
    : outcome (list FieldInfo) :=
  mapO (λ f, t ← substRef h subst (fd_type f);
             Ret (Build_FieldInfo (fd_name f) t (fd_arrayDims f) (fd_arraySizes f) (fd_autoFill f)))
       fields.

Definition substituteInParams (h : heap) (subst : substMap) (params : list ParamInfo)
    : outcome (list ParamInfo) :=
  mapO (λ p, t ← substRef h subst (pa_type p);
             Ret (Build_ParamInfo (pa_name p) t (pa_isVariadic p))) params.

Definition substituteInMethods (h : heap) (subst : substMap) (methods : list MethodInfo)
    : outcome (list MethodInfo) :=
  mapO (λ m, rt ← substRef h subst (me_returnType m);
             ps ← substituteInParams h subst (me_params m);
             Ret (Build_MethodInfo (me_name m) rt ps (me_isStatic m))) methods.

Definition substituteInVariants (h : heap) (subst : substMap) (variants : list VariantInfo)
    : outcome (list VariantInfo) :=
  mapO (λ v, fs ← substituteInFields h subst (va_payloadFields v);
             Ret (Build_VariantInfo (va_name v) (va_discriminant v) (va_payloadKind v) fs))
       variants.

(** [substituteTypes]: primitives, templates, implementations and intrinsics keep the
    base class's empty method or an empty override. *)
Definition substituteBody (h : heap) (subst : substMap) (body : DeclBody) : outcome DeclBody :=
  match body with
  | PrimitiveDecl _ _ _ | GenericTemplateDecl _ _ | ImplDecl _ _ _ _ | IntrinsicDecl _ _ _ _ _ =>
      Ret body
  | StructDecl gp fields methods parent =>
      fs ← substituteInFields h subst fields;
      ms ← substituteInMethods h subst methods;
      Ret (StructDecl gp fs ms parent)
  | UnionDecl gp fields =>
      fs ← substituteInFields h subst fields; Ret (UnionDecl gp fs)
  | EnumDecl gp variants bw =>
      vs ← substituteInVariants h subst variants; Ret (EnumDecl gp vs bw)
  | PointerDecl p => p' ← substRef h subst p; Ret (PointerDecl p')
  | FunctionDecl rt params va ext abi gp =>
      rt' ← substRef h subst rt;
      ps ← substituteInParams h subst params;
      Ret (FunctionDecl rt' ps va ext abi gp)
  | ExtendedDecl k e ky v c =>
      e' ← substRef h subst e;
      ky' ← substRef h subst ky;
      v' ← substRef h subst v;
      Ret (ExtendedDecl k e' ky' v' c)
  | TupleDecl es => es' ← mapO (substRef h subst) es; Ret (TupleDecl es')
  | TypeAliasDecl t n ns => t' ← substRef h subst t; Ret (TypeAliasDecl t' n ns)
  | TraitDecl gp methods =>
      ms ← substituteInMethods h subst methods; Ret (TraitDecl gp ms)
  end.

Definition substituteTypes (h : heap) (subst : substMap) (d : Decl) : outcome Decl :=
  body ← substituteBody h subst (d_body d); Ret (mkDecl (d_base d) body).

(** ** Cloning is faithful *)

Fixpoint well_kinded (d : Decl) : Prop :=
  let 'mkDecl b body := d in
  match body with
  | PrimitiveDecl _ _ _ => True
  | GenericTemplateDecl _ (Some p) => de_kind b = DK.GenericTemplate ∧ well_kinded p
  | _ => body_kind body = Some (de_kind b)
  end.

(** The flags a clone would lose are not set. *)
Fixpoint keepsFlags (d : Decl) : bool :=
  let 'mkDecl b body := d in
  match body with
  | ImplDecl _ _ _ _ | IntrinsicDecl _ _ _ _ _ => negb (de_dropTracked b) && negb (de_moveOnly b)
  | GenericTemplateDecl _ (Some p) => keepsFlags p
  | _ => true
  end.

Lemma cloneFields_app dst src : cloneFields dst src = dst ++ src.
Proof.
  revert dst. induction src as [|[] src IH]; intros dst; simpl; [by rewrite app_nil_r|].
  by rewrite IH, <-app_assoc.
Qed.
Lemma cloneParams_app dst src : cloneParams dst src = dst ++ src.
Proof.
  revert dst. induction src as [|[] src IH]; intros dst; simpl; [by rewrite app_nil_r|].
  by rewrite IH, <-app_assoc.
Qed.
Lemma cloneMethods_app dst src : cloneMethods dst src = dst ++ src.
Proof.
  revert dst. induction src as [|[] src IH]; intros dst; simpl; [by rewrite app_nil_r|].
  by rewrite IH, cloneParams_app, <-app_assoc.
Qed.
Lemma cloneVariants_app dst src : cloneVariants dst src = dst ++ src.
Proof.
  revert dst. induction src as [|[] src IH]; intros dst; simpl; [by rewrite app_nil_r|].
  by rewrite IH, cloneFields_app, <-app_assoc.
Qed.

Create Rewrite HintDb clone_app.
#[export] Hint Rewrite cloneFields_app cloneParams_app cloneMethods_app cloneVariants_app
  app_nil_l : clone_app.

Lemma copyBase_id b k : de_kind b = k → copyBase b k = b.
Proof. destruct b. simpl. by intros ->. Qed.
Lemma copyBaseNoFlags_id b k :
  de_kind b = k →
  (copyBaseNoFlags b k = b ↔ negb (de_dropTracked b) && negb (de_moveOnly b) = true).
Proof.
  destruct b as [n m l k' [] []]; simpl; intros ->; unfold copyBaseNoFlags, set_field; simpl;
    (split; [|done]); by intros [=].
Qed.

(** Induction over a declaration and the pattern inside it. *)
Fixpoint Decl_pattern_ind (P : Decl → Prop)
    (Hleaf : ∀ b body, (∀ tps p, body ≠ GenericTemplateDecl tps (Some p)) → P (mkDecl b body))
    (Hpat : ∀ b tps p, P p → P (mkDecl b (GenericTemplateDecl tps (Some p)))) d : P d.
Proof.
  destruct d as [b body]. destruct body as [| | | | | | | | |tps [p|]| | |];
    try (apply Hleaf; congruence).
  apply Hpat. by apply (Decl_pattern_ind P).
Defined.

(** cloning keeps a declaration.  For a declaration whose kinds match its
    classes, the clone equals the original exactly when no implementation or
    intrinsic in it has one of the two ownership flags set: those two clone methods
    forget [dropTracked] and [moveOnly]. *)
Lemma clone_faithful d : well_kinded d → (clone d = d ↔ keepsFlags d = true).
Proof.
  induction d as [b body Hleaf|b tps p IH] using Decl_pattern_ind; intros Hk.
  - destruct body as [| | | | | | | | |tps [p|]| | |]; simpl in *; simplify_eq;
      autorewrite with clone_app; try (by rewrite copyBase_id by done);
      try (by destruct (Hleaf tps p)).
    + rewrite <-(copyBaseNoFlags_id b DK.Impl) by done. split; [by intros [= ->]|by intros ->].
    + rewrite <-(copyBaseNoFlags_id b DK.Intrinsic) by done.
      split; [by intros [= ->]|by intros ->].
  - destruct Hk as [Hk Hp]. simpl. rewrite copyBase_id by done. rewrite <-(IH Hp).
    split; [by intros [= ->]|by intros ->].
Qed.

(** [struct Node { int32 value; *Node next; }], with [int32] at 1 and [*Node] at 2. *)
Definition nodeDecl : Decl := mkDecl
  ((freshBase DK.Struct) <| de_name := "Node" |> <| de_modulePath := "list" |>)
  (StructDecl [] [Build_FieldInfo "value" (Some 1%positive) 0 [] false;
                  Build_FieldInfo "next" (Some 2%positive) 0 [] false] [] "").

Lemma clone_faithful_witness :
  well_kinded nodeDecl ∧ (clone nodeDecl = nodeDecl ↔ keepsFlags nodeDecl = true).
Proof. split; [reflexivity|]. apply (clone_faithful nodeDecl). reflexivity. Defined.

(** ** Substitution is simultaneous replacement of references *)

(** The replacement of one reference that resolves. *)
Definition substTo (h : heap) (subst : substMap) (t : option addr) : option addr :=
  match t ≫= λ a, h !! a with
  | Some d => default t (subst !! d_name d)
  | None => t
  end.

Section mapRefs.
Context (f : option addr → option addr).

Definition mapField (x : FieldInfo) : FieldInfo :=
  Build_FieldInfo (fd_name x) (f (fd_type x)) (fd_arrayDims x) (fd_arraySizes x) (fd_autoFill x).
Definition mapParam (p : ParamInfo) : ParamInfo :=
  Build_ParamInfo (pa_name p) (f (pa_type p)) (pa_isVariadic p).
Definition mapMethod (m : MethodInfo) : MethodInfo :=
  Build_MethodInfo (me_name m) (f (me_returnType m)) (mapParam <$> me_params m) (me_isStatic m).
Definition mapVariant (v : VariantInfo) : VariantInfo :=
  Build_VariantInfo (va_name v) (va_discriminant v) (va_payloadKind v)
    (mapField <$> va_payloadFields v).

(** A declaration with every reference it can substitute replaced by [f]. *)
Definition mapRefs (body : DeclBody) : DeclBody :=
  match body with
  | StructDecl gp fields methods parent =>
      StructDecl gp (mapField <$> fields) (mapMethod <$> methods) parent
  | UnionDecl gp fields => UnionDecl gp (mapField <$> fields)
  | EnumDecl gp variants bw => EnumDecl gp (mapVariant <$> variants) bw
  | PointerDecl p => PointerDecl (f p)
  | FunctionDecl rt ps va ext abi gp => FunctionDecl (f rt) (mapParam <$> ps) va ext abi gp
  | ExtendedDecl k e ky v c => ExtendedDecl k (f e) (f ky) (f v) c
  | TupleDecl es => TupleDecl (f <$> es)
  | TypeAliasDecl t n ns => TypeAliasDecl (f t) n ns
  | TraitDecl gp methods => TraitDecl gp (mapMethod <$> methods)
  | _ => body
  end.
End mapRefs.

Definition methodRefs (m : MethodInfo) : list (option addr) :=
  me_returnType m :: (pa_type <$> me_params m).

(** The references [substituteTypes] looks at. *)
Definition bodyRefs (body : DeclBody) : list (option addr) :=
  match body with
  | StructDecl _ fields methods _ => (fd_type <$> fields) ++ (m ← methods; methodRefs m)
  | UnionDecl _ fields => fd_type <$> fields
  | EnumDecl _ variants _ => v ← variants; fd_type <$> va_payloadFields v
  | PointerDecl p => [p]
  | FunctionDecl rt ps _ _ _ _ => rt :: (pa_type <$> ps)
  | ExtendedDecl _ e ky v _ => [e; ky; v]
  | TupleDecl es => es
  | TypeAliasDecl t _ _ => [t]
  | TraitDecl _ methods => m ← methods; methodRefs m
  | _ => []
  end.

(** No reference of the list dangles. *)
Definition refs_ok (h : heap) (refs : list (option addr)) : Prop :=
  ∀ a, Some a ∈ refs → is_Some (h !! a).

Lemma refs_ok_app h l1 l2 : refs_ok h (l1 ++ l2) ↔ refs_ok h l1 ∧ refs_ok h l2.
Proof. unfold refs_ok. setoid_rewrite elem_of_app. naive_solver. Qed.
Lemma refs_ok_cons h t l : refs_ok h (t :: l) ↔ refs_ok h [t] ∧ refs_ok h l.
Proof. apply (refs_ok_app h [t] l). Qed.

Lemma mapO_fmap {A B} (f : A → outcome B) (g : A → B) l :
  (∀ x, x ∈ l → f x = Ret (g x)) → mapO f l = Ret (g <$> l).
Proof.
  induction l as [|x l IH]; intros H; simpl; [done|].
  rewrite H, IH by set_solver. done.
Qed.

Section substitution.
Context (h : heap) (subst : substMap).

Lemma substRef_ok t : refs_ok h [t] → substRef h subst t = Ret (substTo h subst t).
Proof.
  intros H. destruct t as [a|]; [|done]. unfold substTo. simpl.
  destruct (H a) as [d Hd]; [set_solver|]. rewrite Hd. by destruct (subst !! d_name d).
Qed.

Lemma substituteInFields_ok fs :
  refs_ok h (fd_type <$> fs) →
  substituteInFields h subst fs = Ret (mapField (substTo h subst) <$> fs).
Proof.
  intros H. apply mapO_fmap. intros x Hx.
  rewrite substRef_ok; [done|]. intros a Ha. apply H.
  apply list_elem_of_singleton in Ha. rewrite Ha. by apply list_elem_of_fmap_2.
Qed.

Lemma substituteInParams_ok ps :
  refs_ok h (pa_type <$> ps) →
  substituteInParams h subst ps = Ret (mapParam (substTo h subst) <$> ps).
Proof.
  intros H. apply mapO_fmap. intros x Hx.
  rewrite substRef_ok; [done|]. intros a Ha. apply H.
  apply list_elem_of_singleton in Ha. rewrite Ha. by apply list_elem_of_fmap_2.
Qed.

Lemma substituteInMethods_ok ms :
  refs_ok h (m ← ms; methodRefs m) →
  substituteInMethods h subst ms = Ret (mapMethod (substTo h subst) <$> ms).
Proof.
  intros H. apply mapO_fmap. intros m Hm.
  assert (Hrefs : refs_ok h (methodRefs m)).
  { intros a Ha. apply H. apply list_elem_of_bind. eauto. }
  apply refs_ok_cons in Hrefs as [Hr Hp].
  by rewrite substRef_ok, substituteInParams_ok.
Qed.

Lemma substituteInVariants_ok vs :
  refs_ok h (v ← vs; fd_type <$> va_payloadFields v) →
  substituteInVariants h subst vs = Ret (mapVariant (substTo h subst) <$> vs).
Proof.
  intros H. apply mapO_fmap. intros v Hv.
  rewrite substituteInFields_ok; [done|]. intros a Ha. apply H.
  apply list_elem_of_bind. eauto.
Qed.

Lemma substituteBody_ok body :
  refs_ok h (bodyRefs body) →
  substituteBody h subst body = Ret (mapRefs (substTo h subst) body).
Proof.
  intros H. destruct body; try done.
  - apply refs_ok_app in H as [Hf Hm]. simpl.
    by rewrite substituteInFields_ok, substituteInMethods_ok.
  - simpl. by rewrite substituteInFields_ok.
  - simpl. by rewrite substituteInVariants_ok.
  - simpl. by rewrite substRef_ok.
  - apply refs_ok_cons in H as [Hr Hp]. simpl. by rewrite substRef_ok, substituteInParams_ok.
  - apply refs_ok_cons in H as [H1 H]. apply refs_ok_cons in H as [H2 H3].
    simpl. by rewrite !substRef_ok.
  - simpl. erewrite mapO_fmap; [done|]. intros t Ht. apply substRef_ok.
    intros a Ha. apply list_elem_of_singleton in Ha as <-. by apply H.
  - simpl. by rewrite substRef_ok.
  - simpl. by rewrite substituteInMethods_ok.
Qed.
End substitution.

(** Equality of the two images of a list of references. *)
Lemma mapRefs_ext f g body :
  (∀ t, t ∈ bodyRefs body → f t = g t) → mapRefs f body = mapRefs g body.
Proof.
  assert (Hfields : ∀ fs : list FieldInfo, (∀ t, t ∈ fd_type <$> fs → f t = g t) →
      mapField f <$> fs = mapField g <$> fs).
  { intros fs H. apply list_fmap_ext. intros i x Hx. unfold mapField. f_equal.
    apply H, list_elem_of_fmap_2, list_elem_of_lookup. eauto. }
  assert (Hparams : ∀ ps : list ParamInfo, (∀ t, t ∈ pa_type <$> ps → f t = g t) →
      mapParam f <$> ps = mapParam g <$> ps).
  { intros ps H. apply list_fmap_ext. intros i x Hx. unfold mapParam. f_equal.
    apply H, list_elem_of_fmap_2, list_elem_of_lookup. eauto. }
  assert (Hmethods : ∀ ms : list MethodInfo, (∀ t, t ∈ (m ← ms; methodRefs m) → f t = g t) →
      mapMethod f <$> ms = mapMethod g <$> ms).
  { intros ms H. apply list_fmap_ext. intros i x Hx.
    assert (Hin : ∀ t, t ∈ methodRefs x → f t = g t).
    { intros t Ht. apply H, list_elem_of_bind. exists x. split; [done|].
      apply list_elem_of_lookup. eauto. }
    unfold mapMethod. rewrite (Hin (me_returnType x)) by apply list_elem_of_here.
    rewrite Hparams; [done|]. intros t Ht. apply Hin. by apply list_elem_of_further. }
  intros H. destruct body; simpl in *; try done.
  - rewrite Hfields, Hmethods; [done|..]; intros t Ht; apply H, elem_of_app; auto.
  - by rewrite Hfields.
  - f_equal. apply list_fmap_ext. intros i x Hx. unfold mapVariant.
    rewrite Hfields; [done|]. intros t Ht. apply H, list_elem_of_bind. exists x.
    split; [done|]. apply list_elem_of_lookup. eauto.
  - by rewrite H by apply list_elem_of_here.
  - rewrite H, Hparams; [done|..]; [intros t Ht; apply H; by apply list_elem_of_further|].
    apply list_elem_of_here.
  - rewrite !H; [done|set_solver..].
  - f_equal. apply list_fmap_ext. intros i x Hx. apply H, list_elem_of_lookup. eauto.
  - by rewrite H by apply list_elem_of_here.
  - by rewrite Hmethods.
Qed.

Lemma mapRefs_id body : mapRefs id body = body.
Proof.
  assert (Hf : ∀ fs : list FieldInfo, mapField id <$> fs = fs)
    by (intros fs; rewrite <-(list_fmap_id fs) at 2; apply list_fmap_ext; by intros ? []).
  assert (Hp : ∀ ps : list ParamInfo, mapParam id <$> ps = ps)
    by (intros ps; rewrite <-(list_fmap_id ps) at 2; apply list_fmap_ext; by intros ? []).
  assert (Hm : ∀ ms : list MethodInfo, mapMethod id <$> ms = ms).
  { intros ms. rewrite <-(list_fmap_id ms) at 2. apply list_fmap_ext. intros ? [] _.
    unfold mapMethod. simpl. by rewrite Hp. }
  destruct body; simpl; rewrite ?Hf, ?Hp, ?Hm, ?list_fmap_id; try done.
  f_equal. rewrite <-(list_fmap_id variants) at 2. apply list_fmap_ext. intros ? [] _.
  unfold mapVariant. simpl. by rewrite Hf.
Qed.

(** substitution replaces references, all at once and nothing else.  When no
    reference of a declaration dangles, [substituteTypes] returns the declaration
    with each reference replaced by the substitution of the name it points at, and
    with every other member unchanged; a declaration that mentions no substituted
    name is returned as it is. *)
Lemma substituteTypes_spec h subst d :
  refs_ok h (bodyRefs (d_body d)) →
  substituteTypes h subst d = Ret (mkDecl (d_base d) (mapRefs (substTo h subst) (d_body d))) ∧
  ((∀ a da, Some a ∈ bodyRefs (d_body d) → h !! a = Some da → subst !! d_name da = None) →
   substituteTypes h subst d = Ret d).
Proof.
  intros Hok. unfold substituteTypes. rewrite (substituteBody_ok h subst _ Hok). simpl.
  split; [done|]. intros Hfree. rewrite (mapRefs_ext _ id), mapRefs_id; [by destruct d|].
  intros [a|] Ha; unfold substTo; simpl; [|done].
  destruct (h !! a) as [da|] eqn:Hda; [|done]. by rewrite (Hfree a da).
Qed.

Definition paramT : Decl := mkDecl ((freshBase DK.Struct) <| de_name := "T" |>) (StructDecl [] [] [] "").
Definition prim32 : Decl :=
  mkDecl ((freshBase DK.Integer) <| de_name := "int32" |>) (PrimitiveDecl 32 true "i32").
Definition boxDecl : Decl := mkDecl ((freshBase DK.Struct) <| de_name := "Box" |>)
  (StructDecl ["T"] [Build_FieldInfo "item" (Some 3%positive) 0 [] false] [] "").

Lemma substituteTypes_spec_witness :
  let h : heap := <[1%positive := prim32]> {[3%positive := paramT]} in
  let subst : substMap := {["T" := Some 1%positive]} in
  substituteTypes h subst boxDecl
  = Ret (mkDecl (d_base boxDecl) (mapRefs (substTo h subst) (d_body boxDecl))) ∧
  ((∀ a da, Some a ∈ bodyRefs (d_body boxDecl) → h !! a = Some da → subst !! d_name da = None) →
   substituteTypes h subst boxDecl = Ret boxDecl).
Proof.
  apply (substituteTypes_spec (<[1%positive := prim32]> {[3%positive := paramT]})
           {["T" := Some 1%positive]} boxDecl).
  intros a Ha. apply list_elem_of_singleton in Ha as [= ->]. by eexists.
Defined.
