(* ===== verification/SemanticDB.v ===== *)
(** * The semantic database

    [semantic/SemanticDB.h] and [semantic/SemanticDB.cpp] without the cache file:
    forward declarations, registration, extend methods, lookup, the module index,
    and instantiation of generic templates.

    The database owns its declarations through [unique_ptr]s.  Here the objects live
    in a heap, the tables map names to addresses, and a rejected object is removed
    from the heap, as the destructor of its [unique_ptr] does.  The unordered maps
    are finite maps; nothing below depends on their iteration order except the three
    functions that list their contents, whose order the model leaves unspecified. *)

From S2P Require Import Prelude CxxLib Decls.
Local Open Scope Z_scope.

Record ForwardInfo := {
  fw_kind : DeclKind;
  fw_modulePath : string;
  fw_loc : SourceLocation }.

(** The tables that own declarations. *)
Inductive Table :=
| TTypes | TFunctions | TGenerics | TTraits | TImpls | TIntrinsics | TBuiltins.

#[export] Instance Table_eq_dec : EqDecision Table.
Proof. solve_decision. Defined.

Record SemanticDB := {
  db_heap : heap;
  db_forwardDecls : gmap string ForwardInfo;
  db_types : gmap string addr;
  db_functions : gmap string addr;
  db_generics : gmap string addr;
  db_traits : gmap string addr;
  db_impls : gmap string addr;
  db_intrinsics : gmap string addr;
  db_builtins : gmap string addr;
  db_modules : gmap string (gmap string addr);
  db_pendingExtends : gmap string (list MethodInfo);
  db_instantiating : gset string }.

#[export] Instance settable_SemanticDB : Settable SemanticDB := λ db,
  Build_SemanticDB (db_heap db) (db_forwardDecls db) (db_types db) (db_functions db)
    (db_generics db) (db_traits db) (db_impls db) (db_intrinsics db) (db_builtins db)
    (db_modules db) (db_pendingExtends db) (db_instantiating db).

Definition emptyDB : SemanticDB := Build_SemanticDB ∅ ∅ ∅ ∅ ∅ ∅ ∅ ∅ ∅ ∅ ∅ ∅.

Definition table (t : Table) (db : SemanticDB) : gmap string addr :=
  match t with
  | TTypes => db_types db | TFunctions => db_functions db | TGenerics => db_generics db
  | TTraits => db_traits db | TImpls => db_impls db | TIntrinsics => db_intrinsics db
  | TBuiltins => db_builtins db
  end.

Definition setTable (t : Table) (m : gmap string addr) (db : SemanticDB) : SemanticDB :=
  match t with
  | TTypes => db <| db_types := m |> | TFunctions => db <| db_functions := m |>
  | TGenerics => db <| db_generics := m |> | TTraits => db <| db_traits := m |>
  | TImpls => db <| db_impls := m |> | TIntrinsics => db <| db_intrinsics := m |>
  | TBuiltins => db <| db_builtins := m |>
  end.

(** ** Memory *)

Definition DB := M SemanticDB.

(** [std::make_unique] of an object with the members of [d]. *)
Definition newDecl (d : Decl) : DB addr := λ db,
  let a := fresh (dom (db_heap db)) in
  ROk a (db <| db_heap := <[a := d]> (db_heap db) |>).

Definition readDecl (a : addr) : DB Decl := λ db,
  match db_heap db !! a with Some d => ROk d db | None => RUndef end.

Definition writeDecl (a : addr) (d : Decl) : DB unit :=
  modifyS (λ db, db <| db_heap := <[a := d]> (db_heap db) |>).

(** The [unique_ptr] goes out of scope. *)
Definition freeDecl (a : addr) : DB unit :=
  modifyS (λ db, db <| db_heap := delete a (db_heap db) |>).

Definition undefined {A} : DB A := λ _, RUndef.

(** ** Kinds *)

Definition kindToString (k : DeclKind) : string :=
  match k with
  | DK.Integer => "integer" | DK.Float => "float" | DK.Bool => "bool" | DK.Char => "char"
  | DK.Void => "void" | DK.String => "string" | DK.VAList => "va_list"
  | DK.Struct => "struct" | DK.Union => "union" | DK.Enum => "enum"
  | DK.Pointer => "pointer" | DK.Function => "function" | DK.Extended => "extended"
  | DK.Tuple => "tuple" | DK.TypeAlias => "type alias"
  | DK.GenericTemplate => "generic template" | DK.Intrinsic => "intrinsic"
  | DK.Trait => "trait" | DK.Impl => "impl"
  | DK.BitStruct | DK.Fallible => "unknown"
  end.

(** ** Forward declarations *)

Definition hasType (db : SemanticDB) (name : string) : bool :=
  bool_decide (is_Some (db_types db !! name)).
Definition hasFunction (db : SemanticDB) (name : string) : bool :=
  bool_decide (is_Some (db_functions db !! name)).
Definition hasGeneric (db : SemanticDB) (name : string) : bool :=
  bool_decide (is_Some (db_generics db !! name)).
Definition hasIntrinsic (db : SemanticDB) (name : string) : bool :=
  bool_decide (is_Some (db_intrinsics db !! name)).
Definition hasBuiltin (db : SemanticDB) (name : string) : bool :=
  bool_decide (is_Some (db_builtins db !! name)).
Definition hasTrait (db : SemanticDB) (name : string) : bool :=
  bool_decide (is_Some (db_traits db !! name)).

Definition forwardDeclare (name : string) (kind : DeclKind) (modulePath : string)
    (loc : SourceLocation) : DB bool :=
  db ← getS;
  if hasType db name then mret false else
  match db_forwardDecls db !! name with
  | Some info => if bool_decide (fw_kind info ≠ kind) then mret false else mret true
  | None =>
      putS (db <| db_forwardDecls :=
        <[name := Build_ForwardInfo kind modulePath loc]> (db_forwardDecls db) |>);;
      mret true
  end.

Definition hasForwardDecl (db : SemanticDB) (name : string) : bool :=
  bool_decide (is_Some (db_forwardDecls db !! name)) && negb (hasType db name).

Definition forwardDeclKind (db : SemanticDB) (name : string) : outcome DeclKind :=
  match db_forwardDecls db !! name with
  | Some info => Ret (fw_kind info)
  | None =>
      match db_types db !! name with
      | Some a => match db_heap db !! a with Some d => Ret (d_kind d) | None => Undef end
      | None => Ret DK.Void
      end
  end.

(** ** Module index *)

(** [modules_[modulePath][name] = ptr] *)
Definition indexInModule (modulePath name : string) (ptr : addr) : DB unit :=
  if bool_decide (modulePath = "") then mret () else
  modifyS (λ db, db <| db_modules :=
    <[modulePath := <[name := ptr]> (default ∅ (db_modules db !! modulePath))]> (db_modules db) |>).

Definition findInModule (db : SemanticDB) (modulePath name : string) : option addr :=
  match db_modules db !! modulePath with
  | None => None
  | Some inner => inner !! name
  end.

(** ** Registration *)

(** Appends to the methods of the struct at [a]; the cast to [StructDecl*] is
    undefined on an object of another class. *)
Definition appendMethods (a : addr) (methods : list MethodInfo) : DB unit :=
  d ← readDecl a;
  match d_body d with
  | StructDecl gp fields own parent =>
      writeDecl a (mkDecl (d_base d) (StructDecl gp fields (own ++ methods) parent))
  | _ => undefined
  end.

Definition flushPendingExtends (structName : string) (sd : addr) : DB unit :=
  db ← getS;
  match db_pendingExtends db !! structName with
  | None => mret ()
  | Some pending =>
      appendMethods sd pending;;
      modifyS (λ db, db <| db_pendingExtends := delete structName (db_pendingExtends db) |>)
  end.

Definition registerType (decl : option addr) : DB bool :=
  match decl with
  | None => mret false
  | Some a =>
      d ← readDecl a;
      let name := d_name d in
      db ← getS;
      if hasType db name then freeDecl a;; mret false else
      (if bool_decide (d_kind d = DK.Struct) then flushPendingExtends name a else mret ());;
      modifyS (λ db, db <| db_forwardDecls := delete name (db_forwardDecls db) |>);;
      indexInModule (d_modulePath d) name a;;
      modifyS (λ db, db <| db_types := <[name := a]> (db_types db) |>);;
      mret true
  end.

(** The key a table files a declaration under. *)
Definition tableKey (t : Table) (d : Decl) : string :=
  match t, d_body d with
  | TImpls, ImplDecl traitName typeName _ _ => traitName +:+ ":" +:+ typeName
  | _, _ => d_name d
  end.

(** The common shape of the other register functions; [indexed] says whether the
    function enters the declaration in the module index. *)
Definition registerIn (t : Table) (indexed : bool) (decl : option addr) : DB bool :=
  match decl with
  | None => mret false
  | Some a =>
      d ← readDecl a;
      let key := tableKey t d in
      db ← getS;
      if bool_decide (is_Some (table t db !! key)) then freeDecl a;; mret false else
      (if indexed then indexInModule (d_modulePath d) (d_name d) a else mret ());;
      modifyS (λ db, setTable t (<[key := a]> (table t db)) db);;
      mret true
  end.

Definition registerFunction : option addr → DB bool := registerIn TFunctions true.
Definition registerGeneric : option addr → DB bool := registerIn TGenerics true.
Definition registerTrait : option addr → DB bool := registerIn TTraits true.
Definition registerImpl : option addr → DB bool := registerIn TImpls true.
Definition registerIntrinsic : option addr → DB bool := registerIn TIntrinsics false.
Definition registerBuiltin : option addr → DB bool := registerIn TBuiltins false.

Definition mergeExtendMethods (structName : string) (methods : list MethodInfo) : DB bool :=
  db ← getS;
  match db_types db !! structName with
  | Some a =>
      d ← readDecl a;
      if bool_decide (d_kind d ≠ DK.Struct) then mret false
      else appendMethods a methods;; mret true
  | None =>
      let pending := default [] (db_pendingExtends db !! structName) in
      putS (db <| db_pendingExtends := <[structName := pending ++ methods]> (db_pendingExtends db) |>);;
      mret true
  end.

(** ** Lookup *)

Definition lookupAny (db : SemanticDB) (name : string) : option addr :=
  match db_types db !! name with Some a => Some a | None =>
  match db_functions db !! name with Some a => Some a | None =>
  match db_builtins db !! name with Some a => Some a | None =>
  match db_intrinsics db !! name with Some a => Some a | None =>
  match db_generics db !! name with Some a => Some a | None =>
  match db_traits db !! name with Some a => Some a | None => None
  end end end end end end.

Definition lookupFunction (db : SemanticDB) (name : string) : option addr :=
  db_functions db !! name.
Definition lookupGeneric (db : SemanticDB) (name : string) : option addr :=
  db_generics db !! name.
Definition lookupIntrinsic (db : SemanticDB) (name : string) : option addr :=
  db_intrinsics db !! name.
Definition lookupTrait (db : SemanticDB) (name : string) : option addr := db_traits db !! name.

Definition findImpl (db : SemanticDB) (traitName typeName : string) : option addr :=
  db_impls db !! (traitName +:+ ":" +:+ typeName).

Definition allTypes (db : SemanticDB) : list addr :=
  (map_to_list (db_types db)).*2 ++ (map_to_list (db_builtins db)).*2.
Definition allFunctions (db : SemanticDB) : list addr := (map_to_list (db_functions db)).*2.
Definition allGenerics (db : SemanticDB) : list addr := (map_to_list (db_generics db)).*2.
Definition allTraits (db : SemanticDB) : list addr := (map_to_list (db_traits db)).*2.

(** ** Generic instantiation *)

Definition star_to_P (c : ascii) : ascii := if bool_decide (c = "*"%char) then "P"%char else c.

(** The suffixes of the arguments: [__] and the name with [*] replaced by [P]. *)
Fixpoint mangleArgs (h : heap) (typeArgs : list (option addr)) : outcome string :=
  match typeArgs with
  | [] => Ret ""
  | None :: args => rest ← mangleArgs h args; Ret ("__" +:+ rest)
  | Some a :: args =>
      match h !! a with
      | None => Undef
      | Some d => rest ← mangleArgs h args; Ret ("__" +:+ str_map star_to_P (d_name d) +:+ rest)
      end
  end.

Definition mangleGenericName (h : heap) (baseName : string) (typeArgs : list (option addr))
    : outcome string :=
  match typeArgs with
  | [] => Ret baseName
  | _ => suffix ← mangleArgs h typeArgs; Ret (baseName +:+ suffix)
  end.

(** The substitution map: later parameters of the same name win. *)
Fixpoint buildSubst (params : list string) (args : list (option addr)) (m : substMap) : substMap :=
  match params, args with
  | p :: params, a :: args => buildSubst params args (<[p := a]> m)
  | _, _ => m
  end.

Definition instantiateGeneric (baseName : string) (typeArgs : list (option addr))
    (usageLoc : SourceLocation) : DB (option addr) :=
  db ← getS;
  match lookupGeneric db baseName with
  | None => mret None
  | Some ta =>
      tmpl ← readDecl ta;
      match d_body tmpl with
      | GenericTemplateDecl typeParams pattern =>
          if negb (length typeArgs =? length typeParams)%nat then mret None else
          mangled ← liftO (mangleGenericName (db_heap db) baseName typeArgs);
          match db_types db !! mangled with
          | Some a => mret (Some a)
          | None =>
              if bool_decide (mangled ∈ db_instantiating db) then mret None else
              modifyS (λ db, db <| db_instantiating := {[mangled]} ∪ db_instantiating db |>);;
              match pattern with
              | None => undefined
              | Some p =>
                  let subst := buildSubst typeParams typeArgs ∅ in
                  concrete ← liftO (substituteTypes (db_heap db) subst (clone p));
                  let base := (d_base concrete) <| de_name := mangled |>
                    <| de_modulePath := d_modulePath tmpl |> <| de_loc := usageLoc |> in
                  a ← newDecl (mkDecl base (d_body concrete));
                  modifyS (λ db, db <| db_types := <[mangled := a]> (db_types db) |>);;
                  indexInModule (d_modulePath tmpl) mangled a;;
                  modifyS (λ db, db <| db_instantiating := db_instantiating db ∖ {[mangled]} |>);;
                  mret (Some a)
              end
          end
      | _ => undefined
      end
  end.

(** ** Equations *)

Lemma table_setTable t t' m db :
  table t' (setTable t m db) = if bool_decide (t' = t) then m else table t' db.
Proof. by destruct t, t'. Qed.
Lemma heap_setTable t m db : db_heap (setTable t m db) = db_heap db.
Proof. by destruct t. Qed.
Lemma modules_setTable t m db : db_modules (setTable t m db) = db_modules db.
Proof. by destruct t. Qed.
Lemma pending_setTable t m db : db_pendingExtends (setTable t m db) = db_pendingExtends db.
Proof. by destruct t. Qed.
Lemma instantiating_setTable t m db : db_instantiating (setTable t m db) = db_instantiating db.
Proof. by destruct t. Qed.

(** [indexInModule] as a function of the database. *)
Definition indexed (m n : string) (a : addr) (db : SemanticDB) : SemanticDB :=
  if bool_decide (m = "") then db else
  db <| db_modules := <[m := <[n := a]> (default ∅ (db_modules db !! m))]> (db_modules db) |>.

Lemma indexInModule_eq m n a db : indexInModule m n a db = ROk () (indexed m n a db).
Proof. unfold indexInModule, indexed. by case_bool_decide. Qed.

Lemma table_indexed t m n a db : table t (indexed m n a db) = table t db.
Proof. unfold indexed. case_bool_decide; by destruct t. Qed.
Lemma heap_indexed m n a db : db_heap (indexed m n a db) = db_heap db.
Proof. unfold indexed. by case_bool_decide. Qed.
Lemma pending_indexed m n a db : db_pendingExtends (indexed m n a db) = db_pendingExtends db.
Proof. unfold indexed. by case_bool_decide. Qed.
Lemma instantiating_indexed m n a db : db_instantiating (indexed m n a db) = db_instantiating db.
Proof. unfold indexed. by case_bool_decide. Qed.

Lemma findInModule_indexed m n a db m' n' :
  findInModule (indexed m n a db) m' n' =
  if bool_decide (m ≠ "" ∧ m' = m ∧ n' = n) then Some a else findInModule db m' n'.
Proof.
  unfold findInModule, indexed. destruct (decide (m = "")) as [->|Hm].
  { by rewrite bool_decide_eq_true_2, bool_decide_eq_false_2 by naive_solver. }
  rewrite (bool_decide_eq_false_2 (m = "")) by done. simpl.
  destruct (decide (m' = m)) as [->|Hm'].
  - rewrite lookup_insert_eq. destruct (decide (n' = n)) as [->|Hn].
    + by rewrite lookup_insert_eq, bool_decide_eq_true_2.
    + rewrite lookup_insert_ne, bool_decide_eq_false_2 by naive_solver.
      by destruct (db_modules db !! m); simpl; rewrite ?lookup_empty.
  - by rewrite lookup_insert_ne, bool_decide_eq_false_2 by naive_solver.
Qed.

Create Rewrite HintDb semdb.
#[export] Hint Rewrite table_setTable heap_setTable modules_setTable pending_setTable
  instantiating_setTable table_indexed heap_indexed pending_indexed instantiating_indexed : semdb.

(** ** The invariant *)

(** All references of a declaration, those of a template's pattern included. *)
Definition allRefs (body : DeclBody) : list (option addr) :=
  match body with
  | ImplDecl _ _ _ methods => m ← methods; methodRefs m
  | IntrinsicDecl rt ps _ _ _ => rt :: (pa_type <$> ps)
  | _ => bodyRefs body
  end.

Fixpoint declRefs (d : Decl) : list (option addr) :=
  let 'mkDecl _ body := d in
  match body with
  | GenericTemplateDecl _ (Some p) => declRefs p
  | _ => allRefs body
  end.

(** An object's kind is its class's. *)
Definition kinded (d : Decl) : Prop :=
  match body_kind (d_body d) with
  | Some k => d_kind d = k
  | None => isPrimitive d = true
  end.

(** The class of the [unique_ptr]s of a table; templates have a pattern. *)
Definition of_class (t : Table) (d : Decl) : Prop :=
  match t, d_body d with
  | TFunctions, FunctionDecl _ _ _ _ _ _ => True
  | TGenerics, GenericTemplateDecl _ (Some p) => kinded p
  | TTraits, TraitDecl _ _ => True
  | TImpls, ImplDecl _ _ _ _ => True
  | TIntrinsics, IntrinsicDecl _ _ _ _ _ => True
  | TTypes, _ | TBuiltins, _ => True
  | _, _ => False
  end.

Definition filed (t : Table) (k : string) (d : Decl) : Prop :=
  tableKey t d = k ∧ kinded d ∧ of_class t d.

Record db_ok (db : SemanticDB) : Prop := {
  ok_entry : ∀ t k a, table t db !! k = Some a →
    ∃ d, db_heap db !! a = Some d ∧ filed t k d;
  ok_unique : ∀ t k t' k' a, table t db !! k = Some a → table t' db !! k' = Some a →
    t = t' ∧ k = k';
  ok_noleak : ∀ a d, db_heap db !! a = Some d → ∃ t k, table t db !! k = Some a;
  ok_modules : ∀ m n a, findInModule db m n = Some a →
    ∃ d, db_heap db !! a = Some d ∧ d_name d = n ∧ d_modulePath d = m;
  ok_refs : ∀ a d, db_heap db !! a = Some d → refs_ok (db_heap db) (declRefs d);
  ok_pending : ∀ s ms, db_pendingExtends db !! s = Some ms →
    refs_ok (db_heap db) (m ← ms; methodRefs m);
  ok_instantiating : db_instantiating db = ∅ }.

Lemma db_ok_empty : db_ok emptyDB.
Proof.
  split; try done; try (by intros [] ???); try (by intros [] ? ? ? ? ?).
Qed.

Lemma refs_ok_mono (h h' : heap) refs :
  (∀ a, is_Some (h !! a) → is_Some (h' !! a)) → refs_ok h refs → refs_ok h' refs.
Proof. unfold refs_ok. eauto. Qed.

Lemma refs_ok_insert (h : heap) a d refs : refs_ok h refs → refs_ok (<[a := d]> h) refs.
Proof. apply refs_ok_mono. intros b Hb. apply lookup_insert_is_Some'. auto. Qed.

(** A registration: the object [d] at the fresh address [a], filed under [k] and
    entered in the module index under [m]. *)
Definition added (t : Table) (k : string) (a : addr) (d : Decl) (m : string) (db : SemanticDB)
    : SemanticDB :=
  let db := indexed m (d_name d) a (db <| db_heap := <[a := d]> (db_heap db) |>) in
  setTable t (<[k := a]> (table t db)) db.

Lemma table_added t k a d m db t' :
  table t' (added t k a d m db) =
  if bool_decide (t' = t) then <[k := a]> (table t db) else table t' db.
Proof.
  unfold added. autorewrite with semdb. by destruct t, t'.
Qed.
Lemma heap_added t k a d m db : db_heap (added t k a d m db) = <[a := d]> (db_heap db).
Proof. unfold added. by autorewrite with semdb. Qed.
Lemma findInModule_added t k a d m db m' n' :
  findInModule (added t k a d m db) m' n' =
  if bool_decide (m ≠ "" ∧ m' = m ∧ n' = d_name d) then Some a else findInModule db m' n'.
Proof.
  unfold added, findInModule at 1. rewrite modules_setTable.
  exact (findInModule_indexed m (d_name d) a _ m' n').
Qed.

Lemma db_ok_added t k a d m db :
  db_ok db → db_heap db !! a = None → table t db !! k = None → filed t k d →
  (m ≠ "" → m = d_modulePath d) → refs_ok (<[a := d]> (db_heap db)) (declRefs d) →
  db_ok (added t k a d m db).
Proof.
  intros [He Hu Hn Hm Hr Hp Hi] Ha Hk Hf Hmod Hrefs.
  assert (Hold : ∀ t' k' b, table t' (added t k a d m db) !! k' = Some b →
     (t' = t ∧ k' = k ∧ b = a) ∨ (table t' db !! k' = Some b ∧ b ≠ a)).
  { intros t' k' b. rewrite table_added. case_bool_decide; [subst|].
    - intros [[-> ->]|[? Hb]]%lookup_insert_Some; [auto|].
      right. split; [done|]. intros ->. destruct (He _ _ _ Hb) as (? & ? & _). congruence.
    - intros Hb. right. split; [done|]. intros ->.
      destruct (He _ _ _ Hb) as (? & ? & _). congruence. }
  split.
  - intros t' k' b [(->&->&->)|[Hb Hba]]%Hold; rewrite heap_added.
    + exists d. by rewrite lookup_insert_eq.
    + destruct (He _ _ _ Hb) as (d' & ? & ?). exists d'. by rewrite lookup_insert_ne.
  - intros t1 k1 t2 k2 b [(->&->&->)|[Hb Hba]]%Hold [(->&->&?)|[Hb' Hba']]%Hold; try done.
    by eapply Hu.
  - intros b d'. rewrite heap_added. intros [[<- <-]|[Hne Hb]]%lookup_insert_Some.
    + exists t, k. rewrite table_added, bool_decide_eq_true_2 by done. apply lookup_insert_eq.
    + destruct (Hn _ _ Hb) as (t' & k' & Ht'). exists t', k'. rewrite table_added.
      case_bool_decide; [subst|done]. rewrite lookup_insert_ne; [done|]. congruence.
  - intros m' n' b. rewrite findInModule_added, heap_added. case_bool_decide as Hc.
    + intros [= <-]. exists d. rewrite lookup_insert_eq. naive_solver.
    + intros Hb. destruct (Hm _ _ _ Hb) as (d' & ? & ?). exists d'.
      rewrite lookup_insert_ne; [done|]. congruence.
  - intros b d'. rewrite heap_added. intros [[<- <-]|[Hne Hb]]%lookup_insert_Some; [done|].
    apply refs_ok_insert. eauto.
  - intros s ms Hs. rewrite heap_added. apply refs_ok_insert. apply (Hp s).
    revert Hs. unfold added. by autorewrite with semdb.
  - unfold added. by autorewrite with semdb.
Qed.

(** ** Operations as a client runs them

    A client builds an object and hands it over, so registration follows an
    allocation. *)

Inductive op :=
| OForward (name : string) (kind : DeclKind) (modulePath : string) (loc : SourceLocation)
| OType (d : Decl)
| ORegister (t : Table) (d : Decl)
| OExtend (structName : string) (methods : list MethodInfo)
| OInstantiate (baseName : string) (typeArgs : list (option addr)) (loc : SourceLocation).

(** The register function of a table other than [types_]. *)
Definition registerOf (t : Table) : option addr → DB bool :=
  match t with
  | TTypes => registerType
  | TFunctions => registerFunction
  | TGenerics => registerGeneric
  | TTraits => registerTrait
  | TImpls => registerImpl
  | TIntrinsics => registerIntrinsic
  | TBuiltins => registerBuiltin
  end.

Definition registerNew (t : Table) (d : Decl) : DB bool :=
  a ← newDecl d; registerOf t (Some a).

Definition run (o : op) : DB unit :=
  match o with
  | OForward name kind m loc => forwardDeclare name kind m loc;; mret ()
  | OType d => registerNew TTypes d;; mret ()
  | ORegister t d => registerNew t d;; mret ()
  | OExtend s ms => mergeExtendMethods s ms;; mret ()
  | OInstantiate b args loc => instantiateGeneric b args loc;; mret ()
  end.

(** What a client owes: objects of the right class whose references resolve. *)
Definition op_ok (db : SemanticDB) (o : op) : Prop :=
  match o with
  | OForward _ _ _ _ => True
  | OType d => kinded d ∧ refs_ok (db_heap db) (declRefs d)
  | ORegister t d => kinded d ∧ of_class t d ∧ refs_ok (db_heap db) (declRefs d)
  | OExtend _ ms => refs_ok (db_heap db) (m ← ms; methodRefs m)
  | OInstantiate _ args _ => refs_ok (db_heap db) args
  end.

(** ** Registration as a function *)

(** The address [newDecl] takes. *)
Definition nextAddr (db : SemanticDB) : addr := fresh (dom (db_heap db)).

Lemma nextAddr_fresh db : db_heap db !! nextAddr db = None.
Proof.
  apply (not_elem_of_dom (D:=gset addr)). unfold nextAddr.
  exact (is_fresh (dom (db_heap db) : gset addr)).
Qed.

(** The methods waiting for a struct. *)
Definition pendingFor (db : SemanticDB) (d : Decl) : list MethodInfo :=
  if bool_decide (d_kind d = DK.Struct) then default [] (db_pendingExtends db !! d_name d) else [].

Definition withMethods (d : Decl) (ms : list MethodInfo) : Decl :=
  match d_body d with
  | StructDecl gp fields own parent => mkDecl (d_base d) (StructDecl gp fields (own ++ ms) parent)
  | _ => d
  end.

Lemma withMethods_nil d : withMethods d [] = d.
Proof. destruct d as [b []]; unfold withMethods; simpl; by rewrite ?app_nil_r. Qed.

Lemma free_new db d :
  (db <| db_heap := <[nextAddr db := d]> (db_heap db) |>)
    <| db_heap := delete (nextAddr db) (<[nextAddr db := d]> (db_heap db)) |> = db.
Proof.
  rewrite delete_insert_id by apply nextAddr_fresh. by destruct db.
Qed.

(** The outcome of registering a new object in a table other than [types_]. *)
Lemma registerIn_new t idx d db :
  (a ← newDecl d; registerIn t idx (Some a)) db =
  if bool_decide (is_Some (table t db !! tableKey t d)) then ROk false db
  else ROk true (added t (tableKey t d) (nextAddr db) d (if idx then d_modulePath d else "") db).
Proof.
  unfold registerIn, newDecl, readDecl, mbind, M_bind, getS. fold (nextAddr db). simpl.
  rewrite lookup_insert_eq.
  replace (table t (db <| db_heap := <[nextAddr db:=d]> (db_heap db) |>)) with (table t db)
    by (by destruct t).
  case_bool_decide as Hdup; [unfold freeDecl, modifyS; f_equal; apply free_new|].
  destruct idx; [rewrite indexInModule_eq|]; unfold modifyS, added, indexed; simpl;
    [case_bool_decide; by destruct t|by destruct t].
Qed.

Lemma table_erase t db m : table t (db <| db_forwardDecls := m |>) = table t db.
Proof. by destruct t. Qed.

(** The database after a type was registered. *)
Definition addedType (d : Decl) (db : SemanticDB) : SemanticDB :=
  let db' := if bool_decide (d_kind d = DK.Struct)
             then db <| db_pendingExtends := delete (d_name d) (db_pendingExtends db) |> else db in
  added TTypes (d_name d) (nextAddr db) (withMethods d (pendingFor db d)) (d_modulePath d)
    (db' <| db_forwardDecls := delete (d_name d) (db_forwardDecls db) |>).

Lemma withMethods_name d ms : d_name (withMethods d ms) = d_name d.
Proof. by destruct d as [b []]. Qed.

(** The outcome of registering a new type. *)
Lemma registerType_new d db :
  kinded d →
  registerNew TTypes d db =
  if hasType db (d_name d) then ROk false db else ROk true (addedType d db).
Proof.
  intros Hk. unfold registerNew, registerOf, registerType, newDecl, readDecl, mbind, M_bind, getS.
  fold (nextAddr db). simpl. rewrite lookup_insert_eq. unfold hasType at 1. simpl.
  fold (hasType db (d_name d)).
  destruct (hasType db (d_name d)); [unfold freeDecl, modifyS; f_equal; apply free_new|].
  unfold addedType, pendingFor.
  destruct (decide (d_kind d = DK.Struct)) as [Hs|Hs];
    [rewrite !(bool_decide_eq_true_2 _ Hs)|rewrite !(bool_decide_eq_false_2 _ Hs)].
  - destruct d as [b body]. unfold kinded in Hk. 
    assert (∃ gp fs ms pa, body = StructDecl gp fs ms pa) as (gp & fs & ms & pa & ->).
    { unfold isPrimitive in Hk. rewrite Hs in Hk. destruct body; simpl in Hk; try done; eauto. }
    unfold flushPendingExtends, getS, mbind, M_bind. simpl.
    destruct (db_pendingExtends db !! d_name _) as [pend|] eqn:Hp.
    + unfold appendMethods, readDecl, writeDecl, modifyS, mbind, M_bind. simpl.
      rewrite lookup_insert_eq. simpl. rewrite indexInModule_eq, insert_insert_eq. simpl.
      unfold added, indexed, withMethods. simpl.
      by case_bool_decide.
    + unfold mret, M_ret, modifyS. rewrite indexInModule_eq. simpl.
      rewrite withMethods_nil, (delete_id (db_pendingExtends db)) by exact Hp.
      unfold added, indexed. simpl. by case_bool_decide.
  - unfold mret, M_ret, modifyS. rewrite indexInModule_eq. simpl. rewrite withMethods_nil.
    unfold added, indexed. simpl. by case_bool_decide.
Qed.

(** ** Every operation keeps the invariant *)

(** What the invariant does not look at may change freely, and pending methods
    may be dropped. *)
Lemma db_ok_ext db db' :
  db_ok db → db_heap db' = db_heap db → (∀ t, table t db' = table t db) →
  db_modules db' = db_modules db → db_instantiating db' = db_instantiating db →
  (∀ s ms, db_pendingExtends db' !! s = Some ms → refs_ok (db_heap db) (m ← ms; methodRefs m)) →
  db_ok db'.
Proof.
  intros [He Hu Hn Hm Hr Hp Hi] Eh Et Em Ei Ep. unfold findInModule in *.
  split; unfold findInModule; rewrite ?Eh, ?Em, ?Ei; try done; setoid_rewrite Et; done.
Qed.

Lemma declRefs_withMethods d ms t :
  t ∈ declRefs (withMethods d ms) → t ∈ declRefs d ∨ t ∈ (m ← ms; methodRefs m).
Proof.
  destruct d as [b body]. destruct body; simpl; auto. rewrite bind_app.
  rewrite !elem_of_app. tauto.
Qed.

Lemma kinded_withMethods d ms : kinded d → kinded (withMethods d ms).
Proof. by destruct d as [b []]. Qed.

Lemma pendingFor_refs db d : db_ok db → refs_ok (db_heap db) (m ← pendingFor db d; methodRefs m).
Proof.
  intros Hok. unfold pendingFor. case_bool_decide; [|by intros a ?%elem_of_nil].
  destruct (db_pendingExtends db !! d_name d) as [ms|] eqn:Hms; simpl.
  - by eapply ok_pending.
  - by intros a ?%elem_of_nil.
Qed.

Lemma lookup_None_not_is_Some {A} (m : gmap string A) k :
  bool_decide (is_Some (m !! k)) = false → m !! k = None.
Proof. intros H%bool_decide_eq_false_1. by apply eq_None_not_Some. Qed.

Lemma registerType_ok d db :
  db_ok db → kinded d → refs_ok (db_heap db) (declRefs d) →
  ∃ b db', registerNew TTypes d db = ROk b db' ∧ db_ok db'.
Proof.
  intros Hok Hk Hr. rewrite registerType_new by done.
  destruct (hasType db (d_name d)) eqn:Hd; [eauto|]. eexists _, _. split; [done|].
  unfold addedType. apply db_ok_added.
  - eapply db_ok_ext; [exact Hok|..]; case_bool_decide; try done; try (by intros []); simpl.
    + intros s ms [_ Hs]%lookup_delete_Some. by eapply ok_pending.
    + by apply ok_pending.
  - case_bool_decide; exact (nextAddr_fresh db).
  - assert (table TTypes db !! d_name d = None) by (by apply lookup_None_not_is_Some).
    by case_bool_decide.
  - split_and!; [by destruct d as [b []]|by apply kinded_withMethods|done].
  - intros _. by destruct d as [b []].
  - apply refs_ok_insert. intros a [Ha|Ha]%declRefs_withMethods.
    + case_bool_decide; by apply Hr.
    + pose proof (pendingFor_refs db d Hok a Ha). by case_bool_decide.
Qed.

Lemma registerOther_ok t d db :
  t ≠ TTypes → db_ok db → kinded d → of_class t d → refs_ok (db_heap db) (declRefs d) →
  ∃ b db', registerNew t d db = ROk b db' ∧ db_ok db'.
Proof.
  intros Ht Hok Hk Hc Hr.
  assert (∃ idx, registerNew t d db = (a ← newDecl d; registerIn t idx (Some a)) db) as [idx ->].
  { destruct t; [done|..]; try (by exists true); by exists false. }
  rewrite registerIn_new.
  destruct (bool_decide (is_Some (table t db !! tableKey t d))) eqn:Hdup; [eauto|].
  eexists _, _. split; [done|]. apply db_ok_added.
  - done.
  - apply nextAddr_fresh.
  - by apply lookup_None_not_is_Some.
  - by split_and!.
  - destruct idx; [done|congruence].
  - by apply refs_ok_insert.
Qed.

Lemma tableKey_base_eq t d body :
  (∀ tr ty ps ms, d_body d ≠ ImplDecl tr ty ps ms) → (∀ tr ty ps ms, body ≠ ImplDecl tr ty ps ms) →
  tableKey t (mkDecl (d_base d) body) = tableKey t d.
Proof.
  intros H1 H2. unfold tableKey. simpl.
  destruct t; try done. destruct body, (d_body d) eqn:?; try done; naive_solver.
Qed.

(** A struct of the heap gains methods. *)
Lemma db_ok_update_struct db a d ms :
  db_ok db → db_heap db !! a = Some d → (∃ gp fs own pa, d_body d = StructDecl gp fs own pa) →
  refs_ok (db_heap db) (m ← ms; methodRefs m) →
  db_ok (db <| db_heap := <[a := withMethods d ms]> (db_heap db) |>).
Proof.
  intros [He Hu Hn Hm Hr Hp Hi] Ha (gp & fs & own & pa & Hs) Hms.
  assert (Htab : ∀ t, table t (db <| db_heap := <[a := withMethods d ms]> (db_heap db) |>)
                      = table t db) by (by intros []).
  assert (Hbase : d_base (withMethods d ms) = d_base d) by (unfold withMethods; by rewrite Hs).
  split; simpl; try done; try (setoid_rewrite Htab; try done).
  - intros t k b Hb. destruct (He t k b Hb) as (d' & Hd' & Hf).
    destruct (decide (b = a)) as [->|Hne]; [|rewrite lookup_insert_ne by done; eauto].
    rewrite lookup_insert_eq. eexists. split; [done|]. simplify_eq.
    destruct Hf as (Hkey & Hkind & Hcl). split_and!.
    + rewrite <-Hkey. unfold withMethods. rewrite Hs. apply tableKey_base_eq; congruence.
    + by apply kinded_withMethods.
    + unfold of_class in *. rewrite Hs in Hcl. unfold withMethods. rewrite Hs. by destruct t.
  - intros b d' [[<- <-]|[_ Hb]]%lookup_insert_Some; eauto.
  - intros m n b Hb. destruct (Hm m n b Hb) as (d' & Hd' & Hn' & Hm').
    destruct (decide (b = a)) as [->|Hne]; [|rewrite lookup_insert_ne by done; eauto].
    rewrite lookup_insert_eq. eexists. split; [done|]. simplify_eq.
    unfold d_name, d_modulePath in *. by rewrite Hbase.
  - intros b d' [[<- <-]|[_ Hb]]%lookup_insert_Some; apply refs_ok_insert; [|eauto].
    intros r [Hrr|Hrr]%declRefs_withMethods; [by eapply (Hr a d)|eauto].
  - intros s l Hl. apply refs_ok_insert. eauto.
Qed.

Lemma kinded_struct d :
  kinded d → d_kind d = DK.Struct → ∃ gp fs own pa, d_body d = StructDecl gp fs own pa.
Proof.
  unfold kinded, isPrimitive. intros H Hs. rewrite Hs in H.
  destruct (d_body d); simpl in H; try done; eauto.
Qed.

Lemma mergeExtendMethods_ok s ms db :
  db_ok db → refs_ok (db_heap db) (m ← ms; methodRefs m) →
  ∃ b db', mergeExtendMethods s ms db = ROk b db' ∧ db_ok db'.
Proof.
  intros Hok Hms. unfold mergeExtendMethods, getS, mbind, M_bind.
  destruct (db_types db !! s) as [a|] eqn:Ha.
  - destruct (ok_entry db Hok TTypes s a Ha) as (d & Hd & (_ & Hk & _)).
    unfold readDecl. rewrite Hd. case_bool_decide as Hs; [eexists _, _; by split|].
    destruct (kinded_struct d Hk Hs) as (gp & fs & own & pa & Hbody).
    unfold appendMethods, readDecl, mbind, M_bind. rewrite Hd, Hbody.
    eexists _, _. split; [reflexivity|].
    assert (mkDecl (d_base d) (StructDecl gp fs (own ++ ms) pa) = withMethods d ms) as ->
      by (unfold withMethods; by rewrite Hbody).
    apply db_ok_update_struct; eauto.
  - eexists _, _. split; [reflexivity|].
    eapply db_ok_ext; [exact Hok|done|by intros []|done|done|]. simpl.
    intros s' l [[<- <-]|[_ Hl]]%lookup_insert_Some; [|by eapply ok_pending].
    rewrite bind_app. apply refs_ok_app. split; [|done].
    destruct (db_pendingExtends db !! s) as [l|] eqn:Hl; simpl;
      [by eapply ok_pending|by intros a ?%elem_of_nil].
Qed.

(** ** Instantiation as a function *)

(** The instance: the pattern with its references substituted, under the mangled
    name, in the template's module. *)
Definition instanceOf (h : heap) (tmpl p : Decl) (tps : list string) (args : list (option addr))
    (mangled : string) (loc : SourceLocation) : Decl :=
  mkDecl ((d_base (clone p)) <| de_name := mangled |>
            <| de_modulePath := d_modulePath tmpl |> <| de_loc := loc |>)
         (mapRefs (substTo h (buildSubst tps args ∅)) (d_body (clone p))).

Lemma mangleGenericName_ret h base args :
  refs_ok h args → ∃ s, mangleGenericName h base args = Ret s.
Proof.
  intros H. unfold mangleGenericName.
  assert (∃ s, mangleArgs h args = Ret s) as [s Hs].
  { induction args as [|[a|] args IH]; simpl; [eauto|..];
      apply refs_ok_cons in H as [H1 H2]; destruct (IH H2) as [s ->]; simpl; [|eauto].
    destruct (H1 a) as [d ->]; [apply list_elem_of_here|]. simpl. eauto. }
  rewrite Hs. destruct args; simpl; eauto.
Qed.

Lemma clone_body d :
  d_body (clone d) =
  match d_body d with
  | GenericTemplateDecl tps (Some p) => GenericTemplateDecl tps (Some (clone p))
  | b => b
  end.
Proof. destruct d as [b [| | | | | | | | |tps []| | |]]; simpl; by autorewrite with clone_app. Qed.

Lemma clone_refs d : declRefs (clone d) = declRefs d.
Proof.
  induction d as [b body Hl|b tps p IH] using Decl_pattern_ind; [|exact IH].
  destruct body as [| | | | | | | | |tps [p|]| | |]; simpl; autorewrite with clone_app; try done.
  by destruct (Hl tps p).
Qed.

Lemma clone_kinded d : kinded d → kinded (clone d).
Proof. by destruct d as [b [| | | | | | | | |tps []| | |]]. Qed.

Lemma bodyRefs_declRefs d t : t ∈ bodyRefs (d_body d) → t ∈ declRefs d.
Proof. destruct d as [b []]; simpl; try done; by intros ?%elem_of_nil. Qed.

Lemma substTo_refs h subst t a :
  substTo h subst t = Some a → t = Some a ∨ ∃ n, subst !! n = Some (Some a).
Proof.
  unfold substTo. destruct (t ≫= λ a, h !! a) as [d|]; [|by left].
  destruct (subst !! d_name d) eqn:?; simpl; [|by left]. intros ->. eauto.
Qed.

Lemma buildSubst_values tps args m n a :
  buildSubst tps args m !! n = Some (Some a) → Some a ∈ args ∨ m !! n = Some (Some a).
Proof.
  revert args m. induction tps as [|p tps IH]; intros [|b args] m; simpl; auto.
  intros [H|H]%IH; [left; by apply list_elem_of_further|].
  apply lookup_insert_Some in H as [[_ ->]|[_ H]]; [left; apply list_elem_of_here|auto].
Qed.

(** References of a declaration after its references were mapped. *)
Lemma mapRefs_bodyRefs f body : bodyRefs (mapRefs f body) = f <$> bodyRefs body.
Proof.
  assert (Hm : ∀ ms : list MethodInfo, (m ← mapMethod f <$> ms; methodRefs m)
                 = f <$> (m ← ms; methodRefs m)).
  { induction ms as [|m ms IH]; [done|]. rewrite fmap_cons, !bind_cons, fmap_app, IH.
    f_equal. unfold methodRefs, mapMethod. simpl. by rewrite <-!list_fmap_compose. }
  destruct body; simpl; rewrite ?fmap_app, ?Hm, <-?list_fmap_compose; try done.
  induction variants as [|v vs IH]; [done|].
  rewrite fmap_cons, !bind_cons, fmap_app, IH. f_equal. simpl. by rewrite <-!list_fmap_compose.
Qed.

Lemma instanceOf_refs h tmpl p tps args mangled loc :
  refs_ok h (declRefs p) → refs_ok h args →
  refs_ok h (declRefs (instanceOf h tmpl p tps args mangled loc)).
Proof.
  intros Hp Hargs. rewrite <-(clone_refs p) in Hp. unfold instanceOf.
  assert (Hbody : refs_ok h (bodyRefs (mapRefs (substTo h (buildSubst tps args ∅)) (d_body (clone p))))).
  { intros a Ha. rewrite mapRefs_bodyRefs in Ha. apply list_elem_of_fmap in Ha as (t & Ht & Hin).
    symmetry in Ht. apply substTo_refs in Ht as [->|[n Hn]].
    - apply Hp. by apply bodyRefs_declRefs.
    - apply buildSubst_values in Hn as [Hn|Hn]; [by apply Hargs|done]. }
  destruct (clone p) as [b body]. simpl in *. destruct body; simpl in *; auto.
Qed.

(** The outcome of an instantiation in a database that keeps its invariant. *)
Lemma instantiateGeneric_eq base args loc db :
  db_ok db → refs_ok (db_heap db) args →
  match db_generics db !! base with
  | None => instantiateGeneric base args loc db = ROk None db
  | Some ta => ∃ tmpl tps p mangled,
      db_heap db !! ta = Some tmpl ∧ d_body tmpl = GenericTemplateDecl tps (Some p) ∧
      kinded p ∧ refs_ok (db_heap db) (declRefs p) ∧
      mangleGenericName (db_heap db) base args = Ret mangled ∧
      instantiateGeneric base args loc db =
        if negb (length args =? length tps)%nat then ROk None db else
        match db_types db !! mangled with
        | Some a => ROk (Some a) db
        | None => ROk (Some (nextAddr db))
            (added TTypes mangled (nextAddr db)
               (instanceOf (db_heap db) tmpl p tps args mangled loc) (d_modulePath tmpl) db)
        end
  end.
Proof.
  intros Hok Hargs. unfold instantiateGeneric, lookupGeneric, getS, mbind, M_bind.
  destruct (db_generics db !! base) as [ta|] eqn:Hta; [|done].
  destruct (ok_entry db Hok TGenerics base ta Hta) as (tmpl & Htmpl & (_ & _ & Hcl)).
  unfold of_class in Hcl. destruct (d_body tmpl) as [| | | | | | | | |tps [p|]| | |] eqn:Hb; try done.
  destruct (mangleGenericName_ret (db_heap db) base args Hargs) as [mangled Hm].
  assert (Hp : refs_ok (db_heap db) (declRefs p)).
  { pose proof (ok_refs db Hok ta tmpl Htmpl) as Hr. destruct tmpl as [b body].
    simpl in Hb. subst body. exact Hr. }
  exists tmpl, tps, p, mangled. split_and!; try done.
  unfold readDecl. rewrite Htmpl, Hb. destruct (negb _); [done|]. rewrite Hm. simpl.
  destruct (db_types db !! mangled) as [a|] eqn:Hty; [done|].
  rewrite (ok_instantiating db Hok), bool_decide_eq_false_2 by apply not_elem_of_empty.
  unfold substituteTypes. rewrite substituteBody_ok.
  2: { intros a Ha. rewrite <-(clone_refs p) in Hp. apply Hp. by apply bodyRefs_declRefs. }
  unfold modifyS, newDecl, liftO. cbn -[added instanceOf].
  rewrite indexInModule_eq. f_equal. unfold added, indexed, instanceOf, nextAddr.
  assert (Hset : ({[mangled]} ∪ db_instantiating db) ∖ {[mangled]} = db_instantiating db)
    by (rewrite (ok_instantiating db Hok); set_solver).
  case_bool_decide; unfold set_field; simpl; by rewrite Hset.
Qed.

Lemma instantiateGeneric_ok base args loc db :
  db_ok db → refs_ok (db_heap db) args →
  ∃ r db', instantiateGeneric base args loc db = ROk r db' ∧ db_ok db'.
Proof.
  intros Hok Hargs. pose proof (instantiateGeneric_eq base args loc db Hok Hargs) as H.
  destruct (db_generics db !! base) as [ta|]; [|eauto].
  destruct H as (tmpl & tps & p & mangled & Htmpl & Hb & Hkp & Hp & Hm & ->).
  destruct (negb _); [eauto|]. destruct (db_types db !! mangled) as [a|] eqn:Hty; [eauto|].
  eexists _, _. split; [done|]. apply db_ok_added; try done.
  - apply nextAddr_fresh.
  - split_and!; [done| |done]. unfold instanceOf. apply clone_kinded in Hkp.
    destruct (clone p) as [b body]. unfold kinded, isPrimitive, d_kind in *. simpl in *.
    by destruct body.
  - apply refs_ok_insert. by apply instanceOf_refs.
Qed.

Lemma forwardDeclare_ok name kind m loc db :
  db_ok db → ∃ b db', forwardDeclare name kind m loc db = ROk b db' ∧ db_ok db'.
Proof.
  intros Hok. unfold forwardDeclare, getS, mbind, M_bind.
  destruct (hasType db name); [eexists _, _; by split|].
  destruct (db_forwardDecls db !! name); [case_bool_decide; eexists _, _; by split|].
  eexists _, _. split; [reflexivity|].
  eapply db_ok_ext; [exact Hok|done|by intros []|done|done|].
  exact (ok_pending db Hok).
Qed.

(** Reachable databases: runs of operations that keep the client's obligations. *)
Inductive reachable : SemanticDB → Prop :=
| reach_empty : reachable emptyDB
| reach_step db o db' :
    reachable db → op_ok db o → run o db = ROk () db' → reachable db'.

Lemma run_ok o db : db_ok db → op_ok db o → ∃ db', run o db = ROk () db' ∧ db_ok db'.
Proof.
  intros Hok Ho. destruct o as [name kind m loc|d|t d|s ms|b args loc]; simpl in *;
    unfold mbind, M_bind.
  - destruct (forwardDeclare_ok name kind m loc db Hok) as (r & db' & -> & H).
    exists db'. by split.
  - destruct Ho as [Hk Hr]. destruct (registerType_ok d db Hok Hk Hr) as (r & db' & -> & H).
    exists db'. by split.
  - destruct Ho as (Hk & Hc & Hr). destruct (decide (t = TTypes)) as [->|Ht].
    + destruct (registerType_ok d db Hok Hk Hr) as (r & db' & -> & H). exists db'. by split.
    + destruct (registerOther_ok t d db Ht Hok Hk Hc Hr) as (r & db' & -> & H).
      exists db'. by split.
  - destruct (mergeExtendMethods_ok s ms db Hok Ho) as (r & db' & -> & H). exists db'. by split.
  - destruct (instantiateGeneric_ok b args loc db Hok Ho) as (r & db' & -> & H).
    exists db'. by split.
Qed.

Lemma reachable_ok db : reachable db → db_ok db.
Proof.
  induction 1 as [|db o db' _ IH Ho Hrun]; [apply db_ok_empty|].
  destruct (run_ok o db IH Ho) as (db'' & Hrun' & H). rewrite Hrun in Hrun'. by simplify_eq.
Qed.

(** ** Properties *)

(** C2: the database is memory safe.  In every database reachable from the empty
    one by operations whose declarations refer to live objects, each table entry
    points to a live object of the table's class filed under its own key, no object
    has two owners, no object is leaked, module-index entries and references inside
    declarations and pending methods never dangle, and no operation is undefined:
    each one returns and keeps all of this. *)
Theorem reachable_memory_safe db :
  reachable db →
  db_ok db ∧ ∀ o, op_ok db o → ∃ db', run o db = ROk () db' ∧ reachable db' ∧ db_ok db'.
Proof.
  intros H. assert (Hok := reachable_ok db H). split; [done|].
  intros o Ho. destruct (run_ok o db Hok Ho) as (db' & Hrun & Hok').
  exists db'. split_and!; [done| |done]. by eapply reach_step.
Qed.

(** A database with [int32] as a builtin. *)
Definition int32DB : SemanticDB := added TBuiltins "int32" 1 prim32 "" emptyDB.

Lemma int32DB_reachable : reachable int32DB.
Proof.
  apply (reach_step emptyDB (ORegister TBuiltins prim32)); [constructor| |vm_compute; reflexivity].
  split_and!; [reflexivity|exact I|]. by intros a ?%elem_of_nil.
Qed.

Lemma reachable_memory_safe_witness :
  db_ok int32DB ∧
  ∀ o, op_ok int32DB o → ∃ db', run o int32DB = ROk () db' ∧ reachable db' ∧ db_ok db'.
Proof. apply (reachable_memory_safe int32DB int32DB_reachable). Defined.

(** C13: registration of a type.  A name that is already a type is rejected and the
    database is exactly as before; otherwise the new object, with the extend methods
    that were waiting for it appended, becomes the type of that name and what
    [lookupAny] and [findInModule] return for it, the forward declaration is
    consumed, and every other table entry stays. *)
Theorem registerType_spec d db :
  kinded d →
  (hasType db (d_name d) = true → registerNew TTypes d db = ROk false db) ∧
  (hasType db (d_name d) = false → ∃ db',
     registerNew TTypes d db = ROk true db' ∧
     lookupAny db' (d_name d) = Some (nextAddr db) ∧
     (d_modulePath d ≠ "" →
        findInModule db' (d_modulePath d) (d_name d) = Some (nextAddr db)) ∧
     db_heap db' !! nextAddr db = Some (withMethods d (pendingFor db d)) ∧
     hasForwardDecl db' (d_name d) = false ∧ db_forwardDecls db' !! d_name d = None ∧
     (d_kind d = DK.Struct → db_pendingExtends db' !! d_name d = None) ∧
     (∀ t k, (t, k) ≠ (TTypes, d_name d) → table t db' !! k = table t db !! k) ∧
     (∀ a, a ≠ nextAddr db → db_heap db' !! a = db_heap db !! a)).
Proof.
  intros Hk. rewrite registerType_new by done.
  split; intros Hh; rewrite Hh; [done|]. eexists. split; [done|].
  unfold addedType. set (db1 := set_field (proj := db_forwardDecls) _ _).
  assert (Htab : ∀ t, table t db1 = table t db)
    by (intros t; subst db1; case_bool_decide; by destruct t).
  assert (Hheap : db_heap db1 = db_heap db) by (subst db1; by case_bool_decide).
  assert (Hfw : db_forwardDecls db1 !! d_name d = None)
    by (subst db1; case_bool_decide; apply lookup_delete_eq).
  assert (Hpe : d_kind d = DK.Struct → db_pendingExtends db1 !! d_name d = None).
  { intros Hs. subst db1. rewrite (bool_decide_eq_true_2 _ Hs). apply lookup_delete_eq. }
  assert (Hty : ∀ k a d' m, db_types (added TTypes k a d' m db1) !! k = Some a).
  { intros k a d' m. change db_types with (table TTypes). rewrite table_added.
    rewrite bool_decide_eq_true_2 by done. apply lookup_insert_eq. }
  split_and!.
  - unfold lookupAny. by rewrite Hty.
  - intros Hm. rewrite findInModule_added, withMethods_name. by rewrite bool_decide_eq_true_2.
  - rewrite heap_added. apply lookup_insert_eq.
  - unfold hasForwardDecl, hasType. rewrite Hty, (bool_decide_eq_true_2 (is_Some (Some _)));
      [apply andb_false_r|eauto].
  - unfold added, indexed. by case_bool_decide.
  - unfold added. autorewrite with semdb. done.
  - intros t k Hne. rewrite table_added, !Htab. case_bool_decide; [|done]. subst t.
    apply lookup_insert_ne. congruence.
  - intros a Ha. rewrite heap_added, Hheap. by apply lookup_insert_ne.
Qed.

Lemma registerType_spec_witness :
  let d := mkDecl ((freshBase DK.Struct) <| de_name := "Point" |>) (StructDecl [] [] [] "") in
  registerNew TTypes d int32DB = ROk true (addedType d int32DB) ∧
  (hasType int32DB "Point" = true → registerNew TTypes d int32DB = ROk false int32DB).
Proof.
  intros d. split; [vm_compute; reflexivity|].
  apply (proj1 (registerType_spec d int32DB eq_refl)).
Defined.

Lemma added_rewrite t k a d d' m db :
  d_name d' = d_name d →
  (added t k a d m db) <| db_heap := <[a := d']> (db_heap (added t k a d m db)) |>
  = added t k a d' m db.
Proof.
  intros Hn. rewrite heap_added, insert_insert_eq. unfold added, indexed. rewrite Hn.
  by case_bool_decide; destruct t.
Qed.

Lemma withMethods_app d ms1 ms2 :
  withMethods (withMethods d ms1) ms2 = withMethods d (ms1 ++ ms2).
Proof. destruct d as [b []]; try done. unfold withMethods. simpl. by rewrite app_assoc. Qed.

(** Merging into a struct that is registered. *)
Lemma mergeExtendMethods_registered s ms a d db :
  db_types db !! s = Some a → db_heap db !! a = Some d → d_kind d = DK.Struct →
  (∃ gp fs own pa, d_body d = StructDecl gp fs own pa) →
  mergeExtendMethods s ms db
  = ROk true (db <| db_heap := <[a := withMethods d ms]> (db_heap db) |>).
Proof.
  intros Ha Hd Hs (gp & fs & own & pa & Hb).
  unfold mergeExtendMethods, getS, readDecl, mbind, M_bind. rewrite Ha, Hd.
  rewrite (bool_decide_eq_false_2 (d_kind d ≠ DK.Struct)) by auto.
  unfold appendMethods, readDecl, mbind, M_bind. rewrite Hd, Hb.
  unfold withMethods. by rewrite Hb.
Qed.

(** C14: extend blocks may come before or after their struct.  Merging methods into
    a struct name that is not registered yet and registering the struct afterwards
    gives the same database as registering the struct first: the methods end up
    after the struct's own and those queued earlier. *)
Theorem extend_before_or_after d ms db :
  kinded d → d_kind d = DK.Struct → hasType db (d_name d) = false →
  (mergeExtendMethods (d_name d) ms;; registerNew TTypes d) db
  = (r ← registerNew TTypes d; mergeExtendMethods (d_name d) ms;; mret r) db.
Proof.
  intros Hk Hs Hh. destruct (kinded_struct d Hk Hs) as (gp & fs & own & pa & Hb).
  assert (Hnone : db_types db !! d_name d = None) by (by apply lookup_None_not_is_Some).
  set (db1 := db <| db_pendingExtends :=
    <[d_name d := default [] (db_pendingExtends db !! d_name d) ++ ms]> (db_pendingExtends db) |>).
  assert (Hmerge : mergeExtendMethods (d_name d) ms db = ROk true db1).
  { unfold mergeExtendMethods, getS, mbind, M_bind. by rewrite Hnone. }
  rewrite (M_bind_ok _ _ _ _ _ Hmerge), (registerType_new d db1 Hk).
  change (hasType db1 (d_name d)) with (hasType db (d_name d)). rewrite Hh.
  rewrite (M_bind_ok _ _ db true (addedType d db))
    by (rewrite (registerType_new d db Hk); by rewrite Hh).
  assert (Hp : pendingFor db1 d = pendingFor db d ++ ms).
  { unfold pendingFor. rewrite (bool_decide_eq_true_2 _ Hs). simpl. by rewrite lookup_insert_eq. }
  unfold mbind, M_bind.
  rewrite (mergeExtendMethods_registered (d_name d) ms (nextAddr db)
             (withMethods d (pendingFor db d))); cycle 1.
  - unfold addedType. change db_types with (table TTypes). rewrite table_added.
    rewrite bool_decide_eq_true_2 by done. apply lookup_insert_eq.
  - unfold addedType. rewrite heap_added. apply lookup_insert_eq.
  - unfold withMethods, d_kind. by rewrite Hb.
  - unfold withMethods. rewrite Hb. by repeat eexists.
  - unfold mret, M_ret. f_equal. unfold addedType at 2 3. rewrite added_rewrite
      by (by rewrite !withMethods_name).
    unfold addedType. rewrite withMethods_app, Hp, (bool_decide_eq_true_2 _ Hs).
    unfold db1. simpl. by rewrite delete_insert_eq.
Qed.

Definition pointDecl : Decl :=
  mkDecl ((freshBase DK.Struct) <| de_name := "Point" |>) (StructDecl [] [] [] "").

Lemma extend_before_or_after_witness :
  let ms := [Build_MethodInfo "norm" (Some 1%positive) [] false] in
  (mergeExtendMethods "Point" ms;; registerNew TTypes pointDecl) int32DB
  = (r ← registerNew TTypes pointDecl; mergeExtendMethods "Point" ms;; mret r) int32DB.
Proof.
  intros ms. apply (extend_before_or_after pointDecl ms int32DB); reflexivity.
Defined.

Lemma mangleGenericName_mono (h h' : heap) base args :
  refs_ok h args → (∀ a d, h !! a = Some d → h' !! a = Some d) →
  mangleGenericName h' base args = mangleGenericName h base args.
Proof.
  intros Hargs Hh. unfold mangleGenericName.
  assert (mangleArgs h' args = mangleArgs h args) as ->; [|done].
  induction args as [|[a|] args IH]; simpl; [done|..];
    apply refs_ok_cons in Hargs as [H1 H2]; rewrite IH by done; [|done].
  destruct (H1 a) as [d Hd]; [apply list_elem_of_here|]. by rewrite Hd, (Hh a d Hd).
Qed.

(** C12: instantiation of a generic.  In a reachable database, instantiating a
    known template with the right number of live arguments returns the type of the
    mangled name.  If that type was absent it is the pattern's clone with the
    parameters' references replaced by the arguments, under the mangled name, in
    the template's module and at the location of use; if it was there, nothing
    changes.  Instantiating again returns the same object and changes nothing. *)
Theorem instantiateGeneric_spec base args loc loc' db ta tmpl tps p :
  reachable db → refs_ok (db_heap db) args →
  lookupGeneric db base = Some ta → db_heap db !! ta = Some tmpl →
  d_body tmpl = GenericTemplateDecl tps (Some p) → length args = length tps →
  ∃ mangled a db',
    mangleGenericName (db_heap db) base args = Ret mangled ∧
    instantiateGeneric base args loc db = ROk (Some a) db' ∧
    db_types db' !! mangled = Some a ∧
    (hasType db mangled = true → db' = db) ∧
    (hasType db mangled = false →
       db_heap db' !! a = Some (instanceOf (db_heap db) tmpl p tps args mangled loc)) ∧
    instantiateGeneric base args loc' db' = ROk (Some a) db'.
Proof.
  intros Hreach Hargs Hta Htmpl Hb Hlen. pose proof (reachable_ok db Hreach) as Hok.
  pose proof (λ loc db Hok Hargs, instantiateGeneric_eq base args loc db Hok Hargs) as Heq.
  pose proof (Heq loc db Hok Hargs) as H. unfold lookupGeneric in Hta. rewrite Hta in H.
  destruct H as (tmpl' & tps' & p' & mangled & Htmpl' & Hb' & Hkp & Hp & Hm & Hinst).
  assert (tmpl' = tmpl) as -> by congruence.
  assert (tps' = tps ∧ p' = p) as [-> ->] by (split; congruence).
  rewrite Hlen, Nat.eqb_refl in Hinst. cbn [negb] in Hinst.
  destruct (db_types db !! mangled) as [a|] eqn:Hty.
  - exists mangled, a, db. split_and!; try done.
    + unfold hasType. rewrite Hty. by rewrite bool_decide_eq_true_2.
    + pose proof (Heq loc' db Hok Hargs) as H. rewrite Hta in H.
      destruct H as (tm & ts & p2 & m' & Ht' & Hb2 & _ & _ & Hm' & ->).
      assert (tm = tmpl) as -> by congruence. assert (ts = tps) as -> by congruence.
      assert (m' = mangled) as -> by congruence. by rewrite Hlen, Nat.eqb_refl, Hty.
  - destruct (instantiateGeneric_ok base args loc db Hok Hargs) as (r & db' & Hrun & Hok').
    rewrite Hinst in Hrun. assert (r = Some (nextAddr db)) as -> by congruence.
    assert (Hdb' : added TTypes mangled (nextAddr db)
      (instanceOf (db_heap db) tmpl p tps args mangled loc) (d_modulePath tmpl) db = db')
      by congruence. clear Hrun.
    assert (Hheap : ∀ a d, db_heap db !! a = Some d → db_heap db' !! a = Some d).
    { intros a d Ha. rewrite <-Hdb'. rewrite heap_added. rewrite lookup_insert_ne; [done|].
      intros <-. by rewrite nextAddr_fresh in Ha. }
    assert (Hty' : db_types db' !! mangled = Some (nextAddr db)).
    { rewrite <-Hdb'. change db_types with (table TTypes). rewrite table_added.
      rewrite bool_decide_eq_true_2 by done. apply lookup_insert_eq. }
    exists mangled, (nextAddr db), db'. split_and!; try done; try congruence.
    + unfold hasType. rewrite Hty. by rewrite bool_decide_eq_false_2 by apply is_Some_None.
    + intros _. rewrite <-Hdb'. rewrite heap_added. apply lookup_insert_eq.
    + assert (Hargs' : refs_ok (db_heap db') args) by (intros a Ha; destruct (Hargs a Ha); eauto).
      pose proof (Heq loc' db' Hok' Hargs') as H.
      assert (db_generics db' !! base = Some ta) as Hta'.
      { rewrite <-Hdb'. change db_generics with (table TGenerics). by rewrite table_added. }
      rewrite Hta' in H.
      destruct H as (tm & ts & p2 & m' & Ht' & Hb2 & _ & _ & Hm' & ->).
      rewrite (Hheap _ _ Htmpl) in Ht'. rewrite (mangleGenericName_mono (db_heap db)) in Hm' by done.
      assert (tm = tmpl) as -> by congruence. assert (ts = tps) as -> by congruence.
      assert (m' = mangled) as -> by congruence. by rewrite Hlen, Nat.eqb_refl, Hty'.
Qed.

Definition namedPrim (n : string) : Decl :=
  mkDecl ((freshBase DK.Integer) <| de_name := n |>) (PrimitiveDecl 32 true "i32").
Definition namedStruct (n : string) : Decl :=
  mkDecl ((freshBase DK.Struct) <| de_name := n |>) (StructDecl [] [] [] "").
Definition pointerTo (n : string) (a : addr) : Decl :=
  mkDecl ((freshBase DK.Pointer) <| de_name := n |>) (PointerDecl (Some a)).
Definition oneField (n f : string) (a : addr) : Decl :=
  mkDecl ((freshBase DK.Struct) <| de_name := n |>)
    (StructDecl [] [Build_FieldInfo f (Some a) 0 [] false] [] "").
Definition templateOf (tps : list string) (p : Decl) : Decl :=
  mkDecl ((freshBase DK.GenericTemplate) <| de_name := d_name p |> <| de_modulePath := "lib" |>)
    (GenericTemplateDecl tps (Some p)).

Definition runAll (os : list op) (db : SemanticDB) : SemanticDB :=
  fold_left (λ db o, match run o db with ROk _ db' => db' | _ => db end) os db.

(** Where a type is. *)
Definition typeAt (db : SemanticDB) (n : string) : addr :=
  default 1%positive (lookupAny db n).

(** [int32], the placeholder [T], and the template [struct Box<T> { T item; }]. *)
Definition boxDB : SemanticDB :=
  let db := runAll [ORegister TBuiltins (namedPrim "int32"); OType (namedStruct "T")] emptyDB in
  runAll [ORegister TGenerics (templateOf ["T"] (oneField "Box" "item" (typeAt db "T")))] db.

Lemma reachable_runAll os db :
  reachable db →
  (∀ i o, os !! i = Some o → op_ok (runAll (take i os) db) o) → reachable (runAll os db).
Proof.
  revert db. induction os as [|o os IH]; intros db Hr Hok; simpl; [done|].
  assert (Ho : op_ok db o) by exact (Hok 0%nat o eq_refl).
  destruct (run_ok o db (reachable_ok db Hr) Ho) as (db' & Hrun & _).
  unfold runAll in *. rewrite Hrun. apply IH; [by eapply reach_step|].
  intros i o' Hi. specialize (Hok (S i) o' Hi). simpl in Hok. by rewrite Hrun in Hok.
Qed.

Lemma refs_ok_decide (h : heap) refs :
  forallb (λ t, match t with Some a => bool_decide (is_Some (h !! a)) | None => true end) refs = true →
  refs_ok h refs.
Proof.
  intros H a Ha. rewrite forallb_forall in H. apply list_elem_of_In, H in Ha.
  by apply bool_decide_eq_true_1 in Ha.
Qed.

Lemma boxDB_reachable : reachable boxDB.
Proof.
  unfold boxDB. apply reachable_runAll; [apply reachable_runAll; [constructor|]|].
  - intros [|[|i]] o Hi; simpl in Hi; simplify_eq;
      (split_and!; [reflexivity|..]; try exact I; by apply refs_ok_decide).
  - intros [|i] o Hi; simpl in Hi; simplify_eq.
    split_and!; [reflexivity|reflexivity|]. apply refs_ok_decide. vm_compute. reflexivity.
Qed.

Lemma instantiateGeneric_spec_witness :
  ∃ mangled a db',
    mangleGenericName (db_heap boxDB) "Box" [Some 1%positive] = Ret mangled ∧
    instantiateGeneric "Box" [Some 1%positive] (Build_SourceLocation "a.lc" 3 7) boxDB
      = ROk (Some a) db' ∧
    db_types db' !! mangled = Some a ∧
    (hasType boxDB mangled = true → db' = boxDB) ∧
    (hasType boxDB mangled = false →
       db_heap db' !! a = Some (instanceOf (db_heap boxDB)
         (templateOf ["T"] (oneField "Box" "item" (typeAt boxDB "T")))
         (oneField "Box" "item" (typeAt boxDB "T")) ["T"] [Some 1%positive] mangled
         (Build_SourceLocation "a.lc" 3 7))) ∧
    instantiateGeneric "Box" [Some 1%positive] (Build_SourceLocation "b.lc" 9 1) db'
      = ROk (Some a) db'.
Proof.
  apply (instantiateGeneric_spec "Box" [Some 1%positive] (Build_SourceLocation "a.lc" 3 7)
    (Build_SourceLocation "b.lc" 9 1) boxDB (typeAt boxDB "Box")
    (templateOf ["T"] (oneField "Box" "item" (typeAt boxDB "T")))
    ["T"] (oneField "Box" "item" (typeAt boxDB "T"))).
  - exact boxDB_reachable.
  - apply refs_ok_decide. vm_compute. reflexivity.
  - vm_compute. reflexivity.
  - vm_compute. reflexivity.
  - reflexivity.
  - reflexivity.
Defined.

Definition noLoc : SourceLocation := Build_SourceLocation "" 0 0.

(** The box database with the pointer [*int32] and a user struct [Pint32]. *)
Definition collisionDB : SemanticDB :=
  runAll [OType (pointerTo "*int32" (typeAt boxDB "int32")); OType (namedStruct "Pint32")] boxDB.

(** mangled names of instances can collide.  Instantiating [Box] with the
    pointer type [*int32] and then with a struct called [Pint32] succeeds both
    times and returns the same object: the second instance silently is the first,
    whose field has the pointer type. *)
Lemma mangleGenericName_collides :
  let ptr := typeAt collisionDB "*int32" in
  let str := typeAt collisionDB "Pint32" in
  ptr ≠ str ∧
  ∃ db' a d,
    instantiateGeneric "Box" [Some ptr] noLoc collisionDB = ROk (Some a) db' ∧
    instantiateGeneric "Box" [Some str] noLoc db' = ROk (Some a) db' ∧
    db_heap db' !! a = Some d ∧ bodyRefs (d_body d) = [Some ptr].
Proof.
  split; [vm_compute; discriminate|].
  eexists _, _, _. split; [vm_compute; reflexivity|]. split; [vm_compute; reflexivity|].
  split; [vm_compute; reflexivity|]. vm_compute. reflexivity.
Qed.

(** The template [struct Node<T> { *T next; }]. *)
Definition shallowDB : SemanticDB :=
  let db := runAll [OType (pointerTo "*T" (typeAt boxDB "T"))] boxDB in
  runAll [ORegister TGenerics (templateOf ["T"] (oneField "Node" "next" (typeAt db "*T")))] db.

(** Substitution does not look inside the types a field refers to.
    Instantiating [struct Node<T> { *T next; }] with [int32] gives an instance whose
    field still refers to [*T]. *)
Theorem instantiateGeneric_is_shallow :
  ∃ a db' d,
    instantiateGeneric "Node" [Some (typeAt shallowDB "int32")] noLoc shallowDB = ROk (Some a) db' ∧
    db_heap db' !! a = Some d ∧
    d_name d = "Node__int32" ∧ bodyRefs (d_body d) = [Some (typeAt shallowDB "*T")].
Proof.
  eexists _, _, _. split; [vm_compute; reflexivity|]. split; [vm_compute; reflexivity|].
  by vm_compute.
Qed.
