(* ===== verification/CFloat.v ===== *)
(** * [double]

    IEEE 754 binary64 arithmetic through the Standard Library's executable
    specification ([SpecFloat], 53 bits of precision, round to nearest even), and
    [std::stod] on decimal text. *)

From Stdlib Require Import SpecFloat.
From S2P Require Import Prelude CxxLib.
Local Open Scope Z_scope.

Definition double : Type := spec_float.

Definition prec : Z := 53.
Definition emax : Z := 1024.

Definition dadd (a b : double) : double := SFadd prec emax a b.
Definition dsub (a b : double) : double := SFsub prec emax a b.
Definition dmul (a b : double) : double := SFmul prec emax a b.
Definition ddiv (a b : double) : double := SFdiv prec emax a b.
Definition dneg (a : double) : double := SFopp a.
Definition deq (a b : double) : bool := SFeqb a b.
Definition dlt (a b : double) : bool := SFltb a b.
Definition dle (a b : double) : bool := SFleb a b.
Definition dzero : double := S754_zero false.

(** The double nearest to [num / den], both positive. *)
Definition of_ratio (num den : positive) : double :=
  let '(m, e, l) := SFdiv_core_binary prec emax (Z.pos num) 0 (Z.pos den) 0 in
  binary_round_aux prec emax false m e l.

(** Is the double exactly [num / den]? *)
Definition exactly (d : double) (num den : positive) : bool :=
  match d with
  | S754_finite _ m e =>
      if 0 <=? e then (Z.pos m * 2 ^ e * Z.pos den =? Z.pos num)
      else (Z.pos m * Z.pos den =? Z.pos num * 2 ^ (- e))
  | _ => false
  end.

(** Below the smallest normal number. *)
Definition subnormal (d : double) : bool :=
  match d with
  | S754_finite _ m e => (Z.pos m <? 2 ^ 52) && (e =? -1074)
  | S754_zero _ => true
  | _ => false
  end.

(** The exponent part, if there is a complete one. *)
Definition read_exponent (s : string) : Z :=
  match s with
  | String c s' =>
      if bool_decide (c = "e"%char) || bool_decide (c = "E"%char) then
        let '(neg, s'') :=
          match s' with
          | String "-" r => (true, r)
          | String "+" r => (false, r)
          | _ => (false, s')
          end in
        let '(v, n, _) := read_digits 10 0 0 s'' in
        if (n =? 0)%nat then 0 else if neg then - v else v
      else 0
  | "" => 0
  end.

(** [std::stod] on text that starts with decimal digits: reads digits, an optional
    fraction and an optional exponent; throws when there is nothing to read and when
    the value overflows or underflows. *)
Definition stod (s : string) : outcome double :=
  let '(ip, n, rest) := read_digits 10 0 0 (drop_while is_space s) in
  let '(mant, k, rest) :=
    match rest with
    | String "." r =>
        let '(v, m, r') := read_digits 10 ip 0 r in
        if ((n =? 0) && (m =? 0))%nat then (ip, 0%nat, rest) else (v, m, r')
    | _ => (ip, 0%nat, rest)
    end in
  if ((n =? 0) && (k =? 0))%nat then Throw InvalidArgument else
  match mant with
  | Z.pos m =>
      let ex := read_exponent rest - Z.of_nat k in
      let num := if 0 <=? ex then (m * Z.to_pos (10 ^ ex))%positive else m in
      let den := if 0 <=? ex then 1%positive else Z.to_pos (10 ^ (- ex)) in
      let d := of_ratio num den in
      match d with
      | S754_infinity _ => Throw OutOfRange
      | _ => if subnormal d && negb (exactly d num den) then Throw OutOfRange else Ret d
      end
  | _ => Ret dzero
  end.

Example stod_half : stod "0.5" = Ret (S754_finite false 4503599627370496 (-53)).
Proof. vm_compute. reflexivity. Qed.
Example stod_tenth : stod "0.1" = Ret (S754_finite false 7205759403792794 (-56)).
Proof. vm_compute. reflexivity. Qed.
Example stod_underflow : stod "1e-400" = Throw OutOfRange.
Proof. vm_compute. reflexivity. Qed.
