(* ===== verification/Syntax.v ===== *)
(** * Parse trees

    The contexts of [grammar/LucisParser.g4] that the modelled passes look at, with
    what those passes read of them: tokens as text, sub-contexts as sub-trees, an
    absent optional sub-context as [None].  Contexts no modelled pass looks into are
    [EOther] and [SOther]: of an expression the sub-expressions and the blocks that run
    in the enclosing function (of [e catch {}] and [e ? {}], not the bodies of lambdas),
    of a statement the expressions and the labels an [asm goto] can jump to.  Source
    positions are left out. *)

From S2P Require Import Prelude CxxLib.

(** Literal tokens. *)
Inductive lit_kind :=
| IntLit | HexLit | OctLit | BinLit
| SuffixedIntLit | SuffixedHexLit | SuffixedOctLit | SuffixedBinLit
| SuffixedIntFloatLit | SuffixedFloatLit | SuffixedFloatIntLit | SuffixedLeadingDotFloatLit
| FloatLit | LeadingDotFloatLit
| BoolLit | CharLit | StrLit | CStrLit | NullLit
| BtickLit | RawBtickLit | IntBtickLit | ShellBtickLit | CmptBtickLit.

(** The contexts with one expression and a token before it, or after it for [UPostIncr]
    and [UPostDecr]. *)
Inductive un_kind :=
| UNeg | ULogicalNot | UBitNot | UDeref | UAddrOf | UTry | USpawn | UAwait | USpread
| UPreIncr | UPreDecr | UPostIncr | UPostDecr.

Inductive bin_kind :=
| BMul | BAddSub | BLshift | BRshift | BRel | BEq | BBitAnd | BBitXor | BBitOr
| BLogicalAnd | BLogicalOr | BNullCoal | BRange | BRangeIncl.

(** The four initialiser forms of structs and unions. *)
Inductive init_kind := StructPosInit | StructLit | QualifiedStructPosInit | QualifiedStructNamedInit.

(** A match pattern: the identifiers directly in it, or a wildcard or literal. *)
Inductive pattern :=
| PatIds (ids : list string)
| PatWildcard
| PatLiteral (k : lit_kind) (text : string).

Inductive expr :=
| ELit (k : lit_kind) (text : string)
| EIdent (name : string)
| EParen (e : expr)
| EUnary (k : un_kind) (e : expr)
| EBin (k : bin_kind) (op : string) (l r : expr)
| ETernary (c t f : expr)
| ECall (callee : expr) (args : option (list expr))
| EStaticCall (ids : list string) (args : option (list expr))
| EMethodCall (obj : expr) (name : string) (args : option (list expr))
| ECast (e : expr) (typeSpec : string)
| EIndex (base index : expr)
| ESizeof (typeSpec : string)
| ETypeof (e : expr)
| EEnumAccess (enum variant : string)
| EGenericEnumAccess (enum : string) (typeSpecs : list string) (variant : string)
| ECfg (name : string) (e : expr)
| EInit (k : init_kind) (es : list expr) (text : string)
| EMatch (e : expr) (arms : list match_arm) (text : string)
| EField (arrow : bool) (base : expr) (name : string)
| ETupleIndex (arrow : bool) (base : expr) (index : string)
| EChainedTupleIndex (arrow : bool) (base : expr) (indices : string)
| ETuple (es : list expr)
| EArray (es : list expr)
| ETryOr (e fallback : expr)
| EIs (e : expr) (typeSpec : string) (variant : option (string * option string))
| EAlignof (typeSpec : string)
| EOffsetof (typeSpec field : string)
| EAtType (name typeSpec : string)
| EAtPtr (name typeSpec : string) (address : expr)
| EOther (children : list expr) (blocks : list (list stmt)) (text : string)
with match_arm :=
| Arm (pats : list pattern) (guard : option expr) (body : arm_body)
with arm_body :=
| BodyExpr (e : expr)
| BodyBlock (b : list stmt)
| BodyNone
with stmt :=
| SReturn (e : option expr)
| SVarDecl (decls : list (string * option expr))
| SVarDestructure (names : list string) (e : expr)
| SAssign (name : string) (indices : list expr) (rhs : expr)
| SCompoundAssign (name op : string) (rhs : expr)
| SCall (name : string) (args : option (list expr))
| SExpr (e : expr)
| SIf (cond : expr) (body : if_body) (elifs : list else_if) (els : option if_body)
| SForIn (var : string) (iter : expr) (body : list stmt)
| SForClassic (var : string) (init cond step : expr) (body : list stmt)
| SLoop (body : list stmt)
| SWhile (cond : expr) (body : list stmt)
| SDoWhile (body : list stmt) (cond : expr)
| SBreak
| SContinue
| SSwitch (e : expr) (cases : list switch_case) (dflt : option (list stmt))
| SLock (e : expr) (body : list stmt)
| STryCatch (body : list stmt) (catches : list catch_clause) (finally : option (list stmt))
| SThrow (e : expr)
| SBail (e : expr)
| SDefer (s : stmt)
| SNakedBlock (body : list stmt)
| SInlineBlock (body : list stmt)
| SScopeBlock (callbacks : list expr) (body : list stmt)
| SLabel (name : string) (s : stmt)
| SOther (children : list expr) (jumps : list string) (text : string)
with if_body :=
| IfBlock (b : list stmt)
| IfStmt (s : stmt)
with else_if :=
| ElseIf (cond : expr) (body : if_body)
with switch_case :=
| Case (labels : list expr) (body : list stmt)
with catch_clause :=
| Catch (typeSpec name : string) (body : list stmt).

Notation block := (list stmt).

(** ** [getText]: the concatenated tokens of a tree *)

Definition un_text (k : un_kind) : string :=
  match k with
  | UNeg => "-" | ULogicalNot => "!" | UBitNot => "~" | UDeref => "*" | UAddrOf => "&"
  | UTry => "try" | USpawn => "spawn" | UAwait => "await" | USpread => "..."
  | UPreIncr | UPostIncr => "++" | UPreDecr | UPostDecr => "--"
  end.

Definition list_text {A} (f : A → string) (l : list A) : string := str_join "," (f <$> l).

Definition args_text (f : expr → string) (args : option (list expr)) : string :=
  match args with None => "()" | Some l => "(" +:+ list_text f l +:+ ")" end.

Definition is_postfix (k : un_kind) : bool :=
  match k with UPostIncr | UPostDecr => true | _ => false end.

Definition dot_text (arrow : bool) : string := if arrow then "->" else ".".

Fixpoint getText (e : expr) : string :=
  match e with
  | ELit LeadingDotFloatLit t => "." +:+ t
  | ELit _ t => t
  | EIdent n => n
  | EParen e => "(" +:+ getText e +:+ ")"
  | EUnary k e => if is_postfix k then getText e +:+ un_text k else un_text k +:+ getText e
  | EBin _ op l r => getText l +:+ op +:+ getText r
  | ETernary c t f => getText c +:+ "?" +:+ getText t +:+ ":" +:+ getText f
  | ECall f args => getText f +:+ args_text getText args
  | EStaticCall ids args => str_join "::" ids +:+ args_text getText args
  | EMethodCall o n args => getText o +:+ "." +:+ n +:+ args_text getText args
  | ECast e ty => getText e +:+ "as" +:+ ty
  | EIndex b i => getText b +:+ "[" +:+ getText i +:+ "]"
  | ESizeof ty => "sizeof(" +:+ ty +:+ ")"
  | ETypeof e => "typeof(" +:+ getText e +:+ ")"
  | EEnumAccess a b => a +:+ "::" +:+ b
  | EGenericEnumAccess a tys b => a +:+ "<" +:+ str_join "," tys +:+ ">::" +:+ b
  | ECfg n e => "@" +:+ n +:+ "(" +:+ getText e +:+ ")"
  | EField arrow b n => getText b +:+ dot_text arrow +:+ n
  | ETupleIndex arrow b i | EChainedTupleIndex arrow b i => getText b +:+ dot_text arrow +:+ i
  | ETuple es => "(" +:+ list_text getText es +:+ ")"
  | EArray es => "[" +:+ list_text getText es +:+ "]"
  | ETryOr e f => "try" +:+ getText e +:+ "or" +:+ getText f
  | EIs e ty v => getText e +:+ "is" +:+ ty +:+
      match v with
      | None => ""
      | Some (x, None) => "::" +:+ x
      | Some (x, Some y) => "::" +:+ x +:+ "(" +:+ y +:+ ")"
      end
  | EAlignof ty => "alignof(" +:+ ty +:+ ")"
  | EOffsetof ty f => "offsetof(" +:+ ty +:+ "," +:+ f +:+ ")"
  | EAtType n ty => "@" +:+ n +:+ "(" +:+ ty +:+ ")"
  | EAtPtr n ty e => "@" +:+ n +:+ "(" +:+ ty +:+ "," +:+ getText e +:+ ")"
  | EInit _ _ t | EMatch _ _ t | EOther _ _ t => t
  end.

(** The expressions directly below a binary context. *)
Definition is_ident (e : expr) : option string :=
  match e with EIdent n => Some n | _ => None end.

Definition opt_list {A} (o : option A) : list A := match o with Some a => [a] | None => [] end.

Definition children (e : expr) : list expr :=
  match e with
  | ELit _ _ | EIdent _ | ESizeof _ | EEnumAccess _ _ | EGenericEnumAccess _ _ _
  | EAlignof _ | EOffsetof _ _ | EAtType _ _ => []
  | EParen e | EUnary _ e | ECast e _ | ETypeof e | ECfg _ e | EField _ e _ | ETupleIndex _ e _
  | EChainedTupleIndex _ e _ | EIs e _ _ | EAtPtr _ _ e => [e]
  | EBin _ _ l r | ETryOr l r => [l; r]
  | EIndex b i => [b; i]
  | ETernary c t f => [c; t; f]
  | ECall f args | EMethodCall f _ args => f :: default [] args
  | EStaticCall _ args => default [] args
  | EInit _ es _ | ETuple es | EArray es | EOther es _ _ => es
  | EMatch e _ _ => [e]
  end.

(** Induction on expressions through their direct sub-expressions. *)
Lemma expr_children_ind (P : expr → Prop) :
  (∀ e, Forall P (children e) → P e) → ∀ e, P e.
Proof.
  intros Hstep. fix IH 1. intros e. apply Hstep.
  set (all := fix all l : Forall P l :=
    match l with [] => Forall_nil_2 _ | x :: l => Forall_cons_2 _ _ _ (IH x) (all l) end).
  destruct e as [| | | | | |f [args|]|i [args|]|o n [args|]| | | | | | | | | | | | | | | | | | | | |]; simpl;
    repeat constructor; try apply IH; apply all.
Qed.

Definition body_stmts (b : if_body) : list stmt :=
  match b with IfBlock b => b | IfStmt s => [s] end.

(** The statements directly inside a statement. *)
Definition sub_stmts (s : stmt) : list stmt :=
  match s with
  | SIf _ b elifs els =>
      body_stmts b ++ flat_map (λ i, match i with ElseIf _ b => body_stmts b end) elifs ++
      match els with Some b => body_stmts b | None => [] end
  | SForIn _ _ b | SForClassic _ _ _ _ b | SLoop b | SWhile _ b | SDoWhile b _ | SLock _ b
  | SNakedBlock b | SInlineBlock b | SScopeBlock _ b => b
  | SSwitch _ cases d =>
      flat_map (λ c, match c with Case _ b => b end) cases ++ default [] d
  | STryCatch b cs f =>
      b ++ flat_map (λ c, match c with Catch _ _ b => b end) cs ++ default [] f
  | SDefer s | SLabel _ s => [s]
  | _ => []
  end.

(** Induction on statements through the statements directly inside. *)
Lemma stmt_sub_ind (P : stmt → Prop) :
  (∀ s, Forall P (sub_stmts s) → P s) → ∀ s, P s.
Proof.
  intros Hstep. fix IH 1. intros s. apply Hstep.
  set (all := fix all l : Forall P l :=
    match l with [] => Forall_nil_2 _ | x :: l => Forall_cons_2 _ _ _ (IH x) (all l) end).
  set (body := λ b, match b return Forall P (body_stmts b) with
    | IfBlock b => all b | IfStmt s => Forall_cons_2 _ _ _ (IH s) (Forall_nil_2 _) end).
  set (elifs := fix elifs (l : list else_if) :
      Forall P (flat_map (λ i, match i with ElseIf _ b => body_stmts b end) l) :=
    match l with
    | [] => Forall_nil_2 _
    | ElseIf _ b :: l => Forall_app_2 _ _ _ (body b) (elifs l)
    end).
  set (cases := fix cases (l : list switch_case) : Forall P (flat_map (λ c, match c with Case _ b => b end) l) :=
    match l with
    | [] => Forall_nil_2 _
    | Case _ b :: l => Forall_app_2 _ _ _ (all b) (cases l)
    end).
  set (catches := fix catches (l : list catch_clause) : Forall P (flat_map (λ c, match c with Catch _ _ b => b end) l) :=
    match l with
    | [] => Forall_nil_2 _
    | Catch _ _ b :: l => Forall_app_2 _ _ _ (all b) (catches l)
    end).
  destruct s as [| | | | | | |c b es [e|]| | | | | | | |e cs [d|]| |b cs [f|]| | | | | | | |]; simpl;
    repeat (apply Forall_app_2);
    first [exact (Forall_nil_2 _)|exact (Forall_cons_2 _ _ _ (IH _) (Forall_nil_2 _))
      |apply elifs|apply cases|apply catches|apply body|apply all].
Qed.
