(* ===== verification/ComptimeValue.v ===== *)
(** * Compile-time values, registries and built-in functions

    [comptime/ComptimeValue.{h,cpp}], [comptime/ComptimeRegistry.cpp] and
    [comptime/ComptimeBuiltinRegistry.cpp]. *)

From S2P Require Import Prelude CxxLib TypeInfo CFloat Syntax.
Local Open Scope Z_scope.

Module VK.
Inductive Kind := Void | Int | Float | Bool | String | Type_ | List | Struct | Function.
End VK.

#[export] Instance Kind_eq_dec : EqDecision VK.Kind.
Proof. solve_decision. Defined.

(** A value; the constructor is the kind.  A type value holds the [TypeInfo] it
    points to, [None] for null.  The unordered map of a struct is an association
    list with at most one entry per name. *)
Inductive ComptimeValue :=
| voidVal
| intVal (v : Z)
| floatVal (v : double)
| boolVal (v : bool)
| stringVal (v : string)
| typeVal (t : option TypeInfo)
| listVal (l : list ComptimeValue)
| structVal (m : list (string * ComptimeValue))
| functionVal (name : string).

Definition kind (v : ComptimeValue) : VK.Kind :=
  match v with
  | voidVal => VK.Void | intVal _ => VK.Int | floatVal _ => VK.Float | boolVal _ => VK.Bool
  | stringVal _ => VK.String | typeVal _ => VK.Type_ | listVal _ => VK.List
  | structVal _ => VK.Struct | functionVal _ => VK.Function
  end.

(** The members not set by the constructor function keep their initialisers. *)
Definition asInt (v : ComptimeValue) : Z := match v with intVal z => z | _ => 0 end.
Definition asFloat (v : ComptimeValue) : double := match v with floatVal f => f | _ => dzero end.
Definition asBool (v : ComptimeValue) : bool := match v with boolVal b => b | _ => false end.
Definition asString (v : ComptimeValue) : string := match v with stringVal s => s | _ => "" end.
Definition asType (v : ComptimeValue) : option TypeInfo :=
  match v with typeVal t => t | _ => None end.
Definition asList (v : ComptimeValue) : list ComptimeValue :=
  match v with listVal l => l | _ => [] end.
Definition asStruct (v : ComptimeValue) : list (string * ComptimeValue) :=
  match v with structVal m => m | _ => [] end.

Definition is_void (v : ComptimeValue) : bool := match v with voidVal => true | _ => false end.

Definition struct_find (name : string) (m : list (string * ComptimeValue))
    : option ComptimeValue :=
  (λ p, p.2.2) <$> list_find (λ p, p.1 = name) m.

(** Is a value true as a condition? *)
Definition isTrue (v : ComptimeValue) : bool :=
  match v with boolVal b => b | intVal z => negb (z =? 0) | _ => false end.

(** ** Compile-time functions *)

(** What the interpreter reads of a [FunctionDeclContext]: the identifiers of the
    parameters ([None] for an untyped variadic) and the body. *)
Record FunctionDecl := {
  fn_params : list (option string);
  fn_block : block }.

Record ComptimeEntry := {
  ce_name : string;
  ce_decl : FunctionDecl;
  ce_isGeneric : bool }.

Notation ComptimeRegistry := (gmap string ComptimeEntry).

Definition cr_registerFunction (name : string) (decl : FunctionDecl) (isGeneric : bool)
    (entries : ComptimeRegistry) : ComptimeRegistry :=
  <[name := Build_ComptimeEntry name decl isGeneric]> entries.

Definition isComptime (entries : ComptimeRegistry) (name : string) : bool :=
  bool_decide (is_Some (entries !! name)).

Definition cr_lookup (entries : ComptimeRegistry) (name : string) : option FunctionDecl :=
  ce_decl <$> entries !! name.

Definition cr_allNames (entries : ComptimeRegistry) : list string := (map_to_list entries).*1.

Definition cr_clear (_ : ComptimeRegistry) : ComptimeRegistry := ∅.

(** ** Built-in compile-time functions *)

Definition builtin_fn := list ComptimeValue → outcome ComptimeValue.

(** [args[0].asType()], undefined on an empty vector. *)
Definition withType (f : option TypeInfo → ComptimeValue) : builtin_fn := λ args,
  match args with
  | [] => Undef
  | a :: _ => Ret (f (asType a))
  end.

Definition typeName (ti : option TypeInfo) : ComptimeValue :=
  stringVal (match ti with Some t => ti_name t | None => "unknown" end).

Definition fieldsOf (ti : option TypeInfo) : ComptimeValue :=
  stringVal match ti with
  | Some t => if hasKind TK.Struct t || hasKind TK.Union t
              then str_join ", " (fi_name <$> ti_fields t) else ""
  | None => ""
  end.

Definition variantsOf (ti : option TypeInfo) : ComptimeValue :=
  stringVal match ti with
  | Some t => if hasKind TK.Enum t then str_join ", " (ti_enumVariants t) else ""
  | None => ""
  end.

(** FNV-1a on 64-bit unsigned integers. *)
Fixpoint fnv1a (hash : Z) (s : string) : Z :=
  match s with
  | "" => hash
  | String c s => fnv1a (to_uint64 (Z.lxor hash (code c) * 1099511628211)) s
  end.

Definition typeId (ti : option TypeInfo) : ComptimeValue :=
  intVal (to_int64 (fnv1a 14695981039346656037
    (match ti with Some t => ti_name t | None => "" end))).

Definition isKindOf (k : TypeKind) (ti : option TypeInfo) : ComptimeValue :=
  boolVal (match ti with Some t => hasKind k t | None => false end).

(** The registry the constructor fills, and [lookup] in it. *)
Definition comptimeBuiltins : list (string * builtin_fn) := [
  ("typeName", withType typeName);
  ("fields", withType fieldsOf);
  ("variants", withType variantsOf);
  ("typeId", withType typeId);
  ("isStruct", withType (isKindOf TK.Struct));
  ("isEnum", withType (isKindOf TK.Enum));
  ("isUnion", withType (isKindOf TK.Union)) ].

Definition builtin_lookup (name : string) : option builtin_fn :=
  (λ p, p.2.2) <$> list_find (λ p, p.1 = name) comptimeBuiltins.

(** ** Lemmas *)

(** Values whose integers are 64-bit. *)
Fixpoint value_ok (v : ComptimeValue) : bool :=
  match v with
  | intVal z => in_int64 z
  | listVal l => forallb value_ok l
  | structVal m => forallb (λ p, value_ok p.2) m
  | _ => true
  end.

Lemma withType_ok f args v :
  (∀ t, value_ok (f t) = true) → withType f args = Ret v → value_ok v = true.
Proof. intros Hf. destruct args; [done|]. intros [= <-]. apply Hf. Qed.

Lemma comptimeBuiltins_ok :
  Forall (λ p, ∀ args v, p.2 args = Ret v → value_ok v = true) comptimeBuiltins.
Proof.
  repeat constructor; simpl; intros args v; apply withType_ok; intros t; try done.
  apply to_int64_range.
Qed.

Lemma builtin_value_ok name f args v :
  builtin_lookup name = Some f → f args = Ret v → value_ok v = true.
Proof.
  unfold builtin_lookup. intros Hf. apply fmap_Some in Hf as ([i p] & Hfind & ->).
  apply list_find_Some in Hfind as (Hi & _ & _).
  exact (Forall_lookup_1 _ _ _ _ comptimeBuiltins_ok Hi args v).
Qed.
