(* ===== verification/ConstEval.v ===== *)
(** * Constant expressions of the checker

    [parseIntLiteral], [stripSuffix], [Checker::evaluateConstExpr] and
    [Checker::isValidConstExpr] ([checkers/Checker_decl.cpp]).

    The evaluator picks the operation of a binary expression by searching the text of
    the whole expression for an operator character; the model does the same.  Signed
    overflow and out-of-range shifts are undefined in C++ and are [Undef]. *)

From S2P Require Import Prelude CxxLib TypeInfo CFloat Syntax ComptimeValue.
Local Open Scope Z_scope.

(** ** Literals *)

Definition is_prefix_char (c : ascii) : bool :=
  existsb (λ d, bool_decide (d = c)) ["+"; "-"; "x"; "X"; "o"; "O"; "b"; "B"]%char.

Definition parseIntLiteral (text : string) (base : Z) : outcome Z :=
  let clean := if base =? 16 then text else str_remove "'" text in
  match drop_while is_prefix_char clean with
  | "" => Ret 0
  | num =>
      r ← catch_all (stoll base num);
      Ret (default 0 r)
  end.

Definition suffixes : list string := [
  "i8"; "i16"; "i32"; "i64"; "i128"; "iinf"; "isize";
  "u8"; "u16"; "u32"; "u64"; "u128"; "usize";
  "f32"; "f64"; "f80"; "f128" ].

Fixpoint stripFirst (sufs : list string) (text : string) : string :=
  match sufs with
  | [] => text
  | s :: sufs =>
      if ends_with_strict s text then str_take (String.length text - String.length s) text
      else stripFirst sufs text
  end.
Definition stripSuffix (text : string) : string := stripFirst suffixes text.

Definition evalIntLit (text : string) (base : Z) : outcome (option ComptimeValue) :=
  z ← parseIntLiteral text base; Ret (Some (intVal z)).

(** [try { return floatVal(std::stod(text)); } catch (...) { return nullopt; }] *)
Definition evalFloatLit (text : string) : outcome (option ComptimeValue) :=
  r ← catch_all (stod text);
  Ret match r with Some d => Some (floatVal d) | None => None end.

Definition evalCharLit (raw : string) : Z :=
  match raw with
  | String q (String c rest) =>
      if negb (bool_decide (q = "'"%char)) then 0 else
      if (String.length raw =? 3)%nat && negb (bool_decide (c = "\"%char)) then code c else
      match rest with
      | String d _ =>
          if bool_decide (c = "\"%char) then
            if bool_decide (d = "n"%char) then 10 else
            if bool_decide (d = "t"%char) then 9 else
            if bool_decide (d = "0"%char) then 0 else
            if bool_decide (d = "\"%char) then 92 else
            if bool_decide (d = "'"%char) then 39 else code d
          else 0
      | "" => 0
      end
  | _ => 0
  end.

(** The escape loop over the characters between the quotes. *)
Definition escaped (c : ascii) : ascii :=
  if bool_decide (c = "n"%char) then ascii_of_N 10 else
  if bool_decide (c = "t"%char) then ascii_of_N 9 else
  if bool_decide (c = "0"%char) then ascii_of_N 0 else c.

Fixpoint unescape (s : string) : string :=
  match s with
  | "" => ""
  | String c s' =>
      if bool_decide (c = "\"%char) then
        match s' with
        | String d s'' => String (escaped d) (unescape s'')
        | "" => String c ""
        end
      else String c (unescape s')
  end.

Definition evalStrLit (raw : string) : string :=
  if (2 <=? String.length raw)%nat
  then unescape (str_take (String.length raw - 2) (str_drop 1 raw))
  else "".

Definition evalLit (k : lit_kind) (text : string) : outcome (option ComptimeValue) :=
  match k with
  | IntLit => evalIntLit text 0
  | HexLit => evalIntLit text 16
  | OctLit => evalIntLit text 8
  | BinLit => evalIntLit text 2
  | SuffixedIntLit => evalIntLit (stripSuffix text) 0
  | SuffixedHexLit => evalIntLit (stripSuffix text) 16
  | SuffixedOctLit => evalIntLit (stripSuffix text) 8
  | SuffixedBinLit => evalIntLit (stripSuffix text) 2
  | FloatLit => evalFloatLit text
  | LeadingDotFloatLit => evalFloatLit ("0." +:+ text)
  | SuffixedFloatLit | SuffixedFloatIntLit | SuffixedIntFloatLit => evalFloatLit (stripSuffix text)
  | SuffixedLeadingDotFloatLit => evalFloatLit ("0." +:+ stripSuffix text)
  | BoolLit => Ret (Some (boolVal (bool_decide (text = "true"))))
  | CharLit => Ret (Some (intVal (evalCharLit text)))
  | NullLit => Ret (Some (intVal 0))
  | StrLit => Ret (Some (stringVal (evalStrLit text)))
  | CStrLit | BtickLit | RawBtickLit | IntBtickLit | ShellBtickLit | CmptBtickLit => Ret None
  end.

(** ** Operators *)

Definition has (c : ascii) (raw : string) : bool := bool_decide (is_Some (find_char c raw)).

Definition some_int (m : outcome Z) : outcome (option ComptimeValue) :=
  z ← m; Ret (Some (intVal z)).

Definition evalMul (raw : string) (a b : ComptimeValue) : outcome (option ComptimeValue) :=
  match a, b with
  | intVal x, intVal y =>
      if has "*" raw then some_int (mul64 x y) else
      if has "/" raw then if y =? 0 then Ret None else some_int (div64 x y) else
      if has "%" raw then if y =? 0 then Ret None else some_int (rem64 x y) else
      Ret None
  | floatVal x, floatVal y =>
      if has "*" raw then Ret (Some (floatVal (dmul x y))) else
      if has "/" raw then if deq y dzero then Ret None else Ret (Some (floatVal (ddiv x y))) else
      Ret None
  | _, _ => Ret None
  end.

Definition evalAddSub (raw : string) (a b : ComptimeValue) : outcome (option ComptimeValue) :=
  match a, b with
  | intVal x, intVal y =>
      if has "+" raw then some_int (add64 x y) else
      if has "-" raw then some_int (sub64 x y) else Ret None
  | floatVal x, floatVal y =>
      if has "+" raw then Ret (Some (floatVal (dadd x y))) else
      if has "-" raw then Ret (Some (floatVal (dsub x y))) else Ret None
  | stringVal x, stringVal y => Ret (Some (stringVal (x +:+ y)))
  | _, _ => Ret None
  end.

Definition onInts (f : Z → Z → outcome (option ComptimeValue)) (a b : ComptimeValue)
    : outcome (option ComptimeValue) :=
  match a, b with
  | intVal x, intVal y => f x y
  | _, _ => Ret None
  end.

Definition evalRel (raw : string) (a b : ComptimeValue) : outcome (option ComptimeValue) :=
  match a, b with
  | intVal x, intVal y =>
      Ret (Some (boolVal (
        if str_contains "<=" raw then x <=? y else
        if str_contains ">=" raw then y <=? x else
        if has "<" raw then x <? y else
        if has ">" raw then y <? x else false)))
  | floatVal x, floatVal y =>
      Ret (Some (boolVal (
        if str_contains "<=" raw then dle x y else
        if str_contains ">=" raw then dle y x else
        if has "<" raw then dlt x y else
        if has ">" raw then dlt y x else false)))
  | _, _ => Ret None
  end.

Definition evalEq (raw : string) (a b : ComptimeValue) : outcome (option ComptimeValue) :=
  let isEq := str_contains "==" raw in
  let answer (result : bool) := Ret (Some (boolVal (if isEq then result else negb result))) in
  match a, b with
  | intVal x, intVal y => answer (x =? y)
  | floatVal x, floatVal y => answer (deq x y)
  | boolVal x, boolVal y => answer (eqb x y)
  | stringVal x, stringVal y => answer (bool_decide (x = y))
  | _, _ => Ret None
  end.

Definition evalLogical (f : bool → bool → bool) (a b : ComptimeValue)
    : outcome (option ComptimeValue) :=
  match a, b with
  | boolVal x, boolVal y => Ret (Some (boolVal (f x y)))
  | intVal x, intVal y => Ret (Some (boolVal (f (negb (x =? 0)) (negb (y =? 0)))))
  | _, _ => Ret None
  end.

Definition evalNullCoal (a b : ComptimeValue) : outcome (option ComptimeValue) :=
  match a with
  | intVal x => Ret (Some (if x =? 0 then b else a))
  | boolVal x => Ret (Some (if x then a else b))
  | _ => Ret (Some b)
  end.

(** The operation of a binary context whose text is [raw]. *)
Definition evalBinOp (k : bin_kind) (raw : string) (a b : ComptimeValue)
    : outcome (option ComptimeValue) :=
  match k with
  | BMul => evalMul raw a b
  | BAddSub => evalAddSub raw a b
  | BLshift => onInts (λ x y, some_int (shl64 x y)) a b
  | BRshift => onInts (λ x y, some_int (shr64 x y)) a b
  | BRel => evalRel raw a b
  | BEq => evalEq raw a b
  | BBitAnd => onInts (λ x y, Ret (Some (intVal (Z.land x y)))) a b
  | BBitXor => onInts (λ x y, Ret (Some (intVal (Z.lxor x y)))) a b
  | BBitOr => onInts (λ x y, Ret (Some (intVal (Z.lor x y)))) a b
  | BLogicalAnd => evalLogical andb a b
  | BLogicalOr => evalLogical orb a b
  | BNullCoal => evalNullCoal a b
  | BRange | BRangeIncl => Ret None
  end.

Definition evalUnary (k : un_kind) (v : ComptimeValue) : outcome (option ComptimeValue) :=
  match k, v with
  | UNeg, intVal x => some_int (neg64 x)
  | UNeg, floatVal x => Ret (Some (floatVal (dneg x)))
  | ULogicalNot, boolVal b => Ret (Some (boolVal (negb b)))
  | ULogicalNot, intVal x => Ret (Some (boolVal (x =? 0)))
  | UBitNot, intVal x => Ret (Some (intVal (Z.lnot x)))
  | _, _ => Ret None
  end.

(** ** The evaluator *)

Section eval.
(** The registry, the values of the constants already evaluated, and the resolution
    of a type specifier. *)
Context (types_ : types_map) (compileTimeValues_ : gmap string ComptimeValue).
Context (resolveTypeSpec : string → option TypeInfo).

Definition findEnumVariant (enumName varName : string) : option ComptimeValue :=
  match reg_lookup types_ enumName with
  | Some ti =>
      if hasKind TK.Enum ti then
        (λ v, intVal (ev_discriminant v.2)) <$>
          list_find (λ v, ev_name v = varName) (ti_enumVariantInfos ti)
      else None
  | None => None
  end.

Definition evalSizeof (typeSpec : string) : option ComptimeValue :=
  match resolveTypeSpec typeSpec with
  | None => None
  | Some ti =>
      Some (intVal (if 0 <? ti_bitWidth ti then ti_bitWidth ti / 8
                    else if hasKind TK.Pointer ti then 8 else 1))
  end.

(** The loops over the arguments of [all] and [any], which evaluate an argument
    only when the previous ones did not decide. *)
Fixpoint evalAll (ev : expr → outcome (option ComptimeValue)) (args : list expr)
    : outcome (option ComptimeValue) :=
  match args with
  | [] => Ret (Some (boolVal true))
  | a :: args =>
      v ← ev a;
      match v with
      | None | Some (boolVal false) => Ret (Some (boolVal false))
      | Some (boolVal true) => evalAll ev args
      | Some _ => Ret None
      end
  end.

Fixpoint evalAny (ev : expr → outcome (option ComptimeValue)) (args : list expr)
    : outcome (option ComptimeValue) :=
  match args with
  | [] => Ret (Some (boolVal false))
  | a :: args =>
      v ← ev a;
      match v with
      | Some (boolVal true) => Ret (Some (boolVal true))
      | Some (boolVal false) | None => evalAny ev args
      | Some _ => Ret None
      end
  end.

Definition evalNot (ev : expr → outcome (option ComptimeValue)) (args : list expr)
    : outcome (option ComptimeValue) :=
  match args with
  | [a] =>
      v ← ev a;
      Ret match v with Some (boolVal b) => Some (boolVal (negb b)) | _ => None end
  | _ => Ret None
  end.

(** A call of a bare identifier. *)
Definition evalCall (ev : expr → outcome (option ComptimeValue)) (name : string)
    (args : option (list expr)) : outcome (option ComptimeValue) :=
  match args with
  | None => Ret (Some (boolVal true))
  | Some args =>
      if bool_decide (name = "all") then evalAll ev args else
      if bool_decide (name = "any") then evalAny ev args else
      if bool_decide (name = "not") then evalNot ev args else Ret None
  end.

Fixpoint evaluateConstExpr (e : expr) : outcome (option ComptimeValue) :=
  match e with
  | ECfg _ e => evaluateConstExpr e
  | ELit k text => evalLit k text
  | EIdent name => Ret (compileTimeValues_ !! name)
  | EParen e => evaluateConstExpr e
  | EUnary k e =>
      match k with
      | UNeg | ULogicalNot | UBitNot =>
          v ← evaluateConstExpr e;
          match v with None => Ret None | Some v => evalUnary k v end
      | _ => Ret None
      end
  | EBin k _ l r =>
      match k with
      | BRange | BRangeIncl => Ret None
      | _ =>
          lhs ← evaluateConstExpr l;
          rhs ← evaluateConstExpr r;
          match lhs, rhs with
          | Some a, Some b => evalBinOp k (getText e) a b
          | _, _ => Ret None
          end
      end
  | ETernary c t f =>
      cond ← evaluateConstExpr c;
      match cond with
      | None => Ret None
      | Some v => if isTrue v then evaluateConstExpr t else evaluateConstExpr f
      end
  | ESizeof ty => Ret (evalSizeof ty)
  | EEnumAccess enum variant => Ret (findEnumVariant enum variant)
  | EGenericEnumAccess enum _ variant => Ret (findEnumVariant enum variant)
  | ECall (EIdent name) args => evalCall evaluateConstExpr name args
  | _ => Ret None
  end.
End eval.

(** ** Which expressions may initialise a constant *)

Definition literalIsConst (k : lit_kind) : bool :=
  match k with
  | BtickLit | RawBtickLit | IntBtickLit | ShellBtickLit | CmptBtickLit => false
  | _ => true
  end.

Fixpoint isValidConstExpr (isComptime : string → bool) (e : expr) : bool :=
  match e with
  | ELit k _ => literalIsConst k
  | EIdent _ | EEnumAccess _ _ | EGenericEnumAccess _ _ _ => true
  | EParen e => isValidConstExpr isComptime e
  | EUnary (UNeg | ULogicalNot | UBitNot) e => isValidConstExpr isComptime e
  | ECall (EIdent name) args =>
      isComptime name &&
      match args with Some l => forallb (isValidConstExpr isComptime) l | None => true end
  | EBin (BRange | BRangeIncl) _ _ _ => false
  | EBin _ _ l r => isValidConstExpr isComptime l && isValidConstExpr isComptime r
  | ETernary c t f =>
      isValidConstExpr isComptime c && isValidConstExpr isComptime t && isValidConstExpr isComptime f
  | ESizeof _ | ETypeof _ => true
  | EInit _ es _ => forallb (isValidConstExpr isComptime) es
  | _ => false
  end.

(** ** Reference semantics

    [refEval] is the evaluator with the operation taken from the operator token: a table
    gives what each token means on operands of each type.  Strings are joined by [-]
    too. *)

Fixpoint meaning {A} (op : string) (table : list (string * A)) : option A :=
  match table with
  | [] => None
  | (o, f) :: table => if bool_decide (op = o) then Some f else meaning op table
  end.

Definition intMeaning : list (string * (Z → Z → outcome (option ComptimeValue))) :=
  let int f := λ x y, some_int (f x y) in
  let nonzero f := λ x y, if y =? 0 then Ret None else some_int (f x y) in
  let bits f := λ x y, Ret (Some (intVal (f x y))) in
  let test f := λ x y, Ret (Some (boolVal (f x y))) in
  [ ("*", int mul64); ("/", nonzero div64); ("%", nonzero rem64); ("+", int add64);
    ("-", int sub64); ("<<", int shl64); (">>", int shr64);
    ("&", bits Z.land); ("^", bits Z.lxor); ("|", bits Z.lor);
    ("<=", test Z.leb); (">=", test (flip Z.leb)); ("<", test Z.ltb); (">", test (flip Z.ltb));
    ("==", test Z.eqb); ("!=", test (λ x y, negb (x =? y)));
    ("&&", test (λ x y, negb (x =? 0) && negb (y =? 0)));
    ("||", test (λ x y, negb (x =? 0) || negb (y =? 0))) ].

Definition floatMeaning : list (string * (double → double → outcome (option ComptimeValue))) :=
  let float f := λ x y, Ret (Some (floatVal (f x y))) in
  let test f := λ x y, Ret (Some (boolVal (f x y))) in
  [ ("*", float dmul); ("+", float dadd); ("-", float dsub);
    ("/", λ x y, if deq y dzero then Ret None else Ret (Some (floatVal (ddiv x y))));
    ("<=", test dle); (">=", test (flip dle)); ("<", test dlt); (">", test (flip dlt));
    ("==", test deq); ("!=", test (λ x y, negb (deq x y))) ].

Definition boolMeaning : list (string * (bool → bool → bool)) :=
  [ ("==", eqb); ("!=", xorb); ("&&", andb); ("||", orb) ].

Definition stringMeaning : list (string * (string → string → ComptimeValue)) :=
  [ ("+", λ x y, stringVal (x +:+ y)); ("-", λ x y, stringVal (x +:+ y));
    ("==", λ x y, boolVal (bool_decide (x = y)));
    ("!=", λ x y, boolVal (negb (bool_decide (x = y)))) ].

Definition tokenOp (op : string) (a b : ComptimeValue) : outcome (option ComptimeValue) :=
  if bool_decide (op = "??") then
    Ret (Some match a with
              | intVal 0 | boolVal false => b
              | intVal _ | boolVal _ => a
              | _ => b
              end)
  else
  match a, b with
  | intVal x, intVal y => match meaning op intMeaning with Some f => f x y | None => Ret None end
  | floatVal x, floatVal y => match meaning op floatMeaning with Some f => f x y | None => Ret None end
  | boolVal x, boolVal y => Ret ((λ f, boolVal (f x y)) <$> meaning op boolMeaning)
  | stringVal x, stringVal y => Ret ((λ f, f x y) <$> meaning op stringMeaning)
  | _, _ => Ret None
  end.

Section reference.
Context (types_ : types_map) (consts : gmap string ComptimeValue).
Context (resolveTypeSpec : string → option TypeInfo).

Fixpoint refEval (e : expr) : outcome (option ComptimeValue) :=
  match e with
  | ECfg _ e => refEval e
  | ELit k text => evalLit k text
  | EIdent name => Ret (consts !! name)
  | EParen e => refEval e
  | EUnary k e =>
      match k with
      | UNeg | ULogicalNot | UBitNot =>
          v ← refEval e;
          match v with None => Ret None | Some v => evalUnary k v end
      | _ => Ret None
      end
  | EBin k op l r =>
      match k with
      | BRange | BRangeIncl => Ret None
      | _ =>
          lhs ← refEval l;
          rhs ← refEval r;
          match lhs, rhs with
          | Some a, Some b => tokenOp op a b
          | _, _ => Ret None
          end
      end
  | ETernary c t f =>
      cond ← refEval c;
      match cond with
      | None => Ret None
      | Some v => if isTrue v then refEval t else refEval f
      end
  | ESizeof ty => Ret (evalSizeof resolveTypeSpec ty)
  | EEnumAccess enum variant => Ret (findEnumVariant types_ enum variant)
  | EGenericEnumAccess enum _ variant => Ret (findEnumVariant types_ enum variant)
  | ECall (EIdent name) args => evalCall refEval name args
  | _ => Ret None
  end.
End reference.

(** The characters whose presence in an operand's text misleads the search. *)
Definition op_chars (k : bin_kind) : list ascii :=
  match k with
  | BMul => ["*"; "/"; "%"]%char
  | BAddSub => ["+"; "-"]%char
  | BRel => ["<"; ">"; "="]%char
  | BEq => ["="]%char
  | _ => []
  end.

Definition free_of (cs : list ascii) (s : string) : bool :=
  forallb (λ c, negb (has c s)) cs.

(** The operator tokens of a level. *)
Definition op_tokens (k : bin_kind) : list string :=
  match k with
  | BMul => ["*"; "/"; "%"]
  | BAddSub => ["+"; "-"]
  | BRel => ["<"; ">"; "<="; ">="]
  | BEq => ["=="; "!="]
  | BLshift => ["<<"] | BRshift => [">>"]
  | BBitAnd => ["&"] | BBitXor => ["^"] | BBitOr => ["|"]
  | BLogicalAnd => ["&&"] | BLogicalOr => ["||"] | BNullCoal => ["??"]
  | BRange => [".."] | BRangeIncl => ["..="]
  end.

Definition op_valid (k : bin_kind) (op : string) : bool := bool_decide (op ∈ op_tokens k).

(** Operators are tokens of their level, and operands of the four searched levels
    do not mention operators of that level. *)
Fixpoint clean (e : expr) : bool :=
  match e with
  | EParen e | EUnary _ e | ECfg _ e => clean e
  | EBin k op l r =>
      op_valid k op && clean l && clean r &&
      free_of (op_chars k) (getText l) && free_of (op_chars k) (getText r)
  | ETernary c t f => clean c && clean t && clean f
  | ECall _ (Some args) => forallb clean args
  | _ => true
  end.

(** ** Searching concatenated text *)

Lemma has_app c s1 s2 : has c (s1 +:+ s2) = has c s1 || has c s2.
Proof.
  unfold has. induction s1 as [|a s1 IH]; simpl; [done|].
  destruct (decide (a = c)) as [E|E];
    [by rewrite (bool_decide_eq_true_2 _ E)|rewrite !(bool_decide_eq_false_2 _ E)].
  assert (Hf : ∀ o : option nat, bool_decide (is_Some (S <$> o)) = bool_decide (is_Some o)).
  { by intros [n|]. }
  by rewrite !Hf.
Qed.

Lemma has_cons c a s : has c (String a s) = bool_decide (a = c) || has c s.
Proof.
  change (String a s) with (String a "" +:+ s). rewrite has_app. f_equal.
  unfold has. simpl. destruct (decide (a = c)) as [E|E];
    [by rewrite (bool_decide_eq_true_2 _ E)|by rewrite (bool_decide_eq_false_2 _ E)].
Qed.

Lemma str_contains_nil c d : str_contains (String c (String d "")) "" = false.
Proof. reflexivity. Qed.

Lemma str_contains_cons c d a s :
  str_contains (String c (String d "")) (String a s) =
  (bool_decide (c = a) && match s with String b _ => bool_decide (d = b) | "" => false end)
  || str_contains (String c (String d "")) s.
Proof.
  assert (Hp : ∀ p b t, str_contains p (String b t) = String.prefix p (String b t) || str_contains p t).
  { intros p b t. unfold str_contains, str_find. cbn [String.index].
    destruct (String.prefix p (String b t)); [done|]. by destruct (String.index 0 p t). }
  assert (Hpre : ∀ a' b p t, String.prefix (String a' p) (String b t) = bool_decide (a' = b) && String.prefix p t).
  { intros a' b p t. cbn [String.prefix].
    destruct (Ascii.ascii_dec a' b); case_bool_decide; by simplify_eq. }
  rewrite Hp, Hpre. do 2 f_equal. destruct s as [|b s]; [done|].
  rewrite Hpre. destruct s; apply andb_true_r.
Qed.

(** A two-character operator is not found in a text without one of its
    characters, and is found where it is written. *)
Lemma str_contains_free_snd c d s :
  has d s = false → str_contains (String c (String d "")) s = false.
Proof.
  induction s as [|a s IH]; intros H; [done|].
  rewrite has_cons in H. apply orb_false_iff in H as [Ha Hs].
  rewrite str_contains_cons, (IH Hs), orb_false_r.
  destruct s as [|b s]; [by rewrite andb_false_r|].
  rewrite has_cons in Hs. apply orb_false_iff in Hs as [Hb _].
  apply bool_decide_eq_false_1 in Hb. rewrite (bool_decide_eq_false_2 (d = b)) by congruence.
  by rewrite andb_false_r.
Qed.

Lemma str_contains_free_fst c d s :
  has c s = false → str_contains (String c (String d "")) s = false.
Proof.
  induction s as [|a s IH]; intros H; [done|].
  rewrite has_cons in H. apply orb_false_iff in H as [Ha Hs].
  apply bool_decide_eq_false_1 in Ha.
  rewrite str_contains_cons, (IH Hs), (bool_decide_eq_false_2 (c = a)) by congruence. done.
Qed.

Lemma str_contains_here c d l r :
  str_contains (String c (String d "")) (l +:+ String c (String d r)) = true.
Proof.
  induction l as [|a l IH].
  - rewrite ?str_app_cons, ?str_app_nil. rewrite str_contains_cons. by rewrite !bool_decide_eq_true_2.
  - rewrite ?str_app_cons, ?str_app_nil.
    rewrite str_contains_cons, IH. apply orb_true_r.
Qed.

Lemma str_contains_once c x l r :
  x ≠ c → has c l = false → has c r = false →
  str_contains (String c (String c "")) (l +:+ String x (String c r)) = false.
Proof.
  intros Hx Hl Hr. induction l as [|a l IH]; rewrite ?str_app_cons, ?str_app_nil.
  - rewrite !str_contains_cons, (bool_decide_eq_false_2 (c = x)) by congruence.
    rewrite (str_contains_free_fst c c r Hr), orb_false_r. simpl.
    destruct r as [|b r]; [by rewrite andb_false_r|].
    rewrite has_cons in Hr. apply orb_false_iff in Hr as [Hb _].
    apply bool_decide_eq_false_1 in Hb. rewrite (bool_decide_eq_false_2 (c = b)) by congruence.
    by rewrite andb_false_r.
  - rewrite has_cons in Hl. apply orb_false_iff in Hl as [Ha Hl].
    apply bool_decide_eq_false_1 in Ha.
    rewrite str_contains_cons, (IH Hl), (bool_decide_eq_false_2 (c = a)) by congruence. done.
Qed.

Ltac by_tokens Hop :=
  unfold op_valid in Hop; apply bool_decide_eq_true_1 in Hop; unfold op_tokens in Hop;
  repeat (apply elem_of_cons in Hop as [->|Hop]); try by apply not_elem_of_nil in Hop.

(** The searches of each level on a text cut at its operator. *)
Ltac search_text :=
  repeat first
    [ rewrite str_contains_here
    | rewrite str_contains_once by (done || congruence)
    | rewrite str_contains_free_fst by (rewrite !has_app, ?has_cons; simplify_has)
    | rewrite str_contains_free_snd by (rewrite !has_app, ?has_cons; simplify_has) ]
with simplify_has :=
  repeat match goal with H : has _ _ = false |- _ => rewrite H; clear H end; reflexivity.

(** On clean operands the search finds the operator that was written. *)
Lemma evalBinOp_clean k op tl tr a b :
  op_valid k op = true → free_of (op_chars k) tl = true → free_of (op_chars k) tr = true →
  evalBinOp k (tl +:+ op +:+ tr) a b = evalBinOp k op a b.
Proof.
  intros Hop Hl Hr. destruct k; try done;
    unfold free_of, op_chars in Hl, Hr; cbn [forallb] in Hl, Hr; split_free; by_tokens Hop.
  all: simpl evalBinOp; unfold evalMul, evalAddSub, evalRel, evalEq.
  all: rewrite ?has_app, ?str_app_cons, ?str_app_nil; search_text;
       repeat match goal with H : has _ _ = false |- _ => rewrite H; clear H end; done.
Qed.

(** On the operator alone the search is the table. *)
Lemma evalBinOp_token k op a b : op_valid k op = true → evalBinOp k op a b = tokenOp op a b.
Proof.
  intros Hop. destruct k; by_tokens Hop; destruct a as [|[]| |[]| | | | |], b; try reflexivity.
  all: by destruct v.
Qed.

Lemma evalAll_ext f g args : Forall (λ a, f a = g a) args → evalAll f args = evalAll g args.
Proof.
  induction 1 as [|a args Ha _ IH]; simpl; [done|]. rewrite Ha.
  destruct (g a) as [[[]|]| | |]; simpl; try done. by destruct v.
Qed.
Lemma evalAny_ext f g args : Forall (λ a, f a = g a) args → evalAny f args = evalAny g args.
Proof.
  induction 1 as [|a args Ha _ IH]; simpl; [done|]. rewrite Ha.
  destruct (g a) as [[[]|]| | |]; simpl; try done. by destruct v.
Qed.
Lemma evalCall_ext f g name args :
  Forall (λ a, f a = g a) (default [] args) → evalCall f name args = evalCall g name args.
Proof.
  destruct args as [args|]; [|done]. intros H. simpl in *.
  rewrite (evalAll_ext f g), (evalAny_ext f g) by done.
  destruct args as [|a [|b args]]; try done. simpl. inversion H as [|?? Ha]. by rewrite Ha.
Qed.

Section clean.
Context (types_ : types_map) (consts : gmap string ComptimeValue).
Context (resolveTypeSpec : string → option TypeInfo).

(** C17: On expressions whose operands do not contain the characters of the operator
    they are operands of, searching the expression's text for the operation gives the
    value that the operator token denotes, errors and undefined behaviour included. *)
Theorem evaluateConstExpr_correct e :
  clean e = true →
  evaluateConstExpr types_ consts resolveTypeSpec e = refEval types_ consts resolveTypeSpec e.
Proof.
  revert e. refine (expr_children_ind _ _). intros e IH Hc.
  destruct e as [| | |k e|k op l r|c t f|callee args| | | | | | | | |? e| | | | | | | | | | | | | |];
    simpl in IH; try done.
  all: repeat match goal with H : Forall _ (_ :: _) |- _ => apply Forall_cons in H as [? H] end.
  - simpl in Hc |- *. auto.
  - simpl in Hc |- *. by rewrite H.
  - simpl in Hc. split_free.
    pose proof (λ a b, evalBinOp_clean k op (getText l) (getText r) a b
      ltac:(eassumption) ltac:(eassumption)
      ltac:(eassumption)) as E.
    cbn [evaluateConstExpr refEval getText]. rewrite H, H0 by done.
    destruct (refEval _ _ _ l) as [[]| | |], (refEval _ _ _ r) as [[]| | |];
      cbn [mbind outcome_bind]; rewrite ?E, ?evalBinOp_token by done; by destruct k.
  - simpl in Hc |- *. split_free. rewrite H, H0, H1 by done. done.
  - destruct callee; try done. simpl. apply evalCall_ext. destruct args as [args|]; [|constructor].
    simpl in Hc, IH |- *. clear H. induction IH; constructor; simpl in Hc; split_free; auto.
  - simpl in Hc |- *. auto.
Qed.
End clean.

Definition num (s : string) : expr := ELit IntLit s.

(** [(1 + 2 * 3) << 4 == 112 ? 7 : 0], [not(false)] and the like. *)
Definition clean_example : expr :=
  ETernary
    (EBin BEq "==" (EBin BLshift "<<" (EParen (EBin BAddSub "+" (num "1")
        (EBin BMul "*" (num "2") (num "3")))) (num "4")) (EIdent "N"))
    (ECall (EIdent "not") (Some [ELit BoolLit "false"]))
    (EUnary UNeg (num "9")).

Lemma evaluateConstExpr_correct_witness :
  clean clean_example = true ∧
  evaluateConstExpr ∅ {[ "N" := intVal 112 ]} (λ _, None) clean_example =
    refEval ∅ {[ "N" := intVal 112 ]} (λ _, None) clean_example ∧
  refEval ∅ {[ "N" := intVal 112 ]} (λ _, None) clean_example = Ret (Some (boolVal true)).
Proof.
  split; [vm_compute; reflexivity|]. split; [|vm_compute; reflexivity].
  apply evaluateConstExpr_correct. vm_compute. reflexivity.
Defined.

(** ** Literals read back *)

Definition digit_or_sep (c : ascii) : bool :=
  ((48 <=? code c) && (code c <=? 57)) || bool_decide (c = "_"%char).

(** No suffix ends another one, and none starts with a digit or a separator. *)
Lemma suffix_unique pre suf pre' suf' :
  suf ∈ suffixes → suf' ∈ suffixes → str_forall digit_or_sep pre = true →
  pre +:+ suf = pre' +:+ suf' → suf = suf'.
Proof.
  intros Hs Hs' Hpre [(k & -> & Hk)|(k & -> & Hk)]%str_app_inv.
  - unfold suffixes in Hs, Hs'.
    repeat (apply elem_of_cons in Hs as [->|Hs]); try by apply not_elem_of_nil in Hs.
    all: repeat (apply elem_of_cons in Hs' as [->|Hs']); try by apply not_elem_of_nil in Hs'.
    all: first [reflexivity|exfalso; repeat (destruct k as [|? k]; [vm_compute in Hk; discriminate Hk|
      rewrite str_app_cons in Hk; first [discriminate Hk|injection Hk as <- Hk]])].
  - destruct k as [|c k]; [done|]. exfalso.
    assert (Hc : digit_or_sep c = true).
    { clear -Hpre. induction pre' as [|a pre' IH]; [|rewrite str_app_cons in Hpre];
        simpl in Hpre; apply andb_true_iff in Hpre as [? ?]; auto. }
    unfold suffixes in Hs'.
    repeat (apply elem_of_cons in Hs' as [->|Hs']; [injection Hk as -> _; discriminate Hc|]).
    by apply not_elem_of_nil in Hs'.
Qed.

(** The suffix of a literal is the only one it ends with. *)
Lemma ends_with_own pre suf : pre ≠ "" → ends_with_strict suf (pre +:+ suf) = true.
Proof.
  intros Hne. unfold ends_with_strict. rewrite str_length_app, Nat.add_sub, str_drop_app.
  rewrite bool_decide_eq_true_2 by done. rewrite andb_true_r.
  apply Nat.ltb_lt. destruct pre; [done|]. simpl. lia.
Qed.
Lemma ends_with_unique pre suf s :
  s ∈ suffixes → suf ∈ suffixes → str_forall digit_or_sep pre = true →
  ends_with_strict s (pre +:+ suf) = true → suf = s.
Proof.
  intros Hs Hsuf Hpre E. unfold ends_with_strict in E. split_free.
  apply bool_decide_eq_true_1 in H0.
  apply (suffix_unique pre _ (str_take (String.length (pre +:+ suf) - String.length s) (pre +:+ suf)));
    [done..|].
  etransitivity; [symmetry; eapply str_take_drop|]. by rewrite H0.
Qed.

Lemma stripFirst_app sufs pre suf :
  sufs ⊆ suffixes → suf ∈ sufs → pre ≠ "" → str_forall digit_or_sep pre = true →
  stripFirst sufs (pre +:+ suf) = pre.
Proof.
  intros Hsub Hin Hne Hpre. induction sufs as [|s sufs IH]; [by apply not_elem_of_nil in Hin|].
  simpl. destruct (ends_with_strict s (pre +:+ suf)) eqn:E.
  - assert (suf = s) as <- by (eapply ends_with_unique; [apply Hsub; left|by apply Hsub|done..]).
    rewrite str_length_app, Nat.add_sub. apply str_take_app.
  - apply IH; [intros x Hx; apply Hsub; by right|].
    apply elem_of_cons in Hin as [->|]; [|done]. by rewrite ends_with_own in E.
Qed.

(** A decimal literal without leading zeros or separators, of a value up to
    [2^63 - 1], evaluates to the number it denotes, bare and with any type suffix. *)
Lemma evalLit_decimal n suf :
  0 ≤ n ≤ int64_max → suf ∈ suffixes →
  evalLit IntLit (to_string n) = Ret (Some (intVal n)) ∧
  evalLit SuffixedIntLit (to_string n +:+ suf) = Ret (Some (intVal n)).
Proof.
  intros Hn Hsuf.
  pose proof (stoll_print_nonneg 0 n (or_introl eq_refl) Hn) as E.
  assert (Hne : to_string n ≠ "") by (intros H; by rewrite H in E).
  assert (Hp : parseIntLiteral (to_string n) 0 = Ret n).
  { unfold parseIntLiteral. change (0 =? 16) with false. cbv iota.
    rewrite str_remove_id by (apply print_nonneg_forall; [by_digits|lia]).
    rewrite drop_while_id by (apply print_nonneg_forall; [by_digits|lia]).
    destruct (to_string n); [done|]. by rewrite E. }
  unfold evalLit, evalIntLit, stripSuffix.
  rewrite stripFirst_app by (done || (apply print_nonneg_forall; [by_digits|lia])).
  by rewrite Hp.
Qed.

Lemma evalLit_decimal_witness :
  evalLit IntLit (to_string 9223372036854775807) = Ret (Some (intVal 9223372036854775807)) ∧
  evalLit SuffixedIntLit (to_string 9223372036854775807 +:+ "usize") =
    Ret (Some (intVal 9223372036854775807)) ∧ to_string 407 +:+ "u8" = "407u8".
Proof.
  destruct (evalLit_decimal 9223372036854775807 "usize") as [? ?];
    [split; vm_compute; discriminate|apply (bool_decide_unpack _); vm_compute; exact I|].
  split; [done|]. split; [done|]. vm_compute. reflexivity.
Defined.

(** ** The results are values *)

(** The evaluator ends in a value or in none, or C++ gives its run no meaning; it does
    not throw, and integers keep to 64 bits. *)
Definition value_or_undef (m : outcome (option ComptimeValue)) : Prop :=
  match m with
  | Ret (Some v) => value_ok v = true
  | Ret None | Undef => True
  | Throw _ | NoFuel => False
  end.

Lemma some_int_good m : int_or_undef m → value_or_undef (some_int m).
Proof. by destruct m. Qed.
#[export] Hint Resolve some_int_good : lucis.

Ltac good_cases :=
  repeat match goal with
  | |- value_or_undef (match ?x with _ => _ end) => destruct x
  | |- value_or_undef (if ?x then _ else _) => destruct x
  end; simpl in *; auto with lucis.

Lemma evalBinOp_good k raw a b :
  value_ok a = true → value_ok b = true → value_or_undef (evalBinOp k raw a b).
Proof.
  intros Ha Hb. destruct k; simpl; unfold evalMul, evalAddSub, onInts, evalRel, evalEq,
    evalLogical, evalNullCoal, add64, sub64, mul64; try done.
  all: destruct a, b; simpl in Ha, Hb |- *; try done; good_cases; by repeat case_match.
Qed.

Lemma evalUnary_good k v : value_ok v = true → value_or_undef (evalUnary k v).
Proof.
  intros Hv. destruct k, v; simpl in *; auto with lucis. apply some_int_good, chk64_good.
Qed.

Section safety.
Context (types_ : types_map) (consts : gmap string ComptimeValue).
Context (resolveTypeSpec : string → option TypeInfo).

Lemma parseIntLiteral_good text base :
  ∃ z, parseIntLiteral text base = Ret z ∧ in_int64 z = true.
Proof.
  unfold parseIntLiteral. destruct (drop_while _ _) as [|c s]; [by exists 0|].
  unfold stoll. destruct (strtol_core _ _) as [[v r]|]; [|by exists 0].
  destruct (in_int64 v) eqn:E; simpl; eauto.
Qed.

Lemma evalLit_good k text : value_or_undef (evalLit k text).
Proof.
  assert (Hi : ∀ t b, value_or_undef (evalIntLit t b)).
  { intros t b. unfold evalIntLit. by destruct (parseIntLiteral_good t b) as (z & -> & ?). }
  assert (Hf : ∀ t, value_or_undef (evalFloatLit t)).
  { intros t. unfold evalFloatLit, stod.
    destruct (read_digits _ _ _ _) as [[ip n] rest].
    by repeat case_match. }
  assert (Hc : ∀ t, in_int64 (evalCharLit t) = true).
  { assert (Hcode : ∀ c, in_int64 (code c) = true).
    { intros c. unfold code. apply in_int64_spec. unfold int64_min, int64_max.
      pose proof (Ascii.N_ascii_bounded c). lia. }
    intros t. unfold evalCharLit. by repeat case_match. }
  destruct k; simpl; auto.
Qed.

(** Literals are always defined. *)
Lemma evalLit_defined k text : evalLit k text ≠ Undef.
Proof.
  assert (Hi : ∀ t b, evalIntLit t b ≠ Undef).
  { intros t b. unfold evalIntLit. by destruct (parseIntLiteral_good t b) as (z & -> & ?). }
  assert (Hf : ∀ t, evalFloatLit t ≠ Undef).
  { intros t. unfold evalFloatLit, stod.
    destruct (read_digits _ _ _ _) as [[ip n] rest].
    by repeat case_match. }
  destruct k; simpl; auto.
Qed.

Lemma evalCall_good ev name args :
  Forall (λ a, value_or_undef (ev a)) (default [] args) → value_or_undef (evalCall ev name args).
Proof.
  destruct args as [args|]; [|done]. simpl. intros H.
  assert (Hall : value_or_undef (evalAll ev args)).
  { induction H as [|a args Ha _ IH]; simpl; [done|].
    destruct (ev a) as [[[]|]| | |]; simpl in *; try done; by repeat case_match. }
  assert (value_or_undef (evalAny ev args)).
  { clear Hall. induction H as [|a args Ha _ IH]; simpl; [done|].
    destruct (ev a) as [[[]|]| | |]; simpl in *; try done; by repeat case_match. }
  repeat (case_bool_decide; [done|]). case_bool_decide; [|done].
  destruct args as [|a [|]]; try done. simpl. inversion H as [|?? Ha].
  by destruct (ev a) as [[[]|]| | |].
Qed.

(** ** What can be undefined

    The operations whose exact result does not fit into 64 bits, and shifts by too much.  A
    zero divisor is none of them. *)

Definition fits (z : Z) : Prop := int64_min ≤ z ≤ int64_max.

(** The operation on [x] and [y] that the search in [raw] chooses is undefined. *)
Definition faults (k : bin_kind) (raw : string) (x y : Z) : Prop :=
  match k with
  | BMul => if has "*" raw then ¬ fits (x * y) else x = int64_min ∧ y = -1
  | BAddSub => if has "+" raw then ¬ fits (x + y) else ¬ fits (x - y)
  | BLshift => x < 0 ∨ y < 0 ∨ 64 ≤ y ∨ 2 ^ 64 ≤ x * 2 ^ y
  | BRshift => y < 0 ∨ 64 ≤ y
  | _ => False
  end.

Notation eval := (evaluateConstExpr types_ consts resolveTypeSpec).

(** An operation in [e] is undefined on the values of its operands. *)
Inductive undefined_at : expr → Prop :=
| undefined_bin k op l r x y :
    eval l = Ret (Some (intVal x)) → eval r = Ret (Some (intVal y)) →
    faults k (getText (EBin k op l r)) x y → undefined_at (EBin k op l r)
| undefined_neg e : eval e = Ret (Some (intVal int64_min)) → undefined_at (EUnary UNeg e)
| undefined_in e e' : e' ∈ children e → undefined_at e' → undefined_at e.

Lemma chk64_undef z : chk64 z = Undef → ¬ fits z.
Proof.
  unfold chk64, fits. destruct (in_int64 z) eqn:E; [done|]. intros _ H. by apply in_int64_spec in H as ?; congruence.
Qed.

Lemma quot_range x y : in_int64 x = true → in_int64 y = true → y ≠ 0 → in_int64 (Z.quot x y) = false →
  x = int64_min ∧ y = -1.
Proof.
  rewrite !in_int64_spec. intros Hx Hy H0 Hq. destruct (decide (x = int64_min ∧ y = -1)) as [|Hne]; [done|].
  exfalso. assert (in_int64 (Z.quot x y) = true); [|congruence]. apply in_int64_spec.
  unfold int64_min, int64_max in *. pose proof (Z.quot_rem' x y) as Hdiv. pose proof (Z.rem_bound_abs x y H0) as Hrem.
  pose proof (Z.quot_abs x y H0) as Habs. pose proof (Z.quot_le_upper_bound (Z.abs x) (Z.abs y) (Z.abs x)).
  pose proof (Z.quot_pos (Z.abs x) (Z.abs y)).
  destruct (decide (Z.abs y = 1)); [|pose proof (Z.quot_lt (Z.abs x) (Z.abs y)); destruct (decide (x = 0)) as [->|]; [rewrite Z.quot_0_l; lia|lia]].
  assert (y = 1 ∨ y = -1) as [-> | ->] by lia.
  - rewrite Z.quot_1_r. lia.
  - change (-1) with (- (1)). rewrite Z.quot_opp_r, Z.quot_1_r by lia. lia.
Qed.

Lemma some_int_undef m : some_int m = Undef → m = Undef.
Proof. by destruct m. Qed.

Lemma evalBinOp_undef k raw a b : value_ok a = true → value_ok b = true → evalBinOp k raw a b = Undef →
  ∃ x y, a = intVal x ∧ b = intVal y ∧ faults k raw x y.
Proof.
  intros Ha Hb. destruct a as [|x| | | | | | |], b as [|y| | | | | | |]; destruct k; simpl in Ha, Hb |- *;
    unfold evalMul, evalAddSub, evalRel, evalEq, evalLogical, evalNullCoal, onInts; cbv zeta;
    try done; try (by repeat case_match); intros H; exists x, y; (split; [done|]); (split; [done|]).
  - destruct (has "*" raw); [by apply some_int_undef, chk64_undef in H|].
    destruct (has "/" raw); [|destruct (has "%" raw); [|done]];
      (destruct (Z.eqb_spec y 0); [done|]); apply some_int_undef in H; unfold div64, rem64, chk64 in H;
      rewrite (proj2 (Z.eqb_neq _ _)) in H by done; (destruct (in_int64 (Z.quot x y)) eqn:E; [done|]);
      by apply quot_range.
  - destruct (has "+" raw); [by apply some_int_undef, chk64_undef in H|].
    destruct (has "-" raw); [by apply some_int_undef, chk64_undef in H|done].
  - apply some_int_undef in H. unfold shl64, uint64_max in H.
    destruct (Z.ltb_spec x 0); [by left|]. destruct (Z.ltb_spec y 0); [auto|]. destruct (Z.leb_spec 64 y); [auto|].
    cbn [orb] in H. destruct (Z.ltb_spec (2 ^ 64 - 1) (Z.shiftl x y)); [|done].
    rewrite Z.shiftl_mul_pow2 in * by done. do 3 right. lia.
  - apply some_int_undef in H. unfold shr64 in H.
    destruct (Z.ltb_spec y 0); [by left|]. destruct (Z.leb_spec 64 y); [by right|done].
Qed.

Lemma evalUnary_undef k v : value_ok v = true → evalUnary k v = Undef → k = UNeg ∧ v = intVal int64_min.
Proof.
  intros Hv H. destruct k, v as [|x| | | | | | |]; try done. split; [done|].
  apply some_int_undef, chk64_undef in H. simpl in Hv. apply in_int64_spec in Hv.
  unfold fits, int64_min, int64_max in *. f_equal. lia.
Qed.

Lemma evalCall_undef ev name args : evalCall ev name args = Undef → ∃ a, a ∈ default [] args ∧ ev a = Undef.
Proof.
  destruct args as [args|]; [|done]. cbn [evalCall default].
  assert (Hall : evalAll ev args = Undef → ∃ a, a ∈ args ∧ ev a = Undef).
  { induction args as [|a args IH]; simpl; [done|]. intros H.
    destruct (ev a) as [[[]|]| | |] eqn:E; simpl in H; try done; repeat case_match; simplify_eq;
      try (destruct (IH H) as (a' & ? & ?); exists a'; split; [by right|done]); exists a; split; (by left || done). }
  assert (Hany : evalAny ev args = Undef → ∃ a, a ∈ args ∧ ev a = Undef).
  { clear Hall. induction args as [|a args IH]; simpl; [done|]. intros H.
    destruct (ev a) as [[[]|]| | |] eqn:E; simpl in H; try done; repeat case_match; simplify_eq;
      try (destruct (IH H) as (a' & ? & ?); exists a'; split; [by right|done]); exists a; split; (by left || done). }
  repeat (case_bool_decide; [done|]). case_bool_decide; [|done].
  destruct args as [|a [|]]; try done. simpl. intros Hu. exists a. split; [by left|]. by destruct (ev a) as [[]| | |].
Qed.

(** C16: Evaluating a constant expression, when the constants it names and the types it asks
    about hold machine-width numbers, always ends in a 64-bit value or in no value and never
    lets an exception escape, unless an operation in the expression is undefined in C++ on the
    values of its operands: a sum, difference, product or negation that overflows, a shift of a
    negative number, out of range or by 64 bits and more, or the quotient of the least number by
    -1.  Division by zero is never undefined. *)
Theorem evaluateConstExpr_safe e :
  map_Forall (λ _ v, value_ok v = true) consts →
  (∀ n ti v, reg_lookup types_ n = Some ti → v ∈ ti_enumVariantInfos ti →
     0 ≤ ev_discriminant v < 2 ^ 32) →
  (∀ ty ti, resolveTypeSpec ty = Some ti → 0 ≤ ti_bitWidth ti < 2 ^ 32) →
  match eval e with
  | Ret (Some v) => value_ok v = true
  | Ret None => True
  | Undef => undefined_at e
  | Throw _ | NoFuel => False
  end.
Proof.
  intros Hconsts Henum Hwidth.
  enough (H : value_or_undef (eval e) ∧ (eval e = Undef → undefined_at e)).
  { destruct H as [H1 H2]. destruct (eval e) as [[]| | |]; auto. }
  revert e. refine (expr_children_ind _ _). intros e IH.
  assert (Hvar : ∀ en vn, value_or_undef (Ret (findEnumVariant types_ en vn))).
  { intros en vn. unfold findEnumVariant. destruct (reg_lookup types_ en) as [ti|] eqn:E; [|done].
    destruct (hasKind _ _); [|done].
    destruct (list_find _ _) as [[i v]|] eqn:Ef; [|done]. simpl.
    apply list_find_Some in Ef as (Hi & _ & _).
    pose proof (Henum _ _ v E ltac:(by eapply list_elem_of_lookup_2)).
    apply in_int64_spec. unfold int64_min, int64_max. lia. }
  assert (Hin : ∀ e', e' ∈ children e → eval e' = Undef → undefined_at e).
  { intros e' He' Hu. apply (undefined_in e e' He'). rewrite Forall_forall in IH. by apply IH. }
  destruct e as [k t|n| |k e|k op l r|c t f|callee args| | | | |ty| | | |? e| | | | | | | | | | | | | |];
    simpl in IH; try (split; [done|by intros]); try (split; [by apply Hvar|by intros]);
    repeat match goal with H : Forall _ (_ :: _) |- _ => apply Forall_cons in H as [[? ?] H] end;
    try (split; [done|intros Hu; eapply Hin; [apply list_elem_of_here|exact Hu]]).
  - split; [apply evalLit_good|]. intros Hu. exfalso. revert Hu. cbn [evaluateConstExpr]. apply evalLit_defined.
  - simpl. split; [|done]. destruct (consts !! n) eqn:E; [by eapply Hconsts|done].
  - cbn [evaluateConstExpr] in *. pose proof (Hin e (list_elem_of_here _ _)) as Hsub.
    destruct (eval e) as [[v|]| | |] eqn:E; destruct k; try done; try (by split; [|by intros]); try (by split; [|auto]);
      cbn [mbind outcome_bind]; (split; [by apply evalUnary_good|]); intros [Hk ->]%evalUnary_undef; try done.
    by apply undefined_neg.
  - pose proof (Hin l (list_elem_of_here _ _)) as Hl. pose proof (Hin r (list_elem_of_further _ _ _ (list_elem_of_here _ _))) as Hr.
    cbn [evaluateConstExpr] in *.
    destruct (eval l) as [[a|]| | |] eqn:El, (eval r) as [[b|]| | |] eqn:Er; try (by destruct k);
      destruct k; try (by split; [|by intros]); try (by split; [|auto]); cbn [mbind outcome_bind];
      (split; [by apply evalBinOp_good|]); intros (x & y & -> & -> & Hf)%evalBinOp_undef; try done;
      by eapply undefined_bin.
  - pose proof (Hin c (list_elem_of_here _ _)) as Hc.
    pose proof (Hin t (list_elem_of_further _ _ _ (list_elem_of_here _ _))) as Ht.
    pose proof (Hin f (list_elem_of_further _ _ _ (list_elem_of_further _ _ _ (list_elem_of_here _ _)))) as Hf.
    cbn [evaluateConstExpr] in *. destruct (eval c) as [[v|]| | |]; try (by split; [|by intros]); try (by split; [|auto]).
    cbn [mbind outcome_bind]. by destruct (isTrue v).
  - destruct callee; try (by split; [|by intros]). cbn [evaluateConstExpr]. split.
    + apply evalCall_good. eapply Forall_impl; [exact IH|]. by intros ? [].
    + intros (a & Ha & Hu)%evalCall_undef. eapply Hin; [|exact Hu]. simpl. by right.
  - simpl. split; [|done]. unfold evalSizeof. destruct (resolveTypeSpec ty) as [ti|] eqn:E; [|done].
    pose proof (Hwidth _ _ E). simpl. apply in_int64_spec. unfold int64_min, int64_max.
    assert (0 ≤ ti_bitWidth ti / 8 ≤ ti_bitWidth ti).
    { split; [apply Z.div_pos; lia|apply Z.div_le_upper_bound; lia]. }
    destruct (0 <? _); [lia|]. destruct (hasKind _ _); lia.
Qed.
End safety.

Lemma evaluateConstExpr_safe_witness :
  evaluateConstExpr ∅ {[ "N" := intVal 112 ]} (λ _, None) clean_example = Ret (Some (boolVal true)) ∧
  value_ok (boolVal true) = true ∧
  undefined_at ∅ ∅ (λ _, None) (EBin BLshift "<<" (num "1") (num "64")).
Proof.
  pose proof (evaluateConstExpr_safe ∅ {[ "N" := intVal 112 ]} (λ _, None) clean_example
    ltac:(by apply map_Forall_singleton) ltac:(intros n ti v H; vm_compute in H; discriminate H) ltac:(done)) as H1.
  pose proof (evaluateConstExpr_safe ∅ ∅ (λ _, None) (EBin BLshift "<<" (num "1") (num "64"))
    ltac:(apply map_Forall_empty) ltac:(intros n ti v H; vm_compute in H; discriminate H) ltac:(done)) as H2.
  assert (E1 : evaluateConstExpr ∅ {[ "N" := intVal 112 ]} (λ _, None) clean_example = Ret (Some (boolVal true)))
    by (vm_compute; reflexivity).
  assert (E2 : evaluateConstExpr ∅ ∅ (λ _, None) (EBin BLshift "<<" (num "1") (num "64")) = Undef)
    by (vm_compute; reflexivity).
  rewrite E1 in H1. rewrite E2 in H2. split; [exact E1|]. split; [exact H1|exact H2].
Defined.

(** Where constant evaluation leaves the language.  The operator search evaluates
    [100*2/4] to 800, [10-(2+3)] to 15 and [(1==1)!=true] to true, instead of 50, 5 and
    false.  The compiler itself runs into undefined behaviour on values that overflow, on
    shifts by 64 bits and on the quotient of the least number by -1, a trap on x86; division
    by zero alone is excluded.  Literals get wrong values when they have the separator [_],
    a leading zero, the octal prefix, an escape other than five, or a leading dot and a
    suffix; a value of [2^63] is 0. *)
Lemma evaluateConstExpr_departures types_ consts resolveTypeSpec :
  let ev := evaluateConstExpr types_ consts resolveTypeSpec in
  let ref := refEval types_ consts resolveTypeSpec in
  let e1 := EBin BMul "/" (EBin BMul "*" (num "100") (num "2")) (num "4") in
  let e2 := EBin BAddSub "-" (num "10") (EParen (EBin BAddSub "+" (num "2") (num "3"))) in
  let e3 := EBin BEq "!=" (EParen (EBin BEq "==" (num "1") (num "1"))) (ELit BoolLit "true") in
  let maxInt := num "9223372036854775807" in
  let minInt := EParen (EBin BAddSub "-" (EUnary UNeg maxInt) (num "1")) in
  ((getText e1 = "100*2/4" ∧ ev e1 = Ret (Some (intVal 800)) ∧ ref e1 = Ret (Some (intVal 50))) ∧
   (getText e2 = "10-(2+3)" ∧ ev e2 = Ret (Some (intVal 15)) ∧ ref e2 = Ret (Some (intVal 5))) ∧
   (getText e3 = "(1==1)!=true" ∧ ev e3 = Ret (Some (boolVal true)) ∧
    ref e3 = Ret (Some (boolVal false)))) ∧
  (ev minInt = Ret (Some (intVal int64_min)) ∧
   ev (EBin BAddSub "+" maxInt (num "1")) = Undef ∧
   ev (EUnary UNeg minInt) = Undef ∧
   ev (EBin BLshift "<<" (num "1") (num "64")) = Undef ∧
   ev (EBin BMul "/" minInt (EUnary UNeg (num "1"))) = Undef ∧
   ev (EBin BMul "/" minInt (num "0")) = Ret None) ∧
  (ev (ELit IntLit "1_000") = Ret (Some (intVal 1)) ∧
   ev (ELit IntLit "010") = Ret (Some (intVal 8)) ∧
   ev (ELit OctLit "0o17") = Ret (Some (intVal 0)) ∧
   ev (ELit CharLit "'\r'") = Ret (Some (intVal 114)) ∧
   ev (ELit CharLit "'\x41'") = Ret (Some (intVal 120)) ∧
   ev (ELit SuffixedLeadingDotFloatLit ".5f32") = Ret (Some (floatVal dzero)) ∧
   ev (ELit IntLit "9223372036854775808") = Ret (Some (intVal 0))).
Proof. vm_compute. tauto. Qed.

(** Any call of a bare name without arguments counts as true, even [any()] and the
    name of a function that does not exist, while a constant's validity asks the
    compile-time registry. *)
Lemma evaluateConstExpr_call_without_arguments types_ consts resolveTypeSpec name isComptime :
  isComptime name = false →
  evaluateConstExpr types_ consts resolveTypeSpec (ECall (EIdent name) None) =
    Ret (Some (boolVal true)) ∧
  isValidConstExpr isComptime (ECall (EIdent name) None) = false.
Proof. intros H. split; [done|]. simpl. by rewrite H. Qed.

Lemma evaluateConstExpr_call_witness :
  evaluateConstExpr ∅ ∅ (λ _, None) (ECall (EIdent "any") None) = Ret (Some (boolVal true)) ∧
  isValidConstExpr (λ _, false) (ECall (EIdent "any") None) = false.
Proof. by apply evaluateConstExpr_call_without_arguments. Defined.
