(* ===== verification/Comptime.v ===== *)
(** * The interpreter of compile-time functions

    [comptime/ComptimeInterpreter.cpp] and [comptime/ComptimeEngine.cpp].

    The state is the stack of frames, the innermost first.  Each [eval…] function of
    the class is a definition over the record [evaluators] of the functions it calls on
    sub-trees; [interp] ties the knot with fuel, of which every entry of a sub-tree or
    of a [while] iteration costs one unit.  An exception leaves the frames pushed when
    it was thrown on the stack, as the code does.

    A [NakedBlockStmtContext] is read through a pointer to [BlockContext]; both have a
    list of statements, and the model takes those of the former. *)

From S2P Require Import Prelude CxxLib TypeInfo CFloat Syntax ComptimeValue ConstEval.
Local Open Scope Z_scope.

Notation locals := (gmap string ComptimeValue).
Notation frames := (list (gmap string ComptimeValue)).
Notation I A := (M (list (gmap string ComptimeValue)) A).

Record evaluators := {
  ev_expr : expr → I ComptimeValue;
  ev_stmt : stmt → I ComptimeValue;
  ev_while : expr → block → I ComptimeValue }.

(** ** Frames *)

(** [frames_.back().locals[x] = v] *)
Definition setLocal (x : string) (v : ComptimeValue) : I unit := λ s,
  match s with
  | f :: fs => ROk () (<[x := v]> f :: fs)
  | [] => RUndef
  end.

Definition pushFrame (f : locals) : I unit := modifyS (cons f).
Definition popFrame : I unit := λ s,
  match s with
  | _ :: fs => ROk () fs
  | [] => RUndef
  end.

Fixpoint lookupVar (x : string) (fs : frames) : option ComptimeValue :=
  match fs with
  | [] => None
  | f :: fs => match f !! x with Some v => Some v | None => lookupVar x fs end
  end.

(** Position of the innermost frame with the variable. *)
Fixpoint findFrame (x : string) (fs : frames) : option nat :=
  match fs with
  | [] => None
  | f :: fs => match f !! x with Some _ => Some 0%nat | None => S <$> findFrame x fs end
  end.

Fixpoint bindParams (ps : list (option string)) (args : list ComptimeValue) (f : locals) : locals :=
  match ps, args with
  | [], _ | _, [] => f
  | p :: ps, a :: args =>
      bindParams ps args match p with Some x => <[x := a]> f | None => f end
  end.

Section interpreter.
Context (registry_ : ComptimeRegistry).
(** The callback for the expressions the interpreter does not know; the program never
    sets it. *)
Context (constEval_ : option (expr → outcome (option ComptimeValue))).

(** ** Statements *)

(** The statements in order, up to the first one whose result is not void. *)
Fixpoint evalBlock (E : evaluators) (b : block) : I ComptimeValue :=
  match b with
  | [] => mret voidVal
  | s :: b =>
      result ← ev_stmt E s;
      if is_void result then evalBlock E b else mret result
  end.

(** [evaluate], and the second half of [evalFnCall]. *)
Definition evaluate (E : evaluators) (func : FunctionDecl) (args : list ComptimeValue)
    : I ComptimeValue :=
  pushFrame (bindParams (fn_params func) args ∅);;
  result ← evalBlock E (fn_block func);
  popFrame;;
  mret result.

Definition evalArgs (E : evaluators) (args : option (list expr)) : I (list ComptimeValue) :=
  mapM_ (ev_expr E) (default [] args).

Definition evalReturn (E : evaluators) (e : option expr) : I ComptimeValue :=
  match e with None => mret voidVal | Some e => ev_expr E e end.

Definition evalIfBody (E : evaluators) (b : if_body) : I ComptimeValue :=
  match b with IfBlock b => evalBlock E b | IfStmt _ => mret voidVal end.

Fixpoint evalElseIfs (E : evaluators) (elifs : list else_if) (els : option if_body)
    : I ComptimeValue :=
  match elifs with
  | [] => match els with Some b => evalIfBody E b | None => mret voidVal end
  | ElseIf cond body :: elifs =>
      ec ← ev_expr E cond;
      if isTrue ec then evalIfBody E body else evalElseIfs E elifs els
  end.

Definition evalIf (E : evaluators) (cond : expr) (body : if_body) (elifs : list else_if)
    (els : option if_body) : I ComptimeValue :=
  c ← ev_expr E cond;
  if isTrue c then evalIfBody E body else evalElseIfs E elifs els.

(** Only the first declarator is looked at. *)
Definition evalVarDecl (E : evaluators) (decls : list (string * option expr)) : I ComptimeValue :=
  match decls with
  | [] => mret voidVal
  | (_, None) :: _ => mret voidVal
  | (x, Some e) :: _ => v ← ev_expr E e; setLocal x v;; mret voidVal
  end.

(** [expression(0)] of [x[i]… = rhs] is the first index when there is one. *)
Definition evalAssign (E : evaluators) (x : string) (indices : list expr) (rhs : expr)
    : I ComptimeValue :=
  v ← ev_expr E (match indices with i :: _ => i | [] => rhs end);
  setLocal x v;;
  mret voidVal.

Definition some_z (m : outcome Z) : outcome (option Z) := z ← m; Ret (Some z).

(** The new value of an integer variable; [None] leaves it as it is. *)
Definition compoundOp (op : string) (x y : Z) : outcome (option Z) :=
  if bool_decide (op = "+=") then some_z (add64 x y) else
  if bool_decide (op = "-=") then some_z (sub64 x y) else
  if bool_decide (op = "*=") then some_z (mul64 x y) else
  if bool_decide (op = "/=") then if y =? 0 then Ret (Some 0) else some_z (div64 x y) else
  if bool_decide (op = "%=") then if y =? 0 then Ret (Some 0) else some_z (rem64 x y) else
  if bool_decide (op = "&=") then Ret (Some (Z.land x y)) else
  if bool_decide (op = "|=") then Ret (Some (Z.lor x y)) else
  Ret None.

(** The variable is located before the right-hand side is evaluated and read after. *)
Definition evalCompoundAssign (E : evaluators) (name op : string) (rhs : expr) : I ComptimeValue :=
  fs ← getS;
  match findFrame name fs with
  | None => mret voidVal
  | Some i =>
      r ← ev_expr E rhs;
      fs ← getS;
      match fs !! i ≫= lookup name with
      | None => λ _, RUndef
      | Some (intVal x) =>
          match r with
          | intVal y =>
              z ← liftO (compoundOp op x y);
              match z with
              | Some z => putS (alter (<[name := intVal z]>) i fs);; mret voidVal
              | None => mret voidVal
              end
          | _ => mret voidVal
          end
      | Some _ => mret voidVal
      end
  end.

(** The range loops: [more] is the loop condition on the variable, and the bound is
    large enough for every iteration ([rangeLoop_bound]). *)
Fixpoint rangeLoop (E : evaluators) (var : string) (body : block) (more : Z → bool)
    (bound : nat) (i : Z) : I ComptimeValue :=
  if more i then
    match bound with
    | O => noFuel
    | S bound =>
        setLocal var (intVal i);;
        result ← evalBlock E body;
        if is_void result then
          j ← liftO (add64 i 1);
          rangeLoop E var body more bound j
        else mret result
    end
  else mret voidVal.

Definition evalRange (E : evaluators) (var : string) (body : block) (inclusive : bool)
    (l r : expr) : I ComptimeValue :=
  start ← ev_expr E l;
  stop ← ev_expr E r;
  match start, stop with
  | intVal a, intVal b =>
      rangeLoop E var body (λ i, if inclusive then i <=? b else i <? b) (Z.to_nat (b - a + 1)) a
  | _, _ => mret voidVal
  end.

Fixpoint listLoop (E : evaluators) (var : string) (body : block) (l : list ComptimeValue)
    : I ComptimeValue :=
  match l with
  | [] => mret voidVal
  | x :: l =>
      setLocal var x;;
      result ← evalBlock E body;
      if is_void result then listLoop E var body l else mret result
  end.

Definition evalForIn (E : evaluators) (var : string) (iter : expr) (body : block)
    : I ComptimeValue :=
  match iter with
  | EBin BRange _ l r => evalRange E var body false l r
  | EBin BRangeIncl _ l r => evalRange E var body true l r
  | _ =>
      iterable ← ev_expr E iter;
      match iterable with
      | listVal l => listLoop E var body l
      | _ => mret voidVal
      end
  end.

(** One round of the loop; the next one is [ev_while]. *)
Definition evalWhile (E : evaluators) (cond : expr) (body : block) : I ComptimeValue :=
  c ← ev_expr E cond;
  if isTrue c then
    r ← evalBlock E body;
    if is_void r then ev_while E cond body else mret r
  else mret voidVal.

(** ** Calls and matches *)

Definition evalFnCall (E : evaluators) (callee : expr) (args : option (list expr))
    : I ComptimeValue :=
  match callee with
  | EIdent name =>
      match builtin_lookup name with
      | Some fn => vs ← evalArgs E args; liftO (fn vs)
      | None =>
          match cr_lookup registry_ name with
          | None => mret voidVal
          | Some decl => vs ← evalArgs E args; evaluate E decl vs
          end
      end
  | _ => mret voidVal
  end.

(** A call statement, for which only registered functions count. *)
Definition evalCallStmt (E : evaluators) (name : string) (args : option (list expr))
    : I ComptimeValue :=
  if isComptime registry_ name then
    vs ← evalArgs E args;
    match cr_lookup registry_ name with
    | Some decl => evaluate E decl vs
    | None => mret voidVal
    end
  else mret voidVal.

(** [arm->expression()]: the guard is one of them, and comes first. *)
Definition armExprs (guard : option expr) (body : arm_body) : list expr :=
  opt_list guard ++ match body with BodyExpr e => [e] | _ => [] end.

(** The block of the arm or else its first expression; [None] when it has neither. *)
Definition runArm (E : evaluators) (guard : option expr) (body : arm_body)
    : option (I ComptimeValue) :=
  match body with
  | BodyBlock b => Some (evalBlock E b)
  | _ => match armExprs guard body with e :: _ => Some (ev_expr E e) | [] => None end
  end.

(** The patterns of one arm; [None] goes on to the next arm. *)
Fixpoint evalPatterns (E : evaluators) (v : ComptimeValue) (guard : option expr) (body : arm_body)
    (pats : list pattern) : I (option ComptimeValue) :=
  let run (k : I (option ComptimeValue)) : I (option ComptimeValue) :=
    match runArm E guard body with Some m => r ← m; mret (Some r) | None => k end in
  match pats with
  | [] => mret None
  | pat :: pats =>
      let next := evalPatterns E v guard body pats in
      match (match pat with PatIds ids => ids | _ => [] end) with
      | [] => run next
      | varName :: bindName :: _ =>
          match v with
          | structVal m =>
              match struct_find varName m with
              | Some field => setLocal bindName field;; run (mret (Some field))
              | None => next
              end
          | _ => next
          end
      | [name] =>
          if bool_decide (name = "_") then run next else
          match v with
          | structVal m =>
              match struct_find name m with
              | Some _ => run next
              | None => setLocal name v;; mret (Some v)
              end
          | _ => setLocal name v;; mret (Some v)
          end
      end
  end.

Fixpoint evalArms (E : evaluators) (v : ComptimeValue) (arms : list match_arm) : I ComptimeValue :=
  match arms with
  | [] => mret voidVal
  | Arm pats guard body :: arms =>
      match pats with
      | [] => match runArm E guard body with Some m => m | None => evalArms E v arms end
      | _ =>
          r ← evalPatterns E v guard body pats;
          match r with Some r => mret r | None => evalArms E v arms end
      end
  end.

Definition evalMatch (E : evaluators) (e : expr) (arms : list match_arm) : I ComptimeValue :=
  v ← ev_expr E e;
  evalArms E v arms.

(** ** Dispatch *)

Definition evalStmt (E : evaluators) (s : stmt) : I ComptimeValue :=
  match s with
  | SReturn e => evalReturn E e
  | SIf cond body elifs els => evalIf E cond body elifs els
  | SVarDecl decls => evalVarDecl E decls
  | SAssign x indices rhs => evalAssign E x indices rhs
  | SCompoundAssign x op rhs => evalCompoundAssign E x op rhs
  | SWhile cond body => evalWhile E cond body
  | SForIn var iter body => evalForIn E var iter body
  | SExpr (ECall f args) => evalFnCall E f args
  | SExpr (EMatch e arms _) => evalMatch E e arms
  | SCall name args => evalCallStmt E name args
  | SNakedBlock body => evalBlock E body
  | _ => mret voidVal
  end.

Definition evalRelExpr (op : string) (l r : ComptimeValue) : ComptimeValue :=
  match l, r with
  | intVal x, intVal y =>
      if bool_decide (op = "<") then boolVal (x <? y) else
      if bool_decide (op = ">") then boolVal (y <? x) else
      if bool_decide (op = "<=") then boolVal (x <=? y) else
      if bool_decide (op = ">=") then boolVal (y <=? x) else voidVal
  | _, _ => voidVal
  end.

Definition evalEqExpr (op : string) (l r : ComptimeValue) : ComptimeValue :=
  match l, r with
  | intVal x, intVal y =>
      if bool_decide (op = "==") then boolVal (x =? y) else
      if bool_decide (op = "!=") then boolVal (negb (x =? y)) else voidVal
  | _, _ => voidVal
  end.

Definition evalAddSubExpr (op : string) (l r : ComptimeValue) : outcome ComptimeValue :=
  match l, r with
  | intVal x, intVal y =>
      if bool_decide (op = "+") then z ← add64 x y; Ret (intVal z) else
      if bool_decide (op = "-") then z ← sub64 x y; Ret (intVal z) else Ret l
  | floatVal x, floatVal y =>
      if bool_decide (op = "+") then Ret (floatVal (dadd x y)) else
      if bool_decide (op = "-") then Ret (floatVal (dsub x y)) else Ret l
  | _, _ => Ret l
  end.

Definition evalMulExpr (op : string) (l r : ComptimeValue) : outcome ComptimeValue :=
  match l, r with
  | intVal x, intVal y =>
      if bool_decide (op = "*") then z ← mul64 x y; Ret (intVal z) else
      if bool_decide (op = "/") then
        if y =? 0 then Ret (intVal 0) else z ← div64 x y; Ret (intVal z) else
      if bool_decide (op = "%") then
        if y =? 0 then Ret (intVal 0) else z ← rem64 x y; Ret (intVal z) else Ret l
  | _, _ => Ret l
  end.

Definition evalBitAndExpr (l r : ComptimeValue) : ComptimeValue :=
  match l, r with
  | intVal x, intVal y => intVal (Z.land x y)
  | _, _ => l
  end.

Definition evalUnaryExpr (k : un_kind) (v : ComptimeValue) : outcome ComptimeValue :=
  match k, v with
  | UNeg, intVal x => z ← neg64 x; Ret (intVal z)
  | UNeg, floatVal x => Ret (floatVal (dneg x))
  | ULogicalNot, boolVal b => Ret (boolVal (negb b))
  | ULogicalNot, intVal x => Ret (intVal (Z.lnot x))
  | _, _ => Ret v
  end.

(** [list[i]]; the index is converted to an unsigned number. *)
Definition evalIndexExpr (base index : ComptimeValue) : ComptimeValue :=
  match base, index with
  | listVal l, intVal i =>
      if to_uint64 i <? Z.of_nat (length l) then default voidVal (l !! Z.to_nat (to_uint64 i))
      else voidVal
  | _, _ => voidVal
  end.

Definition stripQuotes (raw : string) : string :=
  if (2 <=? String.length raw)%nat then str_take (String.length raw - 2) (str_drop 1 raw) else raw.

Definition evalLitExpr (k : lit_kind) (text : string) : option (outcome ComptimeValue) :=
  match k with
  | IntLit => Some (z ← stoll 10 text; Ret (intVal z))
  | FloatLit => Some (d ← stod text; Ret (floatVal d))
  | BoolLit => Some (Ret (boolVal (bool_decide (text = "true"))))
  | StrLit => Some (Ret (stringVal (stripQuotes text)))
  | _ => None
  end.

(** The tail of [evalExpr], for the expressions it does not know. *)
Definition evalUnknown (e : expr) : outcome ComptimeValue :=
  match constEval_ with
  | Some f => r ← f e; Ret (default voidVal r)
  | None => Ret voidVal
  end.

Definition evalBinary (E : evaluators) (l r : expr)
    (f : ComptimeValue → ComptimeValue → outcome ComptimeValue) : I ComptimeValue :=
  a ← ev_expr E l;
  b ← ev_expr E r;
  liftO (f a b).

Definition evalExpr (E : evaluators) (e : expr) : I ComptimeValue :=
  match e with
  | ELit k text =>
      match evalLitExpr k text with Some m => liftO m | None => liftO (evalUnknown e) end
  | EIdent name => fs ← getS; mret (default voidVal (lookupVar name fs))
  | EIndex base index =>
      evalBinary E base index (λ a b, Ret (evalIndexExpr a b))
  | ECall f args => evalFnCall E f args
  | EMatch x arms _ => evalMatch E x arms
  | EUnary ((UNeg | ULogicalNot) as k) x => v ← ev_expr E x; liftO (evalUnaryExpr k v)
  | EBin BRel op l r => evalBinary E l r (λ a b, Ret (evalRelExpr op a b))
  | EBin BEq op l r => evalBinary E l r (λ a b, Ret (evalEqExpr op a b))
  | EBin BAddSub op l r => evalBinary E l r (evalAddSubExpr op)
  | EBin BMul op l r => evalBinary E l r (evalMulExpr op)
  | EBin BBitAnd _ l r => evalBinary E l r (λ a b, Ret (evalBitAndExpr a b))
  | EParen x => ev_expr E x
  | _ => liftO (evalUnknown e)
  end.

(** ** Tying the knot *)

Fixpoint interp (fuel : nat) : evaluators :=
  match fuel with
  | O => {| ev_expr := λ _, noFuel; ev_stmt := λ _, noFuel; ev_while := λ _ _, noFuel |}
  | S fuel =>
      {| ev_expr := λ e, evalExpr (interp fuel) e;
         ev_stmt := λ s, evalStmt (interp fuel) s;
         ev_while := λ c b, evalWhile (interp fuel) c b |}
  end.
End interpreter.

(** ** The engine

    The interpreter is made on the first evaluation after the type registry was set,
    with the callback of that moment, and keeps its frames from one evaluation to the
    next. *)

Record Engine := {
  eng_typesSet : bool;
  eng_constEval : option (expr → outcome (option ComptimeValue));
  eng_interp : option (option (expr → outcome (option ComptimeValue)) * frames);
  eng_registry : ComptimeRegistry }.

Definition newEngine : Engine :=
  {| eng_typesSet := false; eng_constEval := None; eng_interp := None; eng_registry := ∅ |}.

#[export] Instance settable_Engine : Settable Engine := λ r,
  Build_Engine (eng_typesSet r) (eng_constEval r) (eng_interp r) (eng_registry r).

Definition setTypeRegistry (g : Engine) : Engine := g <| eng_typesSet := true |>.
Definition setConstEvalFn (f : expr → outcome (option ComptimeValue)) (g : Engine) : Engine :=
  g <| eng_constEval := Some f |>.

Definition engine_evaluate (fuel : nat) (func : FunctionDecl) (args : list ComptimeValue)
    : M Engine ComptimeValue := λ g,
  let cell := match eng_interp g with
              | Some c => Some c
              | None => if eng_typesSet g then Some (eng_constEval g, []) else None
              end in
  match cell with
  | None => ROk voidVal g
  | Some (ce, fs) =>
      match evaluate (interp (eng_registry g) ce fuel) func args fs with
      | ROk v fs' => ROk v (g <| eng_interp := Some (ce, fs') |>)
      | RThrow e fs' => RThrow e (g <| eng_interp := Some (ce, fs') |>)
      | RUndef => RUndef
      | RNoFuel => RNoFuel
      end
  end.

(** ** More fuel changes nothing *)

Definition extends {A} (m m' : I A) : Prop := ∀ s, m s ≠ RNoFuel → m' s = m s.

Lemma fuel_extends_refl {A} (m : I A) : extends m m.
Proof. by intros s _. Qed.
Lemma extends_noFuel {A} (m : I A) : extends noFuel m.
Proof. by intros s H. Qed.
Lemma extends_bind {A B} (m m' : I A) (f f' : A → I B) :
  extends m m' → (∀ a, extends (f a) (f' a)) → extends (m ≫= f) (m' ≫= f').
Proof.
  intros Hm Hf s. unfold mbind, M_bind. intros H.
  rewrite (Hm s); [|by destruct (m s)].
  destruct (m s) as [a s'|? ?| |]; try done. by apply Hf.
Qed.

Record evaluators_extend (E E' : evaluators) : Prop := {
  extend_expr e : extends (ev_expr E e) (ev_expr E' e);
  extend_stmt s : extends (ev_stmt E s) (ev_stmt E' s);
  extend_while c b : extends (ev_while E c b) (ev_while E' c b) }.

Create HintDb comptime discriminated.
#[export] Hint Resolve fuel_extends_refl extends_noFuel extend_expr extend_stmt extend_while : comptime.

(** Goes through the binds and the case distinctions of a handler. *)
Ltac extend :=
  repeat match goal with
  | |- extends (_ ≫= _) (_ ≫= _) => apply extends_bind; [|intros ?]
  | |- extends (match ?x with _ => _ end) _ => destruct x
  end; auto with comptime.

Section monotone.
Context (registry_ : ComptimeRegistry).
Context (constEval_ : option (expr → outcome (option ComptimeValue))).
Context (E E' : evaluators) (HE : evaluators_extend E E').

Lemma evalBlock_extend b : extends (evalBlock E b) (evalBlock E' b).
Proof. induction b; simpl; extend. Qed.
Lemma evaluate_extend f args : extends (evaluate E f args) (evaluate E' f args).
Proof. unfold evaluate. pose proof evalBlock_extend. extend. Qed.
Lemma evalArgs_extend args : extends (evalArgs E args) (evalArgs E' args).
Proof. unfold evalArgs. induction (default [] args); simpl; extend. Qed.
Lemma evalIfBody_extend b : extends (evalIfBody E b) (evalIfBody E' b).
Proof. pose proof evalBlock_extend. destruct b; simpl; extend. Qed.
Lemma evalElseIfs_extend l els : extends (evalElseIfs E l els) (evalElseIfs E' l els).
Proof.
  pose proof evalIfBody_extend. induction l as [|[c b] l IH]; simpl; extend.
Qed.
Lemma rangeLoop_extend var body more n i :
  extends (rangeLoop E var body more n i) (rangeLoop E' var body more n i).
Proof. pose proof evalBlock_extend. revert i. induction n; intros i; simpl; extend. Qed.
Lemma listLoop_extend var body l : extends (listLoop E var body l) (listLoop E' var body l).
Proof. pose proof evalBlock_extend. induction l; simpl; extend. Qed.
Lemma evalRange_extend var body incl l r :
  extends (evalRange E var body incl l r) (evalRange E' var body incl l r).
Proof. pose proof rangeLoop_extend. unfold evalRange. extend. Qed.
Lemma evalForIn_extend var iter body :
  extends (evalForIn E var iter body) (evalForIn E' var iter body).
Proof.
  pose proof evalRange_extend. pose proof listLoop_extend.
  destruct iter; simpl; extend.
Qed.
Lemma evalFnCall_extend f args :
  extends (evalFnCall registry_ E f args) (evalFnCall registry_ E' f args).
Proof.
  pose proof evalArgs_extend. pose proof evaluate_extend. destruct f; simpl; extend.
Qed.
Lemma evalCallStmt_extend f args :
  extends (evalCallStmt registry_ E f args) (evalCallStmt registry_ E' f args).
Proof.
  pose proof evalArgs_extend. pose proof evaluate_extend. unfold evalCallStmt. extend.
Qed.

(** An arm that is run by one is run by the other. *)
Lemma runArm_extend guard body :
  match runArm E guard body, runArm E' guard body with
  | Some m, Some m' => extends m m'
  | None, None => True
  | _, _ => False
  end.
Proof.
  pose proof evalBlock_extend.
  destruct body; simpl; auto; destruct (armExprs _ _); auto with comptime.
Qed.
Lemma evalPatterns_extend v guard body pats :
  extends (evalPatterns E v guard body pats) (evalPatterns E' v guard body pats).
Proof.
  pose proof (runArm_extend guard body) as Hrun.
  induction pats as [|pat pats IH]; simpl; [extend|].
  destruct (runArm E guard body), (runArm E' guard body); try done;
    repeat (case_match; try done; extend).
Qed.
Lemma evalArms_extend v arms : extends (evalArms E v arms) (evalArms E' v arms).
Proof.
  pose proof evalPatterns_extend. induction arms as [|[pats guard body] arms IH]; simpl; [extend|].
  pose proof (runArm_extend guard body) as Hrun. destruct pats; [|extend].
  by destruct (runArm E guard body), (runArm E' guard body).
Qed.

#[local] Hint Resolve evalBlock_extend evaluate_extend evalArgs_extend evalIfBody_extend
  evalElseIfs_extend evalForIn_extend evalFnCall_extend evalCallStmt_extend evalArms_extend : comptime.

Lemma evalMatch_extend e arms : extends (evalMatch E e arms) (evalMatch E' e arms).
Proof. unfold evalMatch. extend. Qed.
Lemma evalWhile_extend c b : extends (evalWhile E c b) (evalWhile E' c b).
Proof. unfold evalWhile. extend. Qed.
Lemma evalStmt_extend s : extends (evalStmt registry_ E s) (evalStmt registry_ E' s).
Proof.
  pose proof evalMatch_extend. pose proof evalWhile_extend.
  destruct s; simpl; unfold evalReturn, evalIf, evalVarDecl, evalAssign, evalCompoundAssign;
    extend.
Qed.
Lemma evalExpr_extend e :
  extends (evalExpr registry_ constEval_ E e) (evalExpr registry_ constEval_ E' e).
Proof.
  pose proof evalMatch_extend.
  destruct e; simpl; unfold evalBinary; extend.
Qed.
End monotone.

Lemma interp_extend registry_ constEval_ n m :
  (n ≤ m)%nat → evaluators_extend (interp registry_ constEval_ n) (interp registry_ constEval_ m).
Proof.
  revert m. induction n as [|n IH]; intros m Hm.
  { split; intros; apply extends_noFuel. }
  destruct m as [|m]; [lia|]. assert (H := IH m ltac:(lia)).
  split; intros; simpl; [by apply evalExpr_extend|by apply evalStmt_extend|by apply evalWhile_extend].
Qed.

(** ** Frames are balanced and values stay in range *)

Definition frames_ok (fs : frames) : Prop :=
  Forall (map_Forall (λ _ v, value_ok v = true)) fs.

(** The same number of frames, none of which lost a variable. *)
Definition same_shape (fs fs' : frames) : Prop :=
  Forall2 (λ f f' : locals, dom f ⊆ dom f') fs fs'.

Definition keeps {A} (P : A → Prop) (m : I A) : Prop := ∀ s, frames_ok s →
  match m s with
  | ROk a s' => P a ∧ frames_ok s' ∧ same_shape s s'
  | RThrow _ s' => frames_ok s' ∧ (length s ≤ length s')%nat
  | RUndef | RNoFuel => True
  end.

Definition vok (v : ComptimeValue) : Prop := value_ok v = true.

#[export] Instance same_shape_po : PreOrder same_shape.
Proof.
  split; unfold same_shape.
  - intros fs. induction fs; constructor; auto.
  - intros a b c Hab. revert c. induction Hab; inversion 1; constructor; set_solver.
Qed.

Lemma keeps_ret {A} (P : A → Prop) a : P a → keeps P (mret a).
Proof. by intros Ha s Hs. Qed.
Lemma keeps_noFuel {A} (P : A → Prop) : keeps P noFuel.
Proof. by intros s Hs. Qed.
Lemma keeps_liftO {A} (P : A → Prop) (m : outcome A) :
  (∀ a, m = Ret a → P a) → keeps P (liftO m).
Proof. intros Ha s Hs. unfold liftO. destruct m; split_and?; auto. reflexivity. Qed.
Lemma keeps_bind {A B} (P : A → Prop) (Q : B → Prop) (m : I A) (f : A → I B) :
  keeps P m → (∀ a, P a → keeps Q (f a)) → keeps Q (m ≫= f).
Proof.
  intros Hm Hf s Hs. specialize (Hm s Hs). unfold mbind, M_bind.
  destruct (m s) as [a s'|e s'| |]; try done. destruct Hm as (Ha & Hs' & Hsh).
  specialize (Hf a Ha s' Hs'). destruct (f a s') as [b s''|e s''| |]; try done.
  - destruct Hf as (? & ? & ?). split_and!; try done. by etrans.
  - destruct Hf. split; [done|]. pose proof (Forall2_length _ _ _ Hsh). lia.
Qed.
Lemma keeps_weaken {A} (P Q : A → Prop) m : (∀ a, P a → Q a) → keeps P m → keeps Q m.
Proof. intros HPQ Hm s Hs. specialize (Hm s Hs). destruct (m s); naive_solver. Qed.

Lemma keeps_setLocal x v : vok v → keeps (λ _, True) (setLocal x v).
Proof.
  intros Hv s Hs. destruct s as [|f fs]; simpl; [done|]. inversion Hs; subst. split_and!; [done| |].
  - constructor; [|done]. by apply map_Forall_insert_2.
  - constructor; [set_solver|]. reflexivity.
Qed.

Lemma bindParams_ok ps args f :
  Forall vok args → map_Forall (λ _ v, value_ok v = true) f →
  map_Forall (λ _ v, value_ok v = true) (bindParams ps args f).
Proof.
  intros Hargs. revert ps f. induction Hargs as [|a args Ha _ IH]; intros [|p ps] f Hf; simpl; auto.
  apply IH. destruct p; [|done]. by apply map_Forall_insert_2.
Qed.

Lemma lookupVar_ok x fs v : frames_ok fs → lookupVar x fs = Some v → vok v.
Proof.
  induction 1 as [|f fs Hf _ IH]; simpl; [done|].
  destruct (f !! x) eqn:E; [|auto]. intros [= <-]. by eapply Hf.
Qed.

Lemma same_shape_lookup fs fs' i (f : locals) :
  same_shape fs fs' → fs !! i = Some f → ∃ f', fs' !! i = Some f' ∧ dom f ⊆ dom f'.
Proof. intros H Hi. by apply (Forall2_lookup_l _ _ _ _ _ H Hi). Qed.

Lemma findFrame_lookup x fs i :
  findFrame x fs = Some i → ∃ f v, fs !! i = Some f ∧ f !! x = Some v.
Proof.
  revert i. induction fs as [|f fs IH]; simpl; [done|]. intros i.
  destruct (f !! x) eqn:E; [by intros [= <-]; eauto|].
  destruct (findFrame x fs) as [j|]; [|done]. intros [= <-]. simpl. eauto.
Qed.

(** Setting a variable of the [i]-th frame to a value in range. *)
Lemma alter_keeps (fs : frames) i x z :
  frames_ok fs → in_int64 z = true →
  frames_ok (alter <[x := intVal z]> i fs) ∧ same_shape fs (alter <[x := intVal z]> i fs).
Proof.
  intros Hfs Hz. split.
  - apply Forall_alter; [done|]. intros f _ Hf. by apply map_Forall_insert_2.
  - apply Forall2_same_length_lookup. split; [by rewrite length_alter|].
    intros j f f' Hf Hf'. destruct (decide (i = j)) as [->|Hne].
    + rewrite list_lookup_alter_eq, Hf in Hf'. simpl in Hf'. injection Hf' as <-. rewrite dom_insert. set_solver.
    + rewrite list_lookup_alter_ne in Hf' by done. by simplify_eq.
Qed.

Lemma some_z_ok m z : int_or_undef m → some_z m = Ret (Some z) → in_int64 z = true.
Proof. destruct m; simpl; intros; by simplify_eq. Qed.

Lemma compoundOp_ok op x y z :
  in_int64 x = true → in_int64 y = true → compoundOp op x y = Ret (Some z) → in_int64 z = true.
Proof.
  intros Hx Hy. unfold compoundOp.
  repeat case_match; intros Hz; simplify_eq; auto with lucis;
    eapply some_z_ok, Hz; auto with lucis; apply chk64_good.
Qed.

Record evaluators_keep (E : evaluators) : Prop := {
  keep_expr e : keeps vok (ev_expr E e);
  keep_stmt s : keeps vok (ev_stmt E s);
  keep_while c b : keeps vok (ev_while E c b) }.

#[export] Hint Resolve keeps_noFuel keep_expr keep_stmt keep_while : comptime.
#[export] Hint Resolve keeps_setLocal : comptime.

(** Goes through a handler; the value of each part is known to be in range. *)
Ltac keep :=
  repeat match goal with
  | |- keeps _ (mret _) => apply keeps_ret
  | |- keeps _ (setLocal _ _ ≫= _) => apply (keeps_bind (λ _, True)); [|intros ? _]
  | |- keeps _ (ev_expr _ _ ≫= _) => apply (keeps_bind vok); [|intros ? ?]
  | |- keeps _ (ev_stmt _ _ ≫= _) => apply (keeps_bind vok); [|intros ? ?]
  | |- keeps _ (evalBlock _ _ ≫= _) => apply (keeps_bind vok); [|intros ? ?]
  | |- keeps _ (match ?x with _ => _ end) => destruct x eqn:?
  end; subst; auto with comptime; try done.

Section keeps.
Context (registry_ : ComptimeRegistry).
Context (constEval_ : option (expr → outcome (option ComptimeValue))).
Context (HconstEval : ∀ f e v, constEval_ = Some f → f e = Ret (Some v) → vok v).
Context (E : evaluators) (HE : evaluators_keep E).

Lemma evalBlock_keeps b : keeps vok (evalBlock E b).
Proof. induction b; simpl; keep. Qed.
#[local] Hint Resolve evalBlock_keeps : comptime.

Lemma evaluate_keeps f args : Forall vok args → keeps vok (evaluate E f args).
Proof.
  intros Hargs s Hs. unfold evaluate, pushFrame, modifyS, mbind, M_bind.
  set (fr := bindParams _ _ _).
  assert (Hok : frames_ok (fr :: s)).
  { constructor; [|done]. by apply bindParams_ok. }
  pose proof (evalBlock_keeps (fn_block f) (fr :: s) Hok) as H.
  destruct (evalBlock E (fn_block f) (fr :: s)) as [v s'|e s'| |]; try done.
  - destruct H as (Hv & Hs' & Hsh). inversion Hsh; subst. simpl.
    inversion Hs'; subst. done.
  - simpl in H. destruct H. split; [done|lia].
Qed.

Lemma evalArgs_keeps args : keeps (Forall vok) (evalArgs E args).
Proof.
  unfold evalArgs. induction (default [] args) as [|a l IH]; simpl; keep.
  apply (keeps_bind (Forall vok)); [done|]. intros vs Hvs. apply keeps_ret. by constructor.
Qed.

Lemma evalIfBody_keeps b : keeps vok (evalIfBody E b).
Proof. destruct b; simpl; keep. Qed.
#[local] Hint Resolve evalIfBody_keeps : comptime.
Lemma evalElseIfs_keeps l els : keeps vok (evalElseIfs E l els).
Proof. induction l as [|[c b] l IH]; simpl; keep. Qed.
#[local] Hint Resolve evalElseIfs_keeps : comptime.

Lemma rangeLoop_keeps var body more n i :
  in_int64 i = true → keeps vok (rangeLoop E var body more n i).
Proof.
  revert i. induction n as [|n IH]; intros i Hi; simpl; keep.
  apply (keeps_bind (λ j, in_int64 j = true)); [|auto].
  apply keeps_liftO. intros j Hj. by apply chk64_inv in Hj as [-> ?].
Qed.
Lemma listLoop_keeps var body l : Forall vok l → keeps vok (listLoop E var body l).
Proof. induction 1; simpl; keep. Qed.
Lemma evalRange_keeps var body incl l r : keeps vok (evalRange E var body incl l r).
Proof. unfold evalRange. keep; by apply rangeLoop_keeps. Qed.
Lemma evalForIn_keeps var iter body : keeps vok (evalForIn E var iter body).
Proof.
  pose proof evalRange_keeps.
  assert (Hlist : ∀ l, vok (listVal l) → keeps vok (listLoop E var body l)).
  { intros l Hl. apply listLoop_keeps. apply Forall_forall. intros v Hv.
    unfold vok in Hl. simpl in Hl. rewrite forallb_forall in Hl. apply Hl.
    by apply list_elem_of_In. }
  destruct iter; simpl; keep.
Qed.

Lemma evalFnCall_keeps f args : keeps vok (evalFnCall registry_ E f args).
Proof.
  destruct f; simpl; keep; (apply (keeps_bind (Forall vok)); [apply evalArgs_keeps|intros vs Hvs]).
  - apply keeps_liftO. intros v. by eapply builtin_value_ok.
  - by apply evaluate_keeps.
Qed.
Lemma evalCallStmt_keeps f args : keeps vok (evalCallStmt registry_ E f args).
Proof.
  unfold evalCallStmt. destruct (isComptime _ _); [|by apply keeps_ret].
  apply (keeps_bind (Forall vok)); [apply evalArgs_keeps|intros vs Hvs]. keep.
  by apply evaluate_keeps.
Qed.

Lemma struct_find_ok x m v : vok (structVal m) → struct_find x m = Some v → vok v.
Proof.
  unfold vok, struct_find. simpl. rewrite forallb_forall. intros Hm Hv.
  apply fmap_Some in Hv as ([i p] & Hi & ->). apply list_find_Some in Hi as (Hi & _).
  apply Hm. apply list_elem_of_In. by eapply list_elem_of_lookup_2.
Qed.

Lemma runArm_keeps guard body m : runArm E guard body = Some m → keeps vok m.
Proof.
  unfold runArm. destruct body; try (intros [= <-]; keep);
    destruct (armExprs _ _); intros [= <-]; keep.
Qed.
Lemma evalPatterns_keeps v guard body pats : vok v →
  keeps (λ r, match r with Some r => vok r | None => True end) (evalPatterns E v guard body pats).
Proof.
  intros Hv.
  assert (Hrun : ∀ m, runArm E guard body = Some m →
    keeps (λ r, match r with Some r => vok r | None => True end) (r ← m; mret (Some r))).
  { intros m Hm. apply (keeps_bind vok); [by eapply runArm_keeps|]. intros. by apply keeps_ret. }
  induction pats as [|pat pats IH]; simpl; [by apply keeps_ret|].
  destruct (runArm E guard body) as [m|]; keep; eauto using struct_find_ok.
  all: by eapply keeps_setLocal, struct_find_ok.
Qed.
Lemma evalArms_keeps v arms : vok v → keeps vok (evalArms E v arms).
Proof.
  intros Hv. induction arms as [|[pats guard body] arms IH]; simpl; [by apply keeps_ret|].
  destruct pats as [|pat pats].
  - destruct (runArm E guard body) eqn:Er; [by eapply runArm_keeps|done].
  - eapply keeps_bind; [by apply evalPatterns_keeps|]. intros [r|] ?; keep.
Qed.
Lemma evalMatch_keeps e arms : keeps vok (evalMatch E e arms).
Proof. unfold evalMatch. keep. by apply evalArms_keeps. Qed.
#[local] Hint Resolve evalForIn_keeps evalFnCall_keeps evalCallStmt_keeps evalMatch_keeps : comptime.

Lemma evalCompoundAssign_keeps x op rhs : keeps vok (evalCompoundAssign E x op rhs).
Proof.
  intros s Hs. unfold evalCompoundAssign, getS. unfold mbind at 1, M_bind at 1.
  destruct (findFrame x s) as [i|]; [|by apply keeps_ret].
  pose proof (keep_expr E HE rhs s Hs) as H. unfold mbind at 1, M_bind at 1.
  destruct (ev_expr E rhs s) as [r s'|e s'| |]; try done. destruct H as (Hr & Hs' & Hsh).
  unfold mbind at 1, M_bind at 1.
  destruct (s' !! i ≫= lookup x) as [[|a| | | | | | |]|] eqn:Ha; try done.
  destruct r as [|b| | | | | | |]; try done.
  unfold liftO, mbind, M_bind, outcome_bind. destruct (compoundOp op a b) as [[z|]|e| |] eqn:Ez; try done.
  - apply bind_Some in Ha as (f & Hf & Ha).
    assert (Hz : in_int64 z = true).
    { eapply compoundOp_ok, Ez; [|exact Hr].
      exact (Forall_lookup_1 _ _ _ _ Hs' Hf _ _ Ha). }
    destruct (alter_keeps s' i x z Hs' Hz). simpl. split_and!; [done|done|]. by etrans.
  - simpl. split; [done|]. by rewrite (Forall2_length _ _ _ Hsh).
Qed.

Lemma evalWhile_keeps c b : keeps vok (evalWhile E c b).
Proof. unfold evalWhile. keep. Qed.

Lemma evalStmt_keeps s : keeps vok (evalStmt registry_ E s).
Proof.
  pose proof evalCompoundAssign_keeps. pose proof evalWhile_keeps.
  destruct s; simpl; unfold evalReturn, evalIf, evalVarDecl, evalAssign; keep.
Qed.

Lemma unary_ok k v r : vok v → evalUnaryExpr k v = Ret r → vok r.
Proof.
  unfold vok. intros Hv. destruct k, v; simpl; intros Hr; simplify_eq; try done.
  - apply outcome_bind_inv in Hr as (z & Hz & [= <-]). by apply chk64_inv in Hz as [-> ?].
  - by apply lnot_int64.
Qed.
Lemma some_int_ok m v : int_or_undef m → (z ← m; Ret (intVal z)) = Ret v → vok v.
Proof. destruct m; simpl; intros ? [=]; by subst. Qed.
#[local] Hint Resolve chk64_good div64_good rem64_good : comptime.
Lemma addsub_ok op a b r : vok a → vok b → evalAddSubExpr op a b = Ret r → vok r.
Proof.
  intros Ha Hb. destruct a, b; simpl; intros Hr; simplify_eq; try done;
    repeat case_match; simplify_eq; try done;
    eapply some_int_ok, Hr; unfold add64, sub64; auto with comptime.
Qed.
Lemma mul_ok op a b r : vok a → vok b → evalMulExpr op a b = Ret r → vok r.
Proof.
  intros Ha Hb. destruct a, b; simpl; intros Hr; simplify_eq; try done;
    repeat case_match; simplify_eq; try done;
    eapply some_int_ok, Hr; unfold mul64; auto with comptime.
Qed.
Lemma index_ok a b : vok a → vok (evalIndexExpr a b).
Proof.
  unfold vok. intros Ha. destruct a, b; simpl; try done. destruct (_ <? _); [|done].
  simpl in Ha. rewrite forallb_forall in Ha.
  destruct (l !! _) eqn:E1; [|done]. apply Ha, list_elem_of_In. by eapply list_elem_of_lookup_2.
Qed.
Lemma lit_ok k text m v : evalLitExpr k text = Some m → m = Ret v → vok v.
Proof.
  unfold vok. destruct k; intros [= <-] Hv; simplify_eq/=; try done.
  - apply outcome_bind_inv in Hv as (z & Hz & [= <-]). unfold stoll in Hz. simpl.
    repeat case_match; by simplify_eq.
  - by apply outcome_bind_inv in Hv as (z & Hz & [= <-]).
Qed.
Lemma unknown_ok e v : evalUnknown constEval_ e = Ret v → vok v.
Proof.
  unfold evalUnknown. destruct constEval_ as [f|] eqn:Ef; [|by intros [= <-]].
  intros H. apply outcome_bind_inv in H as ([r|] & Hr & [= <-]); [|done]. by eapply HconstEval.
Qed.
Lemma evalBinary_keeps l r f :
  (∀ a b v, vok a → vok b → f a b = Ret v → vok v) → keeps vok (evalBinary E l r f).
Proof. intros Hf. unfold evalBinary. keep. apply keeps_liftO. eauto. Qed.

Lemma evalExpr_keeps e : keeps vok (evalExpr registry_ constEval_ E e).
Proof.
  assert (Hu : keeps vok (liftO (evalUnknown constEval_ e))).
  { apply keeps_liftO. intros v. apply unknown_ok. }
  destruct e as [k text| | |k e|k op l r| | | | | | | | | | | | | | | | | | | | | | | | |]; simpl; try exact Hu; keep.
  - apply keeps_liftO. intros v ->. by eapply lit_ok.
  - intros s Hs. simpl. split_and!; [|done|reflexivity].
    destruct (lookupVar _ s) eqn:El; [by eapply lookupVar_ok|done].
  - apply keeps_liftO; intros v; by apply unary_ok.
  - apply keeps_liftO; intros v; by apply unary_ok.
  - apply evalBinary_keeps; intros a b v; apply mul_ok.
  - apply evalBinary_keeps; intros a b v; apply addsub_ok.
  - apply evalBinary_keeps; intros a b v Ha Hb [= <-].
    destruct a, b; simpl; try done. by repeat case_match.
  - apply evalBinary_keeps; intros a b v Ha Hb [= <-].
    destruct a, b; simpl; try done. by repeat case_match.
  - apply evalBinary_keeps; intros a b v Ha Hb [= <-].
    destruct a, b; unfold vok in *; simpl in *; auto with lucis.
  - apply evalBinary_keeps; intros a b v Ha Hb [= <-]. by apply index_ok.
Qed.
End keeps.

Lemma interp_keeps registry_ constEval_ n :
  (∀ f e v, constEval_ = Some f → f e = Ret (Some v) → vok v) →
  evaluators_keep (interp registry_ constEval_ n).
Proof.
  intros H. induction n as [|n IH]; split; intros; simpl; try apply keeps_noFuel.
  - by apply evalExpr_keeps.
  - by apply evalStmt_keeps.
  - by apply evalWhile_keeps.
Qed.

(** ** Termination

    [fits allowed n] holds of trees nested at most [n] deep, without [while] loops
    where the interpreter looks, that call only [allowed] functions. *)

Section layer.
Context (allowed : string → bool) (fe : expr → bool) (fs : stmt → bool).

Definition fits_args (args : option (list expr)) : bool := forallb fe (default [] args).
Definition fits_opt (e : option expr) : bool := forallb fe (opt_list e).
Definition fits_ifBody (b : if_body) : bool :=
  match b with IfBlock b => forallb fs b | IfStmt _ => true end.
Definition fits_elseIf (i : else_if) : bool :=
  match i with ElseIf c b => fe c && fits_ifBody b end.
Definition fits_arm (a : match_arm) : bool :=
  match a with
  | Arm _ guard body =>
      forallb fe (armExprs guard body) && match body with BodyBlock b => forallb fs b | _ => true end
  end.

Definition fits_call (callee : expr) (args : option (list expr)) : bool :=
  match callee with EIdent f => allowed f && fits_args args | _ => true end.

Definition fits_expr (e : expr) : bool :=
  match e with
  | EIndex a b | EBin _ _ a b => fe a && fe b
  | ECall f args => fits_call f args
  | EMatch x arms _ => fe x && forallb fits_arm arms
  | EUnary _ x | EParen x => fe x
  | _ => true
  end.

Definition fits_stmt (s : stmt) : bool :=
  match s with
  | SReturn e => fits_opt e
  | SIf c b elifs els =>
      fe c && fits_ifBody b && forallb fits_elseIf elifs &&
      match els with Some b => fits_ifBody b | None => true end
  | SVarDecl decls => forallb (λ d, fits_opt d.2) decls
  | SAssign _ indices rhs => forallb fe indices && fe rhs
  | SCompoundAssign _ _ rhs => fe rhs
  | SWhile _ _ => false
  | SForIn _ (EBin (BRange | BRangeIncl) _ a b) body => fe a && fe b && forallb fs body
  | SForIn _ iter body => fe iter && forallb fs body
  | SExpr (ECall f args) => fits_call f args
  | SExpr (EMatch x arms _) => fe x && forallb fits_arm arms
  | SCall f args => allowed f && fits_args args
  | SNakedBlock b => forallb fs b
  | _ => true
  end.
End layer.

Fixpoint fits (allowed : string → bool) (n : nat) : (expr → bool) * (stmt → bool) :=
  match n with
  | O => (λ _, false, λ _, false)
  | S n =>
      let '(fe, fs) := fits allowed n in (fits_expr allowed fe fs, fits_stmt allowed fe fs)
  end.

Definition never {A} (m : I A) : Prop := ∀ s, m s ≠ RNoFuel.

Lemma never_ret {A} (a : A) : never (mret a).
Proof. by intros s. Qed.
Lemma never_bind {A B} (m : I A) (f : A → I B) :
  never m → (∀ a, never (f a)) → never (m ≫= f).
Proof.
  intros Hm Hf s. specialize (Hm s). unfold mbind, M_bind. destruct (m s); try done. apply Hf.
Qed.
Lemma never_liftO {A} (m : outcome A) : m ≠ NoFuel → never (liftO m).
Proof. intros Hm s. by destruct m. Qed.
Lemma never_setLocal x v : never (setLocal x v).
Proof. by intros [|f fs]. Qed.
Lemma never_popFrame : never popFrame.
Proof. by intros [|f fs]. Qed.
Lemma never_extends {A} (m m' : I A) : extends m m' → never m → never m'.
Proof. intros He Hm s. rewrite He; apply Hm. Qed.

#[export] Hint Resolve never_ret never_setLocal never_popFrame : comptime.

Ltac ends :=
  repeat match goal with
  | |- never (_ ≫= _) => apply never_bind; [|intros ?]
  | |- never (match ?x with _ => _ end) => destruct x eqn:?
  | |- never (λ _, RUndef) => by intros ?
  | |- never (λ _, ROk _ _) => by intros ?
  end; auto with comptime; try done.

Ltac split_bool :=
  repeat match goal with H : (_ && _) = true |- _ => apply andb_true_iff in H as [? ?] end.

Lemma builtin_ends name fn args : builtin_lookup name = Some fn → fn args ≠ NoFuel.
Proof.
  unfold builtin_lookup. intros H. apply fmap_Some in H as ([i p] & Hi & ->).
  apply list_find_Some in Hi as (Hi & _). simpl.
  assert (Hall : Forall (λ p, ∀ args, p.2 args ≠ NoFuel) comptimeBuiltins).
  { repeat constructor; by intros [|]. }
  exact (Forall_lookup_1 _ _ _ _ Hall Hi args).
Qed.

Lemma evalBlock_ends E b : (∀ s, s ∈ b → never (ev_stmt E s)) → never (evalBlock E b).
Proof.
  induction b as [|s b IH]; simpl; intros Hb; ends; [|apply IH; intros];
    apply Hb; set_solver.
Qed.

Section ends.
Context (registry_ : ComptimeRegistry).
Context (constEval_ : option (expr → outcome (option ComptimeValue))).
Context (HconstEval : ∀ f e, constEval_ = Some f → f e ≠ NoFuel).
Context (E : evaluators) (allowed : string → bool) (fe : expr → bool) (fs : stmt → bool).
Context (He : ∀ e, fe e = true → never (ev_expr E e)).
Context (Hs : ∀ s, fs s = true → never (ev_stmt E s)).
(** The bodies of allowed functions end. *)
Context (Hcall : ∀ f decl, allowed f = true → cr_lookup registry_ f = Some decl →
  ∀ s, s ∈ fn_block decl → never (ev_stmt E s)).

Lemma evalBlock_fits b : forallb fs b = true → never (evalBlock E b).
Proof.
  intros Hb. apply evalBlock_ends. intros s Hin. apply Hs.
  rewrite forallb_forall in Hb. apply Hb. by apply list_elem_of_In.
Qed.
Lemma evaluate_ends f decl args :
  allowed f = true → cr_lookup registry_ f = Some decl → never (evaluate E decl args).
Proof.
  intros Hf Hd. unfold evaluate, pushFrame, modifyS. ends. apply evalBlock_ends. eauto.
Qed.
Lemma evalArgs_ends args : fits_args fe args = true → never (evalArgs E args).
Proof.
  unfold evalArgs, fits_args. induction (default [] args) as [|a l IH]; simpl; [ends|].
  intros [Ha Hl]%andb_true_iff. ends.
Qed.
Lemma evalIfBody_ends b : fits_ifBody fs b = true → never (evalIfBody E b).
Proof. destruct b; simpl; [apply evalBlock_fits|ends]. Qed.
Lemma evalElseIfs_ends l els :
  forallb (fits_elseIf fe fs) l = true →
  match els with Some b => fits_ifBody fs b | None => true end = true →
  never (evalElseIfs E l els).
Proof.
  intros Hl Hels. induction l as [|[c b] l IH]; simpl in *.
  - destruct els; ends. by apply evalIfBody_ends.
  - apply andb_true_iff in Hl as [[Hc Hb]%andb_true_iff Hl]. ends. by apply evalIfBody_ends.
Qed.

(** The bound of the loops over ranges is enough for all their iterations. *)
Lemma rangeLoop_bound var body incl b n i :
  forallb fs body = true → b - i + 1 ≤ Z.of_nat n →
  never (rangeLoop E var body (λ i, if incl : bool then i <=? b else i <? b) n i).
Proof.
  intros Hb. revert i. induction n as [|n IH]; intros i Hn; simpl.
  - assert (Hi : (if incl then i <=? b else i <? b) = false).
    { destruct incl; [apply Z.leb_gt|apply Z.ltb_ge]; lia. }
    rewrite Hi. ends.
  - destruct (if incl then _ else _); [|ends].
    apply never_bind; [ends|intros _]. apply never_bind; [by apply evalBlock_fits|intros r].
    destruct (is_void r); [|ends]. unfold add64, chk64. destruct (in_int64 (i + 1)); [|by intros ?].
    simpl. intros s. apply IH. lia.
Qed.
Lemma listLoop_ends var body l : forallb fs body = true → never (listLoop E var body l).
Proof. intros Hb. induction l; simpl; ends. by apply evalBlock_fits. Qed.
Lemma evalRange_ends var body incl l r :
  fe l = true → fe r = true → forallb fs body = true → never (evalRange E var body incl l r).
Proof. intros ???. unfold evalRange. ends. apply rangeLoop_bound; [done|]. lia. Qed.
Lemma evalForIn_ends var iter body :
  fits_stmt allowed fe fs (SForIn var iter body) = true → never (evalForIn E var iter body).
Proof.
  pose proof evalRange_ends. pose proof listLoop_ends.
  destruct iter as [| | | |k| | | | | | | | | | | | | | | | | | | | | | | | |]; try destruct k; simpl; intros Hf; split_bool; ends.
Qed.

Lemma evalFnCall_ends f args : fits_call allowed fe f args = true → never (evalFnCall registry_ E f args).
Proof.
  destruct f; simpl; try (intros; ends; fail). intros [Hf Ha]%andb_true_iff.
  destruct (builtin_lookup name) as [fn|] eqn:Eb.
  - apply never_bind; [by apply evalArgs_ends|intros vs]. apply never_liftO.
    by eapply builtin_ends.
  - destruct (cr_lookup registry_ name) eqn:Ec; [|ends].
    apply never_bind; [by apply evalArgs_ends|intros vs]. by eapply evaluate_ends.
Qed.
Lemma evalCallStmt_ends f args :
  allowed f && fits_args fe args = true → never (evalCallStmt registry_ E f args).
Proof.
  intros [Hf Ha]%andb_true_iff. unfold evalCallStmt. destruct (isComptime _ _); [|ends].
  apply never_bind; [by apply evalArgs_ends|intros vs].
  destruct (cr_lookup registry_ f) eqn:Ec; [|ends]. by eapply evaluate_ends.
Qed.

Lemma runArm_ends pats guard body m :
  fits_arm fe fs (Arm pats guard body) = true → runArm E guard body = Some m → never m.
Proof.
  simpl. intros [Hg Hb]%andb_true_iff. unfold runArm.
  assert (Hx : ∀ e l, armExprs guard body = e :: l → never (ev_expr E e)).
  { intros e l Hl. rewrite Hl in Hg. simpl in Hg. apply andb_true_iff in Hg as [? _]. auto. }
  destruct body; try (destruct (armExprs _ _) eqn:Ea; intros [= <-]; eauto; fail).
  intros [= <-]. by apply evalBlock_fits.
Qed.
Lemma evalPatterns_ends v pats' guard body pats :
  fits_arm fe fs (Arm pats' guard body) = true → never (evalPatterns E v guard body pats).
Proof.
  intros Hf. pose proof (λ m, runArm_ends pats' guard body m Hf) as Hrun.
  induction pats as [|pat pats IH]; simpl; [ends|].
  destruct (runArm E guard body) as [m|]; ends.
Qed.
Lemma evalArms_ends v arms : forallb (fits_arm fe fs) arms = true → never (evalArms E v arms).
Proof.
  induction arms as [|[pats guard body] arms IH]; cbn [forallb evalArms]; [ends|].
  intros [Ha Hl]%andb_true_iff. destruct pats as [|pat pats].
  - destruct (runArm E guard body) eqn:Er; [by eapply runArm_ends|auto].
  - apply never_bind; [by eapply evalPatterns_ends|]. intros [r|]; ends.
Qed.
Lemma evalMatch_ends x arms :
  fe x && forallb (fits_arm fe fs) arms = true → never (evalMatch E x arms).
Proof. intros [? ?]%andb_true_iff. unfold evalMatch. ends. by apply evalArms_ends. Qed.

Lemma compoundOp_ends op x y : compoundOp op x y ≠ NoFuel.
Proof.
  unfold compoundOp, some_z, add64, sub64, mul64, div64, rem64, chk64.
  by repeat case_match.
Qed.

Lemma evalStmt_ends s : fits_stmt allowed fe fs s = true → never (evalStmt registry_ E s).
Proof.
  intros Hf. destruct s; try (simpl; ends; fail).
  - unfold fits_stmt, fits_opt in Hf. destruct e; simpl in *; split_bool; ends.
  - unfold fits_stmt, fits_opt in Hf. destruct decls as [|[x [e|]] decls]; simpl in *; split_bool; ends.
  - simpl in *. destruct indices; simpl in *; split_bool; unfold evalAssign; ends.
  - simpl in *. pose proof compoundOp_ends. unfold evalCompoundAssign, getS. ends.
    all: by apply never_liftO.
  - simpl in *. by apply evalCallStmt_ends.
  - simpl in *. destruct e; ends; [by apply evalFnCall_ends|by apply evalMatch_ends].
  - simpl in *. split_bool. unfold evalIf. ends; [by apply evalIfBody_ends|by apply evalElseIfs_ends].
  - by apply evalForIn_ends.
  - simpl in *. by apply evalBlock_fits.
Qed.

Lemma evalExpr_ends e : fits_expr allowed fe fs e = true → never (evalExpr registry_ constEval_ E e).
Proof.
  intros Hf.
  assert (Hu : never (liftO (evalUnknown constEval_ e))).
  { apply never_liftO. unfold evalUnknown. destruct constEval_ as [f|] eqn:Ef; [|done].
    pose proof (HconstEval f e eq_refl). by destruct (f e). }
  assert (Hb : ∀ l r f, fe l = true → fe r = true → (∀ a b, f a b ≠ NoFuel) →
    never (evalBinary E l r f)).
  { intros l r f ? ? ?. unfold evalBinary. ends. by apply never_liftO. }
  destruct e as [k text|n| |k e|k op l r| | | | | | | | | | | | | | | | | | | | | | | | |]; try exact Hu; simpl in *.
  - destruct k; try exact Hu; apply never_liftO; simpl; unfold stoll, stod; by repeat case_match.
  - unfold getS. ends.
  - auto.
  - destruct k; try exact Hu; ends; apply never_liftO; destruct a; simpl; try done;
      unfold neg64, chk64; by case_match.
  - split_bool. destruct k; try exact Hu; apply Hb; try done; intros [] []; simpl; try done;
      unfold add64, sub64, mul64, div64, rem64, chk64; by repeat case_match.
  - by apply evalFnCall_ends.
  - split_bool. by apply Hb.
  - by apply evalMatch_ends.
Qed.
End ends.

Section ranked.
Context (registry_ : ComptimeRegistry).
Context (constEval_ : option (expr → outcome (option ComptimeValue))).
(** A rank for every function, and a bound on the nesting of the bodies. *)
Context (rank : string → nat) (depth : nat).

(** The functions of rank below [k]; calls of other names do nothing or are built in. *)
Definition below (k : nat) (f : string) : bool :=
  match cr_lookup registry_ f with None => true | Some _ => (rank f <? k)%nat end.

Definition ranked : bool :=
  forallb (λ p : string * ComptimeEntry,
    forallb (fits (below (rank p.1)) depth).2 (fn_block (ce_decl p.2)))
    (map_to_list registry_).

Lemma ranked_lookup f decl :
  ranked = true → cr_lookup registry_ f = Some decl →
  forallb (fits (below (rank f)) depth).2 (fn_block decl) = true.
Proof.
  unfold ranked, cr_lookup. rewrite forallb_forall. intros H Hf.
  apply fmap_Some in Hf as (entry & Hf & ->). apply (H (f, entry)).
  by apply list_elem_of_In, elem_of_map_to_list.
Qed.

Context (HconstEval : ∀ f e, constEval_ = Some f → f e ≠ NoFuel).
Context (Hranked : ranked = true).
Notation interp := (interp registry_ constEval_).

Lemma interp_ends k n :
  (∀ e, (fits (below k) n).1 e = true → never (ev_expr (interp (k * depth + n)) e)) ∧
  (∀ s, (fits (below k) n).2 s = true → never (ev_stmt (interp (k * depth + n)) s)).
Proof.
  revert n. induction k as [k IHk] using lt_wf_ind. intros n.
  induction n as [|n [IHe IHs]]; [done|].
  rewrite Nat.add_succ_r. simpl. destruct (fits (below k) n) as [fe fs]. simpl in *.
  assert (Hcall : ∀ f decl, below k f = true → cr_lookup registry_ f = Some decl →
    ∀ s, s ∈ fn_block decl → never (ev_stmt (interp (k * depth + n)) s)).
  { intros f decl Hf Hd s Hin. unfold below in Hf. rewrite Hd in Hf. apply Nat.ltb_lt in Hf.
    pose proof (ranked_lookup f decl Hranked Hd) as Hb. rewrite forallb_forall in Hb.
    eapply never_extends; [|apply (IHk (rank f) Hf depth), Hb; by apply list_elem_of_In].
    apply extend_stmt, interp_extend. nia. }
  split; intros; [by eapply evalExpr_ends|by eapply evalStmt_ends].
Qed.

(** C18: In a program without [while] loops whose functions call only functions of lower
    rank, every compile-time evaluation ends: fuel for the rank and the nesting is
    enough whatever the arguments, and more fuel does not change the result. *)
Theorem evaluate_terminates f decl args fs m :
  cr_lookup registry_ f = Some decl → ((rank f + 1) * depth ≤ m)%nat →
  evaluate (interp m) decl args fs ≠ RNoFuel ∧
  evaluate (interp m) decl args fs = evaluate (interp ((rank f + 1) * depth)) decl args fs.
Proof.
  intros Hf Hm. set (m0 := ((rank f + 1) * depth)%nat) in *.
  assert (Hends : never (evaluate (interp m0) decl args)).
  { unfold evaluate, pushFrame, modifyS. ends. apply evalBlock_ends. intros s Hin.
    pose proof (ranked_lookup f decl Hranked Hf) as Hb. rewrite forallb_forall in Hb.
    subst m0. replace ((rank f + 1) * depth)%nat with (rank f * depth + depth)%nat by lia.
    apply interp_ends, Hb. by apply list_elem_of_In. }
  pose proof (evaluate_extend _ _ (interp_extend registry_ constEval_ m0 m Hm) decl args fs (Hends fs))
    as Heq.
  rewrite Heq. split; [apply Hends|done].
Qed.
End ranked.

(** ** A program: factorial by a loop, and a function that calls it *)

Definition int (s : string) : expr := ELit IntLit s.

Definition fact_decl : FunctionDecl := {|
  fn_params := [Some "n"];
  fn_block := [
    SVarDecl [("r", Some (int "1"))];
    SForIn "i" (EBin BRangeIncl "..=" (int "1") (EIdent "n")) [SCompoundAssign "r" "*=" (EIdent "i")];
    SReturn (Some (EIdent "r")) ] |}.

Definition binom_decl : FunctionDecl := {|
  fn_params := [Some "n"; Some "k"];
  fn_block := [
    SReturn (Some (EBin BMul "/" (ECall (EIdent "fact") (Some [EIdent "n"]))
      (EParen (EBin BMul "*" (ECall (EIdent "fact") (Some [EIdent "k"]))
        (ECall (EIdent "fact") (Some [EBin BAddSub "-" (EIdent "n") (EIdent "k")])))))) ] |}.

Definition example_registry : ComptimeRegistry :=
  cr_registerFunction "binom" binom_decl false (cr_registerFunction "fact" fact_decl false ∅).

Definition example_rank (f : string) : nat := if bool_decide (f = "binom") then 1%nat else 0%nat.

Lemma evaluate_terminates_witness :
  ranked example_registry example_rank 7 = true ∧
  (∀ args fs m, (14 ≤ m)%nat → evaluate (interp example_registry None m) binom_decl args fs ≠ RNoFuel) ∧
  evaluate (interp example_registry None 14) binom_decl [intVal 10; intVal 4] [] = ROk (intVal 210) [].
Proof.
  assert (H : ranked example_registry example_rank 7 = true) by (vm_compute; reflexivity).
  split; [exact H|]. split; [|vm_compute; reflexivity]. intros args fs m Hm.
  refine (proj1 (evaluate_terminates example_registry None example_rank 7 _ H "binom" binom_decl args fs m _ _)).
  - intros f e Hf. discriminate Hf.
  - vm_compute. reflexivity.
  - change (example_rank "binom") with 1%nat. lia.
Defined.

(** ** What the interpreter does *)

(** C19: An evaluation that returns leaves exactly the frames it found, with values in
    range and no variable lost; one that throws leaves at least one more frame behind,
    which the next evaluation of the engine finds. *)
Theorem evaluate_balanced registry_ constEval_ n decl args fs :
  (∀ f e v, constEval_ = Some f → f e = Ret (Some v) → vok v) →
  Forall vok args → frames_ok fs →
  match evaluate (interp registry_ constEval_ n) decl args fs with
  | ROk v fs' => vok v ∧ frames_ok fs' ∧ same_shape fs fs'
  | RThrow _ fs' => (length fs < length fs')%nat
  | RUndef | RNoFuel => True
  end.
Proof.
  intros Hce Hargs Hfs. assert (HE := interp_keeps registry_ constEval_ n Hce).
  set (E := interp _ _ _) in *. pose proof (evaluate_keeps E HE decl args Hargs fs Hfs) as H.
  destruct (evaluate E decl args fs) eqn:Ev; try done. revert Ev.
  unfold evaluate, pushFrame, modifyS. unfold mbind, M_bind.
  pose proof (evalBlock_keeps E HE (fn_block decl) (bindParams (fn_params decl) args ∅ :: fs)) as Hb.
  destruct (evalBlock E _ _) as [v s'|e' s'| |]; try done.
  - destruct Hb as (_ & _ & Hsh); [constructor; [by apply bindParams_ok|done]|].
    inversion Hsh; subst. simpl. intros [=].
  - intros [= <- <-]. destruct Hb as [_ Hl]; [constructor; [by apply bindParams_ok|done]|].
    simpl in Hl. lia.
Qed.

Lemma evaluate_balanced_witness :
  (match evaluate (interp ∅ None 3) {| fn_params := []; fn_block := [SReturn (Some (int "99999999999999999999"))] |}
     [] [] with
   | ROk v fs' => vok v ∧ frames_ok fs' ∧ same_shape [] fs'
   | RThrow _ fs' => (0 < length fs')%nat
   | RUndef | RNoFuel => True
   end) ∧
  evaluate (interp ∅ None 3) {| fn_params := []; fn_block := [SReturn (Some (int "99999999999999999999"))] |}
     [] [] = RThrow OutOfRange [∅].
Proof.
  split; [|vm_compute; reflexivity]. apply evaluate_balanced; [|constructor|constructor].
  intros f e v Hf. discriminate Hf.
Defined.

Section behaviour.
Context (registry_ : ComptimeRegistry).
Context (constEval_ : option (expr → outcome (option ComptimeValue))).
Notation interp := (interp registry_ constEval_).
Notation run n b args fs :=
  (evaluate (interp n) {| fn_params := []; fn_block := b |} args fs).

(** [break] is not interpreted, and neither is a bare [ret], so a loop left by either
    runs for ever, whatever the fuel. *)
Lemma break_diverges n fs exit :
  exit = SBreak ∨ exit = SReturn None ∨ exit = SIf (ELit BoolLit "true") (IfStmt (SReturn (Some (int "1")))) [] None →
  run n [SWhile (ELit BoolLit "true") [exit]] [] fs = RNoFuel.
Proof.
  intros Hexit.
  assert (Hbody : ∀ n s, evalBlock (interp n) [exit] s = ROk voidVal s ∨
                         evalBlock (interp n) [exit] s = RNoFuel).
  { clear fs. intros k s. destruct k as [|k]; [by right|].
    destruct Hexit as [-> | [-> | ->]]; [by left..|]. destruct k; [by right|by left]. }
  assert (Hw : ∀ n s, ev_while (interp n) (ELit BoolLit "true") [exit] s = RNoFuel).
  { clear n fs. induction n as [|n IH]; intros s; [done|].
    cbn [interp ev_while]. unfold evalWhile. unfold mbind at 1, M_bind at 1.
    destruct n as [|n]; [done|].
    change (ev_expr (interp (S n)) (ELit BoolLit "true") s) with (ROk (boolVal true) s).
    cbn [isTrue]. unfold mbind at 1, M_bind at 1.
    destruct (Hbody (S n) s) as [-> | ->]; [|done]. apply IH. }
  unfold evaluate. unfold mbind, M_bind, pushFrame, modifyS.
  cbn [fn_params fn_block evalBlock]. unfold mbind, M_bind.
  assert (H : ∀ s, ev_stmt (interp n) (SWhile (ELit BoolLit "true") [exit]) s = RNoFuel).
  { intros s. destruct n as [|n]; [done|]. exact (Hw (S n) s). }
  by rewrite H.
Qed.
End behaviour.

Lemma break_diverges_witness :
  evaluate (interp ∅ None 50) {| fn_params := []; fn_block := [SWhile (ELit BoolLit "true") [SBreak]] |} [] []
    = RNoFuel.
Proof. apply (break_diverges ∅ None 50 [] SBreak). by left. Defined.

Definition one_decl : FunctionDecl :=
  {| fn_params := []; fn_block := [SReturn (Some (int "1"))] |}.
(** Reads and adds to a variable it does not declare. *)
Definition free_decl : FunctionDecl :=
  {| fn_params := []; fn_block := [SCompoundAssign "x" "+=" (int "1"); SReturn (Some (EIdent "x"))] |}.
Definition small_registry : ComptimeRegistry :=
  cr_registerFunction "one" one_decl false (cr_registerFunction "free" free_decl false ∅).

(** Departures from the language: a literal pattern matches every value, a name
    pattern gives the matched value in place of the arm, a guard is the arm's result, [!]
    on an integer is the bitwise complement, the value of a call statement returns from
    the caller, a function sees and changes its caller's variables, and of several
    declarators only the first counts. *)
Lemma interpreter_departures :
  let run b := evaluate (interp small_registry None 20) {| fn_params := []; fn_block := b |} [] [] in
  let ret e := SReturn (Some e) in
  let value z := ROk (intVal z) [] in
  run [ret (EMatch (int "5") [Arm [PatLiteral IntLit "3"] None (BodyExpr (int "1"));
                              Arm [PatLiteral IntLit "5"] None (BodyExpr (int "2"))] "")] = value 1 ∧
  run [ret (EMatch (int "5") [Arm [PatIds ["n"]] None
    (BodyExpr (EBin BMul "*" (EIdent "n") (int "2")))] "")] = value 5 ∧
  run [ret (EMatch (int "5") [Arm [PatWildcard] (Some (int "0")) (BodyExpr (int "7"))] "")] = value 0 ∧
  run [SIf (EUnary ULogicalNot (int "1")) (IfBlock [ret (int "1")]) [] None; ret (int "0")] = value 1 ∧
  run [SCall "one" None; ret (int "2")] = value 1 ∧
  run [SVarDecl [("x", Some (int "5"))]; SVarDecl [("y", Some (ECall (EIdent "free") None))];
       ret (EIdent "x")] = value 6 ∧
  run [SVarDecl [("x", Some (int "1")); ("y", Some (int "2"))]; ret (EIdent "y")] = ROk voidVal [].
Proof. repeat split; vm_compute; reflexivity. Qed.

(** ** Agreement with the constant evaluator of the checker *)

(** Integer expressions and comparisons of them. *)
Fixpoint common_int (e : expr) : bool :=
  match e with
  | ELit IntLit t =>
      match stoll 10 t with Ret z => bool_decide (parseIntLiteral t 0 = Ret z) | _ => false end
  | EIdent _ => true
  | EParen e | EUnary UNeg e => common_int e
  | EBin (BMul | BAddSub | BBitAnd) _ l r => common_int l && common_int r
  | _ => false
  end.

Definition common (e : expr) : bool :=
  match e with
  | EBin (BRel | BEq) _ l r => common_int l && common_int r
  | _ => common_int e
  end.

(** Takes the evaluation of a binary expression on integers apart. *)
Ltac operands Hv IH l r x y :=
  let a := fresh "a" in let b := fresh "b" in let Hl := fresh "Hl" in let Hr := fresh "Hr" in
  apply outcome_bind_inv in Hv as ([a|] & Hl & Hv);
    apply outcome_bind_inv in Hv as ([b|] & Hr & Hv); try done;
  destruct (IH l a) as [[x ->] ?]; try done; destruct (IH r b) as [[y ->] ?]; try done;
  first [ rewrite <-(evalBinOp_token BMul) in Hv by done
        | rewrite <-(evalBinOp_token BAddSub) in Hv by done
        | rewrite <-(evalBinOp_token BBitAnd) in Hv by done
        | rewrite <-(evalBinOp_token BRel) in Hv by done
        | rewrite <-(evalBinOp_token BEq) in Hv by done ].

Section agreement.
Context (registry_ : ComptimeRegistry).
Context (constEval_ : option (expr → outcome (option ComptimeValue))).
Context (types_ : types_map) (consts : gmap string ComptimeValue).
Context (resolveTypeSpec : string → option TypeInfo).
Context (fs : frames).
(** The constants are integers, and the frames bind them to the same values. *)
Context (Hints : ∀ x v, consts !! x = Some v → ∃ z, v = intVal z).
Context (Hfs : ∀ x v, consts !! x = Some v → lookupVar x fs = Some v).
Notation ref := (refEval types_ consts resolveTypeSpec).
Notation interp := (interp registry_ constEval_).

Lemma common_int_agrees n e v :
  common_int e = true → clean e = true → (fits (λ _, false) n).1 e = true →
  ref e = Ret (Some v) →
  (∃ z, v = intVal z) ∧ ev_expr (interp n) e fs = ROk v fs.
Proof.
  revert e v. induction n as [|n IH]; intros e v Hc Hcl Hfit Hv; [done|].
  simpl in Hfit. destruct (fits (λ _, false) n) as [fe fst]. simpl in Hfit, IH.
  assert (Hbin : ∀ l r f a b w, ev_expr (interp n) l fs = ROk a fs → ev_expr (interp n) r fs = ROk b fs →
    f a b = Ret w → evalBinary (interp n) l r f fs = ROk w fs).
  { intros l r f a b w Hl Hr Hf. unfold evalBinary.
    rewrite (M_bind_ok _ _ _ _ _ Hl), (M_bind_ok _ _ _ _ _ Hr). unfold liftO. by rewrite Hf. }
  destruct e as [[] t|x| |[] e|[] op l r| | | | | | | | | | | | | | | | | | | | | | | | |]; try done;
    cbn [interp ev_expr evalExpr common_int clean fits_expr refEval evalLit evalLitExpr] in *; split_bool.
  - destruct (stoll 10 t) as [z|e| |] eqn:Et; try done.
    apply bool_decide_eq_true_1 in Hc. unfold evalIntLit in Hv. rewrite Hc in Hv. simpl in Hv.
    simplify_eq. eauto.
  - injection Hv as Hv. destruct (Hints _ _ Hv) as [z ->]. split; [eauto|].
    unfold getS, mbind, M_bind. by rewrite (Hfs _ _ Hv).
  - eauto.
  - apply outcome_bind_inv in Hv as ([w|] & Hw & Hv); [|done].
    destruct (IH e w) as [[z ->] He]; try done. rewrite (M_bind_ok _ _ _ _ _ He).
    simpl in Hv. unfold some_int in Hv. apply outcome_bind_inv in Hv as (y & Hy & [= <-]).
    simpl. unfold liftO. rewrite Hy. simpl. eauto.
  - operands Hv IH l r x y. by_tokens H1; simpl in Hv; unfold some_int in Hv.
    + apply outcome_bind_inv in Hv as (z & Hz & [= <-]). split; [eauto|].
      eapply Hbin; [done|done|]. simpl. by rewrite Hz.
    + destruct (y =? 0) eqn:Ey; [done|].
      apply outcome_bind_inv in Hv as (z & Hz & [= <-]). split; [eauto|].
      eapply Hbin; [done|done|]. simpl. by rewrite Ey, Hz.
    + destruct (y =? 0) eqn:Ey; [done|].
      apply outcome_bind_inv in Hv as (z & Hz & [= <-]). split; [eauto|].
      eapply Hbin; [done|done|]. simpl. by rewrite Ey, Hz.
  - operands Hv IH l r x y. by_tokens H1; simpl in Hv; unfold some_int in Hv.
    all: apply outcome_bind_inv in Hv as (z & Hz & [= <-]); split; [eauto|].
    all: eapply Hbin; [done|done|]; simpl; by rewrite Hz.
  - operands Hv IH l r x y. simpl in Hv. injection Hv as <-. split; [eauto|].
    by eapply Hbin.
Qed.

End agreement.

(** [100*2/4] *)
Lemma agreement_needs_clean :
  let e := EBin BMul "/" (EBin BMul "*" (int "100") (int "2")) (int "4") in
  common e = true ∧ clean e = false ∧
  evaluateConstExpr ∅ ∅ (λ _, None) e = Ret (Some (intVal 800)) ∧
  ev_expr (interp ∅ None 6) e [∅] = ROk (intVal 50) [∅].
Proof. vm_compute. auto. Qed.

(** [-(N + 3) * 2 < 7 % N] with [N] bound to 4. *)
Definition common_example : expr :=
  EBin BRel "<" (EBin BMul "*" (EUnary UNeg (EParen (EBin BAddSub "+" (EIdent "N") (int "3")))) (int "2"))
    (EBin BMul "%" (int "7") (EIdent "N")).

