(* ===== verification/Flow.v ===== *)
(** * Which blocks return

    [Checker::blockAlwaysReturns] and [Checker::isTerminatorStmt]
    ([checkers/Checker_stmt.cpp]), against the outcomes a block can have. *)

From S2P Require Import Prelude CxxLib Syntax.

(** [IntrinsicRegistry::parseIntrinsicPath] *)
Definition parseIntrinsicPath (ids : list string) : option (string * string) :=
  match ids with
  | [a; b; c] => if bool_decide (a = "lucis") then Some (b, c) else None
  | _ => None
  end.

Definition noreturnName (name : string) : bool :=
  bool_decide (name = "panic") || bool_decide (name = "exit") || bool_decide (name = "unreachable").

(** An expression statement that does not return. *)
Definition noreturnExpr (e : expr) : bool :=
  match e with
  | ECall (EIdent name) _ => noreturnName name
  | EStaticCall ids _ => bool_decide (parseIntrinsicPath ids = Some ("core", "trap"))
  | _ => false
  end.

(** What [blockAlwaysReturns] finds out about one statement of the block, and
    [ifBodyAlwaysReturns], which looks at fewer statements. *)
Fixpoint stmtReturns (s : stmt) : bool :=
  match s with
  | SReturn _ | SThrow _ | SBail _ => true
  | SCall name _ => noreturnName name
  | SExpr e => noreturnExpr e
  | SLoop b => existsb stmtReturns b
  | SIf _ body elifs (Some els) =>
      ifBodyAlwaysReturns body && forallb elseIfReturns elifs && ifBodyAlwaysReturns els
  | SSwitch _ cases (Some dflt) => forallb caseReturns cases && existsb stmtReturns dflt
  | STryCatch b catches _ => existsb stmtReturns b && forallb catchReturns catches
  | _ => false
  end
with ifBodyAlwaysReturns (body : if_body) : bool :=
  match body with
  | IfBlock b => existsb stmtReturns b
  | IfStmt s =>
      match s with
      | SReturn _ | SThrow _ | SBail _ => true
      | SLoop b => existsb stmtReturns b
      | SIf _ body elifs (Some els) =>
          ifBodyAlwaysReturns body && forallb elseIfReturns elifs && ifBodyAlwaysReturns els
      | _ => false
      end
  end
with elseIfReturns (i : else_if) : bool :=
  match i with ElseIf _ body => ifBodyAlwaysReturns body end
with caseReturns (c : switch_case) : bool :=
  match c with Case _ b => existsb stmtReturns b end
with catchReturns (c : catch_clause) : bool :=
  match c with Catch _ _ b => existsb stmtReturns b end.

Definition blockAlwaysReturns (b : block) : bool := existsb stmtReturns b.

Definition isTerminatorStmt (s : stmt) : bool :=
  match s with
  | SReturn _ | SThrow _ | SBreak | SContinue => true
  | SCall name _ => noreturnName name
  | SExpr e => noreturnExpr e
  | _ => false
  end.

(** ** Outcomes

    How control can leave a statement: to the next one, by [break] or [continue] of the
    enclosing loop, by returning, by throwing, by ending the program, or by an [asm goto] to
    a label.  Conditions may hold or not, and any statement that evaluates something may
    throw.  A [break] in a [switch] leaves the enclosing loop, and [finally] runs after a
    [try] or [catch] block that ends normally, as the code generator has it.  Blocks inside
    expressions run as the code generator has them, in the enclosing function. *)

Inductive flow := ONext | OBreak | OContinue | OReturn | OThrow | OHalt | OJump (label : string).

#[export] Instance flow_eq_dec : EqDecision flow.
Proof. solve_decision. Defined.

(** Does control stay in the loop whose body ends so? *)
Definition stays (o : flow) : bool :=
  match o with ONext | OContinue | OBreak => true | _ => false end.

(** Statements after which control goes on, if they do not throw. *)
Definition falls_through (s : stmt) : bool :=
  match s with
  | SVarDecl _ | SVarDestructure _ _ | SAssign _ _ _ | SCompoundAssign _ _ _ | SDefer _ | SOther _ _ _ => true
  | SCall name _ => negb (noreturnName name)
  | SExpr e => negb (noreturnExpr e)
  | _ => false
  end.

(** The expressions of a deferred call or expression statement.  The code evaluates them when
    the block is left; here they can leave it from the [defer] on, with the same outcomes. *)
Definition deferred_exprs (s : stmt) : list expr :=
  match s with SExpr e => [e] | SCall _ args => default [] args | _ => [] end.

(** The expressions a statement evaluates itself, not those of the statements inside. *)
Definition stmt_exprs (s : stmt) : list expr :=
  match s with
  | SReturn e => opt_list e
  | SVarDecl ds => omap snd ds
  | SVarDestructure _ e | SExpr e | SForIn _ e _ | SWhile e _ | SDoWhile _ e | SLock e _
  | SThrow e | SBail e => [e]
  | SAssign _ indices e => e :: indices
  | SCompoundAssign _ _ e => [e]
  | SCall _ args => default [] args
  | SIf c _ elifs _ => c :: ((λ i, match i with ElseIf c _ => c end) <$> elifs)
  | SForClassic _ i c t _ => [i; c; t]
  | SSwitch e cases _ => e :: flat_map (λ c, match c with Case es _ => es end) cases
  | SScopeBlock es _ | SOther es _ _ => es
  | SDefer s => deferred_exprs s
  | _ => []
  end.

(** The expressions directly in an expression, and the blocks directly in it. *)
Definition subexprs (e : expr) : list expr :=
  match e with
  | EMatch e arms _ => e :: flat_map (λ a, match a with
      | Arm _ guard body => opt_list guard ++ match body with BodyExpr e => [e] | _ => [] end
      end) arms
  | e => children e
  end.

Definition direct_blocks (e : expr) : list block :=
  match e with
  | EMatch _ arms _ => omap (λ a, match a with Arm _ _ (BodyBlock b) => Some b | _ => None end) arms
  | EOther _ bs _ => bs
  | _ => []
  end.

(** [e?] returns, if [e] is an error. *)
Definition may_propagate (e : expr) : bool := match e with EOther _ _ _ => true | _ => false end.

Inductive exec_stmt : stmt → flow → Prop :=
| ex_throws s : exec_stmt s OThrow
| ex_abrupt s e o : e ∈ stmt_exprs s → abrupt e o → exec_stmt s o
| ex_jump es ls t l : l ∈ ls → exec_stmt (SOther es ls t) (OJump l)
| ex_simple s : falls_through s = true → exec_stmt s ONext
| ex_return e : exec_stmt (SReturn e) OReturn
| ex_bail e : exec_stmt (SBail e) OReturn
| ex_call name args : noreturnName name = true → exec_stmt (SCall name args) OHalt
| ex_expr e : noreturnExpr e = true → exec_stmt (SExpr e) OHalt
| ex_defer name args : noreturnName name = true → exec_stmt (SDefer (SCall name args)) OHalt
| ex_break : exec_stmt SBreak OBreak
| ex_continue : exec_stmt SContinue OContinue
| ex_then c b elifs els o : exec_ifBody b o → exec_stmt (SIf c b elifs els) o
| ex_elseIf c b elifs els c' b' o :
    ElseIf c' b' ∈ elifs → exec_ifBody b' o → exec_stmt (SIf c b elifs els) o
| ex_else c b elifs b' o : exec_ifBody b' o → exec_stmt (SIf c b elifs (Some b')) o
| ex_noElse c b elifs : exec_stmt (SIf c b elifs None) ONext
| ex_loop_break b : exec_block b OBreak → exec_stmt (SLoop b) ONext
| ex_loop_exit b o : exec_block b o → stays o = false → exec_stmt (SLoop b) o
| ex_while_end c b : exec_stmt (SWhile c b) ONext
| ex_while_exit c b o : exec_block b o → stays o = false → exec_stmt (SWhile c b) o
| ex_doWhile_end c b : exec_stmt (SDoWhile b c) ONext
| ex_doWhile_exit c b o : exec_block b o → stays o = false → exec_stmt (SDoWhile b c) o
| ex_forIn_end x e b : exec_stmt (SForIn x e b) ONext
| ex_forIn_exit x e b o : exec_block b o → stays o = false → exec_stmt (SForIn x e b) o
| ex_for_end x i c t b : exec_stmt (SForClassic x i c t b) ONext
| ex_for_exit x i c t b o : exec_block b o → stays o = false → exec_stmt (SForClassic x i c t b) o
| ex_case e cases d ls b o : Case ls b ∈ cases → exec_block b o → exec_stmt (SSwitch e cases d) o
| ex_default e cases b o : exec_block b o → exec_stmt (SSwitch e cases (Some b)) o
| ex_noCase e cases : exec_stmt (SSwitch e cases None) ONext
| ex_try_exit b cs f o : exec_block b o → o ≠ ONext → o ≠ OThrow → exec_stmt (STryCatch b cs f) o
| ex_try_next b cs f o : exec_block b ONext → exec_block (default [] f) o → exec_stmt (STryCatch b cs f) o
| ex_catch_exit b cs f ty x c o :
    exec_block b OThrow → Catch ty x c ∈ cs → exec_block c o → o ≠ ONext → exec_stmt (STryCatch b cs f) o
| ex_catch_next b cs f ty x c o :
    exec_block b OThrow → Catch ty x c ∈ cs → exec_block c ONext → exec_block (default [] f) o →
    exec_stmt (STryCatch b cs f) o
| ex_lock e b o : exec_block b o → exec_stmt (SLock e b) o
| ex_naked b o : exec_block b o → exec_stmt (SNakedBlock b) o
| ex_inline b o : exec_block b o → exec_stmt (SInlineBlock b) o
| ex_scope cbs b o : exec_block b o → exec_stmt (SScopeBlock cbs b) o
| ex_label x s o : exec_stmt s o → exec_stmt (SLabel x s) o
with exec_ifBody : if_body → flow → Prop :=
| ex_ifBlock b o : exec_block b o → exec_ifBody (IfBlock b) o
| ex_ifStmt s o : exec_stmt s o → exec_ifBody (IfStmt s) o
with exec_block : block → flow → Prop :=
| ex_end : exec_block [] ONext
| ex_next s b o : exec_stmt s ONext → exec_block b o → exec_block (s :: b) o
| ex_stop s b o : exec_stmt s o → o ≠ ONext → exec_block (s :: b) o
(** How the evaluation of an expression can leave the statement it is in. *)
with abrupt : expr → flow → Prop :=
| ab_sub e e' o : e' ∈ subexprs e → abrupt e' o → abrupt e o
| ab_block e b o : b ∈ direct_blocks e → exec_block b o → o ≠ ONext → abrupt e o
| ab_propagate e : may_propagate e = true → abrupt e OReturn
| ab_halt e : noreturnExpr e = true → abrupt e OHalt.

Scheme exec_stmt_mind := Minimality for exec_stmt Sort Prop
with exec_ifBody_mind := Minimality for exec_ifBody Sort Prop
with exec_block_mind := Minimality for exec_block Sort Prop
with abrupt_mind := Minimality for abrupt Sort Prop.
Combined Scheme exec_mind from exec_stmt_mind, exec_ifBody_mind, exec_block_mind, abrupt_mind.

(** The statements from a label of the block on: where an [asm goto] to it goes on. *)
Fixpoint from_label (l : string) (b : block) : option block :=
  match b with
  | [] => None
  | s :: b' =>
      match s with SLabel x _ => if bool_decide (x = l) then Some b else from_label l b' | _ => from_label l b' end
  end.

(** *** Code without some of these exits *)

(** The exits looked for, and whether they are looked for in the bodies of [loop]s and of the
    other loops. *)
Record watch := { w_break : bool; w_continue : bool; w_jump : bool; w_loop : bool; w_loops : bool }.

Definition watched (w : watch) (o : flow) : bool :=
  match o with OBreak => w_break w | OContinue => w_continue w | OJump _ => w_jump w | _ => false end.

Section without.
Context (w : watch).

Fixpoint withoutExpr (e : expr) : bool :=
  match e with
  | ELit _ _ | EIdent _ | ESizeof _ | EEnumAccess _ _ | EGenericEnumAccess _ _ _
  | EAlignof _ | EOffsetof _ _ | EAtType _ _ => true
  | EParen e | EUnary _ e | ECast e _ | ETypeof e | ECfg _ e | EField _ e _ | ETupleIndex _ e _
  | EChainedTupleIndex _ e _ | EIs e _ _ | EAtPtr _ _ e => withoutExpr e
  | EBin _ _ l r | ETryOr l r | EIndex l r => withoutExpr l && withoutExpr r
  | ETernary c t f => withoutExpr c && withoutExpr t && withoutExpr f
  | ECall f args | EMethodCall f _ args =>
      withoutExpr f && match args with Some l => forallb withoutExpr l | None => true end
  | EStaticCall _ args => match args with Some l => forallb withoutExpr l | None => true end
  | EInit _ es _ | ETuple es | EArray es => forallb withoutExpr es
  | EMatch e arms _ => withoutExpr e && forallb withoutArm arms
  | EOther es bs _ => forallb withoutExpr es && forallb (forallb without) bs
  end
with withoutArm (a : match_arm) : bool :=
  match a with
  | Arm _ guard body => match guard with Some e => withoutExpr e | None => true end && withoutArmBody body
  end
with withoutArmBody (b : arm_body) : bool :=
  match b with BodyExpr e => withoutExpr e | BodyBlock b => forallb without b | BodyNone => true end
with without (s : stmt) : bool :=
  match s with
  | SReturn e => match e with Some e => withoutExpr e | None => true end
  | SVarDecl ds => forallb (λ d, match d with (_, Some e) => withoutExpr e | _ => true end) ds
  | SVarDestructure _ e | SExpr e | SThrow e | SBail e | SCompoundAssign _ _ e => withoutExpr e
  | SAssign _ indices e => withoutExpr e && forallb withoutExpr indices
  | SCall _ args => match args with Some l => forallb withoutExpr l | None => true end
  | SIf c b elifs els =>
      withoutExpr c && withoutBody b && forallb withoutElseIf elifs &&
      match els with Some b => withoutBody b | None => true end
  | SForIn _ e b | SWhile e b | SDoWhile b e => withoutExpr e && (negb (w_loops w) || forallb without b)
  | SForClassic _ i c t b =>
      withoutExpr i && withoutExpr c && withoutExpr t && (negb (w_loops w) || forallb without b)
  | SLoop b => negb (w_loop w) || forallb without b
  | SBreak => negb (w_break w)
  | SContinue => negb (w_continue w)
  | SSwitch e cases d =>
      withoutExpr e && forallb withoutCase cases && match d with Some b => forallb without b | None => true end
  | STryCatch b cs f =>
      forallb without b && forallb withoutCatch cs &&
      match f with Some b => forallb without b | None => true end
  | SLock e b => withoutExpr e && forallb without b
  | SNakedBlock b | SInlineBlock b => forallb without b
  | SScopeBlock es b => forallb withoutExpr es && forallb without b
  | SLabel _ s | SDefer s => without s
  | SOther es ls _ => forallb withoutExpr es && (negb (w_jump w) || match ls with [] => true | _ => false end)
  end
with withoutBody (b : if_body) : bool :=
  match b with IfBlock b => forallb without b | IfStmt s => without s end
with withoutElseIf (i : else_if) : bool :=
  match i with ElseIf c b => withoutExpr c && withoutBody b end
with withoutCase (c : switch_case) : bool :=
  match c with Case es b => forallb withoutExpr es && forallb without b end
with withoutCatch (c : catch_clause) : bool := match c with Catch _ _ b => forallb without b end.
End without.

(** No [break] leaves a [loop], or the statement itself. *)
Definition breakWatch : watch :=
  {| w_break := true; w_continue := false; w_jump := false; w_loop := true; w_loops := false |}.

Definition noBreak (s : stmt) : bool := without breakWatch s.

(** No [asm goto] has labels to jump to. *)
Definition jumpWatch : watch :=
  {| w_break := false; w_continue := false; w_jump := true; w_loop := true; w_loops := true |}.

Definition noJump (s : stmt) : bool := without jumpWatch s.

(** No [break] or [continue] in a block of the expression leaves the expression. *)
Definition strayWatch : watch :=
  {| w_break := true; w_continue := true; w_jump := false; w_loop := false; w_loops := false |}.

Definition noStray (e : expr) : bool := withoutExpr strayWatch e.

Lemma forallb_in {A} (f : A → bool) l x : forallb f l = true → x ∈ l → f x = true.
Proof. rewrite forallb_forall. intros H Hx. by apply H, list_elem_of_In. Qed.

Ltac split_andb :=
  repeat match goal with H : (_ && _) = true |- _ => apply andb_true_iff in H as [? ?] end.

(** Uses what a list of clauses satisfies on the clause that ran. *)
Ltac clause :=
  repeat match goal with
  | H : forallb ?f ?l = true, Hx : _ ∈ ?l |- _ =>
      pose proof (forallb_in f l _ H Hx); clear H
  end.

Lemma forallb_flat_map {A B} (f : B → bool) (g : A → list B) l :
  (∀ a, a ∈ l → forallb f (g a) = true) → forallb f (flat_map g l) = true.
Proof.
  induction l as [|a l IH]; simpl; [done|]. intros H. rewrite forallb_app. apply andb_true_iff. split.
  - apply H, list_elem_of_here.
  - apply IH. intros x Hx. by apply H, list_elem_of_further.
Qed.

Lemma forallb_omap {A B} (f : B → bool) (g : A → option B) l :
  (∀ a b, a ∈ l → g a = Some b → f b = true) → forallb f (omap g l) = true.
Proof.
  intros H. apply forallb_forall. intros b Hb. apply list_elem_of_In, list_elem_of_omap in Hb as (a & Ha & E). by eapply H.
Qed.

Section without_exec.
Context (w : watch).
(** Jumps leave loops. *)
Context (Hw : w_jump w = true → w_loop w = true ∧ w_loops w = true).

Lemma without_stmt_exprs s : without w s = true → forallb (withoutExpr w) (stmt_exprs s) = true.
Proof.
  destruct s as [[e|]|ds| | | |n [args|]| | | | | | | | | | | | | | | | | | | |]; cbn; intros H; split_andb;
    rewrite ?andb_true_r; try done; try (repeat (apply andb_true_iff; split); done).
  - apply forallb_omap. intros [x o] e Hin E. cbn in E. subst. exact (forallb_in _ _ _ H Hin).
  - apply andb_true_iff. split; [done|]. apply forallb_forall. intros x Hx.
    apply list_elem_of_In, list_elem_of_fmap in Hx as ([c' b'] & -> & Hin).
    pose proof (forallb_in _ _ _ H1 Hin) as Hi. cbn in Hi. by split_andb.
  - apply andb_true_iff. split; [done|]. apply forallb_flat_map. intros [es b] Hin.
    pose proof (forallb_in _ _ _ H1 Hin) as Hi. cbn in Hi. by split_andb.
  - match goal with |- forallb _ (deferred_exprs ?d) = _ => destruct d as [| | | | |n [args|]| | | | | | | | | | | | | | | | | | | |] end;
      cbn in *; rewrite ?andb_true_r; done.
Qed.

Lemma without_subexprs e : withoutExpr w e = true → forallb (withoutExpr w) (subexprs e) = true.
Proof.
  destruct e as [| | | | | |f [args|]|ids [args|]|o n [args|]| | | | | | | | |e arms t| | | | | | | | | | | |]; cbn;
    intros H; split_andb; rewrite ?andb_true_r; try done; try (repeat (apply andb_true_iff; split); done).
  apply andb_true_iff. split; [done|]. apply forallb_flat_map. intros [ps guard body] Hin.
  pose proof (forallb_in _ _ _ H0 Hin) as Hi. cbn in Hi. split_andb.
  destruct guard, body; cbn in *; rewrite ?andb_true_r; try done; by apply andb_true_iff.
Qed.

Lemma without_blocks e b : withoutExpr w e = true → b ∈ direct_blocks e → forallb (without w) b = true.
Proof.
  destruct e; cbn; intros H Hb; try (by apply not_elem_of_nil in Hb); split_andb.
  - apply list_elem_of_omap in Hb as ([ps guard body] & Hin & E). pose proof (forallb_in _ _ _ H0 Hin) as Hi.
    destruct body; simplify_eq. cbn in Hi. by split_andb.
  - by apply (forallb_in _ _ _ H0 Hb).
Qed.

Lemma without_exec :
  (∀ s o, exec_stmt s o → without w s = true → watched w o = false) ∧
  (∀ b o, exec_ifBody b o → withoutBody w b = true → watched w o = false) ∧
  (∀ b o, exec_block b o → forallb (without w) b = true → watched w o = false) ∧
  (∀ e o, abrupt e o → withoutExpr w e = true → watched w o = false).
Proof.
  assert (Hexit : ∀ o, stays o = false → watched w o = true → w_jump w = true) by by intros [].
  apply exec_mind; intros;
    try (match goal with H : without w _ = true, Hin : _ ∈ stmt_exprs _ |- _ =>
      pose proof (forallb_in _ _ _ (without_stmt_exprs _ H) Hin); by auto end);
    try (match goal with H : withoutExpr w _ = true, Hin : _ ∈ subexprs _ |- _ =>
      pose proof (forallb_in _ _ _ (without_subexprs _ H) Hin); by auto end);
    try (match goal with H : withoutExpr w _ = true, Hin : _ ∈ direct_blocks _ |- _ =>
      pose proof (without_blocks _ _ H Hin); by auto end);
    simpl in *; split_andb; clause; simpl in *; split_andb; eauto;
    try (match goal with H : _ || _ = true |- _ => apply orb_true_iff in H as [H|H] end); eauto.
  all: try (by apply negb_true_iff).
  all: try (match goal with Hs : stays ?o = false |- _ =>
    destruct (watched w o) eqn:E; [|done]; specialize (Hexit _ Hs E); destruct (Hw Hexit) as [Hw1 Hw2];
    rewrite ?Hw1, ?Hw2 in *; done end).
  all: try (match goal with f : option block |- _ => destruct f end; simpl in *; by eauto).
  destruct ls; [by apply not_elem_of_nil in H|done].
Qed.
End without_exec.

Lemma noBreak_exec b o : exec_block b o → forallb noBreak b = true → o ≠ OBreak.
Proof. intros Ho Hb ->. by pose proof (proj1 (proj2 (proj2 (without_exec breakWatch ltac:(done)))) _ _ Ho Hb). Qed.

Lemma noJump_exec b o l : exec_block b o → forallb noJump b = true → o ≠ OJump l.
Proof. intros Ho Hb ->. by pose proof (proj1 (proj2 (proj2 (without_exec jumpWatch ltac:(done)))) _ _ Ho Hb). Qed.

Lemma noStray_abrupt e o : abrupt e o → noStray e = true → o ≠ OBreak ∧ o ≠ OContinue.
Proof. intros Ho He. split; intros ->; by pose proof (proj2 (proj2 (proj2 (without_exec strayWatch ltac:(done)))) _ _ Ho He). Qed.

(** Evaluation that leaves the statement does not go on to the next. *)
Lemma abrupt_leaves e o : abrupt e o → o ≠ ONext.
Proof.
  apply (abrupt_mind (λ _ _, True) (λ _ _, True) (λ _ _, True) (λ _ o, o ≠ ONext)); done.
Qed.

Lemma falls_through_returns s : falls_through s = true → stmtReturns s = false.
Proof. destruct s; simpl; try done; apply negb_true_iff. Qed.

Lemma ifBody_statement s : ifBodyAlwaysReturns (IfStmt s) = true → stmtReturns s = true.
Proof. by destruct s. Qed.

Lemma stmtReturns_sound :
  (∀ s o, exec_stmt s o → noBreak s = true → stmtReturns s = true → o ≠ ONext) ∧
  (∀ b o, exec_ifBody b o → withoutBody breakWatch b = true → ifBodyAlwaysReturns b = true → o ≠ ONext) ∧
  (∀ b o, exec_block b o → forallb noBreak b = true → blockAlwaysReturns b = true → o ≠ ONext) ∧
  (∀ e o, abrupt e o → o ≠ ONext).
Proof.
  apply exec_mind; unfold blockAlwaysReturns, noBreak in *; intros;
    try (match goal with H : falls_through _ = true |- _ => apply falls_through_returns in H; congruence end);
    try (match goal with H : ifBodyAlwaysReturns (IfStmt _) = true |- _ => apply ifBody_statement in H; auto end);
    simpl in *; split_andb; try done;
    repeat match goal with o : option _ |- _ => destruct o; simpl in *; try done end;
    split_andb; clause; simpl in *; split_andb; try (by auto); try (by intros ->); try (exfalso; by auto).
  all: match goal with
    | H : exec_block _ OBreak |- _ => exfalso; by apply (noBreak_exec _ _ H)
    | H : _ || _ = true, H0 : _ → _ → ONext ≠ ONext |- _ =>
        apply orb_true_iff in H as [?|?]; [exfalso; by apply H0|by auto]
    | H : _ → _ → ONext ≠ ONext |- _ => exfalso; by apply H
    end.
Qed.

Lemma returning_block_leaves b o :
  blockAlwaysReturns b = true → forallb noBreak b = true → forallb noJump b = true → exec_block b o →
  o = OReturn ∨ o = OThrow ∨ o = OHalt ∨ o = OContinue.
Proof.
  intros Hr Hb Hj Ho. pose proof (proj1 (proj2 (proj2 stmtReturns_sound)) b o Ho Hb Hr).
  pose proof (noBreak_exec b o Ho Hb). pose proof (noJump_exec b o).
  destruct o as [| | | | | |l]; try done; try (by auto). by destruct (H1 l).
Qed.


Definition returning_example : block :=
  [SLoop [SIf (EIdent "c") (IfBlock [SContinue]) [] None;
          STryCatch [SSwitch (EIdent "x") [Case [EIdent "y"] [SReturn None]] (Some [SCall "panic" None])]
            [Catch "Error" "e" [SThrow (EIdent "e")]] None]].


(** A [loop] whose body ends in a return is accepted although a [break] before it
    leaves the loop and the end of the function is reached without a value. *)
Lemma blockAlwaysReturns_ignores_break c e :
  let b := [SLoop [SIf c (IfBlock [SBreak]) [] None; SReturn (Some e)]] in
  blockAlwaysReturns b = true ∧ exec_block b ONext.
Proof.
  split; [reflexivity|]. apply ex_next; [|apply ex_end]. apply ex_loop_break.
  apply ex_stop; [|done]. apply ex_then, ex_ifBlock. apply ex_stop; [apply ex_break|done].
Qed.

(** An [asm goto] over the return: the block is accepted although what follows the label
    reaches its end. *)
Lemma blockAlwaysReturns_ignores_jumps e :
  let b := [SOther [] ["done"] ""; SReturn (Some e); SLabel "done" (SCall "print" None)] in
  blockAlwaysReturns b = true ∧ exec_block b (OJump "done") ∧
  ∃ b', from_label "done" b = Some b' ∧ exec_block b' ONext.
Proof.
  split; [reflexivity|]. split.
  - apply ex_stop; [apply ex_jump, list_elem_of_here|done].
  - exists [SLabel "done" (SCall "print" None)]. split; [reflexivity|].
    apply ex_next; [|apply ex_end]. by apply ex_label, ex_simple.
Qed.

(** The block of a [match] arm that breaks out of a [loop] does so too. *)
Lemma blockAlwaysReturns_ignores_arms m e :
  let b := [SLoop [SExpr (EMatch m [Arm [PatWildcard] None (BodyBlock [SBreak])] ""); SReturn (Some e)]] in
  blockAlwaysReturns b = true ∧ exec_block b ONext.
Proof.
  split; [reflexivity|]. apply ex_next; [|apply ex_end]. apply ex_loop_break.
  apply ex_stop; [|done]. eapply ex_abrupt; [apply list_elem_of_here|].
  eapply ab_block; [apply list_elem_of_here| |done]. apply ex_stop; [apply ex_break|done].
Qed.

(** Code without loops, nested blocks, labels and [finally], where an [if] body without
    braces is one the checker looks into. *)
Fixpoint plain (s : stmt) : bool :=
  match s with
  | SReturn _ | SThrow _ | SBail _ | SCall _ _ | SExpr _ | SVarDecl _ | SVarDestructure _ _
  | SAssign _ _ _ | SCompoundAssign _ _ _ | SDefer _ | SOther _ _ _ => true
  | SIf _ b elifs els =>
      plainBody b && forallb plainElseIf elifs &&
      match els with Some b => plainBody b | None => true end
  | SSwitch _ cases d =>
      forallb plainCase cases && match d with Some b => forallb plain b | None => true end
  | STryCatch b cs None => forallb plain b && forallb plainCatch cs
  | _ => false
  end
with plainBody (b : if_body) : bool :=
  match b with
  | IfBlock b => forallb plain b
  | IfStmt s => plain s && eqb (ifBodyAlwaysReturns (IfStmt s)) (stmtReturns s)
  end
with plainElseIf (i : else_if) : bool := match i with ElseIf _ b => plainBody b end
with plainCase (c : switch_case) : bool := match c with Case _ b => forallb plain b end
with plainCatch (c : catch_clause) : bool := match c with Catch _ _ b => forallb plain b end.

Definition can_pass (s : stmt) : Prop :=
  plain s = true → stmtReturns s = false → exec_stmt s ONext.

Lemma block_passes b :
  Forall can_pass b → forallb plain b = true → existsb stmtReturns b = false → exec_block b ONext.
Proof.
  induction 1 as [|s b Hs _ IH]; simpl; [constructor|]. intros Hp Hr. split_andb.
  apply orb_false_iff in Hr as [? ?]. apply ex_next; auto.
Qed.

Lemma body_passes b :
  Forall can_pass (body_stmts b) → plainBody b = true → ifBodyAlwaysReturns b = false →
  exec_ifBody b ONext.
Proof.
  destruct b as [b|s]; simpl; intros Hf Hp Hr.
  - apply ex_ifBlock. by apply block_passes.
  - split_andb. apply eqb_prop in H0. apply ex_ifStmt. inversion Hf; subst.
    apply H3; [done|]. rewrite <-H0. exact Hr.
Qed.

Lemma forallb_false {A} (f : A → bool) l : forallb f l = false → ∃ x, x ∈ l ∧ f x = false.
Proof.
  induction l as [|a l IH]; simpl; [done|].
  intros [H|H]%andb_false_iff; [exists a|destruct (IH H) as (x & ? & ?); exists x];
    split; (by left || by right || done).
Qed.

Lemma Forall_flat_map_in {A B} (P : B → Prop) (f : A → list B) l x :
  Forall P (flat_map f l) → x ∈ l → Forall P (f x).
Proof.
  induction l as [|a l IH]; simpl; [by intros _ ?%not_elem_of_nil|].
  intros [? ?]%Forall_app [->|?]%elem_of_cons; auto.
Qed.

Lemma plain_passes s : can_pass s.
Proof.
  revert s. refine (stmt_sub_ind _ _). intros s IH Hp Hr.
  destruct s as [| | | | | | |c b elifs els| | | | | | | |e cases d| |b cs f| | | | | | | |];
    try done; simpl in *.
  all: try (apply ex_simple; simpl; by rewrite ?Hr).
  - apply Forall_app in IH as [Hb [He Hl]%Forall_app]. split_andb.
    destruct els as [els|]; [|apply ex_noElse].
    apply andb_false_iff in Hr as [[Hr|Hr]%andb_false_iff|Hr].
    + apply ex_then. by apply body_passes.
    + apply forallb_false in Hr as ([c' b'] & Hin & Hr).
      eapply ex_elseIf; [exact Hin|]. pose proof (forallb_in _ _ _ H1 Hin).
      apply body_passes; [exact (Forall_flat_map_in _ _ _ _ He Hin)|done|done].
    + apply ex_else. by apply body_passes.
  - apply Forall_app in IH as [Hc Hd]. split_andb.
    destruct d as [d|]; [|apply ex_noCase].
    apply andb_false_iff in Hr as [Hr|Hr].
    + apply forallb_false in Hr as ([ls b] & Hin & Hr).
      eapply ex_case; [exact Hin|]. pose proof (forallb_in _ _ _ H Hin).
      apply block_passes; [exact (Forall_flat_map_in _ _ _ _ Hc Hin)|done|done].
    + apply ex_default. by apply block_passes.
  - destruct f as [f|]; [done|]. apply Forall_app in IH as [Hb Hc]. split_andb.
    simpl in Hc. rewrite app_nil_r in Hc.
    destruct b as [|s0 b0]; [by apply ex_try_next; constructor|].
    apply andb_false_iff in Hr as [Hr|Hr].
    + apply ex_try_next; [by apply block_passes|constructor].
    + apply forallb_false in Hr as ([ty x b'] & Hin & Hr).
      pose proof (forallb_in _ _ _ H0 Hin).
      eapply ex_catch_next; [by apply ex_stop; [apply ex_throws|]|exact Hin| |constructor].
      apply block_passes; [exact (Forall_flat_map_in _ _ _ _ Hc Hin)|done|done].
Qed.

(** On code without loops, nested blocks, labels and [finally] the check is exact:
    the end of a block is reachable if and only if the block is not said to return. *)
Lemma blockAlwaysReturns_exact b :
  forallb plain b = true → forallb noBreak b = true →
  blockAlwaysReturns b = false ↔ exec_block b ONext.
Proof.
  intros Hp Hb. split.
  - intros Hr. apply block_passes; [|done|done].
    apply Forall_forall. intros s _. apply plain_passes.
  - intros Hx. destruct (blockAlwaysReturns b) eqn:E; [|done].
    exfalso. by apply (proj1 (proj2 (proj2 stmtReturns_sound)) b ONext Hx Hb E).
Qed.

Definition partial_example : block :=
  [SIf (EIdent "a") (IfBlock [SReturn None])
     [ElseIf (EIdent "b") (IfStmt (SThrow (EIdent "e")))]
     (Some (IfBlock [SSwitch (EIdent "x") [Case [EIdent "y"] [SCall "print" None]] (Some [SReturn None])]))].

Lemma blockAlwaysReturns_exact_witness :
  (blockAlwaysReturns partial_example = false ↔ exec_block partial_example ONext) ∧
  exec_block partial_example ONext.
Proof.
  split; [apply blockAlwaysReturns_exact; reflexivity|].
  apply blockAlwaysReturns_exact; reflexivity.
Defined.
