(* ===== verification/Builtins.v ===== *)
(** * Built-in functions

    [types/BuiltinRegistry.{h,cpp}]: the signatures of the functions of the standard
    library and the types of its constants. *)

From S2P Require Import Prelude CxxLib.

Record BuiltinSignature := {
  bs_name : string;
  bs_returnType : string;
  bs_paramTypes : list string;
  bs_isPolymorphic : bool;
  bs_isVariadic : bool;
  bs_returnsOwned : bool;
  bs_consumingArgs : list nat;
  bs_borrowedArgs : list nat;
  bs_description : string }.

#[export] Instance settable_BuiltinSignature : Settable BuiltinSignature := λ s,
  Build_BuiltinSignature (bs_name s) (bs_returnType s) (bs_paramTypes s) (bs_isPolymorphic s)
    (bs_isVariadic s) (bs_returnsOwned s) (bs_consumingArgs s) (bs_borrowedArgs s)
    (bs_description s).

Record BuiltinRegistry := {
  br_signatures : gmap string BuiltinSignature;
  br_constants : gmap string string }.

#[export] Instance settable_BuiltinRegistry : Settable BuiltinRegistry := λ r,
  Build_BuiltinRegistry (br_signatures r) (br_constants r).

(** [add]: the arguments are those of the entry. *)
Definition br_add (r : BuiltinRegistry) (s : BuiltinSignature) : BuiltinRegistry :=
  r <| br_signatures := <[bs_name s := s]> (br_signatures r) |>.
Definition br_addConstant (r : BuiltinRegistry) (c : string * string) : BuiltinRegistry :=
  r <| br_constants := <[c.1 := c.2]> (br_constants r) |>.

Definition br_lookup (r : BuiltinRegistry) (name : string) : option BuiltinSignature :=
  br_signatures r !! name.
Definition br_lookupConstant (r : BuiltinRegistry) (name : string) : string :=
  default "" (br_constants r !! name).
Definition br_returnsOwned (r : BuiltinRegistry) (name : string) : bool :=
  match br_signatures r !! name with Some s => bs_returnsOwned s | None => false end.
Definition argConsumes (r : BuiltinRegistry) (name : string) (argIndex : nat) : bool :=
  match br_signatures r !! name with
  | Some s => existsb (λ i, bool_decide (i = argIndex)) (bs_consumingArgs s)
  | None => false
  end.
Definition argBorrows (r : BuiltinRegistry) (name : string) (argIndex : nat) : bool :=
  match br_signatures r !! name with
  | Some s => existsb (λ i, bool_decide (i = argIndex)) (bs_borrowedArgs s)
  | None => false
  end.

(** ** The entries *)

(** [add] with the default arguments, and the optional arguments. *)
Definition sig (name returnType : string) (params : list string) : BuiltinSignature := {|
  bs_name := name; bs_returnType := returnType; bs_paramTypes := params;
  bs_isPolymorphic := false; bs_isVariadic := false; bs_returnsOwned := false;
  bs_consumingArgs := []; bs_borrowedArgs := []; bs_description := "" |}.
Definition poly (s : BuiltinSignature) := s <| bs_isPolymorphic := true |>.
Definition variadic (s : BuiltinSignature) := s <| bs_isVariadic := true |>.
Definition owned (s : BuiltinSignature) := s <| bs_returnsOwned := true |>.
Definition consumes (l : list nat) (s : BuiltinSignature) := s <| bs_consumingArgs := l |>.
Definition borrows (l : list nat) (s : BuiltinSignature) := s <| bs_borrowedArgs := l |>.
Definition describe (d : string) (s : BuiltinSignature) := s <| bs_description := d |>.

Definition sigs_log : list BuiltinSignature := [
  poly (sig "println" "void" ["_any"]);
  poly (sig "print" "void" ["_any"]);
  poly (sig "eprintln" "void" ["_any"]);
  poly (sig "eprint" "void" ["_any"]);
  poly (sig "dbg" "_any" ["_any"]);
  owned (variadic (poly (sig "sprintf" "string" ["string"]))) ].

Definition sigs_io : list BuiltinSignature := [
  owned (sig "readLine" "string" []);
  sig "readChar" "char" [];
  sig "readInt" "int64" [];
  sig "readFloat" "float64" [];
  sig "readBool" "bool" [];
  owned (sig "readAll" "string" []);
  borrows [0] (owned (sig "prompt" "string" ["string"]));
  sig "promptInt" "int64" ["string"];
  sig "promptFloat" "float64" ["string"];
  sig "promptBool" "bool" ["string"];
  sig "readByte" "uint8" [];
  sig "readLines" "Vec<string>" [];
  sig "readNBytes" "Vec<uint8>" ["usize"];
  sig "isEOF" "bool" [];
  owned (sig "readPassword" "string" []);
  borrows [0] (owned (sig "promptPassword" "string" ["string"]));
  sig "flush" "void" [];
  sig "flushErr" "void" [];
  sig "isTTY" "bool" [];
  sig "isStdoutTTY" "bool" [];
  sig "isStderrTTY" "bool" [] ].

Definition sigs_math : list BuiltinSignature := [
  sig "sqrt" "float64" ["float64"];
  sig "cbrt" "float64" ["float64"];
  sig "exp" "float64" ["float64"];
  sig "exp2" "float64" ["float64"];
  sig "ln" "float64" ["float64"];
  sig "log2" "float64" ["float64"];
  sig "log10" "float64" ["float64"];
  sig "sin" "float64" ["float64"];
  sig "cos" "float64" ["float64"];
  sig "tan" "float64" ["float64"];
  sig "asin" "float64" ["float64"];
  sig "acos" "float64" ["float64"];
  sig "atan" "float64" ["float64"];
  sig "sinh" "float64" ["float64"];
  sig "cosh" "float64" ["float64"];
  sig "tanh" "float64" ["float64"];
  sig "ceil" "float64" ["float64"];
  sig "floor" "float64" ["float64"];
  sig "round" "float64" ["float64"];
  sig "trunc" "float64" ["float64"];
  sig "toRadians" "float64" ["float64"];
  sig "toDegrees" "float64" ["float64"];
  sig "pow" "float64" ["float64"; "float64"];
  sig "hypot" "float64" ["float64"; "float64"];
  sig "atan2" "float64" ["float64"; "float64"];
  sig "lerp" "float64" ["float64"; "float64"; "float64"];
  sig "map" "float64" ["float64"; "float64"; "float64"; "float64"; "float64"];
  sig "isNaN" "bool" ["float64"];
  sig "isInf" "bool" ["float64"];
  sig "isFinite" "bool" ["float64"];
  poly (sig "abs" "_numeric" ["_numeric"]);
  poly (sig "min" "_numeric" ["_numeric"; "_numeric"]);
  poly (sig "max" "_numeric" ["_numeric"; "_numeric"]);
  poly (sig "clamp" "_numeric" ["_numeric"; "_numeric"; "_numeric"]) ].

Definition sigs_str : list BuiltinSignature := [
  sig "contains" "bool" ["string"; "string"];
  sig "startsWith" "bool" ["string"; "string"];
  sig "endsWith" "bool" ["string"; "string"];
  sig "indexOf" "int64" ["string"; "string"];
  sig "lastIndexOf" "int64" ["string"; "string"];
  sig "count" "usize" ["string"; "string"];
  poly (sig "toUpper" "_any" ["_any"]);
  poly (sig "toLower" "_any" ["_any"]);
  borrows [0] (owned (sig "trim" "string" ["string"]));
  borrows [0] (owned (sig "trimLeft" "string" ["string"]));
  borrows [0] (owned (sig "trimRight" "string" ["string"]));
  borrows [0] (owned (sig "reverse" "string" ["string"]));
  borrows [0; 1; 2] (owned (sig "replace" "string" ["string"; "string"; "string"]));
  borrows [0; 1; 2] (owned (sig "replaceFirst" "string" ["string"; "string"; "string"]));
  borrows [0] (owned (sig "repeat" "string" ["string"; "usize"]));
  sig "padLeft" "string" ["string"; "usize"; "char"];
  sig "padRight" "string" ["string"; "usize"; "char"];
  borrows [0] (owned (sig "substring" "string" ["string"; "usize"; "usize"]));
  sig "charAt" "char" ["string"; "usize"];
  borrows [0] (owned (sig "slice" "string" ["string"; "int64"; "int64"]));
  sig "parseInt" "int64" ["string"];
  sig "parseIntRadix" "int64" ["string"; "uint32"];
  sig "parseFloat" "float64" ["string"];
  sig "split" "Vec<string>" ["string"; "string"];
  sig "splitN" "Vec<string>" ["string"; "string"; "usize"];
  borrows [0; 1] (owned (sig "joinVec" "string" ["Vec<string>"; "string"]));
  sig "lines" "Vec<string>" ["string"];
  sig "chars" "Vec<char>" ["string"];
  borrows [0] (owned (sig "fromChars" "string" ["Vec<char>"]));
  sig "toBytes" "Vec<uint8>" ["string"];
  borrows [0] (owned (sig "fromBytes" "string" ["Vec<uint8>"]));
  sig "fromCharCode" "char" ["int32"] ].

Definition sigs_mem : list BuiltinSignature := [
  sig "alloc" "*void" ["usize"];
  sig "allocZeroed" "*void" ["usize"];
  sig "realloc" "*void" ["*void"; "usize"];
  sig "free" "void" ["*void"];
  sig "copy" "void" ["*void"; "*void"; "usize"];
  sig "move" "void" ["*void"; "*void"; "usize"];
  sig "set" "void" ["*void"; "uint8"; "usize"];
  sig "zero" "void" ["*void"; "usize"];
  sig "compare" "int32" ["*void"; "*void"; "usize"] ].

Definition sigs_random : list BuiltinSignature := [
  sig "seed" "void" ["uint64"];
  sig "seedTime" "void" [];
  sig "randInt" "int64" [];
  sig "randIntRange" "int64" ["int64"; "int64"];
  sig "randUint" "uint64" [];
  sig "randFloat" "float64" [];
  sig "randFloatRange" "float64" ["float64"; "float64"];
  sig "randBool" "bool" [];
  sig "randChar" "char" [];
  sig "uuid_v4" "string" [] ].

Definition sigs_time : list BuiltinSignature := [
  sig "now" "uint64" [];
  sig "nowNanos" "uint64" [];
  sig "nowMicros" "uint64" [];
  sig "sleep" "void" ["uint64"];
  sig "sleepMicros" "void" ["uint64"];
  sig "clock" "uint64" [];
  sig "year" "int32" [];
  sig "month" "int32" [];
  sig "day" "int32" [];
  sig "hour" "int32" [];
  sig "minute" "int32" [];
  sig "second" "int32" [];
  sig "weekday" "int32" [];
  sig "timestamp" "string" [];
  sig "elapsed" "uint64" ["uint64"];
  sig "formatTime" "string" ["uint64"; "string"];
  sig "parseTime" "uint64" ["string"; "string"] ].

Definition sigs_fs : list BuiltinSignature := [
  sig "readFile" "string" ["string"];
  sig "writeFile" "void" ["string"; "string"];
  sig "appendFile" "void" ["string"; "string"];
  sig "exists" "bool" ["string"];
  sig "isFile" "bool" ["string"];
  sig "isDir" "bool" ["string"];
  sig "remove" "bool" ["string"];
  sig "removeDir" "bool" ["string"];
  sig "rename" "bool" ["string"; "string"];
  sig "mkdir" "bool" ["string"];
  sig "mkdirAll" "bool" ["string"];
  sig "listDir" "Vec<string>" ["string"];
  sig "readBytes" "Vec<uint8>" ["string"];
  sig "writeBytes" "void" ["string"; "Vec<uint8>"];
  sig "fileSize" "int64" ["string"];
  sig "cwd" "string" [];
  sig "setCwd" "bool" ["string"];
  sig "tempDir" "string" [] ].

Definition sigs_process : list BuiltinSignature := [
  sig "exit" "void" ["int32"];
  sig "abort" "void" [];
  sig "env" "string" ["string"];
  sig "setEnv" "void" ["string"; "string"];
  sig "hasEnv" "bool" ["string"];
  sig "exec" "int32" ["string"];
  sig "execOutput" "string" ["string"];
  sig "pid" "int32" [];
  sig "platform" "string" [];
  sig "arch" "string" [];
  sig "homeDir" "string" [];
  sig "executablePath" "string" [] ].

Definition sigs_conv : list BuiltinSignature := [
  sig "itoa" "string" ["int64"];
  sig "itoaRadix" "string" ["int64"; "uint32"];
  sig "utoa" "string" ["uint64"];
  sig "ftoa" "string" ["float64"];
  sig "ftoaPrecision" "string" ["float64"; "uint32"];
  sig "atoi" "int64" ["string"];
  sig "atof" "float64" ["string"];
  sig "toHex" "string" ["uint64"];
  sig "toOctal" "string" ["uint64"];
  sig "toBinary" "string" ["uint64"];
  sig "fromHex" "uint64" ["string"];
  sig "charToInt" "int32" ["char"];
  sig "intToChar" "char" ["int32"] ].

Definition sigs_hash : list BuiltinSignature := [
  sig "hashString" "uint64" ["string"];
  sig "hashInt" "uint64" ["int64"];
  sig "hashCombine" "uint64" ["uint64"; "uint64"];
  sig "hashBytes" "uint64" ["Vec<uint8>"];
  sig "crc32" "uint32" ["Vec<uint8>"] ].

Definition sigs_bits : list BuiltinSignature := [
  sig "popcount" "uint32" ["uint64"];
  sig "ctz" "uint32" ["uint64"];
  sig "clz" "uint32" ["uint64"];
  sig "rotl" "uint64" ["uint64"; "uint32"];
  sig "rotr" "uint64" ["uint64"; "uint32"];
  sig "bswap" "uint64" ["uint64"];
  sig "bitReverse" "uint64" ["uint64"];
  sig "isPow2" "bool" ["uint64"];
  sig "nextPow2" "uint64" ["uint64"];
  sig "extractBits" "uint64" ["uint64"; "uint32"; "uint32"];
  sig "setBit" "uint64" ["uint64"; "uint32"];
  sig "clearBit" "uint64" ["uint64"; "uint32"];
  sig "toggleBit" "uint64" ["uint64"; "uint32"];
  sig "testBit" "bool" ["uint64"; "uint32"] ].

Definition sigs_ascii : list BuiltinSignature := [
  sig "isAlpha" "bool" ["char"];
  sig "isDigit" "bool" ["char"];
  sig "isAlphaNum" "bool" ["char"];
  sig "isUpper" "bool" ["char"];
  sig "isLower" "bool" ["char"];
  sig "isWhitespace" "bool" ["char"];
  sig "isPrintable" "bool" ["char"];
  sig "isControl" "bool" ["char"];
  sig "isHexDigit" "bool" ["char"];
  sig "isAscii" "bool" ["char"];
  sig "toDigit" "int32" ["char"];
  sig "fromDigit" "char" ["int32"] ].

Definition sigs_path : list BuiltinSignature := [
  sig "join" "string" ["string"; "string"];
  sig "parent" "string" ["string"];
  sig "fileName" "string" ["string"];
  sig "stem" "string" ["string"];
  sig "extension" "string" ["string"];
  sig "isAbsolute" "bool" ["string"];
  sig "isRelative" "bool" ["string"];
  sig "normalize" "string" ["string"];
  sig "toAbsolute" "string" ["string"];
  sig "separator" "char" [];
  sig "withExtension" "string" ["string"; "string"];
  sig "withFileName" "string" ["string"; "string"];
  sig "joinAll" "string" ["Vec<string>"] ].

Definition sigs_fmt : list BuiltinSignature := [
  sig "lpad" "string" ["string"; "usize"; "char"];
  sig "rpad" "string" ["string"; "usize"; "char"];
  sig "center" "string" ["string"; "usize"; "char"];
  sig "hex" "string" ["uint64"];
  sig "hexUpper" "string" ["uint64"];
  sig "oct" "string" ["uint64"];
  sig "bin" "string" ["uint64"];
  sig "fixed" "string" ["float64"; "uint32"];
  sig "scientific" "string" ["float64"];
  sig "humanBytes" "string" ["uint64"];
  sig "commas" "string" ["int64"];
  sig "percent" "string" ["float64"] ].

Definition sigs_regex : list BuiltinSignature := [
  sig "match" "bool" ["string"; "string"];
  sig "find" "string" ["string"; "string"];
  sig "findIndex" "int64" ["string"; "string"];
  sig "regexReplace" "string" ["string"; "string"; "string"];
  sig "regexReplaceFirst" "string" ["string"; "string"; "string"];
  sig "isValid" "bool" ["string"];
  sig "findAll" "Vec<string>" ["string"; "string"];
  sig "regexSplit" "Vec<string>" ["string"; "string"] ].

Definition sigs_encoding : list BuiltinSignature := [
  sig "base64EncodeStr" "string" ["string"];
  sig "base64DecodeStr" "string" ["string"];
  sig "urlEncode" "string" ["string"];
  sig "urlDecode" "string" ["string"];
  sig "base64Encode" "string" ["Vec<uint8>"];
  sig "base64Decode" "Vec<uint8>" ["string"] ].

Definition sigs_os : list BuiltinSignature := [
  sig "getpid" "int32" [];
  sig "getppid" "int32" [];
  sig "getuid" "uint32" [];
  sig "getgid" "uint32" [];
  sig "hostname" "string" [];
  sig "pageSize" "usize" [];
  sig "errno" "int32" [];
  sig "strerror" "string" ["int32"];
  sig "kill" "int32" ["int32"; "int32"];
  sig "dup" "int32" ["int32"];
  sig "dup2" "int32" ["int32"; "int32"];
  sig "closeFd" "int32" ["int32"] ].

Definition sigs_test : list BuiltinSignature := [
  poly (sig "assertEqual" "void" ["_any"; "_any"]);
  poly (sig "assertNotEqual" "void" ["_any"; "_any"]);
  sig "assertTrue" "void" ["bool"];
  sig "assertFalse" "void" ["bool"];
  poly (sig "assertGreater" "void" ["_numeric"; "_numeric"]);
  poly (sig "assertLess" "void" ["_numeric"; "_numeric"]);
  poly (sig "assertGreaterEq" "void" ["_numeric"; "_numeric"]);
  poly (sig "assertLessEq" "void" ["_numeric"; "_numeric"]);
  sig "assertStringContains" "void" ["string"; "string"];
  sig "assertNear" "void" ["float64"; "float64"; "float64"];
  sig "fail" "void" ["string"];
  sig "skip" "void" ["string"];
  sig "log" "void" ["string"] ].

Definition sigs_crypto : list BuiltinSignature := [
  sig "md5String" "string" ["string"];
  sig "sha1String" "string" ["string"];
  sig "sha256String" "string" ["string"];
  sig "sha512String" "string" ["string"];
  sig "md5" "string" ["Vec<uint8>"];
  sig "sha1" "string" ["Vec<uint8>"];
  sig "sha256" "string" ["Vec<uint8>"];
  sig "sha512" "string" ["Vec<uint8>"];
  sig "hmacSha256" "Vec<uint8>" ["Vec<uint8>"; "Vec<uint8>"];
  sig "randomBytes" "Vec<uint8>" ["usize"] ].

Definition sigs_compress : list BuiltinSignature := [
  sig "gzipCompress" "string" ["string"];
  sig "gzipDecompress" "string" ["string"];
  sig "deflate" "string" ["string"];
  sig "inflate" "string" ["string"];
  sig "compressLevel" "string" ["string"; "int32"] ].

Definition sigs_net : list BuiltinSignature := [
  sig "tcpConnect" "int32" ["string"; "uint16"];
  sig "tcpListen" "int32" ["string"; "uint16"];
  sig "tcpAccept" "int32" ["int32"];
  sig "tcpSend" "int64" ["int32"; "string"];
  sig "tcpRecv" "string" ["int32"; "usize"];
  sig "udpBind" "int32" ["string"; "uint16"];
  sig "udpSendTo" "int64" ["int32"; "string"; "string"; "uint16"];
  sig "udpRecvFrom" "string" ["int32"; "usize"];
  sig "close" "void" ["int32"];
  sig "setTimeout" "void" ["int32"; "uint64"];
  sig "resolve" "string" ["string"] ].

Definition sigs_thread : list BuiltinSignature := [
  sig "cpuCount" "uint32" [];
  sig "threadId" "uint64" [];
  sig "yield" "void" [] ].

Definition sigs_global : list BuiltinSignature := [
  sig "panic" "void" ["string"];
  sig "assert" "void" ["bool"];
  sig "assertMsg" "void" ["bool"; "string"];
  sig "unreachable" "void" [];
  sig "toInt" "int64" ["string"];
  sig "toFloat" "float64" ["string"];
  sig "toBool" "bool" ["string"];
  poly (sig "toString" "string" ["_any"]);
  describe "Allocate and return a null-terminated C copy of a Lucis string. The caller **owns** the returned `*char` and must `free()` it when done."
    (sig "cstr" "*char" ["string"]);
  describe "Create a string from a null-terminated C string **without copying**. The returned string **borrows** the pointer — do not free the original while the string is in use. Use `fromCStrCopy` instead if you need an owned copy."
    (borrows [0] (sig "fromCStr" "string" ["*char"]));
  describe "Create a string by copying a null-terminated C string. The returned string **owns** its memory and will be freed automatically."
    (owned (sig "fromCStrCopy" "string" ["*char"]));
  describe "Create a string from a C string with explicit length, **without copying**. The returned string **borrows** the pointer — do not free the original while the string is in use. Use `fromCStrCopy` instead if you need an owned copy."
    (borrows [0] (sig "fromCStrLen" "string" ["*char"; "usize"]));
  describe "Free the underlying buffer of a Lucis string. Only needed for strings whose memory must be reclaimed before scope exit. Calling `freeStr` on a borrowed string (literal, `fromCStr`, `fromCStrLen`) is undefined behaviour."
    (consumes [0] (sig "freeStr" "void" ["string"])) ].

Definition builtinConstants : list (string * string) := [
  ("PI", "float64");
  ("E", "float64");
  ("TAU", "float64");
  ("INF", "float64");
  ("NAN", "float64");
  ("INT32_MAX", "int32");
  ("INT32_MIN", "int32");
  ("INT64_MAX", "int64");
  ("INT64_MIN", "int64");
  ("UINT32_MAX", "uint32");
  ("UINT64_MAX", "uint64");
  ("ISIZE_MIN", "isize");
  ("ISIZE_MAX", "isize");
  ("USIZE_MAX", "usize") ].

(** The entries in the order the constructor adds them. *)
Definition builtinSignatures : list BuiltinSignature :=
  sigs_log ++
  sigs_io ++
  sigs_math ++
  sigs_str ++
  sigs_mem ++
  sigs_random ++
  sigs_time ++
  sigs_fs ++
  sigs_process ++
  sigs_conv ++
  sigs_hash ++
  sigs_bits ++
  sigs_ascii ++
  sigs_path ++
  sigs_fmt ++
  sigs_regex ++
  sigs_encoding ++
  sigs_os ++
  sigs_test ++
  sigs_crypto ++
  sigs_compress ++
  sigs_net ++
  sigs_thread ++
  sigs_global.

Definition newBuiltinRegistry : BuiltinRegistry :=
  fold_left br_addConstant builtinConstants
    (fold_left br_add builtinSignatures {| br_signatures := ∅; br_constants := ∅ |}).

(** ** Properties of the table *)

Lemma signatures_addConstants cs r :
  br_signatures (fold_left br_addConstant cs r) = br_signatures r.
Proof. revert r. induction cs as [|c cs IH]; intros r; simpl; [done|]. by rewrite IH. Qed.

Lemma lookup_added l r name s :
  br_lookup (fold_left br_add l r) name = Some s →
  (s ∈ l ∧ bs_name s = name) ∨ br_lookup r name = Some s.
Proof.
  revert r. induction l as [|t l IH]; intros r; simpl; [by right|].
  intros [[? ?]|H]%IH; [left; split; [by right|done]|].
  unfold br_lookup, br_add in H. cbn [set_field] in H. simpl in H.
  destruct (decide (bs_name t = name)) as [<-|Hne].
  - rewrite lookup_insert_eq in H. simplify_eq. left. split; [by left|done].
  - rewrite lookup_insert_ne in H by done. by right.
Qed.

Lemma lookup_in_table name s :
  br_lookup newBuiltinRegistry name = Some s → s ∈ builtinSignatures ∧ bs_name s = name.
Proof.
  unfold br_lookup, newBuiltinRegistry. rewrite signatures_addConstants.
  intros H. destruct (lookup_added _ _ _ _ H) as [?|Hempty]; [done|].
  vm_compute in Hempty; discriminate Hempty.
Qed.

(** The argument indices of an entry are positions of its parameters, and none is both
    consumed and borrowed. *)
Definition entry_ok (s : BuiltinSignature) : bool :=
  forallb (λ i, i <? length (bs_paramTypes s))%nat (bs_consumingArgs s ++ bs_borrowedArgs s) &&
  forallb (λ i, negb (existsb (λ j, bool_decide (j = i)) (bs_borrowedArgs s))) (bs_consumingArgs s) &&
  (bool_decide (bs_name s = "freeStr") || bool_decide (bs_consumingArgs s = [])).

Lemma table_ok : forallb entry_ok builtinSignatures = true.
Proof. vm_compute. reflexivity. Qed.

Lemma table_nodup : NoDup (bs_name <$> builtinSignatures).
Proof. apply (bool_decide_unpack _). vm_compute. exact I. Qed.

Lemma entry_ok_spec s : s ∈ builtinSignatures →
  (∀ i, i ∈ bs_consumingArgs s ++ bs_borrowedArgs s → i < length (bs_paramTypes s)) ∧
  (∀ i, i ∈ bs_consumingArgs s → i ∉ bs_borrowedArgs s) ∧
  (bs_name s = "freeStr" ∨ bs_consumingArgs s = []).
Proof.
  intros Hs. pose proof table_ok as H. rewrite forallb_forall in H.
  specialize (H s (proj1 (list_elem_of_In _ _) Hs)). unfold entry_ok in H.
  apply andb_true_iff in H as [[Hr Hd]%andb_true_iff Hn].
  rewrite forallb_forall in Hr, Hd. split_and!.
  - intros i Hi. apply Nat.ltb_lt, Hr. by apply list_elem_of_In.
  - intros i Hi%list_elem_of_In Hb. specialize (Hd i Hi). apply negb_true_iff in Hd.
    apply existsb_bool_decide_elem_of in Hb. congruence.
  - by apply orb_true_iff in Hn as [?%bool_decide_eq_true_1|?%bool_decide_eq_true_1]; auto.
Qed.

Lemma lookup_fold_other l r name :
  name ∉ bs_name <$> l → br_signatures (fold_left br_add l r) !! name = br_signatures r !! name.
Proof.
  revert r. induction l as [|t l IH]; intros r; simpl; [done|].
  intros [Hne Hn]%not_elem_of_cons. rewrite (IH _ Hn). simpl. by rewrite lookup_insert_ne.
Qed.
Lemma lookup_fold_in l r s :
  NoDup (bs_name <$> l) → s ∈ l → br_signatures (fold_left br_add l r) !! bs_name s = Some s.
Proof.
  revert r. induction l as [|t l IH]; intros r; simpl; [by intros _ ?%not_elem_of_nil|].
  intros [Hn Hnd]%NoDup_cons [->|Hs]%elem_of_cons; [|by apply IH].
  rewrite lookup_fold_other by done. simpl. apply lookup_insert_eq.
Qed.

(** The table of built-in functions has one entry per name, found under that name;
    consumed and borrowed arguments are positions of parameters and never both, and the
    only argument any built-in function consumes is the one of [freeStr]. *)
Lemma builtin_table :
  NoDup (bs_name <$> builtinSignatures) ∧
  (∀ s, br_lookup newBuiltinRegistry (bs_name s) = Some s ↔ s ∈ builtinSignatures) ∧
  (∀ name i, argConsumes newBuiltinRegistry name i = true ↔ name = "freeStr" ∧ i = 0) ∧
  (∀ name i, argBorrows newBuiltinRegistry name i = true →
     argConsumes newBuiltinRegistry name i = false ∧
     ∃ s, br_lookup newBuiltinRegistry name = Some s ∧ i < length (bs_paramTypes s)).
Proof.
  split; [exact table_nodup|]. split; [|split].
  - intros s. split; [by intros [? _]%lookup_in_table|].
    intros Hs. unfold br_lookup, newBuiltinRegistry. rewrite signatures_addConstants.
    by apply lookup_fold_in; [exact table_nodup|].
  - intros name i. split.
    + unfold argConsumes. destruct (br_signatures newBuiltinRegistry !! name) as [s|] eqn:E; [|done].
      rewrite existsb_bool_decide_elem_of. intros Hi.
      destruct (lookup_in_table name s E) as [Hs <-].
      destruct (entry_ok_spec s Hs) as (_ & _ & [Hn|Hn]); [|rewrite Hn in Hi; by apply not_elem_of_nil in Hi].
      rewrite Hn in E |- *. split; [done|].
      assert (Hf : bs_consumingArgs <$> br_signatures newBuiltinRegistry !! "freeStr" = Some [0])
        by (vm_compute; reflexivity).
      rewrite E in Hf. injection Hf as Hf. rewrite Hf in Hi. by apply list_elem_of_singleton in Hi.
    + intros [-> ->]. vm_compute. reflexivity.
  - intros name i. unfold argBorrows, argConsumes, br_lookup.
    destruct (br_signatures newBuiltinRegistry !! name) as [s|] eqn:E; [|done].
    rewrite existsb_bool_decide_elem_of. intros Hi.
    destruct (lookup_in_table name s E) as [Hs _].
    destruct (entry_ok_spec s Hs) as (Hr & Hd & _). split.
    + apply not_true_is_false. rewrite existsb_bool_decide_elem_of. intros Hc. by apply (Hd i).
    + exists s. split; [done|]. apply Hr. apply elem_of_app. by right.
Qed.
