(* ===== verification/Ownership.v ===== *)
(** * Ownership, buffers and ranges in the checker

    [checkers/Checker_safety.cpp]: diagnostics, the ranges of unsigned expressions, the
    lengths of string literals, the buffers behind pointers, the moves of owned values,
    and which parameters a function consumes.  The analysis of calls of C functions is in
    [CBuffer].

    [size_t] and [uint64_t] are integers with the source's overflow checks; line and
    column numbers do not overflow.  A context is [None] when it is null or without
    tokens, and otherwise its first and last token. *)

From S2P Require Import Prelude CxxLib TypeInfo Syntax ComptimeValue ConstEval Builtins.
Local Open Scope Z_scope.

(** ** Diagnostics *)

Inductive Severity := Error | Warning | Info | Hint.

Record Diagnostic := {
  d_line : Z; d_col : Z; d_endLine : Z; d_endCol : Z;
  d_severity : Severity; d_message : string; d_code : string }.

(** What the checker reads of an ANTLR token. *)
Record Token := { tk_line : Z; tk_column : Z; tk_text : string }.

Notation context := (option (Token * option Token)).

Definition ownershipDiagnosticCode (msg : string) : string :=
  if str_contains "already moved" msg then "OWN001" else
  if str_contains "consumes ownership" msg then "OWN002" else
  if str_contains "borrowed" msg && str_contains "ownership" msg then "OWN003" else
  if str_contains "double" msg && str_contains "free" msg then "OWN004" else "".

(** ** Variables *)

Module OS.
Inductive OwnershipState := Owned | BorrowedImm | BorrowedMut | Moved | Escaped | Dropped.
End OS.
Notation OwnershipState := OS.OwnershipState.

#[export] Instance OwnershipState_eq_dec : EqDecision OwnershipState.
Proof. solve_decision. Defined.

Record VarInfo := {
  vi_type : option TypeInfo;
  vi_arrayDims : Z;
  vi_initialized : bool;
  vi_used : bool;
  vi_ownership : OwnershipState;
  vi_hasBufferCapacity : bool;
  vi_bufferCapacity : Z;
  vi_hasKnownCStringLen : bool;
  vi_cstringLen : Z;
  vi_hasKnownUSizeRange : bool;
  vi_minUSize : Z;
  vi_maxUSize : Z;
  vi_pointerEscaped : bool }.

#[export] Instance settable_VarInfo : Settable VarInfo := λ v,
  Build_VarInfo (vi_type v) (vi_arrayDims v) (vi_initialized v) (vi_used v) (vi_ownership v)
    (vi_hasBufferCapacity v) (vi_bufferCapacity v) (vi_hasKnownCStringLen v) (vi_cstringLen v)
    (vi_hasKnownUSizeRange v) (vi_minUSize v) (vi_maxUSize v) (vi_pointerEscaped v).

(** The parameter [ce_param] of the caller is argument [ce_arg] of a call of [ce_callee]. *)
Record ConsumeEdge := { ce_param : nat; ce_callee : string; ce_arg : nat }.

#[export] Instance ConsumeEdge_eq_dec : EqDecision ConsumeEdge.
Proof. solve_decision. Defined.

(** The members of the checker these functions use. *)
Record Checker := {
  errors_ : list string;
  diagnostics_ : list Diagnostic;
  locals_ : gmap string VarInfo;
  userFunctionConsumingArgs_ : gmap string (list nat);
  currentFnConsumeKey_ : string;
  currentParamIndices_ : gmap string nat;
  consumeEdges_ : gmap string (list ConsumeEdge) }.

#[export] Instance settable_Checker : Settable Checker := λ c,
  Build_Checker (errors_ c) (diagnostics_ c) (locals_ c) (userFunctionConsumingArgs_ c)
    (currentFnConsumeKey_ c) (currentParamIndices_ c) (consumeEdges_ c).

Definition emitDiag (ctx : context) (sev : Severity) (msg : string) (c : Checker) : Checker :=
  match ctx with
  | None =>
      c <| errors_ := errors_ c ++ [msg] |>
        <| diagnostics_ := diagnostics_ c ++
             [{| d_line := 0; d_col := 0; d_endLine := 0; d_endCol := 0; d_severity := sev;
                 d_message := msg; d_code := ownershipDiagnosticCode msg |}] |>
  | Some (start, stop) =>
      let prefix := match sev with Warning => "warning: " | _ => "" end in
      let line := if 0 <? tk_line start then tk_line start - 1 else 0 in
      let col := tk_column start in
      let '(endLine, endCol) :=
        match stop with
        | Some s =>
            if 0 <? tk_line s
            then (tk_line s - 1, tk_column s + Z.of_nat (String.length (tk_text s)))
            else (line, col + Z.of_nat (String.length (tk_text start)))
        | None => (line, col + Z.of_nat (String.length (tk_text start)))
        end in
      let endCol := if (endLine =? line) && (endCol <=? col) then col + 1 else endCol in
      c <| errors_ := errors_ c ++
             [to_string (tk_line start) +:+ ":" +:+ to_string (tk_column start + 1) +:+ ": " +:+
              prefix +:+ msg] |>
        <| diagnostics_ := diagnostics_ c ++
             [{| d_line := line; d_col := col; d_endLine := endLine; d_endCol := endCol;
                 d_severity := sev; d_message := msg; d_code := ownershipDiagnosticCode msg |}] |>
  end.

Definition error (ctx : context) (msg : string) : Checker → Checker := emitDiag ctx Error msg.
Definition warning (ctx : context) (msg : string) : Checker → Checker := emitDiag ctx Warning msg.

(** ** Ranges of unsigned expressions *)

Definition intSuffixes : list string := [
  "i8"; "i16"; "i32"; "i64"; "i128"; "iinf"; "isize";
  "u8"; "u16"; "u32"; "u64"; "u128"; "usize" ].

(** The digits of a literal, without the separators, as an unsigned number. *)
Definition parseUSize (text : string) : outcome (option (Z * Z)) :=
  match str_remove "_" text with
  | "" => Ret None
  | String c _ as s =>
      if bool_decide (c = "-"%char) then Ret None else
      v ← catch_all (stoull 10 s);
      Ret match v with Some v => Some (v, v) | None => None end
  end.

Fixpoint tryEvalSuffixed (sufs : list string) (text : string) : outcome (option (Z * Z)) :=
  match sufs with
  | [] => Ret None
  | suf :: sufs =>
      if ends_with_strict suf text
      then parseUSize (str_take (String.length text - String.length suf) text)
      else tryEvalSuffixed sufs text
  end.

Definition addRanges (l r : Z * Z) : option (Z * Z) :=
  if uint64_max - r.1 <? l.1 then None else
  if uint64_max - r.2 <? l.2 then None else
  Some (l.1 + r.1, l.2 + r.2).

Definition subRanges (l r : Z * Z) : option (Z * Z) :=
  if l.1 <? r.2 then None else Some (l.1 - r.2, l.2 - r.1).

Definition mulRanges (l r : Z * Z) : option (Z * Z) :=
  if (0 <? l.1) && (uint64_max / l.1 <? r.1) then None else
  if (0 <? l.2) && (uint64_max / l.2 <? r.2) then None else
  Some (l.1 * r.1, l.2 * r.2).

Fixpoint tryEvalUSizeRangeExpr (locals : gmap string VarInfo) (e : expr)
    : outcome (option (Z * Z)) :=
  let binary (f : Z * Z → Z * Z → option (Z * Z)) (l r : expr) :=
    lhs ← tryEvalUSizeRangeExpr locals l;
    rhs ← tryEvalUSizeRangeExpr locals r;
    Ret match lhs, rhs with Some a, Some b => f a b | _, _ => None end in
  match e with
  | ECast e _ | EParen e => tryEvalUSizeRangeExpr locals e
  | ELit IntLit text => parseUSize text
  | ELit (SuffixedIntLit | SuffixedHexLit | SuffixedOctLit | SuffixedBinLit) text =>
      tryEvalSuffixed intSuffixes text
  | EIdent x =>
      Ret match locals !! x with
          | Some vi => if vi_hasKnownUSizeRange vi then Some (vi_minUSize vi, vi_maxUSize vi) else None
          | None => None
          end
  | EBin BAddSub op l r =>
      binary (λ a b, if bool_decide (op = "+") then addRanges a b else
                     if bool_decide (op = "-") then subRanges a b else None) l r
  | EBin BMul op l r => if bool_decide (op = "*") then binary mulRanges l r else Ret None
  | _ => Ret None
  end.

Definition tryEvalUSizeExpr (locals : gmap string VarInfo) (e : expr) : outcome (option Z) :=
  range ← tryEvalUSizeRangeExpr locals e;
  Ret match range with Some (a, b) => if a =? b then Some a else None | None => None end.

(** ** Lengths of string literals *)

Definition quote : ascii := ascii_of_N 34.
Definition backtick : ascii := ascii_of_N 96.

Definition last_char (s : string) : option ascii :=
  match str_drop (String.length s - 1) s with String c _ => Some c | "" => None end.

(** Bytes of a code point in UTF-8. *)
Definition utf8_len (cp : Z) : Z :=
  if cp <=? 127 then 1 else if cp <=? 2047 then 2 else if cp <=? 65535 then 3 else 4.

Definition is_oct (c : ascii) : bool := (48 <=? code c) && (code c <=? 55).

(** The loop over further octal digits, which stops before the last character. *)
Fixpoint skipOctal (n : nat) (s : string) : string :=
  match n, s with
  | S n, String c (String _ _ as s') => if is_oct c then skipOctal n s' else s
  | _, _ => s
  end.

(** Letters after a backslash that stand for one byte. *)
Definition simpleEscape (c : ascii) : bool :=
  existsb (λ d, bool_decide (d = c))
    ["n"; "r"; "t"; "\"; quote; "'"; "a"; "b"; "f"; "v"; "e"; "E"; "?"]%char.

(** The loop over the token; [s] is the token from the current position on.  Every
    round advances, so fuel for the length is enough. *)
Fixpoint decodeLoop (fuel : nat) (s : string) (len : Z) : outcome (option Z) :=
  match fuel with
  | O => NoFuel
  | S fuel =>
      if (String.length s <=? 1)%nat then Ret (Some len) else
      match s with
      | String c rest =>
          if negb (bool_decide (c = "\"%char)) then decodeLoop fuel rest (len + 1) else
          if (String.length s <=? 2)%nat then Ret None else
          match rest with
          | String next rest' =>
              let unicode (digits : nat) :=
                if (String.length s <=? 1 + digits)%nat then Ret None else
                cp ← stoull 16 (str_take digits rest');
                decodeLoop fuel (str_drop digits rest') (len + utf8_len (to_uint32 cp)) in
              if simpleEscape next then decodeLoop fuel rest' (len + 1) else
              if bool_decide (next = "x"%char) then
                if (String.length s <=? 3)%nat then Ret None
                else decodeLoop fuel (str_drop 2 rest') (len + 1) else
              if bool_decide (next = "u"%char) then unicode 4%nat else
              if bool_decide (next = "U"%char) then unicode 8%nat else
              if is_oct next then decodeLoop fuel (skipOctal 2 rest') (len + 1)
              else decodeLoop fuel rest' (len + 1)
          | "" => Ret None
          end
      | "" => Ret (Some len)
      end
  end.

Definition decodeLen (tok prefix : string) : outcome (option Z) :=
  if (String.length tok <? String.length prefix + 2)%nat then Ret None else
  if negb (starts_with prefix tok) then Ret None else
  if negb (bool_decide (last_char tok = Some quote)) then Ret None else
  decodeLoop (S (String.length tok)) (str_drop (String.length prefix + 1) tok) 0.

(** Content length with doubled backticks counted once. *)
Fixpoint countBackticks (s : string) : Z :=
  match s with
  | "" => 0
  | String c s' =>
      match s' with
      | String d s'' =>
          if bool_decide (c = backtick) && bool_decide (d = backtick)
          then 1 + countBackticks s'' else 1 + countBackticks s'
      | "" => 1
      end
  end.

Fixpoint rfind_char (c : ascii) (s : string) : option nat :=
  match s with
  | "" => None
  | String a s =>
      match rfind_char c s with
      | Some n => Some (S n)
      | None => if bool_decide (a = c) then Some 0%nat else None
      end
  end.

Definition backtickContentLen (tok : string) : option Z :=
  match find_char backtick tok, rfind_char backtick tok with
  | Some first, Some last =>
      if (last <=? first)%nat then None
      else Some (countBackticks (str_take (last - first - 1) (str_drop (first + 1) tok)))
  | _, _ => None
  end.

Fixpoint tryGetCStringLiteralLen (e : expr) : outcome (option Z) :=
  match e with
  | ECast e _ => tryGetCStringLiteralLen e
  | ELit CStrLit tok => decodeLen tok "c"
  | ELit StrLit tok => decodeLen tok ""
  | ELit (BtickLit | RawBtickLit | IntBtickLit | ShellBtickLit | CmptBtickLit) tok =>
      Ret (backtickContentLen tok)
  | _ => Ret None
  end.

(** ** Tracking of variables *)

(** The name of the variable an expression refers to, if it is tracked. *)
Fixpoint resolveTrackedVarFromExpr (locals : gmap string VarInfo) (e : expr) : option string :=
  match e with
  | ECast e _ => resolveTrackedVarFromExpr locals e
  | EIdent x => match locals !! x with Some _ => Some x | None => None end
  | _ => None
  end.

Definition resetTrackedBufferInfo (vi : VarInfo) : VarInfo :=
  vi <| vi_hasBufferCapacity := false |> <| vi_bufferCapacity := 0 |>
     <| vi_hasKnownCStringLen := false |> <| vi_cstringLen := 0 |> <| vi_pointerEscaped := false |>.

Definition resetTrackedNumericInfo (vi : VarInfo) : VarInfo :=
  vi <| vi_hasKnownUSizeRange := false |> <| vi_minUSize := 0 |> <| vi_maxUSize := 0 |>.

Definition isKind (k : TypeKind) (t : option TypeInfo) : bool :=
  match t with Some t => hasKind k t | None => false end.

Definition withCapacity (n : Z) (vi : VarInfo) : VarInfo :=
  vi <| vi_hasBufferCapacity := true |> <| vi_bufferCapacity := n |>.

(** The capacity a call of an allocation function gives. *)
Definition allocCapacity (locals : gmap string VarInfo) (callee : string) (args : list expr)
    (vi : VarInfo) : outcome VarInfo :=
  if bool_decide (callee = "malloc") && (1 <=? length args)%nat then
    match args with
    | a :: _ =>
        n ← tryEvalUSizeExpr locals a;
        Ret match n with Some n => withCapacity n vi | None => vi end
    | [] => Ret vi
    end else
  if bool_decide (callee = "calloc") && (2 <=? length args)%nat then
    match args with
    | a :: b :: _ =>
        count ← tryEvalUSizeExpr locals a;
        size ← tryEvalUSizeExpr locals b;
        match count, size with
        | Some n, Some k =>
            if k =? 0 then Undef else
            Ret (if n <=? uint64_max / k then withCapacity (n * k) vi else vi)
        | _, _ => Ret vi
        end
    | _ => Ret vi
    end else
  if bool_decide (callee = "realloc") && (2 <=? length args)%nat then
    match args with
    | _ :: b :: _ =>
        n ← tryEvalUSizeExpr locals b;
        Ret match n with
            | Some n => withCapacity n vi <| vi_hasKnownCStringLen := false |>
            | None => vi
            end
    | _ => Ret vi
    end else Ret vi.

Definition probe (e : expr) : expr := match e with ECast e _ => e | _ => e end.

(** The new entry of the variable; the expression is looked at when the old one is reset. *)
Definition trackBuffer (locals : gmap string VarInfo) (x : string) (e : expr)
    (declaredType : option TypeInfo) (vi : VarInfo) : outcome VarInfo :=
  if negb (isKind TK.Pointer declaredType) then Ret vi else
  let copied :=
    match resolveTrackedVarFromExpr locals e with
    | Some y =>
        match locals !! y with
        | Some src =>
            if negb (bool_decide (y = x)) && isKind TK.Pointer (vi_type src) then
              Some (vi <| vi_hasBufferCapacity := vi_hasBufferCapacity src |>
                       <| vi_bufferCapacity := vi_bufferCapacity src |>
                       <| vi_hasKnownCStringLen := vi_hasKnownCStringLen src |>
                       <| vi_cstringLen := vi_cstringLen src |>
                       <| vi_pointerEscaped := vi_pointerEscaped src |>)
            else None
        | None => None
        end
    | None => None
    end in
  match copied with
  | Some vi => Ret vi
  | None =>
      cap ← tryGetCStringLiteralLen e;
      match cap with
      | Some cap =>
          Ret (withCapacity (to_uint64 (cap + 1)) vi <| vi_hasKnownCStringLen := true |>
                 <| vi_cstringLen := cap |>)
      | None =>
          match probe e with
          | ECall (EIdent callee) args => allocCapacity locals callee (default [] args) vi
          | _ => Ret vi
          end
      end
  end.

Definition trackVarBufferFromExpr (x : string) (e : expr) (declaredType : option TypeInfo)
    : M Checker unit := λ c,
  match locals_ c !! x with
  | None => ROk () c
  | Some vi =>
      let vi := resetTrackedBufferInfo vi in
      let c := c <| locals_ := <[x := vi]> (locals_ c) |> in
      match trackBuffer (locals_ c) x e declaredType vi with
      | Ret vi => ROk () (c <| locals_ := <[x := vi]> (locals_ c) |>)
      | Throw ex => RThrow ex c
      | Undef => RUndef
      | NoFuel => RNoFuel
      end
  end.

Definition trackVarNumericRangeFromExpr (x : string) (e : expr) (declaredType : option TypeInfo)
    : M Checker unit := λ c,
  match locals_ c !! x with
  | None => ROk () c
  | Some vi =>
      let vi := resetTrackedNumericInfo vi in
      let c := c <| locals_ := <[x := vi]> (locals_ c) |> in
      if negb (isKind TK.Integer declaredType) then ROk () c else
      match tryEvalUSizeRangeExpr (locals_ c) e with
      | Ret None => ROk () c
      | Ret (Some (lo, hi)) =>
          ROk () (c <| locals_ := <[x := vi <| vi_hasKnownUSizeRange := true |>
                        <| vi_minUSize := lo |> <| vi_maxUSize := hi |>]> (locals_ c) |>)
      | Throw ex => RThrow ex c
      | Undef => RUndef
      | NoFuel => RNoFuel
      end
  end.

(** ** Ownership *)

Definition isDropTrackedType (type : option TypeInfo) (arrayDims : Z) : bool :=
  match type with
  | None => false
  | Some t =>
      if 0 <? arrayDims then false
      else hasKind TK.String t || hasKind TK.Extended t || ti_dropTracked t
  end.

Definition isBacktickExpr (e : expr) : bool :=
  match e with
  | ELit (BtickLit | RawBtickLit | IntBtickLit | ShellBtickLit | CmptBtickLit) _ => true
  | _ => false
  end.

Definition isBorrowedStringExpr (e : expr) : bool :=
  match e with
  | ELit StrLit _ => true
  | ECall (EIdent name) _ => bool_decide (name = "fromCStr") || bool_decide (name = "fromCStrLen")
  | _ => isBacktickExpr e
  end.

Definition exprConsumesOwnership (locals : gmap string VarInfo) (e : expr) : bool :=
  match e with
  | EIdent x =>
      match locals !! x with
      | Some vi => isDropTrackedType (vi_type vi) (vi_arrayDims vi)
      | None => false
      end
  | _ => false
  end.

Definition updateOwnershipOnInitialization (locals : gmap string VarInfo) (vi : VarInfo)
    (e : option expr) : VarInfo :=
  if negb (isDropTrackedType (vi_type vi) (vi_arrayDims vi)) then
    vi <| vi_ownership := OS.BorrowedImm |> else
  if match e with Some e => exprConsumesOwnership locals e | None => false end then
    vi <| vi_ownership := OS.Owned |> else
  if isKind TK.String (vi_type vi) &&
     match e with Some e => isBorrowedStringExpr e | None => false end then
    vi <| vi_ownership := OS.BorrowedImm |> else
  vi <| vi_ownership := OS.Owned |>.

Definition isMoved (o : OwnershipState) : bool :=
  match o with OS.Moved | OS.Dropped => true | _ => false end.

(** [push_back] unless it is in the vector. *)
Definition addIndex (i : nat) (l : list nat) : list nat :=
  if bool_decide (i ∈ l) then l else l ++ [i].

Definition recordConsumed (x : string) (c : Checker) : Checker :=
  if bool_decide (currentFnConsumeKey_ c = "") then c else
  match currentParamIndices_ c !! x with
  | Some i =>
      let l := default [] (userFunctionConsumingArgs_ c !! currentFnConsumeKey_ c) in
      c <| userFunctionConsumingArgs_ :=
             <[currentFnConsumeKey_ c := addIndex i l]> (userFunctionConsumingArgs_ c) |>
  | None => c
  end.

Definition markExprAsMoved (e : expr) (ctx : context) (c : Checker) : Checker :=
  match e with
  | EIdent x =>
      match locals_ c !! x with
      | None => c
      | Some vi =>
          if negb (isDropTrackedType (vi_type vi) (vi_arrayDims vi)) then c else
          let c := recordConsumed x c in
          if isMoved (vi_ownership vi)
          then error ctx ("double-move detected: value '" +:+ x +:+ "' was already moved") c
          else c <| locals_ := <[x := vi <| vi_ownership := OS.Moved |>]> (locals_ c) |>
      end
  | _ => c
  end.

Definition validateExprNotMoved (e : expr) (ctx : context) (c : Checker) : Checker :=
  match e with
  | EIdent x =>
      match locals_ c !! x with
      | None => c
      | Some vi =>
          if negb (isDropTrackedType (vi_type vi) (vi_arrayDims vi)) then c else
          if isMoved (vi_ownership vi)
          then error ctx ("use-after-move: value '" +:+ x +:+ "' was moved and is no longer valid") c
          else c
      end
  | _ => c
  end.

Definition recordConsumeEdgeIfParam (calleeKey : string) (calleeArgIdx : nat) (arg : expr)
    (c : Checker) : Checker :=
  if bool_decide (currentFnConsumeKey_ c = "") || bool_decide (calleeKey = "") then c else
  match arg with
  | EIdent x =>
      match currentParamIndices_ c !! x with
      | None => c
      | Some i =>
          let key := currentFnConsumeKey_ c in
          let edges := default [] (consumeEdges_ c !! key) in
          let e := {| ce_param := i; ce_callee := calleeKey; ce_arg := calleeArgIdx |} in
          c <| consumeEdges_ :=
                 <[key := if bool_decide (e ∈ edges) then edges else edges ++ [e]]> (consumeEdges_ c) |>
      end
  | _ => c
  end.

(** ** Calls *)

Section calls.
Context (builtinRegistry_ : BuiltinRegistry).

(** The loop over the arguments of a built-in function. *)
Fixpoint builtinArgs (callee : string) (i : nat) (args : list expr) (ctx : context) (c : Checker)
    : Checker :=
  match args with
  | [] => c
  | a :: args =>
      builtinArgs callee (S i) args ctx
        (if argBorrows builtinRegistry_ callee i then c
         else if argConsumes builtinRegistry_ callee i then markExprAsMoved a ctx c else c)
  end.

(** The loop over the vector of consumed positions of the callee.  An element added to
    the vector while it runs invalidates its iterators. *)
Fixpoint consumedArgs (callee : string) (l : list nat) (args : list expr) (ctx : context)
    : M Checker unit :=
  match l with
  | [] => mret ()
  | i :: l => λ c,
      let c' := match args !! i with Some a => markExprAsMoved a ctx c | None => c end in
      if bool_decide (userFunctionConsumingArgs_ c' !! callee = userFunctionConsumingArgs_ c !! callee)
      then consumedArgs callee l args ctx c'
      else RUndef
  end.

Fixpoint recordEdges (callee : string) (i : nat) (args : list expr) (c : Checker) : Checker :=
  match args with
  | [] => c
  | a :: args => recordEdges callee (S i) args (recordConsumeEdgeIfParam callee i a c)
  end.

Definition applyCallOwnershipEffects (callee : string) (args : list expr) (ctx : context)
    : M Checker unit := λ c,
  let sig := if bool_decide (callee = "") then None else br_lookup builtinRegistry_ callee in
  match sig with
  | Some _ => ROk () (builtinArgs callee 0 args ctx c)
  | None =>
      match consumedArgs callee (default [] (userFunctionConsumingArgs_ c !! callee)) args ctx c with
      | ROk _ c => ROk () (recordEdges callee 0 args c)
      | r => r
      end
  end.
End calls.

(** ** Which parameters are consumed *)

(** One edge of a function; the flag tells whether something was added. *)
Definition fixEdge (caller : string) (e : ConsumeEdge) (st : gmap string (list nat) * bool)
    : gmap string (list nat) * bool :=
  match st.1 !! ce_callee e with
  | None => st
  | Some calleeConsumed =>
      if negb (bool_decide (ce_arg e ∈ calleeConsumed)) then st else
      let consumed := default [] (st.1 !! caller) in
      if bool_decide (ce_param e ∈ consumed) then (<[caller := consumed]> st.1, st.2)
      else (<[caller := consumed ++ [ce_param e]]> st.1, true)
  end.

(** One pass over the edges, in the order of the hash table. *)
Definition fixPass (edges : list (string * ConsumeEdge)) (m : gmap string (list nat))
    : gmap string (list nat) * bool :=
  fold_left (λ st e, fixEdge e.1 e.2 st) edges (m, false).

Fixpoint resolveLoop (fuel : nat) (edges : list (string * ConsumeEdge))
    (m : gmap string (list nat)) : outcome (gmap string (list nat)) :=
  match fuel with
  | O => NoFuel
  | S fuel => let '(m, changed) := fixPass edges m in
              if changed : bool then resolveLoop fuel edges m else Ret m
  end.

(** The edges as the nested loops visit them. *)
Definition allEdges (tables : list (string * list ConsumeEdge)) : list (string * ConsumeEdge) :=
  flat_map (λ t, (λ e, (t.1, e)) <$> t.2) tables.

(** [order] is the order in which the hash table of [consumeEdges_] is iterated.  Every
    pass but the last adds one of the finitely many parameters. *)
Definition resolveConsumptionFixpoint (order : list (string * list ConsumeEdge)) (c : Checker)
    : outcome Checker :=
  let edges := allEdges order in
  m ← resolveLoop (S (length edges)) edges (userFunctionConsumingArgs_ c);
  Ret (c <| userFunctionConsumingArgs_ := m |>).

(** ** Blocks

    [Checker::checkBlock] ([checkers/Checker_stmt.cpp]) saves the variables, checks the
    statements and puts the variables back, with only their [used] flags carried over.
    [checkStmt] checks one statement and tells whether it is a terminator.  Imported enum
    variants, restored in the same way, are left out. *)

Definition orUsed (saved : VarInfo) (now : option VarInfo) : VarInfo :=
  match now with Some vi => saved <| vi_used := vi_used saved || vi_used vi |> | None => saved end.

Definition restoreLocals (saved now : gmap string VarInfo) : gmap string VarInfo :=
  map_imap (λ x vi, Some (orUsed vi (now !! x))) saved.

(** The outer variables the block initialises on the way. *)
Definition newlyInitialized (saved now : gmap string VarInfo) : gset string :=
  dom (filter (λ p : string * VarInfo,
    negb (vi_initialized p.2) && match now !! p.1 with Some vi => vi_initialized vi | None => false end
    = true) saved).

Section block.
Context (checkStmt : stmt → Checker → Checker * bool) (ctxOf : stmt → context).

Fixpoint checkStmts (b : block) (terminated : bool) (c : Checker) : Checker :=
  match b with
  | [] => c
  | s :: b =>
      if terminated then warning (ctxOf s) "unreachable code" c
      else let '(c, terminated) := checkStmt s c in checkStmts b terminated c
  end.

Definition checkBlock (b : block) (initCapture : option (gset string)) (c : Checker)
    : Checker * option (gset string) :=
  let c' := checkStmts b false c in
  (c' <| locals_ := restoreLocals (locals_ c) (locals_ c') |>,
   (λ captured, captured ∪ newlyInitialized (locals_ c) (locals_ c')) <$> initCapture).
End block.

(** ** Digits *)

(** The number the digits at the start of a literal denote, separators ignored. *)
Fixpoint dec_prefix (acc : Z) (s : string) : Z :=
  match s with
  | "" => acc
  | String c s =>
      if bool_decide (c = "_"%char) then dec_prefix acc s else
      if (48 <=? code c) && (code c <=? 57) then dec_prefix (acc * 10 + (code c - 48)) s else acc
  end.

Definition is_digit (c : ascii) : bool := (48 <=? code c) && (code c <=? 57).

Lemma is_digit_val c : is_digit c = true → digit_val c = Some (code c - 48) ∧ 0 ≤ code c - 48 < 10.
Proof.
  unfold is_digit, digit_val. intros H. rewrite H. split; [done|].
  apply andb_true_iff in H as [?%Z.leb_le ?%Z.leb_le]. lia.
Qed.

Lemma is_digit_plain c : is_digit c = true → is_space c = false ∧ c ≠ "-"%char ∧ c ≠ "+"%char.
Proof.
  intros H. split; [|by split; intros ->].
  destruct (is_space c) eqn:E; [|done].
  unfold is_space, Ascii.is_space in E. destruct c as [[] [] [] [] [] [] [] []]; done.
Qed.

Lemma digit_or_sep_cases c : digit_or_sep c = true → c ≠ "_"%char → is_digit c = true.
Proof. unfold digit_or_sep. intros [?|?%bool_decide_eq_true_1]%orb_true_iff; done. Qed.

Lemma read_digits_dec s acc n :
  str_forall digit_or_sep s = true →
  read_digits 10 acc n (str_remove "_" s) = (dec_prefix acc s, (n + String.length (str_remove "_" s))%nat, "").
Proof.
  revert acc n. induction s as [|c s IH]; intros acc n; simpl; [by rewrite Nat.add_0_r|].
  intros [Hc Hs]%andb_true_iff. destruct (decide (c = "_"%char)) as [->|Hne].
  - rewrite !bool_decide_eq_true_2 by done. by apply IH.
  - rewrite !bool_decide_eq_false_2 by done. pose proof (digit_or_sep_cases c Hc Hne) as Hd.
    destruct (is_digit_val c Hd) as [Hv Hr]. simpl. rewrite Hv.
    destruct (Z.ltb_spec (code c - 48) 10); [|lia]. rewrite IH by done.
    unfold is_digit in Hd. rewrite Hd. f_equal. f_equal. lia.
Qed.

Lemma dec_prefix_nonneg s acc : 0 ≤ acc → 0 ≤ dec_prefix acc s.
Proof.
  revert acc. induction s as [|c s IH]; intros acc Hacc; simpl; [done|].
  case_bool_decide; [auto|]. destruct (_ && _) eqn:E; [|done].
  apply andb_true_iff in E as [?%Z.leb_le ?]. apply IH. lia.
Qed.

Lemma dec_prefix_stop pre c rest acc :
  str_forall digit_or_sep pre = true → digit_or_sep c = false →
  dec_prefix acc (pre +:+ String c rest) = dec_prefix acc pre.
Proof.
  revert acc. induction pre as [|a pre IH]; intros acc; rewrite ?str_app_nil, ?str_app_cons; simpl.
  - intros _ [Hd Hs]%orb_false_iff. by rewrite Hs, Hd.
  - intros [? ?]%andb_true_iff Hc. case_bool_decide; [auto|]. destruct (_ && _); auto.
Qed.

Lemma parseUSize_digits s r :
  str_forall digit_or_sep s = true → parseUSize s = Ret (Some r) →
  r = (dec_prefix 0 s, dec_prefix 0 s) ∧ 0 ≤ dec_prefix 0 s ≤ uint64_max.
Proof.
  intros Hs. pose proof (read_digits_dec s 0 0 Hs) as Hr.
  pose proof (dec_prefix_nonneg s 0 ltac:(lia)) as Hn. unfold parseUSize.
  assert (Hc : ∀ c t, str_remove "_" s = String c t → is_digit c = true).
  { clear Hr Hn. induction s as [|a s IH]; simpl in *; [done|]. apply andb_true_iff in Hs as [Ha Hs].
    intros c t. case_bool_decide; [by apply IH|]. intros [= <- _]. by apply digit_or_sep_cases. }
  destruct (str_remove "_" s) as [|c t] eqn:Es; [done|].
  destruct (is_digit_plain c (Hc c t eq_refl)) as (Hsp & Hm & Hp).
  rewrite bool_decide_eq_false_2 by done.
  unfold stoull, strtol_core. simpl drop_while. rewrite Hsp, !bool_decide_eq_false_2 by done.
  assert (Hpre : strtol_prefix 10 (String c t) = (10, String c t)).
  { unfold strtol_prefix. destruct t; [done|]. by rewrite andb_false_r. }
  rewrite Hpre, Hr. simpl (_ =? 0)%nat. cbv iota.
  rewrite Z.abs_eq by done. destruct (Z.leb_spec (dec_prefix 0 s) uint64_max) as [Hle|]; [|done].
  simpl. unfold to_uint64. rewrite Z.mod_small by (unfold uint64_max in *; lia).
  intros [= <-]. done.
Qed.

Lemma tryEvalSuffixed_app sufs pre suf :
  sufs ⊆ suffixes → suf ∈ sufs → pre ≠ "" → str_forall digit_or_sep pre = true →
  tryEvalSuffixed sufs (pre +:+ suf) = parseUSize pre.
Proof.
  intros Hsub Hin Hne Hpre. induction sufs as [|s sufs IH]; [by apply not_elem_of_nil in Hin|].
  simpl. destruct (ends_with_strict s (pre +:+ suf)) eqn:E.
  - assert (suf = s) as <- by (eapply ends_with_unique; [apply Hsub; left|by apply Hsub|done..]).
    rewrite str_length_app, Nat.add_sub. by rewrite str_take_app.
  - apply IH; [intros x Hx; apply Hsub; by right|].
    apply elem_of_cons in Hin as [->|]; [|done]. by rewrite ends_with_own in E.
Qed.

Lemma intSuffixes_sub : intSuffixes ⊆ suffixes.
Proof.
  intros x Hx. unfold intSuffixes in Hx.
  repeat (apply elem_of_cons in Hx as [->|Hx]; [by apply (bool_decide_unpack _); vm_compute|]).
  by apply not_elem_of_nil in Hx.
Qed.

(** ** Ranges contain the values *)

(** The value of an unsigned 64-bit expression, with arithmetic modulo [2^64]; [cast]
    is what a conversion to a type does to a value. *)
Fixpoint usizeValue (ρ : string → Z) (cast : string → Z → Z) (e : expr) : option Z :=
  match e with
  | ELit (IntLit | SuffixedIntLit) t => Some (dec_prefix 0 t)
  | EIdent x => Some (ρ x)
  | EParen e => usizeValue ρ cast e
  | ECast e ty => cast ty <$> usizeValue ρ cast e
  | EBin BAddSub op l r =>
      a ← usizeValue ρ cast l; b ← usizeValue ρ cast r;
      if bool_decide (op = "+") then Some (to_uint64 (a + b)) else
      if bool_decide (op = "-") then Some (to_uint64 (a - b)) else None
  | EBin BMul op l r =>
      a ← usizeValue ρ cast l; b ← usizeValue ρ cast r;
      if bool_decide (op = "*") then Some (to_uint64 (a * b)) else None
  | _ => None
  end.

(** Decimal literals as the lexer makes them, and no casts. *)
Fixpoint rangeable (e : expr) : bool :=
  match e with
  | ELit IntLit t => str_forall digit_or_sep t
  | ELit SuffixedIntLit t =>
      existsb (λ suf,
        let pre := str_take (String.length t - String.length suf) t in
        bool_decide (t = pre +:+ suf) && negb (bool_decide (pre = "")) && str_forall digit_or_sep pre)
        intSuffixes
  | EParen e => rangeable e
  | ECast _ _ => false
  | EBin _ _ l r => rangeable l && rangeable r
  | _ => true
  end.

Definition in_range (v : Z) (r : Z * Z) : Prop := 0 ≤ r.1 ∧ r.1 ≤ v ≤ r.2 ∧ r.2 ≤ uint64_max.

Lemma addRanges_sound a b ra rb r :
  in_range a ra → in_range b rb → addRanges ra rb = Some r → in_range (to_uint64 (a + b)) r.
Proof.
  unfold in_range, addRanges. intros ? ?. destruct (Z.ltb_spec (uint64_max - rb.1) ra.1); [done|].
  destruct (Z.ltb_spec (uint64_max - rb.2) ra.2); [done|]. intros [= <-]. simpl.
  unfold to_uint64, uint64_max in *. rewrite Z.mod_small by lia. lia.
Qed.
Lemma subRanges_sound a b ra rb r :
  in_range a ra → in_range b rb → subRanges ra rb = Some r → in_range (to_uint64 (a - b)) r.
Proof.
  unfold in_range, subRanges. intros ? ?. destruct (Z.ltb_spec ra.1 rb.2); [done|].
  intros [= <-]. simpl. unfold to_uint64, uint64_max in *. rewrite Z.mod_small by lia. lia.
Qed.
Lemma mulRanges_sound a b ra rb r :
  in_range a ra → in_range b rb → mulRanges ra rb = Some r → in_range (to_uint64 (a * b)) r.
Proof.
  unfold in_range, mulRanges. intros (? & [? ?] & ?) (? & [? ?] & ?).
  destruct ((0 <? ra.1) && _); [done|].
  destruct ((0 <? ra.2) && _) eqn:E; [done|]. intros [= <-]. simpl.
  assert (Hmax : ra.2 * rb.2 ≤ uint64_max).
  { destruct (Z.ltb_spec 0 ra.2) as [Hpos|]; [|assert (ra.2 = 0) as -> by lia; unfold uint64_max; lia].
    simpl in E. apply Z.ltb_ge in E.
    pose proof (Z.mul_div_le uint64_max ra.2 Hpos). nia. }
  assert (a * b ≤ ra.2 * rb.2) by nia. assert (ra.1 * rb.1 ≤ a * b) by nia.
  assert (0 ≤ ra.1 * rb.1) by nia.
  unfold to_uint64. rewrite Z.mod_small by (unfold uint64_max in *; lia). lia.
Qed.

(** On expressions without casts whose literals are decimal, the value lies in the
    computed range when the variables lie in theirs, so that no arithmetic in it wraps. *)
Lemma tryEvalUSizeRangeExpr_sound locals ρ cast e r v :
  (∀ x vi, locals !! x = Some vi → vi_hasKnownUSizeRange vi = true →
     in_range (ρ x) (vi_minUSize vi, vi_maxUSize vi)) →
  rangeable e = true →
  tryEvalUSizeRangeExpr locals e = Ret (Some r) → usizeValue ρ cast e = Some v → in_range v r.
Proof.
  intros Hloc. revert r v. revert e. refine (expr_children_ind _ _). intros e IH r v Hr He Hv.
  destruct e as [k t|x|e| |k op l e| | | | | | | | | | | | | | | | | | | | | | | | |]; try done; simpl in IH;
    repeat match goal with H : Forall _ (_ :: _) |- _ => apply Forall_cons in H as [? H] end.
  - destruct k; try done; cbn [rangeable tryEvalUSizeRangeExpr usizeValue] in Hr, He, Hv; injection Hv as <-.
    + destruct (parseUSize_digits t r Hr He) as [-> ?]. unfold in_range. simpl. lia.
    + apply existsb_exists in Hr as (suf & Hin%list_elem_of_In & Hs).
      apply andb_true_iff in Hs as [[Ht%bool_decide_eq_true_1 Hne]%andb_true_iff Hpre].
      apply negb_true_iff, bool_decide_eq_false_1 in Hne.
      set (pre := str_take _ t) in *. rewrite Ht in He |- *.
      rewrite tryEvalSuffixed_app in He by (done || exact intSuffixes_sub).
      destruct (parseUSize_digits pre r Hpre He) as [-> ?].
      assert (Hsuf : ∃ c rest, suf = String c rest ∧ digit_or_sep c = false).
      { unfold intSuffixes in Hin. repeat (apply elem_of_cons in Hin as [->|Hin]; [by eexists _, _|]).
        by apply not_elem_of_nil in Hin. }
      destruct Hsuf as (c & rest & -> & Hc). rewrite dec_prefix_stop by done.
      unfold in_range. simpl. lia.
  - simpl in He, Hv. injection Hv as <-. destruct (locals !! x) as [vi|] eqn:E; [|done].
    destruct (vi_hasKnownUSizeRange vi) eqn:Ek; [|done]. injection He as <-. by eapply Hloc.
  - by eapply H.
  - cbn [rangeable] in Hr. apply andb_true_iff in Hr as [Hl Hr'].
    destruct k; try done; cbn [tryEvalUSizeRangeExpr usizeValue] in He, Hv.
    all: try (destruct (bool_decide (op = "*")) eqn:Eop; [|done]).
    all: apply outcome_bind_inv in He as (lo & Hlo & He);
      apply outcome_bind_inv in He as (ro & Hro & He).
    all: destruct lo as [ra|], ro as [rb|]; try done; injection He as He.
    all: apply bind_Some in Hv as (a & Ha & Hv); apply bind_Some in Hv as (b & Hb & Hv).
    + rewrite ?Eop in Hv. injection Hv as <-. eapply mulRanges_sound; eauto.
    + destruct (bool_decide (op = "+")); [injection Hv as <-; eapply addRanges_sound; eauto|].
      destruct (bool_decide (op = "-")); [injection Hv as <-; eapply subRanges_sound; eauto|done].
Qed.

Definition newVar (type : option TypeInfo) : VarInfo := {|
  vi_type := type; vi_arrayDims := 0; vi_initialized := true; vi_used := false;
  vi_ownership := OS.BorrowedImm; vi_hasBufferCapacity := false; vi_bufferCapacity := 0;
  vi_hasKnownCStringLen := false; vi_cstringLen := 0; vi_hasKnownUSizeRange := false;
  vi_minUSize := 0; vi_maxUSize := 0; vi_pointerEscaped := false |}.

(** [n * (1_0 + 4usize) - 3] with [n] between 2 and 5. *)
Definition range_example : expr :=
  EBin BAddSub "-" (EBin BMul "*" (EIdent "n")
    (EParen (EBin BAddSub "+" (ELit IntLit "1_0") (ELit SuffixedIntLit "4usize")))) (ELit IntLit "3").
Definition range_locals : gmap string VarInfo :=
  {[ "n" := (newVar None) <| vi_hasKnownUSizeRange := true |> <| vi_minUSize := 2 |> <| vi_maxUSize := 5 |> ]}.

Lemma tryEvalUSizeRangeExpr_sound_witness :
  tryEvalUSizeRangeExpr range_locals range_example = Ret (Some (25, 67)) ∧
  usizeValue (λ _, 4) (λ _ v, v) range_example = Some 53 ∧ in_range 53 (25, 67).
Proof.
  assert (H1 : tryEvalUSizeRangeExpr range_locals range_example = Ret (Some (25, 67)))
    by (vm_compute; reflexivity).
  assert (H2 : usizeValue (λ _, 4) (λ _ v, v) range_example = Some 53) by (vm_compute; reflexivity).
  split; [exact H1|]. split; [exact H2|].
  apply (tryEvalUSizeRangeExpr_sound range_locals (λ _, 4) (λ _ v, v) range_example);
    [|vm_compute; reflexivity|exact H1|exact H2].
  intros x vi Hx _. unfold range_locals in Hx. apply lookup_singleton_Some in Hx as [_ <-].
  repeat split; vm_compute; discriminate.
Defined.

(** Where the range analysis and the allocation tracking go wrong: a cast is taken to
    keep the value, suffixed literals in other bases are 0, [calloc] with a known size of
    0 divides by zero, and a malformed escape lets an exception out of the checker. *)
Lemma range_and_buffer_errors :
  (tryEvalUSizeRangeExpr ∅ (ECast (ELit IntLit "256") "uint8") = Ret (Some (256, 256)) ∧
   usizeValue (λ _, 0) (λ ty v, if bool_decide (ty = "uint8") then v mod 256 else v)
     (ECast (ELit IntLit "256") "uint8") = Some 0) ∧
  tryEvalUSizeRangeExpr ∅ (ELit SuffixedHexLit "0x40usize") = Ret (Some (0, 0)) ∧
  (∀ vi, allocCapacity ∅ "calloc" [ELit IntLit "4"; ELit IntLit "0"] vi = Undef) ∧
  tryGetCStringLiteralLen (ELit StrLit
    (String quote (String "\" (String "u" (String "z" (String "z" (String "z" (String "z" (String quote ""))))))))) =
    Throw InvalidArgument.
Proof. repeat split; vm_compute; reflexivity. Qed.

(** ** Lengths *)

Lemma str_length_drop n s : String.length (str_drop n s) = (String.length s - n)%nat.
Proof. revert s. induction n as [|n IH]; intros [|c s]; simpl; auto. Qed.
Lemma skipOctal_length n s : (String.length (skipOctal n s) ≤ String.length s)%nat.
Proof.
  revert s. induction n as [|n IH]; intros [|c [|d s]]; simpl; try lia.
  destruct (is_oct c); simpl; [|lia]. specialize (IH (String d s)). simpl in IH. lia.
Qed.
Lemma stoull_not_noFuel base s : stoull base s ≠ NoFuel.
Proof. unfold stoull. by repeat case_match. Qed.

Lemma decodeLoop_ends fuel s len :
  (String.length s < fuel)%nat → decodeLoop fuel s len ≠ NoFuel.
Proof.
  revert s len. induction fuel as [|fuel IH]; intros s len Hs; [lia|]. cbn [decodeLoop].
  destruct (String.length s <=? 1)%nat; [done|]. destruct s as [|c rest]; [done|].
  cbn [String.length] in Hs. destruct (negb _); [apply IH; lia|].
  destruct (_ <=? 2)%nat; [done|]. destruct rest as [|next rest']; [done|].
  cbn [String.length] in Hs.
  assert (Hdrop : ∀ k v, decodeLoop fuel (str_drop k rest') v ≠ NoFuel).
  { intros k v. apply IH. rewrite str_length_drop. lia. }
  assert (Hu : ∀ k b, (if b : bool then Ret None else cp ← stoull 16 (str_take k rest');
    decodeLoop fuel (str_drop k rest') (len + utf8_len (to_uint32 cp))) ≠ NoFuel).
  { intros k b. destruct b; [done|]. pose proof (stoull_not_noFuel 16 (str_take k rest')).
    destruct (stoull 16 _); simpl; auto. }
  destruct (simpleEscape next); [apply IH; lia|].
  case_bool_decide; [destruct (_ <=? 3)%nat; [done|apply Hdrop]|].
  case_bool_decide; [apply Hu|]. case_bool_decide; [apply Hu|].
  destruct (is_oct next); apply IH; [|lia]. pose proof (skipOctal_length 2 rest'). lia.
Qed.

Lemma decodeLoop_plain fuel s len c :
  str_forall (λ c, negb (bool_decide (c = "\"%char))) s = true → (String.length s < fuel)%nat →
  decodeLoop fuel (s +:+ String c "") len = Ret (Some (len + Z.of_nat (String.length s))).
Proof.
  revert fuel len. induction s as [|a s IH]; intros [|fuel] len Hs Hf; simpl in Hs, Hf; try lia.
  - simpl. by rewrite Z.add_0_r.
  - apply andb_true_iff in Hs as [Ha Hs]. rewrite str_app_cons. cbn [decodeLoop].
    assert (Hl : (String.length (String a (s +:+ String c "")) <=? 1)%nat = false).
    { apply Nat.leb_gt. simpl. rewrite str_length_app. simpl. lia. }
    rewrite Hl, Ha, IH by (done || lia). cbn [String.length]. do 2 f_equal. lia.
Qed.

Lemma last_char_snoc s c : last_char (s +:+ String c "") = Some c.
Proof. unfold last_char. rewrite str_length_app. simpl. by rewrite Nat.add_sub, str_drop_app. Qed.

(** The length of a C string literal is always determined (the decoding loop ends),
    and of a literal without escapes it is the number of bytes between the quotes; the
    buffer of a pointer initialised with it has one byte more. *)
Lemma cstring_literal_buffer x content type vi c :
  str_forall (λ c, negb (bool_decide (c = "\"%char))) content = true →
  Z.of_nat (String.length content) < uint64_max →
  locals_ c !! x = Some vi → isKind TK.Pointer type = true →
  let lit := ELit CStrLit (String "c" (String quote (content +:+ String quote ""))) in
  let n := Z.of_nat (String.length content) in
  (∀ tok, tryGetCStringLiteralLen (ELit CStrLit tok) ≠ NoFuel) ∧
  tryGetCStringLiteralLen lit = Ret (Some n) ∧
  ∃ vi' c', trackVarBufferFromExpr x lit type c = ROk () c' ∧ locals_ c' !! x = Some vi' ∧
    vi_bufferCapacity vi' = n + 1 ∧ vi_cstringLen vi' = n ∧ vi_hasKnownCStringLen vi' = true.
Proof.
  intros Hc Hn Hx Ht lit n.
  assert (Hlen : tryGetCStringLiteralLen lit = Ret (Some n)).
  { unfold lit. cbn [tryGetCStringLiteralLen]. unfold decodeLen.
    set (tok := String "c" _).
    assert (Hl : String.length tok = (3 + String.length content)%nat).
    { unfold tok. cbn [String.length]. rewrite str_length_app. simpl. lia. }
    destruct (Nat.ltb_spec (String.length tok) (String.length "c" + 2)); [simpl in *; lia|].
    assert (Hp : starts_with "c" tok = true) by reflexivity. rewrite Hp.
    assert (Hlast : last_char tok = Some quote).
    { unfold tok. change (String "c" (String quote (content +:+ String quote "")))
        with (String "c" (String quote content) +:+ String quote ""). apply last_char_snoc. }
    rewrite Hlast, bool_decide_eq_true_2 by done. cbn [negb].
    change (str_drop (String.length "c" + 1) tok) with (content +:+ String quote "").
    rewrite decodeLoop_plain by (done || lia). done. }
  split; [|split; [exact Hlen|]].
  - intros tok. simpl. unfold decodeLen. repeat case_match; try done.
    apply decodeLoop_ends. rewrite str_length_drop. lia.
  - unfold trackVarBufferFromExpr. rewrite Hx. unfold trackBuffer. rewrite Ht. cbn [negb].
    change (resolveTrackedVarFromExpr _ lit) with (None : option string). cbv iota zeta.
    rewrite Hlen. cbn [mbind outcome_bind]. eexists _, _. split; [reflexivity|].
    split; [apply lookup_insert_eq|]. simpl. split; [|done].
    unfold to_uint64. rewrite Z.mod_small; [done|]. unfold n, uint64_max in *. lia.
Qed.

(** ** Moves *)

(** What the checker does to a variable: it moves it, reads it, or gives it a new value. *)
Inductive own_op :=
| OpMove (x : string)
| OpUse (x : string)
| OpInit (x : string) (e : option expr).

Definition run_op (ctx : context) (op : own_op) (c : Checker) : Checker :=
  match op with
  | OpMove x => markExprAsMoved (EIdent x) ctx c
  | OpUse x => validateExprNotMoved (EIdent x) ctx c
  | OpInit x e =>
      c <| locals_ := alter (λ vi, updateOwnershipOnInitialization (locals_ c) vi e) x (locals_ c) |>
  end.

Definition tracked (c : Checker) (x : string) : bool :=
  match locals_ c !! x with
  | Some vi => isDropTrackedType (vi_type vi) (vi_arrayDims vi)
  | None => false
  end.

Definition moved (c : Checker) (x : string) : bool :=
  match locals_ c !! x with
  | Some vi => isDropTrackedType (vi_type vi) (vi_arrayDims vi) && isMoved (vi_ownership vi)
  | None => false
  end.

(** The specification: a set of moved names and a count of errors. *)
Definition spec_op (tracks : string → bool) (op : own_op) (st : gset string * nat)
    : gset string * nat :=
  let '(m, errs) := st in
  match op with
  | OpMove x => if tracks x then if decide (x ∈ m) then (m, S errs) else ({[x]} ∪ m, errs) else st
  | OpUse x => if decide (x ∈ m) then (m, S errs) else st
  | OpInit x _ => (m ∖ {[x]}, errs)
  end.

Definition own_rel (tracks : string → bool) (c : Checker) (st : gset string * nat) : Prop :=
  (∀ x, tracked c x = tracks x) ∧ (∀ x, moved c x = true ↔ x ∈ st.1) ∧
  length (diagnostics_ c) = st.2.

Lemma update_not_moved locals vi e :
  vi_type (updateOwnershipOnInitialization locals vi e) = vi_type vi ∧
  vi_arrayDims (updateOwnershipOnInitialization locals vi e) = vi_arrayDims vi ∧
  isMoved (vi_ownership (updateOwnershipOnInitialization locals vi e)) = false.
Proof. unfold updateOwnershipOnInitialization. by repeat case_match. Qed.

Lemma emitDiag_locals ctx sev msg c : locals_ (emitDiag ctx sev msg c) = locals_ c.
Proof. destruct ctx as [[start [stop|]]|]; simpl; [|done..]. by destruct (0 <? tk_line stop). Qed.
Lemma emitDiag_length ctx sev msg c :
  length (diagnostics_ (emitDiag ctx sev msg c)) = S (length (diagnostics_ c)).
Proof.
  destruct ctx as [[start [stop|]]|]; simpl; [destruct (0 <? tk_line stop)|..]; simpl;
    rewrite length_app; simpl; lia.
Qed.
Lemma recordConsumed_other x c :
  locals_ (recordConsumed x c) = locals_ c ∧ diagnostics_ (recordConsumed x c) = diagnostics_ c.
Proof. unfold recordConsumed. by repeat case_match. Qed.

(** Two states with the same variables and errors stand in the same relation. *)
Lemma own_rel_ext tracks c c' st :
  locals_ c' = locals_ c → diagnostics_ c' = diagnostics_ c → own_rel tracks c st → own_rel tracks c' st.
Proof. unfold own_rel, tracked, moved. by intros -> ->. Qed.

(** Changing the ownership of one variable. *)
Lemma own_rel_set tracks c m errs x vi vi' :
  own_rel tracks c (m, errs) → locals_ c !! x = Some vi →
  vi_type vi' = vi_type vi → vi_arrayDims vi' = vi_arrayDims vi →
  own_rel tracks (c <| locals_ := <[x := vi']> (locals_ c) |>)
    (if tracks x && isMoved (vi_ownership vi') then {[x]} ∪ m else m ∖ {[x]}, errs).
Proof.
  intros (Ht & Hm & He) Hx Hty Hdims. split_and!; [| |exact He].
  - intros y. rewrite <-(Ht y). unfold tracked. simpl.
    destruct (decide (x = y)) as [<-|Hne]; [by rewrite lookup_insert_eq, Hx, Hty, Hdims|].
    by rewrite lookup_insert_ne.
  - intros y. specialize (Hm y). unfold moved in *. simpl.
    pose proof (Ht x) as Htx. unfold tracked in Htx. rewrite Hx in Htx.
    destruct (decide (x = y)) as [<-|Hne].
    + rewrite lookup_insert_eq, Hty, Hdims, Htx. destruct (tracks x && _); set_solver.
    + rewrite lookup_insert_ne by done. rewrite Hm. destruct (tracks x && _); set_solver.
Qed.

Lemma own_rel_error tracks c m errs ctx sev msg :
  own_rel tracks c (m, errs) → own_rel tracks (emitDiag ctx sev msg c) (m, S errs).
Proof.
  intros (Ht & Hm & He). unfold own_rel, tracked, moved.
  rewrite emitDiag_locals, emitDiag_length. simpl in He |- *. by rewrite He.
Qed.

Lemma run_op_refines tracks ctx op c st :
  own_rel tracks c st → own_rel tracks (run_op ctx op c) (spec_op tracks op st).
Proof.
  destruct st as [m errs]. intros Hrel. pose proof Hrel as (Ht & Hm & He).
  destruct op as [x|x|x e]; simpl.
  - specialize (Ht x). specialize (Hm x). unfold tracked, moved in Ht, Hm.
    destruct (locals_ c !! x) as [vi|] eqn:Ex; [|by rewrite <-Ht].
    destruct (isDropTrackedType _ _) eqn:Ed; rewrite <-Ht; [|done]. simpl in Hm |- *.
    destruct (recordConsumed_other x c) as [Hl Hd].
    assert (Hrel' := own_rel_ext tracks c _ _ Hl Hd Hrel).
    destruct (isMoved (vi_ownership vi)) eqn:Emv.
    + destruct (decide (x ∈ m)) as [_|n]; [by apply own_rel_error|]. destruct n. by apply Hm.
    + destruct (decide (x ∈ m)) as [i|_]; [by apply Hm in i|].
      pose proof (own_rel_set tracks _ m errs x vi (vi <| vi_ownership := OS.Moved |>) Hrel'
        ltac:(by rewrite Hl) eq_refl eq_refl) as H.
      rewrite <-Ht in H. exact H.
  - specialize (Ht x). specialize (Hm x). unfold tracked, moved in Ht, Hm.
    destruct (locals_ c !! x) as [vi|]; [|destruct (decide (x ∈ m)) as [i|]; [by apply Hm in i|done]].
    destruct (isDropTrackedType _ _); simpl in Hm |- *;
      [|destruct (decide (x ∈ m)) as [i|]; [by apply Hm in i|done]].
    destruct (isMoved (vi_ownership vi)).
    + destruct (decide (x ∈ m)) as [_|n]; [by apply own_rel_error|]. destruct n. by apply Hm.
    + destruct (decide (x ∈ m)) as [i|_]; [by apply Hm in i|done].
  - destruct (locals_ c !! x) as [vi|] eqn:Ex.
    + destruct (update_not_moved (locals_ c) vi e) as (Hty & Hdims & Hmv).
      pose proof (own_rel_set tracks c m errs x vi _ Hrel Ex Hty Hdims) as H.
      rewrite Hmv, andb_false_r in H. eapply own_rel_ext; [| |exact H]; simpl; [|done].
      apply map_eq. intros y. destruct (decide (x = y)) as [<-|Hne].
      * by rewrite lookup_alter_eq, lookup_insert_eq, Ex.
      * by rewrite lookup_alter_ne, lookup_insert_ne.
    + specialize (Hm x). unfold moved in Hm. rewrite Ex in Hm.
      assert (Hx : m ∖ {[x]} = m) by (apply set_eq; intros y; specialize (proj2 Hm); set_solver).
      rewrite Hx. eapply own_rel_ext; [| |exact Hrel]; simpl; [|done].
      apply alter_id. intros vi Hvi. congruence.
Qed.

Definition run_ops (ops : list (context * own_op)) (c : Checker) : Checker :=
  fold_left (λ c p, run_op p.1 p.2 c) ops c.
Definition spec_ops (tracks : string → bool) (ops : list own_op) (st : gset string * nat)
    : gset string * nat :=
  fold_left (λ st op, spec_op tracks op st) ops st.

(** C24: Along a straight line of moves, reads and initialisations the checker keeps exactly
    the set of moved variables of owning types, and reports one error for every read and
    every second move of a variable moved and not initialised since, and no other. *)
Theorem ownership_protocol tracks ops c st :
  own_rel tracks c st → own_rel tracks (run_ops ops c) (spec_ops tracks ops.*2 st).
Proof.
  unfold run_ops, spec_ops. revert c st. induction ops as [|[ctx op] ops IH]; intros c st Hrel; simpl; [done|].
  apply IH. by apply run_op_refines.
Qed.

Definition stringTI : TypeInfo := mkTypeInfo "string" TK.String 128 false "".
Definition emptyChecker (locals : gmap string VarInfo) : Checker := {|
  errors_ := []; diagnostics_ := []; locals_ := locals; userFunctionConsumingArgs_ := ∅;
  currentFnConsumeKey_ := ""; currentParamIndices_ := ∅; consumeEdges_ := ∅ |}.

(** A string that owns its buffer, and a state with two of them. *)
Definition ownedString : VarInfo := (newVar (Some stringTI)) <| vi_ownership := OS.Owned |>.

Lemma cstring_literal_buffer_witness :
  let c := emptyChecker {[ "p" := newVar None ]} in
  let lit := ELit CStrLit (String "c" (String quote ("hey" +:+ String quote ""))) in
  str_forall (λ c, negb (bool_decide (c = "\"%char))) "hey" = true ∧
  ∃ vi' c', trackVarBufferFromExpr "p" lit (Some (mkTypeInfo "*uint8" TK.Pointer 64 false "")) c
      = ROk () c' ∧ locals_ c' !! "p" = Some vi' ∧ vi_bufferCapacity vi' = 4.
Proof.
  intros c lit. split; [reflexivity|].
  destruct (cstring_literal_buffer "p" "hey" (Some (mkTypeInfo "*uint8" TK.Pointer 64 false ""))
    (newVar None) c) as (_ & _ & vi' & c' & H1 & H2 & H3 & _); [reflexivity..|].
  exists vi', c'. split; [exact H1|]. split; [exact H2|exact H3].
Defined.

Definition twoStrings : Checker := emptyChecker (<["a" := ownedString]> {[ "b" := ownedString ]}).
Definition isAB (x : string) : bool := bool_decide (x = "a") || bool_decide (x = "b").

Lemma twoStrings_rel : own_rel isAB twoStrings (∅, 0%nat).
Proof.
  assert (H : ∀ x, locals_ twoStrings !! x = if isAB x then Some ownedString else None).
  { intros x. unfold isAB.
    change (locals_ twoStrings) with (<["a" := ownedString]> ({[ "b" := ownedString ]} : gmap string VarInfo)).
    destruct (decide (x = "a")) as [->|Ha]; [by rewrite lookup_insert_eq|].
    rewrite lookup_insert_ne, (bool_decide_eq_false_2 (x = "a")) by congruence.
    destruct (decide (x = "b")) as [->|Hb]; [by rewrite lookup_singleton_eq|].
    by rewrite lookup_singleton_ne, (bool_decide_eq_false_2 (x = "b")) by congruence. }
  split_and!; [| |done]; intros x; unfold tracked, moved; rewrite H; destruct (isAB x); try done.
  all: split; [done|]; intros Hx; by apply elem_of_empty in Hx.
Qed.

Definition moves_example : list (context * own_op) := [
  (None, OpUse "a"); (None, OpMove "a"); (None, OpUse "a"); (None, OpMove "a");
  (None, OpInit "a" None); (None, OpUse "a"); (None, OpMove "b"); (None, OpUse "n") ].

Lemma ownership_protocol_witness :
  own_rel isAB (run_ops moves_example twoStrings) ({[ "b" ]}, 2%nat) ∧
  errors_ (run_ops moves_example twoStrings) =
    ["use-after-move: value 'a' was moved and is no longer valid";
     "double-move detected: value 'a' was already moved"].
Proof.
  split; [|vm_compute; reflexivity].
  replace (({[ "b" ]}, 2%nat) : gset string * nat) with (spec_ops isAB moves_example.*2 (∅, 0%nat))
    by (vm_compute; reflexivity).
  exact (ownership_protocol isAB moves_example twoStrings _ twoStrings_rel).
Defined.

(** ** Blocks *)

Lemma restoreLocals_lookup saved now x :
  restoreLocals saved now !! x = (λ vi, orUsed vi (now !! x)) <$> saved !! x.
Proof. unfold restoreLocals. rewrite map_lookup_imap. by destruct (saved !! x). Qed.

(** Leaving a block puts every variable back as it was, its [used] flag apart: what a
    block moved counts as owned again, so a read or a second move after it is accepted. *)
Lemma checkBlock_forgets_moves checkStmt ctxOf b capture c :
  let c' := (checkBlock checkStmt ctxOf b capture c).1 in
  (∀ x, vi_ownership <$> locals_ c' !! x = vi_ownership <$> locals_ c !! x) ∧
  (∀ x, moved c' x = moved c x) ∧
  (∀ x ctx, moved c x = false → validateExprNotMoved (EIdent x) ctx c' = c').
Proof.
  cbn zeta. unfold checkBlock. cbn [fst]. set (c1 := checkStmts _ _ _ _ _).
  assert (Hl : ∀ x, locals_ (c1 <| locals_ := restoreLocals (locals_ c) (locals_ c1) |>) !! x =
    (λ vi, orUsed vi (locals_ c1 !! x)) <$> locals_ c !! x).
  { intros x. apply restoreLocals_lookup. }
  assert (Hu : ∀ vi o, vi_ownership (orUsed vi o) = vi_ownership vi ∧ vi_type (orUsed vi o) = vi_type vi ∧
    vi_arrayDims (orUsed vi o) = vi_arrayDims vi) by (by intros vi [?|]).
  assert (Hm : ∀ x, moved (c1 <| locals_ := restoreLocals (locals_ c) (locals_ c1) |>) x = moved c x).
  { intros x. unfold moved. rewrite Hl. destruct (locals_ c !! x) as [vi|]; [|done]. simpl.
    destruct (Hu vi (locals_ c1 !! x)) as (-> & -> & ->). done. }
  split_and!; [|exact Hm|].
  - intros x. rewrite Hl. destruct (locals_ c !! x) as [vi|]; [|done]. simpl. by rewrite (proj1 (Hu _ _)).
  - intros x ctx Hx. rewrite <-Hm in Hx. unfold moved in Hx. unfold validateExprNotMoved.
    destruct (locals_ _ !! x) as [vi|]; [|done]. destruct (isDropTrackedType _ _); [|done].
    simpl in Hx |- *. by rewrite Hx.
Qed.

(** The checker of a statement that only knows calls of consuming functions. *)
Definition moveArgs (s : stmt) (c : Checker) : Checker * bool :=
  match s with
  | SCall _ (Some [a]) => (markExprAsMoved a None c, false)
  | _ => (c, false)
  end.

Lemma checkBlock_forgets_moves_witness :
  let c' := (checkBlock moveArgs (λ _, None) [SCall "freeStr" (Some [EIdent "a"])] None twoStrings).1 in
  moved (markExprAsMoved (EIdent "a") None twoStrings) "a" = true ∧
  validateExprNotMoved (EIdent "a") None c' = c' ∧ diagnostics_ c' = [].
Proof.
  cbn zeta. split; [vm_compute; reflexivity|]. split; [|vm_compute; reflexivity].
  apply checkBlock_forgets_moves. vm_compute. reflexivity.
Defined.

(** ** Calls *)

Lemma recordConsumed_other_key x c key :
  key ≠ currentFnConsumeKey_ c →
  userFunctionConsumingArgs_ (recordConsumed x c) !! key = userFunctionConsumingArgs_ c !! key ∧
  currentFnConsumeKey_ (recordConsumed x c) = currentFnConsumeKey_ c.
Proof.
  intros Hk. unfold recordConsumed. repeat case_match; simpl; try done.
  split; [|done]. by apply lookup_insert_ne.
Qed.

Lemma emitDiag_consuming ctx sev msg c :
  userFunctionConsumingArgs_ (emitDiag ctx sev msg c) = userFunctionConsumingArgs_ c ∧
  currentFnConsumeKey_ (emitDiag ctx sev msg c) = currentFnConsumeKey_ c.
Proof. destruct ctx as [[start [stop|]]|]; simpl; [|done..]. by destruct (0 <? tk_line stop). Qed.

Lemma markExprAsMoved_key e ctx c key :
  key ≠ currentFnConsumeKey_ c →
  userFunctionConsumingArgs_ (markExprAsMoved e ctx c) !! key = userFunctionConsumingArgs_ c !! key ∧
  currentFnConsumeKey_ (markExprAsMoved e ctx c) = currentFnConsumeKey_ c.
Proof.
  intros Hk. destruct e; try done. simpl. destruct (locals_ c !! name) as [vi|]; [|done].
  destruct (negb _); [done|]. pose proof (recordConsumed_other_key name c key Hk) as [H1 H2].
  destruct (isMoved _); [|done]. unfold error.
  destruct (emitDiag_consuming ctx Error ("double-move detected: value '" +:+ name +:+ "' was already moved")
    (recordConsumed name c)) as [-> ->]. done.
Qed.

Lemma consumedArgs_defined callee l args ctx c :
  callee ≠ currentFnConsumeKey_ c → ∃ c', consumedArgs callee l args ctx c = ROk () c'.
Proof.
  revert c. induction l as [|i l IH]; intros c Hk; simpl; [by eexists|].
  destruct (args !! i) as [a|].
  - destruct (markExprAsMoved_key a ctx c callee Hk) as [Hu Hc].
    rewrite bool_decide_eq_true_2 by done. apply IH. by rewrite Hc.
  - rewrite bool_decide_eq_true_2 by done. by apply IH.
Qed.

(** The effects of a call on ownership are defined for every callee but the function
    being checked. *)
Lemma applyCallOwnershipEffects_defined builtins callee args ctx c :
  callee ≠ currentFnConsumeKey_ c →
  ∃ c', applyCallOwnershipEffects builtins callee args ctx c = ROk () c'.
Proof.
  intros Hk. unfold applyCallOwnershipEffects. destruct (if bool_decide _ then _ else _); [by eexists|].
  destruct (consumedArgs_defined callee (default [] (userFunctionConsumingArgs_ c !! callee)) args ctx c Hk)
    as [c' ->]. by eexists.
Qed.

(** In [fn f(string a, string b)], after [a] was moved. *)
Definition inRecursive : Checker :=
  twoStrings <| currentFnConsumeKey_ := "f" |>
    <| currentParamIndices_ := <["a" := 0%nat]> {[ "b" := 1%nat ]} |>
    <| userFunctionConsumingArgs_ := {[ "f" := [0%nat] ]} |>.

Lemma applyCallOwnershipEffects_defined_witness :
  ∃ c', applyCallOwnershipEffects newBuiltinRegistry "g" [EIdent "b"; EIdent "a"] None inRecursive = ROk () c'.
Proof. apply applyCallOwnershipEffects_defined. discriminate. Defined.

(** A recursive call that moves another parameter into a consumed position extends the
    vector it is iterating over. *)
Theorem applyCallOwnershipEffects_recursive :
  applyCallOwnershipEffects newBuiltinRegistry "f" [EIdent "b"; EIdent "a"] None inRecursive = RUndef.
Proof. vm_compute. reflexivity. Qed.

(** ** The fixpoint of consumed parameters *)

Definition consumed (m : gmap string (list nat)) (f : string) : list nat := default [] (m !! f).

(** The parameters a function consumes: the ones it was seen to move, and the ones it
    passes on to a parameter that is consumed. *)
Inductive param_consumed (c : Checker) : string → nat → Prop :=
  | param_moved f i : i ∈ consumed (userFunctionConsumingArgs_ c) f → param_consumed c f i
  | param_passed f es e : consumeEdges_ c !! f = Some es → e ∈ es →
      param_consumed c (ce_callee e) (ce_arg e) → param_consumed c f (ce_param e).

Definition fires (m : gmap string (list nat)) (e : string * ConsumeEdge) : Prop :=
  ce_arg e.2 ∈ consumed m (ce_callee e.2) ∧ ce_param e.2 ∉ consumed m e.1.

#[export] Instance fires_dec m e : Decision (fires m e).
Proof. unfold fires. apply _. Defined.

Lemma consumed_insert m f l g : consumed (<[f := l]> m) g = if decide (f = g) then l else consumed m g.
Proof.
  unfold consumed. destruct (decide (f = g)) as [->|].
  - by rewrite lookup_insert_eq.
  - by rewrite lookup_insert_ne.
Qed.

Lemma fixEdge_spec e m b :
  let st := fixEdge e.1 e.2 (m, b) in
  (fires m e ∧ st.2 = true ∧
     ∀ g, consumed st.1 g = if decide (e.1 = g) then consumed m g ++ [ce_param e.2] else consumed m g) ∨
  (¬ fires m e ∧ st.2 = b ∧ ∀ g, consumed st.1 g = consumed m g).
Proof.
  unfold fixEdge, fires. cbn [fst snd]. destruct (m !! ce_callee e.2) as [l|] eqn:E.
  2:{ right. unfold consumed at 1. rewrite E. simpl. set_solver. }
  assert (Hl : consumed m (ce_callee e.2) = l) by (unfold consumed; by rewrite E).
  rewrite Hl. case_bool_decide; cbn [negb]; [|right; naive_solver].
  change (default [] (m !! e.1)) with (consumed m e.1). case_bool_decide; cbn [fst snd].
  - right. split; [naive_solver|]. split; [done|]. intros g. rewrite consumed_insert. by case_decide; subst.
  - left. split; [done|]. split; [done|]. intros g. rewrite consumed_insert. by case_decide; subst.
Qed.

(** A property every edge keeps holds after a pass. *)
Lemma fixPass_ind (P : gmap string (list nat) → bool → Prop) edges m :
  P m false →
  (∀ m b e, e ∈ edges → P m b → P (fixEdge e.1 e.2 (m, b)).1 (fixEdge e.1 e.2 (m, b)).2) →
  P (fixPass edges m).1 (fixPass edges m).2.
Proof.
  intros H0 Hs. unfold fixPass.
  cut (∀ st, P st.1 st.2 → let st' := fold_left (λ st e, fixEdge e.1 e.2 st) edges st in P st'.1 st'.2).
  { intros Hf. apply Hf, H0. }
  clear H0. induction edges as [|e edges IH]; intros [m' b] Hb; [done|].
  cbn [fold_left]. apply IH; [intros; apply Hs; [by right|done]|].
  apply Hs; [by left|exact Hb].
Qed.

(** The work left: the edges whose parameter is not yet consumed. *)
Definition pending (edges : list (string * ConsumeEdge)) (m : gmap string (list nat)) : nat :=
  length (filter (λ e, ce_param e.2 ∉ consumed m e.1) edges).

Lemma pending_mono edges m m' :
  (∀ f i, i ∈ consumed m f → i ∈ consumed m' f) → (pending edges m' ≤ pending edges m)%nat.
Proof.
  intros H. unfold pending. induction edges as [|e edges IH]; [done|].
  rewrite !filter_cons. repeat case_decide; simpl; try lia. naive_solver.
Qed.

Lemma pending_lt edges m m' e :
  (∀ f i, i ∈ consumed m f → i ∈ consumed m' f) → e ∈ edges →
  ce_param e.2 ∉ consumed m e.1 → ce_param e.2 ∈ consumed m' e.1 →
  (pending edges m' < pending edges m)%nat.
Proof.
  intros Hm He H1 H2. apply list_elem_of_split in He as (l1 & l2 & ->).
  unfold pending. rewrite !filter_app, !filter_cons, !length_app.
  rewrite decide_False by naive_solver. rewrite decide_True by done. simpl.
  pose proof (pending_mono l1 m m' Hm) as Ha. pose proof (pending_mono l2 m m' Hm) as Hb.
  unfold pending in Ha, Hb. lia.
Qed.

(** What one pass does: it only adds, it adds what follows, it ends with a closed table
    when it changes nothing, and has less to do after it when it does. *)
Lemma fixEdge_grows e m b f i :
  i ∈ consumed m f → i ∈ consumed (fixEdge e.1 e.2 (m, b)).1 f.
Proof.
  intros Hi. destruct (fixEdge_spec e m b) as [(_ & _ & H)|(_ & _ & H)]; rewrite H; [|done].
  case_decide; [rewrite elem_of_app|]; auto.
Qed.

Lemma fixPass_changed edges m :
  (∀ f i, i ∈ consumed m f → i ∈ consumed (fixPass edges m).1 f) ∧
  ((fixPass edges m).2 = true → (pending edges (fixPass edges m).1 < pending edges m)%nat).
Proof.
  apply (fixPass_ind (λ m' b, (∀ f i, i ∈ consumed m f → i ∈ consumed m' f) ∧
    (b = true → (pending edges m' < pending edges m)%nat))); [done|].
  intros m' b e He [Hg Hp]. split; [intros; apply fixEdge_grows; auto|].
  intros Hb. pose proof (fixEdge_grows e m' b) as Hg'.
  destruct (fixEdge_spec e m' b) as [((_ & Hn) & _ & H)|(_ & Hb' & H)].
  - assert (Hlt : (pending edges (fixEdge e.1 e.2 (m', b)).1 < pending edges m')%nat).
    { apply (pending_lt _ _ _ e); [done..|]. rewrite H, decide_True by done.
      apply elem_of_app. right. by left. }
    pose proof (pending_mono edges m m' Hg). lia.
  - rewrite Hb' in Hb. specialize (Hp Hb).
    pose proof (pending_mono edges m' _ Hg'). lia.
Qed.

Lemma fixPass_closed edges m :
  (fixPass edges m).2 = false →
  (∀ f, consumed (fixPass edges m).1 f = consumed m f) ∧ (∀ e, e ∈ edges → ¬ fires m e).
Proof.
  unfold fixPass. revert m.
  assert (Hflag : ∀ l st, st.2 = true → (fold_left (λ st e, fixEdge e.1 e.2 st) l st).2 = true).
  { induction l as [|e l IH]; intros [m b] Hb; [done|]. cbn [fold_left]. apply IH.
    destruct (fixEdge_spec e m b) as [(_ & ? & _)|(_ & -> & _)]; done. }
  induction edges as [|e edges IH]; intros m Hf; [set_solver|]. cbn [fold_left] in *.
  destruct (fixEdge_spec e m false) as [(_ & H & _)|(Hn & Hb & H)].
  - by rewrite Hflag in Hf.
  - destruct (fixEdge e.1 e.2 (m, false)) as [m1 b1]. cbn [fst snd] in *. subst b1.
    destruct (IH _ Hf) as [Hc Hcl]. split; [intros f; by rewrite Hc, H|].
    assert (Heq : ∀ e, fires m1 e ↔ fires m e) by (intros; unfold fires; by rewrite !H).
    intros e' [->|He']%elem_of_cons; [done|]. rewrite <-Heq. auto.
Qed.

Lemma resolveLoop_ends fuel edges m :
  (pending edges m < fuel)%nat →
  ∃ m', resolveLoop fuel edges m = Ret m' ∧ ∀ e, e ∈ edges → ¬ fires m' e.
Proof.
  revert m. induction fuel as [|fuel IH]; intros m Hf; [lia|]. cbn [resolveLoop].
  pose proof (fixPass_changed edges m) as [_ Hlt]. pose proof (fixPass_closed edges m) as Hcl.
  destruct (fixPass edges m) as [m' []]; cbn [fst snd] in *.
  - apply IH. specialize (Hlt eq_refl). lia.
  - destruct (Hcl eq_refl) as [Hc Hn]. exists m'. split; [done|]. intros e He [H1 H2].
    apply (Hn e He). unfold fires. by rewrite <-!Hc.
Qed.

(** An invariant of one edge is an invariant of the loop. *)
Lemma resolveLoop_ind (P : gmap string (list nat) → Prop) fuel edges m m' :
  P m → (∀ m b e, e ∈ edges → P m → P (fixEdge e.1 e.2 (m, b)).1) →
  resolveLoop fuel edges m = Ret m' → P m'.
Proof.
  intros H0 Hs. revert m H0. induction fuel as [|fuel IH]; intros m H0 Hr; [done|].
  cbn [resolveLoop] in Hr. pose proof (fixPass_ind (λ m _, P m) edges m H0 Hs) as Hp.
  destruct (fixPass edges m) as [m1 []]; cbn [fst] in *; [eauto|]. by simplify_eq.
Qed.

Lemma elem_of_allEdges order e : e ∈ allEdges order ↔ ∃ es, (e.1, es) ∈ order ∧ e.2 ∈ es.
Proof.
  unfold allEdges. rewrite list_elem_of_In, in_flat_map. split.
  - intros (t & Ht & He). apply list_elem_of_In, list_elem_of_fmap in He as (d & -> & Hd).
    exists t.2. split; [|done]. apply list_elem_of_In. by destruct t.
  - intros (es & Ht & He). exists (e.1, es). split; [by apply list_elem_of_In|].
    apply list_elem_of_In, list_elem_of_fmap. exists e.2. by destruct e.
Qed.

(** C25: whatever the order in which the hash table of edges is visited, propagating
    consumption through the call graph ends, changes nothing but the table of consumed
    parameters, only appends to its lists and keeps them free of duplicates, and leaves in
    it exactly the least set of parameters that contains the ones seen to be moved and is
    closed under passing a parameter on to a consumed one, recursion included. *)
Theorem resolveConsumptionFixpoint_least order c :
  order ≡ₚ map_to_list (consumeEdges_ c) →
  ∃ m, resolveConsumptionFixpoint order c = Ret (c <| userFunctionConsumingArgs_ := m |>) ∧
    (∀ f i, i ∈ consumed m f ↔ param_consumed c f i) ∧
    (∀ f, consumed (userFunctionConsumingArgs_ c) f `prefix_of` consumed m f) ∧
    (∀ f, NoDup (consumed (userFunctionConsumingArgs_ c) f) → NoDup (consumed m f)).
Proof.
  intros Ho. unfold resolveConsumptionFixpoint.
  assert (Hedge : ∀ e, e ∈ allEdges order ↔ ∃ es, consumeEdges_ c !! e.1 = Some es ∧ e.2 ∈ es).
  { intros e. rewrite elem_of_allEdges. setoid_rewrite Ho. by setoid_rewrite elem_of_map_to_list. }
  destruct (resolveLoop_ends (S (length (allEdges order))) (allEdges order)
    (userFunctionConsumingArgs_ c)) as (m & Hr & Hcl).
  { unfold pending. pose proof (length_filter (λ e, ce_param e.2 ∉ consumed (userFunctionConsumingArgs_ c) e.1) (allEdges order)). lia. }
  rewrite Hr. exists m. split; [reflexivity|].
  split; [intros f i; split|split; intros f; revert Hr].
  - revert Hr f i. apply (resolveLoop_ind (λ m, ∀ f i, i ∈ consumed m f → param_consumed c f i)).
    { intros f i Hi. by apply param_moved. }
    intros m' b e He IH f i. destruct (fixEdge_spec e m' b) as [((H1 & _) & _ & H)|(_ & _ & H)];
      rewrite H; [|apply IH].
    case_decide as Hd; [|apply IH]. subst f.
    intros [Hi|Hi]%elem_of_app; [by apply IH|]. apply list_elem_of_singleton in Hi as ->.
    apply Hedge in He as (es & He & Hin). eapply param_passed; eauto.
  - induction 1 as [f i Hi|f es e Hes He _ IH].
    + revert Hr. apply (resolveLoop_ind (λ m, i ∈ consumed m f)); [done|].
      intros; by apply fixEdge_grows.
    + destruct (decide (ce_param e ∈ consumed m f)) as [|Hn]; [done|].
      exfalso. apply (Hcl (f, e)); [apply Hedge; eauto|]. by split.
  - apply (resolveLoop_ind (λ m, consumed (userFunctionConsumingArgs_ c) f `prefix_of` consumed m f));
      [done|].
    intros m' b e _ Hp. destruct (fixEdge_spec e m' b) as [(_ & _ & H)|(_ & _ & H)]; rewrite H; [|done].
    case_decide; [by apply prefix_app_r|done].
  - apply (resolveLoop_ind (λ m, NoDup (consumed (userFunctionConsumingArgs_ c) f) → NoDup (consumed m f)));
      [done|].
    intros m' b e _ IH Hd. destruct (fixEdge_spec e m' b) as [((_ & Hn) & _ & H)|(_ & _ & H)];
      rewrite H; [|auto].
    case_decide as He; [|auto]. subst f. apply NoDup_app. split; [auto|]. split; [set_solver|].
    apply NoDup_singleton.
Qed.

(** Three functions that pass their parameters on in a circle, one of which is moved. *)
Definition circle : Checker := (emptyChecker ∅)
  <| consumeEdges_ :=
       <["f" := [{| ce_param := 0; ce_callee := "g"; ce_arg := 1 |}]]>
       (<["g" := [{| ce_param := 1; ce_callee := "h"; ce_arg := 0 |};
                  {| ce_param := 0; ce_callee := "f"; ce_arg := 1 |}]]>
       {[ "h" := [{| ce_param := 2; ce_callee := "f"; ce_arg := 0 |}] ]}) |>
  <| userFunctionConsumingArgs_ := {[ "h" := [0%nat] ]} |>.

Lemma resolveConsumptionFixpoint_least_witness :
  ∃ m, resolveConsumptionFixpoint (map_to_list (consumeEdges_ circle)) circle
         = Ret (circle <| userFunctionConsumingArgs_ := m |>) ∧
    param_consumed circle "h" 2 ∧ consumed m "g" = [1%nat].
Proof.
  destruct (resolveConsumptionFixpoint_least (map_to_list (consumeEdges_ circle)) circle)
    as (m & H & Hm & _); [reflexivity|].
  exists m. split; [exact H|].
  assert (E : ∃ m', resolveConsumptionFixpoint (map_to_list (consumeEdges_ circle)) circle
      = Ret (circle <| userFunctionConsumingArgs_ := m' |>) ∧ consumed m' "g" = [1%nat] ∧
        2%nat ∈ consumed m' "h").
  { eexists. split; [vm_compute; reflexivity|]. split; [vm_compute; reflexivity|].
    vm_compute. repeat constructor. }
  destruct E as (m' & H' & Hg & Hh). rewrite H in H'.
  assert (m = m') as -> by exact (f_equal (λ r, match r with Ret c => userFunctionConsumingArgs_ c | _ => ∅ end) H').
  split; [apply Hm; exact Hh|exact Hg].
Defined.
