(* ===== verification/Attributes.v ===== *)
(** * Attributes and conditional compilation

    [attributes/CfgPredicate.{h,cpp}], [attributes/TargetInfo.{h,cpp}],
    [attributes/Attribute.h], [attributes/AttributeRegistry.{h,cpp}],
    [attributes/TestAttribute.{h,cpp}], and the reading of [#[cfg]] in the checker
    ([checkers/Checker_driver.cpp]) and in the module registry
    ([namespace/ModuleRegistry.cpp]).

    The trees are those of [grammar/LucisParser.g4], as the parser builds them for
    programs without syntax errors.  The [emit] callbacks of the registry, which no
    built-in attribute sets, are left out. *)

From S2P Require Import Prelude CxxLib CFloat.
Local Open Scope Z_scope.

(** ** Attribute trees *)

Inductive attr_lit := AInt | AHex | AOct | ABin | AFloat | AStr | ACStr | ABool.

Inductive attrArg :=
| AKeyValue (key : string) (value : attrArg)
| ACall (name : string) (args : list attrArg)
| AIdent (name : string)
| ALit (kind : attr_lit) (text : string)
| AMinusInt (text : string)
| AMinusFloat (text : string).

(** The argument list is absent in [#[name]] and [#[name()]]. *)
Record AttributeContext := { at_name : string; at_args : option (list attrArg) }.

(** [getText()]: the tokens without the spaces between them. *)
Fixpoint attrArg_text (a : attrArg) : string :=
  match a with
  | AKeyValue k v => k +:+ "=" +:+ attrArg_text v
  | ACall f l => f +:+ "(" +:+ str_join "," (attrArg_text <$> l) +:+ ")"
  | AIdent x => x
  | ALit _ t => t
  | AMinusInt t | AMinusFloat t => "-" +:+ t
  end.

(** ** The target *)

Record TargetInfo := {
  tg_os : string;
  tg_arch : string;
  tg_endian : string;
  tg_pointerWidth : Z;
  tg_osFamily : string;
  tg_triple : string;
  tg_debug : bool }.

Definition toLower (s : string) : string := str_map tolower s.

Definition normalizeOs (osPart : string) : string :=
  let lower := toLower osPart in
  if bool_decide (lower = "linux") || bool_decide (lower = "linux-gnu") then "linux" else
  if bool_decide (lower = "win32") || bool_decide (lower = "windows")
     || bool_decide (lower = "mingw32") || bool_decide (lower = "mingw") then "windows" else
  if bool_decide (lower = "darwin") || bool_decide (lower = "macos")
     || bool_decide (lower = "macosx") then "macos" else
  if bool_decide (lower = "freebsd") then "freebsd" else
  if bool_decide (lower = "openbsd") then "openbsd" else
  if bool_decide (lower = "netbsd") then "netbsd" else lower.

Definition normalizeArch (arch : string) : string :=
  let archLower := toLower arch in
  if bool_decide (archLower = "amd64") || bool_decide (archLower = "x86_64")
     || bool_decide (archLower = "x64") then "x86_64" else
  if bool_decide (archLower = "aarch64") || bool_decide (archLower = "arm64") then "aarch64" else
  if bool_decide (archLower = "i386") || bool_decide (archLower = "i486")
     || bool_decide (archLower = "i586") || bool_decide (archLower = "i686")
     || bool_decide (archLower = "x86") then "x86" else arch.

(** The part before the dash and the part behind it. *)
Definition cut_dash (s : string) : option (string * string) :=
  match find_char "-" s with
  | Some i => Some (str_take i s, str_drop (i + 1) s)
  | None => None
  end.

(** Architecture and operating system of a triple, as written and normalised. *)
Definition splitTriple (tripleStr : string) : string * string :=
  match cut_dash tripleStr with
  | None => ("", "")
  | Some (arch, parts) =>
      match cut_dash parts with
      | None => (arch, "")
      | Some (_, parts) =>
          let osPart := match cut_dash parts with Some (os, _) => os | None => parts end in
          (arch, normalizeOs osPart)
      end
  end.

Definition newTargetInfo (tripleStr : string) (debug : bool) : TargetInfo :=
  let '(arch, os) := splitTriple tripleStr in
  let arch := normalizeArch arch in
  {| tg_os := os; tg_arch := arch; tg_endian := "little";
     tg_pointerWidth :=
       if bool_decide (arch = "x86_64") || bool_decide (arch = "aarch64") || str_contains "64" arch
       then 64 else 32;
     tg_osFamily := if bool_decide (os = "windows") then "windows" else "unix";
     tg_triple := tripleStr; tg_debug := debug |}.

(** [TargetInfo::get] *)
Definition target_get (target : TargetInfo) (key : string) : string :=
  if bool_decide (key = "target_os") then tg_os target else
  if bool_decide (key = "target_arch") then tg_arch target else
  if bool_decide (key = "target_endian") then tg_endian target else
  if bool_decide (key = "target_pointer_width") then to_string (tg_pointerWidth target) else
  if bool_decide (key = "target_os_family") then tg_osFamily target else
  if bool_decide (key = "target_triple") then tg_triple target else
  if bool_decide (key = "debug_assertions") then (if tg_debug target then "true" else "false") else
  "".

(** ** Predicates *)

Inductive CfgType := CfgKeyValue | CfgCall | CfgIdent.

Inductive CfgPredicate := mkPred (type : CfgType) (name stringValue : string)
  (args : list CfgPredicate).

(** [CfgPredicate::evaluate] *)
Fixpoint cfg_evaluate (target : TargetInfo) (p : CfgPredicate) : bool :=
  let 'mkPred type name stringValue args := p in
  match type with
  | CfgKeyValue =>
      let targetVal := target_get target name in
      if bool_decide (targetVal = "") then false else bool_decide (targetVal = stringValue)
  | CfgIdent =>
      if bool_decide (name = "unix") then bool_decide (tg_osFamily target = "unix") else
      if bool_decide (name = "windows") then bool_decide (tg_os target = "windows") else
      if bool_decide (name = "x86_64") then bool_decide (tg_arch target = "x86_64") else
      if bool_decide (name = "aarch64") then bool_decide (tg_arch target = "aarch64") else
      if bool_decide (name = "debug") then tg_debug target else
      let val := target_get target name in
      if bool_decide (val = "") then false
      else negb (bool_decide (val = "false")) && negb (bool_decide (val = "0"))
  | CfgCall =>
      if bool_decide (name = "all") then forallb (cfg_evaluate target) args else
      if bool_decide (name = "any") then existsb (cfg_evaluate target) args else
      if bool_decide (name = "not") then
        match args with [a] => negb (cfg_evaluate target a) | _ => false end
      else false
  end.

(** [CfgPredicate::toString] *)
Fixpoint cfg_toString (p : CfgPredicate) : string :=
  let 'mkPred type name stringValue args := p in
  match type with
  | CfgKeyValue => name +:+ " = " +:+ String (ascii_of_N 34) (stringValue +:+ String (ascii_of_N 34) "")
  | CfgIdent => name
  | CfgCall => name +:+ "(" +:+ str_join ", " (cfg_toString <$> args) +:+ ")"
  end.

(** ** [#[cfg]] in the checker *)

Definition dquote : ascii := ascii_of_N 34.

Definition front_is (c : ascii) (s : string) : bool :=
  match s with String a _ => bool_decide (a = c) | "" => false end.
Definition back_is (c : ascii) (s : string) : bool :=
  front_is c (str_drop (String.length s - 1) s).

Definition unquote (raw : string) : string :=
  if (2 <=? String.length raw)%nat && front_is dquote raw && back_is dquote raw
  then str_take (String.length raw - 2) (str_drop 1 raw) else raw.

(** The value of a key-value form; [strip] treats the text of a string literal. *)
Definition cfgValue (strip : string → string) (val : attrArg) : string :=
  match val with
  | ALit AStr raw => strip raw
  | AKeyValue x _ | ACall x _ | AIdent x => x
  | _ => ""
  end.

Fixpoint parseCfgAttrArg (arg : attrArg) : CfgPredicate :=
  match arg with
  | AKeyValue key val => mkPred CfgKeyValue key (cfgValue unquote val) []
  | ACall name args => mkPred CfgCall name "" (parseCfgAttrArg <$> args)
  | AIdent x => mkPred CfgIdent x "" []
  | _ => mkPred CfgIdent "" "" []
  end.

Definition parseCfgFromAttribute (a : AttributeContext) : CfgPredicate :=
  match at_args a with
  | None | Some [] => mkPred CfgIdent "true" "" []
  | Some [arg] => parseCfgAttrArg arg
  | Some args => mkPred CfgCall "all" "" (parseCfgAttrArg <$> args)
  end.

(** ** Attributes as flat arguments *)

Inductive ArgKind := KIdent | KString | KInt | KFloat | KBool.

#[export] Instance ArgKind_eq_dec : EqDecision ArgKind.
Proof. solve_decision. Defined.

Record AttributeArg := {
  aa_kind : ArgKind;
  aa_identValue : string;
  aa_stringValue : string;
  aa_intValue : Z;
  aa_floatValue : double }.

Record Attribute := {
  attr_name : string;
  attr_args : list AttributeArg;
  attr_contextName : string;
  attr_rawCtx : option AttributeContext }.

(** [strtoll(text, &end, base)]: the saturated value and the text at [end]. *)
Definition strtoll (base : Z) (text : string) : Z * string :=
  match strtol_core base text with
  | None => (0, text)
  | Some (v, rest) => (Z.max int64_min (Z.min int64_max v), rest)
  end.

Definition readIntText (neg : bool) (text : string) : option Z :=
  let text := str_remove "_" text in
  let '(base, text) :=
    match text with
    | String z (String x (String _ _ as digits)) =>
        if negb (bool_decide (z = "0"%char)) then (10, text) else
        if bool_decide (x = "x"%char) || bool_decide (x = "X"%char) then (16, digits) else
        if bool_decide (x = "o"%char) || bool_decide (x = "O"%char) then (8, digits) else
        if bool_decide (x = "b"%char) || bool_decide (x = "B"%char) then (2, digits) else (10, text)
    | _ => (10, text)
    end in
  match strtoll base text with
  | (v, "") => Some (if neg : bool then - v else v)
  | _ => None
  end.

Definition readIntValue (arg : attrArg) : option Z :=
  match arg with
  | ALit (AInt | AHex | AOct | ABin) text => readIntText false text
  | AMinusInt text => readIntText true text
  | _ => None
  end.

Definition identArg (x : string) : AttributeArg := {|
  aa_kind := KIdent; aa_identValue := x; aa_stringValue := ""; aa_intValue := 0; aa_floatValue := dzero |}.
Definition stringArg (s : string) : AttributeArg := {|
  aa_kind := KString; aa_identValue := ""; aa_stringValue := s; aa_intValue := 0; aa_floatValue := dzero |}.
Definition intArg (v : Z) : AttributeArg := {|
  aa_kind := KInt; aa_identValue := ""; aa_stringValue := ""; aa_intValue := v; aa_floatValue := dzero |}.
Definition floatArg (d : double) : AttributeArg := {|
  aa_kind := KFloat; aa_identValue := ""; aa_stringValue := ""; aa_intValue := 0; aa_floatValue := d |}.

(** One argument of [populateAttribute], where it has a flat form. *)
Definition flatArg (arg : attrArg) : outcome (option AttributeArg) :=
  match arg with
  | AKeyValue _ _ | ACall _ _ => Ret None
  | AIdent x => Ret (Some (identArg x))
  | ALit (AStr | ACStr) t => Ret (Some (stringArg t))
  | ALit (AInt | AHex | AOct | ABin) _ | AMinusInt _ =>
      Ret (Some (intArg (default 0 (readIntValue arg))))
  | ALit AFloat t => d ← stod t; Ret (Some (floatArg d))
  | AMinusFloat t => d ← stod ("-" +:+ t); Ret (Some (floatArg d))
  | ALit ABool t => Ret (Some (intArg (if bool_decide (t = "true") then 1 else 0)))
  end.

Fixpoint flatArgs (l : list attrArg) : outcome (list AttributeArg) :=
  match l with
  | [] => Ret []
  | a :: l => v ← flatArg a; vs ← flatArgs l;
              Ret match v with Some v => v :: vs | None => vs end
  end.

(** [populateAttribute], with the context name its callers fill in. *)
Definition populateAttribute (contextName : string) (ctx : AttributeContext) : outcome Attribute :=
  args ← flatArgs (default [] (at_args ctx));
  Ret {| attr_name := at_name ctx; attr_args := args; attr_contextName := contextName;
         attr_rawCtx := Some ctx |}.

(** [findAttribute] *)
Fixpoint findAttribute (attrs : list AttributeContext) (name : string) : option AttributeContext :=
  match attrs with
  | [] => None
  | a :: attrs => if bool_decide (at_name a = name) then Some a else findAttribute attrs name
  end.

(** ** [#[test]] *)

Fixpoint unescapeTo (s : string) : string :=
  match s with
  | "" => ""
  | String c s =>
      if bool_decide (c = dquote) then "" else
      if bool_decide (c = "\"%char) then
        match s with
        | "" => String c ""
        | String e s =>
            if bool_decide (e = "n"%char) then String (ascii_of_N 10) (unescapeTo s) else
            if bool_decide (e = "r"%char) then String (ascii_of_N 13) (unescapeTo s) else
            if bool_decide (e = "t"%char) then String (ascii_of_N 9) (unescapeTo s) else
            if bool_decide (e = "0"%char) then String (ascii_of_N 0) (unescapeTo s) else
            if bool_decide (e = "\"%char) || bool_decide (e = dquote) || bool_decide (e = "'"%char)
            then String e (unescapeTo s) else String c (String e (unescapeTo s))
        end
      else String c (unescapeTo s)
  end.

Definition unquoteStringLiteral (raw : string) : string :=
  if front_is "c" raw && front_is dquote (str_drop 1 raw) then unescapeTo (str_drop 2 raw) else
  if front_is dquote raw then unescapeTo (str_drop 1 raw) else raw.

Record TestSpec := {
  ts_displayName : string;
  ts_skip : bool;
  ts_skipReason : string;
  ts_expectedFail : bool;
  ts_timeoutMs : Z }.

#[export] Instance settable_TestSpec : Settable TestSpec := λ s,
  Build_TestSpec (ts_displayName s) (ts_skip s) (ts_skipReason s) (ts_expectedFail s) (ts_timeoutMs s).

Definition newTestSpec : TestSpec := {|
  ts_displayName := ""; ts_skip := false; ts_skipReason := ""; ts_expectedFail := false;
  ts_timeoutMs := 0 |}.

(** The flags of the options already seen. *)
Record Seen := { seenName : bool; seenSkip : bool; seenExpectedFail : bool; seenTimeout : bool }.

#[export] Instance settable_Seen : Settable Seen := λ s,
  Build_Seen (seenName s) (seenSkip s) (seenExpectedFail s) (seenTimeout s).

Definition dup (what : string) : string := "duplicate #[test] " +:+ what.

Definition testTimeout (value : attrArg) (spec : TestSpec) (seen : Seen) : TestSpec * Seen + string :=
  match readIntValue value with
  | Some ms =>
      if ms <=? 0 then inr "timeout must be a positive integer (milliseconds)"
      else inl (spec <| ts_timeoutMs := ms |>, seen <| seenTimeout := true |>)
  | None => inr "timeout must be a positive integer (milliseconds)"
  end.

(** One round of the loop of [parseTestSpec]: the new specification, or the error. *)
Definition testArg (arg : attrArg) (spec : TestSpec) (seen : Seen) : TestSpec * Seen + string :=
  match arg with
  | ALit (AStr | ACStr) t =>
      if seenName seen then inr (dup "name") else
      inl (spec <| ts_displayName := unquoteStringLiteral t |>, seen <| seenName := true |>)
  | ALit _ _ | AMinusInt _ | AMinusFloat _ =>
      inr ("unexpected argument '" +:+ attrArg_text arg +:+ "' in #[test]")
  | AKeyValue key value =>
      if bool_decide (key = "timeout") then
        if seenTimeout seen then inr (dup "timeout") else testTimeout value spec seen
      else inr ("unknown #[test] option '" +:+ key +:+ "'")
  | ACall key inner =>
      if bool_decide (key = "skip") then
        if seenSkip seen then inr (dup "skip") else
        let done reason :=
          inl (spec <| ts_skipReason := reason |> <| ts_skip := true |>, seen <| seenSkip := true |>) in
        match inner with
        | [] => done (ts_skipReason spec)
        | [ALit AStr t] => done (unquoteStringLiteral t)
        | _ => inr "skip() takes an optional single string reason"
        end
      else if bool_decide (key = "timeout") then
        if seenTimeout seen then inr (dup "timeout") else
        match inner with
        | [value] => testTimeout value spec seen
        | _ => inr "timeout() takes exactly one integer (milliseconds)"
        end
      else inr ("unknown #[test] option '" +:+ key +:+ "'")
  | AIdent key =>
      if bool_decide (key = "skip") then
        if seenSkip seen then inr (dup "skip") else
        inl (spec <| ts_skip := true |>, seen <| seenSkip := true |>)
      else if bool_decide (key = "expected_fail") then
        if seenExpectedFail seen then inr (dup "expected_fail") else
        inl (spec <| ts_expectedFail := true |>, seen <| seenExpectedFail := true |>)
      else inr ("unknown #[test] option '" +:+ key +:+ "' (valid: " +:+
                String dquote "name" +:+ String dquote ", skip, skip(" +:+ String dquote "reason" +:+
                String dquote "), expected_fail, timeout(N))")
  end.

Fixpoint testArgs (l : list attrArg) (spec : TestSpec) (seen : Seen) : TestSpec * Seen + string :=
  match l with
  | [] => inl (spec, seen)
  | a :: l => match testArg a spec seen with
              | inl (spec, seen) => testArgs l spec seen
              | inr e => inr e
              end
  end.

(** The specification read, or the error appended. *)
Definition parseTestSpec (a : Attribute) : TestSpec + string :=
  match attr_rawCtx a with
  | None => inl newTestSpec
  | Some ctx =>
      match testArgs (default [] (at_args ctx)) newTestSpec
              (Build_Seen false false false false) with
      | inl (spec, _) => inl spec
      | inr e => inr e
      end
  end.

(** ** The registry *)

(** A validation callback: whether it accepts, and the errors it adds. *)
Notation AttributeHandler := (Attribute → bool * list string).
Notation AttributeRegistry := (gmap string AttributeHandler).

Definition registerAttribute (reg : AttributeRegistry) (name : string) (handler : AttributeHandler)
    : AttributeRegistry := <[name := handler]> reg.
(** [AttributeRegistry::lookup] *)
Definition attr_lookup (reg : AttributeRegistry) (name : string) : option AttributeHandler := reg !! name.
Definition isKnown (reg : AttributeRegistry) (name : string) : bool := bool_decide (is_Some (reg !! name)).

Definition quiet (f : list AttributeArg → bool) : AttributeHandler := λ a, (f (attr_args a), []).

Definition no_args (args : list AttributeArg) : bool := match args with [] => true | _ => false end.
Definition some_args (args : list AttributeArg) : bool := negb (no_args args).
Definition is_kind (k : ArgKind) (a : AttributeArg) : bool := bool_decide (aa_kind a = k).
Definition ident_in (l : list string) (a : AttributeArg) : bool :=
  is_kind KIdent a && existsb (λ x, bool_decide (aa_identValue a = x)) l.
Definition one_string (args : list AttributeArg) : bool :=
  match args with [a] => is_kind KString a | _ => false end.

(** [n > 0 && (n & (n - 1)) == 0] *)
Definition validAlign (args : list AttributeArg) : bool :=
  match args with
  | [a] => is_kind KInt a && (0 <? aa_intValue a) && (Z.land (aa_intValue a) (aa_intValue a - 1) =? 0)
  | _ => false
  end.

Definition keyed_int (key : string) (ok : Z → bool) (args : list AttributeArg) : bool :=
  match args with
  | [] => true
  | [k; v] => ident_in [key] k && is_kind KInt v && ok (aa_intValue v)
  | _ => false
  end.

Definition validateTest : AttributeHandler := λ a,
  if negb (bool_decide (attr_contextName a = "function"))
  then (false, ["#[test] can only be applied to a function declaration"])
  else match parseTestSpec a with inl _ => (true, []) | inr e => (false, [e]) end.

Definition validateFuzz : AttributeHandler := λ a,
  if negb (bool_decide (attr_contextName a = "function"))
  then (false, ["#[fuzz] can only be applied to a function declaration"])
  else if some_args (attr_args a) then (false, ["#[fuzz] takes no arguments"]) else (true, []).

Definition builtinAttributes : list (string * AttributeHandler) := [
  ("error", quiet no_args);
  ("deprecated", quiet (λ args, (length args <=? 2)%nat && forallb (is_kind KString) args));
  ("repr", quiet (λ args, some_args args && forallb (ident_in ["C"; "packed"; "transparent"]) args));
  ("no_mangle", quiet no_args);
  ("test", validateTest);
  ("fuzz", validateFuzz);
  ("export", quiet no_args);
  ("link_section", quiet one_string);
  ("must_use", quiet no_args);
  ("noreturn", quiet no_args);
  ("non_exhaustive", quiet no_args);
  ("inline", quiet (λ args, (length args <=? 1)%nat && forallb (ident_in ["always"; "never"]) args));
  ("cold", quiet no_args);
  ("hot", quiet no_args);
  ("allow", quiet some_args);
  ("deny", quiet some_args);
  ("doc", quiet one_string);
  ("thread_local", quiet no_args);
  ("used", quiet no_args);
  ("optimize", quiet (λ args, match args with [a] => ident_in ["speed"; "size"] a | _ => false end));
  ("align", quiet validAlign);
  ("cfg", quiet (λ _, true));
  ("naked", quiet no_args);
  ("no_stack_probe", quiet no_args);
  ("interrupt", quiet (keyed_int "vector" (λ n, (0 <=? n) && (n <=? 255))));
  ("vector_table", quiet (keyed_int "base" (λ n, 0 <=? n)));
  ("entry", quiet no_args) ].

Definition registerBuiltinAttributes (reg : AttributeRegistry) : AttributeRegistry :=
  fold_left (λ reg p, registerAttribute reg p.1 p.2) builtinAttributes reg.

(** The callback for [#[cfg]] the checker puts in its place. *)
Definition validateCfg : AttributeHandler := λ a,
  match attr_rawCtx a with
  | None => (true, [])
  | Some ctx =>
      let 'mkPred type name _ args := parseCfgFromAttribute ctx in
      match type with
      | CfgCall =>
          if negb (bool_decide (name = "all") || bool_decide (name = "any") || bool_decide (name = "not"))
          then (false, ["unknown cfg predicate '" +:+ name +:+ "'"]) else
          if bool_decide (name = "not") && negb (length args =? 1)%nat
          then (false, ["'not' predicate requires exactly 1 argument"]) else (true, [])
      | _ => (true, [])
      end
  end.

(** The registry of a new checker. *)
Definition checkerAttributes : AttributeRegistry :=
  registerAttribute (registerBuiltinAttributes ∅) "cfg" validateCfg.

(** ** Which declarations are active *)

(** [Checker::isDeclActive] *)
Definition isDeclActive (reg : AttributeRegistry) (targetTriple : string) (debugMode : bool)
    (attrs : option (list AttributeContext)) : bool :=
  let target := newTargetInfo targetTriple debugMode in
  match attrs with
  | None => true
  | Some attrs =>
      forallb (λ a,
        if negb (bool_decide (at_name a = "cfg")) then true else
        match attr_lookup reg (at_name a) with
        | None => true
        | Some _ => cfg_evaluate target (parseCfgFromAttribute a)
        end) attrs
  end.

(** The parser inside [declIsActiveForTarget]: the text of a string literal is kept
    with its quotes. *)
Fixpoint parsePred (arg : attrArg) : CfgPredicate :=
  match arg with
  | AKeyValue key val => mkPred CfgKeyValue key (cfgValue id val) []
  | ACall name args => mkPred CfgCall name "" (parsePred <$> args)
  | AIdent x => mkPred CfgIdent x "" []
  | _ => mkPred CfgIdent "" "" []
  end.

(** [declIsActiveForTarget] of the module registry, which looks at the first argument. *)
Definition declIsActiveForTarget (attrs : option (list AttributeContext)) (target : TargetInfo) : bool :=
  match attrs with
  | None => true
  | Some attrs =>
      forallb (λ a,
        if negb (bool_decide (at_name a = "cfg")) then true else
        match at_args a with
        | None | Some [] => false
        | Some (arg :: _) => cfg_evaluate target (parsePred arg)
        end) attrs
  end.

(** [Checker::validateAttributeList] ([checkers/Checker_stmt.cpp]): its error messages. *)
Fixpoint validateAttributeList (reg : AttributeRegistry) (contextName : string)
    (attrs : list AttributeContext) : outcome (list string) :=
  match attrs with
  | [] => Ret []
  | a :: attrs =>
      errs ← match attr_lookup reg (at_name a) with
             | None => Ret ["unknown attribute '" +:+ at_name a +:+ "'"]
             | Some validate =>
                 attr ← populateAttribute contextName a;
                 let invalid := "invalid attribute '" +:+ at_name a +:+ "'" in
                 Ret match validate attr with
                     | (true, _) => []
                     | (false, []) => [invalid]
                     | (false, errors) => (λ e, invalid +:+ ": " +:+ e) <$> errors
                     end
             end;
      rest ← validateAttributeList reg contextName attrs;
      Ret (errs ++ rest)
  end.

(** ** Conditional compilation *)

Section attrArg_ind.
Context (P : attrArg → Prop).
Context (Hkv : ∀ k v, P v → P (AKeyValue k v)) (Hcall : ∀ f l, Forall P l → P (ACall f l)).
Context (Hid : ∀ x, P (AIdent x)) (Hlit : ∀ k t, P (ALit k t)).
Context (Hmi : ∀ t, P (AMinusInt t)) (Hmf : ∀ t, P (AMinusFloat t)).

Fixpoint attrArg_nested_ind (a : attrArg) : P a :=
  match a with
  | AKeyValue k v => Hkv k v (attrArg_nested_ind v)
  | ACall f l => Hcall f l ((fix go l : Forall P l :=
      match l with [] => Forall_nil_2 _ | a :: l => Forall_cons_2 _ _ _ (attrArg_nested_ind a) (go l) end) l)
  | AIdent x => Hid x
  | ALit k t => Hlit k t
  | AMinusInt t => Hmi t
  | AMinusFloat t => Hmf t
  end.
End attrArg_ind.

Definition not_quote (c : ascii) : bool := negb (bool_decide (c = dquote)).
Notation quote_free := (str_forall not_quote).

(** The text of the string literal of [v]. *)
Definition quoted (v : string) : string := String dquote (v +:+ String dquote "").

(** No key of the argument is compared with a string literal. *)
Fixpoint string_free (a : attrArg) : bool :=
  match a with
  | AKeyValue _ (ALit AStr _) => false
  | ACall _ l => forallb string_free l
  | _ => true
  end.

Lemma str_forall_take p n s : str_forall p s = true → str_forall p (str_take n s) = true.
Proof.
  revert n. induction s as [|c s IH]; intros [|n]; simpl; try done.
  intros [-> H]%andb_true_iff. by rewrite IH.
Qed.
Lemma str_forall_drop p n s : str_forall p s = true → str_forall p (str_drop n s) = true.
Proof.
  revert n. induction s as [|c s IH]; intros [|n]; simpl; try done.
  intros [_ H]%andb_true_iff. by apply IH.
Qed.
Lemma cut_dash_forall p s a b :
  str_forall p s = true → cut_dash s = Some (a, b) → str_forall p a = true ∧ str_forall p b = true.
Proof.
  unfold cut_dash. destruct (find_char "-" s); [|done]. intros H [= <- <-].
  split; [by apply str_forall_take|by apply str_forall_drop].
Qed.
Lemma tolower_quote_free s : quote_free s = true → quote_free (toLower s) = true.
Proof.
  unfold toLower. induction s as [|c s IH]; simpl; [done|].
  intros [Hc Hs]%andb_true_iff. rewrite IH, andb_true_r by done.
  revert Hc. clear. destruct c as [[] [] [] [] [] [] [] []]; vm_compute; done.
Qed.
Lemma normalizeOs_quote_free s : quote_free s = true → quote_free (normalizeOs s) = true.
Proof. intros H%tolower_quote_free. unfold normalizeOs. repeat case_match; done. Qed.
Lemma normalizeArch_quote_free s : quote_free s = true → quote_free (normalizeArch s) = true.
Proof. intros H. unfold normalizeArch. repeat case_match; done. Qed.

Lemma target_quote_free triple debug key :
  quote_free triple = true → quote_free (target_get (newTargetInfo triple debug) key) = true.
Proof.
  intros Ht. unfold newTargetInfo.
  assert (H : quote_free (splitTriple triple).1 = true ∧ quote_free (splitTriple triple).2 = true).
  { unfold splitTriple. destruct (cut_dash triple) as [[a b]|] eqn:E1; [|done].
    destruct (cut_dash_forall _ _ _ _ Ht E1) as [Ha Hb].
    destruct (cut_dash b) as [[v c]|] eqn:E2; [|done].
    destruct (cut_dash_forall _ _ _ _ Hb E2) as [_ Hc]. split; [done|].
    apply normalizeOs_quote_free. destruct (cut_dash c) as [[o d]|] eqn:E3; [|done].
    by destruct (cut_dash_forall _ _ _ _ Hc E3). }
  destruct (splitTriple triple) as [arch os]. destruct H as [Ha%normalizeArch_quote_free Ho].
  unfold target_get. cbn [tg_os tg_arch tg_endian tg_pointerWidth tg_osFamily tg_triple tg_debug].
  repeat match goal with |- context [if bool_decide (key = ?x) then _ else _] => case_bool_decide end;
    try done; by case_match.
Qed.

Lemma parsePred_string_free arg : string_free arg = true → parsePred arg = parseCfgAttrArg arg.
Proof.
  induction arg as [k v _|f l IH| | | |] using attrArg_nested_ind; try done.
  - destruct v as [| | |[]| |]; done.
  - simpl. intros H. f_equal. induction IH as [|a l Ha _ IHl]; [done|].
    simpl in H. apply andb_true_iff in H as [? ?]. rewrite !fmap_cons. f_equal; auto.
Qed.

Lemma unquote_quoted v : unquote (quoted v) = v.
Proof.
  unfold unquote, quoted, back_is. cbn [String.length]. rewrite str_length_app. cbn [String.length].
  replace (S (String.length v + 1) - 1)%nat with (S (String.length v)) by lia.
  cbn [str_drop]. rewrite str_drop_app. cbn [front_is]. rewrite !bool_decide_eq_true_2 by done.
  destruct (Nat.leb_spec 2 (S (String.length v + 1))); [|lia]. cbn [andb].
  replace (S (String.length v + 1) - 2)%nat with (String.length v) by lia. apply str_take_app.
Qed.

Lemma cfg_registered : ∃ h, attr_lookup checkerAttributes "cfg" = Some h.
Proof. eexists. unfold attr_lookup, checkerAttributes, registerAttribute. apply lookup_insert_eq. Qed.

Definition cfg (args : list attrArg) : AttributeContext := {| at_name := "cfg"; at_args := Some args |}.

(** The module registry and the checker agree on which declarations are compiled when
    every [#[cfg]] has one argument that compares nothing with a string literal.  On
    [#[cfg(key = "v")]] the checker compares the target's value with [v], while the
    registry, which keeps the quotes, never finds the declaration active. *)
Lemma cfg_registry_vs_checker triple debug :
  quote_free triple = true →
  (∀ attrs,
    (∀ a, a ∈ attrs → at_name a = "cfg" → ∃ arg, at_args a = Some [arg] ∧ string_free arg = true) →
    declIsActiveForTarget (Some attrs) (newTargetInfo triple debug) =
    isDeclActive checkerAttributes triple debug (Some attrs)) ∧
  (∀ key v, let attrs := Some [cfg [AKeyValue key (ALit AStr (quoted v))]] in
    isDeclActive checkerAttributes triple debug attrs =
      negb (bool_decide (v = "")) && bool_decide (target_get (newTargetInfo triple debug) key = v) ∧
    declIsActiveForTarget attrs (newTargetInfo triple debug) = false).
Proof.
  intros Ht. destruct cfg_registered as [h Hh]. revert Hh.
  generalize checkerAttributes as reg. intros reg Hh.
  pose proof (target_quote_free triple debug) as Hq.
  unfold declIsActiveForTarget, isDeclActive. generalize dependent (newTargetInfo triple debug).
  intros target Hq. split.
  - intros attrs Ha. induction attrs as [|a attrs IH]; [done|]. cbn [forallb].
    rewrite IH by (intros; apply Ha; [by right|done]). f_equal.
    case_bool_decide as E; [|done]. destruct (Ha a ltac:(left) E) as (arg & Harg & Hs).
    unfold parseCfgFromAttribute. by rewrite E, Hh, Harg, parsePred_string_free.
  - intros key v. specialize (Hq key Ht).
    cbn [forallb cfg at_name at_args]. rewrite Hh.
    unfold parseCfgFromAttribute. cbn [cfg at_args parseCfgAttrArg parsePred cfgValue cfg_evaluate].
    rewrite unquote_quoted, !andb_true_r. set (t := target_get _ _) in *. clearbody t.
    change (negb (bool_decide ("cfg" = "cfg"))) with false. cbv iota.
    split; repeat case_bool_decide; subst; try done.
Qed.

Definition linux : string := "x86_64-unknown-linux-gnu".

Lemma cfg_registry_vs_checker_witness :
  quote_free linux = true ∧
  declIsActiveForTarget (Some [cfg [ACall "all" [AIdent "unix"; ACall "not" [AIdent "debug"]]]])
    (newTargetInfo linux false) = true ∧
  isDeclActive checkerAttributes linux false
    (Some [cfg [AKeyValue "target_os" (ALit AStr (quoted "linux"))]]) = true ∧
  declIsActiveForTarget (Some [cfg [AKeyValue "target_os" (ALit AStr (quoted "linux"))]])
    (newTargetInfo linux false) = false.
Proof.
  assert (H : quote_free linux = true) by reflexivity.
  destruct (cfg_registry_vs_checker linux false H) as [Ha Hs].
  split; [exact H|]. split; [|].
  - rewrite Ha; [vm_compute; reflexivity|].
    intros a Hin _. apply list_elem_of_singleton in Hin as ->. eexists. split; reflexivity.
  - destruct (Hs "target_os" "linux") as [-> ->]. split; vm_compute; reflexivity.
Defined.

(** *** The target of a triple *)

Definition not_dash (c : ascii) : bool := negb (bool_decide (c = "-"%char)).

Lemma find_char_app c a b :
  str_forall (λ x, negb (bool_decide (x = c))) a = true →
  find_char c (a +:+ String c b) = Some (String.length a).
Proof.
  induction a as [|x a IH]; intros H; rewrite ?str_app_cons, ?str_app_nil; simpl.
  - by rewrite bool_decide_eq_true_2.
  - simpl in H. apply andb_true_iff in H as [Hx Ha]. rewrite IH by done.
    by destruct (bool_decide (x = c)).
Qed.
Lemma find_char_none c a :
  str_forall (λ x, negb (bool_decide (x = c))) a = true → find_char c a = None.
Proof.
  induction a as [|x a IH]; intros H; simpl; [done|].
  simpl in H. apply andb_true_iff in H as [Hx Ha]. rewrite IH by done.
  by destruct (bool_decide (x = c)).
Qed.
Lemma cut_dash_app a b : str_forall not_dash a = true → cut_dash (a +:+ String "-" b) = Some (a, b).
Proof.
  intros H. unfold cut_dash. rewrite find_char_app by done. rewrite str_take_app.
  replace (a +:+ String "-" b) with ((a +:+ "-") +:+ b).
  - replace (String.length a + 1)%nat with (String.length (a +:+ "-")); [by rewrite str_drop_app|].
    rewrite str_length_app. done.
  - clear. induction a as [|x a IH]; [done|]. rewrite !str_app_cons. by rewrite IH.
Qed.
Lemma cut_dash_none a : str_forall not_dash a = true → cut_dash a = None.
Proof. intros H. unfold cut_dash. by rewrite find_char_none. Qed.

(** A triple [arch-vendor-os] or [arch-vendor-os-env] gives its normalised
    architecture and operating system, whatever the vendor and the environment.  Every
    triple is of exactly one of the families [unix] and [windows], has at most one of the
    architectures [x86_64] and [aarch64], both of 64 bits, and is little-endian. *)
Lemma newTargetInfo_spec debug :
  (∀ arch vendor os env, str_forall not_dash arch = true → str_forall not_dash vendor = true →
     str_forall not_dash os = true →
     let parts := arch +:+ String "-" (vendor +:+ String "-" os) in
     splitTriple parts = (arch, normalizeOs os) ∧
     splitTriple (parts +:+ String "-" env) = (arch, normalizeOs os)) ∧
  (∀ triple, let t := newTargetInfo triple debug in
     let holds x := cfg_evaluate t (mkPred CfgIdent x "" []) in
     holds "unix" = negb (holds "windows") ∧
     (holds "x86_64" || holds "aarch64" = true → tg_pointerWidth t = 64) ∧
     holds "x86_64" && holds "aarch64" = false ∧
     (tg_pointerWidth t = 32 ∨ tg_pointerWidth t = 64) ∧ tg_endian t = "little").
Proof.
  split.
  - intros arch vendor os env Ha Hv Ho parts. subst parts. split.
    + unfold splitTriple. by rewrite cut_dash_app, cut_dash_app, cut_dash_none.
    + assert (E : (arch +:+ String "-" (vendor +:+ String "-" os)) +:+ String "-" env =
        arch +:+ String "-" (vendor +:+ String "-" (os +:+ String "-" env))).
      { by rewrite str_app_assoc, ?str_app_cons, str_app_assoc, ?str_app_cons. }
      rewrite E. unfold splitTriple. by rewrite !cut_dash_app.
  - intros triple t holds. subst holds.
    change (bool_decide (tg_osFamily t = "unix") = negb (bool_decide (tg_os t = "windows")) ∧
      (bool_decide (tg_arch t = "x86_64") || bool_decide (tg_arch t = "aarch64") = true →
         tg_pointerWidth t = 64) ∧
      bool_decide (tg_arch t = "x86_64") && bool_decide (tg_arch t = "aarch64") = false ∧
      (tg_pointerWidth t = 32 ∨ tg_pointerWidth t = 64) ∧ tg_endian t = "little").
    subst t. unfold newTargetInfo. destruct (splitTriple triple) as [arch os].
    cbn [tg_osFamily tg_os tg_arch tg_pointerWidth tg_endian].
    generalize (normalizeArch arch) as a. intros a. split; [|split; [|split; [|split]]].
    + case_bool_decide; case_bool_decide; subst; try done; simplify_eq.
    + intros ->. done.
    + repeat case_bool_decide; subst; done.
    + case_match; auto.
    + done.
Qed.

Lemma newTargetInfo_spec_witness :
  splitTriple "ARM64-apple-Darwin-eabi" = ("ARM64", "macos") ∧
  tg_pointerWidth (newTargetInfo "ARM64-apple-Darwin-eabi" true) = 64.
Proof.
  destruct (newTargetInfo_spec true) as [Hs Ht]. split.
  - apply (Hs "ARM64" "apple" "Darwin" "eabi"); reflexivity.
  - apply (Ht "ARM64-apple-Darwin-eabi"). vm_compute. reflexivity.
Defined.

(** ** Options of [#[test]] *)

(** What an argument asks for. *)
Inductive test_option := OName (s : string) | OSkip (reason : option string) | OExpectedFail | OTimeout (ms : Z).
Inductive option_kind := OkName | OkSkip | OkExpectedFail | OkTimeout.

#[export] Instance option_kind_eq_dec : EqDecision option_kind.
Proof. solve_decision. Defined.

Definition okind (o : test_option) : option_kind :=
  match o with OName _ => OkName | OSkip _ => OkSkip | OExpectedFail => OkExpectedFail | OTimeout _ => OkTimeout end.

Definition timeoutOption (value : attrArg) : option test_option :=
  match readIntValue value with
  | Some ms => if ms <=? 0 then None else Some (OTimeout ms)
  | None => None
  end.

Definition testOption (arg : attrArg) : option test_option :=
  match arg with
  | ALit (AStr | ACStr) t => Some (OName (unquoteStringLiteral t))
  | AKeyValue key value => if bool_decide (key = "timeout") then timeoutOption value else None
  | ACall key inner =>
      if bool_decide (key = "skip") then
        match inner with
        | [] => Some (OSkip None)
        | [ALit AStr t] => Some (OSkip (Some (unquoteStringLiteral t)))
        | _ => None
        end
      else if bool_decide (key = "timeout") then
        match inner with [value] => timeoutOption value | _ => None end
      else None
  | AIdent key =>
      if bool_decide (key = "skip") then Some (OSkip None) else
      if bool_decide (key = "expected_fail") then Some OExpectedFail else None
  | _ => None
  end.

(** The specification with an option set. *)
Definition setOption (o : test_option) (spec : TestSpec) : TestSpec :=
  match o with
  | OName s => spec <| ts_displayName := s |>
  | OSkip None => spec <| ts_skip := true |>
  | OSkip (Some r) => spec <| ts_skip := true |> <| ts_skipReason := r |>
  | OExpectedFail => spec <| ts_expectedFail := true |>
  | OTimeout ms => spec <| ts_timeoutMs := ms |>
  end.

Definition seenKind (k : option_kind) (seen : Seen) : bool :=
  match k with
  | OkName => seenName seen | OkSkip => seenSkip seen
  | OkExpectedFail => seenExpectedFail seen | OkTimeout => seenTimeout seen
  end.
Definition markKind (k : option_kind) (seen : Seen) : Seen :=
  match k with
  | OkName => seen <| seenName := true |> | OkSkip => seen <| seenSkip := true |>
  | OkExpectedFail => seen <| seenExpectedFail := true |> | OkTimeout => seen <| seenTimeout := true |>
  end.

(** A round of the loop succeeds exactly on options not seen before. *)
Lemma testArg_option arg spec seen :
  match testArg arg spec seen with
  | inl r => ∃ o, testOption arg = Some o ∧ seenKind (okind o) seen = false ∧
                  r = (setOption o spec, markKind (okind o) seen)
  | inr _ => ∀ o, testOption arg = Some o → seenKind (okind o) seen = true
  end.
Proof.
  destruct arg as [k v|k inner|k|[]| |]; simpl; unfold testTimeout, timeoutOption;
    repeat (case_match; simplify_eq/=); try done; naive_solver.
Qed.

Lemma setOption_comm o o' spec :
  okind o ≠ okind o' → setOption o (setOption o' spec) = setOption o' (setOption o spec).
Proof. destruct o as [|[]| |], o' as [|[]| |]; done. Qed.

Lemma seen_mark k k' seen : seenKind k (markKind k' seen) = bool_decide (k = k') || seenKind k seen.
Proof. destruct k, k'; done. Qed.

Lemma testArgs_options l spec seen :
  match testArgs l spec seen with
  | inl r =>
      Forall (λ a, is_Some (testOption a)) l ∧ NoDup (okind <$> omap testOption l) ∧
      (∀ k, k ∈ okind <$> omap testOption l → seenKind k seen = false) ∧
      r.1 = fold_left (λ s o, setOption o s) (omap testOption l) spec
  | inr _ =>
      ¬ (Forall (λ a, is_Some (testOption a)) l ∧ NoDup (okind <$> omap testOption l) ∧
         (∀ k, k ∈ okind <$> omap testOption l → seenKind k seen = false))
  end.
Proof.
  revert spec seen. induction l as [|a l IH]; intros spec seen.
  { simpl. split; [constructor|]. split; [constructor|]. by split; [intros k ?%not_elem_of_nil|]. }
  cbn [testArgs]. pose proof (testArg_option a spec seen) as Ha.
  destruct (testArg a spec seen) as [[spec' seen']|e].
  - destruct Ha as (o & Ho & Hk & [= -> ->]). cbn [omap list_omap]. rewrite Ho, fmap_cons.
    specialize (IH (setOption o spec) (markKind (okind o) seen)).
    destruct (testArgs l _ _) as [r|e'].
    + destruct IH as (H1 & H2 & H3 & H4). setoid_rewrite seen_mark in H3.
      split; [constructor; [by rewrite Ho|done]|]. split; [constructor; [|done]|split; [|done]].
      * intros Hin. specialize (H3 _ Hin). by rewrite bool_decide_eq_true_2 in H3.
      * intros k [->|Hin]%elem_of_cons; [done|]. by apply H3, orb_false_iff in Hin as [_ ?].
    + intros (H1 & H2 & H3). apply IH. apply Forall_cons in H1 as [_ H1].
      apply NoDup_cons in H2 as [Hn H2]. split; [done|]. split; [done|].
      intros k Hin. rewrite seen_mark, bool_decide_eq_false_2 by congruence. apply H3. by right.
  - intros (H1 & H2 & H3). apply Forall_cons in H1 as [[o Ho] H1].
    cbn [omap list_omap] in H3. rewrite Ho, fmap_cons in H3.
    specialize (Ha o Ho). rewrite H3 in Ha; [done|]. by left.
Qed.

Lemma setOptions_permute l l' spec :
  NoDup (okind <$> l) → l ≡ₚ l' → foldr setOption spec l = foldr setOption spec l'.
Proof.
  intros Hnd Hp. refine (foldr_permutation (=) setOption spec l l' _ Hp).
  intros j1 a1 j2 a2 b Hj Hj1 Hj2. apply setOption_comm. intros E. apply Hj.
  eapply (NoDup_lookup _ _ _ (okind a1) Hnd); rewrite list_lookup_fmap; [by rewrite Hj1|].
  by rewrite Hj2, E.
Qed.

Definition test_attribute (args : list attrArg) : AttributeContext :=
  {| at_name := "test"; at_args := Some args |}.

(** [#[test(...)]] is accepted exactly when every argument is one of the options and
    no option is given twice; the specification then holds the value of each option given
    and the default of each other one.  The order of the arguments does not matter. *)
Lemma parseTestSpec_spec a args spec :
  attr_rawCtx a = Some (test_attribute args) →
  (parseTestSpec a = inl spec ↔
   Forall (λ a, is_Some (testOption a)) args ∧ NoDup (okind <$> omap testOption args) ∧
   spec = foldr setOption newTestSpec (omap testOption args)) ∧
  (∀ a' args', attr_rawCtx a' = Some (test_attribute args') → args ≡ₚ args' →
   parseTestSpec a = inl spec ↔ parseTestSpec a' = inl spec).
Proof.
  assert (Hiff : ∀ a args spec, attr_rawCtx a = Some (test_attribute args) →
    (parseTestSpec a = inl spec ↔
     Forall (λ a, is_Some (testOption a)) args ∧ NoDup (okind <$> omap testOption args) ∧
     spec = foldr setOption newTestSpec (omap testOption args))).
  { clear. intros a args spec Hctx. unfold parseTestSpec. rewrite Hctx.
    cbn [at_args test_attribute default].
    pose proof (testArgs_options args newTestSpec (Build_Seen false false false false)) as H.
    assert (Hs : ∀ k, seenKind k (Build_Seen false false false false) = false) by by intros [].
    change (id args) with args.
    destruct (testArgs args _ _) as [[sp se]|e].
    - destruct H as (H1 & H2 & _ & Hsp). cbn [fst] in Hsp. subst sp.
      rewrite <-(fold_left_rev_right (λ o s, setOption o s)).
      change (foldr (λ o s, setOption o s)) with (foldr setOption).
      rewrite <-(setOptions_permute (omap testOption args)) by (done || apply Permutation_rev).
      split; [intros [= <-]; done|]. by intros (_ & _ & ->).
    - split; [done|]. intros (H1 & H2 & _). destruct H. split; [done|]. split; [done|]. auto. }
  intros Hctx. split; [by apply Hiff|]. intros a' args' Hctx' Hp.
  rewrite (Hiff a args), (Hiff a' args') by done.
  assert (Ho : omap testOption args ≡ₚ omap testOption args') by by rewrite Hp.
  split; intros (H1 & H2 & ->).
  - split; [by rewrite <-Hp|]. split; [by rewrite <-Ho|]. by apply setOptions_permute.
  - split; [by rewrite Hp|]. split; [by rewrite Ho|]. by apply setOptions_permute.
Qed.

Lemma parseTestSpec_spec_witness :
  let args := [AIdent "expected_fail"; ACall "timeout" [ALit AInt "1_500"]; ALit AStr (quoted "n")] in
  let a l := {| attr_name := "test"; attr_args := []; attr_contextName := "function";
                attr_rawCtx := Some (test_attribute l) |} in
  let spec := {| ts_displayName := "n"; ts_skip := false; ts_skipReason := "";
                 ts_expectedFail := true; ts_timeoutMs := 1500 |} in
  parseTestSpec (a args) = inl spec ∧ parseTestSpec (a (rev args)) = inl spec.
Proof.
  intros args a spec. destruct (parseTestSpec_spec (a args) args spec eq_refl) as [H1 H2].
  assert (H : parseTestSpec (a args) = inl spec).
  { apply H1. split; [repeat constructor; by eexists|]. split; [|reflexivity].
    apply (bool_decide_unpack _). vm_compute. exact I. }
  split; [exact H|]. apply (H2 (a (rev args)) (rev args) eq_refl); [apply Permutation_rev|exact H].
Defined.

(** ** Integer arguments *)

Lemma lookup_registered (l : list (string * AttributeHandler)) reg name h :
  NoDup l.*1 → (name, h) ∈ l →
  attr_lookup (fold_left (λ reg p, registerAttribute reg p.1 p.2) l reg) name = Some h.
Proof.
  revert reg. induction l as [|[x g] l IH]; intros reg Hnd Hin; [by apply not_elem_of_nil in Hin|].
  apply NoDup_cons in Hnd as [Hn Hnd]. cbn [fold_left fst snd].
  apply elem_of_cons in Hin as [[= -> ->]|Hin]; [|by apply IH].
  clear IH. unfold attr_lookup. 
  assert (Hf : ∀ l reg, x ∉ l.*1 →
    fold_left (λ reg p, registerAttribute reg p.1 p.2) l reg !! x = (reg : AttributeRegistry) !! x).
  { clear. induction l as [|[y g] l IH]; intros reg Hn; [done|]. cbn [fold_left fst snd].
    rewrite fmap_cons in Hn. apply not_elem_of_cons in Hn as [Hne Hn].
    rewrite IH by done. unfold registerAttribute. by rewrite lookup_insert_ne. }
  rewrite Hf by done. apply lookup_insert_eq.
Qed.

Lemma checker_lookup name h :
  (name, h) ∈ builtinAttributes → name ≠ "cfg" → attr_lookup checkerAttributes name = Some h.
Proof.
  intros Hin Hne. unfold attr_lookup, checkerAttributes, registerAttribute.
  rewrite lookup_insert_ne by done. apply lookup_registered; [|done].
  apply (bool_decide_unpack _). vm_compute. exact I.
Qed.

Lemma readIntText_print n : 0 ≤ n ≤ int64_max → readIntText false (to_string n) = Some n.
Proof.
  intros Hn. unfold readIntText.
  rewrite str_remove_id by (apply print_nonneg_forall; [by_digits|lia]).
  assert (Hb : match to_string n with
    | String z (String x (String _ _ as digits)) =>
        if negb (bool_decide (z = "0"%char)) then (10, to_string n) else
        if bool_decide (x = "x"%char) || bool_decide (x = "X"%char) then (16, digits) else
        if bool_decide (x = "o"%char) || bool_decide (x = "O"%char) then (8, digits) else
        if bool_decide (x = "b"%char) || bool_decide (x = "B"%char) then (2, digits) else (10, to_string n)
    | _ => (10, to_string n)
    end = (10, to_string n)).
  { destruct (decide (n = 0)) as [->|Hn0]; [done|].
    unfold to_string, print_nonneg. destruct (Z.ltb_spec n 0); [lia|].
    destruct (print_digits_head (Z.to_nat (Z.log2 n)) n "") as (d & s & -> & Hd & Hd0 & _);
      [lia|pose proof (Z.log2_nonneg n); lia|].
    destruct s as [|x [|y s]]; try done. rewrite (bool_decide_eq_false_2 (_ = "0"%char)); [done|].
    intros E. destruct (digit_char_not_sign d Hd) as (_ & _ & _ & _ & Hz). by apply Hd0; auto. }
  rewrite Hb. unfold strtoll. rewrite strtol_core_print by (auto; lia).
  f_equal. unfold int64_min, int64_max in *. lia.
Qed.

Lemma land_pred_power n : 0 < n → Z.land n (n - 1) = 0 ↔ ∃ k, 0 ≤ k ∧ n = 2 ^ k.
Proof.
  intros Hn. split.
  - intros Hl. exists (Z.log2 n). split; [apply Z.log2_nonneg|].
    destruct (Z.log2_spec n Hn) as [Hlo Hhi]. apply Z.le_antisymm; [|done].
    apply Z.nlt_ge. intros Hlt.
    assert (Hk : Z.log2 (n - 1) = Z.log2 n).
    { apply Z.log2_unique; [apply Z.log2_nonneg|lia]. }
    assert (Hbit : Z.testbit (Z.land n (n - 1)) (Z.log2 n) = true).
    { rewrite Z.land_spec, Z.bit_log2 by lia. rewrite <-Hk, Z.bit_log2; [done|].
      pose proof (Z.pow_pos_nonneg 2 (Z.log2 n)). pose proof (Z.log2_nonneg n). lia. }
    by rewrite Hl, Z.bits_0 in Hbit.
  - intros (k & Hk & ->). replace (2 ^ k - 1) with (Z.ones k) by (rewrite Z.ones_equiv; lia).
    rewrite Z.land_ones by done. apply Z.mod_same. lia.
Qed.

Definition attribute (name : string) (args : list attrArg) : AttributeContext :=
  {| at_name := name; at_args := Some args |}.

(** [#[align(n)]] is accepted exactly for the powers of two, on anything.  The
    bounds of [#[interrupt(vector = n)]] and [#[vector_table(base = n)]] are never checked,
    because the flat arguments the callbacks see do not contain key-value forms. *)
Lemma integer_attributes contextName :
  (∀ n, 0 ≤ n ≤ int64_max →
     validateAttributeList checkerAttributes contextName [attribute "align" [ALit AInt (to_string n)]]
       = Ret [] ↔ ∃ k, 0 ≤ k ∧ n = 2 ^ k) ∧
  (∀ key value,
     validateAttributeList checkerAttributes contextName [attribute "interrupt" [AKeyValue key value]]
       = Ret [] ∧
     validateAttributeList checkerAttributes contextName [attribute "vector_table" [AKeyValue key value]]
       = Ret []).
Proof.
  assert (Hl : ∀ i name h, builtinAttributes !! i = Some (name, h) → name ≠ "cfg" →
    attr_lookup checkerAttributes name = Some h).
  { intros i name h Hi. apply checker_lookup. by eapply list_elem_of_lookup_2. }
  split.
  - intros n Hn. cbn [validateAttributeList attribute at_name].
    rewrite (Hl 20%nat "align" (quiet validAlign)) by done.
    cbn [populateAttribute at_args default flatArgs flatArg readIntValue].
    unfold populateAttribute. change (default [] (at_args (attribute "align" ?a))) with a.
    cbn [attribute at_args default id flatArgs flatArg readIntValue mbind outcome_bind].
    rewrite readIntText_print by done.
    change (Ret _ = Ret [] ↔ _) with
      (Ret ((if (0 <? n) && (Z.land n (n - 1) =? 0) then [] else ["invalid attribute 'align'"]) ++ [])
        = Ret [] ↔ ∃ k, 0 ≤ k ∧ n = 2 ^ k).
    destruct (Z.ltb_spec 0 n); cbn [andb].
    + rewrite <-land_pred_power by done. destruct (Z.eqb_spec (Z.land n (n - 1)) 0); simpl; naive_solver.
    + simpl. split; [done|]. intros (k & Hk & ->). pose proof (Z.pow_pos_nonneg 2 k). lia.
  - intros key value. cbn [validateAttributeList attribute at_name].
    rewrite (Hl 24%nat "interrupt" _ eq_refl), (Hl 25%nat "vector_table" _ eq_refl) by done. done.
Qed.

Lemma integer_attributes_witness :
  validateAttributeList checkerAttributes "struct" [attribute "align" [ALit AInt "4096"]] = Ret [] ∧
  validateAttributeList checkerAttributes "struct" [attribute "align" [ALit AInt "48"]] ≠ Ret [].
Proof.
  destruct (integer_attributes "struct") as [H _]. split.
  - apply (H 4096); [unfold int64_max; lia|]. exists 12. split; [lia|reflexivity].
  - intros E. apply (H 48) in E as (k & Hk & E); [|unfold int64_max; lia].
    assert (k ≤ 5 ∨ 6 ≤ k) as [Hs|Hb] by lia.
    + assert (2 ^ k ≤ 2 ^ 5) by (apply Z.pow_le_mono_r; lia). lia.
    + assert (2 ^ 6 ≤ 2 ^ k) by (apply Z.pow_le_mono_r; lia). lia.
Defined.
