(* ===== verification/Modules.v ===== *)
(** * The module registry

    [namespace/ModuleRegistry.{h,cpp}]: the symbols the files of each module export, the
    check for duplicates, look-ups, the values of constants, and the names symbols get in
    the object file.

    Of a symbol the model leaves out the parse tree ([decl] and [treeAnchor]). *)

From stdpp Require Import sorting.
From S2P Require Import Prelude CxxLib Attributes.
Local Open Scope Z_scope.

(** ** Data *)

Inductive SymbolKind :=
| SFunction | SStruct | SUnion | SEnum | STypeAlias | SExtendBlock | SConstant | SBitStruct
| STraitDecl | SImplBlock.

#[export] Instance SymbolKind_eq_dec : EqDecision SymbolKind.
Proof. solve_decision. Defined.

Record ExportedSymbol := {
  sym_kind : SymbolKind;
  sym_name : string;
  sym_modulePath : string;
  sym_sourceFile : string;
  sym_isStdlib : bool;
  sym_line : Z;
  sym_column : Z;
  sym_hasConstIntValue : bool;
  sym_constIntValue : Z }.

#[export] Instance settable_ExportedSymbol : Settable ExportedSymbol := λ s,
  Build_ExportedSymbol (sym_kind s) (sym_name s) (sym_modulePath s) (sym_sourceFile s)
    (sym_isStdlib s) (sym_line s) (sym_column s) (sym_hasConstIntValue s) (sym_constIntValue s).

#[export] Instance ExportedSymbol_eq_dec : EqDecision ExportedSymbol.
Proof. solve_decision. Defined.

Notation ModuleRegistry := (gmap string (list ExportedSymbol)).

(** What the registry reads of a top-level declaration: its attributes (absent where the
    declaration has no list of them), names and position. *)
Record Position := { pos_line : Z; pos_column : Z }.

Inductive topLevelDecl :=
| TFunction (attrs : option (list AttributeContext)) (name : string) (at_ : Position)
| TStruct (attrs : option (list AttributeContext)) (name : string) (at_ : Position)
| TUnion (attrs : option (list AttributeContext)) (name : string) (at_ : Position)
| TEnum (attrs : option (list AttributeContext)) (name : string) (at_ : Position)
| TBitstruct (attrs : option (list AttributeContext)) (name : string) (at_ : Position)
| TTypeAlias (attrs : option (list AttributeContext)) (name : string) (at_ : Position)
| TExtend (attrs : option (list AttributeContext)) (name : string) (at_ : Position)
| TTrait (attrs : option (list AttributeContext)) (name : string) (at_ : Position)
| TImpl (attrs : option (list AttributeContext)) (typeSpecs : list string) (at_ : Position)
| TConst (attrs : option (list AttributeContext)) (declarators : list (string * Position))
| TOtherDecl.

(** [getAttrs] *)
Definition getAttrs (d : topLevelDecl) : option (list AttributeContext) :=
  match d with
  | TFunction a _ _ | TStruct a _ _ | TUnion a _ _ | TEnum a _ _ | TBitstruct a _ _
  | TTypeAlias a _ _ | TExtend a _ _ | TTrait a _ _ | TImpl a _ _ | TConst a _ => a
  | TOtherDecl => None
  end.

(** ** Registration *)

Section file.
Context (modulePath filePath : string) (isStdlib : bool).

Definition newSymbol (kind : SymbolKind) (name : string) (p : Position) : ExportedSymbol := {|
  sym_kind := kind; sym_name := name; sym_modulePath := modulePath; sym_sourceFile := filePath;
  sym_isStdlib := isStdlib; sym_line := pos_line p; sym_column := pos_column p;
  sym_hasConstIntValue := false; sym_constIntValue := 0 |}.

(** The symbols one declaration exports. *)
Definition declSymbols (d : topLevelDecl) : list ExportedSymbol :=
  match d with
  | TFunction _ name p => [newSymbol SFunction name p]
  | TStruct _ name p => [newSymbol SStruct name p]
  | TUnion _ name p => [newSymbol SUnion name p]
  | TEnum _ name p => [newSymbol SEnum name p]
  | TBitstruct _ name p => [newSymbol SBitStruct name p]
  | TTypeAlias _ name p => [newSymbol STypeAlias name p]
  | TExtend _ name p => [newSymbol SExtendBlock name p]
  | TTrait _ name p => [newSymbol STraitDecl name p]
  | TImpl _ specs p =>
      [newSymbol SImplBlock (default "" (specs !! 0%nat) +:+ ":" +:+ default "" (specs !! 1%nat)) p]
  | TConst _ ds => (λ d : string * Position, newSymbol SConstant d.1 d.2) <$> ds
  | TOtherDecl => []
  end.

Definition declActive (target : option TargetInfo) (d : topLevelDecl) : bool :=
  match target, getAttrs d with
  | Some target, Some attrs => declIsActiveForTarget (Some attrs) target
  | _, _ => true
  end.

Fixpoint fileSymbols (tree : list topLevelDecl) (target : option TargetInfo) : list ExportedSymbol :=
  match tree with
  | [] => []
  | d :: tree => (if declActive target d then declSymbols d else []) ++ fileSymbols tree target
  end.
End file.

Definition registerFile (modulePath filePath : string) (tree : list topLevelDecl) (isStdlib : bool)
    (target : option TargetInfo) (modules_ : ModuleRegistry) : ModuleRegistry :=
  let symbols := default [] (modules_ !! modulePath) in
  <[modulePath := symbols ++ fileSymbols modulePath filePath isStdlib tree target]> modules_.

(** ** Queries *)

(** Extend and impl blocks share the names of their types and are left out. *)
Definition named (s : ExportedSymbol) : bool :=
  match sym_kind s with SExtendBlock | SImplBlock => false | _ => true end.

Definition duplicateError (mod_ : string) (first s : ExportedSymbol) : string :=
  "duplicate symbol '" +:+ sym_name s +:+ "' in module '" +:+ mod_ +:+ "' (defined in '" +:+
  sym_sourceFile first +:+ "' and '" +:+ sym_sourceFile s +:+ "')".

Fixpoint validateModule (mod_ : string) (seen : gmap string ExportedSymbol)
    (symbols : list ExportedSymbol) : list string :=
  match symbols with
  | [] => []
  | s :: symbols =>
      if negb (named s) then validateModule mod_ seen symbols else
      match seen !! sym_name s with
      | Some first => duplicateError mod_ first s :: validateModule mod_ seen symbols
      | None => validateModule mod_ (<[sym_name s := s]> seen) symbols
      end
  end.

(** [order] is the order in which the hash table is iterated. *)
Definition validate (order : list (string * list ExportedSymbol)) : list string :=
  flat_map (λ p, validateModule p.1 ∅ p.2) order.

Fixpoint findNamed (name : string) (symbols : list ExportedSymbol) : option ExportedSymbol :=
  match symbols with
  | [] => None
  | s :: symbols =>
      if bool_decide (sym_name s = name) && named s then Some s else findNamed name symbols
  end.

Definition findSymbol (modules_ : ModuleRegistry) (modulePath name : string) : option ExportedSymbol :=
  match modules_ !! modulePath with None => None | Some l => findNamed name l end.

Definition getModuleSymbols (modules_ : ModuleRegistry) (modulePath : string) : list ExportedSymbol :=
  default [] (modules_ !! modulePath).

Definition getExternalSymbols (modules_ : ModuleRegistry) (modulePath excludeFile : string)
    : list ExportedSymbol :=
  match modules_ !! modulePath with
  | None => []
  | Some l => List.filter (λ s, negb (bool_decide (sym_sourceFile s = excludeFile))) l
  end.

Definition hasModule (modules_ : ModuleRegistry) (modulePath : string) : bool :=
  bool_decide (is_Some (modules_ !! modulePath)).

(** ** Values of constants *)

Fixpoint setFirstConst (name : string) (value : Z) (l : list ExportedSymbol) : list ExportedSymbol :=
  match l with
  | [] => []
  | s :: l =>
      if bool_decide (sym_kind s = SConstant) && bool_decide (sym_name s = name)
      then (s <| sym_hasConstIntValue := true |> <| sym_constIntValue := value |>) :: l
      else s :: setFirstConst name value l
  end.

Definition setConstValue (modulePath name : string) (value : Z) (modules_ : ModuleRegistry)
    : ModuleRegistry :=
  match modules_ !! modulePath with
  | None => modules_
  | Some l => <[modulePath := setFirstConst name value l]> modules_
  end.

(** ** Names *)

Definition is_sep (c : ascii) : bool :=
  bool_decide (c = "/"%char) || bool_decide (c = ":"%char) || bool_decide (c = "\"%char).

Fixpoint mangleLoop (s : string) (lastSep : bool) : string :=
  match s with
  | "" => ""
  | String c s =>
      if is_sep c then
        if lastSep then mangleLoop s true else String "_" (mangleLoop s true)
      else String c (mangleLoop s false)
  end.

(** [while (!result.empty() && result.back() == '_') result.pop_back();] *)
Fixpoint popUnderscores (s : string) : string :=
  match s with
  | "" => ""
  | String c s =>
      match popUnderscores s with
      | "" => if bool_decide (c = "_"%char) then "" else String c ""
      | r => String c r
      end
  end.

Definition mangle (modulePath name : string) : string :=
  if bool_decide (name = "main") then "main"
  else popUnderscores (mangleLoop modulePath false) +:+ "__" +:+ name.

(** The names in the order of [std::sort], bytes compared as unsigned. *)
Definition string_le (a b : string) : Prop := String.leb a b = true.
#[export] Instance string_le_dec : RelDecision string_le.
Proof. intros a b. unfold string_le. apply _. Defined.

Definition allModules (modules_ : ModuleRegistry) : list string :=
  merge_sort string_le (map_to_list modules_).*1.

Fixpoint collapse (s : string) (lastSlash : bool) : string :=
  match s with
  | "" => ""
  | String c s =>
      if bool_decide (c = "/"%char) then
        if lastSlash then collapse s true else String "/" (collapse s true)
      else String c (collapse s false)
  end.

Definition usePathToModulePath (usePath : string) : string :=
  collapse (str_map (λ c, if bool_decide (c = ":"%char) then "/"%char else c) usePath) false.

Definition modulePathToFile (modulePath : string) : string := modulePath +:+ ".lc".

(** ** Duplicates and look-ups *)

Definition names (l : list ExportedSymbol) : list string := sym_name <$> List.filter named l.

Lemma names_cons s l : names (s :: l) = if named s then sym_name s :: names l else names l.
Proof. unfold names. cbn [List.filter]. by destruct (named s). Qed.
Lemma names_app l l' : names (l ++ l') = names l ++ names l'.
Proof. unfold names. by rewrite List.filter_app, fmap_app. Qed.

#[export] Instance names_Permutation : Proper ((≡ₚ) ==> (≡ₚ)) names.
Proof.
  intros l l' H. induction H; rewrite ?names_cons; repeat case_match; auto.
  - constructor.
  - by etrans.
Qed.

Lemma elem_of_names x l : x ∈ names l ↔ ∃ s, s ∈ l ∧ named s = true ∧ sym_name s = x.
Proof.
  unfold names. rewrite list_elem_of_fmap. setoid_rewrite list_elem_of_In.
  setoid_rewrite filter_In. naive_solver.
Qed.

Lemma validateModule_nil mod_ seen l :
  validateModule mod_ seen l = [] ↔ NoDup (names l) ∧ ∀ x, x ∈ names l → seen !! x = None.
Proof.
  revert seen. induction l as [|s l IH]; intros seen; simpl.
  { split; [|done]. intros _. split; [constructor|]. by intros x ?%not_elem_of_nil. }
  rewrite names_cons. destruct (named s); cbn [negb]; [|apply IH].
  rewrite NoDup_cons. destruct (seen !! sym_name s) eqn:E.
  - split; [done|]. intros [_ H]. specialize (H (sym_name s) ltac:(left)). congruence.
  - rewrite IH. split.
    + intros [Hnd H]. assert (Hn : sym_name s ∉ names l).
      { intros Hin. specialize (H _ Hin). rewrite lookup_insert_eq in H. done. }
      split; [done|]. intros x [->|Hin]%elem_of_cons; [done|].
      specialize (H x Hin). rewrite lookup_insert_ne in H; [done|]. by intros <-.
    + intros [[Hn Hnd] H]. split; [done|]. intros x Hin.
      rewrite lookup_insert_ne by (by intros <-). apply H. by right.
Qed.

Lemma findNamed_some name l s :
  findNamed name l = Some s → s ∈ l ∧ named s = true ∧ sym_name s = name.
Proof.
  induction l as [|t l IH]; simpl; [done|]. case_bool_decide as E; simpl.
  - destruct (named t) eqn:En; [intros [= <-]; split; [by left|done]|].
    intros H. apply IH in H as [? ?]. split; [by right|done].
  - intros H. apply IH in H as [? ?]. split; [by right|done].
Qed.

Lemma findNamed_unique name l s :
  NoDup (names l) → findNamed name l = Some s ↔ s ∈ l ∧ named s = true ∧ sym_name s = name.
Proof.
  intros Hnd. split; [apply findNamed_some|]. intros (Hin & Hs & Hname).
  induction l as [|t l IH]; [by apply not_elem_of_nil in Hin|].
  rewrite names_cons in Hnd. simpl. apply elem_of_cons in Hin as [->|Hin].
  - rewrite bool_decide_eq_true_2 by done. by rewrite Hs.
  - case_bool_decide as E; simpl; [|destruct (named t); [apply NoDup_cons in Hnd as [_ ?]|]; auto].
    destruct (named t); [|auto]. apply NoDup_cons in Hnd as [Hn _]. destruct Hn.
    apply elem_of_names. exists s. split; [done|]. split; [done|]. congruence.
Qed.

(** ** A program's files *)

Record SourceFile := {
  f_modulePath : string; f_path : string; f_tree : list topLevelDecl; f_isStdlib : bool }.

Definition registerFiles (files : list SourceFile) (target : option TargetInfo) (m : ModuleRegistry)
    : ModuleRegistry :=
  fold_left (λ m f, registerFile (f_modulePath f) (f_path f) (f_tree f) (f_isStdlib f) target m) files m.

(** The symbols the files export into a module, in the order of the files. *)
Definition exported (target : option TargetInfo) (mod_ : string) (files : list SourceFile)
    : list ExportedSymbol :=
  flat_map (λ f, if bool_decide (f_modulePath f = mod_)
                 then fileSymbols (f_modulePath f) (f_path f) (f_isStdlib f) (f_tree f) target else [])
    files.

Lemma registerFiles_lookup files target m mod_ :
  default [] (registerFiles files target m !! mod_) = default [] (m !! mod_) ++ exported target mod_ files.
Proof.
  revert m. induction files as [|f files IH]; intros m; [by rewrite app_nil_r|].
  unfold registerFiles in *. cbn [fold_left exported flat_map]. rewrite IH.
  rewrite app_assoc. f_equal. unfold registerFile.
  case_bool_decide as E.
  - rewrite E, lookup_insert_eq. done.
  - rewrite lookup_insert_ne by done. by rewrite app_nil_r.
Qed.

#[export] Instance exported_Permutation target mod_ : Proper ((≡ₚ) ==> (≡ₚ)) (exported target mod_).
Proof.
  intros l l' H. induction H; simpl; auto.
  - by apply Permutation_app_head.
  - rewrite !app_assoc. apply Permutation_app_tail, Permutation_app_comm.
  - by etrans.
Qed.

Lemma validate_nil (m : ModuleRegistry) order :
  order ≡ₚ map_to_list m → validate order = [] ↔ ∀ mod_, NoDup (names (default [] (m !! mod_))).
Proof.
  intros Ho. unfold validate.
  assert (Hf : flat_map (λ p, validateModule p.1 ∅ p.2) order = [] ↔
               ∀ p, p ∈ order → validateModule p.1 ∅ p.2 = []).
  { clear. induction order as [|p order IH]; simpl; [split; [by intros _ p ?%not_elem_of_nil|done]|].
    rewrite app_nil, IH. setoid_rewrite elem_of_cons. naive_solver. }
  rewrite Hf. setoid_rewrite Ho. split.
  - intros H mod_. destruct (m !! mod_) as [l|] eqn:E; [|constructor].
    apply elem_of_map_to_list in E. by apply (H (mod_, l)), validateModule_nil in E as [? _].
  - intros H [mod_ l] E%elem_of_map_to_list. apply validateModule_nil.
    specialize (H mod_). rewrite E in H. split; [done|]. intros. apply lookup_empty.
Qed.

(** Registering the files of a program yields, for each module, the symbols of its
    active declarations.  The registry is free of duplicate errors exactly when the named
    symbols of each module have distinct names; then a look-up finds a symbol exactly when
    a file of the module exports it, and neither the validity nor any answer depends on
    the order in which the files were registered or the hash table is iterated. *)
Lemma registry_lookup files target order :
  let m := registerFiles files target ∅ in
  order ≡ₚ map_to_list m →
  (validate order = [] ↔ ∀ mod_, NoDup (names (exported target mod_ files))) ∧
  (validate order = [] →
   (∀ mod_ name s, findSymbol m mod_ name = Some s ↔
      s ∈ exported target mod_ files ∧ named s = true ∧ sym_name s = name) ∧
   ∀ files' order', let m' := registerFiles files' target ∅ in
     files' ≡ₚ files → order' ≡ₚ map_to_list m' →
     validate order' = [] ∧ ∀ mod_ name, findSymbol m' mod_ name = findSymbol m mod_ name).
Proof.
  intros m Ho.
  assert (Hl : ∀ files mod_, default [] (registerFiles files target ∅ !! mod_) = exported target mod_ files).
  { intros fs mod_. by rewrite registerFiles_lookup, lookup_empty. }
  assert (Hfind : ∀ files mod_ name, findSymbol (registerFiles files target ∅) mod_ name =
    findNamed name (exported target mod_ files)).
  { intros fs mod_ name. rewrite <-Hl. unfold findSymbol. by destruct (_ !! mod_). }
  assert (Hv : ∀ files order, order ≡ₚ map_to_list (registerFiles files target ∅) →
    validate order = [] ↔ ∀ mod_, NoDup (names (exported target mod_ files))).
  { intros fs o Hof. rewrite (validate_nil _ _ Hof). by setoid_rewrite Hl. }
  split; [by apply Hv|]. intros Hval. pose proof (proj1 (Hv files order Ho) Hval) as Hnd. split.
  - intros mod_ name s. unfold m. rewrite Hfind. by apply findNamed_unique.
  - intros files' order' m' Hp Ho'.
    assert (Hnd' : ∀ mod_, NoDup (names (exported target mod_ files'))).
    { intros mod_. by rewrite Hp. }
    split; [by apply (Hv files' order')|]. intros mod_ name. unfold m, m'. rewrite !Hfind.
    apply option_eq. intros s. rewrite !findNamed_unique by done. by rewrite Hp.
Qed.

Definition pos0 : Position := {| pos_line := 1; pos_column := 0 |}.

(** Two files of a module; the second has a function for Windows only. *)
Definition exampleFiles : list SourceFile := [
  {| f_modulePath := "app"; f_path := "a.lc"; f_isStdlib := false;
     f_tree := [TFunction None "run" pos0; TExtend None "T" pos0; TConst None [("N", pos0)]] |};
  {| f_modulePath := "app"; f_path := "b.lc"; f_isStdlib := false;
     f_tree := [TFunction (Some [cfg [AIdent "windows"]]) "run" pos0; TStruct None "T" pos0] |} ].

Definition linuxTarget : option TargetInfo := Some (newTargetInfo linux false).

Lemma registry_lookup_witness :
  let m := registerFiles exampleFiles linuxTarget ∅ in
  validate (map_to_list m) = [] ∧
  (∃ s, findSymbol m "app" "T" = Some s ∧ sym_kind s = SStruct) ∧
  validate (map_to_list (registerFiles (rev exampleFiles) linuxTarget ∅)) = [].
Proof.
  intros m. destruct (registry_lookup exampleFiles linuxTarget (map_to_list m)) as [_ H]; [done|].
  assert (Hv : validate (map_to_list m) = []) by (vm_compute; reflexivity).
  split; [exact Hv|]. destruct (H Hv) as [Hf Hp]. split.
  - exists (newSymbol "app" "b.lc" false SStruct "T" pos0). split; [|reflexivity].
    apply (Hf "app" "T"). split; [|split; reflexivity]. apply (list_elem_of_lookup_2 _ 3). vm_compute. reflexivity.
  - apply (Hp (rev exampleFiles)); [symmetry; apply Permutation_rev|done].
Defined.

(** ** Values of constants *)

Definition withValue (v : Z) (s : ExportedSymbol) : ExportedSymbol :=
  s <| sym_hasConstIntValue := true |> <| sym_constIntValue := v |>.

Lemma findNamed_setFirstConst name v l x :
  NoDup (names l) →
  findNamed x (setFirstConst name v l) =
  match findNamed x l with
  | Some s => Some (if bool_decide (x = name) && bool_decide (sym_kind s = SConstant)
                    then withValue v s else s)
  | None => None
  end.
Proof.
  induction l as [|s l IH]; intros Hnd; [done|].
  assert (Hnd' : NoDup (names l)).
  { rewrite names_cons in Hnd. destruct (named s); [by apply NoDup_cons in Hnd as [_ ?]|done]. }
  specialize (IH Hnd'). cbn [setFirstConst].
  destruct (decide (sym_kind s = SConstant ∧ sym_name s = name)) as [[Hk Hn]|Hnot].
  - rewrite !bool_decide_eq_true_2 by done. cbn [andb].
    assert (Hs : named s = true) by (unfold named; by rewrite Hk).
    rewrite names_cons, Hs in Hnd. apply NoDup_cons in Hnd as [Hnotin _].
    cbn [findNamed]. change (named (s <| sym_hasConstIntValue := true |> <| sym_constIntValue := v |>))
      with (named s). change (sym_name (s <| sym_hasConstIntValue := true |> <| sym_constIntValue := v |>))
      with (sym_name s). rewrite Hs, andb_true_r.
    destruct (decide (sym_name s = x)) as [E|E].
    + rewrite (bool_decide_eq_true_2 (sym_name s = x)), (bool_decide_eq_true_2 (x = name)),
        (bool_decide_eq_true_2 (sym_kind s = _)) by congruence. done.
    + rewrite (bool_decide_eq_false_2 (sym_name s = x)), (bool_decide_eq_false_2 (x = name)) by congruence.
      cbn [andb]. by destruct (findNamed x l).
  - replace (bool_decide (sym_kind s = SConstant) && bool_decide (sym_name s = name)) with false.
    2:{ symmetry. apply andb_false_iff. repeat case_bool_decide; naive_solver. }
    cbn [findNamed]. rewrite IH. destruct (named s) eqn:Hs; rewrite ?andb_true_r, ?andb_false_r; [|done].
    destruct (bool_decide (sym_name s = x)) eqn:E; [|done]. apply bool_decide_eq_true_1 in E.
    f_equal. destruct (bool_decide (x = name)) eqn:Ex; [|done].
    apply bool_decide_eq_true_1 in Ex. rewrite bool_decide_eq_false_2; [done|naive_solver].
Qed.

(** Setting the value of a constant in a registry without duplicates changes exactly
    the answer for that constant; on any other name it changes no answer. *)
Lemma setConstValue_spec modules_ modulePath name v mod_ x :
  NoDup (names (getModuleSymbols modules_ modulePath)) →
  findSymbol (setConstValue modulePath name v modules_) mod_ x =
  match findSymbol modules_ mod_ x with
  | Some s => Some (if bool_decide (mod_ = modulePath) && bool_decide (x = name) &&
                       bool_decide (sym_kind s = SConstant) then withValue v s else s)
  | None => None
  end.
Proof.
  unfold getModuleSymbols, setConstValue, findSymbol. intros Hnd.
  destruct (decide (mod_ = modulePath)) as [->|Hne].
  - rewrite bool_decide_eq_true_2 by done. destruct (modules_ !! modulePath) as [l|] eqn:E.
    + rewrite lookup_insert_eq. by apply findNamed_setFirstConst.
    + by rewrite E.
  - rewrite bool_decide_eq_false_2 by done. cbn [andb].
    destruct (modules_ !! modulePath) as [l|]; rewrite ?lookup_insert_ne by done;
      by repeat case_match.
Qed.

Lemma setConstValue_spec_witness :
  let m := registerFiles exampleFiles linuxTarget ∅ in
  ∃ s, findSymbol (setConstValue "app" "N" 7 m) "app" "N" = Some (withValue 7 s) ∧
       findSymbol (setConstValue "app" "run" 7 m) "app" "run" = findSymbol m "app" "run".
Proof.
  intros m. assert (H : NoDup (names (getModuleSymbols m "app"))).
  { apply (bool_decide_unpack _). vm_compute. exact I. }
  exists (newSymbol "app" "a.lc" false SConstant "N" pos0).
  rewrite !setConstValue_spec by exact H. split; vm_compute; reflexivity.
Defined.

(** ** Names in the object file *)

Definition plain (c : ascii) : bool := negb (is_sep c) && negb (bool_decide (c = "_"%char)).

(** Paths of components without underscores, separated by single slashes, not ending in
    one; [sep] tells whether a slash comes before. *)
Fixpoint canonical (p : string) (sep : bool) : bool :=
  match p with
  | "" => negb sep
  | String c p =>
      if bool_decide (c = "/"%char) then negb sep && canonical p true
      else plain c && canonical p false
  end.
Definition canonicalPath (p : string) : bool := canonical p false.

Definition slashToUnderscore (p : string) : string :=
  str_map (λ c, if bool_decide (c = "/"%char) then "_"%char else c) p.

Lemma slashToUnderscore_cons c p : slashToUnderscore (String c p) =
  String (if bool_decide (c = "/"%char) then "_"%char else c) (slashToUnderscore p).
Proof. reflexivity. Qed.

Lemma plain_cases c : plain c = true →
  is_sep c = false ∧ bool_decide (c = "_"%char) = false ∧ bool_decide (c = ":"%char) = false ∧
  bool_decide (c = "/"%char) = false.
Proof.
  unfold plain. intros [H1%negb_true_iff H2%negb_true_iff]%andb_true_iff.
  split; [done|]. unfold is_sep in H1. by apply orb_false_iff in H1 as [[? ?]%orb_false_iff _].
Qed.

(** On canonical paths the loop turns slashes into underscores and nothing is popped. *)
Lemma mangleLoop_canonical p sep :
  canonical p sep = true → mangleLoop p sep = slashToUnderscore p.
Proof.
  revert sep. induction p as [|c p IH]; intros sep H; [done|].
  rewrite slashToUnderscore_cons. simpl in *. case_bool_decide as E.
  - subst c. apply andb_true_iff in H as [Hs H]. destruct sep; [done|]. by rewrite (IH true).
  - apply andb_true_iff in H as [(-> & _)%plain_cases H]. by rewrite (IH false).
Qed.

(** An underscore, unless the character before was one or the text ends. *)
Fixpoint no_double (s : string) (under : bool) : bool :=
  match s with
  | "" => negb under
  | String c s =>
      if bool_decide (c = "_"%char) then negb under && no_double s true else no_double s false
  end.

Lemma no_double_canonical p sep : canonical p sep = true → no_double (slashToUnderscore p) sep = true.
Proof.
  revert sep. induction p as [|c p IH]; intros sep H; [done|].
  rewrite slashToUnderscore_cons. simpl in *. case_bool_decide as E.
  - apply andb_true_iff in H as [-> H]. simpl. by apply IH.
  - apply andb_true_iff in H as [(_ & -> & _)%plain_cases H]. by apply IH.
Qed.

Lemma popUnderscores_id s under : no_double s under = true → popUnderscores s = s.
Proof.
  revert under. induction s as [|c s IH]; intros under H; [done|]. simpl in *.
  case_bool_decide as E.
  - apply andb_true_iff in H as [_ H]. rewrite (IH true) by done. by destruct s.
  - rewrite (IH false) by done. by destruct s.
Qed.

Lemma mangle_canonical p name :
  canonicalPath p = true → name ≠ "main" → mangle p name = slashToUnderscore p +:+ "__" +:+ name.
Proof.
  intros Hp Hn. unfold mangle. rewrite bool_decide_eq_false_2 by done.
  rewrite mangleLoop_canonical by done. by rewrite (popUnderscores_id _ false) by by apply no_double_canonical.
Qed.

Lemma no_double_app a b under : no_double (a +:+ String "_" (String "_" b)) under = false.
Proof.
  revert under. induction a as [|c a IH]; intros under; rewrite ?str_app_cons, ?str_app_nil; simpl.
  - by rewrite andb_false_r.
  - rewrite !IH. by rewrite andb_false_r, Tauto.if_same.
Qed.
Lemma no_double_end a under : no_double (a +:+ "_") under = false.
Proof.
  revert under. induction a as [|c a IH]; intros under; rewrite ?str_app_cons, ?str_app_nil; simpl.
  - by rewrite andb_false_r.
  - rewrite !IH. by rewrite andb_false_r, Tauto.if_same.
Qed.

(** The first double underscore separates path and name. *)
Lemma split_at_double q q' n n' :
  no_double q false = true → no_double q' false = true →
  q +:+ "__" +:+ n = q' +:+ "__" +:+ n' → q = q' ∧ n = n'.
Proof.
  assert (Hk : ∀ q k n n', no_double (q +:+ k) false = true → "__" +:+ n = k +:+ "__" +:+ n' → k = "").
  { clear. intros q [|c [|d k]] n n' H E; [done|..];
      rewrite ?str_app_cons, ?str_app_nil in E; injection E; intros; subst; exfalso.
    - by rewrite no_double_end in H.
    - by rewrite no_double_app in H. }
  intros Hq Hq' E. destruct (str_app_inv _ _ _ _ E) as [(k & -> & Ek)|(k & -> & Ek)].
  - rewrite (Hk q k n n') in * by done. rewrite str_app_nil_r, str_app_nil in *. split; [done|]. 
    rewrite ?str_app_cons, ?str_app_nil in Ek. by injection Ek.
  - rewrite (Hk q' k n' n) in * by done. rewrite str_app_nil_r, str_app_nil in *. split; [done|].
    rewrite ?str_app_cons, ?str_app_nil in Ek. by injection Ek.
Qed.

Lemma slashToUnderscore_inj p p' sep sep' :
  canonical p sep = true → canonical p' sep' = true →
  slashToUnderscore p = slashToUnderscore p' → p = p'.
Proof.
  revert p' sep sep'. induction p as [|c p IH]; intros [|c' p'] sep sep' H H' E; try done.
  rewrite !slashToUnderscore_cons in E. injection E as Ec Ep. simpl in *.
  destruct (bool_decide (c = "/"%char)) eqn:E1, (bool_decide (c' = "/"%char)) eqn:E2.
  - apply bool_decide_eq_true_1 in E1, E2. apply andb_true_iff in H as [_ H], H' as [_ H'].
    subst. f_equal. by eapply IH.
  - apply andb_true_iff in H' as [(_ & Hc & _)%plain_cases _]. rewrite <-Ec in Hc. done.
  - apply andb_true_iff in H as [(_ & Hc & _)%plain_cases _]. rewrite Ec in Hc. done.
  - apply andb_true_iff in H as [_ H], H' as [_ H']. subst. f_equal. by eapply IH.
Qed.

Definition colonToSlash (c : ascii) : ascii := if bool_decide (c = ":"%char) then "/"%char else c.

Lemma colonToSlash_cases c :
  (colonToSlash c = "/"%char ∧ is_sep c = true) ∨ (colonToSlash c = c ∧ c ≠ "/"%char ∧ c ≠ ":"%char).
Proof.
  unfold colonToSlash, is_sep. destruct (decide (c = ":"%char)) as [->|H1]; [by left|].
  rewrite (bool_decide_eq_false_2 (c = ":"%char)) by done.
  destruct (decide (c = "/"%char)) as [->|]; [by left|]. by right.
Qed.

Lemma mangleLoop_collapse s b last :
  (b = true → last = true) → mangleLoop (collapse (str_map colonToSlash s) b) last = mangleLoop s last.
Proof.
  revert b last. induction s as [|c s IH]; intros b last Hb; [done|]. cbn [str_map collapse].
  destruct (colonToSlash_cases c) as [[-> Hs]|(-> & Hn & Hc)].
  - cbn [mangleLoop]. rewrite Hs. rewrite bool_decide_eq_true_2 by done. destruct b.
    + rewrite (Hb eq_refl). by apply IH.
    + cbn [mangleLoop]. change (is_sep "/") with true. cbv iota. by rewrite !IH by done.
  - rewrite bool_decide_eq_false_2 by done. cbn [mangleLoop]. by rewrite !IH by done.
Qed.

Lemma collapse_idem s b :
  collapse (str_map colonToSlash (collapse (str_map colonToSlash s) b)) b = collapse (str_map colonToSlash s) b.
Proof.
  revert b. induction s as [|c s IH]; intros b; [done|]. cbn [str_map collapse].
  destruct (colonToSlash_cases c) as [[-> Hs]|(-> & Hn & Hc)].
  - rewrite bool_decide_eq_true_2 by done. destruct b; [apply IH|].
    cbn [str_map collapse]. change (colonToSlash "/") with "/"%char.
    rewrite bool_decide_eq_true_2 by done. by rewrite IH.
  - rewrite bool_decide_eq_false_2 by done. cbn [str_map collapse].
    destruct (colonToSlash_cases c) as [[E _]|(-> & _)].
    + unfold colonToSlash in E. rewrite bool_decide_eq_false_2 in E by done. done.
    + rewrite bool_decide_eq_false_2 by done. by rewrite IH.
Qed.

(** C39: Symbols of different modules, or with different names, have different names in
    the object file, provided the module paths have no underscores, double separators or
    trailing separator; none but [main] is called [main].  A module has the same names
    whether its path is written with [::] or with slashes, and converting the former to
    the latter is idempotent.  With underscores the modules [a/b] and [a_b] collide. *)
Theorem mangle_spec :
  (∀ p p' n n', canonicalPath p = true → canonicalPath p' = true → n ≠ "main" → n' ≠ "main" →
     mangle p n = mangle p' n' → p = p' ∧ n = n') ∧
  (∀ p n, mangle p n = "main" → n = "main") ∧
  (∀ p n, mangle (usePathToModulePath p) n = mangle p n ∧
     usePathToModulePath (usePathToModulePath p) = usePathToModulePath p) ∧
  mangle "a/b" "f" = mangle "a_b" "f".
Proof.
  split; [|split; [|split]].
  - intros p p' n n' Hp Hp' Hn Hn'. rewrite !mangle_canonical by done. intros E.
    apply split_at_double in E as [E ->]; [|by apply no_double_canonical..].
    split; [|done]. by eapply slashToUnderscore_inj.
  - intros p n H. destruct (decide (n = "main")) as [|Hn]; [done|]. unfold mangle in H.
    rewrite bool_decide_eq_false_2 in H by done.
    set (q := popUnderscores _) in H. clearbody q. exfalso.
    destruct q as [|? [|? [|? [|? [|? q]]]]]; rewrite ?str_app_nil, ?str_app_cons in H; discriminate H.
  - intros p n. split; [|apply collapse_idem]. unfold mangle.
    change (usePathToModulePath p) with (collapse (str_map colonToSlash p) false).
    by rewrite mangleLoop_collapse.
  - reflexivity.
Qed.

Lemma mangle_spec_witness :
  canonicalPath "app/net" = true ∧ mangle "app::net" "run_all" = "app_net__run_all" ∧
  mangle "app/net" "run_all" ≠ mangle "app" "net".
Proof.
  destruct mangle_spec as (Hi & _ & Hu & _). split; [reflexivity|]. split.
  - destruct (Hu "app::net" "run_all") as [<- _]. vm_compute. reflexivity.
  - intros E. apply Hi in E as [E _]; [discriminate E|reflexivity|reflexivity|discriminate|discriminate].
Defined.
