(* ===== verification/Imports.v ===== *)
(** * Imports

    [imports/UseParser.{h,cpp}] and [imports/ImportResolver.{h,cpp}]: the bindings of [use]
    declarations, the tokens the language server attaches to them, and the table of
    imported symbols of a file.  The search paths of the standard library, read from the
    environment, are not modelled. *)

From S2P Require Import Prelude CxxLib Builtins.

(** ** [use] declarations

    A group keeps its tokens between the braces, numbered from the first one on: the
    lexer skips white space and comments, so token indices are consecutive. *)

Inductive useToken := UId (name : string) | UAs | UComma.

Inductive useDecl :=
| UseRoot (name : string)
| UseItem (path : list string) (name : string) (alias_ : option string)
| UseGroup (path : list string) (start : nat) (tokens : list useToken)
| UseEnumWildcard (typeName : option string).

Inductive UseKind := KModule | KSymbol | KEnumWildcard.

#[export] Instance UseKind_eq_dec : EqDecision UseKind.
Proof. solve_decision. Defined.

Record UseBinding := {
  ub_kind : UseKind;
  ub_modulePath : string;
  ub_exportedName : string;
  ub_localName : string }.

(** What follows the last [::]. *)
Fixpoint lastSegment (s : string) : option string :=
  match s with
  | "" => None
  | String _ s' =>
      match lastSegment s' with
      | Some r => Some r
      | None => if starts_with "::" s then Some (str_drop 2 s) else None
      end
  end.

Definition lastPathSegment (modulePath : string) : string :=
  default modulePath (lastSegment modulePath).

(** The identifiers of a path joined with [::]. *)
Definition joinPath (ids : list string) : string :=
  fold_left (λ p id, (if bool_decide (p = "") then p else p +:+ "::") +:+ id) ids "".

(** A token of the stream: its index and text. *)
Notation token := (nat * string)%type.

(** [group->IDENTIFIER()] and the indices of [group->AS()]. *)
Fixpoint identifiers (i : nat) (tokens : list useToken) : list token :=
  match tokens with
  | [] => []
  | UId x :: tokens => (i, x) :: identifiers (S i) tokens
  | _ :: tokens => identifiers (S i) tokens
  end.
Fixpoint asTokens (i : nat) (tokens : list useToken) : list nat :=
  match tokens with
  | [] => []
  | UAs :: tokens => i :: asTokens (S i) tokens
  | _ :: tokens => asTokens (S i) tokens
  end.

(** Does a token [as] come directly before the token? *)
Definition isAliasedToken (asIdx : list nat) (tok : token) : bool :=
  existsb (λ a, bool_decide (S a = tok.1)) asIdx.

Definition symbolBinding (path exportedName localName : string) : UseBinding := {|
  ub_kind := KSymbol; ub_modulePath := path; ub_exportedName := exportedName;
  ub_localName := localName |}.

Fixpoint groupBindings (path : string) (asIdx : list nat) (ids : list token) : list UseBinding :=
  match ids with
  | [] => []
  | (_, x) :: rest =>
      match rest with
      | tok :: rest' =>
          if isAliasedToken asIdx tok then symbolBinding path x tok.2 :: groupBindings path asIdx rest'
          else symbolBinding path x x :: groupBindings path asIdx rest
      | [] => [symbolBinding path x x]
      end
  end.

Definition parseUseDecl (d : useDecl) : list UseBinding :=
  match d with
  | UseRoot name => [{| ub_kind := KModule; ub_modulePath := name; ub_exportedName := "";
                        ub_localName := lastPathSegment name |}]
  | UseItem path name alias_ => [symbolBinding (joinPath path) name (default name alias_)]
  | UseGroup path start tokens =>
      groupBindings (joinPath path) (asTokens start tokens) (identifiers start tokens)
  | UseEnumWildcard _ => [{| ub_kind := KEnumWildcard; ub_modulePath := ""; ub_exportedName := "";
                             ub_localName := "" |}]
  end.

(** ** Bindings with their tokens *)

Record UseBindingWithTokens := {
  ut_binding : UseBinding;
  ut_exportedToken : option token;
  ut_localToken : option token }.

Definition attach (b : UseBinding) (exportedTok localTok : option token) : UseBindingWithTokens := {|
  ut_binding := b; ut_exportedToken := exportedTok;
  ut_localToken := match localTok with Some t => Some t | None => exportedTok end |}.

Definition aliased (b : UseBinding) : bool := negb (bool_decide (ub_localName b = ub_exportedName b)).

(** The loop over the bindings of a group, with the index into the identifiers. *)
Fixpoint groupTokens (ids : list token) (idIdx : nat) (bs : list UseBinding)
    : list UseBindingWithTokens :=
  match bs with
  | [] => []
  | b :: bs =>
      match ids !! idIdx with
      | None => []
      | Some exportedTok =>
          attach b (Some exportedTok) (if aliased b then ids !! S idIdx else None) ::
          groupTokens ids (if aliased b then idIdx + 2 else idIdx + 1) bs
      end
  end.

(** The token of a name is given with its index; a group's come from its tokens, the ones
    of the other forms from the argument [at_]. *)
Definition parseUseDeclWithTokens (at_ : list nat) (d : useDecl) : list UseBindingWithTokens :=
  let tok i x := Some (default 0 (at_ !! i), x) in
  match d with
  | UseRoot name => [attach {| ub_kind := KModule; ub_modulePath := name; ub_exportedName := "";
                               ub_localName := lastPathSegment name |} (tok 0 name) (tok 0 name)]
  | UseItem path name alias_ =>
      match parseUseDecl d with
      | b :: _ => [attach b (tok 0 name) (alias_ ≫= tok 1)]
      | [] => []
      end
  | UseGroup _ start tokens => groupTokens (identifiers start tokens) 0 (parseUseDecl d)
  | UseEnumWildcard typeName =>
      [attach {| ub_kind := KEnumWildcard; ub_modulePath := ""; ub_exportedName := ""; ub_localName := "" |}
         (typeName ≫= tok 0) None]
  end.

(** ** The import map of a file *)

Record ImportAliasMap := {
  ia_symbols : gmap string (string * string);
  ia_modules : gmap string string }.

Definition addBinding (m : ImportAliasMap) (b : UseBinding) : ImportAliasMap :=
  match ub_kind b with
  | KSymbol => {| ia_symbols := <[ub_localName b := (ub_modulePath b, ub_exportedName b)]> (ia_symbols m);
                  ia_modules := ia_modules m |}
  | KModule => {| ia_symbols := ia_symbols m;
                  ia_modules := <[ub_localName b := ub_modulePath b]> (ia_modules m) |}
  | KEnumWildcard => m
  end.

Definition buildImportAliasMap (preamble topLevel : list useDecl) : ImportAliasMap :=
  fold_left (λ m d, fold_left addBinding (parseUseDecl d) m) (preamble ++ topLevel)
    {| ia_symbols := ∅; ia_modules := ∅ |}.

(** ** The import table *)

Record ImportedSymbol := { is_modulePath : string; is_name : string; is_localName : string }.

Record ImportResolver := {
  imports_ : list ImportedSymbol;
  symbols_ : gset string;
  exportedNames_ : gset string }.

Definition newImportResolver : ImportResolver :=
  {| imports_ := []; symbols_ := ∅; exportedNames_ := ∅ |}.

Definition addImport (modulePath symbol localName : string) (r : ImportResolver) : ImportResolver :=
  if bool_decide (localName = "") || bool_decide (symbol = "") then r else
  {| imports_ :=
       if bool_decide (localName ∈ symbols_ r) then imports_ r
       else imports_ r ++ [{| is_modulePath := modulePath; is_name := symbol; is_localName := localName |}];
     symbols_ := {[localName]} ∪ symbols_ r;
     exportedNames_ := {[symbol]} ∪ exportedNames_ r |}.

Definition isImported (r : ImportResolver) (symbol : string) : bool := bool_decide (symbol ∈ symbols_ r).
Definition isExportedSymbol (r : ImportResolver) (name : string) : bool :=
  bool_decide (name ∈ exportedNames_ r).

Fixpoint findImport (l : list ImportedSymbol) (localName : string) : option ImportedSymbol :=
  match l with
  | [] => None
  | i :: l => if bool_decide (is_localName i = localName) then Some i else findImport l localName
  end.

Definition exportedName (r : ImportResolver) (localName : string) : string :=
  match findImport (imports_ r) localName with Some i => is_name i | None => "" end.

(** [ImportResolver::resolve] *)
Definition resolveImport (r : ImportResolver) (symbol typeSuffix : string) : string :=
  match findImport (imports_ r) symbol with
  | Some i => "lucis_" +:+ is_name i +:+ "_" +:+ typeSuffix
  | None => ""
  end.

(** ** The known modules *)

Definition knownModules_ : list (string * list string) := [
  ("std::log", [
    "println"; "print"; "eprint"; "eprintln"; "dbg"; "sprintf" ]);
  ("std::io", [
    "readLine"; "readChar"; "readInt"; "readFloat"; "readBool"; "readAll"; "prompt"; "promptInt";
    "promptFloat"; "promptBool"; "readByte"; "readLines"; "readNBytes"; "isEOF"; "readPassword";
    "promptPassword"; "flush"; "flushErr"; "isTTY"; "isStdoutTTY"; "isStderrTTY" ]);
  ("std::math", [
    "PI"; "E"; "TAU"; "INF"; "NAN"; "INT32_MAX"; "INT32_MIN"; "INT64_MAX"; "INT64_MIN";
    "UINT32_MAX"; "UINT64_MAX"; "ISIZE_MIN"; "ISIZE_MAX"; "USIZE_MAX"; "abs"; "min"; "max";
    "clamp"; "sqrt"; "cbrt"; "pow"; "hypot"; "exp"; "exp2"; "ln"; "log2"; "log10"; "sin"; "cos";
    "tan"; "asin"; "acos"; "atan"; "atan2"; "sinh"; "cosh"; "tanh"; "ceil"; "floor"; "round";
    "trunc"; "lerp"; "map"; "toRadians"; "toDegrees"; "isNaN"; "isInf"; "isFinite" ]);
  ("std::str", [
    "contains"; "startsWith"; "endsWith"; "indexOf"; "lastIndexOf"; "count"; "toUpper"; "toLower";
    "trim"; "trimLeft"; "trimRight"; "replace"; "replaceFirst"; "repeat"; "reverse"; "padLeft";
    "padRight"; "substring"; "charAt"; "slice"; "parseInt"; "parseIntRadix"; "parseFloat";
    "fromCharCode"; "split"; "splitN"; "joinVec"; "lines"; "chars"; "fromChars"; "toBytes";
    "fromBytes" ]);
  ("std::mem", [
    "alloc"; "allocZeroed"; "realloc"; "free"; "copy"; "move"; "set"; "zero"; "compare" ]);
  ("std::random", [
    "seed"; "seedTime"; "randInt"; "randIntRange"; "randUint"; "randFloat"; "randFloatRange";
    "randBool"; "randChar"; "uuid_v4" ]);
  ("std::time", [
    "now"; "nowNanos"; "nowMicros"; "sleep"; "sleepMicros"; "clock"; "year"; "month"; "day";
    "hour"; "minute"; "second"; "weekday"; "timestamp"; "elapsed"; "formatTime"; "parseTime" ]);
  ("std::fs", [
    "readFile"; "writeFile"; "appendFile"; "exists"; "isFile"; "isDir"; "remove"; "removeDir";
    "rename"; "mkdir"; "mkdirAll"; "listDir"; "readBytes"; "writeBytes"; "fileSize"; "cwd";
    "setCwd"; "tempDir" ]);
  ("std::process", [
    "exit"; "abort"; "env"; "setEnv"; "hasEnv"; "exec"; "execOutput"; "pid"; "platform"; "arch";
    "homeDir"; "executablePath" ]);
  ("std::conv", [
    "itoa"; "itoaRadix"; "utoa"; "ftoa"; "ftoaPrecision"; "atoi"; "atof"; "toHex"; "toOctal";
    "toBinary"; "fromHex"; "charToInt"; "intToChar" ]);
  ("std::hash", [
    "hashString"; "hashInt"; "hashCombine"; "hashBytes"; "crc32" ]);
  ("std::bits", [
    "popcount"; "ctz"; "clz"; "rotl"; "rotr"; "bswap"; "isPow2"; "nextPow2"; "bitReverse";
    "extractBits"; "setBit"; "clearBit"; "toggleBit"; "testBit" ]);
  ("std::ascii", [
    "isAlpha"; "isDigit"; "isAlphaNum"; "isUpper"; "isLower"; "isWhitespace"; "isPrintable";
    "isControl"; "isHexDigit"; "isAscii"; "toUpper"; "toLower"; "toDigit"; "fromDigit" ]);
  ("std::path", [
    "join"; "parent"; "fileName"; "stem"; "extension"; "isAbsolute"; "isRelative"; "normalize";
    "toAbsolute"; "separator"; "withExtension"; "withFileName"; "joinAll" ]);
  ("std::fmt", [
    "lpad"; "rpad"; "center"; "hex"; "hexUpper"; "oct"; "bin"; "fixed"; "scientific";
    "humanBytes"; "commas"; "percent" ]);
  ("std::regex", [
    "match"; "find"; "findIndex"; "regexReplace"; "regexReplaceFirst"; "isValid"; "findAll";
    "regexSplit" ]);
  ("std::encoding", [
    "base64EncodeStr"; "base64DecodeStr"; "urlEncode"; "urlDecode"; "base64Encode"; "base64Decode" ]);
  ("std::os", [
    "getpid"; "getppid"; "getuid"; "getgid"; "hostname"; "pageSize"; "errno"; "strerror"; "kill";
    "dup"; "dup2"; "closeFd" ]);
  ("std::test", [
    "assertEqual"; "assertNotEqual"; "assertTrue"; "assertFalse"; "assertGreater"; "assertLess";
    "assertGreaterEq"; "assertLessEq"; "assertStringContains"; "assertNear"; "fail"; "skip"; "log" ]);
  ("std::crypto", [
    "md5String"; "sha1String"; "sha256String"; "sha512String"; "md5"; "sha1"; "sha256"; "sha512";
    "hmacSha256"; "randomBytes" ]);
  ("std::compress", [
    "gzipCompress"; "gzipDecompress"; "deflate"; "inflate"; "compressLevel" ]);
  ("std::net", [
    "tcpConnect"; "tcpListen"; "tcpAccept"; "tcpSend"; "tcpRecv"; "udpBind"; "udpSendTo";
    "udpRecvFrom"; "close"; "setTimeout"; "resolve" ]);
  ("std::thread", [
    "cpuCount"; "threadId"; "yield"; "Task"; "Mutex" ]) ].

Definition moduleExportsSymbol (modulePath symbolName : string) : bool :=
  existsb (λ p, bool_decide (p.1 = modulePath) && existsb (λ x, bool_decide (x = symbolName)) p.2)
    knownModules_.

(** [order] is the order in which the hash table of known modules is iterated. *)
Fixpoint suggestImport (order : list (string * list string)) (symbol : string) : string :=
  match order with
  | [] => ""
  | (mod_, syms) :: order =>
      if bool_decide (symbol ∈ syms) then "use " +:+ mod_ +:+ "::" +:+ symbol +:+ ";"
      else suggestImport order symbol
  end.

Definition isStdModule (modulePath : string) : bool :=
  existsb (λ p, bool_decide (p.1 = modulePath)) knownModules_
  || starts_with "std/" modulePath || starts_with "std::" modulePath.

(** ** Groups read back *)

(** The items of a group, written as tokens with an optional comma at the end. *)
Notation item := (string * option string)%type.

Definition itemTokens (it : item) : list useToken :=
  UId it.1 :: match it.2 with Some y => [UAs; UId y] | None => [] end.

Fixpoint layout (items : list item) (trailing : bool) : list useToken :=
  match items with
  | [] => []
  | [it] => itemTokens it ++ (if trailing then [UComma] else [])
  | it :: items => itemTokens it ++ UComma :: layout items trailing
  end.

Definition itemBinding (path : string) (it : item) : UseBinding :=
  symbolBinding path it.1 (default it.1 it.2).

Lemma asTokens_ge i tokens a : a ∈ asTokens i tokens → i ≤ a.
Proof.
  revert i. induction tokens as [|[x| |] tokens IH]; intros i; simpl; [set_solver|..].
  - intros H%IH. lia.
  - rewrite elem_of_cons. intros [->|H%IH]; lia.
  - intros H%IH. lia.
Qed.

Lemma isAliasedToken_true asIdx j x : isAliasedToken asIdx (S j, x) = true ↔ j ∈ asIdx.
Proof.
  unfold isAliasedToken. rewrite existsb_exists. setoid_rewrite bool_decide_eq_true.
  setoid_rewrite <-list_elem_of_In. simpl. split; [intros (? & ? & [= ->]); done|eauto].
Qed.

Lemma layout_head it items trailing : ∃ rest, layout (it :: items) trailing = UId it.1 :: rest.
Proof. destruct items; simpl; eauto. Qed.

Lemma groupBindings_layout path asIdx i items trailing :
  (∀ a, i ≤ a → a ∈ asIdx ↔ a ∈ asTokens i (layout items trailing)) →
  groupBindings path asIdx (identifiers i (layout items trailing)) = itemBinding path <$> items.
Proof.
  revert i. induction items as [|[x al] items IH]; intros i H; [done|].
  assert (Hal : ∀ y, isAliasedToken asIdx (S (S i), y) =
    bool_decide (S i ∈ asTokens i (layout ((x, al) :: items) trailing))).
  { intros y. apply Bool.eq_iff_eq_true. rewrite isAliasedToken_true, bool_decide_eq_true.
    apply H. lia. }
  destruct items as [|it items].
  - destruct al as [y|]; simpl in *; [rewrite Hal|by destruct trailing].
    rewrite bool_decide_eq_true_2 by left. by destruct trailing.
  - destruct al as [y|].
    + cbn [layout itemTokens fst snd app identifiers groupBindings] in *.
      rewrite Hal, bool_decide_eq_true_2 by (cbn [asTokens]; left). rewrite fmap_cons. f_equal.
      apply IH. intros a Ha. rewrite H by lia. cbn [asTokens]. rewrite elem_of_cons.
      split; [intros [->|?]; [lia|done]|auto].
    + change (layout ((x, None) :: it :: items) trailing)
        with (UId x :: UComma :: layout (it :: items) trailing) in *.
      cbn [identifiers asTokens] in *.
      assert (Hrest : ∀ a, S (S i) ≤ a → a ∈ asIdx ↔ a ∈ asTokens (S (S i)) (layout (it :: items) trailing)).
      { intros a Ha. apply H. lia. }
      specialize (IH _ Hrest). destruct (layout_head it items trailing) as [rest E]. rewrite E in *.
      cbn [identifiers groupBindings] in *.
      rewrite Hal, bool_decide_eq_false_2; [by rewrite IH|].
      intros Hin%asTokens_ge. lia.
Qed.

(** The items as the language server should see them: the binding and the texts of the
    exported and of the local token. *)
Definition itemView (path : string) (it : item) : UseBinding * option string * option string :=
  (itemBinding path it, Some it.1, Some (default it.1 it.2)).
Definition tokenView (e : UseBindingWithTokens) : UseBinding * option string * option string :=
  (ut_binding e, snd <$> ut_exportedToken e, snd <$> ut_localToken e).

Definition not_self (it : item) : bool := negb (bool_decide (it.2 = Some it.1)).

Lemma identifiers_layout i it items trailing :
  ∃ j, identifiers i (layout (it :: items) trailing) =
       (i, it.1) :: match it.2 with Some y => [(S (S i), y)] | None => [] end ++
       identifiers j (layout items trailing).
Proof.
  destruct it as [x [y|]], items as [|it' items]; simpl; eauto; destruct trailing; by exists 0.
Qed.

Lemma groupTokens_layout path pre i items trailing :
  forallb not_self items = true →
  tokenView <$> groupTokens (pre ++ identifiers i (layout items trailing)) (length pre)
                  (itemBinding path <$> items) = itemView path <$> items.
Proof.
  revert pre i. induction items as [|[x al] items IH]; intros pre i Hs; [done|].
  cbn [forallb] in Hs. apply andb_true_iff in Hs as [Hx Hs].
  destruct (identifiers_layout i (x, al) items trailing) as [j ->].
  rewrite !fmap_cons. cbn [groupTokens fst snd].
  rewrite lookup_app_r, Nat.sub_diag by lia. cbn [lookup list_lookup]. rewrite fmap_cons.
  assert (Ha : aliased (itemBinding path (x, al)) = match al with Some _ => true | None => false end).
  { unfold aliased, not_self in *. destruct al as [y|]; simpl in *.
    - apply negb_true_iff, bool_decide_eq_false_1 in Hx. by rewrite bool_decide_eq_false_2 by congruence.
    - by rewrite bool_decide_eq_true_2. }
  rewrite Ha. f_equal.
  - destruct al as [y|]; [|done]. rewrite lookup_app_r by lia.
    replace (S (length pre) - length pre) with 1 by lia. done.
  - destruct al as [y|].
    + specialize (IH (pre ++ [(i, x); (S (S i), y)]) j Hs). rewrite length_app, <-app_assoc in IH. exact IH.
    + specialize (IH (pre ++ [(i, x)]) j Hs). rewrite length_app, <-app_assoc in IH. exact IH.
Qed.

(** Parsing the tokens of a group import gives one binding per item, with the local
    name of its alias or else its own name, whatever the spelling and with or without a
    trailing comma.  The tokens attached for the editor are those of the same names when no
    item is renamed to itself; after [a as a] they are off by one. *)
Lemma useGroup_roundtrip path start items trailing at_ :
  let d := UseGroup path start (layout items trailing) in
  parseUseDecl d = itemBinding (joinPath path) <$> items ∧
  (forallb not_self items = true →
   tokenView <$> parseUseDeclWithTokens at_ d = itemView (joinPath path) <$> items) ∧
  tokenView <$> parseUseDeclWithTokens at_
      (UseGroup path start (layout [("a", Some "a"); ("b", None)] trailing)) =
    [itemView (joinPath path) ("a", None);
     (itemBinding (joinPath path) ("b", None), Some "a", Some "a")].
Proof.
  intros d. assert (Hp : ∀ items, parseUseDecl (UseGroup path start (layout items trailing)) =
    itemBinding (joinPath path) <$> items).
  { intros its. by apply groupBindings_layout. }
  split; [apply Hp|]. split.
  - intros Hs. unfold d, parseUseDeclWithTokens. rewrite Hp.
    exact (groupTokens_layout (joinPath path) [] start items trailing Hs).
  - unfold parseUseDeclWithTokens. rewrite Hp. by destruct trailing.
Qed.

Lemma useGroup_roundtrip_witness :
  let items := [("println", Some "say"); ("dbg", None)] in
  let d := UseGroup ["std"; "log"] 7 [UId "println"; UAs; UId "say"; UComma; UId "dbg"; UComma] in
  parseUseDecl d = [symbolBinding "std::log" "println" "say"; symbolBinding "std::log" "dbg" "dbg"] ∧
  tokenView <$> parseUseDeclWithTokens [] d = itemView "std::log" <$> items.
Proof.
  intros items d. destruct (useGroup_roundtrip ["std"; "log"] 7 items true []) as (Hp & Ht & _).
  split; [exact Hp|]. apply Ht. reflexivity.
Defined.

(** ** The import table as a map *)

Record ImportCall := { ic_modulePath : string; ic_symbol : string; ic_localName : string }.

Definition addImports (l : list ImportCall) (r : ImportResolver) : ImportResolver :=
  fold_left (λ r c, addImport (ic_modulePath c) (ic_symbol c) (ic_localName c) r) l r.

Definition effective (c : ImportCall) : bool :=
  negb (bool_decide (ic_localName c = "") || bool_decide (ic_symbol c = "")).

(** The first effective import under a local name. *)
Definition firstImport (l : list ImportCall) (x : string) : option ImportCall :=
  List.find (λ c, effective c && bool_decide (ic_localName c = x)) l.

Definition toSymbol (c : ImportCall) : ImportedSymbol :=
  {| is_modulePath := ic_modulePath c; is_name := ic_symbol c; is_localName := ic_localName c |}.

(** The table after the calls in [l]. *)
Definition table_for (l : list ImportCall) (r : ImportResolver) : Prop :=
  (∀ x, findImport (imports_ r) x = toSymbol <$> firstImport l x) ∧
  (∀ x, x ∈ symbols_ r ↔ is_Some (firstImport l x)) ∧
  (∀ x, x ∈ exportedNames_ r ↔ ∃ c, c ∈ l ∧ effective c = true ∧ ic_symbol c = x) ∧
  NoDup (is_localName <$> imports_ r) ∧ symbols_ r = list_to_set (is_localName <$> imports_ r).

Lemma findImport_app l i x :
  findImport (l ++ [i]) x =
  match findImport l x with
  | Some j => Some j
  | None => if bool_decide (is_localName i = x) then Some i else None
  end.
Proof. induction l as [|j l IH]; simpl; [done|]. by destruct (bool_decide (is_localName j = x)). Qed.

Lemma firstImport_app l c x :
  firstImport (l ++ [c]) x =
  match firstImport l x with
  | Some d => Some d
  | None => if effective c && bool_decide (ic_localName c = x) then Some c else None
  end.
Proof.
  unfold firstImport. induction l as [|d l IH]; simpl; [done|].
  by destruct (effective d && bool_decide (ic_localName d = x)).
Qed.

Ltac decide_local r c Hl :=
  destruct (decide (ic_localName c ∈ symbols_ r)) as [Hl|Hl];
    [rewrite (bool_decide_eq_true_2 (_ ∈ _)) by done|rewrite (bool_decide_eq_false_2 (_ ∈ _)) by done].

Lemma addImport_table l r c :
  table_for l r → table_for (l ++ [c]) (addImport (ic_modulePath c) (ic_symbol c) (ic_localName c) r).
Proof.
  intros (Hf & Hs & He & Hnd & Hset). unfold addImport. fold (effective c).
  assert (Heff : (bool_decide (ic_localName c = "") || bool_decide (ic_symbol c = "")) = negb (effective c)).
  { unfold effective. by rewrite negb_involutive. }
  rewrite Heff. destruct (effective c) eqn:Ec; cbn [negb].
  2:{ split_and!; [| | |done|done].
      - intros x. rewrite firstImport_app, Ec, Hf. cbn [andb]. by destruct (firstImport l x).
      - intros x. rewrite firstImport_app, Ec, Hs. cbn [andb]. by destruct (firstImport l x).
      - intros x. rewrite He. split; intros (d & Hd & Hed & Hx); exists d; (split; [|done]).
        + apply elem_of_app. by left.
        + apply elem_of_app in Hd as [Hd|Hd%list_elem_of_singleton]; [done|congruence]. }
  assert (Hin : ic_localName c ∈ symbols_ r ↔ ic_localName c ∈ is_localName <$> imports_ r).
  { rewrite Hset. apply elem_of_list_to_set. }
  split_and!; cbn [imports_ symbols_ exportedNames_].
  - intros x. rewrite firstImport_app, Ec. cbn [andb].
    decide_local r c Hl.
    + rewrite Hf. destruct (firstImport l x) as [d|] eqn:E; [done|].
      rewrite bool_decide_eq_false_2; [done|]. intros <-. apply Hs in Hl. rewrite E in Hl. by destruct Hl.
    + rewrite findImport_app, Hf. destruct (firstImport l x) as [d|]; [done|]. simpl.
      by destruct (bool_decide (ic_localName c = x)).
  - intros x. rewrite firstImport_app, Ec, elem_of_union, elem_of_singleton, Hs. cbn [andb].
    destruct (firstImport l x) as [d|].
    + split; [by intros _|by right].
    + rewrite is_Some_alt. destruct (bool_decide (ic_localName c = x)) eqn:Ex; simpl.
      * apply bool_decide_eq_true_1 in Ex. split; [done|by left].
      * apply bool_decide_eq_false_1 in Ex. split; [intros [->|[]]; done|done].
  - intros x. rewrite elem_of_union, elem_of_singleton, He. split.
    + intros [->|(d & Hd & ?)]; [exists c|exists d]; rewrite elem_of_app; (split; [|done]); [right|by left].
      by apply list_elem_of_singleton.
    + intros (d & [Hd|Hd%list_elem_of_singleton]%elem_of_app & ? & ?); [right; by exists d|left; congruence].
  - decide_local r c Hl; [done|].
    rewrite fmap_app. apply NoDup_app. split; [done|].
    split; [|apply NoDup_singleton]. intros x Hx Hc%list_elem_of_singleton. subst x. by apply Hl, Hin.
  - decide_local r c Hl.
    + rewrite <-Hset. set_solver.
    + rewrite fmap_app, list_to_set_app_L, <-Hset. simpl. set_solver.
Qed.

(** After any sequence of imports the table has one entry per local name, that of the
    first import under it with a symbol and a name; the look-ups answer by that entry, and
    a name counts as exported when any import names it. *)
Lemma imports_first_wins l x :
  let r := addImports l newImportResolver in
  table_for l r ∧
  exportedName r x = match firstImport l x with Some c => ic_symbol c | None => "" end ∧
  isImported r x = bool_decide (is_Some (firstImport l x)) ∧
  (∀ suffix, resolveImport r x suffix =
     if isImported r x then "lucis_" +:+ exportedName r x +:+ "_" +:+ suffix else "").
Proof.
  intros r. assert (Ht : table_for l r).
  { assert (Hgen : ∀ l0 r0, table_for l0 r0 → table_for (l0 ++ l) (addImports l r0)).
    { clear r. induction l as [|c l' IH]; intros l0 r0 H; [by rewrite app_nil_r|].
      rewrite cons_middle, app_assoc. apply IH. by apply addImport_table. }
    apply (Hgen [] newImportResolver). split_and!; [done| |set_solver|constructor|done].
    intros y. split; [set_solver|]. by intros [? ?]. }
  split; [done|]. destruct Ht as (Hf & Hs & _).
  unfold exportedName, isImported, resolveImport. rewrite Hf.
  assert (Hb : bool_decide (x ∈ symbols_ r) = bool_decide (is_Some (firstImport l x))).
  { apply bool_decide_ext, Hs. }
  rewrite Hb. by destruct (firstImport l x).
Qed.

(** ** The known modules and the built-in functions *)

Definition ambiguous (x : string) : bool := bool_decide (x = "toUpper") || bool_decide (x = "toLower").

Definition is_builtin (x : string) : bool :=
  match br_lookup newBuiltinRegistry x with
  | Some _ => true
  | None => negb (bool_decide (br_lookupConstant newBuiltinRegistry x = ""))
  end.

Lemma known_exports_builtin :
  forallb (λ p, forallb (λ x, is_builtin x || bool_decide (p.1 = "std::thread" ∧ x ∈ ["Task"; "Mutex"])) p.2)
    knownModules_ = true.
Proof. vm_compute. reflexivity. Qed.

Lemma builtin_exported :
  forallb (λ s, existsb (λ p, bool_decide (bs_name s ∈ p.2)) knownModules_
                || bool_decide (bs_name s ∈ bs_name <$> sigs_global)) builtinSignatures = true.
Proof. vm_compute. reflexivity. Qed.

Lemma known_unique :
  forallb (λ p, forallb (λ q, bool_decide (p.1 = q.1) ||
    forallb (λ x, ambiguous x || negb (bool_decide (x ∈ q.2))) p.2) knownModules_) knownModules_ = true.
Proof. vm_compute. reflexivity. Qed.

Lemma moduleExportsSymbol_spec m x :
  moduleExportsSymbol m x = true ↔ ∃ l, (m, l) ∈ knownModules_ ∧ x ∈ l.
Proof.
  unfold moduleExportsSymbol. rewrite existsb_exists. split.
  - intros ([m' l] & Hin & [Hm%bool_decide_eq_true_1 Hx]%andb_true_iff). simpl in Hm. subst m'.
    apply existsb_bool_decide_elem_of in Hx. exists l. by rewrite list_elem_of_In.
  - intros (l & Hin%list_elem_of_In & Hx). exists (m, l). split; [done|].
    rewrite bool_decide_eq_true_2 by done. by apply existsb_bool_decide_elem_of.
Qed.

Lemma suggestImport_exports order x :
  order ⊆ knownModules_ →
  suggestImport order x = "" ∧ (∀ p, p ∈ order → x ∉ p.2) ∨
  ∃ m, suggestImport order x = "use " +:+ m +:+ "::" +:+ x +:+ ";" ∧ moduleExportsSymbol m x = true.
Proof.
  induction order as [|[m l] order IH]; intros Hs; [left; split; [done|]; set_solver|]. simpl.
  case_bool_decide as Hx.
  - right. exists m. split; [done|]. apply moduleExportsSymbol_spec. exists l. split; [|done]. set_solver.
  - destruct IH as [[-> H]|H]; [set_solver| |by right]. left. split; [done|]. set_solver.
Qed.

(** The table of standard modules and the table of built-in functions agree: whatever a
    module exports is a built-in function or constant, [Task] and [Mutex] apart, and every
    built-in function is exported by a module or is one of the functions that need no
    import.  A hint to import a symbol names a module that exports it, is given whenever
    there is one, and, except for [toUpper] and [toLower], which two modules export, does
    not depend on the iteration order of the hash table. *)
Lemma known_modules_consistent :
  (∀ m x, moduleExportsSymbol m x = true →
     is_builtin x = true ∨ (m = "std::thread" ∧ x ∈ ["Task"; "Mutex"])) ∧
  (∀ s, s ∈ builtinSignatures →
     (∃ m, moduleExportsSymbol m (bs_name s) = true) ∨ bs_name s ∈ bs_name <$> sigs_global) ∧
  (∀ order x, order ≡ₚ knownModules_ →
     (suggestImport order x ≠ "" ↔ ∃ m, moduleExportsSymbol m x = true) ∧
     (ambiguous x = false → suggestImport order x = suggestImport knownModules_ x)).
Proof.
  split; [|split].
  - intros m x (l & Hin & Hx)%moduleExportsSymbol_spec.
    pose proof known_exports_builtin as H. rewrite forallb_forall in H.
    apply list_elem_of_In in Hin. apply H in Hin. rewrite forallb_forall in Hin.
    apply list_elem_of_In, Hin, orb_true_iff in Hx as [?|?%bool_decide_eq_true_1]; auto.
  - intros s Hin%list_elem_of_In. pose proof builtin_exported as H. rewrite forallb_forall in H.
    apply H, orb_true_iff in Hin as [([m l] & Hin & Hx%bool_decide_eq_true_1)%existsb_exists|
      ?%bool_decide_eq_true_1]; [|auto].
    left. exists m. apply moduleExportsSymbol_spec. exists l. by rewrite list_elem_of_In.
  - intros order x Hp. assert (Hs : order ⊆ knownModules_) by (by intros p; rewrite Hp).
    pose proof (suggestImport_exports order x Hs) as Ho.
    pose proof (suggestImport_exports knownModules_ x (reflexivity _)) as Hk.
    split.
    + destruct Ho as [[-> H]|(m & -> & Hm)]; split; try done; [|by exists m].
      intros (m & (l & Hin & Hx)%moduleExportsSymbol_spec). rewrite <-Hp in Hin. by apply H in Hin.
    + intros Ha.
      assert (Huniq : ∀ m m', moduleExportsSymbol m x = true → moduleExportsSymbol m' x = true → m = m').
      { intros m m' (l & Hin & Hx)%moduleExportsSymbol_spec (l' & Hin' & Hx')%moduleExportsSymbol_spec.
        pose proof known_unique as H. rewrite forallb_forall in H.
        apply list_elem_of_In, H in Hin. rewrite forallb_forall in Hin.
        apply list_elem_of_In, Hin, orb_true_iff in Hin' as [Hm%bool_decide_eq_true_1|Hf]; [exact Hm|].
        rewrite forallb_forall in Hf. apply list_elem_of_In, Hf in Hx. rewrite Ha in Hx.
        by apply negb_true_iff, bool_decide_eq_false_1 in Hx. }
      destruct Ho as [[-> H]|(m & -> & Hm)], Hk as [[-> H']|(m' & -> & Hm')]; [done|..].
      * apply moduleExportsSymbol_spec in Hm' as (l & Hin & Hx). rewrite <-Hp in Hin. by apply H in Hin.
      * apply moduleExportsSymbol_spec in Hm as (l & Hin & Hx). by apply H' in Hin.
      * by rewrite (Huniq m m').
Qed.
