(* ===== verification/ExprType.v ===== *)
(** * The types of expressions

    [Checker::resolveExprType] and [Checker::resolveExprArrayDims]
    ([checkers/Checker_type.cpp]): literals, identifiers, tuples, operators, casts,
    accesses and indexing.  A use of an expression marks variables, adds diagnostics and
    creates pointer and tuple types, so the functions are in the monad of a checker state.

    Calls, initialisers, lambdas, match expressions, unwrapping, inline assembly and
    comprehensions are the parameter [resolveRest], and [restDims] for the dimensions of
    those.  [resolveTypeSpec], the declarations of imported constants and the position of a
    context in the file are parameters as well. *)

From S2P Require Import Prelude.
From S2P Require Import CxxLib.
From S2P Require Import TypeInfo.
From S2P Require Import Assign.
From S2P Require Import Traits.
From S2P Require Import Syntax.
From S2P Require Import ComptimeValue.
From S2P Require Import ConstEval.
From S2P Require Import Builtins.
From S2P Require Import Ownership.
From S2P Require Import Attributes.
From S2P Require Import Modules.
From S2P Require Import Imports.
Local Open Scope Z_scope.

(** ** State *)

Record OperatorInfo := {
  op_internalName : string;
  op_symbol : string;
  op_returnType : option tyref;
  op_paramTypes : list (option tyref);
  op_isInstance : bool }.

Record CEnumConstant := {
  ce_type : option tyref;
  ce_value : Z;
  ce_isFloat : bool;
  ce_isString : bool }.

(** What the checker changes while it types an expression.  [ty_varTypes] holds the
    pointers [VarInfo::type] of the variables in [locals_]. *)
Record Typer := {
  ty_env : type_env;
  ty_checker : Checker;
  ty_varTypes : gmap string (option tyref);
  ty_compileTimeValues : gmap string ComptimeValue;
  ty_recursionDepth : Z }.

#[export] Instance settable_Typer : Settable Typer := λ s,
  Build_Typer (ty_env s) (ty_checker s) (ty_varTypes s) (ty_compileTimeValues s)
    (ty_recursionDepth s).

(** What it only reads.  Of a C constant the floating-point value is left out. *)
Record Tables := {
  functions_ : gmap string (option tyref);
  comptimeRegistry_ : ComptimeRegistry;
  cEnumConstants_ : gmap string CEnumConstant;
  cGlobals_ : gmap string (option tyref);
  importResolver_ : ImportResolver;
  builtinRegistry_ : BuiltinRegistry;
  userImports_ : gmap string string;
  userImportNames_ : gmap string string;
  moduleRegistry_ : option ModuleRegistry;
  enumVariantImports_ : gmap string (option tyref);
  currentModulePath_ : string;
  currentFile_ : string;
  unwrapCatchItDepth_ : Z;
  operatorMethods_ : gmap string (list OperatorInfo);
  activeTarget_ : TargetInfo }.

Notation T := (M Typer).

Definition MAX_RECURSION_DEPTH : Z := 1000.

Definition importedSymbolName (g : Tables) (localName : string) : string :=
  default localName (userImportNames_ g !! localName).

(** ** Small steps *)

Definition lookupT (name : string) : T (option tyref) :=
  s ← getS; mret (reg_lookup_ref (te_types (ty_env s)) name).

Definition infoT (p : tyref) : T TypeInfo := s ← getS; liftO (deref (ty_env s) p).

Definition infoOpt (p : option tyref) : T (option TypeInfo) :=
  match p with None => mret None | Some p => t ← infoT p; mret (Some t) end.

Definition pushT (t : TypeInfo) : T tyref := λ s,
  let '(e, p) := pushDynamic (ty_env s) t in ROk p (s <| ty_env := e |>).

Definition pointerT (p : tyref) : T tyref := λ s,
  match getPointerType (ty_env s) p with
  | Ret (e, q) => ROk q (s <| ty_env := e |>)
  | Throw x => RThrow x s
  | Undef => RUndef
  | NoFuel => RNoFuel
  end.

Definition undefT {A} : T A := λ _, RUndef.

Definition onChecker (f : Checker → Checker) : T unit :=
  modifyS (λ s, s <| ty_checker := f (ty_checker s) |>).

Definition when (b : bool) (m : T unit) : T unit := if b then m else mret ().

Definition markUsed (name : string) : Checker → Checker := λ c,
  c <| locals_ := alter (λ vi, vi <| vi_used := true |>) name (locals_ c) |>.

(** [std::stoi(text)] *)
Definition stoi (text : string) : outcome Z :=
  v ← stoll 10 text;
  if (- 2 ^ 31 <=? v) && (v <? 2 ^ 31) then Ret v else Throw OutOfRange.

Definition quote (s : string) : string := "'" +:+ s +:+ "'".

(** ** Literals *)

Definition kSuffixTypeMap : list (string * string) := [
  ("i8", "int8"); ("i16", "int16"); ("i32", "int32"); ("i64", "int64");
  ("i128", "int128"); ("iinf", "intinf"); ("isize", "isize");
  ("u8", "uint8"); ("u16", "uint16"); ("u32", "uint32"); ("u64", "uint64");
  ("u128", "uint128"); ("usize", "usize");
  ("f32", "float32"); ("f64", "float64"); ("f80", "float80"); ("f128", "float128") ].

(** [resolveSuffixed]; [order] is the order in which the table is iterated. *)
Fixpoint suffixType (order : list (string * string)) (text : string) : option string :=
  match order with
  | [] => None
  | (suf, typeName) :: order =>
      if ends_with_strict suf text then Some typeName else suffixType order text
  end.

Definition is_suffixed (k : lit_kind) : bool :=
  match k with
  | SuffixedIntLit | SuffixedHexLit | SuffixedOctLit | SuffixedBinLit | SuffixedFloatLit
  | SuffixedLeadingDotFloatLit | SuffixedIntFloatLit | SuffixedFloatIntLit => true
  | _ => false
  end.

(** The name of the type of the other literals. *)
Definition literalTypeName (k : lit_kind) : string :=
  match k with
  | IntLit | HexLit | OctLit | BinLit => "int32"
  | FloatLit | LeadingDotFloatLit => "float64"
  | BoolLit => "bool"
  | CharLit => "char"
  | StrLit | BtickLit | RawBtickLit | IntBtickLit | ShellBtickLit | CmptBtickLit => "string"
  | _ => ""
  end.

Definition isIntLitExpr (e : expr) : bool :=
  match e with
  | ELit (IntLit | HexLit | OctLit | BinLit | SuffixedIntLit | SuffixedHexLit | SuffixedOctLit
         | SuffixedBinLit) _ => true
  | _ => false
  end.

Definition resolveLiteral (k : lit_kind) (text : string) : T (option tyref) :=
  if is_suffixed k then
    match suffixType kSuffixTypeMap text with Some n => lookupT n | None => mret None end
  else match k with
  | NullLit => mret None
  | CStrLit =>
      c ← lookupT "char";
      match c with
      | Some c => p ← pointerT c; mret (Some p)
      | None => undefT (* getPointerType(nullptr) *)
      end
  | _ => lookupT (literalTypeName k)
  end.

(** ** Operators *)

Definition opInternalName (opText : string) : string :=
  default "" (list_to_map (M := gmap string string) [
    ("+", "opAdd"); ("-", "opSub"); ("*", "opMul"); ("/", "opDiv"); ("%", "opMod");
    ("==", "opEq"); ("!=", "opNe"); ("<", "opLt"); (">", "opGt"); ("<=", "opLe");
    (">=", "opGe"); ("&", "opBitAnd"); ("|", "opBitOr"); ("^", "opBitXor");
    ("<<", "opShl"); (">>", "opShr"); ("&&", "opAnd"); ("||", "opOr") ] !! opText).

(** A character and an integer, in either order. *)
Definition charInt (lt rt : TypeInfo) : bool :=
  (hasKind TK.Char lt && hasKind TK.Integer rt) || (hasKind TK.Integer lt && hasKind TK.Char rt).

Definition kindMismatch (lt rt : TypeInfo) : bool :=
  negb (bool_decide (ti_kind lt = ti_kind rt)) && negb (charInt lt rt).

Definition signMismatch (l r : expr) (lt rt : TypeInfo) : bool :=
  hasKind TK.Integer lt && hasKind TK.Integer rt && negb (eqb (ti_isSigned lt) (ti_isSigned rt)) &&
  negb (isIntLitExpr l) && negb (isIntLitExpr r).

(** The operand with the greater width, the left one on a tie. *)
Definition wider {A} (lt rt : TypeInfo) (l r : A) : A :=
  if effBitWidth rt <=? effBitWidth lt then l else r.

Definition orElse {A} (a b : option A) : option A := match a with Some _ => a | None => b end.

(** [x && !p(x)] *)
Definition bad (p : option TypeInfo → bool) (x : option TypeInfo) : bool :=
  match x with Some _ => negb (p x) | None => false end.

Definition requires (opText what : string) (t : TypeInfo) : string :=
  "operator '" +:+ opText +:+ "' requires " +:+ what +:+ ", got " +:+ quote (ti_name t).

Definition mixedMessage (opText : string) (lt rt : TypeInfo) : string :=
  "operator '" +:+ opText +:+ "' does not allow mixed numeric kinds (" +:+ quote (ti_name lt) +:+
  " and " +:+ quote (ti_name rt) +:+ "); cast explicitly".

Definition is_zero_literal (e : expr) : bool :=
  match e with ELit IntLit t => bool_decide (t = "0") | _ => false end.

Definition isLValue (e : expr) : bool :=
  match e with
  | EIdent _ | EField false _ _ | EUnary UDeref _ | EIndex _ _ => true
  | _ => false
  end.

Fixpoint stripParens (e : expr) : expr :=
  match e with EParen e => stripParens e | _ => e end.

Definition is_range (e : expr) : bool :=
  match e with EBin (BRange | BRangeIncl) _ _ _ => true | _ => false end.

(** A [ConstDeclaratorContext]: its type, and typing its initialiser. *)
Record Declarator := {
  cd_typeSpec : option string;
  cd_expression : option (T (option tyref)) }.

Section typing.
Context (g : Tables) (fuel : nat).
(** Where a context starts and ends in the file. *)
Context (position : expr → context).
(** [resolveTypeSpec], and [resolveTypeSpecInContext], which substitutes active type
    parameters: the type and the number of array dimensions. *)
Context (resolveTypeSpec resolveTypeSpecInContext : option string → T (option tyref * Z)).
(** What [evaluateConstExpr] needs of it. *)
Context (constTypeSpec : string → option TypeInfo).
(** The declaration an imported constant points at, if any. *)
Context (declarator : ExportedSymbol → option Declarator).
Context (resolveRest : expr → T (option tyref)).
Context (restDims : expr → T Z).

Definition errorT (e : expr) (msg : string) : T unit := onChecker (error (position e) msg).
Definition warningT (e : expr) (msg : string) : T unit := onChecker (warning (position e) msg).

Definition assignableT (l r : option tyref) : T bool :=
  s ← getS; liftO (isAssignable fuel (ty_env s) l r).

(** [a && b && !isAssignable(a, b)] *)
Definition notAssignable (l r : option tyref) : T bool :=
  match l, r with
  | Some _, Some _ => b ← assignableT l r; mret (negb b)
  | _, _ => mret false
  end.

Definition nameT (p : option tyref) : T string :=
  match p with None => undefT | Some p => t ← infoT p; mret (ti_name t) end.

Definition findOperator (p : option tyref) (internal : string) : T (option OperatorInfo) :=
  s ← getS; liftO (findInChain op_internalName fuel (ty_env s) (operatorMethods_ g) p internal).

Definition is_struct (t : option TypeInfo) : bool :=
  match t with Some t => hasKind TK.Struct t | None => false end.

(** [resolveOpOverload] *)
Definition resolveOpOverload (l : option tyref) (lt : option TypeInfo) (opText : string)
    : T (option tyref) :=
  if negb (is_struct lt) then mret None else
  if bool_decide (opInternalName opText = "") then mret None else
  o ← findOperator l (opInternalName opText);
  mret (match o with Some o => op_returnType o | None => None end).

(** [if (auto* opRet = resolveOpOverload(...)) return opRet;] *)
Definition orOverload (l : option tyref) (lt : option TypeInfo) (opText : string)
    (k : T (option tyref)) : T (option tyref) :=
  o ← resolveOpOverload l lt opText;
  match o with Some _ => mret o | None => k end.

(** The message about operands that are not numeric: the left one first. *)
Definition numericOperands (e : expr) (opText : string) (lt rt : option TypeInfo) : T unit :=
  match lt, rt with
  | Some t, _ => if negb (isNumeric lt) then errorT e (requires opText "numeric operands" t) else
      match rt with
      | Some t => when (negb (isNumeric rt)) (errorT e (requires opText "numeric operands" t))
      | None => mret ()
      end
  | None, Some t => when (negb (isNumeric rt)) (errorT e (requires opText "numeric operands" t))
  | None, None => mret ()
  end.

(** The message about numeric operands of different kinds. *)
Definition mixedOperands (e : expr) (opText : string) (l r : expr) (lt rt : option TypeInfo)
    : T unit :=
  match lt, rt with
  | Some a, Some b =>
      when (isNumeric lt && isNumeric rt && (kindMismatch a b || signMismatch l r a b))
        (errorT e (mixedMessage opText a b))
  | _, _ => mret ()
  end.

(** An operand that is not an integer, a character or a pointer. *)
Definition integerOperand (e : expr) (opText : string) (t : option TypeInfo) : T unit :=
  match t with
  | Some ti => when (negb (isIntegerOrPointer t)) (errorT e (requires opText "integer operands" ti))
  | None => mret ()
  end.

Definition integerOperands (e : expr) (opText : string) (lt rt : option TypeInfo) : T unit :=
  integerOperand e opText lt;; integerOperand e opText rt.

(** Type of the operands' kind: the wider of two of one kind, else the left one. *)
Definition sameKindWider (also : TypeInfo → TypeInfo → bool) (l r : option tyref)
    (lt rt : option TypeInfo) : option tyref :=
  match lt, rt with
  | Some a, Some b =>
      if bool_decide (ti_kind a = ti_kind b) || also a b then wider a b l r else orElse l r
  | _, _ => orElse l r
  end.

(** [MulExprContext] *)
Definition checkMul (e : expr) (opText : string) (l r : expr) (lhs rhs : option tyref)
    : T (option tyref) :=
  lt ← infoOpt lhs;
  rt ← infoOpt rhs;
  orOverload lhs lt opText (
    (if bool_decide (opText = "%") then integerOperands e opText lt rt
     else numericOperands e opText lt rt;; mixedOperands e opText l r lt rt);;
    when ((bool_decide (opText = "/") || bool_decide (opText = "%")) && is_zero_literal r)
      (errorT e "division by zero");;
    mret (sameKindWider (λ _ _, false) lhs rhs lt rt)).

Definition is_pointer (t : option TypeInfo) : bool :=
  match t with Some t => hasKind TK.Pointer t | None => false end.

Definition is_string (t : option TypeInfo) : bool :=
  match t with Some t => hasKind TK.String t | None => false end.

(** [AddSubExprContext] *)
Definition checkAddSub (e : expr) (opText : string) (l r : expr) (lhs rhs : option tyref)
    : T (option tyref) :=
  lt ← infoOpt lhs;
  rt ← infoOpt rhs;
  if (is_pointer lt && isNumeric rt) || (isNumeric lt && is_pointer rt)
  then mret (if is_pointer lt then lhs else rhs) else
  if is_pointer lt && is_pointer rt && bool_decide (opText = "-") then lookupT "i64" else
  if is_string lt && is_string rt then
    if negb (bool_decide (opText = "+"))
    then errorT e "operator '-' does not support string operands";; mret lhs
    else lookupT "string"
  else
  o ← (if is_struct lt then findOperator lhs (if bool_decide (opText = "+") then "opAdd" else "opSub")
       else mret None);
  match o with
  | Some o => mret (op_returnType o)
  | None =>
      numericOperands e opText lt rt;;
      mixedOperands e opText l r lt rt;;
      mret (sameKindWider charInt lhs rhs lt rt)
  end.

(** [checkShift] *)
Definition checkShift (e : expr) (opText : string) (lhs rhs : option tyref) : T (option tyref) :=
  lt ← infoOpt lhs;
  rt ← infoOpt rhs;
  orOverload lhs lt opText (integerOperands e opText lt rt;; mret lhs).

(** [RelExprContext] *)
Definition checkRel (e : expr) (opText : string) (l r : expr) (lhs rhs : option tyref)
    : T (option tyref) :=
  lt ← infoOpt lhs;
  rt ← infoOpt rhs;
  orOverload lhs lt opText (
    if is_pointer lt && is_pointer rt then lookupT "bool" else
    numericOperands e opText lt rt;;
    mixedOperands e opText l r lt rt;;
    lookupT "bool").

(** [EqExprContext] *)
Definition checkEq (e : expr) (opText : string) (lhs rhs : option tyref) : T (option tyref) :=
  lt ← infoOpt lhs;
  rt ← infoOpt rhs;
  orOverload lhs lt opText (
    match lt, rt with
    | Some a, Some b =>
        if isNumeric lt && isNumeric rt && kindMismatch a b
        then errorT e (mixedMessage opText a b)
        else if hasKind TK.Integer a && hasKind TK.Integer b then mret ()
        else
          b1 ← assignableT lhs rhs;
          b2 ← (if b1 : bool then mret true else assignableT rhs lhs);
          when (negb b2) (errorT e ("operator '" +:+ opText +:+ "' has incompatible operand types " +:+
                                    quote (ti_name a) +:+ " and " +:+ quote (ti_name b)))
    | _, _ => mret ()
    end;;
    lookupT "bool").

(** [checkBitwise] *)
Definition checkBitwise (e : expr) (opText : string) (l r : expr) (lhs rhs : option tyref)
    : T (option tyref) :=
  lt ← infoOpt lhs;
  rt ← infoOpt rhs;
  orOverload lhs lt opText (
    integerOperands e opText lt rt;;
    match lt, rt with
    | Some a, Some b =>
        when (signMismatch l r a b)
          (errorT e ("operator '" +:+ opText +:+ "' does not allow mixed signed/unsigned integers (" +:+
                     quote (ti_name a) +:+ " and " +:+ quote (ti_name b) +:+ "); cast explicitly"));;
        mret (wider a b lhs rhs)
    | _, _ => mret (orElse lhs rhs)
    end).

(** [LogicalAndExprContext] and [LogicalOrExprContext] *)
Definition checkLogical (opText : string) (lhs rhs : option tyref) : T (option tyref) :=
  lt ← infoOpt lhs;
  orOverload lhs lt opText (lookupT "bool").

(** [NullCoalExprContext] *)
Definition checkNullCoal (e : expr) (lhs rhs : option tyref) : T (option tyref) :=
  lt ← infoOpt lhs;
  match lt with
  | Some t => when (negb (hasKind TK.Pointer t))
      (errorT e ("left side of '??' must be a pointer type, got " +:+ quote (ti_name t)))
  | None => mret ()
  end;;
  n ← notAssignable lhs rhs;
  (if n : bool then
     a ← nameT lhs; b ← nameT rhs;
     errorT e ("'??' type mismatch: left is " +:+ quote a +:+ ", default is " +:+ quote b)
   else mret ());;
  mret (orElse lhs rhs).

(** [RangeExprContext] and [RangeInclExprContext] *)
Definition checkRange (e : expr) (lhs rhs : option tyref) : T (option tyref) :=
  lt ← infoOpt lhs;
  rt ← infoOpt rhs;
  match lt with
  | Some t => when (negb (isInteger lt)) (errorT e ("range start must be integer, got " +:+ quote (ti_name t)))
  | None => mret ()
  end;;
  match rt with
  | Some t => when (negb (isInteger rt)) (errorT e ("range end must be integer, got " +:+ quote (ti_name t)))
  | None => mret ()
  end;;
  mret lhs.

Definition resolveBinary (e : expr) (k : bin_kind) (op : string) (l r : expr) (lhs rhs : option tyref)
    : T (option tyref) :=
  match k with
  | BMul => checkMul e op l r lhs rhs
  | BAddSub => checkAddSub e op l r lhs rhs
  | BLshift => checkShift e "<<" lhs rhs
  | BRshift => checkShift e ">>" lhs rhs
  | BRel => checkRel e op l r lhs rhs
  | BEq => checkEq e op lhs rhs
  | BBitAnd => checkBitwise e "&" l r lhs rhs
  | BBitXor => checkBitwise e "^" l r lhs rhs
  | BBitOr => checkBitwise e "|" l r lhs rhs
  | BLogicalAnd => checkLogical "&&" lhs rhs
  | BLogicalOr => checkLogical "||" lhs rhs
  | BNullCoal => checkNullCoal e lhs rhs
  | BRange | BRangeIncl => checkRange e lhs rhs
  end.

(** The four increments and decrements. *)
Definition checkIncr (e inner : expr) (op : string) (operand : option tyref) : T (option tyref) :=
  t ← infoOpt operand;
  match t with
  | Some ti => when (negb (isInteger t) && negb (hasKind TK.Pointer ti))
      (errorT e (requires op "integer or pointer operand" ti))
  | None => mret ()
  end;;
  when (negb (isLValue inner)) (errorT e ("operator '" +:+ op +:+ "' requires a variable (lvalue)"));;
  mret operand.

(** [NegExprContext] *)
Definition checkNeg (e : expr) (operand : option tyref) : T (option tyref) :=
  t ← infoOpt operand;
  match t with
  | Some ti =>
      when (negb (isNumeric t))
        (errorT e ("unary '-' requires numeric operand, got " +:+ quote (ti_name ti)));;
      when (hasKind TK.Integer ti && negb (ti_isSigned ti))
        (errorT e ("unary '-' cannot be applied to unsigned type " +:+ quote (ti_name ti)))
  | None => mret ()
  end;;
  mret operand.

(** [BitNotExprContext] *)
Definition checkBitNot (e : expr) (operand : option tyref) : T (option tyref) :=
  t ← infoOpt operand;
  match t with
  | Some ti => when (negb (isIntegerOrPointer t))
      (errorT e ("operator '~' requires integer operand, got " +:+ quote (ti_name ti)))
  | None => mret ()
  end;;
  mret operand.

(** [AddrOfExprContext] *)
Definition checkAddrOf (inner : expr) (operand : option tyref) : T (option tyref) :=
  match operand with
  | None => mret None
  | Some p =>
      match inner with EIdent x => onChecker (markUsed x) | _ => mret () end;;
      q ← pointerT p; mret (Some q)
  end.

(** [DerefExprContext] *)
Definition checkDeref (e : expr) (operand : option tyref) : T (option tyref) :=
  t ← infoOpt operand;
  match t with
  | None => mret None
  | Some ti =>
      if negb (hasKind TK.Pointer ti)
      then errorT e ("cannot dereference non-pointer type " +:+ quote (ti_name ti));; mret None
      else mret (ti_pointeeType ti)
  end.

(** The type of the success payload of an enum that can be unwrapped, else the type. *)
Definition unwrapSuccess (p : option tyref) : T (option tyref) :=
  s ← getS;
  r ← liftO (classifyUnwrapCatchEnum fuel (ty_env s) p
               {| uc_okVariant := None; uc_errVariant := None |});
  match r, p with
  | (None, pattern), Some q =>
      t ← infoT q;
      match uc_okVariant pattern ≫= (λ i : nat, ti_enumVariantInfos t !! i) with
      | Some v => mret (singlePayloadType v)
      | None => undefT
      end
  | _, _ => mret p
  end.

(** [SpawnExprContext] *)
Definition checkSpawn (e : expr) (inner : option tyref) : T (option tyref) :=
  match inner with
  | None => errorT e "cannot resolve type of spawned expression";; lookupT "void"
  | Some p =>
      t ← infoT p;
      let fullName := "Task<" +:+ ti_name t +:+ ">" in
      cached ← lookupT fullName;
      match cached with
      | Some _ => mret cached
      | None =>
          q ← pushT ((mkTypeInfo fullName TK.Extended 0 false "")
                 <| ti_elementType := Some p |> <| ti_extendedKind := "Task" |>);
          mret (Some q)
      end
  end.

(** [AwaitExprContext] *)
Definition checkAwait (e : expr) (taskType : option tyref) : T (option tyref) :=
  t ← infoOpt taskType;
  match t with
  | None => errorT e "cannot resolve type of awaited expression";; lookupT "void"
  | Some ti =>
      match ti_elementType ti with
      | Some el =>
          if hasKind TK.Extended ti && bool_decide (ti_extendedKind ti = "Task")
          then mret (Some el) else mret taskType
      | None => mret taskType
      end
  end.

Definition resolveUnary (e : expr) (k : un_kind) (inner : expr) (operand : option tyref)
    : T (option tyref) :=
  match k with
  | UNeg => checkNeg e operand
  | ULogicalNot => lookupT "bool"
  | UBitNot => checkBitNot e operand
  | UDeref => checkDeref e operand
  | UAddrOf => checkAddrOf inner operand
  | UTry => unwrapSuccess operand
  | USpawn => checkSpawn e operand
  | UAwait => checkAwait e operand
  | USpread => mret operand
  | UPreIncr | UPostIncr => checkIncr e inner "++" operand
  | UPreDecr | UPostDecr => checkIncr e inner "--" operand
  end.

(** ** Identifiers *)

(** The type of a name that is used as a value. *)
Definition typeAsValue (name : string) (t : TypeInfo) : string :=
  if hasKind TK.Struct t then
    "struct " +:+ quote name +:+ " cannot be used as a value, did you mean '" +:+ name +:+ " {}'?"
  else if hasKind TK.Union t then
    "union " +:+ quote name +:+ " cannot be used as a value, did you mean '" +:+ name +:+ " {}'?"
  else if hasKind TK.Enum t then "enum " +:+ quote name +:+ " cannot be used as a value"
  else "type " +:+ quote name +:+ " cannot be used as a value".

Definition importedTypeMessage (name : string) (k : SymbolKind) : option string :=
  match k with
  | SStruct => Some ("struct " +:+ quote name +:+ " cannot be used as a value, did you mean '"
                       +:+ name +:+ " {}'?")
  | SUnion => Some ("union " +:+ quote name +:+ " cannot be used as a value, did you mean '"
                      +:+ name +:+ " {}'?")
  | SEnum => Some ("enum " +:+ quote name +:+ " cannot be used as a value")
  | _ => None
  end.

(** The first module, in sorted order, with a function of that name in another file. *)
Fixpoint importHint (modules_ : ModuleRegistry) (order : list string) (name : string)
    : option string :=
  match order with
  | [] => None
  | ns :: order =>
      match findSymbol modules_ ns name with
      | Some sym =>
          if bool_decide (sym_kind sym = SFunction)
             && negb (bool_decide (sym_sourceFile sym = currentFile_ g))
          then Some ns else importHint modules_ order name
      | None => importHint modules_ order name
      end
  end.

(** The type in the declaration of an imported constant, else the type of its initialiser. *)
Definition declaredType (cd : Declarator) : T (option tyref) :=
  t ← match cd_typeSpec cd with
      | Some ts => r ← resolveTypeSpec (Some ts); mret r.1
      | None => mret None
      end;
  match t, cd_expression cd with
  | None, Some init => init
  | _, _ => mret t
  end.

Definition resolveIdent (e : expr) (name : string) : T (option tyref) :=
  s ← getS;
  match locals_ (ty_checker s) !! name with
  | Some vi =>
      onChecker (validateExprNotMoved e (position e));;
      when (negb (vi_initialized vi) &&
            negb (match vi_type vi with Some t => hasKind TK.BitStruct t | None => false end))
        (warningT e ("variable " +:+ quote name +:+ " is used before being initialized"));;
      onChecker (markUsed name);;
      mret (default None (ty_varTypes s !! name))
  | None =>
  match functions_ g !! name with
  | Some t => mret t
  | None =>
  if isComptime (comptimeRegistry_ g) name then lookupT "int32" else
  match cEnumConstants_ g !! name with
  | Some c => mret (ce_type c)
  | None =>
  match cGlobals_ g !! name with
  | Some t => mret t
  | None =>
  if isImported (importResolver_ g) name then
    let constType := br_lookupConstant (builtinRegistry_ g) name in
    if bool_decide (constType = "") then mret None else lookupT constType
  else
  match userImports_ g !! name with
  | Some modPath =>
      match moduleRegistry_ g ≫= (λ m, findSymbol m modPath (importedSymbolName g name)) with
      | Some sym =>
          if bool_decide (sym_kind sym = SConstant) then
            t ← match declarator sym with Some cd => declaredType cd | None => mret None end;
            match t with Some _ => mret t | None => lookupT "int32" end
          else match importedTypeMessage name (sym_kind sym) with
          | Some msg => errorT e msg;; mret None
          | None => mret None
          end
      | None => mret None
      end
  | None =>
  match enumVariantImports_ g !! name with
  | Some t => mret t
  | None =>
  let elsewhere :=
    match moduleRegistry_ g with
    | Some m =>
        negb (bool_decide (currentModulePath_ g = "")) &&
        match findSymbol m (currentModulePath_ g) name with
        | Some sym => negb (bool_decide (sym_sourceFile sym = currentFile_ g))
        | None => false
        end
    | None => false
    end in
  if elsewhere then mret None else
  if bool_decide (name = "it") && (unwrapCatchItDepth_ g =? 0) then
    errorT e "'it' is only available inside 'expr catch { ... }' unwrap blocks";; mret None
  else
  match reg_lookup (te_types (ty_env s)) name with
  | Some t => errorT e (typeAsValue name t);; mret None
  | None =>
  match moduleRegistry_ g ≫= (λ m, importHint m (allModules m) name) with
  | Some ns =>
      errorT e ("undefined variable " +:+ quote name +:+ ". Did you forget 'use " +:+ ns +:+ "::" +:+
                name +:+ ";'?");; mret None
  | None => errorT e ("undefined variable " +:+ quote name);; mret None
  end end end end end end end end.

(** ** Tuples *)

(** The type of a tuple of these elements: the first dynamic type of its name, or a new one. *)
Definition tupleType (elems : list tyref) : T (option tyref) :=
  names ← mapM_ (λ p, t ← infoT p; mret (ti_name t)) elems;
  let fullName := "tuple<" +:+ str_join ", " names +:+ ">" in
  s ← getS;
  match list_find (λ t, ti_name t = fullName) (te_dynamicTypes (ty_env s)) with
  | Some (i, _) => mret (Some (DynT i))
  | None =>
      p ← pushT ((mkTypeInfo fullName TK.Tuple 0 false "") <| ti_tupleElements := Some <$> elems |>);
      mret (Some p)
  end.

(** [base.N] or [base->N] with the base's type: the tuple, which for [->] is pointed to. *)
Definition tupleBase (e : expr) (arrow : bool) (dot : string) (base : option tyref)
    : T (option TypeInfo) :=
  t ← infoOpt base;
  match t with
  | None => mret None
  | Some ti =>
      if arrow then
        if negb (hasKind TK.Pointer ti) then
          errorT e ("'->" +:+ dot +:+ "' requires a pointer type, got " +:+ quote (ti_name ti));; mret None
        else
          pointee ← infoOpt (ti_pointeeType ti);
          match pointee with
          | None => mret None
          | Some pt =>
              if hasKind TK.Tuple pt then mret pointee else
              errorT e ("'->" +:+ dot +:+ "' requires pointer to tuple, got pointer to " +:+
                        quote (ti_name pt));; mret None
          end
      else if hasKind TK.Tuple ti then mret t else
        errorT e ("'." +:+ dot +:+ "' index requires a tuple type, got " +:+ quote (ti_name ti));;
        mret None
  end.

(** An element, or the message of a bad index. *)
Definition tupleElement (e : expr) (index : Z) (note : string) (t : TypeInfo) : T (option tyref) :=
  if (index <? 0) || (Z.of_nat (length (ti_tupleElements t)) <=? index)
  then errorT e ("tuple index " +:+ to_string index +:+ " is out of range" +:+ note);; mret None
  else mret (default None (ti_tupleElements t !! Z.to_nat index)).

Definition elementsNote (t : TypeInfo) : string :=
  " (tuple has " +:+ to_string (Z.of_nat (length (ti_tupleElements t))) +:+ " elements)".

Definition checkTupleIndex (e : expr) (arrow : bool) (base : option tyref) (index : string)
    : T (option tyref) :=
  t ← tupleBase e arrow "N" base;
  match t with
  | None => mret None
  | Some t => i ← liftO (stoi index); tupleElement e i (elementsNote t) t
  end.

Definition checkChainedTupleIndex (e : expr) (arrow : bool) (base : option tyref) (text : string)
    : T (option tyref) :=
  t ← tupleBase e arrow "N.M" base;
  match t with
  | None => mret None
  | Some t =>
      let dotPos := default (String.length text) (find_char "." text) in
      idx1 ← liftO (stoi (str_take dotPos text));
      idx2 ← liftO (stoi (str_drop (S dotPos) text));
      inner ← tupleElement e idx1 "" t;
      if (idx1 <? 0) || (Z.of_nat (length (ti_tupleElements t)) <=? idx1) then mret None else
      it ← infoOpt inner;
      match it with
      | Some it =>
          if hasKind TK.Tuple it then tupleElement e idx2 "" it else
          errorT e ("'" +:+ (if arrow then "->" else ".") +:+ "N.M' requires element " +:+
                    to_string idx1 +:+ " to be a tuple");; mret None
      | None =>
          errorT e ("'" +:+ (if arrow then "->" else ".") +:+ "N.M' requires element " +:+
                    to_string idx1 +:+ " to be a tuple");; mret None
      end
  end.

(** ** Casts, accesses and indexing *)

(** The message of a cast between incompatible kinds. *)
Definition castMessage (st dt : TypeInfo) (srcPointee dstPointee : option TypeInfo) : option string :=
  let is_char t := match t with Some t => hasKind TK.Char t | None => false end in
  let scalar t := hasKind TK.Integer t || hasKind TK.Float t || hasKind TK.Bool t in
  let aggregate t := hasKind TK.Struct t || hasKind TK.Extended t || hasKind TK.String t in
  let incompatible := "cannot cast " +:+ quote (ti_name st) +:+ " to " +:+ quote (ti_name dt) +:+
                      ": incompatible types" in
  if hasKind TK.String st && hasKind TK.Pointer dt then
    Some (if is_char dstPointee
          then "cannot cast 'string' to 'cstring' directly. Use 'cstr(expr)' to convert a string to a null-terminated C string"
          else "cannot cast 'string' to " +:+ quote (ti_name dt) +:+ ": incompatible types")
  else if hasKind TK.Pointer st && hasKind TK.String dt then
    Some (if is_char srcPointee
          then "cannot cast 'cstring' to 'string' directly. Use 'fromCStr(expr)' to convert a C string to a TM string"
          else "cannot cast " +:+ quote (ti_name st) +:+ " to 'string': incompatible types")
  else if hasKind TK.Char st && hasKind TK.String dt then
    Some "cannot cast 'char' to 'string'. Use char.toString() to convert a character to a string"
  else if aggregate st && scalar dt then Some incompatible
  else if scalar st && aggregate dt then Some incompatible
  else None.

(** The zero-cost views of a byte slice as a string and back. *)
Definition sliceView (st dt : TypeInfo) (srcDims dims : Z) : bool :=
  let u8 t := bool_decide (ti_name t = "uint8") in
  ((srcDims =? 1) && u8 st && hasKind TK.String dt) ||
  (hasKind TK.String st && (dims =? 1) && u8 dt).

(** [CastExprContext]; [srcDims] gives the dimensions of the operand. *)
Definition checkCast (e : expr) (src dst : option tyref) (dims : Z) (srcDims : T Z)
    : T (option tyref) :=
  match src, dst with
  | Some s, Some d =>
      if bool_decide (s = d) then mret dst else
      n ← srcDims;
      st ← infoT s;
      dt ← infoT d;
      if sliceView st dt n dims then mret dst else
      sp ← infoOpt (if hasKind TK.Pointer st && hasKind TK.String dt then ti_pointeeType st else None);
      dp ← infoOpt (if hasKind TK.String st && hasKind TK.Pointer dt then ti_pointeeType dt else None);
      match castMessage st dt sp dp with
      | Some msg => errorT e msg
      | None => mret ()
      end;;
      mret dst
  | _, _ => mret dst
  end.

Definition findField (name : string) (fields : list FieldInfo) : option FieldInfo :=
  snd <$> list_find (λ f, fi_name f = name) fields.

Definition noField (t : TypeInfo) (name : string) : string :=
  quote (ti_name t) +:+ " has no field " +:+ quote name.

(** [ArrowAccessExprContext] *)
Definition checkArrowAccess (e : expr) (base : option tyref) (fieldName : string)
    : T (option tyref) :=
  t ← infoOpt base;
  match t with
  | None => mret None
  | Some bt =>
      if negb (hasKind TK.Pointer bt)
      then errorT e ("'->' requires a pointer type, got " +:+ quote (ti_name bt));; mret None else
      pointee ← infoOpt (ti_pointeeType bt);
      match pointee with
      | None => mret None
      | Some pt =>
          if negb (hasKind TK.Struct pt) && negb (hasKind TK.Union pt)
          then errorT e ("'->' requires pointer to struct or union, got pointer to " +:+
                         quote (ti_name pt));; mret None
          else match findField fieldName (ti_fields pt) with
          | Some f => mret (fi_typeInfo f)
          | None => errorT e (noField pt fieldName);; mret None
          end
      end
  end.

Definition bitFieldTypeName (width : Z) : string :=
  "uint" +:+ to_string (if width <=? 8 then 8 else if width <=? 16 then 16
                        else if width <=? 32 then 32 else 64).

(** A string, [Vec], [Set] or [Map]. *)
Definition has_length (t : TypeInfo) : bool :=
  hasKind TK.String t ||
  (hasKind TK.Extended t &&
   (bool_decide (ti_extendedKind t = "Vec") || bool_decide (ti_extendedKind t = "Set")
    || bool_decide (ti_extendedKind t = "Map"))).

(** A local variable with array dimensions. *)
Definition is_array_local (s : Typer) (base : expr) : bool :=
  match base with
  | EIdent x => match locals_ (ty_checker s) !! x with Some vi => 0 <? vi_arrayDims vi | None => false end
  | _ => false
  end.

(** [FieldAccessExprContext] *)
Definition checkFieldAccess (e baseExpr : expr) (base : option tyref) (fieldName : string)
    : T (option tyref) :=
  s ← getS;
  t ← infoOpt base;
  if (bool_decide (fieldName = "len") || bool_decide (fieldName = "length")) &&
     (is_array_local s baseExpr || match t with Some t => has_length t | None => false end)
  then lookupT "usize" else
  t ← match t with
      | Some bt => match ti_pointeeType bt with
                   | Some p => if hasKind TK.Pointer bt then infoOpt (Some p) else mret t
                   | None => mret t
                   end
      | None => mret None
      end;
  match t with
  | None => mret None
  | Some bt =>
      let missing := errorT e ("[" +:+ currentFile_ g +:+ "] " +:+ noField bt fieldName);; mret None in
      if hasKind TK.BitStruct bt then
        match list_find (λ f, bf_name f = fieldName ∧ bf_isPadding f = false) (ti_bitFields bt) with
        | Some (_, f) => lookupT (bitFieldTypeName (bf_width f))
        | None => missing
        end
      else if hasKind TK.Struct bt || hasKind TK.Union bt then
        match findField fieldName (ti_fields bt) with
        | Some f => mret (fi_typeInfo f)
        | None => missing
        end
      else missing
  end.

(** What [IndexExprContext] does after the operators, maps and ranges: [baseDims] gives the
    dimensions of the base. *)
Definition checkElementIndex (e : expr) (base : option tyref) (bt it : option TypeInfo)
    (baseDims : T Z) : T (option tyref) :=
  match it with
  | Some ti => when (negb (isInteger it)) (errorT e ("index must be integer, got " +:+ quote (ti_name ti)))
  | None => mret ()
  end;;
  n ← baseDims;
  if 0 <? n then mret base else
  let derefType := match bt with
    | Some t => if hasKind TK.Pointer t then orElse (ti_pointeeType t) base else base
    | None => base
    end in
  dt ← infoOpt derefType;
  match dt with
  | None => mret base
  | Some t =>
      if hasKind TK.Extended t && bool_decide (ti_extendedKind t = "Set") then
        el ← infoOpt (ti_elementType t);
        errorT e ("set<" +:+ match el with Some el => ti_name el | None => "?" end +:+
                  "> does not support indexing");;
        mret None
      else match (if hasKind TK.Extended t then ti_elementType t else None) with
      | Some el => mret (Some el)
      | None =>
          if hasKind TK.String t then lookupT "char" else
          if is_pointer bt then mret derefType else mret base
      end
  end.

(** [IndexExprContext] *)
Definition checkIndex (e indexExpr : expr) (base index : option tyref) (baseDims : T Z)
    : T (option tyref) :=
  bt ← infoOpt base;
  it ← infoOpt index;
  op ← (if is_struct bt then findOperator base "opIndex" else mret None);
  match op with
  | Some op =>
      match op_paramTypes op !! 1%nat with
      | Some p =>
          n ← notAssignable p index;
          if n : bool then
            a ← nameT p; b ← nameT index;
            errorT e ("index type mismatch: expected " +:+ quote a +:+ ", got " +:+ quote b)
          else mret ()
      | None => mret ()
      end;;
      mret (op_returnType op)
  | None =>
  match bt with
  | Some t =>
      match (if hasKind TK.Extended t then ti_keyType t else None) with
      | Some k =>
          n ← notAssignable (Some k) index;
          (if n : bool then
             a ← nameT (Some k); b ← nameT index;
             errorT e ("map key type mismatch: expected " +:+ quote a +:+ ", got " +:+ quote b)
           else mret ());;
          match ti_valueType t with
          | None => errorT e "map value type could not be resolved";; lookupT "void"
          | v => mret v
          end
      | None =>
          if hasKind TK.String t && is_range (stripParens indexExpr) then
            errorT e "cannot subscript 'string' with a range: use .slice(start, end) on the string or std::str::slice (see docs/stdlib/string.md)";;
            mret None
          else checkElementIndex e base bt it baseDims
      end
  | None => checkElementIndex e base bt it baseDims
  end end.

(** ** Types named in expressions *)

Definition findEnumVariantInfo (name : string) (enumType : TypeInfo) : option EnumVariantInfo :=
  snd <$> list_find (λ v, ev_name v = name) (ti_enumVariantInfos enumType).

Definition payloadEmpty (v : option EnumVariantInfo) : bool :=
  match v with Some v => match ev_payloadFields v with [] => true | _ => false end | None => true end.

(** [EnumAccessExprContext] *)
Definition checkEnumAccess (e : expr) (enumName variant : string) : T (option tyref) :=
  let constant :=
    modPath ← userImports_ g !! enumName;
    m ← moduleRegistry_ g;
    sym ← findSymbol m modPath (importedSymbolName g variant);
    if bool_decide (sym_kind sym = SConstant) then declarator sym else None in
  match constant with
  | Some cd => r ← resolveTypeSpec (cd_typeSpec cd); mret r.1
  | None =>
      direct ← lookupT enumName;
      enumType ← match direct, userImports_ g !! enumName with
                 | None, Some _ => lookupT (importedSymbolName g enumName)
                 | _, _ => mret direct
                 end;
      t ← infoOpt enumType;
      match t with
      | None => errorT e ("unknown enum type " +:+ quote enumName);; mret None
      | Some t =>
          if negb (hasKind TK.Enum t)
          then errorT e (quote enumName +:+ " is not an enum type");; mret None else
          match findEnumVariantInfo variant t with
          | None => errorT e ("enum " +:+ quote enumName +:+ " has no variant " +:+ quote variant)
          | v => when (negb (payloadEmpty v))
                   (errorT e ("variant '" +:+ enumName +:+ "::" +:+ variant +:+
                              "' requires payload construction"))
          end;;
          mret enumType
      end
  end.

(** [IsExprContext] with the type of the value *)
Definition checkIs (e : expr) (lhs : option tyref) (typeSpec : string)
    (variant : option (string * option string)) : T (option tyref) :=
  r ← resolveTypeSpecInContext (Some typeSpec);
  lt ← infoOpt lhs;
  rt ← infoOpt r.1;
  let is_enum t := match t with Some t => hasKind TK.Enum t | None => false end in
  match variant with
  | None => mret ()
  | Some (variantName, binding) =>
      if negb (is_enum rt) then errorT e "right side of variant 'is' check must be an enum type" else
      if negb (is_enum lt) then errorT e "left side of variant 'is' check must be an enum value" else
      match lt, rt with
      | Some a, Some b =>
          if negb (bool_decide (lhs = r.1)) then
            errorT e ("enum type mismatch in variant 'is' check: left is " +:+ quote (ti_name a) +:+
                      ", right is " +:+ quote (ti_name b))
          else
            let v := findEnumVariantInfo variantName b in
            match v with
            | Some _ => mret ()
            | None => errorT e ("enum " +:+ quote (ti_name b) +:+ " has no variant " +:+ quote variantName)
            end;;
            when (match binding with Some _ => payloadEmpty v | None => false end)
              (errorT e ("variant " +:+ quote variantName +:+ " has no payload to bind"))
      | _, _ => mret ()
      end
  end;;
  lookupT "bool".

(** The loop over leading [[N]] of a type: whether one has no literal size. *)
Fixpoint unsizedArray (fuel : nat) (spec : string) : bool :=
  match fuel, spec with
  | S fuel, String "[" rest =>
      match rest with
      | String c _ =>
          if is_digit c then
            match find_char "]" rest with
            | Some i => unsizedArray fuel (str_drop (S i) rest)
            | None => false
            end
          else true
      | "" => true
      end
  | _, _ => false
  end.

Definition unknownType (e : expr) (msg : string) (t : option tyref) : T unit :=
  match t with Some _ => mret () | None => errorT e msg end.

(** [SizeofExprContext] *)
Definition checkSizeof (e : expr) (typeSpec : string) : T (option tyref) :=
  if unsizedArray (String.length typeSpec) typeSpec
  then errorT e "sizeof: unsized array type is not allowed; use fixed-size '[N]T'";; lookupT "usize"
  else
    r ← resolveTypeSpecInContext (Some typeSpec);
    unknownType e "sizeof: unknown type" r.1;;
    lookupT "usize".

(** [AlignofExprContext] *)
Definition checkAlignof (e : expr) (typeSpec : string) : T (option tyref) :=
  r ← resolveTypeSpec (Some typeSpec);
  unknownType e "alignof: unknown type" r.1;;
  lookupT "int64".

(** [OffsetofExprContext] *)
Definition checkOffsetof (e : expr) (typeSpec field : string) : T (option tyref) :=
  r ← resolveTypeSpec (Some typeSpec);
  t ← infoOpt r.1;
  match t with
  | None => errorT e "offsetof: unknown type"
  | Some t =>
      if negb (hasKind TK.Struct t) && negb (hasKind TK.Union t)
      then errorT e "offsetof: expected a struct or union type, got  + ti->name + "
      else match findField field (ti_fields t) with
      | Some _ => mret ()
      | None => errorT e "offsetof: type  + ti->name +  has no field named  + fieldName + "
      end
  end;;
  lookupT "int64".

(** [AtTypeExprContext] *)
Definition checkAtType (e : expr) (name typeSpec : string) : T (option tyref) :=
  resolveTypeSpec (Some typeSpec);;
  if bool_decide (name ∈ ["typeName"; "fields"; "variants"]) then lookupT "string" else
  if bool_decide (name = "typeId") then lookupT "int64" else
  if bool_decide (name ∈ ["isStruct"; "isEnum"; "isUnion"]) then lookupT "bool" else
  errorT e ("unknown comptime builtin '@" +:+ name +:+ "'");; lookupT "int32".

(** [AtPtrExprContext], with the pointee's type and the address's. *)
Definition checkAtPtr (e address : expr) (pointee : option tyref) (dims : Z)
    (typeAddress : T (option tyref)) : T (option tyref) :=
  match pointee with
  | None => errorT e "'@ptr' requires a valid pointee type as first argument";; mret None
  | Some p =>
      if 0 <? dims then errorT e "'@ptr' does not support array types";; mret None else
      a ← typeAddress;
      at_ ← infoOpt a;
      match at_ with
      | None => mret None
      | Some _ =>
          if negb (isInteger at_)
          then errorT address "'@ptr' address argument must be an integer";; mret None
          else q ← pointerT p; mret (Some q)
      end
  end.

(** The target's values that [@cfg] makes available once. *)
Definition populateTarget (t : TargetInfo) (m : gmap string ComptimeValue) : gmap string ComptimeValue :=
  if bool_decide (is_Some (m !! "target_os")) then m else
  <["target_os" := stringVal (tg_os t)]> (<["target_arch" := stringVal (tg_arch t)]>
  (<["target_endian" := stringVal (tg_endian t)]>
  (<["target_pointer_width" := intVal (tg_pointerWidth t)]>
  (<["target_os_family" := stringVal (tg_osFamily t)]>
  (<["target_triple" := stringVal (tg_triple t)]>
  (<["debug_assertions" := boolVal (tg_debug t)]> m)))))).

(** [CfgExprContext] *)
Definition checkCfg (e inner : expr) : T (option tyref) :=
  modifyS (λ s, s <| ty_compileTimeValues := populateTarget (activeTarget_ g) (ty_compileTimeValues s) |>);;
  s ← getS;
  r ← liftO (evaluateConstExpr (te_types (ty_env s)) (ty_compileTimeValues s) constTypeSpec inner);
  match r with
  | None => errorT e "'@cfg' predicate must be a constant expression"
  | Some (boolVal _ | intVal _) => mret ()
  | Some _ => errorT e "'@cfg' must evaluate to a boolean"
  end;;
  lookupT "bool".

(** [TryExprContext] with a fallback *)
Definition checkTryOr (e : expr) (inner fallback : option tyref) : T (option tyref) :=
  n ← notAssignable inner fallback;
  if n : bool then
    a ← nameT fallback; b ← nameT inner;
    errorT e ("try-or fallback type " +:+ quote a +:+ " is not compatible with " +:+ quote b);;
    mret None
  else mret inner.

(** [TernaryExprContext] *)
Definition ternaryCondition (e : expr) (cond : option tyref) : T unit :=
  t ← infoOpt cond;
  match t with
  | Some ti => when (negb (isConditionType t))
      (errorT e ("ternary condition has type " +:+ quote (ti_name ti) +:+
                 ", expected 'bool' or numeric type"))
  | None => mret ()
  end.

Definition checkTernary (e : expr) (t f : option tyref) : T (option tyref) :=
  n ← notAssignable t f;
  (if n : bool then
     a ← nameT t; b ← nameT f;
     errorT e ("ternary branches have incompatible types: " +:+ quote a +:+ " and " +:+ quote b)
   else mret ());;
  mret (orElse t f).

Definition arrayLitSize (e : expr) : option nat :=
  match e with EArray es => Some (length es) | _ => None end.

(** An element after the first of [ArrayLitExprContext]. *)
Definition checkArrayElement (e first elem : expr) (firstType elemType : option tyref) : T unit :=
  n ← notAssignable firstType elemType;
  (if n : bool then
     a ← nameT firstType; b ← nameT elemType;
     errorT e ("array element type mismatch: expected " +:+ quote a +:+ ", got " +:+ quote b)
   else mret ());;
  match arrayLitSize first, arrayLitSize elem with
  | Some a, Some b =>
      when (negb (bool_decide (a = b)))
        (errorT e ("nested array literal size mismatch: expected " +:+ to_string (Z.of_nat a) +:+
                   ", got " +:+ to_string (Z.of_nat b)))
  | _, _ => mret ()
  end.

(** [resolveArrayLitDims] *)
Fixpoint resolveArrayLitDims (e : expr) : Z :=
  match e with
  | EArray es =>
      let maxInner := fold_right (λ x m, match x with
        | EArray _ => Z.max (resolveArrayLitDims x) m | _ => m end) 0 es in
      maxInner + 1
  | _ => 1
  end.

(** ** The whole *)

(** The guard: the depth goes up for the time of a call, and past the limit the call
    reports an error. *)
Definition withDepth (e : expr) (body : T (option tyref)) : T (option tyref) := λ s,
  let s1 := s <| ty_recursionDepth := ty_recursionDepth s + 1 |> in
  let leave s' := s' <| ty_recursionDepth := ty_recursionDepth s' - 1 |> in
  match (if MAX_RECURSION_DEPTH <? ty_recursionDepth s1
         then errorT e ("type expression nesting exceeds maximum recursion depth of " +:+
                        to_string MAX_RECURSION_DEPTH);; mret None
         else body) s1 with
  | ROk t s' => ROk t (leave s')
  | RThrow x s' => RThrow x (leave s')
  | RUndef => RUndef
  | RNoFuel => RNoFuel
  end.

Fixpoint resolveExprType (e : expr) {struct e} : T (option tyref) :=
  withDepth e
  match e with
  | ELit k text => resolveLiteral k text
  | EIdent x => resolveIdent e x
  | EParen e1 => resolveExprType e1
  | EUnary k e1 => t ← resolveExprType e1; resolveUnary e k e1 t
  | EBin k op l r =>
      a ← resolveExprType l; b ← resolveExprType r; resolveBinary e k op l r a b
  | ETernary c x y =>
      tc ← resolveExprType c; ternaryCondition e tc;;
      a ← resolveExprType x; b ← resolveExprType y; checkTernary e a b
  | ECast e1 ts =>
      src ← resolveExprType e1;
      r ← resolveTypeSpecInContext (Some ts);
      checkCast e src r.1 r.2 (resolveExprArrayDims e1)
  | EIndex b i =>
      tb ← resolveExprType b; ti ← resolveExprType i;
      checkIndex e i tb ti (resolveExprArrayDims b)
  | ESizeof ts => checkSizeof e ts
  | ETypeof e1 => resolveExprType e1;; lookupT "string"
  | EEnumAccess a b => checkEnumAccess e a b
  | ECfg _ e1 => checkCfg e e1
  | EField false b x => t ← resolveExprType b; checkFieldAccess e b t x
  | EField true b x => t ← resolveExprType b; checkArrowAccess e t x
  | ETupleIndex arrow b i => t ← resolveExprType b; checkTupleIndex e arrow t i
  | EChainedTupleIndex arrow b i => t ← resolveExprType b; checkChainedTupleIndex e arrow t i
  | ETuple es =>
      elems ← (fix go (l : list expr) : T (option (list tyref)) :=
        match l with
        | [] => mret (Some [])
        | x :: l =>
            t ← resolveExprType x;
            match t with
            | None => mret None
            | Some p => r ← go l; mret ((λ ps, p :: ps) <$> r)
            end
        end) es;
      match elems with None => mret None | Some ps => tupleType ps end
  | EArray [] => mret None
  | EArray (x :: es) =>
      t ← resolveExprType x;
      (fix go (l : list expr) : T unit :=
        match l with
        | [] => mret ()
        | y :: l => u ← resolveExprType y; checkArrayElement e x y t u;; go l
        end) es;;
      mret t
  | ETryOr a b =>
      t ← resolveExprType a; t ← unwrapSuccess t;
      u ← resolveExprType b; checkTryOr e t u
  | EIs e1 ts v => t ← resolveExprType e1; checkIs e t ts v
  | EAlignof ts => checkAlignof e ts
  | EOffsetof ts field => checkOffsetof e ts field
  | EAtType name ts => checkAtType e name ts
  | EAtPtr _ ts a =>
      r ← resolveTypeSpec (Some ts); checkAtPtr e a r.1 r.2 (resolveExprType a)
  | ECall _ _ | EStaticCall _ _ | EMethodCall _ _ _ | EGenericEnumAccess _ _ _ | EInit _ _ _
  | EMatch _ _ _ | EOther _ _ _ => resolveRest e
  end
with resolveExprArrayDims (e : expr) {struct e} : T Z :=
  match e with
  | EIdent x =>
      s ← getS;
      mret match locals_ (ty_checker s) !! x with Some vi => vi_arrayDims vi | None => 0 end
  | EIndex b _ => n ← resolveExprArrayDims b; mret (if 0 <? n then n - 1 else 0)
  | EMethodCall _ _ _ | EOther _ _ _ => restDims e
  | EParen e1 | EUnary UDeref e1 => resolveExprArrayDims e1
  | EArray _ => mret (resolveArrayLitDims e)
  | EField false b x =>
      p ← resolveExprType b;
      t ← infoOpt p;
      t ← match t with
          | Some bt => match ti_pointeeType bt with
                       | Some q => if hasKind TK.Pointer bt then infoOpt (Some q) else mret t
                       | None => mret t
                       end
          | None => mret None
          end;
      mret match t with
           | Some bt =>
               if hasKind TK.Struct bt || hasKind TK.Union bt then
                 match findField x (ti_fields bt) with Some f => fi_arrayDims f | None => 0 end
               else 0
           | None => 0
           end
  | _ => mret 0
  end.
End typing.

(** ** A checker at the start, with one function *)

Definition exampleTables : Tables := {|
  functions_ := {[ "f" := Some (RegT "int32") ]}; comptimeRegistry_ := ∅; cEnumConstants_ := ∅;
  cGlobals_ := ∅; importResolver_ := newImportResolver; builtinRegistry_ := newBuiltinRegistry;
  userImports_ := ∅; userImportNames_ := ∅; moduleRegistry_ := None; enumVariantImports_ := ∅;
  currentModulePath_ := ""; currentFile_ := "main.lc"; unwrapCatchItDepth_ := 0;
  operatorMethods_ := ∅; activeTarget_ := newTargetInfo linux false |}.

Definition startTyper : Typer := {|
  ty_env := initial_env; ty_checker := emptyChecker ∅; ty_varTypes := ∅; ty_compileTimeValues := ∅;
  ty_recursionDepth := 0 |}.

(** A specifier names a type of the registry. *)
Definition namedSpec (ts : option string) : T (option tyref * Z) :=
  t ← lookupT (default "" ts); mret (t, 0%Z).

Definition noRest (_ : expr) : T (option tyref) := mret None.
Definition noDims (_ : expr) : T Z := mret 0%Z.
