(* ===== verification/ExprTypeSafety.v ===== *)
(** * Typing an expression is safe

    The invariant of the state of [ExprType]: no pointer to a type dangles, pointer types
    are unique and types have bounded depth.  Typing any expression keeps it, keeps every
    existing type where it is, restores the recursion depth, and gives null or a type that
    exists; it ends with the fuel of that depth.

    [safe s0 N m N' R] says this of a computation [m] that starts in any state that extends
    [s0]: it is a Hoare triple whose precondition is what held in an earlier state. *)

From S2P Require Import Prelude.
From S2P Require Import CxxLib.
From S2P Require Import TypeInfo.
From S2P Require Import Assign.
From S2P Require Import Traits.
From S2P Require Import Syntax.
From S2P Require Import ComptimeValue.
From S2P Require Import ConstEval.
From S2P Require Import Builtins.
From S2P Require Import Ownership.
From S2P Require Import Attributes.
From S2P Require Import Modules.
From S2P Require Import Imports.
From S2P Require Import ExprType.
Local Open Scope nat_scope.

(** ** The invariant *)

(** Pointers along which the checker follows types: components and parents. *)
Definition below (t : TypeInfo) : list tyref := componentTypes t ++ opt_list (ti_parentType t).

Definition bounded (N : nat) (e : type_env) : Prop :=
  ∃ rank : tyref → nat,
    (∀ p t q, resolve e p = Some t → q ∈ below t → rank q < rank p) ∧
    ∀ p, is_Some (resolve e p) → rank p < N.

(** The pointers the read-only tables hold. *)
Inductive in_tables (g : Tables) (p : tyref) : Prop :=
| it_function x : functions_ g !! x = Some (Some p) → in_tables g p
| it_enum x c : cEnumConstants_ g !! x = Some c → ce_type c = Some p → in_tables g p
| it_global x : cGlobals_ g !! x = Some (Some p) → in_tables g p
| it_variant x : enumVariantImports_ g !! x = Some (Some p) → in_tables g p
| it_result x ops o : operatorMethods_ g !! x = Some ops → o ∈ ops →
    op_returnType o = Some p → in_tables g p
| it_param x ops o : operatorMethods_ g !! x = Some ops → o ∈ ops →
    Some p ∈ op_paramTypes o → in_tables g p.

Definition exists_in (s : Typer) (p : tyref) : Prop := is_Some (resolve (ty_env s) p).

Record ok (g : Tables) (N : nat) (s : Typer) : Prop := {
  ok_closed : closed (ty_env s);
  ok_unique : pointers_unique (ty_env s);
  ok_bounded : bounded N (ty_env s);
  ok_char : is_Some (te_types (ty_env s) !! "char");
  ok_vars x p : ty_varTypes s !! x = Some (Some p) → exists_in s p;
  ok_tables p : in_tables g p → exists_in s p }.

(** What only grows. *)
Record grows (s s' : Typer) : Prop := {
  grows_env : extends (ty_env s) (ty_env s');
  grows_vars : ty_varTypes s' = ty_varTypes s;
  grows_depth : ty_recursionDepth s' = ty_recursionDepth s }.

#[export] Instance grows_preorder : PreOrder grows.
Proof.
  split; [by intros s; split; auto with types|].
  intros s1 s2 s3 [] []. split; [by eapply extends_trans|congruence|congruence].
Qed.

(** Null, or a type that exists. *)
Definition known (p : option tyref) (s : Typer) : Prop := ∀ q, p = Some q → exists_in s q.

(** [t] is what [p] points at. *)
Definition denotes (p : option tyref) (t : option TypeInfo) (s : Typer) : Prop :=
  match p, t with
  | None, None => True
  | Some q, Some ti => resolve (ty_env s) q = Some ti
  | _, _ => False
  end.

Lemma exists_grows s s' p : grows s s' → exists_in s p → exists_in s' p.
Proof. intros [H _ _] [t Ht]. exists t. by apply H. Qed.
Lemma known_grows s s' p : known p s → grows s s' → known p s'.
Proof. intros H Hg q Hq. eapply exists_grows; eauto. Qed.
Lemma denotes_grows s s' p t : denotes p t s → grows s s' → denotes p t s'.
Proof. destruct p, t; simpl; auto. intros H [Hg _ _]. by apply Hg. Qed.
Lemma known_None s : known None s.
Proof. by intros q [=]. Qed.
Lemma known_Some s p : exists_in s p → known (Some p) s.
Proof. by intros H q [= ->]. Qed.
Lemma denotes_known p t s : denotes p t s → known p s.
Proof. intros H q ->. destruct t; [|done]. by eexists. Qed.

Create HintDb typing discriminated.
#[export] Hint Resolve known_None known_Some : typing.

(** A pointer that an existing type holds. *)
Lemma held_known g N s p t q :
  ok g N s → denotes p (Some t) s → q ∈ ti_pointers t → exists_in s q.
Proof.
  intros Hok Hp Hq. destruct p as [p|]; [|done].
  pose proof (ok_closed _ _ _ Hok p t Hp) as H. rewrite Forall_forall in H. by apply H.
Qed.

Lemma opt_held (o : option tyref) q : o = Some q → q ∈ opt_list o.
Proof. intros ->. by apply list_elem_of_singleton. Qed.

(** The members a [TypeInfo] points with. *)
Lemma pointers_members t q :
  (q ∈ opt_list (ti_pointeeType t) ∨ q ∈ opt_list (ti_elementType t) ∨
   q ∈ opt_list (ti_keyType t) ∨ q ∈ opt_list (ti_valueType t) ∨
   (∃ f, f ∈ ti_fields t ∧ fi_typeInfo f = Some q) ∨
   Some q ∈ ti_tupleElements t ∨
   (∃ v f, v ∈ ti_enumVariantInfos t ∧ f ∈ ev_payloadFields v ∧ fi_typeInfo f = Some q)) →
  q ∈ ti_pointers t.
Proof.
  unfold ti_pointers. rewrite !elem_of_app.
  intros [H|[H|[H|[H|[(f & Hf & H)|[H|(v & f & Hv & Hf & H)]]]]]]; try tauto.
  - left. apply list_elem_of_bind. exists f. split; [by apply opt_held|done].
  - assert (q ∈ (p ← ti_tupleElements t; opt_list p)); [|tauto].
    apply list_elem_of_bind. exists (Some q). split; [by apply opt_held|done].
  - right. left. apply list_elem_of_bind. exists v. split; [|done].
    apply list_elem_of_bind. exists f. split; [by apply opt_held|done].
Qed.

(** ** Triples *)

Section safety.
Context (g : Tables) (fuel : nat).

Definition safe {A} (s0 : Typer) (N : nat) (m : T A) (N' : nat) (R : A → Typer → Prop) : Prop :=
  ∀ s, grows s0 s → ok g N s →
    match m s with
    | ROk a s' => grows s s' ∧ ok g N' s' ∧ R a s'
    | RThrow _ s' => grows s s'
    | RUndef | RNoFuel => False
    end.

Notation any := (λ _ _, True).

Lemma safe_bind {A B} s0 N N1 N2 (m : T A) (f : A → T B) R R2 :
  safe s0 N m N1 R →
  (∀ a s1, grows s0 s1 → ok g N1 s1 → R a s1 → safe s1 N1 (f a) N2 R2) →
  safe s0 N (m ≫= f) N2 R2.
Proof.
  intros Hm Hf s Hs Hok. specialize (Hm s Hs Hok). unfold mbind, M_bind.
  destruct (m s) as [a s'|x s'| |]; [|done..]. destruct Hm as (Hg & Hok' & Ha).
  assert (grows s0 s') as Hs' by (by etrans).
  specialize (Hf a s' Hs' Hok' Ha s' (reflexivity _) Hok').
  destruct (f a s'); [|by etrans|done..]. destruct Hf as (? & ? & ?). split_and!; [by etrans|done..].
Qed.

Lemma safe_weaken {A} s0 N N' (m : T A) (R R' : A → Typer → Prop) :
  (∀ a s, R a s → R' a s) → safe s0 N m N' R → safe s0 N m N' R'.
Proof.
  intros HR Hm s Hs Hok. specialize (Hm s Hs Hok). destruct (m s); naive_solver.
Qed.

Lemma safe_later {A} s0 s1 N N' (m : T A) R :
  grows s0 s1 → safe s0 N m N' R → safe s1 N m N' R.
Proof. intros H Hm s Hs. apply Hm. by etrans. Qed.

Lemma safe_ret_known s0 N p : known p s0 → safe s0 N (mret p) N known.
Proof. intros Hp s Hs Hok. split_and!; [done..|]. by eapply known_grows. Qed.

Lemma safe_ret {A} s0 N (a : A) : safe s0 N (mret a) N any.
Proof. by intros s Hs Hok. Qed.

Lemma safe_throw {A} s0 N (m : outcome A) (R : A → Typer → Prop) :
  (∀ s, match m with Ret a => R a s | Throw _ => True | _ => False end) → safe s0 N (liftO m) N R.
Proof. intros H s Hs Hok. specialize (H s). unfold liftO. destruct m; [split_and!|..]; done. Qed.

(** Only the checker's part of the state changes. *)
Lemma ok_onChecker N s c : ok g N s → ok g N (s <| ty_checker := c |>).
Proof. by intros []. Qed.
Lemma grows_onChecker s c : grows s (s <| ty_checker := c |>).
Proof. by split; auto with types. Qed.
Lemma safe_onChecker s0 N f : safe s0 N (onChecker f) N any.
Proof. intros s Hs Hok. split_and!; [apply grows_onChecker|by apply ok_onChecker|done]. Qed.

Lemma safe_when s0 N b m : safe s0 N m N any → safe s0 N (when b m) N any.
Proof. destruct b; [done|intros; apply safe_ret]. Qed.

Lemma safe_lookup s0 N n : safe s0 N (lookupT n) N known.
Proof.
  intros s Hs Hok. split_and!; [done..|]. unfold reg_lookup_ref. intros q Hq.
  destruct (te_types (ty_env s) !! n) as [t|] eqn:Ht; simplify_eq/=. by exists t.
Qed.

Lemma safe_info s0 N p : exists_in s0 p → safe s0 N (infoT p) N (denotes (Some p) ∘ Some).
Proof.
  intros Hp s Hs Hok. destruct (exists_grows _ _ _ Hs Hp) as [t Ht].
  unfold infoT, mbind, M_bind, getS, deref. by rewrite Ht.
Qed.

Lemma safe_infoOpt s0 N p : known p s0 → safe s0 N (infoOpt p) N (denotes p).
Proof.
  destruct p as [p|]; intros Hp; [|by intros s Hs Hok].
  eapply safe_bind; [by apply safe_info, Hp|]. intros t s1 Hg Hok Ht s Hs Hoks.
  split_and!; [done..|]. by apply (denotes_grows s1).
Qed.

Lemma safe_name s0 N p : exists_in s0 p → safe s0 N (nameT (Some p)) N any.
Proof. intros Hp. eapply safe_bind; [by apply safe_info|]. intros. apply safe_ret. Qed.

(** ** New types *)

Lemma bounded_mono N N' e : N ≤ N' → bounded N e → bounded N' e.
Proof. intros H (rank & Hr & Hb). exists rank. split; [done|]. intros p Hp. specialize (Hb p Hp). lia. Qed.
Lemma ok_mono N N' s : N ≤ N' → ok g N s → ok g N' s.
Proof. intros H []. split; eauto using bounded_mono. Qed.

Lemma below_pointers t : below t ⊆ ti_pointers t.
Proof.
  intros q. unfold below, componentTypes, ti_pointers. rewrite !elem_of_app. tauto.
Qed.

(** A new type is one level above the types it is built from. *)
Lemma bounded_push N N' e t :
  closed e → bounded N e → N ≤ N' → 0 < N' →
  (∀ q, q ∈ below t → is_Some (resolve e q) ∧ N < N') →
  bounded N' (pushDynamic e t).1.
Proof.
  intros Hc (rank & Hr & Hb) Hle Hpos Ht. set (new := (pushDynamic e t).2).
  assert (Hnew : resolve e new = None) by (simpl; apply lookup_ge_None_2; lia).
  exists (λ p, if bool_decide (p = new) then N' - 1 else rank p). split.
  - intros p tp q Hp Hq. rewrite resolve_pushDynamic in Hp.
    assert (Hqe : is_Some (resolve e q)).
    { case_bool_decide; simplify_eq; [by apply Ht|].
      pose proof (Hc p tp Hp) as Hall. rewrite Forall_forall in Hall. by apply Hall, below_pointers. }
    rewrite (bool_decide_eq_false_2 (q = new)) by (intros ->; rewrite Hnew in Hqe; by destruct Hqe).
    fold new in Hp. case_bool_decide; simplify_eq.
    + destruct (Ht q Hq). specialize (Hb q Hqe). lia.
    + eauto.
  - intros p Hp. case_bool_decide as E; [lia|].
    rewrite resolve_pushDynamic in Hp. fold new in Hp. rewrite bool_decide_eq_false_2 in Hp by done.
    specialize (Hb p Hp). lia.
Qed.

Definition not_pointer (t : TypeInfo) : Prop := hasKind TK.Pointer t && negb (ti_isVolatile t) = false.

Lemma unique_push e t : not_pointer t → pointers_unique e → pointers_unique (pushDynamic e t).1.
Proof.
  intros Ht Hu i j ti tj q Hi Hj Hvi Hvj Hti Htj. simpl in Hi, Hj.
  assert (Hcase : ∀ k tk, (te_dynamicTypes e ++ [t]) !! k = Some tk → ti_isVolatile tk = false →
     isPointerTo q tk = true → te_dynamicTypes e !! k = Some tk).
  { intros k tk [Hk|[_ Hk]]%lookup_app_Some Hv Hq; [done|].
    apply list_lookup_singleton_Some in Hk as [_ <-].
    unfold isPointerTo in Hq. unfold not_pointer in Ht. rewrite Hv, andb_true_r in Ht. by rewrite Ht in Hq. }
  eauto.
Qed.

Lemma ok_grow_env N N' s e :
  ok g N s → extends (ty_env s) e → closed e → pointers_unique e → bounded N' e →
  ok g N' (s <| ty_env := e |>) ∧ grows s (s <| ty_env := e |>).
Proof.
  intros [Hc Hu Hb Hch Hv Ht] He Hc' Hu' Hb'. split; [|by split].
  assert (Hk : ∀ p, exists_in s p → is_Some (resolve e p)) by (intros p [t Hp]; exists t; by apply He).
  split; unfold exists_in; simpl; eauto.
  destruct Hch as [t Hch]. exists t. by apply (He (RegT "char")).
Qed.

Lemma pushDynamic_new e t : resolve (pushDynamic e t).1 (pushDynamic e t).2 = Some t.
Proof. rewrite resolve_pushDynamic. by rewrite bool_decide_eq_true_2. Qed.

(** Pointer types have nothing below them. *)
Lemma getPointerType_bounded N e p e' q :
  closed e → bounded N e → 0 < N → getPointerType e p = Ret (e', q) → bounded N e'.
Proof.
  intros Hc Hb HN. unfold getPointerType.
  destruct (list_find _ _) as [[i ti]|]; [by intros [= -> _]|].
  destruct (deref e p) as [pt| | |]; [|done..]. cbn [mbind outcome_bind].
  intros [= <- _]. refine (bounded_push N N e _ Hc Hb (le_n _) HN _).
  intros r Hr. by apply not_elem_of_nil in Hr.
Qed.

Lemma safe_push s0 N N' t :
  not_pointer t → N ≤ N' → 0 < N' → (∀ q, q ∈ ti_pointers t → exists_in s0 q) →
  (below t = [] ∨ N < N') →
  safe s0 N (pushT t) N' (λ p, known (Some p)).
Proof.
  intros Hp Hle Hpos Hq Hb s Hs Hok. unfold pushT.
  rewrite (surjective_pairing (pushDynamic (ty_env s) t)).
  assert (Hex : ∀ q, q ∈ ti_pointers t → is_Some (resolve (ty_env s) q)).
  { intros q Hin. by eapply exists_grows; [|apply Hq]. }
  destruct (ok_grow_env N N' s (pushDynamic (ty_env s) t).1) as [H1 H2]; try done.
  - apply pushDynamic_extends.
  - apply pushDynamic_closed; [apply Hok|]. by apply Forall_forall.
  - apply unique_push; [done|apply Hok].
  - eapply bounded_push; [apply Hok|apply Hok|done|done|]. intros q Hin.
    destruct Hb as [Hb|Hb]; [rewrite Hb in Hin; by apply not_elem_of_nil in Hin|].
    split; [|done]. by apply Hex, below_pointers.
  - split_and!; [done..|]. apply known_Some.
    exists t. exact (pushDynamic_new (ty_env s) t).
Qed.

Lemma safe_pointer s0 N p : 0 < N → exists_in s0 p → safe s0 N (pointerT p) N (λ q, known (Some q)).
Proof.
  intros HN Hp s Hs Hok. destruct (exists_grows _ _ _ Hs Hp) as [pt Hpt]. unfold pointerT.
  destruct (getPointerType_spec (ty_env s) p) as (e' & q & t & Hg & Hq & _ & He & Hc & Hu & _);
    [apply Hok|apply Hok|by exists pt|]. rewrite Hg.
  destruct (ok_grow_env N N s e') as [H1 H2]; try done.
  - eapply getPointerType_bounded; [apply Hok|apply Hok|done|done].
  - split_and!; [done..|]. apply known_Some. by exists t.
Qed.

(** ** Loops over types *)

Lemma bounded_closed_wf N e : closed e → bounded N e →
  ∃ rank, ranked e rank ∧ (∀ p t q, resolve e p = Some t → ti_parentType t = Some q → rank q < rank p) ∧
    ∀ p, is_Some (resolve e p) → rank p < N.
Proof.
  intros Hc (rank & Hr & Hb). exists rank. split_and!; [| |done].
  - intros p t q Hp Hq. eapply Hr; [done|]. unfold below. set_solver.
  - intros p t q Hp Hq. eapply Hr; [done|]. unfold below. apply elem_of_app. right. by apply opt_held.
Qed.

Lemma parent_resolves e p t q :
  closed e → resolve e p = Some t → ti_parentType t = Some q → is_Some (resolve e q).
Proof.
  intros Hc Hp Hq. pose proof (Hc p t Hp) as H. rewrite Forall_forall in H. apply H.
  apply below_pointers. unfold below. apply elem_of_app. right. by apply opt_held.
Qed.

(** Induction along parents with enough fuel. *)
Lemma parents_ind N s (P : nat → option tyref → Prop) ti :
  ok g N s → N < fuel → known ti s →
  (∀ f, P (S f) None) →
  (∀ f q t, resolve (ty_env s) q = Some t → P f (ti_parentType t) → P (S f) (Some q)) →
  P fuel ti.
Proof.
  intros Hok Hf Hti Hnone Hsome.
  destruct (bounded_closed_wf N (ty_env s)) as (rank & _ & Hpar & Hb); [apply Hok..|].
  assert (Hgen : ∀ f ti, (∀ q, ti = Some q → is_Some (resolve (ty_env s) q) ∧ rank q < f) → P (S f) ti).
  { induction f as [|f IH]; intros [q|] Hq; try done; destruct (Hq q eq_refl) as [[t Ht] Hlt]; [lia|].
    apply (Hsome _ _ t Ht), IH. intros q' Hq'.
    split; [by eapply parent_resolves; [apply Hok|..]|]. specialize (Hpar q t q' Ht Hq'). lia. }
  destruct fuel as [|f]; [lia|]. apply Hgen. intros q Hq. specialize (Hti q Hq).
  split; [done|]. specialize (Hb q Hti). lia.
Qed.

Lemma isAssignable_ends N s l r :
  ok g N s → N <= fuel → known l s → known r s →
  ∃ b, isAssignable fuel (ty_env s) l r = Ret b.
Proof.
  intros Hok Hf Hl Hr.
  destruct (bounded_closed_wf N (ty_env s)) as (rank & Hrank & _ & Hb); [apply Hok..|].
  destruct l as [l|]; [|destruct fuel; [|by eexists]].
  - specialize (Hb l (Hl l eq_refl)). destruct r as [r|]; [|destruct fuel; [lia|by eexists]].
    destruct (isAssignable_correct (ty_env s) rank (ok_closed _ _ _ Hok) Hrank fuel l r) as (b & Hbb & _);
      [lia|by apply Hl|by apply Hr|]. by exists b.
  - destruct (ok_char _ _ _ Hok) as [t Ht]. specialize (Hb (RegT "char")).
    assert (is_Some (resolve (ty_env s) (RegT "char"))) as Hc by (by exists t). apply Hb in Hc. lia.
Qed.

Lemma findInChain_ends N s ti name :
  ok g N s → N < fuel → known ti s →
  ∃ o, findInChain op_internalName fuel (ty_env s) (operatorMethods_ g) ti name = Ret o ∧
    ∀ op, o = Some op → ∃ x ops, operatorMethods_ g !! x = Some ops ∧ op ∈ ops.
Proof.
  intros Hok Hf Hti. revert ti Hti. intros ti Hti.
  refine (parents_ind N s (λ f ti, ∃ o, findInChain op_internalName f (ty_env s) (operatorMethods_ g)
    ti name = Ret o ∧ ∀ op, o = Some op → ∃ x ops, operatorMethods_ g !! x = Some ops ∧ op ∈ ops)
    ti Hok Hf Hti _ _); [by eexists|].
  intros f q t Ht IH. cbn [findInChain]. unfold deref. rewrite Ht. cbn [mbind outcome_bind].
  destruct (operatorMethods_ g !! ti_name t) as [ops|] eqn:Hops; [|done].
  destruct (list_find _ ops) as [[i op]|] eqn:Hfind; [|done].
  exists (Some op). split; [done|]. intros ? [= <-]. exists (ti_name t), ops. split; [done|].
  apply list_find_Some in Hfind as [Hi _]. by eapply list_elem_of_lookup_2.
Qed.

Lemma isOrInheritsFrom_ends N s ti name :
  ok g N s → N < fuel → known ti s → ∃ b, isOrInheritsFrom fuel (ty_env s) ti name = Ret b.
Proof.
  intros Hok Hf Hti.
  refine (parents_ind N s (λ f ti, ∃ b, isOrInheritsFrom f (ty_env s) ti name = Ret b)
    ti Hok Hf Hti _ _); [by eexists|].
  intros f q t Ht IH. cbn [isOrInheritsFrom]. unfold deref. rewrite Ht. cbn [mbind outcome_bind].
  case_bool_decide; [by eexists|done].
Qed.

Lemma classifyVariants_ends N s i vs out :
  ok g N s → N < fuel → (∀ v f q, v ∈ vs → f ∈ ev_payloadFields v → fi_typeInfo f = Some q → exists_in s q) →
  (∀ j, uc_okVariant out = Some j → j < i) →
  ∃ why out', classifyVariants fuel (ty_env s) i vs out = Ret (why, out') ∧
    ∀ j, uc_okVariant out' = Some j → j < i + length vs.
Proof.
  intros Hok Hf. revert i out. induction vs as [|v vs IH]; intros i out Hvs Hout.
  { exists None, out. split; [done|]. intros j Hj. simpl. specialize (Hout j Hj). lia. }
  assert (Hlook : ∃ b, looksLikeErr fuel (ty_env s) v = Ret b).
  { unfold looksLikeErr. destruct (length (ev_payloadFields v) =? 0); [by eexists|].
    destruct (ev_isError v); [by eexists|]. case_bool_decide; [by eexists|].
    destruct (ev_payloadFields v) as [|f [|? ?]] eqn:Hfs; try (by eexists).
    destruct (fi_typeInfo f) as [q|] eqn:Hq; [|by eexists].
    apply (isOrInheritsFrom_ends N); [done|done|]. apply known_Some.
    apply (Hvs v f q); [by left|rewrite Hfs; by left|done]. }
  destruct Hlook as [b Hb]. cbn [classifyVariants]. rewrite Hb. cbn [mbind outcome_bind].
  assert (Hvs' : ∀ w f q, w ∈ vs → f ∈ ev_payloadFields w → fi_typeInfo f = Some q → exists_in s q).
  { intros w f q Hw. apply (Hvs w f q). by right. }
  simpl length. destruct b.
  - destruct (uc_errVariant out).
    + eexists _, _. split; [done|]. intros j Hj. specialize (Hout j Hj). lia.
    + destruct (IH (S i) (out <| uc_errVariant := Some i |>) Hvs') as (why & out' & E & H).
      { intros j Hj. specialize (Hout j Hj). lia. }
      exists why, out'. split; [done|]. intros j Hj. specialize (H j Hj). lia.
  - destruct (negb _).
    { eexists _, _. split; [done|]. intros j Hj. specialize (Hout j Hj). lia. }
    destruct (uc_okVariant out) eqn:Ho.
    + eexists _, _. split; [done|]. intros j Hj. rewrite Ho in Hj. specialize (Hout j Hj). lia.
    + destruct (IH (S i) (out <| uc_okVariant := Some i |>) Hvs') as (why & out' & E & H).
      { intros j [= <-]. lia. }
      exists why, out'. split; [done|]. intros j Hj. specialize (H j Hj). lia.
Qed.

Definition noPattern : UnwrapCatchPatternInfo := {| uc_okVariant := None; uc_errVariant := None |}.

Lemma classify_ends N s p :
  ok g N s → N < fuel → known p s →
  ∃ why out, classifyUnwrapCatchEnum fuel (ty_env s) p noPattern = Ret (why, out) ∧
    (why = None → ∃ q t j v, p = Some q ∧ resolve (ty_env s) q = Some t ∧ uc_okVariant out = Some j ∧
                  ti_enumVariantInfos t !! j = Some v).
Proof.
  intros Hok Hf Hp. destruct p as [q|]; [|by eexists _, _].
  destruct (Hp q eq_refl) as [t Ht]. unfold classifyUnwrapCatchEnum, deref. rewrite Ht.
  cbn [mbind outcome_bind]. destruct (negb (hasKind TK.Enum t)); [by eexists _, _|].
  destruct (negb _); [by eexists _, _|].
  destruct (classifyVariants_ends N s 0 (ti_enumVariantInfos t) noPattern Hok Hf) as (why & out & E & Hj).
  { intros v f r Hv Hfi Hr. eapply (held_known _ _ _ (Some q)); [done|exact Ht|].
    apply pointers_members. do 6 right. eauto. }
  { intros j [=]. }
  rewrite E. cbn [mbind outcome_bind]. destruct why as [why|]; [by eexists _, _|].
  destruct (uc_errVariant out); [|by eexists _, _]. destruct (uc_okVariant out) as [j|] eqn:Ho; [|by eexists _, _].
  exists None, out. split; [done|]. intros _. specialize (Hj j eq_refl). simpl in Hj.
  destruct (lookup_lt_is_Some_2 (ti_enumVariantInfos t) j Hj) as [v Hv].
  exists q, t, j, v. done.
Qed.

(** ** Steps that ask about types *)

Lemma safe_assignable s0 N l r :
  N <= fuel → known l s0 → known r s0 → safe s0 N (assignableT fuel l r) N any.
Proof.
  intros HN Hl Hr s Hs Hok.
  destruct (isAssignable_ends N s l r Hok HN) as [b Hb]; [by eapply known_grows..|].
  unfold assignableT, mbind, M_bind, getS. by rewrite Hb.
Qed.

Lemma safe_notAssignable s0 N l r :
  N <= fuel → known l s0 → known r s0 →
  safe s0 N (notAssignable fuel l r) N (λ b _, b = true → is_Some l ∧ is_Some r).
Proof.
  intros HN Hl Hr. destruct l as [l|], r as [r|]; try (by intros s Hs Hok).
  eapply safe_bind; [by apply safe_assignable|]. intros b s1 _ _ _ s Hs Hok.
  split_and!; [done..|]. intros _. split; by eexists.
Qed.

(** An operator found in the tables. *)
Definition in_operators (o : option OperatorInfo) (s : Typer) : Prop :=
  match o with
  | None => True
  | Some op => known (op_returnType op) s ∧ ∀ p, p ∈ op_paramTypes op → known p s
  end.

Lemma safe_findOperator s0 N p name :
  N < fuel → known p s0 → safe s0 N (findOperator g fuel p name) N in_operators.
Proof.
  intros HN Hp s Hs Hok.
  destruct (findInChain_ends N s p name Hok HN) as (o & Ho & Hin); [by eapply known_grows|].
  unfold findOperator, mbind, M_bind, getS. rewrite Ho. simpl. split_and!; [done..|].
  destruct o as [op|]; [|done]. destruct (Hin op eq_refl) as (x & ops & Hx & Hop). split.
  - intros q Hq. apply (ok_tables _ _ _ Hok). by eapply it_result.
  - intros r Hr q ->. apply (ok_tables _ _ _ Hok). by eapply it_param.
Qed.

Lemma safe_unwrap s0 N p : N < fuel → known p s0 → safe s0 N (unwrapSuccess fuel p) N known.
Proof.
  intros HN Hp s Hs Hok.
  destruct (classify_ends N s p Hok HN) as (why & out & E & Hwhy); [by eapply known_grows|].
  unfold unwrapSuccess, mbind, M_bind, getS. unfold noPattern in E. rewrite E. cbn [liftO].
  destruct why as [why|].
  { split_and!; [done..|]. by eapply known_grows. }
  destruct (Hwhy eq_refl) as (q & t & j & v & -> & Ht & Hj & Hv).
  unfold infoT, mbind, M_bind, getS, deref. rewrite Ht. cbn [liftO].
  rewrite Hj. cbn [option_bind]. unfold mbind. cbn [option_bind]. rewrite Hv.
  split_and!; [done..|]. unfold singlePayloadType.
  destruct (ev_payloadFields v) as [|f [|? ?]] eqn:Hf; [done| |done].
  intros r Hr. eapply (held_known _ _ _ (Some q)); [done|exact Ht|].
  apply pointers_members. do 6 right. exists v, f. split_and!; [by eapply list_elem_of_lookup_2|rewrite Hf; by left|done].
Qed.
End safety.

(** ** Automation

    [lift] carries what is known of a state over to a later one; [go] walks through a
    computation, with the triples of its steps from the hint database [typing]. *)

Lemma in_operators_grows s s' o : in_operators o s → grows s s' → in_operators o s'.
Proof.
  destruct o as [op|]; [|done]. intros [H H2] Hg. split; [by eapply known_grows|].
  intros p Hp. by eapply known_grows; [apply H2|].
Qed.

Lemma safe_error g s0 N position e msg : safe g s0 N (errorT position e msg) N (λ _ _, True).
Proof. apply safe_onChecker. Qed.
Lemma safe_warning g s0 N position e msg : safe g s0 N (warningT position e msg) N (λ _ _, True).
Proof. apply safe_onChecker. Qed.

#[export] Hint Resolve safe_error safe_warning safe_onChecker safe_lookup safe_infoOpt safe_info
  safe_name safe_ret safe_notAssignable safe_assignable safe_findOperator safe_unwrap safe_pointer
  denotes_known Nat.lt_le_incl : typing.

Ltac replace_by H pf := let H' := fresh in pose proof pf as H'; clear H; rename H' into H.

Ltac lift :=
  cbv beta in *;
  repeat match goal with
  | Hg : grows ?s _, H : known _ ?s |- _ => replace_by H (known_grows _ _ _ H Hg)
  | Hg : grows ?s _, H : denotes _ _ ?s |- _ => replace_by H (denotes_grows _ _ _ _ H Hg)
  | Hg : grows ?s _, H : exists_in ?s _ |- _ => replace_by H (exists_grows _ _ _ Hg H)
  | Hg : grows ?s _, H : in_operators _ ?s |- _ => replace_by H (in_operators_grows _ _ _ H Hg)
  end.

Ltac knows :=
  lazymatch goal with
  | |- known (match ?x with _ => _ end) _ => destruct x eqn:?; knows
  | |- _ => first [done | solve [eauto with typing] | by intros ? [= <-]; eauto with typing]
  end.

Ltac step :=
  lazymatch goal with
  | |- safe _ _ _ (mret _) _ known => apply safe_ret_known; knows
  | |- safe _ _ _ (mret _) _ (λ _ _, True) => apply safe_ret
  | |- safe _ _ _ (when _ _) _ _ => apply safe_when
  | |- safe _ _ _ (mbind _ _) _ _ =>
      first [eapply safe_bind; [solve [eauto with typing]|intros ? ? ? ? ?; lift]
            |refine (safe_bind _ _ _ _ _ _ _ (λ _ _, True) _ _ _); [|intros ? ? ? ? _; lift]]
  | |- safe _ _ _ (match ?x with _ => _ end) _ _ => destruct x eqn:?
  | |- safe _ _ _ _ _ _ => solve [eauto with typing]
  end.

(** Case analysis on the outermost condition. *)
Ltac split_if :=
  match goal with |- safe _ _ _ (if ?b then _ else _) _ _ => destruct b eqn:? end.

Section steps.
Context (g : Tables) (fuel N : nat) (position : expr → context).
Context (HN : N < fuel) (Hpos : 0 < N).

Lemma safe_numericOperands s0 e op lt rt : safe g s0 N (numericOperands position e op lt rt) N (λ _ _, True).
Proof. unfold numericOperands. repeat step. Qed.
Lemma safe_mixedOperands s0 e op l r lt rt :
  safe g s0 N (mixedOperands position e op l r lt rt) N (λ _ _, True).
Proof. unfold mixedOperands. repeat step. Qed.
Lemma safe_integerOperands s0 e op lt rt : safe g s0 N (integerOperands position e op lt rt) N (λ _ _, True).
Proof. unfold integerOperands, integerOperand. repeat step. Qed.

Lemma known_orElse a b s : known a s → known b s → known (orElse a b) s.
Proof. by destruct a. Qed.
Lemma known_wider (a b : TypeInfo) l r s : known l s → known r s → known (wider a b l r) s.
Proof. unfold wider. by destruct (_ <=? _)%Z. Qed.
Lemma known_sameKind also l r lt rt s : known l s → known r s → known (sameKindWider also l r lt rt) s.
Proof.
  intros Hl Hr. unfold sameKindWider.
  destruct lt, rt; try case_match; auto using known_orElse, known_wider.
Qed.
Lemma known_op o s : in_operators (Some o) s → known (op_returnType o) s.
Proof. by intros []. Qed.
Hint Resolve known_orElse known_wider known_sameKind known_op : typing.
Hint Resolve safe_numericOperands safe_mixedOperands safe_integerOperands : typing.

Lemma safe_overload s0 p t op k :
  known p s0 → (∀ s1, grows s0 s1 → safe g s1 N k N known) →
  safe g s0 N (orOverload g fuel p t op k) N known.
Proof.
  intros Hp Hk. unfold orOverload. eapply (safe_bind _ _ _ N _ _ _ known).
  - unfold resolveOpOverload. repeat step.
  - intros o s1 Hg _ Ho. destruct o; [by apply safe_ret_known|auto].
Qed.

Ltac overload := apply safe_overload; [knows|intros ? ?; lift].

Lemma safe_mul s0 e op l r lhs rhs : known lhs s0 → known rhs s0 →
  safe g s0 N (checkMul g fuel position e op l r lhs rhs) N known.
Proof. intros Hl Hr. unfold checkMul. do 2 step. overload. repeat step. Qed.

Lemma safe_addSub s0 e op l r lhs rhs : known lhs s0 → known rhs s0 →
  safe g s0 N (checkAddSub g fuel position e op l r lhs rhs) N known.
Proof.
  intros Hl Hr. unfold checkAddSub. do 2 step. repeat (case_match; [by repeat step|]).
  eapply (safe_bind _ _ _ N _ _ _ in_operators).
  - destruct (is_struct _); [by eauto with typing|]. by intros s Hs Hok.
  - intros o s' Hg _ Ho. lift. destruct o; repeat step.
Qed.

Lemma safe_shift s0 e op lhs rhs : known lhs s0 → known rhs s0 →
  safe g s0 N (checkShift g fuel position e op lhs rhs) N known.
Proof. intros Hl Hr. unfold checkShift. do 2 step. overload. repeat step. Qed.

Lemma safe_rel s0 e op l r lhs rhs : known lhs s0 → known rhs s0 →
  safe g s0 N (checkRel g fuel position e op l r lhs rhs) N known.
Proof. intros Hl Hr. unfold checkRel. do 2 step. overload. repeat step. Qed.

Lemma safe_eq s0 e op lhs rhs : known lhs s0 → known rhs s0 →
  safe g s0 N (checkEq g fuel position e op lhs rhs) N known.
Proof. intros Hl Hr. unfold checkEq. do 2 step. overload. repeat step. Qed.

Lemma safe_bitwise s0 e op l r lhs rhs : known lhs s0 → known rhs s0 →
  safe g s0 N (checkBitwise g fuel position e op l r lhs rhs) N known.
Proof. intros Hl Hr. unfold checkBitwise. do 2 step. overload. repeat step. Qed.

Lemma safe_logical s0 op lhs rhs : known lhs s0 → known rhs s0 →
  safe g s0 N (checkLogical g fuel op lhs rhs) N known.
Proof. intros Hl Hr. unfold checkLogical. step. overload. repeat step. Qed.

(** A message that names two types that are not assignable. *)
Lemma safe_mismatch {B} s0 l r (msg : string → string → T B) R (b : bool) (els : T B) :
  known l s0 → known r s0 → (b = true → is_Some l ∧ is_Some r) →
  (∀ x y s1, grows s0 s1 → safe g s1 N (msg x y) N R) → safe g s0 N els N R →
  safe g s0 N (if b then a ← nameT l; c ← nameT r; msg a c else els) N R.
Proof.
  intros Hl Hr Hb Hmsg Hels. destruct b; [|done].
  destruct Hb as [[l' ->] [r' ->]]; [done|].
  eapply safe_bind; [apply safe_name, Hl; done|]. intros a s1 Hg _ _. lift.
  eapply safe_bind; [apply safe_name, Hr; done|]. intros c s2 Hg2 _ _. apply Hmsg. by etrans.
Qed.

Ltac mismatch := eapply safe_mismatch; [knows|knows|done|by intros; repeat step|by repeat step].

Lemma safe_nullCoal s0 e lhs rhs : known lhs s0 → known rhs s0 →
  safe g s0 N (checkNullCoal fuel position e lhs rhs) N known.
Proof.
  intros Hl Hr. unfold checkNullCoal. step. step; [by repeat step|]. step. step; [mismatch|]. step.
Qed.

Lemma safe_range s0 e lhs rhs : known lhs s0 → known rhs s0 →
  safe g s0 N (checkRange position e lhs rhs) N known.
Proof. intros Hl Hr. unfold checkRange. repeat step. Qed.
Hint Resolve safe_mul safe_addSub safe_shift safe_rel safe_eq safe_bitwise safe_logical
  safe_nullCoal safe_range : typing.

Lemma safe_binary s0 e k op l r lhs rhs : known lhs s0 → known rhs s0 →
  safe g s0 N (resolveBinary g fuel position e k op l r lhs rhs) N known.
Proof. intros Hl Hr. unfold resolveBinary. repeat step. Qed.

(** *** Unary contexts *)

Lemma safe_incr s0 e inner op p : known p s0 → safe g s0 N (checkIncr position e inner op p) N known.
Proof. intros Hp. unfold checkIncr. repeat step. Qed.
Lemma safe_neg s0 e p : known p s0 → safe g s0 N (checkNeg position e p) N known.
Proof. intros Hp. unfold checkNeg. repeat step. Qed.
Lemma safe_bitNot s0 e p : known p s0 → safe g s0 N (checkBitNot position e p) N known.
Proof. intros Hp. unfold checkBitNot. repeat step. Qed.

Lemma safe_addrOf s0 inner p : known p s0 → safe g s0 N (checkAddrOf inner p) N known.
Proof.
  intros Hp. unfold checkAddrOf. destruct p as [p|]; [|by step].
  assert (exists_in s0 p) by auto. repeat step.
Qed.

(** The types an existing type points at exist. *)
Lemma held_by s0 N0 s p t (o : option tyref) :
  ok g N0 s → denotes p (Some t) s → (∀ q, o = Some q → q ∈ ti_pointers t) → s = s0 → known o s0.
Proof. intros Hok Hp Ho -> q Hq. eapply held_known; eauto. Qed.

Ltac held Hok Hp :=
  eapply (held_by _ _ _ _ _ _ Hok Hp); [|reflexivity];
  intros ? ?; apply pointers_members; eauto 8 using opt_held.

Lemma safe_deref s0 e p : known p s0 → safe g s0 N (checkDeref position e p) N known.
Proof.
  intros Hp. unfold checkDeref. eapply safe_bind; [by apply safe_infoOpt|].
  intros t s1 Hg Hok Ht. destruct t as [t|]; [|by step]. case_match; [by repeat step|].
  apply safe_ret_known. held Hok Ht.
Qed.

Lemma safe_await s0 e p : known p s0 → safe g s0 N (checkAwait position e p) N known.
Proof.
  intros Hp. unfold checkAwait. eapply safe_bind; [by apply safe_infoOpt|].
  intros t s1 Hg Hok Ht. lift. destruct t as [t|]; [|by repeat step].
  destruct (ti_elementType t) as [el|] eqn:Hel; [|by step].
  case_match; [|by step]. apply safe_ret_known. rewrite <-Hel. held Hok Ht.
Qed.

Lemma safe_up {A} s0 N0 N1 N2 (m : T A) R : N1 ≤ N2 → safe g s0 N0 m N1 R → safe g s0 N0 m N2 R.
Proof.
  intros Hle Hm s' Hs Hok. specialize (Hm s' Hs Hok). destruct (m s'); [|done..].
  destruct Hm as (? & ? & ?). split_and!; [done| |done]. by eapply ok_mono.
Qed.

Lemma safe_spawn s0 e p : known p s0 → safe g s0 N (checkSpawn position e p) (S N) known.
Proof.
  intros Hp. unfold checkSpawn. destruct p as [p|]; [|by apply safe_up with N; [lia|]; repeat step].
  assert (exists_in s0 p) by auto. do 2 step.
  match goal with |- safe _ _ _ (match ?c with _ => _ end) _ _ => destruct c end.
  { by apply safe_up with N; [lia|step]. }
  eapply (safe_bind _ _ _ (S N)).
  - eapply safe_push; [done|lia|lia| |right; lia]. intros q Hq.
    apply list_elem_of_singleton in Hq as ->. done.
  - intros q s3 _ _ Hq. by apply safe_ret_known.
Qed.

Hint Resolve safe_incr safe_neg safe_bitNot safe_addrOf safe_deref safe_await safe_spawn : typing.

Definition un_spawns (k : un_kind) : nat := match k with USpawn => 1 | _ => 0 end.

Lemma safe_unary s0 e k inner p : known p s0 →
  safe g s0 N (resolveUnary fuel position e k inner p) (N + un_spawns k) known.
Proof.
  intros Hp. destruct k; simpl; rewrite ?Nat.add_0_r; try by eauto with typing.
  - rewrite Nat.add_1_r. by apply safe_spawn.
  - by apply safe_ret_known.
Qed.

(** *** Tuples *)

Lemma safe_mapM {A B} (P : A → Typer → Prop) (f : A → T B) s0 l :
  (∀ a s s', P a s → grows s s' → P a s') → (∀ a s, P a s → safe g s N (f a) N (λ _ _, True)) →
  (∀ a, a ∈ l → P a s0) → safe g s0 N (mapM_ f l) N (λ _ _, True).
Proof.
  intros Hmono Hf. revert s0. induction l as [|a l IH]; intros s0 Hl; [apply safe_ret|]. simpl.
  eapply safe_bind; [by apply Hf, Hl; left|]. intros b s1 Hg _ _.
  eapply safe_bind; [apply IH|intros; apply safe_ret].
  intros a' Ha'. eapply Hmono; [apply Hl; by right|done].
Qed.

Lemma safe_tupleType s0 elems : (∀ p, p ∈ elems → exists_in s0 p) → safe g s0 N (tupleType elems) N known.
Proof.
  intros Hl. unfold tupleType. eapply safe_bind.
  { apply (safe_mapM (λ p s, exists_in s p)); [|by intros; repeat step|done].
    intros p s s' Hp Hg. by eapply exists_grows. }
  intros names s1 Hg Hok _ s Hs Hoks. unfold mbind, M_bind, getS.
  destruct (list_find _ _) as [[i t]|] eqn:Hf.
  - split_and!; [done..|]. apply known_Some. apply list_find_Some in Hf as [Hi _]. by exists t.
  - set (t := _ <| ti_tupleElements := _ |>).
    assert (Hpush : safe g s0 N (p ← pushT t; mret (Some p)) N known).
    { eapply (safe_bind _ _ _ N _ _ _ (λ p, known (Some p))); [|intros p s' _ _ Hp; by apply safe_ret_known].
      eapply safe_push; [done|lia|done| |by left]. intros q Hq. apply Hl.
      change (q ∈ (p ← Some <$> elems; opt_list p) ++ [] ++ []) in Hq. rewrite !app_nil_r in Hq.
      apply list_elem_of_bind in Hq as (o & Ho & Hq). apply list_elem_of_fmap in Hq as (r & -> & Hr).
      by apply list_elem_of_singleton in Ho as ->. }
    by apply (Hpush s (transitivity Hg Hs)).
Qed.

(** A tuple whose elements exist. *)
Definition tuple_ok (t : option TypeInfo) (s : Typer) : Prop :=
  match t with None => True | Some t => ∀ q, Some q ∈ ti_tupleElements t → exists_in s q end.

Lemma denotes_tuple s p t : ok g N s → denotes p t s → tuple_ok t s.
Proof.
  intros Hok Hp. destruct t as [t|]; [|done]. intros q Hq. eapply held_known; [done..|].
  apply pointers_members. tauto.
Qed.

Lemma safe_tupleBase s0 e arrow dot p : known p s0 →
  safe g s0 N (tupleBase position e arrow dot p) N tuple_ok.
Proof.
  intros Hp. unfold tupleBase. eapply safe_bind; [by apply safe_infoOpt|].
  intros t s1 Hg Hok Ht. destruct t as [t|]; [|by intros s Hs Hoks].
  assert (Hnone : ∀ s msg, safe g s N (errorT position e msg;; mret None) N tuple_ok).
  { intros s msg. step. by intros ? ? ?. }
  destruct arrow.
  - case_match; [apply Hnone|].
    eapply safe_bind; [apply safe_infoOpt; held Hok Ht|].
    intros pt s2 Hg2 Hok2 Hpt. destruct pt as [pt|]; [|by intros s Hs Hoks].
    case_match; [|apply Hnone]. intros s Hs Hoks. split_and!; [done..|].
    eapply denotes_tuple; [done|]. by eapply denotes_grows.
  - case_match; [|apply Hnone]. intros s Hs Hoks. split_and!; [done..|].
    eapply denotes_tuple; [done|]. by eapply denotes_grows.
Qed.

Lemma safe_tupleElement s0 e i note t : tuple_ok (Some t) s0 →
  safe g s0 N (tupleElement position e i note t) N known.
Proof.
  intros Ht. unfold tupleElement. case_match; [by repeat step|]. apply safe_ret_known.
  intros q Hq. destruct (ti_tupleElements t !! Z.to_nat i) as [o|] eqn:Hi; simplify_eq/=.
  apply Ht. by eapply list_elem_of_lookup_2.
Qed.

Lemma safe_stoi s0 text : safe g s0 N (liftO (stoi text)) N (λ _ _, True).
Proof.
  apply safe_throw. intros _. unfold stoi, stoll.
  destruct (strtol_core 10 text) as [[v r]|]; [|done]. destruct (in_int64 v); [|done].
  cbn [mbind outcome_bind]. by destruct (_ && _).
Qed.

Lemma tuple_grows s s' t : tuple_ok t s → grows s s' → tuple_ok t s'.
Proof. destruct t; [|done]. intros H Hg q Hq. eapply exists_grows; eauto. Qed.

Lemma safe_tupleIndex s0 e arrow p text : known p s0 →
  safe g s0 N (checkTupleIndex position e arrow p text) N known.
Proof.
  intros Hp. unfold checkTupleIndex. eapply safe_bind; [by apply safe_tupleBase|].
  intros t s1 _ _ Ht. destruct t as [t|]; [|by step].
  eapply safe_bind; [apply safe_stoi|]. intros i s2 Hg _ _.
  apply safe_tupleElement. by apply (tuple_grows s1).
Qed.

Lemma safe_chained s0 e arrow p text : known p s0 →
  safe g s0 N (checkChainedTupleIndex position e arrow p text) N known.
Proof.
  intros Hp. unfold checkChainedTupleIndex. eapply safe_bind; [by apply safe_tupleBase|].
  intros t s1 _ _ Ht. destruct t as [t|]; [|by step].
  eapply safe_bind; [apply safe_stoi|]. intros i s2 Hg _ _.
  eapply safe_bind; [apply safe_stoi|]. intros j s3 Hg3 _ _.
  eapply safe_bind; [apply safe_tupleElement, (tuple_grows s1); [done|by etrans]|].
  intros inner s4 Hg4 _ Hin.
  match goal with |- safe _ _ _ (if ?b then _ else _) _ _ => destruct b end; [by step|].
  eapply safe_bind; [by apply safe_infoOpt|]. intros it s5 Hg5 Hok5 Hit.
  destruct it as [it|]; [|by repeat step]. case_match; [|by repeat step].
  apply safe_tupleElement. by apply (denotes_tuple _ inner).
Qed.

(** *** Casts, accesses and indexing *)

Lemma safe_cast s0 N2 e src dst dims m : N ≤ N2 → known src s0 → known dst s0 →
  (∀ s, safe g s N m N2 (λ _ _, True)) →
  safe g s0 N (checkCast position e src dst dims m) N2 known.
Proof.
  intros HN2 Hs Hd Hm. unfold checkCast.
  destruct src as [s|]; [|by apply (safe_up _ N N); [|step]].
  destruct dst as [d|]; [|by apply (safe_up _ N N); [|step]].
  split_if; [by apply (safe_up _ N N); [|step]|]. eapply safe_bind; [apply Hm|]. intros n s1 Hg _ _. lift.
  assert (exists_in s1 s) by auto. assert (exists_in s1 d) by auto.
  eapply safe_bind; [by apply safe_info|]. intros st s2 Hg2 Hok2 Hst. lift.
  change ((denotes (Some s) ∘ Some) st s2) with (denotes (Some s) (Some st) s2) in Hst.
  eapply safe_bind; [by apply safe_info|]. intros dt s3 Hg3 Hok3 Hdt. lift.
  change ((denotes (Some d) ∘ Some) dt s3) with (denotes (Some d) (Some dt) s3) in Hdt.
  split_if; [by step|].
  eapply safe_bind; [apply safe_infoOpt; case_match; [held Hok3 Hst|done]|]. intros sp s4 Hg4 Hok4 _. lift.
  eapply safe_bind; [apply safe_infoOpt; case_match; [held Hok4 Hdt|done]|]. intros dp s5 Hg5 _ _. lift.
  repeat step.
Qed.

Lemma field_known s p t name f : ok g N s → denotes p (Some t) s →
  findField name (ti_fields t) = Some f → known (fi_typeInfo f) s.
Proof.
  intros Hok Hp Hf. unfold findField in Hf.
  destruct (list_find _ _) as [[i f']|] eqn:E; simplify_eq/=. apply list_find_Some in E as [Hi _].
  intros q Hq. eapply held_known; [done..|]. apply pointers_members. do 4 right. left.
  exists f. split; [by eapply list_elem_of_lookup_2|done].
Qed.

Lemma safe_arrow s0 e p name : known p s0 → safe g s0 N (checkArrowAccess position e p name) N known.
Proof.
  intros Hp. unfold checkArrowAccess. eapply safe_bind; [by apply safe_infoOpt|].
  intros t s1 Hg Hok Ht. destruct t as [t|]; [|by step]. split_if; [by repeat step|].
  eapply safe_bind; [apply safe_infoOpt; held Hok Ht|]. intros pt s2 Hg2 Hok2 Hpt.
  destruct pt as [pt|]; [|by step]. split_if; [by repeat step|].
  destruct (findField name (ti_fields pt)) as [f|] eqn:Hf; [|by repeat step].
  apply safe_ret_known. by eapply field_known.
Qed.

(** A base type, through a pointer if it is one. *)
Lemma safe_throughPointer s0 p t : ok g N s0 → denotes p t s0 →
  safe g s0 N (match t with
     | Some bt => match ti_pointeeType bt with
                  | Some q => if hasKind TK.Pointer bt then infoOpt (Some q) else mret t
                  | None => mret t
                  end
     | None => mret None
     end) N (λ t s, ∃ p, denotes p t s).
Proof.
  intros Hok Hp. destruct t as [bt|]; [|by intros s Hs Hoks; split_and!; [done..|exists None]].
  assert (Hret : safe g s0 N (mret (Some bt)) N (λ t s, ∃ p, denotes p t s)).
  { intros s Hs Hoks. split_and!; [done..|]. exists p. by eapply denotes_grows. }
  destruct (ti_pointeeType bt) as [q|] eqn:Hq; [|done]. case_match; [|done].
  eapply safe_weaken; [|apply safe_infoOpt; rewrite <-Hq; held Hok Hp]. intros t s Ht. by eexists.
Qed.

Lemma safe_state s0 : safe g s0 N getS N (λ s s', s = s').
Proof. intros s Hs Hok. by split_and!. Qed.

Lemma safe_field s0 e b p name : known p s0 → safe g s0 N (checkFieldAccess g position e b p name) N known.
Proof.
  intros Hp. unfold checkFieldAccess. eapply safe_bind; [apply safe_state|].
  intros st s1 Hg _ _. lift. eapply safe_bind; [by apply safe_infoOpt|].
  intros t s2 Hg2 Hok2 Ht. split_if; [by step|].
  eapply safe_bind; [by eapply safe_throughPointer|]. intros t' s3 Hg3 Hok3 [p' Ht'].
  destruct t' as [bt|]; [|by step].
  split_if; [by repeat step|].
  split_if; [|by repeat step].
  destruct (findField name (ti_fields bt)) as [f|] eqn:Hf; [|by repeat step].
  apply safe_ret_known. by eapply field_known.
Qed.

Lemma safe_elementIndex s0 N2 e base bt it m : known base s0 → denotes base bt s0 → ok g N s0 →
  (∀ s, safe g s N m N2 (λ _ _, True)) →
  safe g s0 N (checkElementIndex position e base bt it m) N2 known.
Proof.
  intros Hb Hbt Hok Hm. unfold checkElementIndex.
  step; [by repeat step|]. eapply safe_bind; [apply Hm|]. intros n s2 Hg2 Hok2 _. lift.
  split_if; [by step|].
  set (derefType := match bt with Some t => _ | None => _ end).
  assert (Hd : known derefType s2).
  { subst derefType. destruct bt as [t|]; [|done]. case_match; [|done].
    apply known_orElse; [held Hok2 Hbt|done]. }
  eapply safe_bind; [by apply safe_infoOpt|]. intros dt s3 Hg3 Hok3 Hdt. lift.
  destruct dt as [t|]; [|by step]. split_if.
  - eapply safe_bind; [apply safe_infoOpt; held Hok3 Hdt|]. intros el s4 _ _ _. repeat step.
  - destruct (if hasKind TK.Extended t then _ else _) as [el|] eqn:Hel; [|by repeat step].
    apply safe_ret_known. rewrite <-Hel. case_match; [|done]. held Hok3 Hdt.
Qed.

Lemma safe_index s0 N2 e i base index m : N ≤ N2 → known base s0 → known index s0 →
  (∀ s, safe g s N m N2 (λ _ _, True)) →
  safe g s0 N (checkIndex g fuel position e i base index m) N2 known.
Proof.
  intros HN2 Hb Hi Hm. unfold checkIndex. eapply safe_bind; [by apply safe_infoOpt|].
  intros bt s1 Hg1 Hok1 Hbt. lift. eapply safe_bind; [by apply safe_infoOpt|].
  intros it s2 Hg2 Hok2 Hit. lift.
  eapply (safe_bind _ _ _ N _ _ _ in_operators).
  { destruct (is_struct bt); [by eauto with typing|]. by intros s Hs Hok. }
  intros op s3 Hg3 Hok3 Hop. lift. destruct op as [op|].
  - apply (safe_up _ N N); [done|]. step; [|by repeat step].
    destruct (op_paramTypes op !! 1) as [p|] eqn:Hp; [|by step].
    assert (known p s3) by (apply Hop; by eapply list_elem_of_lookup_2).
    step. mismatch.
  - destruct bt as [t|]; [|by apply safe_elementIndex].
    destruct (if hasKind TK.Extended t then _ else _) as [k|] eqn:Hk.
    + apply (safe_up _ N N); [done|].
      assert (Hkk : known (Some k) s3) by (rewrite <-Hk; case_match; [held Hok3 Hbt|done]).
      step. step; [mismatch|].
      destruct (ti_valueType t) as [v|] eqn:Hv; [|by repeat step].
      apply safe_ret_known. rewrite <-Hv.
      match goal with Hok : ok g N ?s |- known _ ?s => held Hok Hbt end.
    + split_if; [by apply (safe_up _ N N); [|repeat step]|]. by apply safe_elementIndex.
Qed.
End steps.

(** ** The whole

    The parameters are assumed to keep the invariant and to give types that exist, which nest
    at most [D] levels deeper than the types before. *)

#[export] Hint Resolve safe_binary : typing.

Section whole.
Context (g : Tables) (fuel : nat) (position : expr → context).
Context (resolveTypeSpec resolveTypeSpecInContext : option string → T (option tyref * Z)).
Context (constTypeSpec : string → option TypeInfo).
Context (declarator : ExportedSymbol → option Declarator).
Context (resolveRest : expr → T (option tyref)) (restDims : expr → T Z).
Context (D : nat).

Definition gives_type {A} (p : A → option tyref) (m : T A) : Prop :=
  ∀ s0 N, 0 < N → N + D < fuel → safe g s0 N m (N + D) (λ a, known (p a)).

Record parameters_safe : Prop := {
  ps_spec ts : gives_type fst (resolveTypeSpec ts);
  ps_spec_in ts : gives_type fst (resolveTypeSpecInContext ts);
  ps_decl sym cd init : declarator sym = Some cd → cd_expression cd = Some init → gives_type id init;
  ps_rest e : gives_type id (resolveRest e);
  ps_dims e s0 N : 0 < N → N + D < fuel → safe g s0 N (restDims e) (N + D) (λ _ _, True) }.

Context (Hps : parameters_safe).

Section fixed.
Context (N : nat) (HN : N < fuel) (Hpos : 0 < N).

Lemma safe_declared s0 sym cd : N + (D + D) < fuel → declarator sym = Some cd →
  safe g s0 N (declaredType resolveTypeSpec cd) (N + (D + D)) known.
Proof.
  intros HND Hcd. unfold declaredType. eapply (safe_bind _ _ _ (N + D) _ _ _ known).
  - destruct (cd_typeSpec cd) as [ts|]; [|by apply (safe_up _ _ N N); [lia|step]].
    eapply safe_bind; [apply (ps_spec Hps); lia|]. intros r s1 _ _ Hr. by apply safe_ret_known.
  - intros t s1 Hg Hok Ht. destruct t as [t|]; [by apply (safe_up _ _ (N + D) (N + D)); [lia|step]|].
    destruct (cd_expression cd) as [init|] eqn:Hi; [|by apply (safe_up _ _ (N + D) (N + D)); [lia|step]].
    rewrite Nat.add_assoc. apply (ps_decl Hps sym cd); [done..|lia|lia].
Qed.

(** An identifier that is no imported constant needs no new types. *)
Lemma safe_ident s0 e name : N + (D + D) < fuel →
  safe g s0 N (resolveIdent g position resolveTypeSpec declarator e name) (N + (D + D)) known.
Proof.
  intros HND.
  assert (Hstay : ∀ s m, safe g s N m N known → safe g s N m (N + (D + D)) known).
  { intros s m. apply safe_up. lia. }
  unfold resolveIdent. eapply safe_bind; [apply safe_state|]. intros st s1 Hg Hok ->.
  destruct (locals_ _ !! name) as [vi|].
  { apply Hstay. step. step; [by repeat step|]. step. apply safe_ret_known.
    destruct (ty_varTypes s1 !! name) as [o|] eqn:Ho; [|done].
    intros q Hq. simpl in Hq. subst o. match goal with H1 : grows s1 ?a, H2 : grows ?a ?b, H3 : grows ?b ?c |- exists_in ?c _ =>
      apply (exists_grows s1); [by etrans; [etrans|]|] end.
    by eapply ok_vars. }
  assert (Htab : ∀ p, (∀ q, p = Some q → in_tables g q) → safe g s1 N (mret p) (N + (D + D)) known).
  { intros p Hp. apply Hstay, safe_ret_known. intros q Hq. by eapply ok_tables; [|apply Hp]. }
  destruct (functions_ g !! name) as [t|] eqn:Hfn.
  { apply Htab. intros q ->. by eapply it_function. }
  split_if; [by apply Hstay; step|].
  destruct (cEnumConstants_ g !! name) as [c|] eqn:Hce.
  { apply Htab. intros q Hq. by eapply it_enum. }
  destruct (cGlobals_ g !! name) as [t|] eqn:Hcg.
  { apply Htab. intros q ->. by eapply it_global. }
  split_if; [by apply Hstay; repeat step|].
  destruct (userImports_ g !! name) as [modPath|].
  { destruct (moduleRegistry_ g ≫= _) as [sym|]; [|by apply Hstay; step].
    split_if; [|by apply Hstay; repeat step].
    eapply (safe_bind _ _ _ (N + (D + D)) _ _ _ known).
    - destruct (declarator sym) as [cd|] eqn:Hcd; [by eapply safe_declared|by apply Hstay; step].
    - intros t s2 _ _ Ht. destruct t; [by apply safe_ret_known|by step]. }
  destruct (enumVariantImports_ g !! name) as [t|] eqn:Hev.
  { apply Htab. intros q ->. by eapply it_variant. }
  split_if; [by apply Hstay; step|]. split_if; [by apply Hstay; repeat step|]. by apply Hstay; repeat step.
Qed.

Lemma safe_literal s0 k text : safe g s0 N (resolveLiteral k text) N known.
Proof.
  unfold resolveLiteral. split_if; [by repeat step|]. destruct k; try by step.
  intros s Hs Hok. destruct (ok_char _ _ _ Hok) as [t Ht].
  unfold lookupT, mbind, M_bind, getS, reg_lookup_ref. simpl. rewrite Ht. simpl.
  pose proof (safe_pointer g s N (RegT "char") Hpos) as Hp.
  specialize (Hp (ex_intro _ t Ht) s (reflexivity _) Hok).
  by destruct (pointerT (RegT "char") s).
Qed.

(** A specifier first, which may make [D] levels. *)
Lemma safe_spec {A} s0 ts (f : option tyref * Z → T A) R : N + D < fuel →
  (∀ r s1, grows s0 s1 → 0 < N + D → known r.1 s1 → safe g s1 (N + D) (f r) (N + D) R) →
  safe g s0 N (resolveTypeSpec ts ≫= f) (N + D) R.
Proof.
  intros HND Hf. eapply safe_bind; [by apply (ps_spec Hps)|]. intros r s1 Hg _ Hr.
  apply Hf; [done|lia|done].
Qed.

Lemma safe_spec_in {A} s0 ts (f : option tyref * Z → T A) R : N + D < fuel →
  (∀ r s1, grows s0 s1 → 0 < N + D → known r.1 s1 → safe g s1 (N + D) (f r) (N + D) R) →
  safe g s0 N (resolveTypeSpecInContext ts ≫= f) (N + D) R.
Proof.
  intros HND Hf. eapply safe_bind; [by apply (ps_spec_in Hps)|]. intros r s1 Hg _ Hr.
  apply Hf; [done|lia|done].
Qed.

Lemma safe_enumAccess s0 e a b : N + D < fuel →
  safe g s0 N (checkEnumAccess g position resolveTypeSpec declarator e a b) (N + D) known.
Proof.
  intros HND. unfold checkEnumAccess.
  match goal with |- safe _ _ _ (match ?c with _ => _ end) _ _ => destruct c as [cd|] end.
  { apply safe_spec; [done|]. intros r s1 _ _ Hr. by apply safe_ret_known. }
  apply (safe_up _ _ N N); [lia|]. step. eapply (safe_bind _ _ _ N _ _ _ known).
  { repeat step. }
  intros t s2 Hg2 _ Ht. repeat step.
Qed.

Lemma safe_is s0 e p ts v : N + D < fuel → known p s0 →
  safe g s0 N (checkIs position resolveTypeSpecInContext e p ts v) (N + D) known.
Proof.
  intros HND Hp. unfold checkIs. apply safe_spec_in; [done|]. intros r s1 Hg Hpd Hr. lift.
  do 3 step; [|by step]. repeat step.
Qed.

Lemma safe_sizeof s0 e ts : N + D < fuel →
  safe g s0 N (checkSizeof position resolveTypeSpecInContext e ts) (N + D) known.
Proof.
  intros HND. unfold checkSizeof, unknownType. split_if; [by apply (safe_up _ _ N N); [lia|repeat step]|].
  apply safe_spec_in; [done|]. intros r s1 _ Hpd Hr. lift. repeat step.
Qed.

Lemma safe_alignof s0 e ts : N + D < fuel →
  safe g s0 N (checkAlignof position resolveTypeSpec e ts) (N + D) known.
Proof.
  intros HND. unfold checkAlignof, unknownType.
  apply safe_spec; [done|]. intros r s1 _ Hpd Hr. lift. repeat step.
Qed.

Lemma safe_offsetof s0 e ts f : N + D < fuel →
  safe g s0 N (checkOffsetof position resolveTypeSpec e ts f) (N + D) known.
Proof.
  intros HND. unfold checkOffsetof. apply safe_spec; [done|]. intros r s1 _ Hpd Hr. lift. repeat step.
Qed.

Lemma safe_atType s0 e n ts : N + D < fuel →
  safe g s0 N (checkAtType position resolveTypeSpec e n ts) (N + D) known.
Proof.
  intros HND. unfold checkAtType. apply safe_spec; [done|]. intros r s1 _ Hpd Hr. lift. repeat step.
Qed.

Lemma safe_atPtr s0 N2 e a p dims m : N ≤ N2 → known p s0 → (∀ s, safe g s N m N2 known) →
  safe g s0 N (checkAtPtr position e a p dims m) N2 known.
Proof.
  intros HN2 Hp Hm. unfold checkAtPtr.
  destruct p as [p|]; [|by apply (safe_up _ _ N N); [|repeat step]].
  split_if; [by apply (safe_up _ _ N N); [|repeat step]|].
  eapply safe_bind; [by apply Hm|]. intros q s1 Hg _ Hq. lift.
  assert (exists_in s1 p) by auto. assert (0 < N2) by lia. repeat step.
Qed.

Lemma safe_tryOr s0 e p q : known p s0 → known q s0 → safe g s0 N (checkTryOr fuel position e p q) N known.
Proof.
  intros Hp Hq. unfold checkTryOr. step.
  eapply safe_mismatch; [done|done|naive_solver| |by step]. intros. repeat step.
Qed.

Lemma safe_ternaryCondition s0 e p : known p s0 →
  safe g s0 N (ternaryCondition position e p) N (λ _ _, True).
Proof. intros Hp. unfold ternaryCondition. repeat step. Qed.

Lemma safe_ternary s0 e p q : known p s0 → known q s0 →
  safe g s0 N (checkTernary fuel position e p q) N known.
Proof.
  intros Hp Hq. unfold checkTernary. step. step; [|by apply safe_ret_known, known_orElse].
  eapply safe_mismatch; [done..| |by step]. intros. repeat step.
Qed.

Lemma safe_arrayElement s0 e x y p q : known p s0 → known q s0 →
  safe g s0 N (checkArrayElement fuel position e x y p q) N (λ _ _, True).
Proof.
  intros Hp Hq. unfold checkArrayElement. step. step; [|by repeat step].
  eapply safe_mismatch; [done..| |by step]. intros. repeat step.
Qed.
End fixed.

Notation res := (resolveExprType g fuel position resolveTypeSpec resolveTypeSpecInContext constTypeSpec
  declarator resolveRest restDims).
Notation dims := (resolveExprArrayDims g fuel position resolveTypeSpec resolveTypeSpecInContext
  constTypeSpec declarator resolveRest restDims).

(** How many levels of types typing an expression can add: those of its [Task] types and of
    its specifiers; the operand of a cast and the base of an index are looked at twice. *)
Fixpoint spawns (e : expr) : nat :=
  match e with
  | EUnary k e => un_spawns k + spawns e
  | EParen e | ETypeof e | EField _ e _ | ETupleIndex _ e _ | EChainedTupleIndex _ e _ => spawns e
  | EIdent _ => D + D
  | EEnumAccess _ _ | ESizeof _ | EAlignof _ | EOffsetof _ _ | EAtType _ _ => D
  | EIs e _ _ => spawns e + D
  | EAtPtr _ _ e => D + spawns e
  | ECast e _ => spawns e + D + spawns e
  | EIndex b i => spawns b + spawns i + spawns b
  | EBin _ _ l r | ETryOr l r => spawns l + spawns r
  | ETernary c t f => spawns c + spawns t + spawns f
  | ETuple es | EArray es => sum_list_with spawns es
  | ELit _ _ | ECfg _ _ => 0
  | ECall _ _ | EStaticCall _ _ | EMethodCall _ _ _ | EGenericEnumAccess _ _ _ | EInit _ _ _
  | EMatch _ _ _ | EOther _ _ _ => D
  end.

(** No [@cfg], whose constant can run into undefined behaviour. *)
Fixpoint no_cfg (e : expr) : bool :=
  match e with
  | ECfg _ _ => false
  | EUnary _ e | EParen e | ETypeof e | EField _ e _ | ETupleIndex _ e _ | EChainedTupleIndex _ e _
  | EIs e _ _ | EAtPtr _ _ e | ECast e _ => no_cfg e
  | EIndex l r | EBin _ _ l r | ETryOr l r => no_cfg l && no_cfg r
  | ETernary c t f => no_cfg c && no_cfg t && no_cfg f
  | ETuple es | EArray es => forallb no_cfg es
  | _ => true
  end.

(** The depth is restored on every way out. *)
Lemma safe_depth N N' e (m : T (option tyref)) :
  N ≤ N' → (∀ s0, safe g s0 N m N' known) → ∀ s0, safe g s0 N (withDepth position e m) N' known.
Proof.
  intros HN Hm s0 s Hs Hok. unfold withDepth.
  set (s1 := s <| ty_recursionDepth := _ |>).
  assert (Hok1 : ok g N s1) by (by destruct Hok).
  assert (Hback : ∀ s', grows s1 s' →
    grows s (s' <| ty_recursionDepth := (ty_recursionDepth s' - 1)%Z |>)).
  { intros s' [He Hv Hd]. split; [done|done|]. simpl. rewrite Hd. simpl. lia. }
  match goal with |- context [(if ?b then ?a else m) s1] => set (body := if b then a else m) in * end.
  assert (Hbody : safe g s1 N body N' known).
  { unfold body. split_if; [|apply Hm]. eapply safe_up; [done|]. repeat step. }
  specialize (Hbody s1 (reflexivity _) Hok1). destruct (body s1) as [t s'|x s'| |]; [|by apply Hback|done..].
  destruct Hbody as (Hg & Hok' & Ht). split_and!; [by apply Hback|by destruct Hok'|done].
Qed.

Definition sound_at (e : expr) : Prop := ∀ s0 N, 0 < N → N + spawns e < fuel → no_cfg e = true →
  safe g s0 N (res e) (N + spawns e) known ∧ safe g s0 N (dims e) (N + spawns e) (λ _ _, True).

Lemma safe_tupleElems es : Forall sound_at es → ∀ s0 N, 0 < N →
  N + sum_list_with spawns es < fuel → forallb no_cfg es = true →
  safe g s0 N
    ((fix go (l : list expr) : T (option (list tyref)) :=
        match l with
        | [] => mret (Some [])
        | x :: l =>
            t ← res x;
            match t with
            | None => mret None
            | Some p => r ← go l; mret ((λ ps, p :: ps) <$> r)
            end
        end) es) (N + sum_list_with spawns es)
    (λ ps s, ∀ l p, ps = Some l → p ∈ l → exists_in s p).
Proof.
  induction 1 as [|x es Hx Hes IH]; intros s0 N Hpos HN Hc; simpl in HN, Hc |- *.
  { rewrite Nat.add_0_r. intros s Hs Hok. split_and!; [done..|]. intros l p [= <-] Hp.
    by apply not_elem_of_nil in Hp. }
  apply andb_true_iff in Hc as [Hcx Hces].
  destruct (Hx s0 N) as [Hr _]; [lia..|done|].
  eapply safe_bind; [exact Hr|]. intros t s1 Hg _ Ht. destruct t as [p|].
  - rewrite Nat.add_assoc. eapply safe_bind; [apply IH; [lia..|done]|].
    intros ps s2 Hg2 _ Hin. lift. intros s Hs Hok. split_and!; [done..|].
    intros l q Hl Hq. destruct ps as [ps|]; simplify_eq/=.
    apply (exists_grows s2); [done|]. apply elem_of_cons in Hq as [->|Hq]; [by apply Ht|by eapply Hin].
  - apply safe_up with (N + spawns x); [lia|]. by intros s Hs Hok.
Qed.

Lemma safe_arrayElems e x es : Forall sound_at es → ∀ t s0 N, 0 < N → known t s0 →
  N + sum_list_with spawns es < fuel → forallb no_cfg es = true →
  safe g s0 N
    ((fix go (l : list expr) : T unit :=
        match l with
        | [] => mret ()
        | y :: l => u ← res y; checkArrayElement fuel position e x y t u;; go l
        end) es) (N + sum_list_with spawns es) (λ _ _, True).
Proof.
  induction 1 as [|y es Hy Hes IH]; intros t s0 N Hpos Ht HN Hc; simpl in HN, Hc |- *.
  { rewrite Nat.add_0_r. apply safe_ret. }
  apply andb_true_iff in Hc as [Hcy Hces].
  destruct (Hy s0 N) as [Hr _]; [lia..|done|].
  eapply safe_bind; [exact Hr|]. intros u s1 Hg _ Hu. lift.
  eapply safe_bind; [apply safe_arrayElement; [lia|done..]|]. intros _ s2 Hg2 _ _. lift.
  rewrite Nat.add_assoc. apply IH; [lia|done|lia|done].
Qed.

(** A sub-expression first. *)
Lemma safe_sub {A} s0 N N' e (f : option tyref → T A) R :
  sound_at e → 0 < N → N + spawns e < fuel → no_cfg e = true →
  (∀ p s1, grows s0 s1 → known p s1 → safe g s1 (N + spawns e) (f p) N' R) →
  safe g s0 N (res e ≫= f) N' R.
Proof.
  intros He Hpos HN Hc Hf. destruct (He s0 N) as [Hr _]; [done..|].
  eapply safe_bind; [exact Hr|]. intros p s1 Hg _ Hp. by apply Hf.
Qed.

Ltac sub := apply safe_sub; [done|lia|lia|done|intros ? ? ? ?; lift].
Ltac side := first [lia|done].
Ltac fits := match goal with |- safe _ _ ?n _ ?m _ => replace m with n by lia end.

Lemma sound_dims s0 N e : sound_at e → 0 < N → N + spawns e < fuel → no_cfg e = true →
  safe g s0 N (dims e) (N + spawns e) (λ _ _, True).
Proof. intros He Hpos HN Hc. by destruct (He s0 N). Qed.

(** The two contexts that ask for dimensions. *)
Lemma res_cast e ts : res (ECast e ts) = withDepth position (ECast e ts) (
  src ← res e; r ← resolveTypeSpecInContext (Some ts);
  checkCast position (ECast e ts) src r.1 r.2 (dims e)).
Proof. reflexivity. Qed.
Lemma res_index b i : res (EIndex b i) = withDepth position (EIndex b i) (
  tb ← res b; ti ← res i; checkIndex g fuel position (EIndex b i) i tb ti (dims b)).
Proof. reflexivity. Qed.

Lemma safe_res e : Forall sound_at (children e) → ∀ s0 N, 0 < N → N + spawns e < fuel →
  no_cfg e = true → safe g s0 N (res e) (N + spawns e) known.
Proof.
  intros IH s0 N Hpos HN Hc.
  assert (Hrest : N + D < fuel → ∀ s0, safe g s0 N (resolveRest e) (N + D) known) by (intros; by apply (ps_rest Hps)).
  destruct e; rewrite ?res_cast, ?res_index; cbn [resolveExprType]; cbn [spawns no_cfg Syntax.children] in *;
    (apply safe_depth; [lia|]);
    clear s0; intros s0; split_free;
    repeat match goal with H : Forall _ (_ :: _) |- _ => apply Forall_cons in H as [? H] end;
    rewrite ?Nat.add_0_r; try done; try (by apply Hrest).
  - by apply safe_literal.
  - apply safe_ident; lia.
  - by apply H.
  - sub. replace (N + (un_spawns k + spawns e)) with (N + spawns e + un_spawns k) by lia.
    apply safe_unary; side.
  - sub. sub. fits. apply safe_binary; side.
  - sub. eapply safe_bind; [apply safe_ternaryCondition; side|]. intros _ s9 Hg9 _ _. lift.
    sub. sub. fits. apply safe_ternary; side.
  - sub. eapply safe_bind; [apply (ps_spec_in Hps); lia|]. intros r s9 Hg9 _ Hr. lift.
    rewrite !Nat.add_assoc. apply safe_cast; [side..|].
    intros s. apply sound_dims; side.
  - sub. sub. rewrite !Nat.add_assoc. apply safe_index; [side..|].
    intros s. apply sound_dims; side.
  - apply safe_sizeof; side.
  - sub. step.
  - apply safe_enumAccess; side.
  - destruct arrow; sub; [apply safe_arrow|apply safe_field]; side.
  - sub. apply safe_tupleIndex; side.
  - sub. apply safe_chained; side.
  - eapply safe_bind; [by apply safe_tupleElems|]. intros ps s1 Hg Hok Hin.
    destruct ps as [ps|]; [|by step]. apply (safe_tupleType _ fuel); [side..|]. by intros p Hp; eapply Hin.
  - destruct es as [|x es]; cbn [sum_list_with forallb] in *; [rewrite Nat.add_0_r; by step|].
    apply Forall_cons in IH as [? ?]. split_free. sub.
    rewrite Nat.add_assoc. eapply safe_bind; [apply safe_arrayElems; side|].
    intros _ s9 Hg _ _. lift. by step.
  - sub. eapply safe_bind; [apply safe_unwrap; side|]. intros p' s9 Hg _ Hp. lift.
    sub. fits. apply safe_tryOr; side.
  - sub. rewrite Nat.add_assoc. apply safe_is; side.
  - apply safe_alignof; side.
  - apply safe_offsetof; side.
  - apply safe_atType; side.
  - eapply safe_bind; [apply (ps_spec Hps); lia|]. intros r s9 Hg _ Hr. lift.
    rewrite Nat.add_assoc. apply safe_atPtr; try side.
    intros s. match goal with H : sound_at e |- _ => by apply H; [lia..|] end.
Qed.

Lemma dims_field b x : dims (EField false b x) = (
  p ← res b;
  t ← infoOpt p;
  t ← match t with
      | Some bt => match ti_pointeeType bt with
                   | Some q => if hasKind TK.Pointer bt then infoOpt (Some q) else mret t
                   | None => mret t
                   end
      | None => mret None
      end;
  mret match t with
       | Some bt =>
           if hasKind TK.Struct bt || hasKind TK.Union bt then
             match findField x (ti_fields bt) with Some f => fi_arrayDims f | None => 0%Z end
           else 0%Z
       | None => 0%Z
       end).
Proof. reflexivity. Qed.

Lemma safe_dims e : Forall sound_at (children e) → ∀ s0 N, 0 < N → N + spawns e < fuel →
  no_cfg e = true → safe g s0 N (dims e) (N + spawns e) (λ _ _, True).
Proof.
  intros IH s0 N Hpos HN Hc.
  assert (Hzero : ∀ (n : Z) N', N ≤ N' → safe g s0 N (mret n) N' (λ _ _, True)).
  { intros n N' Hle. by apply (safe_up _ _ N N); [|apply safe_ret]. }
  destruct e; try (apply Hzero; lia); cbn [spawns no_cfg Syntax.children] in *; split_free;
    repeat match goal with H : Forall _ (_ :: _) |- _ => apply Forall_cons in H as [? H] end.
  - cbn [resolveExprArrayDims]. apply (safe_up _ _ N N); [lia|].
    eapply safe_bind; [apply safe_state|]. intros. apply safe_ret.
  - change (dims (EParen e)) with (dims e). by apply sound_dims.
  - destruct k; try (apply Hzero; lia). change (dims (EUnary UDeref e)) with (dims e).
    by apply sound_dims.
  - cbn [resolveExprArrayDims]. by apply (ps_dims Hps).
  - cbn [resolveExprArrayDims]. apply (safe_up _ _ N (N + spawns e1)); [lia|].
    eapply safe_bind; [apply sound_dims; side|]. intros. apply safe_ret.
  - destruct arrow; [apply Hzero; lia|]. rewrite dims_field. sub.
    eapply safe_bind; [by apply safe_infoOpt|]. intros t s9 Hg Hok Ht.
    eapply safe_bind; [by eapply safe_throughPointer|]. intros. apply safe_ret.
  - cbn [resolveExprArrayDims]. by apply (ps_dims Hps).
Qed.

Lemma sound_all e : sound_at e.
Proof.
  revert e. refine (expr_children_ind _ _). intros e IH s0 N Hpos HN Hc.
  split; [by apply safe_res|by apply safe_dims].
Qed.

(** C3: Typing an expression in a state without dangling pointers, with unique pointer types
    of depth below [N], never dereferences null or a dangling pointer and needs no more fuel
    than [N] and the levels of types the expression can add: it returns, or a tuple index that is no
    32-bit number throws.  On both ways out every type stays where it was, the types of
    variables are as before and the recursion depth is restored; the type returned is null or
    exists, and the invariant holds again.  Expressions with [@cfg], whose constants can
    overflow, are left out, and of the parts that are parameters the same is assumed. *)
Theorem resolveExprType_safe e N s :
  ok g N s → 0 < N → N + spawns e < fuel → no_cfg e = true →
  (∃ p s', res e s = ROk p s' ∧ grows s s' ∧ ok g (N + spawns e) s' ∧ known p s') ∨
  (∃ x s', res e s = RThrow x s' ∧ grows s s').
Proof.
  intros Hok Hpos HN Hc. destruct (sound_all e s N Hpos HN Hc) as [Hr _].
  specialize (Hr s (reflexivity _) Hok). destruct (res e s) as [p s'|x s'| |]; [|by eauto|done..].
  destruct Hr as (? & ? & ?). left. by exists p, s'.
Qed.
End whole.

(** ** An example: [spawn f], a tuple, a pointer and an element *)

Lemma example_parameters : parameters_safe exampleTables 4 namedSpec namedSpec (λ _, None) noRest noDims 0.
Proof.
  assert (Hspec : ∀ ts, gives_type exampleTables 4 0 fst (namedSpec ts)).
  { intros ts s0 N _ _. rewrite Nat.add_0_r. eapply safe_bind; [apply safe_lookup|]. intros t s1 _ _ Ht s Hs Hok.
    split_and!; [done..|]. by eapply known_grows. }
  split; [done|done|done| |by intros; rewrite Nat.add_0_r; apply safe_ret].
  intros e s0 N _ _ s Hs Hok. rewrite Nat.add_0_r. by split_and!; [..|apply known_None].
Qed.

Lemma startTyper_ok : ok exampleTables 1 startTyper.
Proof.
  split.
  - apply newTypeRegistry_closed.
  - intros i j ti tj q Hi. by destruct i.
  - assert (H : map_Forall (λ _ t, below t = []) newTypeRegistry).
    { apply (bool_decide_unpack _). vm_compute. exact I. }
    exists (λ _, 0). split; [|intros; lia]. intros [n|[|i]] t q Ht Hq; [|done..].
    rewrite (H n t Ht) in Hq. by apply not_elem_of_nil in Hq.
  - eexists. vm_compute. reflexivity.
  - intros x p H. unfold startTyper in H. simpl in H. by rewrite lookup_empty in H.
  - intros p [x H|x c H|x H|x H|x ops o H|x ops o H]; unfold exampleTables in H; simpl in H;
      try by rewrite lookup_empty in H.
    apply lookup_singleton_Some in H as [_ [= <-]]. eexists. vm_compute. reflexivity.
Qed.

(** The element [1] of the tuple of a character behind an address and [spawn f]. *)
Definition spawn_example : expr :=
  ETupleIndex false
    (ETuple [EUnary UDeref (EUnary UAddrOf (ELit CharLit "'c'")); EUnary USpawn (EIdent "f")]) "1".

Notation exampleType := (resolveExprType exampleTables 4 (λ _, None) namedSpec namedSpec (λ _, None)
  (λ _, None) noRest noDims).

Lemma resolveExprType_safe_witness :
  ((∃ p s', exampleType spawn_example startTyper = ROk p s' ∧ grows startTyper s' ∧
      ok exampleTables (1 + spawns 0 spawn_example) s' ∧ known p s') ∨
   (∃ x s', exampleType spawn_example startTyper = RThrow x s' ∧ grows startTyper s')) ∧
  match exampleType spawn_example startTyper with
  | ROk (Some p) s' => ti_name <$> resolve (ty_env s') p = Some "Task<int32>"
  | _ => False
  end.
Proof.
  split; [|vm_compute; reflexivity].
  apply (resolveExprType_safe exampleTables 4 (λ _, None) namedSpec namedSpec (λ _, None)
    (λ _, None) noRest noDims 0 example_parameters).
  - apply startTyper_ok.
  - lia.
  - simpl. lia.
  - reflexivity.
Defined.
