(* ===== verification/ConstTyping.v ===== *)
(** * Constants have values of their types

    [checkConstDeclStmt] ([checkers/Checker_stmt.cpp]), which types the initialiser of a
    constant with [resolveExprType] and evaluates it with [evaluateConstExpr].  The two agree
    on the kind of a constant: a type soundness theorem for expressions over literals,
    constants, the unary and binary operators and the conditional operator, and an invariant
    of constant declarations. *)

From S2P Require Import Prelude.
From S2P Require Import CxxLib.
From S2P Require Import TypeInfo.
From S2P Require Import Assign.
From S2P Require Import Traits.
From S2P Require Import CFloat.
From S2P Require Import Syntax.
From S2P Require Import ComptimeValue.
From S2P Require Import ConstEval.
From S2P Require Import Builtins.
From S2P Require Import Ownership.
From S2P Require Import Attributes.
From S2P Require Import Modules.
From S2P Require Import Imports.
From S2P Require Import ExprType.
Local Open Scope Z_scope.

(** ** The kinds of values *)

(** The kind of the values of a type that constants can have. *)
Definition valueKind (t : TypeInfo) : option VK.Kind :=
  match ti_kind t with
  | TK.Integer | TK.Char => Some VK.Int
  | TK.Float => Some VK.Float
  | TK.Bool => Some VK.Bool
  | TK.String => Some VK.String
  | _ => None
  end.

Definition fits (t : TypeInfo) (v : ComptimeValue) : Prop := valueKind t = Some (kind v).

Definition scalar (types_ : types_map) (p : option tyref) (t : TypeInfo) : Prop :=
  ∃ n, p = Some (RegT n) ∧ types_ !! n = Some t ∧ is_Some (valueKind t).

(** The kind of the value of a literal. *)
Definition litKind (k : lit_kind) : option VK.Kind :=
  match k with
  | IntLit | HexLit | OctLit | BinLit | SuffixedIntLit | SuffixedHexLit | SuffixedOctLit
  | SuffixedBinLit | CharLit => Some VK.Int
  | FloatLit | LeadingDotFloatLit | SuffixedFloatLit | SuffixedLeadingDotFloatLit
  | SuffixedIntFloatLit | SuffixedFloatIntLit => Some VK.Float
  | BoolLit => Some VK.Bool
  | StrLit | BtickLit | RawBtickLit | IntBtickLit | ShellBtickLit | CmptBtickLit => Some VK.String
  | CStrLit | NullLit => None
  end.

(** A literal whose suffix, if it has one, is of a type of its kind. *)
Definition core_lit (k : lit_kind) (text : string) : bool :=
  bool_decide (is_Some (litKind k)) &&
  (if is_suffixed k then
     match suffixType kSuffixTypeMap text ≫= (λ n, newTypeRegistry !! n) with
     | Some t => bool_decide (valueKind t = litKind k)
     | None => false
     end
   else true).

(** Expressions over the constants [X]. *)
Fixpoint core (X : gset string) (e : expr) : bool :=
  match e with
  | ELit k text => core_lit k text
  | EIdent x => bool_decide (x ∈ X)
  | EParen e => core X e
  | EUnary (UNeg | ULogicalNot | UBitNot) e => core X e
  | EBin (BRange | BRangeIncl) _ _ _ => false
  | EBin _ _ l r => core X l && core X r
  | ETernary c t f => core X c && core X t && core X f
  | _ => false
  end.

Fixpoint height (e : expr) : Z :=
  match e with
  | EParen e | EUnary _ e => height e + 1
  | EBin _ _ l r => Z.max (height l) (height r) + 1
  | ETernary c t f => Z.max (height c) (Z.max (height t) (height f)) + 1
  | _ => 1
  end.

(** ** States *)

(** What typing such an expression can do: add messages and mark variables. *)
Record frame (s s' : Typer) : Prop := {
  fr_env : ty_env s' = ty_env s;
  fr_vars : ty_varTypes s' = ty_varTypes s;
  fr_depth : ty_recursionDepth s' = ty_recursionDepth s;
  fr_values : ty_compileTimeValues s' = ty_compileTimeValues s;
  fr_locals x : is_Some (locals_ (ty_checker s') !! x) ↔ is_Some (locals_ (ty_checker s) !! x);
  fr_errors : errors_ (ty_checker s) `prefix_of` errors_ (ty_checker s') }.

(** No message between two states. *)
Definition unreported (s s' : Typer) : Prop := errors_ (ty_checker s') = errors_ (ty_checker s).

(** The constants [X] are variables of scalar types. *)
Definition scalars (X : gset string) (s : Typer) : Prop :=
  ∀ x, x ∈ X → is_Some (locals_ (ty_checker s) !! x) ∧
    ∃ p t, ty_varTypes s !! x = Some p ∧ scalar (te_types (ty_env s)) p t.

(** The values of constants are of their types. *)
Definition valued (X : gset string) (s : Typer) : Prop :=
  ∀ x p t v, x ∈ X → ty_varTypes s !! x = Some p → scalar (te_types (ty_env s)) p t →
    ty_compileTimeValues s !! x = Some v → fits t v.

(** The registry has the built-in types, under their names. *)
Definition has_builtins (s : Typer) : Prop :=
  newTypeRegistry ⊆ te_types (ty_env s) ∧ registry_named (te_types (ty_env s)).

(** [m] gives a scalar type, of which [P] holds unless there are messages. *)
Definition gives (s : Typer) (m : T (option tyref)) (P : TypeInfo → Prop) : Prop :=
  ∃ p t s', m s = ROk p s' ∧ frame s s' ∧ scalar (te_types (ty_env s)) p t ∧ (unreported s s' → P t).

(** [m] ends, and [P] holds unless there are messages. *)
Definition checks (s : Typer) (m : T unit) (P : Prop) : Prop :=
  ∃ s', m s = ROk tt s' ∧ frame s s' ∧ (unreported s s' → P).

#[export] Instance frame_preorder : PreOrder frame.
Proof.
  split.
  - intros s. by split.
  - intros s1 s2 s3 [] []. split; try congruence; [intros x|etrans; eauto].
    etrans; eauto.
Qed.

Lemma unreported_split s1 s2 s3 : frame s1 s2 → frame s2 s3 → unreported s1 s3 → unreported s1 s2 ∧ unreported s2 s3.
Proof.
  intros F1 F2. apply prefix_split; [apply (fr_errors _ _ F1)|apply (fr_errors _ _ F2)].
Qed.

Lemma scalars_frame X s s' : frame s s' → scalars X s → scalars X s'.
Proof.
  intros [] H x Hx. destruct (H x Hx) as (? & p & t & ? & ?).
  split; [by apply fr_locals0|]. exists p, t. by rewrite fr_vars0, fr_env0.
Qed.

Lemma valued_frame X s s' : frame s s' → valued X s ↔ valued X s'.
Proof. intros []. unfold valued. by rewrite fr_vars0, fr_env0, fr_values0. Qed.

Lemma has_builtins_frame s s' : frame s s' → has_builtins s → has_builtins s'.
Proof. intros [Henv _ _ _ _ _]. unfold has_builtins. by rewrite Henv. Qed.

Lemma checks_ret s P : P → checks s (mret ()) P.
Proof. intros. by exists s. Qed.

Lemma checks_weaken s m (P Q : Prop) : checks s m P → (P → Q) → checks s m Q.
Proof. intros (s' & ? & ? & ?) HQ. exists s'. split_and!; eauto. Qed.

Lemma checks_bind s m m' (P Q R : Prop) :
  checks s m P → (∀ s', frame s s' → checks s' m' Q) → (P → Q → R) → checks s (m;; m') R.
Proof.
  intros (s1 & E1 & F1 & H1) Hk HR. destruct (Hk s1 F1) as (s2 & E2 & F2 & H2).
  exists s2. rewrite (M_bind_ok _ _ _ _ _ E1). split_and!; [done|by etrans|].
  intros Hq. destruct (unreported_split _ _ _ F1 F2 Hq). eauto.
Qed.

Lemma checks_read {A} s (m : T A) k x P : m s = ROk x s → checks s (k x) P → checks s (m ≫= k) P.
Proof. intros Hm (s' & ? & ?). exists s'. by rewrite (M_bind_ok _ _ _ _ _ Hm). Qed.

Lemma gives_read {A} s (m : T A) k x P : m s = ROk x s → gives s (k x) P → gives s (m ≫= k) P.
Proof. intros Hm (p & t & s' & ? & ?). exists p, t, s'. by rewrite (M_bind_ok _ _ _ _ _ Hm). Qed.

Lemma gives_ret s p t (P : TypeInfo → Prop) :
  scalar (te_types (ty_env s)) p t → P t → gives s (mret p) P.
Proof. intros. by exists p, t, s. Qed.

Lemma gives_weaken s m (P Q : TypeInfo → Prop) :
  gives s m P → (∀ t, P t → Q t) → gives s m Q.
Proof. intros (p & t & s' & ? & ? & ? & ?) HQ. exists p, t, s'. split_and!; eauto. Qed.

Lemma gives_checks s m k (P : Prop) (Q : TypeInfo → Prop) :
  checks s m P → (∀ s', frame s s' → gives s' k (λ t, P → Q t)) → gives s (m;; k) Q.
Proof.
  intros (s1 & E1 & F1 & H1) Hk. destruct (Hk s1 F1) as (p & t & s2 & E2 & F2 & Ht & H2).
  exists p, t, s2. rewrite (M_bind_ok _ _ _ _ _ E1).
  split_and!; [done|by etrans|by rewrite <-(fr_env _ _ F1)|].
  intros Hq. destruct (unreported_split _ _ _ F1 F2 Hq). eauto.
Qed.

Lemma gives_bind s m k (P Q : TypeInfo → Prop) :
  gives s m P →
  (∀ p t s', frame s s' → scalar (te_types (ty_env s')) p t → gives s' (k p) (λ u, P t → Q u)) →
  gives s (m ≫= k) Q.
Proof.
  intros (p & t & s1 & E1 & F1 & Ht & H1) Hk.
  destruct (Hk p t s1 F1) as (q & u & s2 & E2 & F2 & Hu & H2).
  { by rewrite (fr_env _ _ F1). }
  exists q, u, s2. rewrite (M_bind_ok _ _ _ _ _ E1).
  split_and!; [done|by etrans|by rewrite <-(fr_env _ _ F1)|].
  intros Hq. destruct (unreported_split _ _ _ F1 F2 Hq). eauto.
Qed.

Lemma frame_onChecker (f : Checker → Checker) s :
  (∀ c x, is_Some (locals_ (f c) !! x) ↔ is_Some (locals_ c !! x)) →
  (∀ c, errors_ c `prefix_of` errors_ (f c)) →
  frame s (s <| ty_checker := f (ty_checker s) |>).
Proof. intros H1 H2. split; simpl; auto. Qed.

Lemma emitDiag_errors ctx sev msg c : ∃ m, errors_ (emitDiag ctx sev msg c) = errors_ c ++ [m].
Proof. destruct ctx as [[start [stop|]]|]; simpl; try destruct (0 <? _); eauto. Qed.

Lemma frame_emit ctx sev msg s :
  frame s (s <| ty_checker := emitDiag ctx sev msg (ty_checker s) |>).
Proof.
  apply frame_onChecker; intros c.
  - by rewrite emitDiag_locals.
  - destruct (emitDiag_errors ctx sev msg c) as [m ->]. by exists [m].
Qed.

(** Marking a variable as read, and looking whether it was moved, keep the frame. *)
Lemma frame_markUsed x s : frame s (s <| ty_checker := markUsed x (ty_checker s) |>).
Proof.
  apply frame_onChecker; intros c; [|done]. intros y. apply lookup_alter_is_Some.
Qed.

(** ** The steps of the typing *)

#[local] Opaque newTypeRegistry.

Section steps.
Context (g : Tables) (fuel : nat) (position : expr → context).
Notation errorT := (errorT position).

Lemma checks_error s e msg P : checks s (errorT e msg) P.
Proof.
  eexists. split_and!; [reflexivity|apply frame_emit|].
  intros Hq. destruct (emitDiag_errors (position e) Error msg (ty_checker s)) as [m Hm].
  unfold unreported in Hq. simpl in Hq. unfold error in Hq. rewrite Hm in Hq.
  rewrite <-(app_nil_r (errors_ (ty_checker s))) in Hq at 2. by apply app_inv_head in Hq.
Qed.

Lemma checks_when s b e msg : checks s (when b (errorT e msg)) (b = false).
Proof. destruct b; [apply checks_error|by apply checks_ret]. Qed.

Lemma scalar_info s p t : scalar (te_types (ty_env s)) p t → infoOpt p s = ROk (Some t) s.
Proof.
  intros (n & -> & Ht & _). unfold infoOpt, infoT, mbind, M_bind, getS, liftO, deref, resolve. by rewrite Ht.
Qed.

Lemma gives_info s p t k Q : scalar (te_types (ty_env s)) p t →
  gives s (k (Some t)) Q → gives s (u ← infoOpt p; k u) Q.
Proof. intros Ht. apply gives_read, scalar_info, Ht. Qed.

Lemma gives_lookup s n t (P : TypeInfo → Prop) : has_builtins s → newTypeRegistry !! n = Some t →
  is_Some (valueKind t) → P t → gives s (lookupT n) P.
Proof.
  intros [Hb _] Hn Hk HP. exists (Some (RegT n)), t, s.
  assert (Ht : te_types (ty_env s) !! n = Some t) by by eapply lookup_weaken.
  split; [|split; [reflexivity|split; [|by intros _]]].
  - unfold lookupT, mbind, M_bind, getS, mret, M_ret, reg_lookup_ref. by rewrite Ht.
  - exists n. by rewrite Ht.
Qed.

(** Of two scalars one is assignable to the other if their values have one kind. *)
Lemma isAssignable_scalar s p q a b : fuel ≠ 0%nat → has_builtins s →
  scalar (te_types (ty_env s)) p a → scalar (te_types (ty_env s)) q b →
  isAssignable fuel (ty_env s) p q = Ret (bool_decide (valueKind a = valueKind b)).
Proof.
  intros Hf [_ Hn] (m & -> & Ha & Ka) (n & -> & Hb & Kb).
  destruct fuel as [|f]; [done|]. cbn [isAssignable].
  destruct (decide (m = n)) as [->|Hne].
  { simplify_eq. by rewrite !bool_decide_true. }
  rewrite (bool_decide_false (RegT m = RegT n)) by congruence.
  unfold deref, resolve. rewrite Ha, Hb. cbn [mbind outcome_bind].
  rewrite (bool_decide_false (ti_name a = ti_name b)) by (rewrite (Hn m a Ha), (Hn n b Hb); done).
  unfold valueKind, isFunctionPointer, intRule, hasKind in *.
  destruct (ti_kind a); simpl in Ka; try by destruct Ka.
  all: destruct (ti_kind b); simpl in Kb; try by destruct Kb.
  all: simpl; try done.
  by case_match.
Qed.

(** What the operators report about their operands does not matter, only that they end. *)
Notation ends s m := (checks s m True).

Lemma ends_when s b e msg : ends s (when b (errorT e msg)).
Proof. by eapply checks_weaken; [apply checks_when|]. Qed.

Lemma ends_numeric s e op lt rt : ends s (numericOperands position e op lt rt).
Proof. unfold numericOperands. repeat case_match; auto using checks_ret, checks_error, ends_when. Qed.

Lemma ends_mixed s e op l r lt rt : ends s (mixedOperands position e op l r lt rt).
Proof. unfold mixedOperands. repeat case_match; auto using checks_ret, ends_when. Qed.

Lemma ends_integer s e op lt rt : ends s (integerOperands position e op lt rt).
Proof.
  eapply checks_bind; [|intros ? _|]; [| |auto].
  all: unfold integerOperand; case_match; auto using checks_ret, ends_when.
Qed.

Lemma gives_ends s m k Q : ends s m → (∀ s', frame s s' → gives s' k Q) → gives s (m;; k) Q.
Proof.
  intros Hm Hk. eapply gives_checks; [done|]. intros s' Hs. eapply gives_weaken; [by apply Hk|auto].
Qed.

Lemma scalar_frame s s' p t : frame s s' → scalar (te_types (ty_env s)) p t →
  scalar (te_types (ty_env s')) p t.
Proof. intros F. by rewrite (fr_env _ _ F). Qed.

Lemma gives_overload s l t op k Q : is_Some (valueKind t) → gives s k Q →
  gives s (orOverload g fuel l (Some t) op k) Q.
Proof.
  intros Ht. unfold orOverload, resolveOpOverload, is_struct, valueKind, hasKind in *.
  by destruct (ti_kind t); simpl in Ht; try by destruct Ht.
Qed.

Lemma not_kind t k : is_Some (valueKind t) → k ∈ [TK.Pointer; TK.Struct] → hasKind k t = false.
Proof.
  unfold valueKind, hasKind. intros Ht Hk. apply bool_decide_eq_false. intros Heq. rewrite Heq in Ht.
  repeat (apply elem_of_cons in Hk as [->|Hk]; [by destruct Ht|]). by apply elem_of_nil in Hk.
Qed.

(** An operation whose operands and result have values of one kind. *)
Lemma evalBinOp_kind k raw va vb v : evalBinOp k raw va vb = Ret (Some v) →
  match k with
  | BMul | BAddSub | BLshift | BRshift | BBitAnd | BBitXor | BBitOr =>
      kind va = kind v ∧ kind vb = kind v
  | BRel | BEq | BLogicalAnd | BLogicalOr => kind v = VK.Bool
  | _ => True
  end.
Proof.
  assert (Hint : ∀ m, some_int m = Ret (Some v) → kind v = VK.Int).
  { intros m. unfold some_int. destruct m; simpl; [|done..]. by intros [= <-]. }
  destruct k; cbn [evalBinOp]; try done;
    unfold evalMul, evalAddSub, evalRel, evalEq, evalLogical, onInts; cbv zeta;
    destruct va, vb; try done; repeat case_match; simplify_eq/=; try done; naive_solver.
Qed.

(** The type [t] of an operation on operands of the types [a] and [b] suits every value of
    the operation. *)
Definition suits (k : bin_kind) (a b t : TypeInfo) : Prop :=
  ∀ raw va vb v, fits a va → fits b vb → evalBinOp k raw va vb = Ret (Some v) → fits t v.

Definition sameKinds (k : bin_kind) : bool :=
  match k with
  | BMul | BAddSub | BLshift | BRshift | BBitAnd | BBitXor | BBitOr => true | _ => false
  end.

Lemma suits_left k a b : sameKinds k = true → suits k a b a.
Proof. intros Hk raw va vb v Ha Hb Hv. apply evalBinOp_kind in Hv. destruct k; naive_solver congruence. Qed.

Lemma suits_right k a b : sameKinds k = true → suits k a b b.
Proof. intros Hk raw va vb v Ha Hb Hv. apply evalBinOp_kind in Hv. destruct k; naive_solver congruence. Qed.

Section operands.
Context (Hfuel : fuel ≠ 0%nat).
Context (s : Typer) (Hs : has_builtins s) (p q : option tyref) (a b : TypeInfo).
Context (Ha : scalar (te_types (ty_env s)) p a) (Hb : scalar (te_types (ty_env s)) q b).

Lemma gives_left s' k : frame s s' → sameKinds k = true → gives s' (mret p) (suits k a b).
Proof. intros. eapply gives_ret; [by eapply scalar_frame|by apply suits_left]. Qed.

Lemma gives_right s' k : frame s s' → sameKinds k = true → gives s' (mret q) (suits k a b).
Proof. intros. eapply gives_ret; [by eapply scalar_frame|by apply suits_right]. Qed.

Lemma gives_wider s' k also : frame s s' → sameKinds k = true →
  gives s' (mret (sameKindWider also p q (Some a) (Some b))) (suits k a b).
Proof.
  intros. assert (Hor : orElse p q = p) by (by destruct Ha as (? & -> & _)).
  unfold sameKindWider, wider. rewrite Hor.
  repeat case_match; auto using gives_left, gives_right.
Qed.

(** A comparison or a connective has type [bool]. *)
Lemma gives_bool s' k : frame s s' → k ∈ [BRel; BEq; BLogicalAnd; BLogicalOr] →
  gives s' (lookupT "bool") (suits k a b).
Proof.
  intros F Hk. eapply gives_lookup.
  - by eapply has_builtins_frame.
  - reflexivity.
  - done.
  - intros raw va vb v _ _ Hv. apply evalBinOp_kind in Hv. unfold fits.
    repeat (apply elem_of_cons in Hk as [->|Hk]; [by rewrite Hv|]). by apply elem_of_nil in Hk.
Qed.

(** The operands' types are read, and are no structs with operators. *)
Ltac operands :=
  apply (gives_info s p a); [done|]; apply (gives_info s q b); [done|]; cbv beta.
Ltac no_overload := apply gives_overload; [by destruct Ha as (? & _ & _ & ?)|].

Let no_pointer : is_pointer (Some a) = false.
Proof. apply not_kind; [by destruct Ha as (? & _ & _ & ?)|set_solver]. Qed.

Let no_struct : is_struct (Some a) = false.
Proof. apply not_kind; [by destruct Ha as (? & _ & _ & ?)|set_solver]. Qed.

Let no_pointer_r : is_pointer (Some b) = false.
Proof. apply not_kind; [by destruct Hb as (? & _ & _ & ?)|set_solver]. Qed.

Lemma gives_mul e op l r : gives s (checkMul g fuel position e op l r p q) (suits BMul a b).
Proof.
  unfold checkMul. operands. no_overload. apply gives_ends.
  - case_bool_decide; [apply ends_integer|].
    eapply checks_bind; [apply ends_numeric|intros ? _; apply ends_mixed|auto].
  - intros s1 F1. apply gives_ends; [apply ends_when|]. intros s2 F2.
    apply gives_wider; [by etrans|done].
Qed.

Lemma gives_addSub e op l r : gives s (checkAddSub g fuel position e op l r p q) (suits BAddSub a b).
Proof.
  unfold checkAddSub. operands. rewrite no_pointer, no_pointer_r, no_struct.
  rewrite andb_false_r. cbn [andb orb].
  destruct (is_string (Some a) && is_string (Some b)) eqn:Hstr.
  - apply andb_prop in Hstr as [Hsa _]. case_bool_decide; cbn [negb].
    + eapply gives_lookup; [done|reflexivity|done|]. intros raw va vb v Hva _ Hv.
      apply evalBinOp_kind in Hv as [Hv _].
      unfold is_string, hasKind in Hsa. apply bool_decide_eq_true in Hsa.
      unfold fits, valueKind in Hva |- *. rewrite Hsa in Hva. rewrite <-Hv. exact Hva.
    + apply gives_ends; [apply checks_error|]. intros. by apply gives_left.
  - cbn [mbind M_bind]. change (gives s (numericOperands position e op (Some a) (Some b);;
      mixedOperands position e op l r (Some a) (Some b);;
      mret (sameKindWider charInt p q (Some a) (Some b))) (suits BAddSub a b)).
    apply gives_ends; [apply ends_numeric|]. intros s1 F1.
    apply gives_ends; [apply ends_mixed|]. intros s2 F2. apply gives_wider; [by etrans|done].
Qed.

Lemma gives_shift e op k : k ∈ [BLshift; BRshift] →
  gives s (checkShift g fuel position e op p q) (suits k a b).
Proof.
  intros Hk. unfold checkShift. operands. no_overload.
  apply gives_ends; [apply ends_integer|]. intros. apply gives_left; [done|].
  by repeat (apply elem_of_cons in Hk as [->|Hk]; [done|]); apply elem_of_nil in Hk.
Qed.

Lemma gives_bitwise e op k l r : k ∈ [BBitAnd; BBitXor; BBitOr] →
  gives s (checkBitwise g fuel position e op l r p q) (suits k a b).
Proof.
  intros Hk. assert (Hsame : sameKinds k = true).
  { by repeat (apply elem_of_cons in Hk as [->|Hk]; [done|]); apply elem_of_nil in Hk. }
  unfold checkBitwise. operands. no_overload. apply gives_ends; [apply ends_integer|]. intros s1 F1.
  apply gives_ends; [apply ends_when|]. intros s2 F2. unfold wider.
  case_match; [apply gives_left|apply gives_right]; first [by etrans|done].
Qed.

Lemma gives_rel e op l r : gives s (checkRel g fuel position e op l r p q) (suits BRel a b).
Proof.
  unfold checkRel. operands. no_overload. rewrite no_pointer. cbn [andb].
  apply gives_ends; [apply ends_numeric|]. intros s1 F1.
  apply gives_ends; [apply ends_mixed|]. intros s2 F2. apply gives_bool; [by etrans|set_solver].
Qed.

Lemma gives_logical op k : k ∈ [BLogicalAnd; BLogicalOr] →
  gives s (checkLogical g fuel op p q) (suits k a b).
Proof.
  intros Hk. unfold checkLogical. apply (gives_info s p a); [done|]. cbv beta. no_overload.
  apply gives_bool; [done|set_solver].
Qed.

Lemma assignableT_scalar s' : frame s s' →
  assignableT fuel p q s' = ROk (bool_decide (valueKind a = valueKind b)) s' ∧
  assignableT fuel q p s' = ROk (bool_decide (valueKind b = valueKind a)) s'.
Proof.
  intros F. pose proof (has_builtins_frame _ _ F Hs) as Hs'.
  pose proof (scalar_frame _ _ _ _ F Ha) as Ha'. pose proof (scalar_frame _ _ _ _ F Hb) as Hb'.
  unfold assignableT, mbind, M_bind, getS, liftO.
  by rewrite (isAssignable_scalar _ _ _ _ _ Hfuel Hs' Ha' Hb'),
    (isAssignable_scalar _ _ _ _ _ Hfuel Hs' Hb' Ha').
Qed.

Lemma notAssignable_scalar s' : frame s s' →
  notAssignable fuel p q s' = ROk (negb (bool_decide (valueKind a = valueKind b))) s'.
Proof.
  intros F. destruct (assignableT_scalar s' F) as [H _].
  unfold notAssignable. destruct Ha as (? & -> & _), Hb as (? & -> & _).
  by rewrite (M_bind_ok _ _ _ _ _ H).
Qed.

(** A check that two scalars are assignable, and what follows. *)
Lemma gives_assignable s' e (f : string → string → string) k Q : frame s s' →
  (∀ s'', frame s' s'' → gives s'' k (λ t, valueKind a = valueKind b → Q t)) →
  gives s' (n ← notAssignable fuel p q;
            (if n : bool then x ← nameT p; y ← nameT q; errorT e (f x y) else mret ());; k) Q.
Proof.
  intros F Hk. eapply gives_read; [by apply notAssignable_scalar|].
  apply (gives_checks _ _ _ (valueKind a = valueKind b)); [|done].
  case_bool_decide; cbn [negb]; [by apply checks_ret|].
  assert (Hname : ∀ r t, scalar (te_types (ty_env s)) r t → nameT r s' = ROk (ti_name t) s').
  { intros r t Hr. pose proof (scalar_info s' r t (scalar_frame _ _ _ _ F Hr)) as H1.
    destruct Hr as (n & -> & _). unfold nameT. cbn [infoOpt] in H1.
    apply M_bind_inv in H1 as (t' & s1 & H1 & [= -> ->]). by rewrite (M_bind_ok _ _ _ _ _ H1). }
  eapply checks_read; [by apply Hname|]. eapply checks_read; [by apply Hname|]. apply checks_error.
Qed.

Lemma gives_eq e op : gives s (checkEq g fuel position e op p q) (suits BEq a b).
Proof.
  unfold checkEq. operands. no_overload. apply gives_ends; [|intros; apply gives_bool; [done|set_solver]].
  case_match; [apply checks_error|]. case_match; [by apply checks_ret|].
  destruct (assignableT_scalar s (reflexivity s)) as [H1 H2].
  eapply checks_read; [done|]. destruct (bool_decide (valueKind a = valueKind b)).
  - apply (checks_read _ _ _ true); [done|apply ends_when].
  - eapply checks_read; [done|apply ends_when].
Qed.

(** No scalar can stand on the left of [??]. *)
Lemma gives_nullCoal e : gives s (checkNullCoal fuel position e p q) (suits BNullCoal a b).
Proof.
  unfold checkNullCoal. apply (gives_info s p a); [done|]. cbv beta.
  eapply gives_checks; [apply checks_when|]. intros s1 F1.
  apply (gives_assignable _ _ (λ x y, "'??' type mismatch: left is " +:+ quote x +:+
    ", default is " +:+ quote y)); [done|]. intros s2 F2.
  assert (orElse p q = p) as -> by (by destruct Ha as (? & -> & _)).
  eapply gives_ret; [by apply (scalar_frame s); [etrans|]|].
  intros _ Hp. change (negb (is_pointer (Some a)) = false) in Hp. by rewrite no_pointer in Hp.
Qed.

Lemma gives_binary e k op l r : k ∉ [BRange; BRangeIncl] →
  gives s (resolveBinary g fuel position e k op l r p q) (suits k a b).
Proof.
  intros Hk. destruct k; cbn [resolveBinary].
  - apply gives_mul.
  - apply gives_addSub.
  - apply gives_shift. set_solver.
  - apply gives_shift. set_solver.
  - apply gives_rel.
  - apply gives_eq.
  - apply gives_bitwise. set_solver.
  - apply gives_bitwise. set_solver.
  - apply gives_bitwise. set_solver.
  - apply gives_logical. set_solver.
  - apply gives_logical. set_solver.
  - apply gives_nullCoal.
  - set_solver.
  - set_solver.
Qed.

Lemma gives_ternary e : gives s (checkTernary fuel position e p q)
  (λ t, ∀ v, fits a v ∨ fits b v → fits t v).
Proof.
  apply (gives_assignable _ _ (λ x y, "ternary branches have incompatible types: " +:+ quote x +:+
    " and " +:+ quote y)); [done|]. intros s1 F1.
  assert (orElse p q = p) as -> by (by destruct Ha as (? & -> & _)).
  eapply gives_ret; [by eapply scalar_frame|]. unfold fits. intros Hk v. rewrite Hk. tauto.
Qed.

Lemma ends_condition e : ends s (ternaryCondition position e p).
Proof. unfold ternaryCondition. eapply checks_read; [by apply scalar_info|]. apply ends_when. Qed.

Lemma gives_unary e k inner : k ∈ [UNeg; ULogicalNot; UBitNot] →
  gives s (resolveUnary fuel position e k inner p)
    (λ t, ∀ va v, fits a va → evalUnary k va = Ret (Some v) → fits t v).
Proof.
  intros Hk. assert (Hint : ∀ m v, some_int m = Ret (Some v) → kind v = VK.Int).
  { intros m v. unfold some_int. destruct m; simpl; [|done..]. by intros [= <-]. }
  assert (Hleft : k ≠ ULogicalNot → ∀ va v, fits a va → evalUnary k va = Ret (Some v) → fits a v).
  { intros Hne va v Hva. unfold fits in *. rewrite Hva.
    destruct k; [|done| |set_solver..]; destruct va; try done; cbn [evalUnary kind];
      [intros ->%Hint|intros [= <-]..]; done. }
  repeat (apply elem_of_cons in Hk as [->|Hk]); [| | |by apply elem_of_nil in Hk]; cbn [resolveUnary].
  - unfold checkNeg. apply (gives_info s p a); [done|]. cbv beta iota. apply gives_ends.
    + eapply checks_bind; [apply ends_when|intros; apply ends_when|auto].
    + intros. eapply gives_ret; [by eapply scalar_frame|by apply Hleft].
  - eapply gives_lookup; [done|reflexivity|done|]. intros va v _ Hv.
    by destruct va; simplify_eq/=.
  - unfold checkBitNot. apply (gives_info s p a); [done|]. cbv beta iota. apply gives_ends.
    + apply ends_when.
    + intros. eapply gives_ret; [by eapply scalar_frame|by apply Hleft].
Qed.
End operands.

(** ** Literals and constants *)

Lemma lit_value k text v : is_Some (litKind k) → evalLit k text = Ret (Some v) → litKind k = Some (kind v).
Proof.
  assert (Hi : ∀ t b, evalIntLit t b = Ret (Some v) → kind v = VK.Int).
  { intros t b. unfold evalIntLit. destruct (parseIntLiteral t b); simpl; [|done..]. by intros [= <-]. }
  assert (Hf : ∀ t, evalFloatLit t = Ret (Some v) → kind v = VK.Float).
  { intros t. unfold evalFloatLit. destruct (catch_all (stod t)) as [[]| | |]; simpl; try done.
    by intros [= <-]. }
  intros Hk. destruct k; cbn [evalLit litKind]; try done; try by destruct Hk.
  all: first [by intros ->%Hi | by intros ->%Hf | by intros [= <-]].
Qed.

(** The types of the literals without a suffix. *)
Lemma lit_type k : is_suffixed k = false → is_Some (litKind k) →
  ∃ t, newTypeRegistry !! literalTypeName k = Some t ∧ valueKind t = litKind k.
Proof. destruct k; intros Hs [? Hk]; try done; eexists; (split; [vm_compute; reflexivity|done]). Qed.

Lemma gives_literal s k text : has_builtins s → core_lit k text = true →
  gives s (resolveLiteral k text) (λ t, ∀ v, evalLit k text = Ret (Some v) → fits t v).
Proof.
  unfold core_lit, resolveLiteral. intros Hs [Hk Hsuf]%andb_prop. apply bool_decide_eq_true in Hk.
  assert (Hfits : ∀ t, valueKind t = litKind k →
    ∀ v, evalLit k text = Ret (Some v) → fits t v).
  { intros t Ht v Hv. unfold fits. by rewrite Ht, (lit_value _ _ _ Hk Hv). }
  destruct (is_suffixed k) eqn:Hsx.
  - destruct (suffixType kSuffixTypeMap text) as [n|]; [|done]. cbn [mbind option_bind] in Hsuf.
    destruct (newTypeRegistry !! n) as [t|] eqn:Hn; [|done]. apply bool_decide_eq_true in Hsuf.
    eapply gives_lookup; [done|done|by rewrite Hsuf|auto].
  - destruct (lit_type k Hsx Hk) as (t & Hn & Ht).
    assert (Hlook : gives s (lookupT (literalTypeName k)) (λ t, ∀ v, evalLit k text = Ret (Some v) → fits t v)).
    { eapply gives_lookup; [done|done|by rewrite Ht|auto]. }
    destruct k; try exact Hlook; by destruct Hk.
Qed.

Section constants.
Context (resolveTypeSpec : option string → T (option tyref * Z)).
Context (declarator : ExportedSymbol → option Declarator).

Lemma checks_onChecker f s : (∀ c x, is_Some (locals_ (f c) !! x) ↔ is_Some (locals_ c !! x)) →
  (∀ c, errors_ c `prefix_of` errors_ (f c)) → ends s (onChecker f).
Proof. intros. eexists. split; [reflexivity|]. split; [by apply frame_onChecker|done]. Qed.

Lemma ends_notMoved s e ctx : ends s (onChecker (validateExprNotMoved e ctx)).
Proof.
  apply checks_onChecker; intros c; [intros x|]; unfold validateExprNotMoved, error;
    repeat case_match; try done; [by rewrite emitDiag_locals|].
  destruct (emitDiag_errors ctx Error ("use-after-move: value '" +:+ name +:+
    "' was moved and is no longer valid") c) as [m ->]. by exists [m].
Qed.

Lemma ends_warning s b e msg : ends s (when b (warningT position e msg)).
Proof.
  destruct b; [|by apply checks_ret]. eexists. split; [reflexivity|]. by split; [apply frame_emit|].
Qed.

Lemma ends_markUsed s x : ends s (onChecker (markUsed x)).
Proof. apply checks_onChecker; intros c; [|done]. intros y. apply lookup_alter_is_Some. Qed.

Lemma gives_ident s e x X : scalars X s → x ∈ X →
  gives s (resolveIdent g position resolveTypeSpec declarator e x)
    (λ t, valued X s → ∀ v, ty_compileTimeValues s !! x = Some v → fits t v).
Proof.
  intros Hc Hx. destruct (Hc x Hx) as ([vi Hvi] & p & t & Hp & Ht).
  unfold resolveIdent. eapply gives_read; [reflexivity|]. rewrite Hvi.
  apply gives_ends; [apply ends_notMoved|]. intros s1 F1.
  apply gives_ends; [|intros s2 F2].
  { apply ends_warning. }
  apply gives_ends; [apply ends_markUsed|]. intros s3 F3. rewrite Hp. cbn [default].
  eapply gives_ret; [eapply scalar_frame; [|done]|]; [by etrans; [|etrans]|eauto].
Qed.
End constants.
End steps.

(** ** Soundness *)

Section whole.
Context (g : Tables) (fuel : nat) (Hfuel : fuel ≠ 0%nat) (position : expr → context).
Context (resolveTypeSpec resolveTypeSpecInContext : option string → T (option tyref * Z)).
Context (constTypeSpec : string → option TypeInfo) (declarator : ExportedSymbol → option Declarator).
Context (resolveRest : expr → T (option tyref)) (restDims : expr → T Z).

Notation res := (resolveExprType g fuel position resolveTypeSpec resolveTypeSpecInContext
  constTypeSpec declarator resolveRest restDims).
Notation value s e := (evaluateConstExpr (te_types (ty_env s)) (ty_compileTimeValues s) constTypeSpec e).

(** The type of [e] is one of every value of [e], if those of the constants are. *)
Definition sound_type (X : gset string) (s : Typer) (e : expr) (t : TypeInfo) : Prop :=
  valued X s → ∀ v, value s e = Ret (Some v) → fits t v.

Lemma gives_depth s e body Q : ty_recursionDepth s + 1 ≤ MAX_RECURSION_DEPTH →
  gives (s <| ty_recursionDepth := ty_recursionDepth s + 1 |>) body Q →
  gives s (withDepth position e body) Q.
Proof.
  intros Hd (p & t & s' & E & [F1 F2 F3 F4 F5 F6] & Ht & HQ).
  exists p, t, (s' <| ty_recursionDepth := ty_recursionDepth s' - 1 |>). split_and!; [|split|done|done].
  - unfold withDepth. cbv zeta.
    change (ty_recursionDepth (_ <| ty_recursionDepth := ?n |>)) with n.
    by rewrite (proj2 (Z.ltb_ge _ _) Hd), E.
  - exact F1.
  - exact F2.
  - simpl in *. lia.
  - exact F4.
  - exact F5.
  - exact F6.
Qed.

Lemma binary_value s k op l r v : value s (EBin k op l r) = Ret (Some v) →
  ∃ va vb, value s l = Ret (Some va) ∧ value s r = Ret (Some vb) ∧
    evalBinOp k (getText (EBin k op l r)) va vb = Ret (Some v).
Proof.
  intros H. assert (H' : (a ← value s l; b ← value s r;
    match a, b with
    | Some a, Some b => evalBinOp k (getText (EBin k op l r)) a b | _, _ => Ret None
    end) = Ret (Some v)) by (destruct k; first [exact H|done]).
  destruct (value s l) as [[va|]| | |]; try done; cbn [mbind outcome_bind] in H';
    destruct (value s r) as [[vb|]| | |]; try done. eauto.
Qed.

Lemma height_pos e : 1 ≤ height e.
Proof. induction e; simpl; lia. Qed.

Lemma sound_frame X s s' e t : frame s s' → sound_type X s' e t → sound_type X s e t.
Proof.
  intros F H HX. rewrite <-(fr_env _ _ F), <-(fr_values _ _ F). by apply H, (valued_frame X _ _ F).
Qed.

(** What the induction hypothesis gives in a state reached from one that is one level up. *)
Lemma later X e s s' : scalars X s → has_builtins s →
  frame (s <| ty_recursionDepth := ty_recursionDepth s + 1 |>) s' →
  scalars X s' ∧ has_builtins s' ∧ ty_recursionDepth s' = ty_recursionDepth s + 1 ∧
  ∀ t, sound_type X s' e t → sound_type X s e t.
Proof.
  intros HX Hs F. split_and!; [by eapply scalars_frame|by eapply has_builtins_frame| |].
  - apply (fr_depth _ _ F).
  - intros t. apply (sound_frame X _ _ e t F).
Qed.

Lemma res_sound X e : ∀ s, core X e = true → scalars X s → has_builtins s →
  ty_recursionDepth s + height e ≤ MAX_RECURSION_DEPTH → gives s (res e) (sound_type X s e).
Proof.
  induction e; intros s Hc HX Hs Hd; try done; cbn [core height] in Hc, Hd.
  - apply gives_depth; [lia|]. eapply gives_weaken; [by apply gives_literal|]. intros t Ht _. exact Ht.
  - apply gives_depth; [lia|]. apply bool_decide_eq_true in Hc. eapply gives_weaken.
    + by apply (gives_ident _ _ _ _ _ _ _ X).
    + intros t Ht HV v [= Hv]. by apply Ht.
  - pose proof (height_pos e). apply gives_depth; [lia|]. apply IHe; [done..|simpl; lia].
  - pose proof (height_pos e).
    assert (k ∈ [UNeg; ULogicalNot; UBitNot] ∧ core X e = true) as [Hk Hc'].
    { destruct k; try done; split; try done; set_solver. }
    apply gives_depth; [lia|].
    eapply gives_bind; [apply IHe; [done..|simpl; lia]|]. intros p t s1 F1 Ht.
    destruct (later X e s s1 HX Hs F1) as (_ & Hs1 & _).
    eapply gives_weaken; [by eapply gives_unary|].
    intros u Hu Hsound HV v Hv.
    assert (∃ va, value s e = Ret (Some va) ∧ evalUnary k va = Ret (Some v)) as (va & Hva & Hop).
    { destruct k; try done; cbn [evaluateConstExpr] in Hv;
        destruct (value s e) as [[va|]| | |]; try done; eauto. }
    eapply Hu; [|done]. by apply Hsound.
  - pose proof (height_pos e1). pose proof (height_pos e2).
    assert ((k ∉ [BRange; BRangeIncl]) ∧ (core X e1 && core X e2) = true) as [Hk [Hc1 Hc2]%andb_prop].
    { destruct k; try done; split; try done; set_solver. }
    apply gives_depth; [lia|].
    eapply gives_bind; [apply IHe1; [done..|simpl; lia]|]. intros p a s1 F1 Ha.
    destruct (later X e2 s s1 HX Hs F1) as (HX1 & Hs1 & Hd1 & Hback).
    eapply gives_bind; [apply IHe2; [done..|lia]|]. intros q b s2 F2 Hb.
    eapply gives_weaken; [apply (gives_binary _ _ _ Hfuel s2 (has_builtins_frame _ _ F2 Hs1) p q a b);
      [by eapply scalar_frame|done..]|].
    intros u Hu H2 H1 HV v (va & vb & Hva & Hvb & Hop)%binary_value.
    eapply Hu; [by apply H1|by apply (Hback _ H2 HV)|done].
  - pose proof (height_pos e1). pose proof (height_pos e2). pose proof (height_pos e3).
    apply andb_prop in Hc as [[Hc1 Hc2]%andb_prop Hc3].
    apply gives_depth; [lia|].
    eapply gives_bind; [apply IHe1; [done..|simpl; lia]|]. intros p1 t1 s1 F1 Ht1.
    destruct (later X e2 s s1 HX Hs F1) as (HX1 & Hs1 & Hd1 & Hback2).
    apply gives_ends; [by eapply ends_condition|]. intros s2 F2.
    assert (F02 := transitivity F1 F2).
    destruct (later X e2 s s2 HX Hs F02) as (HX2 & Hs2 & Hd2 & Hback).
    eapply gives_bind; [apply IHe2; [done..|lia]|]. intros p a s3 F3 Ha.
    destruct (later X e3 s s3 HX Hs (transitivity F02 F3)) as (HX3 & Hs3 & Hd3 & Hback3).
    eapply gives_bind; [apply IHe3; [done..|lia]|]. intros q b s4 F4 Hb.
    eapply gives_weaken; [apply (gives_ternary _ _ Hfuel s4 (has_builtins_frame _ _ F4 Hs3) p q a b);
      [by eapply scalar_frame|done]|].
    intros u Hu H3 H2 _ HV v Hv. simpl in Hv. apply Hu.
    destruct (value s e1) as [[va|]| | |]; try done. cbn [mbind outcome_bind] in Hv.
    destruct (isTrue va); [left; by apply (Hback _ H2 HV)|right; by apply (Hback3 _ H3 HV)].
Qed.
End whole.
