(* ===== verification/ConstDecl.v ===== *)
(** * Declarations of constants

    [Checker::checkConstDeclStmt] ([checkers/Checker_stmt.cpp]): a constant gets the type it
    declares or the type of its initialiser, and the value of its initialiser, which for an
    integer is also stored in the module registry.  The statement composes [resolveExprType],
    [evaluateConstExpr] and [ModuleRegistry::setConstValue]; the theorems compose what is
    proved of them. *)

From S2P Require Import Prelude.
From S2P Require Import CxxLib.
From S2P Require Import TypeInfo.
From S2P Require Import Assign.
From S2P Require Import CFloat.
From S2P Require Import Syntax.
From S2P Require Import ComptimeValue.
From S2P Require Import ConstEval.
From S2P Require Import Builtins.
From S2P Require Import Ownership.
From S2P Require Import Attributes.
From S2P Require Import Modules.
From S2P Require Import Imports.
From S2P Require Import ExprType.
From S2P Require Import ConstTyping.
Local Open Scope Z_scope.

(** A [ConstDeclaratorContext] with its place in the file. *)
Record ConstDeclarator := {
  cdecl_name : string;
  cdecl_typeSpec : option string;
  cdecl_expression : option expr;
  cdecl_ctx : context }.

(** The members of the checker the statement changes; [cs_globalVars] holds a variable with
    the pointer to its type. *)
Record ConstState := {
  cs_typer : Typer;
  cs_globalVars : gmap string (VarInfo * option tyref);
  cs_modules : option ModuleRegistry }.

#[export] Instance settable_ConstState : Settable ConstState := λ s,
  Build_ConstState (cs_typer s) (cs_globalVars s) (cs_modules s).

#[export] Instance settable_Tables : Settable Tables := λ g,
  Build_Tables (functions_ g) (comptimeRegistry_ g) (cEnumConstants_ g) (cGlobals_ g)
    (importResolver_ g) (builtinRegistry_ g) (userImports_ g) (userImportNames_ g)
    (moduleRegistry_ g) (enumVariantImports_ g) (currentModulePath_ g) (currentFile_ g)
    (unwrapCatchItDepth_ g) (operatorMethods_ g) (activeTarget_ g).

Notation CT := (M ConstState).

(** The variable a constant of a function is before it has a type. *)
Definition newConstVar (t : option TypeInfo) : VarInfo := {|
  vi_type := t; vi_arrayDims := 0; vi_initialized := true; vi_used := false;
  vi_ownership := OS.BorrowedImm; vi_hasBufferCapacity := false; vi_bufferCapacity := 0;
  vi_hasKnownCStringLen := false; vi_cstringLen := 0; vi_hasKnownUSizeRange := false;
  vi_minUSize := 0; vi_maxUSize := 0; vi_pointerEscaped := false |}.

(** [locals_[name] = vi], with the pointer to the type. *)
Definition putLocal (name : string) (vi : VarInfo) (p : option tyref) (t : Typer) : Typer :=
  t <| ty_checker := (ty_checker t) <| locals_ := <[name := vi]> (locals_ (ty_checker t)) |> |>
    <| ty_varTypes := <[name := p]> (ty_varTypes t) |>.

Section const_decl.
Context (g : Tables) (fuel : nat) (position : expr → context).
Context (resolveTypeSpec resolveTypeSpecInContext : option string → T (option tyref * Z)).
Context (constTypeSpec : string → option TypeInfo) (declarator : ExportedSymbol → option Declarator).
Context (resolveRest : expr → T (option tyref)) (restDims : expr → T Z).

(** Typing reads the module registry as it is now. *)
Definition typing {A} (m : Tables → T A) : CT A := λ s,
  match m (g <| moduleRegistry_ := cs_modules s |>) (cs_typer s) with
  | ROk a t => ROk a (s <| cs_typer := t |>)
  | RThrow x t => RThrow x (s <| cs_typer := t |>)
  | RUndef => RUndef
  | RNoFuel => RNoFuel
  end.

Definition typeOf (e : expr) : CT (option tyref) :=
  typing (λ g, resolveExprType g fuel position resolveTypeSpec resolveTypeSpecInContext
                 constTypeSpec declarator resolveRest restDims e).

Definition dimsOf (e : expr) : CT Z :=
  typing (λ g, resolveExprArrayDims g fuel position resolveTypeSpec resolveTypeSpecInContext
                 constTypeSpec declarator resolveRest restDims e).

Definition report (ctx : context) (msg : string) : CT unit :=
  typing (λ _, onChecker (error ctx msg)).

(** Whether the type of the initialiser suits the declared type [p]. *)
Definition checkConstInit (d : ConstDeclarator) (p : tyref) (init : option tyref) : CT bool :=
  match init with
  | None => mret true
  | Some q =>
      ti ← typing (λ _, infoT p);
      ii ← typing (λ _, infoT q);
      if hasKind TK.Integer ti && hasKind TK.Integer ii then mret true
      else if bool_decide (ti_name ti = ti_name ii) then mret true
      else
        report (cdecl_ctx d) ("type mismatch: cannot initialize " +:+ quote (cdecl_name d) +:+
          " of type " +:+ quote (ti_name ti) +:+ " with expression of type " +:+ quote (ti_name ii));;
        mret false
  end.

(** Sets the type of the variable, and stores it among the globals if it is one. *)
Definition setConstType (name : string) (functionScoped : bool) (p : tyref) (dims : Z)
    (initialized : bool) : CT unit :=
  ti ← typing (λ _, infoT p);
  modifyS (λ s,
    match locals_ (ty_checker (cs_typer s)) !! name with
    | Some vi =>
        let vi := vi <| vi_type := Some ti |> <| vi_arrayDims := dims |>
                     <| vi_initialized := initialized |> in
        let s := s <| cs_typer := putLocal name vi (Some p) (cs_typer s) |> in
        if functionScoped then s
        else s <| cs_globalVars := <[name := (vi, Some p)]> (cs_globalVars s) |>
    | None => s
    end).

Definition literalDims (e : expr) : CT Z :=
  match e with EArray es => mret match es with [] => 0 | _ => 1 end | _ => dimsOf e end.

(** The declared or inferred type; [false] is the [continue] after an error. *)
Definition checkConstType (d : ConstDeclarator) (functionScoped : bool) : CT bool :=
  let name := cdecl_name d in
  match cdecl_typeSpec d, cdecl_expression d with
  | Some ts, init =>
      r ← typing (λ _, resolveTypeSpec (Some ts));
      match r.1 with
      | None => mret false
      | Some p =>
          ok ← match init with
               | Some e => t ← typeOf e; checkConstInit d p t
               | None => mret true
               end;
          if ok : bool
          then setConstType name functionScoped p r.2 (bool_decide (is_Some init));; mret true
          else mret false
      end
  | None, Some e =>
      t ← typeOf e;
      ti ← typing (λ _, infoOpt t);
      match t, ti with
      | Some p, Some ti =>
          if hasKind TK.Void ti
          then report (cdecl_ctx d) ("cannot infer type for constant " +:+ quote name);; mret false
          else dims ← literalDims e; setConstType name functionScoped p dims true;; mret true
      | _, _ => report (cdecl_ctx d) ("cannot infer type for constant " +:+ quote name);; mret false
      end
  | None, None => mret true
  end.

(** The value of the initialiser, if it has one. *)
Definition storeConstValue (name : string) (e : expr) : CT unit :=
  s ← getS;
  let t := cs_typer s in
  ev ← liftO (evaluateConstExpr (te_types (ty_env t)) (ty_compileTimeValues t) constTypeSpec e);
  match ev with
  | None => mret ()
  | Some v =>
      modifyS (λ s,
        let s := s <| cs_typer := (cs_typer s)
          <| ty_compileTimeValues := <[name := v]> (ty_compileTimeValues (cs_typer s)) |> |> in
        match v, cs_modules s with
        | intVal z, Some m => s <| cs_modules := Some (setConstValue (currentModulePath_ g) name z m) |>
        | _, _ => s
        end)
  end.

(** One turn of the loop. *)
Definition checkConstDeclarator (d : ConstDeclarator) : CT unit :=
  let name := cdecl_name d in
  s ← getS;
  let functionScoped := bool_decide (locals_ (ty_checker (cs_typer s)) !! name = None) in
  (if functionScoped then
     int32 ← typing (λ _, lookupT "int32");
     t ← typing (λ _, infoOpt int32);
     modifyS (λ s, s <| cs_typer := putLocal name (newConstVar t) int32 (cs_typer s) |>)
   else mret ());;
  match cdecl_expression d with
  | Some e =>
      if negb (isValidConstExpr (isComptime (comptimeRegistry_ g)) e) then
        report (position e) ("constant " +:+ quote name +:+
          " initializer must be a compile-time constant expression")
      else
        ok ← checkConstType d functionScoped;
        if ok : bool then storeConstValue name e else mret ()
  | None => checkConstType d functionScoped;; mret ()
  end.

Fixpoint checkConstDecls (ds : list ConstDeclarator) : CT unit :=
  match ds with
  | [] => mret ()
  | d :: ds => checkConstDeclarator d;; checkConstDecls ds
  end.

(** The statement; [active] is [isDeclActive] of its attributes. *)
Definition checkConstDeclStmt (active : bool) (ds : list ConstDeclarator) : CT unit :=
  if active then checkConstDecls ds else mret ().
End const_decl.

(** ** Runs that end *)

(** [m] ends with [R], or C++ gives its run no meaning. *)
Definition runs {S A} (s : S) (m : M S A) (R : A → S → Prop) : Prop :=
  match m s with ROk a s' => R a s' | RUndef => True | RThrow _ _ | RNoFuel => False end.

Lemma runs_bind {S A B} (s : S) (m : M S A) (k : A → M S B) R R' :
  runs s m R → (∀ a s', R a s' → runs s' (k a) R') → runs s (m ≫= k) R'.
Proof. unfold runs, mbind, M_bind. destruct (m s); naive_solver. Qed.

Lemma runs_weaken {S A} (s : S) (m : M S A) (R R' : A → S → Prop) :
  runs s m R → (∀ a s', R a s' → R' a s') → runs s m R'.
Proof. unfold runs. destruct (m s); naive_solver. Qed.

Lemma runs_ok {S A} (s : S) (m : M S A) a s' R : m s = ROk a s' → R a s' → runs s m R.
Proof. unfold runs. by intros ->. Qed.

(** The value of an expression over constants is computed, unless C++ leaves it undefined. *)
Lemma core_value types_ consts spec X e : map_Forall (λ _ v, value_ok v = true) consts →
  core X e = true → value_or_undef (evaluateConstExpr types_ consts spec e).
Proof.
  intros Hv. induction e; intros Hc; try done; cbn [core] in Hc.
  - apply evalLit_good.
  - simpl. destruct (consts !! name) eqn:E; [by eapply Hv|done].
  - by apply IHe.
  - cbn [evaluateConstExpr]. assert (He : core X e = true) by (by destruct k).
    specialize (IHe He). destruct (evaluateConstExpr _ _ _ e) as [[]| | |], k; try done;
      by apply evalUnary_good.
  - assert (Hlr : core X e1 && core X e2 = true) by (by destruct k).
    apply andb_prop in Hlr as [H1 H2]. specialize (IHe1 H1). specialize (IHe2 H2).
    cbn [evaluateConstExpr].
    destruct (evaluateConstExpr _ _ _ e1) as [[]| | |], (evaluateConstExpr _ _ _ e2) as [[]| | |];
      destruct k; try done; cbn [mbind outcome_bind]; by apply evalBinOp_good.
  - apply andb_prop in Hc as [[H1 H2]%andb_prop H3]. specialize (IHe1 H1).
    cbn [evaluateConstExpr]. destruct (evaluateConstExpr _ _ _ e1) as [[]| | |]; try done.
    cbn [mbind outcome_bind]. case_match; auto.
Qed.

(** ** One declaration *)

Notation env_of s := (ty_env (cs_typer s)).
Notation types_of s := (te_types (ty_env (cs_typer s))).
Notation values_of s := (ty_compileTimeValues (cs_typer s)).
Notation is_local x s := (is_Some (locals_ (ty_checker (cs_typer s)) !! x)).

(** No message between two states. *)
Definition silent (s s' : ConstState) : Prop := unreported (cs_typer s) (cs_typer s').

(** What may have changed while the declaration of [name] is checked: the messages, the
    variable [name] and which variables are used. *)
Record during (name : string) (s s' : ConstState) : Prop := {
  du_env : env_of s' = env_of s;
  du_depth : ty_recursionDepth (cs_typer s') = ty_recursionDepth (cs_typer s);
  du_values : values_of s' = values_of s;
  du_vars x : x ≠ name → ty_varTypes (cs_typer s') !! x = ty_varTypes (cs_typer s) !! x;
  du_locals x : x ≠ name → is_local x s' ↔ is_local x s;
  du_local : is_local name s';
  du_type : ∃ p t, ty_varTypes (cs_typer s') !! name = Some p ∧ scalar (types_of s') p t;
  du_errors : errors_ (ty_checker (cs_typer s)) `prefix_of` errors_ (ty_checker (cs_typer s')) }.

(** The type of [name], of which [P] holds. *)
Definition const_type (name : string) (s : ConstState) (P : TypeInfo → Prop) : Prop :=
  ∃ p t, ty_varTypes (cs_typer s) !! name = Some p ∧ scalar (types_of s) p t ∧ P t.

(** After the declaration the constant may also have a value. *)
Record after (name : string) (s s' : ConstState) : Prop := {
  af_env : env_of s' = env_of s;
  af_depth : ty_recursionDepth (cs_typer s') = ty_recursionDepth (cs_typer s);
  af_values x : x ≠ name → values_of s' !! x = values_of s !! x;
  af_values_ok : map_Forall (λ _ v, value_ok v = true) (values_of s');
  af_vars x : x ≠ name → ty_varTypes (cs_typer s') !! x = ty_varTypes (cs_typer s) !! x;
  af_locals x : x ≠ name → is_local x s' ↔ is_local x s;
  af_local : is_local name s';
  af_type : ∃ p t, ty_varTypes (cs_typer s') !! name = Some p ∧ scalar (types_of s') p t;
  af_errors : errors_ (ty_checker (cs_typer s)) `prefix_of` errors_ (ty_checker (cs_typer s')) }.

(** A name that is new, or that of a variable of scalar type. *)
Definition declarable (name : string) (s : ConstState) : Prop :=
  locals_ (ty_checker (cs_typer s)) !! name = None ∨
  ∃ p t, ty_varTypes (cs_typer s) !! name = Some p ∧ scalar (types_of s) p t.

Lemma during_frame name s s' t : during name s s' → frame (cs_typer s') t →
  during name s (s' <| cs_typer := t |>).
Proof.
  intros [] []. split; simpl in *.
  - by rewrite fr_env.
  - by rewrite fr_depth.
  - by rewrite fr_values.
  - intros x Hx. rewrite fr_vars. auto.
  - intros x Hx. rewrite fr_locals. auto.
  - by apply fr_locals.
  - destruct du_type0 as (p & ti & ? & ?). exists p, ti. by rewrite fr_vars, fr_env.
  - by etrans.
Qed.

Lemma during_scalars X name s s' : during name s s' → scalars X (cs_typer s) →
  scalars (X ∪ {[name]}) (cs_typer s').
Proof.
  intros D HX x Hx. destruct (decide (x = name)) as [->|Hne].
  { split; [apply (du_local _ _ _ D)|apply (du_type _ _ _ D)]. }
  destruct (HX x) as (Hl & p & t & Hp & Ht); [set_solver|].
  split; [by apply (du_locals _ _ _ D)|]. exists p, t.
  by rewrite (du_vars _ _ _ D), (du_env _ _ _ D).
Qed.

Lemma during_valued X name s s' : during name s s' → values_of s !! name = None →
  valued X (cs_typer s) → valued (X ∪ {[name]}) (cs_typer s').
Proof.
  intros D Hfresh HX x p t v Hx Hp Ht Hv. rewrite (du_values _ _ _ D) in Hv.
  destruct (decide (x = name)) as [->|Hne]; [congruence|].
  rewrite (du_vars _ _ _ D) in Hp by done. rewrite (du_env _ _ _ D) in Ht.
  eapply (HX x); set_solver.
Qed.

#[local] Opaque newTypeRegistry.

Section step.
Context (g : Tables) (fuel : nat) (Hfuel : fuel ≠ 0%nat) (position : expr → context).
Context (resolveTypeSpec resolveTypeSpecInContext : option string → T (option tyref * Z)).
Context (constTypeSpec : string → option TypeInfo) (declarator : ExportedSymbol → option Declarator).
Context (resolveRest : expr → T (option tyref)) (restDims : expr → T Z).
(** The name of a scalar type, as a specifier, stands for that type. *)
Context (spec_name : ∀ n t s, te_types (ty_env s) !! n = Some t → is_Some (valueKind t) →
  resolveTypeSpec (Some n) s = ROk (Some (RegT n), 0) s).

Notation typing := (typing g).
Notation typeOf := (typeOf g fuel position resolveTypeSpec resolveTypeSpecInContext constTypeSpec
  declarator resolveRest restDims).
Notation checkConstType := (checkConstType g fuel position resolveTypeSpec resolveTypeSpecInContext
  constTypeSpec declarator resolveRest restDims).
Notation checkConstDeclarator := (checkConstDeclarator g fuel position resolveTypeSpec
  resolveTypeSpecInContext constTypeSpec declarator resolveRest restDims).

(** The state [s0] before the declaration of [name], over the constants [X]. *)
Context (X : gset string) (name : string) (s0 : ConstState).
Context (Hscalars : scalars X (cs_typer s0)) (Hbuiltins : has_builtins (cs_typer s0)).
Context (Hfresh : values_of s0 !! name = None).

Notation value e := (evaluateConstExpr (types_of s0) (values_of s0) constTypeSpec e).
Notation during := (during name s0).

(** The type [t] is one of every value of [e]. *)
Definition valueType (e : expr) (t : TypeInfo) : Prop :=
  valued X (cs_typer s0) → ∀ v, value e = Ret (Some v) → fits t v.

Lemma runs_typing {A} (m : Tables → T A) s a t R :
  m (g <| moduleRegistry_ := cs_modules s |>) (cs_typer s) = ROk a t →
  R a (s <| cs_typer := t |>) → runs s (typing m) R.
Proof. intros E. apply runs_ok. unfold ConstDecl.typing. by rewrite E. Qed.

Lemma silent_split s s' : during s → during s' →
  errors_ (ty_checker (cs_typer s)) `prefix_of` errors_ (ty_checker (cs_typer s')) →
  silent s0 s' → silent s0 s ∧ silent s s'.
Proof.
  intros D _. apply prefix_split, (du_errors _ _ _ D).
Qed.

Lemma runs_report s ctx msg : during s →
  runs s (report g ctx msg) (λ _ s', during s' ∧ ¬ silent s0 s').
Proof.
  intros D. eapply runs_typing; [reflexivity|].
  assert (D' := during_frame _ _ _ _ D (frame_emit ctx Error msg (cs_typer s))).
  split; [exact D'|]. intros Hq.
  destruct (silent_split s _ D D') as [_ Hs]; [|done|].
  { apply (fr_errors _ _ (frame_emit ctx Error msg (cs_typer s))). }
  unfold silent, unreported in Hs. simpl in Hs. unfold error in Hs.
  destruct (emitDiag_errors ctx Error msg (ty_checker (cs_typer s))) as [m Hm]. rewrite Hm in Hs.
  rewrite <-(app_nil_r (errors_ _)) in Hs at 2. by apply app_inv_head in Hs.
Qed.

Lemma runs_typeOf s e : during s → core X e = true →
  ty_recursionDepth (cs_typer s0) + height e ≤ MAX_RECURSION_DEPTH →
  runs s (typeOf e) (λ p s', during s' ∧ ∃ t, scalar (types_of s') p t ∧
    (silent s0 s' → valueType e t)).
Proof.
  intros D Hc Hd.
  assert (HX : scalars X (cs_typer s)).
  { intros x Hx. apply (during_scalars X _ _ _ D Hscalars). set_solver. }
  destruct (res_sound (g <| moduleRegistry_ := cs_modules s |>) fuel Hfuel position resolveTypeSpec
    resolveTypeSpecInContext constTypeSpec declarator resolveRest restDims X e (cs_typer s))
    as (p & t & s' & E & F & Ht & Hsound); [done..| | |].
  { unfold has_builtins. by rewrite (du_env _ _ _ D). }
  { by rewrite (du_depth _ _ _ D). }
  eapply runs_typing; [exact E|]. assert (D' := during_frame _ _ _ _ D F).
  split; [done|]. exists t. split; [simpl; by rewrite (fr_env _ _ F)|].
  intros Hq HV v Hv. destruct (silent_split _ _ D D' (fr_errors _ _ F) Hq) as [_ Hqs].
  apply (Hsound Hqs); [|by rewrite (du_env _ _ _ D), (du_values _ _ _ D)].
  intros x q u w Hx. apply (during_valued X _ _ _ D Hfresh HV). set_solver.
Qed.

Lemma runs_info s p t R : scalar (types_of s) (Some p) t → R t s →
  runs s (typing (λ _, infoT p)) R.
Proof.
  intros (n & [= ->] & Ht & _) HR. destruct s as [ty gl ms]. eapply runs_typing; [|exact HR].
  unfold infoT, mbind, M_bind, getS, liftO, deref, resolve. simpl in *. by rewrite Ht.
Qed.

(** Setting the type of the variable. *)
Lemma runs_setType s fs p t dims init : during s → scalar (types_of s0) (Some p) t →
  runs s (setConstType g name fs p dims init) (λ _ s', during s' ∧ silent s s' ∧
    const_type name s' (λ u, u = t)).
Proof.
  intros D Ht. unfold setConstType.
  apply (runs_bind _ _ _ (λ u s', u = t ∧ s' = s)).
  { apply (runs_info _ _ t); [by rewrite (du_env _ _ _ D)|done]. }
  intros u s1 [-> ->]. eapply runs_ok; [reflexivity|].
  destruct (du_local _ _ _ D) as [vi Hvi]. rewrite Hvi. cbv zeta.
  assert (∃ t', putLocal name (vi <| vi_type := Some t |> <| vi_arrayDims := dims |>
    <| vi_initialized := init |>) (Some p) (cs_typer s) = t') as [t' Ht'] by eauto.
  assert (Hd : ∀ gl, during (s <| cs_typer := t' |> <| cs_globalVars := gl |>)).
  { intros gl. destruct D. subst t'. split; simpl in *; try done.
    - intros x Hx. rewrite lookup_insert_ne by done. auto.
    - intros x Hx. rewrite lookup_insert_ne by done. auto.
    - by rewrite lookup_insert_eq.
    - exists (Some p), t. rewrite lookup_insert_eq. split; [done|]. by rewrite du_env0. }
  assert (Hs : ∀ gl, silent s (s <| cs_typer := t' |> <| cs_globalVars := gl |>) ∧
    const_type name (s <| cs_typer := t' |> <| cs_globalVars := gl |>) (λ u, u = t)).
  { intros gl. subst t'. split; [done|]. exists (Some p), t. simpl. rewrite lookup_insert_eq.
    split_and!; [done| |done]. by rewrite (du_env _ _ _ D). }
  rewrite Ht'. destruct fs; [|by eauto]. destruct s as [ty gl ms]. split; [apply (Hd gl)|apply (Hs gl)].
Qed.

(** The check of the initialiser's type [u] against the declared type [t]. *)
Lemma runs_constInit s d p t q u : during s →
  scalar (types_of s0) (Some p) t → scalar (types_of s0) q u →
  runs s (checkConstInit g d p q) (λ ok s', during s' ∧
    (silent s0 s' → ok = true ∧ s' = s ∧ valueKind t = valueKind u)).
Proof.
  intros D Ht Hu. destruct (Hu) as (n & -> & Hn & Ku). unfold checkConstInit.
  apply (runs_bind _ _ _ (λ x s', x = t ∧ s' = s)).
  { apply (runs_info _ _ t); [by rewrite (du_env _ _ _ D)|done]. }
  intros x s1 [-> ->]. apply (runs_bind _ _ _ (λ x s', x = u ∧ s' = s)).
  { apply (runs_info _ _ u); [by rewrite (du_env _ _ _ D)|done]. }
  intros x s1 [-> ->].
  destruct (hasKind TK.Integer t && hasKind TK.Integer u) eqn:Hint.
  { eapply runs_ok; [reflexivity|]. split; [done|]. intros _. split_and!; [done..|].
    apply andb_prop in Hint as [H1 H2]. apply bool_decide_eq_true in H1, H2.
    unfold valueKind. by rewrite H1, H2. }
  case_bool_decide as Hname.
  { eapply runs_ok; [reflexivity|]. split; [done|]. intros _. split_and!; [done..|].
    destruct Ht as (m & [= ->] & Hm & _), Hbuiltins as [_ Hnamed].
    assert (m = n) as -> by (by rewrite <-(Hnamed m t Hm), <-(Hnamed n u Hn)). congruence. }
  eapply runs_bind; [by apply runs_report|]. intros [] s1 [D1 Hloud].
  eapply runs_ok; [reflexivity|]. done.
Qed.

Lemma core_dims g' e t : core X e = true →
  ∃ n, ExprType.resolveExprArrayDims g' fuel position resolveTypeSpec resolveTypeSpecInContext
    constTypeSpec declarator resolveRest restDims e t = ROk n t.
Proof.
  induction e; intros Hc; try done; cbn [core] in Hc; try by eexists.
  - by apply IHe.
  - destruct k; try done; by eexists.
Qed.

Lemma runs_dims s e R : core X e = true → (∀ n, R n s) →
  runs s (literalDims g fuel position resolveTypeSpec resolveTypeSpecInContext constTypeSpec
    declarator resolveRest restDims e) R.
Proof.
  intros Hc HR. destruct s as [ty gl ms].
  destruct (core_dims (g <| moduleRegistry_ := ms |>) e ty Hc) as [n Hn].
  destruct e; try done; (eapply runs_typing; [exact Hn|apply HR]).
Qed.

(** A declaration over the constants [X]: it declares no type or a scalar. *)
Definition scalar_decl (d : ConstDeclarator) : Prop :=
  (∀ ts, cdecl_typeSpec d = Some ts → ∃ t, types_of s0 !! ts = Some t ∧ is_Some (valueKind t)) ∧
  (∀ e, cdecl_expression d = Some e → core X e = true ∧
    ty_recursionDepth (cs_typer s0) + height e ≤ MAX_RECURSION_DEPTH).

Lemma const_type_weaken s (P Q : TypeInfo → Prop) :
  const_type name s P → (∀ t, P t → Q t) → const_type name s Q.
Proof. intros (p & t & ? & ? & ?) HQ. exists p, t. auto. Qed.

Lemma during_errors s s' : during s → silent s s' → silent s0 s' → silent s0 s.
Proof. unfold silent, unreported. congruence. Qed.

Lemma runs_constType s fs d : during s → cdecl_name d = name → scalar_decl d →
  runs s (checkConstType d fs) (λ ok s', during s' ∧ (silent s0 s' → ok = true ∧
    ∀ e, cdecl_expression d = Some e → const_type name s' (valueType e))).
Proof.
  intros D Hname [Hspec Hexpr]. unfold ConstDecl.checkConstType. rewrite Hname.
  destruct (cdecl_typeSpec d) as [ts|].
  - destruct (Hspec ts eq_refl) as (t & Ht & Kt).
    assert (Hp : scalar (types_of s0) (Some (RegT ts)) t) by by exists ts.
    eapply runs_bind.
    { eapply (runs_typing _ _ (Some (RegT ts), 0) _ (λ r s', r = (Some (RegT ts), 0) ∧ s' = s)).
      - apply (spec_name ts t); [by rewrite (du_env _ _ _ D)|done].
      - by destruct s. }
    intros r s1 [-> ->]. cbn [fst snd].
    apply (runs_bind _ _ _ (λ ok s', during s' ∧ (silent s0 s' → ok = true ∧
      ∀ e, cdecl_expression d = Some e → valueType e t))).
    + destruct (cdecl_expression d) as [e|].
      * destruct (Hexpr e eq_refl) as [Hc Hd].
        eapply runs_bind; [by apply runs_typeOf|]. intros q s1 (D1 & u & Hu & Hval).
        rewrite (du_env _ _ _ D1) in Hu.
        eapply runs_weaken; [by apply (runs_constInit _ _ _ t _ u)|].
        intros ok s2 [D2 H2]. split; [done|]. intros Hq. destruct (H2 Hq) as (-> & -> & Hk).
        split; [done|]. intros e' [= <-] HV v Hv. unfold fits. rewrite Hk. by apply (Hval Hq).
      * by eapply runs_ok.
    + intros ok s1 [D1 H1]. destruct ok; [|eapply runs_ok; [reflexivity|]; split; [done|naive_solver]].
      eapply runs_bind; [by apply (runs_setType _ _ _ t)|]. intros _ s2 (D2 & Hs & Hty).
      eapply runs_ok; [reflexivity|]. split; [done|]. intros Hq. split; [done|]. intros e He.
      eapply const_type_weaken; [exact Hty|]. intros u ->.
      by apply (H1 (during_errors _ _ D1 Hs Hq)).
  - destruct (cdecl_expression d) as [e|]; [|by eapply runs_ok].
    destruct (Hexpr e eq_refl) as [Hc Hd].
    eapply runs_bind; [by apply runs_typeOf|]. intros q s1 (D1 & u & Hu & Hval).
    rewrite (du_env _ _ _ D1) in Hu. destruct (Hu) as (n & -> & Hn & Ku).
    apply (runs_bind _ _ _ (λ x s', x = Some u ∧ s' = s1)).
    { eapply runs_typing; [apply (scalar_info _ _ u); by rewrite (du_env _ _ _ D1)|by destruct s1]. }
    intros x s2 [-> ->].
    assert (hasKind TK.Void u = false) as ->.
    { unfold valueKind, hasKind in *. by destruct (ti_kind u); destruct Ku. }
    eapply runs_bind; [by apply (runs_dims s1 e (λ _ s', s' = s1))|]. intros dims s2 ->.
    eapply runs_bind; [by apply (runs_setType _ _ _ u)|]. intros _ s2 (D2 & Hs & Hty).
    eapply runs_ok; [reflexivity|]. split; [done|]. intros Hq. split; [done|]. intros e' [= <-].
    eapply const_type_weaken; [exact Hty|]. intros v ->. by apply Hval, (during_errors _ _ D1 Hs).
Qed.

Context (Hvalues : map_Forall (λ _ v, value_ok v = true) (values_of s0)).

Lemma during_after s : during s → after name s0 s.
Proof. intros []. split; auto; [intros|]; by rewrite du_values0. Qed.

Lemma runs_store s e : during s → core X e = true →
  (silent s0 s → const_type name s (valueType e)) →
  runs s (storeConstValue g constTypeSpec name e) (λ _ s', after name s0 s' ∧
    (silent s0 s' → valued X (cs_typer s0) → valued (X ∪ {[name]}) (cs_typer s'))).
Proof.
  intros D Hc Hty. assert (Hv0 := core_value (types_of s0) (values_of s0) constTypeSpec X e Hvalues Hc).
  assert (Hnone : value e = Ret None → after name s0 s ∧
    (silent s0 s → valued X (cs_typer s0) → valued (X ∪ {[name]}) (cs_typer s))).
  { intros _. split; [by apply during_after|]. intros _. by apply during_valued. }
  unfold runs, storeConstValue, mbind, M_bind, getS, liftO.
  rewrite (du_env _ _ _ D), (du_values _ _ _ D).
  unfold valueType in Hty. destruct (value e) as [[v|]| | |]; try done; [|by apply Hnone].
  assert (Hafter : ∀ m, let s' := s <| cs_typer := (cs_typer s)
      <| ty_compileTimeValues := <[name := v]> (values_of s) |> |> <| cs_modules := m |> in
    after name s0 s' ∧
    (silent s0 s' → valued X (cs_typer s0) → valued (X ∪ {[name]}) (cs_typer s'))).
  { intros m s'. destruct (during_after _ D). split.
    - split; try done; simpl.
      + intros x Hx. rewrite lookup_insert_ne by done. auto.
      + by apply map_Forall_insert_2.
    - intros Hq HV x p t w Hx Hp Ht Hw. destruct (decide (x = name)) as [->|Hne].
      + simpl in Hw. rewrite lookup_insert_eq in Hw. injection Hw as <-.
        destruct (Hty Hq) as (p' & t' & Hp' & Ht' & Hfit). simpl in Hp, Ht. simplify_eq.
        destruct Ht as (n & -> & Hn & _), Ht' as (n' & [= ->] & Hn' & _). simplify_eq. by apply Hfit.
      + simpl in Hw. rewrite lookup_insert_ne in Hw by done.
        eapply (during_valued X _ _ _ D Hfresh HV); eauto. }
  assert (Hid : ∀ s1 : ConstState, s1 <| cs_modules := cs_modules s1 |> = s1) by (by intros []).
  unfold modifyS. cbv zeta. specialize (Hafter (cs_modules s)) as Hsame. cbv zeta in Hsame.
  destruct v; try (destruct s; exact Hsame). destruct s as [ty gl [ms|]]; [|exact Hsame].
  exact (Hafter _).
Qed.

Lemma int32_scalar : ∃ t, scalar (types_of s0) (Some (RegT "int32")) t.
Proof.
  destruct Hbuiltins as [Hb _].
  assert (∃ t, newTypeRegistry !! "int32" = Some t ∧ is_Some (valueKind t)) as (t & Ht & Hk).
  { eexists. split; [vm_compute; reflexivity|done]. }
  exists t, "int32". split_and!; [done|by eapply lookup_weaken|done].
Qed.

(** Checking one declaration ends, with at most the constant's own entries changed. *)
Lemma declarator_step d : cdecl_name d = name → declarable name s0 → scalar_decl d →
  runs s0 (checkConstDeclarator d) (λ _ s', after name s0 s' ∧
    (silent s0 s' → valued X (cs_typer s0) → valued (X ∪ {[name]}) (cs_typer s'))).
Proof.
  intros Hname Hdecl Hd. unfold ConstDecl.checkConstDeclarator. cbv zeta. rewrite Hname.
  apply (runs_bind _ _ _ (λ a s', a = s0 ∧ s' = s0)); [by apply (runs_ok _ _ s0 s0)|].
  intros a s1 [-> ->].
  set (fs := bool_decide (locals_ (ty_checker (cs_typer s0)) !! name = None)).
  apply (runs_bind _ _ _ (λ _ s', during s')).
  - destruct fs eqn:Hfs; subst fs.
    + destruct int32_scalar as [t Ht]. destruct (Ht) as (n & [= <-] & Hn & _).
      apply (runs_bind _ _ _ (λ p s', p = Some (RegT "int32") ∧ s' = s0)).
      { apply (runs_typing _ _ (Some (RegT "int32")) (cs_typer s0)); [|by destruct s0].
        unfold lookupT, mbind, M_bind, getS, mret, M_ret, reg_lookup_ref. by rewrite Hn. }
      intros p s1 [-> ->]. apply (runs_bind _ _ _ (λ u s', u = Some t ∧ s' = s0)).
      { apply (runs_typing _ _ (Some t) (cs_typer s0)); [by apply scalar_info|by destruct s0]. }
      intros u s1 [-> ->]. eapply runs_ok; [reflexivity|]. split; try done; simpl.
      * intros x Hx. by rewrite lookup_insert_ne.
      * intros x Hx. by rewrite lookup_insert_ne.
      * by rewrite lookup_insert_eq.
      * exists (Some (RegT "int32")), t. by rewrite lookup_insert_eq.
    + apply bool_decide_eq_false in Hfs. destruct Hdecl as [|Hty]; [done|].
      eapply runs_ok; [reflexivity|]. split; try done.
      by apply not_eq_None_Some.
  - intros [] s1 D. destruct (cdecl_expression d) as [e|] eqn:He.
    + assert (Hce : core X e = true) by by apply Hd.
      case_match.
      * eapply runs_weaken; [by apply runs_report|]. intros _ s2 [D2 Hloud].
        split; [by apply during_after|done].
      * eapply runs_bind; [by apply (runs_constType s1 fs d)|]. intros ok s2 [D2 H2].
        destruct ok.
        -- apply runs_store; [done..|]. intros Hq. by apply (H2 Hq).
        -- eapply runs_ok; [reflexivity|]. split; [by apply during_after|]. intros Hq.
           by destruct (H2 Hq).
    + eapply runs_bind; [by apply (runs_constType s1 fs d)|]. intros ok s2 [D2 H2].
      eapply runs_ok; [reflexivity|]. split; [by apply during_after|]. intros _. by apply during_valued.
Qed.
End step.

(** ** Statements *)

Section statement.
Context (g : Tables) (fuel : nat) (Hfuel : fuel ≠ 0%nat) (position : expr → context).
Context (resolveTypeSpec resolveTypeSpecInContext : option string → T (option tyref * Z)).
Context (constTypeSpec : string → option TypeInfo) (declarator : ExportedSymbol → option Declarator).
Context (resolveRest : expr → T (option tyref)) (restDims : expr → T Z).
Context (spec_name : ∀ n t s, te_types (ty_env s) !! n = Some t → is_Some (valueKind t) →
  resolveTypeSpec (Some n) s = ROk (Some (RegT n), 0) s).

(** The constants [X], of scalar types, and those of the declarations [ds]. *)
Definition with_names (X : gset string) (ds : list ConstDeclarator) : gset string :=
  X ∪ list_to_set (cdecl_name <$> ds).

(** Each declaration is over [X] and the constants before it. *)
Fixpoint scalar_decls (X : gset string) (s : ConstState) (ds : list ConstDeclarator) : Prop :=
  match ds with
  | [] => True
  | d :: ds => scalar_decl X s d ∧ scalar_decls (X ∪ {[cdecl_name d]}) s ds
  end.

(** Constants of scalar types in a state with the built-in types and 64-bit values. *)
Record const_state (X : gset string) (s : ConstState) : Prop := {
  co_scalars : scalars X (cs_typer s);
  co_builtins : has_builtins (cs_typer s);
  co_values : map_Forall (λ _ v, value_ok v = true) (values_of s) }.

(** A name that can be declared and has no value yet. *)
Definition new_const (s : ConstState) (x : string) : Prop :=
  declarable x s ∧ values_of s !! x = None.

Lemma after_state X name s s' : const_state X s → after name s s' →
  const_state (X ∪ {[name]}) s'.
Proof.
  intros [HX HB _] []. split; [|unfold has_builtins; by rewrite af_env0|done].
  intros x Hx. destruct (decide (x = name)) as [->|Hne]; [done|].
  destruct (HX x) as (Hl & p & t & Hp & Ht); [set_solver|].
  split; [by apply af_locals0|]. exists p, t. by rewrite af_vars0, af_env0.
Qed.

Lemma after_new name s s' x : after name s s' → x ≠ name → new_const s x → new_const s' x.
Proof.
  intros [] Hx [Hd Hv]. split; [|by rewrite af_values0].
  destruct Hd as [Hn|(p & t & Hp & Ht)].
  - left. apply eq_None_not_Some. rewrite af_locals0 by done. by apply eq_None_not_Some.
  - right. exists p, t. by rewrite af_vars0, af_env0.
Qed.

Lemma after_decls name s s' X ds : after name s s' → scalar_decls X s ds → scalar_decls X s' ds.
Proof.
  intros A. revert X. induction ds as [|d ds IH]; intros X; simpl; [done|].
  intros [[H1 H2] Hds]. split; [|auto]. split.
  - by rewrite (af_env _ _ _ A).
  - by rewrite (af_depth _ _ _ A).
Qed.

End statement.

(** ** Examples *)

#[local] Transparent newTypeRegistry.

Definition startConst : ConstState := {|
  cs_typer := startTyper; cs_globalVars := ∅; cs_modules := None |}.

Definition constant (name : string) (ts : option string) (e : expr) : ConstDeclarator := {|
  cdecl_name := name; cdecl_typeSpec := ts; cdecl_expression := Some e; cdecl_ctx := None |}.

Notation exampleConsts := (checkConstDeclStmt exampleTables 1 (λ _, None) namedSpec namedSpec (λ _, None)
  (λ _, None) noRest noDims true).

(** [const A = 2*3+1, B: uint8 = A, C = A<7&&true, D = C?1.5f32:2.25, E = 'a';] *)
Definition example_decls : list ConstDeclarator := [
  constant "A" None (EBin BAddSub "+" (EBin BMul "*" (ELit IntLit "2") (ELit IntLit "3")) (ELit IntLit "1"));
  constant "B" (Some "uint8") (EIdent "A");
  constant "C" None (EBin BLogicalAnd "&&" (EBin BRel "<" (EIdent "A") (ELit IntLit "7")) (ELit BoolLit "true"));
  constant "D" None (ETernary (EIdent "C") (ELit SuffixedFloatLit "1.5f32") (ELit FloatLit "2.25"));
  constant "E" None (ELit CharLit "'a'")].

Lemma startConst_ok : const_state ∅ startConst.
Proof.
  split; [intros x Hx; set_solver|split; [done|]|].
  { apply (registry_named_builtins ∅), registry_named_empty. }
  apply map_Forall_empty.
Qed.

(** What a state says of a constant: messages apart, its type's name and its value. *)
Definition constant_of (s : ConstState) (x : string) : option (string * option ComptimeValue) :=
  p ← ty_varTypes (cs_typer s) !! x; q ← p; t ← resolve (env_of s) q;
  Some (ti_name t, values_of s !! x).


(** The messages of a statement, and what is known of a constant after it. *)
Definition declares (ds : list ConstDeclarator) (x : string)
    : option (list string * option (string * option ComptimeValue)) :=
  match exampleConsts ds startConst with
  | ROk _ s => Some (errors_ (ty_checker (cs_typer s)), constant_of s x)
  | _ => None
  end.

(** The number three and a half. *)
Definition threeHalves : double := match stod "3.5" with Ret d => d | _ => dzero end.

(** Constants whose value is not one of their type, each accepted without a message.
    [const B: uint8 = 300] keeps 300, and [const C = 'a'*1000] is a character with the code
    97000.  [3.5i32] has type [int32] and a floating-point value.  [null] and [5uinf] have no
    type, so they may initialise a constant of any type.  A constant declared again keeps
    the value of its predecessor if its own initialiser has none, here 1/(1-1) after 3.5. *)
Lemma constDecl_departures :
  declares [constant "B" (Some "uint8") (ELit IntLit "300")] "B" =
    Some ([], Some ("uint8", Some (intVal 300))) ∧
  declares [constant "C" None (EBin BMul "*" (ELit CharLit "'a'") (ELit IntLit "1000"))] "C" =
    Some ([], Some ("char", Some (intVal 97000))) ∧
  declares [constant "F" None (ELit SuffixedFloatIntLit "3.5i32")] "F" =
    Some ([], Some ("int32", Some (floatVal threeHalves))) ∧
  declares [constant "N" (Some "string") (ELit NullLit "null")] "N" =
    Some ([], Some ("string", Some (intVal 0))) ∧
  declares [constant "U" (Some "bool") (ELit SuffixedIntLit "5uinf")] "U" =
    Some ([], Some ("bool", Some (intVal 5))) ∧
  declares [constant "A" None (ELit FloatLit "3.5");
            constant "A" None (EBin BMul "/" (ELit IntLit "1")
              (EParen (EBin BAddSub "-" (ELit IntLit "1") (ELit IntLit "1"))))] "A" =
    Some ([], Some ("int32", Some (floatVal threeHalves))).
Proof. repeat split; vm_compute; reflexivity. Qed.
