(* ===== verification/LspTransport.v ===== *)
(** * The transport of the language server

    [lsp/LspTransport.cpp]: messages with a [Content-Length] header on the standard
    streams.  The standard input is the string of the bytes that are left. *)

From S2P Require Import Prelude.
From S2P Require Import CxxLib.
Local Open Scope Z_scope.

Definition CR : ascii := ascii_of_N 13.
Definition LF : ascii := ascii_of_N 10.

(** [std::getline]: the line and what is left; [None] at the end of the input. *)
Fixpoint splitLine (s : string) : string * string :=
  match s with
  | "" => ("", "")
  | String c s =>
      if bool_decide (c = LF) then ("", s)
      else let '(line, rest) := splitLine s in (String c line, rest)
  end.

Definition getline (s : string) : option (string * string) :=
  match s with "" => None | _ => Some (splitLine s) end.

(** [if (!line.empty() && line.back() == '\r') line.pop_back();] *)
Fixpoint stripCR (line : string) : string :=
  match line with
  | "" => ""
  | String c "" => if bool_decide (c = CR) then "" else line
  | String c line => String c (stripCR line)
  end.

(** [std::atoi], which C leaves undefined on a number that is no [int]. *)
Definition atoi (s : string) : outcome Z :=
  match strtol_core 10 s with
  | None => Ret 0
  | Some (v, _) => if (- 2 ^ 31 <=? v) && (v <? 2 ^ 31) then Ret v else Undef
  end.

Definition contentLengthPrefix : string := "Content-Length: ".

(** The loop over the headers, with the last content length: the length and what is left. *)
Fixpoint readHeaders (fuel : nat) (contentLength : Z) (s : string) : outcome (option (Z * string)) :=
  match fuel with
  | O => NoFuel
  | S fuel =>
      match getline s with
      | None => Ret None
      | Some (line, rest) =>
          let line := stripCR line in
          if bool_decide (line = "") then Ret (Some (contentLength, rest)) else
          n ← (if starts_with contentLengthPrefix line
               then atoi (str_drop (String.length contentLengthPrefix) line)
               else Ret contentLength);
          readHeaders fuel n rest
      end
  end.

(** The message and what is left of the input; [None] at its end or after a bad length.
    Every line shortens the input, so its length is enough fuel. *)
Definition readMessage (s : string) : outcome (option (string * string)) :=
  r ← readHeaders (S (String.length s)) (-1) s;
  match r with
  | None => Ret None
  | Some (contentLength, rest) =>
      if contentLength <=? 0 then Ret None else
      if (String.length rest <? Z.to_nat contentLength)%nat then Ret None
      else Ret (Some (str_take (Z.to_nat contentLength) rest, str_drop (Z.to_nat contentLength) rest))
  end.

(** What [sendMessage] writes. *)
Definition sendMessage (body : string) : string :=
  contentLengthPrefix +:+ to_string (Z.of_nat (String.length body)) +:+
  String CR (String LF (String CR (String LF body))).

(** ** Lines *)

Definition no_lf (s : string) : bool := str_forall (λ c, negb (bool_decide (c = LF))) s.

Lemma splitLine_app line rest : no_lf line = true → splitLine (line +:+ String LF rest) = (line, rest).
Proof.
  unfold no_lf. induction line as [|c line IH]; simpl; rewrite ?str_app_nil, ?str_app_cons; [done|].
  intros [Hc Hl]%andb_prop. simpl. rewrite (IH Hl). by destruct (bool_decide (c = LF)).
Qed.

Lemma getline_app line rest : no_lf line = true → getline (line +:+ String LF rest) = Some (line, rest).
Proof. intros H. unfold getline. rewrite splitLine_app by done. by destruct line. Qed.

Lemma stripCR_app line : stripCR (line +:+ String CR "") = line.
Proof.
  induction line as [|c line IH]; rewrite ?str_app_nil, ?str_app_cons; [done|].
  simpl. rewrite IH. by destruct line.
Qed.

Lemma no_lf_app a b : no_lf (a +:+ b) = no_lf a && no_lf b.
Proof.
  unfold no_lf. induction a as [|c a IH]; rewrite ?str_app_nil, ?str_app_cons; [done|].
  simpl. by rewrite IH, andb_assoc.
Qed.

(** One header, ended as the protocol does. *)
Lemma readHeaders_line f n line rest : no_lf line = true → line ≠ "" →
  readHeaders (S f) n (line +:+ String CR (String LF rest)) =
  (m ← (if starts_with contentLengthPrefix line
        then atoi (str_drop (String.length contentLengthPrefix) line) else Ret n);
   readHeaders f m rest).
Proof.
  intros Hl Hne. cbn [readHeaders].
  change (String CR (String LF rest)) with (String CR "" +:+ String LF rest).
  rewrite <-str_app_assoc, getline_app, stripCR_app by (by rewrite no_lf_app, Hl).
  by rewrite bool_decide_false.
Qed.

Lemma readHeaders_end f n rest :
  readHeaders (S f) n (String CR (String LF rest)) = Ret (Some (n, rest)).
Proof. reflexivity. Qed.

(** Without a [Content-Length] among them, more headers change nothing. *)
Definition other_header (line : string) : bool :=
  no_lf line && negb (bool_decide (line = "")) && negb (starts_with contentLengthPrefix line).

Fixpoint headers (l : list string) (rest : string) : string :=
  match l with [] => rest | h :: l => h +:+ String CR (String LF (headers l rest)) end.

Lemma readHeaders_others l f n rest : forallb other_header l = true →
  readHeaders (length l + f) n (headers l rest) = readHeaders f n rest.
Proof.
  induction l as [|h l IH]; [done|]. cbn [forallb headers length Nat.add].
  intros [Hh Hl]%andb_prop. unfold other_header in Hh.
  apply andb_prop in Hh as [[H1 H2]%andb_prop H3]. apply negb_true_iff in H2, H3.
  apply bool_decide_eq_false in H2. rewrite readHeaders_line, H3 by done. by apply IH.
Qed.

Lemma headers_length l rest : forallb other_header l = true →
  (length l + String.length rest ≤ String.length (headers l rest))%nat.
Proof.
  induction l as [|h l IH]; simpl; [done|]. intros [_ Hl]%andb_prop. rewrite str_length_app.
  simpl. specialize (IH Hl). lia.
Qed.

Lemma atoi_to_string n : 0 ≤ n < 2 ^ 31 → atoi (to_string n) = Ret n.
Proof.
  intros Hn. unfold atoi. rewrite strtol_core_print by (auto; lia).
  by rewrite (proj2 (Z.leb_le _ _)), (proj2 (Z.ltb_lt _ _)) by lia.
Qed.

Lemma to_string_nonempty n : 0 ≤ n → to_string n ≠ "".
Proof. intros Hn Heq. pose proof (strtol_core_print 10 n (or_intror eq_refl) Hn) as H. by rewrite Heq in H. Qed.

Lemma starts_with_app p s : starts_with p (p +:+ s) = true.
Proof.
  unfold starts_with. induction p as [|c p IH]; rewrite ?str_app_nil, ?str_app_cons; simpl;
    [by destruct s|]. by destruct (Ascii.ascii_dec c c).
Qed.

(** A message behind other headers is read as it was sent. *)
Lemma readMessage_sent l body rest : forallb other_header l = true →
  0 < Z.of_nat (String.length body) < 2 ^ 31 →
  readMessage (headers l (sendMessage body +:+ rest)) = Ret (Some (body, rest)).
Proof.
  intros Hl Hlen. unfold readMessage.
  pose proof (headers_length l (sendMessage body +:+ rest) Hl) as Hmore.
  rewrite str_length_app in Hmore. unfold sendMessage in *.
  set (number := to_string (Z.of_nat (String.length body))) in *.
  assert (Hnum : no_lf number = true) by (apply print_nonneg_forall; [by_digits|lia]).
  set (rest' := body +:+ rest).
  assert (Heq : (contentLengthPrefix +:+ number +:+ String CR (String LF (String CR (String LF body)))) +:+ rest
    = (contentLengthPrefix +:+ number) +:+ String CR (String LF (String CR (String LF rest')))).
  { by rewrite !str_app_assoc, !str_app_cons. }
  rewrite Heq.
  rewrite Heq in Hmore. rewrite !str_length_app in Hmore. simpl in Hmore.
  set (L := String.length (headers l _)) in *.
  assert (Hfuel : ∃ f, S L = (length l + S (S f))%nat) by (exists (L - length l - 1)%nat; lia).
  destruct Hfuel as [f ->]. rewrite readHeaders_others by done.
  rewrite readHeaders_line; [|by rewrite no_lf_app, Hnum|done].
  assert (Hpre : starts_with contentLengthPrefix (contentLengthPrefix +:+ number) = true).
  { apply starts_with_app. }
  rewrite Hpre, str_drop_app. unfold number. rewrite atoi_to_string by lia.
  cbn [mbind outcome_bind]. rewrite readHeaders_end. cbn [mbind outcome_bind].
  rewrite (proj2 (Z.leb_gt _ _)) by lia. rewrite Nat2Z.id. unfold rest'.
  rewrite str_length_app, (proj2 (Nat.ltb_ge _ _)) by lia.
  by rewrite str_take_app, str_drop_app.
Qed.

(** Reading until the end of the input or a bad header. *)
Fixpoint readAll (fuel : nat) (s : string) : outcome (list string) :=
  match fuel with
  | O => NoFuel
  | S fuel =>
      r ← readMessage s;
      match r with
      | None => Ret []
      | Some (body, rest) => bodies ← readAll fuel rest; Ret (body :: bodies)
      end
  end.

Definition framed (l : list (list string * string)) : string :=
  fold_right (λ m s, headers m.1 (sendMessage m.2 +:+ s)) "" l.

(** A message a frame can hold: not empty and of at most 2^31-1 bytes. *)
Definition sendable (m : list string * string) : Prop :=
  forallb other_header m.1 = true ∧ 0 < Z.of_nat (String.length m.2) < 2 ^ 31.

(** C40: The transport is a round trip.  A stream of messages, each framed as the server
    frames it and perhaps behind other headers, is read back as the messages that were sent,
    to the last byte; whatever the messages contain, line ends and header-like text
    included.  The empty message, which the protocol does not use, and one of 2^31 bytes
    are left out. *)
Theorem readAll_framed l : Forall sendable l →
  readAll (S (length l)) (framed l) = Ret l.*2.
Proof.
  induction 1 as [|[h body] l [Hh Hb] _ IH]; [reflexivity|].
  cbn [length fst snd] in *.
  change (framed ((h, body) :: l)) with (headers h (sendMessage body +:+ framed l)).
  remember (S (length l)) as f. cbn [readAll].
  rewrite readMessage_sent by done. cbn [mbind outcome_bind]. by rewrite IH.
Qed.

Lemma readAll_framed_witness :
  readAll 4 (framed [([], "{}"); (["Content-Type: x"], sendMessage "a"); ([], String LF "]")]) =
    Ret ["{}"; sendMessage "a"; String LF "]"].
Proof.
  apply (readAll_framed [([], "{}"); (["Content-Type: x"], sendMessage "a"); ([], String LF "]")]).
  apply (bool_decide_unpack _). vm_compute. exact I.
Defined.
