(* ===== verification/LspServer.v ===== *)
(** * The language server

    The message loop of [lsp/LspServer.cpp]: documents, the caches of parse results,
    document indices, tokens and diagnostics, the deferred diagnostics, and one handler per
    method.  [lsp/DocumentStore.cpp] and [lsp/ParseCache.cpp] are part of the state.

    JSON values are those of a library, an instance of [JsonOps].  The providers behind the
    handlers, the project, the file system and the clock are the operations of [Extern] on a
    world the model leaves abstract.  A parse result is an object on a heap that its cache
    owns; a document index borrows one, and its use is undefined once the object is gone. *)

From S2P Require Import Prelude.
From S2P Require Import CxxLib.
From S2P Require Import Ownership.
From S2P Require Import LspTransport.
Local Open Scope Z_scope.

(** ** The JSON library *)

(** What the server uses of [nlohmann::json].  [member] is [operator[]] on a constant
    object, undefined for a missing key; [element0] is [operator[](0)].  Parsing fails in two
    ways, by a [parse_error] or, on a number too large for a [double] such as [1e999], by an
    [out_of_range], which is no [parse_error]. *)
Inductive parsed (J : Type) :=
| Parsed (j : J)
| ParseError
| NumberOutOfRange.
Arguments Parsed {_} _. Arguments ParseError {_}. Arguments NumberOutOfRange {_}.

Class JsonOps (J : Type) := {
  j_null : J;
  j_bool : bool → J;
  j_num : Z → J;
  j_str : string → J;
  j_arr : list J → J;
  j_obj : list (string * J) → J;
  parse : string → parsed J;
  dump : J → option string;
  contains : J → string → bool;
  member : J → string → outcome J;
  element0 : J → outcome J;
  j_empty : J → bool;
  is_null : J → bool;
  get_string : J → outcome string;
  get_size : J → outcome Z }.

(** ** What the providers return *)

Record HoverResult := {
  ho_contents : string; ho_line : Z; ho_col : Z; ho_endLine : Z; ho_endCol : Z }.

Record DefinitionResult := {
  de_uri : string; de_line : Z; de_col : Z; de_endLine : Z; de_endCol : Z }.

Record CompletionItem := {
  ci_label : string; ci_kind : Z; ci_detail : string; ci_documentation : string;
  ci_insertText : string; ci_insertTextFormat : Z; ci_sortText : string; ci_filterText : string }.

Record SignatureInfo := {
  si_label : string; si_documentation : string; si_parameters : list string;
  si_activeParameter : Z }.

Record SignatureHelpResult := {
  sh_signatures : list SignatureInfo; sh_activeSignature : Z; sh_activeParameter : Z }.

(** The parts of the server in other files, on a world [W] with the project, the files and
    the clock.  A position is a line and a column; a provider that takes an index gets the
    parse result the index was built from; [useModules] are the identifiers of the module
    paths of the [use] declarations, none without a tree. *)
Record Extern (W Parse : Type) := {
  parseString : string → Parse;
  has_tree : Parse → bool;
  steadyMs : M W Z;
  runDiagnostics : string → string → Parse → M W (list (Diagnostic * string));
  provideHover : string → Z → Z → string → Parse → option Parse → M W (option HoverResult);
  provideDefinition : string → Z → Z → string → Parse → option Parse → M W (option DefinitionResult);
  provideCompletion : string → Z → Z → string → Parse → option Parse → M W (list CompletionItem);
  provideSignature : string → Z → Z → string → Parse → M W (option SignatureHelpResult);
  tokenize : string → Parse → M W (list Z);
  currentPath : M W string;
  findProjectRoot : string → M W string;
  findMainFile : string → M W string;
  readFile : string → M W (option string);
  isValid : M W bool;
  buildFromText : string → string → M W bool;
  buildProject : string → M W bool;
  useModules : Parse → list (list string);
  hasModule : string → M W bool;
  tryRegister : string → string → M W bool;
  stdlibSearchPaths : M W (list string);
  warmCaches : string → M W unit }.
Arguments parseString {_ _}. Arguments has_tree {_ _}. Arguments steadyMs {_ _}.
Arguments runDiagnostics {_ _}. Arguments provideHover {_ _}. Arguments provideDefinition {_ _}.
Arguments provideCompletion {_ _}. Arguments provideSignature {_ _}. Arguments tokenize {_ _}.
Arguments currentPath {_ _}. Arguments isValid {_ _}.
Arguments findProjectRoot {_ _}. Arguments findMainFile {_ _}. Arguments readFile {_ _}.
Arguments buildFromText {_ _}. Arguments buildProject {_ _}. Arguments useModules {_ _}. Arguments hasModule {_ _}.
Arguments tryRegister {_ _}. Arguments stdlibSearchPaths {_ _}.
Arguments warmCaches {_ _}.

(** ** State *)

(** What the server sends. *)
Inductive outgoing (J : Type) :=
| Response (id result : J)
| ErrorResponse (id : J) (errorCode : Z) (message : string)
| Notification (method : string) (params : J).
Arguments Response {_} _ _.
Arguments ErrorResponse {_} _ _ _.
Arguments Notification {_} _ _.

(** [parses_] are the parse results alive, by address. *)
Record Server (J W Parse : Type) := {
  documents_ : gmap string string;
  parses_ : gmap nat Parse;
  nextParse_ : nat;
  parseCache_ : gmap string (string * nat);
  docIndexCache_ : gmap string (string * nat);
  cachedTokens_ : gmap string (string * list Z);
  cachedDiags_ : gmap string (string * list (Diagnostic * string));
  pendingUri_ : string;
  pendingSource_ : string;
  pendingSinceMs_ : Z;
  initialized_ : bool;
  shutdown_ : bool;
  rootPath_ : string;
  mainFilePath_ : string;
  contextProjectRoot_ : string;
  contextAnchorPath_ : string;
  sent_ : list (outgoing J);
  world_ : W }.
Arguments documents_ {_ _ _}. Arguments parses_ {_ _ _}. Arguments nextParse_ {_ _ _}.
Arguments parseCache_ {_ _ _}. Arguments docIndexCache_ {_ _ _}. Arguments cachedTokens_ {_ _ _}.
Arguments cachedDiags_ {_ _ _}. Arguments pendingUri_ {_ _ _}. Arguments pendingSource_ {_ _ _}.
Arguments pendingSinceMs_ {_ _ _}. Arguments initialized_ {_ _ _}. Arguments shutdown_ {_ _ _}.
Arguments rootPath_ {_ _ _}. Arguments mainFilePath_ {_ _ _}. Arguments contextProjectRoot_ {_ _ _}.
Arguments contextAnchorPath_ {_ _ _}. Arguments sent_ {_ _ _}. Arguments world_ {_ _ _}.

#[export] Instance settable_Server J W Parse : Settable (Server J W Parse) := λ s,
  Build_Server J W Parse (documents_ s) (parses_ s) (nextParse_ s) (parseCache_ s) (docIndexCache_ s)
    (cachedTokens_ s) (cachedDiags_ s) (pendingUri_ s) (pendingSource_ s) (pendingSinceMs_ s)
    (initialized_ s) (shutdown_ s) (rootPath_ s) (mainFilePath_ s) (contextProjectRoot_ s)
    (contextAnchorPath_ s) (sent_ s) (world_ s).

Definition kDiagDebounceMs : Z := 250.
Definition kMethodNotFound : Z := -32601.
Definition kInvalidRequest : Z := -32600.

Definition filePrefix : string := "file://".
Definition uriToPath (uri : string) : string :=
  if starts_with filePrefix uri then str_drop (String.length filePrefix) uri else uri.
Definition pathToUri (path : string) : string := filePrefix +:+ path.

(** [try { m } catch (...) { h }] *)
Definition tryCatch {S A} (m h : M S A) : M S A := λ s,
  match m s with RThrow _ s' => h s' | r => r end.

Section server.
Context {J W Parse : Type} `{JsonOps J} (X : Extern W Parse).
Notation Srv := (M (Server J W Parse)).

Definition throwS {A} : Srv A := λ s, RThrow OtherException s.

Definition liftW {A} (m : M W A) : Srv A := λ s,
  match m (world_ s) with
  | ROk a w => ROk a (s <| world_ := w |>)
  | RThrow e w => RThrow e (s <| world_ := w |>)
  | RUndef => RUndef
  | RNoFuel => RNoFuel
  end.

(** ** Sending *)

Definition range (l c el ec : Z) : J := j_obj [
  ("start", j_obj [("line", j_num l); ("character", j_num c)]);
  ("end", j_obj [("line", j_num el); ("character", j_num ec)])].

(** The message of [sendResponse], [sendError] and [sendNotification]. *)
Definition encode (o : outgoing J) : J :=
  match o with
  | Response id result => j_obj [("jsonrpc", j_str "2.0"); ("id", id); ("result", result)]
  | ErrorResponse id errorCode message => j_obj [("jsonrpc", j_str "2.0"); ("id", id);
      ("error", j_obj [("code", j_num errorCode); ("message", j_str message)])]
  | Notification method params =>
      j_obj [("jsonrpc", j_str "2.0"); ("method", j_str method); ("params", params)]
  end.

(** [response.dump()] throws on text that is no UTF-8. *)
Definition send (o : outgoing J) : Srv unit :=
  match dump (encode o) with
  | None => throwS
  | Some _ => modifyS (λ s, s <| sent_ := sent_ s ++ [o] |>)
  end.

(** [sendResponse(msg["id"], result)] *)
Definition respond (msg result : J) : Srv unit := id ← liftO (member msg "id"); send (Response id result).

Definition publishMethod : string := "textDocument/publishDiagnostics".
Definition diagnosticsParams (uri : string) (diags : J) : J :=
  j_obj [("uri", j_str uri); ("diagnostics", diags)].

(** ** Documents and caches *)

(** [documents_.get(uri)], empty when there is none. *)
Definition getDocument (uri : string) : Srv string :=
  s ← getS; mret (default "" (documents_ s !! uri)).

Definition putDocument (uri text : string) : Srv unit :=
  modifyS (λ s, s <| documents_ := <[uri := text]> (documents_ s) |>).

(** The parse result behind a pointer. *)
Definition derefParse (a : nat) : Srv Parse := λ s,
  match parses_ s !! a with Some p => ROk p s | None => RUndef end.

(** Removing an entry of the cache destroys the parse result it owns. *)
Definition freeEntry (uri : string) (s : Server J W Parse) : Server J W Parse :=
  match parseCache_ s !! uri with
  | Some (_, a) => s <| parses_ := delete a (parses_ s) |> <| parseCache_ := delete uri (parseCache_ s) |>
  | None => s
  end.

Definition invalidate (uri : string) : Srv unit := modifyS (freeEntry uri).

Definition getOrParse (uri source : string) : Srv nat := λ s,
  let fresh :=
    let a := nextParse_ s in
    let s := freeEntry uri s in
    ROk a (s <| parses_ := <[a := parseString X source]> (parses_ s) |> <| nextParse_ := S a |>
             <| parseCache_ := <[uri := (source, a)]> (parseCache_ s) |>) in
  match parseCache_ s !! uri with
  | Some (src, a) => if bool_decide (src = source) then ROk a s else fresh
  | None => fresh
  end.

(** The parse result the index of the document borrows, [None] without an index. *)
Definition getDocumentIndex (uri source : string) : Srv (option nat) :=
  s ← getS;
  let build :=
    a ← getOrParse uri source;
    p ← derefParse a;
    if has_tree X p then
      modifyS (λ s, s <| docIndexCache_ := <[uri := (source, a)]> (docIndexCache_ s) |>);; mret (Some a)
    else mret None in
  match docIndexCache_ s !! uri with
  | Some (src, a) => if bool_decide (src = source) then mret (Some a) else build
  | None => build
  end.

(** A provider reads the objects behind the index. *)
Definition derefIndex (i : option nat) : Srv (option Parse) :=
  match i with None => mret None | Some a => p ← derefParse a; mret (Some p) end.

Definition eraseTokens (uri : string) : Srv unit :=
  modifyS (λ s, s <| cachedTokens_ := delete uri (cachedTokens_ s) |>
                  <| cachedDiags_ := delete uri (cachedDiags_ s) |>).

(** What opening, closing and saving a document with its text drop. *)
Definition eraseCaches (uri : string) : Srv unit :=
  invalidate uri;;
  modifyS (λ s, s <| docIndexCache_ := delete uri (docIndexCache_ s) |>);;
  eraseTokens uri.

(** ** Diagnostics *)

Definition severityCode (s : Severity) : Z :=
  match s with Error => 1 | Warning => 2 | Info => 3 | Hint => 4 end.

Definition diagnosticJson (d : Diagnostic * string) : J :=
  j_obj ([("range", range (d_line d.1) (d_col d.1) (d_endLine d.1) (d_endCol d.1));
          ("severity", j_num (severityCode (d_severity d.1)));
          ("source", j_str d.2); ("message", j_str (d_message d.1))] ++
         if bool_decide (d_code d.1 = "") then [] else [("code", j_str (d_code d.1))]).

(** [flushPendingDiagnostics], with [publishDiagnostics]. *)
Definition flushWith (publish : string → string → Srv unit) : Srv unit :=
  s ← getS;
  if bool_decide (pendingUri_ s = "") then mret () else
  now ← liftW (steadyMs X);
  if now - pendingSinceMs_ s <? kDiagDebounceMs then mret () else
  modifyS (λ s, s <| pendingUri_ := "" |> <| pendingSource_ := "" |>);;
  publish (pendingUri_ s) (pendingSource_ s).

(** The diagnostics of a text: the cached ones, or a new run. *)
Definition diagnosticsOf (uri source : string) : Srv (list (Diagnostic * string)) :=
  s ← getS;
  let run :=
    a ← getOrParse uri source;
    p ← derefParse a;
    diags ← liftW (runDiagnostics X source (uriToPath uri) p);
    modifyS (λ s, s <| cachedDiags_ := <[uri := (source, diags)]> (cachedDiags_ s) |>);;
    mret diags in
  match cachedDiags_ s !! uri with
  | Some (src, diags) => if bool_decide (src = source) then mret diags else run
  | None => run
  end.

(** The two functions call each other: publishing flushes, and flushing publishes what was
    pending, after which nothing is. *)
Fixpoint publishAt (fuel : nat) (uri source : string) : Srv unit :=
  match fuel with
  | O => noFuel
  | S fuel =>
      tryCatch
        (flushWith (publishAt fuel);;
         diags ← diagnosticsOf uri source;
         send (Notification publishMethod (diagnosticsParams uri (j_arr (diagnosticJson <$> diags)))))
        (send (Notification publishMethod (diagnosticsParams uri (j_arr []))))
  end.

(** A second level is the deepest, since it finds nothing pending. *)
Definition publishFuel : nat := 2.
Definition publishDiagnostics : string → string → Srv unit := publishAt publishFuel.
Definition flushPendingDiagnostics : Srv unit := flushWith publishDiagnostics.

(** ** The project *)

Definition mainMarker : string := "fn main(".

(** [rebuildContext] *)
Definition rebuildContext (filePath : string) (force : bool) : Srv unit :=
  s ← getS;
  projectRoot ← (if bool_decide (rootPath_ s = "") then liftW (findProjectRoot X filePath)
                 else mret (rootPath_ s));
  if bool_decide (projectRoot = "") then mret () else
  (if bool_decide (mainFilePath_ s = "") then
     main ← liftW (findMainFile X projectRoot);
     modifyS (λ s, s <| mainFilePath_ := main |>)
   else
     content ← liftW (readFile X filePath);
     match content with
     | Some text => if str_contains mainMarker text
                    then modifyS (λ s, s <| mainFilePath_ := filePath |>) else mret ()
     | None => mret ()
     end);;
  s ← getS;
  let anchorFile := if bool_decide (mainFilePath_ s = "") then filePath else mainFilePath_ s in
  valid ← (if force then mret false else liftW (isValid X));
  if valid && bool_decide (contextProjectRoot_ s = projectRoot)
     && bool_decide (contextAnchorPath_ s = anchorFile)
  then mret () else
  built ← tryCatch
    (if bool_decide (anchorFile = filePath) then
       anchorText ← getDocument (pathToUri filePath);
       if bool_decide (anchorText = "") then liftW (buildProject X anchorFile)
       else liftW (buildFromText X anchorFile anchorText)
     else liftW (buildProject X anchorFile))
    (mret false);
  if built : bool then
    modifyS (λ s, s <| contextProjectRoot_ := projectRoot |> <| contextAnchorPath_ := anchorFile |>)
  else mret ().

(** The path of a module, from the identifiers of a [use] declaration. *)
Definition modulePath (ids : list string) : string :=
  fold_left (λ path i, (if bool_decide (path = "") then path else path +:+ "/") +:+ i) ids "".

Fixpoint registerFrom (path : string) (dirs : list string) : Srv unit :=
  match dirs with
  | [] => mret ()
  | dir :: dirs =>
      registered ← liftW (tryRegister X dir path);
      if registered : bool then mret () else registerFrom path dirs
  end.

(** The modules a document uses, if the project does not know them: from the root, or else
    from the first directory of the standard library that has the file. *)
Fixpoint registerModules (root : string) (uses : list (list string)) : Srv unit :=
  match uses with
  | [] => mret ()
  | ids :: uses =>
      let path := modulePath ids in
      (if bool_decide (path = "") then mret () else
       known ← liftW (hasModule X path);
       if known : bool then mret () else
       registered ← (if bool_decide (root = "") then mret false else liftW (tryRegister X root path));
       if registered : bool then mret () else
       dirs ← liftW (stdlibSearchPaths X); registerFrom path dirs);;
      registerModules root uses
  end.

(** Exceptions of the loop are ignored. *)
Definition registerDocumentUses (p : Parse) : Srv unit :=
  s ← getS; tryCatch (registerModules (rootPath_ s) (useModules X p)) (mret ()).

(** ** Lifecycle *)

Definition tokenTypes : list string := [
  "namespace"; "type"; "struct"; "enum"; "enumMember"; "function"; "method"; "parameter";
  "variable"; "property"; "keyword"; "comment"; "string"; "number"; "operator"; "macro";
  "escapeSequence"; "decorator" ].
Definition tokenModifiers : list string := [
  "declaration"; "definition"; "readonly"; "static"; "defaultLibrary"; "comptime"; "cfgInactive" ].

Definition strings (l : list string) : J := j_arr (j_str <$> l).

Definition initializeResult : J := j_obj [
  ("capabilities", j_obj [
    ("textDocumentSync", j_obj [
      ("openClose", j_bool true); ("save", j_obj [("includeText", j_bool true)]); ("change", j_num 1)]);
    ("hoverProvider", j_bool true);
    ("definitionProvider", j_bool true);
    ("completionProvider", j_obj [
      ("triggerCharacters", strings ["."; ":"; ">"; "@"]); ("resolveProvider", j_bool false)]);
    ("signatureHelpProvider", j_obj [("triggerCharacters", strings ["("; ","])]);
    ("semanticTokensProvider", j_obj [
      ("full", j_bool true);
      ("legend", j_obj [("tokenTypes", strings tokenTypes); ("tokenModifiers", strings tokenModifiers)])])]);
  ("serverInfo", j_obj [("name", j_str "lucis-lsp"); ("version", j_str "0.0.1 beta")])].

(** The root the client names, if it does. *)
Definition clientRoot (msg : J) : outcome (option string) :=
  if negb (contains msg "params") then Ret None else
  params ← member msg "params";
  if negb (contains params "rootUri") then Ret None else
  root ← member params "rootUri";
  if is_null root then Ret None else uri ← get_string root; Ret (Some uri).

Definition handleInitialize (msg : J) : Srv unit :=
  tryCatch
    (root ← liftO (clientRoot msg);
     match root with
     | Some uri => modifyS (λ s, s <| rootPath_ := uriToPath uri |>)
     | None => mret ()
     end;;
     respond msg initializeResult;;
     modifyS (λ s, s <| initialized_ := true |>))
    (id ← liftO (member msg "id"); send (ErrorResponse id kInvalidRequest "initialize failed")).

(** [(cwd / "dummy").string()] for an absolute [cwd]. *)
Definition dummyIn (cwd : string) : string :=
  if bool_decide (cwd = "/") then "/dummy" else cwd +:+ "/dummy".

Definition handleInitialized (msg : J) : Srv unit :=
  tryCatch
    (s ← getS;
     root ← (if bool_decide (rootPath_ s = "") then
               cwd ← liftW (currentPath X); liftW (findProjectRoot X (dummyIn cwd))
             else mret (rootPath_ s));
     liftW (warmCaches X root))
    (mret ()).

Definition handleShutdown (msg : J) : Srv unit :=
  tryCatch (respond msg j_null;; modifyS (λ s, s <| shutdown_ := true |>)) (respond msg j_null).

(** ** Document synchronisation *)

Definition documentUri (params : J) : outcome string :=
  td ← member params "textDocument"; uri ← member td "uri"; get_string uri.

(** What [didOpen] reads of its message. *)
Definition openParams (msg : J) : outcome (string * string) :=
  params ← member msg "params";
  td ← member params "textDocument";
  uri ← member td "uri"; uri ← get_string uri;
  text ← member td "text"; text ← get_string text;
  Ret (uri, text).

Definition saveParams (msg : J) : outcome (string * option string) :=
  params ← member msg "params";
  uri ← documentUri params;
  if contains params "text" then t ← member params "text"; text ← get_string t; Ret (uri, Some text)
  else Ret (uri, None).

(** No text when there are no changes. *)
Definition changeParams (msg : J) : outcome (string * option string) :=
  params ← member msg "params";
  uri ← documentUri params;
  changes ← member params "contentChanges";
  if j_empty changes then Ret (uri, None) else
  change ← element0 changes;
  t ← member change "text"; text ← get_string t; Ret (uri, Some text).

Definition closeParams (msg : J) : outcome string := params ← member msg "params"; documentUri params.

Definition handleDidOpen (msg : J) : Srv unit :=
  tryCatch
    (p ← liftO (openParams msg);
     let '(uri, text) := p in
     putDocument uri text;;
     eraseCaches uri;;
     rebuildContext (uriToPath uri) true;;
     registerDocumentUses (parseString X text);;
     publishDiagnostics uri text)
    (mret ()).

Definition handleDidSave (msg : J) : Srv unit :=
  tryCatch
    (p ← liftO (saveParams msg);
     let '(uri, saved) := p in
     text ← match saved with
            | Some text => putDocument uri text;; eraseCaches uri;; mret text
            | None => getDocument uri
            end;
     rebuildContext (uriToPath uri) true;;
     publishDiagnostics uri text)
    (mret ()).

Definition handleDidChange (msg : J) : Srv unit :=
  tryCatch
    (p ← liftO (changeParams msg);
     match p with
     | (_, None) => mret ()
     | (uri, Some text) =>
         putDocument uri text;;
         eraseTokens uri;;
         a ← getOrParse uri text;
         p ← derefParse a;
         registerDocumentUses p;;
         modifyS (λ s, s <| pendingUri_ := uri |> <| pendingSource_ := text |>);;
         now ← liftW (steadyMs X);
         modifyS (λ s, s <| pendingSinceMs_ := now |>)
     end)
    (mret ()).

Definition handleDidClose (msg : J) : Srv unit :=
  tryCatch
    (uri ← liftO (closeParams msg);
     modifyS (λ s, s <| documents_ := delete uri (documents_ s) |>);;
     eraseCaches uri;;
     send (Notification publishMethod (diagnosticsParams uri (j_arr []))))
    (mret ()).

(** ** Language features *)

Definition positionParams (msg : J) : outcome (string * Z * Z) :=
  params ← member msg "params";
  uri ← documentUri params;
  pos ← member params "position";
  line ← member pos "line"; line ← get_size line;
  pos ← member params "position";
  col ← member pos "character"; col ← get_size col;
  Ret (uri, line, col).

(** A request about a position in a document: [provide] gets the text, the position, the
    parse result and the index. *)
Definition positionRequest (msg nothing : J)
    (provide : string → string → Z → Z → Srv J) : Srv unit :=
  tryCatch
    (p ← liftO (positionParams msg);
     let '(uri, line, col) := p in
     source ← getDocument uri;
     if bool_decide (source = "") then respond msg nothing else
     result ← provide uri source line col;
     respond msg result)
    (respond msg nothing).

Definition markdown (text : string) : J := j_obj [("kind", j_str "markdown"); ("value", j_str text)].

Definition handleHover (msg : J) : Srv unit :=
  positionRequest msg j_null (λ uri source line col,
    a ← getOrParse uri source;
    i ← getDocumentIndex uri source;
    p ← derefParse a;
    ip ← derefIndex i;
    r ← liftW (provideHover X source line col (uriToPath uri) p ip);
    mret match r with
    | None => j_null
    | Some h => j_obj [("contents", markdown (ho_contents h));
                       ("range", range (ho_line h) (ho_col h) (ho_endLine h) (ho_endCol h))]
    end).

Definition handleDefinition (msg : J) : Srv unit :=
  positionRequest msg j_null (λ uri source line col,
    a ← getOrParse uri source;
    i ← getDocumentIndex uri source;
    p ← derefParse a;
    ip ← derefIndex i;
    r ← liftW (provideDefinition X source line col (uriToPath uri) p ip);
    mret match r with
    | None => j_null
    | Some d => j_obj [("uri", j_str (de_uri d));
                       ("range", range (de_line d) (de_col d) (de_endLine d) (de_endCol d))]
    end).

(** A member that is left out when it is empty. *)
Definition optional (key text : string) (value : J) : list (string * J) :=
  if bool_decide (text = "") then [] else [(key, value)].

Definition completionJson (i : CompletionItem) : J := j_obj (
  [("label", j_str (ci_label i)); ("kind", j_num (ci_kind i))] ++
  optional "detail" (ci_detail i) (j_str (ci_detail i)) ++
  optional "documentation" (ci_documentation i) (markdown (ci_documentation i)) ++
  (if bool_decide (ci_insertText i = "") then []
   else [("insertText", j_str (ci_insertText i)); ("insertTextFormat", j_num (ci_insertTextFormat i))]) ++
  optional "sortText" (ci_sortText i) (j_str (ci_sortText i)) ++
  optional "filterText" (ci_filterText i) (j_str (ci_filterText i))).

Definition handleCompletion (msg : J) : Srv unit :=
  positionRequest msg (j_arr []) (λ uri source line col,
    a ← getOrParse uri source;
    i ← getDocumentIndex uri source;
    p ← derefParse a;
    ip ← derefIndex i;
    items ← liftW (provideCompletion X source line col (uriToPath uri) p ip);
    mret (j_arr (completionJson <$> items))).

(** The signatures with different labels, the first of each. *)
Fixpoint dedupSignatures (seen : list string) (l : list SignatureInfo) : list SignatureInfo :=
  match l with
  | [] => []
  | si :: l =>
      if bool_decide (si_label si ∈ seen) then dedupSignatures seen l
      else si :: dedupSignatures (si_label si :: seen) l
  end.

Definition signatureJson (si : SignatureInfo) : J := j_obj (
  [("label", j_str (si_label si));
   ("parameters", j_arr ((λ p, j_obj [("label", j_str p)]) <$> si_parameters si))] ++
  optional "documentation" (si_documentation si) (markdown (si_documentation si))).

Definition handleSignatureHelp (msg : J) : Srv unit :=
  positionRequest msg j_null (λ uri source line col,
    a ← getOrParse uri source;
    p ← derefParse a;
    r ← liftW (provideSignature X source line col (uriToPath uri) p);
    mret match r with
    | None => j_null
    | Some h => j_obj [
        ("signatures", j_arr (signatureJson <$> dedupSignatures [] (sh_signatures h)));
        ("activeSignature", j_num (sh_activeSignature h));
        ("activeParameter", j_num (sh_activeParameter h))]
    end).

Definition tokensJson (data : list Z) : J := j_obj [("data", j_arr (j_num <$> data))].

Definition handleSemanticTokensFull (msg : J) : Srv unit :=
  tryCatch
    (uri ← liftO (closeParams msg);
     source ← getDocument uri;
     if bool_decide (source = "") then respond msg (tokensJson []) else
     s ← getS;
     let run :=
       a ← getOrParse uri source;
       p ← derefParse a;
       data ← liftW (tokenize X source p);
       modifyS (λ s, s <| cachedTokens_ := <[uri := (source, data)]> (cachedTokens_ s) |>);;
       respond msg (tokensJson data) in
     match cachedTokens_ s !! uri with
     | Some (src, data) => if bool_decide (src = source) then respond msg (tokensJson data) else run
     | None => run
     end)
    (respond msg (tokensJson [])).

(** ** The loop *)

Definition dispatch (msg : J) : Srv unit :=
  flushPendingDiagnostics;;
  if negb (contains msg "method") then mret () else
  m ← liftO (member msg "method");
  method ← liftO (get_string m);
  if bool_decide (method = "initialize") then handleInitialize msg else
  if bool_decide (method = "initialized") then handleInitialized msg else
  if bool_decide (method = "shutdown") then handleShutdown msg else
  if bool_decide (method = "exit") then modifyS (λ s, s <| shutdown_ := true |>) else
  if bool_decide (method = "textDocument/didOpen") then handleDidOpen msg else
  if bool_decide (method = "textDocument/didChange") then handleDidChange msg else
  if bool_decide (method = "textDocument/didSave") then handleDidSave msg else
  if bool_decide (method = "textDocument/didClose") then handleDidClose msg else
  if bool_decide (method = "textDocument/hover") then handleHover msg else
  if bool_decide (method = "textDocument/definition") then handleDefinition msg else
  if bool_decide (method = "textDocument/completion") then handleCompletion msg else
  if bool_decide (method = "textDocument/semanticTokens/full") then handleSemanticTokensFull msg else
  if bool_decide (method = "textDocument/signatureHelp") then handleSignatureHelp msg else
  if contains msg "id" then
    id ← liftO (member msg "id");
    send (ErrorResponse id kMethodNotFound ("method not supported: " +:+ method))
  else mret ().

(** [run] on the standard input [stdin]; a message takes at least one byte of it.  Only a
    [parse_error] is caught. *)
Fixpoint run (fuel : nat) (stdin : string) : Srv unit :=
  match fuel with
  | O => noFuel
  | S fuel =>
      s ← getS;
      if shutdown_ s then mret () else
      raw ← liftO (readMessage stdin);
      match raw with
      | None => mret ()
      | Some (body, rest) =>
          match parse body with
          | ParseError => run fuel rest
          | NumberOutOfRange => throwS
          | Parsed msg => dispatch msg;; run fuel rest
          end
      end
  end.
End server.
