(* ===== verification/LspLiveness.v ===== *)
(** * Every request is answered

    The server's loop, fed with the messages of an editor, ends, answers each request once
    and in order, and follows no pointer to a parse result that is gone.  The editor is
    described by what it shows: the texts of its documents.  The last part has the histories
    for which the caches go wrong. *)

From S2P Require Import Prelude.
From S2P Require Import CxxLib.
From S2P Require Import Ownership.
From S2P Require Import LspTransport.
From S2P Require Import LspServer.
Local Open Scope Z_scope.

(** ** What the JSON library and the other parts of the server promise *)

Definition ascii_text (s : string) : bool := str_forall (λ c, code c <? 128) s.

Notation dumpable j := (is_Some (dump j)).

(** A string the library can print: it was read from a value it can print. *)
Definition printable `{JsonOps J} (s : string) : Prop := ∃ j : J, get_string j = Ret s ∧ dumpable j.

(** Reading a member ends, and is defined if the key is there or the value is no object;
    conversions return or throw; printing fails only on text that is no UTF-8, which a parsed
    value has none of. *)
Class JsonLaws (J : Type) `{JsonOps J} := {
  member_ends (j : J) k : member j k ≠ NoFuel;
  member_contains (j : J) k : contains j k = true → ∃ v, member j k = Ret v;
  string_ends (j : J) : (∃ s, get_string j = Ret s) ∨ ∃ e, get_string j = Throw e;
  size_ends (j : J) : (∃ n, get_size j = Ret n) ∨ ∃ e, get_size j = Throw e;
  element0_ends (j : J) : element0 j ≠ NoFuel;
  element0_defined (j : J) : j_empty j = false → element0 j ≠ Undef;
  dump_null : dumpable (j_null : J);
  dump_num n : dumpable (j_num n : J);
  dump_ascii s : ascii_text s = true → dumpable (j_str s : J);
  dump_text a s : ascii_text a = true → printable (J := J) s → dumpable (j_str (a +:+ s) : J);
  dump_arr (l : list J) : Forall (λ j, dumpable j) l → dumpable (j_arr l);
  dump_obj (l : list (string * J)) :
    Forall (λ kv, ascii_text kv.1 = true ∧ dumpable kv.2) l → dumpable (j_obj l);
  dump_parsed text (j : J) : parse text = Parsed j → dumpable j;
  dump_member (j v : J) k : dumpable j → member j k = Ret v → dumpable v }.

(** A computation that returns or throws. *)
Definition ends {S A} (m : M S A) : Prop :=
  ∀ s, match m s with ROk _ _ | RThrow _ _ => True | RUndef | RNoFuel => False end.

Record extern_ends {W Parse} (X : Extern W Parse) : Prop := {
  ee_time w : ∃ t w', steadyMs X w = ROk t w';
  ee_diagnostics s p t : ends (runDiagnostics X s p t);
  ee_hover s l c p t i : ends (provideHover X s l c p t i);
  ee_definition s l c p t i : ends (provideDefinition X s l c p t i);
  ee_completion s l c p t i : ends (provideCompletion X s l c p t i);
  ee_signature s l c p t : ends (provideSignature X s l c p t);
  ee_tokenize s t : ends (tokenize X s t);
  ee_cwd : ends (currentPath X);
  ee_root p : ends (findProjectRoot X p);
  ee_main p : ends (findMainFile X p);
  ee_read p : ends (readFile X p);
  ee_valid : ends (isValid X);
  ee_buildText p t : ends (buildFromText X p t);
  ee_build p : ends (buildProject X p);
  ee_has m : ends (hasModule X m);
  ee_register d m : ends (tryRegister X d m);
  ee_stdlib : ends (stdlibSearchPaths X);
  ee_warm r : ends (warmCaches X r) }.

(** ** The editor *)

(** The documents with their texts, the texts each had since it was opened or saved, and the
    document changed last with its text. *)
Record Editor := {
  ed_docs : gmap string string;
  ed_past : string → list string;
  ed_changed : option (string * string) }.

Definition newEditor : Editor := {| ed_docs := ∅; ed_past := λ _, []; ed_changed := None |}.

Definition set_past (uri : string) (l : list string) (h : Editor) : string → list string :=
  λ u, if bool_decide (u = uri) then l else ed_past h u.

(** Opening or saving [uri] with [text]: not while another text of it waits to be checked. *)
Definition edit_open (uri text : string) (h : Editor) : option Editor :=
  match ed_changed h with
  | Some (u, t) =>
      if bool_decide (u = uri) && negb (bool_decide (t = text)) then None
      else Some {| ed_docs := <[uri := text]> (ed_docs h); ed_past := set_past uri [] h;
                   ed_changed := ed_changed h |}
  | None => Some {| ed_docs := <[uri := text]> (ed_docs h); ed_past := set_past uri [] h;
                    ed_changed := None |}
  end.

(** Changing the text: not back to a text it had before. *)
Definition edit_change (uri text : string) (h : Editor) : option Editor :=
  if bool_decide (ed_docs h !! uri = Some text)
  then Some {| ed_docs := ed_docs h; ed_past := ed_past h; ed_changed := Some (uri, text) |}
  else if bool_decide (text ∈ ed_past h uri) then None
  else Some {| ed_docs := <[uri := text]> (ed_docs h);
               ed_past := set_past uri (option_list (ed_docs h !! uri) ++ ed_past h uri) h;
               ed_changed := Some (uri, text) |}.

Definition edit_close (uri : string) (h : Editor) : Editor :=
  {| ed_docs := delete uri (ed_docs h); ed_past := set_past uri [] h; ed_changed := ed_changed h |}.

Section editor.
Context {J : Type} `{JsonOps J}.

Definition methodOf (msg : J) : string :=
  match member msg "method" with
  | Ret m => match get_string m with Ret s => s | _ => "" end
  | _ => ""
  end.

(** The editor after a message, unless it goes back to an earlier text. *)
Definition edit (msg : J) (h : Editor) : option Editor :=
  if negb (contains msg "method") then Some h else
  if bool_decide (methodOf msg = "textDocument/didOpen") then
    match openParams msg with Ret (uri, text) => edit_open uri text h | _ => Some h end
  else if bool_decide (methodOf msg = "textDocument/didSave") then
    match saveParams msg with Ret (uri, Some text) => edit_open uri text h | _ => Some h end
  else if bool_decide (methodOf msg = "textDocument/didChange") then
    match changeParams msg with Ret (uri, Some text) => edit_change uri text h | _ => Some h end
  else if bool_decide (methodOf msg = "textDocument/didClose") then
    match closeParams msg with Ret uri => Some (edit_close uri h) | _ => Some h end
  else Some h.

Definition requestMethods : list string := [
  "initialize"; "shutdown"; "textDocument/hover"; "textDocument/definition";
  "textDocument/completion"; "textDocument/semanticTokens/full"; "textDocument/signatureHelp" ].

Definition notificationMethods : list string := [
  "initialized"; "exit"; "textDocument/didOpen"; "textDocument/didChange";
  "textDocument/didSave"; "textDocument/didClose" ].

(** The ids a message asks an answer for. *)
Definition asks (msg : J) : list J :=
  if negb (contains msg "method") then [] else
  if bool_decide (methodOf msg ∈ notificationMethods) then [] else
  match member msg "id" with
  | Ret id => if contains msg "id" || bool_decide (methodOf msg ∈ requestMethods) then [id] else []
  | _ => []
  end.

Definition stops (msg : J) : bool :=
  contains msg "method" && bool_decide (methodOf msg ∈ ["shutdown"; "exit"]).

Definition defined {A} (m : outcome A) : bool :=
  match m with Ret _ | Throw _ => true | Undef | NoFuel => false end.

(** The members the handler of a message reads are there: a string as the method, the id of a
    request, and the parameters of the protocol. *)
Definition well_formed (msg : J) : bool :=
  if negb (contains msg "method") then true else
  match member msg "method" with
  | Ret m => match get_string m with Ret _ => true | _ => false end
  | _ => false
  end &&
  (if bool_decide (methodOf msg ∈ requestMethods) then contains msg "id" else true) &&
  (if bool_decide (methodOf msg = "textDocument/didOpen") then defined (openParams msg) else true) &&
  (if bool_decide (methodOf msg = "textDocument/didSave") then defined (saveParams msg) else true) &&
  (if bool_decide (methodOf msg = "textDocument/didChange") then defined (changeParams msg) else true) &&
  (if bool_decide (methodOf msg ∈ ["textDocument/didClose"; "textDocument/semanticTokens/full"])
   then defined (closeParams msg) else true) &&
  (if bool_decide (methodOf msg ∈ ["textDocument/hover"; "textDocument/definition";
                                   "textDocument/completion"; "textDocument/signatureHelp"])
   then defined (positionParams msg) else true) &&
  (if bool_decide (methodOf msg = "initialize") then defined (clientRoot msg) else true).

(** The ids of the answers sent. *)
Definition replies (l : list (outgoing J)) : list J :=
  omap (λ o, match o with
             | Response id _ | ErrorResponse id _ _ => Some id
             | Notification _ _ => None
             end) l.
End editor.

(** ** Computations that end *)

(** [m] ends: with [R (Some a)] if it returns [a], with [R None] if it throws. *)
Definition steps {S A} (s : S) (m : M S A) (R : option A → S → Prop) : Prop :=
  match m s with
  | ROk a s' => R (Some a) s'
  | RThrow _ s' => R None s'
  | RUndef | RNoFuel => False
  end.

Lemma steps_bind {S A B} (s : S) (m : M S A) (k : A → M S B) R R' :
  steps s m R → (∀ s', R None s' → R' None s') → (∀ a s', R (Some a) s' → steps s' (k a) R') →
  steps s (m ≫= k) R'.
Proof. unfold steps, mbind, M_bind. destruct (m s); naive_solver. Qed.

Lemma steps_weaken {S A} (s : S) (m : M S A) (R R' : option A → S → Prop) :
  steps s m R → (∀ o s', R o s' → R' o s') → steps s m R'.
Proof. unfold steps. destruct (m s); naive_solver. Qed.

Lemma steps_ok {S A} (s : S) (m : M S A) a s' R : m s = ROk a s' → R (Some a) s' → steps s m R.
Proof. unfold steps. by intros ->. Qed.

Lemma steps_read {S A B} (s : S) (m : M S A) (k : A → M S B) a R :
  m s = ROk a s → steps s (k a) R → steps s (m ≫= k) R.
Proof. unfold steps, mbind, M_bind. by intros ->. Qed.

Lemma steps_then {S A B} (s s' : S) (m : M S A) (k : A → M S B) a R :
  m s = ROk a s' → steps s' (k a) R → steps s (m ≫= k) R.
Proof. unfold steps, mbind, M_bind. by intros ->. Qed.

Lemma steps_lift {S A B} (s : S) (m : outcome A) (k : A → M S B) R :
  defined m = true → (∀ a, m = Ret a → steps s (k a) R) → (∀ e, m = Throw e → R None s) →
  steps s (liftO m ≫= k) R.
Proof. unfold steps, mbind, M_bind, liftO. destruct m; naive_solver. Qed.

Lemma steps_try {S A} (s : S) (m h : M S A) R R' :
  steps s m R → (∀ a s', R (Some a) s' → R' (Some a) s') → (∀ s', R None s' → steps s' h R') →
  steps s (tryCatch m h) R'.
Proof. unfold steps, tryCatch. destruct (m s); naive_solver. Qed.

Section proofs.
Context {J W Parse : Type} `{JsonLaws J} (X : Extern W Parse) (HX : extern_ends X).
Notation Server := (Server J W Parse).
Notation Srv := (M Server).

(** The caches suit the editor: the parse results of the cache are alive, each owned by one
    entry; an index for the current text borrows the one in the cache, every other index is
    for an earlier text; a text that is to be checked is the current one or its document is
    closed. *)
Record coherent (h : Editor) (s : Server) : Prop := {
  co_docs : documents_ s = ed_docs h;
  co_live uri src a : parseCache_ s !! uri = Some (src, a) →
    parses_ s !! a = Some (parseString X src) ∧ (a < nextParse_ s)%nat;
  co_owner u v x y a : parseCache_ s !! u = Some (x, a) → parseCache_ s !! v = Some (y, a) → u = v;
  co_index uri src a : docIndexCache_ s !! uri = Some (src, a) → ∃ text,
    ed_docs h !! uri = Some text ∧ (src = text → parseCache_ s !! uri = Some (src, a)) ∧
    (src ≠ text → src ∈ ed_past h uri);
  co_changed u t : ed_changed h = Some (u, t) → printable (J := J) u ∧
    (ed_docs h !! u = None ∨ ed_docs h !! u = Some t) }.

(** The deferred text is the one changed last. *)
Definition pending_ok (h : Editor) (s : Server) : Prop :=
  pendingUri_ s ≠ "" → ed_changed h = Some (pendingUri_ s, pendingSource_ s).

(** No answer is sent and the loop goes on as before; what was deferred may be checked. *)
Record keeps (s s' : Server) : Prop := {
  ke_replies : replies (sent_ s') = replies (sent_ s);
  ke_shutdown : shutdown_ s' = shutdown_ s;
  ke_pending : pendingUri_ s' = "" ∨
    (pendingUri_ s' = pendingUri_ s ∧ pendingSource_ s' = pendingSource_ s) }.

#[local] Instance keeps_preorder : PreOrder keeps.
Proof.
  split.
  - intros s. split; auto.
  - intros s1 s2 s3 [] []. split; try congruence. intuition congruence.
Qed.

Lemma pending_keeps h s s' : keeps s s' → pending_ok h s → pending_ok h s'.
Proof. intros [_ _ [Hp|[Hp1 Hp2]]] Ho Hne; [done|]. rewrite Hp1, Hp2 in *. auto. Qed.

(** A computation over coherent caches. *)
Definition works {A} (h : Editor) (s : Server) (m : Srv A) (R : A → Server → Prop) : Prop :=
  steps s m (λ o s', coherent h s' ∧ keeps s s' ∧ match o with Some a => R a s' | None => True end).

Lemma works_bind {A B} h s (m : Srv A) (k : A → Srv B) R R' :
  works h s m R → (∀ a s', coherent h s' → keeps s s' → R a s' → works h s' (k a) R') →
  works h s (m ≫= k) R'.
Proof.
  intros Hm Hk. eapply steps_bind; [exact Hm|naive_solver|]. intros a s' (Hc & Hs & HR).
  eapply steps_weaken; [by apply Hk|]. intros o s'' (? & ? & ?). split_and!; [done|by etrans|done].
Qed.

Lemma works_ok {A} h s s' (m : Srv A) a (R : A → Server → Prop) :
  m s = ROk a s' → coherent h s' → keeps s s' → R a s' → works h s m R.
Proof. intros E Hc Hk HR. eapply steps_ok; [exact E|done]. Qed.

Lemma works_read {A B} h s (m : Srv A) (k : A → Srv B) a R :
  m s = ROk a s → works h s (k a) R → works h s (m ≫= k) R.
Proof. apply steps_read. Qed.

Lemma works_ret {A} h s (a : A) (R : A → Server → Prop) : coherent h s → R a s → works h s (mret a) R.
Proof. intros. by eapply works_ok. Qed.

Lemma works_weaken {A} h s (m : Srv A) (R R' : A → Server → Prop) :
  works h s m R → (∀ a s', R a s' → R' a s') → works h s m R'.
Proof. intros Hm HR. eapply steps_weaken; [exact Hm|]. intros [a|] s' (? & ? & ?); auto. Qed.

(** A step that touches neither documents nor caches. *)
Record aside (s s' : Server) : Prop := {
  as_docs : documents_ s' = documents_ s;
  as_parses : parses_ s' = parses_ s;
  as_next : nextParse_ s' = nextParse_ s;
  as_cache : parseCache_ s' = parseCache_ s;
  as_index : docIndexCache_ s' = docIndexCache_ s;
  as_keeps : keeps s s' }.

Lemma aside_coherent h s s' : aside s s' → coherent h s → coherent h s'.
Proof.
  intros [] []. split; [congruence|..].
  - intros uri src a. rewrite as_cache0, as_parses0, as_next0. apply co_live0.
  - intros u v x y a. rewrite as_cache0. apply co_owner0.
  - intros uri src a. rewrite as_cache0, as_index0. apply co_index0.
  - done.
Qed.

Lemma works_aside h s s' (m : Srv unit) : m s = ROk tt s' → aside s s' → coherent h s →
  works h s m (λ _ s'', s'' = s').
Proof. intros E Ha Hc. eapply works_ok; [exact E|by eapply aside_coherent|apply (as_keeps _ _ Ha)|done]. Qed.

Lemma works_world {A} h s (m : M W A) : ends m → coherent h s → works h s (liftW m) (λ _ s', aside s s').
Proof.
  intros Hm Hc. unfold works, steps, liftW. specialize (Hm (world_ s)).
  destruct (m (world_ s)) as [a w|e w| |]; try done.
  - assert (Ha : aside s (s <| world_ := w |>)) by (repeat split; auto).
    split_and!; [by eapply aside_coherent|apply (as_keeps _ _ Ha)|done].
  - assert (Ha : aside s (s <| world_ := w |>)) by (repeat split; auto).
    split_and!; [by eapply aside_coherent|apply (as_keeps _ _ Ha)|done].
Qed.

(** ** The caches *)

(** A text that may be parsed for a document: its current text, or any if it is closed. *)
Definition parseable (h : Editor) (uri source : string) : Prop :=
  ed_docs h !! uri = None ∨ ed_docs h !! uri = Some source.

Lemma freeEntry_cache (s : Server) uri v : parseCache_ (freeEntry uri s) !! v =
  if bool_decide (v = uri) then None else parseCache_ s !! v.
Proof.
  unfold freeEntry. destruct (parseCache_ s !! uri) as [[src a]|] eqn:E; simpl; case_bool_decide; subst.
  - by rewrite lookup_delete_eq.
  - by rewrite lookup_delete_ne.
  - done.
  - done.
Qed.

Lemma freeEntry_live (s : Server) uri src a : parseCache_ s !! uri = Some (src, a) →
  parses_ (freeEntry uri s) = delete a (parses_ s).
Proof. intros E. unfold freeEntry. by rewrite E. Qed.

(** Freeing an entry keeps what the other entries own. *)
Lemma freeEntry_others h (s : Server) uri v src a : coherent h s → v ≠ uri →
  parseCache_ s !! v = Some (src, a) → parses_ (freeEntry uri s) !! a = Some (parseString X src).
Proof.
  intros Hc Hv E. destruct (co_live _ _ Hc _ _ _ E) as [Hl _].
  destruct (parseCache_ s !! uri) as [[src' b]|] eqn:Eu.
  - rewrite (freeEntry_live _ _ _ _ Eu), lookup_delete_ne; [done|]. intros ->.
    by apply Hv, (co_owner _ _ Hc v uri src src' a).
  - unfold freeEntry. by rewrite Eu.
Qed.

Lemma freeEntry_rest (s : Server) uri : documents_ (freeEntry uri s) = documents_ s ∧
  nextParse_ (freeEntry uri s) = nextParse_ s ∧ docIndexCache_ (freeEntry uri s) = docIndexCache_ s ∧
  sent_ (freeEntry uri s) = sent_ s ∧ shutdown_ (freeEntry uri s) = shutdown_ s ∧
  pendingUri_ (freeEntry uri s) = pendingUri_ s ∧ pendingSource_ (freeEntry uri s) = pendingSource_ s.
Proof. unfold freeEntry. by destruct (parseCache_ s !! uri) as [[]|]. Qed.

Lemma works_getOrParse h s uri source : coherent h s → parseable h uri source →
  works h s (getOrParse X uri source) (λ a s', parseCache_ s' !! uri = Some (source, a)).
Proof.
  intros Hc Hp. unfold getOrParse.
  assert (Hhit : ∀ a, parseCache_ s !! uri = Some (source, a) →
    works h s (λ s, ROk a s) (λ a s', parseCache_ s' !! uri = Some (source, a))).
  { intros a E. by eapply (works_ok _ _ s). }
  destruct (freeEntry_rest s uri) as (F1 & F2 & F3 & F4 & F5 & F6 & F7).
  pose proof (freeEntry_cache s uri) as F0. pose proof (freeEntry_others h s uri) as F8.
  set (s1 := freeEntry uri s) in *.
  set (s' := s1 <| parses_ := <[nextParse_ s := parseString X source]> (parses_ s1) |>
    <| nextParse_ := S (nextParse_ s) |> <| parseCache_ := <[uri := (source, nextParse_ s)]> (parseCache_ s1) |>).
  assert (Hmiss : (∀ a, parseCache_ s !! uri ≠ Some (source, a)) →
    coherent h s' ∧ keeps s s').
  { intros Hno. split; [|split; simpl; rewrite ?F4, ?F5, ?F6, ?F7; auto].
    assert (Hothers : ∀ v src a, v ≠ uri → parseCache_ s' !! v = Some (src, a) →
      parseCache_ s !! v = Some (src, a)).
    { intros v src a Hv. simpl. rewrite lookup_insert_ne, F0 by done. by rewrite bool_decide_false. }
    assert (Hlt : ∀ v src a, parseCache_ s !! v = Some (src, a) → a ≠ nextParse_ s).
    { intros v src a E. pose proof (co_live _ _ Hc _ _ _ E). lia. }
    split.
    - simpl. rewrite F1. apply (co_docs _ _ Hc).
    - intros v src a E. destruct (decide (v = uri)) as [->|Hv].
      + simpl in E. rewrite lookup_insert_eq in E. injection E as <- <-.
        simpl. rewrite lookup_insert_eq. split; [done|lia].
      + apply Hothers in E; [|done]. simpl. rewrite lookup_insert_ne by (apply not_eq_sym; eauto).
        split; [by eapply F8|]. pose proof (co_live _ _ Hc _ _ _ E). lia.
    - intros u v x y a Eu Ev.
      destruct (decide (u = uri)) as [->|Hu], (decide (v = uri)) as [->|Hv]; try done.
      + simpl in Eu. rewrite lookup_insert_eq in Eu. injection Eu as <- <-.
        apply Hothers in Ev; [|done]. by apply Hlt in Ev.
      + simpl in Ev. rewrite lookup_insert_eq in Ev. injection Ev as <- <-.
        apply Hothers in Eu; [|done]. by apply Hlt in Eu.
      + apply Hothers in Eu; [|done]. apply Hothers in Ev; [|done]. by eapply (co_owner _ _ Hc).
    - intros v src a E. simpl in E. rewrite F3 in E.
      destruct (co_index _ _ Hc _ _ _ E) as (text & Ht & Heq & Hne).
      exists text. split_and!; [done| |done]. intros ->. simpl.
      destruct (decide (v = uri)) as [->|Hv].
      + destruct Hp as [Hp|Hp]; [congruence|]. assert (text = source) as -> by congruence.
        exfalso. by apply (Hno a), Heq.
      + rewrite lookup_insert_ne, F0, bool_decide_false by done. by apply Heq.
    - apply (co_changed _ _ Hc). }
  assert (Hfresh : (∀ a, parseCache_ s !! uri ≠ Some (source, a)) →
    works h s (λ _, ROk (nextParse_ s) s') (λ a s', parseCache_ s' !! uri = Some (source, a))).
  { intros Hno. destruct (Hmiss Hno) as [Hc' Hk]. eapply (works_ok _ _ s'); [reflexivity|done..|].
    simpl. by rewrite lookup_insert_eq. }
  unfold works, steps in *. destruct (parseCache_ s !! uri) as [[src a]|] eqn:E.
  - case_bool_decide as Hsrc; [subst; by destruct (Hhit a eq_refl) as (? & ? & ?)|]. apply Hfresh. intros b [= -> ->]. done.
  - by apply Hfresh.
Qed.

(** The parse result in the cache is alive. *)
Lemma steps_deref h s uri src a {B} (k : Parse → Srv B) R : coherent h s →
  parseCache_ s !! uri = Some (src, a) → works h s (k (parseString X src)) R →
  works h s (p ← derefParse a; k p) R.
Proof.
  intros Hc E. destruct (co_live _ _ Hc _ _ _ E) as [Hl _]. apply steps_read.
  unfold derefParse. by rewrite Hl.
Qed.

(** The index of the current text borrows the parse result in the cache. *)
Lemma works_index h s uri text a : coherent h s → ed_docs h !! uri = Some text →
  parseCache_ s !! uri = Some (text, a) →
  works h s (getDocumentIndex X uri text) (λ i s',
    parseCache_ s' !! uri = Some (text, a) ∧ (i = None ∨ i = Some a)).
Proof.
  intros Hc Hd E. unfold getDocumentIndex. eapply works_read; [reflexivity|].
  assert (Hbuild : works h s (a ← getOrParse X uri text; p ← derefParse a;
    if has_tree X p then
      modifyS (λ s, s <| docIndexCache_ := <[uri := (text, a)]> (docIndexCache_ s) |>);; mret (Some a)
    else mret None) (λ i s', parseCache_ s' !! uri = Some (text, a) ∧ (i = None ∨ i = Some a))).
  { assert (Hget : getOrParse X uri text s = ROk a s).
    { unfold getOrParse. rewrite E. by rewrite bool_decide_true. }
    eapply works_read; [exact Hget|].
    eapply steps_deref; [done|exact E|]. destruct (has_tree X _); [|by apply works_ret; auto].
    eapply works_bind.
    { eapply (works_ok h s _ _ tt (λ _ s', parseCache_ s' !! uri = Some (text, a)));
        [reflexivity| |by split; auto|done].
      destruct Hc. split; try done. intros v src b Ev. simpl in Ev.
      destruct (decide (v = uri)) as [->|Hv].
      - rewrite lookup_insert_eq in Ev. injection Ev as <- <-. exists text. by split_and!.
      - rewrite lookup_insert_ne in Ev by done. by apply co_index0. }
    intros u s2 Hc2 _ E2. apply works_ret; auto. }
  destruct (docIndexCache_ s !! uri) as [[src b]|] eqn:Ei; [|exact Hbuild].
  case_bool_decide as Hsrc; [|exact Hbuild]. subst.
  destruct (co_index _ _ Hc _ _ _ Ei) as (text' & Ht & Heq & _).
  assert (text' = text) as -> by congruence. specialize (Heq eq_refl).
  apply works_ret; [done|]. split; [done|right; congruence].
Qed.

(** ** Diagnostics *)

(** A computation over coherent caches that does not throw. *)
Definition succeeds (h : Editor) (s : Server) (m : Srv unit) : Prop :=
  steps s m (λ o s', o = Some tt ∧ coherent h s' ∧ keeps s s').

Lemma succeeds_works h s m : succeeds h s m → works h s m (λ _ _, True).
Proof. intros Hm. eapply steps_weaken; [exact Hm|]. intros o s' (-> & ? & ?). done. Qed.

Lemma dump_plain (s : string) : printable (J := J) s → dumpable (j_str s : J).
Proof. intros Hs. by apply (dump_text "" s). Qed.

Lemma dump_strings l : Forall (λ s, ascii_text s = true) l → dumpable (strings (J := J) l).
Proof. intros Hl. apply dump_arr, Forall_fmap. eapply Forall_impl; [exact Hl|]. apply dump_ascii. Qed.

(** An object whose members can be printed. *)
Ltac dumps := apply dump_obj; repeat apply Forall_cons_2; try apply Forall_nil_2;
  (split; [reflexivity|]); try assumption; try (by apply dump_ascii); try apply dump_num; try apply dump_null.

Lemma dump_notification uri : printable (J := J) uri →
  dumpable (encode (J := J) (Notification publishMethod (diagnosticsParams uri (j_arr [])))).
Proof.
  intros Hu. apply dump_plain in Hu. cbn [encode].
  assert (dumpable (j_arr [] : J)) by by apply dump_arr.
  assert (dumpable (diagnosticsParams (J := J) uri (j_arr []))) by dumps.
  dumps.
Qed.

(** A notification is sent, or printing it throws. *)
Lemma works_notify h s method (params : J) : coherent h s →
  works h s (send (Notification method params)) (λ _ s', aside s s').
Proof.
  intros Hc. unfold send.
  assert (Ha : aside s (s <| sent_ := sent_ s ++ [Notification method params] |>)).
  { repeat split; auto. unfold replies. simpl. by rewrite omap_app, app_nil_r. }
  destruct (dump _) eqn:Hd.
  - eapply works_ok; [reflexivity|by eapply aside_coherent|apply (as_keeps _ _ Ha)|done].
  - by split_and!.
Qed.

Lemma notify_sends h s uri : coherent h s → printable (J := J) uri →
  succeeds h s (send (Notification publishMethod (diagnosticsParams uri (j_arr [])))).
Proof.
  intros Hc Hu. pose proof (works_notify h s publishMethod (diagnosticsParams uri (j_arr [])) Hc) as Hw.
  destruct (dump_notification uri Hu) as [text Hd]. unfold works, succeeds, steps, send in *.
  rewrite Hd in *. by destruct Hw as (? & ? & ?).
Qed.

Lemma works_diagnostics h s uri source : coherent h s → parseable h uri source →
  works h s (diagnosticsOf X uri source) (λ _ _, True).
Proof.
  intros Hc Hp. unfold diagnosticsOf. eapply works_read; [reflexivity|].
  assert (Hrun : works h s (a ← getOrParse X uri source; p ← derefParse a;
    diags ← liftW (runDiagnostics X source (uriToPath uri) p);
    modifyS (λ s, s <| cachedDiags_ := <[uri := (source, diags)]> (cachedDiags_ s) |>);;
    mret diags) (λ _ _, True)).
  { eapply works_bind; [by apply works_getOrParse|]. intros a s1 Hc1 _ E.
    eapply steps_deref; [done|exact E|].
    eapply works_bind; [apply works_world; [apply (ee_diagnostics _ HX)|done]|]. intros diags s2 Hc2 _ _.
    eapply works_bind; [eapply works_aside; [reflexivity|by repeat split; auto|done]|].
    intros u s3 Hc3 _ _. by apply works_ret. }
  repeat case_match; by first [apply Hrun|apply works_ret].
Qed.

Lemma co_pending h s : coherent h s → pending_ok h s → pendingUri_ s ≠ "" →
  parseable h (pendingUri_ s) (pendingSource_ s) ∧ printable (J := J) (pendingUri_ s).
Proof. intros Hc Hp Hne. by destruct (co_changed _ _ Hc _ _ (Hp Hne)). Qed.

(** Flushing checks the deferred text, with [publish], or does nothing. *)
Lemma works_flush h s publish : coherent h s → pending_ok h s →
  (∀ s', pendingUri_ s ≠ "" → pendingUri_ s' = "" → coherent h s' →
    succeeds h s' (publish (pendingUri_ s) (pendingSource_ s))) →
  succeeds h s (flushWith X publish).
Proof.
  intros Hc Hp Hpub. unfold succeeds, flushWith. eapply steps_read; [reflexivity|].
  case_bool_decide as Hu; [by apply (steps_ok _ _ tt s)|].
  destruct (ee_time _ HX (world_ s)) as (t & w & Ht).
  eapply (steps_then _ (s <| world_ := w |>)); [unfold liftW; by rewrite Ht|]. cbv beta.
  destruct (_ <? _).
  { eapply steps_ok; [reflexivity|]. assert (Ha : aside s (s <| world_ := w |>)) by (repeat split; auto).
    split_and!; [done|by eapply aside_coherent|apply (as_keeps _ _ Ha)]. }
  set (s1 := s <| world_ := w |> <| pendingUri_ := "" |> <| pendingSource_ := "" |>).
  assert (Ha : aside s s1) by (repeat split; auto).
  eapply (steps_then _ s1); [reflexivity|].
  eapply steps_weaken; [apply (Hpub s1); [done..|by eapply aside_coherent]|].
  intros o s2 (-> & Hc2 & Hk2). split_and!; [done..|]. etrans; [apply (as_keeps _ _ Ha)|done].
Qed.

Lemma works_publishAt n : ∀ h s uri source, coherent h s → pending_ok h s → parseable h uri source →
  printable (J := J) uri → (1 ≤ n)%nat ∨ pendingUri_ s = "" →
  succeeds h s (publishAt X (S n) uri source).
Proof.
  induction n as [|n IH]; intros h s uri source Hc Hp Hparse Hu Hn; cbn [publishAt];
    (eapply (steps_try _ _ _ (λ o s', coherent h s' ∧ keeps s s'));
      [|intros []; done|intros s' [Hc' Hk]; eapply steps_weaken; [by apply notify_sends|];
        intros o s2 (-> & ? & ?); split_and!; [done..|by etrans]]).
  all: eapply (steps_weaken _ _ (λ o s', coherent h s' ∧ keeps s s' ∧ match o with Some _ | None => True end));
    [|naive_solver].
  all: eapply (works_bind h s _ _ (λ _ _, True));
    [|intros _ s1 Hc1 Hk1 _; eapply works_bind; [by apply works_diagnostics|];
      intros diags s2 Hc2 Hk2 _; eapply works_weaken; [by apply works_notify|done]].
  - destruct Hn as [?|Hn]; [lia|]. unfold flushWith. eapply works_read; [reflexivity|].
    rewrite Hn. cbn [bool_decide decide_rel]. by apply works_ret.
  - apply succeeds_works, works_flush; [done..|]. intros s' Hne Hnone Hc'.
    destruct (co_pending _ _ Hc Hp Hne) as [Hpp Hpu].
    apply IH; [done| |done..|by right]. intros Hne'. by rewrite Hnone in Hne'.
Qed.

(** ** The project *)

Lemma works_modify h s (f : Server → Server) : coherent h s → aside s (f s) →
  works h s (modifyS f) (λ _ _, True).
Proof. intros Hc Ha. eapply works_weaken; [by eapply works_aside|done]. Qed.

Ltac aside := apply works_modify; [assumption|by repeat split; auto].
Ltac outside := eapply works_weaken; [apply works_world; [by apply HX|assumption]|done].

Lemma works_true {A} h s (m : Srv A) R : works h s m R → works h s m (λ _ _, True).
Proof. intros Hm. by eapply works_weaken. Qed.

(** A computation after one whose result does not matter. *)
Lemma works_seq {A B} h s (m : Srv A) (k : A → Srv B) R :
  works h s m (λ _ _, True) → (∀ a s', coherent h s' → keeps s s' → works h s' (k a) R) →
  works h s (m ≫= k) R.
Proof. intros Hm Hk. eapply works_bind; [exact Hm|auto]. Qed.

Lemma works_try {A} h s (m m' : Srv A) :
  works h s m (λ _ _, True) → (∀ s', coherent h s' → works h s' m' (λ _ _, True)) →
  works h s (tryCatch m m') (λ _ _, True).
Proof.
  intros Hm Hm'. eapply steps_try; [exact Hm|naive_solver|]. intros s1 (Hc & Hk & _).
  eapply steps_weaken; [by apply Hm'|]. intros o s2 (? & ? & _). split_and!; [done|by etrans|by destruct o].
Qed.

Lemma works_if {A} h s (b : bool) (m m' : Srv A) R :
  works h s m R → works h s m' R → works h s (if b then m else m') R.
Proof. by destruct b. Qed.

Lemma works_get {B} h s (k : Server → Srv B) R : works h s (k s) R → works h s (s ← getS; k s) R.
Proof. by apply works_read. Qed.

Lemma works_document {B} h s uri (k : string → Srv B) R :
  works h s (k (default "" (documents_ s !! uri))) R → works h s (t ← getDocument uri; k t) R.
Proof. by apply works_read. Qed.

Lemma works_rebuild h s path force : coherent h s → works h s (rebuildContext X path force) (λ _ _, True).
Proof.
  intros Hc. unfold rebuildContext. apply works_get. apply works_seq.
  { apply works_if; [outside|by apply works_ret]. }
  intros root s1 Hc1 _. apply works_if; [by apply works_ret|]. apply works_seq.
  { apply works_if.
    - apply works_seq; [outside|]. intros main s2 Hc2 _. aside.
    - apply works_seq; [outside|]. intros [text|] s2 Hc2 _; [|by apply works_ret].
      apply works_if; [aside|by apply works_ret]. }
  intros _ s2 Hc2 _. apply works_get. cbv zeta. apply works_seq.
  { apply works_if; [by apply works_ret|outside]. }
  intros valid s3 Hc3 _. apply works_if; [by apply works_ret|]. apply works_seq.
  { apply works_try; [|intros; by apply works_ret]. apply works_if; [|outside].
    apply works_document, works_if; outside. }
  intros built s4 Hc4 _. apply works_if; [aside|by apply works_ret].
Qed.

Lemma works_registerFrom path dirs : ∀ h s, coherent h s → works h s (registerFrom X path dirs) (λ _ _, True).
Proof.
  induction dirs as [|dir dirs IH]; intros h s Hc; cbn [registerFrom]; [by apply works_ret|].
  apply works_seq; [outside|]. intros registered s' Hc' _. apply works_if; [by apply works_ret|auto].
Qed.

Lemma works_registerModules root uses : ∀ h s, coherent h s →
  works h s (registerModules X root uses) (λ _ _, True).
Proof.
  induction uses as [|ids uses IH]; intros h s Hc; cbn [registerModules]; [by apply works_ret|].
  apply works_seq; [|auto]. apply works_if; [by apply works_ret|].
  apply works_seq; [outside|]. intros known s1 Hc1 _. apply works_if; [by apply works_ret|].
  apply works_seq; [apply works_if; [by apply works_ret|outside]|]. intros registered s2 Hc2 _.
  apply works_if; [by apply works_ret|]. apply works_seq; [outside|]. intros dirs s3 Hc3 _.
  by apply works_registerFrom.
Qed.

Lemma works_uses h s p : coherent h s → works h s (registerDocumentUses X p) (λ _ _, True).
Proof.
  intros Hc. apply works_get, works_try; [by apply works_registerModules|]. intros. by apply works_ret.
Qed.

Lemma works_publish h s uri source : coherent h s → pending_ok h s → parseable h uri source →
  printable (J := J) uri → succeeds h s (publishDiagnostics X uri source).
Proof. intros. apply works_publishAt; auto. Qed.

Lemma works_flushPending h s : coherent h s → pending_ok h s → succeeds h s (flushPendingDiagnostics X).
Proof.
  intros Hc Hp. apply works_flush; [done..|]. intros s' Hne Hnone Hc'.
  destruct (co_pending _ _ Hc Hp Hne). apply works_publish; [done| |done..].
  intros Hne'. by rewrite Hnone in Hne'.
Qed.

(** ** Handlers *)

(** [m] does not throw, answers the ids [l], and leaves caches that suit the editor [h']. *)
Definition serves (h' : Editor) (s : Server) (m : Srv unit) (l : list J) (stop : bool) : Prop :=
  steps s m (λ o s', o = Some tt ∧ coherent h' s' ∧ pending_ok h' s' ∧
    replies (sent_ s') = replies (sent_ s) ++ l ∧ shutdown_ s' = shutdown_ s || stop).

Lemma serves_succeeds h s m : succeeds h s m → pending_ok h s → serves h s m [] false.
Proof.
  intros Hm Hp. eapply steps_weaken; [exact Hm|]. intros o s' (-> & Hc & Hk). destruct (Hk) as [H1 H2 H3].
  split_and!; [done|done|by eapply pending_keeps|by rewrite app_nil_r|by rewrite orb_false_r].
Qed.

(** A handler of a notification keeps the exceptions of its body to itself. *)
Lemma works_caught h s (m : Srv unit) : works h s m (λ _ _, True) → succeeds h s (tryCatch m (mret tt)).
Proof.
  intros Hm. eapply steps_try; [exact Hm|..].
  - intros [] s' (? & ? & _). by split_and!.
  - intros s' (? & ? & _). eapply steps_ok; [reflexivity|]. by split_and!.
Qed.

Lemma serves_later h s0 s (m : Srv unit) : succeeds h s m → keeps s0 s → pending_ok h s0 →
  steps s m (λ o s', o = Some tt ∧ coherent h s' ∧ pending_ok h s' ∧
    replies (sent_ s') = replies (sent_ s0) ++ [] ∧ shutdown_ s' = shutdown_ s0 || false).
Proof.
  intros Hm Hk0 Hp. eapply steps_weaken; [exact Hm|].
  intros o s' (-> & Hc & Hk). pose proof (transitivity Hk0 Hk) as Hk1. destruct (Hk1) as [H1 H2 H3].
  split_and!; [done|done|by eapply pending_keeps|by rewrite app_nil_r|by rewrite orb_false_r].
Qed.

Lemma steps_try_then {A B} (s s' : Server) (m : Srv A) (k : A → Srv B) (m' : Srv B) a :
  m s = ROk a s' → tryCatch (m ≫= k) m' s = tryCatch (k a) m' s'.
Proof. intros E. unfold tryCatch. by rewrite (M_bind_ok _ _ _ _ _ E). Qed.

(** Opening, or saving with its text. *)
Definition opened (uri text : string) (s : Server) : Server :=
  let s := freeEntry uri (s <| documents_ := <[uri := text]> (documents_ s) |>) in
  let s := s <| docIndexCache_ := delete uri (docIndexCache_ s) |> in
  s <| cachedTokens_ := delete uri (cachedTokens_ s) |> <| cachedDiags_ := delete uri (cachedDiags_ s) |>.

Lemma freed_coherent h h' (s s' : Server) uri : coherent h s →
  (∀ u t, ed_changed h' = Some (u, t) → printable (J := J) u ∧ (ed_docs h' !! u = None ∨ ed_docs h' !! u = Some t)) →
  documents_ s' = ed_docs h' → (∀ v, v ≠ uri → ed_docs h' !! v = ed_docs h !! v ∧ ed_past h' v = ed_past h v) →
  nextParse_ s' = nextParse_ s → parses_ s' = parses_ (freeEntry uri s) →
  parseCache_ s' = parseCache_ (freeEntry uri s) → docIndexCache_ s' = delete uri (docIndexCache_ s) →
  coherent h' s'.
Proof.
  intros Hc Hch Hd Hothers Hn Hp Hpc Hi.
  assert (Hcache : ∀ v src a, parseCache_ s' !! v = Some (src, a) → v ≠ uri ∧ parseCache_ s !! v = Some (src, a)).
  { intros v src a. rewrite Hpc, freeEntry_cache. by case_bool_decide. }
  split; [done| | | |done].
  - intros v src a [Hv E]%Hcache. rewrite Hp, Hn. split; [by eapply freeEntry_others|].
    pose proof (co_live _ _ Hc _ _ _ E). lia.
  - intros u v x y a [_ Eu]%Hcache [_ Ev]%Hcache. by eapply (co_owner _ _ Hc).
  - intros v src a E. rewrite Hi in E. apply lookup_delete_Some in E as [Hv E].
    destruct (co_index _ _ Hc _ _ _ E) as (text & Ht & Heq & Hne).
    destruct (Hothers v) as [Ho1 Ho2]; [done|]. exists text. rewrite Ho1, Ho2.
    split_and!; [done| |done]. intros ->. rewrite Hpc, freeEntry_cache, bool_decide_false by done. auto.
Qed.

Lemma edit_open_inv uri text h h' : edit_open uri text h = Some h' →
  ed_docs h' = <[uri := text]> (ed_docs h) ∧ ed_past h' = set_past uri [] h ∧
  ed_changed h' = ed_changed h ∧ ∀ t, ed_changed h = Some (uri, t) → t = text.
Proof.
  unfold edit_open. destruct (ed_changed h) as [[u t]|] eqn:E; [|by intros [= <-]].
  case_bool_decide as Hu; case_bool_decide as Ht; simpl; intros [= <-];
    (split_and!; [done..|]); intros t' Heq; congruence.
Qed.

Lemma opened_keeps uri text s : keeps s (opened uri text s).
Proof.
  unfold opened. cbv zeta.
  destruct (freeEntry_rest (s <| documents_ := <[uri := text]> (documents_ s) |>) uri)
    as (_ & _ & _ & F4 & F5 & F6 & F7).
  split; simpl; rewrite ?F4, ?F5, ?F6, ?F7; auto.
Qed.

Lemma set_past_ne uri l h v : v ≠ uri → set_past uri l h v = ed_past h v.
Proof. intros. unfold set_past. by rewrite bool_decide_false. Qed.

Lemma opened_coherent h h' s uri text : edit_open uri text h = Some h' → coherent h s →
  coherent h' (opened uri text s).
Proof.
  intros (Hd & Hpast & Hch & Hwait)%edit_open_inv Hc. unfold opened. cbv zeta.
  set (s1 := s <| documents_ := <[uri := text]> (documents_ s) |>).
  destruct (freeEntry_rest s1 uri) as (F1 & F2 & F3 & _).
  apply (freed_coherent h _ s _ uri); try done.
  - intros u t Hut. rewrite Hch in Hut. destruct (co_changed _ _ Hc _ _ Hut) as [Hu Ht].
    split; [done|]. rewrite Hd. destruct (decide (u = uri)) as [->|Hne].
    + right. by rewrite lookup_insert_eq, (Hwait t Hut).
    + by rewrite lookup_insert_ne.
  - simpl. rewrite F1, Hd. simpl. by rewrite (co_docs _ _ Hc).
  - intros v Hv. rewrite Hd, Hpast, lookup_insert_ne, set_past_ne by done. done.
  - simpl. unfold freeEntry. simpl. by repeat case_match.
  - simpl. unfold freeEntry. simpl. by repeat case_match.
  - simpl. rewrite F3. done.
Qed.

Lemma open_pending h h' s uri text : edit_open uri text h = Some h' → pending_ok h s → pending_ok h' s.
Proof. intros (_ & _ & Hch & _)%edit_open_inv Hp Hne. rewrite Hch. auto. Qed.

(** ** Documents *)

Lemma get_printable (j v : J) k s : dumpable j → member j k = Ret v → get_string v = Ret s → printable (J := J) s.
Proof. intros Hj Hv Hs. exists v. split; [done|]. by eapply dump_member. Qed.

Ltac inv_ret H := repeat (let x := fresh "x" in let E := fresh "E" in
  apply outcome_bind_inv in H as (x & E & H)).

Lemma documentUri_printable (params : J) uri : dumpable params → documentUri params = Ret uri →
  printable (J := J) uri.
Proof.
  unfold documentUri. intros Hp Hu. inv_ret Hu.
  eapply get_printable; [eapply dump_member; [exact Hp|exact E]|exact E0|exact Hu].
Qed.

Lemma openParams_printable (msg : J) uri text : dumpable msg → openParams msg = Ret (uri, text) →
  printable (J := J) uri.
Proof.
  unfold openParams. intros Hm Ho. inv_ret Ho. injection Ho as -> ->.
  eapply get_printable; [eapply dump_member; [eapply dump_member; [exact Hm|exact E]|exact E0]|exact E1|exact E2].
Qed.

Lemma saveParams_printable (msg : J) uri text : dumpable msg → saveParams msg = Ret (uri, text) →
  printable (J := J) uri.
Proof.
  unfold saveParams. intros Hm Ho. apply outcome_bind_inv in Ho as (params & E & Ho).
  apply outcome_bind_inv in Ho as (u & Eu & Ho).
  assert (u = uri) as ->; [|by eapply documentUri_printable, Eu; eapply dump_member].
  destruct (contains params "text"); [inv_ret Ho|]; congruence.
Qed.

Lemma changeParams_printable (msg : J) uri text : dumpable msg → changeParams msg = Ret (uri, text) →
  printable (J := J) uri.
Proof.
  unfold changeParams. intros Hm Ho. apply outcome_bind_inv in Ho as (params & E & Ho).
  apply outcome_bind_inv in Ho as (u & Eu & Ho). apply outcome_bind_inv in Ho as (c & Ec & Ho).
  assert (u = uri) as ->; [|by eapply documentUri_printable, Eu; eapply dump_member].
  destruct (j_empty c); [|inv_ret Ho]; congruence.
Qed.

Lemma closeParams_printable (msg : J) uri : dumpable msg → closeParams msg = Ret uri → printable (J := J) uri.
Proof.
  unfold closeParams. intros Hm Ho. apply outcome_bind_inv in Ho as (params & E & Ho).
  eapply documentUri_printable, Ho. by eapply dump_member.
Qed.

(** The body of a handler reads its parameters; on an exception nothing has changed. *)
Lemma serves_params {P} h h' s (params : outcome P) (k : P → Srv unit) :
  defined params = true → coherent h s → pending_ok h s → (∀ e, params = Throw e → h' = h) →
  (∀ p, params = Ret p → serves h' s (tryCatch (k p) (mret tt)) [] false) →
  serves h' s (tryCatch (p ← liftO params; k p) (mret tt)) [] false.
Proof.
  intros Hd Hc Hp Hthrow Hret. destruct params as [p|e| |]; try done.
  - exact (Hret p eq_refl).
  - rewrite (Hthrow e eq_refl). apply serves_succeeds; [|done].
    eapply steps_ok; [reflexivity|]. by split_and!.
Qed.

(** A handler that starts with a step to a state that suits the editor. *)
Lemma serves_step {A} h' s s' (m : Srv A) a (k : A → Srv unit) :
  m s = ROk a s' → coherent h' s' → keeps s s' → pending_ok h' s →
  works h' s' (k a) (λ _ _, True) → serves h' s (tryCatch (m ≫= k) (mret tt)) [] false.
Proof.
  intros E Hc Hk Hp Hw. unfold serves, steps. rewrite (steps_try_then _ s' _ _ _ a E).
  eapply (serves_later h' s s'); [by apply works_caught|done|done].
Qed.

Lemma serves_steps {A B} h' s s1 s' (m : Srv A) (m' : Srv B) a b (k : A → B → Srv unit) :
  m s = ROk a s1 → m' s1 = ROk b s' → coherent h' s' → keeps s s' → pending_ok h' s →
  works h' s' (k a b) (λ _ _, True) →
  serves h' s (tryCatch (x ← m; y ← m'; k x y) (mret tt)) [] false.
Proof.
  intros E1 E2 Hc Hk Hp Hw. unfold serves, steps.
  rewrite (steps_try_then _ s1 _ _ _ a E1), (steps_try_then _ s' _ _ _ b E2).
  eapply (serves_later h' s s'); [by apply works_caught|done|done].
Qed.

Lemma serves_didOpen h h' s msg : dumpable msg → defined (openParams msg) = true →
  coherent h s → pending_ok h s →
  match openParams msg with Ret (uri, text) => edit_open uri text h | _ => Some h end = Some h' →
  serves h' s (handleDidOpen X msg) [] false.
Proof.
  intros Hm Hd Hc Hp He. unfold handleDidOpen. apply (serves_params h); [done..| |].
  { intros e E. rewrite E in He. congruence. }
  intros [uri text] E. rewrite E in He. pose proof (openParams_printable _ _ _ Hm E) as Hu.
  pose proof (opened_coherent _ _ _ _ _ He Hc) as Hc1.
  pose proof (opened_keeps uri text s) as Hk1.
  pose proof (open_pending _ _ _ _ _ He Hp) as Hp1.
  destruct (edit_open_inv _ _ _ _ He) as (Hdocs & _).
  eapply (serves_steps _ _ _ (opened uri text s) _ _ tt tt (λ _ _, rebuildContext X (uriToPath uri) true;;
    registerDocumentUses X (parseString X text);; publishDiagnostics X uri text));
    [reflexivity|reflexivity|done..|].
  apply works_seq; [by apply works_rebuild|]. intros _ s2 Hc2 Hk2.
  apply works_seq; [by apply works_uses|]. intros _ s3 Hc3 Hk3.
  apply succeeds_works, works_publish; [done| | |done].
  - eapply pending_keeps, Hp1. etrans; [exact Hk1|by etrans].
  - right. by rewrite Hdocs, lookup_insert_eq.
Qed.

Lemma serves_didSave h h' s msg : dumpable msg → defined (saveParams msg) = true →
  coherent h s → pending_ok h s →
  match saveParams msg with Ret (uri, Some text) => edit_open uri text h | _ => Some h end = Some h' →
  serves h' s (handleDidSave X msg) [] false.
Proof.
  intros Hm Hd Hc Hp He. unfold handleDidSave. apply (serves_params h); [done..| |].
  { intros e E. rewrite E in He. congruence. }
  intros [uri saved] E. rewrite E in He. pose proof (saveParams_printable _ _ _ Hm E) as Hu.
  assert (Hrest : ∀ text s1, coherent h' s1 → keeps s s1 → pending_ok h' s → parseable h' uri text →
    works h' s1 (rebuildContext X (uriToPath uri) true;; publishDiagnostics X uri text) (λ _ _, True)).
  { intros text s1 Hc1 Hk1 Hp1 Ht. apply works_seq; [by apply works_rebuild|]. intros _ s2 Hc2 Hk2.
    apply succeeds_works, works_publish; [done| |done..]. eapply pending_keeps, Hp1. by etrans. }
  destruct saved as [text|].
  - eapply (serves_step _ _ (opened uri text s) _ text); [reflexivity|by eapply opened_coherent|
      apply opened_keeps|by eapply open_pending|].
    apply Hrest; [by eapply opened_coherent|apply opened_keeps|by eapply open_pending|].
    destruct (edit_open_inv _ _ _ _ He) as (Hdocs & _). right. by rewrite Hdocs, lookup_insert_eq.
  - injection He as <-.
    eapply (serves_step _ _ s _ (default "" (documents_ s !! uri))); [reflexivity|done..|].
    apply Hrest; [done..|]. unfold parseable. rewrite <-(co_docs _ _ Hc).
    destruct (documents_ s !! uri); auto.
Qed.

(** Changing the text: the caches keep what they had for earlier texts. *)
Definition changed (uri text : string) (s : Server) : Server :=
  let s := s <| documents_ := <[uri := text]> (documents_ s) |> in
  s <| cachedTokens_ := delete uri (cachedTokens_ s) |> <| cachedDiags_ := delete uri (cachedDiags_ s) |>.

Lemma changed_coherent h h' s uri text : edit_change uri text h = Some h' → printable (J := J) uri →
  coherent h s → coherent h' (changed uri text s).
Proof.
  intros He Hu Hc. unfold edit_change in He. case_bool_decide as Hsame.
  - injection He as <-. destruct Hc. split; simpl; try done.
    + by rewrite co_docs0, insert_id.
    + intros u t [= <- <-]. auto.
  - case_bool_decide as Hin; [done|]. injection He as <-. destruct Hc. split; simpl; try done.
    + by rewrite co_docs0.
    + intros v src a E. destruct (co_index0 _ _ _ E) as (old & Hold & Heq & Hne).
      destruct (decide (v = uri)) as [->|Hv].
      * exists text. rewrite lookup_insert_eq. unfold set_past. rewrite bool_decide_true, Hold by done.
        simpl. destruct (decide (src = old)) as [->|Hso].
        -- split_and!; [done|congruence|intros _; apply list_elem_of_here].
        -- specialize (Hne Hso). split_and!; [done|intros ->; done|intros _; by apply list_elem_of_further].
      * exists old. rewrite lookup_insert_ne, set_past_ne by done. done.
    + intros u t [= <- <-]. rewrite lookup_insert_eq. auto.
Qed.

Lemma edit_change_inv uri text h h' : edit_change uri text h = Some h' →
  ed_docs h' !! uri = Some text ∧ ed_changed h' = Some (uri, text).
Proof.
  unfold edit_change. case_bool_decide; [by intros [= <-]|]. case_bool_decide; [done|].
  intros [= <-]. simpl. by rewrite lookup_insert_eq.
Qed.

(** Scheduling the diagnostics of the new text. *)
Definition schedule (uri text : string) : Srv unit :=
  modifyS (λ s, s <| pendingUri_ := uri |> <| pendingSource_ := text |>);;
  now ← liftW (steadyMs X);
  modifyS (λ s, s <| pendingSinceMs_ := now |>).

Lemma steps_schedule h s uri text : coherent h s → ed_changed h = Some (uri, text) →
  steps s (schedule uri text) (λ o s', o = Some tt ∧ coherent h s' ∧ pending_ok h s' ∧
    replies (sent_ s') = replies (sent_ s) ∧ shutdown_ s' = shutdown_ s).
Proof.
  intros Hc Hch. unfold schedule. set (s1 := s <| pendingUri_ := uri |> <| pendingSource_ := text |>).
  eapply (steps_then _ s1); [reflexivity|].
  destruct (ee_time _ HX (world_ s1)) as (t & w & Ht).
  eapply (steps_then _ (s1 <| world_ := w |>)); [unfold liftW; by rewrite Ht|].
  eapply steps_ok; [reflexivity|]. split_and!; [done| |intros _; exact Hch|done|done].
  by destruct Hc; split.
Qed.

Lemma getOrParse_returns uri source (s : Server) : ∃ a s', getOrParse X uri source s = ROk a s'.
Proof. unfold getOrParse. repeat case_match; eauto. Qed.

Lemma succeeds_uses h s p : coherent h s → succeeds h s (registerDocumentUses X p).
Proof. intros Hc. eapply steps_read; [reflexivity|]. apply works_caught. by apply works_registerModules. Qed.

Lemma succeeds_then {B} h s m (k : unit → Srv B) R : succeeds h s m →
  (∀ s', coherent h s' → keeps s s' → steps s' (k tt) R) → steps s (m ≫= k) R.
Proof.
  intros Hm Hk. eapply steps_bind; [exact Hm|naive_solver|]. intros [] s' (_ & ? & ?). auto.
Qed.

(** What follows the parse of the current text. *)
Lemma getOrParse_then {B} h s uri source (k : nat → Srv B) R : coherent h s → parseable h uri source →
  (∀ a s', coherent h s' → keeps s s' → parseCache_ s' !! uri = Some (source, a) → steps s' (k a) R) →
  steps s (getOrParse X uri source ≫= k) R.
Proof.
  intros Hc Hp Hk. destruct (getOrParse_returns uri source s) as (a & s' & E).
  pose proof (works_getOrParse _ _ _ _ Hc Hp) as Hw. unfold works, steps in Hw. rewrite E in Hw.
  destruct Hw as (Hc' & Hk' & Ha). eapply steps_then; [exact E|]. auto.
Qed.

Lemma serves_try h s m m' l stop : serves h s m l stop → serves h s (tryCatch m m') l stop.
Proof. intros Hm. eapply steps_try; [exact Hm|auto|]. by intros s' [[=] _]. Qed.

Lemma serves_didChange h h' s msg : dumpable msg → defined (changeParams msg) = true →
  coherent h s → pending_ok h s →
  match changeParams msg with Ret (uri, Some text) => edit_change uri text h | _ => Some h end = Some h' →
  serves h' s (handleDidChange X msg) [] false.
Proof.
  intros Hm Hd Hc Hp He. unfold handleDidChange. apply (serves_params h); [done..| |].
  { intros e E. rewrite E in He. congruence. }
  intros [uri [text|]] E; rewrite E in He.
  2: { injection He as <-. apply serves_succeeds; [|done]. by eapply steps_ok. }
  pose proof (changeParams_printable _ _ _ Hm E) as Hu.
  pose proof (changed_coherent _ _ _ _ _ He Hu Hc) as Hc1.
  destruct (edit_change_inv _ _ _ _ He) as [Hdocs Hch].
  apply serves_try.
  eapply (steps_then s _ (putDocument uri text) _ tt); [reflexivity|].
  eapply (steps_then _ (changed uri text s) (eraseTokens uri) _ tt); [reflexivity|].
  apply (getOrParse_then h' _ uri text); [done|by right|]. intros a s1 Hc2 Hk2 Ha.
  eapply steps_read; [unfold derefParse; by destruct (co_live _ _ Hc2 _ _ _ Ha) as [-> _]|].
  apply (succeeds_then h'); [by apply succeeds_uses|]. intros s2 Hc3 Hk3.
  eapply steps_weaken; [by apply steps_schedule|].
  intros o s3 (-> & Hc4 & Hp4 & Hr & Hsh).
  pose proof (transitivity Hk2 Hk3) as [H1 H2 _].
  split_and!; [done..| |].
  - rewrite Hr, app_nil_r. exact H1.
  - rewrite Hsh, orb_false_r. exact H2.
Qed.

Lemma serves_didClose h s msg : dumpable msg → defined (closeParams msg) = true →
  coherent h s → pending_ok h s →
  serves (match closeParams msg with Ret uri => edit_close uri h | _ => h end) s (handleDidClose msg) [] false.
Proof.
  intros Hm Hd Hc Hp. unfold handleDidClose. apply (serves_params h); [done..|by intros e ->|].
  intros uri E. rewrite E. pose proof (closeParams_printable _ _ Hm E) as Hu. apply serves_try.
  set (s1 := s <| documents_ := delete uri (documents_ s) |>).
  destruct (freeEntry_rest s1 uri) as (F1 & F2 & F3 & F4 & F5 & F6 & F7).
  set (s2 := freeEntry uri s1) in *.
  set (s3 := s2 <| docIndexCache_ := delete uri (docIndexCache_ s2) |>
    <| cachedTokens_ := delete uri (cachedTokens_ s2) |> <| cachedDiags_ := delete uri (cachedDiags_ s2) |>).
  assert (Hc3 : coherent (edit_close uri h) s3).
  { apply (freed_coherent h _ s _ uri); try done.
    - intros u t Hut. destruct (co_changed _ _ Hc _ _ Hut) as [? Ht]. split; [done|]. simpl.
      destruct (decide (u = uri)) as [->|Hne]; [left; by rewrite lookup_delete_eq|].
      by rewrite lookup_delete_ne.
    - simpl. rewrite F1. simpl. by rewrite (co_docs _ _ Hc).
    - intros v Hv. simpl. by rewrite lookup_delete_ne, set_past_ne.
    - subst s2 s1. simpl. unfold freeEntry. simpl. by repeat case_match.
    - subst s2 s1. simpl. unfold freeEntry. simpl. by repeat case_match.
    - simpl. by rewrite F3. }
  assert (Hk3 : keeps s s3) by (split; simpl; rewrite ?F4, ?F5, ?F6, ?F7; auto).
  eapply (steps_then s s1 _ _ tt); [reflexivity|].
  eapply (steps_then s1 s3 (eraseCaches uri) _ tt); [reflexivity|].
  eapply serves_later; [by apply notify_sends|done|done].
Qed.

(** ** Requests *)

(** [m] answers [id], or throws before it does. *)
Definition attempts (h : Editor) (s : Server) (m : Srv unit) (id : J) : Prop :=
  steps s m (λ o s', coherent h s' ∧ pending_ok h s' ∧
    replies (sent_ s') = replies (sent_ s) ++ (if o is Some _ then [id] else []) ∧ shutdown_ s' = shutdown_ s).

Lemma attempts_bind {A} h s (m : Srv A) (k : A → Srv unit) R id : pending_ok h s → works h s m R →
  (∀ a s', coherent h s' → pending_ok h s' → R a s' → attempts h s' (k a) id) →
  attempts h s (m ≫= k) id.
Proof.
  intros Hp Hm Hk. eapply steps_bind; [exact Hm|..].
  - intros s' (Hc & Hk' & _). pose proof (pending_keeps _ _ _ Hk' Hp). destruct Hk'.
    split_and!; [done..| |done]. by rewrite app_nil_r.
  - intros a s' (Hc & Hk' & HR). pose proof (pending_keeps _ _ _ Hk' Hp) as Hp'.
    eapply steps_weaken; [by apply Hk|]. destruct Hk' as [H1 H2 _]. intros o s''. by rewrite H1, H2.
Qed.

Lemma attempts_read {A} h s (m : Srv A) (k : A → Srv unit) a id :
  m s = ROk a s → attempts h s (k a) id → attempts h s (m ≫= k) id.
Proof. apply steps_read. Qed.

Lemma attempts_lift {P} h s (m : outcome P) (k : P → Srv unit) id : coherent h s → pending_ok h s →
  defined m = true → (∀ p, m = Ret p → attempts h s (k p) id) → attempts h s (liftO m ≫= k) id.
Proof.
  intros Hc Hp Hd Hk. apply steps_lift; [done..|]. intros e _. split_and!; [done..| |done].
  by rewrite app_nil_r.
Qed.

(** Sending an answer: it is the last thing sent, unless printing it throws. *)
Lemma attempts_send h s (o : outgoing J) id : replies [o] = [id] → coherent h s → pending_ok h s →
  attempts h s (send o) id.
Proof.
  intros Ho Hc Hp. unfold attempts, steps, send. destruct (dump _).
  - simpl. split_and!; [by destruct Hc; split|done| |done].
    unfold replies in *. simpl. by rewrite omap_app, Ho.
  - unfold throwS. split_and!; [done..| |done]. by rewrite app_nil_r.
Qed.

Lemma serves_send h s (o : outgoing J) id : replies [o] = [id] → dumpable (encode o) →
  coherent h s → pending_ok h s → serves h s (send o) [id] false.
Proof.
  intros Ho [text Hd] Hc Hp. pose proof (attempts_send h s o id Ho Hc Hp) as Ha.
  unfold attempts, serves, steps, send in *. rewrite Hd in *. destruct Ha as (? & ? & ? & ?).
  split_and!; [done..|]. by rewrite orb_false_r.
Qed.

Section request.
Context (h : Editor) (msg id : J).
Hypothesis (Hmsg : dumpable msg) (Hid : member msg "id" = Ret id).

Lemma id_dumpable : dumpable id.
Proof. by eapply dump_member. Qed.

Lemma dump_response result : dumpable result → dumpable (encode (Response id result)).
Proof. intros Hr. pose proof id_dumpable. cbn [encode]. dumps. Qed.

Lemma dump_error code text : dumpable (j_str text : J) → dumpable (encode (ErrorResponse id code text)).
Proof.
  intros Ht. pose proof id_dumpable. cbn [encode].
  assert (dumpable (j_obj [("code", j_num code); ("message", j_str text)] : J)) by dumps. dumps.
Qed.

Lemma attempts_respond s result : coherent h s → pending_ok h s → attempts h s (respond msg result) id.
Proof.
  intros Hc Hp. eapply attempts_read; [unfold liftO; by rewrite Hid|]. by apply attempts_send.
Qed.

Lemma serves_respond s result : dumpable result → coherent h s → pending_ok h s →
  serves h s (respond msg result) [id] false.
Proof.
  intros Hr Hc Hp. eapply steps_read; [unfold liftO; by rewrite Hid|].
  apply serves_send; [done|by apply dump_response|done..].
Qed.

(** A request answers with the fallback when its body throws. *)
Lemma serves_attempt s (m m' : Srv unit) : attempts h s m id →
  (∀ s', coherent h s' → pending_ok h s' → serves h s' m' [id] false) →
  serves h s (tryCatch m m') [id] false.
Proof.
  intros Hm Hm'. eapply steps_try; [exact Hm|..].
  - intros [] s' (? & ? & ? & ?). split_and!; [done..|]. by rewrite orb_false_r.
  - intros s' (Hc & Hp & Hr & Hs). eapply steps_weaken; [by apply Hm'|].
    intros o s'' (? & ? & ? & Hr' & Hs'). rewrite app_nil_r in Hr. by rewrite Hr', Hs', Hr, Hs.
Qed.

Lemma serves_positionRequest s nothing provide : dumpable nothing → defined (positionParams msg) = true →
  coherent h s → pending_ok h s →
  (∀ s' uri source line col, coherent h s' → ed_docs h !! uri = Some source →
    works h s' (provide uri source line col) (λ _ _, True)) →
  serves h s (positionRequest msg nothing provide) [id] false.
Proof.
  intros Hn Hd Hc Hp Hprov. apply serves_attempt; [|by intros; apply serves_respond].
  apply attempts_lift; [done..|]. intros [[uri line] col] _.
  eapply attempts_read; [reflexivity|]. cbv beta.
  case_bool_decide as Hs; [by apply attempts_respond|].
  eapply attempts_bind; [done|apply Hprov; [done|]|intros; by apply attempts_respond].
  rewrite <-(co_docs _ _ Hc). by destruct (documents_ s !! uri).
Qed.
End request.

(** A provider that reads the parse result and the index. *)
Lemma works_provider {A} h s uri source (provide : Parse → option Parse → M W A) (json : A → J) :
  (∀ p i, ends (provide p i)) → coherent h s → ed_docs h !! uri = Some source →
  works h s (a ← getOrParse X uri source; i ← getDocumentIndex X uri source;
    p ← derefParse a; ip ← derefIndex i; r ← liftW (provide p ip); mret (json r)) (λ _ _, True).
Proof.
  intros He Hc Hd. eapply works_bind; [apply works_getOrParse; [done|by right]|]. intros a s1 Hc1 _ Ha.
  cbv beta in Ha.
  eapply works_bind; [exact (works_index _ _ _ _ _ Hc1 Hd Ha)|]. intros i s2 Hc2 _ [Ha2 Hi].
  eapply steps_deref; [done|exact Ha2|].
  assert (Hrest : ∀ ip, works h s2 (r ← liftW (provide (parseString X source) ip); mret (json r)) (λ _ _, True)).
  { intros ip. apply works_seq; [eapply works_true, works_world; done|]. intros. by apply works_ret. }
  destruct Hi as [->| ->].
  - apply (works_read _ _ _ _ None); [done|apply Hrest].
  - eapply (works_read _ _ _ _ (Some (parseString X source))); [|apply Hrest].
    unfold derefIndex, derefParse, mbind, M_bind. by destruct (co_live _ _ Hc2 _ _ _ Ha2) as [-> _].
Qed.

Lemma attempts_then h s (m : Srv unit) (f : Server → Server) id : (∀ s', aside s' (f s')) →
  attempts h s m id → attempts h s (m;; modifyS f) id.
Proof.
  intros Hf Hm. eapply steps_bind; [exact Hm|done|]. intros [] s' (Hc' & Hp' & Hr & Hs).
  eapply steps_ok; [reflexivity|]. pose proof (Hf s') as Ha.
  split_and!; [by eapply aside_coherent|by eapply pending_keeps, Hp'; apply (as_keeps _ _ Ha)|..];
    destruct (as_keeps _ _ Ha) as [H1 H2 _]; by rewrite ?H1, ?H2.
Qed.

Section handlers.
Context (h : Editor) (msg id : J) (s : Server).
Hypothesis (Hmsg : dumpable msg) (Hid : member msg "id" = Ret id).
Hypothesis (Hc : coherent h s) (Hp : pending_ok h s).

Lemma dump_no_items : dumpable (j_arr [] : J).
Proof. by apply dump_arr. Qed.

Lemma serves_hover : defined (positionParams msg) = true → serves h s (handleHover X msg) [id] false.
Proof.
  intros Hd. apply serves_positionRequest; [done|done|apply dump_null|done..|].
  intros s' uri source line col Hc' Hs. apply works_provider; [apply HX|done..].
Qed.

Lemma serves_definition : defined (positionParams msg) = true →
  serves h s (handleDefinition X msg) [id] false.
Proof.
  intros Hd. apply serves_positionRequest; [done|done|apply dump_null|done..|].
  intros s' uri source line col Hc' Hs. apply works_provider; [apply HX|done..].
Qed.

Lemma serves_completion : defined (positionParams msg) = true →
  serves h s (handleCompletion X msg) [id] false.
Proof.
  intros Hd. apply serves_positionRequest; [done|done|apply dump_no_items|done..|].
  intros s' uri source line col Hc' Hs. apply works_provider; [apply HX|done..].
Qed.

Lemma serves_signatureHelp : defined (positionParams msg) = true →
  serves h s (handleSignatureHelp X msg) [id] false.
Proof.
  intros Hd. apply serves_positionRequest; [done|done|apply dump_null|done..|].
  intros s' uri source line col Hc' Hs.
  eapply works_bind; [apply works_getOrParse; [done|by right]|]. intros a s1 Hc1 _ Ha.
  eapply steps_deref; [done|exact Ha|].
  apply works_seq; [outside|]. intros. by apply works_ret.
Qed.

Lemma serves_semanticTokens : defined (closeParams msg) = true →
  serves h s (handleSemanticTokensFull X msg) [id] false.
Proof.
  intros Hd. apply serves_attempt; [|].
  2: { intros s' Hc' Hp'. apply serves_respond; [done..| |done|done]. apply dump_obj.
       repeat constructor. apply dump_no_items. }
  apply attempts_lift; [done..|]. intros uri _. eapply attempts_read; [reflexivity|]. cbv beta.
  case_bool_decide as Hs; [by apply attempts_respond|].
  eapply attempts_read; [reflexivity|]. cbv beta zeta.
  set (source := default "" (documents_ s !! uri)) in *.
  assert (Hdoc : ed_docs h !! uri = Some source).
  { subst source. rewrite <-(co_docs _ _ Hc). by destruct (documents_ s !! uri). }
  assert (Hrun : attempts h s (a ← getOrParse X uri source; p ← derefParse a;
    data ← liftW (tokenize X source p);
    modifyS (λ s, s <| cachedTokens_ := <[uri := (source, data)]> (cachedTokens_ s) |>);;
    respond msg (tokensJson data)) id).
  { eapply attempts_bind; [done|apply works_getOrParse; [done|by right]|]. intros a s1 Hc1 Hp1 Ha.
    eapply attempts_read.
    { unfold derefParse. by destruct (co_live _ _ Hc1 _ _ _ Ha) as [-> _]. }
    eapply attempts_bind; [done|apply works_world; [apply HX|done]|]. intros data s2 Hc2 Hp2 _.
    eapply attempts_bind; [done|apply works_modify; [done|by repeat split; auto]|].
    intros _ s3 Hc3 Hp3 _. by apply attempts_respond. }
  destruct (cachedTokens_ s !! uri) as [[src data]|]; [|exact Hrun].
  case_bool_decide; [by apply attempts_respond|exact Hrun].
Qed.

Lemma serves_initialize : defined (clientRoot msg) = true → serves h s (handleInitialize msg) [id] false.
Proof.
  intros Hd. apply serves_attempt.
  - apply attempts_lift; [done..|]. intros root _.
    eapply attempts_bind; [done| |].
    { destruct root; [apply works_modify; [done|by repeat split; auto]|by apply works_ret]. }
    intros _ s' Hc' Hp' _. apply attempts_then; [by repeat split; auto|by apply attempts_respond].
  - intros s' Hc' Hp'. eapply steps_read; [unfold liftO; by rewrite Hid|].
    apply serves_send; [done| |done..]. apply (dump_error msg); [done..|]. by apply dump_ascii.
Qed.

Lemma serves_shutdown : serves h s (handleShutdown msg) [id] true.
Proof.
  apply serves_try. eapply steps_bind; 
    [by apply (serves_respond h msg id); [..|apply dump_null| |]|by intros s' [[=] _]|].
  intros a s' (_ & Hc' & Hp' & Hr & Hs). eapply steps_ok; [reflexivity|].
  split_and!; [done|by destruct Hc'; split|done|done|]. by rewrite orb_true_r.
Qed.

Lemma serves_initialized : serves h s (handleInitialized X msg) [] false.
Proof.
  apply serves_succeeds; [|done]. apply works_caught. apply works_get. apply works_seq.
  - apply works_if; [|by apply works_ret]. apply works_seq; [outside|]. intros cwd s' Hc' _. outside.
  - intros root s' Hc' _. outside.
Qed.
End handlers.

(** ** The loop *)

Lemma serves_after h' s s' m l stop : keeps s s' → serves h' s' m l stop →
  steps s' m (λ o s'', o = Some tt ∧ coherent h' s'' ∧ pending_ok h' s'' ∧
    replies (sent_ s'') = replies (sent_ s) ++ l ∧ shutdown_ s'' = shutdown_ s || stop).
Proof.
  intros [H1 H2 _] Hm. eapply steps_weaken; [exact Hm|]. intros o s''. by rewrite H1, H2.
Qed.

(** The conditions of a message with a known method. *)
Ltac known := repeat match goal with
  | H : context [bool_decide ?P] |- _ =>
      let b := eval vm_compute in (bool_decide P) in
      lazymatch b with true => idtac | false => idtac end;
      change (bool_decide P) with b in H; cbv iota beta in H
  | |- context [bool_decide ?P] =>
      let b := eval vm_compute in (bool_decide P) in
      lazymatch b with true => idtac | false => idtac end;
      change (bool_decide P) with b; cbv iota beta
  end.

Ltac is_method name := match goal with method : string |- _ =>
  destruct (decide (method = name)) as [->|]; [known|rewrite (bool_decide_false (method = name)) by done] end.
Ltac request W := injection W as <-; match goal with
  W1 : contains _ "id" = true |- _ =>
    let id := fresh "id" in let Eid := fresh "Eid" in
    destruct (member_contains _ _ W1) as [id Eid]; rewrite Eid, W1; cbn [orb] end.
Ltac not_listed := let Hin := fresh "Hin" in
  intros Hin; repeat (apply elem_of_cons in Hin as [?|Hin]; [done|]); by apply elem_of_nil in Hin.

Lemma serves_dispatch h h' s msg : dumpable msg → well_formed msg = true → edit msg h = Some h' →
  coherent h s → pending_ok h s → serves h' s (dispatch X msg) (asks msg) (stops msg).
Proof.
  intros Hm Hwf He Hc0 Hp0. unfold dispatch, serves.
  apply (succeeds_then h); [by apply works_flushPending|]. intros s1 Hc Hk.
  pose proof (pending_keeps _ _ _ Hk Hp0) as Hp. apply (serves_after h' s s1 _ _ _ Hk). clear Hk Hc0 Hp0.
  unfold asks, stops, edit, well_formed in *.
  destruct (contains msg "method") eqn:Hmeth; cbn [negb andb] in *.
  2: { injection He as <-. apply serves_succeeds; [|done]. by eapply steps_ok. }
  destruct (member_contains _ _ Hmeth) as [m Em]. unfold methodOf in *. rewrite Em in *.
  destruct (get_string m) as [method| | |] eqn:Es; try done.
  rewrite !andb_true_iff in Hwf. destruct Hwf as (((((((_ & W1) & W2) & W3) & W4) & W5) & W6) & W7).
  eapply steps_read; [reflexivity|]. cbv beta. eapply steps_read; [unfold liftO; by rewrite Es|]. cbv beta.
  is_method "initialize". { request He. by eapply serves_initialize. }
  is_method "initialized". { injection He as <-. by apply serves_initialized. }
  is_method "shutdown". { request He. by eapply serves_shutdown. }
  is_method "exit".
  { injection He as <-. eapply steps_ok; [reflexivity|]. split_and!; [done|by destruct Hc; split|done| |].
    - by rewrite app_nil_r.
    - by rewrite orb_true_r. }
  is_method "textDocument/didOpen". { by eapply serves_didOpen. }
  is_method "textDocument/didChange". { by eapply serves_didChange. }
  is_method "textDocument/didSave". { by eapply serves_didSave. }
  is_method "textDocument/didClose".
  { replace h' with (match closeParams msg with Ret uri => edit_close uri h | _ => h end).
    - by eapply serves_didClose.
    - destruct (closeParams msg); congruence. }
  is_method "textDocument/hover". { request He. by eapply serves_hover. }
  is_method "textDocument/definition". { request He. by eapply serves_definition. }
  is_method "textDocument/completion". { request He. by eapply serves_completion. }
  is_method "textDocument/semanticTokens/full". { request He. by eapply serves_semanticTokens. }
  is_method "textDocument/signatureHelp". { request He. by eapply serves_signatureHelp. }
  assert (Hn1 : method ∉ notificationMethods) by not_listed.
  assert (Hn2 : method ∉ requestMethods) by not_listed.
  assert (Hn3 : method ∉ ["shutdown"; "exit"]) by not_listed.
  rewrite (bool_decide_false _ Hn1), (bool_decide_false _ Hn2), (bool_decide_false _ Hn3).
  rewrite !bool_decide_false in He by done. injection He as <-.
  destruct (contains msg "id") eqn:Hid; cbn [orb].
  2: { assert (E : match member msg "id" with Ret _ => [] | _ => [] end = @nil J) by by destruct (member msg "id").
    rewrite E. apply serves_succeeds; [|done]. by eapply steps_ok. }
  destruct (member_contains _ _ Hid) as [id Eid]. rewrite Eid.
  eapply steps_read; [reflexivity|]. apply serves_send; [done| |done..].
  apply (dump_error msg); [done..|]. apply dump_text; [done|].
  exact (get_printable _ _ _ _ Hm Em Es).
Qed.

(** A server before its first message. *)
Definition newServer (w : W) : Server :=
  {| documents_ := ∅; parses_ := ∅; nextParse_ := 0; parseCache_ := ∅; docIndexCache_ := ∅;
     cachedTokens_ := ∅; cachedDiags_ := ∅; pendingUri_ := ""; pendingSource_ := ""; pendingSinceMs_ := 0;
     initialized_ := false; shutdown_ := false; rootPath_ := ""; mainFilePath_ := "";
     contextProjectRoot_ := ""; contextAnchorPath_ := ""; sent_ := []; world_ := w |}.

Lemma newServer_coherent w : coherent newEditor (newServer w).
Proof. split; try done; intros *; rewrite ?lookup_empty; done. Qed.

End proofs.

(** The ids asked for in the messages up to the first that stops the server, if these are
    well formed, hold no number too large for the library, go back to no earlier text and open
    or save no document of which another text waits to be checked; text that is no JSON is
    skipped. *)
Fixpoint session `{JsonOps J} (h : Editor) (l : list (list string * string)) : option (list J) :=
  match l with
  | [] => Some []
  | m :: l =>
      match parse m.2 with
      | ParseError => session h l
      | NumberOutOfRange => None
      | Parsed msg =>
          if negb (well_formed msg) then None else
          h' ← edit msg h;
          if stops msg then Some (asks msg) else
          ids ← session h' l; Some (asks msg ++ ids)
      end
  end.

Section loop.
Context {J W Parse : Type} `{JsonLaws J} (X : Extern W Parse) (HX : extern_ends X).

Lemma run_step fuel stdin s body rest : shutdown_ s = false →
  readMessage stdin = Ret (Some (body, rest)) →
  run X (S fuel) stdin s = match parse body with
    | ParseError => run X fuel rest s
    | NumberOutOfRange => RThrow OtherException s
    | Parsed msg => (dispatch X msg;; run X fuel rest) s
    end.
Proof. intros Hs Hr. unfold run, mbind, M_bind, getS, liftO. rewrite Hs, Hr. by destruct (parse body). Qed.

Lemma run_stopped fuel stdin s : shutdown_ s = true ∨ readMessage stdin = Ret None →
  run X (S fuel) stdin s = ROk tt s.
Proof.
  unfold run, mbind, M_bind, getS, liftO. intros [Hs|Hr]; [by rewrite Hs|].
  destruct (shutdown_ s); [done|by rewrite Hr].
Qed.

Lemma run_session l : ∀ fuel h s ids, Forall sendable l → (length l < fuel)%nat →
  coherent X h s → pending_ok h s → shutdown_ s = false → session h l = Some ids →
  ∃ s', run X fuel (framed l) s = ROk tt s' ∧ replies (sent_ s') = replies (sent_ s) ++ ids.
Proof.
  induction l as [|[hs body] l IH]; intros fuel h s ids Hl Hf Hc Hp Hsh Hs;
    (destruct fuel as [|fuel]; [simpl in Hf; lia|]).
  - injection Hs as <-. exists s. rewrite run_stopped by by right. by rewrite app_nil_r.
  - apply Forall_cons_1 in Hl as [[Hh Hb] Hl]. cbn [fst snd] in *.
    change (framed ((hs, body) :: l)) with (headers hs (sendMessage body +:+ framed l)).
    rewrite (run_step _ _ _ body (framed l)) by (done || by apply readMessage_sent).
    cbn [length] in Hf. cbn [session snd] in Hs.
    destruct (parse body) as [msg| |] eqn:Eb; [|eapply IH; eauto; lia|done].
    destruct (well_formed msg) eqn:Hwf; [|done]. cbn [negb] in Hs.
    destruct (edit msg h) as [h'|] eqn:He; [|done]. cbn [mbind option_bind] in Hs.
    pose proof (serves_dispatch X HX h h' s msg (dump_parsed _ _ Eb) Hwf He Hc Hp) as Hd.
    unfold serves, steps in Hd. unfold mbind, M_bind.
    destruct (dispatch X msg s) as [u s1|e s1| |] eqn:Ed; try done; destruct Hd as (Heq & Hd); [|done].
    destruct Hd as (Hc1 & Hp1 & Hr1 & Hs1). rewrite Hsh in Hs1. cbn [orb] in Hs1.
    destruct (stops msg) eqn:Hstop.
    + injection Hs as <-. exists s1. split; [|done]. destruct fuel; [lia|].
      apply run_stopped. by left.
    + destruct (session h' l) as [ids'|] eqn:Es; [|done]. injection Hs as <-.
      destruct (IH fuel h' s1 ids') as (s2 & Hrun & Hr2); [done|lia|done..|].
      exists s2. split; [exact Hrun|]. by rewrite Hr2, Hr1, app_assoc.
Qed.

End loop.

(** ** A server to run *)

(** JSON values; texts are ASCII. *)
Inductive json :=
| JNull
| JBool (b : bool)
| JNum (n : Z)
| JStr (s : string)
| JArr (l : list json)
| JObj (l : list (string * json)).

Fixpoint plain (j : json) : bool :=
  match j with
  | JNull | JBool _ | JNum _ => true
  | JStr s => ascii_text s
  | JArr l => forallb plain l
  | JObj l => forallb (λ kv, ascii_text kv.1 && plain kv.2) l
  end.

Fixpoint field (k : string) (l : list (string * json)) : option json :=
  match l with [] => None | (k', v) :: l => if bool_decide (k' = k) then Some v else field k l end.

Definition toyUri : string := "file:///a.lc".

Definition request (id : Z) (method : string) (params : json) : json :=
  JObj [("id", JNum id); ("method", JStr method); ("params", params)].
Definition notification (method : string) (params : json) : json :=
  JObj [("method", JStr method); ("params", params)].
Definition textDocument (more : list (string * json)) : string * json :=
  ("textDocument", JObj (("uri", JStr toyUri) :: more)).

Definition openText (text : string) : json :=
  notification "textDocument/didOpen" (JObj [textDocument [("text", JStr text)]]).
Definition changeText (text : string) : json :=
  notification "textDocument/didChange"
    (JObj [textDocument []; ("contentChanges", JArr [JObj [("text", JStr text)]])]).
Definition hoverAt (id : Z) : json :=
  request id "textDocument/hover"
    (JObj [textDocument []; ("position", JObj [("line", JNum 0); ("character", JNum 3)])]).
Definition tokensOf (id : Z) : json := request id "textDocument/semanticTokens/full" (JObj [textDocument []]).

(** The messages of the editor, by name; other text is no JSON. *)
Definition toyMessages : list (string * json) := [
  ("initialize", request 1 "initialize" (JObj []));
  ("open A", openText "A");
  ("change B", changeText "B");
  ("change A", changeText "A");
  ("hover 2", hoverAt 2);
  ("hover 3", hoverAt 3);
  ("tokens 4", tokensOf 4);
  ("unknown 5", request 5 "workspace/symbol" JNull);
  ("shutdown 6", request 6 "shutdown" JNull) ].

#[local] Instance toyJson : JsonOps json := {
  j_null := JNull; j_bool := JBool; j_num := JNum; j_str := JStr; j_arr := JArr; j_obj := JObj;
  parse text := if bool_decide (text = "1e999") then NumberOutOfRange else
    match field text toyMessages with Some j => Parsed j | None => ParseError end;
  dump j := if plain j then Some "" else None;
  contains j k := match j with JObj l => bool_decide (is_Some (field k l)) | _ => false end;
  member j k := match j with
    | JObj l => match field k l with Some v => Ret v | None => Undef end
    | _ => Throw OtherException
    end;
  element0 j := match j with JArr (v :: _) => Ret v | JArr [] => Undef | _ => Throw OtherException end;
  j_empty j := match j with JNull | JArr [] | JObj [] => true | _ => false end;
  is_null j := match j with JNull => true | _ => false end;
  get_string j := match j with JStr s => Ret s | _ => Throw OtherException end;
  get_size j := match j with JNum n => Ret n | _ => Throw OtherException end }.

Lemma field_plain k l v : forallb (λ kv, ascii_text kv.1 && plain kv.2) l = true →
  field k l = Some v → plain v = true.
Proof.
  induction l as [|[k' w] l IH]; simpl; [done|]. intros [[_ Hw]%andb_prop Hl]%andb_prop.
  case_bool_decide; [by intros [= <-]|auto].
Qed.

Lemma toy_dumpable (j : json) : dumpable j ↔ plain j = true.
Proof. unfold dump. simpl. destruct (plain j); split; [done|eauto|by intros []|done]. Qed.

#[local] Instance toyLaws : JsonLaws json.
Proof.
  split.
  - intros [] k; simpl; try done. by destruct (field k l).
  - intros [] k; simpl; try done. rewrite bool_decide_eq_true. intros [v ->]. eauto.
  - intros []; simpl; eauto.
  - intros []; simpl; eauto.
  - by intros [| | | |[]|].
  - by intros [| | | |[]|].
  - by apply toy_dumpable.
  - intros n. by apply toy_dumpable.
  - intros s Hs. by apply toy_dumpable.
  - intros a s Ha (j & Hj & Hd%toy_dumpable). destruct j; try done. simpl in Hj. injection Hj as ->.
    apply toy_dumpable. cbn [plain j_str toyJson] in *. unfold ascii_text in *. clear -Ha Hd.
    induction a as [|c a IH]; rewrite ?str_app_nil, ?str_app_cons; simpl in *; [done|].
    apply andb_prop in Ha as [-> Ha]. auto.
  - intros l Hl. apply toy_dumpable. simpl. induction Hl as [|j l Hj%toy_dumpable _ IH]; simpl; by rewrite ?Hj.
  - intros l Hl. apply toy_dumpable. simpl.
    induction Hl as [|kv l [Hk Hv%toy_dumpable] _ IH]; simpl; [done|]. by rewrite Hk, Hv.
  - intros text j Hj. apply toy_dumpable. unfold parse, toyJson in Hj.
    destruct (bool_decide (text = "1e999")); [done|].
    destruct (field text toyMessages) eqn:E; [|done]. injection Hj as <-.
    by eapply (field_plain text toyMessages).
  - intros [] v k Hd%toy_dumpable; simpl; try done. destruct (field k l) eqn:E; [|done].
    intros [= <-]. apply toy_dumpable. by eapply field_plain.
Qed.

(** A parse result is its text, the world is the clock in milliseconds; a hover shows the
    text behind the index. *)
Definition toyExtern : Extern Z string := {|
  parseString text := text;
  has_tree _ := true;
  steadyMs w := ROk w (w + 100);
  runDiagnostics _ _ _ := mret [];
  provideHover _ line col _ _ index := mret (text ← index;
    Some {| ho_contents := text; ho_line := line; ho_col := col; ho_endLine := line; ho_endCol := col + 1 |});
  provideDefinition _ _ _ _ _ _ := mret None;
  provideCompletion _ _ _ _ _ _ := mret [];
  provideSignature _ _ _ _ _ := mret None;
  tokenize _ _ w := RThrow OutOfRange w;
  currentPath := mret "/";
  findProjectRoot _ := mret "";
  findMainFile _ := mret "";
  readFile _ := mret None;
  isValid := mret false;
  buildFromText _ _ := mret true;
  buildProject _ := mret true;
  useModules _ := [];
  hasModule _ := mret false;
  tryRegister _ _ := mret true;
  stdlibSearchPaths := mret [];
  warmCaches _ := mret tt |}.

Lemma toyExtern_ends : extern_ends toyExtern.
Proof. split; try done; intros w; by eexists _, _. Qed.

(** A message with a number out of range ends the server: the exception is none that the loop
    catches. *)
Lemma run_out_of_range {J W Parse} `{JsonOps J} (X : Extern W Parse) fuel hs body l s :
  sendable (hs, body) → parse body = NumberOutOfRange → shutdown_ s = false →
  run X (S fuel) (framed ((hs, body) :: l)) s = RThrow OtherException s.
Proof.
  intros [Hh Hb] Hp Hs. change (framed ((hs, body) :: l)) with (headers hs (sendMessage body +:+ framed l)).
  unfold run, mbind, M_bind, getS, liftO. rewrite Hs, (readMessage_sent hs body) by done. by rewrite Hp.
Qed.

Definition frames (l : list string) : list (list string * string) := pair [] <$> l.


(** Going back to an earlier text breaks the promise of the index cache.  A change of a
    document destroys the parse result of the text before, but leaves the index that borrows
    it in the cache, under that text; when the document changes back to it, the next request
    takes the index from the cache and follows its pointer to the destroyed parse result.
    Without the last request the same session ends, with its request answered. *)
Lemma index_outlives_parse :
  run toyExtern 6 (framed (frames ["open A"; "hover 2"; "change B"; "change A"; "hover 3"])) (newServer 0) = RUndef ∧
  match run toyExtern 6 (framed (frames ["open A"; "hover 2"; "change B"; "change A"])) (newServer 0) with
  | ROk _ s => replies (sent_ s) = [JNum 2] ∧
      ∃ a b, docIndexCache_ s !! toyUri = Some ("A", a) ∧ parses_ s !! a = None ∧
             parseCache_ s !! toyUri = Some ("A", b) ∧ a ≠ b
  | _ => False
  end.
Proof.
  split; vm_compute; [reflexivity|]. split; [reflexivity|]. by exists 0%nat, 2%nat.
Qed.
