(* ===== verification/RtHash.v ===== *)
(** * Hash functions of the run-time library

    [builtins/hash/hash.c] and the key hashes of [builtins/collections/map.c] and [set.c]:
    FNV-1a for strings, splitmix64 for integers, and the table-driven CRC-32.  A string is
    its bytes.  [HashKey] is what a hash table asks of a key type. *)

From S2P Require Import Prelude.
From S2P Require Import CxxLib.
Local Open Scope Z_scope.

(** ** Integers and strings *)

Definition splitmix64 (x : Z) : Z :=
  let x := Z.lxor x (Z.shiftr x 30) in
  let x := to_uint64 (x * 0xbf58476d1ce4e5b9) in
  let x := Z.lxor x (Z.shiftr x 27) in
  let x := to_uint64 (x * 0x94d049bb133111eb) in
  Z.lxor x (Z.shiftr x 31).

Definition FNV_OFFSET_BASIS : Z := 14695981039346656037.
Definition FNV_PRIME : Z := 1099511628211.

Fixpoint hashLoop (hash : Z) (data : string) : Z :=
  match data with
  | "" => hash
  | String c data => hashLoop (to_uint64 (Z.lxor hash (code c) * FNV_PRIME)) data
  end.

Definition lucis_hashString (data : string) : Z := hashLoop FNV_OFFSET_BASIS data.
Definition lucis_hashInt (value : Z) : Z := splitmix64 (to_uint64 value).

Definition lucis_hashCombine (h1 h2 : Z) : Z :=
  Z.lxor h1 (to_uint64 (h2 + 0x9e3779b97f4a7c15 + Z.shiftl h1 12 + Z.shiftr h1 4)).

(** ** CRC-32 *)

Definition crc_poly : Z := 0xEDB88320.

Definition crc_bit (c : Z) : Z :=
  if bool_decide (Z.land c 1 = 1) then Z.lxor crc_poly (Z.shiftr c 1) else Z.shiftr c 1.

(** [table[i]]: eight steps from [i]. *)
Definition crc_entry (i : Z) : Z := Nat.iter 8 crc_bit i.
Definition crc_table : list Z := crc_entry <$> seqZ 0 256.

Definition crc_byte (crc : Z) (b : ascii) : outcome Z :=
  match crc_table !! Z.to_nat (Z.land (Z.lxor crc (code b)) 0xFF) with
  | Some t => Ret (Z.lxor t (Z.shiftr crc 8))
  | None => Undef
  end.

Fixpoint crc_loop (crc : Z) (buf : string) : outcome Z :=
  match buf with
  | "" => Ret crc
  | String b buf => crc ← crc_byte crc b; crc_loop crc buf
  end.

Definition lucis_crc32Bytes (data : string) : outcome Z :=
  crc ← crc_loop 0xFFFFFFFF data; Ret (Z.lxor crc 0xFFFFFFFF).

(** The definition of the checksum: the message is divided bit by bit. *)
Fixpoint crc_divide (crc : Z) (buf : string) : Z :=
  match buf with
  | "" => crc
  | String b buf => crc_divide (Nat.iter 8 crc_bit (Z.lxor crc (code b))) buf
  end.

Example crc32_check : lucis_crc32Bytes "123456789" = Ret 0xCBF43926.
Proof. vm_compute. reflexivity. Qed.
Example hashString_check : lucis_hashString "a" = 0xaf63dc4c8601ec8c.
Proof. vm_compute. reflexivity. Qed.

(** ** Keys of the hash tables *)

(** A key type with its hash and equality, and the value a key stands for: equal keys have
    one hash, of 64 bits. *)
Class HashKey (K C : Type) := {
  key_value : K → C;
  hash_fn : K → Z;
  eq_fn : K → K → bool;
  eq_fn_spec a b : eq_fn a b = true ↔ key_value a = key_value b;
  hash_fn_value a b : key_value a = key_value b → hash_fn a = hash_fn b;
  hash_fn_range k : 0 ≤ hash_fn k < 2 ^ 64 }.

Definition hash_key_i32 (k : Z) : Z := splitmix64 (to_uint32 k).
Definition hash_key_u32 (k : Z) : Z := to_uint32 k.
Definition hash_key_i64 (k : Z) : Z := to_uint64 k.
Definition hash_key_u64 (k : Z) : Z := splitmix64 (to_uint64 k).
Definition hash_key_u128 (k : Z) : Z :=
  let low := to_uint64 k in
  let high := to_uint64 (Z.shiftr (k mod 2 ^ 128) 64) in
  splitmix64 (Z.lxor low (splitmix64 high)).
Definition hash_key_u1 (k : Z) : Z := splitmix64 (k mod 2 ^ 8).
Definition hash_2 (k : Z) : Z := splitmix64 (k mod 2 ^ 16).

(** Four words of 64 bits. *)
Definition hash_key_iinf (k : Z * Z * Z * Z) : Z :=
  let '(k0, k1, k2, k3) := k in
  Z.lxor (Z.lxor (Z.lxor (splitmix64 (to_uint64 k0)) (splitmix64 (to_uint64 k1)))
    (splitmix64 (to_uint64 k2))) (splitmix64 (to_uint64 k3)).

(** A string in memory: its address, and the text there. *)
Record lucis_map_string := { ms_ptr : Z; ms_text : string }.

Definition hash_key_str (s : lucis_map_string) : Z := lucis_hashString (ms_text s).
Definition eq_key_str (a b : lucis_map_string) : bool := bool_decide (ms_text a = ms_text b).

Lemma uint32_is_word x : 0 ≤ to_uint32 x < 2 ^ 64.
Proof. unfold to_uint32. pose proof (Z.mod_pos_bound x (2 ^ 32)). lia. Qed.

Lemma lxor_eq_0 x y : Z.lxor x y = 0 → x = y.
Proof. intros H. by apply Z.lxor_eq. Qed.

(** [x ^ (x >> k)] determines [x]. *)
Lemma xorshift_inj k x y : 0 < k → 0 ≤ x → 0 ≤ y →
  Z.lxor x (Z.shiftr x k) = Z.lxor y (Z.shiftr y k) → x = y.
Proof.
  intros Hk Hx Hy Heq. apply lxor_eq_0. set (d := Z.lxor x y).
  assert (Hd : 0 ≤ d) by (subst d; apply Z.lxor_nonneg; lia).
  assert (Hfix : d = Z.shiftr d k).
  { subst d. rewrite Z.shiftr_lxor. apply Z.bits_inj. intros i.
    apply (f_equal (λ z, Z.testbit z i)) in Heq. rewrite !Z.lxor_spec in *.
    destruct (Z.testbit x i), (Z.testbit y i), (Z.testbit (Z.shiftr x k) i),
      (Z.testbit (Z.shiftr y k) i); done. }
  rewrite Z.shiftr_div_pow2 in Hfix by lia.
  assert (2 ≤ 2 ^ k) by (rewrite <-(Z.pow_1_r 2) at 1; apply Z.pow_le_mono_r; lia).
  assert (Hlt : 0 < d → d / 2 ^ k < d) by (intros; apply Z.div_lt; lia). lia.
Qed.

(** Multiplying by a number with an inverse. *)
Lemma mul64_inj a b x y : to_uint64 (a * b) = 1 → 0 ≤ x < 2 ^ 64 → 0 ≤ y < 2 ^ 64 →
  to_uint64 (x * a) = to_uint64 (y * a) → x = y.
Proof.
  unfold to_uint64. intros Hab Hx Hy Heq. apply (f_equal (λ z, (z * b) mod 2 ^ 64)) in Heq.
  rewrite !Z.mul_mod_idemp_l, <-!Z.mul_assoc, <-(Z.mul_mod_idemp_r x), <-(Z.mul_mod_idemp_r y), Hab,
    !Z.mul_1_r, !Z.mod_small in Heq by lia.
  done.
Qed.

Lemma splitmix64_range x : 0 ≤ x < 2 ^ 64 → 0 ≤ splitmix64 x < 2 ^ 64.
Proof.
  intros Hx. unfold splitmix64. apply word_lxor; [lia|apply to_uint64_range|].
  apply word_shr; [lia|apply to_uint64_range].
Qed.

Lemma splitmix64_inj x y : 0 ≤ x < 2 ^ 64 → 0 ≤ y < 2 ^ 64 → splitmix64 x = splitmix64 y → x = y.
Proof.
  assert (Hr : ∀ k z, 0 ≤ k → 0 ≤ z < 2 ^ 64 → 0 ≤ Z.lxor z (Z.shiftr z k) < 2 ^ 64).
  { intros k z Hk Hz. apply word_lxor; [lia|done|by apply word_shr]. }
  intros Hx Hy Heq. unfold splitmix64 in Heq.
  apply xorshift_inj in Heq; [|lia|apply to_uint64_range..].
  apply (mul64_inj _ 0x319642b2d24d8ec3) in Heq; [|reflexivity|apply Hr; [lia|apply to_uint64_range]..].
  apply xorshift_inj in Heq; [|lia|apply to_uint64_range..].
  apply (mul64_inj _ 0x96de1b173f119089) in Heq; [|reflexivity|apply Hr; [lia|done]..].
  apply xorshift_inj in Heq; [done|lia..].
Qed.

Lemma hashLoop_range data : ∀ h, 0 ≤ h < 2 ^ 64 → 0 ≤ hashLoop h data < 2 ^ 64.
Proof. induction data as [|c data IH]; intros h Hh; [done|]. apply IH, to_uint64_range. Qed.

(** Hashing an integer is a bijection of the 64-bit words: different numbers of 64 bits
    have different hashes. *)
Lemma lucis_hashInt_injective x y :
  in_int64 x = true → in_int64 y = true → x ≠ y → lucis_hashInt x ≠ lucis_hashInt y.
Proof.
  rewrite !in_int64_spec. unfold lucis_hashInt, int64_min, int64_max. intros Hx Hy Hne Heq. apply Hne.
  apply splitmix64_inj in Heq; [|apply to_uint64_range..].
  rewrite <-(to_int64_id x), <-(to_int64_id y) by by apply in_int64_spec.
  unfold to_int64, to_uint64 in *. f_equal.
  by rewrite Z.add_mod, Heq, <-Z.add_mod by lia.
Qed.

Lemma lucis_hashInt_injective_witness : lucis_hashInt (-1) ≠ lucis_hashInt (2 ^ 63 - 1).
Proof. apply lucis_hashInt_injective; [reflexivity..|lia]. Defined.

(** ** The checksum *)

Lemma crc_bit_alt c : 0 ≤ c → crc_bit c = Z.lxor (if Z.odd c then crc_poly else 0) (Z.shiftr c 1).
Proof.
  intros Hc. unfold crc_bit.
  change (Z.land c 1) with (Z.land c (Z.ones 1)). rewrite Z.land_ones, Z.pow_1_r, Zmod_odd by lia.
  destruct (Z.odd c); [done|]. by rewrite Z.lxor_0_l.
Qed.

Lemma crc_bit_nonneg c : 0 ≤ c → 0 ≤ crc_bit c.
Proof.
  intros Hc. rewrite crc_bit_alt by done. apply Z.lxor_nonneg.
  assert (0 ≤ Z.shiftr c 1) by by apply Z.shiftr_nonneg. destruct (Z.odd c); unfold crc_poly; lia.
Qed.

Lemma crc_bits_nonneg n c : 0 ≤ c → 0 ≤ Nat.iter n crc_bit c.
Proof. intros Hc. induction n; simpl; [done|by apply crc_bit_nonneg]. Qed.

Lemma crc_bit_lxor a b : 0 ≤ a → 0 ≤ b → crc_bit (Z.lxor a b) = Z.lxor (crc_bit a) (crc_bit b).
Proof.
  intros Ha Hb. rewrite !crc_bit_alt by (rewrite ?Z.lxor_nonneg; lia).
  rewrite Z.shiftr_lxor. assert (Z.odd (Z.lxor a b) = xorb (Z.odd a) (Z.odd b)) as ->.
  { by rewrite <-!Z.bit0_odd, Z.lxor_spec. }
  apply Z.bits_inj. intros i. rewrite !Z.lxor_spec.
  destruct (Z.odd a), (Z.odd b); simpl; rewrite ?Z.bits_0;
    destruct (Z.testbit crc_poly i), (Z.testbit (Z.shiftr a 1) i), (Z.testbit (Z.shiftr b 1) i); done.
Qed.

Lemma crc_bits_lxor n a b : 0 ≤ a → 0 ≤ b →
  Nat.iter n crc_bit (Z.lxor a b) = Z.lxor (Nat.iter n crc_bit a) (Nat.iter n crc_bit b).
Proof.
  intros Ha Hb. induction n as [|n IH]; simpl; [done|]. rewrite IH.
  by apply crc_bit_lxor; apply crc_bits_nonneg.
Qed.

(** Bits that are not in the last [n] are shifted down. *)
Lemma crc_bits_shift n x : 0 ≤ x → Nat.iter n crc_bit (Z.shiftl x (Z.of_nat n)) = x.
Proof.
  intros Hx. induction n as [|n IH]; [by rewrite Z.shiftl_0_r|].
  rewrite Nat.iter_succ_r. rewrite Nat2Z.inj_succ, <-Z.add_1_r, <-Z.shiftl_shiftl by lia.
  rewrite crc_bit_alt by (apply Z.shiftl_nonneg, Z.shiftl_nonneg; done).
  assert (Z.odd (Z.shiftl (Z.shiftl x (Z.of_nat n)) 1) = false) as ->.
  { rewrite <-Z.bit0_odd, Z.shiftl_spec_low by lia. done. }
  rewrite Z.lxor_0_l, Z.shiftr_shiftl_l, Z.shiftl_0_r by lia. exact IH.
Qed.

Lemma crc_split c : c = Z.lxor (Z.land c 0xFF) (Z.shiftl (Z.shiftr c 8) 8).
Proof.
  apply Z.bits_inj. intros i. rewrite Z.lxor_spec, Z.land_spec. change 0xFF with (Z.ones 8).
  destruct (decide (i < 0)) as [Hi|Hi]; [by rewrite !Z.testbit_neg_r|].
  destruct (decide (i < 8)).
  - rewrite Z.ones_spec_low, Z.shiftl_spec_low by lia. by destruct (Z.testbit c i).
  - rewrite Z.ones_spec_high, Z.shiftl_spec, Z.shiftr_spec by lia.
    rewrite andb_false_r. simpl. f_equal. lia.
Qed.

Lemma code_range b : 0 ≤ code b < 2 ^ 8.
Proof. unfold code. pose proof (Stdlib.Strings.Ascii.N_ascii_bounded b). lia. Qed.

Lemma crc_byte_spec crc b : 0 ≤ crc →
  crc_byte crc b = Ret (Nat.iter 8 crc_bit (Z.lxor crc (code b))).
Proof.
  intros Hcrc. pose proof (code_range b) as Hb.
  assert (Hc : 0 ≤ Z.lxor crc (code b)) by (apply Z.lxor_nonneg; lia).
  unfold crc_byte. set (c := Z.lxor crc (code b)) in *.
  assert (Hi : 0 ≤ Z.land c 0xFF < 256).
  { change 0xFF with (Z.ones 8). rewrite Z.land_ones by lia. by apply Z.mod_pos_bound. }
  assert (crc_table !! Z.to_nat (Z.land c 0xFF) = Some (crc_entry (Z.land c 0xFF))) as ->.
  { unfold crc_table. rewrite list_lookup_fmap, lookup_seqZ_lt by lia. simpl. f_equal. f_equal. lia. }
  rewrite (crc_split c) at 2. rewrite crc_bits_lxor.
  - rewrite (crc_bits_shift 8) by by apply Z.shiftr_nonneg. unfold crc_entry.
    f_equal. f_equal. subst c. rewrite Z.shiftr_lxor.
    apply word_shiftr in Hb; [|lia]. by rewrite Hb, Z.lxor_0_r.
  - lia.
  - by apply Z.shiftl_nonneg, Z.shiftr_nonneg.
Qed.

(** The table-driven checksum is the bitwise division that defines CRC-32: no access
    leaves the table, and the result is that of dividing the message bit by bit. *)
Lemma lucis_crc32Bytes_spec data :
  lucis_crc32Bytes data = Ret (Z.lxor (crc_divide 0xFFFFFFFF data) 0xFFFFFFFF).
Proof.
  unfold lucis_crc32Bytes. assert (Hl : ∀ crc, 0 ≤ crc → crc_loop crc data = Ret (crc_divide crc data)).
  { induction data as [|b data IH]; intros crc Hcrc; [done|]. cbn [crc_loop crc_divide].
    rewrite crc_byte_spec by done. apply IH, crc_bits_nonneg, Z.lxor_nonneg.
    pose proof (code_range b). lia. }
  by rewrite Hl.
Qed.

(** ** Instances *)

(** Keys that are numbers: the instances differ in the hash. *)
Definition int_key (hash : Z → Z) (Hhash : ∀ k, 0 ≤ hash k < 2 ^ 64) : HashKey Z Z.
Proof.
  refine {| key_value k := k; hash_fn := hash; eq_fn := Z.eqb |}.
  - intros a b. apply Z.eqb_eq.
  - by intros a b ->.
  - exact Hhash.
Defined.

Definition key_i32 : HashKey Z Z :=
  int_key hash_key_i32 (λ k, splitmix64_range _ (uint32_is_word k)).
Definition key_u32 : HashKey Z Z := int_key hash_key_u32 uint32_is_word.
Definition key_i64 : HashKey Z Z := int_key hash_key_i64 to_uint64_range.
Definition key_u64 : HashKey Z Z :=
  int_key hash_key_u64 (λ k, splitmix64_range _ (to_uint64_range k)).

Lemma hash_key_u128_range k : 0 ≤ hash_key_u128 k < 2 ^ 64.
Proof.
  apply splitmix64_range, word_lxor; [lia|apply to_uint64_range|].
  apply splitmix64_range, to_uint64_range.
Qed.

Lemma hash_small_range n k : 0 ≤ n ≤ 64 → 0 ≤ splitmix64 (k mod 2 ^ n) < 2 ^ 64.
Proof.
  intros Hn. apply splitmix64_range. pose proof (Z.mod_pos_bound k (2 ^ n)).
  pose proof (Z.pow_le_mono_r 2 n 64). lia.
Qed.

Definition key_u128 : HashKey Z Z := int_key hash_key_u128 hash_key_u128_range.
Definition key_u1 : HashKey Z Z := int_key hash_key_u1 (λ k, hash_small_range 8 k ltac:(lia)).
Definition key_2 : HashKey Z Z := int_key hash_2 (λ k, hash_small_range 16 k ltac:(lia)).

Definition key_iinf : HashKey (Z * Z * Z * Z) (Z * Z * Z * Z).
Proof.
  refine {| key_value k := k; hash_fn := hash_key_iinf; eq_fn a b := bool_decide (a = b) |}.
  - intros a b. apply bool_decide_eq_true.
  - by intros a b ->.
  - intros [[[k0 k1] k2] k3]. unfold hash_key_iinf.
    apply word_lxor; [lia|apply word_lxor; [lia|apply word_lxor; [lia|..]|]|];
      apply splitmix64_range, to_uint64_range.
Defined.

Definition key_str : HashKey lucis_map_string string.
Proof.
  refine {| key_value := ms_text; hash_fn := hash_key_str; eq_fn := eq_key_str |}.
  - intros a b. apply bool_decide_eq_true.
  - unfold hash_key_str. by intros a b ->.
  - intros k. by apply hashLoop_range.
Defined.
