(* ===== verification/RtTable.v ===== *)
(** * Open addressing

    The probing that [builtins/collections/map.c] and [set.c] share: the arrays of states,
    keys and hashes, the search for a slot, and the two changes of a slot, occupying it and
    making it a tombstone.  An access outside an array is undefined.  The invariant is that
    probing for a stored key reaches it before an empty slot. *)

From S2P Require Import Prelude.
From S2P Require Import CxxLib.
From S2P Require Import RtHash.
Local Open Scope Z_scope.

Definition SIZE_MAX : Z := 2 ^ 64 - 1.
Definition STATE_EMPTY : Z := 0.
Definition STATE_OCCUPIED : Z := 1.
Definition STATE_TOMBSTONE : Z := 2.

(** The arrays of a header, and their size. *)
Record HashTable (K : Type) := {
  states : list Z;
  keys : list K;
  hashes : list Z;
  cap : Z }.
Arguments states {_}. Arguments keys {_}. Arguments hashes {_}. Arguments cap {_}.

#[export] Instance settable_HashTable K : Settable (HashTable K) := λ t,
  Build_HashTable K (states t) (keys t) (hashes t) (cap t).

Section table.
Context {K C : Type} `{HashKey K C}.
Notation HashTable := (HashTable K).

(** What [calloc] gives; [zero] is the key of zero bytes. *)
Definition newTable (zero : K) (cap : Z) : HashTable :=
  {| states := replicate (Z.to_nat cap) STATE_EMPTY; keys := replicate (Z.to_nat cap) zero;
     hashes := replicate (Z.to_nat cap) 0; cap := cap |}.

(** The loop of [map_core_find] and [set_core_find], with [fuel] slots left to visit. *)
Fixpoint findLoop (t : HashTable) (key : K) (hash : Z) (fuel : nat) (i first_tombstone : Z) : outcome (Z * bool) :=
  match fuel with
  | O => Ret (if first_tombstone =? SIZE_MAX then 0 else first_tombstone, false)
  | S fuel =>
      let mask := to_uint64 (cap t - 1) in
      let idx := Z.land hash mask in
      let slot := Z.land (to_uint64 (idx + i)) mask in
      state ← arr_get (states t) slot;
      if state =? STATE_EMPTY then
        Ret (if first_tombstone =? SIZE_MAX then slot else first_tombstone, false)
      else if state =? STATE_TOMBSTONE then
        findLoop t key hash fuel (i + 1) (if first_tombstone =? SIZE_MAX then slot else first_tombstone)
      else
        h ← arr_get (hashes t) slot;
        if h =? hash then
          k ← arr_get (keys t) slot;
          if eq_fn k key then Ret (slot, true) else findLoop t key hash fuel (i + 1) first_tombstone
        else findLoop t key hash fuel (i + 1) first_tombstone
  end.

(** The slot of the key, or the best place for it. *)
Definition core_find (t : HashTable) (key : K) (hash : Z) : outcome (Z * bool) :=
  findLoop t key hash (Z.to_nat (cap t)) 0 SIZE_MAX.

(** [states[slot] = OCCUPIED; hashes[slot] = h; memcpy(key_at(slot), key)] *)
Definition occupy (t : HashTable) (slot : Z) (h : Z) (key : K) : outcome HashTable :=
  st ← arr_set (states t) slot STATE_OCCUPIED;
  hs ← arr_set (hashes t) slot h;
  ks ← arr_set (keys t) slot key;
  Ret (t <| states := st |> <| hashes := hs |> <| keys := ks |>).

Definition bury (t : HashTable) (slot : Z) : outcome HashTable :=
  st ← arr_set (states t) slot STATE_TOMBSTONE; Ret (t <| states := st |>).

(** ** The invariant *)

Definition occupied (t : HashTable) (s : nat) (k : K) : Prop :=
  states t !! s = Some STATE_OCCUPIED ∧ keys t !! s = Some k.

(** The [i]-th slot visited for a hash. *)
Definition slotAt (t : HashTable) (h : Z) (i : nat) : nat := Z.to_nat ((h + Z.of_nat i) mod cap t).

(** The first slots visited for [h], up to [s], are not empty. *)
Definition reaches (t : HashTable) (h : Z) (s : nat) : Prop :=
  ∃ i, (i < Z.to_nat (cap t))%nat ∧ slotAt t h i = s ∧
       ∀ j, (j < i)%nat → states t !! slotAt t h j ≠ Some STATE_EMPTY.

Definition size_ok (c : Z) : Prop := ∃ e, 4 ≤ e ≤ 62 ∧ c = 2 ^ e.

Record table_ok (t : HashTable) : Prop := {
  ok_cap : size_ok (cap t);
  ok_len_states : length (states t) = Z.to_nat (cap t);
  ok_len_keys : length (keys t) = Z.to_nat (cap t);
  ok_len_hashes : length (hashes t) = Z.to_nat (cap t);
  ok_states s st : states t !! s = Some st →
    st = STATE_EMPTY ∨ st = STATE_OCCUPIED ∨ st = STATE_TOMBSTONE;
  ok_hash s k : occupied t s k → hashes t !! s = Some (hash_fn k);
  ok_reach s k : occupied t s k → reaches t (hash_fn k) s;
  ok_unique s s' k k' : occupied t s k → occupied t s' k' → key_value k = key_value k' → s = s' }.

(** How many slots are occupied. *)
Definition count (t : HashTable) : nat := length (filter (λ st, st = STATE_OCCUPIED) (states t)).

(** ** Probing *)

Lemma size_pos c : size_ok c → 16 ≤ c < 2 ^ 63.
Proof.
  intros (e & He & ->). pose proof (Z.pow_le_mono_r 2 4 e). pose proof (Z.pow_le_mono_r 2 e 62). lia.
Qed.

(** The slot the code computes is the probed one. *)
Lemma slot_probe t hash i : size_ok (cap t) → 0 ≤ hash < 2 ^ 64 → (i < Z.to_nat (cap t))%nat →
  Z.land (to_uint64 (Z.land hash (to_uint64 (cap t - 1)) + Z.of_nat i)) (to_uint64 (cap t - 1)) =
  Z.of_nat (slotAt t hash i).
Proof.
  intros Hc Hh Hi. pose proof (size_pos _ Hc) as Hp. destruct Hc as (e & He & Hcap).
  unfold slotAt. unfold to_uint64. rewrite (Z.mod_small (cap t - 1)) by lia.
  assert (Hm : ∀ x, Z.land x (cap t - 1) = x mod cap t).
  { intros x. rewrite Hcap, <-(Z.land_ones x e), Z.ones_equiv by lia. done. }
  rewrite !Hm. pose proof (Z.mod_pos_bound hash (cap t)). rewrite (Z.mod_small _ (2 ^ 64)) by lia.
  rewrite Z.add_mod_idemp_l by lia.
  pose proof (Z.mod_pos_bound (hash + Z.of_nat i) (cap t)). lia.
Qed.

Lemma slotAt_lt t h i : size_ok (cap t) → (slotAt t h i < Z.to_nat (cap t))%nat.
Proof.
  intros Hc. pose proof (size_pos _ Hc). unfold slotAt.
  pose proof (Z.mod_pos_bound (h + Z.of_nat i) (cap t)). lia.
Qed.

(** Every slot is probed. *)
Lemma slotAt_all t h s : size_ok (cap t) → (s < Z.to_nat (cap t))%nat →
  ∃ i, (i < Z.to_nat (cap t))%nat ∧ slotAt t h i = s.
Proof.
  intros Hc Hs. pose proof (size_pos _ Hc). exists (Z.to_nat ((Z.of_nat s - h) mod cap t)).
  pose proof (Z.mod_pos_bound (Z.of_nat s - h) (cap t)). split; [lia|].
  unfold slotAt. rewrite Z2Nat.id, Z.add_mod_idemp_r by lia.
  replace (h + (Z.of_nat s - h)) with (Z.of_nat s) by lia. rewrite Z.mod_small; lia.
Qed.

Lemma ok_lookup t s : table_ok t → (s < Z.to_nat (cap t))%nat →
  ∃ st k h, states t !! s = Some st ∧ keys t !! s = Some k ∧ hashes t !! s = Some h.
Proof.
  intros Hok Hs. destruct (lookup_lt_is_Some_2 (states t) s) as [st Est]; [by rewrite ok_len_states|].
  destruct (lookup_lt_is_Some_2 (keys t) s) as [k Ek]; [by rewrite ok_len_keys|].
  destruct (lookup_lt_is_Some_2 (hashes t) s) as [h Eh]; [by rewrite ok_len_hashes|].
  by exists st, k, h.
Qed.

(** A slot where a new key goes. *)
Definition free_for (t : HashTable) (key : K) (s : nat) : Prop :=
  (s < Z.to_nat (cap t))%nat ∧ states t !! s ≠ Some STATE_OCCUPIED ∧ reaches t (hash_fn key) s ∧
  ∀ s' k, occupied t s' k → key_value k ≠ key_value key.

Definition find_result (t : HashTable) (key : K) (s : nat) (found : bool) : Prop :=
  if found then (s < Z.to_nat (cap t))%nat ∧ ∃ k, occupied t s k ∧ key_value k = key_value key
  else free_for t key s.

(** What the search knows after [i] slots. *)
Record searched (t : HashTable) (key : K) (i : nat) (first_tombstone : Z) : Prop := {
  se_full j : (j < i)%nat → states t !! slotAt t (hash_fn key) j ≠ Some STATE_EMPTY;
  se_other j k : (j < i)%nat → occupied t (slotAt t (hash_fn key) j) k → key_value k ≠ key_value key;
  se_first : (first_tombstone = SIZE_MAX ∧
      ∀ j, (j < i)%nat → states t !! slotAt t (hash_fn key) j = Some STATE_OCCUPIED) ∨
    ∃ j, (j < i)%nat ∧ first_tombstone = Z.of_nat (slotAt t (hash_fn key) j) ∧
         states t !! slotAt t (hash_fn key) j = Some STATE_TOMBSTONE }.

Lemma slotAt_not_max t h i : size_ok (cap t) → (Z.of_nat (slotAt t h i) =? SIZE_MAX) = false.
Proof.
  intros Hc. pose proof (size_pos _ Hc). pose proof (slotAt_lt t h i Hc). unfold SIZE_MAX.
  apply Z.eqb_neq. lia.
Qed.

(** A tombstone met before an empty slot, or the end, is free for the key. *)
Lemma free_at t key i j : size_ok (cap t) → (i < Z.to_nat (cap t))%nat → (j ≤ i)%nat →
  (∀ j', (j' < i)%nat → states t !! slotAt t (hash_fn key) j' ≠ Some STATE_EMPTY) →
  states t !! slotAt t (hash_fn key) j ≠ Some STATE_OCCUPIED →
  (∀ s' k, occupied t s' k → key_value k ≠ key_value key) →
  free_for t key (slotAt t (hash_fn key) j).
Proof.
  intros Hc Hi Hj Hfull Hfree Hno. split_and!; [by apply slotAt_lt|done| |done].
  exists j. split_and!; [lia|done|]. intros j' Hj'. apply Hfull. lia.
Qed.

(** No stored key is behind an empty slot. *)
Lemma searched_empty t key i ft : table_ok t → (i < Z.to_nat (cap t))%nat → searched t key i ft →
  states t !! slotAt t (hash_fn key) i = Some STATE_EMPTY →
  ∀ s k, occupied t s k → key_value k ≠ key_value key.
Proof.
  intros Hok Hi [Hfull Hother _] Hempty s k Hs Heq.
  destruct (ok_reach _ Hok _ _ Hs) as (j & Hj & Hprobe & Hpath).
  rewrite (hash_fn_value _ _ Heq) in Hprobe, Hpath.
  destruct (decide (j < i)%nat) as [Hlt|Hge].
  - apply (Hother j k Hlt); [by rewrite Hprobe|done].
  - destruct (decide (j = i)) as [->|Hne].
    + destruct Hs as [Hst _]. rewrite <-Hprobe, Hempty in Hst. done.
    + apply (Hpath i); [lia|done].
Qed.

(** Where the search ends without the key, at an empty slot. *)
Lemma searched_stop t key i ft : table_ok t → (i < Z.to_nat (cap t))%nat → searched t key i ft →
  states t !! slotAt t (hash_fn key) i = Some STATE_EMPTY →
  ∃ s, (if ft =? SIZE_MAX then Z.of_nat (slotAt t (hash_fn key) i) else ft) = Z.of_nat s ∧ free_for t key s.
Proof.
  intros Hok Hi Hse Hempty. pose proof (searched_empty _ _ _ _ Hok Hi Hse Hempty) as Hno.
  pose proof (ok_cap _ Hok) as Hc.
  destruct Hse as [Hfull _ [[-> Hall]|(j & Hj & -> & Htomb)]].
  - exists (slotAt t (hash_fn key) i). split; [done|].
    apply (free_at t key i); [done..|by rewrite Hempty|done].
  - exists (slotAt t (hash_fn key) j). rewrite slotAt_not_max by done. split; [done|].
    apply (free_at t key i); [done|done|lia|done|by rewrite Htomb|done].
Qed.

(** Where it ends after all slots, one of which is not occupied. *)
Lemma searched_end t key ft : table_ok t → searched t key (Z.to_nat (cap t)) ft →
  (∃ s, (s < Z.to_nat (cap t))%nat ∧ states t !! s ≠ Some STATE_OCCUPIED) →
  ∃ s, (if ft =? SIZE_MAX then 0 else ft) = Z.of_nat s ∧ free_for t key s.
Proof.
  intros Hok [Hfull Hother Hfirst] (s & Hs & Hfree). pose proof (ok_cap _ Hok) as Hc.
  pose proof (size_pos _ Hc). destruct Hfirst as [[-> Hall]|(j & Hj & -> & Htomb)].
  { destruct (slotAt_all t (hash_fn key) s Hc Hs) as (j & Hj & Hp). rewrite <-Hp in Hfree.
    by destruct Hfree; apply Hall. }
  exists (slotAt t (hash_fn key) j). rewrite slotAt_not_max by done. split; [done|].
  apply (free_at t key (Z.to_nat (cap t) - 1)); [done|lia|lia|intros; apply Hfull; lia|by rewrite Htomb|].
  intros s' k Hs' Heq. destruct (slotAt_all t (hash_fn key) s' Hc) as (j2 & Hj2 & Hp2).
  - destruct Hs' as [Hs' _]. apply lookup_lt_Some in Hs'. by rewrite (ok_len_states _ Hok) in Hs'.
  - apply (Hother j2 k Hj2); [by rewrite Hp2|done].
Qed.

Lemma lt_S_cases (P : nat → Prop) i : (∀ j, (j < i)%nat → P j) → P i → ∀ j, (j < S i)%nat → P j.
Proof. intros Hlt Hi j Hj. destruct (decide (j = i)) as [->|]; [done|]. apply Hlt. lia. Qed.

Lemma searched_other t key i ft k : searched t key i ft → occupied t (slotAt t (hash_fn key) i) k →
  key_value k ≠ key_value key → searched t key (S i) ft.
Proof.
  intros [Hfull Hother Hfirst] Hocc Hne. destruct (Hocc) as [Hst Hk]. split.
  - apply lt_S_cases; [done|by rewrite Hst].
  - intros j k' Hj. revert k'.
    apply (lt_S_cases (λ j, ∀ k', occupied t (slotAt t (hash_fn key) j) k' →
      key_value k' ≠ key_value key) i); [by intros; eapply Hother| |done].
    intros k' [_ Hk']. congruence.
  - destruct Hfirst as [[-> Hall]|(j & Hj & -> & Htomb)].
    + left. split; [done|]. by apply lt_S_cases.
    + right. exists j. split_and!; [lia|done..].
Qed.

Lemma searched_tombstone t key i ft : size_ok (cap t) → searched t key i ft →
  states t !! slotAt t (hash_fn key) i = Some STATE_TOMBSTONE →
  searched t key (S i) (if ft =? SIZE_MAX then Z.of_nat (slotAt t (hash_fn key) i) else ft).
Proof.
  intros Hc [Hfull Hother Hfirst] Hst. split.
  - apply lt_S_cases; [done|by rewrite Hst].
  - intros j k' Hj. revert k'.
    apply (lt_S_cases (λ j, ∀ k', occupied t (slotAt t (hash_fn key) j) k' →
      key_value k' ≠ key_value key) i); [by intros; eapply Hother| |done].
    intros k' [Hk' _]. by rewrite Hst in Hk'.
  - right. destruct Hfirst as [[-> Hall]|(j & Hj & -> & Htomb)].
    + exists i. split_and!; [lia|done|done].
    + exists j. rewrite slotAt_not_max by done. split_and!; [lia|done..].
Qed.

Lemma findLoop_spec t key : table_ok t →
  (∃ s, (s < Z.to_nat (cap t))%nat ∧ states t !! s ≠ Some STATE_OCCUPIED) →
  ∀ fuel i ft, (fuel + i = Z.to_nat (cap t))%nat → searched t key i ft →
  ∃ s found, findLoop t key (hash_fn key) fuel (Z.of_nat i) ft = Ret (Z.of_nat s, found) ∧
    find_result t key s found.
Proof.
  intros Hok Hfree. pose proof (ok_cap _ Hok) as Hc. pose proof (hash_fn_range key) as Hr.
  induction fuel as [|fuel IH]; intros i ft Hfuel Hse; cbn [findLoop].
  - assert (i = Z.to_nat (cap t)) as -> by lia.
    destruct (searched_end _ _ _ Hok Hse Hfree) as (s & -> & Hs). by exists s, false.
  - assert (Hi : (i < Z.to_nat (cap t))%nat) by lia. cbv zeta. rewrite slot_probe by done.
    destruct (ok_lookup t (slotAt t (hash_fn key) i) Hok) as (st & k & h & Est & Ek & Eh); [by apply slotAt_lt|].
    rewrite (arr_get_ok _ _ _ Est). cbn [mbind outcome_bind].
    replace (Z.of_nat i + 1) with (Z.of_nat (S i)) by lia.
    destruct (ok_states _ Hok _ _ Est) as [->|[->| ->]].
    + destruct (searched_stop _ _ _ _ Hok Hi Hse Est) as (s & Heq & Hs).
      change (STATE_EMPTY =? STATE_EMPTY) with true. cbv iota. rewrite Heq. by exists s, false.
    + change (STATE_OCCUPIED =? STATE_EMPTY) with false. change (STATE_OCCUPIED =? STATE_TOMBSTONE) with false.
      cbv iota. rewrite (arr_get_ok _ _ _ Eh). cbn [mbind outcome_bind].
      assert (Hocc : occupied t (slotAt t (hash_fn key) i) k) by done.
      assert (h = hash_fn k) as -> by (pose proof (ok_hash _ Hok _ _ Hocc); congruence).
      assert (Hgo : key_value k ≠ key_value key → ∃ s found,
        findLoop t key (hash_fn key) fuel (Z.of_nat (S i)) ft = Ret (Z.of_nat s, found) ∧
        find_result t key s found).
      { intros Hne. apply IH; [lia|]. by eapply searched_other. }
      destruct (hash_fn k =? hash_fn key) eqn:Ehash.
      2: { apply Hgo. intros Heq%hash_fn_value. by apply Z.eqb_neq in Ehash. }
      rewrite (arr_get_ok _ _ _ Ek). cbn [mbind outcome_bind].
      destruct (eq_fn k key) eqn:Eeq; [|apply Hgo; intros Heq%eq_fn_spec; congruence].
      apply eq_fn_spec in Eeq. exists (slotAt t (hash_fn key) i), true.
      split; [done|]. split; [by apply slotAt_lt|by exists k].
    + apply IH; [lia|]. by apply searched_tombstone.
Qed.

(** The search ends, reads no array outside its bounds, and finds the key or a free slot,
    as long as some slot is not occupied. *)
Lemma core_find_spec t key : table_ok t →
  (∃ s, (s < Z.to_nat (cap t))%nat ∧ states t !! s ≠ Some STATE_OCCUPIED) →
  ∃ s found, core_find t key (hash_fn key) = Ret (Z.of_nat s, found) ∧ find_result t key s found.
Proof.
  intros Hok Hfree. apply (findLoop_spec t key Hok Hfree _ 0%nat); [lia|].
  split; [lia|lia|]. left. split; [done|lia].
Qed.

(** ** Changing a slot *)

Definition weight (st : Z) : nat := if bool_decide (st = STATE_OCCUPIED) then 1 else 0.

Lemma count_cons x l : length (filter (λ st, st = STATE_OCCUPIED) (x :: l)) =
  (weight x + length (filter (λ st, st = STATE_OCCUPIED) l))%nat.
Proof. rewrite filter_cons. unfold weight. case_decide; [by rewrite bool_decide_true|by rewrite bool_decide_false]. Qed.

Lemma count_insert (l : list Z) s st st' : l !! s = Some st →
  (weight st + length (filter (λ st, st = STATE_OCCUPIED) (<[s := st']> l)) =
   weight st' + length (filter (λ st, st = STATE_OCCUPIED) l))%nat.
Proof.
  revert s. induction l as [|x l IH]; intros [|s]; [done..| |].
  - intros [= ->]. change (<[0%nat := st']> (st :: l)) with (st' :: l). rewrite !count_cons. lia.
  - intros Hs. change (<[S s := st']> (x :: l)) with (x :: <[s := st']> l).
    rewrite !count_cons. specialize (IH s Hs). lia.
Qed.

Lemma count_free t : table_ok t → (count t < Z.to_nat (cap t))%nat →
  ∃ s, (s < Z.to_nat (cap t))%nat ∧ states t !! s ≠ Some STATE_OCCUPIED.
Proof.
  intros Hok Hlt. destruct (decide (Forall (λ st, st = STATE_OCCUPIED) (states t))) as [Hall|Hnot].
  - unfold count in Hlt. rewrite <-(ok_len_states _ Hok) in Hlt.
    assert (length (filter (λ st, st = STATE_OCCUPIED) (states t)) = length (states t)); [|lia].
    clear -Hall. induction Hall as [|st l -> _ IH]; [done|]. rewrite count_cons, IH. done.
  - apply not_Forall_Exists, Exists_exists in Hnot as (st & Hin & Hst); [|apply _].
    apply list_elem_of_lookup in Hin as [s Hs]. exists s. split.
    + rewrite <-(ok_len_states _ Hok). by eapply lookup_lt_Some.
    + rewrite Hs. intros [= ->]. by apply Hst.
Qed.

Lemma reaches_mono t t' h s : cap t' = cap t →
  (∀ s', states t !! s' ≠ Some STATE_EMPTY → states t' !! s' ≠ Some STATE_EMPTY) →
  reaches t h s → reaches t' h s.
Proof.
  unfold reaches, slotAt. intros -> Hmono (i & Hi & Hp & Hpath). exists i. split_and!; [done..|].
  intros j Hj. by apply Hmono, Hpath.
Qed.

Lemma occupy_spec t key s : table_ok t → free_for t key s →
  ∃ t', occupy t (Z.of_nat s) (hash_fn key) key = Ret t' ∧ table_ok t' ∧ cap t' = cap t ∧
    (∀ s' k, occupied t' s' k ↔ (s' = s ∧ k = key) ∨ (s' ≠ s ∧ occupied t s' k)) ∧
    count t' = S (count t).
Proof.
  intros Hok (Hs & Hfree & Hreach & Hno).
  destruct (ok_lookup t s Hok Hs) as (st & k0 & h0 & Est & Ek & Eh). unfold occupy.
  rewrite !arr_set_ok by (rewrite ?ok_len_states, ?ok_len_hashes, ?ok_len_keys; done).
  cbn [mbind outcome_bind]. eexists. split; [done|]. set (t' := set_field _ _).
  assert (Hocc : ∀ s' k, occupied t' s' k ↔ (s' = s ∧ k = key) ∨ (s' ≠ s ∧ occupied t s' k)).
  { intros s' k. unfold occupied. subst t'. simpl. destruct (decide (s' = s)) as [->|Hne].
    - rewrite !list_lookup_insert_eq by (rewrite ?ok_len_states, ?ok_len_keys; done). naive_solver.
    - rewrite !list_lookup_insert_ne by done. naive_solver. }
  assert (Hmono : ∀ s', states t !! s' ≠ Some STATE_EMPTY → states t' !! s' ≠ Some STATE_EMPTY).
  { intros s' Hs'. subst t'. simpl. destruct (decide (s' = s)) as [->|Hne].
    - by rewrite list_lookup_insert_eq by (rewrite ok_len_states; done).
    - by rewrite list_lookup_insert_ne. }
  split_and!; [|done|done|].
  - destruct (Hok) as [H1 H2 H3 H4 H5 H6 H7 H8].
    split; [exact H1|subst t'; simpl; by rewrite length_insert..| | | |].
    + intros s' st'. subst t'. simpl. intros [(-> & <- & _)|[_ E]]%list_lookup_insert_Some; eauto.
    + intros s' k [[-> ->]|[Hne Hk]]%Hocc; subst t'; simpl.
      * by rewrite list_lookup_insert_eq by (rewrite H4; done).
      * rewrite list_lookup_insert_ne by done. by apply H6.
    + intros s' k [[-> ->]|[Hne Hk]]%Hocc; apply (reaches_mono t); try done. by apply H7.
    + intros s1 s2 k1 k2 [[-> ->]|[Hne1 Hk1]]%Hocc [[-> ->]|[Hne2 Hk2]]%Hocc Heq; [done| | |eauto].
      * by destruct (Hno _ _ Hk2).
      * by destruct (Hno _ _ Hk1).
  - unfold count. subst t'. simpl. pose proof (count_insert (states t) s st STATE_OCCUPIED Est) as Hn.
    unfold weight in Hn. rewrite (bool_decide_false (st = _)) in Hn by congruence.
    rewrite bool_decide_true in Hn by done. lia.
Qed.

Lemma bury_spec t s k : table_ok t → occupied t s k →
  ∃ t', bury t (Z.of_nat s) = Ret t' ∧ table_ok t' ∧ cap t' = cap t ∧
    (∀ s' k', occupied t' s' k' ↔ s' ≠ s ∧ occupied t s' k') ∧ count t = S (count t').
Proof.
  intros Hok [Est Ek]. assert (Hs : (s < length (states t))%nat) by by eapply lookup_lt_Some.
  unfold bury. rewrite arr_set_ok by done. cbn [mbind outcome_bind]. eexists. split; [done|].
  set (t' := set_field _ _).
  assert (Hocc : ∀ s' k', occupied t' s' k' ↔ s' ≠ s ∧ occupied t s' k').
  { intros s' k'. unfold occupied. subst t'. simpl. destruct (decide (s' = s)) as [->|Hne].
    - rewrite list_lookup_insert_eq by done. naive_solver.
    - rewrite list_lookup_insert_ne by done. naive_solver. }
  split_and!; [|done|done|].
  - destruct (Hok) as [H1 H2 H3 H4 H5 H6 H7 H8].
    split; [exact H1|subst t'; simpl; by rewrite ?length_insert..| | | |].
    + intros s' st'. subst t'. simpl. intros [(-> & <- & _)|[_ E]]%list_lookup_insert_Some; eauto.
    + intros s' k' [Hne Hk]%Hocc. by apply H6.
    + intros s' k' [Hne Hk]%Hocc. apply (reaches_mono t); [done| |by apply H7].
      intros s2 Hs2. subst t'. simpl. destruct (decide (s2 = s)) as [->|].
      * by rewrite list_lookup_insert_eq.
      * by rewrite list_lookup_insert_ne.
    + intros s1 s2 k1 k2 [_ Hk1]%Hocc [_ Hk2]%Hocc. by apply H8.
  - unfold count. subst t'. simpl. pose proof (count_insert (states t) s _ STATE_TOMBSTONE Est) as Hn.
    unfold weight in Hn. rewrite bool_decide_true, bool_decide_false in Hn by done. lia.
Qed.

Lemma newTable_spec zero c : size_ok c →
  table_ok (newTable zero c) ∧ (∀ s k, ¬ occupied (newTable zero c) s k) ∧ count (newTable zero c) = 0%nat.
Proof.
  intros Hc. assert (Hno : ∀ s k, ¬ occupied (newTable zero c) s k).
  { intros s k [Hst _]. simpl in Hst. by apply lookup_replicate in Hst as [? _]. }
  split_and!; [|done|].
  - split; simpl; [done|by rewrite length_replicate..| | | |]; try (intros; by edestruct Hno).
    intros s st [-> _]%lookup_replicate. auto.
  - unfold count. simpl. induction (Z.to_nat c) as [|n IH]; [done|].
    rewrite replicate_S, filter_cons_False; [exact IH|done].
Qed.

(** ** Tables whose keys cannot all be found *)

(** The part of [table_ok] that does not say that keys are reached, or where. *)
Record table_shape (t : HashTable) : Prop := {
  sh_cap : size_ok (cap t);
  sh_len_states : length (states t) = Z.to_nat (cap t);
  sh_len_keys : length (keys t) = Z.to_nat (cap t);
  sh_len_hashes : length (hashes t) = Z.to_nat (cap t);
  sh_states s st : states t !! s = Some st →
    st = STATE_EMPTY ∨ st = STATE_OCCUPIED ∨ st = STATE_TOMBSTONE;
  sh_hash s k : occupied t s k → hashes t !! s = Some (hash_fn k) }.

Lemma ok_shape t : table_ok t → table_shape t.
Proof. by intros []. Qed.

Lemma findLoop_shape t key : table_shape t → ∀ fuel i ft, (fuel + i = Z.to_nat (cap t))%nat →
  (∀ j, (j < i)%nat → states t !! slotAt t (hash_fn key) j ≠ Some STATE_EMPTY) →
  (∀ j k, (j < i)%nat → occupied t (slotAt t (hash_fn key) j) k → key_value k ≠ key_value key) →
  ∃ r b, findLoop t key (hash_fn key) fuel (Z.of_nat i) ft = Ret (r, b) ∧
    (b = true ↔ ∃ s k, occupied t s k ∧ key_value k = key_value key ∧ reaches t (hash_fn key) s).
Proof.
  intros [Hc L1 L2 L3 Hst Hh]. pose proof (hash_fn_range key) as Hr.
  induction fuel as [|fuel IH]; intros i ft Hfuel Hfull Hother; cbn [findLoop].
  - eexists _, false. split; [done|]. split; [done|]. intros (s & k & Hk & Heq & j & Hj & <- & _).
    exfalso. apply (Hother j k); [lia|done|done].
  - assert (Hi : (i < Z.to_nat (cap t))%nat) by lia. cbv zeta. rewrite slot_probe by done.
    pose proof (slotAt_lt t (hash_fn key) i Hc) as Hslot. set (sl := slotAt t (hash_fn key) i) in *.
    destruct (lookup_lt_is_Some_2 (states t) sl) as [st Est]; [by rewrite L1|].
    destruct (lookup_lt_is_Some_2 (keys t) sl) as [k Ek]; [by rewrite L2|].
    destruct (lookup_lt_is_Some_2 (hashes t) sl) as [h Eh]; [by rewrite L3|].
    rewrite (arr_get_ok _ _ _ Est). cbn [mbind outcome_bind].
    replace (Z.of_nat i + 1) with (Z.of_nat (S i)) by lia.
    assert (Hgo : ∀ ft', st ≠ STATE_EMPTY → (∀ k', occupied t sl k' → key_value k' ≠ key_value key) →
      ∃ r b, findLoop t key (hash_fn key) fuel (Z.of_nat (S i)) ft' = Ret (r, b) ∧
        (b = true ↔ ∃ s k, occupied t s k ∧ key_value k = key_value key ∧ reaches t (hash_fn key) s)).
    { intros ft' Hne Hno. apply IH; [lia| |].
      - apply lt_S_cases; [done|]. fold sl. rewrite Est. congruence.
      - intros j k' Hj. revert k'. apply (lt_S_cases (λ j, ∀ k', occupied t (slotAt t (hash_fn key) j) k' →
          key_value k' ≠ key_value key) i); [by intros; eapply Hother|done|done]. }
    destruct (Hst _ _ Est) as [->|[->| ->]].
    + change (STATE_EMPTY =? STATE_EMPTY) with true. eexists _, false. split; [done|]. split; [done|].
      intros (s & k' & Hk & Heq & j & Hj & <- & Hpath). exfalso. destruct (decide (j < i)%nat); [by apply (Hother j k')|].
      destruct (decide (j = i)) as [->|]; [destruct Hk as [Hk _]; fold sl in Hk; by rewrite Est in Hk|].
      apply (Hpath i); [lia|done].
    + change (STATE_OCCUPIED =? STATE_EMPTY) with false. change (STATE_OCCUPIED =? STATE_TOMBSTONE) with false.
      cbv iota. rewrite (arr_get_ok _ _ _ Eh). cbn [mbind outcome_bind].
      assert (Hocc : occupied t sl k) by done. pose proof (Hh _ _ Hocc) as Hhash. rewrite Eh in Hhash. injection Hhash as ->.
      assert (Hdiff : key_value k ≠ key_value key → ∀ k', occupied t sl k' → key_value k' ≠ key_value key).
      { intros Hne k' [_ Hk']. congruence. }
      destruct (hash_fn k =? hash_fn key) eqn:Ehash.
      2: { apply Hgo; [done|]. apply Hdiff. intros Heq%hash_fn_value. by apply Z.eqb_neq in Ehash. }
      rewrite (arr_get_ok _ _ _ Ek). cbn [mbind outcome_bind].
      destruct (eq_fn k key) eqn:Eeq; [|apply Hgo; [done|]; apply Hdiff; intros Heq%eq_fn_spec; congruence].
      apply eq_fn_spec in Eeq. eexists _, true. split; [done|]. split; [|done]. intros _. exists sl, k.
      split_and!; [done|done|]. by exists i.
    + apply Hgo; [done|]. intros k' [Hk' _]. by rewrite Est in Hk'.
Qed.

(** The search finds a key exactly if a slot that holds it is reached. *)
Lemma core_find_shape t key : table_shape t →
  ∃ r b, core_find t key (hash_fn key) = Ret (r, b) ∧
    (b = true ↔ ∃ s k, occupied t s k ∧ key_value k = key_value key ∧ reaches t (hash_fn key) s).
Proof. intros Ht. apply (findLoop_shape t key Ht _ 0%nat); [lia|lia|lia]. Qed.

Lemma slotAt_inj t h i j : size_ok (cap t) → (i < Z.to_nat (cap t))%nat → (j < Z.to_nat (cap t))%nat →
  slotAt t h i = slotAt t h j → i = j.
Proof.
  intros Hc Hi Hj. pose proof (size_pos _ Hc). unfold slotAt.
  pose proof (Z.mod_pos_bound (h + Z.of_nat i) (cap t)). pose proof (Z.mod_pos_bound (h + Z.of_nat j) (cap t)).
  intros Heq. pose proof (Z.div_mod (h + Z.of_nat i) (cap t)). pose proof (Z.div_mod (h + Z.of_nat j) (cap t)).
  assert (Hm : (h + Z.of_nat i) mod cap t = (h + Z.of_nat j) mod cap t) by lia.
  assert (Hd : (h + Z.of_nat i) / cap t = (h + Z.of_nat j) / cap t); [|nia]. nia.
Qed.

(** Writing a new key into any slot: what was there is gone, and the key is found if the slot
    is reached. *)
Lemma occupy_anywhere t s key : table_ok t → (s < Z.to_nat (cap t))%nat →
  (∀ s' k, occupied t s' k → key_value k ≠ key_value key) →
  ∃ t', occupy t (Z.of_nat s) (hash_fn key) key = Ret t' ∧ table_shape t' ∧ cap t' = cap t ∧
    (∀ s' k, occupied t' s' k ↔ (s' = s ∧ k = key) ∨ (s' ≠ s ∧ occupied t s' k)) ∧
    (∀ h, reaches t' h s ↔ reaches t h s).
Proof.
  intros Hok Hs Hno. unfold occupy.
  rewrite !arr_set_ok by (rewrite ?ok_len_states, ?ok_len_hashes, ?ok_len_keys; done).
  cbn [mbind outcome_bind]. eexists. split; [done|]. set (t' := set_field _ _).
  assert (Hocc : ∀ s' k, occupied t' s' k ↔ (s' = s ∧ k = key) ∨ (s' ≠ s ∧ occupied t s' k)).
  { intros s' k. unfold occupied. subst t'. simpl. destruct (decide (s' = s)) as [->|Hne].
    - rewrite !list_lookup_insert_eq by (rewrite ?ok_len_states, ?ok_len_keys; done). naive_solver.
    - rewrite !list_lookup_insert_ne by done. naive_solver. }
  destruct (Hok) as [H1 H2 H3 H4 H5 H6 H7 H8]. split_and!; [|done|done|].
  - split; [exact H1|subst t'; simpl; by rewrite length_insert..| |].
    + intros s' st'. subst t'. simpl. intros [(-> & <- & _)|[_ E]]%list_lookup_insert_Some; eauto.
    + intros s' k [[-> ->]|[Hne Hk]]%Hocc; subst t'; simpl.
      * by rewrite list_lookup_insert_eq by (rewrite H4; done).
      * rewrite list_lookup_insert_ne by done. by apply H6.
  - intros h. split.
    + intros (i & Hi & Hp & Hpath). exists i. split_and!; [done..|]. intros j Hj Hempty.
      change (slotAt t' h) with (slotAt t h) in *. change (cap t') with (cap t) in Hi. apply (Hpath j Hj). subst t'. simpl.
      rewrite list_lookup_insert_ne; [done|]. intros Heq. rewrite <-Hp in Heq.
      apply slotAt_inj in Heq; [lia|done|done|lia].
    + apply reaches_mono; [done|]. intros s' Hs'. subst t'. simpl. destruct (decide (s' = s)) as [->|Hne].
      * by rewrite list_lookup_insert_eq by (rewrite H2; done).
      * by rewrite list_lookup_insert_ne.
Qed.
End table.
