(* ===== verification/RtMap.v ===== *)
(** * The hash map of the run-time library

    [builtins/collections/map.c], over any key type with a hash and an equality: the core
    operations, and the functions its macros generate for numbers.  A map is the arrays of
    [RtTable] with one of values.  Allocation is taken to succeed; a panic of [get], which
    aborts the program, is [None]. *)

From S2P Require Import Prelude.
From S2P Require Import CxxLib.
From S2P Require Import RtHash.
From S2P Require Import RtTable.
Local Open Scope Z_scope.

Record lucis_map_header (K V : Type) := {
  m_table : HashTable K;
  m_values : list V;
  m_len : Z }.
Arguments m_table {_ _}. Arguments m_values {_ _}. Arguments m_len {_ _}.

#[export] Instance settable_map_header K V : Settable (lucis_map_header K V) := λ m,
  Build_lucis_map_header K V (m_table m) (m_values m) (m_len m).

Definition MAP_INITIAL_CAP : Z := 16.
Definition MAP_LOAD_FACTOR_NUM : Z := 3.
Definition MAP_LOAD_FACTOR_DEN : Z := 4.

Section map.
Context {K C V : Type} `{Countable C} `{HashKey K C} (zeroK : K) (zeroV : V).
Notation header := (lucis_map_header K V).

(** ** Core operations *)

Definition map_core_init : header :=
  {| m_table := newTable zeroK MAP_INITIAL_CAP;
     m_values := replicate (Z.to_nat MAP_INITIAL_CAP) zeroV; m_len := 0 |}.

Definition map_core_free (m : header) : header :=
  {| m_table := {| states := []; keys := []; hashes := []; cap := 0 |}; m_values := []; m_len := 0 |}.

Definition map_core_clear (m : header) : header :=
  m <| m_table := (m_table m) <| states := replicate (length (states (m_table m))) STATE_EMPTY |> |>
    <| m_len := 0 |>.

(** A new entry in a slot, as [map_core_set] and [map_core_grow] make it. *)
Definition place (m : header) (slot h : Z) (key : K) (val : V) : outcome header :=
  t ← occupy (m_table m) slot h key;
  vs ← arr_set (m_values m) slot val;
  Ret (m <| m_table := t |> <| m_values := vs |> <| m_len := to_uint64 (m_len m + 1) |>).

(** The loop of [map_core_grow], with [fuel] slots of [old] left to copy. *)
Fixpoint growLoop (old : header) (fuel : nat) (i : Z) (m : header) : outcome header :=
  match fuel with
  | O => Ret m
  | S fuel =>
      state ← arr_get (states (m_table old)) i;
      m ← (if state =? STATE_OCCUPIED then
             k ← arr_get (keys (m_table old)) i;
             v ← arr_get (m_values old) i;
             h ← arr_get (hashes (m_table old)) i;
             r ← core_find (m_table m) k h;
             place m r.1 h k v
           else Ret m);
      growLoop old fuel (i + 1) m
  end.

Definition map_core_grow (m : header) : outcome header :=
  let new_cap := to_uint64 (cap (m_table m) * 2) in
  growLoop m (Z.to_nat (cap (m_table m))) 0
    {| m_table := newTable zeroK new_cap; m_values := replicate (Z.to_nat new_cap) zeroV; m_len := 0 |}.

(** The load would be above three quarters. *)
Definition mustGrow (len cap : Z) : bool :=
  to_uint64 (cap * MAP_LOAD_FACTOR_NUM) <? to_uint64 ((len + 1) * MAP_LOAD_FACTOR_DEN).

Definition map_core_set (m : header) (key : K) (val : V) : outcome header :=
  m ← (if mustGrow (m_len m) (cap (m_table m)) then map_core_grow m else Ret m);
  let h := hash_fn key in
  r ← core_find (m_table m) key h;
  if r.2 : bool then vs ← arr_set (m_values m) r.1 val; Ret (m <| m_values := vs |>)
  else place m r.1 h key val.

Definition map_core_get (m : header) (key : K) : outcome (option V) :=
  if m_len m =? 0 then Ret None else
  r ← core_find (m_table m) key (hash_fn key);
  if r.2 : bool then v ← arr_get (m_values m) r.1; Ret (Some v) else Ret None.

Definition map_core_has (m : header) (key : K) : outcome bool :=
  if m_len m =? 0 then Ret false else
  r ← core_find (m_table m) key (hash_fn key); Ret r.2.

Definition map_core_remove (m : header) (key : K) : outcome (header * bool) :=
  if m_len m =? 0 then Ret (m, false) else
  r ← core_find (m_table m) key (hash_fn key);
  if r.2 : bool then
    t ← bury (m_table m) r.1;
    Ret (m <| m_table := t |> <| m_len := to_uint64 (m_len m - 1) |>, true)
  else Ret (m, false).

(** ** The functions of the macros *)

Definition lucis_map_len (m : header) : Z := m_len m.
Definition lucis_map_isEmpty (m : header) : bool := m_len m =? 0.

Definition lucis_map_getOrDefault (m : header) (key : K) (def : V) : outcome V :=
  r ← map_core_get m key; Ret (default def r).

(** The loop of [keys] and [values]: the entries of [l] at occupied slots, at most as many
    as were allocated. *)
Fixpoint collect {A} (l : list A) (m : header) (fuel : nat) (i : Z) (arr : list A) : outcome (list A) :=
  match fuel with
  | O => Ret arr
  | S fuel =>
      state ← arr_get (states (m_table m)) i;
      if state =? STATE_OCCUPIED then
        a ← arr_get l i;
        if Z.of_nat (length arr) <? m_len m then collect l m fuel (i + 1) (arr ++ [a]) else Undef
      else collect l m fuel (i + 1) arr
  end.

Definition lucis_map_keys (m : header) : outcome (list K) :=
  collect (keys (m_table m)) m (Z.to_nat (cap (m_table m))) 0 [].
Definition lucis_map_values (m : header) : outcome (list V) :=
  collect (m_values m) m (Z.to_nat (cap (m_table m))) 0 [].

(** ** What a map stands for *)

Definition holds (m : header) (k : K) (v : V) : Prop :=
  ∃ s, occupied (m_table m) s k ∧ m_values m !! s = Some v.

(** The entries are those of the finite map, as many as the length says. *)
Record models (m : header) (M : gmap C V) : Prop := {
  mo_table : table_ok (m_table m);
  mo_values : length (m_values m) = Z.to_nat (cap (m_table m));
  mo_len : m_len m = Z.of_nat (count (m_table m));
  mo_size : count (m_table m) = size M;
  mo_entries c v : M !! c = Some v ↔ ∃ k, holds m k v ∧ key_value k = c }.

(** There is room for a slotAt to end. *)
Definition loaded (m : header) : Prop :=
  m_len m * MAP_LOAD_FACTOR_DEN ≤ cap (m_table m) * MAP_LOAD_FACTOR_NUM.

Lemma holds_value m M s k : models m M → occupied (m_table m) s k →
  ∃ v, m_values m !! s = Some v ∧ M !! key_value k = Some v.
Proof.
  intros Hm Hs. destruct (lookup_lt_is_Some_2 (m_values m) s) as [v Hv].
  { rewrite (mo_values _ _ Hm), <-(ok_len_states _ (mo_table _ _ Hm)).
    destruct Hs as [Hs _]. by eapply lookup_lt_Some. }
  exists v. split; [done|]. apply (mo_entries _ _ Hm). exists k. split; [by exists s|done].
Qed.

(** The search for a key in a map that is not full. *)
Lemma find_models m M key : models m M → (count (m_table m) < Z.to_nat (cap (m_table m)))%nat →
  ∃ s found, core_find (m_table m) key (hash_fn key) = Ret (Z.of_nat s, found) ∧
    find_result (m_table m) key s found ∧
    (found = true → ∃ v, m_values m !! s = Some v ∧ M !! key_value key = Some v) ∧
    (found = false → M !! key_value key = None).
Proof.
  intros Hm Hlt. destruct (core_find_spec (m_table m) key (mo_table _ _ Hm)) as (s & found & E & Hr).
  { by apply count_free; [apply (mo_table _ _ Hm)|]. }
  exists s, found. split_and!; [done|done| |].
  - intros ->. destruct Hr as (_ & k & Hk & <-). by apply holds_value.
  - intros ->. destruct Hr as (_ & _ & _ & Hno). apply eq_None_not_Some. intros [v Hv].
    apply (mo_entries _ _ Hm) in Hv as (k & (s' & Hs' & _) & Hk). by apply (Hno s' k).
Qed.

Lemma count_bound (t : HashTable K) : table_ok t → (count t ≤ Z.to_nat (cap t))%nat.
Proof.
  intros Hok. unfold count. rewrite <-(ok_len_states _ Hok). apply length_filter.
Qed.

Lemma models_len m M : models m M → 0 ≤ m_len m ≤ cap (m_table m) ∧ 16 ≤ cap (m_table m) < 2 ^ 63.
Proof.
  intros Hm. pose proof (count_bound _ (mo_table _ _ Hm)). pose proof (size_pos _ (ok_cap _ (mo_table _ _ Hm))).
  rewrite (mo_len _ _ Hm). lia.
Qed.

(** A new entry in a free slot. *)
Lemma place_models m M key v s : models m M → free_for (m_table m) key s → M !! key_value key = None →
  ∃ m', place m (Z.of_nat s) (hash_fn key) key v = Ret m' ∧ models m' (<[key_value key := v]> M) ∧
    cap (m_table m') = cap (m_table m) ∧ m_len m' = m_len m + 1.
Proof.
  intros Hm Hfree Hnone. pose proof (models_len _ _ Hm) as [Hl Hc].
  destruct (occupy_spec _ _ _ (mo_table _ _ Hm) Hfree) as (t & Et & Hok & Hcap & Hocc & Hcount).
  assert (Hs : (s < length (m_values m))%nat) by (rewrite (mo_values _ _ Hm); apply Hfree).
  unfold place. rewrite Et. cbn [mbind outcome_bind]. rewrite arr_set_ok by done.
  eexists. split; [reflexivity|]. simpl.
  assert (Hlen : to_uint64 (m_len m + 1) = m_len m + 1) by (apply Z.mod_small; lia).
  split_and!; [|done|done]. split; simpl; [done|by rewrite length_insert, (mo_values _ _ Hm), Hcap| | |].
  - rewrite Hlen, Hcount, (mo_len _ _ Hm). lia.
  - rewrite Hcount, (mo_size _ _ Hm), map_size_insert_None by done. done.
  - intros c v'. rewrite lookup_insert_Some, (mo_entries _ _ Hm). unfold holds. simpl. split.
    + intros [[<- <-]|[Hne (k & (s' & Hs' & Hv') & <-)]].
      * exists key. split; [|done]. exists s. rewrite Hocc, list_lookup_insert_eq by done. auto.
      * exists k. split; [|done]. exists s'. assert (s' ≠ s).
        { intros ->. destruct Hs' as [Hs' _]. by destruct Hfree as (_ & Hf & _). }
        rewrite Hocc, list_lookup_insert_ne by done. auto.
    + intros (k & (s' & Hs' & Hv') & <-). apply Hocc in Hs' as [[-> ->]|[Hne Hs']].
      * rewrite list_lookup_insert_eq in Hv' by done. injection Hv' as ->. by left.
      * rewrite list_lookup_insert_ne in Hv' by done. right. split; [|by exists k; split; [exists s'|]].
        intros Heq. destruct Hfree as (_ & _ & _ & Hno). by apply (Hno s' k).
Qed.

Lemma fresh_models c : size_ok c →
  models {| m_table := newTable zeroK c; m_values := replicate (Z.to_nat c) zeroV; m_len := 0 |} ∅.
Proof.
  intros Hc. destruct (newTable_spec zeroK c Hc) as (Hok & Hno & Hcount).
  split; simpl; [done|by rewrite length_replicate|by rewrite Hcount|by rewrite Hcount, map_size_empty|].
  intros c' v. rewrite lookup_empty. split; [done|]. intros (k & (s & Hs & _) & _). by destruct (Hno s k).
Qed.

(** ** Growing *)

(** The first [i] slots of [old] have been copied. *)
Definition copied (old : header) (i : nat) (M : gmap C V) : Prop := ∀ c v,
  M !! c = Some v ↔ ∃ s k, (s < i)%nat ∧ occupied (m_table old) s k ∧ m_values old !! s = Some v ∧ key_value k = c.

Lemma copied_S old M0 i k v M : models old M0 → copied old i M → occupied (m_table old) i k →
  m_values old !! i = Some v → copied old (S i) (<[key_value k := v]> M) ∧ M !! key_value k = None.
Proof.
  intros Hold Hcop Hi Hv. assert (Huniq : ∀ s k', occupied (m_table old) s k' → key_value k' = key_value k → s = i).
  { intros s k' Hs Heq. by eapply (ok_unique _ (mo_table _ _ Hold)). }
  split.
  - intros c v'. rewrite lookup_insert_Some, (Hcop c v'). split.
    + intros [[<- <-]|[Hne (s & k' & Hs & Hk' & Hv' & <-)]]; [by exists i, k; eauto|].
      exists s, k'. split_and!; [lia|done..].
    + intros (s & k' & Hs & Hk' & Hv' & <-). destruct (decide (s = i)) as [->|Hne].
      * left. destruct Hk' as [_ Hk'], Hi as [_ Hi]. split; congruence.
      * right. split; [intros Heq; by apply Hne, (Huniq s k')|].
        exists s, k'. split_and!; [lia|done..].
  - apply eq_None_not_Some. intros [v' Hv']. apply Hcop in Hv' as (s & k' & Hs & Hk' & _ & Heq).
    pose proof (Huniq _ _ Hk' Heq). lia.
Qed.

Lemma copied_skip old i M : copied old i M → states (m_table old) !! i ≠ Some STATE_OCCUPIED →
  copied old (S i) M.
Proof.
  intros Hcop Hi c v. rewrite (Hcop c v). split; intros (s & k & Hs & Hk & Hv & Heq);
    (exists s, k; split_and!; [|done..]); [lia|].
  destruct (decide (s = i)) as [->|]; [|lia]. by destruct Hk as [Hk _].
Qed.

Lemma growLoop_spec old M0 : models old M0 → ∀ fuel i m M,
  (fuel + i = Z.to_nat (cap (m_table old)))%nat → models m M → copied old i M →
  cap (m_table old) < cap (m_table m) → (count (m_table m) ≤ i)%nat →
  ∃ m' M', growLoop old fuel (Z.of_nat i) m = Ret m' ∧ models m' M' ∧
    copied old (Z.to_nat (cap (m_table old))) M' ∧ cap (m_table m') = cap (m_table m).
Proof.
  intros Hold. induction fuel as [|fuel IH]; intros i m M Hfuel Hm Hcop Hcap Hcount; cbn [growLoop].
  - exists m, M. replace (Z.to_nat (cap (m_table old))) with i by lia. done.
  - destruct (ok_lookup (m_table old) i (mo_table _ _ Hold)) as (st & k & h & Est & Ek & Eh); [lia|].
    rewrite (arr_get_ok _ _ _ Est). cbn [mbind outcome_bind].
    replace (Z.of_nat i + 1) with (Z.of_nat (S i)) by lia.
    destruct (st =? STATE_OCCUPIED) eqn:Eocc.
    + apply Z.eqb_eq in Eocc as ->. assert (Hi : occupied (m_table old) i k) by done.
      destruct (holds_value _ _ _ _ Hold Hi) as (v & Hv & _).
      rewrite (arr_get_ok _ _ _ Ek), (arr_get_ok _ _ _ Hv), (arr_get_ok _ _ _ Eh). cbn [mbind outcome_bind].
      assert (h = hash_fn k) as -> by (pose proof (ok_hash _ (mo_table _ _ Hold) _ _ Hi); congruence).
      destruct (copied_S _ _ _ _ _ _ Hold Hcop Hi Hv) as [Hcop' Hnone].
      destruct (find_models m M k Hm) as (s & found & Ef & Hres & Hfound & _); [lia|].
      rewrite Ef. cbn [mbind outcome_bind fst snd].
      destruct found; [destruct (Hfound eq_refl) as (? & _ & ?); congruence|].
      destruct (place_models m M k v s Hm Hres Hnone) as (m1 & E1 & Hm1 & Hcap1 & Hlen1).
      rewrite E1. cbn [mbind outcome_bind]. rewrite <-Hcap1. eapply IH; try done; [lia|lia|].
      pose proof (mo_len _ _ Hm1). pose proof (mo_len _ _ Hm). lia.
    + cbn [mbind outcome_bind]. eapply IH; [lia|exact Hm| |done|lia].
      apply copied_skip; [done|]. rewrite Est. intros [= ->]. by rewrite Z.eqb_refl in Eocc.
Qed.

Lemma copied_all old M M' : models old M → copied old (Z.to_nat (cap (m_table old))) M' → M' = M.
Proof.
  intros Hm Hcop. apply map_eq. intros c. apply option_eq. intros v. rewrite (Hcop c v), (mo_entries _ _ Hm).
  split.
  - intros (s & k & _ & Hk & Hv & <-). exists k. split; [by exists s|done].
  - intros (k & (s & Hs & Hv) & <-). exists s, k. split_and!; [|done..].
    rewrite <-(mo_values _ _ Hm). by eapply lookup_lt_Some.
Qed.

(** Growing doubles the arrays and keeps the entries. *)
Lemma map_core_grow_spec m M : models m M → cap (m_table m) < 2 ^ 61 →
  ∃ m', map_core_grow m = Ret m' ∧ models m' M ∧ cap (m_table m') = cap (m_table m) * 2 ∧ m_len m' = m_len m.
Proof.
  intros Hm Hc. destruct (models_len _ _ Hm) as [Hl Hpos]. unfold map_core_grow.
  assert (to_uint64 (cap (m_table m) * 2) = cap (m_table m) * 2) as -> by (apply Z.mod_small; lia).
  assert (Hsize : size_ok (cap (m_table m) * 2)).
  { destruct (ok_cap _ (mo_table _ _ Hm)) as (e & He & Hcap). exists (e + 1). rewrite Hcap in *.
    split; [|by rewrite Z.pow_add_r by lia]. split; [lia|].
    assert (e < 61); [|lia]. apply (Z.pow_lt_mono_r_iff 2); lia. }
  pose proof (growLoop_spec m M Hm (Z.to_nat (cap (m_table m))) 0 _ ∅ (Nat.add_0_r _)
    (fresh_models _ Hsize)) as Hgrow.
  destruct Hgrow as (m' & M' & E & Hm' & Hcop & Hcap); simpl in *.
  - intros c v. rewrite lookup_empty. split; [done|]. intros (s & k & Hs & _). lia.
  - lia.
  - destruct (newTable_spec zeroK _ Hsize) as (_ & _ & ->). lia.
  - apply (copied_all _ _ _ Hm) in Hcop as ->. exists m'. split_and!; [done|done|done|].
    by rewrite (mo_len _ _ Hm'), (mo_len _ _ Hm), (mo_size _ _ Hm'), (mo_size _ _ Hm).
Qed.

(** ** The operations *)

Lemma update_models m M key v s k : models m M → occupied (m_table m) s k → key_value k = key_value key →
  models (m <| m_values := <[s := v]> (m_values m) |>) (<[key_value key := v]> M).
Proof.
  intros Hm Hs Heq. destruct (holds_value _ _ _ _ Hm Hs) as (v0 & Hv0 & HM0). rewrite Heq in HM0.
  assert (Hlt : (s < length (m_values m))%nat) by by eapply lookup_lt_Some.
  destruct (Hm) as [H1 H2 H3 H4 H5]. split; simpl; [done|by rewrite length_insert|done| |].
  - by rewrite H4, map_size_insert_Some by eauto.
  - intros c v'. rewrite lookup_insert_Some, (H5 c v'). unfold holds. simpl. split.
    + intros [[<- <-]|[Hne (k' & (s' & Hs' & Hv') & <-)]].
      * exists k. split; [|done]. exists s. by rewrite list_lookup_insert_eq.
      * exists k'. split; [|done]. exists s'. split; [done|]. rewrite list_lookup_insert_ne; [done|].
        intros ->. destruct Hs as [_ Hk], Hs' as [_ Hk']. congruence.
    + intros (k' & (s' & Hs' & Hv') & <-). destruct (decide (s = s')) as [<-|Hne].
      * rewrite list_lookup_insert_eq in Hv' by done. injection Hv' as <-. left.
        destruct Hs as [_ Hk], Hs' as [_ Hk']. split; [congruence|done].
      * rewrite list_lookup_insert_ne in Hv' by done. right. split; [|by exists k'; split; [exists s'|]].
        intros Hkk. apply Hne. apply (ok_unique _ H1 _ _ _ _ Hs Hs'). congruence.
Qed.

Lemma mustGrow_spec l c : 0 ≤ l ≤ c → 16 ≤ c < 2 ^ 61 → mustGrow l c = (c * 3 <? (l + 1) * 4).
Proof.
  intros Hl Hc. unfold mustGrow, to_uint64, MAP_LOAD_FACTOR_NUM, MAP_LOAD_FACTOR_DEN.
  by rewrite !Z.mod_small by lia.
Qed.

Lemma map_core_set_spec m M key v : models m M → loaded m → cap (m_table m) < 2 ^ 61 →
  ∃ m', map_core_set m key v = Ret m' ∧ models m' (<[key_value key := v]> M) ∧ loaded m' ∧
    cap (m_table m') * 3 ≤ Z.max (cap (m_table m) * 3) ((m_len m + 1) * 8) ∧
    m_len m ≤ m_len m' ≤ m_len m + 1.
Proof.
  intros Hm Hload Hc. destruct (models_len _ _ Hm) as [Hl Hpos]. unfold loaded in *.
  unfold MAP_LOAD_FACTOR_DEN, MAP_LOAD_FACTOR_NUM in *.
  assert (Hgrown : ∃ m1, (if mustGrow (m_len m) (cap (m_table m)) then map_core_grow m else Ret m) = Ret m1 ∧
    models m1 M ∧ (m_len m1 + 1) * 4 ≤ cap (m_table m1) * 3 ∧ m_len m1 = m_len m ∧
    cap (m_table m1) * 3 ≤ Z.max (cap (m_table m) * 3) ((m_len m + 1) * 8)).
  { rewrite mustGrow_spec by lia. destruct (Z.ltb_spec (cap (m_table m) * 3) ((m_len m + 1) * 4)).
    - destruct (map_core_grow_spec m M Hm Hc) as (m1 & E & Hm1 & Hcap1 & Hlen1).
      exists m1. rewrite Hcap1, Hlen1. split_and!; [done..|lia|done|lia].
    - exists m. split_and!; [done..|lia|done|lia]. }
  destruct Hgrown as (m1 & E1 & Hm1 & Hload1 & Hlen1 & Hcap1). unfold map_core_set. rewrite E1.
  cbn [mbind outcome_bind]. cbv zeta. destruct (models_len _ _ Hm1) as [Hl1 Hpos1].
  destruct (find_models m1 M key Hm1) as (s & found & Ef & Hres & _ & Hnone).
  { pose proof (mo_len _ _ Hm1). lia. }
  rewrite Ef. cbn [mbind outcome_bind fst snd]. destruct found.
  - destruct Hres as (Hs & k & Hk & Heq). rewrite arr_set_ok by by rewrite (mo_values _ _ Hm1).
    eexists. split; [reflexivity|]. split; [by eapply update_models|]. simpl. lia.
  - destruct (place_models m1 M key v s Hm1 Hres (Hnone eq_refl)) as (m' & E' & Hm' & Hcap' & Hlen').
    exists m'. rewrite E', Hcap', Hlen'. split_and!; [done|done|lia..].
Qed.

Lemma not_full m M : models m M → loaded m → (count (m_table m) < Z.to_nat (cap (m_table m)))%nat.
Proof.
  intros Hm Hload. destruct (models_len _ _ Hm). pose proof (mo_len _ _ Hm).
  unfold loaded, MAP_LOAD_FACTOR_DEN, MAP_LOAD_FACTOR_NUM in Hload. lia.
Qed.

(** Without entries nothing is searched. *)
Lemma models_empty m M : models m M → m_len m = 0 → M = ∅.
Proof. intros Hm Hl. apply map_size_empty_iff. rewrite <-(mo_size _ _ Hm). pose proof (mo_len _ _ Hm). lia. Qed.

Lemma map_core_get_spec m M key : models m M → loaded m →
  map_core_get m key = Ret (M !! key_value key).
Proof.
  intros Hm Hload. unfold map_core_get. destruct (Z.eqb_spec (m_len m) 0) as [Hz|Hnz].
  { by rewrite (models_empty _ _ Hm Hz), lookup_empty. }
  destruct (find_models m M key Hm (not_full _ _ Hm Hload)) as (s & found & -> & _ & Hf & Hn).
  cbn [mbind outcome_bind fst snd]. destruct found.
  - destruct (Hf eq_refl) as (v & Hv & ->). by rewrite (arr_get_ok _ _ _ Hv).
  - by rewrite Hn.
Qed.

Lemma map_core_has_spec m M key : models m M → loaded m →
  map_core_has m key = Ret (bool_decide (is_Some (M !! key_value key))).
Proof.
  intros Hm Hload. unfold map_core_has. destruct (Z.eqb_spec (m_len m) 0) as [Hz|Hnz].
  { by rewrite (models_empty _ _ Hm Hz), lookup_empty. }
  destruct (find_models m M key Hm (not_full _ _ Hm Hload)) as (s & found & -> & _ & Hf & Hn).
  cbn [mbind outcome_bind fst snd]. destruct found.
  - by destruct (Hf eq_refl) as (v & Hv & ->).
  - by rewrite Hn.
Qed.

Lemma bury_models m M key s k t : models m M → occupied (m_table m) s k → key_value k = key_value key →
  table_ok t → cap t = cap (m_table m) → (∀ s' k', occupied t s' k' ↔ s' ≠ s ∧ occupied (m_table m) s' k') →
  count (m_table m) = S (count t) →
  models (m <| m_table := t |> <| m_len := to_uint64 (m_len m - 1) |>) (delete (key_value key) M).
Proof.
  intros Hm Hs Heq Hok Hcap Hocc Hcount. destruct (models_len _ _ Hm) as [Hl Hpos].
  destruct (holds_value _ _ _ _ Hm Hs) as (v0 & Hv0 & HM0). rewrite Heq in HM0.
  assert (Hlen : to_uint64 (m_len m - 1) = Z.of_nat (count t)).
  { rewrite (mo_len _ _ Hm), Hcount. unfold to_uint64. rewrite Z.mod_small; [lia|].
    pose proof (mo_len _ _ Hm). lia. }
  split; simpl; [done|by rewrite (mo_values _ _ Hm), Hcap|done| |].
  - pose proof (mo_size _ _ Hm). rewrite map_size_delete_Some by eauto. lia.
  - intros c v. rewrite lookup_delete_Some, (mo_entries _ _ Hm). unfold holds. simpl. split.
    + intros [Hne (k' & (s' & Hs' & Hv') & <-)]. exists k'. split; [|done]. exists s'.
      split; [|done]. apply Hocc. split; [|done]. intros ->. destruct Hs as [_ Hk], Hs' as [_ Hk'].
      apply Hne. congruence.
    + intros (k' & (s' & [Hne Hs']%Hocc & Hv') & <-). split; [|by exists k'; split; [exists s'|]].
      intros Hkk. apply Hne. apply (ok_unique _ (mo_table _ _ Hm) _ _ _ _ Hs' Hs). congruence.
Qed.

Lemma map_core_remove_spec m M key : models m M → loaded m →
  ∃ m', map_core_remove m key = Ret (m', bool_decide (is_Some (M !! key_value key))) ∧
    models m' (delete (key_value key) M) ∧ loaded m' ∧
    cap (m_table m') = cap (m_table m) ∧ m_len m' ≤ m_len m.
Proof.
  intros Hm Hload. unfold map_core_remove. destruct (Z.eqb_spec (m_len m) 0) as [Hz|Hnz].
  { exists m. pose proof (models_empty _ _ Hm Hz) as ->. by rewrite lookup_empty, delete_empty. }
  destruct (find_models m M key Hm (not_full _ _ Hm Hload)) as (s & found & -> & Hres & Hf & Hn).
  cbn [mbind outcome_bind fst snd]. destruct found.
  - destruct Hres as (Hs & k & Hk & Heq). destruct (Hf eq_refl) as (v & Hv & ->).
    destruct (bury_spec _ _ _ (mo_table _ _ Hm) Hk) as (t & -> & Hok & Hcap & Hocc & Hcount).
    cbn [mbind outcome_bind]. eexists. split; [reflexivity|].
    pose proof (bury_models m M key s k t Hm Hk Heq Hok Hcap Hocc Hcount) as Hm'.
    pose proof (mo_len _ _ Hm'). pose proof (mo_len _ _ Hm). simpl in *.
    unfold loaded in *. simpl. unfold MAP_LOAD_FACTOR_DEN, MAP_LOAD_FACTOR_NUM in *.
    split_and!; [done|lia|done|lia].
  - exists m. rewrite (Hn eq_refl), delete_id by by apply Hn. done.
Qed.

Lemma map_core_clear_spec m M : models m M → models (map_core_clear m) ∅ ∧ loaded (map_core_clear m).
Proof.
  intros Hm. destruct (models_len _ _ Hm) as [_ Hpos]. pose proof (mo_table _ _ Hm) as Hok.
  assert (Hno : ∀ s k, ¬ occupied (m_table (map_core_clear m)) s k).
  { intros s k [Hst _]. simpl in Hst. by apply lookup_replicate in Hst as [? _]. }
  assert (Hcount : count (m_table (map_core_clear m)) = 0%nat).
  { unfold count. simpl. induction (length (states (m_table m))) as [|n IH]; [done|].
    rewrite replicate_S, filter_cons_False; [exact IH|done]. }
  split; [|unfold loaded, MAP_LOAD_FACTOR_DEN, MAP_LOAD_FACTOR_NUM; simpl; lia].
  destruct (Hok) as [H1 H2 H3 H4 _ _ _ _]. split.
  - split; simpl; [done|by rewrite length_replicate|done..| | | |]; try (intros; by edestruct Hno).
    intros s st [-> _]%lookup_replicate. auto.
  - apply (mo_values _ _ Hm).
  - by rewrite Hcount.
  - by rewrite Hcount, map_size_empty.
  - intros c v. rewrite lookup_empty. split; [done|]. intros (k & (s & Hs & _) & _). by destruct (Hno s k).
Qed.

(** ** Keys and values *)

(** The occupied slots from [i] on. *)
Definition slots (m : header) (i n : nat) : list nat :=
  filter (λ s, states (m_table m) !! s = Some STATE_OCCUPIED) (seq i n).

Lemma slots_count m i l pre : states (m_table m) = pre ++ l → i = length pre →
  length (slots m i (length l)) = length (filter (λ st, st = STATE_OCCUPIED) l).
Proof.
  unfold slots. revert i pre. induction l as [|st l IH]; intros i pre Heq ->; [done|].
  cbn [length seq]. rewrite filter_cons, count_cons.
  assert (Hst : states (m_table m) !! length pre = Some st).
  { rewrite Heq, lookup_app_r, Nat.sub_diag by lia. done. }
  specialize (IH (S (length pre)) (pre ++ [st])). rewrite <-app_assoc in IH. specialize (IH Heq).
  rewrite length_app, Nat.add_1_r in IH. specialize (IH eq_refl). unfold weight.
  destruct (decide (st = STATE_OCCUPIED)) as [->|Hne].
  - rewrite decide_True, bool_decide_true by done. cbn [length]. by rewrite IH.
  - rewrite decide_False, bool_decide_false by congruence. exact IH.
Qed.

Lemma collect_spec {A} (l : list A) m M : models m M → length l = Z.to_nat (cap (m_table m)) →
  ∀ fuel i arr, (fuel + i = Z.to_nat (cap (m_table m)))%nat →
  Z.of_nat (length arr + length (slots m i fuel)) = m_len m →
  collect l m fuel (Z.of_nat i) arr = Ret (arr ++ omap (λ s, l !! s) (slots m i fuel)).
Proof.
  intros Hm Hl. induction fuel as [|fuel IH]; intros i arr Hi Hlen; cbn [collect].
  - by rewrite app_nil_r.
  - destruct (ok_lookup (m_table m) i (mo_table _ _ Hm)) as (st & _ & _ & Est & _); [lia|].
    rewrite (arr_get_ok _ _ _ Est). cbn [mbind outcome_bind].
    replace (Z.of_nat i + 1) with (Z.of_nat (S i)) by lia.
    unfold slots in Hlen |- *. cbn [seq] in Hlen |- *. rewrite filter_cons in Hlen |- *.
    destruct (Z.eqb_spec st STATE_OCCUPIED) as [->|Hne].
    + rewrite decide_True in Hlen |- * by done. cbn [length] in Hlen.
      destruct (lookup_lt_is_Some_2 l i) as [a Ha]; [lia|].
      rewrite (arr_get_ok _ _ _ Ha). cbn [mbind outcome_bind omap list_omap]. rewrite Ha.
      rewrite (proj2 (Z.ltb_lt _ _)) by lia. rewrite IH; [by rewrite <-app_assoc|lia|].
      rewrite length_app. cbn [length]. unfold slots. lia.
    + rewrite decide_False in Hlen |- * by congruence. apply IH; [lia|done].
Qed.

Lemma slots_models m M s : models m M → s ∈ slots m 0 (Z.to_nat (cap (m_table m))) →
  ∃ k v, occupied (m_table m) s k ∧ m_values m !! s = Some v ∧ M !! key_value k = Some v.
Proof.
  intros Hm [Hst Hin]%list_elem_of_filter. apply elem_of_seq in Hin.
  destruct (ok_lookup (m_table m) s (mo_table _ _ Hm)) as (st & k & h & _ & Ek & _); [lia|].
  assert (Hs : occupied (m_table m) s k) by done. destruct (holds_value _ _ _ _ Hm Hs) as (v & ? & ?).
  by exists k, v.
Qed.

(** The keys and the values of the slots, side by side. *)
Lemma zip_slots m M l : models m M → (∀ s, s ∈ l → s ∈ slots m 0 (Z.to_nat (cap (m_table m)))) →
  zip (key_value <$> omap (λ s, keys (m_table m) !! s) l) (omap (λ s, m_values m !! s) l) =
  omap (λ s, k ← keys (m_table m) !! s; v ← m_values m !! s; Some (key_value k, v)) l.
Proof.
  intros Hm. induction l as [|s l IH]; intros Hin; [done|].
  destruct (slots_models m M s Hm) as (k & v & [_ Hk] & Hv & _); [apply Hin, list_elem_of_here|].
  cbn [omap list_omap]. rewrite Hk, Hv. cbn. f_equal. apply IH. intros s' Hs'.
  by apply Hin, list_elem_of_further.
Qed.

Lemma entries_permutation m M : models m M →
  omap (λ s, k ← keys (m_table m) !! s; v ← m_values m !! s; Some (key_value k, v))
    (slots m 0 (Z.to_nat (cap (m_table m)))) ≡ₚ map_to_list M.
Proof.
  intros Hm. apply NoDup_Permutation; [|apply NoDup_map_to_list|].
  - apply NoDup_omap_inj; [|apply NoDup_filter, NoDup_seq].
    intros s1 s2 [c v] H1 H2 E1 E2.
    destruct (slots_models _ _ _ Hm H1) as (k1 & v1 & Hk1 & Hv1 & _).
    destruct (slots_models _ _ _ Hm H2) as (k2 & v2 & Hk2 & Hv2 & _).
    apply (ok_unique _ (mo_table _ _ Hm) _ _ _ _ Hk1 Hk2).
    destruct Hk1 as [_ Hk1], Hk2 as [_ Hk2]. rewrite Hk1, Hv1 in E1. rewrite Hk2, Hv2 in E2. simpl in *.
    congruence.
  - intros [c v]. rewrite elem_of_map_to_list, (mo_entries _ _ Hm), list_elem_of_omap. split.
    + intros (s & Hs & E). destruct (slots_models _ _ _ Hm Hs) as (k & v' & Hk & Hv & _).
      destruct (Hk) as [_ Hk']. rewrite Hk', Hv in E. simpl in E. injection E as <- <-.
      exists k. split; [by exists s|done].
    + intros (k & (s & Hk & Hv) & <-). exists s. destruct (Hk) as [Hst Hk']. split.
      * apply list_elem_of_filter. split; [done|]. apply elem_of_seq. split; [lia|].
        rewrite <-(mo_values _ _ Hm). by eapply lookup_lt_Some.
      * by rewrite Hk', Hv.
Qed.

(** [keys] and [values] write exactly the memory they allocate, and list the entries in one
    order. *)
Lemma keys_values_spec m M : models m M → ∃ ks vs,
  lucis_map_keys m = Ret ks ∧ lucis_map_values m = Ret vs ∧
  zip (key_value <$> ks) vs ≡ₚ map_to_list M.
Proof.
  intros Hm. pose proof (mo_table _ _ Hm) as Hok.
  assert (Hlen : Z.of_nat (length (slots m 0 (Z.to_nat (cap (m_table m))))) = m_len m).
  { rewrite (mo_len _ _ Hm), <-(ok_len_states _ Hok). f_equal. by apply (slots_count m 0 _ []). }
  exists (omap (λ s, keys (m_table m) !! s) (slots m 0 (Z.to_nat (cap (m_table m))))),
    (omap (λ s, m_values m !! s) (slots m 0 (Z.to_nat (cap (m_table m))))). split_and!.
  - apply (collect_spec (keys (m_table m)) m M Hm (ok_len_keys _ Hok) _ 0%nat []); [lia|done].
  - apply (collect_spec (m_values m) m M Hm (mo_values _ _ Hm) _ 0%nat []); [lia|done].
  - rewrite (zip_slots m M) by done. by apply entries_permutation.
Qed.

(** ** Programs that use a map *)

Inductive map_op :=
| OSet (k : K) (v : V)
| OGet (k : K)
| OGetOrDefault (k : K) (def : V)
| OHas (k : K)
| ORemove (k : K)
| OClear
| OLen
| OIsEmpty
| OKeysValues.

(** What an operation answers; the entries are the keys and values of one listing. *)
Inductive map_reply :=
| RUnit
| RVal (v : V)
| RPanic
| RBool (b : bool)
| RNum (n : Z)
| REntries (l : list (C * V)).

Definition map_step (m : header) (o : map_op) : outcome (header * map_reply) :=
  match o with
  | OSet k v => m' ← map_core_set m k v; Ret (m', RUnit)
  | OGet k => r ← map_core_get m k; Ret (m, match r with Some v => RVal v | None => RPanic end)
  | OGetOrDefault k def => v ← lucis_map_getOrDefault m k def; Ret (m, RVal v)
  | OHas k => b ← map_core_has m k; Ret (m, RBool b)
  | ORemove k => r ← map_core_remove m k; Ret (r.1, RBool r.2)
  | OClear => Ret (map_core_clear m, RUnit)
  | OLen => Ret (m, RNum (lucis_map_len m))
  | OIsEmpty => Ret (m, RBool (lucis_map_isEmpty m))
  | OKeysValues => ks ← lucis_map_keys m; vs ← lucis_map_values m; Ret (m, REntries (zip (key_value <$> ks) vs))
  end.

(** The operations one after the other; a panic ends the program. *)
Fixpoint map_run (m : header) (l : list map_op) : outcome (header * list map_reply) :=
  match l with
  | [] => Ret (m, [])
  | o :: l =>
      r ← map_step m o;
      match r.2 with
      | RPanic => Ret (r.1, [RPanic])
      | reply => rest ← map_run r.1 l; Ret (rest.1, reply :: rest.2)
      end
  end.

(** The same on finite maps; a listing may be in any order. *)
Inductive spec_step (M : gmap C V) : map_op → gmap C V → map_reply → Prop :=
| spec_set k v : spec_step M (OSet k v) (<[key_value k := v]> M) RUnit
| spec_get k : spec_step M (OGet k) M (match M !! key_value k with Some v => RVal v | None => RPanic end)
| spec_getOrDefault k def : spec_step M (OGetOrDefault k def) M (RVal (default def (M !! key_value k)))
| spec_has k : spec_step M (OHas k) M (RBool (bool_decide (is_Some (M !! key_value k))))
| spec_remove k :
    spec_step M (ORemove k) (delete (key_value k) M) (RBool (bool_decide (is_Some (M !! key_value k))))
| spec_clear : spec_step M OClear ∅ RUnit
| spec_len : spec_step M OLen M (RNum (Z.of_nat (size M)))
| spec_isEmpty : spec_step M OIsEmpty M (RBool (bool_decide (M = ∅)))
| spec_entries l : l ≡ₚ map_to_list M → spec_step M OKeysValues M (REntries l).

Inductive spec_run : gmap C V → list map_op → gmap C V → list map_reply → Prop :=
| spec_nil M : spec_run M [] M []
| spec_panic M o l M' : spec_step M o M' RPanic → spec_run M (o :: l) M' [RPanic]
| spec_cons M o l M' r M'' rs : spec_step M o M' r → r ≠ RPanic → spec_run M' l M'' rs →
    spec_run M (o :: l) M'' (r :: rs).

(** A map after [n] operations. *)
Record after_ops (n : Z) (m : header) (M : gmap C V) : Prop := {
  ao_models : models m M;
  ao_loaded : loaded m;
  ao_cap : cap (m_table m) * 3 ≤ Z.max 48 (n * 8);
  ao_len : m_len m ≤ n }.

Lemma after_ops_mono n m M : after_ops n m M → after_ops (n + 1) m M.
Proof. intros []. split; [done|done|lia|lia]. Qed.

Lemma map_step_spec n m M o : 0 ≤ n < 2 ^ 57 → after_ops n m M → ∃ m' M' r,
  map_step m o = Ret (m', r) ∧ spec_step M o M' r ∧ after_ops (n + 1) m' M'.
Proof.
  intros Hn Ha. pose proof (after_ops_mono _ _ _ Ha) as Hmono. destruct (Ha) as [Hm Hload Hcap Hlen].
  pose proof (mo_len _ _ Hm) as Hcount. destruct o; cbn [map_step].
  - destruct (map_core_set_spec m M k v Hm Hload) as (m' & -> & Hm' & Hload' & Hcap' & Hlen'); [lia|].
    eexists _, _, _. split_and!; [reflexivity|constructor|]. split; [done|done|lia|lia].
  - rewrite (map_core_get_spec m M k Hm Hload). eexists _, _, _. split_and!; [reflexivity|constructor|done].
  - unfold lucis_map_getOrDefault. rewrite (map_core_get_spec m M k Hm Hload).
    eexists _, _, _. split_and!; [reflexivity|constructor|done].
  - rewrite (map_core_has_spec m M k Hm Hload). eexists _, _, _. split_and!; [reflexivity|constructor|done].
  - destruct (map_core_remove_spec m M k Hm Hload) as (m' & -> & Hm' & Hload' & Hcap' & Hlen').
    cbn [mbind outcome_bind fst snd]. eexists _, _, _. split_and!; [reflexivity|constructor|]. split; [done|done|lia|lia].
  - destruct (map_core_clear_spec m M Hm) as [Hm' Hload'].
    eexists _, _, _. split_and!; [reflexivity|constructor|]. split; [done|done|simpl; lia|simpl; lia].
  - eexists _, _, _. split_and!; [reflexivity| |exact Hmono]. unfold lucis_map_len.
    rewrite Hcount, (mo_size _ _ Hm). constructor.
  - eexists _, _, _. split_and!; [reflexivity| |exact Hmono]. unfold lucis_map_isEmpty.
    assert ((m_len m =? 0) = bool_decide (M = ∅)) as ->; [|constructor].
    pose proof (mo_size _ _ Hm) as Hs. case_bool_decide as HM.
    + subst. rewrite map_size_empty in Hs. by rewrite Hcount, Hs.
    + apply Z.eqb_neq. intros Hz. by apply HM, (models_empty m).
  - destruct (keys_values_spec m M Hm) as (ks & vs & -> & -> & Hperm).
    eexists _, _, _. split_and!; [reflexivity|by constructor|done].
Qed.

Lemma map_run_spec l : ∀ n m M, 0 ≤ n → n + Z.of_nat (length l) < 2 ^ 57 → after_ops n m M →
  ∃ m' M' rs, map_run m l = Ret (m', rs) ∧ spec_run M l M' rs ∧ models m' M'.
Proof.
  induction l as [|o l IH]; intros n m M Hn Hlen Ha; cbn [map_run].
  - exists m, M, []. split_and!; [done|constructor|apply Ha].
  - cbn [length] in Hlen. destruct (map_step_spec n m M o) as (m1 & M1 & r & -> & Hs & Ha1); [lia|done|].
    cbn [mbind outcome_bind fst snd].
    destruct (IH (n + 1) m1 M1) as (m2 & M2 & rs & E2 & Hr2 & Hm2); [lia|lia|done|].
    destruct r; try (rewrite E2; cbn [mbind outcome_bind fst snd];
      (eexists _, _, _; split_and!; [reflexivity|by eapply spec_cons|done])).
    eexists _, _, _. split_and!; [reflexivity|by eapply spec_panic|apply Ha1].
Qed.

(** C26: The hash map implements a finite map.  Any program of fewer than 2^57 operations on
    a new map (sets, gets, removals, clears, tests, listings of keys and values) behaves as
    the same program on a finite map: every answer is the finite map's, a get of a missing
    key and nothing else panics, every access is inside its array, whatever the order of
    the operations, the collisions of the hashes, and the number of tombstones.  Keys may be
    of any type whose hash respects its equality. *)
Theorem map_refines l : Z.of_nat (length l) < 2 ^ 57 → ∃ m M rs,
  map_run map_core_init l = Ret (m, rs) ∧ spec_run ∅ l M rs ∧ models m M.
Proof.
  intros Hl. apply (map_run_spec l 0); [lia|done|].
  assert (Hsize : size_ok MAP_INITIAL_CAP) by by exists 4.
  split; [by apply fresh_models|done|done|done].
Qed.
End map.

(** Keys that collide, a removal before one that was pushed along, and a growth. *)
Definition map_program : list (map_op (K := Z) (V := string)) :=
  ((λ i, OSet i "v") <$> seqZ 0 13) ++ [ORemove 3; OSet 3 "w"; OGet 3; OLen; OGet 99; OLen].

Lemma map_refines_witness : ∃ m M rs,
  map_run (C := Z) (H0 := key_i32) 0 "" (map_core_init 0 "") map_program = Ret (m, rs) ∧
  spec_run (H0 := key_i32) ∅ map_program M rs ∧ models (H0 := key_i32) m M ∧
  drop 13 rs = [RBool true; RUnit; RVal "w"; RNum 13; RPanic].
Proof.
  destruct (map_refines (H0 := key_i32) 0 "" map_program) as (m & M & rs & E & Hs & Hm);
    [vm_compute; reflexivity|].
  exists m, M, rs. split_and!; [exact E|exact Hs|exact Hm|].
  vm_compute in E. injection E as _ <-. reflexivity.
Defined.

(** A table of tombstones only, by adding and removing one number after the other: the hash
    of a 64-bit number is the number. *)
Example tombstones_only :
  match map_run (C := Z) (H0 := key_i64) 0 "" (map_core_init 0 "")
      (i ← seqZ 0 16; [OSet i "v"; ORemove i]) with
  | Ret (m, _) => states (m_table m) = replicate 16 STATE_TOMBSTONE ∧ m_len m = 0
  | _ => False
  end.
Proof. vm_compute. done. Qed.
