(* ===== verification/RtSet.v ===== *)
(** * The hash set of the run-time library

    [builtins/collections/set.c]: the core operations, those of numbers and those of strings.
    The core is the map's without values, which the proofs use: a set is a map to [unit].
    A string handed to the set is owned by it; [freed] are the addresses an operation frees. *)

From S2P Require Import Prelude.
From S2P Require Import CxxLib.
From S2P Require Import RtHash.
From S2P Require Import RtTable.
From S2P Require Import RtMap.
Local Open Scope Z_scope.

Record lucis_set_header (K : Type) := {
  s_table : HashTable K;
  s_len : Z }.
Arguments s_table {_}. Arguments s_len {_}.

#[export] Instance settable_set_header K : Settable (lucis_set_header K) := λ s,
  Build_lucis_set_header K (s_table s) (s_len s).

Definition SET_INITIAL_CAP : Z := 16.
Definition SET_LOAD_FACTOR_NUM : Z := 3.
Definition SET_LOAD_FACTOR_DEN : Z := 4.

Section set.
Context {K C : Type} `{Countable C} `{HashKey K C} (zeroK : K).
Notation header := (lucis_set_header K).

(** ** Core operations *)

Definition set_core_init : header := {| s_table := newTable zeroK SET_INITIAL_CAP; s_len := 0 |}.

Definition set_core_clear (s : header) : header :=
  s <| s_table := (s_table s) <| states := replicate (length (states (s_table s))) STATE_EMPTY |> |>
    <| s_len := 0 |>.

Definition set_core_find (s : header) (key : K) (hash : Z) : outcome (Z * bool) :=
  core_find (s_table s) key hash.

(** A new element in a slot. *)
Definition set_place (s : header) (slot h : Z) (key : K) : outcome header :=
  t ← occupy (s_table s) slot h key; Ret (s <| s_table := t |> <| s_len := to_uint64 (s_len s + 1) |>).

Fixpoint set_growLoop (old : header) (fuel : nat) (i : Z) (s : header) : outcome header :=
  match fuel with
  | O => Ret s
  | S fuel =>
      state ← arr_get (states (s_table old)) i;
      s ← (if state =? STATE_OCCUPIED then
             k ← arr_get (keys (s_table old)) i;
             h ← arr_get (hashes (s_table old)) i;
             r ← set_core_find s k h;
             set_place s r.1 h k
           else Ret s);
      set_growLoop old fuel (i + 1) s
  end.

Definition set_core_grow (s : header) : outcome header :=
  let new_cap := to_uint64 (cap (s_table s) * 2) in
  set_growLoop s (Z.to_nat (cap (s_table s))) 0 {| s_table := newTable zeroK new_cap; s_len := 0 |}.

Definition set_mustGrow (s : header) : bool :=
  to_uint64 (cap (s_table s) * SET_LOAD_FACTOR_NUM) <? to_uint64 ((s_len s + 1) * SET_LOAD_FACTOR_DEN).

Definition set_core_add (s : header) (key : K) : outcome (header * bool) :=
  s ← (if set_mustGrow s then set_core_grow s else Ret s);
  let h := hash_fn key in
  r ← set_core_find s key h;
  if r.2 : bool then Ret (s, false) else s ← set_place s r.1 h key; Ret (s, true).

Definition set_core_has (s : header) (key : K) : outcome bool :=
  if s_len s =? 0 then Ret false else r ← set_core_find s key (hash_fn key); Ret r.2.

Definition set_core_remove (s : header) (key : K) : outcome (header * bool) :=
  if s_len s =? 0 then Ret (s, false) else
  r ← set_core_find s key (hash_fn key);
  if r.2 : bool then
    t ← bury (s_table s) r.1; Ret (s <| s_table := t |> <| s_len := to_uint64 (s_len s - 1) |>, true)
  else Ret (s, false).

(** ** A set is a map to [unit] *)

Definition as_map (s : header) : lucis_map_header K unit :=
  {| m_table := s_table s; m_values := replicate (Z.to_nat (cap (s_table s))) (); m_len := s_len s |}.

Definition set_models (s : header) (X : gset C) : Prop := models (as_map s) (gset_to_gmap () X).

Lemma arr_set_unit n (slot : Z) vs : arr_set (replicate n ()) slot () = Ret vs → vs = replicate n ().
Proof.
  unfold arr_set. destruct (_ && _); [|done]. intros [= <-]. apply insert_replicate.
Qed.

Lemma occupy_cap (t t' : HashTable K) slot h key : occupy t slot h key = Ret t' → cap t' = cap t.
Proof.
  unfold occupy. intros E. inv_bind E. inv_bind E. inv_bind E. by injection E as <-.
Qed.

Lemma set_place_sim s slot h key m' : place (as_map s) slot h key () = Ret m' →
  ∃ s', set_place s slot h key = Ret s' ∧ m' = as_map s'.
Proof.
  unfold place, set_place. intros E. apply outcome_bind_inv in E as (t & Et & E).
  apply outcome_bind_inv in E as (vs & Ev & E). injection E as <-. simpl in *. rewrite Et.
  apply arr_set_unit in Ev as ->. apply occupy_cap in Et. eexists. split; [reflexivity|].
  unfold as_map. simpl. by rewrite Et.
Qed.

Lemma set_growLoop_sim old fuel : ∀ i s m', growLoop (as_map old) fuel i (as_map s) = Ret m' →
  ∃ s', set_growLoop old fuel i s = Ret s' ∧ m' = as_map s'.
Proof.
  induction fuel as [|fuel IH]; intros i s m' E; cbn [growLoop set_growLoop] in *.
  - injection E as <-. by exists s.
  - apply outcome_bind_inv in E as (st & Est & E). simpl in Est. rewrite Est.
    cbn [mbind outcome_bind]. apply outcome_bind_inv in E as (m1 & E1 & E).
    destruct (st =? STATE_OCCUPIED).
    + apply outcome_bind_inv in E1 as (k & Ek & E1). apply outcome_bind_inv in E1 as (v & _ & E1).
      apply outcome_bind_inv in E1 as (h & Eh & E1). apply outcome_bind_inv in E1 as (r & Er & E1).
      simpl in Ek, Eh, Er. destruct v. apply set_place_sim in E1 as (s1 & E1 & ->).
      rewrite Ek. cbn [mbind outcome_bind]. rewrite Eh. cbn [mbind outcome_bind].
      unfold set_core_find. rewrite Er. cbn [mbind outcome_bind]. rewrite E1. by apply IH.
    + injection E1 as <-. by apply IH.
Qed.

Lemma set_core_grow_sim s m' : map_core_grow zeroK () (as_map s) = Ret m' →
  ∃ s', set_core_grow s = Ret s' ∧ m' = as_map s'.
Proof.
  apply (set_growLoop_sim s _ 0 {| s_table := newTable zeroK (to_uint64 (cap (s_table s) * 2)); s_len := 0 |}).
Qed.

(** The set says whether the element is new by its length. *)
Lemma set_core_add_sim s key m' : map_core_set zeroK () (as_map s) key () = Ret m' →
  ∃ s' b m1, set_core_add s key = Ret (s', b) ∧ m' = as_map s' ∧
    (if mustGrow (s_len s) (cap (s_table s)) then map_core_grow zeroK () (as_map s) else Ret (as_map s)) = Ret m1 ∧
    s_len s' = if b : bool then to_uint64 (m_len m1 + 1) else m_len m1.
Proof.
  unfold map_core_set, set_core_add. intros E. apply outcome_bind_inv in E as (m1 & E1 & E).
  assert (∃ s1, (if set_mustGrow s then set_core_grow s else Ret s) = Ret s1 ∧ m1 = as_map s1)
    as (s1 & -> & ->).
  { change (set_mustGrow s) with (mustGrow (s_len s) (cap (s_table s))). simpl in E1.
    destruct (mustGrow _ _); [by apply set_core_grow_sim|]. injection E1 as <-. by exists s. }
  cbn [mbind outcome_bind]. cbv zeta in E. apply outcome_bind_inv in E as (r & Er & E). simpl in Er.
  unfold set_core_find. rewrite Er. cbn [mbind outcome_bind]. destruct (r.2).
  - apply outcome_bind_inv in E as (vs & Ev & E). injection E as <-. simpl in Ev.
    apply arr_set_unit in Ev as ->. by exists s1, false, (as_map s1).
  - apply set_place_sim in E as (s2 & E2 & ->). rewrite E2. exists s2, true, (as_map s1).
    split_and!; [done..|]. unfold set_place in E2. apply outcome_bind_inv in E2 as (t & _ & E2).
    by injection E2 as <-.
Qed.

Lemma set_core_remove_sim s key m' b : map_core_remove (as_map s) key = Ret (m', b) →
  ∃ s', set_core_remove s key = Ret (s', b) ∧ m' = as_map s'.
Proof.
  unfold map_core_remove, set_core_remove. simpl. destruct (s_len s =? 0).
  { intros [= <- <-]. by exists s. }
  intros E. apply outcome_bind_inv in E as (r & Er & E). unfold set_core_find. rewrite Er.
  cbn [mbind outcome_bind]. destruct (r.2).
  - apply outcome_bind_inv in E as (t & Et & E). injection E as <- <-. rewrite Et.
    cbn [mbind outcome_bind]. eexists. split; [reflexivity|]. unfold as_map. simpl.
    unfold bury in Et. apply outcome_bind_inv in Et as (st & _ & Et). by injection Et as <-.
  - injection E as <- <-. by exists s.
Qed.

Lemma set_core_has_sim s key : set_core_has s key = map_core_has (as_map s) key.
Proof. reflexivity. Qed.

(** ** What the operations do *)

Definition set_loaded (s : header) : Prop := loaded (as_map s).

Lemma lookup_unit (X : gset C) c : is_Some (gset_to_gmap () X !! c) ↔ c ∈ X.
Proof. rewrite <-elem_of_dom, dom_gset_to_gmap. done. Qed.

Lemma set_core_add_spec s X key : set_models s X → set_loaded s → cap (s_table s) < 2 ^ 61 →
  ∃ s', set_core_add s key = Ret (s', bool_decide (key_value key ∉ X)) ∧
    set_models s' ({[key_value key]} ∪ X) ∧ set_loaded s' ∧
    cap (s_table s') * 3 ≤ Z.max (cap (s_table s) * 3) ((s_len s + 1) * 8) ∧
    s_len s ≤ s_len s' ≤ s_len s + 1.
Proof.
  intros Hm Hload Hc.
  destruct (map_core_set_spec zeroK () (as_map s) _ key () Hm Hload Hc) as (m' & E & Hm' & Hload' & Hcap' & Hlen').
  destruct (set_core_add_sim s key m' E) as (s' & b & m1 & E' & -> & E1 & Hb).
  rewrite <-gset_to_gmap_union_singleton in Hm'.
  assert (Hl1 : m_len m1 = s_len s).
  { destruct (mustGrow _ _); [|by injection E1 as <-].
    destruct (map_core_grow_spec zeroK () (as_map s) _ Hm Hc) as (m2 & E2 & _ & _ & Hl2).
    rewrite E2 in E1. by injection E1 as <-. }
  exists s'. split; [|exact (conj Hm' (conj Hload' (conj Hcap' Hlen')))]. rewrite E'. f_equal. f_equal.
  pose proof (mo_len _ _ Hm) as L1. pose proof (mo_size _ _ Hm) as L2.
  pose proof (mo_len _ _ Hm') as L3. pose proof (mo_size _ _ Hm') as L4. cbn [as_map m_table m_len] in *.
  destruct (models_len _ _ Hm) as [Hl Hpos]. simpl in Hl, Hpos. rewrite Hl1 in Hb.
  rewrite gset_to_gmap_union_singleton in L4. symmetry. case_bool_decide as Hin.
  - rewrite map_size_insert_None in L4 by (apply eq_None_not_Some; by rewrite lookup_unit).
    destruct b; [done|]. lia.
  - rewrite map_size_insert_Some in L4 by by apply lookup_unit.
    destruct b; [|done]. unfold to_uint64 in Hb. rewrite Z.mod_small in Hb by lia. lia.
Qed.

Lemma set_core_has_spec s X key : set_models s X → set_loaded s →
  set_core_has s key = Ret (bool_decide (key_value key ∈ X)).
Proof.
  intros Hm Hload. rewrite set_core_has_sim, (map_core_has_spec _ _ _ Hm Hload).
  f_equal. apply bool_decide_ext, lookup_unit.
Qed.

Lemma set_core_remove_spec s X key : set_models s X → set_loaded s →
  ∃ s', set_core_remove s key = Ret (s', bool_decide (key_value key ∈ X)) ∧
    set_models s' (X ∖ {[key_value key]}) ∧ set_loaded s' ∧
    cap (s_table s') = cap (s_table s) ∧ s_len s' ≤ s_len s.
Proof.
  intros Hm Hload. destruct (map_core_remove_spec _ _ key Hm Hload) as (m' & E & Hm' & Hload' & Hcap & Hlen).
  apply set_core_remove_sim in E as (s' & E & ->). exists s'. unfold set_models.
  rewrite gset_to_gmap_difference_singleton. split_and!; [|done..]. rewrite E.
  f_equal. f_equal. apply bool_decide_ext, lookup_unit.
Qed.

Lemma set_core_clear_spec s X : set_models s X → set_models (set_core_clear s) ∅ ∧ set_loaded (set_core_clear s).
Proof.
  intros Hm. unfold set_models. rewrite gset_to_gmap_empty.
  exact (map_core_clear_spec (as_map s) _ Hm).
Qed.

(** ** Programs that use a set *)

Inductive set_op := SAdd (k : K) | SHas (k : K) | SRemove (k : K) | SClear | SLen.
Inductive set_reply := SBool (b : bool) | SNum (n : Z) | SUnit.

Definition set_step (s : header) (o : set_op) : outcome (header * set_reply) :=
  match o with
  | SAdd k => r ← set_core_add s k; Ret (r.1, SBool r.2)
  | SHas k => b ← set_core_has s k; Ret (s, SBool b)
  | SRemove k => r ← set_core_remove s k; Ret (r.1, SBool r.2)
  | SClear => Ret (set_core_clear s, SUnit)
  | SLen => Ret (s, SNum (s_len s))
  end.

Fixpoint set_run (s : header) (l : list set_op) : outcome (header * list set_reply) :=
  match l with
  | [] => Ret (s, [])
  | o :: l => r ← set_step s o; rest ← set_run r.1 l; Ret (rest.1, r.2 :: rest.2)
  end.

Definition set_spec (X : gset C) (o : set_op) : gset C * set_reply :=
  match o with
  | SAdd k => ({[key_value k]} ∪ X, SBool (bool_decide (key_value k ∉ X)))
  | SHas k => (X, SBool (bool_decide (key_value k ∈ X)))
  | SRemove k => (X ∖ {[key_value k]}, SBool (bool_decide (key_value k ∈ X)))
  | SClear => (∅, SUnit)
  | SLen => (X, SNum (Z.of_nat (size X)))
  end.

Fixpoint set_specs (X : gset C) (l : list set_op) : gset C * list set_reply :=
  match l with
  | [] => (X, [])
  | o :: l => let r := set_spec X o in let rest := set_specs r.1 l in (rest.1, r.2 :: rest.2)
  end.

Record after_set_ops (n : Z) (s : header) (X : gset C) : Prop := {
  as_models : set_models s X;
  as_loaded : set_loaded s;
  as_cap : cap (s_table s) * 3 ≤ Z.max 48 (n * 8);
  as_len : s_len s ≤ n }.

Lemma set_step_spec n s X o : 0 ≤ n < 2 ^ 57 → after_set_ops n s X → ∃ s',
  set_step s o = Ret (s', (set_spec X o).2) ∧ after_set_ops (n + 1) s' (set_spec X o).1.
Proof.
  intros Hn [Hm Hload Hcap Hlen]. destruct o; cbn [set_step set_spec fst snd].
  - destruct (set_core_add_spec s X k Hm Hload) as (s' & -> & Hm' & Hload' & Hcap' & Hlen'); [lia|].
    exists s'. split; [done|]. split; [done|done|lia|lia].
  - rewrite (set_core_has_spec s X k Hm Hload). exists s. split; [done|]. split; [done|done|lia|lia].
  - destruct (set_core_remove_spec s X k Hm Hload) as (s' & -> & Hm' & Hload' & Hcap' & Hlen').
    exists s'. split; [done|]. split; [done|done|lia|lia].
  - destruct (set_core_clear_spec s X Hm) as [Hm' Hload']. exists (set_core_clear s).
    split; [done|]. split; [done|done|simpl; lia|simpl; lia].
  - exists s. split; [|split; [done|done|lia|lia]]. do 2 f_equal. f_equal.
    pose proof (mo_len _ _ Hm) as L1. pose proof (mo_size _ _ Hm) as L2.
    cbn [as_map m_table m_len] in L1, L2. rewrite L1, L2. f_equal. by rewrite <-size_dom, dom_gset_to_gmap.
Qed.

Lemma set_run_spec l : ∀ n s X, 0 ≤ n → n + Z.of_nat (length l) < 2 ^ 57 → after_set_ops n s X →
  ∃ s', set_run s l = Ret (s', (set_specs X l).2) ∧ set_models s' (set_specs X l).1.
Proof.
  induction l as [|o l IH]; intros n s X Hn Hlen Ha; cbn [set_run set_specs fst snd].
  - exists s. split; [done|apply Ha].
  - cbn [length] in Hlen. destruct (set_step_spec n s X o) as (s1 & -> & Ha1); [lia|done|].
    cbn [mbind outcome_bind fst snd].
    destruct (IH (n + 1) s1 _ ltac:(lia) ltac:(lia) Ha1) as (s2 & -> & Hm2). by exists s2.
Qed.

(** C27: The hash set implements a finite set: any program of fewer than 2^57 additions,
    removals, tests and clears of a new set gives the answers of the same program on a
    finite set, with no access outside an array.  The functions for strings are not among
    these: their addition goes wrong. *)
Theorem set_refines l : Z.of_nat (length l) < 2 ^ 57 → ∃ s,
  set_run set_core_init l = Ret (s, (set_specs ∅ l).2) ∧ set_models s (set_specs ∅ l).1.
Proof.
  intros Hl. apply (set_run_spec l 0); [lia|done|].
  assert (Hsize : size_ok SET_INITIAL_CAP) by by exists 4.
  split; [|done|done|done]. unfold set_models. rewrite gset_to_gmap_empty. by apply (fresh_models zeroK ()).
Qed.
End set.

Definition set_program : list (set_op (K := Z)) :=
  (SAdd <$> seqZ 0 14) ++ [SAdd 3; SRemove 3; SHas 3; SHas 13; SLen].

Lemma set_refines_witness : ∃ s,
  set_run (C := Z) (H0 := key_i32) 0 (set_core_init 0) set_program =
    Ret (s, replicate 14 (SBool true) ++ [SBool false; SBool true; SBool false; SBool true; SNum 13]) ∧
  set_models (H0 := key_i32) s (set_specs (H0 := key_i32) ∅ set_program).1.
Proof.
  destruct (set_refines (H0 := key_i32) 0 set_program) as (s & E & Hm); [vm_compute; reflexivity|].
  exists s. split; [|exact Hm]. rewrite E. f_equal.
Defined.

(** ** Sets of strings *)

(** Addresses freed by [lucis_freeStr]. *)
Definition freed := list Z.

Definition set_str := lucis_set_header lucis_map_string.
Definition zero_str : lucis_map_string := {| ms_ptr := 0; ms_text := "" |}.

#[local] Existing Instance key_str.

(** The slot is looked for before the table grows. *)
Definition lucis_set_add_str (s : set_str) (elem : lucis_map_string) : outcome (set_str * bool * freed) :=
  let h := hash_key_str elem in
  r ← set_core_find s elem h;
  if r.2 : bool then
    stored ← arr_get (keys (s_table s)) r.1;
    Ret (s, false, if ms_ptr stored =? ms_ptr elem then [] else [ms_ptr elem])
  else
    s ← (if set_mustGrow s then set_core_grow zero_str s else Ret s);
    s ← set_place s r.1 h elem; Ret (s, true, []).

Definition lucis_set_has_str (s : set_str) (elem : lucis_map_string) : outcome bool := set_core_has s elem.

Definition lucis_set_remove_str (s : set_str) (elem : lucis_map_string) : outcome (set_str * bool * freed) :=
  if s_len s =? 0 then Ret (s, false, []) else
  r ← set_core_find s elem (hash_key_str elem);
  if r.2 : bool then
    stored ← arr_get (keys (s_table s)) r.1;
    t ← bury (s_table s) r.1;
    Ret (s <| s_table := t |> <| s_len := to_uint64 (s_len s - 1) |>, true, [ms_ptr stored])
  else Ret (s, false, []).

(** ** Programs with sets of strings *)

Inductive str_op := TAdd (t : string) | TRemove (t : string) | THas (t : string).

(** The [i]-th operation has its text at address [i]; answers, and the addresses freed. *)
Fixpoint str_run (i : Z) (s : set_str) (l : list str_op) : outcome (set_str * list bool * freed) :=
  match l with
  | [] => Ret (s, [], [])
  | o :: l =>
      r ← match o with
          | TAdd t => lucis_set_add_str s {| ms_ptr := i; ms_text := t |}
          | TRemove t => lucis_set_remove_str s {| ms_ptr := i; ms_text := t |}
          | THas t => b ← lucis_set_has_str s {| ms_ptr := i; ms_text := t |}; Ret (s, b, [])
          end;
      rest ← str_run (i + 1) r.1.1 l;
      Ret (rest.1.1, r.1.2 :: rest.1.2, r.2 ++ rest.2)
  end.

Definition letters : list string := ["a"; "b"; "c"; "d"; "e"; "f"; "g"; "h"; "i"; "j"; "k"; "l"; "m"].

(** What the last operations answer, and the length at the end. *)
Definition str_answers (n : nat) (l : list str_op) : outcome (list bool * Z) :=
  r ← str_run 1 (set_core_init zero_str) l; Ret (drop n r.1.2, s_len r.1.1).

Lemma str_grow s X : set_models s X → cap (s_table s) < 2 ^ 61 →
  ∃ s1, set_core_grow zero_str s = Ret s1 ∧ set_models s1 X ∧ cap (s_table s1) = cap (s_table s) * 2 ∧ s_len s1 = s_len s.
Proof.
  intros Hm Hc. destruct (map_core_grow_spec zero_str () (as_map s) _ Hm Hc) as (m & E & Hm' & Hcap & Hlen).
  apply set_core_grow_sim in E as (s1 & E & ->). by exists s1.
Qed.

(** C28: Adding a new string to a set of strings that has to grow puts it in the slot [i] that was
    found before, whatever the grown table has there.  The addition reports success and counts
    the string, but the string is found afterwards only if a search for it in the grown table
    comes to [i], that is if none of the slots before is empty; and a string [y] that the growth
    has put into [i] is no longer found, although nothing removed it. *)
Theorem lucis_set_add_str_loses s X elem : set_models s X → set_loaded s → cap (s_table s) < 2 ^ 61 →
  set_mustGrow s = true → ms_text elem ∉ X →
  ∃ i s1 s2, set_core_find s elem (hash_key_str elem) = Ret (Z.of_nat i, false) ∧
    set_core_grow zero_str s = Ret s1 ∧ set_models s1 X ∧
    lucis_set_add_str s elem = Ret (s2, true, []) ∧ s_len s2 = s_len s + 1 ∧
    (∃ b, lucis_set_has_str s2 elem = Ret b ∧ (b = true ↔ reaches (s_table s1) (hash_key_str elem) i)) ∧
    (∀ y, occupied (s_table s1) i y → ms_text y ∈ X ∧ lucis_set_has_str s2 y = Ret false).
Proof.
  intros Hm Hload Hc Hgrow Hnew.
  assert (Hnone : ∀ t, set_models t X → ∀ s' k, occupied (s_table t) s' k → key_value k ≠ key_value elem).
  { intros t Ht s' k Hk Heq. destruct (holds_value (as_map t) _ s' k Ht Hk) as (v & _ & Hv).
    apply Hnew. change (ms_text elem) with (key_value elem). rewrite <-Heq. by apply lookup_unit. }
  destruct (find_models (as_map s) _ elem Hm (not_full _ _ Hm Hload)) as (i & found & Ef & Hres & Hfound & _).
  assert (found = false) as ->.
  { destruct found; [|done]. destruct Hres as (_ & k & Hk & Heq). by destruct (Hnone s Hm _ _ Hk). }
  destruct (str_grow s X Hm Hc) as (s1 & Eg & Hm1 & Hcap1 & Hlen1).
  pose proof (models_len _ _ Hm) as [Hl Hpos]. cbn [as_map m_table m_len] in Ef, Hres, Hl, Hpos.
  assert (Hi : (i < Z.to_nat (cap (s_table s1)))%nat) by (destruct Hres as [Hi _]; simpl in Hi; lia).
  destruct (occupy_anywhere (s_table s1) i elem (mo_table _ _ Hm1) Hi (Hnone s1 Hm1)) as (t & Et & Hshape & Hcap2 & Hocc & Hreach).
  set (s2 := s1 <| s_table := t |> <| s_len := to_uint64 (s_len s1 + 1) |>).
  assert (Hlen2 : s_len s2 = s_len s + 1) by (subst s2; simpl; rewrite Hlen1; apply Z.mod_small; lia).
  assert (Hhas : ∀ y, ∃ b, lucis_set_has_str s2 y = Ret b ∧
    (b = true ↔ ∃ s' k, occupied t s' k ∧ key_value k = key_value y ∧ reaches t (hash_key_str y) s')).
  { intros y. unfold lucis_set_has_str, set_core_has. rewrite Hlen2, (proj2 (Z.eqb_neq _ _)) by lia.
    destruct (core_find_shape t y Hshape) as (r & b & E & Hb). exists b. split; [|exact Hb].
    unfold set_core_find. change (s_table s2) with t. by rewrite E. }
  exists i, s1, s2. split_and!; [exact Ef|exact Eg|exact Hm1| |exact Hlen2| |].
  - unfold lucis_set_add_str. change (hash_key_str elem) with (hash_fn elem). unfold set_core_find. rewrite Ef.
    cbn [mbind outcome_bind fst snd]. rewrite Hgrow, Eg. cbn [mbind outcome_bind].
    unfold set_place. rewrite Et. reflexivity.
  - destruct (Hhas elem) as (b & Eb & Hb). exists b. split; [exact Eb|]. rewrite Hb, <-Hreach. split.
    + intros (s' & k & [[-> _]|[_ Hk]]%Hocc & Heq & Hr); [exact Hr|]. by destruct (Hnone s1 Hm1 _ _ Hk).
    + intros Hr. exists i, elem. split; [|done]. apply Hocc. by left.
  - intros y Hy. destruct (holds_value (as_map s1) _ i y Hm1 Hy) as (v & _ & Hv).
    split; [by apply lookup_unit|]. destruct (Hhas y) as (b & -> & Hb). f_equal.
    destruct b; [|done]. destruct (proj1 Hb eq_refl) as (s' & k & [[-> ->]|[Hne Hk]]%Hocc & Heq & _).
    + by destruct (Hnone s1 Hm1 i y Hy).
    + by destruct Hne; apply (ok_unique _ (mo_table _ _ Hm1) _ _ _ _ Hk Hy).
Qed.

(** The set of twelve letters, which has to grow. *)
Definition twelve : list (set_op (K := lucis_map_string)) :=
  (λ t, SAdd {| ms_ptr := 0; ms_text := t |}) <$> take 12 letters.

Definition letterM : lucis_map_string := {| ms_ptr := 13; ms_text := "m" |}.

Lemma lucis_set_add_str_loses_witness : ∃ s rs X i s1 s2,
  set_run zero_str (set_core_init zero_str) twelve = Ret (s, rs) ∧
  set_core_find s letterM (hash_key_str letterM) = Ret (Z.of_nat i, false) ∧
  set_core_grow zero_str s = Ret s1 ∧ set_models s1 X ∧
  lucis_set_add_str s letterM = Ret (s2, true, []) ∧ s_len s2 = 13 ∧
  lucis_set_has_str s2 letterM = Ret false ∧ ¬ reaches (s_table s1) (hash_key_str letterM) i.
Proof.
  destruct (set_run_spec zero_str twelve 0 (set_core_init zero_str) ∅) as (s & E & Hm); [lia|vm_compute; reflexivity| |].
  { assert (Hsize : size_ok SET_INITIAL_CAP) by by exists 4.
    split; [|done|done|done]. unfold set_models. rewrite gset_to_gmap_empty. by apply (fresh_models zero_str ()). }
  assert (Hc : match set_run zero_str (set_core_init zero_str) twelve with
    | Ret (s, _) => (s_len s =? 12) && (cap (s_table s) =? 16) && set_mustGrow s &&
        match lucis_set_has_str s letterM with Ret b => negb b | _ => false end &&
        match lucis_set_add_str s letterM with
        | Ret (s2, _, _) => match lucis_set_has_str s2 letterM with Ret b => negb b | _ => false end
        | _ => false
        end
    | _ => false
    end = true) by (vm_compute; reflexivity).
  rewrite E in Hc. rewrite !andb_true_iff, !Z.eqb_eq in Hc.
  destruct Hc as ((((Hlen & Hcap) & Hgrow) & Hnot) & Hlost).
  revert E Hm. generalize (set_specs ∅ twelve). intros [X rs] E Hm. cbn [fst snd] in E, Hm.
  assert (Hload : set_loaded s).
  { unfold set_loaded, loaded. cbn [as_map m_len m_table]. rewrite Hlen, Hcap. vm_compute. discriminate. }
  assert (Hnew : ms_text letterM ∉ X).
  { unfold lucis_set_has_str in Hnot. rewrite (set_core_has_spec s X letterM Hm Hload) in Hnot.
    by apply negb_true_iff, bool_decide_eq_false in Hnot. }
  destruct (lucis_set_add_str_loses s X letterM Hm Hload) as (i & s1 & s2 & H1 & H2 & H3 & H4 & H5 & (b & H6 & H7) & _);
    [rewrite Hcap; vm_compute; reflexivity|exact Hgrow|exact Hnew|].
  rewrite H4, H6 in Hlost. apply negb_true_iff in Hlost as ->.
  exists s, rs, X, i, s1, s2. rewrite H5, Hlen. 
  refine (conj E (conj H1 (conj H2 (conj H3 (conj H4 (conj eq_refl (conj H6 _))))))).
  intros Hr. apply H7 in Hr. discriminate Hr.
Defined.

(** The thirteenth of thirteen letters is not found after it was added, is added again as if it
    were new, and is counted twice; and where the old slot was a tombstone, the new string
    overwrites one that is there after the growth. *)
Lemma lucis_set_add_str_examples :
  str_answers 12 ((TAdd <$> letters) ++ [THas "m"; TAdd "m"; THas "a"]) = Ret ([true; false; true; true], 14) ∧
  str_answers 14 ((TAdd <$> ["e"; "al"]) ++ [TRemove "e"] ++ (TAdd <$> ["a"; "b"; "c"; "d"; "f"; "g"; "h"; "i"; "j"; "k"; "l"]) ++
    [THas "al"; TAdd "be"; THas "be"; THas "al"]) = Ret ([true; true; true; false], 13).
Proof. split; vm_compute; reflexivity. Qed.
