(* ===== verification/RtEncoding.v ===== *)
(** * Base64 and URL encoding

    [builtins/encoding/encoding.c].  A result is written to a buffer of the size that was
    allocated; a write behind its end is undefined.  Whether an allocation succeeds is a
    parameter [malloc] of the functions. *)

From S2P Require Import Prelude.
From S2P Require Import CxxLib.
Local Open Scope Z_scope.

Definition chr (z : Z) : ascii := ascii_of_N (Z.to_N (z mod 256)).
Definition size_of (s : string) : Z := Z.of_nat (String.length s).

(** [out[j++] = c], with [size] bytes allocated and [out] written. *)
Definition put (size : Z) (out : string) (c : ascii) : outcome string :=
  if size_of out <? size then Ret (out +:+ String c "") else Undef.

Fixpoint puts (size : Z) (out cs : string) : outcome string :=
  match cs with "" => Ret out | String c cs => out ← put size out c; puts size out cs end.

(** [out[j] = 0] *)
Definition terminate (size : Z) (out : string) : outcome string :=
  if size_of out <? size then Ret out else Undef.

Section Encoding.
(** Whether [size] bytes can be allocated. *)
Variable malloc : Z → bool.

(** [lucis_allocString(size)], with the empty result when there is no memory. *)
Definition with_buffer (size : Z) (k : outcome string) : outcome string :=
  if malloc size then k else Ret "".

(** ** Base64 *)

Definition b64_enc_table : string :=
  "ABCDEFGHIJKLMNOPQRSTUVWXYZabcdefghijklmnopqrstuvwxyz0123456789+/".

Definition b64_char (i : Z) : ascii := default "000"%char (String.get (Z.to_nat i) b64_enc_table).

(** The position of a character in the alphabet; 0 for every other. *)
Fixpoint b64_index (i : Z) (table : string) (c : ascii) : Z :=
  match table with
  | "" => 0
  | String c' table => if bool_decide (c' = c) then i else b64_index (i + 1) table c
  end.
Definition b64_dec_table (c : ascii) : Z := b64_index 0 b64_enc_table c.

Definition sextet (triple k : Z) : ascii := b64_char (Z.land (Z.shiftr triple k) 0x3F).

(** The characters of the last one or two bytes, if there are any. *)
Fixpoint b64_encode (size : Z) (out s : string) : outcome string :=
  match s with
  | String s0 (String s1 (String s2 s)) =>
      let triple := Z.lor (Z.lor (Z.shiftl (code s0) 16) (Z.shiftl (code s1) 8)) (code s2) in
      out ← puts size out (String (sextet triple 18) (String (sextet triple 12)
              (String (sextet triple 6) (String (sextet triple 0) ""))));
      b64_encode size out s
  | String s0 (String s1 "") =>
      let triple := Z.lor (Z.shiftl (code s0) 16) (Z.shiftl (code s1) 8) in
      puts size out (String (sextet triple 18) (String (sextet triple 12)
              (String (sextet triple 6) "=")))
  | String s0 "" =>
      let triple := Z.shiftl (code s0) 16 in
      puts size out (String (sextet triple 18) (String (sextet triple 12) "=="))
  | "" => Ret out
  end.

Definition lucis_base64EncodeStr (s : string) : outcome string :=
  let out_len := to_uint64 (4 * (to_uint64 (size_of s + 2) / 3)) in
  let size := to_uint64 (out_len + 1) in
  with_buffer size (out ← b64_encode size "" s; terminate size out).

Definition is_pad (s : string) (i : Z) : bool :=
  bool_decide (String.get (Z.to_nat i) s = Some "="%char).

Definition b64_padding (s : string) : Z :=
  (if (1 <=? size_of s) && is_pad s (size_of s - 1) then 1 else 0) +
  (if (2 <=? size_of s) && is_pad s (size_of s - 2) then 1 else 0).

(** [if (j < out_len) out[j++] = c] *)
Definition put_within (out_len size : Z) (out : string) (c : ascii) : outcome string :=
  if size_of out <? out_len then put size out c else Ret out.

Fixpoint b64_decode (out_len size : Z) (out s : string) : outcome string :=
  match s with
  | String s0 (String s1 (String s2 (String s3 s))) =>
      let triple := Z.lor (Z.lor (Z.lor (Z.shiftl (b64_dec_table s0) 18) (Z.shiftl (b64_dec_table s1) 12))
                             (Z.shiftl (b64_dec_table s2) 6)) (b64_dec_table s3) in
      out ← put_within out_len size out (chr (Z.land (Z.shiftr triple 16) 0xFF));
      out ← put_within out_len size out (chr (Z.land (Z.shiftr triple 8) 0xFF));
      out ← put_within out_len size out (chr (Z.land triple 0xFF));
      b64_decode out_len size out s
  | _ => Ret out
  end.

Definition lucis_base64DecodeStr (s : string) : outcome string :=
  let out_len := to_uint64 (size_of s / 4 * 3 - b64_padding s) in
  let size := to_uint64 (out_len + 1) in
  with_buffer size (out ← b64_decode out_len size "" s; terminate size out).

(** ** URL encoding *)

Definition between (a b : Z) (c : ascii) : bool := (a <=? code c) && (code c <=? b).
Definition isalnum (c : ascii) : bool := between 48 57 c || between 65 90 c || between 97 122 c.

Definition is_unreserved (c : ascii) : bool :=
  isalnum c || bool_decide (c ∈ ["-"; "_"; "."; "~"]%char).

Definition hex_upper : string := "0123456789ABCDEF".
Definition hex_digit (i : Z) : ascii := default "000"%char (String.get (Z.to_nat i) hex_upper).

Fixpoint url_encode (size : Z) (raw s : string) : outcome string :=
  match s with
  | "" => Ret raw
  | String c s =>
      raw ← (if is_unreserved c then put size raw c
             else puts size raw (String "%" (String (hex_digit (Z.shiftr (code c) 4))
                    (String (hex_digit (Z.land (code c) 0x0F)) ""))));
      url_encode size raw s
  end.

Definition lucis_urlEncode (s : string) : outcome string :=
  let size := to_uint64 (size_of s * 3 + 1) in
  with_buffer size (raw ← url_encode size "" s; raw ← terminate size raw;
                    with_buffer (to_uint64 (size_of raw + 1)) (Ret raw)).

Definition hex_val (c : ascii) : Z :=
  if between 48 57 c then code c - 48 else
  if between 65 70 c then code c - 65 + 10 else
  if between 97 102 c then code c - 97 + 10 else -1.

(** The character an escape stands for, and what follows the escape. *)
Definition url_escape (c : ascii) (s : string) : option (ascii * string) :=
  match s with
  | String h (String l rest) =>
      if bool_decide (c = "%"%char) && (0 <=? hex_val h) && (0 <=? hex_val l)
      then Some (chr (Z.lor (Z.shiftl (hex_val h) 4) (hex_val l)), rest) else None
  | _ => None
  end.

(** [fuel] is the number of characters left; every round takes at least one. *)
Fixpoint url_decode (fuel : nat) (size : Z) (out s : string) : outcome string :=
  match fuel, s with
  | S fuel, String c s =>
      match url_escape c s with
      | Some (d, rest) => out ← put size out d; url_decode fuel size out rest
      | None =>
          out ← put size out (if bool_decide (c = "+"%char) then " "%char else c);
          url_decode fuel size out s
      end
  | _, _ => Ret out
  end.

Definition lucis_urlDecode (s : string) : outcome string :=
  let size := to_uint64 (size_of s + 1) in
  with_buffer size (out ← url_decode (String.length s) size "" s; terminate size out).

End Encoding.

(** With memory for everything. *)
Definition enough (size : Z) : bool := true.

Example base64_hello : lucis_base64EncodeStr enough "Hello" = Ret "SGVsbG8=".
Proof. reflexivity. Qed.

Example url_check : lucis_urlEncode enough "a b+c" = Ret "a%20b%2Bc" ∧
  lucis_urlDecode enough "a%20b%2Bc+%4" = Ret "a b+c %4".
Proof. split; reflexivity. Qed.

(** ** Buffers *)

Lemma size_app a b : size_of (a +:+ b) = size_of a + size_of b.
Proof. unfold size_of. rewrite str_length_app. lia. Qed.

Lemma size_cons c s : size_of (String c s) = size_of s + 1.
Proof. unfold size_of. simpl. lia. Qed.

Lemma size_nonneg s : 0 ≤ size_of s.
Proof. unfold size_of. lia. Qed.

Lemma put_ok size out c : size_of out < size → put size out c = Ret (out +:+ String c "").
Proof. intros H. unfold put. by rewrite (proj2 (Z.ltb_lt _ _)). Qed.

Lemma app_snoc a c b : (a +:+ String c "") +:+ b = a +:+ String c b.
Proof. by rewrite str_app_assoc, str_app_cons, str_app_nil. Qed.

Lemma puts_ok size cs : ∀ out, size_of out + size_of cs ≤ size → puts size out cs = Ret (out +:+ cs).
Proof.
  induction cs as [|c cs IH]; intros out H; cbn [puts]; [by rewrite str_app_nil_r|].
  rewrite size_cons in H. pose proof (size_nonneg cs). rewrite put_ok by lia. cbn [mbind outcome_bind].
  rewrite IH; [by rewrite app_snoc|]. rewrite size_app, size_cons. unfold size_of at 2. simpl. lia.
Qed.

Lemma puts_app size a b : ∀ out, puts size out (a +:+ b) = (out ← puts size out a; puts size out b).
Proof.
  induction a as [|c a IH]; intros out; [by rewrite str_app_nil|]. rewrite str_app_cons. cbn [puts].
  destruct (put size out c); cbn [mbind outcome_bind]; [apply IH|done..].
Qed.

Lemma terminate_ok size out : size_of out < size → terminate size out = Ret out.
Proof. intros H. unfold terminate. by rewrite (proj2 (Z.ltb_lt _ _)). Qed.

(** ** Bytes and sextets *)

Lemma byte_range c : 0 ≤ code c < 256.
Proof. unfold code. pose proof (Stdlib.Strings.Ascii.N_ascii_bounded c). lia. Qed.

Lemma chr_code c : chr (code c) = c.
Proof.
  unfold chr. rewrite Z.mod_small by apply byte_range. unfold code.
  rewrite N2Z.id. apply Stdlib.Strings.Ascii.ascii_N_embedding.
Qed.

(** [a << k | b] when [b] has at most [k] bits. *)
Lemma lor_shiftl a b k : 0 ≤ k → 0 ≤ b < 2 ^ k → Z.lor (Z.shiftl a k) b = a * 2 ^ k + b.
Proof.
  intros Hk Hb. rewrite <-Z.shiftl_mul_pow2 by done. symmetry.
  assert (Hl : Z.land (Z.shiftl a k) b = 0).
  { apply Z.bits_inj. intros i. rewrite Z.land_spec, Z.bits_0.
    destruct (decide (i < 0)); [by rewrite Z.testbit_neg_r|].
    destruct (decide (i < k)); [by rewrite Z.shiftl_spec_low|].
    replace b with (b mod 2 ^ k) by (apply Z.mod_small; done).
    rewrite (Z.mod_pow2_bits_high b k i) by lia. apply andb_false_r. }
  rewrite Z.add_nocarry_lxor by done. by rewrite Z.lxor_lor.
Qed.

Lemma low_bits x k : 0 ≤ k → Z.land x (Z.ones k) = x mod 2 ^ k.
Proof. apply Z.land_ones. Qed.

Definition sextet_ok (i : Z) : bool :=
  (b64_dec_table (b64_char i) =? i) && negb (bool_decide (b64_char i = "="%char)).

Lemma sextet_all i : 0 ≤ i < 64 → sextet_ok i = true.
Proof.
  intros Hi. assert (H : forallb sextet_ok (seqZ 0 64) = true) by (vm_compute; reflexivity).
  rewrite forallb_forall in H. apply H, list_elem_of_In, elem_of_seqZ. lia.
Qed.

Lemma sextet_index triple k : 0 ≤ Z.land (Z.shiftr triple k) 0x3F < 64.
Proof. change 0x3F with (Z.ones 6). rewrite low_bits by lia. by apply Z.mod_pos_bound. Qed.

Lemma dec_sextet triple k : 0 ≤ k → b64_dec_table (sextet triple k) = (triple / 2 ^ k) mod 64.
Proof.
  intros Hk. pose proof (sextet_all _ (sextet_index triple k)) as H. apply andb_prop in H as [H _].
  apply Z.eqb_eq in H. unfold sextet. rewrite H. change 0x3F with (Z.ones 6).
  by rewrite low_bits, Z.shiftr_div_pow2 by lia.
Qed.

Lemma sextet_not_pad triple k : sextet triple k ≠ "="%char.
Proof.
  pose proof (sextet_all _ (sextet_index triple k)) as H. apply andb_prop in H as [_ H].
  apply negb_true_iff in H. by apply bool_decide_eq_false in H.
Qed.

(** ** Base64: what is encoded is decoded *)

Lemma string_ind3 (P : string → Prop) :
  P "" → (∀ a, P (String a "")) → (∀ a b, P (String a (String b ""))) →
  (∀ a b c s, P s → P (String a (String b (String c s)))) → ∀ s, P s.
Proof.
  intros H0 H1 H2 H3. fix IH 1. intros [|a [|b [|c s]]]; [done|apply H1|apply H2|apply H3, IH].
Qed.

(** The characters [b64_encode] writes. *)
Fixpoint b64_text (s : string) : string :=
  match s with
  | String s0 (String s1 (String s2 s)) =>
      let triple := Z.lor (Z.lor (Z.shiftl (code s0) 16) (Z.shiftl (code s1) 8)) (code s2) in
      String (sextet triple 18) (String (sextet triple 12) (String (sextet triple 6)
        (String (sextet triple 0) (b64_text s))))
  | String s0 (String s1 "") =>
      let triple := Z.lor (Z.shiftl (code s0) 16) (Z.shiftl (code s1) 8) in
      String (sextet triple 18) (String (sextet triple 12) (String (sextet triple 6) "="))
  | String s0 "" =>
      let triple := Z.shiftl (code s0) 16 in
      String (sextet triple 18) (String (sextet triple 12) "==")
  | "" => ""
  end.

Lemma b64_encode_text size s : ∀ out, b64_encode size out s = puts size out (b64_text s).
Proof.
  induction s as [|a|a b|a b c s IH] using string_ind3; intros out; [done..|].
  cbn [b64_encode b64_text]. set (t := Z.lor _ _).
  transitivity (puts size out (String (sextet t 18) (String (sextet t 12) (String (sextet t 6)
    (String (sextet t 0) "")))  +:+ b64_text s)); [|by rewrite !str_app_cons, str_app_nil].
  rewrite puts_app. destruct (puts size out _); cbn [mbind outcome_bind]; [apply IH|done..].
Qed.

Lemma b64_text_size s : size_of (b64_text s) = 4 * ((size_of s + 2) / 3).
Proof.
  induction s as [|a|a b|a b c s IH] using string_ind3; [done..|].
  cbn [b64_text]. rewrite !size_cons, IH. replace (size_of s + 1 + 1 + 1 + 2) with (size_of s + 2 + 1 * 3) by lia.
  rewrite Z.div_add by lia. lia.
Qed.

Lemma padding_cons c s : 2 ≤ size_of s → b64_padding (String c s) = b64_padding s.
Proof.
  intros H. unfold b64_padding, is_pad. rewrite !size_cons.
  do 4 (rewrite (proj2 (Z.leb_le _ _)) by lia). cbn [andb].
  assert (Hg : ∀ k, 0 < k → String.get (Z.to_nat k) (String c s) = String.get (Z.to_nat (k - 1)) s).
  { intros k Hk. replace (Z.to_nat k) with (S (Z.to_nat (k - 1))) by lia. done. }
  rewrite !Hg by lia. replace (size_of s + 1 - 1 - 1) with (size_of s - 1) by lia.
  by replace (size_of s + 1 - 2 - 1) with (size_of s - 2) by lia.
Qed.

Lemma is_pad_sextet t k : bool_decide (Some (sextet t k) = Some "="%char) = false.
Proof. apply bool_decide_eq_false_2. intros [= H]. by apply sextet_not_pad in H. Qed.

Lemma b64_text_padding s : b64_padding (b64_text s) = 3 * ((size_of s + 2) / 3) - size_of s.
Proof.
  induction s as [|a|a b|a b c s IH] using string_ind3.
  1: done.
  1,2: unfold b64_padding, is_pad; cbn [b64_text]; rewrite !size_cons; simpl; rewrite ?is_pad_sextet; done.
  cbn [b64_text]. destruct s as [|d s].
  - unfold b64_padding, is_pad. cbn [b64_text]. rewrite !size_cons. simpl. by rewrite !is_pad_sextet.
  - assert (H : 4 ≤ size_of (b64_text (String d s))).
    { rewrite b64_text_size, size_cons. pose proof (size_nonneg s).
      Z.to_euclidean_division_equations; lia. }
    do 4 (rewrite padding_cons by (rewrite ?size_cons; lia)). rewrite IH, !size_cons.
    Z.to_euclidean_division_equations; lia.
Qed.

(** The three bytes of four sextets. *)
Lemma byte_of_sextets x k : 0 ≤ k →
  Z.land (Z.shiftr x k) 0xFF = (x / 2 ^ k) mod 256.
Proof. intros Hk. change 0xFF with (Z.ones 8). by rewrite low_bits, Z.shiftr_div_pow2 by lia. Qed.

Lemma four_sextets x a b c d :
  a = (x / 2 ^ 18) mod 64 → b = (x / 2 ^ 12) mod 64 → c = (x / 2 ^ 6) mod 64 → d = (x / 2 ^ 0) mod 64 →
  0 ≤ x < 2 ^ 24 →
  Z.lor (Z.lor (Z.lor (Z.shiftl a 18) (Z.shiftl b 12)) (Z.shiftl c 6)) d = x.
Proof.
  intros -> -> -> -> Hx. rewrite <-Z.lor_assoc, <-Z.lor_assoc.
  assert (Hm : ∀ y, 0 ≤ y mod 64 < 64) by (intros y; by apply Z.mod_pos_bound).
  pose proof (Hm (x / 2 ^ 18)). pose proof (Hm (x / 2 ^ 12)). pose proof (Hm (x / 2 ^ 6)).
  pose proof (Hm (x / 2 ^ 0)).
  rewrite (lor_shiftl _ _ 6) by lia. rewrite (lor_shiftl _ _ 12) by lia.
  rewrite (lor_shiftl _ _ 18) by lia. change (2 ^ 0) with 1. rewrite Z.div_1_r.
  change (2 ^ 18) with 262144 in *. change (2 ^ 12) with 4096 in *. change (2 ^ 6) with 64 in *.
  clear Hm. Z.to_euclidean_division_equations; lia.
Qed.

Lemma three_bytes a b c :
  Z.lor (Z.lor (Z.shiftl (code a) 16) (Z.shiftl (code b) 8)) (code c)
  = code a * 65536 + code b * 256 + code c.
Proof.
  pose proof (byte_range a). pose proof (byte_range b). pose proof (byte_range c).
  rewrite <-Z.lor_assoc. rewrite (lor_shiftl _ _ 8) by lia. rewrite (lor_shiftl _ _ 16) by lia. lia.
Qed.

(** The bytes of a triple are the characters it was made of. *)
Lemma bytes_of_triple a b c (x := code a * 65536 + code b * 256 + code c) :
  0 ≤ x < 2 ^ 24 ∧ chr (Z.land (Z.shiftr x 16) 0xFF) = a ∧ chr (Z.land (Z.shiftr x 8) 0xFF) = b ∧
  chr (Z.land x 0xFF) = c.
Proof.
  pose proof (byte_range a). pose proof (byte_range b). pose proof (byte_range c).
  rewrite !byte_of_sextets by lia. change 0xFF with (Z.ones 8). rewrite low_bits by lia.
  change (2 ^ 16) with 65536. change (2 ^ 8) with 256.
  replace (x / 65536 mod 256) with (code a) by (subst x; Z.to_euclidean_division_equations; lia).
  replace (x / 256 mod 256) with (code b) by (subst x; Z.to_euclidean_division_equations; lia).
  replace (x mod 256) with (code c) by (subst x; Z.to_euclidean_division_equations; lia).
  rewrite !chr_code. split; [subst x; lia|done].
Qed.

Lemma put_within_ok n size out c : size_of out < n → n ≤ size → put_within n size out c = Ret (out +:+ String c "").
Proof. intros H1 H2. unfold put_within. rewrite (proj2 (Z.ltb_lt _ _)) by done. apply put_ok. lia. Qed.

Lemma put_within_full n size out c : size_of out = n → put_within n size out c = Ret out.
Proof. intros H1. unfold put_within. by rewrite (proj2 (Z.ltb_ge _ _)) by lia. Qed.

Lemma two_bytes a b : Z.lor (Z.shiftl (code a) 16) (Z.shiftl (code b) 8) = code a * 65536 + code b * 256 + code "000"%char.
Proof. rewrite <-three_bytes. change (code "000"%char) with 0. by rewrite Z.lor_0_r. Qed.

Lemma one_byte a : Z.shiftl (code a) 16 = code a * 65536 + code "000"%char * 256 + code "000"%char.
Proof. change (code "000"%char) with 0. rewrite Z.shiftl_mul_pow2 by lia. lia. Qed.

Lemma size_snoc out c : size_of (out +:+ String c "") = size_of out + 1.
Proof. rewrite size_app. done. Qed.

(** One round of [b64_decode] on the four characters of a triple. *)
Lemma decode_round out_len size out a b c s (x := code a * 65536 + code b * 256 + code c) c2 c3 :
  b64_dec_table c2 = (x / 2 ^ 6) mod 64 → b64_dec_table c3 = (x / 2 ^ 0) mod 64 →
  b64_decode out_len size out (String (sextet x 18) (String (sextet x 12) (String c2 (String c3 s))))
  = (out ← put_within out_len size out a; out ← put_within out_len size out b;
     out ← put_within out_len size out c; b64_decode out_len size out s).
Proof.
  intros H2 H3. destruct (bytes_of_triple a b c) as (Hx & Ha & Hb & Hc). fold x in Hx, Ha, Hb, Hc.
  cbn [b64_decode].
  rewrite (four_sextets x _ _ _ _ (dec_sextet x 18 ltac:(done)) (dec_sextet x 12 ltac:(done)) H2 H3 Hx).
  by rewrite Ha, Hb, Hc.
Qed.

Lemma b64_decode_text out_len size s : ∀ out,
  size_of out + size_of s = out_len → out_len < size →
  b64_decode out_len size out (b64_text s) = Ret (out +:+ s).
Proof.
  induction s as [|a|a b|a b c s IH] using string_ind3; intros out Ho Hs.
  - by rewrite str_app_nil_r.
  - cbn [b64_text]. rewrite one_byte, decode_round.
    2,3: change (b64_dec_table "=") with 0; change (code "000"%char) with 0;
      change (2 ^ 6) with 64; change (2 ^ 0) with 1;
      pose proof (byte_range a); Z.to_euclidean_division_equations; lia.
    rewrite size_cons in Ho. change (size_of "") with 0 in Ho.
    rewrite put_within_ok by lia. cbn [mbind outcome_bind].
    do 2 (rewrite put_within_full by (rewrite size_snoc; lia); cbn [mbind outcome_bind]). done.
  - cbn [b64_text]. rewrite two_bytes, decode_round.
    2: by rewrite dec_sextet by lia.
    2: change (b64_dec_table "=") with 0; change (code "000"%char) with 0; change (2 ^ 0) with 1;
      pose proof (byte_range b); Z.to_euclidean_division_equations; lia.
    rewrite !size_cons in Ho. change (size_of "") with 0 in Ho.
    rewrite put_within_ok by lia. cbn [mbind outcome_bind].
    rewrite put_within_ok by (rewrite ?size_snoc; lia). cbn [mbind outcome_bind].
    rewrite put_within_full by (rewrite !size_snoc; lia). cbn [mbind outcome_bind]. by rewrite app_snoc.
  - cbn [b64_text]. rewrite three_bytes, decode_round by (by rewrite dec_sextet by lia).
    rewrite !size_cons in Ho. pose proof (size_nonneg s).
    do 3 (rewrite put_within_ok by (rewrite ?size_snoc; lia); cbn [mbind outcome_bind]).
    rewrite IH by (rewrite ?size_snoc; lia). by rewrite !app_snoc.
Qed.

Lemma base64_encodes malloc s : size_of s < 2 ^ 61 →
  lucis_base64EncodeStr malloc s
  = if malloc (4 * ((size_of s + 2) / 3) + 1) then Ret (b64_text s) else Ret "".
Proof.
  intros Hs. pose proof (size_nonneg s). unfold lucis_base64EncodeStr, with_buffer.
  rewrite (to_uint64_small (size_of s + 2)) by lia.
  pose proof (b64_text_size s) as Hz.
  assert (Hb : 0 ≤ 4 * ((size_of s + 2) / 3) < 2 ^ 62)
    by (Z.to_euclidean_division_equations; lia).
  rewrite (to_uint64_small (4 * _)) by lia. rewrite to_uint64_small by lia.
  destruct (malloc _); [|done].
  rewrite b64_encode_text, puts_ok by (change (size_of "") with 0; lia).
  cbn [mbind outcome_bind]. rewrite str_app_nil. apply terminate_ok. lia.
Qed.

(** C35: Base64 is a round trip: when there is memory for both results, the encoder writes 4
    characters for every 3 bytes begun, never behind its buffer, and the decoder gives the
    string back, whatever its bytes are. *)
Theorem base64_roundtrip malloc s : size_of s < 2 ^ 61 →
  malloc (4 * ((size_of s + 2) / 3) + 1) = true → malloc (size_of s + 1) = true →
  ∃ e, lucis_base64EncodeStr malloc s = Ret e ∧ size_of e = 4 * ((size_of s + 2) / 3) ∧
       lucis_base64DecodeStr malloc e = Ret s.
Proof.
  intros Hs He Hd. pose proof (size_nonneg s). exists (b64_text s).
  split; [by rewrite base64_encodes, He|]. split; [apply b64_text_size|].
  unfold lucis_base64DecodeStr, with_buffer. rewrite b64_text_size, b64_text_padding.
  set (q := (size_of s + 2) / 3). replace (4 * q / 4 * 3 - (3 * q - size_of s)) with (size_of s)
    by (rewrite (Z.mul_comm 4), Z.div_mul by lia; lia).
  rewrite (to_uint64_small (size_of s)) by lia. rewrite to_uint64_small by lia. rewrite Hd.
  rewrite b64_decode_text by (change (size_of "") with 0; lia).
  cbn [mbind outcome_bind]. rewrite str_app_nil. apply terminate_ok. lia.
Qed.

Lemma base64_roundtrip_witness :
  ∃ e, lucis_base64EncodeStr enough "Lucis" = Ret e ∧ size_of e = 4 * ((size_of "Lucis" + 2) / 3) ∧
       lucis_base64DecodeStr enough e = Ret "Lucis".
Proof. apply base64_roundtrip; reflexivity. Defined.

Lemma put_within_stays n size out c : size_of out ≤ n → n < size →
  ∃ out', put_within n size out c = Ret out' ∧ size_of out' ≤ n.
Proof.
  intros Ho Hn. destruct (decide (size_of out = n)).
  - exists out. by rewrite put_within_full.
  - eexists. rewrite put_within_ok by lia. split; [done|]. rewrite size_snoc. lia.
Qed.

Lemma b64_decode_stays n size : n < size → ∀ k s out, (String.length s ≤ k)%nat → size_of out ≤ n →
  ∃ out', b64_decode n size out s = Ret out' ∧ size_of out' ≤ n.
Proof.
  intros Hn k. induction k as [|k IH]; intros [|a [|b [|c [|d s]]]] out Hk Ho; try (by exists out); [simpl in Hk; lia|].
  cbn [b64_decode].
  do 3 (edestruct (put_within_stays n size) as (? & -> & ?); [eassumption|lia|]; cbn [mbind outcome_bind]).
  apply IH; [simpl in Hk; lia|done].
Qed.

Lemma b64_padding_range s : 0 ≤ b64_padding s ≤ Z.min 2 (size_of s).
Proof.
  unfold b64_padding. pose proof (size_nonneg s).
  destruct (Z.leb_spec 1 (size_of s)), (Z.leb_spec 2 (size_of s)); cbn [andb]; repeat case_match; lia.
Qed.

(** When the decoder of Base64 writes outside its buffer: exactly for the strings of less
    than four characters with one padding character in the last two places.  Their length is
    less than nothing and wraps around, no byte is allocated, and the terminating 0 is
    written behind it.  Every other string, well formed or not, is decoded inside the
    buffer. *)
Lemma base64_decode_overrun malloc s : size_of s < 2 ^ 61 →
  lucis_base64DecodeStr malloc s = Undef ↔ size_of s < 4 ∧ b64_padding s = 1 ∧ malloc 0 = true.
Proof.
  intros Hs. pose proof (size_nonneg s). pose proof (b64_padding_range s) as Hp.
  unfold lucis_base64DecodeStr, with_buffer.
  set (n := to_uint64 (size_of s / 4 * 3 - b64_padding s)).
  destruct (decide (size_of s < 4 ∧ b64_padding s = 1)) as [[H4 H1]|Hc].
  - assert (Hd : size_of s / 4 = 0) by (apply Z.div_small; lia).
    assert (Hn : n = 2 ^ 64 - 1) by (unfold n; rewrite Hd, H1; reflexivity).
    rewrite Hn. change (to_uint64 (2 ^ 64 - 1 + 1)) with 0.
    assert (He : b64_decode (2 ^ 64 - 1) 0 "" s = Ret "").
    { destruct s as [|? [|? [|? [|? s]]]]; try done. rewrite !size_cons in H4. pose proof (size_nonneg s). lia. }
    rewrite He. destruct (malloc 0); split; try done; naive_solver.
  - assert (Hn : 0 ≤ n < 2 ^ 64 - 1).
    { unfold n. destruct (decide (size_of s < 4)).
      - replace (size_of s / 4) with 0 by (symmetry; apply Z.div_small; lia).
        assert (b64_padding s = 0 ∨ b64_padding s = 2) as [-> | ->] by lia; split; vm_compute; congruence.
      - rewrite to_uint64_small; Z.to_euclidean_division_equations; lia. }
    rewrite (to_uint64_small (n + 1)) by lia. split; [|naive_solver].
    destruct (malloc _); [|done].
    destruct (b64_decode_stays n (n + 1) ltac:(lia) _ s "" (le_n _)) as (out & -> & Ho); [change (size_of "") with 0; lia|].
    cbn [mbind outcome_bind]. by rewrite terminate_ok by lia.
Qed.

Lemma base64_decode_overrun_witness :
  lucis_base64DecodeStr enough "=" = Undef ↔ size_of "=" < 4 ∧ b64_padding "=" = 1 ∧ enough 0 = true.
Proof. apply base64_decode_overrun. reflexivity. Defined.

(** ** URL encoding: what is encoded is decoded *)

Definition url_char (c : ascii) : string :=
  if is_unreserved c then String c ""
  else String "%" (String (hex_digit (Z.shiftr (code c) 4)) (String (hex_digit (Z.land (code c) 0x0F)) "")).

Fixpoint url_text (s : string) : string :=
  match s with "" => "" | String c s => url_char c +:+ url_text s end.

Lemma url_encode_text size s : ∀ raw, url_encode size raw s = puts size raw (url_text s).
Proof.
  induction s as [|c s IH]; intros raw; [done|]. cbn [url_encode url_text]. rewrite puts_app. unfold url_char.
  destruct (is_unreserved c); [cbn [puts]; destruct (put size raw c)|destruct (puts size raw _)];
    cbn [mbind outcome_bind]; done || apply IH.
Qed.

(** Every character is decoded from what it is encoded to. *)
Definition escaped_ok (c : ascii) : bool :=
  if is_unreserved c
  then negb (bool_decide (c = "%"%char)) && negb (bool_decide (c = "+"%char))
  else (0 <=? hex_val (hex_digit (Z.shiftr (code c) 4))) && (0 <=? hex_val (hex_digit (Z.land (code c) 0x0F)))
       && bool_decide (chr (Z.lor (Z.shiftl (hex_val (hex_digit (Z.shiftr (code c) 4))) 4)
                               (hex_val (hex_digit (Z.land (code c) 0x0F)))) = c).

Lemma escaped_all c : escaped_ok c = true.
Proof.
  assert (H : forallb (λ i, escaped_ok (chr i)) (seqZ 0 256) = true) by (vm_compute; reflexivity).
  rewrite forallb_forall in H. rewrite <-(chr_code c). apply H, list_elem_of_In, elem_of_seqZ.
  pose proof (byte_range c). lia.
Qed.

Lemma url_char_size c : 1 ≤ size_of (url_char c) ≤ 3.
Proof. unfold url_char. destruct (is_unreserved c); rewrite !size_cons; change (size_of "") with 0; lia. Qed.

Lemma url_text_size s : size_of s ≤ size_of (url_text s) ≤ 3 * size_of s.
Proof.
  induction s as [|c s IH]; [done|]. cbn [url_text]. rewrite size_app, size_cons.
  pose proof (url_char_size c). lia.
Qed.

Lemma url_decode_char c s fuel size out : size_of out < size →
  url_decode (S fuel) size out (url_char c +:+ s) = url_decode fuel size (out +:+ String c "") s.
Proof.
  intros Ho. pose proof (escaped_all c) as H. unfold url_char, escaped_ok in *. destruct (is_unreserved c).
  - apply andb_prop in H as [Hp Hq]. rewrite str_app_cons, str_app_nil. cbn [url_decode].
    apply negb_true_iff, bool_decide_eq_false in Hp. apply negb_true_iff, bool_decide_eq_false in Hq.
    assert (Hn : url_escape c s = None).
    { destruct s as [|h [|l s]]; [done..|]. unfold url_escape. by rewrite bool_decide_eq_false_2. }
    rewrite Hn, (bool_decide_eq_false_2 (c = "+"%char)) by done. by rewrite put_ok.
  - apply andb_prop in H as [[H1 H2]%andb_prop H3]. apply bool_decide_eq_true in H3.
    rewrite !str_app_cons, str_app_nil. cbn [url_decode url_escape].
    rewrite bool_decide_eq_true_2 by done. rewrite H1, H2. cbn [andb]. by rewrite H3, put_ok.
Qed.

Lemma url_decode_text size s : ∀ fuel out, (String.length s ≤ fuel)%nat → size_of out + size_of s < size →
  url_decode fuel size out (url_text s) = Ret (out +:+ s).
Proof.
  induction s as [|c s IH]; intros fuel out Hf Ho.
  - rewrite str_app_nil_r. by destruct fuel.
  - rewrite size_cons in Ho. pose proof (size_nonneg s). destruct fuel as [|fuel]; [simpl in Hf; lia|].
    cbn [url_text]. rewrite url_decode_char by lia. rewrite IH; [by rewrite app_snoc|simpl in Hf; lia|].
    rewrite size_snoc. lia.
Qed.

(** URL encoding is a round trip: with memory for the results, the encoder stays inside
    the three characters a byte may take, and the decoder gives back every string, with its
    '+' and '%' and bytes outside ASCII. *)
Lemma url_roundtrip malloc s : size_of s < 2 ^ 61 → (∀ n, n ≤ 3 * size_of s + 1 → malloc n = true) →
  ∃ e, lucis_urlEncode malloc s = Ret e ∧ size_of s ≤ size_of e ≤ 3 * size_of s ∧
       lucis_urlDecode malloc e = Ret s.
Proof.
  intros Hs Hm. pose proof (size_nonneg s). pose proof (url_text_size s). exists (url_text s).
  assert (Hmt : malloc (size_of (url_text s) + 1) = true) by (apply Hm; lia).
  split_and!; [|lia|lia|].
  - unfold lucis_urlEncode, with_buffer. rewrite to_uint64_small by lia.
    rewrite Hm by lia. rewrite url_encode_text, puts_ok by (change (size_of "") with 0; lia).
    cbn [mbind outcome_bind]. rewrite str_app_nil, terminate_ok by lia. cbn [mbind outcome_bind].
    rewrite to_uint64_small by lia. by rewrite Hmt.
  - unfold lucis_urlDecode, with_buffer. rewrite to_uint64_small by lia. rewrite Hmt.
    rewrite url_decode_text; [|unfold size_of in *; lia|change (size_of "") with 0; lia].
    cbn [mbind outcome_bind]. rewrite str_app_nil. apply terminate_ok. lia.
Qed.

Lemma url_roundtrip_witness :
  ∃ e, lucis_urlEncode enough "50% + x" = Ret e ∧ size_of "50% + x" ≤ size_of e ≤ 3 * size_of "50% + x" ∧
       lucis_urlDecode enough e = Ret "50% + x".
Proof. apply url_roundtrip; reflexivity. Defined.
