(* ===== verification/Methods.v ===== *)
(** * Built-in methods and generic built-in types

    [types/MethodRegistry.cpp] and [types/ExtendedTypeRegistry.cpp]: the methods of the
    primitive types and of arrays, and the descriptors of [Vec], [Map], [Set] and [Task] with
    theirs.  A type in a signature is the name of a type or a placeholder such as [_self] and
    [_elem], which the caller of a look-up replaces. *)

From S2P Require Import Prelude.
From S2P Require Import CxxLib.
From S2P Require Import TypeInfo.

Record MethodDescriptor := {
  md_name : string;
  md_receiverKinds : list TypeKind;
  md_paramTypes : list string;
  md_returnType : string;
  md_requireSigned : bool;
  md_requireUnsigned : bool;
  md_requireNumeric : bool;
  md_isArrayMethod : bool;
  md_emitTag : string }.

#[export] Instance settable_MethodDescriptor : Settable MethodDescriptor := λ d,
  Build_MethodDescriptor (md_name d) (md_receiverKinds d) (md_paramTypes d) (md_returnType d)
    (md_requireSigned d) (md_requireUnsigned d) (md_requireNumeric d) (md_isArrayMethod d)
    (md_emitTag d).

#[export] Instance MethodDescriptor_eq_dec : EqDecision MethodDescriptor.
Proof. solve_decision. Defined.

(** A descriptor without constraints. *)
Definition md (name : string) (kinds : list TypeKind) (params : list string) (ret tag : string)
    : MethodDescriptor := {|
  md_name := name; md_receiverKinds := kinds; md_paramTypes := params; md_returnType := ret;
  md_requireSigned := false; md_requireUnsigned := false; md_requireNumeric := false;
  md_isArrayMethod := false; md_emitTag := tag |}.

Definition signed_only (d : MethodDescriptor) := d <| md_requireSigned := true |>.
Definition unsigned_only (d : MethodDescriptor) := d <| md_requireUnsigned := true |>.
Definition numeric_only (d : MethodDescriptor) := d <| md_requireNumeric := true |>.

(** ** The tables *)

Definition builtinMethods : list MethodDescriptor := [
  signed_only (md "abs" [TK.Integer] [] "_self" "int.abs");
  md "clamp" [TK.Integer] ["_self"; "_self"] "_self" "int.clamp";
  md "pow" [TK.Integer] ["uint32"] "_self" "int.pow";
  md "min" [TK.Integer] ["_self"] "_self" "int.min";
  md "max" [TK.Integer] ["_self"] "_self" "int.max";
  md "wrappingAdd" [TK.Integer] ["_self"] "_self" "int.wrappingAdd";
  md "wrappingSub" [TK.Integer] ["_self"] "_self" "int.wrappingSub";
  md "wrappingMul" [TK.Integer] ["_self"] "_self" "int.wrappingMul";
  md "saturatingAdd" [TK.Integer] ["_self"] "_self" "int.saturatingAdd";
  md "saturatingSub" [TK.Integer] ["_self"] "_self" "int.saturatingSub";
  md "leadingZeros" [TK.Integer] [] "uint32" "int.leadingZeros";
  md "trailingZeros" [TK.Integer] [] "uint32" "int.trailingZeros";
  md "countOnes" [TK.Integer] [] "uint32" "int.countOnes";
  md "rotateLeft" [TK.Integer] ["uint32"] "_self" "int.rotateLeft";
  md "rotateRight" [TK.Integer] ["uint32"] "_self" "int.rotateRight";
  md "toBigEndian" [TK.Integer] [] "_self" "int.toBigEndian";
  md "toLittleEndian" [TK.Integer] [] "_self" "int.toLittleEndian";
  md "byteSwap" [TK.Integer] [] "_self" "int.byteSwap";
  md "isPowerOfTwo" [TK.Integer] [] "bool" "int.isPowerOfTwo";
  md "nextPowerOfTwo" [TK.Integer] [] "_self" "int.nextPowerOfTwo";
  md "log2" [TK.Integer] [] "uint32" "int.log2";
  signed_only (md "sign" [TK.Integer] [] "int32" "int.sign");
  md "toString" [TK.Integer] [] "string" "int.toString";
  md "toStringRadix" [TK.Integer] ["uint32"] "string" "int.toStringRadix";
  md "toFloat" [TK.Integer] [] "float64" "int.toFloat";
  md "toChar" [TK.Integer] [] "char" "int.toChar";
  md "abs" [TK.Float] [] "_self" "float.abs";
  md "ceil" [TK.Float] [] "_self" "float.ceil";
  md "floor" [TK.Float] [] "_self" "float.floor";
  md "round" [TK.Float] [] "_self" "float.round";
  md "trunc" [TK.Float] [] "_self" "float.trunc";
  md "fract" [TK.Float] [] "_self" "float.fract";
  md "sqrt" [TK.Float] [] "_self" "float.sqrt";
  md "cbrt" [TK.Float] [] "_self" "float.cbrt";
  md "pow" [TK.Float] ["_self"] "_self" "float.pow";
  md "exp" [TK.Float] [] "_self" "float.exp";
  md "exp2" [TK.Float] [] "_self" "float.exp2";
  md "ln" [TK.Float] [] "_self" "float.ln";
  md "log2" [TK.Float] [] "_self" "float.log2";
  md "log10" [TK.Float] [] "_self" "float.log10";
  md "sin" [TK.Float] [] "_self" "float.sin";
  md "cos" [TK.Float] [] "_self" "float.cos";
  md "tan" [TK.Float] [] "_self" "float.tan";
  md "asin" [TK.Float] [] "_self" "float.asin";
  md "acos" [TK.Float] [] "_self" "float.acos";
  md "atan" [TK.Float] [] "_self" "float.atan";
  md "atan2" [TK.Float] ["_self"] "_self" "float.atan2";
  md "sinh" [TK.Float] [] "_self" "float.sinh";
  md "cosh" [TK.Float] [] "_self" "float.cosh";
  md "tanh" [TK.Float] [] "_self" "float.tanh";
  md "hypot" [TK.Float] ["_self"] "_self" "float.hypot";
  md "min" [TK.Float] ["_self"] "_self" "float.min";
  md "max" [TK.Float] ["_self"] "_self" "float.max";
  md "clamp" [TK.Float] ["_self"; "_self"] "_self" "float.clamp";
  md "lerp" [TK.Float] ["_self"; "_self"] "_self" "float.lerp";
  md "sign" [TK.Float] [] "_self" "float.sign";
  md "copySign" [TK.Float] ["_self"] "_self" "float.copySign";
  md "isNaN" [TK.Float] [] "bool" "float.isNaN";
  md "isInf" [TK.Float] [] "bool" "float.isInf";
  md "isFinite" [TK.Float] [] "bool" "float.isFinite";
  md "isNormal" [TK.Float] [] "bool" "float.isNormal";
  md "isNegative" [TK.Float] [] "bool" "float.isNegative";
  md "toRadians" [TK.Float] [] "_self" "float.toRadians";
  md "toDegrees" [TK.Float] [] "_self" "float.toDegrees";
  md "toString" [TK.Float] [] "string" "float.toString";
  md "toStringPrecision" [TK.Float] ["uint32"] "string" "float.toStringPrecision";
  md "toInt" [TK.Float] [] "int64" "float.toInt";
  md "toBits" [TK.Float] [] "uint64" "float.toBits";
  md "toString" [TK.Bool] [] "string" "bool.toString";
  md "toInt" [TK.Bool] [] "int32" "bool.toInt";
  md "toggle" [TK.Bool] [] "bool" "bool.toggle";
  md "isAlpha" [TK.Char] [] "bool" "char.isAlpha";
  md "isDigit" [TK.Char] [] "bool" "char.isDigit";
  md "isHexDigit" [TK.Char] [] "bool" "char.isHexDigit";
  md "isAlphaNum" [TK.Char] [] "bool" "char.isAlphaNum";
  md "isUpper" [TK.Char] [] "bool" "char.isUpper";
  md "isLower" [TK.Char] [] "bool" "char.isLower";
  md "isSpace" [TK.Char] [] "bool" "char.isSpace";
  md "isPrintable" [TK.Char] [] "bool" "char.isPrintable";
  md "isControl" [TK.Char] [] "bool" "char.isControl";
  md "isPunct" [TK.Char] [] "bool" "char.isPunct";
  md "isAscii" [TK.Char] [] "bool" "char.isAscii";
  md "toUpper" [TK.Char] [] "char" "char.toUpper";
  md "toLower" [TK.Char] [] "char" "char.toLower";
  md "toInt" [TK.Char] [] "int32" "char.toInt";
  md "toString" [TK.Char] [] "string" "char.toString";
  md "repeat" [TK.Char] ["usize"] "string" "char.repeat";
  md "digitToInt" [TK.Char] [] "int32" "char.digitToInt";
  md "toString" [TK.Pointer] [] "string" "ptr.toString";
  md "len" [TK.String] [] "usize" "string.len";
  md "ptr" [TK.String] [] "*void" "string.ptr";
  md "isEmpty" [TK.String] [] "bool" "string.isEmpty";
  md "at" [TK.String] ["usize"] "char" "string.at";
  md "front" [TK.String] [] "char" "string.front";
  md "back" [TK.String] [] "char" "string.back";
  md "contains" [TK.String] ["string"] "bool" "string.contains";
  md "startsWith" [TK.String] ["string"] "bool" "string.startsWith";
  md "endsWith" [TK.String] ["string"] "bool" "string.endsWith";
  md "indexOf" [TK.String] ["string"] "int64" "string.indexOf";
  md "lastIndexOf" [TK.String] ["string"] "int64" "string.lastIndexOf";
  md "count" [TK.String] ["string"] "usize" "string.count";
  md "substring" [TK.String] ["usize"; "usize"] "string" "string.substring";
  md "slice" [TK.String] ["int64"; "int64"] "string" "string.slice";
  md "trim" [TK.String] [] "string" "string.trim";
  md "trimLeft" [TK.String] [] "string" "string.trimLeft";
  md "trimRight" [TK.String] [] "string" "string.trimRight";
  md "trimChar" [TK.String] ["char"] "string" "string.trimChar";
  md "padLeft" [TK.String] ["usize"; "char"] "string" "string.padLeft";
  md "padRight" [TK.String] ["usize"; "char"] "string" "string.padRight";
  md "toUpper" [TK.String] [] "string" "string.toUpper";
  md "toLower" [TK.String] [] "string" "string.toLower";
  md "capitalize" [TK.String] [] "string" "string.capitalize";
  md "replace" [TK.String] ["string"; "string"] "string" "string.replace";
  md "replaceFirst" [TK.String] ["string"; "string"] "string" "string.replaceFirst";
  md "removePrefix" [TK.String] ["string"] "string" "string.removePrefix";
  md "removeSuffix" [TK.String] ["string"] "string" "string.removeSuffix";
  md "split" [TK.String] ["string"] "Vec<string>" "string.split";
  md "join" [TK.String] ["string"] "string" "string.join";
  md "repeat" [TK.String] ["usize"] "string" "string.repeat";
  md "reverse" [TK.String] [] "string" "string.reverse";
  md "insert" [TK.String] ["usize"; "string"] "string" "string.insert";
  md "remove" [TK.String] ["usize"; "usize"] "string" "string.remove";
  md "chars" [TK.String] [] "Vec<char>" "string.chars";
  md "bytes" [TK.String] [] "Vec<uint8>" "string.bytes";
  md "lines" [TK.String] [] "Vec<string>" "string.lines";
  md "words" [TK.String] [] "Vec<string>" "string.words";
  md "concat" [TK.String] ["string"] "string" "string.concat";
  md "compareTo" [TK.String] ["string"] "int32" "string.compareTo";
  md "equalsIgnoreCase" [TK.String] ["string"] "bool" "string.equalsIgnoreCase";
  md "isNumeric" [TK.String] [] "bool" "string.isNumeric";
  md "isAlpha" [TK.String] [] "bool" "string.isAlpha";
  md "isAlphaNum" [TK.String] [] "bool" "string.isAlphaNum";
  md "isUpper" [TK.String] [] "bool" "string.isUpper";
  md "isLower" [TK.String] [] "bool" "string.isLower";
  md "isBlank" [TK.String] [] "bool" "string.isBlank";
  md "toInt" [TK.String] [] "int64" "string.toInt";
  md "toFloat" [TK.String] [] "float64" "string.toFloat";
  md "toBool" [TK.String] [] "bool" "string.toBool";
  md "hash" [TK.String] [] "uint64" "string.hash";
  md "raw" [TK.BitStruct] [] "_backing" "bitstruct.raw";
  md "clearAll" [TK.BitStruct] [] "void" "bitstruct.clearAll";
  md "setAll" [TK.BitStruct] [] "void" "bitstruct.setAll" ].

Definition builtinArrayMethods : list MethodDescriptor := [
  md "len" [] [] "usize" "array.len";
  md "isEmpty" [] [] "bool" "array.isEmpty";
  md "at" [] ["usize"] "_elem" "array.at";
  md "first" [] [] "_elem" "array.first";
  md "last" [] [] "_elem" "array.last";
  md "contains" [] ["_elem"] "bool" "array.contains";
  md "indexOf" [] ["_elem"] "int64" "array.indexOf";
  md "lastIndexOf" [] ["_elem"] "int64" "array.lastIndexOf";
  md "count" [] ["_elem"] "usize" "array.count";
  md "fill" [] ["_elem"] "void" "array.fill";
  md "swap" [] ["usize"; "usize"] "void" "array.swap";
  md "reverse" [] [] "void" "array.reverse";
  md "copy" [] [] "_self" "array.copy";
  md "slice" [] ["usize"; "usize"] "_self" "array.slice";
  numeric_only (md "sum" [] [] "_elem" "array.sum");
  numeric_only (md "product" [] [] "_elem" "array.product");
  numeric_only (md "min" [] [] "_elem" "array.min");
  numeric_only (md "max" [] [] "_elem" "array.max");
  numeric_only (md "minIndex" [] [] "usize" "array.minIndex");
  numeric_only (md "maxIndex" [] [] "usize" "array.maxIndex");
  numeric_only (md "average" [] [] "float64" "array.average");
  numeric_only (md "isSorted" [] [] "bool" "array.isSorted");
  numeric_only (md "sort" [] [] "void" "array.sort");
  numeric_only (md "sortDesc" [] [] "void" "array.sortDesc");
  md "equals" [] ["_self"] "bool" "array.equals";
  md "toString" [] [] "string" "array.toString";
  md "join" [] ["string"] "string" "array.join";
  md "rotate" [] ["int32"] "void" "array.rotate" ].

Definition vecMethods : list MethodDescriptor := [
  md "len" [TK.Extended] [] "usize" "vec.len";
  md "capacity" [TK.Extended] [] "usize" "vec.capacity";
  md "isEmpty" [TK.Extended] [] "bool" "vec.isEmpty";
  md "at" [TK.Extended] ["usize"] "_elem" "vec.at";
  md "first" [TK.Extended] [] "_elem" "vec.first";
  md "last" [TK.Extended] [] "_elem" "vec.last";
  md "push" [TK.Extended] ["_elem"] "void" "vec.push";
  md "pop" [TK.Extended] [] "_elem" "vec.pop";
  md "insert" [TK.Extended] ["usize"; "_elem"] "void" "vec.insert";
  md "removeAt" [TK.Extended] ["usize"] "_elem" "vec.removeAt";
  md "removeSwap" [TK.Extended] ["usize"] "_elem" "vec.removeSwap";
  md "clear" [TK.Extended] [] "void" "vec.clear";
  md "fill" [TK.Extended] ["_elem"] "void" "vec.fill";
  md "swap" [TK.Extended] ["usize"; "usize"] "void" "vec.swap";
  md "reserve" [TK.Extended] ["usize"] "void" "vec.reserve";
  md "shrink" [TK.Extended] [] "void" "vec.shrink";
  md "resize" [TK.Extended] ["usize"; "_elem"] "void" "vec.resize";
  md "truncate" [TK.Extended] ["usize"] "void" "vec.truncate";
  md "contains" [TK.Extended] ["_elem"] "bool" "vec.contains";
  md "indexOf" [TK.Extended] ["_elem"] "int64" "vec.indexOf";
  md "lastIndexOf" [TK.Extended] ["_elem"] "int64" "vec.lastIndexOf";
  md "count" [TK.Extended] ["_elem"] "usize" "vec.count";
  md "reverse" [TK.Extended] [] "void" "vec.reverse";
  numeric_only (md "sort" [TK.Extended] [] "void" "vec.sort");
  numeric_only (md "sortDesc" [TK.Extended] [] "void" "vec.sortDesc");
  md "rotate" [TK.Extended] ["int32"] "void" "vec.rotate";
  numeric_only (md "sum" [TK.Extended] [] "_elem" "vec.sum");
  numeric_only (md "product" [TK.Extended] [] "_elem" "vec.product");
  numeric_only (md "min" [TK.Extended] [] "_elem" "vec.min");
  numeric_only (md "max" [TK.Extended] [] "_elem" "vec.max");
  numeric_only (md "average" [TK.Extended] [] "float64" "vec.average");
  md "equals" [TK.Extended] ["_self"] "bool" "vec.equals";
  numeric_only (md "isSorted" [TK.Extended] [] "bool" "vec.isSorted");
  md "toString" [TK.Extended] [] "string" "vec.toString";
  md "join" [TK.Extended] ["string"] "string" "vec.join";
  md "clone" [TK.Extended] [] "_self" "vec.clone";
  md "free" [TK.Extended] [] "void" "vec.free" ].

Definition mapMethods : list MethodDescriptor := [
  md "len" [TK.Extended] [] "usize" "map.len";
  md "isEmpty" [TK.Extended] [] "bool" "map.isEmpty";
  md "get" [TK.Extended] ["_key"] "_val" "map.get";
  md "getOrDefault" [TK.Extended] ["_key"; "_val"] "_val" "map.getOrDefault";
  md "has" [TK.Extended] ["_key"] "bool" "map.has";
  md "insert" [TK.Extended] ["_key"; "_val"] "void" "map.insert";
  md "remove" [TK.Extended] ["_key"] "bool" "map.remove";
  md "clear" [TK.Extended] [] "void" "map.clear";
  md "free" [TK.Extended] [] "void" "map.free";
  md "keys" [TK.Extended] [] "_vec_key" "map.keys";
  md "values" [TK.Extended] [] "_vec_val" "map.values" ].

Definition setMethods : list MethodDescriptor := [
  md "len" [TK.Extended] [] "usize" "set.len";
  md "isEmpty" [TK.Extended] [] "bool" "set.isEmpty";
  md "add" [TK.Extended] ["_elem"] "bool" "set.add";
  md "has" [TK.Extended] ["_elem"] "bool" "set.has";
  md "remove" [TK.Extended] ["_elem"] "bool" "set.remove";
  md "clear" [TK.Extended] [] "void" "set.clear";
  md "free" [TK.Extended] [] "void" "set.free";
  md "values" [TK.Extended] [] "_vec_elem" "set.values" ].

(** ** The registry of methods *)

Definition kindToString (kind : TypeKind) : string :=
  match kind with
  | TK.Integer => "Integer" | TK.Float => "Float" | TK.Bool => "Bool" | TK.Char => "Char"
  | TK.String => "String" | TK.Void => "Void" | TK.Struct => "Struct" | TK.Enum => "Enum"
  | TK.Pointer => "Pointer" | TK.Function => "Function" | TK.Extended => "Extended"
  | TK.BitStruct => "BitStruct"
  | _ => "Unknown"
  end.

Definition makeKey (kind : TypeKind) (name : string) : string := kindToString kind +:+ "::" +:+ name.

(** [methods_] with an entry for every kind of receiver, and [arrayMethods_]. *)
Record MethodRegistry := {
  methods_ : list (string * MethodDescriptor);
  arrayMethods_ : gmap string MethodDescriptor }.

#[export] Instance settable_MethodRegistry : Settable MethodRegistry := λ r,
  Build_MethodRegistry (methods_ r) (arrayMethods_ r).

Definition registerMethod (r : MethodRegistry) (desc : MethodDescriptor) : MethodRegistry :=
  r <| methods_ := methods_ r ++ ((λ kind, (makeKey kind (md_name desc), desc)) <$> md_receiverKinds desc) |>.

(** [emplace] keeps the first of two methods of one name. *)
Definition registerArrayMethod (r : MethodRegistry) (desc : MethodDescriptor) : MethodRegistry :=
  let desc := desc <| md_isArrayMethod := true |> in
  match arrayMethods_ r !! md_name desc with
  | Some _ => r
  | None => r <| arrayMethods_ := <[md_name desc := desc]> (arrayMethods_ r) |>
  end.

Definition newMethodRegistry : MethodRegistry :=
  fold_left registerArrayMethod builtinArrayMethods
    (fold_left registerMethod builtinMethods {| methods_ := []; arrayMethods_ := ∅ |}).

(** [methods_.find(key)]: one of the entries of that key; here the first. *)
Definition mr_lookup (r : MethodRegistry) (kind : TypeKind) (methodName : string) : option MethodDescriptor :=
  snd ∘ snd <$> list_find (λ e, e.1 = makeKey kind methodName) (methods_ r).

Definition lookupArrayMethod (r : MethodRegistry) (methodName : string) : option MethodDescriptor :=
  arrayMethods_ r !! methodName.

Definition methodsFor (r : MethodRegistry) (kind : TypeKind) : list MethodDescriptor :=
  let prefix := kindToString kind +:+ "::" in
  snd <$> filter (λ e, str_take (String.length prefix) e.1 = prefix) (methods_ r).

(** ** Generic built-in types *)

Record ExtendedTypeDescriptor := {
  ed_baseName : string;
  ed_genericArity : Z;
  ed_layout : list (string * string);
  ed_cPrefix : string;
  ed_methods : list MethodDescriptor }.

Definition vecType : ExtendedTypeDescriptor := {|
  ed_baseName := "Vec"; ed_genericArity := 1;
  ed_layout := [("ptr", "ptr"); ("len", "usize"); ("cap", "usize")];
  ed_cPrefix := "lucis_vec"; ed_methods := vecMethods |}.

Definition mapType : ExtendedTypeDescriptor := {|
  ed_baseName := "Map"; ed_genericArity := 2;
  ed_layout := [("states", "ptr"); ("keys", "ptr"); ("values", "ptr"); ("hashes", "ptr");
                ("len", "usize"); ("cap", "usize"); ("key_size", "usize"); ("val_size", "usize")];
  ed_cPrefix := "lucis_map"; ed_methods := mapMethods |}.

Definition setType : ExtendedTypeDescriptor := {|
  ed_baseName := "Set"; ed_genericArity := 1;
  ed_layout := [("states", "ptr"); ("keys", "ptr"); ("hashes", "ptr");
                ("len", "usize"); ("cap", "usize"); ("key_size", "usize")];
  ed_cPrefix := "lucis_set"; ed_methods := setMethods |}.

Definition taskType : ExtendedTypeDescriptor := {|
  ed_baseName := "Task"; ed_genericArity := 1; ed_layout := [("handle", "ptr")];
  ed_cPrefix := "lucis_task"; ed_methods := [] |}.

Definition ExtendedTypeRegistry := gmap string ExtendedTypeDescriptor.

Definition registerExtended (r : ExtendedTypeRegistry) (d : ExtendedTypeDescriptor) : ExtendedTypeRegistry :=
  <[ed_baseName d := d]> r.

Definition newExtendedTypeRegistry : ExtendedTypeRegistry :=
  fold_left registerExtended [vecType; mapType; setType; taskType] ∅.

Definition ext_lookup (r : ExtendedTypeRegistry) (baseName : string) : option ExtendedTypeDescriptor :=
  r !! baseName.

(** ** Look-ups *)

Definition kinds : list TypeKind :=
  [TK.Integer; TK.Float; TK.Bool; TK.Char; TK.Void; TK.String; TK.Struct; TK.Union; TK.Enum; TK.Pointer;
   TK.Function; TK.Extended; TK.BitStruct; TK.Tuple; TK.VAList; TK.Closure; TK.Fallible; TK.Trait].

Lemma kinds_all k : k ∈ kinds.
Proof. destruct k; (apply (bool_decide_unpack _); vm_compute; exact I). Qed.

Fixpoint no_colon (s : string) : bool :=
  match s with "" => true | String c s => negb (bool_decide (c = ":"%char)) && no_colon s end.

Lemma key_inj a b n m : no_colon a = true → no_colon b = true →
  a +:+ "::" +:+ n = b +:+ "::" +:+ m → a = b ∧ n = m.
Proof.
  revert b. induction a as [|c a IH]; intros [|d b] Ha Hb; rewrite ?str_app_nil, ?str_app_cons, ?str_app_nil.
  - by intros [= ->].
  - intros [= <- _]. by simpl in Hb.
  - intros [= -> _]. by simpl in Ha.
  - intros [= -> H]. simpl in Ha, Hb. apply andb_prop in Ha as [_ Ha]. apply andb_prop in Hb as [_ Hb].
    apply IH in H as [-> ->]; done.
Qed.

Lemma kindToString_no_colon k : no_colon (kindToString k) = true.
Proof. by destruct k. Qed.

(** Kinds with methods have names of their own. *)
Lemma receiver_kind d k k' : d ∈ builtinMethods → k ∈ md_receiverKinds d →
  kindToString k = kindToString k' → k = k'.
Proof.
  intros Hd Hk He.
  assert (H : forallb (λ d, forallb (λ k, forallb (λ k',
    bool_decide (kindToString k = kindToString k' → k = k')) kinds) (md_receiverKinds d)) builtinMethods = true)
    by (vm_compute; reflexivity).
  rewrite forallb_forall in H. specialize (H d (proj1 (list_elem_of_In _ _) Hd)).
  rewrite forallb_forall in H. specialize (H k (proj1 (list_elem_of_In _ _) Hk)).
  rewrite forallb_forall in H. specialize (H k' (proj1 (list_elem_of_In _ _) (kinds_all k'))).
  by apply bool_decide_eq_true in H; apply H.
Qed.

Lemma registered e : e ∈ methods_ newMethodRegistry ↔
  ∃ d k, d ∈ builtinMethods ∧ k ∈ md_receiverKinds d ∧ e = (makeKey k (md_name d), d).
Proof.
  assert (Ha : ∀ l r, methods_ (fold_left registerArrayMethod l r) = methods_ r).
  { induction l as [|d l IH]; intros r; [done|]. simpl. rewrite IH. unfold registerArrayMethod.
    by destruct (arrayMethods_ r !! _). }
  assert (Hm : ∀ l r, e ∈ methods_ (fold_left registerMethod l r) ↔
    e ∈ methods_ r ∨ ∃ d k, d ∈ l ∧ k ∈ md_receiverKinds d ∧ e = (makeKey k (md_name d), d)).
  { induction l as [|d l IH]; intros r; simpl.
    - split; [by left|]. intros [H|(d & _ & H & _)]; [done|by apply not_elem_of_nil in H].
    - rewrite IH. simpl. rewrite elem_of_app, list_elem_of_fmap.
      setoid_rewrite elem_of_cons. naive_solver. }
  unfold newMethodRegistry. rewrite Ha, Hm. simpl. split; [|by right].
  intros [H|H]; [by apply not_elem_of_nil in H|done].
Qed.

Lemma keys_unique : NoDup ((methods_ newMethodRegistry).*1).
Proof. apply (bool_decide_unpack _). vm_compute. exact I. Qed.

(** Whatever the order in which the hash table of methods holds its entries, the look-up
    of a kind and a name gives the method of the table that has this name and lists this
    kind among its receivers, and null when there is none.  (A key is the kind's name and the
    method's; no two methods share a key, and kinds without a name of their own have no
    methods.) *)
Lemma method_lookup_spec order kind name d :
  order ≡ₚ methods_ newMethodRegistry →
  let r := newMethodRegistry <| methods_ := order |> in
  mr_lookup r kind name = Some d ↔
  d ∈ builtinMethods ∧ kind ∈ md_receiverKinds d ∧ md_name d = name.
Proof.
  intros Ho r. unfold mr_lookup. simpl. split.
  - destruct (list_find _ order) as [[i [key d']]|] eqn:Hf; [|done]. intros [= ->].
    apply list_find_Some in Hf as (Hi & Hk & _). simpl in Hk.
    apply list_elem_of_lookup_2 in Hi. rewrite Ho in Hi.
    apply registered in Hi as (d' & k & Hd & Hkind & [= -> ->]).
    apply key_inj in Hk as [Hk <-]; [|apply kindToString_no_colon..].
    by apply (receiver_kind d' k kind) in Hk as ->.
  - intros (Hd & Hk & <-).
    assert (He : (makeKey kind (md_name d), d) ∈ order) by (rewrite Ho; apply registered; eauto).
    destruct (list_find _ order) as [[i [key d']]|] eqn:Hf.
    + apply list_find_Some in Hf as (Hi & Hkey & _). simpl in Hkey. subst key.
      apply list_elem_of_lookup_2 in Hi. simpl. f_equal.
      assert (Hnd : NoDup order.*1) by (rewrite Ho; apply keys_unique).
      destruct (list_elem_of_lookup_1 _ _ Hi) as [a Ha], (list_elem_of_lookup_1 _ _ He) as [b Hb].
      assert (a = b) as ->; [|congruence].
      apply (NoDup_lookup _ a b (makeKey kind (md_name d)) Hnd); by rewrite list_lookup_fmap, ?Ha, ?Hb.
    + apply list_find_None in Hf. rewrite Forall_forall in Hf. by apply Hf in He.
Qed.

Lemma method_lookup_spec_witness :
  mr_lookup (newMethodRegistry <| methods_ := reverse (methods_ newMethodRegistry) |>) TK.String "split"
    = Some (md "split" [TK.String] ["string"] "Vec<string>" "string.split") ↔
  md "split" [TK.String] ["string"] "Vec<string>" "string.split" ∈ builtinMethods ∧
  TK.String ∈ [TK.String] ∧ "split" = "split".
Proof. apply (method_lookup_spec (reverse (methods_ newMethodRegistry))). apply reverse_Permutation. Defined.
