(* ===== verification/TypeSpec.v ===== *)
(** * Type specifiers

    The type specifiers of the grammar and what they denote: [Checker::resolveTypeSpec]
    ([checkers/Checker_type.cpp]) and [Checker::resolveTypeSpecWithSubst]
    ([checkers/Checker_generic.cpp]), which replaces the parameters of a template.

    The tables of templates are read only here.  The instantiation of a template, the
    registration of a type of another module on demand, and the trait look-ups, whose result
    is one static object per look-up, are parameters. *)

From S2P Require Import Prelude.
From S2P Require Import CxxLib.
From S2P Require Import TypeInfo.
From S2P Require Import Assign.
From S2P Require Import Syntax.
From S2P Require Import ComptimeValue.
From S2P Require Import ConstEval.
From S2P Require Import Ownership.
From S2P Require Import Modules.
From S2P Require Import Imports.
From S2P Require Import ExprType.
From S2P Require Import Methods.
Local Open Scope Z_scope.

(** ** Syntax *)

(** [[N]], [[NAME]] and [[]] *)
Inductive array_dim := DimLit (text : string) | DimName (name : string) | DimNone.

(** [TypeSpecContext], by alternative of the rule.  [TSSelf] has the name of the enclosing
    [extend] block, if there is one. *)
Inductive typeSpec :=
| TSVolatile (t : typeSpec)
| TSDyn (t : typeSpec)
| TSStar (t : typeSpec)
| TSPostStar (t : typeSpec)
| TSArray (d : array_dim) (t : typeSpec)
| TSFallible (t : typeSpec) (err : option typeSpec)
| TSFn (params : list typeSpec) (ret : typeSpec)
| TSVec (t : typeSpec)
| TSMap (k v : typeSpec)
| TSSet (t : typeSpec)
| TSTuple (ts : list typeSpec)
| TSGeneric (name : string) (args : list typeSpec)
| TSPrim (name : string)
| TSAuto
| TSIdent (name : string)
| TSSelf (extended : option string).

(** The typeSpecs below one. *)
Definition spec_children (ts : typeSpec) : list typeSpec :=
  match ts with
  | TSVolatile t | TSDyn t | TSStar t | TSPostStar t | TSArray _ t | TSVec t | TSSet t => [t]
  | TSFallible t err => t :: opt_list err
  | TSFn params ret => params ++ [ret]
  | TSMap k v => [k; v]
  | TSTuple ts => ts
  | TSGeneric _ args => args
  | TSPrim _ | TSAuto | TSIdent _ | TSSelf _ => []
  end.

Definition dim_text (d : array_dim) : string :=
  match d with DimLit t | DimName t => t | DimNone => "" end.

(** [getText()]: the tokens without the space between them. *)
Fixpoint getText (ts : typeSpec) : string :=
  match ts with
  | TSVolatile t => "volatile" +:+ getText t
  | TSDyn t => "dyn" +:+ getText t
  | TSStar t => "*" +:+ getText t
  | TSPostStar t => getText t +:+ "*"
  | TSArray d t => "[" +:+ dim_text d +:+ "]" +:+ getText t
  | TSFallible t err => "!" +:+ getText t +:+ match err with Some e => ":" +:+ getText e | None => "" end
  | TSFn params ret => "fn(" +:+ str_join "," (getText <$> params) +:+ ")->" +:+ getText ret
  | TSVec t => "vec<" +:+ getText t +:+ ">"
  | TSMap k v => "map<" +:+ getText k +:+ "," +:+ getText v +:+ ">"
  | TSSet t => "set<" +:+ getText t +:+ ">"
  | TSTuple ts => "tuple<" +:+ str_join "," (getText <$> ts) +:+ ">"
  | TSGeneric name args => name +:+ "<" +:+ str_join "," (getText <$> args) +:+ ">"
  | TSPrim name | TSIdent name => name
  | TSAuto => "auto"
  | TSSelf _ => "Self"
  end.

(** None of [LBRACKET], [STAR], [LT], [VEC], [MAP], [SET], [TUPLE], [AUTO] and
    [fnTypeSpec]. *)
Definition is_bare (ts : typeSpec) : bool :=
  match ts with
  | TSVolatile _ | TSDyn _ | TSFallible _ _ | TSPrim _ | TSIdent _ | TSSelf _ => true
  | _ => false
  end.

Definition is_auto (ts : typeSpec) : bool := match ts with TSAuto => true | _ => false end.
Definition is_array (ts : typeSpec) : bool := match ts with TSArray _ _ => true | _ => false end.

(** ** Templates *)

Inductive TemplateKind := StructTemplate | UnionTemplate | EnumTemplate.

Record Templates := {
  structTemplates_ : gset string;
  unionTemplates_ : gset string;
  enumTemplates_ : gset string;
  traitTemplates_ : gset string }.

(** Structs first, then unions, then enums. *)
Definition findTemplate (tpl : Templates) (name : string) : option TemplateKind :=
  if bool_decide (name ∈ structTemplates_ tpl) then Some StructTemplate else
  if bool_decide (name ∈ unionTemplates_ tpl) then Some UnionTemplate else
  if bool_decide (name ∈ enumTemplates_ tpl) then Some EnumTemplate else None.

Section spec.
Context (g : Tables) (fuel : nat) (tpl : Templates) (ext : ExtendedTypeRegistry).
(** Where a specifier starts and ends. *)
Context (specPosition : typeSpec → context).
(** The variables of [locals_] that are constant. *)
Context (constLocals : gset string).
Context (constTypeSpec : string → option TypeInfo).
(** The initialiser of the declaration an exported constant points at, if it points at one. *)
Context (constDecl : ExportedSymbol → option expr).
Context (instantiate : TemplateKind → string → list tyref → typeSpec → T (option tyref)).
(** [ensureExternalTypeRegistered] *)
Context (ensureExternal : string → T unit).
(** [traitRegistry_.lookup(name)], and the static object that then stands for the trait. *)
Context (isTrait : string → T bool) (sentinel : string → T tyref).

Definition errorS (ts : typeSpec) (msg : string) : T unit := onChecker (error (specPosition ts) msg).

Definition failS {A} (ts : typeSpec) (msg : string) : T (option A) := errorS ts msg;; mret None.

(** ** Array dimensions *)

Definition positive (ts : typeSpec) (shown : string) (size : Z) : T bool :=
  if size <=? 0
  then errorS ts ("array size must be a positive integer, got " +:+ shown);; mret false
  else mret true.

Definition notConst (ts : typeSpec) (msg : string) : T bool := errorS ts msg;; mret false.

(** Whether the dimension is valid. *)
Definition checkDim (ts : typeSpec) (d : array_dim) : T bool :=
  match d with
  | DimNone => mret true
  | DimLit text => size ← liftO (stoll 10 text); positive ts text size
  | DimName n =>
      s ← getS;
      if bool_decide (is_Some (locals_ (ty_checker s) !! n)) && bool_decide (n ∈ constLocals) then
        match ty_compileTimeValues s !! n with
        | Some (intVal size) => positive ts (quote n +:+ " = " +:+ to_string size) size
        | Some _ => notConst ts ("const " +:+ quote n +:+ " must be an integer to be used as array size")
        | None => notConst ts ("const " +:+ quote n +:+
                    " must have a literal initializer to be used as array size")
        end
      else match userImports_ g !! n, moduleRegistry_ g with
      | Some modPath, Some modules_ =>
          match findSymbol modules_ modPath (importedSymbolName g n) with
          | Some sym =>
              match (if bool_decide (sym_kind sym = SConstant) then constDecl sym else None) with
              | Some init =>
                  v ← liftO (evaluateConstExpr (te_types (ty_env s)) (ty_compileTimeValues s) constTypeSpec init);
                  match v with
                  | Some (intVal size) => positive ts (quote n +:+ " = " +:+ to_string size) size
                  | _ => notConst ts ("imported const " +:+ quote n +:+
                            " must have a literal integer initializer")
                  end
              | None => notConst ts ("array dimension must be a compile-time constant; " +:+ quote n +:+
                          " is not an imported const")
              end
          | None => notConst ts ("array dimension must be a compile-time constant; " +:+ quote n +:+
                      " is not an imported const")
          end
      | _, _ => notConst ts ("array dimension must be a compile-time constant (literal or const); " +:+
                  quote n +:+ " is not a const")
      end
  end.

(** ** Types made on demand *)

(** The first dynamic type that satisfies the test, or a new one. *)
Definition findOrPush (p : TypeInfo → bool) (t : TypeInfo) : T tyref :=
  s ← getS;
  match list_find (λ t, p t = true) (te_dynamicTypes (ty_env s)) with
  | Some (i, _) => mret (DynT i)
  | None => pushT t
  end.

Definition named (name : string) (t : TypeInfo) : bool := bool_decide (ti_name t = name).

Definition isVolatileOf (volName : string) (inner t : TypeInfo) : bool :=
  named volName t && ti_isVolatile t && hasKind (ti_kind inner) t &&
  (ti_bitWidth t =? ti_bitWidth inner) && eqb (ti_isSigned t) (ti_isSigned inner).

Definition volatileType (inner : tyref) : T tyref :=
  t ← infoT inner;
  let volName := "volatile " +:+ ti_name t in
  findOrPush (isVolatileOf volName t) (t <| ti_name := volName |> <| ti_isVolatile := true |>).

Definition fallibleType (ts : typeSpec) (inner : tyref) (errType : option tyref) : T (option tyref) :=
  match errType with
  | None => failS ts "cannot resolve error type for !T"
  | Some et =>
      s ← getS;
      ok ← liftO (isOrInheritsFrom fuel (ty_env s) (Some et) "Error");
      t ← infoT et;
      if negb (bool_decide (ti_name t = "Error")) && negb (ok : bool) then
        failS ts ("error type in !T must be 'Error' or inherit from 'Error', got " +:+ quote (ti_name t))
      else
        i ← infoT inner;
        p ← pushT ((mkTypeInfo ("!" +:+ ti_name i +:+
                      (if bool_decide (ti_name t = "Error") then "" else ":" +:+ ti_name t))
                     TK.Fallible 0 false "")
              <| ti_successType := Some inner |> <| ti_errorType := Some et |>);
        mret (Some p)
  end.

Definition functionType (ret : tyref) (params : list tyref) : T tyref := λ s,
  match makeFunctionType (ty_env s) ret params false None None with
  | Ret (e, p) => ROk p (s <| ty_env := e |>)
  | Throw x => RThrow x s
  | Undef => RUndef
  | NoFuel => RNoFuel
  end.

Definition nested (base : string) (t : TypeInfo) : string :=
  "nested collection types are not supported: '" +:+ base +:+ "<" +:+ ti_name t +:+ ">' — '" +:+ base +:+
  "' cannot contain '" +:+ ti_extendedKind t +:+ "' as element type".

Definition nestedAs (base role : string) (t : TypeInfo) : string :=
  "nested collection types are not supported: '" +:+ base +:+ "' cannot use '" +:+ ti_extendedKind t +:+
  "' as " +:+ role +:+ " type".

Definition expects (base : string) (n : Z) (got : nat) : string :=
  quote base +:+ " expects " +:+ to_string n +:+ (if n =? 1 then " type parameter" else " type parameters") +:+
  ", got " +:+ to_string (Z.of_nat got).

(** [base<elem>] and [base<key, value>] *)
Definition extendedType1 (base : string) (elem : tyref) (t : TypeInfo) : T tyref :=
  let fullName := base +:+ "<" +:+ ti_name t +:+ ">" in
  findOrPush (named fullName)
    ((mkTypeInfo fullName TK.Extended 0 false (ti_builtinSuffix t))
       <| ti_elementType := Some elem |> <| ti_extendedKind := base |>).

Definition extendedType2 (base : string) (key val : tyref) (kt vt : TypeInfo) : T tyref :=
  let fullName := base +:+ "<" +:+ ti_name kt +:+ ", " +:+ ti_name vt +:+ ">" in
  findOrPush (named fullName)
    ((mkTypeInfo fullName TK.Extended 0 false (ti_builtinSuffix kt +:+ "_" +:+ ti_builtinSuffix vt))
       <| ti_keyType := Some key |> <| ti_valueType := Some val |> <| ti_extendedKind := base |>).

Definition element (ts : typeSpec) (base : string) (elem : option tyref) : T (option tyref) :=
  match elem with
  | None => mret None
  | Some p =>
      t ← infoT p;
      if hasKind TK.Extended t then failS ts (nested base t)
      else q ← extendedType1 base p t; mret (Some q)
  end.

Definition keyValue (ts : typeSpec) (base : string) (key val : option tyref) : T (option tyref) :=
  match key, val with
  | Some k, Some v =>
      kt ← infoT k; vt ← infoT v;
      if hasKind TK.Extended kt then failS ts (nestedAs base "key" kt) else
      if hasKind TK.Extended vt then failS ts (nestedAs base "value" vt) else
      q ← extendedType2 base k v kt vt; mret (Some q)
  | _, _ => mret None
  end.

(** [vec<T>], [map<K, V>] and [set<T>]; the arguments are resolved when they are needed. *)
Definition collectionType (ts : typeSpec) (base : string) (args : list (T (option tyref))) : T (option tyref) :=
  match ext_lookup ext base with
  | None => failS ts (quote base +:+ " is not a known generic type")
  | Some desc =>
      if ed_genericArity desc =? 1 then
        match args with
        | [m] => elem ← m; element ts base elem
        | _ => failS ts (expects base 1 (length args))
        end
      else if ed_genericArity desc =? 2 then
        match args with
        | [mk; mv] => key ← mk; val ← mv; keyValue ts base key val
        | _ => failS ts (expects base 2 (length args))
        end
      else failS ts ("unsupported generic arity for " +:+ quote base)
  end.

(** [name<...>] with its arguments resolved. *)
Definition genericType (ts : typeSpec) (baseName : string) (args : list tyref) : T (option tyref) :=
  let genericBase := if bool_decide (is_Some (userImports_ g !! baseName))
                     then importedSymbolName g baseName else baseName in
  match findTemplate tpl genericBase with
  | Some k => instantiate k genericBase args ts
  | None =>
      if bool_decide (genericBase ∈ traitTemplates_ tpl) then p ← sentinel genericBase; mret (Some p) else
      match ext_lookup ext baseName with
      | None => failS ts (quote baseName +:+ " is not a known generic type")
      | Some desc =>
          if negb (isImported (importResolver_ g) baseName)
          then failS ts ("type " +:+ quote baseName +:+ " is not imported")
          else if ed_genericArity desc =? 1 then
            match args with
            | [p] => element ts baseName (Some p)
            | _ => failS ts (expects baseName 1 (length args))
            end
          else if ed_genericArity desc =? 2 then
            match args with
            | [k; v] => keyValue ts baseName (Some k) (Some v)
            | _ => failS ts (expects baseName 2 (length args))
            end
          else failS ts ("unsupported generic arity for " +:+ quote baseName)
      end
  end.

(** A type by its name. *)
Definition traitOr (name : string) (k : T (option tyref)) : T (option tyref) :=
  b ← isTrait name; if b : bool then p ← sentinel name; mret (Some p) else k.

Definition orLookup (m : T (option tyref)) (k : T (option tyref)) : T (option tyref) :=
  p ← m; match p with Some _ => mret p | None => k end.

Definition namedType (ts : typeSpec) (name : string) : T (option tyref) :=
  if bool_decide (name = "cstring") then
    c ← lookupT "char";
    match c with Some c => p ← pointerT c; mret (Some p) | None => undefT end
  else
  orLookup (lookupT name)
  (orLookup (match moduleRegistry_ g with
             | Some _ => ensureExternal name;; lookupT name
             | None => mret None
             end)
  (traitOr name
  (orLookup (if bool_decide (is_Some (userImports_ g !! name)) &&
                negb (bool_decide (importedSymbolName g name = name))
             then let exported := importedSymbolName g name in
                  orLookup (lookupT exported) (traitOr exported (mret None))
             else mret None)
  (failS ts (if bool_decide (is_Some (findTemplate tpl name))
             then "generic type " +:+ quote name +:+ " requires type parameters"
             else "unknown type " +:+ quote name))))).

Definition selfType (ts : typeSpec) (extended : option string) : T (option tyref) :=
  orLookup (match extended with Some n => lookupT n | None => mret None end)
    (failS ts "'Self' used outside of an 'extend' block").

(** ** The whole *)

(** [dims] counts the array dimensions around the specifier. *)
Fixpoint resolveSpec (dims : Z) (ts : typeSpec) {struct ts} : T (option tyref * Z) :=
  let all := fix go (l : list typeSpec) : T (option (list tyref)) :=
    match l with
    | [] => mret (Some [])
    | t :: l =>
        r ← resolveSpec 0 t;
        match r.1 with
        | None => mret None
        | Some p => ps ← go l; mret (cons p <$> ps)
        end
    end in
  let at_dims (m : T (option tyref)) : T (option tyref * Z) := p ← m; mret (p, dims) in
  let type1 t : T (option tyref) := r ← resolveSpec 0 t; mret r.1 in
  match ts with
  | TSArray d t =>
      let dims := to_uint32 (dims + 1) in
      ok ← checkDim ts d;
      if ok : bool then resolveSpec dims t else mret (None, dims)
  | TSVolatile t =>
      r ← resolveSpec 0 t;
      match r.1 with
      | None => mret (None, dims)
      | Some inner => p ← volatileType inner; mret (Some p, r.2)
      end
  | TSStar t =>
      if is_auto t then
        at_dims (failS ts "invalid use of '*' with 'auto': use 'auto' instead (auto infers pointer types automatically)")
      else
        r ← resolveSpec 0 t;
        match r.1 with
        | None => mret (None, dims)
        | Some inner => p ← pointerT inner; mret (Some p, r.2)
        end
  | TSPostStar t =>
      at_dims (failS ts (if is_auto t then
        "invalid use of '*' with 'auto': use 'auto' instead (auto infers pointer types automatically)"
        else "invalid pointer syntax: use '*" +:+ getText t +:+ "' instead of '" +:+ getText t +:+ "*'"))
  | TSFallible t err =>
      at_dims (
        i ← type1 t;
        match i with
        | None => mret None
        | Some inner =>
            e ← match err with Some e => type1 e | None => lookupT "Error" end;
            fallibleType ts inner e
        end)
  | TSFn params ret =>
      at_dims (
        r ← type1 ret;
        match r with
        | None => mret None
        | Some rt =>
            ps ← all params;
            match ps with None => mret None | Some ps => p ← functionType rt ps; mret (Some p) end
        end)
  | TSTuple ts' =>
      at_dims (
        if (length ts' <? 2)%nat then failS ts "tuple requires at least 2 type parameters" else
        ps ← all ts'; match ps with None => mret None | Some ps => tupleType ps end)
  | TSVec t => at_dims (collectionType ts "Vec" [type1 t])
  | TSMap k v => at_dims (collectionType ts "Map" [type1 k; type1 v])
  | TSSet t => at_dims (collectionType ts "Set" [type1 t])
  | TSGeneric name args =>
      at_dims (
        if (length args =? 0)%nat then failS ts ("generic type " +:+ quote name +:+ " requires type parameters") else
        ps ← all args; match ps with None => mret None | Some ps => genericType ts name ps end)
  | TSAuto => mret (None, dims)
  | TSSelf extended => at_dims (selfType ts extended)
  | TSDyn _ | TSPrim _ | TSIdent _ => at_dims (namedType ts (getText ts))
  end.

Definition resolveTypeSpec (ts : typeSpec) : T (option tyref * Z) := resolveSpec 0 ts.

(** ** Under a substitution *)

Definition Subst := gmap string (option tyref).

Definition nestedSubst (base : string) (t : TypeInfo) : string :=
  "nested collection types are not supported: '" +:+ base +:+ "<" +:+ ti_name t +:+ ">'".

(** [base<...>] with substituted arguments; [None] to resolve it as written. *)
Definition genericSubst (ts : typeSpec) (base : string) (args : list tyref) : T (option (option tyref)) :=
  match findTemplate tpl base with
  | Some k => p ← instantiate k base args ts; mret (Some p)
  | None =>
      match ext_lookup ext base with
      | None => mret None
      | Some desc =>
          if ed_genericArity desc =? 1 then
            match args with
            | [p] =>
                t ← infoT p;
                if hasKind TK.Extended t && bool_decide (base ∈ ["Vec"; "Map"; "Set"])
                then r ← failS ts (nestedSubst base t); mret (Some r)
                else q ← extendedType1 base p t; mret (Some (Some q))
            | _ => r ← failS ts (expects base 1 (length args)); mret (Some r)
            end
          else if ed_genericArity desc =? 2 then
            match args with
            | [k; v] =>
                kt ← infoT k; vt ← infoT v;
                if hasKind TK.Extended kt || hasKind TK.Extended vt
                then r ← failS ts ("nested collection types are not supported for " +:+ quote base); mret (Some r)
                else q ← extendedType2 base k v kt vt; mret (Some (Some q))
            | _ => r ← failS ts (expects base 2 (length args)); mret (Some r)
            end
          else mret None
      end
  end.

(** [resolveTypeSpecWithSubst], called with no array dimensions counted yet. *)
Fixpoint resolveTypeSpecWithSubst (subst : Subst) (ts : typeSpec) {struct ts} : T (option tyref * Z) :=
  let all := fix go (l : list typeSpec) : T (option (list tyref)) :=
    match l with
    | [] => mret (Some [])
    | t :: l =>
        r ← resolveTypeSpecWithSubst subst t;
        match r.1 with
        | None => mret None
        | Some p => ps ← go l; mret (cons p <$> ps)
        end
    end in
  let generic base args :=
    ps ← all args;
    match ps with
    | None => mret (None, 0)
    | Some ps =>
        r ← genericSubst ts base ps;
        match r with Some p => mret (p, 0) | None => resolveTypeSpec ts end
    end in
  if is_bare ts && bool_decide (is_Some (subst !! getText ts))
  then mret (default None (subst !! getText ts), 0)
  else match ts with
  | TSStar t | TSPostStar t =>
      r ← resolveTypeSpecWithSubst subst t;
      match r.1 with
      | None => mret (None, 0)
      | Some inner => p ← pointerT inner; mret (Some p, r.2)
      end
  | TSArray _ t =>
      r ← resolveTypeSpecWithSubst subst t;
      mret (r.1, to_uint32 ((if is_array t then r.2 else 0) + 1))
  | TSVec t => generic "Vec" [t]
  | TSMap k v => generic "Map" [k; v]
  | TSSet t => generic "Set" [t]
  | TSGeneric name args => generic name args
  | TSFn params ret =>
      r ← resolveTypeSpecWithSubst subst ret;
      match r.1 with
      | None => mret (None, 0)
      | Some rt =>
          ps ← all params;
          match ps with
          | None => mret (None, 0)
          | Some ps => p ← functionType rt ps; mret (Some p, 0)
          end
      end
  | _ => resolveTypeSpec ts
  end.

(** [resolveTypeSpecInContext]: with the parameters of the template being checked, if any. *)
Definition resolveSpecInContext (activeTypeSubst : Subst) (ts : typeSpec) : T (option tyref * Z) :=
  if bool_decide (activeTypeSubst = ∅) then resolveTypeSpec ts
  else resolveTypeSpecWithSubst activeTypeSubst ts.
End spec.
