(* ===== verification/TypeSpecSafety.v ===== *)
(** * Resolving type specifiers is safe

    [resolveTypeSpec] and [resolveTypeSpecWithSubst] keep the invariant of
    [ExprTypeSafety], with the triples of that file: no pointer to a type dangles, nothing
    that exists moves, and the nesting of types grows by the levels of the specifier. *)

From S2P Require Import Prelude.
From S2P Require Import CxxLib.
From S2P Require Import TypeInfo.
From S2P Require Import Assign.
From S2P Require Import Traits.
From S2P Require Import Syntax.
From S2P Require Import ComptimeValue.
From S2P Require Import ConstEval.
From S2P Require Import Ownership.
From S2P Require Import Modules.
From S2P Require Import Imports.
From S2P Require Import ExprType.
From S2P Require Import ExprTypeSafety.
From S2P Require Import Methods.
From S2P Require Import TypeSpec.
Local Open Scope nat_scope.

(** ** Induction on specifiers *)

Lemma typeSpec_children_ind (P : typeSpec → Prop) :
  (∀ ts, Forall P (spec_children ts) → P ts) → ∀ ts, P ts.
Proof.
  intros H. fix IH 1.
  assert (Hall : ∀ l, (∀ t, t ∈ l → P t) → Forall P l) by (intros l Hl; by apply Forall_forall).
  intros ts. apply H. destruct ts as [t|t|t|t|d t|t err|ps r|t|k v|t|l|n l|n| |n|x]; simpl;
    try (repeat (constructor; [apply IH|]); constructor).
  - constructor; [apply IH|]. destruct err as [e|]; repeat constructor. apply IH.
  - apply Forall_app. split; [|by repeat constructor].
    clear Hall. induction ps as [|p ps IHps]; constructor; [apply IH|exact IHps].
  - clear Hall. induction l as [|p l IHl]; constructor; [apply IH|exact IHl].
  - clear Hall. induction l as [|p l IHl]; constructor; [apply IH|exact IHl].
Qed.

Section safety.
Context (g : Tables) (fuel : nat) (tpl : Templates) (ext : ExtendedTypeRegistry).
Context (specPosition : typeSpec → context) (constLocals : gset string).
Context (constTypeSpec : string → option TypeInfo) (constDecl : ExportedSymbol → option expr).
Context (instantiate : TemplateKind → string → list tyref → typeSpec → T (option tyref)).
Context (ensureExternal : string → T unit).
Context (isTrait : string → T bool) (sentinel : string → T tyref).

(** How deep the types nest that the parameters make. *)
Context (L : nat).

Notation any := (λ _ _, True).

Record makers_safe : Prop := {
  mk_instantiate k n args ts s0 N : 0 < N → (∀ p, p ∈ args → exists_in s0 p) →
    safe g s0 N (instantiate k n args ts) (N + L) known;
  mk_external n s0 N : 0 < N → safe g s0 N (ensureExternal n) (N + L) any;
  mk_isTrait n s0 N : 0 < N → safe g s0 N (isTrait n) N any;
  mk_sentinel n s0 N : 0 < N → safe g s0 N (sentinel n) N (λ p, known (Some p));
  mk_const sym init types_ values : constDecl sym = Some init →
    match evaluateConstExpr types_ values constTypeSpec init with
    | Ret _ | Throw _ => True | _ => False end }.

Context (Hmk : makers_safe).

(** ** Steps *)

Lemma safe_errorS s0 N ts msg : safe g s0 N (errorS specPosition ts msg) N any.
Proof. apply safe_onChecker. Qed.

Lemma safe_failS s0 N N' ts msg : N ≤ N' →
  safe g s0 N (failS (A := tyref) specPosition ts msg) N' known.
Proof.
  intros HN. apply (safe_up _ _ N N); [done|]. eapply safe_bind; [apply safe_errorS|].
  intros. by apply safe_ret_known.
Qed.

Lemma safe_notConst s0 N ts msg : safe g s0 N (notConst specPosition ts msg) N any.
Proof. eapply safe_bind; [apply safe_errorS|]. intros. apply safe_ret. Qed.

Lemma safe_positive s0 N ts shown size : safe g s0 N (positive specPosition ts shown size) N any.
Proof.
  unfold positive. destruct (size <=? 0)%Z; [|apply safe_ret].
  eapply safe_bind; [apply safe_errorS|]. intros. apply safe_ret.
Qed.

Lemma stoll_defined base text : match stoll base text with Ret _ | Throw _ => True | _ => False end.
Proof. unfold stoll. repeat case_match; done. Qed.

Lemma safe_checkDim s0 N ts d :
  safe g s0 N (checkDim g specPosition constLocals constTypeSpec constDecl ts d) N any.
Proof.
  unfold checkDim. destruct d as [text|n|]; [| |apply safe_ret].
  - eapply safe_bind; [|intros; apply safe_positive].
    apply (safe_throw _ _ _ _ any). intros ?. pose proof (stoll_defined 10 text). by destruct (stoll 10 text).
  - eapply safe_bind; [apply safe_state|]. intros st s1 _ _ _.
    destruct (_ && _).
    { destruct (ty_compileTimeValues st !! n) as [[]|]; (apply safe_positive || apply safe_notConst). }
    destruct (userImports_ g !! n), (moduleRegistry_ g); try apply safe_notConst.
    destruct (findSymbol _ _ _) as [sym|]; [|apply safe_notConst].
    destruct (bool_decide (sym_kind sym = SConstant)); [|apply safe_notConst].
    destruct (constDecl sym) as [init|] eqn:Hd; [|apply safe_notConst].
    eapply safe_bind.
    + apply (safe_throw _ _ _ _ any). intros ?.
      pose proof (mk_const Hmk sym init (te_types (ty_env st)) (ty_compileTimeValues st) Hd).
      by destruct (evaluateConstExpr _ _ _ _).
    + intros v s2 _ _ _. destruct v as [[]|]; (apply safe_positive || apply safe_notConst).
Qed.

(** The first type that satisfies the test exists; a new one may be one level deeper. *)
Lemma safe_findOrPush s0 N p t :
  not_pointer t → (∀ q, q ∈ ti_pointers t → exists_in s0 q) →
  safe g s0 N (findOrPush p t) (S N) (λ q, known (Some q)).
Proof.
  intros Ht Hq. unfold findOrPush. eapply safe_bind; [apply safe_state|]. intros st s1 Hg Hok ->.
  destruct (list_find _ _) as [[i x]|] eqn:Hf.
  - apply (safe_up _ _ N N); [lia|]. intros s Hs Hoks. split_and!; [done..|].
    apply known_Some. apply (exists_grows s1); [done|]. apply list_find_Some in Hf as (Hi & _).
    by exists x.
  - apply safe_push; [done|lia..| |right; lia]. intros q Hin. eapply exists_grows; [done|by apply Hq].
Qed.

(** What a type that exists points at exists. *)
Lemma pointers_exist N s p t q : ok g N s → denotes (Some p) (Some t) s → q ∈ ti_pointers t → exists_in s q.
Proof. apply held_known. Qed.

Lemma safe_info_ok s0 N p : exists_in s0 p →
  safe g s0 N (infoT p) N (λ t s, resolve (ty_env s) p = Some t ∧ ∀ q, q ∈ ti_pointers t → exists_in s q).
Proof.
  intros Hp s Hs Hok. pose proof (safe_info g s0 N p Hp s Hs Hok) as H.
  destruct (infoT p s) as [t s'|x s'| |] eqn:E; [|done..]. destruct H as (Hg & Hok' & Ht).
  split_and!; [done..|]. intros q. by apply (pointers_exist N s' p t).
Qed.

Lemma safe_volatile s0 N p : exists_in s0 p → safe g s0 N (volatileType p) (S N) (λ q, known (Some q)).
Proof.
  intros Hp. unfold volatileType. eapply safe_bind; [by apply safe_info_ok|].
  intros t s1 _ _ [_ Ht]. apply safe_findOrPush; [|done]. unfold not_pointer. simpl. apply andb_false_r.
Qed.

Lemma safe_inherits s0 N p name : N < fuel → known p s0 →
  safe g s0 N (s ← getS; liftO (isOrInheritsFrom fuel (ty_env s) p name)) N any.
Proof.
  intros HN Hp. eapply safe_bind; [apply safe_state|]. intros st s1 Hg Hok ->.
  apply (safe_throw _ _ _ _ any). intros ?.
  destruct (isOrInheritsFrom_ends g fuel N s1 p name) as [b ->]; [done|done|by eapply known_grows|done].
Qed.

Lemma safe_fallible s0 N ts inner err : N < fuel → exists_in s0 inner → known err s0 →
  safe g s0 N (fallibleType fuel specPosition ts inner err) (S N) known.
Proof.
  intros HN Hi He. unfold fallibleType. destruct err as [et|]; [|by apply safe_failS; lia].
  assert (Het : exists_in s0 et) by by apply He.
  eapply safe_bind; [apply safe_state|]. intros st s1 Hg1 Hok1 ->.
  eapply (safe_bind _ _ _ N _ _ _ any).
  { apply (safe_throw _ _ _ _ any). intros ?.
    destruct (isOrInheritsFrom_ends g fuel N s1 (Some et) "Error") as [b ->]; [done|done| |done].
    by eapply known_grows. }
  intros b s2 Hg2 Hok2 _.
  eapply safe_bind; [apply safe_info; by do 2 (eapply exists_grows; [done|])|]. intros t s3 Hg3 _ _.
  destruct (_ && _); [by apply safe_failS; lia|].
  assert (Hi3 : exists_in s3 inner) by (do 3 (eapply exists_grows; [done|]); done).
  assert (He3 : exists_in s3 et) by (do 3 (eapply exists_grows; [done|]); done).
  eapply safe_bind; [by apply safe_info|]. intros i s4 Hg4 _ _.
  eapply (safe_bind _ _ _ (S N)).
  - apply safe_push; [done|lia..| |right; lia]. unfold ti_pointers. simpl.
    intros q [->|[->|[]%elem_of_nil]%elem_of_cons]%elem_of_cons; by eapply exists_grows.
  - intros p s5 _ _ Hp. by apply safe_ret_known.
Qed.

Lemma paramNames_ends e v i n ps : (∀ p, p ∈ ps → is_Some (resolve e p)) → ∃ x, paramNames e v i n ps = Ret x.
Proof.
  revert i. induction ps as [|p ps IH]; intros i Hp; [by eexists|]. cbn [paramNames].
  destruct (Hp p (list_elem_of_here _ _)) as [t Ht]. unfold deref. rewrite Ht. cbn [mbind outcome_bind].
  destruct (IH (S i)) as [x ->]; [intros q Hq; apply Hp; by right|]. by eexists.
Qed.

Lemma safe_function s0 N ret params : 0 < N → exists_in s0 ret → (∀ p, p ∈ params → exists_in s0 p) →
  safe g s0 N (functionType ret params) N (λ p, known (Some p)).
Proof.
  intros HN Hr Hp s Hs Hok.
  assert (Hr' : exists_in s ret) by by eapply exists_grows.
  assert (Hp' : ∀ p, p ∈ params → exists_in s p) by (intros; eapply exists_grows; eauto).
  unfold functionType, makeFunctionType.
  destruct (paramNames_ends (ty_env s) false 0 (length params) params Hp') as [x ->].
  destruct Hr' as [rt Hrt]. unfold deref. rewrite Hrt. cbn [mbind outcome_bind].
  match goal with |- context [pushDynamic _ ?t] => set (ti := t) end.
  pose proof (safe_push g s N N ti) as H. unfold safe, pushT in H.
  apply (H ltac:(done) (le_n _) HN); [|by left|done|done].
  unfold ti_pointers, ti. simpl. rewrite app_nil_r. intros q [->|Hq]%elem_of_cons; [by exists rt|].
  apply list_elem_of_bind in Hq as (o & Hq & Ho). apply list_elem_of_fmap in Ho as (p & -> & Hin).
  apply elem_of_cons in Hq as [->|[]%elem_of_nil]. by apply Hp'.
Qed.

Lemma safe_extended1 s0 N base p t : exists_in s0 p →
  safe g s0 N (extendedType1 base p t) (S N) (λ q, known (Some q)).
Proof.
  intros Hp. apply safe_findOrPush; [done|]. unfold ti_pointers. simpl.
  by intros q [->|[]%elem_of_nil]%elem_of_cons.
Qed.

Lemma safe_extended2 s0 N base k v kt vt : exists_in s0 k → exists_in s0 v →
  safe g s0 N (extendedType2 base k v kt vt) (S N) (λ q, known (Some q)).
Proof.
  intros Hk Hv. apply safe_findOrPush; [done|]. unfold ti_pointers. simpl.
  by intros q [->|[->|[]%elem_of_nil]%elem_of_cons]%elem_of_cons.
Qed.

(** A type as the optional result. *)
Lemma safe_some s0 N N' (m : T tyref) :
  safe g s0 N m N' (λ q, known (Some q)) → safe g s0 N (p ← m; mret (Some p)) N' known.
Proof. intros Hm. eapply safe_bind; [done|]. intros. by apply safe_ret_known. Qed.

Lemma safe_element s0 N ts base p : known p s0 → safe g s0 N (element specPosition ts base p) (S N) known.
Proof.
  intros Hp. unfold element. destruct p as [p|]; [|by apply (safe_up _ _ N N); [lia|apply safe_ret_known]].
  assert (Hpe : exists_in s0 p) by by apply Hp.
  eapply safe_bind; [by apply safe_info|]. intros t s1 Hg _ _.
  destruct (hasKind _ _); [apply safe_failS; lia|]. by apply safe_some, safe_extended1; eapply exists_grows.
Qed.

Lemma safe_keyValue s0 N ts base k v : known k s0 → known v s0 →
  safe g s0 N (keyValue specPosition ts base k v) (S N) known.
Proof.
  intros Hk Hv. unfold keyValue.
  destruct k as [k|], v as [v|]; try by (apply (safe_up _ _ N N); [lia|apply safe_ret_known]).
  assert (exists_in s0 k) by by apply Hk. assert (exists_in s0 v) by by apply Hv.
  eapply safe_bind; [by apply safe_info|]. intros kt s1 Hg1 _ _.
  eapply safe_bind; [by apply safe_info; eapply exists_grows|]. intros vt s2 Hg2 _ _.
  do 2 (destruct (hasKind _ _); [apply safe_failS; lia|]).
  by apply safe_some, safe_extended2; do 2 (eapply exists_grows; [done|]).
Qed.

(** The arguments of a collection, as triples that hold wherever they start. *)
Definition arg_safe (n : nat) (m : T (option tyref)) : Prop :=
  ∀ s0 N, 0 < N → N + n < fuel → safe g s0 N m (N + n) known.

Lemma safe_collection1 s0 N ts base m n : 0 < N → N + n < fuel → arg_safe n m →
  safe g s0 N (collectionType ext specPosition ts base [m]) (S (N + n)) known.
Proof.
  intros HN Hf Hm. unfold collectionType. destruct (ext_lookup ext base) as [desc|]; [|apply safe_failS; lia].
  destruct (_ =? 1)%Z.
  - eapply safe_bind; [by apply Hm|]. intros p s1 _ _ Hp. by apply safe_element.
  - destruct (_ =? 2)%Z; apply safe_failS; lia.
Qed.

Lemma safe_collection2 s0 N ts base mk mv n n' : 0 < N → N + n + n' < fuel → arg_safe n mk → arg_safe n' mv →
  safe g s0 N (collectionType ext specPosition ts base [mk; mv]) (S (N + n + n')) known.
Proof.
  intros HN Hf Hk Hv. unfold collectionType. destruct (ext_lookup ext base) as [desc|]; [|apply safe_failS; lia].
  destruct (_ =? 1)%Z; [apply safe_failS; lia|]. destruct (_ =? 2)%Z; [|apply safe_failS; lia].
  eapply safe_bind; [apply Hk; lia|]. intros k s1 Hg1 _ Hk1.
  eapply safe_bind; [apply Hv; lia|]. intros v s2 Hg2 _ Hv2.
  apply safe_keyValue; [by eapply known_grows|done].
Qed.

Lemma safe_generic s0 N ts base args : 0 < N → (∀ p, p ∈ args → exists_in s0 p) →
  safe g s0 N (genericType g tpl ext specPosition instantiate sentinel ts base args) (S (N + L)) known.
Proof.
  intros HN Ha. unfold genericType. destruct (findTemplate _ _) as [k|].
  { apply (safe_up _ _ N (N + L)); [lia|]. by apply (mk_instantiate Hmk). }
  destruct (bool_decide (_ ∈ _)).
  { apply (safe_up _ _ N N); [lia|]. by apply safe_some, (mk_sentinel Hmk). }
  destruct (ext_lookup ext base) as [desc|]; [|apply safe_failS; lia].
  destruct (negb _); [apply safe_failS; lia|]. destruct (_ =? 1)%Z.
  - destruct args as [|p [|? ?]]; try (apply safe_failS; lia).
    apply (safe_up _ _ N (S N)); [lia|]. apply safe_element, known_Some, Ha. by left.
  - destruct (_ =? 2)%Z; [|apply safe_failS; lia].
    destruct args as [|k [|v [|? ?]]]; try (apply safe_failS; lia).
    apply (safe_up _ _ N (S N)); [lia|]. apply safe_keyValue; apply known_Some, Ha; [by left|by right; left].
Qed.

Lemma safe_orLookup s0 N N1 N2 m k : N1 ≤ N2 → safe g s0 N m N1 known →
  (∀ s1, grows s0 s1 → safe g s1 N1 k N2 known) → safe g s0 N (orLookup m k) N2 known.
Proof.
  intros HN Hm Hk. eapply safe_bind; [done|]. intros p s1 Hg _ Hp.
  destruct p; [|by apply Hk]. apply (safe_up _ _ N1 N1); [done|]. by apply safe_ret_known.
Qed.

Lemma safe_traitOr s0 N name k : 0 < N → (∀ s1, grows s0 s1 → safe g s1 N k N known) →
  safe g s0 N (traitOr isTrait sentinel name k) N known.
Proof.
  intros HN Hk. eapply safe_bind; [by apply (mk_isTrait Hmk)|]. intros b s1 Hg _ _.
  destruct b; [|by apply Hk]. by apply safe_some, (mk_sentinel Hmk).
Qed.

Lemma safe_named s0 N ts name : 0 < N →
  safe g s0 N (namedType g tpl specPosition ensureExternal isTrait sentinel ts name) (N + L) known.
Proof.
  intros HN. unfold namedType. destruct (bool_decide (name = "cstring")).
  { apply (safe_up _ _ N N); [lia|]. intros s Hs Hok. unfold mbind, M_bind at 1. unfold lookupT at 1, mbind, M_bind, getS, mret, M_ret.
    destruct (ok_char _ _ _ Hok) as [t Ht]. unfold reg_lookup_ref. rewrite Ht. simpl.
    apply (safe_some s N N (pointerT (RegT "char"))); [|done|done].
    apply safe_pointer; [done|]. by exists t. }
  eapply (safe_orLookup _ _ N); [lia|apply safe_lookup|]. intros s1 _.
  eapply (safe_orLookup _ _ (N + L) (N + L)); [lia| |].
  { destruct (moduleRegistry_ g); [|by apply (safe_up _ _ N N); [lia|apply safe_ret_known]].
    eapply safe_bind; [by apply (mk_external Hmk)|]. intros. apply safe_lookup. }
  intros s2 _. apply safe_traitOr; [lia|]. intros s3 _.
  eapply (safe_orLookup _ _ (N + L)); [lia| |].
  { destruct (_ && _); [|by apply safe_ret_known].
    eapply safe_orLookup; [done|apply safe_lookup|]. intros s4 _.
    apply safe_traitOr; [lia|]. intros. by apply safe_ret_known. }
  intros s4 _. apply safe_failS. lia.
Qed.

Lemma safe_self s0 N ts x : safe g s0 N (selfType specPosition ts x) N known.
Proof.
  eapply safe_orLookup; [done| |intros; by apply safe_failS].
  destruct x; [apply safe_lookup|by apply safe_ret_known].
Qed.

(** ** The whole *)

(** How deep the types nest that a specifier makes. *)
Fixpoint levels (ts : typeSpec) : nat :=
  match ts with
  | TSVolatile t | TSVec t | TSSet t => S (levels t)
  | TSStar t | TSArray _ t => levels t
  | TSFallible t err => S (levels t + match err with Some e => levels e | None => 0 end)
  | TSFn params ret => levels ret + sum_list_with levels params
  | TSMap k v => S (levels k + levels v)
  | TSTuple ts => sum_list_with levels ts
  | TSGeneric _ args => S (sum_list_with levels args + L)
  | TSDyn _ | TSPrim _ | TSIdent _ => L
  | TSPostStar _ | TSAuto | TSSelf _ => 0
  end.

Notation rs := (resolveSpec g fuel tpl ext specPosition constLocals constTypeSpec constDecl instantiate
  ensureExternal isTrait sentinel).

Definition spec_safe (ts : typeSpec) : Prop := ∀ dims s0 N, 0 < N → N + levels ts < fuel →
  safe g s0 N (rs dims ts) (N + levels ts) (λ r, known r.1).

(** All of the arguments, or none. *)
Definition all_known (ps : option (list tyref)) (s : Typer) : Prop :=
  ∀ l p, ps = Some l → p ∈ l → exists_in s p.

Lemma all_cons s s' p ps : exists_in s p → grows s s' → all_known ps s' → all_known (cons p <$> ps) s'.
Proof.
  intros Hp Hg Hps l q Hl Hq. destruct ps as [l'|]; simplify_eq/=.
  apply elem_of_cons in Hq as [->|Hq]; [by eapply exists_grows|by eapply Hps].
Qed.

(** The loop over arguments of any resolver. *)
Lemma safe_all (P : Typer → Prop) (HP : ∀ s s', P s → grows s s' → P s')
    (res : typeSpec → T (option tyref * Z)) (depth : typeSpec → nat) l :
  Forall (λ t, ∀ s0 N, P s0 → 0 < N → N + depth t < fuel → safe g s0 N (res t) (N + depth t) (λ r, known r.1)) l →
  ∀ s0 N, P s0 → 0 < N → N + sum_list_with depth l < fuel →
  safe g s0 N ((fix go (l : list typeSpec) : T (option (list tyref)) :=
    match l with
    | [] => mret (Some [])
    | t :: l =>
        r ← res t;
        match r.1 with
        | None => mret None
        | Some p => ps ← go l; mret (cons p <$> ps)
        end
    end) l) (N + sum_list_with depth l) all_known.
Proof.
  induction 1 as [|t l Ht _ IH]; intros s0 N HPs HN Hf; cbn [sum_list_with] in *.
  - apply (safe_up _ _ N N); [lia|]. intros s Hs Hok. split_and!; [done..|].
    intros l p [= <-] Hp. by apply not_elem_of_nil in Hp.
  - eapply safe_bind; [apply Ht; [done|lia..]|]. intros r s1 Hg _ Hr. destruct r.1 as [p|] eqn:Er.
    + replace (N + (depth t + sum_list_with depth l)) with (N + depth t + sum_list_with depth l) by lia.
      eapply safe_bind; [apply IH; [by eapply HP|lia..]|]. intros ps s2 Hg2 _ Hps s Hs Hok. split_and!; [done..|].
      intros l' q Hl' Hq. apply (exists_grows s2); [done|].
      apply (all_cons s1 s2 p ps (Hr p Er) Hg2 Hps l' q Hl' Hq).
    + apply (safe_up _ _ (N + depth t) (N + depth t)); [lia|].
      intros s Hs Hok. split_and!; [done..|]. by intros ? ? [=].
Qed.

Lemma safe_all_some s0 N N' (ps : option (list tyref)) (f : list tyref → T (option tyref)) : N ≤ N' →
  (∀ l, ps = Some l → safe g s0 N (f l) N' known) →
  safe g s0 N (match ps with None => mret None | Some l => f l end) N' known.
Proof.
  intros HN H. destruct ps as [l|]; [by apply H|].
  apply (safe_up _ _ N N); [done|]. by apply safe_ret_known.
Qed.

Lemma safe_at_dims s0 N N' (m : T (option tyref)) (dims : Z) :
  safe g s0 N m N' known → safe g s0 N (p ← m; mret (p, dims)) N' (λ r, known r.1).
Proof.
  intros Hm. eapply safe_bind; [done|]. intros p s1 _ _ Hp s Hs Hok. split_and!; [done..|].
  by eapply known_grows.
Qed.

(** The type of an argument, without its dimensions. *)
Lemma safe_fst s0 N N' (m : T (option tyref * Z)) :
  safe g s0 N m N' (λ r, known r.1) → safe g s0 N (r ← m; mret r.1) N' known.
Proof. intros Hm. eapply safe_bind; [done|]. intros r s1 _ _ Hr. by apply safe_ret_known. Qed.

Lemma spec_arg ts : spec_safe ts → arg_safe (levels ts) (r ← rs 0 ts; mret r.1).
Proof. intros H s0 N HN Hf. apply safe_fst. by apply H. Qed.

Lemma safe_pair s0 N N' (p : option tyref) (d : Z) : N ≤ N' → known p s0 →
  safe g s0 N (mret (p, d)) N' (λ r, known r.1).
Proof.
  intros HN Hp. apply (safe_up _ _ N N); [done|]. intros s Hs Hok. split_and!; [done..|].
  by eapply known_grows.
Qed.

(** A type made from the one resolved. *)
Lemma safe_wrap s0 N N1 N2 (m : T (option tyref * Z)) (f : tyref → T tyref) dims : N1 ≤ N2 →
  safe g s0 N m N1 (λ r, known r.1) →
  (∀ p s1, exists_in s1 p → safe g s1 N1 (f p) N2 (λ q, known (Some q))) →
  safe g s0 N (r ← m; match r.1 with
                      | None => mret (None, dims)
                      | Some inner => p ← f inner; mret (Some p, r.2)
                      end) N2 (λ r, known r.1).
Proof.
  intros HN Hm Hf. eapply safe_bind; [done|]. intros r s1 _ _ Hr. destruct r.1 as [p|] eqn:E.
  - eapply safe_bind; [apply Hf; by apply Hr|]. intros q s2 _ _ Hq. by apply safe_pair.
  - apply safe_pair; [done|apply known_None].
Qed.

Lemma resolveSpec_safe ts : spec_safe ts.
Proof.
  induction ts as [ts IH] using typeSpec_children_ind. intros dims s0 N HN Hf.
  destruct ts as [t|t|t|t|d t|t err|ps r|t|k v|t|l|n l|n| |n|x]; cbn [spec_children] in IH;
    cbn [resolveSpec levels] in *.
  - inversion_clear IH as [|? ? Ht _]. eapply (safe_wrap _ _ (N + levels t)); [lia|apply Ht; lia|].
    intros p s1 Hp. replace (N + S (levels t)) with (S (N + levels t)) by lia. by apply safe_volatile.
  - by apply safe_at_dims, safe_named.
  - inversion_clear IH as [|? ? Ht _]. destruct (is_auto t); [by apply safe_at_dims, safe_failS; lia|].
    eapply safe_wrap; [done|by apply Ht|]. intros p s1 Hp. apply safe_pointer; [lia|done].
  - apply safe_at_dims, safe_failS. lia.
  - inversion_clear IH as [|? ? Ht _]. eapply safe_bind; [apply safe_checkDim|]. intros b s1 _ _ _.
    destruct b; [by apply Ht|]. apply safe_pair; [lia|apply known_None].
  - inversion_clear IH as [|? ? Ht Herr]. apply safe_at_dims.
    eapply safe_bind; [apply spec_arg; [done|lia..]|]. intros i s1 Hg _ Hi.
    destruct i as [inner|]; [|by apply (safe_up _ _ (N + levels t) (N + levels t)); [lia|apply safe_ret_known]].
    set (m := match err with Some e => levels e | None => 0 end) in *.
    replace (N + S (levels t + m)) with (S (N + levels t + m)) by lia.
    eapply (safe_bind _ _ _ (N + levels t + m) _ _ _ known).
    + subst m. destruct err as [e|].
      * inversion_clear Herr as [|? ? He _]. apply spec_arg; [done|lia..].
      * apply (safe_up _ _ (N + levels t) (N + levels t)); [lia|apply safe_lookup].
    + intros e s2 Hg2 _ He. apply safe_fallible; [lia| |done].
      eapply exists_grows; [done|]. by apply Hi.
  - apply Forall_app in IH as [Hps Hr]. inversion_clear Hr as [|? ? Ht _]. apply safe_at_dims.
    eapply safe_bind; [apply spec_arg; [done|lia..]|]. intros rt s1 Hg _ Hrt. destruct rt as [rt|].
    + eapply safe_bind.
      { apply (safe_all (λ _, True) (λ _ _ _ _, I) (rs 0) levels); [|done|lia..].
        eapply Forall_impl; [exact Hps|]. intros t Hp ? ? _. apply Hp. }
      intros qs s2 Hg2 _ Hqs. rewrite <-Nat.add_assoc. apply safe_all_some; [done|]. intros l' ->.
      apply safe_some, safe_function; [lia|eapply exists_grows; [done|by apply Hrt]|]. by intros; eapply Hqs.
    + apply (safe_up _ _ (N + levels r) (N + levels r)); [lia|]. by apply safe_ret_known.
  - inversion_clear IH as [|? ? Ht _]. apply safe_at_dims. rewrite Nat.add_succ_r.
    apply safe_collection1; [lia..|by apply spec_arg].
  - inversion_clear IH as [|? ? Hk Hv']. inversion_clear Hv' as [|? ? Hv _]. apply safe_at_dims.
    rewrite Nat.add_succ_r, Nat.add_assoc. apply safe_collection2; [lia..|by apply spec_arg|by apply spec_arg].
  - inversion_clear IH as [|? ? Ht _]. apply safe_at_dims. rewrite Nat.add_succ_r.
    apply safe_collection1; [lia..|by apply spec_arg].
  - apply safe_at_dims. destruct (_ <? _); [apply safe_failS; lia|]. eapply safe_bind.
    { apply (safe_all (λ _, True) (λ _ _ _ _, I) (rs 0) levels); [|done|lia..].
      eapply Forall_impl; [exact IH|]. intros t Hp ? ? _. apply Hp. }
    intros qs s2 Hg2 _ Hqs. apply safe_all_some; [done|]. intros l' ->.
    apply (safe_tupleType g fuel); [lia..|]. by intros; eapply Hqs.
  - apply safe_at_dims. destruct (_ =? _); [apply safe_failS; lia|]. eapply safe_bind.
    { apply (safe_all (λ _, True) (λ _ _ _ _, I) (rs 0) levels); [|done|lia..].
      eapply Forall_impl; [exact IH|]. intros t Hp ? ? _. apply Hp. }
    intros qs s2 Hg2 _ Hqs. apply safe_all_some; [lia|]. intros l' ->.
    replace (N + S (sum_list_with levels l + L)) with (S (N + sum_list_with levels l + L)) by lia.
    apply safe_generic; [lia|]. by intros; eapply Hqs.
  - by apply safe_at_dims, safe_named.
  - apply safe_pair; [lia|apply known_None].
  - by apply safe_at_dims, safe_named.
  - apply safe_at_dims. apply (safe_up _ _ N N); [lia|]. apply safe_self.
Qed.

(** ** Under a substitution *)

Fixpoint slevels (ts : typeSpec) : nat :=
  match ts with
  | TSStar t | TSPostStar t | TSArray _ t => slevels t
  | TSFn params ret => slevels ret + sum_list_with slevels params
  | TSVec t | TSSet t => slevels t + S L + levels ts
  | TSMap k v => slevels k + slevels v + S L + levels ts
  | TSGeneric _ args => sum_list_with slevels args + S L + levels ts
  | _ => levels ts
  end.

Notation ws := (resolveTypeSpecWithSubst g fuel tpl ext specPosition constLocals constTypeSpec constDecl
  instantiate ensureExternal isTrait sentinel).
Notation rspec := (resolveTypeSpec g fuel tpl ext specPosition constLocals constTypeSpec constDecl
  instantiate ensureExternal isTrait sentinel).

(** The types a substitution holds exist. *)
Definition subst_known (subst : Subst) (s : Typer) : Prop := ∀ x p, subst !! x = Some (Some p) → exists_in s p.

Lemma subst_grows subst s s' : subst_known subst s → grows s s' → subst_known subst s'.
Proof. intros H Hg x p Hx. eapply exists_grows; eauto. Qed.

Definition subst_safe (subst : Subst) (ts : typeSpec) : Prop := ∀ s0 N, subst_known subst s0 →
  0 < N → N + slevels ts < fuel → safe g s0 N (ws subst ts) (N + slevels ts) (λ r, known r.1).

Lemma safe_genericSubst s0 N ts base args : 0 < N → (∀ p, p ∈ args → exists_in s0 p) →
  safe g s0 N (genericSubst tpl ext specPosition instantiate ts base args) (N + S L)
    (λ r s, ∀ p, r = Some p → known p s).
Proof.
  intros HN Ha. unfold genericSubst.
  assert (Hsome : ∀ s1 N1 (m : T (option tyref)), grows s0 s1 → safe g s1 N1 m (N + S L) known →
    safe g s1 N1 (r ← m; mret (Some r)) (N + S L) (λ r s, ∀ p, r = Some p → known p s)).
  { intros s1 N1 m _ Hm. eapply safe_bind; [done|]. intros p s2 _ _ Hp s Hs Hok. split_and!; [done..|].
    intros q [= <-]. by eapply known_grows. }
  assert (Hnone : safe g s0 N (mret None) (N + S L) (λ (r : option (option tyref)) s, ∀ p, r = Some p → known p s)).
  { apply (safe_up _ _ N N); [lia|]. by intros s Hs Hok. }
  destruct (findTemplate tpl base) as [k|].
  { apply Hsome; [done|]. apply (safe_up _ _ N (N + L)); [lia|]. by apply (mk_instantiate Hmk). }
  destruct (ext_lookup ext base) as [desc|]; [|done]. destruct (_ =? 1)%Z.
  - destruct args as [|p [|? ?]]; try (apply Hsome; [done|]; apply safe_failS; lia).
    assert (Hp : exists_in s0 p) by (apply Ha; by left).
    eapply safe_bind; [by apply safe_info|]. intros t s1 Hg _ _.
    destruct (_ && _); [apply Hsome; [done|]; apply safe_failS; lia|].
    eapply (safe_bind _ _ _ (S N)); [apply safe_extended1; by eapply exists_grows|].
    intros q s2 _ _ Hq. apply (safe_up _ _ (S N) (S N)); [lia|]. intros s Hs Hok. split_and!; [done..|].
    intros q' [= <-]. exact (known_grows _ _ _ Hq Hs).
  - destruct (_ =? 2)%Z; [|done].
    destruct args as [|k [|v [|? ?]]]; try (apply Hsome; [done|]; apply safe_failS; lia).
    assert (Hk : exists_in s0 k) by (apply Ha; by left).
    assert (Hv : exists_in s0 v) by (apply Ha; by right; left).
    eapply safe_bind; [by apply safe_info|]. intros kt s1 Hg _ _.
    eapply safe_bind; [by apply safe_info; eapply exists_grows|]. intros vt s2 Hg2 _ _.
    destruct (_ || _); [apply Hsome; [by etrans|]; apply safe_failS; lia|].
    assert (grows s0 s2) by by etrans.
    eapply (safe_bind _ _ _ (S N)); [by apply safe_extended2; apply (exists_grows s0)|].
    intros q s3 _ _ Hq. apply (safe_up _ _ (S N) (S N)); [lia|]. intros s Hs Hok. split_and!; [done..|].
    intros q' [= <-]. exact (known_grows _ _ _ Hq Hs).
Qed.

Lemma resolveTypeSpecWithSubst_safe subst ts : subst_safe subst ts.
Proof.
  induction ts as [ts IH] using typeSpec_children_ind. intros s0 N Hs HN Hf.
  assert (Hplain : slevels ts = levels ts → safe g s0 N (rspec ts) (N + slevels ts) (λ r, known r.1)).
  { intros E. rewrite E in *. by apply resolveSpec_safe. }
  assert (Hb : ∀ m, (is_bare ts && bool_decide (is_Some (subst !! getText ts)) = false →
      safe g s0 N m (N + slevels ts) (λ r, known r.1)) →
    safe g s0 N (if is_bare ts && bool_decide (is_Some (subst !! getText ts))
                 then mret (default None (subst !! getText ts), 0%Z) else m) (N + slevels ts) (λ r, known r.1)).
  { intros m Hm. destruct (_ && _); [|by apply Hm]. apply safe_pair; [lia|].
    destruct (subst !! getText ts) as [o|] eqn:E; [|apply known_None].
    intros p Hp. simpl in Hp. subst o. by apply (Hs (getText ts)). }
  assert (Hgen : ∀ base args, Forall (subst_safe subst) args →
    slevels ts = sum_list_with slevels args + S L + levels ts →
    safe g s0 N (ps ← (fix go (l : list typeSpec) : T (option (list tyref)) :=
        match l with
        | [] => mret (Some [])
        | t :: l =>
            r ← ws subst t;
            match r.1 with
            | None => mret None
            | Some p => ps ← go l; mret (cons p <$> ps)
            end
        end) args;
      match ps with
      | None => mret (None, 0%Z)
      | Some ps =>
          r ← genericSubst tpl ext specPosition instantiate ts base ps;
          match r with Some p => mret (p, 0%Z) | None => rspec ts end
      end) (N + slevels ts) (λ r, known r.1)).
  { intros base args Hargs E. rewrite E in *. eapply safe_bind.
    { apply (safe_all (subst_known subst) (subst_grows subst) (ws subst) slevels); [|done|lia..].
      eapply Forall_impl; [exact Hargs|]. intros t Hp. apply Hp. }
    intros ps s1 Hg _ Hps. destruct ps as [l|]; [|apply safe_pair; [lia|apply known_None]].
    eapply safe_bind; [apply safe_genericSubst; [lia|by intros; eapply Hps]|].
    intros r s2 _ _ Hr. destruct r as [p|]; [apply safe_pair; [lia|by apply Hr]|].
    rewrite !Nat.add_assoc. apply resolveSpec_safe; lia. }
  destruct ts as [t|t|t|t|d t|t err|ps r|t|k v|t|l|n l|n| |n|x]; cbn [spec_children] in IH;
    cbn [resolveTypeSpecWithSubst]; apply Hb; intros _; try by apply Hplain.
  - inversion_clear IH as [|? ? Ht _]. eapply safe_wrap; [done|by apply Ht|].
    intros p s1 Hp. apply safe_pointer; [lia|done].
  - inversion_clear IH as [|? ? Ht _]. eapply safe_wrap; [done|by apply Ht|].
    intros p s1 Hp. apply safe_pointer; [lia|done].
  - inversion_clear IH as [|? ? Ht _]. eapply safe_bind; [by apply Ht|]. intros r s1 _ _ Hr.
    by apply safe_pair.
  - apply Forall_app in IH as [Hps Hr]. inversion_clear Hr as [|? ? Ht _]. cbn [slevels] in *.
    eapply safe_bind; [apply Ht; [done|lia..]|]. intros rt s1 Hg _ Hrt. rewrite Nat.add_assoc.
    destruct rt.1 as [q|] eqn:Eq; [|apply safe_pair; [lia|apply known_None]].
    eapply safe_bind.
    { apply (safe_all (subst_known subst) (subst_grows subst) (ws subst) slevels); [|by eapply subst_grows|lia..].
      eapply Forall_impl; [exact Hps|]. intros t Hp. apply Hp. }
    intros qs s2 Hg2 _ Hqs. destruct qs as [l|]; [|apply safe_pair; [lia|apply known_None]].
    eapply safe_bind; [apply safe_function; [lia| |by intros; eapply Hqs]|].
    { apply (exists_grows s1); [done|]. by apply Hrt. }
    intros p s3 _ _ Hp. by apply safe_pair.
  - apply (Hgen "Vec" [t]); [done|]. simpl. lia.
  - apply (Hgen "Map" [k; v]); [done|]. simpl. lia.
  - apply (Hgen "Set" [t]); [done|]. simpl. lia.
  - apply (Hgen n l); [done|]. simpl. lia.
Qed.

(** C10: Resolving a type specifier, as written or with the parameters of a template replaced,
    in a state without dangling pointers, with unique pointer types of depth below [N], never
    dereferences null or a dangling pointer and needs no more fuel than [N] and the levels of
    the specifier: it returns, or an array size beyond 64 bits throws.  On both ways out every
    type stays where it was and the types of variables are as before; the type returned is
    null or exists, and the invariant holds again, with the new types at most [levels] deeper.
    Of the instantiation of templates and the other parameters the same is assumed. *)
Theorem resolveTypeSpec_safe subst ts N s :
  ok g N s → subst_known subst s → 0 < N → N + slevels ts < fuel → N + levels ts < fuel →
  (match rspec ts s with
   | ROk (p, _) s' => grows s s' ∧ ok g (N + levels ts) s' ∧ known p s'
   | RThrow _ s' => grows s s'
   | _ => False
   end) ∧
  match ws subst ts s with
  | ROk (p, _) s' => grows s s' ∧ ok g (N + slevels ts) s' ∧ known p s'
  | RThrow _ s' => grows s s'
  | _ => False
  end.
Proof.
  intros Hok Hs HN Hf Hf'. split.
  - pose proof (resolveSpec_safe ts 0%Z s N HN Hf' s (reflexivity _) Hok) as H.
    unfold resolveTypeSpec. by destruct (rs 0%Z ts s) as [[p d] s'|x s'| |].
  - pose proof (resolveTypeSpecWithSubst_safe subst ts s N Hs HN Hf s (reflexivity _) Hok) as H.
    by destruct (ws subst ts s) as [[p d] s'|x s'| |].
Qed.

(** ** The resolvers as parameters of [resolveExprType] *)

(** [specs] are the specifiers of the file by their text; a null context is an error. *)
Definition specOf (res : typeSpec → T (option tyref * Z)) (specs : gmap string typeSpec) (ts : option string)
    : T (option tyref * Z) :=
  match ts ≫= (specs !!.) with
  | Some ts => res ts
  | None => onChecker (error None "invalid type specification");; mret (None, 0%Z)
  end.

Lemma specOf_gives_type res specs D : 
  (∀ text ts, specs !! text = Some ts → ∀ s0 N, 0 < N → N + D < fuel →
     safe g s0 N (res ts) (N + D) (λ r, known r.1)) →
  ∀ ts, gives_type g fuel D fst (specOf res specs ts).
Proof.
  intros H ts s0 N HN Hf. unfold specOf. destruct (ts ≫= (specs !!.)) as [t|] eqn:E.
  - destruct ts as [text|]; [|done]. by apply (H text).
  - apply (safe_up _ _ N N); [lia|]. eapply safe_bind; [apply safe_onChecker|].
    intros. apply safe_pair; [done|apply known_None].
Qed.

(** With specifiers of at most [D] levels, [resolveTypeSpec] is a parameter that
    [resolveExprType_safe] allows, in any context without active type parameters. *)
Lemma resolveTypeSpec_parameter specs D declarator resolveRest restDims :
  map_Forall (λ _ ts, levels ts ≤ D) specs →
  (∀ sym cd init, declarator sym = Some cd → cd_expression cd = Some init → gives_type g fuel D id init) →
  (∀ e, gives_type g fuel D id (resolveRest e)) →
  (∀ e s0 N, 0 < N → N + D < fuel → safe g s0 N (restDims e) (N + D) any) →
  parameters_safe g fuel (specOf rspec specs) (specOf rspec specs) declarator resolveRest restDims D.
Proof.
  intros Hspecs Hd Hr Hn.
  assert (Hs : ∀ ts, gives_type g fuel D fst (specOf rspec specs ts)).
  { apply specOf_gives_type. intros text ts Hts s0 N HN Hf. pose proof (Hspecs _ _ Hts) as Hle. cbv beta in Hle.
    apply (safe_up _ _ N (N + levels ts)); [lia|]. apply resolveSpec_safe; lia. }
  by split.
Qed.
End safety.

(** ** An example: a map from strings to pointers to arrays *)

Definition noInstance (k : TemplateKind) (n : string) (args : list tyref) (ts : typeSpec) : T (option tyref) :=
  mret None.
Definition noExternal (n : string) : T unit := mret ().
Definition noTrait (n : string) : T bool := mret false.
Definition charSentinel (n : string) : T tyref := mret (RegT "char").
Definition noTemplates : Templates := {|
  structTemplates_ := ∅; unionTemplates_ := ∅; enumTemplates_ := ∅; traitTemplates_ := ∅ |}.

Lemma example_makers : makers_safe exampleTables (λ _, None) (λ _, None) noInstance noExternal noTrait
  charSentinel 0.
Proof.
  split; [| | | |done].
  - intros. rewrite Nat.add_0_r. by apply safe_ret_known.
  - intros. rewrite Nat.add_0_r. apply safe_ret.
  - intros. apply safe_ret.
  - intros n s0 N _ s Hs Hok. split_and!; [done..|]. apply known_Some. apply (ok_char _ _ _ Hok).
Qed.

(** [map<string, *[4]T>] *)
Definition map_spec (t : typeSpec) : typeSpec := TSMap (TSPrim "string") (TSStar (TSArray (DimLit "4") t)).

Notation example_resolver f := (f exampleTables 20 noTemplates newExtendedTypeRegistry (λ _, None) ∅ (λ _, None)
  (λ _, None) noInstance noExternal noTrait charSentinel).
Definition T_is_int : Subst := {[ "T" := Some (RegT "int32") ]}.

Definition resolved_name (r : result Typer (option tyref * Z)) : option string :=
  match r with ROk (Some p, _) s => ti_name <$> resolve (ty_env s) p | _ => None end.

Example map_of_arrays :
  resolved_name (example_resolver resolveTypeSpec (map_spec (TSPrim "int32")) startTyper)
    = Some "Map<string, *int32>" ∧
  resolved_name (example_resolver resolveTypeSpecWithSubst T_is_int (map_spec (TSIdent "T")) startTyper)
    = Some "Map<string, *int32>".
Proof. split; vm_compute; reflexivity. Qed.

Lemma resolveTypeSpec_safe_witness :
  (match example_resolver resolveTypeSpec (map_spec (TSIdent "T")) startTyper with
   | ROk (p, _) s' => grows startTyper s' ∧ ok exampleTables (1 + levels 0 (map_spec (TSIdent "T"))) s' ∧ known p s'
   | RThrow _ s' => grows startTyper s'
   | _ => False
   end) ∧
  match example_resolver resolveTypeSpecWithSubst T_is_int (map_spec (TSIdent "T")) startTyper with
  | ROk (p, _) s' => grows startTyper s' ∧ ok exampleTables (1 + slevels 0 (map_spec (TSIdent "T"))) s' ∧ known p s'
  | RThrow _ s' => grows startTyper s'
  | _ => False
  end.
Proof.
  apply resolveTypeSpec_safe.
  - apply example_makers.
  - apply startTyper_ok.
  - intros x p H. unfold T_is_int in H. apply lookup_singleton_Some in H as [_ [= <-]].
    eexists. vm_compute. reflexivity.
  - lia.
  - simpl. lia.
  - simpl. lia.
Defined.
