(* ===== verification/GenericInfer.v ===== *)
(** * Inference of generic arguments

    The type arguments of a call are inferred twice: by the checker
    ([Checker::inferGenericTypeArgs] and [unifyGenericTypeArg],
    [checkers/Checker_generic.cpp]), which reports errors, and by the code generator
    ([IRGen::inferGenericTypeArgs], [IRBuilder/IRGen_generic.cpp]), which does not.  Both match
    the specifier of a parameter with the type of its argument and fill a table.

    [matches] says what a substitution has to satisfy; inference finds the least one. *)

From S2P Require Import Prelude.
From S2P Require Import CxxLib.
From S2P Require Import TypeInfo.
From S2P Require Import Assign.
From S2P Require Import Ownership.
From S2P Require Import ExprType.
From S2P Require Import Methods.
From S2P Require Import TypeSpec.
From S2P Require Import ExprTypeSafety.
From S2P Require Import TypeSpecSafety.
Local Open Scope Z_scope.

(** [inferred] *)
Notation Inferred := (gmap string tyref).

(** [typeSpecMentionsGenericParam]; the specifiers inside a function type are not children of
    its context. *)
Fixpoint mentions (genericParams : gset string) (ts : typeSpec) : bool :=
  if is_bare ts then bool_decide (getText ts ∈ genericParams) else
  match ts with
  | TSStar t | TSPostStar t | TSArray _ t | TSVec t | TSSet t => mentions genericParams t
  | TSMap k v => mentions genericParams k || mentions genericParams v
  | TSTuple l | TSGeneric _ l => existsb (mentions genericParams) l
  | _ => false
  end.

(** The arguments of an instance of the template or built-in type [baseName]; [n] are
    expected. *)
Definition instanceArgs (baseName : string) (n : nat) (t : TypeInfo) : option (list (option tyref)) :=
  if ti_isGenericInstance t && bool_decide (ti_genericBaseName t = baseName) then Some (ti_typeArgs t) else
  if hasKind TK.Extended t && bool_decide (ti_extendedKind t = baseName) then
    match n, ti_elementType t, ti_keyType t, ti_valueType t with
    | 1%nat, Some el, _, _ => Some [Some el]
    | 2%nat, _, Some k, Some v => Some [Some k; Some v]
    | _, _, _, _ => None
    end
  else None.

Definition isCollection (kind : string) (t : TypeInfo) : bool :=
  hasKind TK.Extended t && bool_decide (ti_extendedKind t = kind).

(** ** The checker's inference *)

Section checker.
Context (genericParams : gset string) (ctx : context) (displayName : string).

(** The answer, the table, and whether an error was reported. *)
#[local] Notation Unified := (bool * Inferred * bool)%type.

Definition unifyParam (inferred : Inferred) (name : string) (actual : tyref) : T Unified :=
  match inferred !! name with
  | None => mret (true, <[name := actual]> inferred, false)
  | Some q =>
      if bool_decide (q = actual) then mret (true, inferred, false) else
      qt ← infoT q; at_ ← infoT actual;
      if bool_decide (ti_name qt = ti_name at_) then mret (true, inferred, false) else
      onChecker (error ctx ("ambiguous generic inference for '" +:+ displayName +:+ "': '" +:+ name +:+
        "' was inferred as both '" +:+ ti_name qt +:+ "' and '" +:+ ti_name at_ +:+ "'"));;
      mret (false, inferred, true)
  end.

Fixpoint unifyGenericTypeArg (formal : typeSpec) (actual : option tyref) (inferred : Inferred) {struct formal}
    : T Unified :=
  let all := fix go (l : list typeSpec) (args : list (option tyref)) (inferred : Inferred) : T Unified :=
    match l, args with
    | t :: l, a :: args =>
        r ← unifyGenericTypeArg t a inferred;
        if r.1.1 : bool then go l args r.1.2 else mret r
    | _, _ => mret (true, inferred, false)
    end in
  if negb (mentions genericParams formal) then mret (true, inferred, false) else
  match actual with
  | None => mret (false, inferred, false)
  | Some p =>
      if is_bare formal then unifyParam inferred (getText formal) p else
      if is_array formal then mret (true, inferred, false) else
      t ← infoT p;
      match formal with
      | TSStar f | TSPostStar f =>
          match hasKind TK.Pointer t, ti_pointeeType t with
          | true, Some q => unifyGenericTypeArg f (Some q) inferred
          | _, _ => mret (false, inferred, false)
          end
      | TSVec f =>
          match isCollection "Vec" t, ti_elementType t with
          | true, Some q => unifyGenericTypeArg f (Some q) inferred
          | _, _ => mret (false, inferred, false)
          end
      | TSSet f =>
          match isCollection "Set" t, ti_elementType t with
          | true, Some q => unifyGenericTypeArg f (Some q) inferred
          | _, _ => mret (false, inferred, false)
          end
      | TSMap fk fv =>
          match isCollection "Map" t, ti_keyType t, ti_valueType t with
          | true, Some k, Some v =>
              r ← unifyGenericTypeArg fk (Some k) inferred;
              if r.1.1 : bool then unifyGenericTypeArg fv (Some v) r.1.2 else mret r
          | _, _, _ => mret (false, inferred, false)
          end
      | TSTuple l =>
          if hasKind TK.Tuple t && (length (ti_tupleElements t) =? length l)%nat
          then all l (ti_tupleElements t) inferred
          else mret (false, inferred, false)
      | TSGeneric baseName l =>
          match instanceArgs baseName (length l) t with
          | Some args =>
              if (length args =? length l)%nat then all l args inferred else mret (false, inferred, false)
          | None => mret (false, inferred, false)
          end
      | _ => mret (true, inferred, false)
      end
  end.

(** The loop over the parameters, those without a specifier left out. *)
Fixpoint inferLoop (i : nat) (formals : list (option typeSpec)) (args : list (option tyref))
    (inferred : Inferred) : T (option Inferred) :=
  match formals, args with
  | None :: formals, _ :: args => inferLoop (S i) formals args inferred
  | Some f :: formals, a :: args =>
      if negb (mentions genericParams f) then inferLoop (S i) formals args inferred else
      r ← unifyGenericTypeArg f a inferred;
      if r.1.1 : bool then inferLoop (S i) formals args r.1.2 else
      (if r.2 : bool then mret () else
        n ← match a with Some p => t ← infoT p; mret (ti_name t) | None => mret "<unknown>" end;
        onChecker (error ctx ("cannot infer generic type parameter(s) for '" +:+ displayName +:+
          "' from argument " +:+ to_string (Z.of_nat i + 1) +:+ " of type '" +:+ n +:+ "'")));;
      mret None
  | _, _ => mret (Some inferred)
  end.
End checker.

(** [resolveTypeParamConstraint] and [satisfiesConstraint] for a constrained parameter. *)
Definition Constraint := tyref → T bool.

(** The arguments in the order of the parameters. *)
Fixpoint collectArgs (ctx : context) (displayName : string) (typeParams : list (string * option Constraint))
    (inferred : Inferred) : T (option (list tyref)) :=
  match typeParams with
  | [] => mret (Some [])
  | (x, constraint) :: typeParams =>
      match inferred !! x with
      | None =>
          onChecker (error ctx ("cannot infer generic type parameter '" +:+ x +:+ "' for '" +:+
                                displayName +:+ "'"));;
          mret None
      | Some p =>
          ok ← match constraint with Some c => c p | None => mret true end;
          if negb ok then mret None else
          ps ← collectArgs ctx displayName typeParams inferred; mret (cons p <$> ps)
      end
  end.

Definition inferGenericTypeArgs (ctx : context) (displayName : string)
    (typeParams : list (string * option Constraint)) (formals : list (option typeSpec))
    (args : list (option tyref)) : T (option (list tyref)) :=
  if negb (length formals =? length args)%nat then mret None else
  inferred ← inferLoop (list_to_set typeParams.*1) ctx displayName 0 formals args ∅;
  match inferred with
  | None => mret None
  | Some inferred => collectArgs ctx displayName typeParams inferred
  end.

(** ** The code generator's inference *)

Section generator.
Context (genericParams : gset string) (e : type_env).

Definition genParam (inferred : Inferred) (name : string) (actual : tyref) : outcome (bool * Inferred) :=
  match inferred !! name with
  | None => Ret (true, <[name := actual]> inferred)
  | Some q =>
      if bool_decide (q = actual) then Ret (true, inferred) else
      qt ← deref e q; at_ ← deref e actual;
      Ret (bool_decide (ti_name qt = ti_name at_), inferred)
  end.

Fixpoint genUnify (formal : typeSpec) (actual : option tyref) (inferred : Inferred) {struct formal}
    : outcome (bool * Inferred) :=
  let all := fix go (l : list typeSpec) (args : list (option tyref)) (inferred : Inferred)
      : outcome (bool * Inferred) :=
    match l, args with
    | t :: l, a :: args =>
        r ← genUnify t a inferred;
        if r.1 : bool then go l args r.2 else Ret r
    | _, _ => Ret (true, inferred)
    end in
  if negb (mentions genericParams formal) then Ret (true, inferred) else
  match actual with
  | None => Ret (false, inferred)
  | Some p =>
      if is_bare formal then genParam inferred (getText formal) p else
      if is_array formal then Ret (true, inferred) else
      t ← deref e p;
      match formal with
      | TSStar f | TSPostStar f =>
          match hasKind TK.Pointer t, ti_pointeeType t with
          | true, Some q => genUnify f (Some q) inferred
          | _, _ => Ret (false, inferred)
          end
      | TSVec f =>
          match isCollection "Vec" t, ti_elementType t with
          | true, Some q => genUnify f (Some q) inferred
          | _, _ => Ret (false, inferred)
          end
      | TSSet f =>
          match isCollection "Set" t, ti_elementType t with
          | true, Some q => genUnify f (Some q) inferred
          | _, _ => Ret (false, inferred)
          end
      | TSMap fk fv =>
          match isCollection "Map" t, ti_keyType t, ti_valueType t with
          | true, Some k, Some v =>
              r ← genUnify fk (Some k) inferred;
              if r.1 : bool then genUnify fv (Some v) r.2 else Ret r
          | _, _, _ => Ret (false, inferred)
          end
      | TSTuple l =>
          if hasKind TK.Tuple t && (length (ti_tupleElements t) =? length l)%nat
          then all l (ti_tupleElements t) inferred
          else Ret (false, inferred)
      | TSGeneric baseName l =>
          match instanceArgs baseName (length l) t with
          | Some args =>
              if (length args =? length l)%nat then all l args inferred else Ret (false, inferred)
          | None => Ret (false, inferred)
          end
      | _ => Ret (true, inferred)
      end
  end.

Fixpoint genLoop (formals : list (option typeSpec)) (args : list (option tyref)) (inferred : Inferred)
    : outcome (option Inferred) :=
  match formals, args with
  | None :: formals, _ :: args => genLoop formals args inferred
  | Some f :: formals, a :: args =>
      if negb (mentions genericParams f) then genLoop formals args inferred else
      r ← genUnify f a inferred;
      if r.1 : bool then genLoop formals args r.2 else Ret None
  | _, _ => Ret (Some inferred)
  end.
End generator.

Fixpoint genCollect (typeParams : list string) (inferred : Inferred) : option (list tyref) :=
  match typeParams with
  | [] => Some []
  | x :: typeParams => p ← inferred !! x; ps ← genCollect typeParams inferred; Some (p :: ps)
  end.

(** A parameter of a function: whether it is followed by dots, and its specifier. *)
Notation Param := (bool * option typeSpec)%type.

(** [hasTypedVariadic], with the specifier. *)
Definition typedVariadic (formals : list Param) : option typeSpec :=
  match last formals with Some (true, Some f) => Some f | _ => None end.

Definition genInfer (e : type_env) (typeParams : list string) (formals : list Param)
    (args : list (option tyref)) : outcome (option (list tyref)) :=
  let params := list_to_set typeParams in
  let finish (inferred : option Inferred) : outcome (option (list tyref)) :=
    match inferred with None => Ret None | Some inferred => Ret (genCollect typeParams inferred) end in
  match typedVariadic formals with
  | None =>
      if negb (length formals =? length args)%nat then Ret None else
      inferred ← genLoop params e formals.*2 args ∅; finish inferred
  | Some v =>
      let fixedCount := (length formals - 1)%nat in
      if (length args <? fixedCount)%nat then Ret None else
      inferred ← genLoop params e (take fixedCount formals.*2) (take fixedCount args) ∅;
      match inferred with
      | None => Ret None
      | Some inferred =>
          let rest := drop fixedCount args in
          inferred ← genLoop params e (replicate (length rest) (Some v)) rest inferred; finish inferred
      end
  end.

(** ** The two agree *)

(** What the checker's function does is what the generator's says, and a message when there
    is no match. *)
Definition agrees (m : T (bool * Inferred * bool)) (o : outcome (bool * Inferred)) (s : Typer) : Prop :=
  match o with
  | Ret (true, inferred) => m s = ROk (true, inferred, false) s
  | Ret (false, inferred) => ∃ em s', m s = ROk (false, inferred, em) s' ∧ ty_env s' = ty_env s
  | Undef => m s = RUndef
  | Throw _ | NoFuel => False
  end.

Lemma agrees_seq m o f h s : agrees m o s →
  (∀ inferred, o = Ret (true, inferred) → agrees (f (true, inferred, false)) (h (true, inferred)) s) →
  agrees (r ← m; if r.1.1 : bool then f r else mret r) (r ← o; if r.1 : bool then h r else Ret r) s.
Proof.
  intros Hm Hf. unfold agrees in Hm. destruct o as [[[] inf]| | |]; cbn [mbind outcome_bind fst]; try done.
  - specialize (Hf inf eq_refl). unfold agrees in *. unfold mbind, M_bind. by rewrite Hm.
  - destruct Hm as (em & s' & Hm & He). exists em, s'. unfold mbind, M_bind. by rewrite Hm.
  - unfold agrees, mbind, M_bind. by rewrite Hm.
Qed.

Lemma agrees_info p f h s : (∀ t, agrees (f t) (h t) s) →
  agrees (t ← infoT p; f t) (t ← deref (ty_env s) p; h t) s.
Proof.
  intros Hf. unfold infoT, agrees, mbind, M_bind, getS, liftO, deref.
  destruct (resolve (ty_env s) p) as [t|]; [|done]. cbn [outcome_bind]. apply Hf.
Qed.

Lemma agrees_ret b inferred s : agrees (mret (b, inferred, false)) (Ret (b, inferred)) s.
Proof. destruct b; [done|]. by eexists false, s. Qed.

Section agreement.
Context (genericParams : gset string) (ctx : context) (displayName : string).
Notation unify := (unifyGenericTypeArg genericParams ctx displayName).

Lemma unifyParam_agrees inferred name p s :
  agrees (unifyParam ctx displayName inferred name p) (genParam (ty_env s) inferred name p) s.
Proof.
  unfold unifyParam, genParam. destruct (inferred !! name) as [q|]; [|done].
  case_bool_decide; [done|]. apply agrees_info. intros qt. apply agrees_info. intros at_.
  case_bool_decide; [done|]. by do 2 eexists.
Qed.

Lemma all_agrees s l : Forall (λ t, ∀ a inferred,
    agrees (unify t a inferred) (genUnify genericParams (ty_env s) t a inferred) s) l →
  ∀ args inferred,
  agrees ((fix go (l : list typeSpec) (args : list (option tyref)) (inferred : Inferred) : T (bool * Inferred * bool) :=
    match l, args with
    | t :: l, a :: args =>
        r ← unify t a inferred;
        if r.1.1 : bool then go l args r.1.2 else mret r
    | _, _ => mret (true, inferred, false)
    end) l args inferred)
   ((fix go (l : list typeSpec) (args : list (option tyref)) (inferred : Inferred) : outcome (bool * Inferred) :=
    match l, args with
    | t :: l, a :: args =>
        r ← genUnify genericParams (ty_env s) t a inferred;
        if r.1 : bool then go l args r.2 else Ret r
    | _, _ => Ret (true, inferred)
    end) l args inferred) s.
Proof.
  induction 1 as [|t l Ht _ IH]; intros [|a args] inferred; try done.
  apply (agrees_seq _ _ (λ r, _ l args r.1.2) (λ r, _ l args r.2)); [apply Ht|]. intros inf _. apply IH.
Qed.

Lemma unify_agrees F : ∀ s a inferred,
  agrees (unify F a inferred) (genUnify genericParams (ty_env s) F a inferred) s.
Proof.
  induction F as [F IH] using typeSpec_children_ind. intros s a inferred.
  assert (IH' : Forall (λ t, ∀ a inferred,
    agrees (unify t a inferred) (genUnify genericParams (ty_env s) t a inferred) s) (spec_children F)).
  { eapply Forall_impl; [exact IH|]. auto. }
  clear IH. destruct F as [t|t|t|t|d t|t err|ps r|t|k v|t|l|n l|n| |n|x]; cbn [spec_children] in IH';
    cbn [unifyGenericTypeArg genUnify is_bare is_array];
    (destruct (negb (mentions _ _)); [done|]); (destruct a as [p|]; [|apply agrees_ret]);
    try apply unifyParam_agrees; try done; try (apply agrees_info; intros t').
  - inversion_clear IH' as [|? ? Ht _].
    destruct (hasKind _ t'), (ti_pointeeType t'); (apply Ht || apply agrees_ret).
  - inversion_clear IH' as [|? ? Ht _].
    destruct (hasKind _ t'), (ti_pointeeType t'); (apply Ht || apply agrees_ret).
  - done.
  - inversion_clear IH' as [|? ? Ht _].
    destruct (isCollection _ t'), (ti_elementType t'); (apply Ht || apply agrees_ret).
  - inversion_clear IH' as [|? ? Hk Hv']. inversion_clear Hv' as [|? ? Hv _].
    destruct (isCollection _ t'), (ti_keyType t'), (ti_valueType t'); try apply agrees_ret.
    apply (agrees_seq _ _ (λ r, _ v _ r.1.2) (λ r, _ v _ r.2)); [apply Hk|]. intros inf _. apply Hv.
  - inversion_clear IH' as [|? ? Ht _].
    destruct (isCollection _ t'), (ti_elementType t'); (apply Ht || apply agrees_ret).
  - destruct (_ && _); [|apply agrees_ret]. by apply all_agrees.
  - destruct (instanceArgs _ _ _) as [args|]; [|apply agrees_ret].
    destruct (_ =? _)%nat; [|apply agrees_ret]. by apply all_agrees.
  - done.
Qed.

(** Arguments whose types exist. *)
Definition args_known (e : type_env) (args : list (option tyref)) : Prop :=
  ∀ p, Some p ∈ args → is_Some (resolve e p).

Lemma inferLoop_agrees formals : ∀ i args inferred s, args_known (ty_env s) args →
  match genLoop genericParams (ty_env s) formals args inferred with
  | Ret (Some inf) => inferLoop genericParams ctx displayName i formals args inferred s = ROk (Some inf) s
  | Ret None => ∃ s', inferLoop genericParams ctx displayName i formals args inferred s = ROk None s' ∧
                      ty_env s' = ty_env s
  | Undef => inferLoop genericParams ctx displayName i formals args inferred s = RUndef
  | Throw _ | NoFuel => False
  end.
Proof.
  induction formals as [|[f|] formals IH]; intros i [|a args] inferred s Ha; try done.
  - cbn [genLoop inferLoop].
    assert (Ha' : args_known (ty_env s) args) by (intros p Hp; apply Ha; by right).
    destruct (negb _); [by apply IH|]. pose proof (unify_agrees f s a inferred) as H. unfold agrees in H.
    destruct (genUnify _ _ f a inferred) as [[[] inf]| | |]; cbn [mbind outcome_bind fst snd]; try done.
    + specialize (IH (S i) args inf s Ha'). unfold mbind, M_bind. by rewrite H.
    + destruct H as (em & s' & H & He). unfold mbind, M_bind. rewrite H. cbn [fst snd].
      destruct em; [by exists s'|]. destruct a as [p|]; [|by eexists].
      destruct (Ha p (list_elem_of_here _ _)) as [t Ht]. unfold infoT, mbind, M_bind, getS, deref.
      rewrite He, Ht. by eexists.
    + unfold mbind, M_bind. by rewrite H.
  - apply IH. intros p Hp. apply Ha. by right.
Qed.

Lemma collect_agrees s typeParams inferred :
  match genCollect typeParams inferred with
  | Some ps => collectArgs ctx displayName ((λ x, (x, None)) <$> typeParams) inferred s = ROk (Some ps) s
  | None => ∃ s', collectArgs ctx displayName ((λ x, (x, None)) <$> typeParams) inferred s = ROk None s' ∧
                  ty_env s' = ty_env s
  end.
Proof.
  induction typeParams as [|x typeParams IH]; [done|]. cbn [genCollect fmap list_fmap collectArgs].
  destruct (inferred !! x) as [p|]; cbn [mbind option_bind]; [|by eexists].
  destruct (genCollect typeParams inferred) as [ps|]; cbn [option_bind].
  - unfold mbind, M_bind, mret, M_ret. cbn [negb]. by rewrite IH.
  - destruct IH as (s' & H & He). exists s'. unfold mbind, M_bind, mret, M_ret. cbn [negb]. by rewrite H.
Qed.
End agreement.

Lemma typeParams_names (typeParams : list string) :
  ((λ x, (x, None : option Constraint)) <$> typeParams).*1 = typeParams.
Proof. by rewrite <-list_fmap_compose, list_fmap_id. Qed.

(** C22: For a call without typed variadic arguments and constraints, the type arguments the
    checker infers are those the code generator infers, and where one infers none neither
    does the other; the checker moves and adds no type. *)
Theorem inference_agrees ctx displayName typeParams (formals : list Param) args s :
  args_known (ty_env s) args → typedVariadic formals = None →
  let checked := inferGenericTypeArgs ctx displayName ((λ x, (x, None)) <$> typeParams) formals.*2 args s in
  match genInfer (ty_env s) typeParams formals args with
  | Ret (Some ps) => checked = ROk (Some ps) s
  | Ret None => ∃ s', checked = ROk None s' ∧ ty_env s' = ty_env s
  | Undef => checked = RUndef
  | Throw _ | NoFuel => False
  end.
Proof.
  intros Ha Hv checked. subst checked. unfold genInfer, inferGenericTypeArgs. rewrite Hv, length_fmap, typeParams_names.
  destruct (negb _); [by eexists|].
  pose proof (inferLoop_agrees (list_to_set typeParams) ctx displayName formals.*2 0 args ∅ s Ha) as H.
  destruct (genLoop _ _ _ args ∅) as [[inf|]| | |]; cbn [mbind outcome_bind]; try done.
  - pose proof (collect_agrees ctx displayName s typeParams inf) as Hc.
    unfold mbind, M_bind. rewrite H. by destruct (genCollect typeParams inf).
  - destruct H as (s' & H & He). exists s'. unfold mbind, M_bind. by rewrite H.
  - unfold mbind, M_bind. by rewrite H.
Qed.

(** ** What inference finds *)

Section spec.
Context (genericParams : gset string) (e : type_env).
Notation unify := (genUnify genericParams e).

Definition same_name (p q : tyref) : Prop :=
  ∃ tp tq, resolve e p = Some tp ∧ resolve e q = Some tq ∧ ti_name tp = ti_name tq.

(** The argument's type is the parameter's specifier with the type parameters replaced, up to
    the names of types.  Nothing is asked of specifiers that mention no parameter and of
    arrays, whose dimensions are no part of a type. *)
Inductive matches (θ : Inferred) : typeSpec → option tyref → Prop :=
| m_ground F a : mentions genericParams F = false → matches θ F a
| m_param F p q : is_bare F = true → θ !! getText F = Some q → same_name q p → matches θ F (Some p)
| m_star f p t q : resolve e p = Some t → hasKind TK.Pointer t = true → ti_pointeeType t = Some q →
    matches θ f (Some q) → matches θ (TSStar f) (Some p)
| m_postStar f p t q : resolve e p = Some t → hasKind TK.Pointer t = true → ti_pointeeType t = Some q →
    matches θ f (Some q) → matches θ (TSPostStar f) (Some p)
| m_array d f p : matches θ (TSArray d f) (Some p)
| m_vec f p t q : resolve e p = Some t → isCollection "Vec" t = true → ti_elementType t = Some q →
    matches θ f (Some q) → matches θ (TSVec f) (Some p)
| m_set f p t q : resolve e p = Some t → isCollection "Set" t = true → ti_elementType t = Some q →
    matches θ f (Some q) → matches θ (TSSet f) (Some p)
| m_map fk fv p t k v : resolve e p = Some t → isCollection "Map" t = true → ti_keyType t = Some k →
    ti_valueType t = Some v → matches θ fk (Some k) → matches θ fv (Some v) → matches θ (TSMap fk fv) (Some p)
| m_tuple l p t : resolve e p = Some t → hasKind TK.Tuple t = true →
    Forall2 (matches θ) l (ti_tupleElements t) → matches θ (TSTuple l) (Some p)
| m_generic base l p t args : resolve e p = Some t → instanceArgs base (length l) t = Some args →
    Forall2 (matches θ) l args → matches θ (TSGeneric base l) (Some p).

(** The parameters a specifier determines: those it mentions other than inside arrays, functions,
    and [volatile], fallible and [dyn] types. *)
Fixpoint inferable (x : string) (F : typeSpec) : bool :=
  if is_bare F then bool_decide (getText F = x) && bool_decide (x ∈ genericParams) else
  match F with
  | TSStar f | TSPostStar f | TSVec f | TSSet f => inferable x f
  | TSMap k v => inferable x k || inferable x v
  | TSTuple l | TSGeneric _ l => existsb (inferable x) l
  | _ => false
  end.

Context (Hclosed : closed e).

Definition exists_type (p : tyref) : Prop := is_Some (resolve e p).
Definition table_known (inferred : Inferred) : Prop := map_Forall (λ _ p, exists_type p) inferred.

(** The table says no more than [θ], up to names. *)
Definition no_more (inferred θ : Inferred) : Prop :=
  ∀ x p, inferred !! x = Some p → ∃ q, θ !! x = Some q ∧ same_name q p.

Lemma same_name_refl p : exists_type p → same_name p p.
Proof. intros [t Ht]. by exists t, t. Qed.
Lemma same_name_sym p q : same_name p q → same_name q p.
Proof. intros (tp & tq & ? & ? & ?). by exists tq, tp. Qed.
Lemma same_name_trans p q r : same_name p q → same_name q r → same_name p r.
Proof.
  intros (tp & tq & Hp & Hq & H) (tq' & tr & Hq' & Hr & H'). exists tp, tr. by simplify_eq; split_and!; [..|etrans].
Qed.

(** What a computation of an answer and a table does: it ends, only adds to the table, and
    answers true exactly when some substitution above the table satisfies [P]; then the new
    table does, with entries for the parameters in [I], and it says no more than any such
    substitution. *)
Definition unified (m : outcome (bool * Inferred)) (inferred : Inferred) (P : Inferred → Prop)
    (I : string → bool) : Prop :=
  ∃ b inf, m = Ret (b, inf) ∧ inferred ⊆ inf ∧ table_known inf ∧
    (b = true → P inf ∧ ∀ x, is_Some (inf !! x) ↔ is_Some (inferred !! x) ∨ I x = true) ∧
    (∀ θ, no_more inferred θ → P θ → b = true ∧ no_more inf θ).

Lemma unified_true inferred (P : Inferred → Prop) I : table_known inferred → (∀ θ, P θ) → (∀ x, I x = false) →
  unified (Ret (true, inferred)) inferred P I.
Proof.
  intros Hk HP HI. exists true, inferred. split_and!; [done..| |done].
  intros _. split; [done|]. intros x. rewrite HI. naive_solver.
Qed.

Lemma unified_false inferred (P : Inferred → Prop) I : table_known inferred → (∀ θ, ¬ P θ) →
  unified (Ret (false, inferred)) inferred P I.
Proof. intros Hk HP. exists false, inferred. split_and!; [done..|]. intros θ _ Hθ. by apply HP in Hθ. Qed.

Lemma unified_iff m inferred (P Q : Inferred → Prop) I J : (∀ θ, P θ ↔ Q θ) → (∀ x, I x = J x) →
  unified m inferred P I → unified m inferred Q J.
Proof.
  intros HPQ HIJ (b & inf & Hm & Hsub & Hk & Ht & Hc). exists b, inf. split_and!; [done..| |].
  - intros Hb. destruct (Ht Hb) as [HP HI]. split; [by apply HPQ|]. intros x. by rewrite HI, HIJ.
  - intros θ Hθ HQ. apply Hc; [done|]. by apply HPQ.
Qed.

Lemma unified_seq m f inferred (P Q : Inferred → Prop) I J :
  (∀ inf inf', inf ⊆ inf' → P inf → P inf') →
  unified m inferred P I →
  (∀ inf, table_known inf → unified (f inf) inf Q J) →
  unified (r ← m; if r.1 : bool then f r.2 else Ret r) inferred (λ θ, P θ ∧ Q θ) (λ x, I x || J x).
Proof.
  intros Hmono (b & inf & -> & Hsub & Hk & Ht & Hc) Hf. cbn [mbind outcome_bind fst snd]. destruct b.
  - destruct (Ht eq_refl) as [HP HI].
    destruct (Hf inf Hk) as (b' & inf' & -> & Hsub' & Hk' & Ht' & Hc').
    exists b', inf'. split_and!; [done|by etrans|done| |].
    + intros Hb. destruct (Ht' Hb) as [HQ HJ]. split; [split; [by eapply Hmono|done]|].
      intros x. rewrite HJ, HI, orb_true_iff. tauto.
    + intros θ Hθ [HPθ HQθ]. destruct (Hc θ Hθ HPθ) as [_ Hinf]. by apply Hc'.
  - exists false, inf. split_and!; [done..|]. intros θ Hθ [HPθ _]. by destruct (Hc θ Hθ HPθ).
Qed.

(** A parameter: the first use decides it, every other one has to agree by name. *)
Lemma unified_param inferred name p : table_known inferred → exists_type p →
  unified (genParam e inferred name p) inferred (λ θ, ∃ q, θ !! name = Some q ∧ same_name q p)
    (λ x, bool_decide (name = x)).
Proof.
  intros Hk Hp. unfold genParam. destruct (inferred !! name) as [q|] eqn:Hq.
  - assert (Hsome : ∀ x, is_Some (inferred !! x) ↔ is_Some (inferred !! x) ∨ bool_decide (name = x) = true).
    { intros x. rewrite bool_decide_eq_true. split; [by left|]. intros [H|<-]; [done|by eexists]. }
    case_bool_decide as Heq.
    { subst q. exists true, inferred. split_and!; [done..| |].
      - intros _. split; [|done]. exists p. split; [done|by apply same_name_refl].
      - done. }
    assert (Hqe : exists_type q) by exact (Hk name q Hq).
    destruct Hqe as [tq Htq], Hp as [tp Htp]. unfold deref. rewrite Htq, Htp. cbn [mbind outcome_bind].
    eexists _, inferred. split_and!; [done..| |].
    + rewrite bool_decide_eq_true. intros Hn. split; [|done]. exists q. split; [done|]. by exists tq, tp.
    + intros θ Hθ (q' & Hq' & Hs). split; [|done]. apply bool_decide_eq_true.
      destruct (Hθ name q Hq) as (q'' & Hq'' & Hs'). simplify_eq.
      destruct (same_name_trans _ _ _ (same_name_sym _ _ Hs') Hs) as (t1 & t2 & H1 & H2 & H3). congruence.
  - exists true, (<[name := p]> inferred). split_and!; [done|by apply insert_subseteq| | |].
    + apply map_Forall_insert_2; done.
    + intros _. split; [exists p; split; [by rewrite lookup_insert_eq|by apply same_name_refl]|].
      intros x. rewrite bool_decide_eq_true. destruct (decide (name = x)) as [<-|Hx].
      * rewrite lookup_insert_eq. split; [by right|]. by eexists.
      * rewrite lookup_insert_ne by done. naive_solver.
    + intros θ Hθ Hq'. split; [done|]. intros x p' Hx. apply lookup_insert_Some in Hx as [[<- <-]|[_ Hx]]; [done|by apply Hθ].
Qed.

Lemma matches_mono θ θ' F : θ ⊆ θ' → ∀ a, matches θ F a → matches θ' F a.
Proof.
  intros Hsub. induction F as [F IH] using typeSpec_children_ind.
  assert (IHl : ∀ l args, Forall (λ F, ∀ a, matches θ F a → matches θ' F a) l →
    Forall2 (matches θ) l args → Forall2 (matches θ') l args).
  { intros l args Hl H2. induction H2; [constructor|]. inversion_clear Hl. constructor; auto. }
  intros a Hm. destruct Hm; cbn [spec_children] in IH;
    repeat match goal with H : Forall _ (_ :: _) |- _ => inversion_clear H end.
  - by apply m_ground.
  - eapply m_param; [done|by eapply lookup_weaken|done].
  - eapply m_star; eauto.
  - eapply m_postStar; eauto.
  - apply m_array.
  - eapply m_vec; eauto.
  - eapply m_set; eauto.
  - eapply m_map; eauto.
  - eapply m_tuple; eauto.
  - eapply m_generic; eauto.
Qed.

Lemma inferable_mentions x F : inferable x F = true → mentions genericParams F = true.
Proof.
  induction F as [F IH] using typeSpec_children_ind.
  assert (IHl : ∀ l, Forall (λ F, inferable x F = true → mentions genericParams F = true) l →
    existsb (inferable x) l = true → existsb (mentions genericParams) l = true).
  { intros l Hl. induction Hl as [|t l Ht _ IHl]; [done|]. cbn [existsb]. rewrite !orb_true_iff. naive_solver. }
  assert (Hb : is_bare F = true → inferable x F = true → mentions genericParams F = true).
  { intros Hb. destruct F; try done; cbn [inferable mentions is_bare];
      rewrite andb_true_iff, !bool_decide_eq_true; by intros [-> ?]. }
  destruct F; cbn [spec_children] in IH; try (by apply Hb);
    repeat match goal with H : Forall _ (_ :: _) |- _ => inversion_clear H end;
    cbn [inferable mentions is_bare]; rewrite ?orb_true_iff; try naive_solver.
Qed.

(** *** Types a type is built from *)

Lemma held_exists p t q : resolve e p = Some t → q ∈ ti_pointers t → exists_type q.
Proof. intros Hp Hq. pose proof (Hclosed p t Hp) as H. rewrite Forall_forall in H. by apply H. Qed.

Lemma parts_exist p t : resolve e p = Some t →
  (∀ q, ti_pointeeType t = Some q → exists_type q) ∧ (∀ q, ti_elementType t = Some q → exists_type q) ∧
  (∀ q, ti_keyType t = Some q → exists_type q) ∧ (∀ q, ti_valueType t = Some q → exists_type q) ∧
  args_known e (ti_tupleElements t) ∧ args_known e (ti_typeArgs t).
Proof.
  intros Hp. assert (Hin : ∀ q, q ∈ ti_pointers t → exists_type q) by (intros q; by apply (held_exists p t)).
  split_and!; intros q Hq; apply Hin.
  1-5: apply pointers_members; rewrite ?Hq; set_solver.
  unfold ti_pointers. rewrite !elem_of_app. assert (q ∈ (p ← ti_typeArgs t; opt_list p)); [|tauto].
  apply list_elem_of_bind. exists (Some q). split; [by apply opt_held|done].
Qed.

Lemma instanceArgs_known base n p t args : resolve e p = Some t → instanceArgs base n t = Some args →
  args_known e args.
Proof.
  intros Hp Ha. destruct (parts_exist p t Hp) as (_ & Hel & Hk & Hv & _ & Hargs). unfold instanceArgs in Ha.
  destruct (_ && _); [by simplify_eq|]. destruct (_ && _); [|done].
  destruct n as [|[|[|n]]]; [done| | |done].
  - destruct (ti_elementType t) as [el|]; simplify_eq. intros q [[= ->]|[]%elem_of_nil]%elem_of_cons. by apply Hel.
  - destruct (ti_elementType t), (ti_keyType t) as [k|], (ti_valueType t) as [v|]; simplify_eq;
      intros q [[= ->]|[[= ->]|[]%elem_of_nil]%elem_of_cons]%elem_of_cons; first [by apply Hk|by apply Hv].
Qed.

(** *** The whole *)

Definition unifies (F : typeSpec) : Prop := ∀ a inferred,
  (∀ p, a = Some p → exists_type p) → table_known inferred →
  unified (unify F a inferred) inferred (λ θ, matches θ F a) (λ x, inferable x F).

Lemma all_unified l : Forall unifies l → ∀ args inferred, length l = length args → args_known e args →
  table_known inferred →
  unified ((fix go (l : list typeSpec) (args : list (option tyref)) (inferred : Inferred) : outcome (bool * Inferred) :=
    match l, args with
    | t :: l, a :: args =>
        r ← unify t a inferred;
        if r.1 : bool then go l args r.2 else Ret r
    | _, _ => Ret (true, inferred)
    end) l args inferred) inferred (λ θ, Forall2 (matches θ) l args) (λ x, existsb (inferable x) l).
Proof.
  induction 1 as [|t l Ht _ IH]; intros [|a args] inferred Hlen Ha Hk; try done.
  - by apply unified_true.
  - apply (unified_iff _ _ (λ θ, matches θ t a ∧ Forall2 (matches θ) l args) _
      (λ x, inferable x t || existsb (inferable x) l)); [|done|].
    { intros θ. rewrite Forall2_cons. done. }
    refine (unified_seq (unify t a inferred) (λ inf, _ l args inf) _ _ _ _ _ _ _ _).
    + intros inf inf' Hsub. by apply matches_mono.
    + apply Ht; [|done]. intros p ->. apply Ha. by left.
    + intros inf Hinf. apply IH; [by injection Hlen| |done]. intros p Hp. apply Ha. by right.
Qed.

(** One specifier below. *)
Lemma unified_under (f F : typeSpec) q (b : bool) (o : option tyref) inferred p :
  unifies f → table_known inferred → (∀ q, o = Some q → exists_type q) → mentions genericParams F = true →
  (∀ x, inferable x f = inferable x F) →
  (∀ θ, matches θ F (Some p) ↔ b = true ∧ ∃ q, o = Some q ∧ matches θ f (Some q)) →
  q = (match b, o with true, Some q => unify f (Some q) inferred | _, _ => Ret (false, inferred) end) →
  unified q inferred (λ θ, matches θ F (Some p)) (λ x, inferable x F).
Proof.
  intros Hf Hk Ho Hm HI HP ->. destruct b; [destruct o as [q|]|].
  - eapply unified_iff; [|exact HI|apply Hf; [|done]]; [|by intros ? [= <-]; apply Ho].
    intros θ. rewrite HP. naive_solver.
  - apply unified_false; [done|]. intros θ. rewrite HP. naive_solver.
  - apply unified_false; [done|]. intros θ. rewrite HP. naive_solver.
Qed.

Ltac shape c := intros θ; split;
  [inversion 1; simplify_eq/=; try congruence; split; [done|by eexists]|
   intros (? & ? & ? & ?); by eapply c].

Lemma unify_unifies F : unifies F.
Proof.
  induction F as [F IH] using typeSpec_children_ind. intros a inferred Ha Hk.
  destruct (mentions genericParams F) eqn:Hm.
  2: { assert (HI : ∀ x, inferable x F = false).
       { intros x. apply not_true_is_false. intros H%inferable_mentions. congruence. }
       replace (unify F a inferred) with (Ret (true, inferred) : outcome (bool * Inferred))
         by (destruct F; cbn [genUnify]; by rewrite Hm).
       apply unified_true; [done| |done]. intros θ. by apply m_ground. }
  destruct a as [p|].
  2: { replace (unify F None inferred) with (Ret (false, inferred) : outcome (bool * Inferred))
         by (destruct F; cbn [genUnify]; by rewrite Hm).
       apply unified_false; [done|]. intros θ H. inversion H; simplify_eq. congruence. }
  assert (Hp : exists_type p) by by apply Ha. destruct Hp as [t Ht].
  destruct (parts_exist p t Ht) as (Hpt & Hel & Hkey & Hval & Htup & _).
  assert (Hbare : is_bare F = true →
    unified (genParam e inferred (getText F) p) inferred (λ θ, matches θ F (Some p)) (λ x, inferable x F)).
  { intros Hb. assert (Hin : getText F ∈ genericParams).
    { destruct F; try done; cbn [mentions is_bare] in Hm; by apply bool_decide_eq_true in Hm. }
    eapply unified_iff; [| |apply unified_param; [done|by exists t]].
    - intros θ. split; [intros (q & Hq & Hs); by eapply m_param|].
      inversion 1; simplify_eq; try done; [congruence|naive_solver].
    - intros x. destruct F; try done; cbn [inferable is_bare];
        (destruct (bool_decide (_ = x)) eqn:E; [|done]); apply bool_decide_eq_true in E; subst x;
        by rewrite bool_decide_eq_true_2. }
  destruct F as [f|f|f|f|d f|f err|ps r|f|fk fv|f|l|n l|n| |n|x]; cbn [spec_children] in IH;
    try discriminate Hm; cbn [genUnify is_bare is_array]; rewrite Hm; cbn [negb]; try (by apply Hbare);
    try (unfold deref; rewrite Ht; cbn [mbind outcome_bind]).
  - inversion_clear IH as [|? ? Hf _].
    eapply (unified_under f (TSStar f) _ (hasKind TK.Pointer t) (ti_pointeeType t)); try done; []. shape m_star.
  - inversion_clear IH as [|? ? Hf _].
    eapply (unified_under f (TSPostStar f) _ (hasKind TK.Pointer t) (ti_pointeeType t)); try done; []. shape m_postStar.
  - apply unified_true; [done| |done]. intros θ. apply m_array.
  - inversion_clear IH as [|? ? Hf _].
    eapply (unified_under f (TSVec f) _ (isCollection "Vec" t) (ti_elementType t)); try done; []. shape m_vec.
  - inversion_clear IH as [|? ? Hfk Hv']. inversion_clear Hv' as [|? ? Hfv _].
    destruct (isCollection "Map" t) eqn:Hmap, (ti_keyType t) as [k|] eqn:Hkt, (ti_valueType t) as [v|] eqn:Hvt;
      try (apply unified_false; [done|]; intros θ; inversion 1; simplify_eq/=; congruence).
    apply (unified_iff _ _ (λ θ, matches θ fk (Some k) ∧ matches θ fv (Some v)) _
      (λ x, inferable x fk || inferable x fv)); [|done|].
    + intros θ. split; [intros []; by eapply m_map|]. inversion 1; simplify_eq/=; try congruence; done.
    + refine (unified_seq (unify fk (Some k) inferred) (λ inf, unify fv (Some v) inf) _ _ _ _ _ _ _ _).
      * intros inf inf' Hsub. by apply matches_mono.
      * apply Hfk; [|done]. intros q [= <-]. by apply Hkey.
      * intros inf Hinf. apply Hfv; [|done]. intros q [= <-]. by apply Hval.
  - inversion_clear IH as [|? ? Hf _].
    eapply (unified_under f (TSSet f) _ (isCollection "Set" t) (ti_elementType t)); try done; []. shape m_set.
  - destruct (hasKind TK.Tuple t && (length (ti_tupleElements t) =? length l)%nat) eqn:Hc.
    + apply andb_prop in Hc as [Hk1 Hk2%Nat.eqb_eq].
      eapply unified_iff; [| |by apply (all_unified l IH)]; [|done].
      intros θ. split; [intros H2; by eapply m_tuple|]. inversion 1; simplify_eq/=; try congruence; done.
    + apply unified_false; [done|]. intros θ. inversion 1 as [| | | | | | | |? ? ? Hr Ht' H2|]; simplify_eq/=; try congruence.
      rewrite Ht' in Hc. apply Forall2_length in H2. rewrite H2, Nat.eqb_refl in Hc. done.
  - destruct (instanceArgs n (length l) t) as [args|] eqn:Hi.
    + destruct (Nat.eqb_spec (length args) (length l)) as [Hlen|Hlen].
      * eapply unified_iff; [| |apply (all_unified l IH); [done|by eapply instanceArgs_known|done]]; [|done].
        intros θ. split; [intros H2; by eapply m_generic|]. inversion 1; simplify_eq/=; try congruence; done.
      * apply unified_false; [done|]. intros θ. inversion 1 as [| | | | | | | | |? ? ? ? ? Hr Hi' H2]; simplify_eq/=; try congruence.
        apply Hlen. symmetry. by eapply Forall2_length.
    + apply unified_false; [done|]. intros θ. inversion 1; simplify_eq/=; congruence.
Qed.

(** *** The parameters of a call *)

(** The argument of a parameter without a specifier is not looked at. *)
Definition param_matches (θ : Inferred) (F : option typeSpec) (a : option tyref) : Prop :=
  from_option (λ F, matches θ F a) True F.

Definition param_inferable (x : string) (F : option typeSpec) : bool := from_option (inferable x) false F.

Lemma genLoop_app F1 F2 : ∀ args1 args2 inferred, length F1 = length args1 →
  genLoop genericParams e (F1 ++ F2) (args1 ++ args2) inferred =
  (r ← genLoop genericParams e F1 args1 inferred;
   match r with None => Ret None | Some inf => genLoop genericParams e F2 args2 inf end).
Proof.
  induction F1 as [|[f|] F1 IH]; intros [|a args1] args2 inferred Hlen; try done; cbn [app genLoop]; injection Hlen as Hlen.
  - destruct (negb _); [by apply IH|]. destruct (unify f a inferred) as [[[] inf]| | |]; try done.
    cbn [mbind outcome_bind fst snd]. by apply IH.
  - by apply IH.
Qed.

(** What the loop over the parameters does. *)
Lemma genLoop_unifies Fs : ∀ args inferred, length Fs = length args → args_known e args → table_known inferred →
  ∃ r, genLoop genericParams e Fs args inferred = Ret r ∧
  match r with
  | Some inf =>
      inferred ⊆ inf ∧ table_known inf ∧ Forall2 (param_matches inf) Fs args ∧
      (∀ x, is_Some (inf !! x) ↔ is_Some (inferred !! x) ∨ existsb (param_inferable x) Fs = true) ∧
      (∀ θ, no_more inferred θ → Forall2 (param_matches θ) Fs args → no_more inf θ)
  | None => ∀ θ, no_more inferred θ → ¬ Forall2 (param_matches θ) Fs args
  end.
Proof.
  induction Fs as [|F Fs IH]; intros [|a args] inferred Hlen Ha Hk; try done.
  { eexists. split; [done|]. split_and!; try done. naive_solver. }
  injection Hlen as Hlen.
  assert (Ha' : args_known e args) by (intros p Hp; apply Ha; by right).
  assert (Hskip : (∀ θ, param_matches θ F a) → (∀ x, param_inferable x F = false) →
    genLoop genericParams e (F :: Fs) (a :: args) inferred = genLoop genericParams e Fs args inferred →
    ∃ r, genLoop genericParams e (F :: Fs) (a :: args) inferred = Ret r ∧
    match r with
    | Some inf =>
        inferred ⊆ inf ∧ table_known inf ∧ Forall2 (param_matches inf) (F :: Fs) (a :: args) ∧
        (∀ x, is_Some (inf !! x) ↔ is_Some (inferred !! x) ∨ existsb (param_inferable x) (F :: Fs) = true) ∧
        (∀ θ, no_more inferred θ → Forall2 (param_matches θ) (F :: Fs) (a :: args) → no_more inf θ)
    | None => ∀ θ, no_more inferred θ → ¬ Forall2 (param_matches θ) (F :: Fs) (a :: args)
    end).
  { intros HP HI ->. destruct (IH args inferred Hlen Ha' Hk) as (r & -> & Hr). exists r. split; [done|].
    destruct r as [inf|].
    - destruct Hr as (Hsub & Hk' & HF & Hd & Hm). split_and!; [done..| | |].
      + by constructor.
      + intros x. cbn [existsb]. by rewrite HI.
      + intros θ Hθ [_ H2]%Forall2_cons. by apply Hm.
    - intros θ Hθ [_ H2]%Forall2_cons. by apply (Hr θ). }
  destruct F as [F|]; [|by apply Hskip].
  destruct (mentions genericParams F) eqn:Hm.
  2: { apply Hskip; [intros θ; by apply m_ground| |cbn [genLoop]; by rewrite Hm].
       intros x. apply not_true_is_false. intros H%inferable_mentions. congruence. }
  clear Hskip. cbn [genLoop]. rewrite Hm. cbn [negb].
  destruct (unify_unifies F a inferred) as (b & inf & -> & Hsub & Hk' & Ht & Hc); [intros p ->; apply Ha; by left|done|].
  cbn [mbind outcome_bind fst snd]. destruct b.
  - destruct (Ht eq_refl) as [HF Hd]. destruct (IH args inf Hlen Ha' Hk') as (r & -> & Hr). exists r. split; [done|].
    destruct r as [inf'|].
    + destruct Hr as (Hsub' & Hk'' & HFs & Hd' & Hmore). split_and!; [by etrans|done| | |].
      * constructor; [|done]. cbn [param_matches from_option]. by eapply matches_mono.
      * intros x. cbn [existsb param_inferable from_option]. rewrite Hd', Hd, orb_true_iff. tauto.
      * intros θ Hθ [HFθ H2]%Forall2_cons. apply Hmore; [|done]. by apply Hc.
    + intros θ Hθ [HFθ H2]%Forall2_cons. apply (Hr θ); [|done]. by apply Hc.
  - eexists. split; [done|]. intros θ Hθ [HFθ _]%Forall2_cons. by destruct (Hc θ Hθ HFθ).
Qed.
End spec.

(** The specifier each of [n] arguments is matched with. *)
Definition specifiers (formals : list Param) (n : nat) : option (list (option typeSpec)) :=
  match typedVariadic formals with
  | None => if (length formals =? n)%nat then Some formals.*2 else None
  | Some v =>
      let fixedCount := (length formals - 1)%nat in
      if (n <? fixedCount)%nat then None
      else Some (take fixedCount formals.*2 ++ replicate (n - fixedCount) (Some v))
  end.

Lemma specifiers_length formals n Fs : specifiers formals n = Some Fs → length Fs = n.
Proof.
  unfold specifiers. destruct (typedVariadic formals).
  - destruct (Nat.ltb_spec n (length formals - 1)); [done|]. intros [= <-].
    rewrite length_app, length_take, length_replicate, length_fmap. lia.
  - destruct (Nat.eqb_spec (length formals) n) as [<-|]; [|done]. intros [= <-]. by rewrite length_fmap.
Qed.

(** The generator is its loop over these specifiers. *)
Lemma genInfer_specifiers e typeParams formals args :
  genInfer e typeParams formals args =
  match specifiers formals (length args) with
  | None => Ret None
  | Some Fs =>
      r ← genLoop (list_to_set typeParams) e Fs args ∅;
      match r with None => Ret None | Some inf => Ret (genCollect typeParams inf) end
  end.
Proof.
  unfold genInfer, specifiers. destruct (typedVariadic formals) as [v|].
  - destruct (Nat.ltb_spec (length args) (length formals - 1)) as [|Hle]; [done|].
    set (n := (length formals - 1)%nat) in *.
    pose proof (genLoop_app (list_to_set typeParams) e (take n formals.*2)
      (replicate (length (drop n args)) (Some v)) (take n args) (drop n args) ∅) as H.
    rewrite take_drop, length_drop in H. rewrite H by (rewrite !length_take, length_fmap; lia).
    rewrite length_drop. by destruct (genLoop _ _ (take _ _) _ ∅) as [[inf|]| | |].
  - by destruct (length formals =? length args)%nat.
Qed.

Lemma genCollect_spec typeParams inf :
  match genCollect typeParams inf with
  | Some ps => Forall2 (λ x p, inf !! x = Some p) typeParams ps
  | None => ∃ x, x ∈ typeParams ∧ inf !! x = None
  end.
Proof.
  induction typeParams as [|x typeParams IH]; [constructor|]. cbn [genCollect].
  destruct (inf !! x) as [p|] eqn:Hx; cbn [mbind option_bind].
  2: { exists x. split; [by left|done]. }
  destruct (genCollect typeParams inf) as [ps|]; cbn [option_bind].
  - by constructor.
  - destruct IH as (y & Hy & HN). exists y. split; [by right|done].
Qed.


(** ** An example: [f<V>(m: map<string, *V>, v: V)] *)

(** [*int32] and [Map<string, *int32>]. *)
Definition pointerToInt : TypeInfo := (mkTypeInfo "*int32" TK.Pointer 64 false "") <| ti_pointeeType := Some (RegT "int32") |>.
Definition mapToPointers : TypeInfo :=
  (mkTypeInfo "Map<string, *int32>" TK.Extended 0 false "") <| ti_keyType := Some (RegT "string") |>
    <| ti_valueType := Some (DynT 0) |> <| ti_extendedKind := "Map" |>.
Definition call_env : type_env := (pushDynamic (pushDynamic initial_env pointerToInt).1 mapToPointers).1.

Lemma call_env_closed : closed call_env.
Proof.
  unfold call_env. apply pushDynamic_closed; [apply pushDynamic_closed; [apply newTypeRegistry_closed|]|];
    apply (bool_decide_unpack _); vm_compute; exact I.
Qed.

(** A parameter inside one of these types is not inferred, whatever the argument is, and the
    call is rejected. *)
Lemma inference_gaps e p F :
  F ∈ [TSVolatile (TSIdent "T"); TSDyn (TSIdent "T"); TSFallible (TSIdent "T") None;
       TSFn [TSIdent "T"] (TSIdent "T"); TSArray DimNone (TSIdent "T")] →
  genInfer e ["T"] [(false, Some F)] [Some p] = Ret None.
Proof.
  intros HF. assert (Hl : genLoop (list_to_set ["T"]) e [Some F] [Some p] ∅ = Ret (Some ∅)).
  { cbn [genLoop]. destruct (mentions _ F) eqn:Hm; [|done]. cbn [negb].
    repeat (apply elem_of_cons in HF as [->|HF]; [first [discriminate Hm|cbn [genUnify]; by rewrite Hm]|]).
    by apply not_elem_of_nil in HF. }
  unfold genInfer, typedVariadic. cbn [last length Nat.eqb negb fmap list_fmap snd]. by rewrite Hl.
Qed.

Definition call_formals : list Param :=
  [(false, Some (TSMap (TSPrim "string") (TSStar (TSIdent "V")))); (false, Some (TSIdent "V"))].
Definition call_args : list (option tyref) := [Some (DynT 1); Some (RegT "int32")].
(** The same with a second value of another type. *)
Definition variadic_formals : list Param :=
  [(false, Some (TSMap (TSPrim "string") (TSStar (TSIdent "V")))); (true, Some (TSIdent "V"))].

Lemma call_args_known : args_known call_env call_args.
Proof.
  intros p [[= ->]|[[= ->]|[]%elem_of_nil]%elem_of_cons]%elem_of_cons; eexists; vm_compute; reflexivity.
Qed.

Example infer_call :
  genInfer call_env ["V"] call_formals call_args = Ret (Some [RegT "int32"]) ∧
  genInfer call_env ["V"] variadic_formals (call_args ++ [Some (RegT "int32")]) = Ret (Some [RegT "int32"]) ∧
  genInfer call_env ["V"] variadic_formals (call_args ++ [Some (RegT "bool")]) = Ret None ∧
  genInfer call_env ["K"] call_formals call_args = Ret None.
Proof. split_and!; vm_compute; reflexivity. Qed.

Definition call_typer : Typer := startTyper <| ty_env := call_env |>.
Definition call_context : context := None.

Lemma inference_agrees_witness :
  match genInfer (ty_env call_typer) ["V"] call_formals call_args with
  | Ret (Some ps) => inferGenericTypeArgs call_context "f" [("V", None)] call_formals.*2 call_args call_typer
      = ROk (Some ps) call_typer ∧ ps = [RegT "int32"]
  | _ => False
  end.
Proof.
  pose proof (inference_agrees call_context "f" ["V"] call_formals call_args call_typer
    call_args_known eq_refl) as H.
  cbv zeta in H. change (genInfer (ty_env call_typer) ["V"] call_formals call_args) with (Ret (Some [RegT "int32"])) in *.
  split; [exact H|reflexivity].
Defined.

