(* ===== verification/RtVec.v ===== *)
(** * Vectors

    [builtins/collections/vec.c]: the functions that [LUCIS_VEC_IMPL] defines for the integer
    types.  A vector is a block of memory with a length and a capacity.  Reading a cell that
    was never written, or a cell outside of the block, is undefined; so is the overflow of a
    sum of signed numbers; [exit(1)] is an exception.

    The specification is a list: [vec_refines] says that a program of operations on a vector
    does what it does on a list.  The averages, which are floating-point, and the vectors of
    floating-point numbers are not modelled. *)

From stdpp Require Import sorting.
From S2P Require Import Prelude.
From S2P Require Import CxxLib.
Local Open Scope Z_scope.

(** ** Integer types *)

Record int_kind := { k_bits : Z; k_signed : bool }.

Definition i8 := {| k_bits := 8; k_signed := true |}.
Definition i16 := {| k_bits := 16; k_signed := true |}.
Definition i32 := {| k_bits := 32; k_signed := true |}.
Definition i64 := {| k_bits := 64; k_signed := true |}.
Definition i128 := {| k_bits := 128; k_signed := true |}.
Definition u8 := {| k_bits := 8; k_signed := false |}.
Definition u16 := {| k_bits := 16; k_signed := false |}.
Definition u32 := {| k_bits := 32; k_signed := false |}.
Definition u64 := {| k_bits := 64; k_signed := false |}.
Definition u128 := {| k_bits := 128; k_signed := false |}.

Definition k_min (k : int_kind) : Z := if k_signed k then - 2 ^ (k_bits k - 1) else 0.
Definition k_max (k : int_kind) : Z := if k_signed k then 2 ^ (k_bits k - 1) - 1 else 2 ^ k_bits k - 1.
Definition in_kind (k : int_kind) (x : Z) : bool := (k_min k <=? x) && (x <=? k_max k).
Definition sizeof (k : int_kind) : Z := k_bits k / 8.

(** The conversion to the type, modulo its size. *)
Definition wrap (k : int_kind) (x : Z) : Z := (x - k_min k) mod 2 ^ k_bits k + k_min k.

(** The result of an operation on two values: types narrower than [int] are promoted to it,
    and the result converted back. *)
Definition arith (k : int_kind) (z : Z) : outcome Z :=
  if k_bits k <? 32 then if in_kind i32 z then Ret (wrap k z) else Undef
  else if k_signed k then if in_kind k z then Ret z else Undef
  else Ret (wrap k z).

(** The kinds of integers of the library. *)
Definition int_kinds : list int_kind := [i8; i16; i32; i64; i128; u8; u16; u32; u64; u128].

(** ** Memory *)

Notation block := (list (option Z)).

Record lucis_vec_header := {
  v_ptr : option block;
  v_len : Z;
  v_cap : Z }.

#[export] Instance settable_lucis_vec_header : Settable lucis_vec_header := λ v,
  Build_lucis_vec_header (v_ptr v) (v_len v) (v_cap v).

Definition exit1 {A} : outcome A := Throw OtherException.

(** [d[i]] *)
Definition load (d : option block) (i : Z) : outcome Z :=
  match d with
  | None => Undef
  | Some d => x ← arr_get d i; match x with Some x => Ret x | None => Undef end
  end.

Definition store (d : option block) (i : Z) (x : Z) : outcome (option block) :=
  match d with None => Undef | Some d => d ← arr_set d i (Some x); Ret (Some d) end.

(** [memmove(&d[dst], &d[src], n * sizeof(T))] *)
Definition memmove (d : option block) (dst src n : Z) : outcome (option block) :=
  match d with
  | None => Undef
  | Some d =>
      if (0 <=? dst) && (0 <=? src) && (0 <=? n) &&
         (dst + n <=? Z.of_nat (length d)) && (src + n <=? Z.of_nat (length d))
      then Ret (Some (take (Z.to_nat dst) d ++ take (Z.to_nat n) (drop (Z.to_nat src) d) ++
                      drop (Z.to_nat (dst + n)) d))
      else Undef
  end.

(** [swap(d[i], d[j])] *)
Definition swap_cells (d : option block) (i j : Z) : outcome (option block) :=
  x ← load d i; y ← load d j; d ← store d i y; store d j x.

Section vec.
Context (k : int_kind).
(** Whether the allocator has a block of so many bytes. *)
Context (granted : Z → bool).

(** [malloc(n)] and [realloc(p, n)], for a size that was computed modulo 2^64; without
    memory the result is a null pointer. *)
Definition realloc (p : option block) (bytes : Z) : option block :=
  if granted (to_uint64 bytes) then
    let n := Z.to_nat (to_uint64 bytes / sizeof k) in
    let old := default [] p in
    Some (take n old ++ replicate (n - length old) None)
  else None.

(** ** The operations *)

Definition LUCIS_VEC_INITIAL_CAP : Z := 8.
Definition LUCIS_VEC_GROWTH_FACTOR : Z := 2.

Fixpoint growCap (fuel : nat) (newCap needed : Z) : outcome Z :=
  if newCap <? needed then
    match fuel with
    | O => NoFuel
    | S fuel => growCap fuel (to_uint64 (newCap * LUCIS_VEC_GROWTH_FACTOR)) needed
    end
  else Ret newCap.

Definition vec_grow (v : lucis_vec_header) (needed : Z) : outcome lucis_vec_header :=
  if needed <=? v_cap v then Ret v else
  newCap ← growCap 65 (if v_cap v =? 0 then LUCIS_VEC_INITIAL_CAP else v_cap v) needed;
  Ret (v <| v_ptr := realloc (v_ptr v) (newCap * sizeof k) |> <| v_cap := newCap |>).

Definition lucis_vec_init : lucis_vec_header := {| v_ptr := None; v_len := 0; v_cap := 0 |}.

Definition lucis_vec_init_cap (cap : Z) : lucis_vec_header :=
  {| v_ptr := realloc None (cap * sizeof k); v_len := 0; v_cap := cap |}.

Definition lucis_vec_at (v : lucis_vec_header) (idx : Z) : outcome Z :=
  if v_len v <=? idx then exit1 else load (v_ptr v) idx.
Definition lucis_vec_first (v : lucis_vec_header) : outcome Z :=
  if v_len v =? 0 then exit1 else load (v_ptr v) 0.
Definition lucis_vec_last (v : lucis_vec_header) : outcome Z :=
  if v_len v =? 0 then exit1 else load (v_ptr v) (v_len v - 1).

Definition lucis_vec_set (v : lucis_vec_header) (idx val : Z) : outcome lucis_vec_header :=
  if v_len v <=? idx then exit1 else
  d ← store (v_ptr v) idx val; Ret (v <| v_ptr := d |>).

Definition lucis_vec_push (v : lucis_vec_header) (val : Z) : outcome lucis_vec_header :=
  v ← vec_grow v (to_uint64 (v_len v + 1));
  d ← store (v_ptr v) (v_len v) val;
  Ret (v <| v_ptr := d |> <| v_len := to_uint64 (v_len v + 1) |>).

Definition lucis_vec_pop (v : lucis_vec_header) : outcome (lucis_vec_header * Z) :=
  if v_len v =? 0 then exit1 else
  let v := v <| v_len := v_len v - 1 |> in
  x ← load (v_ptr v) (v_len v); Ret (v, x).

Definition lucis_vec_insert (v : lucis_vec_header) (idx val : Z) : outcome lucis_vec_header :=
  if v_len v <? idx then exit1 else
  v ← vec_grow v (to_uint64 (v_len v + 1));
  d ← memmove (v_ptr v) (idx + 1) idx (v_len v - idx);
  d ← store d idx val;
  Ret (v <| v_ptr := d |> <| v_len := to_uint64 (v_len v + 1) |>).

Definition lucis_vec_removeAt (v : lucis_vec_header) (idx : Z) : outcome (lucis_vec_header * Z) :=
  if v_len v <=? idx then exit1 else
  val ← load (v_ptr v) idx;
  d ← memmove (v_ptr v) idx (idx + 1) (v_len v - idx - 1);
  Ret (v <| v_ptr := d |> <| v_len := v_len v - 1 |>, val).

Definition lucis_vec_removeSwap (v : lucis_vec_header) (idx : Z) : outcome (lucis_vec_header * Z) :=
  if v_len v <=? idx then exit1 else
  val ← load (v_ptr v) idx;
  x ← load (v_ptr v) (v_len v - 1);
  d ← store (v_ptr v) idx x;
  Ret (v <| v_ptr := d |> <| v_len := v_len v - 1 |>, val).

Definition lucis_vec_clear (v : lucis_vec_header) : lucis_vec_header := v <| v_len := 0 |>.

(** [for (i = from; i < from + n; i++) d[i] = val] *)
Fixpoint fillLoop (d : option block) (val : Z) (from : Z) (n : nat) : outcome (option block) :=
  match n with
  | O => Ret d
  | S n => d ← store d from val; fillLoop d val (from + 1) n
  end.

Definition lucis_vec_fill (v : lucis_vec_header) (val : Z) : outcome lucis_vec_header :=
  d ← fillLoop (v_ptr v) val 0 (Z.to_nat (v_len v)); Ret (v <| v_ptr := d |>).

Definition lucis_vec_swap (v : lucis_vec_header) (i j : Z) : outcome lucis_vec_header :=
  if (v_len v <=? i) || (v_len v <=? j) then exit1 else
  d ← swap_cells (v_ptr v) i j; Ret (v <| v_ptr := d |>).

Definition lucis_vec_reserve (v : lucis_vec_header) (cap : Z) : outcome lucis_vec_header := vec_grow v cap.

Definition lucis_vec_shrink (v : lucis_vec_header) : lucis_vec_header :=
  if v_len v =? 0 then v <| v_ptr := None |> <| v_cap := 0 |> else
  if v_len v <? v_cap v
  then v <| v_ptr := realloc (v_ptr v) (v_len v * sizeof k) |> <| v_cap := v_len v |> else v.

Definition lucis_vec_resize (v : lucis_vec_header) (len fill : Z) : outcome lucis_vec_header :=
  v ← vec_grow v len;
  d ← fillLoop (v_ptr v) fill (v_len v) (Z.to_nat (len - v_len v));
  Ret (v <| v_ptr := d |> <| v_len := len |>).

Definition lucis_vec_truncate (v : lucis_vec_header) (len : Z) : lucis_vec_header :=
  if len <? v_len v then v <| v_len := len |> else v.

(** Loops over the elements in order, from [i], with [n] left. *)
Fixpoint foldLoop {A} (f : A → Z → outcome A) (d : option block) (a : A) (i : Z) (n : nat) : outcome A :=
  match n with
  | O => Ret a
  | S n => x ← load d i; a ← f a x; foldLoop f d a (i + 1) n
  end.

Fixpoint indexLoop (d : option block) (val i : Z) (n : nat) : outcome Z :=
  match n with
  | O => Ret (-1)
  | S n => x ← load d i; if x =? val then Ret i else indexLoop d val (i + 1) n
  end.

(** [for (i = n; i > 0; i--)] *)
Fixpoint lastIndexLoop (d : option block) (val : Z) (n : nat) : outcome Z :=
  match n with
  | O => Ret (-1)
  | S n => x ← load d (Z.of_nat n); if x =? val then Ret (Z.of_nat n) else lastIndexLoop d val n
  end.

Definition lucis_vec_indexOf (v : lucis_vec_header) (val : Z) : outcome Z :=
  indexLoop (v_ptr v) val 0 (Z.to_nat (v_len v)).
Definition lucis_vec_contains (v : lucis_vec_header) (val : Z) : outcome bool :=
  i ← indexLoop (v_ptr v) val 0 (Z.to_nat (v_len v)); Ret (negb (i =? -1)).
Definition lucis_vec_lastIndexOf (v : lucis_vec_header) (val : Z) : outcome Z :=
  lastIndexLoop (v_ptr v) val (Z.to_nat (v_len v)).
Definition lucis_vec_count (v : lucis_vec_header) (val : Z) : outcome Z :=
  foldLoop (λ c x, Ret (if x =? val then c + 1 else c)) (v_ptr v) 0 0 (Z.to_nat (v_len v)).

(** [for (; i < j; i++, j--) swap(d[i], d[j])], in unsigned arithmetic. *)
Fixpoint reverseLoop (fuel : nat) (d : option block) (i j : Z) : outcome (option block) :=
  if i <? j then
    match fuel with
    | O => NoFuel
    | S fuel => d ← swap_cells d i j; reverseLoop fuel d (i + 1) (to_uint64 (j - 1))
    end
  else Ret d.

(** Of the vectors of machine integers; no test of the length. *)
Definition lucis_vec_reverse (v : lucis_vec_header) : outcome lucis_vec_header :=
  d ← reverseLoop (S (Z.to_nat (v_len v))) (v_ptr v) 0 (to_uint64 (v_len v - 1));
  Ret (v <| v_ptr := d |>).

(** Of the vectors of [intinf] and of strings. *)
Definition lucis_vec_reverse_guarded (v : lucis_vec_header) : outcome lucis_vec_header :=
  if v_len v <=? 1 then Ret v else lucis_vec_reverse v.

Definition lucis_vec_rotate (v : lucis_vec_header) (steps : Z) : outcome lucis_vec_header :=
  if v_len v <=? 1 then Ret v else
  let n := to_int64 (v_len v) in
  let s := Z.rem (Z.rem steps n + n) n in
  if s =? 0 then Ret v else
  let fuel := S (Z.to_nat (v_len v)) in
  d ← reverseLoop fuel (v_ptr v) 0 (v_len v - 1);
  d ← reverseLoop fuel d 0 (s - 1);
  d ← reverseLoop fuel d s (v_len v - 1);
  Ret (v <| v_ptr := d |>).

(** [equals] *)
Fixpoint equalsLoop (da db : option block) (i : Z) (n : nat) : outcome bool :=
  match n with
  | O => Ret true
  | S n => x ← load da i; y ← load db i; if x =? y then equalsLoop da db (i + 1) n else Ret false
  end.

Definition lucis_vec_equals (a b : lucis_vec_header) : outcome bool :=
  if negb (v_len a =? v_len b) then Ret false else equalsLoop (v_ptr a) (v_ptr b) 0 (Z.to_nat (v_len a)).

Fixpoint sortedLoop (d : option block) (i : Z) (n : nat) : outcome bool :=
  match n with
  | O => Ret true
  | S n => x ← load d i; y ← load d (i - 1); if x <? y then Ret false else sortedLoop d (i + 1) n
  end.

Definition lucis_vec_isSorted (v : lucis_vec_header) : outcome bool :=
  if v_len v <=? 1 then Ret true else sortedLoop (v_ptr v) 1 (Z.to_nat (v_len v - 1)).

(** [(va > vb) - (va < vb)] and the reverse *)
Definition vec_cmp_asc (va vb : Z) : Z := Z.b2z (vb <? va) - Z.b2z (va <? vb).
Definition vec_cmp_desc (va vb : Z) : Z := Z.b2z (va <? vb) - Z.b2z (vb <? va).

(** The first [n] cells. *)
Definition contents (d : option block) (n : Z) : outcome (list Z) :=
  foldLoop (λ l x, Ret (l ++ [x])) d [] 0 (Z.to_nat n).

Definition not_after (cmp : Z → Z → Z) (x y : Z) : Prop := cmp x y ≤ 0.
#[export] Instance not_after_dec cmp x y : Decision (not_after cmp x y) := Z_le_dec (cmp x y) 0.

(** [qsort(d, n, sizeof(T), cmp)]: the elements in an order in which none is greater than the
    next. *)
Definition qsort (cmp : Z → Z → Z) (d : option block) (n : Z) : outcome (option block) :=
  l ← contents d n;
  match d with
  | None => Undef
  | Some d => Ret (Some ((Some <$> merge_sort (not_after cmp) l) ++ drop (Z.to_nat n) d))
  end.

Definition lucis_vec_sort (v : lucis_vec_header) : outcome lucis_vec_header :=
  if v_len v <=? 1 then Ret v else d ← qsort vec_cmp_asc (v_ptr v) (v_len v); Ret (v <| v_ptr := d |>).
Definition lucis_vec_sortDesc (v : lucis_vec_header) : outcome lucis_vec_header :=
  if v_len v <=? 1 then Ret v else d ← qsort vec_cmp_desc (v_ptr v) (v_len v); Ret (v <| v_ptr := d |>).

Definition lucis_vec_sum (v : lucis_vec_header) : outcome Z :=
  foldLoop (λ acc x, arith k (acc + x)) (v_ptr v) 0 0 (Z.to_nat (v_len v)).
Definition lucis_vec_product (v : lucis_vec_header) : outcome Z :=
  foldLoop (λ acc x, arith k (acc * x)) (v_ptr v) 1 0 (Z.to_nat (v_len v)).

Definition lucis_vec_min (v : lucis_vec_header) : outcome Z :=
  if v_len v =? 0 then exit1 else
  m ← load (v_ptr v) 0;
  foldLoop (λ m x, Ret (if x <? m then x else m)) (v_ptr v) m 1 (Z.to_nat (v_len v - 1)).
Definition lucis_vec_max (v : lucis_vec_header) : outcome Z :=
  if v_len v =? 0 then exit1 else
  m ← load (v_ptr v) 0;
  foldLoop (λ m x, Ret (if m <? x then x else m)) (v_ptr v) m 1 (Z.to_nat (v_len v - 1)).

(** The copy; [memcpy] of the elements. *)
Definition lucis_vec_clone (src : lucis_vec_header) : outcome lucis_vec_header :=
  if 0 <? v_len src then
    match realloc None (v_len src * sizeof k), v_ptr src with
    | Some dst, Some d =>
        if (v_len src <=? Z.of_nat (length dst)) && (v_len src <=? Z.of_nat (length d))
        then Ret {| v_ptr := Some (take (Z.to_nat (v_len src)) d ++ drop (Z.to_nat (v_len src)) dst);
                    v_len := v_len src; v_cap := v_len src |}
        else Undef
    | _, _ => Undef
    end
  else Ret {| v_ptr := None; v_len := v_len src; v_cap := 0 |}.
End vec.

(** ** Programs of operations *)

Inductive vec_op :=
| OpPush (x : Z) | OpPop | OpInsert (i x : Z) | OpRemoveAt (i : Z) | OpRemoveSwap (i : Z)
| OpClear | OpFill (x : Z) | OpSwap (i j : Z) | OpSet (i x : Z)
| OpReserve (n : Z) | OpShrink | OpResize (n x : Z) | OpTruncate (n : Z) | OpClone
| OpAt (i : Z) | OpFirst | OpLast | OpLen | OpIsEmpty
| OpContains (x : Z) | OpIndexOf (x : Z) | OpLastIndexOf (x : Z) | OpCount (x : Z) | OpEqualsClone
| OpReverse | OpRotate (steps : Z) | OpSort | OpSortDesc | OpIsSorted
| OpSum | OpProduct | OpMin | OpMax.

Inductive vec_res := VUnit | VNum (z : Z) | VBool (b : bool).

Section programs.
Context (k : int_kind) (granted : Z → bool).

Definition changed (m : outcome lucis_vec_header) : outcome (lucis_vec_header * vec_res) := v ← m; Ret (v, VUnit).
Definition taken (m : outcome (lucis_vec_header * Z)) : outcome (lucis_vec_header * vec_res) := r ← m; Ret (r.1, VNum r.2).
Definition answer {S} (v : S) (m : outcome Z) : outcome (S * vec_res) := x ← m; Ret (v, VNum x).
Definition verdict {S} (v : S) (m : outcome bool) : outcome (S * vec_res) := b ← m; Ret (v, VBool b).

Definition vec_step (v : lucis_vec_header) (o : vec_op) : outcome (lucis_vec_header * vec_res) :=
  match o with
  | OpPush x => changed (lucis_vec_push k granted v x)
  | OpPop => taken (lucis_vec_pop v)
  | OpInsert i x => changed (lucis_vec_insert k granted v i x)
  | OpRemoveAt i => taken (lucis_vec_removeAt v i)
  | OpRemoveSwap i => taken (lucis_vec_removeSwap v i)
  | OpClear => changed (Ret (lucis_vec_clear v))
  | OpFill x => changed (lucis_vec_fill v x)
  | OpSwap i j => changed (lucis_vec_swap v i j)
  | OpSet i x => changed (lucis_vec_set v i x)
  | OpReserve n => changed (lucis_vec_reserve k granted v n)
  | OpShrink => changed (Ret (lucis_vec_shrink k granted v))
  | OpResize n x => changed (lucis_vec_resize k granted v n x)
  | OpTruncate n => changed (Ret (lucis_vec_truncate v n))
  | OpClone => changed (lucis_vec_clone k granted v)
  | OpAt i => answer v (lucis_vec_at v i)
  | OpFirst => answer v (lucis_vec_first v)
  | OpLast => answer v (lucis_vec_last v)
  | OpLen => answer v (Ret (v_len v))
  | OpIsEmpty => verdict v (Ret (v_len v =? 0))
  | OpContains x => verdict v (lucis_vec_contains v x)
  | OpIndexOf x => answer v (lucis_vec_indexOf v x)
  | OpLastIndexOf x => answer v (lucis_vec_lastIndexOf v x)
  | OpCount x => answer v (lucis_vec_count v x)
  | OpEqualsClone => w ← lucis_vec_clone k granted v; verdict v (lucis_vec_equals v w)
  | OpReverse => changed (lucis_vec_reverse v)
  | OpRotate s => changed (lucis_vec_rotate v s)
  | OpSort => changed (lucis_vec_sort v)
  | OpSortDesc => changed (lucis_vec_sortDesc v)
  | OpIsSorted => verdict v (lucis_vec_isSorted v)
  | OpSum => answer v (lucis_vec_sum k v)
  | OpProduct => answer v (lucis_vec_product k v)
  | OpMin => answer v (lucis_vec_min v)
  | OpMax => answer v (lucis_vec_max v)
  end.

Fixpoint run_ops {S} (step : S → vec_op → outcome (S * vec_res)) (s : S) (l : list vec_op)
    : outcome (S * list vec_res) :=
  match l with
  | [] => Ret (s, [])
  | o :: l => r ← step s o; rs ← run_ops step r.1 l; Ret (rs.1, r.2 :: rs.2)
  end.

(** *** The same on a list *)

(** [d], unless the index is out of bounds. *)
Definition within {A} (l : list Z) (i : Z) (d : A) : outcome A := if i <? Z.of_nat (length l) then Ret d else exit1.
Definition nth (l : list Z) (i : Z) : Z := l !!! Z.to_nat i.
Definition upd (l : list Z) (i x : Z) : list Z := <[Z.to_nat i := x]> l.
Definition unit_res (l : list Z) : list Z * vec_res := (l, VUnit).

Fixpoint fold_arith (f : Z → Z → Z) (acc : Z) (l : list Z) : outcome Z :=
  match l with [] => Ret acc | x :: l => acc ← arith k (f acc x); fold_arith f acc l end.

Definition index_of (x : Z) (l : list Z) : Z := from_option (λ p, Z.of_nat p.1) (-1) (list_find (x =.) l).
Definition last_index_of (x : Z) (l : list Z) : Z :=
  match index_of x (reverse l) with -1 => -1 | i => Z.of_nat (length l) - 1 - i end.

Definition rotated (l : list Z) (steps : Z) : list Z :=
  let n := (length l - Z.to_nat (steps mod Z.of_nat (length l)))%nat in drop n l ++ take n l.

Definition list_step (l : list Z) (o : vec_op) : outcome (list Z * vec_res) :=
  let n := Z.of_nat (length l) in
  match o with
  | OpPush x => Ret (unit_res (l ++ [x]))
  | OpPop => if n =? 0 then exit1 else Ret (take (length l - 1) l, VNum (nth l (n - 1)))
  | OpInsert i x => if i <=? n then Ret (unit_res (take (Z.to_nat i) l ++ x :: drop (Z.to_nat i) l)) else exit1
  | OpRemoveAt i => within l i (take (Z.to_nat i) l ++ drop (S (Z.to_nat i)) l, VNum (nth l i))
  | OpRemoveSwap i => within l i (take (length l - 1) (upd l i (nth l (n - 1))), VNum (nth l i))
  | OpClear => Ret (unit_res [])
  | OpFill x => Ret (unit_res (replicate (length l) x))
  | OpSwap i j => if (i <? n) && (j <? n) then Ret (unit_res (upd (upd l i (nth l j)) j (nth l i))) else exit1
  | OpSet i x => within l i (unit_res (upd l i x))
  | OpReserve _ | OpShrink | OpClone => Ret (unit_res l)
  | OpResize m x => Ret (unit_res (take (Z.to_nat m) l ++ replicate (Z.to_nat m - length l) x))
  | OpTruncate m => Ret (unit_res (take (Z.to_nat m) l))
  | OpAt i => within l i (l, VNum (nth l i))
  | OpFirst => if n =? 0 then exit1 else Ret (l, VNum (nth l 0))
  | OpLast => if n =? 0 then exit1 else Ret (l, VNum (nth l (n - 1)))
  | OpLen => Ret (l, VNum n)
  | OpIsEmpty => Ret (l, VBool (bool_decide (l = [])))
  | OpContains x => Ret (l, VBool (bool_decide (x ∈ l)))
  | OpIndexOf x => Ret (l, VNum (index_of x l))
  | OpLastIndexOf x => Ret (l, VNum (last_index_of x l))
  | OpCount x => Ret (l, VNum (Z.of_nat (length (filter (x =.) l))))
  | OpEqualsClone => Ret (l, VBool true)
  | OpReverse => if n =? 0 then Undef else Ret (unit_res (reverse l))
  | OpRotate s => Ret (unit_res (rotated l s))
  | OpSort => Ret (unit_res (merge_sort Z.le l))
  | OpSortDesc => Ret (unit_res (merge_sort (flip Z.le) l))
  | OpIsSorted => Ret (l, VBool (bool_decide (Sorted Z.le l)))
  | OpSum => answer l (fold_arith Z.add 0 l)
  | OpProduct => answer l (fold_arith Z.mul 1 l)
  | OpMin => match l with [] => exit1 | x :: l' => Ret (l, VNum (foldr Z.min x l')) end
  | OpMax => match l with [] => exit1 | x :: l' => Ret (l, VNum (foldr Z.max x l')) end
  end.

(** The elements the operation asks for, and the sizes and indices it may have. *)
Definition demand (l : list Z) (o : vec_op) : Z :=
  match o with
  | OpPush _ | OpInsert _ _ => Z.of_nat (length l) + 1
  | OpReserve n | OpResize n _ => n
  | _ => 0
  end.

Definition op_ok (o : vec_op) : bool :=
  match o with
  | OpInsert i _ | OpSet i _ | OpResize i _ | OpRemoveAt i | OpRemoveSwap i | OpAt i | OpReserve i | OpTruncate i =>
      in_uint64 i
  | OpSwap i j => in_uint64 i && in_uint64 j
  | OpRotate s => in_kind i32 s
  | _ => true
  end.

(** The program has proper arguments and asks for at most [N] elements. *)
Fixpoint modest (N : Z) (l : list Z) (ops : list vec_op) : bool :=
  match ops with
  | [] => true
  | o :: ops =>
      op_ok o && (demand l o <=? N) &&
      match list_step l o with Ret (l, _) => modest N l ops | _ => true end
  end.
End programs.

(** ** Cells and lists *)

(** The block starts with these elements. *)
Definition holds (p : option block) (l : list Z) : Prop :=
  ∀ j x, l !! j = Some x → default [] p !! j = Some (Some x).
Definition psize (p : option block) : nat := length (default [] p).
Arguments psize : simpl never.

Lemma holds_length p l : holds p l → (length l ≤ psize p)%nat.
Proof.
  intros H. destruct (decide (length l ≤ psize p)%nat) as [|Hn]; [done|].
  destruct (lookup_lt_is_Some_2 l (psize p)) as [x Hx]; [lia|]. apply H in Hx.
  apply lookup_lt_Some in Hx. unfold psize in Hx. lia.
Qed.

Lemma holds_prefix p l l' : holds p l → l' `prefix_of` l → holds p l'.
Proof. intros H Hp j x Hx. apply H. by eapply prefix_lookup_Some. Qed.

Lemma holds_nil p : holds p [].
Proof. intros j x Hx. by rewrite lookup_nil in Hx. Qed.

Lemma load_ok p l i x : holds p l → l !! i = Some x → load p (Z.of_nat i) = Ret x.
Proof.
  intros H Hx. apply H in Hx. destruct p as [d|]; cbn [default from_option id] in Hx; [|done].
  unfold load. by rewrite (arr_get_ok d i (Some x)).
Qed.

Lemma load_Z p l i : holds p l → 0 ≤ i < Z.of_nat (length l) → load p i = Ret (nth l i).
Proof.
  intros H Hi. replace i with (Z.of_nat (Z.to_nat i)) at 1 by lia. apply (load_ok p l); [done|].
  unfold nth. apply list_lookup_lookup_total_lt. lia.
Qed.

Lemma store_cell p i x : (i < psize p)%nat → ∃ p', store p (Z.of_nat i) x = Ret p' ∧ psize p' = psize p ∧
  ∀ j, default [] p' !! j = if decide (j = i) then Some (Some x) else default [] p !! j.
Proof.
  unfold psize, store. destruct p as [d|]; simpl; [|lia]. intros Hi. rewrite arr_set_ok by done.
  eexists. split; [done|]. simpl. rewrite length_insert. split; [done|]. intros j.
  destruct (decide (j = i)) as [->|Hj]; [by apply list_lookup_insert_eq|by apply list_lookup_insert_ne].
Qed.

Lemma store_ok p l i x : holds p l → (i < length l)%nat →
  ∃ p', store p (Z.of_nat i) x = Ret p' ∧ psize p' = psize p ∧ holds p' (<[i := x]> l).
Proof.
  intros H Hi. pose proof (holds_length p l H).
  destruct (store_cell p i x) as (p' & -> & Hs & Hl); [lia|]. exists p'. split_and!; [done..|].
  intros j y. rewrite Hl. rewrite list_lookup_insert_Some. intros [(<- & <- & _)|[Hj Hy]].
  - by rewrite decide_True.
  - rewrite decide_False by done. by apply H.
Qed.

Lemma store_Z p l i x : holds p l → 0 ≤ i < Z.of_nat (length l) →
  ∃ p', store p i x = Ret p' ∧ psize p' = psize p ∧ holds p' (upd l i x).
Proof. intros H Hi. rewrite <-(Z2Nat.id i) by lia. unfold upd. rewrite Nat2Z.id. apply store_ok; [done|lia]. Qed.

(** A write behind the elements. *)
Lemma store_end p l x : holds p l → (length l < psize p)%nat →
  ∃ p', store p (Z.of_nat (length l)) x = Ret p' ∧ psize p' = psize p ∧ holds p' (l ++ [x]).
Proof.
  intros H Hi. destruct (store_cell p (length l) x) as (p' & -> & Hs & Hl); [done|]. exists p'. split_and!; [done..|].
  intros j y. rewrite Hl, lookup_snoc_Some. intros [[Hj Hy]|[-> ->]].
  - rewrite decide_False by lia. by apply H.
  - by rewrite decide_True.
Qed.

Lemma memmove_cells p dst src n : (dst + n ≤ psize p)%nat → (src + n ≤ psize p)%nat → p ≠ None →
  ∃ p', memmove p (Z.of_nat dst) (Z.of_nat src) (Z.of_nat n) = Ret p' ∧ psize p' = psize p ∧
  ∀ j, default [] p' !! j =
    if decide (dst ≤ j < dst + n)%nat then default [] p !! (src + (j - dst))%nat else default [] p !! j.
Proof.
  unfold psize, memmove. destruct p as [d|]; [|done]. cbn [default from_option id]. intros Hd Hs _.
  rewrite !(proj2 (Z.leb_le _ _)) by lia. cbn [andb]. eexists. split; [done|]. cbn [default from_option id].
  rewrite <-Nat2Z.inj_add, !Nat2Z.id. split.
  { rewrite !length_app, !length_take, !length_drop. lia. }
  intros j. destruct (decide _) as [Hj|Hj].
  - rewrite lookup_app_r by (rewrite length_take; lia). rewrite length_take, Nat.min_l by lia.
    rewrite lookup_app_l by (rewrite length_take, length_drop; lia). rewrite lookup_take_lt by lia. by rewrite lookup_drop.
  - destruct (decide (j < dst)%nat).
    + rewrite lookup_app_l by (rewrite length_take; lia). by rewrite lookup_take_lt.
    + rewrite lookup_app_r by (rewrite length_take; lia). rewrite length_take, Nat.min_l by lia.
      rewrite lookup_app_r by (rewrite length_take, length_drop; lia).
      rewrite length_take, length_drop, lookup_drop. f_equal. lia.
Qed.

(** *** Loops *)

Lemma foldLoop_ok {A} (f : A → Z → outcome A) p l : holds p l → ∀ n a i, n = (length l - i)%nat →
  foldLoop f p a (Z.of_nat i) n =
  (fix go (a : A) (l : list Z) : outcome A := match l with [] => Ret a | x :: l => a ← f a x; go a l end) a (drop i l).
Proof.
  intros H. induction n as [|n IH]; intros a i Hn; cbn [foldLoop].
  - by rewrite drop_ge by lia.
  - destruct (lookup_lt_is_Some_2 l i) as [x Hx]; [lia|]. rewrite (load_ok p l i x), (drop_S l x i) by done.
    cbn [mbind outcome_bind]. destruct (f a x) as [a'| | |]; try done. cbn [outcome_bind].
    replace (Z.of_nat i + 1) with (Z.of_nat (S i)) by lia. apply IH. lia.
Qed.

(** A loop whose body never fails. *)
Lemma foldLoop_ret {A} (f : A → Z → A) p l i a : holds p l → (i ≤ length l)%nat →
  foldLoop (λ a x, Ret (f a x)) p a (Z.of_nat i) (Z.to_nat (Z.of_nat (length l) - Z.of_nat i)) =
  Ret (fold_left f (drop i l) a).
Proof.
  intros H Hi. rewrite (foldLoop_ok _ p l) by (done || lia). generalize (drop i l). clear. intros l. revert a.
  induction l as [|x l IH]; intros a; [done|]. cbn [mbind outcome_bind fold_left]. apply IH.
Qed.

Lemma contents_ok p l : holds p l → contents p (Z.of_nat (length l)) = Ret l.
Proof.
  intros H. unfold contents. pose proof (foldLoop_ret (λ l x, l ++ [x]) p l 0 [] H (Nat.le_0_l _)) as E.
  change (Z.of_nat 0) with 0 in E. rewrite Z.sub_0_r in E. rewrite E, drop_0. f_equal.
  assert (G : ∀ a, fold_left (λ l x, l ++ [x]) l a = a ++ l); [|by rewrite G].
  clear. induction l as [|x l IH]; intros a; cbn [fold_left]; [by rewrite app_nil_r|]. by rewrite IH, <-app_assoc.
Qed.

Lemma fillLoop_ok x n : ∀ p l i, holds p l → (i ≤ length l)%nat → (i + n ≤ psize p)%nat →
  ∃ p', fillLoop p x (Z.of_nat i) n = Ret p' ∧ psize p' = psize p ∧
    holds p' (take i l ++ replicate n x ++ drop (i + n) l).
Proof.
  induction n as [|n IH]; intros p l i H Hi Hn; cbn [fillLoop].
  - exists p. split_and!; [done..|]. by rewrite Nat.add_0_r; simpl; rewrite take_drop.
  - assert (Hs : ∃ p' l', store p (Z.of_nat i) x = Ret p' ∧ psize p' = psize p ∧ holds p' l' ∧
      (S i ≤ length l')%nat ∧ take (S i) l' = take i l ++ [x] ∧ drop (S i + n) l' = drop (i + S n) l).
    { destruct (decide (i = length l)) as [->|].
      - destruct (store_end p l x) as (p' & E & Hsz & Hh); [done|lia|].
        exists p', (l ++ [x]). split_and!; [done..|rewrite length_app; simpl; lia| |].
        + rewrite !take_ge by (rewrite ?length_app; simpl; lia). done.
        + rewrite !drop_ge by (rewrite ?length_app; simpl; lia). done.
      - destruct (store_ok p l i x) as (p' & E & Hsz & Hh); [done|lia|].
        exists p', (<[i := x]> l). split_and!; [done..|rewrite length_insert; lia| |].
        + erewrite take_S_r; [|apply list_lookup_insert_eq; lia]. by rewrite take_insert_ge.
        + rewrite drop_insert_lt by lia. f_equal. lia. }
    destruct Hs as (p1 & l1 & -> & Hsz & H1 & Hl1 & Ht & Hd). cbn [mbind outcome_bind].
    replace (Z.of_nat i + 1) with (Z.of_nat (S i)) by lia.
    destruct (IH p1 l1 (S i)) as (p2 & -> & Hsz2 & H2); [done|done|lia|].
    exists p2. split_and!; [done|lia|]. rewrite Ht, Hd, <-app_assoc in H2. done.
Qed.

Lemma indexLoop_ok x p l n : holds p l → ∀ i, n = (length l - i)%nat →
  indexLoop p x (Z.of_nat i) n = Ret (from_option (λ q, Z.of_nat (i + q.1)) (-1) (list_find (x =.) (drop i l))).
Proof.
  intros H. induction n as [|n IH]; intros i Hn; cbn [indexLoop].
  - by rewrite drop_ge by lia.
  - destruct (lookup_lt_is_Some_2 l i) as [y Hy]; [lia|]. rewrite (load_ok p l i y), (drop_S l y i) by done.
    cbn [mbind outcome_bind list_find]. destruct (Z.eqb_spec y x) as [->|Hne].
    { rewrite decide_True by done. simpl. by rewrite Nat.add_0_r. }
    rewrite decide_False by congruence. replace (Z.of_nat i + 1) with (Z.of_nat (S i)) by lia.
    rewrite IH by lia. f_equal. destruct (list_find _ (drop (S i) l)) as [[q z]|]; simpl; [|done]. lia.
Qed.

Lemma index_of_ok x p l : holds p l → indexLoop p x 0 (length l) = Ret (index_of x l).
Proof. intros H. by rewrite (indexLoop_ok x p l _ H 0) by lia. Qed.

Lemma index_of_range x l : index_of x l = -1 ∨ 0 ≤ index_of x l < Z.of_nat (length l).
Proof.
  unfold index_of. destruct (list_find _ l) as [[i y]|] eqn:E; [right|by left].
  apply list_find_Some in E as (Hi & _ & _). apply lookup_lt_Some in Hi. simpl. lia.
Qed.

Lemma index_of_found x l : index_of x l ≠ -1 ↔ x ∈ l.
Proof.
  unfold index_of. destruct (list_find _ l) as [[i y]|] eqn:E; simpl.
  - apply list_find_Some in E as (Hi & -> & _). split; [intros _; by eapply list_elem_of_lookup_2|lia].
  - apply list_find_None in E. rewrite Forall_forall in E. split; [done|]. intros Hx. by apply E in Hx.
Qed.

Lemma index_of_app x l l' : index_of x (l ++ l') =
  if decide (x ∈ l) then index_of x l else
  match index_of x l' with -1 => -1 | i => Z.of_nat (length l) + i end.
Proof.
  unfold index_of. destruct (decide (x ∈ l)) as [Hx|Hx].
  - destruct (list_find _ l) as [[i y]|] eqn:E.
    + erewrite list_find_app_l by done. done.
    + apply list_find_None in E. rewrite Forall_forall in E. by apply E in Hx.
  - rewrite list_find_app_r.
    2: { apply list_find_None, Forall_forall. intros y Hy ->. done. }
    destruct (list_find _ l') as [[i y]|]; simpl; [|done].
    destruct (Z.of_nat i) eqn:Ei; lia.
Qed.

Lemma lastIndexLoop_ok x p l n : holds p l → (n ≤ length l)%nat →
  lastIndexLoop p x n = Ret (last_index_of x (take n l)).
Proof.
  intros H. induction n as [|n IH]; intros Hn; [done|]. cbn [lastIndexLoop].
  destruct (lookup_lt_is_Some_2 l n) as [y Hy]; [lia|]. rewrite (load_ok p l n y) by done. cbn [mbind outcome_bind].
  rewrite (take_S_r l n y) by done. unfold last_index_of. rewrite reverse_snoc, length_app, length_take. cbn [length].
  rewrite Nat.min_l by lia. change (y :: reverse (take n l)) with ([y] ++ reverse (take n l)). rewrite index_of_app.
  destruct (Z.eqb_spec y x) as [->|Hne].
  - rewrite decide_True by (by left). unfold index_of. simpl. rewrite decide_True by done. simpl. f_equal. lia.
  - rewrite decide_False by (intros H'%list_elem_of_singleton; congruence). rewrite IH by lia. unfold last_index_of.
    rewrite length_take, Nat.min_l by lia. destruct (index_of_range x (reverse (take n l))) as [->|Hr]; [done|].
    f_equal. cbn [length]. destruct (index_of x (reverse (take n l))) eqn:E; try lia.
    + simpl. lia.
    + destruct (Z.of_nat 1 + Z.pos p0) eqn:E2; lia.
Qed.

(** *** Reversal *)

(** The elements from [i] on, [m] of them, reversed. *)
Definition reversed (l : list Z) (i m : nat) : list Z := take i l ++ reverse (take m (drop i l)) ++ drop (i + m) l.

Lemma lookup_reversed l i m j : (i + m ≤ length l)%nat →
  reversed l i m !! j = if decide (i ≤ j < i + m)%nat then l !! (i + (i + m - 1 - j))%nat else l !! j.
Proof.
  intros Hm. unfold reversed. destruct (decide (j < i)%nat).
  { rewrite decide_False by lia. rewrite lookup_app_l by (rewrite length_take; lia). by apply lookup_take_lt. }
  rewrite lookup_app_r by (rewrite length_take; lia). rewrite length_take, Nat.min_l by lia.
  destruct (decide (j < i + m)%nat).
  - rewrite decide_True by lia. rewrite lookup_app_l by (rewrite length_reverse, length_take, length_drop; lia).
    rewrite reverse_lookup by (rewrite length_take, length_drop; lia).
    rewrite length_take, length_drop, lookup_take_lt by lia. rewrite lookup_drop. f_equal. lia.
  - rewrite decide_False by lia. rewrite lookup_app_r by (rewrite length_reverse, length_take, length_drop; lia).
    rewrite length_reverse, length_take, length_drop, lookup_drop. f_equal. lia.
Qed.

Lemma swap_cells_ok p l i j : holds p l → (i < length l)%nat → (j < length l)%nat →
  ∃ p', swap_cells p (Z.of_nat i) (Z.of_nat j) = Ret p' ∧ psize p' = psize p ∧
    holds p' (<[j := l !!! i]> (<[i := l !!! j]> l)).
Proof.
  intros H Hi Hj. unfold swap_cells.
  rewrite (load_ok p l i (l !!! i)), (load_ok p l j (l !!! j)) by (done || by apply list_lookup_lookup_total_lt).
  cbn [mbind outcome_bind]. destruct (store_ok p l i (l !!! j)) as (p1 & -> & Hs1 & H1); [done..|]. cbn [mbind outcome_bind].
  destruct (store_ok p1 _ j (l !!! i) H1) as (p2 & -> & Hs2 & H2); [by rewrite length_insert|].
  exists p2. split_and!; [done|lia|done].
Qed.

Lemma reverseLoop_ok fuel : ∀ p l i m, holds p l → (i + m ≤ length l)%nat → (m < fuel)%nat → (0 < i + m)%nat →
  Z.of_nat (length l) < 2 ^ 64 →
  ∃ p', reverseLoop fuel p (Z.of_nat i) (Z.of_nat (i + m) - 1) = Ret p' ∧ psize p' = psize p ∧
    holds p' (reversed l i m).
Proof.
  induction fuel as [|fuel IH]; intros p l i m H Hm Hf Hp Hl; [lia|]. cbn [reverseLoop].
  destruct (Z.ltb_spec (Z.of_nat i) (Z.of_nat (i + m) - 1)) as [Hlt|Hge].
  - replace (Z.of_nat (i + m) - 1) with (Z.of_nat (i + m - 1)) by lia.
    destruct (swap_cells_ok p l i (i + m - 1)) as (p1 & -> & Hs1 & H1); [done|lia..|]. cbn [mbind outcome_bind].
    rewrite to_uint64_small by lia.
    replace (Z.of_nat i + 1) with (Z.of_nat (S i)) by lia.
    replace (Z.of_nat (i + m - 1) - 1) with (Z.of_nat (S i + (m - 2)) - 1) by lia.
    destruct (IH p1 _ (S i) (m - 2)%nat H1) as (p2 & -> & Hs2 & H2);
      [rewrite !length_insert; lia|lia|lia|by rewrite !length_insert|].
    exists p2. split_and!; [done|lia|]. intros j x Hx. apply H2. rewrite <-Hx.
    rewrite !lookup_reversed by (rewrite ?length_insert; lia).
    assert (Htot : ∀ n, (n < length l)%nat → l !! n = Some (l !!! n)) by (intros; by apply list_lookup_lookup_total_lt).
    destruct (decide (j = i)) as [->|]; [|destruct (decide (j = i + m - 1)%nat) as [->|]].
    + rewrite decide_False, decide_True by lia. rewrite list_lookup_insert_ne, list_lookup_insert_eq by lia.
      rewrite <-Htot by lia. f_equal. lia.
    + rewrite decide_False, decide_True by lia. rewrite list_lookup_insert_eq by (rewrite length_insert; lia).
      rewrite <-Htot by lia. f_equal. lia.
    + destruct (decide (i ≤ j < i + m)%nat).
      * rewrite decide_True by lia. rewrite !list_lookup_insert_ne by lia. f_equal. lia.
      * rewrite decide_False by lia. by rewrite !list_lookup_insert_ne by lia.
  - exists p. split_and!; [done..|]. intros j x Hx. apply H. rewrite <-Hx, lookup_reversed by lia.
    destruct (decide _); [|done]. f_equal. lia.
Qed.

Lemma reversed_all l : reversed l 0 (length l) = reverse l.
Proof. unfold reversed. by rewrite take_0, drop_0, take_ge, drop_ge, app_nil_r by lia. Qed.

Lemma length_reversed l i m : (i + m ≤ length l)%nat → length (reversed l i m) = length l.
Proof. intros Hm. unfold reversed. rewrite !length_app, length_reverse, !length_take, !length_drop. lia. Qed.

(** Three reversals rotate. *)
Lemma rotate_reversals l s : (s ≤ length l)%nat →
  reversed (reversed (reverse l) 0 s) s (length l - s) = drop (length l - s) l ++ take (length l - s) l.
Proof.
  intros Hs. set (n := length l) in *.
  assert (E : reverse l = reverse (drop (n - s) l) ++ reverse (take (n - s) l)).
  { by rewrite <-reverse_app, take_drop. }
  assert (L : length (reverse (drop (n - s) l)) = s) by (rewrite length_reverse, length_drop; lia).
  assert (L' : length (reverse (take (n - s) l)) = (n - s)%nat) by (rewrite length_reverse, length_take; lia).
  unfold reversed at 2. rewrite take_0, drop_0, Nat.add_0_l, app_nil_l, E.
  rewrite take_app_length' , drop_app_length', reverse_involutive by done.
  assert (L2 : length (drop (n - s) l) = s) by (rewrite length_drop; lia).
  unfold reversed. rewrite take_app_length', (drop_app_length' _ _ s) by done.
  rewrite take_ge by lia. rewrite reverse_involutive, (drop_ge (_ ++ _)) by (rewrite length_app; lia). by rewrite app_nil_r.
Qed.

(** *** Folds, searches and orders *)

Lemma fold_arith_ok k f p l a : holds p l →
  foldLoop (λ acc x, arith k (f acc x)) p a 0 (length l) = fold_arith k f a l.
Proof.
  intros H. change 0 with (Z.of_nat 0). rewrite (foldLoop_ok _ p l H) by lia. rewrite drop_0.
  clear H. revert a. induction l as [|x l IH]; intros a; [done|]. cbn [fold_arith].
  destruct (arith k (f a x)); try done. cbn [mbind outcome_bind]. apply IH.
Qed.

(** The least and the greatest element. *)
Lemma extremum_ok f g p x l : holds p (x :: l) → (∀ m y, g m y = f m y) →
  (∀ a b c, f a (f b c) = f (f a b) c) → (∀ a b, f a b = f b a) →
  foldLoop (λ m y, Ret (g m y)) p x 1 (Z.to_nat (Z.of_nat (S (length l)) - 1)) = Ret (foldr f x l).
Proof.
  intros H Hg Ha Hc. change 1 with (Z.of_nat 1). change (S (length l)) with (length (x :: l)).
  rewrite (foldLoop_ret g p (x :: l)) by (done || simpl; lia). f_equal. simpl.
  transitivity (fold_left f l x); [|apply List.fold_symmetric; auto].
  clear H. revert x. induction l as [|y l IH]; intros x; [done|]. simpl. by rewrite Hg, IH.
Qed.

Lemma count_ok x p l : holds p l →
  foldLoop (λ c y, Ret (if y =? x then c + 1 else c)) p 0 0 (length l) = Ret (Z.of_nat (length (filter (x =.) l))).
Proof.
  intros H. change 0 with (Z.of_nat 0) at 2. replace (length l) with (Z.to_nat (Z.of_nat (length l) - Z.of_nat 0)) by lia.
  rewrite (foldLoop_ret (λ c y, if y =? x then c + 1 else c) p l) by (done || lia). rewrite drop_0. f_equal.
  assert (G : ∀ a, fold_left (λ c y, if y =? x then c + 1 else c) l a = a + Z.of_nat (length (filter (x =.) l))); [|by rewrite G].
  clear H. induction l as [|y l IH]; intros a; simpl; [lia|]. rewrite IH.
  destruct (Z.eqb_spec y x) as [->|]; [rewrite filter_cons_True by done|rewrite filter_cons_False by congruence];
    simpl; lia.
Qed.

Lemma equalsLoop_ok p q l n : holds p l → holds q l → ∀ i, n = (length l - i)%nat →
  equalsLoop p q (Z.of_nat i) n = Ret true.
Proof.
  intros Hp Hq. induction n as [|n IH]; intros i Hn; [done|]. cbn [equalsLoop].
  destruct (lookup_lt_is_Some_2 l i) as [x Hx]; [lia|]. rewrite !(load_ok _ l i x) by done. cbn [mbind outcome_bind].
  rewrite Z.eqb_refl. replace (Z.of_nat i + 1) with (Z.of_nat (S i)) by lia. apply IH. lia.
Qed.

Lemma sortedLoop_ok p l n : holds p l → ∀ i, n = (length l - S i)%nat →
  sortedLoop p (Z.of_nat (S i)) n = Ret (bool_decide (Sorted Z.le (drop i l))).
Proof.
  intros H. induction n as [|n IH]; intros i Hn; cbn [sortedLoop].
  - rewrite bool_decide_eq_true_2; [done|].
    destruct (drop i l) as [|x [|y t]] eqn:E; [constructor|by repeat constructor|].
    apply (f_equal length) in E. rewrite length_drop in E. simpl in E. lia.
  - destruct (lookup_lt_is_Some_2 l i) as [y Hy]; [lia|]. destruct (lookup_lt_is_Some_2 l (S i)) as [x Hx]; [lia|].
    rewrite (load_ok p l (S i) x) by done. replace (Z.of_nat (S i) - 1) with (Z.of_nat i) by lia.
    rewrite (load_ok p l i y) by done. cbn [mbind outcome_bind].
    replace (Z.of_nat (S i) + 1) with (Z.of_nat (S (S i))) by lia.
    rewrite (drop_S l y i), (IH (S i)), (drop_S l x (S i)) by (done || lia).
    destruct (Z.ltb_spec x y).
    + rewrite bool_decide_eq_false_2; [done|]. intros Hs. inversion Hs as [|? ? _ Hd]. inversion Hd. lia.
    + f_equal. apply bool_decide_ext. split; [|by inversion 1]. intros Hs. constructor; [done|]. by constructor.
Qed.

(** What [qsort] gives is the sorted list, whichever algorithm it uses. *)
Lemma qsort_sorted R cmp l `{∀ x y, Decision (R x y)} `{!Total R} `{!Transitive R} `{!AntiSymm (=) R} :
  (∀ x y, not_after cmp x y ↔ R x y) → merge_sort (not_after cmp) l = merge_sort R l.
Proof.
  intros HR. apply (Sorted_unique R).
  - assert (Total (not_after cmp)). { intros x y. rewrite !HR. apply total. done. }
    pose proof (Sorted_merge_sort (not_after cmp) l) as Hs.
    induction Hs as [|x t Hs IH Hd]; constructor; [done|]. destruct Hd; constructor. by apply HR.
  - by apply Sorted_merge_sort.
  - by rewrite !merge_sort_Permutation.
Qed.

#[export] Instance Zle_total : Total Z.le.
Proof. intros x y. lia. Qed.
#[export] Instance Zge_total : Total (flip Z.le).
Proof. intros x y. unfold flip. lia. Qed.
#[export] Instance Zge_trans : Transitive (flip Z.le).
Proof. intros x y z. unfold flip. lia. Qed.
#[export] Instance Zge_antisymm : AntiSymm (=) (flip Z.le).
Proof. intros x y. unfold flip. lia. Qed.

Lemma qsort_ok R cmp p l `{∀ x y, Decision (R x y)} `{!Total R} `{!Transitive R} `{!AntiSymm (=) R} :
  (∀ x y, not_after cmp x y ↔ R x y) → holds p l → p ≠ None →
  ∃ p', qsort cmp p (Z.of_nat (length l)) = Ret p' ∧ psize p' = psize p ∧ holds p' (merge_sort R l).
Proof.
  intros HR Hh Hp. unfold qsort. rewrite contents_ok by done. cbn [mbind outcome_bind]. destruct p as [d|]; [|done].
  eexists. split; [done|]. rewrite (qsort_sorted R cmp l HR), Nat2Z.id. set (s := merge_sort R l).
  assert (Hlen : length s = length l) by by apply Permutation_length, merge_sort_Permutation.
  pose proof (holds_length _ _ Hh) as Hle. unfold psize in *. cbn [default from_option id] in *. split.
  - rewrite length_app, length_fmap, length_drop. lia.
  - intros j x Hx. cbn [default from_option id]. rewrite lookup_app_l by (rewrite length_fmap; by eapply lookup_lt_Some).
    by rewrite list_lookup_fmap, Hx.
Qed.

(** ** Vectors and lists *)

Section refinement.
Context (k : int_kind) (granted : Z → bool) (N : Z).
(** There is memory for twice [N] elements and the first eight. *)
Notation room := (2 * N + LUCIS_VEC_INITIAL_CAP).
Context (Hk : 0 < sizeof k) (HN : 0 ≤ N) (Hroom : room * sizeof k < 2 ^ 63)
  (Hgranted : ∀ bytes, 0 ≤ bytes ≤ room * sizeof k → granted bytes = true).

Record repr (v : lucis_vec_header) (l : list Z) : Prop := {
  r_len : v_len v = Z.of_nat (length l);
  r_holds : holds (v_ptr v) l;
  r_cap : v_cap v = Z.of_nat (psize (v_ptr v));
  r_room : v_cap v ≤ room }.

Lemma repr_bounds v l : repr v l → Z.of_nat (length l) ≤ v_cap v ∧ v_cap v < 2 ^ 63.
Proof.
  intros [Hl Hh Hc Hr]. pose proof (holds_length _ _ Hh). unfold LUCIS_VEC_INITIAL_CAP in *. split; [lia|]. nia.
Qed.

Lemma growCap_ok fuel : ∀ c needed, 0 < c → needed ≤ c * 2 ^ Z.of_nat fuel → needed ≤ N →
  ∃ c', growCap fuel c needed = Ret c' ∧ needed ≤ c' ∧ (c' = c ∨ c' ≤ 2 * N).
Proof.
  induction fuel as [|fuel IH]; intros c needed Hc Hf Hn; cbn [growCap].
  - destruct (Z.ltb_spec c needed); [simpl in Hf; lia|]. exists c. split_and!; [done|lia|by left].
  - destruct (Z.ltb_spec c needed); [|exists c; split_and!; [done|lia|by left]].
    unfold LUCIS_VEC_GROWTH_FACTOR, LUCIS_VEC_INITIAL_CAP in *. rewrite to_uint64_small by nia.
    rewrite Nat2Z.inj_succ, Z.pow_succ_r in Hf by lia.
    destruct (IH (c * 2) needed) as (c' & -> & Hle & Hc'); [lia|nia|lia|].
    exists c'. split_and!; [done|done|]. right. lia.
Qed.

Lemma realloc_ok p l n : 0 ≤ n ≤ room → holds p l → Z.of_nat (length l) ≤ n →
  ∃ p', realloc k granted p (n * sizeof k) = Some p' ∧ Z.of_nat (length p') = n ∧ holds (Some p') l.
Proof.
  intros Hn Hh Hl. unfold realloc. unfold LUCIS_VEC_INITIAL_CAP in *. rewrite to_uint64_small by nia.
  rewrite Hgranted by nia. rewrite Z.div_mul by lia. eexists. split; [done|].
  split. { rewrite length_app, length_take, length_replicate. lia. }
  intros j x Hx. pose proof (lookup_lt_Some _ _ _ Hx) as Hj. pose proof (Hh j x Hx) as Hd. cbn [default from_option id].
  apply lookup_lt_Some in Hd as Hd'. rewrite lookup_app_l by (rewrite length_take; lia). by rewrite lookup_take_lt by lia.
Qed.

Lemma vec_grow_ok v l needed : repr v l → needed ≤ N →
  ∃ v', vec_grow k granted v needed = Ret v' ∧ repr v' l ∧ needed ≤ v_cap v'.
Proof.
  intros Hr Hn. unfold vec_grow. destruct (Z.leb_spec needed (v_cap v)); [by exists v|].
  destruct (repr_bounds v l Hr) as [Hb1 Hb2]. destruct Hr as [Hl Hh Hc Hr].
  set (c := if v_cap v =? 0 then LUCIS_VEC_INITIAL_CAP else v_cap v).
  assert (Hc0 : 0 < c ∧ v_cap v ≤ c ∧ c ≤ room).
  { unfold c, LUCIS_VEC_INITIAL_CAP in *. destruct (Z.eqb_spec (v_cap v) 0); lia. }
  destruct (growCap_ok 65 c needed) as (c' & -> & Hle & Hc'); [lia| |done|].
  { unfold LUCIS_VEC_INITIAL_CAP in *. assert (needed < 2 ^ 63) by nia. change (Z.of_nat 65) with 65. nia. }
  cbn [mbind outcome_bind]. assert (Hroom' : 0 ≤ c' ≤ room).
  { unfold LUCIS_VEC_INITIAL_CAP in *. lia. }
  destruct (realloc_ok (v_ptr v) l c') as (p' & -> & Hlen & Hh'); [done|done|lia|].
  eexists. split; [done|]. cbn. split; [|done]. split; cbn; [done|done|unfold psize; cbn; lia|lia].
Qed.

(** An operation that writes the block. *)
Lemma repr_write v l p' l' : repr v l → psize p' = psize (v_ptr v) → holds p' l' →
  repr (v <| v_ptr := p' |> <| v_len := Z.of_nat (length l') |>) l'.
Proof. intros [Hl Hh Hc Hr] Hp Hh'. split; cbn; [done|done|lia|done]. Qed.

Lemma repr_write_same v l p' l' : repr v l → psize p' = psize (v_ptr v) → holds p' l' → length l' = length l →
  repr (v <| v_ptr := p' |>) l'.
Proof. intros [Hl Hh Hc Hr] Hp Hh' Hlen. split; cbn; [lia|done|lia|done]. Qed.

(** Elements are dropped at the end. *)
Lemma repr_shorter v l l' : repr v l → l' `prefix_of` l → repr (v <| v_len := Z.of_nat (length l') |>) l'.
Proof. intros [Hl Hh Hc Hr] Hp. split; cbn; [done|by eapply holds_prefix|done|done]. Qed.

(** *** Operations *)

Notation refines m o :=
  (match o with
   | Ret (l', r) => ∃ v', m = Ret (v', r) ∧ repr v' l'
   | Throw e => m = Throw e
   | Undef => m = Undef
   | NoFuel => False
   end) (only parsing).

Lemma push_ok v l x : repr v l → Z.of_nat (length l) + 1 ≤ N →
  ∃ v', lucis_vec_push k granted v x = Ret v' ∧ repr v' (l ++ [x]).
Proof.
  intros Hr Hn. destruct (repr_bounds v l Hr) as [Hb1 Hb2]. unfold lucis_vec_push.
  rewrite (r_len _ _ Hr), to_uint64_small by lia.
  destruct (vec_grow_ok v l (Z.of_nat (length l) + 1) Hr Hn) as (v1 & -> & Hr1 & Hc1). cbn [mbind outcome_bind].
  destruct (store_end (v_ptr v1) l x) as (p' & E & Hs & Hh); [apply Hr1|pose proof (r_cap _ _ Hr1); lia|].
  rewrite (r_len _ _ Hr1), E. cbn [mbind outcome_bind]. eexists. split; [done|].
  rewrite to_uint64_small by lia. replace (Z.of_nat (length l) + 1) with (Z.of_nat (length (l ++ [x])))
    by (rewrite length_app; simpl; lia).
  by apply (repr_write v1 l).
Qed.

Lemma insert_ok v l i x : repr v l → 0 ≤ i ≤ Z.of_nat (length l) → Z.of_nat (length l) + 1 ≤ N →
  ∃ v', lucis_vec_insert k granted v i x = Ret v' ∧ repr v' (take (Z.to_nat i) l ++ x :: drop (Z.to_nat i) l).
Proof.
  intros Hr Hi Hn. destruct (repr_bounds v l Hr) as [Hb1 Hb2]. unfold lucis_vec_insert.
  rewrite (r_len _ _ Hr). rewrite (proj2 (Z.ltb_ge _ _)) by lia. rewrite to_uint64_small by lia.
  destruct (vec_grow_ok v l (Z.of_nat (length l) + 1) Hr Hn) as (v1 & -> & Hr1 & Hc1). cbn [mbind outcome_bind].
  pose proof (r_cap _ _ Hr1) as Hcap. pose proof (r_holds _ _ Hr1) as Hh. rewrite (r_len _ _ Hr1).
  set (n := Z.to_nat i). replace i with (Z.of_nat n) by lia. replace (Z.of_nat n + 1) with (Z.of_nat (S n)) by lia.
  rewrite <-Nat2Z.inj_sub by lia.
  destruct (memmove_cells (v_ptr v1) (S n) n (length l - n)) as (p1 & -> & Hs1 & H1); [lia|lia| |].
  { intros Hp. rewrite Hp in Hcap. unfold psize in Hcap. simpl in Hcap. lia. }
  cbn [mbind outcome_bind]. destruct (store_cell p1 n x) as (p2 & -> & Hs2 & H2); [lia|]. cbn [mbind outcome_bind].
  eexists. split; [done|]. rewrite to_uint64_small by lia. set (l' := take n l ++ x :: drop n l).
  replace (Z.of_nat (length l) + 1) with (Z.of_nat (length l'))
    by (unfold l'; rewrite length_app, length_take; simpl; rewrite length_drop; lia).
  apply (repr_write v1 l); [done|lia|]. intros j y. unfold l'. rewrite H2.
  destruct (decide (j < n)%nat).
  - rewrite lookup_app_l, lookup_take_lt by (rewrite ?length_take; lia). intros Hy.
    rewrite decide_False, H1, decide_False by lia. by apply Hh.
  - rewrite lookup_app_r by (rewrite length_take; lia). rewrite length_take, Nat.min_l by lia.
    destruct (decide (j = n)) as [->|].
    { rewrite Nat.sub_diag. simpl. congruence. }
    replace (j - n)%nat with (S (j - S n)) by lia. simpl. rewrite lookup_drop. intros Hy.
    apply lookup_lt_Some in Hy as Hlt. rewrite H1, decide_True by lia. by apply Hh.
Qed.

Lemma removeAt_ok v l i : repr v l → 0 ≤ i < Z.of_nat (length l) →
  ∃ v', lucis_vec_removeAt v i = Ret (v', nth l i) ∧ repr v' (take (Z.to_nat i) l ++ drop (S (Z.to_nat i)) l).
Proof.
  intros Hr Hi. unfold lucis_vec_removeAt. pose proof (r_holds _ _ Hr) as Hh. pose proof (holds_length _ _ Hh).
  rewrite (r_len _ _ Hr), (proj2 (Z.leb_gt _ _)), (load_Z _ l i) by (done || lia). cbn [mbind outcome_bind].
  set (n := Z.to_nat i). replace i with (Z.of_nat n) by lia. replace (Z.of_nat n + 1) with (Z.of_nat (S n)) by lia.
  replace (Z.of_nat (length l) - Z.of_nat n - 1) with (Z.of_nat (length l - S n)) by lia.
  destruct (memmove_cells (v_ptr v) n (S n) (length l - S n)) as (p1 & -> & Hs1 & H1); [lia|lia| |].
  { intros Hp. unfold psize in *. rewrite Hp in *. simpl in *. lia. }
  cbn [mbind outcome_bind]. eexists. split; [done|]. set (l' := take n l ++ drop (S n) l).
  replace (Z.of_nat (length l) - 1) with (Z.of_nat (length l'))
    by (unfold l'; rewrite length_app, length_take, length_drop; lia).
  apply (repr_write v l); [done|lia|]. intros j y. unfold l'. rewrite H1. destruct (decide (j < n)%nat).
  - rewrite lookup_app_l, lookup_take_lt by (rewrite ?length_take; lia). intros Hy.
    rewrite decide_False by lia. by apply Hh.
  - rewrite lookup_app_r by (rewrite length_take; lia). rewrite length_take, Nat.min_l, lookup_drop by lia. intros Hy.
    apply lookup_lt_Some in Hy as Hlt. rewrite decide_True by lia. rewrite <-(Hh _ _ Hy). f_equal; lia.
Qed.

Lemma removeSwap_ok v l i : repr v l → 0 ≤ i < Z.of_nat (length l) →
  ∃ v', lucis_vec_removeSwap v i = Ret (v', nth l i) ∧
    repr v' (take (length l - 1) (upd l i (nth l (Z.of_nat (length l) - 1)))).
Proof.
  intros Hr Hi. unfold lucis_vec_removeSwap. pose proof (r_holds _ _ Hr) as Hh. rewrite (r_len _ _ Hr).
  rewrite (proj2 (Z.leb_gt _ _)), !(load_Z _ l) by (done || lia). cbn [mbind outcome_bind].
  set (x := nth l (Z.of_nat (length l) - 1)).
  destruct (store_Z _ l i x Hh Hi) as (p1 & -> & Hs & H1). cbn [mbind outcome_bind]. eexists. split; [done|].
  set (l' := take (length l - 1) (upd l i x)).
  replace (Z.of_nat (length l) - 1) with (Z.of_nat (length l'))
    by (unfold l', upd; rewrite length_take, length_insert; lia).
  apply (repr_write v l); [done..|]. eapply holds_prefix; [done|]. apply prefix_take.
Qed.

Lemma fill_ok v l x : repr v l → ∃ v', lucis_vec_fill v x = Ret v' ∧ repr v' (replicate (length l) x).
Proof.
  intros Hr. unfold lucis_vec_fill. rewrite (r_len _ _ Hr), Nat2Z.id. pose proof (r_holds _ _ Hr) as Hh.
  destruct (fillLoop_ok x (length l) (v_ptr v) l 0 Hh) as (p' & E & Hs & H'); [lia|pose proof (holds_length _ _ Hh); lia|].
  change (Z.of_nat 0) with 0 in E. rewrite E. cbn [mbind outcome_bind]. eexists. split; [done|].
  rewrite take_0, drop_ge, app_nil_l, app_nil_r in H' by lia.
  apply (repr_write_same v l); [done..|by rewrite length_replicate].
Qed.

Lemma resize_ok v l n x : repr v l → 0 ≤ n ≤ N → ∃ v', lucis_vec_resize k granted v n x = Ret v' ∧
  repr v' (take (Z.to_nat n) l ++ replicate (Z.to_nat n - length l) x).
Proof.
  intros Hr Hn. unfold lucis_vec_resize. destruct (vec_grow_ok v l n Hr) as (v1 & -> & Hr1 & Hc); [lia|].
  cbn [mbind outcome_bind]. pose proof (r_holds _ _ Hr1) as Hh. rewrite (r_len _ _ Hr1).
  pose proof (r_cap _ _ Hr1). pose proof (holds_length _ _ Hh).
  destruct (fillLoop_ok x (Z.to_nat (n - Z.of_nat (length l))) (v_ptr v1) l (length l) Hh) as (p' & -> & Hs & H');
    [lia|lia|]. cbn [mbind outcome_bind]. eexists. split; [done|]. set (l' := take (Z.to_nat n) l ++ _).
  assert (El : Z.of_nat (length l') = n) by (unfold l'; rewrite length_app, length_take, length_replicate; lia).
  rewrite <-El. apply (repr_write v1 l); [done..|]. eapply holds_prefix; [exact H'|]. unfold l'.
  rewrite (take_ge l (length l)), (drop_ge l) by lia. rewrite app_nil_r.
  destruct (decide (length l ≤ Z.to_nat n)%nat).
  - rewrite (take_ge l) by done. by replace (Z.to_nat n - length l)%nat with (Z.to_nat (n - Z.of_nat (length l))) by lia.
  - replace (Z.to_nat n - length l)%nat with 0%nat by lia. simpl. rewrite app_nil_r.
    apply prefix_app_r. apply prefix_take.
Qed.

Lemma shrink_ok v l : repr v l → repr (lucis_vec_shrink k granted v) l.
Proof.
  intros Hr. destruct (repr_bounds v l Hr) as [Hb _]. pose proof Hr as [Hl Hh Hc Hroom']. unfold lucis_vec_shrink.
  destruct (Z.eqb_spec (v_len v) 0).
  { split; cbn; [done| |done|unfold LUCIS_VEC_INITIAL_CAP; lia]. destruct l; [apply holds_nil|simpl in *; lia]. }
  destruct (Z.ltb_spec (v_len v) (v_cap v)); [|done].
  destruct (realloc_ok (v_ptr v) l (v_len v)) as (p' & -> & Hlen & Hh'); [lia|done|lia|].
  split; cbn; [done|done|unfold psize; cbn; lia|lia].
Qed.

Lemma clone_ok v l : repr v l → ∃ v', lucis_vec_clone k granted v = Ret v' ∧ repr v' l.
Proof.
  intros Hr. destruct (repr_bounds v l Hr) as [Hb _]. pose proof Hr as [Hl Hh Hc Hroom'].
  unfold lucis_vec_clone. destruct (Z.ltb_spec 0 (v_len v)).
  - destruct (realloc_ok None [] (v_len v)) as (p' & -> & Hlen & _); [lia|apply holds_nil|simpl; lia|].
    pose proof (holds_length _ _ Hh) as Hle. destruct (v_ptr v) as [d|]; [|unfold psize in Hle; simpl in Hle; lia].
    unfold psize in Hle, Hc. cbn [default from_option id] in Hle, Hc.
    rewrite !(proj2 (Z.leb_le _ _)) by lia. cbn [andb]. eexists. split; [done|].
    split; cbn; [done| | |lia].
    + intros j x Hx. cbn [default from_option id]. apply lookup_lt_Some in Hx as Hj.
      rewrite lookup_app_l by (rewrite length_take; lia). rewrite lookup_take_lt by lia. by apply Hh.
    + unfold psize. cbn [default from_option id]. rewrite length_app, length_take, length_drop. lia.
  - eexists. split; [done|]. destruct l; [|simpl in *; lia]. split; cbn; [done|apply holds_nil|done|unfold LUCIS_VEC_INITIAL_CAP; lia].
Qed.

Lemma reverse_ok v l : repr v l → l ≠ [] → ∃ v', lucis_vec_reverse v = Ret v' ∧ repr v' (reverse l).
Proof.
  intros Hr Hl. destruct (repr_bounds v l Hr) as [Hb1 Hb2]. unfold lucis_vec_reverse. rewrite (r_len _ _ Hr).
  assert (0 < length l)%nat by (destruct l; simpl; [done|lia]). rewrite to_uint64_small, Nat2Z.id by lia.
  destruct (reverseLoop_ok (S (length l)) (v_ptr v) l 0 (length l)) as (p' & E & Hs & Hh); [apply Hr|lia..|].
  change (Z.of_nat 0) with 0 in E. rewrite Nat.add_0_l in E. rewrite E. cbn [mbind outcome_bind]. eexists. split; [done|].
  rewrite reversed_all in Hh. apply (repr_write_same v l); [done..|by rewrite length_reverse].
Qed.

(** The loop starts at the last index of the type and leaves the block. *)
Lemma reverse_empty v : repr v [] → lucis_vec_reverse v = Undef.
Proof.
  intros Hr. destruct (repr_bounds v [] Hr) as [_ Hb]. pose proof (r_cap _ _ Hr) as Hc.
  unfold lucis_vec_reverse. rewrite (r_len _ _ Hr). cbn [length Z.of_nat Z.to_nat]. cbn [reverseLoop].
  change (0 <? to_uint64 (Z.of_nat 0 - 1)) with true. cbn match. unfold swap_cells.
  assert (E : load (v_ptr v) (to_uint64 (0 - 1)) = Undef).
  { unfold load, arr_get, psize in *. destruct (v_ptr v) as [d|]; [|done]. cbn [default from_option id] in Hc.
    change (to_uint64 (0 - 1)) with (2 ^ 64 - 1). rewrite (proj2 (Z.leb_le _ _)) by lia.
    rewrite lookup_ge_None_2 by lia. done. }
  change (to_uint64 (Z.of_nat 0 - 1)) with (to_uint64 (0 - 1)). rewrite E.
  by destruct (load (v_ptr v) 0) as [x| | |] eqn:E0; try done; unfold load, arr_get in E0;
    destruct (v_ptr v) as [d|]; try done; destruct (0 <=? 0), (d !! Z.to_nat 0) as [[|]|]; simplify_eq/=.
Qed.

Lemma rotate_ok v l s : repr v l → in_kind i32 s = true →
  ∃ v', lucis_vec_rotate v s = Ret v' ∧ repr v' (rotated l s).
Proof.
  intros Hr _. destruct (repr_bounds v l Hr) as [Hb1 Hb2]. unfold lucis_vec_rotate, rotated. rewrite (r_len _ _ Hr).
  set (n := length l) in *. destruct (Z.leb_spec (Z.of_nat n) 1) as [Hn|Hn].
  { exists v. split; [done|]. replace (drop _ l ++ take _ l) with l; [done|].
    destruct l as [|x [|y l]]; [by rewrite drop_nil, take_nil| |simpl in n; lia]. by rewrite Z.mod_1_r. }
  rewrite to_int64_id by (apply in_int64_spec; unfold int64_min, int64_max; lia).
  assert (Es : Z.rem (Z.rem s (Z.of_nat n) + Z.of_nat n) (Z.of_nat n) = s mod Z.of_nat n).
  { pose proof (Z.rem_bound_abs s (Z.of_nat n)). rewrite Z.rem_mod_nonneg by lia.
    rewrite <-(Z_mod_plus_full _ (Z.quot s (Z.of_nat n) - 1)). f_equal. pose proof (Z.quot_rem' s (Z.of_nat n)). lia. }
  rewrite Es. pose proof (Z.mod_pos_bound s (Z.of_nat n)). set (r := s mod Z.of_nat n) in *.
  destruct (Z.eqb_spec r 0) as [->|Hr0].
  { exists v. split; [done|]. rewrite Nat.sub_0_r. unfold n. by rewrite drop_all, take_ge, app_nil_l by lia. }
  set (m := Z.to_nat r). replace r with (Z.of_nat m) by lia. rewrite Nat2Z.id.
  destruct (reverseLoop_ok (S n) (v_ptr v) l 0 n) as (p1 & E1 & Hs1 & H1); [apply Hr|unfold n; lia..|].
  change (Z.of_nat 0) with 0 in E1. rewrite Nat.add_0_l in E1. rewrite E1. cbn [mbind outcome_bind].
  unfold n in H1 at 1. rewrite reversed_all in H1.
  destruct (reverseLoop_ok (S n) p1 (reverse l) 0 m H1) as (p2 & E2 & Hs2 & H2);
    [rewrite length_reverse; unfold n in *; lia|lia|lia|rewrite length_reverse; unfold n in *; lia|].
  change (Z.of_nat 0) with 0 in E2. rewrite Nat.add_0_l in E2. rewrite E2. cbn [mbind outcome_bind].
  assert (Hl2 : length (reversed (reverse l) 0 m) = n).
  { rewrite length_reversed; rewrite length_reverse; unfold n in *; lia. }
  destruct (reverseLoop_ok (S n) p2 _ m (n - m) H2) as (p3 & E3 & Hs3 & H3); [lia|lia|lia|lia|].
  replace (Z.of_nat (m + (n - m))) with (Z.of_nat n) in E3 by lia. rewrite E3. cbn [mbind outcome_bind].
  eexists. split; [done|]. unfold n in H3. rewrite rotate_reversals in H3 by (unfold n in *; lia).
  apply (repr_write_same v l); [done|lia|done|]. rewrite length_app, length_drop, length_take. unfold n. lia.
Qed.

Lemma within_lt {A} l i (d : A) : 0 ≤ i < Z.of_nat (length l) → within l i d = Ret d.
Proof. intros Hi. unfold within. by rewrite (proj2 (Z.ltb_lt _ _)) by lia. Qed.

(** An index out of bounds is an exit of both. *)
Ltac in_bounds Hr i :=
  match type of Hr with repr ?v ?l =>
    let Hi := fresh "Hi" in
    destruct (Z.leb_spec (v_len v) i) as [Hi|Hi]; rewrite (r_len _ _ Hr) in Hi;
    [unfold within; rewrite (proj2 (Z.ltb_ge i _)) by lia; simpl; try done|rewrite ?within_lt by lia]
  end.

Lemma list_snoc_last (l : list Z) : l ≠ [] → take (length l - 1) l `prefix_of` l ∧ (0 < length l)%nat.
Proof. intros Hl. split; [apply prefix_take|]. destruct l; simpl; [done|lia]. Qed.

Lemma queries_ok v l o : repr v l →
  match o with
  | OpLen | OpIsEmpty | OpContains _ | OpIndexOf _ | OpLastIndexOf _ | OpCount _ | OpEqualsClone | OpIsSorted
  | OpSum | OpProduct | OpMin | OpMax => refines (vec_step k granted v o) (list_step k l o)
  | _ => True
  end.
Proof.
  intros Hr. pose proof (r_holds _ _ Hr) as Hh. pose proof (r_len _ _ Hr) as Hl.
  destruct o; try done; cbn [vec_step list_step].
  - exists v. by rewrite Hl.
  - exists v. rewrite Hl. split; [|done]. unfold verdict. simpl. do 3 f_equal.
    destruct l; [done|]. rewrite bool_decide_eq_false_2 by done. by apply Z.eqb_neq.
  - exists v. split; [|done]. unfold verdict, lucis_vec_contains. rewrite Hl, Nat2Z.id, (index_of_ok x _ l Hh). simpl.
    do 3 f_equal. pose proof (index_of_found x l). destruct (Z.eqb_spec (index_of x l) (-1)).
    + rewrite bool_decide_eq_false_2; [done|]. tauto.
    + rewrite bool_decide_eq_true_2; [done|]. tauto.
  - exists v. split; [|done]. unfold answer, lucis_vec_indexOf. by rewrite Hl, Nat2Z.id, (index_of_ok x _ l Hh).
  - exists v. split; [|done]. unfold answer, lucis_vec_lastIndexOf.
    by rewrite Hl, Nat2Z.id, (lastIndexLoop_ok x _ l _ Hh), take_ge by lia.
  - exists v. split; [|done]. unfold answer, lucis_vec_count. by rewrite Hl, Nat2Z.id, (count_ok x _ l Hh).
  - destruct (clone_ok v l Hr) as (w & -> & Hw). exists v. split; [|done]. cbn [mbind outcome_bind]. unfold verdict, lucis_vec_equals.
    rewrite Hl, (r_len _ _ Hw), Z.eqb_refl, Nat2Z.id. cbn [negb]. change 0 with (Z.of_nat 0).
    by rewrite (equalsLoop_ok _ _ l) by (apply Hw || done || lia).
  - exists v. split; [|done]. unfold verdict, lucis_vec_isSorted. rewrite Hl. destruct (Z.leb_spec (Z.of_nat (length l)) 1).
    + simpl. rewrite bool_decide_eq_true_2; [done|]. destruct l as [|y [|z l]]; [constructor|by repeat constructor|simpl in *; lia].
    + change 1 with (Z.of_nat 1) at 1. by rewrite (sortedLoop_ok _ l _ Hh 0) by lia.
  - unfold answer, lucis_vec_sum. rewrite Hl, Nat2Z.id, (fold_arith_ok k Z.add _ l _ Hh).
    destruct (fold_arith k Z.add 0 l) eqn:E; cbn [mbind outcome_bind]; [by exists v|done|done|].
    clear -E. revert E. generalize 0. induction l as [|y l IH]; intros a; [done|]. cbn [fold_arith]. unfold arith at 1.
    repeat (destruct (decide _) || case_match); try done; cbn [mbind outcome_bind]; apply IH.
  - unfold answer, lucis_vec_product. rewrite Hl, Nat2Z.id, (fold_arith_ok k Z.mul _ l _ Hh).
    destruct (fold_arith k Z.mul 1 l) eqn:E; cbn [mbind outcome_bind]; [by exists v|done|done|].
    clear -E. revert E. generalize 1. induction l as [|y l IH]; intros a; [done|]. cbn [fold_arith]. unfold arith at 1.
    repeat (destruct (decide _) || case_match); try done; cbn [mbind outcome_bind]; apply IH.
  - unfold answer, lucis_vec_min. rewrite Hl. destruct l as [|y l]; [done|]. cbn [length].
    rewrite (proj2 (Z.eqb_neq _ _)) by lia. change (load (v_ptr v) 0) with (load (v_ptr v) (Z.of_nat 0)).
    rewrite (load_ok _ (y :: l) 0 y) by done. cbn [mbind outcome_bind].
    rewrite (extremum_ok Z.min _ _ y l Hh); [by exists v|..]; [|intros; lia..].
    intros m z. destruct (Z.ltb_spec z m); lia.
  - unfold answer, lucis_vec_max. rewrite Hl. destruct l as [|y l]; [done|]. cbn [length].
    rewrite (proj2 (Z.eqb_neq _ _)) by lia. change (load (v_ptr v) 0) with (load (v_ptr v) (Z.of_nat 0)).
    rewrite (load_ok _ (y :: l) 0 y) by done. cbn [mbind outcome_bind].
    rewrite (extremum_ok Z.max _ _ y l Hh); [by exists v|..]; [|intros; lia..].
    intros m z. destruct (Z.ltb_spec m z); lia.
Qed.

Lemma step_ok v l o : repr v l → op_ok o = true → demand l o ≤ N →
  refines (vec_step k granted v o) (list_step k l o).
Proof.
  intros Hr Ho Hd. pose proof (queries_ok v l o Hr) as Hq. pose proof (r_len _ _ Hr) as Hl.
  pose proof (r_holds _ _ Hr) as Hh. pose proof (repr_bounds v l Hr) as [Hb1 Hb2].
  destruct o; try exact Hq; clear Hq; cbn [op_ok] in Ho;
    rewrite ?andb_true_iff, ?in_uint64_spec in Ho; cbn [demand] in Hd; cbn [vec_step list_step]; unfold changed, taken, answer.
  - destruct (push_ok v l x Hr Hd) as (v' & -> & H'). by exists v'.
  - unfold lucis_vec_pop. rewrite Hl. destruct (Z.eqb_spec (Z.of_nat (length l)) 0); [done|].
    rewrite (load_Z _ l) by (done || cbn; lia). cbn [mbind outcome_bind]. eexists. split; [done|].
    replace (Z.of_nat (length l) - 1) with (Z.of_nat (length (take (length l - 1) l))) by (rewrite length_take; lia).
    apply (repr_shorter v l); [done|apply prefix_take].
  - destruct (Z.leb_spec i (Z.of_nat (length l))).
    + destruct (insert_ok v l i x Hr) as (v' & -> & H'); [lia|done|]. by exists v'.
    + unfold lucis_vec_insert. by rewrite Hl, (proj2 (Z.ltb_lt _ _)) by lia.
  - unfold within. destruct (Z.ltb_spec i (Z.of_nat (length l))).
    + destruct (removeAt_ok v l i Hr) as (v' & -> & H'); [lia|]. by exists v'.
    + unfold lucis_vec_removeAt. by rewrite Hl, (proj2 (Z.leb_le _ _)) by lia.
  - unfold within. destruct (Z.ltb_spec i (Z.of_nat (length l))).
    + destruct (removeSwap_ok v l i Hr) as (v' & -> & H'); [lia|]. by exists v'.
    + unfold lucis_vec_removeSwap. by rewrite Hl, (proj2 (Z.leb_le _ _)) by lia.
  - eexists. split; [done|]. apply (repr_shorter v l []); [done|apply prefix_nil].
  - destruct (fill_ok v l x Hr) as (v' & -> & H'). by exists v'.
  - unfold lucis_vec_swap. rewrite Hl.
    destruct (Z.ltb_spec i (Z.of_nat (length l))), (Z.ltb_spec j (Z.of_nat (length l))); cbn [andb];
      [|rewrite ?(proj2 (Z.leb_le _ i)), ?(proj2 (Z.leb_le _ j)), ?orb_true_r by lia; done..].
    rewrite !(proj2 (Z.leb_gt _ _)) by lia. cbn [orb].
    destruct (swap_cells_ok (v_ptr v) l (Z.to_nat i) (Z.to_nat j)) as (p' & E & Hs & H'); [done|lia|lia|].
    rewrite !Z2Nat.id in E by lia. rewrite E. cbn [mbind outcome_bind]. eexists. split; [done|].
    apply (repr_write_same v l); [done..|]. unfold upd. by rewrite !length_insert.
  - unfold within, lucis_vec_set. rewrite Hl. destruct (Z.ltb_spec i (Z.of_nat (length l))).
    + rewrite (proj2 (Z.leb_gt _ _)) by lia. destruct (store_Z (v_ptr v) l i x) as (p' & -> & Hs & H'); [done|lia|].
      cbn [mbind outcome_bind]. eexists. split; [done|]. apply (repr_write_same v l); [done..|]. apply length_insert.
    + by rewrite (proj2 (Z.leb_le _ _)) by lia.
  - unfold lucis_vec_reserve. destruct (vec_grow_ok v l n Hr Hd) as (v' & -> & H' & _). by exists v'.
  - eexists. split; [done|]. by apply shrink_ok.
  - destruct (resize_ok v l n x Hr) as (v' & -> & H'); [lia|]. by exists v'.
  - eexists. split; [done|]. unfold lucis_vec_truncate. rewrite Hl. destruct (Z.ltb_spec n (Z.of_nat (length l))).
    + set (l' := take (Z.to_nat n) l). assert (El : Z.of_nat (length l') = n) by (unfold l'; rewrite length_take; lia).
      rewrite <-El. apply (repr_shorter v l); [done|apply prefix_take].
    + by rewrite take_ge by lia.
  - destruct (clone_ok v l Hr) as (v' & -> & H'). by exists v'.
  - unfold within, lucis_vec_at. rewrite Hl. destruct (Z.ltb_spec i (Z.of_nat (length l))).
    + rewrite (proj2 (Z.leb_gt _ _)), (load_Z _ l) by (done || lia). by exists v.
    + by rewrite (proj2 (Z.leb_le _ _)) by lia.
  - unfold lucis_vec_first. rewrite Hl. destruct (Z.eqb_spec (Z.of_nat (length l)) 0); [done|].
    rewrite (load_Z _ l) by (done || lia). by exists v.
  - unfold lucis_vec_last. rewrite Hl. destruct (Z.eqb_spec (Z.of_nat (length l)) 0); [done|].
    rewrite (load_Z _ l) by (done || lia). by exists v.
  - destruct (Z.eqb_spec (Z.of_nat (length l)) 0).
    + destruct l; [|done]. by rewrite reverse_empty.
    + destruct (reverse_ok v l Hr) as (v' & -> & H'); [by destruct l|]. by exists v'.
  - destruct (rotate_ok v l steps Hr Ho) as (v' & -> & H'). by exists v'.
  - unfold lucis_vec_sort. rewrite Hl. destruct (Z.leb_spec (Z.of_nat (length l)) 1).
    { exists v. split; [done|]. destruct l as [|y [|z l]]; [done|done|simpl in *; lia]. }
    destruct (qsort_ok Z.le vec_cmp_asc (v_ptr v) l) as (p' & -> & Hs & H'); [|done| |].
    { intros x y. unfold not_after, vec_cmp_asc. destruct (Z.ltb_spec y x), (Z.ltb_spec x y); simpl; lia. }
    { intros E. pose proof (r_cap _ _ Hr) as Hc. rewrite E in Hc. unfold psize in Hc. simpl in Hc. lia. }
    cbn [mbind outcome_bind]. eexists. split; [done|]. apply (repr_write_same v l); [done..|].
    apply Permutation_length, merge_sort_Permutation.
  - unfold lucis_vec_sortDesc. rewrite Hl. destruct (Z.leb_spec (Z.of_nat (length l)) 1).
    { exists v. split; [done|]. destruct l as [|y [|z l]]; [done|done|simpl in *; lia]. }
    destruct (qsort_ok (flip Z.le) vec_cmp_desc (v_ptr v) l) as (p' & -> & Hs & H'); [|done| |].
    { intros x y. unfold not_after, vec_cmp_desc, flip. destruct (Z.ltb_spec y x), (Z.ltb_spec x y); simpl; lia. }
    { intros E. pose proof (r_cap _ _ Hr) as Hc. rewrite E in Hc. unfold psize in Hc. simpl in Hc. lia. }
    cbn [mbind outcome_bind]. eexists. split; [done|]. apply (repr_write_same v l); [done..|].
    apply Permutation_length, merge_sort_Permutation.
Qed.

Lemma run_refines ops : ∀ v l, repr v l → modest k N l ops = true →
  refines (run_ops (vec_step k granted) v ops) (run_ops (list_step k) l ops).
Proof.
  induction ops as [|o ops IH]; intros v l Hr Hm; cbn [run_ops]; [by exists v|].
  cbn [modest] in Hm. rewrite !andb_true_iff, Z.leb_le in Hm. destruct Hm as [[Ho Hd] Hm].
  pose proof (step_ok v l o Hr Ho Hd) as Hs. destruct (list_step k l o) as [[l' r]|e| |]; cbn [mbind outcome_bind fst snd]; try done.
  - destruct Hs as (v' & -> & Hr'). cbn [mbind outcome_bind fst snd]. specialize (IH v' l' Hr' Hm).
    destruct (run_ops (list_step k) l' ops) as [[l'' rs]|e| |]; cbn [mbind outcome_bind fst snd]; try done.
    + destruct IH as (v'' & -> & Hr''). by exists v''.
    + by rewrite IH.
    + by rewrite IH.
  - by rewrite Hs.
  - by rewrite Hs.
Qed.

(** C29: A vector implements a list.  A program of operations on a new vector (pushes, pops,
    insertions, removals, fills, swaps, growing, shrinking and resizing, copies, searches,
    counts, comparisons, reversals, rotations, sorting, sums, products, extrema) gives the
    results of the same program on a list, and the vector holds the list's elements: it exits
    where an index is out of bounds or an element of an empty vector is asked for, and every
    access is inside the block and to a cell that was written, whatever the capacities on the
    way.  It is undefined exactly where the program on lists says so: when a sum or product
    overflows a signed type, and when an empty vector is reversed.  The program asks for at
    most [N] elements at a time, and there is memory for twice as many and eight. *)
Theorem vec_refines ops : modest k N [] ops = true →
  match run_ops (list_step k) [] ops with
  | Ret (l, rs) => ∃ v, run_ops (vec_step k granted) lucis_vec_init ops = Ret (v, rs) ∧ repr v l
  | Throw e => run_ops (vec_step k granted) lucis_vec_init ops = Throw e
  | Undef => run_ops (vec_step k granted) lucis_vec_init ops = Undef
  | NoFuel => False
  end.
Proof.
  intros Hm. apply run_refines; [|done]. split; cbn; [done|apply holds_nil|done|unfold LUCIS_VEC_INITIAL_CAP; lia].
Qed.
End refinement.

(** ** An example *)

Definition vec_program : list vec_op :=
  (OpPush <$> [5; -3; 8; 0; 7; 7; 2; 9; 4]) ++
  [OpInsert 2 100; OpRemoveAt 0; OpRotate (-3); OpIndexOf 7; OpSort; OpIsSorted; OpMin; OpShrink; OpPush 1; OpSum;
   OpReverse; OpPop; OpLen; OpLastIndexOf 7; OpClone; OpEqualsClone; OpRemoveSwap 0; OpLast].

Definition plenty (bytes : Z) : bool := bytes <=? 1024.

Lemma vec_refines_witness :
  ∃ v, run_ops (vec_step i32 plenty) lucis_vec_init vec_program =
    Ret (v, replicate 10 VUnit ++ [VNum 5; VUnit; VNum 1; VUnit; VBool true; VNum (-3); VUnit; VUnit; VNum 135; VUnit;
              VNum (-3); VNum 9; VNum 5; VUnit; VBool true; VNum 1; VNum 2]) ∧
  repr 16 v [0; 100; 9; 8; 7; 7; 4; 2].
Proof.
  pose proof (vec_refines i32 plenty 16) as H.
  assert (Hs : 0 < sizeof i32) by (vm_compute; reflexivity).
  assert (Hroom : (2 * 16 + LUCIS_VEC_INITIAL_CAP) * sizeof i32 < 2 ^ 63) by (vm_compute; reflexivity).
  assert (Hg : ∀ bytes, 0 ≤ bytes ≤ (2 * 16 + LUCIS_VEC_INITIAL_CAP) * sizeof i32 → plenty bytes = true).
  { intros bytes Hb. unfold plenty. apply Z.leb_le. change ((2 * 16 + LUCIS_VEC_INITIAL_CAP) * sizeof i32) with 160 in Hb. lia. }
  specialize (H Hs ltac:(lia) Hroom Hg vec_program ltac:(vm_compute; reflexivity)).
  vm_compute in H. vm_compute. exact H.
Defined.

(** Reversing an empty vector leaves the block; [intinf] and strings are guarded. *)
Example reverse_of_empty :
  lucis_vec_reverse lucis_vec_init = Undef ∧ lucis_vec_reverse_guarded lucis_vec_init = Ret lucis_vec_init.
Proof. done. Qed.

(** The product of two 16-bit numbers overflows [int]. *)
Example product_u16 :
  run_ops (vec_step u16 plenty) lucis_vec_init [OpPush 65535; OpPush 65535; OpProduct] = Undef ∧
  run_ops (vec_step u32 plenty) lucis_vec_init [OpPush 65535; OpPush 65538; OpProduct] = Ret
    ({| v_ptr := Some ([Some 65535; Some 65538] ++ replicate 6 None); v_len := 2; v_cap := 8 |},
     [VUnit; VUnit; VNum (65535 * 65538 - 2 ^ 32)]).
Proof. split; vm_compute; reflexivity. Qed.
