(* ===== verification/RtVecText.v ===== *)
(** * Vectors as text

    The conversions of [builtins/collections/vec.c]: [u128_to_buf], [i128_to_buf], the decimal
    digits of 256-bit numbers ([div256_by_10], [negate_256], [iinf_to_buf]), and [toString] and
    [join] of vectors of integers, over a buffer that grows.  A write outside of the buffer is
    undefined. *)

From S2P Require Import Prelude.
From S2P Require Import CxxLib.
From S2P Require Import RtVec.
Local Open Scope Z_scope.

Notation chars := String.list_ascii_of_string.
Definition NUL : ascii := "000"%char.

(** ** Decimal digits *)

(** [while (val > 0 && pos < n) { tmp[pos++] = '0' + val % 10; val /= 10; }]; the digits are
    written from the last to the first. *)
Fixpoint decimalLoop (n : nat) (val : Z) (tmp : list ascii) : list ascii :=
  match n with
  | O => tmp
  | S n => if 0 <? val then decimalLoop n (val / 10) (digit_char (val mod 10) :: tmp) else tmp
  end.

Definition to_int32 (z : Z) : Z := (z + 2 ^ 31) mod 2 ^ 32 - 2 ^ 31.

(** [buf[written++] = c] while [written < (int)cap - 1], and the terminating 0. *)
Definition clipped (cap : Z) (text : list ascii) : list ascii :=
  let c := to_int32 cap in
  let written := take (Z.to_nat (c - 1)) text in
  if Z.of_nat (length written) <? c then written ++ [NUL] else written.

(** What is written to a buffer of [cap] bytes, and the length that is returned. *)
Definition u128_to_buf (cap val : Z) : list ascii * Z :=
  if cap =? 0 then ([], 0) else
  if val =? 0 then ("0"%char :: (if 1 <? cap then [NUL] else []), 1) else
  let tmp := decimalLoop 39 val [] in
  (clipped cap tmp, Z.of_nat (length tmp)).

Definition i128_to_buf (cap val : Z) : outcome (list ascii * Z) :=
  if cap =? 0 then Ret ([], 0) else
  if val =? 0 then Ret ("0"%char :: (if 1 <? cap then [NUL] else []), 1) else
  if val =? k_min i128 then Undef else
  let tmp := decimalLoop 39 (Z.abs val) [] in
  let text := if val <? 0 then "-"%char :: tmp else tmp in
  Ret (clipped cap text, Z.of_nat (length text)).

(** *** 256 bits in four words, the lowest first *)

Definition word (n : list Z) (i : nat) : Z := n !!! i.

(** From the highest word to the lowest. *)
Fixpoint divLoop (n : list Z) (rem : Z) : list Z * Z :=
  match n with
  | [] => ([], rem)
  | w :: n =>
      let temp := rem * 2 ^ 64 + w in
      let r := divLoop n (temp mod 10) in
      (temp / 10 :: r.1, r.2)
  end.
Definition div256_by_10 (n : list Z) : list Z * Z :=
  let r := divLoop (reverse n) 0 in (reverse r.1, r.2).

Definition is_zero_256 (n : list Z) : bool := forallb (λ w, w =? 0) n.

Fixpoint negateLoop (n : list Z) (carry : Z) : list Z :=
  match n with
  | [] => []
  | old :: n =>
      to_uint64 (Z.lnot old + carry) :: negateLoop n (if (carry =? 1) && (old =? 0) then 1 else 0)
  end.
Definition negate_256 (n : list Z) : list Z := negateLoop n 1.

(** [lucis_int256_t] *)
Record lucis_int256_t := { lo : Z; hi : Z }.

(** [memcpy(digits, &val, 32)] *)
Definition words_of (val : lucis_int256_t) : list Z :=
  [to_uint64 (lo val); to_uint64 (lo val / 2 ^ 64); to_uint64 (hi val); to_uint64 (hi val / 2 ^ 64)].

Fixpoint iinfLoop (n : nat) (digits : list Z) (tmp : list ascii) : list ascii :=
  match n with
  | O => tmp
  | S n =>
      if is_zero_256 digits then tmp else
      let r := div256_by_10 digits in iinfLoop n r.1 (digit_char r.2 :: tmp)
  end.

Definition iinf_to_buf (cap : Z) (val : lucis_int256_t) : list ascii * Z :=
  if cap =? 0 then ([], 0) else
  let digits := words_of val in
  if is_zero_256 digits then (if 1 <? cap then ["0"%char; NUL] else [], 1) else
  let neg := hi val <? 0 in
  let tmp := iinfLoop 79 (if neg then negate_256 digits else digits) [] in
  let text := if neg then "-"%char :: tmp else tmp in
  (clipped cap text, Z.of_nat (length text)).

(** ** Buffers *)

Record strbuf := {
  b_cells : option (list (option ascii));
  b_pos : Z;
  b_cap : Z }.

#[export] Instance settable_strbuf : Settable strbuf := λ b, Build_strbuf (b_cells b) (b_pos b) (b_cap b).

Section text.
Context (granted : Z → bool).

Definition realloc_chars (p : option (list (option ascii))) (n : Z) : option (list (option ascii)) :=
  if granted n then
    let old := default [] p in Some (take (Z.to_nat n) old ++ replicate (Z.to_nat n - length old) None)
  else None.

(** [buf[i] = c] *)
Definition put_cell (p : option (list (option ascii))) (i : Z) (c : ascii) : outcome (option (list (option ascii))) :=
  match p with None => Undef | Some d => d ← arr_set d i (Some c); Ret (Some d) end.

Fixpoint put_cells (p : option (list (option ascii))) (i : Z) (cs : list ascii)
    : outcome (option (list (option ascii))) :=
  match cs with [] => Ret p | c :: cs => p ← put_cell p i c; put_cells p (i + 1) cs end.

(** [memcpy(buf + pos, s, n); pos += n] and [buf[pos++] = c] *)
Definition append (b : strbuf) (cs : list ascii) : outcome strbuf :=
  p ← put_cells (b_cells b) (b_pos b) cs;
  Ret (b <| b_cells := p |> <| b_pos := b_pos b + Z.of_nat (length cs) |>).

(** [while (cap - pos < n) { cap *= 2; buf = realloc(buf, cap); }] *)
Fixpoint ensure (fuel : nat) (n : Z) (b : strbuf) : outcome strbuf :=
  if to_uint64 (b_cap b - b_pos b) <? n then
    match fuel with
    | O => NoFuel
    | S fuel =>
        let cap := to_uint64 (b_cap b * 2) in
        ensure fuel n (b <| b_cells := realloc_chars (b_cells b) cap |> <| b_cap := cap |>)
    end
  else Ret b.

(** [pos += snprintf(buf + pos, cap - pos, ...)], with what is written and what is returned. *)
Definition printed (b : strbuf) (r : list ascii * Z) : outcome strbuf :=
  p ← put_cells (b_cells b) (b_pos b) r.1; Ret (b <| b_cells := p |> <| b_pos := b_pos b + r.2 |>).

(** [snprintf] with a format for an integer. *)
Definition snprintf (size x : Z) : outcome (list ascii * Z) :=
  let text := chars (to_string x) in
  Ret (if size =? 0 then [] else take (Z.to_nat (size - 1)) text ++ [NUL], Z.of_nat (length text)).

(** ** [toString] and [join] *)

(** The formatter of a kind, and the bytes that are made sure of for an element. *)
Definition formatter (k : int_kind) (size x : Z) : outcome (list ascii * Z) :=
  if k_bits k <? 128 then snprintf size x else
  if k_signed k then i128_to_buf size x else Ret (u128_to_buf size x).
Definition reserved (k : int_kind) : Z := if k_bits k <? 128 then 32 else 40.

Section kind.
Context (format : Z → Z → outcome (list ascii * Z)) (reserve : Z).

Definition element_text (b : strbuf) (x : Z) : outcome strbuf :=
  b ← ensure 64 reserve b;
  r ← format (to_uint64 (b_cap b - b_pos b)) x;
  printed b r.

(** The elements from [i] on, [n] of them, with a separator. *)
Fixpoint textLoop (sep : strbuf → outcome strbuf) (d : option block) (i : Z) (n : nat) (b : strbuf) : outcome strbuf :=
  match n with
  | O => Ret b
  | S n =>
      b ← (if 0 <? i then sep b else Ret b);
      x ← load d i;
      b ← element_text b x;
      textLoop sep d (i + 1) n b
  end.

Definition newbuf : strbuf := {| b_cells := realloc_chars None 64; b_pos := 0; b_cap := 64 |}.

Definition comma (b : strbuf) : outcome strbuf := append b [","; " "]%char.

Definition separator (sep : list ascii) (b : strbuf) : outcome strbuf :=
  b ← ensure 64 (Z.of_nat (length sep) + 1) b; append b sep.

(** The text in [buf]. *)
Definition toStringText (v : lucis_vec_header) : outcome strbuf :=
  b ← append newbuf ["["%char];
  b ← textLoop comma (v_ptr v) 0 (Z.to_nat (v_len v)) b;
  let b := if b_cap b <=? b_pos b + 1
           then b <| b_cap := b_pos b + 2 |> <| b_cells := realloc_chars (b_cells b) (b_pos b + 2) |> else b in
  b ← append b ["]"%char];
  p ← put_cell (b_cells b) (b_pos b) NUL; Ret (b <| b_cells := p |>).

Definition joinText (sep : list ascii) (v : lucis_vec_header) : outcome strbuf :=
  b ← textLoop (separator sep) (v_ptr v) 0 (Z.to_nat (v_len v)) newbuf;
  p ← put_cell (b_cells b) (b_pos b) NUL; Ret (b <| b_cells := p |>).

(** The first [n] cells. *)
Definition cells_text (p : option (list (option ascii))) (n : Z) : outcome (list ascii) :=
  match p with
  | None => Undef
  | Some d => match mapM id (take (Z.to_nat n) d) with
              | Some cs => if Z.of_nat (length cs) =? n then Ret cs else Undef
              | None => Undef
              end
  end.

(** The copy to a tracked block of [pos] bytes, [_t[pos] = 0] included. *)
Definition tracked_copy (b : strbuf) : outcome (list ascii) :=
  match realloc_chars None (b_pos b) with
  | Some t =>
      cs ← cells_text (b_cells b) (b_pos b);
      t ← put_cells (Some t) 0 cs;
      t ← put_cell t (b_pos b) NUL;
      cells_text t (b_pos b)
  | None => cells_text (b_cells b) (b_pos b)
  end.

Definition lucis_vec_toString (v : lucis_vec_header) : outcome (list ascii) :=
  if v_len v =? 0 then Ret (chars "[]") else b ← toStringText v; tracked_copy b.

Definition lucis_vec_join (v : lucis_vec_header) (sep : list ascii) : outcome (list ascii) :=
  if v_len v =? 0 then Ret [] else b ← joinText sep v; tracked_copy b.
End kind.
End text.

(** ** The digits are right *)

Lemma decimalLoop_print n : ∀ val f acc, 0 < val < 10 ^ Z.of_nat n → Z.log2 val ≤ Z.of_nat f →
  decimalLoop n val (chars acc) = chars (print_digits f val acc).
Proof.
  induction n as [|n IH]; intros val f acc Hv Hf; [simpl in Hv; lia|]. cbn [decimalLoop].
  rewrite (proj2 (Z.ltb_lt _ _)) by lia. pose proof (Z.div_mod val 10) as Hd. pose proof (Z.mod_pos_bound val 10).
  change (digit_char (val mod 10) :: chars acc) with (chars (String (digit_char (val mod 10)) acc)).
  assert (Hz : val / 10 = 0 → decimalLoop n (val / 10) (chars (String (digit_char (val mod 10)) acc)) =
    chars (String (digit_char (val mod 10)) acc)) by (intros ->; by destruct n).
  destruct f as [|f]; cbn [print_digits].
  - apply Hz. assert (val < 2); [|lia]. destruct (Z.lt_ge_cases val 2) as [|Hge]; [done|].
    pose proof (Z.log2_le_mono 2 val Hge). change (Z.log2 2) with 1 in *. lia.
  - destruct (Z.eqb_spec (val / 10) 0) as [H0|H0]; [by apply Hz|].
    rewrite Nat2Z.inj_succ, Z.pow_succ_r in Hv by lia. apply IH; [lia|].
    assert (Z.log2 (2 * (val / 10)) ≤ Z.log2 val) by (apply Z.log2_le_mono; lia). rewrite Z.log2_double in * by lia. lia.
Qed.

Lemma decimalLoop_nonneg n val : 0 < val < 10 ^ Z.of_nat n → decimalLoop n val [] = chars (to_string val).
Proof.
  intros Hv. unfold to_string. rewrite (proj2 (Z.ltb_ge _ _)) by lia. change [] with (chars "").
  apply decimalLoop_print; [done|]. pose proof (Z.log2_nonneg val). lia.
Qed.

Lemma decimalLoop_length n : ∀ val tmp, (length (decimalLoop n val tmp) ≤ n + length tmp)%nat.
Proof.
  induction n as [|n IH]; intros val tmp; cbn [decimalLoop]; [lia|]. destruct (0 <? val); [|lia].
  specialize (IH (val / 10) (digit_char (val mod 10) :: tmp)). simpl in IH. lia.
Qed.

(** The text of a number. *)
Definition decimal (x : Z) : list ascii := chars (to_string x).

Lemma decimal_signed n val : val ≠ 0 → Z.abs val < 10 ^ Z.of_nat n →
  (if val <? 0 then "-"%char :: decimalLoop n (Z.abs val) [] else decimalLoop n (Z.abs val) []) = decimal val.
Proof.
  intros Hv Hn. rewrite decimalLoop_nonneg by lia. unfold decimal, to_string. destruct (Z.ltb_spec val 0).
  - rewrite (proj2 (Z.ltb_ge (Z.abs val) 0)), Z.abs_neq by lia. done.
  - by rewrite Z.abs_eq, (proj2 (Z.ltb_ge val 0)) by lia.
Qed.

Lemma decimal_length n x : 0 < Z.of_nat n → Z.abs x < 10 ^ Z.of_nat n → (length (decimal x) ≤ S n)%nat.
Proof.
  intros Hn Hx. destruct (decide (x = 0)) as [->|]; [vm_compute; lia|]. rewrite <-(decimal_signed n) by done.
  pose proof (decimalLoop_length n (Z.abs x) []). simpl in *. destruct (x <? 0); simpl; lia.
Qed.

Lemma decimal_length_nonneg n x : 0 < Z.of_nat n → 0 ≤ x < 10 ^ Z.of_nat n → (length (decimal x) ≤ n)%nat.
Proof.
  intros Hn Hx. destruct (decide (x = 0)) as [->|]; [vm_compute; lia|].
  unfold decimal. rewrite <-(decimalLoop_nonneg n) by lia. pose proof (decimalLoop_length n x []). simpl in *. lia.
Qed.

(** *** 256 bits *)

Definition is_word (w : Z) : Prop := 0 ≤ w < 2 ^ 64.

(** The number of words, the lowest first. *)
Fixpoint le (n : list Z) : Z := match n with [] => 0 | w :: n => w + 2 ^ 64 * le n end.

Definition size_le (n : list Z) : Z := 2 ^ (64 * Z.of_nat (length n)).
Lemma size_le_cons w n : size_le (w :: n) = 2 ^ 64 * size_le n.
Proof. unfold size_le. cbn [length]. rewrite Nat2Z.inj_succ, <-Z.pow_add_r by lia. f_equal. lia. Qed.
Lemma size_le_length n m : length n = length m → size_le n = size_le m.
Proof. unfold size_le. by intros ->. Qed.
Lemma size_le_pos n : 0 < size_le n.
Proof. apply Z.pow_pos_nonneg; lia. Qed.

Lemma le_app a b : le (a ++ b) = le a + size_le a * le b.
Proof.
  induction a as [|w a IH]; [unfold size_le; cbn [app le length]; change (64 * Z.of_nat 0) with 0; lia|].
  cbn [app le]. rewrite IH, size_le_cons. lia.
Qed.

Lemma le_range n : Forall is_word n → 0 ≤ le n < size_le n.
Proof.
  induction 1 as [|w n Hw _ IH]; [unfold size_le; simpl; lia|]. rewrite size_le_cons. cbn [le]. unfold is_word in Hw. lia.
Qed.

(** The division, with the words from the highest to the lowest. *)
Lemma divLoop_ok n : Forall is_word n → ∀ rem, 0 ≤ rem < 10 →
  Forall is_word (divLoop n rem).1 ∧ length (divLoop n rem).1 = length n ∧ 0 ≤ (divLoop n rem).2 < 10 ∧
  rem * size_le n + le (reverse n) = 10 * le (reverse (divLoop n rem).1) + (divLoop n rem).2.
Proof.
  induction 1 as [|w n Hw _ IH]; intros rem Hr; cbn [divLoop fst snd]; [unfold size_le; simpl; split_and!; try done; lia|].
  set (temp := rem * 2 ^ 64 + w). pose proof (Z.mod_pos_bound temp 10) as Hm. pose proof (Z.div_mod temp 10) as Hd.
  destruct (IH (temp mod 10)) as (Hf & Hlen & Hb & E); [lia|]. unfold is_word in Hw. split_and!.
  - constructor; [|done]. unfold is_word. lia.
  - cbn [length]. lia.
  - lia.
  - lia.
  - rewrite !reverse_cons, !le_app, size_le_cons, (size_le_length (reverse n) n), (size_le_length (reverse _) n)
      by (by rewrite length_reverse). cbn [le]. nia.
Qed.

Lemma div256_ok n : Forall is_word n →
  Forall is_word (div256_by_10 n).1 ∧ le (div256_by_10 n).1 = le n / 10 ∧ (div256_by_10 n).2 = le n mod 10.
Proof.
  intros Hn. unfold div256_by_10. cbn [fst snd].
  destruct (divLoop_ok (reverse n) (proj2 (Forall_reverse _ _) Hn) 0) as (Hf & _ & Hb & E); [lia|].
  rewrite reverse_involutive, Z.mul_0_l, Z.add_0_l in E. split; [by apply Forall_reverse|].
  rewrite E. split.
  - apply (Z.div_unique _ _ _ (divLoop (reverse n) 0).2); lia.
  - apply (Z.mod_unique _ _ (le (reverse (divLoop (reverse n) 0).1))); lia.
Qed.

Lemma is_zero_256_ok n : Forall is_word n → is_zero_256 n = bool_decide (le n = 0).
Proof.
  unfold is_zero_256. induction 1 as [|w n Hw Hn IH]; [done|]. cbn [forallb le]. rewrite IH.
  pose proof (le_range n Hn). unfold is_word in Hw. destruct (Z.eqb_spec w 0) as [->|]; cbn [andb].
  - apply bool_decide_ext. lia.
  - rewrite bool_decide_eq_false_2; [done|lia].
Qed.

Lemma negateLoop_ok n : Forall is_word n → ∀ c, c = 0 ∨ c = 1 →
  Forall is_word (negateLoop n c) ∧ le (negateLoop n c) = (size_le n - 1 - le n + c) mod size_le n.
Proof.
  induction 1 as [|w n Hw Hn IH]; intros c Hc; cbn [negateLoop].
  { split; [done|]. unfold size_le. simpl. destruct Hc as [-> | ->]; done. }
  set (c' := if (c =? 1) && (w =? 0) then 1 else 0).
  assert (Hc' : c' = 0 ∨ c' = 1) by (unfold c'; destruct (_ && _); auto).
  destruct (IH c' Hc') as [Hf E]. split; [constructor; [by apply to_uint64_range|done]|].
  cbn [le]. rewrite E, size_le_cons. clear E. pose proof (le_range n Hn) as Hr. unfold is_word in Hw.
  assert (Ew : to_uint64 (Z.lnot w + c) = 2 ^ 64 - 1 - w + c - 2 ^ 64 * c').
  { unfold to_uint64. symmetry. apply (Z.mod_unique _ _ (-1 + c')).
    - left. unfold c'. destruct (Z.eqb_spec c 1), (Z.eqb_spec w 0); cbn [andb]; lia.
    - unfold Z.lnot. lia. }
  assert (Hcw : c' = 1 ↔ c = 1 ∧ w = 0).
  { unfold c'. destruct (Z.eqb_spec c 1), (Z.eqb_spec w 0); cbn [andb]; lia. }
  clearbody c'. rewrite Ew. set (S := size_le n) in *. set (m := S - 1 - le n + c').
  assert (0 ≤ m ≤ S) by (unfold m; lia).
  destruct (decide (m = S)) as [Em|Em].
  - rewrite Em, Z.mod_same by lia.
    apply (Z.mod_unique _ _ 1); [left|]; unfold m in Em; lia.
  - rewrite (Z.mod_small m) by lia. symmetry. rewrite Z.mod_small; unfold m in *; lia.
Qed.

(** The number of two halves. *)
Definition int256 (val : lucis_int256_t) : Z := hi val * 2 ^ 128 + lo val mod 2 ^ 128.

Lemma words_of_ok val : k_min i128 ≤ hi val ≤ k_max i128 →
  Forall is_word (words_of val) ∧ le (words_of val) = int256 val mod 2 ^ 256.
Proof.
  intros Hhi. unfold words_of, int256. split; [by repeat constructor; apply to_uint64_range|].
  assert (E : ∀ z, to_uint64 z + 2 ^ 64 * to_uint64 (z / 2 ^ 64) = z mod 2 ^ 128).
  { intros z. unfold to_uint64. rewrite <-Z.rem_mul_r by lia. done. }
  cbn [le]. pose proof (E (lo val)). pose proof (E (hi val)).
  replace (hi val * 2 ^ 128 + lo val mod 2 ^ 128) with (lo val mod 2 ^ 128 + 2 ^ 128 * hi val) by lia.
  change (2 ^ 256) with (2 ^ 128 * 2 ^ 128). rewrite Z.rem_mul_r by lia.
  rewrite (Z.mul_comm (2 ^ 128) (hi val)), Z.mod_add, Z.div_add by lia.
  pose proof (Z.mod_pos_bound (lo val) (2 ^ 128)). rewrite (Z.mod_small (lo val mod 2 ^ 128)), (Z.div_small (lo val mod 2 ^ 128)) by lia.
  rewrite Z.add_0_l. lia.
Qed.

(** *** The formatters *)

Lemma clipped_fits size text : Z.of_nat (length text) < size → size < 2 ^ 31 → clipped size text = text ++ [NUL].
Proof.
  intros Ht Hs. unfold clipped. assert (E : to_int32 size = size) by (unfold to_int32; rewrite Z.mod_small; lia).
  rewrite E, take_ge, (proj2 (Z.ltb_lt _ _)) by lia. done.
Qed.

Lemma chars_print val : val = 0 → decimal val = ["0"%char].
Proof. by intros ->. Qed.

Lemma u128_to_buf_ok size val : 0 ≤ val < 2 ^ 128 → 1 < size < 2 ^ 31 →
  Z.of_nat (length (decimal val)) < size →
  u128_to_buf size val = (decimal val ++ [NUL], Z.of_nat (length (decimal val))).
Proof.
  intros Hv Hs Hl. unfold u128_to_buf. rewrite (proj2 (Z.eqb_neq _ _)) by lia.
  destruct (Z.eqb_spec val 0) as [->|]; [by rewrite (proj2 (Z.ltb_lt _ _)) by lia|].
  assert (Hb : 0 < val < 10 ^ Z.of_nat 39) by (change (10 ^ Z.of_nat 39) with (10 ^ 39); lia).
  rewrite decimalLoop_nonneg by done. fold (decimal val).
  by rewrite clipped_fits by lia.
Qed.

Lemma i128_to_buf_ok size val : k_min i128 < val ≤ k_max i128 → 1 < size < 2 ^ 31 →
  Z.of_nat (length (decimal val)) < size →
  i128_to_buf size val = Ret (decimal val ++ [NUL], Z.of_nat (length (decimal val))).
Proof.
  intros Hv Hs Hl. unfold i128_to_buf. rewrite (proj2 (Z.eqb_neq size 0)) by lia.
  destruct (Z.eqb_spec val 0) as [->|]; [by rewrite (proj2 (Z.ltb_lt _ _)) by lia|].
  rewrite (proj2 (Z.eqb_neq _ _)) by lia.
  assert (Hb : Z.abs val < 10 ^ Z.of_nat 39).
  { change (k_min i128) with (- 2 ^ 127) in Hv. change (k_max i128) with (2 ^ 127 - 1) in Hv.
    change (10 ^ Z.of_nat 39) with (10 ^ 39). lia. }
  rewrite (decimal_signed 39) by done. by rewrite clipped_fits by lia.
Qed.

Lemma iinfLoop_ok n : ∀ digits tmp, Forall is_word digits → iinfLoop n digits tmp = decimalLoop n (le digits) tmp.
Proof.
  induction n as [|n IH]; intros digits tmp Hd; [done|]. cbn [iinfLoop decimalLoop].
  rewrite is_zero_256_ok by done. pose proof (le_range digits Hd). destruct (div256_ok digits Hd) as (Hf & E1 & E2).
  case_bool_decide as Hz; [by rewrite Hz|]. rewrite (proj2 (Z.ltb_lt _ _)) by lia. by rewrite IH, E1, E2.
Qed.

(** C31: The digits of a 256-bit number, found by dividing four words by ten, after a negation of
    the words when it is negative, are its decimal digits, and they are all written when the
    buffer has 80 bytes. *)
Theorem iinf_to_buf_ok size val : k_min i128 ≤ hi val ≤ k_max i128 → 80 ≤ size < 2 ^ 31 →
  iinf_to_buf size val = (decimal (int256 val) ++ [NUL], Z.of_nat (length (decimal (int256 val)))).
Proof.
  intros Hhi Hs. unfold iinf_to_buf. rewrite (proj2 (Z.eqb_neq size 0)) by lia.
  destruct (words_of_ok val Hhi) as [Hw Hle]. rewrite is_zero_256_ok, Hle by done.
  change (k_min i128) with (- 2 ^ 127) in Hhi. change (k_max i128) with (2 ^ 127 - 1) in Hhi.
  pose proof (Z.mod_pos_bound (lo val) (2 ^ 128)) as Hlo. set (x := int256 val) in *.
  assert (Hx : - 2 ^ 255 ≤ x < 2 ^ 255) by (unfold x, int256; lia).
  assert (Hsign : (hi val <? 0) = (x <? 0)).
  { unfold x, int256. destruct (Z.ltb_spec (hi val) 0), (Z.ltb_spec (hi val * 2 ^ 128 + lo val mod 2 ^ 128) 0); lia. }
  rewrite Hsign. destruct (decide (x = 0)) as [Hx0|Hx0].
  { rewrite Hx0. rewrite bool_decide_eq_true_2 by done. by rewrite (proj2 (Z.ltb_lt _ _)) by lia. }
  assert (Hmod : x mod 2 ^ 256 = if x <? 0 then 2 ^ 256 + x else x).
  { symmetry. destruct (Z.ltb_spec x 0); [apply (Z.mod_unique _ _ (-1))|apply (Z.mod_unique _ _ 0)]; lia. }
  rewrite bool_decide_eq_false_2 by (rewrite Hmod; destruct (Z.ltb_spec x 0); lia).
  assert (Htext : (if x <? 0 then "-"%char :: iinfLoop 79 (if x <? 0 then negate_256 (words_of val) else words_of val) []
    else iinfLoop 79 (if x <? 0 then negate_256 (words_of val) else words_of val) []) = decimal x).
  { rewrite <-(decimal_signed 79) by (done || change (10 ^ Z.of_nat 79) with (10 ^ 79); lia).
    destruct (Z.ltb_spec x 0).
    - destruct (negateLoop_ok (words_of val) Hw 1) as [Hf E]; [by right|]. unfold negate_256.
      rewrite iinfLoop_ok by done. do 2 f_equal. rewrite E, Hle, Hmod.
      change (size_le (words_of val)) with (2 ^ 256). rewrite Z.mod_small; lia.
    - rewrite iinfLoop_ok, Hle, Hmod by done. f_equal. lia. }
  rewrite Htext. assert (Hlen : (length (decimal x) ≤ 79)%nat).
  { apply (decimal_length 78); [done|]. change (10 ^ Z.of_nat 78) with (10 ^ 78). lia. }
  rewrite clipped_fits by lia. done.
Qed.

(** ** The text *)

Section built.
Context (granted : Z → bool) (M : Z).
(** There is memory for twice [M] characters and the first 64. *)
Context (Hgranted : ∀ bytes, 0 ≤ bytes ≤ 2 * M + 64 → granted bytes = true) (HM : 2 * M + 64 < 2 ^ 31).

(** The buffer starts with this text. *)
Record wf (b : strbuf) (cs : list ascii) : Prop := {
  w_pos : b_pos b = Z.of_nat (length cs);
  w_cells : ∃ d, b_cells b = Some d ∧ b_cap b = Z.of_nat (length d) ∧
                 ∀ j c, cs !! j = Some c → d !! j = Some (Some c);
  w_cap : 64 ≤ b_cap b ≤ 2 * M + 64 }.

Definition slack (b : strbuf) : Z := b_cap b - b_pos b.

Lemma wf_slack b cs : wf b cs → 0 ≤ slack b.
Proof.
  intros [Hp (d & _ & Hc & Hd) _]. unfold slack. rewrite Hp, Hc.
  destruct (decide (length cs ≤ length d)%nat); [lia|].
  destruct (lookup_lt_is_Some_2 cs (length d)) as [c Hcs]; [lia|]. apply Hd, lookup_lt_Some in Hcs. lia.
Qed.

Lemma put_cells_ok cs : ∀ d i, (i + length cs ≤ length d)%nat →
  ∃ d', put_cells (Some d) (Z.of_nat i) cs = Ret (Some d') ∧ length d' = length d ∧
  ∀ j, d' !! j = if decide (i ≤ j < i + length cs)%nat then Some <$> cs !! (j - i)%nat else d !! j.
Proof.
  induction cs as [|c cs IH]; intros d i Hi; cbn [put_cells length] in *.
  { exists d. split_and!; [done..|]. intros j. by rewrite decide_False by lia. }
  unfold put_cell. rewrite arr_set_ok by lia. cbn [mbind outcome_bind].
  replace (Z.of_nat i + 1) with (Z.of_nat (S i)) by lia.
  destruct (IH (<[i := Some c]> d) (S i)) as (d' & -> & Hl & Hd); [rewrite length_insert; lia|].
  rewrite length_insert in Hl. exists d'. split_and!; [done..|]. intros j. rewrite Hd.
  destruct (decide (j = i)) as [->|].
  - rewrite decide_False, decide_True by lia. rewrite list_lookup_insert_eq, Nat.sub_diag by lia. done.
  - destruct (decide (S i ≤ j < S i + length cs)%nat).
    + rewrite decide_True by lia. replace (j - i)%nat with (S (j - S i)) by lia. done.
    + rewrite decide_False by lia. by rewrite list_lookup_insert_ne by lia.
Qed.

(** Writing [cs'] behind the text; what follows it may be more. *)
Lemma write_ok b cs cs' rest : wf b cs → Z.of_nat (length cs' + length rest) ≤ slack b →
  ∃ p, put_cells (b_cells b) (b_pos b) (cs' ++ rest) = Ret p ∧
    wf (b <| b_cells := p |> <| b_pos := b_pos b + Z.of_nat (length cs') |>) (cs ++ cs').
Proof.
  intros [Hp (d & Hd & Hc & Hcs) Hcap] Hs. unfold slack in Hs.
  destruct (put_cells_ok (cs' ++ rest) d (length cs)) as (d' & E & Hl & Hd'); [rewrite length_app; lia|].
  exists (Some d'). rewrite Hd, Hp. split; [done|]. split; cbn.
  - rewrite length_app. lia.
  - exists d'. split_and!; [done|lia|]. intros j c. rewrite Hd', length_app. rewrite lookup_app_Some.
    intros [Hj|[Hj Hc']].
    + apply lookup_lt_Some in Hj as Hlt. rewrite decide_False by lia. by apply Hcs.
    + apply lookup_lt_Some in Hc' as Hlt. rewrite decide_True by lia. rewrite lookup_app_l by lia. by rewrite Hc'.
  - lia.
Qed.

Lemma append_ok b cs cs' : wf b cs → Z.of_nat (length cs') ≤ slack b →
  ∃ b', append b cs' = Ret b' ∧ wf b' (cs ++ cs') ∧ slack b' = slack b - Z.of_nat (length cs').
Proof.
  intros Hw Hs. destruct (write_ok b cs cs' [] Hw) as (p & E & Hw'); [simpl; lia|]. rewrite app_nil_r in E.
  unfold append. rewrite E. cbn [mbind outcome_bind]. eexists. split_and!; [done..|]. unfold slack. cbn. lia.
Qed.

Lemma printed_ok b cs text : wf b cs → Z.of_nat (length text) + 1 ≤ slack b →
  ∃ b', printed b (text ++ [NUL], Z.of_nat (length text)) = Ret b' ∧ wf b' (cs ++ text) ∧
    slack b' = slack b - Z.of_nat (length text).
Proof.
  intros Hw Hs. destruct (write_ok b cs text [NUL] Hw) as (p & E & Hw'); [simpl; lia|].
  unfold printed. cbn [fst snd]. rewrite E. cbn [mbind outcome_bind]. eexists. split_and!; [done..|]. unfold slack. cbn. lia.
Qed.

Lemma grown_ok b cs cap : wf b cs → b_cap b ≤ cap ≤ 2 * M + 64 →
  wf (b <| b_cells := realloc_chars granted (b_cells b) cap |> <| b_cap := cap |>) cs.
Proof.
  intros [Hp (d & Hd & Hc & Hcs) Hcap] Hle. unfold realloc_chars. rewrite Hgranted, Hd by lia.
  split; cbn; [done| |lia]. eexists. split; [done|]. split.
  - rewrite length_app, length_take, length_replicate. cbn. unfold id. lia.
  - intros j c Hj. apply Hcs in Hj. pose proof (lookup_lt_Some _ _ _ Hj). cbn. unfold id.
    rewrite lookup_app_l by (rewrite length_take; lia). by rewrite lookup_take_lt by lia.
Qed.

Lemma ensure_ok n fuel : ∀ b cs, wf b cs → 0 ≤ n → b_pos b + n ≤ M → M < 2 ^ Z.of_nat fuel * b_cap b →
  ∃ b', ensure granted fuel n b = Ret b' ∧ wf b' cs ∧ n ≤ slack b' ∧ slack b ≤ slack b'.
Proof.
  induction fuel as [|fuel IH]; intros b cs Hw Hn Hpos Hf; pose proof (wf_slack b cs Hw) as Hs;
    pose proof (w_cap b cs Hw) as Hcap; pose proof (w_pos b cs Hw) as Hp; cbn [ensure]; unfold slack in *;
    rewrite to_uint64_small by lia; destruct (Z.ltb_spec (b_cap b - b_pos b) n).
  - simpl in Hf. lia.
  - by exists b.
  - rewrite to_uint64_small by lia. rewrite Nat2Z.inj_succ, Z.pow_succ_r in Hf by lia.
    destruct (IH _ cs (grown_ok b cs (b_cap b * 2) Hw ltac:(lia))) as (b' & E & Hw' & Hn' & Hs'); cbn; [lia|lia|lia|].
    exists b'. split_and!; [done|done|done|]. cbn in Hs'. lia.
  - by exists b.
Qed.

(** *** Elements and separators *)

Context (format : Z → Z → outcome (list ascii * Z)) (reserve : Z).

(** The formatter writes the digits, and leaves two bytes of what is reserved. *)
Definition prints (x : Z) : Prop :=
  Z.of_nat (length (decimal x)) + 2 ≤ reserve ∧
  ∀ size, reserve ≤ size < 2 ^ 31 → format size x = Ret (decimal x ++ [NUL], Z.of_nat (length (decimal x))).

Lemma element_ok b cs x : wf b cs → prints x → b_pos b + reserve ≤ M →
  ∃ b', element_text granted format reserve b x = Ret b' ∧ wf b' (cs ++ decimal x) ∧ 2 ≤ slack b'.
Proof.
  intros Hw [Hx Hf] Hp. unfold element_text. pose proof (w_cap b cs Hw). pose proof (w_pos b cs Hw).
  destruct (ensure_ok reserve 64 b cs Hw) as (b1 & -> & Hw1 & Hn1 & Hs1); [lia|lia|lia|]. cbn [mbind outcome_bind].
  pose proof (w_cap b1 cs Hw1). pose proof (w_pos b1 cs Hw1). unfold slack in Hn1. rewrite to_uint64_small, Hf by lia.
  cbn [mbind outcome_bind]. destruct (printed_ok b1 cs (decimal x) Hw1) as (b2 & -> & Hw2 & Hs2); [unfold slack; lia|].
  exists b2. split_and!; [done..|]. rewrite Hs2. unfold slack. lia.
Qed.

(** The elements from number [i] on. *)
Fixpoint texts (sep : list ascii) (i : nat) (l : list Z) : list ascii :=
  match l with
  | [] => []
  | x :: l => (match i with O => [] | S _ => sep end) ++ decimal x ++ texts sep (S i) l
  end.

(** What the loop needs of the function that writes a separator. *)
Definition separates (sepf : strbuf → outcome strbuf) (sep : list ascii) : Prop :=
  ∀ b cs, wf b cs → 2 ≤ slack b → b_pos b + Z.of_nat (length sep) + 1 ≤ M →
  ∃ b', sepf b = Ret b' ∧ wf b' (cs ++ sep).

Lemma comma_separates : separates comma [","; " "]%char.
Proof. intros b cs Hw Hs Hp. destruct (append_ok b cs [","; " "]%char Hw) as (b' & E & Hw' & _); [done|]. by exists b'. Qed.

Lemma separator_separates sep : separates (separator granted sep) sep.
Proof.
  intros b cs Hw Hs Hp. unfold separator. pose proof (w_cap b cs Hw). pose proof (w_pos b cs Hw).
  destruct (ensure_ok (Z.of_nat (length sep) + 1) 64 b cs Hw) as (b1 & -> & Hw1 & Hn & _); [lia|lia|lia|].
  cbn [mbind outcome_bind]. destruct (append_ok b1 cs sep Hw1) as (b' & E & Hw' & _); [lia|]. by exists b'.
Qed.

Lemma textLoop_S sepf p i n b : textLoop granted format reserve sepf p i (S n) b =
  (b ← (if 0 <? i then sepf b else Ret b); x ← load p i; b ← element_text granted format reserve b x;
   textLoop granted format reserve sepf p (i + 1) n b).
Proof. reflexivity. Qed.

Lemma before_ok sepf sep i b cs : separates sepf sep → wf b cs → (i ≠ 0%nat → 2 ≤ slack b) →
  b_pos b + Z.of_nat (length sep) + 1 ≤ M ∨ i = 0%nat →
  ∃ b1, (if 0 <? Z.of_nat i then sepf b else Ret b) = Ret b1 ∧
    wf b1 (cs ++ match i with O => [] | S _ => sep end).
Proof.
  intros Hsep Hw Hs Hp. destruct i as [|i].
  - exists b. by rewrite app_nil_r.
  - rewrite (proj2 (Z.ltb_lt _ _)) by lia. destruct Hp as [Hp|]; [|done]. by apply Hsep; [|apply Hs|].
Qed.

Lemma textLoop_ok sepf sep p l n : separates sepf sep → holds p l → Forall prints l → 2 ≤ reserve →
  ∀ i b cs, n = (length l - i)%nat → wf b cs → (i ≠ 0%nat → 2 ≤ slack b) →
  b_pos b + Z.of_nat (length (texts sep i (drop i l))) + reserve ≤ M →
  ∃ b', textLoop granted format reserve sepf p (Z.of_nat i) n b = Ret b' ∧ wf b' (cs ++ texts sep i (drop i l)) ∧
    (n ≠ 0%nat ∨ 2 ≤ slack b → 2 ≤ slack b').
Proof.
  intros Hsep Hh Hl Hres. induction n as [|n IH]; intros i b cs Hn Hw Hs Hp.
  { exists b. rewrite drop_ge, app_nil_r by lia. split_and!; [done..|]. intros [?|?]; [done|done]. }
  destruct (lookup_lt_is_Some_2 l i) as [x Hx]; [lia|]. rewrite (drop_S l x i) in Hp |- * by done.
  cbn [texts] in Hp |- *. rewrite !length_app in Hp. rewrite textLoop_S.
  destruct (before_ok sepf sep i b cs Hsep Hw Hs) as (b1 & -> & Hw1); [destruct i; [by right|left; lia]|].
  rewrite outcome_bind_ret. rewrite (load_ok p l i x) by done. rewrite outcome_bind_ret.
  pose proof (w_pos _ _ Hw) as Hpos. pose proof (w_pos _ _ Hw1) as Hpos1. rewrite length_app in Hpos1.
  destruct (element_ok b1 _ x Hw1) as (b2 & -> & Hw2 & Hs2); [|lia|].
  { rewrite Forall_forall in Hl. apply Hl. by eapply list_elem_of_lookup_2. }
  rewrite outcome_bind_ret. replace (Z.of_nat i + 1) with (Z.of_nat (S i)) by lia.
  pose proof (w_pos _ _ Hw2) as Hpos2. rewrite !length_app in Hpos2.
  destruct (IH (S i) b2 _ ltac:(lia) Hw2) as (b3 & -> & Hw3 & Hs3); [done|lia|].
  exists b3. rewrite <-!app_assoc in Hw3. split_and!; [done|done|]. intros _. apply Hs3. by right.
Qed.

Lemma newbuf_wf : 0 ≤ M → wf (newbuf granted) [].
Proof.
  intros H. unfold newbuf, realloc_chars. rewrite Hgranted by lia. split; cbn; [done| |lia].
  eexists. split; [done|]. split; [done|]. intros j c Hj. by rewrite lookup_nil in Hj.
Qed.

Lemma cells_text_ok b cs : wf b cs → cells_text (b_cells b) (b_pos b) = Ret cs.
Proof.
  intros [Hp (d & Hd & Hc & Hcs) _]. rewrite Hd, Hp. unfold cells_text. rewrite Nat2Z.id.
  assert (E : take (length cs) d = Some <$> cs).
  { apply list_eq. intros j. rewrite list_lookup_fmap. destruct (decide (j < length cs)%nat) as [Hj|Hj].
    - destruct (lookup_lt_is_Some_2 cs j Hj) as [c Hcj]. by rewrite lookup_take_lt, Hcj, (Hcs j c) by done.
    - rewrite !lookup_ge_None_2; [done|lia|]. rewrite length_take. lia. }
  rewrite E. replace (mapM id (Some <$> cs)) with (Some cs); [by rewrite Z.eqb_refl|].
  clear. induction cs as [|c cs IH]; [done|]. cbn [fmap list_fmap mapM]. by rewrite <-IH.
Qed.

(** The terminating 0 behind the text. *)
Lemma terminated_ok b cs : wf b cs → 1 ≤ slack b →
  ∃ p, put_cell (b_cells b) (b_pos b) NUL = Ret p ∧ wf (b <| b_cells := p |>) cs.
Proof.
  intros Hw Hs. destruct (write_ok b cs [] [NUL] Hw) as (p & E & Hw'); [simpl; lia|].
  exists p. cbn [app put_cells] in E. split; [by apply outcome_bind_inv in E as (p' & -> & [= ->])|].
  rewrite app_nil_r in Hw'. destruct Hw' as [Hp Hc Hcap]. split; cbn in *; [lia|done|done].
Qed.

Lemma toStringText_ok N v l : repr N v l → l ≠ [] → Forall prints l → 2 ≤ reserve →
  Z.of_nat (length (texts [","; " "]%char 0 l)) + reserve + 4 ≤ M →
  ∃ b, toStringText granted format reserve v = Ret b ∧
    wf b ("["%char :: texts [","; " "]%char 0 l ++ ["]"%char]).
Proof.
  intros Hr Hl Hf Hres HMl. unfold toStringText. pose proof (newbuf_wf ltac:(lia)) as Hw0.
  destruct (append_ok _ _ ["["%char] Hw0) as (b1 & -> & Hw1 & Hs1); [unfold slack; simpl; lia|].
  rewrite outcome_bind_ret. rewrite (r_len _ _ _ Hr), Nat2Z.id.
  destruct (textLoop_ok comma [","; " "]%char (v_ptr v) l (length l) comma_separates (r_holds _ _ _ Hr) Hf Hres 0 b1 ["["%char])
    as (b2 & E & Hw2 & Hs2); [lia|done|done|rewrite drop_0, (w_pos _ _ Hw1); simpl; lia|].
  change (Z.of_nat 0) with 0 in E. rewrite E. clear E. rewrite outcome_bind_ret, drop_0 in *.
  assert (Hlen : length l ≠ 0%nat) by (by destruct l). specialize (Hs2 (or_introl Hlen)).
  pose proof (w_pos _ _ Hw2) as Hp2. cbn [app length] in Hp2. pose proof (w_cap _ _ Hw2) as Hc2.
  unfold slack in Hs2. rewrite (proj2 (Z.leb_gt _ _)) by lia.
  destruct (append_ok b2 _ ["]"%char] Hw2) as (b3 & -> & Hw3 & Hs3); [unfold slack; simpl; lia|].
  rewrite outcome_bind_ret. destruct (terminated_ok b3 _ Hw3) as (p & -> & Hw4); [unfold slack in *; simpl in *; lia|].
  rewrite outcome_bind_ret. by eexists.
Qed.

Lemma joinText_ok N v l sep : repr N v l → l ≠ [] → Forall prints l → 2 ≤ reserve →
  Z.of_nat (length (texts sep 0 l)) + reserve ≤ M →
  ∃ b, joinText granted format reserve sep v = Ret b ∧ wf b (texts sep 0 l).
Proof.
  intros Hr Hl Hf Hres HMl. unfold joinText. pose proof (newbuf_wf ltac:(lia)) as Hw0.
  rewrite (r_len _ _ _ Hr), Nat2Z.id.
  destruct (textLoop_ok (separator granted sep) sep (v_ptr v) l (length l) (separator_separates sep) (r_holds _ _ _ Hr) Hf
    Hres 0 (newbuf granted) []) as (b2 & E & Hw2 & Hs2); [lia|done|done|rewrite drop_0; simpl; lia|].
  change (Z.of_nat 0) with 0 in E. rewrite E. clear E. rewrite outcome_bind_ret, drop_0 in *.
  assert (Hlen : length l ≠ 0%nat) by (by destruct l). specialize (Hs2 (or_introl Hlen)).
  destruct (terminated_ok b2 _ Hw2) as (p & -> & Hw3); [lia|]. rewrite outcome_bind_ret. by eexists.
Qed.

(** The copy has no byte for the terminating 0. *)
Lemma tracked_copy_overrun b cs : wf b cs → Z.of_nat (length cs) ≤ 2 * M + 64 → tracked_copy granted b = Undef.
Proof.
  intros Hw Hl. unfold tracked_copy. rewrite (cells_text_ok b cs Hw), (w_pos b cs Hw). unfold realloc_chars.
  rewrite Hgranted by lia. rewrite outcome_bind_ret. cbn [default from_option id length]. rewrite Nat.sub_0_r, Nat2Z.id.
  set (t := replicate (length cs) (None : option ascii)).
  destruct (put_cells_ok cs (take (length cs) [] ++ t) 0) as (t' & E & Hlen & _).
  { rewrite length_app. unfold t. rewrite length_replicate. lia. }
  change (Z.of_nat 0) with 0 in E. rewrite E, outcome_bind_ret. unfold put_cell, arr_set.
  rewrite length_app, length_take, length_nil in Hlen. unfold t in Hlen. rewrite length_replicate in Hlen.
  replace (Z.of_nat (length cs) <? Z.of_nat (length t')) with false by (symmetry; apply Z.ltb_ge; lia).
  by rewrite andb_false_r.
Qed.
End built.

(** Values of the type, short enough to leave room for a separator: every value of up to 64
    bits, and up to 38 characters of the larger types. *)
Definition short (k : int_kind) (x : Z) : Prop :=
  in_kind k x = true ∧ (k_bits k < 128 ∨ (length (decimal x) ≤ 38)%nat).

Lemma kind_bounds k : k ∈ int_kinds →
  (k_bits k < 128 → - 10 ^ 19 < k_min k ∧ k_max k < 10 ^ 20) ∧ (128 ≤ k_bits k → k = i128 ∨ k = u128).
Proof.
  revert k. apply Forall_forall. unfold int_kinds. rewrite !Forall_cons, Forall_nil.
  split_and!; try done; intros H; vm_compute in H; try discriminate H; try (by destruct H); [..|by left|]; try by right.
  all: split; vm_compute; reflexivity.
Qed.

Lemma short_prints k x : k ∈ int_kinds → short k x → prints (formatter k) (reserved k) x.
Proof.
  intros Hk [Hx Hs]. destruct (kind_bounds k Hk) as [Hsmall Hbig].
  unfold in_kind in Hx. rewrite andb_true_iff, !Z.leb_le in Hx. unfold prints, formatter, reserved.
  destruct (Z.ltb_spec (k_bits k) 128) as [Hb|Hb].
  - specialize (Hsmall Hb). assert (Hlen : (length (decimal x) ≤ 20)%nat).
    { destruct (decide (x < 0)).
      - apply (decimal_length 19); [done|]. change (10 ^ Z.of_nat 19) with (10 ^ 19). lia.
      - apply (decimal_length_nonneg 20); [done|]. change (10 ^ Z.of_nat 20) with (10 ^ 20). lia. }
    split; [lia|]. intros size Hsize. unfold snprintf. fold (decimal x). rewrite (proj2 (Z.eqb_neq _ _)), take_ge by lia. done.
  - destruct Hs as [Hs|Hs]; [lia|]. split; [lia|]. intros size Hsize.
    destruct (Hbig Hb) as [-> | ->]; cbn [k_signed i128 u128].
    + apply i128_to_buf_ok; [|lia|lia]. split; [|apply Hx].
      assert (x ≠ k_min i128); [|lia]. intros ->. vm_compute in Hs. lia.
    + f_equal. apply u128_to_buf_ok; [|lia|lia].
      change (k_min u128) with 0 in Hx. change (k_max u128) with (2 ^ 128 - 1) in Hx. lia.
Qed.

(** C30: The texts of a non-empty vector of integers, [[a, b, c]] for [toString] and the
    elements with the separator between them for [join], are written to the growing buffer
    without leaving it and in the right digits, provided that 128-bit numbers have at most 38
    characters.  Then both functions write out of bounds: the block they copy the text to is
    as long as the text, and has no byte for the terminating 0. *)
Theorem vec_text_overruns k granted N M v l sep :
  k ∈ int_kinds → (∀ bytes, 0 ≤ bytes ≤ 2 * M + 64 → granted bytes = true) → 2 * M + 64 < 2 ^ 31 →
  repr N v l → l ≠ [] → Forall (short k) l →
  Z.of_nat (length (texts [","; " "]%char 0 l)) + 44 ≤ M → Z.of_nat (length (texts sep 0 l)) + 44 ≤ M →
  (∃ b, toStringText granted (formatter k) (reserved k) v = Ret b ∧
     cells_text (b_cells b) (b_pos b) = Ret ("["%char :: texts [","; " "]%char 0 l ++ ["]"%char])) ∧
  (∃ b, joinText granted (formatter k) (reserved k) sep v = Ret b ∧
     cells_text (b_cells b) (b_pos b) = Ret (texts sep 0 l)) ∧
  lucis_vec_toString granted (formatter k) (reserved k) v = Undef ∧
  lucis_vec_join granted (formatter k) (reserved k) v sep = Undef.
Proof.
  intros Hk Hg HM Hr Hl Hs H1 H2.
  assert (Hp : Forall (prints (formatter k) (reserved k)) l).
  { eapply Forall_impl; [exact Hs|]. intros x. by apply short_prints. }
  assert (Hres : 2 ≤ reserved k ≤ 40) by (unfold reserved; destruct (_ <? _); lia).
  destruct (toStringText_ok granted M Hg HM _ _ N v l Hr Hl Hp) as (b1 & E1 & Hw1); [lia|lia|].
  destruct (joinText_ok granted M Hg HM _ _ N v l sep Hr Hl Hp) as (b2 & E2 & Hw2); [lia|lia|].
  assert (Hne : (v_len v =? 0) = false).
  { apply Z.eqb_neq. rewrite (r_len _ _ _ Hr). destruct l; simpl; [done|lia]. }
  split_and!.
  - exists b1. split; [done|]. by eapply cells_text_ok.
  - exists b2. split; [done|]. by eapply cells_text_ok.
  - unfold lucis_vec_toString. rewrite Hne, E1, outcome_bind_ret. eapply (tracked_copy_overrun granted M); [done..|].
    simpl. rewrite length_app. simpl. lia.
  - unfold lucis_vec_join. rewrite Hne, E2, outcome_bind_ret. eapply (tracked_copy_overrun granted M); [done..|]. lia.
Qed.

(** ** Examples *)

Definition two_numbers : lucis_vec_header := {| v_ptr := Some [Some (-7); Some 12]; v_len := 2; v_cap := 2 |}.

Lemma two_numbers_repr : repr 2 two_numbers [-7; 12].
Proof. split; [done| |done|vm_compute; done]. by intros [|[|j]] x [= <-]. Qed.

Lemma vec_text_overruns_witness :
  (∃ b, toStringText plenty (formatter i32) (reserved i32) two_numbers = Ret b ∧
     cells_text (b_cells b) (b_pos b) = Ret (chars "[-7, 12]")) ∧
  lucis_vec_join plenty (formatter i32) (reserved i32) two_numbers (chars "; ") = Undef.
Proof.
  destruct (vec_text_overruns i32 plenty 2 100 two_numbers [-7; 12] (chars "; ")) as (H1 & _ & _ & H2).
  - apply list_elem_of_In. simpl. auto.
  - intros bytes Hb. apply Z.leb_le. lia.
  - lia.
  - apply two_numbers_repr.
  - done.
  - repeat constructor; simpl; lia.
  - vm_compute. discriminate.
  - vm_compute. discriminate.
  - split; [exact H1|exact H2].
Defined.

Definition vec_of (l : list Z) : lucis_vec_header :=
  {| v_ptr := Some (Some <$> l); v_len := Z.of_nat (length l); v_cap := Z.of_nat (length l) |}.

(** Three numbers of 17 digits together are followed by a number of 39 digits, which fills the buffer
    of 64 characters up to its end: the comma behind it is written outside. *)
Example u128_comma_overrun :
  let l := [10000; 100000; 100000; 2 ^ 128 - 1] in
  is_ret (toStringText plenty (formatter u128) (reserved u128) (vec_of l)) = true ∧
  toStringText plenty (formatter u128) (reserved u128) (vec_of (l ++ [0])) = Undef.
Proof. split; vm_compute; reflexivity. Qed.

(** A number of [intinf] of 78 digits is cut to the 63 characters left, but all 78 are counted. *)
Definition intinf_formatter (size x : Z) : outcome (list ascii * Z) :=
  Ret (iinf_to_buf size {| lo := x mod 2 ^ 128; hi := x / 2 ^ 128 |}).
Example iinf_overrun :
  toStringText plenty intinf_formatter 40 (vec_of [2 ^ 255 - 1; 0]) = Undef ∧
  joinText plenty intinf_formatter 40 (chars ",") (vec_of [2 ^ 255 - 1]) = Undef.
Proof. split; vm_compute; reflexivity. Qed.

(** The least number of 128 bits is negated, which overflows. *)
Example i128_least : i128_to_buf 64 (k_min i128) = Undef.
Proof. reflexivity. Qed.

Lemma iinf_to_buf_ok_witness :
  iinf_to_buf 80 {| lo := 1; hi := - 2 ^ 127 |} =
    (chars "-57896044618658097711785492504343953926634992332820282019728792003956564819967" ++ [NUL], 78).
Proof.
  rewrite iinf_to_buf_ok; [vm_compute; reflexivity|vm_compute; split; discriminate|lia].
Defined.
