(* ===== verification/RtString.v ===== *)
(** * Strings

    [builtins/string/string.c].  A string is its bytes; the functions read it by index and
    write their results to a new block.  A read outside of a string and a write outside of a
    block are undefined.  Lengths are unsigned numbers of 64 bits, and wrap around.  Lists of
    strings are lists: the array they are collected in, which doubles when it is full, is not
    modelled. *)

From S2P Require Import Prelude.
From S2P Require Import CxxLib.
From S2P Require Import RtVec.
From S2P Require Import RtVecText.
Local Open Scope Z_scope.

Notation bytes := (list ascii).
Definition zlen (s : bytes) : Z := Z.of_nat (length s).

(** ** Memory *)

(** [n] bytes of [s] from [i] on. *)
Definition read (s : bytes) (i n : Z) : outcome bytes :=
  if (0 <=? i) && (0 <=? n) && (i + n <=? zlen s) then Ret (take (Z.to_nat n) (drop (Z.to_nat i) s)) else Undef.

(** [memcmp(s + i, sub, subLen) == 0] *)
Definition memcmp_at (s : bytes) (i : Z) (sub : bytes) : outcome bool :=
  b ← read s i (zlen sub); Ret (bool_decide (b = sub)).

Definition char_at (s : bytes) (i : Z) : outcome ascii :=
  if 0 <=? i then match s !! Z.to_nat i with Some c => Ret c | None => Undef end else Undef.

Section strings.
Context (granted : Z → bool).

(** One [memcpy] after the other. *)
Fixpoint copies (p : option (list (option ascii))) (i : Z) (pieces : list bytes) : outcome (option (list (option ascii))) :=
  match pieces with
  | [] => Ret p
  | cs :: pieces => p ← put_cells p i cs; copies p (i + zlen cs) pieces
  end.

(** A new string of [n] bytes, with a block of one byte more for the terminating 0. *)
Definition new_string (n : Z) (pieces : list bytes) : outcome bytes :=
  p ← copies (realloc_chars granted None (to_uint64 (n + 1))) 0 pieces;
  p ← put_cell p n NUL;
  cells_text p n.

(** Where a failed allocation is answered with the empty string. *)
Definition checked_string (n : Z) (pieces : list bytes) : outcome bytes :=
  if granted (to_uint64 (n + 1)) then new_string n pieces else Ret [].

(** ** Search *)

(** [for (size_t i = from; i <= last; i++)], up to the first match. *)
Fixpoint searchLoop (fuel : nat) (s sub : bytes) (last i : Z) : outcome (option Z) :=
  if i <=? last then
    match fuel with
    | O => NoFuel
    | S fuel =>
        b ← memcmp_at s i sub;
        if b : bool then Ret (Some i) else searchLoop fuel s sub last (i + 1)
    end
  else Ret None.

Definition lucis_contains (s sub : bytes) : outcome bool :=
  if zlen sub =? 0 then Ret true else
  if zlen s <? zlen sub then Ret false else
  r ← searchLoop (S (length s)) s sub (zlen s - zlen sub) 0; Ret (bool_decide (is_Some r)).

Definition lucis_startsWith (s prefix : bytes) : outcome bool :=
  if zlen s <? zlen prefix then Ret false else memcmp_at s 0 prefix.

Definition lucis_endsWith (s suffix : bytes) : outcome bool :=
  if zlen s <? zlen suffix then Ret false else memcmp_at s (zlen s - zlen suffix) suffix.

Definition lucis_indexOf (s sub : bytes) : outcome Z :=
  if zlen sub =? 0 then Ret 0 else
  if zlen s <? zlen sub then Ret (-1) else
  r ← searchLoop (S (length s)) s sub (zlen s - zlen sub) 0; Ret (default (-1) r).

(** [for (size_t i = n; ; i--)], down to 0. *)
Fixpoint searchBack (s sub : bytes) (n : nat) : outcome Z :=
  b ← memcmp_at s (Z.of_nat n) sub;
  if b : bool then Ret (Z.of_nat n) else match n with O => Ret (-1) | S n => searchBack s sub n end.

Definition lucis_lastIndexOf (s sub : bytes) : outcome Z :=
  if zlen sub =? 0 then Ret (zlen s) else
  if zlen s <? zlen sub then Ret (-1) else
  searchBack s sub (length s - length sub).

(** The loop of [lucis_count] and [lucis_replace]; a match is skipped. *)
Fixpoint countLoop (fuel : nat) (s sub : bytes) (last i count : Z) : outcome Z :=
  if i <=? last then
    match fuel with
    | O => NoFuel
    | S fuel =>
        b ← memcmp_at s i sub;
        if b : bool then countLoop fuel s sub last (i + (zlen sub - 1) + 1) (count + 1)
        else countLoop fuel s sub last (i + 1) count
    end
  else Ret count.

Definition lucis_count (s sub : bytes) : outcome Z :=
  if zlen sub =? 0 then Ret 0 else
  if zlen s <? zlen sub then Ret 0 else
  countLoop (S (length s)) s sub (zlen s - zlen sub) 0 0.

(** ** Transformation *)

Definition toupper (c : ascii) : ascii :=
  if (97 <=? code c) && (code c <=? 122) then ascii_of_N (N_of_ascii c - 32) else c.

Definition lucis_toUpper (s : bytes) : outcome bytes := new_string (zlen s) [toupper <$> s].
Definition lucis_toLower (s : bytes) : outcome bytes := new_string (zlen s) [tolower <$> s].

(** [while (start < end && p(s[start])) start++] *)
Fixpoint skipFront (p : ascii → bool) (s : bytes) (n : nat) (start : Z) : outcome Z :=
  match n with
  | O => Ret start
  | S n => c ← char_at s start; if p c then skipFront p s n (start + 1) else Ret start
  end.

(** [while (end > start && p(s[end - 1])) end--] *)
Fixpoint skipBack (p : ascii → bool) (s : bytes) (n : nat) (stop : Z) : outcome Z :=
  match n with
  | O => Ret stop
  | S n => c ← char_at s (stop - 1); if p c then skipBack p s n (stop - 1) else Ret stop
  end.

Definition trimmed (p : ascii → bool) (s : bytes) (mk : Z → list bytes → outcome bytes) : outcome bytes :=
  start ← skipFront p s (length s) 0;
  stop ← skipBack p s (Z.to_nat (zlen s - start)) (zlen s);
  piece ← read s start (stop - start);
  mk (stop - start) [piece].

Definition lucis_trim (s : bytes) : outcome bytes := trimmed is_space s new_string.
Definition lucis_trimChar (s : bytes) (ch : ascii) : outcome bytes :=
  trimmed (λ c, bool_decide (c = ch)) s checked_string.

Definition lucis_trimLeft (s : bytes) : outcome bytes :=
  start ← skipFront is_space s (length s) 0;
  piece ← read s start (zlen s - start); new_string (zlen s - start) [piece].

Definition lucis_trimRight (s : bytes) : outcome bytes :=
  stop ← skipBack is_space s (length s) (zlen s);
  piece ← read s 0 stop; new_string stop [piece].

(** [for (i < sLen;)] of [lucis_replace]. *)
Fixpoint replaceLoop (fuel : nat) (s old rep : bytes) (i : Z) (p : option (list (option ascii))) (wi : Z)
    : outcome (option (list (option ascii))) :=
  if i <? zlen s then
    match fuel with
    | O => NoFuel
    | S fuel =>
        b ← (if i <=? to_uint64 (zlen s - zlen old) then memcmp_at s i old else Ret false);
        if b : bool then
          p ← put_cells p wi rep; replaceLoop fuel s old rep (i + zlen old) p (wi + zlen rep)
        else
          c ← char_at s i; p ← put_cell p wi c; replaceLoop fuel s old rep (i + 1) p (wi + 1)
    end
  else Ret p.

Definition lucis_replace (s old rep : bytes) : outcome bytes :=
  if zlen old =? 0 then new_string (zlen s) [s] else
  cnt ← countLoop (S (length s)) s old (to_uint64 (zlen s - zlen old)) 0 0;
  if cnt =? 0 then new_string (zlen s) [s] else
  let newLen := to_uint64 (zlen s + cnt * (zlen rep - zlen old)) in
  p ← replaceLoop (S (length s)) s old rep 0 (realloc_chars granted None (to_uint64 (newLen + 1))) 0;
  p ← put_cell p newLen NUL;
  cells_text p newLen.

Definition lucis_replaceFirst (s old rep : bytes) : outcome bytes :=
  if (zlen old =? 0) || (zlen s <? zlen old) then new_string (zlen s) [s] else
  r ← searchLoop (S (length s)) s old (zlen s - zlen old) 0;
  match r with
  | None => new_string (zlen s) [s]
  | Some pos =>
      before ← read s 0 pos;
      after ← read s (pos + zlen old) (zlen s - pos - zlen old);
      new_string (to_uint64 (zlen s - zlen old + zlen rep)) [before; rep; after]
  end.

Definition lucis_repeat (s : bytes) (n : Z) : outcome bytes :=
  new_string (to_uint64 (zlen s * n)) (replicate (Z.to_nat n) s).

Definition lucis_reverse (s : bytes) : outcome bytes := new_string (zlen s) [reverse s].

Definition lucis_padLeft (s : bytes) (width : Z) (fill : ascii) : outcome bytes :=
  if width <=? zlen s then new_string (zlen s) [s]
  else new_string width [replicate (Z.to_nat (width - zlen s)) fill; s].

Definition lucis_padRight (s : bytes) (width : Z) (fill : ascii) : outcome bytes :=
  if width <=? zlen s then new_string (zlen s) [s]
  else new_string width [s; replicate (Z.to_nat (width - zlen s)) fill].

(** ** Extraction *)

Definition lucis_substring (s : bytes) (start length : Z) : outcome bytes :=
  if zlen s <=? start then new_string 0 [] else
  let length := if zlen s <? to_uint64 (start + length) then zlen s - start else length in
  piece ← read s start length; new_string length [piece].

Definition lucis_charAt (s : bytes) (index : Z) : outcome ascii :=
  if zlen s <=? index then Ret NUL else char_at s index.

Definition lucis_slice (s : bytes) (start stop : Z) : outcome bytes :=
  start ← (if start <? 0 then add64 (to_int64 (zlen s)) start else Ret start);
  stop ← (if stop <? 0 then add64 (to_int64 (zlen s)) stop else Ret stop);
  let start := if start <? 0 then 0 else start in
  let stop := if to_int64 (zlen s) <? stop then to_int64 (zlen s) else stop in
  if stop <=? start then new_string 0 [] else
  piece ← read s start (stop - start); new_string (stop - start) [piece].

(** ** Editing *)

Definition lucis_removePrefix (s prefix : bytes) : outcome bytes :=
  b ← (if zlen prefix <=? zlen s then memcmp_at s 0 prefix else Ret false);
  if b : bool then
    piece ← read s (zlen prefix) (zlen s - zlen prefix); checked_string (zlen s - zlen prefix) [piece]
  else checked_string (zlen s) [s].

Definition lucis_removeSuffix (s suffix : bytes) : outcome bytes :=
  b ← (if zlen suffix <=? zlen s then memcmp_at s (zlen s - zlen suffix) suffix else Ret false);
  if b : bool then
    piece ← read s 0 (zlen s - zlen suffix); checked_string (zlen s - zlen suffix) [piece]
  else checked_string (zlen s) [s].

Definition lucis_strInsert (s : bytes) (pos : Z) (ins : bytes) : outcome bytes :=
  let pos := if zlen s <? pos then zlen s else pos in
  before ← read s 0 pos; after ← read s pos (zlen s - pos);
  checked_string (to_uint64 (zlen s + zlen ins)) [before; ins; after].

Definition lucis_strRemove (s : bytes) (start count : Z) : outcome bytes :=
  if zlen s <=? start then Ret s else
  let count := if zlen s <? to_uint64 (start + count) then zlen s - start else count in
  let newLen := to_uint64 (zlen s - count) in
  if granted (to_uint64 (newLen + 1)) then
    before ← read s 0 start;
    after ← read s (start + count) (to_uint64 (zlen s - start - count));
    new_string newLen [before; after]
  else Ret [].

Definition lucis_concat (a b : bytes) : outcome bytes := checked_string (to_uint64 (zlen a + zlen b)) [a; b].

(** ** Comparison *)

(** [memcmp] of the first [n] bytes, as unsigned numbers. *)
Fixpoint memcmp (a b : bytes) (n : nat) {struct n} : outcome Z :=
  match n with
  | O => Ret 0
  | S n =>
      match a, b with
      | x :: a, y :: b => if code x =? code y then memcmp a b n else Ret (code x - code y)
      | _, _ => Undef
      end
  end.

Definition lucis_compareTo (a b : bytes) : outcome Z :=
  let minLen := if zlen a <? zlen b then zlen a else zlen b in
  cmp ← memcmp a b (Z.to_nat minLen);
  Ret (if negb (cmp =? 0) then (if cmp <? 0 then -1 else 1)
       else if zlen a <? zlen b then -1 else if zlen b <? zlen a then 1 else 0).

(** ** Lists of strings *)

(** The loop of [lucis_split] for a non-empty delimiter. *)
Fixpoint splitLoop (fuel : nat) (s delim : bytes) (start : Z) : outcome (list bytes) :=
  if start <=? zlen s then
    match fuel with
    | O => NoFuel
    | S fuel =>
        found ← searchLoop (S (length s)) s delim (zlen s - zlen delim) start;
        let stop := default (zlen s) found in
        piece ← read s start (stop - start);
        part ← new_string (stop - start) [piece];
        match found with
        | None => Ret [part]
        | Some _ => parts ← splitLoop fuel s delim (stop + zlen delim); Ret (part :: parts)
        end
    end
  else Ret [].

Fixpoint splitChars (s : bytes) : list bytes := match s with [] => [] | c :: s => [c] :: splitChars s end.

Definition lucis_split (s delim : bytes) : outcome (list bytes) :=
  if zlen delim =? 0 then Ret (splitChars s) else splitLoop (S (length s)) s delim 0.

(** The pieces [lucis_joinVec] copies. *)
Fixpoint joinPieces (first : bool) (sep : bytes) (l : list bytes) : list bytes :=
  match l with
  | [] => []
  | x :: l => (if negb first && (0 <? zlen sep) then [sep] else []) ++ x :: joinPieces false sep l
  end.

Definition lucis_joinVec (l : list bytes) (sep : bytes) : outcome bytes :=
  match l with
  | [] => new_string 0 []
  | _ =>
      let total := to_uint64 (foldr (λ x acc, zlen x + acc) 0 l + zlen sep * (Z.of_nat (length l) - 1)) in
      new_string total (joinPieces true sep l)
  end.

(** [lucis_lines]: [start] is behind the last line break, [i] the next character. *)
Fixpoint linesLoop (s : bytes) (n : nat) (start i : Z) : outcome (list bytes) :=
  at_end ← (if i =? zlen s then Ret true else c ← char_at s i; Ret (bool_decide (c = "010"%char)));
  let next start := match n with O => Ret [] | S n => linesLoop s n start (i + 1) end in
  if at_end : bool then
    cr ← (if start <? i then c ← char_at s (i - 1); Ret (bool_decide (c = "013"%char)) else Ret false);
    let stop := if cr : bool then i - 1 else i in
    piece ← read s start (stop - start);
    part ← new_string (stop - start) [piece];
    parts ← next (i + 1); Ret (part :: parts)
  else next start.

Definition lucis_lines (s : bytes) : outcome (list bytes) := linesLoop s (length s) 0 0.

(** [while (start <= sLen && count < maxParts - 1)] of [lucis_splitN]. *)
Fixpoint splitNLoop (n : nat) (s delim : bytes) (start : Z) : outcome (list bytes) :=
  let rest :=
    piece ← read s start (zlen s - start); part ← new_string (zlen s - start) [piece]; Ret [part] in
  match n with
  | O => rest
  | S n =>
      if start <=? zlen s then
        found ← searchLoop (S (length s)) s delim (zlen s - zlen delim) start;
        match found with
        | None => rest
        | Some stop =>
            piece ← read s start (stop - start);
            part ← new_string (stop - start) [piece];
            parts ← splitNLoop n s delim (stop + zlen delim); Ret (part :: parts)
        end
      else rest
  end.

Definition lucis_splitN (s delim : bytes) (maxParts : nat) : outcome (list bytes) :=
  match maxParts with O => Ret [] | S n => splitNLoop n s delim 0 end.

(** [while (i < sLen)] of [lucis_words]. *)
Fixpoint wordsLoop (fuel : nat) (s : bytes) (i : Z) : outcome (list bytes) :=
  start ← skipFront is_space s (Z.to_nat (zlen s - i)) i;
  if zlen s <=? start then Ret [] else
  match fuel with
  | O => NoFuel
  | S fuel =>
      i ← skipFront (λ c, negb (is_space c)) s (Z.to_nat (zlen s - start)) start;
      piece ← read s start (i - start);
      word ← new_string (i - start) [piece];
      words ← wordsLoop fuel s i; Ret (word :: words)
  end.

Definition lucis_words (s : bytes) : outcome (list bytes) := wordsLoop (length s) s 0.

Definition lucis_capitalize (s : bytes) : outcome bytes :=
  match s with [] => Ret [] | c :: t => checked_string (zlen s) [toupper c :: t] end.
End strings.

(** ** Tests *)

Definition is_digit (c : ascii) : bool := (48 <=? code c) && (code c <=? 57).
Definition is_upper (c : ascii) : bool := (65 <=? code c) && (code c <=? 90).
Definition is_lower (c : ascii) : bool := (97 <=? code c) && (code c <=? 122).

Definition lucis_equalsIgnoreCase (a b : bytes) : bool :=
  if negb (zlen a =? zlen b) then false
  else forallb (λ p, bool_decide (tolower p.1 = tolower p.2)) (zip a b).

Definition nonempty_all (p : ascii → bool) (s : bytes) : bool := if zlen s =? 0 then false else forallb p s.

Definition lucis_strIsNumeric (s : bytes) : bool := nonempty_all is_digit s.
Definition lucis_strIsAlpha (s : bytes) : bool := nonempty_all is_alpha s.
Definition lucis_strIsAlphaNum (s : bytes) : bool := nonempty_all (λ c, is_alpha c || is_digit c) s.
Definition lucis_strIsUpper (s : bytes) : bool := nonempty_all (λ c, negb (is_alpha c && negb (is_upper c))) s.
Definition lucis_strIsLower (s : bytes) : bool := nonempty_all (λ c, negb (is_alpha c && negb (is_lower c))) s.
Definition lucis_strIsBlank (s : bytes) : bool := forallb is_space s.

Definition lucis_strToBool (s : bytes) : bool :=
  bool_decide (s = ["t"; "r"; "u"; "e"]%char) || bool_decide (s = ["1"]%char).

(** ** Blocks *)

(** The block of [size] bytes starts with these. *)
Definition built (p : option (list (option ascii))) (size : nat) (cs : bytes) : Prop :=
  ∃ d, p = Some d ∧ length d = size ∧ ∀ j c, cs !! j = Some c → d !! j = Some (Some c).

Lemma put_cells_built p size cs cs' : built p size cs → (length cs + length cs' ≤ size)%nat →
  ∃ p', put_cells p (zlen cs) cs' = Ret p' ∧ built p' size (cs ++ cs').
Proof.
  intros (d & -> & Hl & Hd) Hs. destruct (put_cells_ok cs' d (length cs)) as (d' & E & Hl' & Hd'); [lia|].
  exists (Some d'). split; [done|]. exists d'. split_and!; [done|lia|]. intros j c. rewrite Hd', lookup_app_Some.
  intros [Hj|[Hj Hc]]; apply lookup_lt_Some in Hj as Hlt || apply lookup_lt_Some in Hc as Hlt.
  - rewrite decide_False by lia. by apply Hd.
  - rewrite decide_True by lia. by rewrite Hc.
Qed.

Lemma put_cell_built p size cs c : built p size cs → (length cs < size)%nat →
  ∃ p', put_cell p (zlen cs) c = Ret p' ∧ built p' size (cs ++ [c]).
Proof.
  intros Hb Hs. destruct (put_cells_built p size cs [c] Hb) as (p' & E & Hb'); [simpl; lia|].
  exists p'. split; [|done]. cbn [put_cells] in E. by apply outcome_bind_inv in E as (p'' & -> & [= ->]).
Qed.

Lemma copies_built size pieces : ∀ p cs, built p size cs → (length cs + length (mjoin pieces) ≤ size)%nat →
  ∃ p', copies p (zlen cs) pieces = Ret p' ∧ built p' size (cs ++ mjoin pieces).
Proof.
  induction pieces as [|x pieces IH]; intros p cs Hb Hs; cbn [copies].
  { exists p. change (mjoin []) with (@nil ascii). by rewrite app_nil_r. }
  change (mjoin (x :: pieces)) with (x ++ mjoin pieces) in *. rewrite length_app in Hs.
  destruct (put_cells_built p size cs x Hb) as (p1 & -> & Hb1); [lia|]. rewrite outcome_bind_ret.
  unfold zlen. rewrite <-Nat2Z.inj_add, <-length_app. fold (zlen (cs ++ x)).
  destruct (IH p1 (cs ++ x) Hb1) as (p2 & -> & Hb2); [rewrite length_app; lia|].
  exists p2. by rewrite <-app_assoc in Hb2.
Qed.

Lemma built_text p size cs : built p size cs → cells_text p (zlen cs) = Ret cs.
Proof.
  intros (d & -> & Hl & Hd). unfold cells_text, zlen. rewrite Nat2Z.id.
  assert (E : take (length cs) d = Some <$> cs).
  { apply list_eq. intros j. rewrite list_lookup_fmap. destruct (decide (j < length cs)%nat) as [Hj|Hj].
    - destruct (lookup_lt_is_Some_2 cs j Hj) as [c Hcj]. by rewrite lookup_take_lt, Hcj, (Hd j c) by done.
    - rewrite !lookup_ge_None_2; [done|lia|]. rewrite length_take. lia. }
  rewrite E. replace (mapM id (Some <$> cs)) with (Some cs); [by rewrite Z.eqb_refl|].
  clear. induction cs as [|c cs IH]; [done|]. cbn [fmap list_fmap mapM]. by rewrite <-IH.
Qed.

Lemma finished p size cs : built p size cs → (length cs < size)%nat →
  (p ← put_cell p (zlen cs) NUL; cells_text p (zlen cs)) = Ret cs.
Proof.
  intros Hb Hs. destruct (put_cell_built p size cs NUL Hb Hs) as (p' & -> & (d & -> & Hl & Hd)). rewrite outcome_bind_ret.
  apply (built_text _ size). exists d. split_and!; [done..|]. intros j c Hj. apply Hd. by apply lookup_app_l_Some.
Qed.

Lemma read_ok s i n : (i + n ≤ length s)%nat → read s (Z.of_nat i) (Z.of_nat n) = Ret (take n (drop i s)).
Proof. intros H. unfold read, zlen. rewrite !(proj2 (Z.leb_le _ _)) by lia. cbn [andb]. by rewrite !Nat2Z.id. Qed.

Lemma char_at_ok s i c : s !! i = Some c → char_at s (Z.of_nat i) = Ret c.
Proof. intros H. unfold char_at. rewrite (proj2 (Z.leb_le _ _)) by lia. by rewrite Nat2Z.id, H. Qed.

(** ** Occurrences *)

Definition occurs (s sub : bytes) (i : nat) : Prop := (i + length sub ≤ length s)%nat ∧ take (length sub) (drop i s) = sub.

Lemma occurs_app s sub i : occurs s sub i ↔ ∃ pre post, s = pre ++ sub ++ post ∧ length pre = i.
Proof.
  unfold occurs. split.
  - intros [Hi E]. exists (take i s), (drop (i + length sub) s). rewrite length_take. split; [|lia].
    rewrite <-E at 1. rewrite <-drop_drop. by rewrite !take_drop.
  - intros (pre & post & -> & <-). rewrite !length_app, drop_app_length, take_app_length. split; [lia|done].
Qed.

Lemma occurs_0 s sub : occurs s sub 0 ↔ sub `prefix_of` s.
Proof.
  rewrite occurs_app. split.
  - intros (pre & post & -> & Hp). destruct pre; [|done]. by eexists.
  - intros [post ->]. by exists [], post.
Qed.

Lemma occurs_drop s sub i k : occurs (drop i s) sub k ↔ (i ≤ length s)%nat ∧ occurs s sub (i + k) ∨ (length s < i)%nat ∧ sub = [] ∧ k = 0%nat.
Proof.
  unfold occurs. rewrite drop_drop, length_drop. destruct (decide (i ≤ length s)%nat).
  - split; [intros [? ?]; left; split_and!; [done|lia|done]|]. intros [(_ & ? & ?)|(? & _)]; [split; [lia|done]|lia].
  - split.
    + intros [Hk E]. right. split; [lia|]. rewrite (drop_ge s) in E by lia. rewrite take_nil in E. split; [done|lia].
    + intros [(? & _)|(_ & -> & ->)]; [lia|]. split; [simpl; lia|]. by rewrite take_0.
Qed.

Lemma memcmp_at_ok s sub i : (i + length sub ≤ length s)%nat →
  ∃ b, memcmp_at s (Z.of_nat i) sub = Ret b ∧ (b = true ↔ occurs s sub i).
Proof.
  intros H. unfold memcmp_at, zlen at 1. rewrite read_ok by done. rewrite outcome_bind_ret. eexists. split; [done|].
  rewrite bool_decide_eq_true. unfold occurs. tauto.
Qed.

Lemma searchLoop_ok s sub fuel : ∀ i, (length s < i + fuel)%nat →
  ∃ r, searchLoop fuel s sub (zlen s - zlen sub) (Z.of_nat i) = Ret r ∧
  match r with
  | Some z => ∃ j, z = Z.of_nat j ∧ (i ≤ j)%nat ∧ occurs s sub j ∧ ∀ k, (i ≤ k < j)%nat → ¬ occurs s sub k
  | None => ∀ k, (i ≤ k)%nat → ¬ occurs s sub k
  end.
Proof.
  unfold zlen. induction fuel as [|fuel IH]; intros i Hf; cbn [searchLoop]; destruct (Z.leb_spec (Z.of_nat i) (Z.of_nat (length s) - Z.of_nat (length sub))).
  - lia.
  - exists None. split; [done|]. intros k Hk [Ho _]. lia.
  - destruct (memcmp_at_ok s sub i) as (b & -> & Hb); [lia|]. rewrite outcome_bind_ret. destruct b.
    + exists (Some (Z.of_nat i)). split; [done|]. exists i. split_and!; [done|lia|by apply Hb|lia].
    + replace (Z.of_nat i + 1) with (Z.of_nat (S i)) by lia. destruct (IH (S i)) as (r & -> & Hr); [lia|].
      assert (Hi : ¬ occurs s sub i) by (intros Ho; by apply Hb in Ho).
      exists r. split; [done|]. destruct r as [z|].
      * destruct Hr as (j & -> & Hj & Ho & Hm). exists j. split_and!; [done|lia|done|]. intros k Hk.
        destruct (decide (k = i)) as [->|]; [done|]. apply Hm. lia.
      * intros k Hk. destruct (decide (k = i)) as [->|]; [done|]. apply Hr. lia.
  - exists None. split; [done|]. intros k Hk [Ho _]. lia.
Qed.

Lemma searchBack_ok s sub n : (n + length sub ≤ length s)%nat →
  ∃ r, searchBack s sub n = Ret r ∧
  ((r = -1 ∧ ∀ k, (k ≤ n)%nat → ¬ occurs s sub k) ∨
   ∃ j, r = Z.of_nat j ∧ (j ≤ n)%nat ∧ occurs s sub j ∧ ∀ k, (j < k ≤ n)%nat → ¬ occurs s sub k).
Proof.
  induction n as [|n IH]; intros Hn; cbn [searchBack]; destruct (memcmp_at_ok s sub _ Hn) as (b & E & Hb);
    rewrite E, outcome_bind_ret; destruct b.
  - exists 0. split; [done|]. right. exists 0%nat. split_and!; [done|lia|by apply Hb|lia].
  - exists (-1). split; [done|]. left. split; [done|]. intros k Hk. assert (k = 0%nat) as -> by lia.
    intros Ho. by apply Hb in Ho.
  - eexists. split; [done|]. right. exists (S n). split_and!; [done|lia|by apply Hb|lia].
  - destruct IH as (r & -> & Hr); [lia|]. exists r. split; [done|].
    assert (Hi : ¬ occurs s sub (S n)) by (intros Ho; by apply Hb in Ho).
    destruct Hr as [[-> Hm]|(j & -> & Hj & Ho & Hm)]; [left|right].
    + split; [done|]. intros k Hk. destruct (decide (k = S n)) as [->|]; [done|]. apply Hm. lia.
    + exists j. split_and!; [done|lia|done|]. intros k Hk. destruct (decide (k = S n)) as [->|]; [done|]. apply Hm. lia.
Qed.

(** ** Splitting *)

(** The pieces between the occurrences of [sub], found from the left without overlaps. *)
Fixpoint pieces (fuel : nat) (sub t : bytes) : list bytes :=
  match fuel with
  | O => [t]
  | S fuel =>
      if bool_decide (take (length sub) t = sub) then [] :: pieces fuel sub (drop (length sub) t) else
      match t with
      | [] => [[]]
      | c :: t => match pieces fuel sub t with p :: ps => (c :: p) :: ps | [] => [] end
      end
  end.
Definition split_on (sub s : bytes) : list bytes := pieces (S (length s)) sub s.

Definition join (sep : bytes) (l : list bytes) : bytes :=
  match l with [] => [] | p :: ps => p ++ (q ← ps; sep ++ q) end.

Section sub.
Context (sub : bytes) (Hsub : sub ≠ []).

Inductive pieces_of : bytes → list bytes → Prop :=
| po_end : pieces_of [] [[]]
| po_match t ps : pieces_of t ps → pieces_of (sub ++ t) ([] :: ps)
| po_char c t p ps : ¬ sub `prefix_of` c :: t → pieces_of t (p :: ps) → pieces_of (c :: t) ((c :: p) :: ps).

Lemma take_prefix t : take (length sub) t = sub ↔ sub `prefix_of` t.
Proof.
  split.
  - intros E. exists (drop (length sub) t). by rewrite <-E at 1; rewrite take_drop.
  - intros [t' ->]. by rewrite take_app_length.
Qed.

Lemma pieces_of_cons t ps : pieces_of t ps → ∃ p ps', ps = p :: ps' ∧ p `prefix_of` t.
Proof.
  induction 1 as [|t ps _ _|c t p ps Hn _ IH].
  - by exists [], [].
  - exists [], ps. split; [done|apply prefix_nil].
  - destruct IH as (p' & ps' & [= -> ->] & Hp). exists (c :: p'), ps'. split; [done|by apply prefix_cons].
Qed.

Lemma pieces_ok fuel : ∀ t, (length t < fuel)%nat → pieces_of t (pieces fuel sub t).
Proof.
  assert (Hl : (0 < length sub)%nat) by (destruct sub; simpl; [done|lia]).
  induction fuel as [|fuel IH]; intros t Hf; [lia|]. cbn [pieces]. case_bool_decide as E.
  - rewrite <-(take_drop (length sub) t) at 1. rewrite E. apply po_match, IH. apply (f_equal length) in E. rewrite length_take in E. rewrite length_drop. lia.
  - rewrite take_prefix in E. destruct t as [|c t]; [constructor|]. simpl in Hf.
    specialize (IH t ltac:(lia)). destruct (pieces_of_cons _ _ IH) as (p & ps & Ep & _). rewrite Ep in *. by constructor.
Qed.

Lemma split_on_ok s : pieces_of s (split_on sub s).
Proof. apply pieces_ok. lia. Qed.

Lemma pieces_of_det t ps ps' : pieces_of t ps → pieces_of t ps' → ps = ps'.
Proof.
  intros H. revert ps'. induction H as [|t ps _ IH|c t p ps Hn _ IH]; intros ps' H'.
  - inversion H' as [|t' ps'' H'' E|]; [done|]. by apply app_nil in E as [? _].
  - inversion H' as [E|t' ps'' H'' E|c' t' p' ps'' Hn' H'' E].
    + symmetry in E. by apply app_nil in E as [? _].
    + apply app_inv_head in E as ->. f_equal. by apply IH.
    + exfalso. apply Hn'. rewrite E. by eexists.
  - inversion H' as [|t' ps'' H'' E|c' t' p' ps'' Hn' H'' E]; subst.
    + exfalso. apply Hn. rewrite <-E. by eexists.
    + specialize (IH _ H''). congruence.
Qed.

Lemma join_cons sep c p ps : join sep ((c :: p) :: ps) = c :: join sep (p :: ps).
Proof. done. Qed.

Lemma join_nil_cons sep ps : ps ≠ [] → join sep ([] :: ps) = sep ++ join sep ps.
Proof. destruct ps as [|p ps]; [done|]. intros _. cbn. by rewrite <-app_assoc. Qed.

Lemma pieces_of_nonempty t ps : pieces_of t ps → ps ≠ [].
Proof. intros H. by destruct (pieces_of_cons t ps H) as (p & ps' & -> & _). Qed.

(** Joining gives the string back. *)
Lemma pieces_of_join t ps : pieces_of t ps → join sub ps = t.
Proof.
  induction 1 as [|t ps H IH|c t p ps Hn H IH]; [done| |].
  - rewrite join_nil_cons, IH; [done|by eapply pieces_of_nonempty].
  - by rewrite join_cons, IH.
Qed.

(** No piece contains the separator. *)
Lemma pieces_of_free t ps : pieces_of t ps → Forall (λ p, ∀ k, ¬ occurs p sub k) ps.
Proof.
  assert (Hnil : ∀ k, ¬ occurs [] sub k).
  { intros k [Hk _]. simpl in Hk. assert (length sub = 0)%nat by lia. by apply Hsub, nil_length_inv. }
  induction 1 as [|t ps H IH|c t p ps Hn H IH].
  - by repeat constructor.
  - by constructor.
  - inversion_clear IH as [|? ? Hp Hps]. constructor; [|done]. intros [|k] Ho.
    + apply occurs_0 in Ho. destruct (pieces_of_cons _ _ H) as (p' & ps' & [= <- <-] & Hpre).
      apply Hn. etrans; [exact Ho|]. by apply prefix_cons.
    + apply (Hp k). destruct Ho as [Ho1 Ho2]. simpl in *. split; [lia|done].
Qed.

(** From the first occurrence to the pieces. *)
Lemma pieces_of_none t : (∀ k, ¬ occurs t sub k) → pieces_of t [t].
Proof.
  induction t as [|c t IH]; intros Ho; [constructor|]. constructor.
  - intros Hp. by apply (Ho 0%nat), occurs_0.
  - apply IH. intros k [Hk1 Hk2]. apply (Ho (S k)). split; simpl; [lia|done].
Qed.

Lemma pieces_of_first k : ∀ t ps, occurs t sub k → (∀ i, (i < k)%nat → ¬ occurs t sub i) →
  pieces_of (drop (k + length sub) t) ps → pieces_of t (take k t :: ps).
Proof.
  induction k as [|k IH]; intros t ps Ho Hm Hp.
  - apply occurs_0 in Ho as [t' ->]. rewrite take_0. cbn in Hp. rewrite drop_app_length in Hp. by constructor.
  - destruct t as [|c t]; [destruct Ho as [Ho _]; simpl in Ho; lia|]. cbn. constructor.
    + intros Hpre. by apply (Hm 0%nat); [lia|apply occurs_0].
    + apply IH; [|intros i Hi Hoi; apply (Hm (S i)); [lia|]|done].
      * destruct Ho as [Ho1 Ho2]. split; simpl in *; [lia|done].
      * destruct Hoi as [Ho1 Ho2]. split; simpl in *; [lia|done].
Qed.

(** Without the separator, at least as long. *)
Lemma pieces_of_short t ps : pieces_of t ps → (length t < length sub)%nat → ps = [t].
Proof.
  intros H Hl. apply (pieces_of_det t); [done|]. apply pieces_of_none. intros k [Hk _]. lia.
Qed.

Lemma prefix_occurs s i : (i ≤ length s)%nat → (sub `prefix_of` drop i s ↔ occurs s sub i).
Proof. intros Hi. rewrite <-occurs_0, occurs_drop, Nat.add_0_r. split; [intros [[_ H]|[? _]]; [done|lia]|intros; by left]. Qed.

(** *** The loop that counts *)

Lemma countLoop_ok s fuel : ∀ i count ps, (length s < i + fuel)%nat → (length sub ≤ length s)%nat → (i ≤ length s)%nat →
  pieces_of (drop i s) ps →
  countLoop fuel s sub (zlen s - zlen sub) (Z.of_nat i) count = Ret (count + Z.of_nat (length ps) - 1).
Proof.
  assert (Hl : (0 < length sub)%nat) by (destruct sub; simpl; [done|lia]). unfold zlen.
  induction fuel as [|fuel IH]; intros i count ps Hf Hs Hi Hp; [lia|]. cbn [countLoop].
  destruct (Z.leb_spec (Z.of_nat i) (Z.of_nat (length s) - Z.of_nat (length sub))) as [Hle|Hgt].
  - destruct (memcmp_at_ok s sub i) as (b & -> & Hb); [lia|]. rewrite outcome_bind_ret.
    rewrite <-(prefix_occurs s i) in Hb by lia. destruct b.
    + destruct Hb as [[t Et] _]; [done|]. unfold zlen.
      replace (Z.of_nat i + (Z.of_nat (length sub) - 1) + 1) with (Z.of_nat (i + length sub)) by lia.
      assert (Ed : drop (i + length sub) s = t) by (rewrite <-drop_drop, Et; apply drop_app_length).
      rewrite Et in Hp. inversion Hp as [E|t' ps' Hp' E|c t' p ps' Hn Hp' E].
      * symmetry in E. apply app_nil in E as [? _]. done.
      * apply app_inv_head in E as ->. rewrite (IH _ _ ps'); [cbn [length]; f_equal; lia|lia|done|lia|by rewrite Ed].
      * exfalso. apply Hn. rewrite E. by eexists.
    + replace (Z.of_nat i + 1) with (Z.of_nat (S i)) by lia.
      destruct (lookup_lt_is_Some_2 s i) as [c Hc]; [lia|]. rewrite (drop_S s c i Hc) in Hp, Hb.
      inversion Hp as [|t' ps' Hp' E|c' t' p ps' Hn Hp' E]; subst.
      * exfalso. apply Bool.diff_false_true, Hb. rewrite <-E. by eexists.
      * rewrite (IH _ _ (p :: ps')); [done|lia|done|lia|done].
  - rewrite (pieces_of_short _ ps Hp) by (rewrite length_drop; lia). cbn [length]. f_equal. lia.
Qed.
End sub.

(** ** What the functions do *)

(** [b] says whether, and [i] where. *)
Definition contains (s sub : bytes) : Prop := ∃ pre post, s = pre ++ sub ++ post.

Lemma contains_occurs s sub : contains s sub ↔ ∃ i, occurs s sub i.
Proof. setoid_rewrite occurs_app. unfold contains. naive_solver. Qed.

Lemma occurs_nil s i : (i ≤ length s)%nat → occurs s [] i.
Proof. intros Hi. split; simpl; [lia|done]. Qed.

Lemma too_long s sub i : (length s < length sub)%nat → ¬ occurs s sub i.
Proof. intros Hl [Hi _]. lia. Qed.

(** The searches terminate without reading outside of the string, and are right:
    [contains] says whether the string is made of something, the sought string, and
    something; [indexOf] is the least and [lastIndexOf] the greatest position where it occurs,
    or -1; [startsWith] and [endsWith] ask for the two ends. *)
Lemma search_spec s sub :
  (∃ b, lucis_contains s sub = Ret b ∧ (b = true ↔ contains s sub)) ∧
  (∃ b, lucis_startsWith s sub = Ret b ∧ (b = true ↔ sub `prefix_of` s)) ∧
  (∃ b, lucis_endsWith s sub = Ret b ∧ (b = true ↔ sub `suffix_of` s)) ∧
  (∃ z, lucis_indexOf s sub = Ret z ∧
    ((z = -1 ∧ ¬ contains s sub) ∨
     ∃ i, z = Z.of_nat i ∧ occurs s sub i ∧ ∀ k, (k < i)%nat → ¬ occurs s sub k)) ∧
  ∃ z, lucis_lastIndexOf s sub = Ret z ∧
    ((z = -1 ∧ ¬ contains s sub) ∨
     ∃ i, z = Z.of_nat i ∧ occurs s sub i ∧ ∀ k, (i < k)%nat → ¬ occurs s sub k).
Proof.
  setoid_rewrite contains_occurs. unfold lucis_contains, lucis_startsWith, lucis_endsWith, lucis_indexOf, lucis_lastIndexOf.
  assert (Hends : ∀ i, (i + length sub ≤ length s)%nat → occurs s sub i → (i + length sub = length s)%nat → sub `suffix_of` s).
  { intros i _ [pre [post [-> Hp]]]%occurs_app Hi. rewrite !length_app in Hi. destruct post; [|simpl in Hi; lia].
    rewrite app_nil_r. by exists pre. }
  assert (Hzs : zlen sub = Z.of_nat (length sub)) by done. assert (Hz : zlen s = Z.of_nat (length s)) by done.
  destruct (Z.ltb_spec (zlen s) (zlen sub)) as [Hlt|Hge].
  { assert (Hno : ∀ i, ¬ occurs s sub i) by (intros i; apply too_long; lia).
    rewrite (proj2 (Z.eqb_neq _ _)) by lia. split_and!.
    - exists false. naive_solver.
    - exists false. split; [done|]. split; [done|]. intros H%prefix_length. lia.
    - exists false. split; [done|]. split; [done|]. intros H%suffix_length. lia.
    - exists (-1). split; [done|]. left. naive_solver.
    - exists (-1). split; [done|]. left. naive_solver. }
  destruct (searchLoop_ok s sub (S (length s)) 0) as (r & E & Hr); [lia|]. change (Z.of_nat 0) with 0 in E.
  destruct (memcmp_at_ok s sub 0) as (b0 & E0 & Hb0); [lia|]. change (Z.of_nat 0) with 0 in E0.
  destruct (memcmp_at_ok s sub (length s - length sub)) as (b1 & E1 & Hb1); [lia|].
  replace (zlen s - zlen sub) with (Z.of_nat (length s - length sub)) in * by lia.
  split_and!.
  - destruct (Z.eqb_spec (zlen sub) 0) as [Hz0|].
    + exists true. split; [done|]. assert (sub = []) as -> by (apply nil_length_inv; lia).
      split; [|done]. intros _. exists 0%nat. apply occurs_nil. lia.
    + rewrite E, outcome_bind_ret. eexists. split; [done|]. rewrite bool_decide_eq_true. destruct r as [z|].
      * destruct Hr as (j & _ & _ & Hj & _). split; [by exists j|by eexists].
      * split; [by intros [??]|]. intros [k Hk]. exfalso. apply (Hr k); [lia|done].
  - exists b0. split; [done|]. by rewrite Hb0, occurs_0.
  - exists b1. split; [done|]. rewrite Hb1. split.
    + intros Ho. apply (Hends (length s - length sub)%nat); [lia|done|lia].
    + intros [pre ->]. rewrite length_app. replace (length pre + length sub - length sub)%nat with (length pre) by lia.
      apply occurs_app. exists pre, []. by rewrite app_nil_r.
  - destruct (Z.eqb_spec (zlen sub) 0) as [Hz0|].
    + exists 0. split; [done|]. right. assert (sub = []) as -> by (apply nil_length_inv; lia).
      exists 0%nat. split_and!; [done|apply occurs_nil; lia|lia].
    + rewrite E, outcome_bind_ret. eexists. split; [done|]. destruct r as [z|]; cbn [default from_option].
      * destruct Hr as (j & -> & _ & Hj & Hm). right. exists j. split_and!; [done|done|]. intros k Hk. apply Hm. lia.
      * left. split; [done|]. intros [k Hk]. apply (Hr k); [lia|done].
  - destruct (Z.eqb_spec (zlen sub) 0) as [Hz0|].
    + exists (zlen s). split; [done|]. right. assert (sub = []) as -> by (apply nil_length_inv; lia).
      exists (length s). split_and!; [done|by apply occurs_nil|]. intros k Hk [Ho _]. simpl in Ho. lia.
    + destruct (searchBack_ok s sub (length s - length sub)) as (z & -> & Hz'); [lia|]. exists z. split; [done|].
      destruct Hz' as [[-> Hm]|(j & -> & Hj & Ho & Hm)]; [left|right].
      * split; [done|]. intros [k Hk]. apply (Hm k); [|done]. destruct Hk. lia.
      * exists j. split_and!; [done|done|]. intros k Hk Hok. apply (Hm k); [|done]. destruct Hok. lia.
Qed.

Lemma mjoin_1 (s : bytes) : mjoin [s] = s.
Proof. apply app_nil_r. Qed.

Lemma mjoin_2 (s t : bytes) : mjoin [s; t] = s ++ t.
Proof. change (s ++ t ++ [] = s ++ t). by rewrite app_nil_r. Qed.

Lemma mjoin_3 (s t u : bytes) : mjoin [s; t; u] = s ++ t ++ u.
Proof. change (s ++ t ++ u ++ [] = s ++ t ++ u). by rewrite app_nil_r. Qed.

Section results.
Context (granted : Z → bool) (room : Z).
Context (Hgranted : ∀ n, 0 ≤ n ≤ room → granted n = true) (Hroom : room < 2 ^ 63).
Notation new_string := (new_string granted).

Lemma new_block n : 0 ≤ n < room → realloc_chars granted None (to_uint64 (n + 1)) = Some (replicate (Z.to_nat (n + 1)) None).
Proof.
  intros Hn. unfold realloc_chars. rewrite to_uint64_small by lia. rewrite Hgranted by lia. cbn [default from_option id].
  rewrite take_nil. cbn [app length]. by rewrite Nat.sub_0_r.
Qed.

Lemma replicate_built m : built (Some (replicate m None)) m [].
Proof. exists (replicate m None). split_and!; [done|by rewrite length_replicate|]. intros j c Hj. by rewrite lookup_nil in Hj. Qed.

Lemma new_string_ok n l : n = zlen (mjoin l) → n < room → new_string n l = Ret (mjoin l).
Proof.
  intros -> Hn. cbv delta [new_string] beta. assert (0 ≤ zlen (mjoin l)) by (unfold zlen; lia).
  rewrite new_block by lia.
  destruct (copies_built (Z.to_nat (zlen (mjoin l) + 1)) l _ [] (replicate_built _)) as (p & E & Hb).
  { unfold zlen. simpl. lia. }
  change ([] ++ mjoin l) with (mjoin l) in Hb. change (zlen []) with 0 in E. rewrite E, outcome_bind_ret.
  apply (finished p _ (mjoin l) Hb). clear - l. unfold zlen. lia.
Qed.

Lemma new_string_1 s : zlen s < room → new_string (zlen s) [s] = Ret s.
Proof. intros Hs. by rewrite new_string_ok; rewrite ?mjoin_1. Qed.

Lemma checked_string_ok n l : n = zlen (mjoin l) → n < room → checked_string granted n l = Ret (mjoin l).
Proof.
  intros -> Hn. unfold checked_string. assert (0 ≤ zlen (mjoin l)) by (unfold zlen; lia).
  rewrite to_uint64_small, Hgranted by lia. by apply new_string_ok.
Qed.

Lemma new_string_eq n l s : mjoin l = s → n = zlen s → n < room → new_string n l = Ret s.
Proof. intros <-. apply new_string_ok. Qed.

Lemma checked_string_eq n l s : mjoin l = s → n = zlen s → n < room → checked_string granted n l = Ret s.
Proof. intros <-. apply checked_string_ok. Qed.

(** *** Replacing *)

Lemma length_join old rep s ps : old ≠ [] → pieces_of old s ps →
  zlen (join rep ps) = zlen s + (Z.of_nat (length ps) - 1) * (zlen rep - zlen old).
Proof.
  intros Ho. unfold zlen. induction 1 as [|t ps Hp IH|c t p ps Hn Hp IH].
  - simpl. lia.
  - destruct (pieces_of_cons _ _ _ Hp) as (p & ps' & -> & _). rewrite join_nil_cons, !length_app by done. cbn [length] in *. nia.
  - rewrite join_cons. cbn [length] in *. nia.
Qed.

Lemma replaceLoop_ok s old rep fuel : ∀ i p cs ps size, old ≠ [] → (length old ≤ length s)%nat → zlen s < 2 ^ 63 →
  (i ≤ length s)%nat → (length s < i + fuel)%nat → pieces_of old (drop i s) ps →
  built p size cs → (length cs + length (join rep ps) ≤ size)%nat →
  ∃ p', replaceLoop fuel s old rep (Z.of_nat i) p (zlen cs) = Ret p' ∧ built p' size (cs ++ join rep ps).
Proof.
  induction fuel as [|fuel IH]; intros i p cs ps size Ho Hl Hs Hi Hf Hp Hb Hsz; [lia|].
  assert (Hlo : (0 < length old)%nat) by (destruct old; simpl; [done|lia]). cbn [replaceLoop].
  destruct (Z.ltb_spec (Z.of_nat i) (zlen s)) as [Hlt|Hge].
  2:{ rewrite drop_ge in Hp by (unfold zlen in Hge; lia). apply pieces_of_short in Hp as ->; [|done|simpl; lia].
      exists p. cbn [join]. change (q ← []; rep ++ q) with (@nil ascii). by rewrite !app_nil_r. }
  assert (Hm : ∃ b, (if Z.of_nat i <=? to_uint64 (zlen s - zlen old) then memcmp_at s (Z.of_nat i) old else Ret false) = Ret b
             ∧ (b = true ↔ old `prefix_of` drop i s)).
  { rewrite to_uint64_small by (unfold zlen in *; lia). destruct (Z.leb_spec (Z.of_nat i) (zlen s - zlen old)) as [Hle|Hgt].
    - destruct (memcmp_at_ok s old i) as (b & E & Hb'); [unfold zlen in *; lia|]. exists b. split; [done|].
      by rewrite Hb', <-prefix_occurs by lia.
    - exists false. split; [done|]. split; [done|]. intros Hpre%prefix_length. rewrite length_drop in Hpre. unfold zlen in *. lia. }
  destruct Hm as (b & -> & Hbm). rewrite outcome_bind_ret. destruct b.
  - destruct Hbm as [[t Et] _]; [done|]. rewrite Et in Hp.
    inversion Hp as [E|t' ps' Hp' E|c t' q ps' Hn Hp' E]; subst.
    + symmetry in E. by apply app_nil in E as [-> _].
    + apply app_inv_head in E as ->. destruct (pieces_of_cons _ _ _ Hp') as (q & qs & -> & _).
      rewrite join_nil_cons in * by done. rewrite length_app in Hsz.
      destruct (put_cells_built p size cs rep Hb) as (p1 & -> & Hb1); [lia|]. rewrite outcome_bind_ret.
      assert (Hd : drop (i + length old) s = t) by (rewrite <-drop_drop, Et; apply drop_app_length).
      assert (Hil : (i + length old ≤ length s)%nat).
      { apply (f_equal length) in Et. rewrite length_drop, length_app in Et. lia. }
      replace (Z.of_nat i + zlen old) with (Z.of_nat (i + length old)) by (unfold zlen; lia).
      replace (zlen cs + zlen rep) with (zlen (cs ++ rep)) by (unfold zlen; rewrite length_app; lia).
      rewrite app_assoc. apply IH; try done; [lia|by rewrite Hd|]. rewrite length_app. lia.
    + exfalso. apply Hn. rewrite E. by eexists.
  - destruct (lookup_lt_is_Some_2 s i) as [c Hc]; [unfold zlen in Hlt; lia|]. rewrite (drop_S s c i Hc) in Hp, Hbm.
    rewrite (char_at_ok s i c Hc), outcome_bind_ret.
    inversion Hp as [|t' ps' Hp' E|c' t' q ps' Hn Hp' E]; subst.
    + exfalso. apply Bool.diff_false_true, Hbm. rewrite <-E. by eexists.
    + rewrite join_cons in *. cbn [length] in Hsz.
      destruct (put_cell_built p size cs c Hb) as (p1 & -> & Hb1); [lia|]. rewrite outcome_bind_ret.
      replace (Z.of_nat i + 1) with (Z.of_nat (S i)) by lia.
      replace (zlen cs + 1) with (zlen (cs ++ [c])) by (unfold zlen; rewrite length_app; simpl; lia).
      replace (cs ++ c :: join rep (q :: ps')) with ((cs ++ [c]) ++ join rep (q :: ps')) by by rewrite <-app_assoc.
      assert (S i ≤ length s)%nat by (apply lookup_lt_Some in Hc; lia).
      apply IH; try done; [lia|]. rewrite length_app. simpl in *. lia.
Qed.

(** C33: [replace] does not change a string when there is nothing to replace, and otherwise
    cuts it at the occurrences, found from the left without overlaps, and puts the replacement
    between the pieces; [count] counts the occurrences.  [replace] lacks the test of [count]
    and [replaceFirst]: something longer than the string makes its unsigned
    [sLen - oldLen] wrap around, and the search leaves the string. *)
Theorem replace_spec s old rep : zlen s < room → zlen (join rep (split_on old s)) < room →
  lucis_replace granted s [] rep = Ret s ∧
  (old ≠ [] → zlen old ≤ zlen s →
    lucis_count s old = Ret (Z.of_nat (length (split_on old s)) - 1) ∧
    lucis_replace granted s old rep = Ret (join rep (split_on old s))) ∧
  (zlen s < zlen old → lucis_count s old = Ret 0 ∧ lucis_replace granted s old rep = Undef).
Proof.
  intros Hs Hj. assert (Hz : ∀ t, zlen t = Z.of_nat (length t)) by done. split_and!.
  - unfold lucis_replace. change (zlen [] =? 0) with true. cbv iota. by apply new_string_1.
  - intros Ho Hl. assert (Hlo : 0 < zlen old) by (rewrite Hz; destruct old; simpl; [done|lia]).
    pose proof (split_on_ok old Ho s) as Hp.
    assert (Hcount : countLoop (S (length s)) s old (zlen s - zlen old) 0 0 = Ret (Z.of_nat (length (split_on old s)) - 1)).
    { apply (countLoop_ok old Ho s (S (length s)) 0 0 (split_on old s)); [lia|rewrite !Hz in Hl; lia|lia|done]. }
    pose proof (length_join old rep s _ Ho Hp) as Hlen.
    unfold lucis_count, lucis_replace. rewrite (proj2 (Z.eqb_neq (zlen old) 0)) by lia.
    rewrite (proj2 (Z.ltb_ge _ _)) by done. split; [done|].
    rewrite (to_uint64_small (zlen s - zlen old)) by lia. rewrite Hcount, outcome_bind_ret.
    destruct (Z.eqb_spec (Z.of_nat (length (split_on old s)) - 1) 0) as [H1|H1].
    + rewrite new_string_1 by done. f_equal. pose proof (pieces_of_join old s _ Hp) as Hjo.
      destruct (split_on old s) as [|p [|q ps]] eqn:E; simpl in H1; [|done|lia].
      by destruct (pieces_of_nonempty old s [] Hp).
    + cbv zeta. rewrite <-Hlen, to_uint64_small by (rewrite Hz in *; lia). rewrite new_block by (rewrite Hz in *; lia).
      destruct (replaceLoop_ok s old rep (S (length s)) 0 (Some (replicate (Z.to_nat (zlen (join rep (split_on old s)) + 1)) None)) []
        (split_on old s) (Z.to_nat (zlen (join rep (split_on old s)) + 1)) Ho) as (p & E & Hb);
        [rewrite !Hz in Hl; lia|lia|lia|lia|done|apply replicate_built|simpl; rewrite Hz; lia|].
      change (Z.of_nat 0) with 0 in E. change (zlen []) with 0 in E. rewrite E, outcome_bind_ret.
      apply (finished p _ _ Hb). change ([] ++ join rep (split_on old s)) with (join rep (split_on old s)). clear. unfold zlen. lia.
  - intros Hl. unfold lucis_count, lucis_replace. assert (0 ≤ zlen s) by (rewrite Hz; lia).
    rewrite (proj2 (Z.eqb_neq (zlen old) 0)) by lia. rewrite (proj2 (Z.ltb_lt _ _)) by done. split; [done|].
    cbn [countLoop]. rewrite (proj2 (Z.leb_le _ _)) by apply to_uint64_range.
    unfold memcmp_at, read. by rewrite (proj2 (Z.leb_gt (0 + zlen old) (zlen s))), !andb_false_r by lia.
Qed.

(** *** Splitting and joining *)

Lemma read_Z s i n : 0 ≤ i → 0 ≤ n → i + n ≤ zlen s → read s i n = Ret (take (Z.to_nat n) (drop (Z.to_nat i) s)).
Proof. intros Hi Hn H. rewrite <-read_ok by (unfold zlen in H; lia). by rewrite !Z2Nat.id. Qed.

Lemma zlen_piece s i n : 0 ≤ i → 0 ≤ n → i + n ≤ zlen s → zlen (take (Z.to_nat n) (drop (Z.to_nat i) s)) = n.
Proof. intros Hi Hn H. unfold zlen in *. rewrite length_take, length_drop. lia. Qed.

(** Reading a piece and making a string of it. *)
Lemma piece_ok s i n : zlen s < room → 0 ≤ i → 0 ≤ n → i + n ≤ zlen s →
  (piece ← read s i n; new_string n [piece]) = Ret (take (Z.to_nat n) (drop (Z.to_nat i) s)).
Proof.
  intros Hs Hi Hn H. rewrite read_Z, outcome_bind_ret by done. rewrite (new_string_ok n); rewrite ?mjoin_1, ?zlen_piece; done || lia.
Qed.

Lemma drop_zlen s i : zlen s ≤ i → drop (Z.to_nat i) s = [].
Proof. intros H. apply drop_ge. unfold zlen in H. lia. Qed.

Lemma piece_then {A} s i n (k : bytes → outcome A) : zlen s < room → 0 ≤ i → 0 ≤ n → i + n ≤ zlen s →
  (piece ← read s i n; part ← new_string n [piece]; k part) = k (take (Z.to_nat n) (drop (Z.to_nat i) s)).
Proof.
  intros Hs Hi Hn H. rewrite read_Z, outcome_bind_ret by done.
  rewrite (new_string_ok n); rewrite ?mjoin_1, ?zlen_piece, ?outcome_bind_ret; done || lia.
Qed.

Lemma rest_ok {A} s i (k : bytes → outcome A) : zlen s < room → (i ≤ length s)%nat →
  (piece ← read s (Z.of_nat i) (zlen s - Z.of_nat i); part ← new_string (zlen s - Z.of_nat i) [piece]; k part) = k (drop i s).
Proof.
  intros Hs Hi. rewrite piece_then by (unfold zlen in *; lia). rewrite Nat2Z.id, take_ge; [done|]. rewrite length_drop. unfold zlen. lia.
Qed.

Lemma between_ok {A} s i j (k : bytes → outcome A) : zlen s < room → (i ≤ j ≤ length s)%nat →
  (piece ← read s (Z.of_nat i) (Z.of_nat j - Z.of_nat i); part ← new_string (Z.of_nat j - Z.of_nat i) [piece]; k part)
  = k (take (j - i) (drop i s)).
Proof. intros Hs Hi. rewrite piece_then by (unfold zlen in *; lia). rewrite Nat2Z.id. do 2 f_equal. lia. Qed.

Lemma join_cons_ne sep p ps : ps ≠ [] → join sep (p :: ps) = p ++ sep ++ join sep ps.
Proof. destruct ps as [|q ps]; [done|]. intros _. cbn. by rewrite <-app_assoc. Qed.

Lemma splitLoop_ok s d fuel : ∀ start ps, d ≠ [] → zlen s < room → (start ≤ length s)%nat → (length s < start + fuel)%nat →
  pieces_of d (drop start s) ps → splitLoop granted fuel s d (Z.of_nat start) = Ret ps.
Proof.
  induction fuel as [|fuel IH]; intros start ps Hd Hs Hst Hf Hp; [lia|]. cbn [splitLoop].
  rewrite (proj2 (Z.leb_le _ _)) by (unfold zlen; lia).
  destruct (searchLoop_ok s d (S (length s)) start) as (r & -> & Hr); [lia|]. rewrite outcome_bind_ret. destruct r as [z|].
  - destruct Hr as (j & -> & Hj & Ho & Hm). cbn [default from_option id]. destruct Ho as [Hjl Ho].
    rewrite between_ok by lia.
    replace (Z.of_nat j + zlen d) with (Z.of_nat (j + length d)) by (unfold zlen; lia).
    assert (length d ≠ 0%nat) by (intros ?%nil_length_inv; done).
    rewrite (IH _ (split_on d (drop (j + length d) s))); [|done|done|lia|lia|by apply split_on_ok]. rewrite outcome_bind_ret.
    f_equal. apply (pieces_of_det d Hd (drop start s)); [|done]. apply pieces_of_first.
    + apply occurs_drop. left. split; [lia|]. replace (start + (j - start))%nat with j by lia. done.
    + intros i Hi [[_ Hoi]|[? _]]%occurs_drop; [|lia]. apply (Hm (start + i)%nat); [lia|done].
    + rewrite drop_drop. replace (start + (j - start + length d))%nat with (j + length d)%nat by lia. by apply split_on_ok.
  - cbn [default from_option id]. rewrite rest_ok by done. f_equal.
    apply (pieces_of_det d Hd (drop start s)); [|done]. apply pieces_of_none.
    intros k [[_ Ho]|[? _]]%occurs_drop; [|lia]. apply (Hr (start + k)%nat); [lia|done].
Qed.

Lemma joinPieces_join sep l : mjoin (joinPieces false sep l) = (q ← l; sep ++ q).
Proof.
  induction l as [|x l IH]; [done|]. cbn [joinPieces negb andb].
  change (q ← x :: l; sep ++ q) with ((sep ++ x) ++ (q ← l; sep ++ q)). rewrite <-IH, <-app_assoc.
  destruct (Z.ltb_spec 0 (zlen sep)); [done|]. destruct sep; [done|]. unfold zlen in *. simpl in *. lia.
Qed.

Lemma length_joined sep x l :
  zlen (join sep (x :: l)) = foldr (λ x acc, zlen x + acc) 0 (x :: l) + zlen sep * (Z.of_nat (length (x :: l)) - 1).
Proof.
  cbn [join foldr length]. unfold zlen. rewrite length_app.
  assert (H : ∀ l, Z.of_nat (length (q ← l; sep ++ q)) = foldr (λ x acc, Z.of_nat (length x) + acc) 0 l + Z.of_nat (length sep) * Z.of_nat (length l)).
  { clear. induction l as [|x l IH]; [simpl; lia|].
    change (q ← x :: l; sep ++ q) with ((sep ++ x) ++ (q ← l; sep ++ q)). rewrite !length_app. cbn [foldr length]. lia. }
  rewrite Nat2Z.inj_add, H. lia.
Qed.

Lemma lucis_joinVec_ok l sep : zlen (join sep l) < room → lucis_joinVec granted l sep = Ret (join sep l).
Proof.
  intros Hj. assert (0 ≤ zlen (join sep l)) by (unfold zlen; lia). destruct l as [|x l]; unfold lucis_joinVec; cbv zeta.
  - by apply (new_string_ok 0 []).
  - rewrite <-length_joined, to_uint64_small by lia.
    assert (E : join sep (x :: l) = mjoin (joinPieces true sep (x :: l))).
    { cbn [join joinPieces negb andb app]. by rewrite <-joinPieces_join. }
    rewrite E. apply new_string_ok; [done|]. by rewrite <-E.
Qed.

(** The first [n] pieces, and what is left with its delimiters. *)
Fixpoint first_pieces (n : nat) (d : bytes) (ps : list bytes) : list bytes :=
  match n, ps with
  | S n, p :: ((_ :: _) as rest) => p :: first_pieces n d rest
  | _, _ => [join d ps]
  end.

Lemma join_one d p : join d [p] = p.
Proof. apply app_nil_r. Qed.

Lemma splitNLoop_ok s d n : ∀ start, d ≠ [] → zlen s < room → (start ≤ length s)%nat →
  splitNLoop granted n s d (Z.of_nat start) = Ret (first_pieces n d (split_on d (drop start s))).
Proof.
  assert (Hlast : ∀ n start, d ≠ [] → pieces_of d (drop start s) [drop start s] →
    first_pieces n d (split_on d (drop start s)) = [drop start s]).
  { intros m start Hd Hp. rewrite (pieces_of_det d Hd (drop start s) _ _ (split_on_ok d Hd _) Hp).
    destruct m; cbn [first_pieces]; by rewrite join_one. }
  induction n as [|n IH]; intros start Hd Hs Hst; cbn [splitNLoop]; cbv zeta.
  { rewrite (rest_ok s start _ Hs Hst). cbn [first_pieces]. by rewrite (pieces_of_join d _ _ (split_on_ok d Hd _)). }
  rewrite (proj2 (Z.leb_le _ _)) by (unfold zlen; lia).
  destruct (searchLoop_ok s d (S (length s)) start) as (r & -> & Hr); [lia|]. rewrite outcome_bind_ret. destruct r as [z|].
  2:{ rewrite (rest_ok s start _ Hs Hst), Hlast; [done|done|]. apply pieces_of_none.
      intros k [[_ Ho]|[? _]]%occurs_drop; [|lia]. apply (Hr (start + k)%nat); [lia|done]. }
  destruct Hr as (j & -> & Hj & [Hjl Ho] & Hm). rewrite between_ok by lia.
  replace (Z.of_nat j + zlen d) with (Z.of_nat (j + length d)) by (unfold zlen; lia).
  rewrite (IH (j + length d)%nat Hd Hs) by lia. rewrite outcome_bind_ret. f_equal.
  pose proof (split_on_ok d Hd (drop (j + length d) s)) as Hrest.
  assert (Hp : pieces_of d (drop start s) (take (j - start) (drop start s) :: split_on d (drop (j + length d) s))).
  { apply pieces_of_first.
    - apply occurs_drop. left. split; [lia|]. replace (start + (j - start))%nat with j by lia. done.
    - intros i Hi [[_ Hoi]|[? _]]%occurs_drop; [|lia]. apply (Hm (start + i)%nat); [lia|done].
    - rewrite drop_drop. replace (start + (j - start + length d))%nat with (j + length d)%nat by lia. done. }
  rewrite (pieces_of_det d Hd _ _ _ (split_on_ok d Hd (drop start s)) Hp).
  destruct (split_on d (drop (j + length d) s)) as [|q qs] eqn:E; [by destruct (pieces_of_nonempty d _ [] Hrest)|done].
Qed.

(** With an empty delimiter every piece but the last is empty. *)
Lemma splitNLoop_empty s n : ∀ start, zlen s < room → (start ≤ length s)%nat →
  splitNLoop granted n s [] (Z.of_nat start) = Ret (replicate n [] ++ [drop start s]).
Proof.
  induction n as [|n IH]; intros start Hs Hst; cbn [splitNLoop]; cbv zeta; [by rewrite (rest_ok s start _ Hs Hst)|].
  rewrite (proj2 (Z.leb_le _ _)) by (unfold zlen; lia).
  destruct (searchLoop_ok s [] (S (length s)) start) as (r & -> & Hr); [lia|]. rewrite outcome_bind_ret. destruct r as [z|].
  2:{ exfalso. apply (Hr start); [lia|]. split; [simpl; lia|done]. }
  destruct Hr as (j & -> & Hj & _ & Hm). assert (j = start) as ->.
  { destruct (decide (j = start)) as [|Hne]; [done|]. exfalso. apply (Hm start); [lia|]. split; [simpl; lia|done]. }
  rewrite between_ok by lia. rewrite Nat.sub_diag, take_0.
  replace (Z.of_nat start + zlen []) with (Z.of_nat start) by (unfold zlen; simpl; lia). by rewrite IH.
Qed.

(** The pieces of [first_pieces] make up what the pieces make up, and are at most one more. *)
Lemma first_pieces_join n d ps : ps ≠ [] → join d (first_pieces n d ps) = join d ps ∧ (length (first_pieces n d ps) ≤ S n)%nat.
Proof.
  revert ps. induction n as [|n IH]; intros ps Hps; cbn [first_pieces]; [by rewrite join_one|].
  destruct ps as [|p [|q qs]]; [done|split; [apply join_one|simpl; lia]|].
  destruct (IH (q :: qs) ltac:(done)) as [Hj Hl]. split; [|cbn [length]; lia].
  assert (Hne : first_pieces n d (q :: qs) ≠ []) by (destruct n, qs; done).
  rewrite (join_cons_ne d p _ Hne), (join_cons_ne d p (q :: qs)) by done. by rewrite Hj.
Qed.

(** A carriage return before the line break belongs to the line break. *)
Definition strip_cr (p : bytes) : bytes := if bool_decide (last p = Some "013"%char) then take (length p - 1) p else p.

Notation newline := ["010"%char].

Lemma occurs_char (s : bytes) c i : occurs s [c] i ↔ s !! i = Some c.
Proof.
  unfold occurs. cbn [length]. split.
  - intros [Hi E]. destruct (lookup_lt_is_Some_2 s i) as [d Hd]; [lia|]. rewrite (drop_S s d i Hd) in E. by injection E as ->.
  - intros H. split; [apply lookup_lt_Some in H; lia|]. by rewrite (drop_S s c i H).
Qed.

Lemma last_piece (s : bytes) i j : (i < j ≤ length s)%nat → last (take (j - i) (drop i s)) = s !! (j - 1)%nat.
Proof.
  intros H. rewrite last_lookup, length_take, length_drop, lookup_take_lt, lookup_drop by lia. f_equal. lia.
Qed.

Lemma line_ok {A} s i j (k : bytes → outcome A) : zlen s < room → (i ≤ j ≤ length s)%nat →
  (cr ← (if Z.of_nat i <? Z.of_nat j then c ← char_at s (Z.of_nat j - 1); Ret (bool_decide (c = "013"%char)) else Ret false);
   let stop := if cr : bool then Z.of_nat j - 1 else Z.of_nat j in
   piece ← read s (Z.of_nat i) (stop - Z.of_nat i); part ← new_string (stop - Z.of_nat i) [piece]; k part)
  = k (strip_cr (take (j - i) (drop i s))).
Proof.
  intros Hs Hij. unfold strip_cr. destruct (Z.ltb_spec (Z.of_nat i) (Z.of_nat j)).
  - replace (Z.of_nat j - 1) with (Z.of_nat (j - 1)) by lia. destruct (lookup_lt_is_Some_2 s (j - 1)) as [c Hc]; [lia|].
    rewrite (char_at_ok s _ c Hc), !outcome_bind_ret, last_piece, Hc by lia. cbv zeta.
    rewrite (bool_decide_ext (Some c = Some "013"%char) (c = "013"%char)) by naive_solver.
    case_bool_decide; rewrite between_ok by lia; [|done].
    rewrite length_take, length_drop, take_take. do 2 f_equal. lia.
  - assert (i = j) as <- by lia. rewrite outcome_bind_ret. cbv zeta. rewrite between_ok by lia.
    by rewrite Nat.sub_diag, take_0.
Qed.

Lemma linesLoop_ok s n : ∀ start i ps, zlen s < room → (start ≤ i)%nat → (i + n = length s)%nat →
  (∀ k, (start ≤ k < i)%nat → ¬ occurs s newline k) → pieces_of newline (drop start s) ps →
  linesLoop granted s n (Z.of_nat start) (Z.of_nat i) = Ret (strip_cr <$> ps).
Proof.
  assert (Hshift : ∀ start k, (start ≤ length s)%nat → occurs (drop start s) newline k ↔ occurs s newline (start + k)).
  { intros start k Hst. rewrite occurs_drop. split; [intros [[_ ?]|[? _]]; [done|lia]|intros; by left]. }
  induction n as [|n IH]; intros start i ps Hs Hsi Hi Hno Hp; cbn [linesLoop]; cbv zeta.
  - rewrite (proj2 (Z.eqb_eq _ _)), outcome_bind_ret by (unfold zlen; lia). rewrite line_ok by lia.
    rewrite outcome_bind_ret. f_equal.
    rewrite (pieces_of_det newline ltac:(done) (drop start s) ps [drop start s]); [|done|].
    + cbn. f_equal. by rewrite take_ge by (rewrite length_drop; lia).
    + apply pieces_of_none. intros k Hk. apply Hshift in Hk; [|lia]. apply (Hno (start + k)%nat); [|done]. destruct Hk. simpl in *. lia.
  - rewrite (proj2 (Z.eqb_neq _ _)) by (unfold zlen; lia). destruct (lookup_lt_is_Some_2 s i) as [c Hc]; [lia|].
    rewrite (char_at_ok s i c Hc), !outcome_bind_ret. replace (Z.of_nat i + 1) with (Z.of_nat (S i)) by lia.
    case_bool_decide as E.
    + subst c. assert (Hoi : occurs s newline i) by by apply occurs_char. rewrite line_ok by lia.
      rewrite (IH (S i) (S i) (split_on newline (drop (S i) s))); [|done|lia|lia|lia|by apply split_on_ok].
      rewrite outcome_bind_ret. f_equal.
      rewrite (pieces_of_det newline ltac:(done) (drop start s) ps (take (i - start) (drop start s) :: split_on newline (drop (S i) s))); [done|done|].
      apply pieces_of_first.
      * apply Hshift; [lia|]. by replace (start + (i - start))%nat with i by lia.
      * intros k Hk Hok. apply Hshift in Hok; [|lia]. apply (Hno (start + k)%nat); [lia|done].
      * rewrite drop_drop. replace (start + (i - start + length newline))%nat with (S i) by (simpl; lia). by apply split_on_ok.
    + apply IH; [done|lia|lia| |done]. intros k Hk. destruct (decide (k = i)) as [->|]; [|apply Hno; lia].
      rewrite occurs_char, Hc. by intros [= ->].
Qed.

(** C32: [split] and [joinVec] are inverse: the pieces, joined with the delimiter, are the
    string; no piece contains the delimiter, and an empty delimiter splits the string into its
    characters.  [splitN] gives all but the last of its pieces as [split] does, and then the rest
    of the string undivided, as soon as there is one piece less than asked for; joined, they are
    the string, too.  With an empty delimiter it does not split as [split] does: all pieces but
    the last are empty, and the last is the string.  [lines] splits at the line breaks, with or
    without a carriage return. *)
Theorem split_join s d : zlen s < room →
  (∃ l, lucis_split granted s d = Ret l ∧ lucis_joinVec granted l d = Ret s ∧
    (d ≠ [] → l = split_on d s ∧ Forall (λ p, ¬ contains p d) l) ∧ (d = [] → l = (λ c, [c]) <$> s)) ∧
  (∀ n, lucis_splitN granted s d (S n) =
    Ret (if bool_decide (d = []) then replicate n [] ++ [s] else first_pieces n d (split_on d s))) ∧
  (∀ n, d ≠ [] → join d (first_pieces n d (split_on d s)) = s ∧ (length (first_pieces n d (split_on d s)) ≤ S n)%nat) ∧
  lucis_lines granted s = Ret (strip_cr <$> split_on newline s).
Proof.
  intros Hs. split_and!.
  - destruct (decide (d = [])) as [->|Hd].
    + exists (splitChars s). assert (E : splitChars s = (λ c, [c]) <$> s) by (induction s; [done|]; cbn; f_equal; auto).
      assert (Ej : join [] (splitChars s) = s).
      { destruct s as [|c s]; [done|]. cbn [splitChars join app]. f_equal. clear. induction s; [done|]. cbn. f_equal. done. }
      split_and!; [done| |done|done]. rewrite lucis_joinVec_ok; rewrite Ej; done.
    + pose proof (split_on_ok d Hd s) as Hp. exists (split_on d s). split_and!; [| | |done].
      * unfold lucis_split. rewrite (proj2 (Z.eqb_neq _ _)) by (unfold zlen; intros ?; apply Hd, nil_length_inv; lia).
        apply (splitLoop_ok s d (S (length s)) 0); [done|done|lia|lia|done].
      * rewrite lucis_joinVec_ok; rewrite (pieces_of_join d s _ Hp); done.
      * intros _. split; [done|]. eapply Forall_impl; [by apply (pieces_of_free d Hd s)|]. intros p Hno [k Hk]%contains_occurs. by apply (Hno k).
  - intros n. cbn [lucis_splitN]. case_bool_decide as Hd; [subst d; apply (splitNLoop_empty s n 0)|apply (splitNLoop_ok s d n 0)]; (done || lia).
  - intros n Hd. pose proof (split_on_ok d Hd s) as Hp.
    destruct (first_pieces_join n d (split_on d s)) as [Hj Hl]; [by eapply pieces_of_nonempty|].
    split; [|exact Hl]. rewrite Hj. by apply pieces_of_join.
  - apply (linesLoop_ok s (length s) 0 0); [done|lia|lia|lia|by apply split_on_ok].
Qed.

(** *** Parts of a string *)

(** Where a position of [slice] is. *)
Definition slice_index (s : bytes) (z : Z) : nat := Z.to_nat (if z <? 0 then zlen s + z else z).

(** [charAt] is total; [substring] gives the bytes asked for that are there; [slice] is the
    slice of Python, whose negative positions count from the end.  The test of [substring] that
    limits the length adds two unsigned numbers: a length that makes the sum wrap around passes,
    and the copy leaves the string. *)
Lemma extract_spec s : zlen s < room →
  (∀ i, 0 ≤ i → lucis_charAt s i = Ret (default NUL (s !! Z.to_nat i))) ∧
  (∀ start n, 0 ≤ start → 0 ≤ n → start + n < 2 ^ 64 →
    lucis_substring granted s start n = Ret (take (Z.to_nat n) (drop (Z.to_nat start) s))) ∧
  (∀ start n, 0 ≤ start < zlen s → n < 2 ^ 64 → 2 ^ 64 ≤ start + n → lucis_substring granted s start n = Undef) ∧
  ∀ start stop, in_int64 start = true → in_int64 stop = true →
    lucis_slice granted s start stop = Ret (drop (slice_index s start) (take (slice_index s stop) s)).
Proof.
  intros Hs. assert (Hz : zlen s = Z.of_nat (length s)) by done. split_and!.
  - intros i Hi. unfold lucis_charAt, char_at. destruct (Z.leb_spec (zlen s) i).
    + by rewrite lookup_ge_None_2 by lia.
    + rewrite (proj2 (Z.leb_le _ _)) by done. destruct (lookup_lt_is_Some_2 s (Z.to_nat i)) as [c ->]; [lia|done].
  - intros start n H1 H2 H3. unfold lucis_substring. destruct (Z.leb_spec (zlen s) start) as [Hle|Hgt].
    + rewrite drop_zlen, take_nil by done. apply (new_string_ok 0 []); [done|lia].
    + rewrite to_uint64_small by lia. destruct (Z.ltb_spec (zlen s) (start + n)) as [Hlt|Hge]; cbv zeta.
      * rewrite piece_ok by lia. by rewrite !take_ge by (rewrite length_drop; lia).
      * by rewrite piece_ok by lia.
  - intros start n H1 H2 H3. unfold lucis_substring. rewrite (proj2 (Z.leb_gt _ _)) by lia.
    replace (to_uint64 (start + n)) with (start + n - 2 ^ 64).
    2:{ unfold to_uint64. rewrite <-(Z.mod_small (start + n - 2 ^ 64) (2 ^ 64)) by lia.
        replace (start + n) with ((start + n - 2 ^ 64) + 1 * 2 ^ 64) at 2 by lia. by rewrite Z_mod_plus_full. }
    rewrite (proj2 (Z.ltb_ge _ _)) by lia. cbv zeta. unfold read.
    by rewrite (proj2 (Z.leb_gt (start + n) _)), andb_false_r by lia.
  - intros start stop Ha%in_int64_spec Hb%in_int64_spec. unfold int64_min, int64_max in *. unfold lucis_slice.
    assert (Hi : to_int64 (zlen s) = zlen s) by (apply to_int64_id, in_int64_spec; unfold int64_min, int64_max; lia).
    rewrite Hi. assert (Hadd : ∀ z, - 2 ^ 63 ≤ z < 2 ^ 63 → (if z <? 0 then add64 (zlen s) z else Ret z) = Ret (if z <? 0 then zlen s + z else z)).
    { intros z Hzr. destruct (Z.ltb_spec z 0); [|done]. unfold add64, chk64.
      rewrite (proj2 (in_int64_spec _)); [done|]. unfold int64_min, int64_max. lia. }
    rewrite !Hadd, !outcome_bind_ret by lia. unfold slice_index.
    set (a := if start <? 0 then zlen s + start else start). set (b := if stop <? 0 then zlen s + stop else stop).
    cbv zeta. destruct (Z.leb_spec (if zlen s <? b then zlen s else b) (if a <? 0 then 0 else a)) as [Hle|Hgt].
    + rewrite drop_ge; [apply (new_string_ok 0 []); [done|lia]|]. rewrite length_take.
      destruct (Z.ltb_spec (zlen s) b), (Z.ltb_spec a 0); lia.
    + rewrite piece_ok by (destruct (Z.ltb_spec (zlen s) b), (Z.ltb_spec a 0); lia). f_equal.
      assert (Ea : Z.to_nat (if a <? 0 then 0 else a) = Z.to_nat a) by (destruct (Z.ltb_spec a 0); lia).
      rewrite take_drop_commute, Ea. f_equal.
      destruct (Z.ltb_spec (zlen s) b), (Z.ltb_spec a 0);
        first [rewrite !take_ge by lia; done | f_equal; lia].
Qed.

(** *** Editing *)

Lemma zlen_app s t : zlen (s ++ t) = zlen s + zlen t.
Proof. unfold zlen. rewrite length_app. lia. Qed.

Lemma zlen_replicate {n} (c : ascii) : 0 ≤ n → zlen (replicate (Z.to_nat n) c) = n.
Proof. intros. unfold zlen. rewrite length_replicate. lia. Qed.

Lemma zlen_0 s : 0 ≤ zlen s.
Proof. unfold zlen. lia. Qed.

Lemma prefix_test s p :
  ∃ b, (if zlen p <=? zlen s then memcmp_at s 0 p else Ret false) = Ret b ∧ (b = true ↔ p `prefix_of` s).
Proof.
  destruct (Z.leb_spec (zlen p) (zlen s)) as [Hle|Hgt]; unfold zlen in *.
  - destruct (memcmp_at_ok s p 0) as (b & E & Hb); [lia|]. exists b. split; [done|]. by rewrite Hb, occurs_0.
  - exists false. split; [done|]. split; [done|]. intros ?%prefix_length. lia.
Qed.

(** What the functions make of a string when the blocks can be allocated: [concat] and
    [repeat] append, [strInsert] puts a string at a position, at most the end, [strRemove] takes
    bytes out when the sum of its arguments does not wrap around, [removePrefix] removes a
    prefix that is there and nothing otherwise, the paddings fill up to the width and never cut,
    and case conversion and reversal keep the length. *)
Lemma edit_spec s t :
  zlen s + zlen t < room →
  lucis_concat granted s t = Ret (s ++ t) ∧
  lucis_reverse granted s = Ret (reverse s) ∧
  lucis_toUpper granted s = Ret (toupper <$> s) ∧ lucis_toLower granted s = Ret (tolower <$> s) ∧
  (∀ n, 0 ≤ n → zlen s * n < room → lucis_repeat granted s n = Ret (mjoin (replicate (Z.to_nat n) s))) ∧
  (∀ pos, 0 ≤ pos → lucis_strInsert granted s pos t = Ret (take (Z.to_nat pos) s ++ t ++ drop (Z.to_nat pos) s)) ∧
  (∀ start n, 0 ≤ start → 0 ≤ n → start + n < 2 ^ 64 →
    lucis_strRemove granted s start n = Ret (take (Z.to_nat start) s ++ drop (Z.to_nat (start + n)) s)) ∧
  lucis_removePrefix granted (t ++ s) t = Ret s ∧
  (¬ t `prefix_of` s → lucis_removePrefix granted s t = Ret s) ∧
  ∀ width c, 0 ≤ width < room →
    lucis_padLeft granted s width c = Ret (replicate (Z.to_nat width - length s) c ++ s) ∧
    lucis_padRight granted s width c = Ret (s ++ replicate (Z.to_nat width - length s) c).
Proof.
  intros Hr. pose proof (zlen_0 s). pose proof (zlen_0 t). assert (Hz : zlen s = Z.of_nat (length s)) by done. split_and!.
  - unfold lucis_concat. rewrite to_uint64_small by lia. rewrite checked_string_ok; rewrite ?mjoin_2, ?zlen_app; done || lia.
  - unfold lucis_reverse. rewrite new_string_ok; rewrite ?mjoin_1; [done| |lia]. unfold zlen. by rewrite length_reverse.
  - unfold lucis_toUpper. rewrite new_string_ok; rewrite ?mjoin_1; [done| |lia]. unfold zlen. by rewrite length_fmap.
  - unfold lucis_toLower. rewrite new_string_ok; rewrite ?mjoin_1; [done| |lia]. unfold zlen. by rewrite length_fmap.
  - intros n Hn Hl. unfold lucis_repeat. assert (0 ≤ zlen s * n) by nia. rewrite to_uint64_small by lia.
    apply new_string_ok; [|done]. rewrite <-(Z2Nat.id n Hn) at 1. clear. induction (Z.to_nat n) as [|k IH]; [change (zlen (mjoin (replicate 0 s))) with 0; lia|].
    change (mjoin (replicate (S k) s)) with (s ++ mjoin (replicate k s)). rewrite zlen_app, <-IH. lia.
  - intros pos Hp. unfold lucis_strInsert. cbv zeta. set (q := if zlen s <? pos then zlen s else pos).
    assert (Hq : 0 ≤ q ≤ zlen s) by (subst q; destruct (Z.ltb_spec (zlen s) pos); lia).
    assert (Et : take (Z.to_nat pos) s = take (Z.to_nat q) s ∧ drop (Z.to_nat pos) s = drop (Z.to_nat q) s).
    { subst q. destruct (Z.ltb_spec (zlen s) pos); [|done]. by rewrite !take_ge, !drop_ge by lia. }
    destruct Et as [-> ->]. rewrite !read_Z, !outcome_bind_ret, to_uint64_small by lia. change (drop (Z.to_nat 0) s) with s.
    rewrite (take_ge (drop _ _)) by (rewrite length_drop; lia).
    apply checked_string_eq; [apply mjoin_3|..|lia]. rewrite !zlen_app. unfold zlen. rewrite length_take, length_drop. lia.
  - intros start n H1 H2 H3. unfold lucis_strRemove. destruct (Z.leb_spec (zlen s) start) as [Hle|Hgt].
    { rewrite take_ge, drop_ge by lia. by rewrite app_nil_r. }
    rewrite (to_uint64_small (start + n)) by lia. cbv zeta. set (c := if zlen s <? start + n then zlen s - start else n).
    assert (Hc : 0 ≤ c ∧ start + c ≤ zlen s ∧ drop (Z.to_nat (start + n)) s = drop (Z.to_nat (start + c)) s).
    { subst c. destruct (Z.ltb_spec (zlen s) (start + n)); split_and!; try lia; [|done]. by rewrite !drop_ge by lia. }
    destruct Hc as (Hc1 & Hc2 & ->). rewrite !to_uint64_small by (rewrite ?to_uint64_small; lia). rewrite Hgranted by lia.
    rewrite !read_Z, !outcome_bind_ret by lia. change (drop (Z.to_nat 0) s) with s.
    rewrite (take_ge (drop _ _)) by (rewrite length_drop; lia).
    apply new_string_eq; [apply mjoin_2|..|lia]. rewrite !zlen_app. unfold zlen. rewrite length_take, length_drop. lia.
  - unfold lucis_removePrefix. destruct (prefix_test (t ++ s) t) as (b & -> & Hb).
    assert (b = true) as -> by (apply Hb; by eexists). rewrite outcome_bind_ret, zlen_app.
    rewrite read_Z, outcome_bind_ret by (rewrite ?zlen_app; lia).
    replace (zlen t + zlen s - zlen t) with (zlen s) by lia. unfold zlen at 2 3. rewrite !Nat2Z.id, drop_app_length, take_ge by lia.
    apply checked_string_eq; [apply mjoin_1|done|lia].
  - intros Hn. unfold lucis_removePrefix. destruct (prefix_test s t) as (b & -> & Hb).
    assert (b = false) as -> by (destruct b; [by destruct Hn; apply Hb|done]). rewrite outcome_bind_ret.
    apply checked_string_eq; [apply mjoin_1|done|lia].
  - intros width c Hw. unfold lucis_padLeft, lucis_padRight. destruct (Z.leb_spec width (zlen s)).
    + replace (Z.to_nat width - length s)%nat with 0%nat by lia. cbn [replicate app]. rewrite app_nil_r. by rewrite new_string_1 by lia.
    + replace (Z.to_nat (width - zlen s)) with (Z.to_nat width - length s)%nat by lia.
      split; (apply new_string_eq; [apply mjoin_2| |lia]); rewrite zlen_app; unfold zlen; rewrite length_replicate; lia.
Qed.

(** *** Trimming *)

Fixpoint strip_front (p : ascii → bool) (s : bytes) : bytes :=
  match s with [] => [] | c :: t => if p c then strip_front p t else s end.

Definition strip_back (p : ascii → bool) (s : bytes) : bytes := reverse (strip_front p (reverse s)).

Lemma strip_front_suffix p s : strip_front p s `suffix_of` s.
Proof. induction s as [|c s IH]; [done|]. cbn [strip_front]. destruct (p c); [by apply suffix_cons_r|done]. Qed.

Lemma strip_back_prefix p s : strip_back p s `prefix_of` s.
Proof.
  destruct (strip_front_suffix p (reverse s)) as [k E]. exists (reverse k). unfold strip_back.
  by rewrite <-reverse_app, <-E, reverse_involutive.
Qed.

Lemma strip_back_snoc p s c : strip_back p (s ++ [c]) = if p c then strip_back p s else s ++ [c].
Proof.
  unfold strip_back. rewrite reverse_snoc. cbn [strip_front]. destruct (p c); [done|].
  by rewrite reverse_cons, reverse_involutive.
Qed.

Lemma strip_front_drop p s : drop (Z.to_nat (zlen s - zlen (strip_front p s))) s = strip_front p s.
Proof.
  destruct (strip_front_suffix p s) as [k E]. rewrite E at 1 3. rewrite zlen_app.
  replace (Z.to_nat _) with (length k) by (unfold zlen; lia). apply drop_app_length.
Qed.

Lemma skipFront_ok p s n : ∀ i, (i + n = length s)%nat → skipFront p s n (Z.of_nat i) = Ret (zlen s - zlen (strip_front p (drop i s))).
Proof.
  induction n as [|n IH]; intros i Hi; cbn [skipFront].
  - rewrite drop_ge by lia. f_equal. unfold zlen. simpl. lia.
  - destruct (lookup_lt_is_Some_2 s i) as [c Hc]; [lia|]. rewrite (char_at_ok s i c Hc), outcome_bind_ret, (drop_S s c i Hc).
    cbn [strip_front]. destruct (p c).
    + replace (Z.of_nat i + 1) with (Z.of_nat (S i)) by lia. apply IH. lia.
    + f_equal. unfold zlen. cbn [length]. rewrite length_drop. lia.
Qed.

Lemma skipBack_ok p s n : ∀ stop, (n ≤ stop ≤ length s)%nat →
  skipBack p s n (Z.of_nat stop) = Ret (Z.of_nat (stop - n) + zlen (strip_back p (take n (drop (stop - n) s)))).
Proof.
  induction n as [|n IH]; intros stop Hs; cbn [skipBack].
  - rewrite take_0. f_equal. change (zlen (strip_back p [])) with 0. lia.
  - destruct (lookup_lt_is_Some_2 s (stop - 1)) as [c Hc]; [lia|]. replace (Z.of_nat stop - 1) with (Z.of_nat (stop - 1)) by lia.
    rewrite (char_at_ok s _ c Hc), outcome_bind_ret.
    rewrite (take_S_r _ n c) by (rewrite lookup_drop; by replace (stop - S n + n)%nat with (stop - 1)%nat by lia).
    rewrite strip_back_snoc. destruct (p c).
    + rewrite IH by lia. by replace (stop - 1 - n)%nat with (stop - S n)%nat by lia.
    + f_equal. rewrite zlen_app. unfold zlen. rewrite length_take, length_drop. simpl. lia.
Qed.

Lemma skipFront_0 p s : skipFront p s (length s) 0 = Ret (zlen s - zlen (strip_front p s)).
Proof. apply (skipFront_ok p s (length s) 0). lia. Qed.

Lemma skipBack_from p s start : 0 ≤ start ≤ zlen s →
  skipBack p s (Z.to_nat (zlen s - start)) (zlen s) = Ret (start + zlen (strip_back p (drop (Z.to_nat start) s))).
Proof.
  intros Hs. unfold zlen at 2. rewrite skipBack_ok by (unfold zlen in *; lia).
  replace (length s - Z.to_nat (zlen s - start))%nat with (Z.to_nat start) by (unfold zlen in *; lia).
  rewrite take_ge by (rewrite length_drop; unfold zlen in *; lia). f_equal. lia.
Qed.

(** The piece that is read. *)
Lemma read_end p s start : 0 ≤ start ≤ zlen s → let r := strip_back p (drop (Z.to_nat start) s) in
  read s start (start + zlen r - start) = Ret r.
Proof.
  intros Hs r. destruct (strip_back_prefix p (drop (Z.to_nat start) s)) as [k E].
  assert (Hl : zlen (drop (Z.to_nat start) s) = zlen r + zlen k) by (rewrite E at 1; apply zlen_app).
  assert (zlen (drop (Z.to_nat start) s) = zlen s - start) by (unfold zlen in *; rewrite length_drop; lia).
  pose proof (zlen_0 r). pose proof (zlen_0 k). rewrite read_Z by lia. replace (start + zlen r - start) with (zlen r) by lia.
  rewrite E at 1. unfold zlen. by rewrite Nat2Z.id, take_app_length.
Qed.

Lemma zlen_strip_front p s : 0 ≤ zlen s - zlen (strip_front p s) ≤ zlen s.
Proof. destruct (strip_front_suffix p s) as [k E]. apply (f_equal zlen) in E. rewrite zlen_app in E. unfold zlen in *. lia. Qed.

Lemma zlen_strip_back p s : zlen (strip_back p s) ≤ zlen s.
Proof. destruct (strip_back_prefix p s) as [k E]. apply (f_equal zlen) in E. rewrite zlen_app in E. unfold zlen in *. lia. Qed.

Lemma trimmed_ok p s mk : zlen s < room → (∀ r, zlen r < room → mk (zlen r) [r] = Ret r) →
  trimmed p s mk = Ret (strip_back p (strip_front p s)).
Proof.
  intros Hs Hmk. unfold trimmed. pose proof (zlen_strip_front p s). rewrite skipFront_0, outcome_bind_ret.
  rewrite skipBack_from, outcome_bind_ret, read_end, outcome_bind_ret, strip_front_drop by done.
  replace (zlen s - zlen (strip_front p s) + _ - _) with (zlen (strip_back p (strip_front p s))) by lia.
  apply Hmk. pose proof (zlen_strip_back p (strip_front p s)). lia.
Qed.

(** The words of a string: separated by white space, and as long as possible. *)
Inductive words : bytes → list bytes → Prop :=
| words_nil s : Forall (λ c, is_space c = true) s → words s []
| words_cons sp w rest l :
    Forall (λ c, is_space c = true) sp → w ≠ [] → Forall (λ c, is_space c = false) w →
    (rest = [] ∨ ∃ c t, rest = c :: t ∧ is_space c = true) → words rest l → words (sp ++ w ++ rest) (w :: l).

Lemma strip_front_app p s : ∃ k, s = k ++ strip_front p s ∧ Forall (λ c, p c = true) k ∧
  (strip_front p s = [] ∨ ∃ c t, strip_front p s = c :: t ∧ p c = false).
Proof.
  induction s as [|c s (k & E & Hk & Hr)]; [by exists []; auto|]. cbn [strip_front]. destruct (p c) eqn:Hc.
  - exists (c :: k). cbn. rewrite <-E. auto.
  - exists []. split_and!; [done|done|right; eauto].
Qed.

Lemma skipFront_from p s i : 0 ≤ i ≤ zlen s →
  ∃ k r, drop (Z.to_nat i) s = k ++ r ∧ Forall (λ c, p c = true) k ∧ (r = [] ∨ ∃ c t, r = c :: t ∧ p c = false) ∧
  skipFront p s (Z.to_nat (zlen s - i)) i = Ret (i + zlen k) ∧ drop (Z.to_nat (i + zlen k)) s = r ∧ i + zlen k + zlen r = zlen s.
Proof.
  intros Hi. destruct (strip_front_app p (drop (Z.to_nat i) s)) as (k & E & Hk & Hr). exists k. eexists. split; [exact E|].
  assert (Hl : zlen (drop (Z.to_nat i) s) = zlen s - i) by (unfold zlen in *; rewrite length_drop; lia).
  rewrite E, zlen_app in Hl. split_and!; [done|done| | |lia].
  - rewrite <-(Z2Nat.id i) at 2 by lia. rewrite skipFront_ok by (unfold zlen in *; lia). f_equal. lia.
  - rewrite Z2Nat.inj_add, <-drop_drop by first [apply zlen_0 | lia]. rewrite E at 1. unfold zlen. by rewrite Nat2Z.id, drop_app_length.
Qed.

Lemma wordsLoop_ok s fuel : ∀ i, zlen s < room → 0 ≤ i ≤ zlen s → zlen s ≤ i + Z.of_nat fuel →
  ∃ l, wordsLoop granted fuel s i = Ret l ∧ words (drop (Z.to_nat i) s) l.
Proof.
  induction fuel as [|fuel IH]; intros i Hs Hi Hf; cbn [wordsLoop];
    destruct (skipFront_from is_space s i Hi) as (sp & r & E & Hsp & Hr & -> & Hd & Hl); rewrite outcome_bind_ret;
    pose proof (zlen_0 sp); pose proof (zlen_0 r).
  { rewrite (proj2 (Z.leb_le _ _)) by lia. exists []. split; [done|]. rewrite drop_zlen by lia. by constructor. }
  destruct (Z.leb_spec (zlen s) (i + zlen sp)) as [Hle|Hgt].
  { exists []. split; [done|]. assert (r = []) as -> by (apply nil_length_inv; unfold zlen in *; lia).
    rewrite E, app_nil_r. by constructor. }
  destruct (skipFront_from (λ c, negb (is_space c)) s (i + zlen sp)) as (w & rest & E' & Hw & Hrest & -> & Hd' & Hl'); [lia|].
  rewrite outcome_bind_ret. rewrite Hd in E'. pose proof (zlen_0 w). pose proof (zlen_0 rest).
  assert (Hwne : w ≠ []).
  { intros ->. destruct Hr as [->|(c & t & -> & Hc)]; [change (zlen []) with 0 in Hl; lia|].
    destruct Hrest as [->|(c' & t' & -> & Hc')]; simplify_eq/=. by rewrite Hc in Hc'. }
  assert (0 < zlen w) by (unfold zlen; destruct w; simpl; [done|lia]).
  rewrite piece_then by lia. rewrite Hd, E'. replace (i + zlen sp + zlen w - (i + zlen sp)) with (zlen w) by lia.
  replace (Z.to_nat (zlen w)) with (length w) by (unfold zlen; lia). rewrite take_app_length. destruct (IH (i + zlen sp + zlen w) Hs) as (l & -> & Hw'); [lia|lia|].
  exists (w :: l). split; [done|]. rewrite E, E'. rewrite Hd' in Hw'. constructor; [done|done| | |done].
  - eapply Forall_impl; [exact Hw|]. cbv beta. intros c. by destruct (is_space c).
  - destruct Hrest as [->|(c & t & -> & Hc)]; [by left|]. right. exists c, t. split; [done|]. by destruct (is_space c).
Qed.

(** Trimming removes exactly the white space (or the given character) at the ends: all of
    it, and nothing else; [words] gives the longest runs of other characters. *)
Lemma trim_spec s ch : zlen s < room →
  lucis_trimLeft granted s = Ret (strip_front is_space s) ∧
  lucis_trimRight granted s = Ret (strip_back is_space s) ∧
  lucis_trim granted s = Ret (strip_back is_space (strip_front is_space s)) ∧
  lucis_trimChar granted s ch = Ret (strip_back (λ c, bool_decide (c = ch)) (strip_front (λ c, bool_decide (c = ch)) s)) ∧
  ∃ l, lucis_words granted s = Ret l ∧ words s l.
Proof.
  intros Hs. split_and!.
  - unfold lucis_trimLeft. rewrite skipFront_0, outcome_bind_ret. pose proof (zlen_strip_front is_space s).
    rewrite piece_ok by lia. rewrite strip_front_drop, take_ge; [done|]. unfold zlen. lia.
  - unfold lucis_trimRight. pose proof (zlen_0 s). pose proof (skipBack_from is_space s 0) as E. rewrite Z.sub_0_r in E.
    replace (Z.to_nat (zlen s)) with (length s) in E by (unfold zlen; lia). rewrite E, outcome_bind_ret by lia.
    pose proof (read_end is_space s 0) as Er. cbv zeta in Er. rewrite Z.sub_0_r in Er.
    rewrite Er, outcome_bind_ret by lia. change (drop (Z.to_nat 0) s) with s.
    pose proof (zlen_strip_back is_space s). apply new_string_eq; [apply mjoin_1|lia|lia].
  - apply trimmed_ok; [done|]. intros r Hr. by apply new_string_1.
  - apply trimmed_ok; [done|]. intros r Hr. apply checked_string_eq; [apply mjoin_1|done|done].
  - pose proof (zlen_0 s). apply (wordsLoop_ok s (length s) 0 Hs); unfold zlen in *; lia.
Qed.
End results.

(** *** Comparison *)

(** The lexicographic order of the bytes. *)
Definition before (a b : bytes) : Prop :=
  (∃ c t, b = a ++ c :: t) ∨ ∃ p x y s t, a = p ++ x :: s ∧ b = p ++ y :: t ∧ code x < code y.

Lemma code_inj x y : code x = code y → x = y.
Proof. unfold code. intros H. apply N2Z.inj in H. by rewrite <-(Ascii.ascii_N_embedding x), H, Ascii.ascii_N_embedding. Qed.

Lemma memcmp_ok n : ∀ a b, (n ≤ length a)%nat → (n ≤ length b)%nat →
  ∃ z, memcmp a b n = Ret z ∧
  ((z = 0 ∧ take n a = take n b) ∨ ∃ p x y s t, a = p ++ x :: s ∧ b = p ++ y :: t ∧ z = code x - code y ∧ code x ≠ code y).
Proof.
  induction n as [|n IH]; intros a b Ha Hb; cbn [memcmp]; [exists 0; split; [done|left; by rewrite !take_0]|].
  destruct a as [|x a], b as [|y b]; simpl in Ha, Hb; [lia..|]. destruct (Z.eqb_spec (code x) (code y)) as [E|E].
  - apply code_inj in E as ->. destruct (IH a b) as (z & -> & Hz); [lia|lia|]. exists z. split; [done|].
    destruct Hz as [[-> Et]|(p & x' & y' & s & t & -> & -> & Hz)]; [left; split; [done|]; cbn; by f_equal|right].
    exists (y :: p), x', y', s, t. done.
  - eexists. split; [done|]. right. exists [], x, y, a, b. done.
Qed.

Lemma before_greater p x y s t : code x < code y → ¬ before (p ++ y :: t) (p ++ x :: s).
Proof.
  intros Hxy. induction p as [|c p IH]; intros [(c' & t' & E)|(q & a & b & l & r & E1 & E2 & Hab)].
  - simplify_eq/=. lia.
  - destruct q; simplify_eq/=; lia.
  - simplify_eq/=. apply IH. left. by eexists _, _.
  - destruct q as [|d q]; simplify_eq/=; [lia|]. apply IH. right. by exists q, a, b, l, r.
Qed.

Lemma before_irrefl a : ¬ before a a.
Proof.
  intros [(c & t & E)|(p & x & y & s & t & E1 & E2 & H)].
  - apply (f_equal length) in E. rewrite length_app in E. simpl in E. lia.
  - rewrite E1 in E2. apply app_inv_head in E2 as [= -> ->]. lia.
Qed.

Lemma before_asym a b : before a b → ¬ before b a.
Proof.
  intros [(c & t & ->)|(p & x & y & s & t & -> & -> & H)].
  - intros [(c' & t' & E)|(p & x & y & s & t' & E1 & E2 & H)].
    + apply (f_equal length) in E. rewrite !length_app in E. simpl in E. lia.
    + rewrite E2, <-app_assoc in E1. apply app_inv_head in E1. injection E1 as -> _. lia.
  - by apply before_greater.
Qed.

(** [compareTo] reads both strings within their bounds and decides the lexicographic order
    of their bytes: it gives -1, 0 and 1 when the first is before, equal to and after the
    second, and these exclude each other; [equalsIgnoreCase] compares the strings in lower
    case. *)
Lemma compare_spec a b :
  (∃ z, lucis_compareTo a b = Ret z ∧
    (z = -1 ∧ before a b ∨ z = 0 ∧ a = b ∨ z = 1 ∧ before b a)) ∧
  ¬ before a a ∧ (before a b → ¬ before b a) ∧
  (lucis_equalsIgnoreCase a b = true ↔ tolower <$> a = tolower <$> b).
Proof.
  split_and!; [|apply before_irrefl|apply before_asym|].
  - unfold lucis_compareTo. cbv zeta. set (m := if zlen a <? zlen b then zlen a else zlen b).
    assert (Hm : Z.to_nat m = (length a `min` length b)%nat).
    { subst m. unfold zlen. destruct (Z.ltb_spec (Z.of_nat (length a)) (Z.of_nat (length b))); lia. }
    rewrite Hm. destruct (memcmp_ok (length a `min` length b) a b) as (z & -> & Hz); [lia|lia|]. rewrite outcome_bind_ret.
    eexists. split; [done|]. destruct Hz as [[-> E]|(p & x & y & s & t & -> & -> & -> & Hne)].
    + cbn [negb Z.eqb]. unfold zlen. destruct (Z.ltb_spec (Z.of_nat (length a)) (Z.of_nat (length b))).
      * left. split; [done|]. left. rewrite !Nat.min_l, (take_ge a) in E by lia.
        destruct (drop (length a) b) as [|c t] eqn:Ed; [apply (f_equal length) in Ed; rewrite length_drop in Ed; simpl in Ed; lia|].
        exists c, t. rewrite <-(take_drop (length a) b) at 1. by rewrite <-E, Ed.
      * destruct (Z.ltb_spec (Z.of_nat (length b)) (Z.of_nat (length a))); right; [right|left].
        -- split; [done|]. left. rewrite !Nat.min_r, (take_ge b) in E by lia.
           destruct (drop (length b) a) as [|c t] eqn:Ed; [apply (f_equal length) in Ed; rewrite length_drop in Ed; simpl in Ed; lia|].
           exists c, t. rewrite <-(take_drop (length b) a) at 1. by rewrite E, Ed.
        -- split; [done|]. by rewrite !take_ge in E by lia.
    + rewrite (proj2 (Z.eqb_neq _ _)) by lia. cbn [negb]. destruct (Z.ltb_spec (code x - code y) 0).
      * left. split; [done|]. right. exists p, x, y, s, t. split_and!; [done|done|lia].
      * right. right. split; [done|]. right. exists p, y, x, t, s. split_and!; [done|done|lia].
  - unfold lucis_equalsIgnoreCase. destruct (Z.eqb_spec (zlen a) (zlen b)) as [El|El]; cbn [negb].
    + assert (Hl : length a = length b) by (unfold zlen in El; lia). clear El. revert b Hl.
      induction a as [|x a IH]; intros [|y b] Hl; try done. simpl in Hl. injection Hl as Hl. cbn.
      rewrite andb_true_iff, bool_decide_eq_true, (IH b Hl). split; [intros [-> ->]; done|by intros [= -> ->]].
    + split; [done|]. intros E%(f_equal length). rewrite !length_fmap in E. unfold zlen in El. lia.
Qed.

(** ** On concrete strings *)

Definition always (n : Z) : bool := true.

Lemma always_granted n : 0 ≤ n ≤ 1000 → always n = true.
Proof. done. Qed.

Lemma replace_spec_witness :
  lucis_replace always (chars "banana") (chars "an") (chars "AN") = Ret (chars "bANANa") ∧
  lucis_replace always (chars "a") (chars "banana") [] = Undef.
Proof.
  split.
  - destruct (replace_spec always 1000 always_granted ltac:(done) (chars "banana") (chars "an") (chars "AN")) as (_ & H & _);
      [done|done|]. destruct H as [_ ->]; [done|done|reflexivity].
  - destruct (replace_spec always 1000 always_granted ltac:(done) (chars "a") (chars "banana") []) as (_ & _ & H);
      [done|done|]. by apply H.
Defined.

Lemma split_join_witness :
  (∃ l, lucis_split always (chars "a,b,,c") (chars ",") = Ret l ∧ lucis_joinVec always l (chars ",") = Ret (chars "a,b,,c") ∧
    l = [chars "a"; chars "b"; []; chars "c"]) ∧
  lucis_splitN always (chars "a,b,,c") (chars ",") 3 = Ret [chars "a"; chars "b"; chars ",c"] ∧
  lucis_splitN always (chars "abc") [] 3 = Ret [[]; []; chars "abc"].
Proof.
  destruct (split_join always 1000 always_granted ltac:(done) (chars "a,b,,c") (chars ",")) as [(l & H1 & H2 & H3 & _) [H4 _]]; [done|].
  destruct (split_join always 1000 always_granted ltac:(done) (chars "abc") []) as [_ [H5 _]]; [done|].
  split; [|split; [by rewrite (H4 2%nat)|by rewrite (H5 2%nat)]].
  exists l. split_and!; [done|done|]. by destruct H3 as [-> _].
Defined.

Lemma extract_spec_witness :
  lucis_slice always (chars "compiler") (-5) (-1) = Ret (chars "pile") ∧
  lucis_substring always (chars "compiler") 3 (2 ^ 64 - 1) = Undef.
Proof.
  destruct (extract_spec always 1000 always_granted ltac:(done) (chars "compiler")) as (_ & _ & H1 & H2); [done|]. split.
  - rewrite H2; reflexivity.
  - by apply H1.
Defined.

Lemma edit_spec_witness :
  lucis_concat always (chars "ab") (chars "cd") = Ret (chars "abcd") ∧
  lucis_padLeft always (chars "ab") 5 "."%char = Ret (chars "...ab").
Proof.
  destruct (edit_spec always 1000 always_granted ltac:(done) (chars "ab") (chars "cd")) as (H1 & _ & _ & _ & _ & _ & _ & _ & _ & H2); [done|].
  split; [exact H1|]. destruct (H2 5 "."%char) as [-> _]; [lia|reflexivity].
Defined.

Lemma trim_spec_witness :
  lucis_trim always (chars "  a b ") = Ret (chars "a b") ∧ ∃ l, lucis_words always (chars "  a b ") = Ret l ∧ words (chars "  a b ") l.
Proof.
  destruct (trim_spec always 1000 always_granted ltac:(done) (chars "  a b ") "x"%char) as (_ & _ & H1 & _ & H2); [done|].
  split; [rewrite H1; reflexivity|exact H2].
Defined.
