(* ===== verification/RtOwned.v ===== *)
(** * Tracked allocation

    The head of [builtins/string/string.c]: the strings of the run-time library come from an
    allocator that keeps a list of the blocks it gave out, and frees only those.  The system's
    allocator is a parameter. *)

From S2P Require Import Prelude.
From S2P Require Import CxxLib.
Local Open Scope Z_scope.

(** The blocks of the system's allocator, and the nodes of the list: the node's own address and
    the pointer in it.  0 is the null pointer. *)
Record heap := { h_live : gset Z; lucis_owned_head : list (Z * Z) }.

Definition with_live (f : gset Z → gset Z) (h : heap) : heap :=
  {| h_live := f (h_live h); lucis_owned_head := lucis_owned_head h |}.
Definition with_owned (l : list (Z * Z)) (h : heap) : heap := {| h_live := h_live h; lucis_owned_head := l |}.

Section allocator.
(** The address for a new block, given the live ones. *)
Context (allocate : gset Z → Z → Z) (sizeof_node : Z).

Definition lucis_sys_malloc (size : Z) (h : heap) : heap * Z :=
  let p := allocate (h_live h) size in
  if p =? 0 then (h, 0) else (with_live (λ live, {[ p ]} ∪ live) h, p).

Definition lucis_sys_free (p : Z) (h : heap) : outcome heap :=
  if p =? 0 then Ret h
  else if bool_decide (p ∈ h_live h) then Ret (with_live (λ live, live ∖ {[ p ]}) h) else Undef.

(** [realloc] as the system's library documents it: size 0 frees the block and returns the
    null pointer.  Otherwise the block may stay where it is, or move; when there is no room the
    null pointer is returned too, and the block stays as it was. *)
Definition lucis_sys_realloc (old size : Z) (h : heap) : outcome (heap * Z) :=
  if bool_decide (old ∈ h_live h) then
    if size =? 0 then Ret (with_live (λ live, live ∖ {[ old ]}) h, 0) else
    let p := allocate (h_live h ∖ {[ old ]}) size in
    if p =? 0 then Ret (h, 0) else Ret (with_live (λ live, {[ p ]} ∪ live ∖ {[ old ]}) h, p)
  else Undef.

Definition lucis_owned_track_ptr (ptr : Z) (h : heap) : heap :=
  if ptr =? 0 then h else
  let '(h, node) := lucis_sys_malloc sizeof_node h in
  if node =? 0 then h else with_owned ((node, ptr) :: lucis_owned_head h) h.

(** The walk along the list: the node taken out, and what is left. *)
Fixpoint unlink (ptr : Z) (l : list (Z * Z)) : option (Z * list (Z * Z)) :=
  match l with
  | [] => None
  | (node, q) :: l =>
      if q =? ptr then Some (node, l)
      else match unlink ptr l with Some (dead, l) => Some (dead, (node, q) :: l) | None => None end
  end.

Definition lucis_owned_untrack_ptr (ptr : Z) (h : heap) : outcome (heap * bool) :=
  match unlink ptr (lucis_owned_head h) with
  | None => Ret (h, false)
  | Some (dead, l) => h ← lucis_sys_free dead (with_owned l h); Ret (h, true)
  end.

Definition lucis_tracked_malloc (size : Z) (h : heap) : heap * Z :=
  let '(h, ptr) := lucis_sys_malloc size h in (lucis_owned_track_ptr ptr h, ptr).

Definition lucis_tracked_realloc (old_ptr size : Z) (h : heap) : outcome (heap * Z) :=
  if old_ptr =? 0 then Ret (lucis_tracked_malloc size h) else
  '(h, was_owned) ← lucis_owned_untrack_ptr old_ptr h;
  '(h, new_ptr) ← lucis_sys_realloc old_ptr size h;
  if (new_ptr =? 0) && was_owned then Ret (lucis_owned_track_ptr old_ptr h, 0)
  else Ret (if was_owned : bool then lucis_owned_track_ptr new_ptr h else h, new_ptr).

Definition lucis_tracked_free (ptr : Z) (h : heap) : outcome heap :=
  if ptr =? 0 then Ret h else
  '(h, owned) ← lucis_owned_untrack_ptr ptr h;
  if owned : bool then lucis_sys_free ptr h else Ret h.

(** ** Programs *)

Inductive call := Malloc (size : Z) | Realloc (ptr size : Z) | Free (ptr : Z).

(** A block that is not the allocator's own. *)
Definition client (h : heap) (p : Z) : Prop := p ∈ h_live h ∧ p ∉ (lucis_owned_head h).*1.

(** Only [realloc] has a requirement: a block the program got, or the null pointer; and a
    block that is tracked must not be given the size 0. *)
Definition allowed (h : heap) (c : call) : Prop :=
  match c with
  | Realloc p size => p = 0 ∨ (client h p ∧ (p ∈ (lucis_owned_head h).*2 → size ≠ 0))
  | _ => True
  end.

Definition perform (c : call) (h : heap) : outcome heap :=
  match c with
  | Malloc size => Ret (lucis_tracked_malloc size h).1
  | Realloc p size => r ← lucis_tracked_realloc p size h; Ret r.1
  | Free p => lucis_tracked_free p h
  end.

Inductive reachable : heap → Prop :=
| r_start live : 0 ∉ live → reachable {| h_live := live; lucis_owned_head := [] |}
| r_step h h' c : reachable h → allowed h c → perform c h = Ret h' → reachable h'.

(** ** The list describes live blocks *)

Definition addresses (h : heap) : list Z := (lucis_owned_head h).*1 ++ (lucis_owned_head h).*2.

Definition wf (h : heap) : Prop :=
  NoDup (addresses h) ∧ (∀ p, p ∈ addresses h → p ∈ h_live h) ∧ 0 ∉ h_live h.

Context (Hfresh : ∀ live size, allocate live size = 0 ∨ allocate live size ∉ live).

Lemma unlink_spec ptr l :
  match unlink ptr l with
  | Some (dead, l') => ∃ l1 l2, l = l1 ++ (dead, ptr) :: l2 ∧ l' = l1 ++ l2
  | None => ptr ∉ l.*2
  end.
Proof.
  induction l as [|[node q] l IH]; cbn [unlink]; [apply not_elem_of_nil|]. destruct (Z.eqb_spec q ptr) as [->|Hq].
  - by exists [], l.
  - destruct (unlink ptr l) as [[dead l']|].
    + destruct IH as (l1 & l2 & -> & ->). by exists ((node, q) :: l1), l2.
    + cbn. rewrite not_elem_of_cons. done.
Qed.

Lemma addresses_split l1 l2 dead ptr live :
  addresses {| h_live := live; lucis_owned_head := l1 ++ (dead, ptr) :: l2 |} ≡ₚ
  dead :: ptr :: addresses {| h_live := live; lucis_owned_head := l1 ++ l2 |}.
Proof. unfold addresses. cbn. rewrite !fmap_app. cbn. solve_Permutation. Qed.

Lemma malloc_wf size h h' p : wf h → lucis_sys_malloc size h = (h', p) →
  lucis_owned_head h' = lucis_owned_head h ∧
  ((p = 0 ∧ h' = h) ∨ (p ≠ 0 ∧ p ∉ h_live h ∧ h_live h' = {[ p ]} ∪ h_live h)).
Proof.
  intros _. unfold lucis_sys_malloc. destruct (Z.eqb_spec (allocate (h_live h) size) 0) as [E|E]; intros [= <- <-].
  - split; [done|by left].
  - split; [done|right]. destruct (Hfresh (h_live h) size) as [?|?]; [done|]. done.
Qed.

(** A live block that is not in the list can be tracked. *)
Lemma track_wf p h : wf h → p = 0 ∨ (p ∈ h_live h ∧ p ∉ addresses h) →
  wf (lucis_owned_track_ptr p h) ∧ h_live h ⊆ h_live (lucis_owned_track_ptr p h).
Proof.
  intros Hwf Hp. unfold lucis_owned_track_ptr. destruct (Z.eqb_spec p 0); [done|]. destruct Hp as [?|[Hl Hp]]; [done|].
  destruct (lucis_sys_malloc sizeof_node h) as [h' node] eqn:E.
  destruct (malloc_wf _ _ _ _ Hwf E) as [Ho [[-> ->]|(Hn & Hn' & El)]]; [done|].
  rewrite (proj2 (Z.eqb_neq _ _) Hn). destruct Hwf as (Hnd & Hin & H0). unfold wf, addresses in *. cbn. rewrite Ho, El.
  split; [|set_solver]. split_and!; [| |set_solver].
  - rewrite <-Permutation_middle. constructor; [|constructor; [|done]].
    + rewrite elem_of_cons. intros [->|Hin']; [done|]. by apply Hn', Hin.
    + done.
  - intros q. rewrite <-Permutation_middle, !elem_of_cons. set_solver.
Qed.

Lemma untrack_true p h h' : lucis_owned_untrack_ptr p h = Ret (h', true) → p ∈ (lucis_owned_head h).*2.
Proof.
  unfold lucis_owned_untrack_ptr. pose proof (unlink_spec p (lucis_owned_head h)) as Hu.
  destruct (unlink p (lucis_owned_head h)) as [[dead l]|]; [|done]. destruct Hu as (l1 & l2 & -> & _). intros _.
  rewrite fmap_app. cbn. set_solver.
Qed.

Lemma untrack_wf p h : wf h →
  (p ∉ (lucis_owned_head h).*2 ∧ lucis_owned_untrack_ptr p h = Ret (h, false)) ∨
  ∃ h' node, lucis_owned_untrack_ptr p h = Ret (h', true) ∧ wf h' ∧ node ∈ (lucis_owned_head h).*1 ∧
    p ∈ h_live h' ∧ p ∉ addresses h' ∧ h_live h' = h_live h ∖ {[ node ]} ∧
    (∀ q, q ∈ addresses h' → q ∈ addresses h).
Proof.
  intros (Hnd & Hin & H0). unfold lucis_owned_untrack_ptr. pose proof (unlink_spec p (lucis_owned_head h)) as Hu.
  destruct (unlink p (lucis_owned_head h)) as [[dead l]|]; [right|by left].
  destruct Hu as (l1 & l2 & El & ->). destruct h as [live l]. cbn in El. subst l. cbn [h_live lucis_owned_head] in *.
  pose proof (addresses_split l1 l2 dead p live) as Ep. rewrite Ep in Hnd. setoid_rewrite Ep in Hin.
  apply NoDup_cons in Hnd as [Hd Hnd]. apply NoDup_cons in Hnd as [Hp Hnd]. rewrite not_elem_of_cons in Hd.
  assert (Hdl : dead ∈ live) by (apply Hin; left). assert (Hpl : p ∈ live) by (apply Hin; right; left).
  unfold lucis_sys_free. rewrite (proj2 (Z.eqb_neq dead 0)) by set_solver. cbn. rewrite bool_decide_true by done.
  exists {| h_live := live ∖ {[ dead ]}; lucis_owned_head := l1 ++ l2 |}, dead. split; [done|]. split_and!; try done.
  - split_and!; [done| |set_solver]. intros q Hq. cbn. apply elem_of_difference. split; [apply Hin; by do 2 right|].
    intros ->%elem_of_singleton. by apply Hd.
  - rewrite fmap_app. cbn. set_solver.
  - cbn. set_solver.
  - intros q Hq. rewrite Ep. by do 2 right.
Qed.

(** Taking out a block the list does not know of leaves the list right. *)
Lemma remove_wf p h : wf h → p ∉ addresses h → wf (with_live (λ live, live ∖ {[ p ]}) h).
Proof.
  intros (Hnd & Hin & H0) Ha. split_and!; [done| |cbn; set_solver]. intros q Hq. cbn. apply elem_of_difference.
  split; [by apply Hin|]. intros ->%elem_of_singleton. by apply Ha.
Qed.

(** Freeing: a tracked block is given back, anything else is ignored. *)
Lemma free_wf p h : wf h →
  (p ∉ (lucis_owned_head h).*2 ∧ lucis_tracked_free p h = Ret h) ∨
  ∃ h' node, lucis_tracked_free p h = Ret h' ∧ wf h' ∧ node ∈ (lucis_owned_head h).*1 ∧
    h_live h' = h_live h ∖ {[ node; p ]} ∧ lucis_tracked_free p h' = Ret h'.
Proof.
  intros Hwf. unfold lucis_tracked_free at 1 2. destruct (Z.eqb_spec p 0) as [->|Hp].
  { left. split; [|done]. destruct Hwf as (_ & Hin & H0). intros H. apply H0, Hin. unfold addresses. set_solver. }
  destruct (untrack_wf p h Hwf) as [[Hn ->]|(h1 & node & -> & Hwf1 & Hnode & Hl & Ha & El & _)]; [by left|right].
  rewrite outcome_bind_ret. cbv iota. unfold lucis_sys_free. rewrite (proj2 (Z.eqb_neq _ _) Hp), bool_decide_true by done.
  eexists _, node. split; [done|].
  assert (Hwf2 : wf (with_live (λ live, live ∖ {[ p ]}) h1)) by by apply remove_wf.
  split_and!; [done|done|cbn; rewrite El; set_solver|]. unfold lucis_tracked_free. rewrite (proj2 (Z.eqb_neq _ _) Hp).
  destruct (untrack_wf p _ Hwf2) as [[_ ->]|(h3 & n3 & _ & _ & _ & Hl3 & _ & El3 & _)]; [done|].
  exfalso. rewrite El3 in Hl3. cbn in Hl3. set_solver.
Qed.

Lemma tracked_malloc_wf size h : wf h → wf (lucis_tracked_malloc size h).1.
Proof.
  intros Hwf. unfold lucis_tracked_malloc. destruct (lucis_sys_malloc size h) as [h' p] eqn:E. cbn [fst].
  destruct (malloc_wf _ _ _ _ Hwf E) as [Ho [[-> ->]|(Hp & Hp' & El)]]; [by apply track_wf; [|left]|].
  destruct Hwf as (Hnd & Hin & H0). unfold wf, addresses in *. apply track_wf.
  - unfold wf, addresses. rewrite Ho, El. split_and!; [done|set_solver|set_solver].
  - right. unfold addresses. rewrite Ho, El. split; [set_solver|]. intros H. by apply Hp', Hin.
Qed.

Lemma sys_realloc_wf p size h : wf h → p ∈ h_live h → p ∉ addresses h →
  ∃ h' q, lucis_sys_realloc p size h = Ret (h', q) ∧ wf h' ∧
  ((q = 0 ∧ (size ≠ 0 → h' = h)) ∨ (q ≠ 0 ∧ q ∈ h_live h' ∧ q ∉ addresses h')).
Proof.
  intros Hwf Hl Ha. unfold lucis_sys_realloc. rewrite bool_decide_true by done. destruct (Z.eqb_spec size 0) as [->|Hs].
  { eexists _, 0. split; [done|]. split; [by apply remove_wf|by left]. }
  destruct (Z.eqb_spec (allocate (h_live h ∖ {[ p ]}) size) 0) as [E|E].
  { exists h, 0. split; [done|]. split; [done|by left]. }
  destruct (Hfresh (h_live h ∖ {[ p ]}) size) as [?|Hf]; [done|].
  destruct Hwf as (Hnd & Hin & H0). eexists _, _. split; [done|]. split.
  - split_and!; [done| |cbn; set_solver]. intros q Hq. cbn. apply elem_of_union_r, elem_of_difference. split; [by apply Hin|].
    intros ->%elem_of_singleton. done.
  - right. split_and!; [done|cbn; set_solver|]. intros H. apply Hf, elem_of_difference. split; [by apply Hin|].
    intros Heq%elem_of_singleton. rewrite Heq in H. done.
Qed.

Lemma realloc_wf p size h : wf h → allowed h (Realloc p size) →
  ∃ h' q, lucis_tracked_realloc p size h = Ret (h', q) ∧ wf h'.
Proof.
  intros Hwf Hp. unfold lucis_tracked_realloc. destruct (Z.eqb_spec p 0) as [->|Hp0].
  { pose proof (tracked_malloc_wf size h Hwf) as H. destruct (lucis_tracked_malloc size h) as [h' q]. by exists h', q. }
  destruct Hp as [?|[[Hl Hn] Hs]]; [done|].
  destruct (untrack_wf p h Hwf) as [[Hno ->]|(h1 & node & E & Hwf1 & Hnode & Hl1 & Ha1 & _)].
  - rewrite outcome_bind_ret. cbv iota beta.
    destruct (sys_realloc_wf p size h Hwf Hl) as (h2 & q & -> & Hwf2 & _); [unfold addresses; set_solver|].
    rewrite outcome_bind_ret. cbv iota beta. rewrite andb_false_r. by exists h2, q.
  - assert (size ≠ 0) as Hsize. { apply Hs. by eapply untrack_true. } rewrite E, outcome_bind_ret. cbv iota beta.
    destruct (sys_realloc_wf p size h1 Hwf1 Hl1 Ha1) as (h2 & q & -> & Hwf2 & Hq).
    rewrite outcome_bind_ret. cbv iota beta. rewrite andb_true_r. destruct Hq as [[-> Hq]|(Hq & Hql & Hqa)].
    + rewrite (Hq Hsize) in *. eexists _, _. split; [done|]. apply track_wf; [done|]. by right.
    + rewrite (proj2 (Z.eqb_neq _ _) Hq). eexists _, _. split; [done|]. apply track_wf; [done|]. by right.
Qed.

(** What the requirement excludes: the system's [realloc] frees a block that gets the size 0,
    and [lucis_tracked_realloc] takes the null pointer for a failure and tracks the block
    again.  When the list got the block back, it is wrong. *)
Lemma realloc_zero_dangles p h : wf h → p ∈ (lucis_owned_head h).*2 →
  ∃ h', perform (Realloc p 0) h = Ret h' ∧ (p ∈ (lucis_owned_head h').*2 → ¬ wf h').
Proof.
  intros Hwf Hp. assert (Hp0 : p ≠ 0).
  { intros ->. destruct Hwf as (_ & Hin & H0). apply H0, Hin. unfold addresses. set_solver. }
  cbn [perform]. unfold lucis_tracked_realloc. rewrite (proj2 (Z.eqb_neq _ _) Hp0).
  destruct (untrack_wf p h Hwf) as [[Hno _]|(h1 & node & -> & Hwf1 & _ & Hl1 & Ha1 & _)]; [done|].
  rewrite outcome_bind_ret. cbv iota beta. unfold lucis_sys_realloc. rewrite bool_decide_true by done.
  change (0 =? 0) with true. cbv iota. rewrite !outcome_bind_ret. cbv iota beta. cbn [andb]. rewrite ?outcome_bind_ret.
  eexists. split; [done|]. cbn [fst]. intros Hin (Hnd & Hlive & _). revert Hin Hnd Hlive.
  unfold lucis_owned_track_ptr. rewrite (proj2 (Z.eqb_neq _ _) Hp0). unfold lucis_sys_malloc.
  destruct (Z.eqb_spec (allocate (h_live (with_live (λ live, live ∖ {[ p ]}) h1)) sizeof_node) 0) as [E|E].
  - change (0 =? 0) with true. cbv iota. intros Hin _ Hlive. assert (p ∈ h_live h1 ∖ {[ p ]}) by (apply Hlive; unfold addresses; set_solver). set_solver.
  - rewrite (proj2 (Z.eqb_neq _ _) E). cbv iota. unfold addresses. cbn. intros _ Hnd Hlive.
    set (n := allocate _ _) in *. assert (Hpn : p ∈ {[ n ]} ∪ h_live h1 ∖ {[ p ]}) by (apply Hlive; set_solver).
    assert (Heq : p = n) by set_solver. rewrite Heq in Hnd. apply NoDup_cons in Hnd as [Hnd _]. apply Hnd. set_solver.
Qed.

Lemma reachable_wf h : reachable h → wf h.
Proof.
  induction 1 as [live H0|h h' c _ IH Ha Hp].
  - split_and!; [constructor|intros p Hp; by apply not_elem_of_nil in Hp|done].
  - destruct c as [size|p size|p]; cbn [perform allowed] in *.
    + injection Hp as <-. by apply tracked_malloc_wf.
    + destruct (realloc_wf p size h IH Ha) as (h2 & q & E & Hwf). rewrite E, outcome_bind_ret in Hp. by injection Hp as <-.
    + destruct (free_wf p h IH) as [[_ E]|(h2 & n & E & Hwf & _)]; rewrite E in Hp; by injection Hp as <-.
Qed.

(** C34: After any sequence of calls in which [realloc] gets the null pointer or a block of the
    program, and never a tracked block with the size 0 ([allowed], [realloc_zero_dangles]), the
    list holds different live blocks, its own nodes included, and every further such call is
    defined: [free] with any pointer whatever, freed
    already, never allocated or taken from a C library.  Freeing a tracked block gives back the
    block and its node and no other block, and freeing it again does nothing. *)
Theorem tracked_allocation h : reachable h →
  wf h ∧
  (∀ c, allowed h c → ∃ h', perform c h = Ret h') ∧
  (∀ p, p ∉ (lucis_owned_head h).*2 → lucis_tracked_free p h = Ret h) ∧
  (∀ p, p ∈ (lucis_owned_head h).*2 → ∃ h', lucis_tracked_free p h = Ret h' ∧ p ∉ h_live h' ∧
    lucis_tracked_free p h' = Ret h' ∧ ∀ q, client h q → q ≠ p → q ∈ h_live h').
Proof.
  intros Hwf%reachable_wf. split_and!; [done| | |].
  - intros [size|p size|p] Ha; cbn [perform]; [by eexists| |].
    + destruct (realloc_wf p size h Hwf Ha) as (h2 & q & -> & _). rewrite outcome_bind_ret. by eexists.
    + destruct (free_wf p h Hwf) as [[_ ->]|(h2 & n & -> & _)]; by eexists.
  - intros p Hp. destruct (free_wf p h Hwf) as [[_ ?]|(h2 & n & E & _ & _ & El & _)]; [done|].
    revert E. unfold lucis_tracked_free, lucis_owned_untrack_ptr. pose proof (unlink_spec p (lucis_owned_head h)) as Hu.
    destruct (unlink p (lucis_owned_head h)) as [[dead l]|]; [|by destruct (p =? 0)].
    destruct Hu as (l1 & l2 & Eo & _). exfalso. apply Hp. rewrite Eo, fmap_app. cbn. set_solver.
  - intros p Hp. destruct (free_wf p h Hwf) as [[? _]|(h2 & n & E & _ & Hn & El & Ef)]; [done|].
    exists h2. split_and!; [done|rewrite El; set_solver|done|]. intros q [Hq Hqn] Hqp. rewrite El. set_solver.
Qed.
End allocator.

(** A system whose blocks come one behind the other, up to an address. *)
Definition bump (live : gset Z) (size : Z) : Z :=
  let top := foldr Z.max 0 (elements live) + 1 in if top <=? 100 then top else 0.

Lemma bump_fresh live size : bump live size = 0 ∨ bump live size ∉ live.
Proof.
  unfold bump. cbv zeta. destruct (Z.leb_spec (foldr Z.max 0 (elements live) + 1) 100); [right|by left].
  assert (H' : ∀ l p, p ∈ l → p ≤ foldr Z.max 0 l).
  { intros l p. induction l as [|q l IH]; [by intros ?%not_elem_of_nil|]. cbn. intros [->|?%IH]%elem_of_cons; lia. }
  intros Hin. apply elem_of_elements, H' in Hin. lia.
Qed.

Lemma tracked_allocation_witness :
  ∃ h, perform bump 16 (Malloc 8) {| h_live := ∅; lucis_owned_head := [] |} = Ret h ∧
  lucis_owned_head h = [(2, 1)] ∧ lucis_tracked_free 7 h = Ret h ∧ ∃ h', lucis_tracked_free 1 h = Ret h' ∧ 1 ∉ h_live h'.
Proof.
  eexists. split; [reflexivity|]. split; [reflexivity|].
  destruct (tracked_allocation bump 16 bump_fresh (lucis_tracked_malloc bump 16 8 {| h_live := ∅; lucis_owned_head := [] |}).1)
    as (_ & _ & H1 & H2).
  { apply (r_step bump 16 {| h_live := ∅; lucis_owned_head := [] |} _ (Malloc 8)); [by constructor|done|done]. }
  split; [apply H1; vm_compute; intros H; inversion H as [|? ? ? H']; inversion H'|].
  destruct (H2 1) as (h' & E & Hl & _); [left|]. by exists h'.
Defined.

(** After [realloc] with the size 0 a block is its own node, and is freed twice. *)
Lemma realloc_zero_double_free :
  ∃ h h', perform bump 16 (Malloc 8) {| h_live := ∅; lucis_owned_head := [] |} = Ret h ∧
  perform bump 16 (Realloc 1 0) h = Ret h' ∧ lucis_owned_head h' = [(1, 1)] ∧ perform bump 16 (Free 1) h' = Undef.
Proof. eexists _, _. split_and!; reflexivity. Qed.
