(* ===== verification/CBuffer.v ===== *)
(** * Buffers passed to C functions

    [Checker::analyzeUnsafeCBufferCall] ([checkers/Checker_safety.cpp]): a call of a function
    from a C header is searched, by the names and types of its parameters, for a destination
    with a known capacity and for a size or a source, and a warning is given when more is
    written than fits. *)

From S2P Require Import Prelude.
From S2P Require Import CxxLib.
From S2P Require Import TypeInfo.
From S2P Require Import Syntax.
From S2P Require Import ComptimeValue.
From S2P Require Import ConstEval.
From S2P Require Import Builtins.
From S2P Require Import Ownership.
Local Open Scope Z_scope.

(** What is read of a function of a C header. *)
Record CFunction := {
  cf_paramTypes : list (option TypeInfo);
  cf_paramNames : list string }.

Definition lower (s : string) : string := str_map tolower s.

Definition containsAny (s : string) (needles : list string) : bool :=
  existsb (λ n, negb (bool_decide (n = "")) && str_contains n s) needles.

Definition destHints : list string := ["dst"; "dest"; "out"; "buf"; "buffer"].
Definition sizeHints : list string := ["n"; "len"; "size"; "count"; "cap"; "bytes"].
Definition srcHints : list string := ["src"; "source"; "from"; "input"; "in"].

(** The positions of the parameters of a kind that have an argument. *)
Definition paramsOfKind (k : TypeKind) (types : list (option TypeInfo)) (args : nat) : list nat :=
  List.filter (λ i, match types !! i with Some (Some t) => hasKind k t | _ => false end)
    (seq 0 (length types `min` args)).

(** The first candidate whose name has a hint, or else the first. *)
Definition pickByHint (names : list string) (candidates : list nat) (hints : list string)
    (preferAfter : nat) (requireAfter : bool) : option nat :=
  let allowed i := negb (requireAfter && (i <=? preferAfter)%nat) in
  let hinted i :=
    match names !! i with Some pname => containsAny (lower pname) hints | None => false end in
  match List.find (λ i, allowed i && hinted i) candidates with
  | Some i => Some i
  | None => List.find allowed candidates
  end.

Definition escaped (vi : VarInfo) : VarInfo :=
  vi <| vi_pointerEscaped := true |> <| vi_hasKnownCStringLen := false |>.

Definition markEscaped (args : list expr) (i : nat) (c : Checker) : Checker :=
  match args !! i with
  | Some a =>
      match resolveTrackedVarFromExpr (locals_ c) a with
      | Some x => c <| locals_ := alter escaped x (locals_ c) |>
      | None => c
      end
  | None => c
  end.

Definition paramLabel (names : list string) (i : nat) : string :=
  match names !! i with
  | Some n => if bool_decide (n = "") then "arg" +:+ to_string (Z.of_nat i + 1) else n
  | None => "arg" +:+ to_string (Z.of_nat i + 1)
  end.

Section analysis.
(** The functions of the headers a file includes. *)
Context (cBindings_ : option (gmap string CFunction)).

Definition warnBuffer (ctx : context) (funcName details : string) : M Checker unit :=
  modifyS (warning ctx ("possible buffer overflow in C call '" +:+ funcName +:+ "': " +:+ details)).

Definition definiteMessage (pname : string) (lo cap : Z) : string :=
  "inferred write bound '" +:+ pname +:+ "' = " +:+ to_string lo +:+
  " exceeds destination capacity " +:+ to_string cap.

Definition possibleMessage (pname : string) (lo hi cap : Z) : string :=
  "inferred write bound range for '" +:+ pname +:+ "' is [" +:+ to_string lo +:+ ", " +:+
  to_string hi +:+ "], which may exceed destination capacity " +:+ to_string cap.

(** The size that is given, against the capacity. *)
Definition checkSize (ctx : context) (funcName pname : string) (a : expr) (cap : Z) : M Checker unit :=
  c ← getS;
  nRange ← liftO (tryEvalUSizeRangeExpr (locals_ c) a);
  match nRange with
  | Some (lo, hi) =>
      if cap <? lo then warnBuffer ctx funcName (definiteMessage pname lo cap)
      else if cap <? hi then warnBuffer ctx funcName (possibleMessage pname lo hi cap)
      else mret ()
  | None => mret ()
  end.

(** The literal that is copied, against the capacity. *)
Definition checkSource (ctx : context) (funcName pname : string) (a : expr) (cap : Z) : M Checker unit :=
  srcLen ← liftO (tryGetCStringLiteralLen a);
  match srcLen with
  | Some n =>
      let required := to_uint64 (n + 1) in
      if cap <? required then
        warnBuffer ctx funcName ("inferred minimum required size from source '" +:+ pname +:+ "' is " +:+
          to_string required +:+ " bytes, destination capacity is " +:+ to_string cap)
      else mret ()
  | None => mret ()
  end.

(** The variable behind an argument. *)
Definition trackedArg (c : Checker) (args : list expr) (i : nat) : option VarInfo :=
  match args !! i with
  | Some a => match resolveTrackedVarFromExpr (locals_ c) a with Some x => locals_ c !! x | None => None end
  | None => None
  end.

Definition analyzeUnsafeCBufferCall (funcName : string) (ctx : context) (args : list expr) : M Checker unit :=
  match match cBindings_ with Some b => b !! funcName | None => None end with
  | None => mret ()
  | Some cfunc =>
      if bool_decide (args = []) then mret () else
      let names := cf_paramNames cfunc in
      let pointerIdx := paramsOfKind TK.Pointer (cf_paramTypes cfunc) (length args) in
      let integerIdx := paramsOfKind TK.Integer (cf_paramTypes cfunc) (length args) in
      if bool_decide (pointerIdx = []) || (6 <? length (cf_paramTypes cfunc))%nat || (1 <? length integerIdx)%nat
      then mret () else
      modifyS (λ c, fold_left (λ c i, markEscaped args i c) pointerIdx c);;
      match pickByHint names pointerIdx destHints 0 false with
      | None => mret ()
      | Some destIdx =>
          if (2 <? destIdx)%nat then mret () else
          c ← getS;
          match trackedArg c args destIdx with
          | None => mret ()
          | Some dest =>
              if negb (vi_hasBufferCapacity dest) then mret () else
              let source :=
                match pickByHint names pointerIdx srcHints destIdx true with
                | None => mret ()
                | Some srcIdx =>
                    match args !! srcIdx with
                    | Some a => checkSource ctx funcName (paramLabel names srcIdx) a (vi_bufferCapacity dest)
                    | None => mret ()
                    end
                end in
              match pickByHint names integerIdx sizeHints destIdx true with
              | Some sizeIdx =>
                  if negb (length integerIdx =? 1)%nat then source else
                  if (sizeIdx <=? destIdx)%nat || (2 <? sizeIdx - destIdx)%nat then mret () else
                  match args !! sizeIdx with
                  | Some a => checkSize ctx funcName (paramLabel names sizeIdx) a (vi_bufferCapacity dest)
                  | None => mret ()
                  end
              | None => source
              end
          end
      end
  end.

(** ** What marking changes *)

(** The variables are the same, but some have escaped. *)
Definition same_but_escaped (l l' : gmap string VarInfo) : Prop :=
  ∀ y, l' !! y = l !! y ∨ l' !! y = escaped <$> l !! y.

Lemma same_but_escaped_range l l' e : same_but_escaped l l' → tryEvalUSizeRangeExpr l' e = tryEvalUSizeRangeExpr l e.
Proof.
  intros Hl. induction e as [e IH] using expr_children_ind.
  destruct e as [k t|x|e| |k op l1 e1| | | | | | | | | | | | | | | | | | | | | | | | |]; try done; simpl in IH;
    repeat match goal with H : Forall _ (_ :: _) |- _ => apply Forall_cons in H as [? H] end;
    cbn [tryEvalUSizeRangeExpr]; try done.
  - destruct (Hl x) as [->| ->]; [done|]. by destruct (l !! x).
  - destruct k; try done; [case_bool_decide; [|done]|];
      repeat match goal with H : tryEvalUSizeRangeExpr _ _ = _ |- _ => rewrite H; clear H end; done.
Qed.

Lemma same_but_escaped_tracked l l' e : same_but_escaped l l' → resolveTrackedVarFromExpr l' e = resolveTrackedVarFromExpr l e.
Proof.
  intros Hl. induction e as [e IH] using expr_children_ind.
  destruct e; try done; simpl in IH; repeat match goal with H : Forall _ (_ :: _) |- _ => apply Forall_cons in H as [? H] end;
    cbn [resolveTrackedVarFromExpr]; [|done].
  destruct (Hl name) as [->| ->]; [done|]. by destruct (l !! name).
Qed.

Lemma escaped_idem vi : escaped (escaped vi) = escaped vi.
Proof. done. Qed.

Lemma markEscaped_same args i c :
  same_but_escaped (locals_ c) (locals_ (markEscaped args i c)) ∧ diagnostics_ (markEscaped args i c) = diagnostics_ c.
Proof.
  unfold markEscaped. destruct (args !! i) as [a|]; [|split; [by left|done]].
  destruct (resolveTrackedVarFromExpr _ a) as [x|]; [|split; [by left|done]]. split; [|done]. intros y. cbn.
  destruct (decide (y = x)) as [->|Hy]; [right; by rewrite lookup_alter_eq|left; by rewrite lookup_alter_ne].
Qed.

Lemma markAll_same args l : ∀ c, let c' := fold_left (λ c i, markEscaped args i c) l c in
  same_but_escaped (locals_ c) (locals_ c') ∧ diagnostics_ c' = diagnostics_ c.
Proof.
  induction l as [|i l IH]; intros c; [split; [by left|done]|]. cbn [fold_left]. cbv zeta in IH.
  destruct (IH (markEscaped args i c)) as [H1 H2]. destruct (markEscaped_same args i c) as [H3 H4]. split; [|by rewrite H2].
  intros y. destruct (H1 y) as [->| ->], (H3 y) as [->| ->]; [by left|by right|by right|right].
  destruct (locals_ c !! y); [|done]. cbn. by rewrite escaped_idem.
Qed.

End analysis.

(** ** [memcpy(dst, src, n)] *)

Definition pointerTo : TypeInfo := mkTypeInfo "*void" TK.Pointer 0 false "ptr".
Definition sizeTI : TypeInfo := mkTypeInfo "usize" TK.Integer 64 false "usize".

Definition memcpy_bindings : gmap string CFunction := {[ "memcpy" :=
  {| cf_paramTypes := [Some pointerTo; Some pointerTo; Some sizeTI]; cf_paramNames := ["__dest"; "__src"; "__n"] |} ]}.

Definition buffer_locals : gmap string VarInfo :=
  <["p" := withCapacity 8 (newVar (Some pointerTo))]> {[ "q" := newVar (Some pointerTo) ]}.

