(* ===== verification/Calls.v ===== *)
(** * The types of calls

    The branches of [Checker::resolveExprType] ([checkers/Checker_type.cpp]) for method calls
    and function calls.  The receiver, the callee and the arguments are computations in the
    monad of the typing state, which the branches run in the order of the source.  What a
    generic function instantiates to and the specifier of a compile-time function's result
    are computations as well. *)

From S2P Require Import Prelude.
From S2P Require Import CxxLib.
From S2P Require Import TypeInfo.
From S2P Require Import Assign.
From S2P Require Import Traits.
From S2P Require Import Syntax.
From S2P Require Import ComptimeValue.
From S2P Require Import ConstEval.
From S2P Require Import Builtins.
From S2P Require Import Ownership.
From S2P Require Import CBuffer.
From S2P Require Import Attributes.
From S2P Require Import Modules.
From S2P Require Import Imports.
From S2P Require Import ExprType.
From S2P Require Import Methods.
From S2P Require Import TypeSpec.
From S2P Require Import GenericInfer.
Local Open Scope Z_scope.

(** ** Tables *)

(** [paramTypes] is without [self]. *)
Record StructMethodInfo := {
  sm_name : string;
  sm_returnType : option tyref;
  sm_paramTypes : list (option tyref);
  sm_isStatic : bool }.

(** A template, with its instantiation. *)
Record GenericFuncTemplate := {
  gf_typeParams : list (string * option Constraint);
  gf_formals : list (option typeSpec);
  gf_instantiate : list tyref → context → T (option tyref) }.

Record InjectedVariant := { iv_enumType : option tyref; iv_variantInfo : EnumVariantInfo }.

(** What calls look up besides [Tables].  Of a macro the parameters are kept; [isDeprecated]
    are the functions whose declaration has the attribute; [comptimeType] resolves the
    specifier of a compile-time function's result, if there is one. *)
Record CallTables := {
  structMethods_ : gmap string (list StructMethodInfo);
  traitRegistry_ : TraitRegistry;
  methodRegistry_ : MethodRegistry;
  extTypeRegistry_ : ExtendedTypeRegistry;
  genericFuncTemplates_ : gmap string GenericFuncTemplate;
  injectedVariants_ : gmap string InjectedVariant;
  cFunctionLikeMacros_ : gmap string (list string);
  isDeprecated : string → bool;
  comptimeType : string → option (T (option tyref));
  cBindings_ : option (gmap string CFunction) }.

(** ** Small steps *)

Definition liftC {A} (m : M Checker A) : T A := λ s,
  match m (ty_checker s) with
  | ROk a c => ROk a (s <| ty_checker := c |>)
  | RThrow x c => RThrow x (s <| ty_checker := c |>)
  | RUndef => RUndef
  | RNoFuel => RNoFuel
  end.

Fixpoint sequence {A} (l : list (T A)) : T (list A) :=
  match l with [] => mret [] | m :: l => a ← m; as_ ← sequence l; mret (a :: as_) end.

Definition parenthesised (l : list string) : string := "(" +:+ String.concat ", " l +:+ ")".

(** [formatParamTypes] *)
Definition formatParamTypes (l : list (option tyref)) : T string :=
  names ← sequence ((λ p, match p with Some p => t ← infoT p; mret (ti_name t) | None => mret "?" end) <$> l);
  mret (parenthesised names).

Definition count (n : nat) : string := to_string (Z.of_nat n).

(** The function type of a member, behind a pointer or not. *)
Definition functionBehind (p : tyref) : T TypeInfo :=
  t ← infoT p;
  match hasKind TK.Pointer t, ti_pointeeType t with
  | true, Some q => f ← infoT q; mret (if hasKind TK.Function f then f else t)
  | _, _ => mret t
  end.

(** An entry for a callee that has a name. *)
Definition named {A} (calleeName : string) (m : gmap string A) : option A :=
  if bool_decide (calleeName = "") then None else m !! calleeName.

Section calls.
Context (g : Tables) (ct : CallTables) (fuel : nat) (position : expr → context).
Notation errorT := (errorT position).
Notation assignableT := (assignableT fuel).

(** [getPointee] before a method is looked up. *)
Definition autoDeref (p : tyref) : T tyref :=
  t ← infoT p;
  mret match hasKind TK.Pointer t, ti_pointeeType t with true, Some q => q | _, _ => p end.

Definition wrongCount (e : expr) (what : string) (types : string) (given : nat) : T unit :=
  errorT e (what +:+ " arguments " +:+ types +:+ ", got " +:+ count given).

(** Arguments against parameter types, both known; the message starts with [what]. *)
Fixpoint checkArgs (e : expr) (what : string) (i : nat) (params args : list (option tyref)) : T unit :=
  match params, args with
  | p :: params, a :: args =>
      (match p, a with
       | Some p, Some a =>
           ok ← assignableT (Some p) (Some a);
           if ok : bool then mret () else
           np ← nameT (Some p); na ← nameT (Some a);
           errorT e (what +:+ "argument " +:+ count (S i) +:+ " type mismatch: expected " +:+ quote np +:+
                     ", got " +:+ quote na)
       | _, _ => mret ()
       end);;
      checkArgs e what (S i) params args
  | _, _ => mret ()
  end.

(** ** Method calls *)

(** The fields of the struct that hold functions; the first of the name decides. *)
Fixpoint fieldCall (e : expr) (methodName : string) (args : list (option tyref)) (fields : list FieldInfo)
    : T (option (option tyref)) :=
  match fields with
  | [] => mret None
  | f :: fields =>
      match bool_decide (fi_name f = methodName), fi_typeInfo f with
      | true, Some p =>
          fn ← functionBehind p;
          if hasKind TK.Function fn then
            (if (length args =? length (ti_paramTypes fn))%nat then mret () else
             types ← formatParamTypes (ti_paramTypes fn);
             wrongCount e ("function " +:+ quote methodName +:+ " expects " +:+ count (length (ti_paramTypes fn)))
               types (length args));;
            mret (Some (ti_returnType fn))
          else fieldCall e methodName args fields
      | _, _ => fieldCall e methodName args fields
      end
  end.

Definition findMethodInChain (p : option tyref) (name : string) : T (option StructMethodInfo) :=
  s ← getS; liftO (findInChain sm_name fuel (ty_env s) (structMethods_ ct) p name).

Definition structCall (e : expr) (recv : tyref) (rt : TypeInfo) (methodName : string) (args : list (option tyref))
    : T (option tyref) :=
  field ← fieldCall e methodName args (ti_fields rt);
  match field with
  | Some r => mret r
  | None =>
      sm ← findMethodInChain (Some recv) methodName;
      match match sm with Some sm => if sm_isStatic sm then None else Some sm | None => None end with
      | Some sm =>
          (if (length args =? length (sm_paramTypes sm))%nat then mret () else
           types ← formatParamTypes (sm_paramTypes sm);
           wrongCount e ("method " +:+ quote methodName +:+ " expects " +:+ count (length (sm_paramTypes sm)))
             types (length args));;
          checkArgs e ("method " +:+ quote methodName +:+ " ") 0 (sm_paramTypes sm) args;;
          mret (sm_returnType sm)
      | None =>
          match match findMethodInTraits (traitRegistry_ ct) rt methodName with
                | Some tm => if tm_isStatic tm then None else Some tm
                | None => None
                end with
          | Some tm =>
              when (negb (length args =? length (tm_paramTypes tm))%nat)
                (errorT e ("method " +:+ quote methodName +:+ " expects " +:+ count (length (tm_paramTypes tm)) +:+
                           " arguments, got " +:+ count (length args)));;
              mret (tm_returnType tm)
          | None =>
              errorT e ("struct " +:+ quote (ti_name rt) +:+ " has no method " +:+ quote methodName);; mret None
          end
      end
  end.

(** What a placeholder stands for: [Some p] a type that may be null, [None] when the
    parameter is skipped with an error. *)
Definition expectedParam (e : expr) (recv : tyref) (rt : TypeInfo) (methodName param : string)
    : T (option (option tyref)) :=
  if bool_decide (param = "_self") then mret (Some (Some recv)) else
  if bool_decide (param = "_elem") then
    mret (Some (if hasKind TK.Extended rt then orElse (ti_elementType rt) (Some recv) else Some recv)) else
  if bool_decide (param = "_key") then
    match hasKind TK.Extended rt, ti_keyType rt with
    | true, Some k => mret (Some (Some k))
    | _, _ => errorT e ("cannot resolve map key type for method " +:+ quote methodName);; mret None
    end else
  if bool_decide (param = "_val") then
    match hasKind TK.Extended rt, ti_valueType rt with
    | true, Some v => mret (Some (Some v))
    | _, _ => errorT e ("cannot resolve map value type for method " +:+ quote methodName);; mret None
    end else
  p ← lookupT param; mret (Some p).

Fixpoint checkDescriptorArgs (e : expr) (recv : tyref) (rt : TypeInfo) (methodName : string) (i : nat)
    (params : list string) (args : list (option tyref)) : T unit :=
  match params, args with
  | _ :: params, None :: args => checkDescriptorArgs e recv rt methodName (S i) params args
  | param :: params, Some a :: args =>
      expected ← expectedParam e recv rt methodName param;
      (match expected with
       | Some (Some p) =>
           ok ← assignableT (Some p) (Some a);
           if ok : bool then mret () else
           np ← nameT (Some p); na ← nameT (Some a);
           errorT e ("method " +:+ quote methodName +:+ " argument " +:+ count (S i) +:+
                     " type mismatch: expected " +:+ quote np +:+ ", got " +:+ quote na)
       | _ => mret ()
       end);;
      checkDescriptorArgs e recv rt methodName (S i) params args
  | _, _ => mret ()
  end.

(** [Vec] of the type, an existing one or a new one. *)
Definition vecOf (inner : tyref) : T tyref :=
  t ← infoT inner;
  let fullName := "Vec<" +:+ ti_name t +:+ ">" in
  s ← getS;
  match list_find (λ dt, ti_name dt = fullName) (te_dynamicTypes (ty_env s)) with
  | Some (i, _) => mret (DynT i)
  | None =>
      pushT ((mkTypeInfo fullName TK.Extended 0 false (ti_builtinSuffix t))
        <| ti_elementType := Some inner |> <| ti_extendedKind := "Vec" |>)
  end.

Definition methodReturn (recv : tyref) (rt : TypeInfo) (returnType : string) : T (option tyref) :=
  let member o := mret (if hasKind TK.Extended rt then orElse o (Some recv) else Some recv) in
  let vec (o : option tyref) :=
    match o with Some inner => p ← vecOf inner; mret (Some p) | None => lookupT returnType end in
  if bool_decide (returnType = "_self") then mret (Some recv) else
  if bool_decide (returnType = "_backing") then
    mret (if hasKind TK.BitStruct rt then orElse (ti_backingType rt) (Some recv) else Some recv) else
  if bool_decide (returnType = "_elem") then member (ti_elementType rt) else
  if bool_decide (returnType = "_key") then member (ti_keyType rt) else
  if bool_decide (returnType = "_val") then member (ti_valueType rt) else
  if bool_decide (returnType = "_vec_key") then vec (ti_keyType rt) else
  if bool_decide (returnType = "_vec_val") then vec (ti_valueType rt) else
  if bool_decide (returnType = "_vec_elem") then vec (ti_elementType rt) else
  lookupT returnType.

(** The descriptor of a method of an array, an extended or a built-in type, if its
    constraints hold. *)
Definition arrayMethod (e : expr) (rt : TypeInfo) (methodName : string) : T (option MethodDescriptor) :=
  match lookupArrayMethod (methodRegistry_ ct) methodName with
  | None =>
      errorT e ("array type '[]" +:+ ti_name rt +:+ "' has no method " +:+ quote methodName);; mret None
  | Some d =>
      if md_requireNumeric d && negb (isNumeric (Some rt)) then
        errorT e ("method " +:+ quote methodName +:+ " requires numeric element type, got " +:+ quote (ti_name rt));;
        mret None
      else mret (Some d)
  end.

Definition extendedMethod (e : expr) (rt : TypeInfo) (methodName : string) : T (option MethodDescriptor) :=
  match ext_lookup (extTypeRegistry_ ct) (ti_extendedKind rt) with
  | None => errorT e ("unknown extended type " +:+ quote (ti_extendedKind rt));; mret None
  | Some ext =>
      match list_find (λ d, md_name d = methodName) (ed_methods ext) with
      | None => errorT e ("type " +:+ quote (ti_name rt) +:+ " has no method " +:+ quote methodName);; mret None
      | Some (_, d) =>
          match md_requireNumeric d, ti_elementType rt with
          | true, Some elem =>
              et ← infoT elem;
              if isNumeric (Some et) then mret (Some d) else
              errorT e ("method " +:+ quote methodName +:+ " requires numeric element type, got " +:+ quote (ti_name et));;
              mret None
          | _, _ => mret (Some d)
          end
      end
  end.

Definition builtinMethod (e : expr) (rt : TypeInfo) (methodName : string) : T (option MethodDescriptor) :=
  match mr_lookup (methodRegistry_ ct) (ti_kind rt) methodName with
  | None => errorT e ("type " +:+ quote (ti_name rt) +:+ " has no method " +:+ quote methodName);; mret None
  | Some d =>
      if md_requireSigned d && hasKind TK.Integer rt && negb (ti_isSigned rt) then
        errorT e ("method " +:+ quote methodName +:+ " requires a signed integer type");; mret None
      else if md_requireUnsigned d && hasKind TK.Integer rt && ti_isSigned rt then
        errorT e ("method " +:+ quote methodName +:+ " requires an unsigned integer type");; mret None
      else mret (Some d)
  end.

Definition descriptorCall (e : expr) (recv : tyref) (rt : TypeInfo) (methodName : string)
    (args : list (option tyref)) (d : MethodDescriptor) : T (option tyref) :=
  if negb (length args =? length (md_paramTypes d))%nat then
    wrongCount e ("method " +:+ quote methodName +:+ " expects " +:+ count (length (md_paramTypes d)))
      (parenthesised (md_paramTypes d)) (length args);; mret None
  else
    checkDescriptorArgs e recv rt methodName 0 (md_paramTypes d) args;;
    methodReturn recv rt (md_returnType d).

(** [expr.method(args)]: the receiver, its dimensions and the arguments are computations. *)
Definition methodCall (e : expr) (receiver : T (option tyref)) (dims : T Z) (methodName : string)
    (args : list (T (option tyref))) : T (option tyref) :=
  receiverType ← receiver;
  argTypes ← sequence args;
  match receiverType with
  | None => mret None
  | Some p =>
      recv ← autoDeref p;
      recvArrayDims ← dims;
      rt ← infoT recv;
      let with_descriptor (m : T (option MethodDescriptor)) :=
        d ← m;
        match d with Some d => descriptorCall e recv rt methodName argTypes d | None => mret None end in
      if 0 <? recvArrayDims then with_descriptor (arrayMethod e rt methodName) else
      if hasKind TK.Struct rt then structCall e recv rt methodName argTypes else
      if hasKind TK.Extended rt then with_descriptor (extendedMethod e rt methodName) else
      with_descriptor (builtinMethod e rt methodName)
  end.

(** ** Function calls *)

(** The first argument of type void. *)
Fixpoint findVoid (i : nat) (args : list (option tyref)) : T (option nat) :=
  match args with
  | [] => mret None
  | a :: args =>
      t ← infoOpt a;
      if isKind TK.Void t then mret (Some i) else findVoid (S i) args
  end.

(** The first argument of type [*char]. *)
Fixpoint findCharPointer (i : nat) (args : list (option tyref)) : T (option nat) :=
  match args with
  | [] => mret None
  | a :: args =>
      t ← infoOpt a;
      pointee ← match t with
                | Some t => if hasKind TK.Pointer t then infoOpt (ti_pointeeType t) else mret None
                | None => mret None
                end;
      if isKind TK.Char pointee then mret (Some i) else findCharPointer (S i) args
  end.

Definition errorAt (es : list expr) (i : nat) (msg : string) : T unit :=
  match es !! i with Some e => errorT e msg | None => undefT end.

Definition effects (calleeName : string) (argExprs : list expr) (e : expr) : T unit :=
  liftC (applyCallOwnershipEffects (builtinRegistry_ g) calleeName argExprs (position e)).

Definition analyze (calleeName : string) (e : expr) (argExprs : list expr) : T unit :=
  liftC (analyzeUnsafeCBufferCall (cBindings_ ct) calleeName (position e) argExprs).

Definition genericCall (e : expr) (calleeName : string) (tmpl : GenericFuncTemplate) (argExprs : list expr)
    (args : list (option tyref)) : T (option tyref) :=
  if negb (length args =? length (gf_formals tmpl))%nat then
    errorT e ("generic function " +:+ quote calleeName +:+ " expects " +:+ count (length (gf_formals tmpl)) +:+
              " argument(s), got " +:+ count (length args));; mret None
  else
    inferred ← inferGenericTypeArgs (position e) calleeName (gf_typeParams tmpl) (gf_formals tmpl) args;
    match inferred with
    | None => mret None
    | Some ts => effects calleeName argExprs e;; gf_instantiate tmpl ts (position e)
    end.

Definition variantCall (e : expr) (calleeName : string) (iv : InjectedVariant) (args : list (option tyref))
    : T (option tyref) :=
  let v := iv_variantInfo iv in
  (match ev_payloadKind v with
   | PayloadNamed =>
       errorT e ("variant " +:+ quote calleeName +:+ " uses named payload; use braces instead of parentheses")
   | _ =>
       if negb (length args =? length (ev_payloadFields v))%nat then
         errorT e ("variant " +:+ quote calleeName +:+ " expects " +:+ count (length (ev_payloadFields v)) +:+
                   " argument(s), got " +:+ count (length args))
       else checkArgs e ("variant " +:+ quote calleeName +:+ " ") 0 (fi_typeInfo <$> ev_payloadFields v) args
   end);;
  mret (iv_enumType iv).

Definition macroCall (e : expr) (calleeName : string) (params : list string) (args : list (option tyref))
    : T (option tyref) :=
  when (negb (length args =? length params)%nat)
    (errorT e ("function-like macro " +:+ quote calleeName +:+ " expects " +:+ count (length params) +:+
               " argument(s), got " +:+ count (length args)));;
  lookupT "int32".

(** A callee whose type is a function type; the variadic parameter may have no argument. *)
Definition typedCall (e : expr) (calleeName : string) (fn : TypeInfo) (argExprs : list expr)
    (args : list (option tyref)) : T unit :=
  let params := ti_paramTypes fn in
  (if ti_isVariadic fn then
     let requiredCount := if (0 <? length params)%nat then (length params - 1)%nat else O in
     (if (length args <? requiredCount)%nat then
        types ← formatParamTypes params;
        wrongCount e ("function call expects at least " +:+ count requiredCount) types (length args)
      else mret ());;
     checkArgs e "" 0 params args
   else if negb (length args =? length params)%nat then
     types ← formatParamTypes params;
     wrongCount e ("function call expects " +:+ count (length params)) types (length args)
   else if bool_decide (calleeName = "toString") then mret ()
   else checkArgs e "" 0 params args);;
  if bool_decide (calleeName = "") then mret () else
  analyze calleeName e argExprs;;
  when (isDeprecated ct calleeName)
    (onChecker (warning (position e) ("call to deprecated function " +:+ quote calleeName))).

Definition builtinTypeT (name : string) : T (option tyref) := λ s,
  let '(env, p) := resolveBuiltinReturnType (ty_env s) name in ROk p (s <| ty_env := env |>).

Definition isPlaceholder (name : string) : bool :=
  bool_decide (name = "_any") || bool_decide (name = "_numeric") || bool_decide (name = "_integer") ||
  bool_decide (name = "_float").

Fixpoint checkBuiltinArgs (e : expr) (calleeName : string) (i : nat) (params : list string)
    (args : list (option tyref)) : T unit :=
  match params, args with
  | expected :: params, a :: args =>
      (match a with
       | Some a =>
           if isPlaceholder expected then mret () else
           expectedTI ← builtinTypeT expected;
           match expectedTI with
           | Some p =>
               ok ← assignableT (Some p) (Some a);
               if ok : bool then mret () else
               na ← nameT (Some a);
               errorT e (quote calleeName +:+ " argument " +:+ count (S i) +:+ ": expected " +:+ quote expected +:+
                         ", got " +:+ quote na)
           | None => mret ()
           end
       | None => mret ()
       end);;
      checkBuiltinArgs e calleeName (S i) params args
  | _, _ => mret ()
  end.

Definition isScalar (t : TypeInfo) : bool :=
  hasKind TK.Integer t || hasKind TK.Float t || hasKind TK.Bool t || hasKind TK.Char t.

(** The other arguments of a function whose parameters are all [_any]: none may be a scalar
    where the first is a string, or the other way round. *)
Fixpoint checkLikeFirst (e : expr) (calleeName : string) (first : option TypeInfo) (i : nat)
    (args : list (option tyref)) : T unit :=
  match args with
  | [] => mret ()
  | a :: args =>
      t ← infoOpt a;
      (match t, first with
       | Some t, Some f =>
           when ((hasKind TK.String f && isScalar t) || (hasKind TK.String t && isScalar f))
             (errorT e (quote calleeName +:+ " argument " +:+ count (S i) +:+ ": type mismatch, expected " +:+
                        quote (ti_name f) +:+ ", got " +:+ quote (ti_name t)))
       | _, _ => mret ()
       end);;
      checkLikeFirst e calleeName first (S i) args
  end.

Fixpoint checkNumeric (e : expr) (calleeName : string) (i : nat) (args : list (option tyref)) : T unit :=
  match args with
  | [] => mret ()
  | a :: args =>
      t ← infoOpt a;
      (match t with
       | Some t =>
           when (negb (hasKind TK.Integer t || hasKind TK.Float t))
             (errorT e (quote calleeName +:+ " argument " +:+ count (S i) +:+ ": expected numeric type, got " +:+
                        quote (ti_name t)))
       | None => mret ()
       end);;
      checkNumeric e calleeName (S i) args
  end.

Definition polymorphicArgs (e : expr) (calleeName : string) (sig : BuiltinSignature) (args : list (option tyref))
    : T unit :=
  match args with
  | first :: ((_ :: _) as rest) =>
      if negb (bs_isPolymorphic sig) then mret () else
      (if forallb (λ p, bool_decide (p = "_any")) (bs_paramTypes sig) then
         f ← infoOpt first; checkLikeFirst e calleeName f 1 rest
       else mret ());;
      (if forallb (λ p, bool_decide (p = "_numeric")) (bs_paramTypes sig) then checkNumeric e calleeName 0 args
       else mret ())
  | _ => mret ()
  end.

Definition builtinCall (e : expr) (calleeName : string) (sig : BuiltinSignature) (argExprs : list expr)
    (args : list (option tyref)) : T (option tyref) :=
  let params := bs_paramTypes sig in
  (if bs_isVariadic sig then
     when (length args <? length params)%nat
       (errorT e (quote calleeName +:+ " expects at least " +:+ count (length params) +:+ " argument(s) " +:+
                  parenthesised params +:+ ", got " +:+ count (length args)))
   else if negb (length args =? length params)%nat then
     errorT e (quote calleeName +:+ " expects " +:+ count (length params) +:+ " argument(s) " +:+
               parenthesised params +:+ ", got " +:+ count (length args))
   else if bs_isPolymorphic sig then mret ()
   else checkBuiltinArgs e calleeName 0 params args);;
  polymorphicArgs e calleeName sig args;;
  analyze calleeName e argExprs;;
  effects calleeName argExprs e;;
  if bool_decide (bs_returnType sig = "_any") || bool_decide (bs_returnType sig = "_numeric") then
    match args with Some p :: _ => mret (Some p) | _ => lookupT "int32" end
  else builtinTypeT (bs_returnType sig).

(** A callee found by its type, among the compile-time functions or among the built-in ones. *)
Definition calledByType (e : expr) (calleeName : string) (calleeType : option tyref) (argExprs : list expr)
    (args : list (option tyref)) : T (option tyref) :=
  ti ← infoOpt calleeType;
  match match ti with Some t => if hasKind TK.Function t then Some t else None | None => None end with
  | Some fn =>
      typedCall e calleeName fn argExprs args;;
      effects calleeName argExprs e;;
      mret (ti_returnType fn)
  | None =>
      if bool_decide (calleeName = "") then mret None else
      if isComptime (comptimeRegistry_ g) calleeName then
        effects calleeName argExprs e;;
        match comptimeType ct calleeName with Some m => m | None => lookupT "int32" end
      else
        match br_lookup (builtinRegistry_ g) calleeName with
        | Some sig => builtinCall e calleeName sig argExprs args
        | None => mret None
        end
  end.

(** [expr(args)]: [calleeName] is empty unless the callee is an identifier. *)
Definition fnCall (e : expr) (calleeName : string) (callee : T (option tyref)) (argExprs : list expr)
    (args : list (T (option tyref))) : T (option tyref) :=
  argTypes ← sequence args;
  void ← findVoid 0 argTypes;
  match void with
  | Some i =>
      errorAt argExprs i ("argument " +:+ count (S i) +:+
        " has type 'void'; functions returning void cannot be used as values");; mret None
  | None =>
      charPointer ← (if bool_decide (calleeName = "sprintf") && isImported (importResolver_ g) "sprintf"
                     then findCharPointer 0 argTypes else mret None);
      match charPointer with
      | Some i =>
          errorAt argExprs i ("'sprintf' from Lucis does not accept '*char'; " +:+
            "pass 'string' values (use 'fromCStr(...)' if needed)");; mret None
      | None =>
          match named calleeName (genericFuncTemplates_ ct) with
          | Some tmpl => genericCall e calleeName tmpl argExprs argTypes
          | None =>
              match named calleeName (injectedVariants_ ct) with
              | Some iv => variantCall e calleeName iv argTypes
              | None =>
                  match named calleeName (cFunctionLikeMacros_ ct) with
                  | Some params => macroCall e calleeName params argTypes
                  | None =>
                      calleeType ← callee;
                      calledByType e calleeName calleeType argExprs argTypes
                  end
              end
          end
      end
  end.
End calls.

(** ** What is not checked *)

(** A call through a field of function type checks the number of arguments, not their types. *)
Lemma fieldCall_unchecked position e name args f p fn s :
  fi_name f = name → fi_typeInfo f = Some p → resolve (ty_env s) p = Some fn → hasKind TK.Function fn = true →
  length args = length (ti_paramTypes fn) →
  ∀ fields, fieldCall position e name args (f :: fields) s = ROk (Some (ti_returnType fn)) s.
Proof.
  intros Hn Hf Hp Hfn Hl fields. cbn [fieldCall]. rewrite bool_decide_eq_true_2, Hf by done.
  assert (Hptr : hasKind TK.Pointer fn = false).
  { unfold hasKind in *. apply bool_decide_eq_true in Hfn. rewrite Hfn. done. }
  unfold functionBehind, infoT, mbind, M_bind, getS, deref. rewrite Hp. cbn [liftO]. rewrite Hptr. unfold mret, M_ret.
  rewrite Hfn, Hl, Nat.eqb_refl. done.
Qed.

(** Arguments behind the last parameter, as variadic calls have them, are not checked. *)
Lemma checkArgs_rest fuel position e what params : ∀ i args rest, length args = length params →
  checkArgs fuel position e what i params (args ++ rest) = checkArgs fuel position e what i params args.
Proof.
  induction params as [|p params IH]; intros i [|a args] rest Hl; try done.
  cbn [app checkArgs]. simpl in Hl. rewrite IH by lia. done.
Qed.
