(* ===== verification/CallsKeep.v ===== *)
(** * The function being checked stays the same

    [Checker::currentFnConsumeKey_] names the function whose body is checked.  The branches of
    [Calls] do not change it; as long as it is not the callee, the ownership effects of a call
    are defined. *)

From S2P Require Import Prelude.
From S2P Require Import CxxLib.
From S2P Require Import TypeInfo.
From S2P Require Import Assign.
From S2P Require Import Traits.
From S2P Require Import Syntax.
From S2P Require Import ComptimeValue.
From S2P Require Import ConstEval.
From S2P Require Import Builtins.
From S2P Require Import Ownership.
From S2P Require Import CBuffer.
From S2P Require Import Attributes.
From S2P Require Import Modules.
From S2P Require Import Imports.
From S2P Require Import ExprType.
From S2P Require Import Methods.
From S2P Require Import TypeSpec.
From S2P Require Import TypeSpecSafety.
From S2P Require Import GenericInfer.
From S2P Require Import Calls.
Local Open Scope Z_scope.

(** ** In the checker *)

Lemma emitDiag_key ctx sev msg c : currentFnConsumeKey_ (emitDiag ctx sev msg c) = currentFnConsumeKey_ c.
Proof. apply emitDiag_consuming. Qed.

Lemma markExprAsMoved_fn e ctx c : currentFnConsumeKey_ (markExprAsMoved e ctx c) = currentFnConsumeKey_ c.
Proof.
  unfold markExprAsMoved, recordConsumed, error.
  repeat (case_match || (rewrite emitDiag_key) || done).
Qed.

Lemma consumedArgs_fn f l args ctx : ∀ c, currentFnConsumeKey_ c ≠ f →
  ∃ c', consumedArgs f l args ctx c = ROk () c' ∧ currentFnConsumeKey_ c' = currentFnConsumeKey_ c.
Proof.
  induction l as [|i l IH]; intros c Hc; cbn [consumedArgs]; [by eexists|]. cbv zeta.
  set (c' := match args !! i with Some a => markExprAsMoved a ctx c | None => c end).
  assert (Hk : currentFnConsumeKey_ c' = currentFnConsumeKey_ c) by (subst c'; destruct (args !! i); [apply markExprAsMoved_fn|done]).
  assert (Hu : userFunctionConsumingArgs_ c' !! f = userFunctionConsumingArgs_ c !! f).
  { subst c'. destruct (args !! i); [by apply markExprAsMoved_key|done]. }
  rewrite bool_decide_eq_true_2 by done. destruct (IH c') as (c2 & E & Hk2); [by rewrite Hk|]. exists c2. by rewrite Hk2.
Qed.

Lemma builtinArgs_key reg f ctx args : ∀ i c, currentFnConsumeKey_ (builtinArgs reg f i args ctx c) = currentFnConsumeKey_ c.
Proof.
  induction args as [|a args IH]; intros i c; [done|]. cbn [builtinArgs]. rewrite IH.
  repeat case_match; [done|apply markExprAsMoved_fn|done].
Qed.

Lemma recordEdges_key f args : ∀ i c, currentFnConsumeKey_ (recordEdges f i args c) = currentFnConsumeKey_ c.
Proof.
  induction args as [|a args IH]; intros i c; [done|]. cbn [recordEdges]. rewrite IH.
  unfold recordConsumeEdgeIfParam. by repeat case_match.
Qed.

Lemma effects_defined reg f args ctx c : currentFnConsumeKey_ c ≠ f →
  ∃ c', applyCallOwnershipEffects reg f args ctx c = ROk () c' ∧ currentFnConsumeKey_ c' = currentFnConsumeKey_ c.
Proof.
  intros Hc. unfold applyCallOwnershipEffects. destruct (if bool_decide (f = "") then _ else _).
  - eexists. split; [done|]. apply builtinArgs_key.
  - destruct (consumedArgs_fn f (default [] (userFunctionConsumingArgs_ c !! f)) args ctx c Hc) as (c' & -> & Hk).
    eexists. split; [done|]. by rewrite recordEdges_key.
Qed.

(** *** The analysis of buffers *)

Definition returns_or_throws {A} (m : outcome A) : Prop := match m with Ret _ | Throw _ => True | _ => False end.

Lemma rt_bind {A B} (m : outcome A) (f : A → outcome B) :
  returns_or_throws m → (∀ a, returns_or_throws (f a)) → returns_or_throws (m ≫= f).
Proof. destruct m; cbn; auto. Qed.

Lemma rt_stoull base s : returns_or_throws (stoull base s).
Proof. unfold stoull. by repeat case_match. Qed.

Lemma rt_parseUSize s : returns_or_throws (parseUSize s).
Proof.
  unfold parseUSize. case_match; [done|]. case_match; [done|]. apply rt_bind; [|done].
  unfold catch_all. pose proof (rt_stoull 10 (str_remove "_" s)). rewrite H in *. by destruct (stoull _ _).
Qed.

Lemma rt_suffixed text sufs : returns_or_throws (tryEvalSuffixed sufs text).
Proof. induction sufs as [|suf sufs IH]; [done|]. cbn [tryEvalSuffixed]. case_match; [apply rt_parseUSize|done]. Qed.

Lemma rt_range locals e : returns_or_throws (tryEvalUSizeRangeExpr locals e).
Proof.
  induction e as [e IH] using expr_children_ind.
  destruct e as [k t|x|e| |k op l e| | | | | | | | | | | | | | | | | | | | | | | | |]; try done; simpl in IH;
    repeat match goal with H : Forall _ (_ :: _) |- _ => apply Forall_cons in H as [? H] end; cbn [tryEvalUSizeRangeExpr]; try done.
  - destruct k; try done; first [apply rt_parseUSize|apply rt_suffixed].
  - destruct k; try done; [case_bool_decide; [|done]|]; (apply rt_bind; [done|]; intros; apply rt_bind; done).
Qed.

Lemma rt_decodeLoop fuel s len : decodeLoop fuel s len ≠ Undef.
Proof.
  revert s len. induction fuel as [|fuel IH]; intros s len; [done|]. cbn [decodeLoop].
  assert (Hu : ∀ t k v, (cp ← stoull 16 t; decodeLoop fuel k (v + utf8_len (to_uint32 cp))) ≠ Undef).
  { intros t k v. pose proof (rt_stoull 16 t). destruct (stoull 16 t); try done. apply IH. }
  repeat (case_match; try done; try apply IH; try apply Hu).
Qed.

Lemma rt_literalLen e : returns_or_throws (tryGetCStringLiteralLen e).
Proof.
  assert (Hd : ∀ tok prefix, returns_or_throws (decodeLen tok prefix)).
  { intros tok prefix. unfold decodeLen. repeat (case_match; [done|]).
    pose proof (rt_decodeLoop (S (String.length tok)) (str_drop (String.length prefix + 1) tok) 0).
    pose proof (decodeLoop_ends (S (String.length tok)) (str_drop (String.length prefix + 1) tok) 0) as He.
    destruct (decodeLoop _ _ _); try done. apply He; [|done]. rewrite str_length_drop. lia. }
  induction e as [e IH] using expr_children_ind. destruct e as [k t| | | | | | | | | | | | | | | | | | | | | | | | | | | | |]; try done; simpl in IH;
    repeat match goal with H : Forall _ (_ :: _) |- _ => apply Forall_cons in H as [? H] end; cbn [tryGetCStringLiteralLen]; try done.
  by destruct k.
Qed.

(** The computation ends, and the function being checked is the same. *)
Definition steady {A} (m : M Checker A) : Prop := ∀ c,
  match m c with ROk _ c' | RThrow _ c' => currentFnConsumeKey_ c' = currentFnConsumeKey_ c | _ => False end.

Lemma steady_ret {A} (a : A) : steady (mret a).
Proof. by intros c. Qed.
Lemma steady_bind {A B} (m : M Checker A) (f : A → M Checker B) : steady m → (∀ a, steady (f a)) → steady (m ≫= f).
Proof.
  intros Hm Hf c. specialize (Hm c). unfold mbind, M_bind. destruct (m c) as [a c'|x c'| |]; try done.
  specialize (Hf a c'). destruct (f a c'); congruence || done.
Qed.
Lemma steady_get : steady getS.
Proof. by intros c. Qed.
Lemma steady_lift {A} (m : outcome A) : returns_or_throws m → steady (liftO m).
Proof. intros Hm c. unfold liftO. by destruct m. Qed.
Lemma steady_warn ctx f d : steady (warnBuffer ctx f d).
Proof. intros c. unfold warnBuffer, modifyS, warning. apply emitDiag_key. Qed.

Create HintDb steady discriminated.
#[export] Hint Resolve steady_get steady_lift steady_warn rt_range rt_literalLen : steady.

(** Walks through a computation. *)
Ltac steadies :=
  lazymatch goal with
  | |- steady (match ?x with _ => _ end) => destruct x; steadies
  | |- steady (mret _) => apply steady_ret
  | |- steady (mbind _ _) => apply steady_bind; [steadies|intros; steadies]
  | |- _ => solve [eauto with steady]
  end.

Lemma markEscaped_key args i c : currentFnConsumeKey_ (markEscaped args i c) = currentFnConsumeKey_ c.
Proof. unfold markEscaped. by repeat case_match. Qed.

Lemma steady_mark args l : steady (modifyS (λ c, fold_left (λ c i, markEscaped args i c) l c)).
Proof.
  intros c. cbn. revert c. induction l as [|i l IH]; intros c; [done|]. cbn [fold_left]. by rewrite IH, markEscaped_key.
Qed.

#[export] Hint Resolve steady_mark : steady.

Lemma analyze_steady b f ctx args : steady (analyzeUnsafeCBufferCall b f ctx args).
Proof. unfold analyzeUnsafeCBufferCall, checkSize, checkSource. cbv zeta. steadies. Qed.

(** ** In the typing state *)

Definition key (s : Typer) : string := currentFnConsumeKey_ (ty_checker s).

Definition keyed {A} (m : T A) : Prop := ∀ s, match m s with ROk _ s' | RThrow _ s' => key s' = key s | _ => True end.

Lemma keyed_ret {A} (a : A) : keyed (mret a).
Proof. by intros s. Qed.
Lemma keyed_bind {A B} (m : T A) (f : A → T B) : keyed m → (∀ a, keyed (f a)) → keyed (m ≫= f).
Proof.
  intros Hm Hf s. specialize (Hm s). unfold mbind, M_bind. destruct (m s) as [a s'|x s'| |]; try done.
  specialize (Hf a s'). destruct (f a s'); congruence || done.
Qed.
Lemma keyed_get : keyed getS.
Proof. by intros s. Qed.
Lemma keyed_lift {A} (m : outcome A) : keyed (liftO m).
Proof. intros s. unfold liftO. by destruct m. Qed.
Lemma keyed_undef {A} : keyed (@undefT A).
Proof. done. Qed.
Lemma keyed_info p : keyed (infoT p).
Proof. apply keyed_bind; [apply keyed_get|]. intros. apply keyed_lift. Qed.
Lemma keyed_infoOpt p : keyed (infoOpt p).
Proof. destruct p; [|apply keyed_ret]. apply keyed_bind; [apply keyed_info|]. intros. apply keyed_ret. Qed.
Lemma keyed_lookup n : keyed (lookupT n).
Proof. apply keyed_bind; [apply keyed_get|]. intros. apply keyed_ret. Qed.
Lemma keyed_push t : keyed (pushT t).
Proof. intros s. unfold pushT. by destruct (pushDynamic _ t). Qed.
Lemma keyed_assignable fuel l r : keyed (assignableT fuel l r).
Proof. apply keyed_bind; [apply keyed_get|]. intros. apply keyed_lift. Qed.
Lemma keyed_name p : keyed (nameT p).
Proof. destruct p; [|apply keyed_undef]. apply keyed_bind; [apply keyed_info|]. intros. apply keyed_ret. Qed.
Lemma keyed_emit ctx sev msg : keyed (onChecker (emitDiag ctx sev msg)).
Proof. intros s. apply emitDiag_key. Qed.
Lemma keyed_error ctx msg : keyed (onChecker (error ctx msg)).
Proof. apply keyed_emit. Qed.
Lemma keyed_warning ctx msg : keyed (onChecker (warning ctx msg)).
Proof. apply keyed_emit. Qed.
Lemma keyed_errorT position e msg : keyed (errorT position e msg).
Proof. apply keyed_emit. Qed.
Lemma keyed_liftC {A} (m : M Checker A) : steady m → keyed (liftC m).
Proof. intros Hm s. specialize (Hm (ty_checker s)). unfold liftC. by destruct (m _). Qed.
Lemma keyed_builtinType n : keyed (builtinTypeT n).
Proof. intros s. unfold builtinTypeT. by destruct (resolveBuiltinReturnType _ n). Qed.
Lemma keyed_errorAt position es i msg : keyed (errorAt position es i msg).
Proof. unfold errorAt. destruct (es !! i); [apply keyed_errorT|apply keyed_undef]. Qed.

Create HintDb keyed discriminated.
#[export] Hint Resolve keyed_get keyed_lift keyed_undef keyed_info keyed_infoOpt keyed_lookup keyed_push keyed_assignable
  keyed_name keyed_error keyed_warning keyed_errorT keyed_liftC keyed_builtinType keyed_errorAt analyze_steady : keyed.

Ltac keep :=
  lazymatch goal with
  | |- keyed (match ?x with _ => _ end) => destruct x; keep
  | |- keyed (mret _) => apply keyed_ret
  | |- keyed (when _ _) => unfold when; keep
  | |- keyed (mbind _ _) => apply keyed_bind; [keep|intros; keep]
  | |- _ => solve [eauto with keyed]
  end.

Lemma keyed_sequence {A} (l : list (T A)) : Forall keyed l → keyed (sequence l).
Proof. induction 1; cbn [sequence]; keep. Qed.

Lemma keyed_formatTypes l : keyed (formatParamTypes l).
Proof.
  unfold formatParamTypes. apply keyed_bind; [|intros; apply keyed_ret]. apply keyed_sequence, Forall_fmap, Forall_forall.
  intros [p|] _; cbn; keep.
Qed.
Lemma keyed_wrongCount position e what types n : keyed (wrongCount position e what types n).
Proof. apply keyed_emit. Qed.
#[export] Hint Resolve keyed_formatTypes keyed_wrongCount : keyed.

Section calls.
Context (g : Tables) (ct : CallTables) (fuel : nat) (position : expr → context).

Lemma keyed_checkArgs e what params : ∀ i args, keyed (checkArgs fuel position e what i params args).
Proof. induction params as [|p params IH]; intros i [|a args]; cbn [checkArgs]; try apply keyed_ret. keep. Qed.
Lemma keyed_findVoid args : ∀ i, keyed (findVoid i args).
Proof. induction args; intros i; cbn [findVoid]; keep. Qed.
Lemma keyed_findCharPointer args : ∀ i, keyed (findCharPointer i args).
Proof. induction args; intros i; cbn [findCharPointer]; keep. Qed.
Lemma keyed_checkBuiltinArgs e f params : ∀ i args, keyed (checkBuiltinArgs fuel position e f i params args).
Proof. induction params as [|p params IH]; intros i [|a args]; cbn [checkBuiltinArgs]; try apply keyed_ret. keep. Qed.
Lemma keyed_checkLikeFirst e f t args : ∀ i, keyed (checkLikeFirst position e f t i args).
Proof. induction args; intros i; cbn [checkLikeFirst]; keep. Qed.
Lemma keyed_checkNumeric e f args : ∀ i, keyed (checkNumeric position e f i args).
Proof. induction args; intros i; cbn [checkNumeric]; keep. Qed.
Hint Resolve keyed_checkArgs keyed_findVoid keyed_findCharPointer keyed_checkBuiltinArgs keyed_checkLikeFirst keyed_checkNumeric : keyed.

Lemma keyed_variantCall e f iv args : keyed (variantCall fuel position e f iv args).
Proof. unfold variantCall. keep. Qed.
Lemma keyed_macroCall e f params args : keyed (macroCall position e f params args).
Proof. unfold macroCall. keep. Qed.
Lemma keyed_analyze f e es : keyed (analyze ct position f e es).
Proof. apply keyed_liftC, analyze_steady. Qed.
Hint Resolve keyed_analyze : keyed.
Lemma keyed_typedCall e f fn es args : keyed (typedCall ct fuel position e f fn es args).
Proof. unfold typedCall. keep. Qed.
Lemma keyed_polymorphicArgs e f sig args : keyed (polymorphicArgs position e f sig args).
Proof. unfold polymorphicArgs. keep. Qed.

(** *** Inference of type arguments *)

Lemma keyed_unify params ctx f F : ∀ a inferred, keyed (unifyGenericTypeArg params ctx f F a inferred).
Proof.
  induction F as [F IH] using typeSpec_children_ind. intros a inferred.
  assert (Hparam : ∀ name p, keyed (unifyParam ctx f inferred name p)) by (intros; unfold unifyParam; keep).
  assert (Hall : ∀ l, Forall (λ F, ∀ a inferred, keyed (unifyGenericTypeArg params ctx f F a inferred)) l →
    ∀ args inferred, keyed ((fix go (l : list typeSpec) (args : list (option tyref)) (inferred : Inferred) : T (bool * Inferred * bool) :=
      match l, args with
      | t :: l, a :: args =>
          r ← unifyGenericTypeArg params ctx f t a inferred;
          if r.1.1 : bool then go l args r.1.2 else mret r
      | _, _ => mret (true, inferred, false)
      end) l args inferred)).
  { induction 1 as [|t l Ht _ IHl]; intros [|a' args] inf; try apply keyed_ret. keep. }
  destruct F; cbn [spec_children] in IH; cbn [unifyGenericTypeArg is_bare is_array];
    repeat match goal with H : Forall _ (_ :: _) |- _ => apply Forall_cons in H as [? H] end; keep.
Qed.

Lemma keyed_inferLoop params ctx f formals : ∀ i args inferred, keyed (inferLoop params ctx f i formals args inferred).
Proof. induction formals as [|[F|] formals IH]; intros i [|a args] inferred; cbn [inferLoop]; try apply keyed_ret; eauto using keyed_unify.
  pose proof keyed_unify. keep. Qed.

Lemma keyed_collectArgs ctx f tps : Forall (λ tp, ∀ c p, tp.2 = Some c → keyed (c p)) tps → ∀ inferred, keyed (collectArgs ctx f tps inferred).
Proof.
  induction 1 as [|[x [c|]] tps Hc _ IH]; intros inferred; cbn [collectArgs]; try apply keyed_ret; cbn in Hc.
  - assert (∀ p, keyed (c p)) by (intros; by apply Hc). keep.
  - keep.
Qed.

Lemma keyed_infer ctx f tps formals args : Forall (λ tp, ∀ c p, tp.2 = Some c → keyed (c p)) tps →
  keyed (inferGenericTypeArgs ctx f tps formals args).
Proof. intros Hc. unfold inferGenericTypeArgs. pose proof keyed_inferLoop. pose proof (keyed_collectArgs ctx f tps Hc). keep. Qed.
End calls.
#[export] Hint Resolve keyed_checkArgs keyed_findVoid keyed_findCharPointer keyed_checkBuiltinArgs keyed_checkLikeFirst
  keyed_checkNumeric keyed_variantCall keyed_macroCall keyed_analyze keyed_typedCall keyed_polymorphicArgs : keyed.
