(* ===== verification/CallsSafety.v ===== *)
(** * Typing calls is safe

    The triples of [ExprTypeSafety] for the branches of [Calls]: method calls keep the
    invariant of the typing state whatever the receiver is, and function calls do so as long
    as the callee is not the function that is being checked. *)

From S2P Require Import Prelude.
From S2P Require Import CxxLib.
From S2P Require Import TypeInfo.
From S2P Require Import Assign.
From S2P Require Import Traits.
From S2P Require Import Syntax.
From S2P Require Import ComptimeValue.
From S2P Require Import ConstEval.
From S2P Require Import Builtins.
From S2P Require Import Ownership.
From S2P Require Import CBuffer.
From S2P Require Import Attributes.
From S2P Require Import Modules.
From S2P Require Import Imports.
From S2P Require Import ExprType.
From S2P Require Import ExprTypeSafety.
From S2P Require Import Methods.
From S2P Require Import TypeSpec.
From S2P Require Import TypeSpecSafety.
From S2P Require Import GenericInfer.
From S2P Require Import Calls.
From S2P Require Import CallsKeep.
Local Open Scope nat_scope.

Notation any := (λ _ _, True).

(** The pointers in the tables of calls. *)
Inductive in_calls (ct : CallTables) (p : tyref) : Prop :=
| ic_result x ms m : structMethods_ ct !! x = Some ms → m ∈ ms → sm_returnType m = Some p → in_calls ct p
| ic_param x ms m : structMethods_ ct !! x = Some ms → m ∈ ms → Some p ∈ sm_paramTypes m → in_calls ct p
| ic_trait x y m impl tm : tg_impls (traitRegistry_ ct) !! x = Some m → m !! y = Some impl →
    tm ∈ im_methodBodies impl → tm_returnType tm = Some p → in_calls ct p
| ic_enum x iv : injectedVariants_ ct !! x = Some iv → iv_enumType iv = Some p → in_calls ct p
| ic_payload x iv f : injectedVariants_ ct !! x = Some iv → f ∈ ev_payloadFields (iv_variantInfo iv) →
    fi_typeInfo f = Some p → in_calls ct p.

Definition calls_known (ct : CallTables) (s : Typer) : Prop := ∀ p, in_calls ct p → exists_in s p.

Definition all_known (l : list (option tyref)) (s : Typer) : Prop := ∀ p, Some p ∈ l → exists_in s p.

Lemma calls_known_grows ct s s' : calls_known ct s → grows s s' → calls_known ct s'.
Proof. intros H Hg p Hp. eapply exists_grows; eauto. Qed.
Lemma all_known_grows l s s' : all_known l s → grows s s' → all_known l s'.
Proof. intros H Hg p Hp. eapply exists_grows; eauto. Qed.
Lemma all_known_cons a l s : all_known (a :: l) s → known a s ∧ all_known l s.
Proof. intros H. split; [intros q ->; apply H; by left|intros q Hq; apply H; by right]. Qed.
Lemma all_known_nil s : all_known [] s.
Proof. intros p Hp. by apply not_elem_of_nil in Hp. Qed.

Ltac raise :=
  lift;
  repeat match goal with
  | Hg : grows ?s _, H : all_known _ ?s |- _ => replace_by H (all_known_grows _ _ _ H Hg)
  | Hg : grows ?s _, H : calls_known _ ?s |- _ => replace_by H (calls_known_grows _ _ _ H Hg)
  end.

(** A step whose triple is given; then what is known is carried over. *)
Ltac after tac := eapply safe_bind; [solve [tac]|intros ? ? ? ? ?; raise].

(** *** Tables of inferred types *)

Definition table_in (inferred : Inferred) (s : Typer) : Prop := ∀ x p, inferred !! x = Some p → exists_in s p.

(** The induction hypothesis for a part of a specifier. *)
Ltac use_IH := match goal with IHF : ∀ _ _ _, known _ _ → table_in _ _ → _ |- _ => apply IHF; clear IHF end.

(** A specifier with one part, against a type of this shape. *)
Ltac single shape part pointer :=
  match goal with Hno : ∀ _ _, _ → _, Hheld : ∀ _, _ → known _ _ |- _ =>
    destruct shape; [|by apply Hno];
    let q := fresh in let Hq := fresh in destruct part as [q|] eqn:Hq; [|by apply Hno];
    use_IH; [rewrite <-Hq; apply Hheld, pointer|done]
  end.

Section calls.
Context (g : Tables) (ct : CallTables) (fuel : nat) (position : expr → context).

Lemma held_denotes N0 s p t (o : option tyref) :
  ok g N0 s → denotes p (Some t) s → (∀ q, o = Some q → q ∈ ti_pointers t) → known o s.
Proof. intros Hok Hp Ho q Hq. eapply held_known; eauto. Qed.

(** The pointers of a type, by member. *)
Lemma pointer_return t q : ti_returnType t = Some q → q ∈ ti_pointers t.
Proof. intros H. unfold ti_pointers. rewrite !elem_of_app, H. do 5 right. left. apply list_elem_of_singleton. done. Qed.
Lemma pointer_backing t q : ti_backingType t = Some q → q ∈ ti_pointers t.
Proof. intros H. unfold ti_pointers. rewrite !elem_of_app, H. do 3 right. left. apply list_elem_of_singleton. done. Qed.
Lemma pointer_param t q : Some q ∈ ti_paramTypes t → q ∈ ti_pointers t.
Proof.
  intros H. unfold ti_pointers. rewrite !elem_of_app. do 6 right. left. apply list_elem_of_bind. exists (Some q).
  split; [by apply list_elem_of_singleton|done].
Qed.
Lemma pointer_pointee t q : ti_pointeeType t = Some q → q ∈ ti_pointers t.
Proof. intros H. apply pointers_members. left. by apply opt_held. Qed.
Lemma pointer_element t q : ti_elementType t = Some q → q ∈ ti_pointers t.
Proof. intros H. apply pointers_members. right. left. by apply opt_held. Qed.
Lemma pointer_key t q : ti_keyType t = Some q → q ∈ ti_pointers t.
Proof. intros H. apply pointers_members. do 2 right. left. by apply opt_held. Qed.
Lemma pointer_value t q : ti_valueType t = Some q → q ∈ ti_pointers t.
Proof. intros H. apply pointers_members. do 3 right. left. by apply opt_held. Qed.
Lemma pointer_field t f q : f ∈ ti_fields t → fi_typeInfo f = Some q → q ∈ ti_pointers t.
Proof. intros Hf H. apply pointers_members. do 4 right. left. by exists f. Qed.

Section level.
Context (N : nat) (HN : N < fuel) (Hpos : 0 < N).
Notation safely s0 m R := (safe g s0 N m N R).

Lemma safe_sequence {A} (P : A → Typer → Prop) s0 (l : list (T A)) :
  (∀ a s s', P a s → grows s s' → P a s') → Forall (λ m, ∀ s1, grows s0 s1 → safely s1 m P) l →
  safely s0 (sequence l) (λ as_ s, ∀ a, a ∈ as_ → P a s).
Proof.
  intros Hmono Hl. assert (Hgen : ∀ s1, grows s0 s1 → safely s1 (sequence l) (λ as_ s, ∀ a, a ∈ as_ → P a s)).
  { induction Hl as [|m l Hm _ IH]; intros s1 Hs1; cbn [sequence].
    - intros s Hs Hok. split_and!; [done..|]. intros a Ha. by apply not_elem_of_nil in Ha.
    - eapply safe_bind; [by apply Hm|]. intros a s2 Hg2 _ Ha. eapply safe_bind; [apply IH; by etrans|].
      intros as_ s3 Hg3 _ Has s Hs Hok. split_and!; [done..|].
      intros b [->|Hb]%elem_of_cons; [eapply Hmono; [by eapply Hmono|done]|eapply Hmono; [by apply Has|done]]. }
  by apply Hgen.
Qed.

Lemma safe_formatTypes s0 l : all_known l s0 → safely s0 (formatParamTypes l) any.
Proof.
  intros Hl. unfold formatParamTypes. eapply safe_bind; [|intros; apply safe_ret].
  apply (safe_sequence any); [done|]. apply Forall_fmap, Forall_forall. intros [p|] Hp s1 Hs1; [|apply safe_ret].
  assert (exists_in s1 p) by (eapply exists_grows; [done|by apply Hl]). cbn beta. by repeat step.
Qed.

Lemma safe_wrongCount s0 e what types n : safely s0 (wrongCount position e what types n) any.
Proof. apply safe_onChecker. Qed.
Hint Resolve safe_formatTypes safe_wrongCount : typing.

(** The count of arguments, with a message. *)
Lemma safe_count s0 (b : bool) l (msg : string → T unit) : all_known l s0 →
  (∀ types s1, safely s1 (msg types) any) →
  safely s0 (if b then mret () else types ← formatParamTypes l; msg types) any.
Proof.
  intros Hl Hm. destruct b; [apply safe_ret|]. eapply safe_bind; [by apply safe_formatTypes|]. intros. apply Hm.
Qed.

Lemma safe_checkArgs e what params : ∀ i args s0, all_known params s0 → all_known args s0 →
  safely s0 (checkArgs fuel position e what i params args) any.
Proof.
  induction params as [|p params IH]; intros i [|a args] s0 Hp Ha; try apply safe_ret. cbn [checkArgs].
  apply all_known_cons in Hp as [Hp Hps]. apply all_known_cons in Ha as [Ha Has].
  eapply (safe_bind _ _ _ N _ _ _ any).
  - destruct p as [p|], a as [a|]; try apply safe_ret.
    eapply safe_bind; [by apply safe_assignable; [lia|..]|]. intros ok s1 Hg1 _ _. raise.
    destruct ok; [apply safe_ret|]. assert (exists_in s1 p) by by apply Hp. assert (exists_in s1 a) by by apply Ha.
    repeat step.
  - intros _ s1 Hg1 _ _. raise. by apply IH.
Qed.

Lemma safe_autoDeref s0 p : exists_in s0 p → safely s0 (autoDeref p) (λ q, known (Some q)).
Proof.
  intros Hp. unfold autoDeref. eapply safe_bind; [by apply safe_info|]. intros t s1 Hg Hok Ht. raise.
  intros s Hs Hoks. split_and!; [done..|]. eapply known_grows; [|done].
  destruct (hasKind TK.Pointer t); [|by apply known_Some]. destruct (ti_pointeeType t) as [q|] eqn:Hq; [|by apply known_Some].
  rewrite <-Hq. eapply (held_denotes _ _ (Some p)); [done|exact Ht|apply pointer_pointee].
Qed.

(** A type in whose state it exists. *)
Definition is_type (t : TypeInfo) (s : Typer) : Prop := ∃ p, resolve (ty_env s) p = Some t.

Lemma is_type_grows t s s' : is_type t s → grows s s' → is_type t s'.
Proof. intros [p Hp] [Hg _ _]. exists p. by apply Hg. Qed.

Lemma is_type_held N0 t s q : ok g N0 s → is_type t s → q ∈ ti_pointers t → exists_in s q.
Proof. intros Hok [p Hp] Hq. by eapply (held_known _ _ _ (Some p)). Qed.

Lemma safe_functionBehind s0 p : exists_in s0 p → safely s0 (functionBehind p) is_type.
Proof.
  intros Hp. unfold functionBehind. eapply safe_bind; [by apply safe_info|]. intros t s1 Hg Hok Ht. raise.
  assert (His : ∀ s2, grows s1 s2 → is_type t s2).
  { intros s2 Hs. apply (is_type_grows _ s1); [by exists p|done]. }
  assert (Hret : safely s1 (mret t) is_type).
  { intros s Hs Hoks. split_and!; [done..|by apply His]. }
  destruct (hasKind TK.Pointer t); [|done]. destruct (ti_pointeeType t) as [q|] eqn:Hq; [|done].
  assert (exists_in s1 q) as Hq'.
  { eapply (held_known _ _ _ (Some p)); [done|exact Ht|by apply pointer_pointee]. }
  eapply safe_bind; [by apply safe_info|]. intros f s2 Hg2 _ Hf s Hs Hoks. split_and!; [done..|].
  destruct (hasKind TK.Function f); [|apply His; by etrans].
  apply (is_type_grows _ s2); [by exists q|done].
Qed.

Lemma safe_fieldCall e name args fields : ∀ s0, all_known args s0 →
  (∀ f q, f ∈ fields → fi_typeInfo f = Some q → exists_in s0 q) →
  safely s0 (fieldCall position e name args fields) (λ r s, ∀ o, r = Some o → known o s).
Proof.
  induction fields as [|f fields IH]; intros s0 Ha Hf; cbn [fieldCall]; [by intros s Hs Hok|].
  assert (Hrest : ∀ s1, grows s0 s1 → safely s1 (fieldCall position e name args fields) (λ r s, ∀ o, r = Some o → known o s)).
  { intros s1 Hg. raise. apply IH; [done|]. intros f' q Hf' Hq. eapply exists_grows; [done|]. eapply Hf; [by right|done]. }
  destruct (bool_decide (fi_name f = name)); [|by apply Hrest]. destruct (fi_typeInfo f) as [p|] eqn:Hp; [|by apply Hrest].
  eapply safe_bind; [apply safe_functionBehind; eapply Hf; [by left|done]|]. intros fn s1 Hg1 Hok1 Hfn. raise.
  destruct (hasKind TK.Function fn); [|by apply Hrest].
  eapply (safe_bind _ _ _ N _ _ _ any).
  - apply safe_count; [|intros; apply safe_wrongCount]. intros q Hq. by eapply is_type_held; [done..|apply pointer_param].
  - intros _ s2 Hg2 Hok2 _ s Hs Hok. split_and!; [done..|]. intros o [= <-] q Hq.
    eapply (exists_grows s2); [done|]. eapply exists_grows; [exact Hg2|].
    eapply is_type_held; [done..|by apply pointer_return].
Qed.

Lemma safe_findMethodInChain s0 p name : known p s0 → calls_known ct s0 →
  safely s0 (findMethodInChain ct fuel p name) (λ o s, ∀ m, o = Some m → known (sm_returnType m) s ∧ all_known (sm_paramTypes m) s).
Proof.
  intros Hp Hc s Hs Hok. raise.
  assert (Hfind : ∃ o, findInChain sm_name fuel (ty_env s) (structMethods_ ct) p name = Ret o ∧
    ∀ m, o = Some m → ∃ x ms, structMethods_ ct !! x = Some ms ∧ m ∈ ms).
  { refine (parents_ind g fuel N s (λ f ti, ∃ o, findInChain sm_name f (ty_env s) (structMethods_ ct) ti name = Ret o ∧
      ∀ m, o = Some m → ∃ x ms, structMethods_ ct !! x = Some ms ∧ m ∈ ms) p Hok HN _ _ _);
      [by eapply known_grows|by eexists|].
    intros f q t Ht IH. cbn [findInChain]. unfold deref. rewrite Ht. cbn [mbind outcome_bind].
    destruct (structMethods_ ct !! ti_name t) as [ms|] eqn:Hms; [|done].
    destruct (list_find _ ms) as [[i m]|] eqn:Hm; [|done]. exists (Some m). split; [done|]. intros ? [= <-].
    exists (ti_name t), ms. split; [done|]. apply list_find_Some in Hm as [Hi _]. by eapply list_elem_of_lookup_2. }
  destruct Hfind as (o & Ho & Hin). unfold findMethodInChain, mbind, M_bind, getS. rewrite Ho. cbn [liftO].
  split_and!; [done..|]. intros m Hm. destruct (Hin m Hm) as (x & ms & Hx & Hms).
  assert (calls_known ct s) as Hcs by by eapply calls_known_grows.
  split; [intros q Hq; apply Hcs; by eapply ic_result|intros q Hq; apply Hcs; by eapply ic_param].
Qed.

Lemma findMethodInTraits_in rt name tm : findMethodInTraits (traitRegistry_ ct) rt name = Some tm →
  ∃ x y m impl, tg_impls (traitRegistry_ ct) !! x = Some m ∧ m !! y = Some impl ∧ tm ∈ im_methodBodies impl.
Proof.
  unfold findMethodInTraits. induction (ti_implementedTraits rt) as [|tr traits IH]; [done|]. cbn [findMethodInTraitList].
  destruct (findImpl _ tr _) as [impl|] eqn:Hi; [|done]. destruct (findMethod name _) as [m|] eqn:Hm; [|done].
  intros [= <-]. unfold findImpl in Hi. destruct (tg_impls _ !! tr) as [im|] eqn:Ht; [|done].
  exists tr, (ti_name rt), im, impl. split_and!; [done..|]. unfold findMethod in Hm.
  destruct (list_find _ _) as [[i m']|] eqn:Hf; [|done]. injection Hm as <-. apply list_find_Some in Hf as [Hf _].
  by eapply list_elem_of_lookup_2.
Qed.
(** *** Methods of structs *)

Lemma known_held s0 N0 t q : ok g N0 s0 → is_type t s0 → (∀ p, q = Some p → p ∈ ti_pointers t) → known q s0.
Proof. intros Hok Ht Hq p Hp. by eapply is_type_held; [done..|apply Hq]. Qed.

Lemma safe_structCall s0 e recv rt name args : exists_in s0 recv → is_type rt s0 → all_known args s0 → calls_known ct s0 →
  safely s0 (structCall ct fuel position e recv rt name args) known.
Proof.
  intros Hrecv Hrt Ha Hc s Hs Hok. revert s Hs Hok.
  assert (Hgo : ∀ s1, ok g N s1 → grows s0 s1 → safely s1 (structCall ct fuel position e recv rt name args) known).
  2:{ intros s Hs Hok. specialize (Hgo s Hok Hs s (reflexivity _) Hok). exact Hgo. }
  intros s1 Hok1 Hg1. raise. pose proof (is_type_grows _ _ _ Hrt Hg1) as Hrt1. unfold structCall.
  eapply safe_bind.
  { apply safe_fieldCall; [done|]. intros f q Hf Hq. eapply is_type_held; [done..|by eapply pointer_field]. }
  intros field s2 Hg2 Hok2 Hfield. raise. destruct field as [r|]; [apply safe_ret_known; by apply Hfield|].
  eapply safe_bind; [apply safe_findMethodInChain; [by apply known_Some|done]|]. intros o s3 Hg3 Hok3 Ho. raise.
  destruct o as [sm|]; [destruct (sm_isStatic sm)|]; cbv iota beta.
  2:{ destruct (Ho sm eq_refl) as [Hret Hpar]. eapply (safe_bind _ _ _ N _ _ _ any).
      - apply safe_count; [done|]. intros. apply safe_wrongCount.
      - intros _ s4 Hg4 _ _. raise. eapply (safe_bind _ _ _ N _ _ _ any); [by apply safe_checkArgs|].
        intros _ s5 Hg5 _ _. raise. by apply safe_ret_known. }
  all: destruct (findMethodInTraits (traitRegistry_ ct) rt name) as [tm|] eqn:Htm; [destruct (tm_isStatic tm)|]; cbv iota beta;
    try by repeat step.
  all: eapply (safe_bind _ _ _ N _ _ _ any); [by repeat step|]; intros _ s4 Hg4 _ _; raise; apply safe_ret_known;
    destruct (findMethodInTraits_in rt name tm Htm) as (x & y & m & impl & H1 & H2 & H3); intros q Hq;
    match goal with H : calls_known ct _ |- _ => apply H end; by eapply ic_trait.
Qed.

(** *** Methods with descriptors *)

Lemma safe_expectedParam s0 e recv rt name param : exists_in s0 recv → is_type rt s0 →
  (∃ N0, ok g N0 s0) → safely s0 (expectedParam position e recv rt name param) (λ o s, ∀ p, o = Some p → known p s).
Proof.
  intros Hrecv Hrt [N0 Hok0]. unfold expectedParam.
  assert (Hret : ∀ s1 p, known p s1 → safely s1 (mret (Some p)) (λ o s, ∀ p, o = Some p → known p s)).
  { intros s1 p Hp s Hs Hok. split_and!; [done..|]. intros ? [= <-]. by eapply known_grows. }
  assert (Hmem : ∀ o, (∀ p, o = Some p → p ∈ ti_pointers rt) → known o s0) by (intros; by eapply known_held).
  assert (Hskip : ∀ msg, safely s0 (errorT position e msg;; mret None) (λ o s, ∀ p, o = Some p → known p s)).
  { intros msg. step. intros s Hs Hok. by split_and!. }
  case_bool_decide; [by apply Hret, known_Some|]. case_bool_decide.
  { apply Hret. case_match; [|by apply known_Some]. apply known_orElse; [apply Hmem, pointer_element|by apply known_Some]. }
  case_bool_decide.
  { case_match; [|done]. destruct (ti_keyType rt) as [k|] eqn:Hk; [|done]. apply Hret. rewrite <-Hk. apply Hmem, pointer_key. }
  case_bool_decide.
  { case_match; [|done]. destruct (ti_valueType rt) as [k|] eqn:Hk; [|done]. apply Hret. rewrite <-Hk. apply Hmem, pointer_value. }
  eapply safe_bind; [apply safe_lookup|]. intros p s1 _ _ Hp. by apply Hret.
Qed.

Lemma safe_checkDescriptorArgs e recv rt name params : ∀ i args s0, exists_in s0 recv → is_type rt s0 → (∃ N0, ok g N0 s0) →
  all_known args s0 → safely s0 (checkDescriptorArgs fuel position e recv rt name i params args) any.
Proof.
  induction params as [|param params IH]; intros i [|[a|] args] s0 Hrecv Hrt Hex Ha; try apply safe_ret;
    cbn [checkDescriptorArgs]; apply all_known_cons in Ha as [Ha Has]; [|by apply IH].
  assert (exists_in s0 a) by by apply Ha.
  eapply safe_bind; [by apply safe_expectedParam|]. intros o s1 Hg1 Hok1 Ho. raise.
  pose proof (is_type_grows _ _ _ Hrt Hg1) as Hrt1.
  eapply (safe_bind _ _ _ N _ _ _ any).
  - destruct o as [[p|]|]; try apply safe_ret. specialize (Ho _ eq_refl).
    eapply safe_bind; [apply safe_assignable; [lia|done|by apply known_Some]|]. intros ok s2 Hg2 _ _. raise.
    destruct ok; [apply safe_ret|]. assert (exists_in s2 p) by by apply Ho. repeat step.
  - intros _ s2 Hg2 Hok2 _. raise. apply IH; [done|by eapply is_type_grows|by exists N|done].
Qed.

Lemma safe_vecOf s0 inner : exists_in s0 inner → safe g s0 N (vecOf inner) (S N) (λ p, known (Some p)).
Proof.
  intros Hin. unfold vecOf. eapply safe_bind; [by apply safe_info|]. intros t s1 Hg Hok Ht. raise. cbv zeta.
  intros s Hs Hoks. unfold mbind, M_bind, getS. destruct (list_find _ _) as [[i dt]|] eqn:Hf.
  - split_and!; [done|by eapply ok_mono; [|done]; lia|]. apply known_Some. apply list_find_Some in Hf as [Hi _]. by exists dt.
  - apply (safe_push g s1 N (S N)); [done|lia|lia| |right; lia|done|done]. intros q Hq.
    apply list_elem_of_singleton in Hq as ->. done.
Qed.

Lemma safe_methodReturn s0 recv rt ret : exists_in s0 recv → is_type rt s0 → (∃ N0, ok g N0 s0) →
  safe g s0 N (methodReturn recv rt ret) (S N) known.
Proof.
  intros Hrecv Hrt [N0 Hok0]. unfold methodReturn. cbv zeta.
  assert (Hmem : ∀ o, (∀ p, o = Some p → p ∈ ti_pointers rt) → known o s0) by (intros; by eapply known_held).
  assert (Hup : ∀ m, safely s0 m known → safe g s0 N m (S N) known) by (intros m; apply safe_up; lia).
  assert (Hself : known (Some recv) s0) by by apply known_Some.
  assert (Hvec : ∀ o, known o s0 → safe g s0 N match o with Some inner => p ← vecOf inner; mret (Some p) | None => lookupT ret end (S N) known).
  { intros [inner|] Ho; [|apply Hup; step]. eapply safe_bind; [apply safe_vecOf; by apply Ho|]. intros p s1 _ _ Hp. by apply safe_ret_known. }
  assert (Hmember : ∀ b o, (∀ p, o = Some p → p ∈ ti_pointers rt) →
    safe g s0 N (mret (if b : bool then orElse o (Some recv) else Some recv)) (S N) known).
  { intros b o Ho. apply Hup, safe_ret_known. destruct b; [|done]. apply known_orElse; [by apply Hmem|done]. }
  repeat case_bool_decide;
    first [apply Hmember; first [apply pointer_backing|apply pointer_element|apply pointer_key|apply pointer_value]
          |apply Hvec, Hmem; first [apply pointer_element|apply pointer_key|apply pointer_value]
          |apply Hup; step].
Qed.

Lemma safe_descriptorCall s0 e recv rt name args d : exists_in s0 recv → is_type rt s0 → (∃ N0, ok g N0 s0) → all_known args s0 →
  safe g s0 N (descriptorCall fuel position e recv rt name args d) (S N) known.
Proof.
  intros Hrecv Hrt Hex Ha. unfold descriptorCall. destruct (negb _).
  { apply safe_up with N; [lia|]. eapply (safe_bind _ _ _ N _ _ _ any); [apply safe_wrongCount|]. intros. by step. }
  eapply (safe_bind _ _ _ N _ _ _ any); [by apply safe_checkDescriptorArgs|]. intros _ s1 Hg1 Hok1 _. raise.
  apply safe_methodReturn; [done|by eapply is_type_grows|by exists N].
Qed.

Lemma safe_arrayMethod s0 e rt name : safely s0 (arrayMethod ct position e rt name) any.
Proof. unfold arrayMethod. repeat step. Qed.
Lemma safe_builtinMethod s0 e rt name : safely s0 (builtinMethod ct position e rt name) any.
Proof. unfold builtinMethod. repeat step. Qed.
Lemma safe_extendedMethod s0 e rt name : is_type rt s0 → (∃ N0, ok g N0 s0) → safely s0 (extendedMethod ct position e rt name) any.
Proof.
  intros Hrt [N0 Hok0]. assert (∀ q, ti_elementType rt = Some q → exists_in s0 q).
  { intros q Hq. eapply is_type_held; [done..|by apply pointer_element]. }
  unfold extendedMethod. repeat step.
Qed.
(** *** Function calls *)

Lemma safe_findVoid args : ∀ i s0, all_known args s0 → safely s0 (findVoid i args) (λ r _, ∀ j, r = Some j → j < i + length args).
Proof.
  induction args as [|a args IH]; intros i s0 Ha; cbn [findVoid]; [by intros s Hs Hok|].
  apply all_known_cons in Ha as [Ha Has]. eapply safe_bind; [by apply safe_infoOpt|]. intros t s1 Hg1 _ _. raise.
  destruct (isKind TK.Void t).
  - intros s Hs Hok. split_and!; [done..|]. intros j [= <-]. cbn [length]. lia.
  - eapply safe_weaken; [|by apply IH]. intros r s Hr j Hj. specialize (Hr j Hj). cbn [length]. lia.
Qed.

Lemma safe_findCharPointer args : ∀ i s0, all_known args s0 →
  safely s0 (findCharPointer i args) (λ r _, ∀ j, r = Some j → j < i + length args).
Proof.
  induction args as [|a args IH]; intros i s0 Ha; cbn [findCharPointer]; [by intros s Hs Hok|].
  apply all_known_cons in Ha as [Ha Has]. eapply safe_bind; [by apply safe_infoOpt|]. intros t s1 Hg1 Hok1 Ht. raise.
  eapply (safe_bind _ _ _ N _ _ _ any).
  - destruct t as [t|]; [|apply safe_ret]. destruct (hasKind TK.Pointer t); [|apply safe_ret].
    eapply safe_weaken; [done|]. apply safe_infoOpt. eapply held_denotes; [done|exact Ht|apply pointer_pointee].
  - intros pt s2 Hg2 _ _. raise. destruct (isKind TK.Char pt).
    + intros s Hs Hok. split_and!; [done..|]. intros j [= <-]. cbn [length]. lia.
    + eapply safe_weaken; [|by apply IH]. intros r s Hr j Hj. specialize (Hr j Hj). cbn [length]. lia.
Qed.

Lemma safe_errorAt s0 es i msg : i < length es → safely s0 (errorAt position es i msg) any.
Proof. intros Hi. unfold errorAt. destruct (lookup_lt_is_Some_2 es i Hi) as [e ->]. apply safe_onChecker. Qed.

Lemma safe_variantCall s0 e f iv args : all_known args s0 → calls_known ct s0 → (∃ x, injectedVariants_ ct !! x = Some iv) →
  safely s0 (variantCall fuel position e f iv args) known.
Proof.
  intros Ha Hc [x Hx]. unfold variantCall. cbv zeta. eapply (safe_bind _ _ _ N _ _ _ any).
  - destruct (ev_payloadKind _); try apply safe_onChecker; (destruct (negb _); [apply safe_onChecker|]; apply safe_checkArgs; [|done]);
      intros q Hq; apply list_elem_of_fmap in Hq as (fi & Hfi & Hin); apply Hc; by eapply ic_payload.
  - intros _ s1 Hg1 _ _. raise. apply safe_ret_known. intros q Hq.
    match goal with H : calls_known ct s1 |- _ => apply H end. by eapply ic_enum.
Qed.

Lemma safe_macroCall s0 e f params args : safely s0 (macroCall position e f params args) known.
Proof. unfold macroCall. repeat step. Qed.

Lemma safe_liftC {A} s0 (m : M Checker A) : steady m → safely s0 (liftC m) any.
Proof.
  intros Hm s Hs Hok. specialize (Hm (ty_checker s)). unfold liftC. destruct (m (ty_checker s)); try done.
  - split_and!; [apply grows_onChecker|by apply ok_onChecker|done].
  - apply grows_onChecker.
Qed.

Lemma safe_analyze s0 f e es : safely s0 (analyze ct position f e es) any.
Proof. apply safe_liftC, analyze_steady. Qed.

Lemma safe_typedCall s0 e f fn es args : is_type fn s0 → (∃ N0, ok g N0 s0) → all_known args s0 →
  safely s0 (typedCall ct fuel position e f fn es args) any.
Proof.
  intros Hfn [N0 Hok0] Ha. assert (Hp : all_known (ti_paramTypes fn) s0).
  { intros q Hq. by eapply is_type_held; [done..|apply pointer_param]. }
  unfold typedCall. cbv zeta. eapply (safe_bind _ _ _ N _ _ _ any).
  - destruct (ti_isVariadic fn).
    + eapply (safe_bind _ _ _ N _ _ _ any).
      * destruct (_ <? _)%nat; [|apply safe_ret]. eapply (safe_bind _ _ _ N _ _ _ any); [by apply safe_formatTypes|].
        intros. apply safe_onChecker.
      * intros _ s1 Hg1 _ _. raise. by apply safe_checkArgs.
    + destruct (negb _); [|case_bool_decide; [apply safe_ret|by apply safe_checkArgs]].
      eapply (safe_bind _ _ _ N _ _ _ any); [by apply safe_formatTypes|]. intros. apply safe_onChecker.
  - intros _ s1 Hg1 _ _. raise. case_bool_decide; [apply safe_ret|].
    eapply (safe_bind _ _ _ N _ _ _ any); [apply safe_analyze|]. intros. apply safe_when, safe_onChecker.
Qed.

Lemma safe_checkLikeFirst e f t args : ∀ i s0, all_known args s0 → safely s0 (checkLikeFirst position e f t i args) any.
Proof.
  induction args as [|a args IH]; intros i s0 Ha; cbn [checkLikeFirst]; [apply safe_ret|].
  apply all_known_cons in Ha as [Ha Has]. eapply safe_bind; [by apply safe_infoOpt|]. intros ti s1 Hg1 _ _. raise.
  eapply (safe_bind _ _ _ N _ _ _ any); [destruct ti, t; repeat step|]. intros _ s2 Hg2 _ _. raise. by apply IH.
Qed.

Lemma safe_checkNumeric e f args : ∀ i s0, all_known args s0 → safely s0 (checkNumeric position e f i args) any.
Proof.
  induction args as [|a args IH]; intros i s0 Ha; cbn [checkNumeric]; [apply safe_ret|].
  apply all_known_cons in Ha as [Ha Has]. eapply safe_bind; [by apply safe_infoOpt|]. intros ti s1 Hg1 _ _. raise.
  eapply (safe_bind _ _ _ N _ _ _ any); [destruct ti; repeat step|]. intros _ s2 Hg2 _ _. raise. by apply IH.
Qed.

Lemma safe_polymorphicArgs s0 e f sig args : all_known args s0 → safely s0 (polymorphicArgs position e f sig args) any.
Proof.
  intros Ha. unfold polymorphicArgs. destruct args as [|first [|second rest]]; try apply safe_ret.
  destruct (negb _); [apply safe_ret|]. eapply (safe_bind _ _ _ N _ _ _ any).
  - destruct (forallb _ _); [|apply safe_ret]. pose proof Ha as [Hfirst Hrest]%all_known_cons.
    eapply safe_bind; [by apply safe_infoOpt|]. intros t s1 Hg1 _ _. raise. by apply safe_checkLikeFirst.
  - intros _ s1 Hg1 _ _. raise. destruct (forallb _ _); [by apply safe_checkNumeric|apply safe_ret].
Qed.

(** *** Inference of type arguments *)

Lemma table_in_grows inferred s s' : table_in inferred s → grows s s' → table_in inferred s'.
Proof. intros H Hg x p Hp. eapply exists_grows; [done|by eapply H]. Qed.

Definition unified_in (r : bool * Inferred * bool) (s : Typer) : Prop := table_in r.1.2 s.

Lemma safe_unified s0 b inferred em : table_in inferred s0 → safely s0 (mret (b, inferred, em)) unified_in.
Proof. intros Ht s Hs Hok. split_and!; [done..|]. by eapply table_in_grows. Qed.

Lemma safe_unifyParam s0 ctx f inferred name p : table_in inferred s0 → exists_in s0 p →
  safely s0 (unifyParam ctx f inferred name p) unified_in.
Proof.
  intros Ht Hp. unfold unifyParam. destruct (inferred !! name) as [q|] eqn:Hq.
  - assert (exists_in s0 q) by by eapply Ht. case_bool_decide; [by apply safe_unified|].
    eapply safe_bind; [by apply safe_info|]. intros qt s1 Hg1 _ _. raise. pose proof (table_in_grows _ _ _ Ht Hg1).
    eapply safe_bind; [by apply safe_info|]. intros pt s2 Hg2 _ _. raise. pose proof (table_in_grows inferred s1 s2).
    case_bool_decide; [apply safe_unified; auto|].
    eapply (safe_bind _ _ _ N _ _ _ any); [apply safe_onChecker|]. intros _ s3 Hg3 _ _. apply safe_unified.
    eapply table_in_grows; [eauto|by etrans].
  - apply (safe_unified s0 true (<[name := p]> inferred) false). intros x r [[-> ->]|[_ Hr]]%lookup_insert_Some; [done|by eapply Ht].
Qed.

Lemma instanceArgs_held N0 s base n t p args : ok g N0 s → resolve (ty_env s) p = Some t → instanceArgs base n t = Some args → all_known args s.
Proof.
  intros Hok Hp Ha q Hq. apply (instanceArgs_known (ty_env s) (ok_closed _ _ _ Hok) base n p t args Hp Ha q Hq).
Qed.

Lemma safe_unify params ctx f F : ∀ s0 a inferred, known a s0 → table_in inferred s0 →
  safely s0 (unifyGenericTypeArg params ctx f F a inferred) unified_in.
Proof.
  induction F as [F IH] using typeSpec_children_ind. intros s0 a inferred Ha Ht.
  assert (Hall : ∀ l, Forall (λ F, ∀ s0 a inferred, known a s0 → table_in inferred s0 →
      safely s0 (unifyGenericTypeArg params ctx f F a inferred) unified_in) l →
    ∀ args s1 inferred, all_known args s1 → table_in inferred s1 →
    safely s1 ((fix go (l : list typeSpec) (args : list (option tyref)) (inferred : Inferred) : T (bool * Inferred * bool) :=
      match l, args with
      | t :: l, a :: args =>
          r ← unifyGenericTypeArg params ctx f t a inferred;
          if r.1.1 : bool then go l args r.1.2 else mret r
      | _, _ => mret (true, inferred, false)
      end) l args inferred) unified_in).
  { induction 1 as [|t l Ht' _ IHl]; intros [|a' args] s1 inf Hargs Hinf; try by apply safe_unified.
    apply all_known_cons in Hargs as [Ha' Hargs]. eapply safe_bind; [by apply Ht'|]. intros [[b inf'] em] s2 Hg2 _ Hr. raise.
    cbn [fst snd]. destruct b; [by apply IHl|by apply safe_unified]. }
  assert (Hno : ∀ s1 b, grows s0 s1 → safely s1 (mret (b, inferred, false)) unified_in).
  { intros s1 b Hg. by apply safe_unified, (table_in_grows _ s0). }
  destruct F; cbn [spec_children] in IH; cbn [unifyGenericTypeArg is_bare is_array]; (case_match; [by apply Hno|]);
    (destruct a as [p|]; [|by apply Hno]); assert (exists_in s0 p) as Hp by (by apply Ha);
    try (by apply safe_unifyParam); try (by apply Hno);
    (eapply safe_bind; [by apply safe_info|]); intros t' s1 Hg1 Hok1 Ht'; raise; pose proof (table_in_grows _ _ _ Ht Hg1) as Ht1;
    repeat match goal with H : Forall _ (_ :: _) |- _ => apply Forall_cons in H as [? H] end;
    assert (Hheld : ∀ o, (∀ q, o = Some q → q ∈ ti_pointers t') → known o s1)
      by (intros; by eapply (held_denotes _ _ (Some p)));
    try (by apply Hno).
  - single (hasKind TK.Pointer t') (ti_pointeeType t') pointer_pointee.
  - single (hasKind TK.Pointer t') (ti_pointeeType t') pointer_pointee.
  - single (isCollection "Vec" t') (ti_elementType t') pointer_element.
  - destruct (isCollection "Map" t'); [|by apply Hno]. destruct (ti_keyType t') as [k|] eqn:Hk; [|by apply Hno].
    destruct (ti_valueType t') as [v|] eqn:Hv; [|by apply Hno].
    assert (known (Some v) s1) by (rewrite <-Hv; apply Hheld, pointer_value).
    eapply safe_bind; [use_IH; [rewrite <-Hk; apply Hheld, pointer_key|done]|]. intros [[b inf'] em] s2 Hg2 _ Hr. raise.
    cbn [fst snd]. destruct b; [by use_IH|by apply safe_unified].
  - single (isCollection "Set" t') (ti_elementType t') pointer_element.
  - destruct (_ && _); [|by apply Hno]. apply Hall; [done| |done]. intros q Hq. apply (held_known g N _ (Some p) t'); [done..|].
    apply pointers_members. tauto.
  - destruct (instanceArgs _ _ t') as [targs|] eqn:Hi; [|by apply Hno]. destruct (_ =? _)%nat; [|by apply Hno].
    apply Hall; [done|by eapply instanceArgs_held|done].
Qed.

Lemma safe_inferLoop params ctx f formals : ∀ i args inferred s0, all_known args s0 → table_in inferred s0 →
  safely s0 (inferLoop params ctx f i formals args inferred) (λ o s, ∀ inf, o = Some inf → table_in inf s).
Proof.
  assert (Hret : ∀ inf s1, table_in inf s1 → safely s1 (mret (Some inf)) (λ o s, ∀ inf, o = Some inf → table_in inf s)).
  { intros inf s1 Ht s Hs Hok. split_and!; [done..|]. intros ? [= <-]. by eapply table_in_grows. }
  induction formals as [|[F|] formals IH]; intros i [|a args] inferred s0 Ha Ht; cbn [inferLoop]; try (by apply Hret);
    apply all_known_cons in Ha as [Ha Has]; [|by apply IH].
  destruct (negb _); [by apply IH|]. eapply safe_bind; [by apply safe_unify|]. intros [[b inf] em] s1 Hg1 _ Hr. raise.
  cbn [fst snd]. destruct b; [by apply IH|]. eapply (safe_bind _ _ _ N _ _ _ any).
  - destruct em; [apply safe_ret|]. eapply (safe_bind _ _ _ N _ _ _ any); [|intros; apply safe_onChecker].
    destruct a as [p|]; [|apply safe_ret]. assert (exists_in s1 p) by by apply Ha. repeat step.
  - intros _ s2 _ _ _ s Hs Hok. by split_and!.
Qed.

Lemma safe_collectArgs ctx f tps : ∀ inferred s0, table_in inferred s0 →
  Forall (λ tp, ∀ c p s1, tp.2 = Some c → grows s0 s1 → exists_in s1 p → safely s1 (c p) any) tps →
  safely s0 (collectArgs ctx f tps inferred) (λ o s, ∀ ts, o = Some ts → ∀ p, p ∈ ts → exists_in s p).
Proof.
  induction tps as [|[x c] tps IH]; intros inferred s0 Ht Hc; cbn [collectArgs].
  { intros s Hs Hok. split_and!; [done..|]. intros ? [= <-] p Hp. by apply not_elem_of_nil in Hp. }
  apply Forall_cons in Hc as [Hc Hcs]. cbn in Hc. destruct (inferred !! x) as [p|] eqn:Hx.
  2:{ eapply (safe_bind _ _ _ N _ _ _ any); [apply safe_onChecker|]. intros _ s2 _ _ _ s Hs Hok. by split_and!. }
  assert (Hp : exists_in s0 p) by by eapply Ht.
  eapply (safe_bind _ _ _ N _ _ _ any); [destruct c as [c|]; [by apply (Hc c)|apply safe_ret]|].
  intros okc s1 Hg1 _ _. raise. pose proof (table_in_grows _ _ _ Ht Hg1) as Ht1.
  destruct okc; cbn [negb]; [|intros s Hs Hok; by split_and!]. eapply safe_bind.
  { apply IH; [done|]. eapply Forall_impl; [exact Hcs|]. intros tp Htp c' p' s2 Hc' Hg2. apply (Htp c' p' s2 Hc'). by etrans. }
  intros o s2 Hg2 _ Ho. raise. intros s Hs Hok. split_and!; [done..|]. intros ts Hts.
  destruct o as [ts'|]; [|done]. injection Hts as <-. intros q [->|Hq]%elem_of_cons;
    (eapply exists_grows; [exact Hs|]); [done|by eapply Ho].
Qed.

Lemma safe_infer ctx f tps formals args s0 : all_known args s0 →
  Forall (λ tp, ∀ c p s1, tp.2 = Some c → grows s0 s1 → exists_in s1 p → safely s1 (c p) any) tps →
  safely s0 (inferGenericTypeArgs ctx f tps formals args) (λ o s, ∀ ts, o = Some ts → ∀ p, p ∈ ts → exists_in s p).
Proof.
  intros Ha Hc. unfold inferGenericTypeArgs. destruct (negb _); [intros s Hs Hok; by split_and!|].
  eapply safe_bind; [apply safe_inferLoop; [done|by intros x p; rewrite lookup_empty]|]. intros o s1 Hg1 _ Ho. raise.
  destruct o as [inf|]; [|intros s Hs Hok; by split_and!]. apply safe_collectArgs; [by apply Ho|].
  eapply Forall_impl; [exact Hc|]. intros tp Htp c' p' s2 Hc' Hg2. apply (Htp c' p' s2 Hc'). by etrans.
Qed.
End level.

(** ** Receivers and arguments *)

(** A computation that gives a type and adds at most [k] levels. *)
Definition types_safely (k : nat) (m : T (option tyref)) : Prop :=
  ∀ s0 N, 0 < N → N + k < fuel → safe g s0 N m (N + k) known.

Lemma safe_args ks ms : Forall2 types_safely ks ms → ∀ s0 N, 0 < N → N + sum_list ks < fuel →
  safe g s0 N (sequence ms) (N + sum_list ks) all_known.
Proof.
  induction 1 as [|k m ks ms Hm _ IH]; intros s0 N Hpos HN; cbn [sequence sum_list_with id] in *.
  - rewrite Nat.add_0_r. intros s Hs Hok. split_and!; [done..|apply all_known_nil].
  - eapply safe_bind; [apply Hm; lia|]. intros a s1 Hg1 _ Ha. raise.
    rewrite Nat.add_assoc. eapply safe_bind; [apply IH; lia|]. intros as_ s2 Hg2 _ Has. raise.
    intros s Hs Hok. split_and!; [done..|]. intros q [Hq|Hq]%elem_of_cons; (eapply exists_grows; [done|]);
      [by apply Ha|by apply Has].
Qed.

Lemma sequence_length {A} (l : list (T A)) : ∀ s, match sequence l s with ROk as_ _ => length as_ = length l | _ => True end.
Proof.
  induction l as [|m l IH]; intros s; [done|]. cbn [sequence]. unfold mbind, M_bind. destruct (m s) as [a s'| | |]; try done.
  specialize (IH s'). destruct (sequence l s'); try done. cbn. by rewrite IH.
Qed.

(** C7: The type of a method call.  With a receiver and arguments that are typed safely, each
    with its own number of new levels of types, a call of any method on any receiver, structs
    with methods, function fields and traits, arrays, extended and built-in types alike, keeps
    the invariant and gives null or a type that exists, at most one level deeper: nothing
    dangling or null is dereferenced and the fuel for [N] and the new levels is enough. *)
Theorem methodCall_safe e k receiver kd dims name ks args N s :
  ok g N s → 0 < N → N + k + sum_list ks + kd + 1 < fuel → calls_known ct s →
  types_safely k receiver → Forall2 types_safely ks args →
  (∀ s0 N, 0 < N → N + kd < fuel → safe g s0 N dims (N + kd) any) →
  match methodCall ct fuel position e receiver dims name args s with
  | ROk p s' => grows s s' ∧ ok g (N + k + sum_list ks + kd + 1) s' ∧ known p s'
  | RThrow _ s' => grows s s'
  | _ => False
  end.
Proof.
  intros Hok Hpos HN Hc Hr Ha Hd.
  assert (H : safe g s N (methodCall ct fuel position e receiver dims name args) (N + k + sum_list ks + kd + 1) known).
  2:{ exact (H s (reflexivity _) Hok). }
  unfold methodCall. eapply safe_bind; [apply Hr; lia|]. intros p s1 Hg1 _ Hp. raise.
  eapply safe_bind; [apply (safe_args ks); [done|lia|lia]|]. intros argTypes s2 Hg2 _ Hargs. raise.
  destruct p as [p|]; [|apply safe_up with (N + k + sum_list ks); [lia|by step]].
  eapply safe_bind; [apply safe_autoDeref; by apply Hp|]. intros recv s3 Hg3 _ Hrecv. raise.
  eapply safe_bind; [apply Hd; lia|]. intros recvArrayDims s4 Hg4 _ _. raise.
  assert (exists_in s4 recv) by by apply Hrecv.
  eapply safe_bind; [by apply safe_info|]. intros rt s5 Hg5 Hok5 Hrt0. raise.
  assert (Hrt : is_type rt s5) by by exists recv.
  set (N5 := N + k + sum_list ks + kd) in *. rewrite Nat.add_1_r. cbv zeta.
  assert (Hdesc : ∀ m, safe g s5 N5 m N5 any → safe g s5 N5 (d ← m; match d with
    | Some d => descriptorCall fuel position e recv rt name argTypes d | None => mret None end) (S N5) known).
  { intros m Hm. eapply safe_bind; [exact Hm|]. intros d s6 Hg6 Hok6 _. raise. pose proof (is_type_grows _ _ _ Hrt Hg6).
    destruct d as [d|]; [apply safe_descriptorCall; [lia|lia|done|done|by exists N5|done]|].
    apply safe_up with N5; [lia|by step]. }
  destruct (0 <? recvArrayDims)%Z; [apply Hdesc, safe_arrayMethod|].
  destruct (hasKind TK.Struct rt); [apply safe_up with N5; [lia|apply safe_structCall; (done || lia)]|].
  destruct (hasKind TK.Extended rt); [apply Hdesc, safe_extendedMethod; [done|by exists N5]|].
  apply Hdesc, safe_builtinMethod.
Qed.

(** ** Function calls *)

Lemma builtinTypeT_steps name s :
  builtinTypeT name s =
  (if (4 <? String.length name) && bool_decide (str_take 4 name = "Vec<") && ends_with_char ">" name then
     let elemName := str_take (String.length name - 5) (str_drop 4 name) in
     match reg_lookup (te_types (ty_env s)) elemName with
     | None => mret None
     | Some elemType =>
         match list_find (λ t, ti_name t = name) (te_dynamicTypes (ty_env s)) with
         | Some (i, _) => mret (Some (DynT i))
         | None =>
             p ← pushT ((mkTypeInfo name TK.Extended 0 false (ti_builtinSuffix elemType))
               <| ti_elementType := Some (RegT elemName) |> <| ti_extendedKind := "Vec" |>); mret (Some p)
         end
     end
   else lookupT name) s.
Proof.
  unfold builtinTypeT, resolveBuiltinReturnType. destruct ((4 <? _) && _ && _).
  - cbv zeta. destruct (reg_lookup _ _) as [t|]; [|by destruct s]. destruct (list_find _ _) as [[i dt]|]; [by destruct s|].
    unfold mbind, M_bind, pushT. by destruct (pushDynamic _ _).
  - unfold lookupT, mbind, M_bind, getS. by destruct s.
Qed.

Lemma safe_builtinType s0 N name : 0 < N → safe g s0 N (builtinTypeT name) (S N) known.
Proof.
  intros Hpos s Hs Hok. rewrite builtinTypeT_steps. destruct ((4 <? _) && _ && _).
  - cbv zeta. destruct (reg_lookup _ _) as [t|] eqn:Ht.
    2:{ split_and!; [done|by eapply ok_mono; [|done]; lia|apply known_None]. }
    destruct (list_find _ _) as [[i dt]|] eqn:Hf.
    { split_and!; [done|by eapply ok_mono; [|done]; lia|]. apply known_Some. apply list_find_Some in Hf as [Hi _]. by exists dt. }
    set (elem := str_take _ _) in *.
    match goal with |- match ?m s with _ => _ end =>
      assert (Hpush : safe g s N m (S N) known); [|exact (Hpush s (reflexivity _) Hok)] end.
    eapply (safe_bind _ _ _ (S N)); [eapply safe_push; [done|lia|lia| |right; lia]|intros p s1 _ _ Hp; by apply safe_ret_known].
    intros q Hq. apply list_elem_of_singleton in Hq as ->. by exists t.
  - apply (safe_up g s N N (S N)); [lia|apply safe_lookup|done|done].
Qed.

Lemma safe_checkBuiltinArgs e f params : ∀ i args s0 N, 0 < N → N + length params < fuel → all_known args s0 →
  safe g s0 N (checkBuiltinArgs fuel position e f i params args) (N + length params) any.
Proof.
  induction params as [|p params IH]; intros i [|a args] s0 N Hpos HN Ha; cbn [checkBuiltinArgs length] in *;
    try (apply safe_up with N; [lia|apply safe_ret]).
  apply all_known_cons in Ha as [Ha Has]. replace (N + S (length params)) with (S N + length params) by lia.
  eapply (safe_bind _ _ _ (S N) _ _ _ any).
  - assert (Hskip : safe g s0 N (mret ()) (S N) any) by (apply safe_up with N; [lia|apply safe_ret]).
    destruct a as [a|]; [|done]. destruct (isPlaceholder p); [done|]. assert (exists_in s0 a) by by apply Ha.
    eapply safe_bind; [by apply safe_builtinType|]. intros t s1 Hg1 _ Ht. raise. destruct t as [t|]; [|apply safe_ret].
    eapply safe_bind; [apply safe_assignable; [lia|done|by apply known_Some]|]. intros ok s2 Hg2 _ _. raise.
    destruct ok; [apply safe_ret|]. repeat step.
  - intros _ s1 Hg1 _ _. raise. apply IH; [lia|lia|done].
Qed.

(** *** At a state

    The ownership effects depend on the function being checked, so from them on a computation
    is followed from the state it runs in. *)

Definition runs {A} (s : Typer) (m : T A) (N : nat) (R : A → Typer → Prop) : Prop :=
  match m s with
  | ROk a s' => grows s s' ∧ ok g N s' ∧ key s' = key s ∧ R a s'
  | RThrow _ s' => grows s s'
  | _ => False
  end.

Definition ends (s : Typer) (m : T (option tyref)) (N : nat) : Prop :=
  match m s with
  | ROk p s' => grows s s' ∧ ok g N s' ∧ known p s'
  | RThrow _ s' => grows s s'
  | _ => False
  end.

Lemma runs_safe {A} s N N' (m : T A) R : safe g s N m N' R → keyed m → ok g N s → runs s m N' R.
Proof.
  intros Hm Hk Hok. specialize (Hm s (reflexivity _) Hok). specialize (Hk s). unfold runs.
  destruct (m s); try done. by destruct Hm as (? & ? & ?).
Qed.

Lemma ends_safe s N N' N2 m : safe g s N m N' known → N' ≤ N2 → ok g N s → ends s m N2.
Proof.
  intros Hm Hle Hok. specialize (Hm s (reflexivity _) Hok). unfold ends. destruct (m s); try done.
  destruct Hm as (? & ? & ?). split_and!; [done|by eapply ok_mono|done].
Qed.

Lemma ends_bind {A} s (m : T A) (f : A → T (option tyref)) N1 N2 R :
  runs s m N1 R → (∀ a s', grows s s' → ok g N1 s' → key s' = key s → R a s' → ends s' (f a) N2) → ends s (m ≫= f) N2.
Proof.
  unfold runs, ends. intros Hm Hf. unfold mbind, M_bind. destruct (m s) as [a s'|x s'| |]; try done.
  destruct Hm as (Hg & Hok & Hk & HR). specialize (Hf a s' Hg Hok Hk HR). destruct (f a s'); try done; [|by etrans].
  destruct Hf as (? & ? & ?). split_and!; [by etrans|done|done].
Qed.

Lemma runs_effects s N f es e : ok g N s → key s ≠ f → runs s (effects g position f es e) N any.
Proof.
  intros Hok Hk. unfold runs, effects, liftC.
  destruct (effects_defined (builtinRegistry_ g) f es (position e) (ty_checker s) Hk) as (c' & -> & Hk').
  split_and!; [apply grows_onChecker|by apply ok_onChecker|done|done].
Qed.

(** What is assumed of the instantiation of templates, of constraints and of the specifiers of
    compile-time functions: the same as is proved here, with at most [kp] new levels. *)
Record calls_safe (kp : nat) : Prop := {
  cs_constraint x tmpl tp c p s0 N : genericFuncTemplates_ ct !! x = Some tmpl → tp ∈ gf_typeParams tmpl → tp.2 = Some c →
    N < fuel → exists_in s0 p → safe g s0 N (c p) N any;
  cs_constraint_keyed x tmpl tp c p : genericFuncTemplates_ ct !! x = Some tmpl → tp ∈ gf_typeParams tmpl → tp.2 = Some c →
    keyed (c p);
  cs_instantiate x tmpl ts ctx s0 N : genericFuncTemplates_ ct !! x = Some tmpl → 0 < N → N + kp < fuel →
    (∀ p, p ∈ ts → exists_in s0 p) → safe g s0 N (gf_instantiate tmpl ts ctx) (N + kp) known;
  cs_comptime x m : comptimeType ct x = Some m → types_safely kp m }.

(** The levels the signature of a built-in function can add. *)
Definition sig_levels (f : string) : nat :=
  match br_lookup (builtinRegistry_ g) f with Some sig => S (length (bs_paramTypes sig)) | None => 0 end.

Ltac run tac := eapply ends_bind; [eapply runs_safe; [solve [tac]|..]|].

Lemma ends_builtinCall s N e f sig es args : ok g N s → 0 < N → N + length (bs_paramTypes sig) < fuel → key s ≠ f →
  all_known args s → ends s (builtinCall g ct fuel position e f sig es args) (S (N + length (bs_paramTypes sig))).
Proof.
  intros Hok Hpos HN Hk Ha. unfold builtinCall. cbv zeta. set (N1 := N + length (bs_paramTypes sig)) in *.
  assert (Hup : ∀ m : T unit, safe g s N m N any → safe g s N m N1 any) by (intros m; apply safe_up; lia).
  eapply (ends_bind _ _ _ N1 _ any).
  { apply (runs_safe _ N); [|keep|done]. destruct (bs_isVariadic sig); [apply Hup, safe_when, safe_onChecker|].
    destruct (negb _); [apply Hup, safe_onChecker|]. destruct (bs_isPolymorphic sig); [apply Hup, safe_ret|].
    by apply safe_checkBuiltinArgs. }
  intros _ s1 Hg1 Hok1 Hk1 _. raise. eapply (ends_bind _ _ _ N1 _ any).
  { apply (runs_safe _ N1); [by apply safe_polymorphicArgs|apply keyed_polymorphicArgs|done]. }
  intros _ s2 Hg2 Hok2 Hk2 _. raise. eapply (ends_bind _ _ _ N1 _ any).
  { apply (runs_safe _ N1); [apply safe_analyze|apply keyed_analyze|done]. }
  intros _ s3 Hg3 Hok3 Hk3 _. raise. eapply (ends_bind _ _ _ N1 _ any); [by apply runs_effects; [done|congruence]|].
  intros _ s4 Hg4 Hok4 Hk4 _. raise. destruct (_ || _).
  - apply (ends_safe _ N1 N1); [|lia|done]. destruct args as [|[p|] args]; try apply safe_lookup.
    apply safe_ret_known, known_Some. match goal with H : all_known _ s4 |- _ => apply H; left end.
  - apply (ends_safe _ N1 (S N1)); [apply safe_builtinType; lia|lia|done].
Qed.

Lemma ends_calledByType s N kp e f calleeType es args : calls_safe kp → ok g N s → 0 < N → N + kp + sig_levels f < fuel → key s ≠ f →
  known calleeType s → all_known args s → ends s (calledByType g ct fuel position e f calleeType es args) (N + kp + sig_levels f).
Proof.
  intros Hcs Hok Hpos HN Hk Hc Ha. unfold calledByType.
  eapply (ends_bind _ _ _ N _ (denotes calleeType)); [apply (runs_safe _ N); [by apply safe_infoOpt|apply keyed_infoOpt|done]|].
  intros ti s1 Hg1 Hok1 Hk1 Hti. raise.
  destruct (match ti with Some t => if hasKind TK.Function t then Some t else None | None => None end) as [fn|] eqn:Hfn.
  - destruct ti as [t|]; [|done]. destruct (hasKind TK.Function t); [|done]. injection Hfn as ->.
    destruct calleeType as [q|]; [|done].
    assert (is_type fn s1) by by exists q.
    eapply (ends_bind _ _ _ N _ any).
    { apply (runs_safe _ N); [apply safe_typedCall; [lia|done|done|by exists N|done]|apply keyed_typedCall|done]. }
    intros _ s2 Hg2 Hok2 Hk2 _. raise. eapply (ends_bind _ _ _ N _ any); [apply runs_effects; [done|congruence]|].
    intros _ s3 Hg3 Hok3 Hk3 _. raise. apply (ends_safe _ N N); [|lia|done]. apply safe_ret_known.
    eapply (held_denotes _ _ (Some q)); [done|exact Hti|apply pointer_return].
  - case_bool_decide; [apply (ends_safe _ N N); [by step|lia|done]|]. destruct (isComptime _ f).
    + eapply (ends_bind _ _ _ N _ any); [apply runs_effects; [done|congruence]|]. intros _ s2 Hg2 Hok2 Hk2 _. raise.
      destruct (comptimeType ct f) as [m|] eqn:Hm.
      * apply (ends_safe _ N (N + kp)); [|lia|done]. eapply cs_comptime; [done|done|lia|lia].
      * apply (ends_safe _ N N); [apply safe_lookup|lia|done].
    + unfold sig_levels in *. destruct (br_lookup _ f) as [sig|]; [|apply (ends_safe _ N N); [by step|lia|done]].
      pose proof (ends_builtinCall s1 N e f sig es args Hok1 Hpos ltac:(lia) ltac:(congruence) ltac:(done)) as H1.
      unfold ends in *. destruct (builtinCall _ _ _ _ _ _ _ _ _ s1); try done. destruct H1 as (? & ? & ?).
      split_and!; [done|eapply ok_mono; [|done]; lia|done].
Qed.

Lemma ends_genericCall s N kp e f tmpl es args : calls_safe kp → ok g N s → 0 < N → N + kp < fuel → key s ≠ f →
  genericFuncTemplates_ ct !! f = Some tmpl → all_known args s → ends s (genericCall g position e f tmpl es args) (N + kp).
Proof.
  intros Hcs Hok Hpos HN Hk Ht Ha. unfold genericCall. destruct (negb _).
  { apply (ends_safe _ N N); [|lia|done]. eapply (safe_bind _ _ _ N _ _ _ any); [apply safe_onChecker|]. intros. by step. }
  eapply ends_bind.
  { eapply (runs_safe _ N N); [apply (safe_infer N); [done|]| |done].
    - apply Forall_forall. intros tp Htp c p s1 Hc Hg Hp. eapply (cs_constraint kp Hcs); eauto. lia.
    - apply keyed_infer, Forall_forall. intros tp Htp c p Hc. by eapply (cs_constraint_keyed kp Hcs). }
  intros o s1 Hg1 Hok1 Hk1 Ho. raise. destruct o as [ts|]; [|apply (ends_safe _ N N); [by step|lia|done]].
  eapply (ends_bind _ _ _ N _ any); [apply runs_effects; [done|congruence]|]. intros _ s2 Hg2 Hok2 Hk2 _.
  apply (ends_safe _ N (N + kp)); [|lia|done]. eapply (cs_instantiate kp Hcs); [done|lia|lia|].
  intros p Hp. eapply exists_grows; [done|by eapply Ho].
Qed.

(** C6: The type of a function call.  With a callee and arguments that are typed safely and do
    not change which function is being checked, every call of a function other than that one,
    of a generic, variadic, deprecated, compile-time or built-in function, a macro, a variant of
    an enum or a value of a function type, keeps the invariant and gives null or a type that
    exists.  (A call of the function being checked is left out: moving an argument into it adds
    to the vector the ownership effects are iterating over.) *)
Theorem fnCall_safe kp e f kc callee es ks args N s :
  calls_safe kp → ok g N s → 0 < N → calls_known ct s → key s ≠ f →
  N + sum_list ks + kc + kp + sig_levels f < fuel → length es = length args →
  types_safely kc callee → keyed callee → Forall2 types_safely ks args → Forall keyed args →
  match fnCall g ct fuel position e f callee es args s with
  | ROk p s' => grows s s' ∧ ok g (N + sum_list ks + kc + kp + sig_levels f) s' ∧ known p s'
  | RThrow _ s' => grows s s'
  | _ => False
  end.
Proof.
  intros Hcs Hok Hpos Hct Hk HN Hes Hcallee Hkc Ha Hka.
  change (ends s (fnCall g ct fuel position e f callee es args) (N + sum_list ks + kc + kp + sig_levels f)).
  unfold fnCall. set (N1 := N + sum_list ks) in *.
  eapply (ends_bind _ _ _ N1 _ (λ l s, all_known l s ∧ length l = length args)).
  { apply (runs_safe _ N); [|by apply keyed_sequence|done]. intros s1 Hg Hok1.
    pose proof (safe_args ks args Ha s N Hpos ltac:(lia) s1 Hg Hok1) as H1. pose proof (sequence_length args s1) as H2.
    fold N1 in H1. destruct (sequence args s1); try done. destruct H1 as (? & ? & ?). by split_and!. }
  intros argTypes s1 Hg1 Hok1 Hk1 [Hargs Hlen]. raise.
  eapply (ends_bind _ _ _ N1 _ (λ r _, ∀ j, r = Some j → j < length argTypes)).
  { apply (runs_safe _ N1); [apply safe_findVoid; (done || lia)|apply keyed_findVoid|done]. }
  intros v s2 Hg2 Hok2 Hk2 Hv. raise. cbv beta in Hv.
  assert (Hat : ∀ i msg s', ok g N1 s' → i < length argTypes →
    ends s' (errorAt position es i msg;; mret None) (N1 + kc + kp + sig_levels f)).
  { intros i msg s' Hok' Hi. apply (ends_safe _ N1 N1); [|lia|done].
    eapply (safe_bind _ _ _ N1 _ _ _ any); [apply safe_errorAt; lia|]. intros. by step. }
  destruct v as [i|]; [apply Hat; [done|by apply Hv]|].
  eapply (ends_bind _ _ _ N1 _ (λ r _, ∀ j, r = Some j → j < length argTypes)).
  { apply (runs_safe _ N1); [| |done]; destruct (_ && _).
    - apply safe_findCharPointer; (done || lia).
    - by intros s' Hs' Hok'.
    - apply keyed_findCharPointer.
    - apply keyed_ret. }
  intros cp s3 Hg3 Hok3 Hk3 Hcp. raise. destruct cp as [i|]; [apply Hat; [done|by apply Hcp]|].
  assert (Hup : ∀ m n, ends s3 m n → n ≤ N1 + kc + kp + sig_levels f → ends s3 m (N1 + kc + kp + sig_levels f)).
  { intros m n Hm Hle. unfold ends in *. destruct (m s3); try done. destruct Hm as (? & ? & ?).
    split_and!; [done|by eapply ok_mono|done]. }
  assert (Hks : key s3 ≠ f) by congruence. unfold named at 1. destruct (bool_decide (f = "")) eqn:Hf.
  - unfold named. rewrite Hf.
    eapply ends_bind; [apply (runs_safe _ N1); [apply Hcallee; lia|done|done]|]. intros t s4 Hg4 Hok4 Hk4 Ht. raise.
    eapply (ends_calledByType _ (N1 + kc)); [done|done|lia|lia|congruence|done|done].
  - destruct (genericFuncTemplates_ ct !! f) as [tmpl|] eqn:Htm.
    { eapply Hup; [by apply (ends_genericCall s3 N1 kp); [|..]; (done || lia)|lia]. }
    unfold named at 1. rewrite Hf. destruct (injectedVariants_ ct !! f) as [iv|] eqn:Hiv.
    { apply (ends_safe _ N1 N1); [|lia|done]. apply safe_variantCall; first [lia|done|by exists f]. }
    unfold named at 1. rewrite Hf. destruct (cFunctionLikeMacros_ ct !! f) as [params|].
    { apply (ends_safe _ N1 N1); [apply safe_macroCall|lia|done]. }
    eapply ends_bind; [apply (runs_safe _ N1); [apply Hcallee; lia|done|done]|]. intros t s4 Hg4 Hok4 Hk4 Ht. raise.
    eapply (ends_calledByType _ (N1 + kc)); [done|done|lia|lia|congruence|done|done].
Qed.
End calls.

(** ** [(5).abs()] and a call of a function that is not declared *)

Definition exampleCalls : CallTables := {|
  structMethods_ := ∅;
  traitRegistry_ := {| tg_traits := ∅; tg_impls := ∅ |};
  methodRegistry_ := newMethodRegistry;
  extTypeRegistry_ := newExtendedTypeRegistry;
  genericFuncTemplates_ := ∅;
  injectedVariants_ := ∅;
  cFunctionLikeMacros_ := {[ "KEY_F" := ["n"] ]};
  isDeprecated := λ _, false;
  comptimeType := λ _, None;
  cBindings_ := None |}.

Definition noPosition (e : expr) : context := None.

Lemma exampleCalls_known s : calls_known exampleCalls s.
Proof. intros p [x ms m H|x ms m H|x y m impl tm H|x iv H|x iv f H]; cbn in H; by rewrite lookup_empty in H. Qed.

Lemma lookup_types_safely g fuel n : types_safely g fuel 0 (lookupT n).
Proof. intros s0 N _ _. rewrite Nat.add_0_r. apply safe_lookup. Qed.

Lemma mret_safely g (N : nat) s0 : safe g s0 N (mret 0%Z : T Z) (N + 0) any.
Proof. rewrite Nat.add_0_r. apply safe_ret. Qed.

Notation exampleMethod := (methodCall exampleCalls 5 noPosition (EIdent "x") (lookupT "int32") (mret 0%Z) "abs" [] startTyper).

Lemma methodCall_safe_witness :
  match exampleMethod with
  | ROk p s' => grows startTyper s' ∧ ok exampleTables 2 s' ∧ known p s'
  | RThrow _ s' => grows startTyper s'
  | _ => False
  end ∧
  match exampleMethod with ROk p _ => p = Some (RegT "int32") | _ => False end.
Proof.
  split; [|vm_compute; reflexivity].
  apply (methodCall_safe exampleTables exampleCalls 5 noPosition (EIdent "x") 0 (lookupT "int32") 0 (mret 0%Z) "abs" [] [] 1 startTyper).
  - apply startTyper_ok.
  - lia.
  - simpl. lia.
  - apply exampleCalls_known.
  - apply lookup_types_safely.
  - constructor.
  - intros s0 N _ _. apply mret_safely.
Defined.

Notation exampleCall := (fnCall exampleTables exampleCalls 5 noPosition (EIdent "f") "KEY_F" (lookupT "none")
  [EIdent "x"] [lookupT "int32"] startTyper).

Lemma exampleCalls_safe : calls_safe exampleTables exampleCalls 5 0.
Proof. split; intros; simpl in *; simplify_eq. Qed.

Lemma fnCall_safe_witness :
  match exampleCall with
  | ROk p s' => grows startTyper s' ∧ ok exampleTables 1 s' ∧ known p s'
  | RThrow _ s' => grows startTyper s'
  | _ => False
  end ∧
  match exampleCall with ROk p _ => p = Some (RegT "int32") | _ => False end.
Proof.
  split; [|vm_compute; reflexivity].
  apply (fnCall_safe exampleTables exampleCalls 5 noPosition 0 (EIdent "f") "KEY_F" 0 (lookupT "none")
    [EIdent "x"] [0] [lookupT "int32"] 1 startTyper).
  - apply exampleCalls_safe.
  - apply startTyper_ok.
  - lia.
  - apply exampleCalls_known.
  - discriminate.
  - vm_compute. lia.
  - reflexivity.
  - apply lookup_types_safely.
  - apply keyed_lookup.
  - constructor; [apply lookup_types_safely|constructor].
  - constructor; [apply keyed_lookup|constructor].
Defined.
