(* ===== verification/ExprTypeKeep.v ===== *)
(** * What typing an expression keeps

    Typing changes the checker's part of the state in two ways only: it adds diagnostics and
    marks variables as used.  [resolveExprType_leads] is this fact for any relation between
    states of the checker that both respect; the instances are that errors are never taken
    back, that variables stay, and that the function being checked stays the same. *)

From S2P Require Import Prelude.
From S2P Require Import CxxLib.
From S2P Require Import TypeInfo.
From S2P Require Import Assign.
From S2P Require Import Traits.
From S2P Require Import Syntax.
From S2P Require Import ComptimeValue.
From S2P Require Import ConstEval.
From S2P Require Import Builtins.
From S2P Require Import Ownership.
From S2P Require Import Attributes.
From S2P Require Import Modules.
From S2P Require Import Imports.
From S2P Require Import ExprType.

(** A relation from a state to later ones. *)
Class Later (L : Checker → Checker → Prop) := {
  later_preorder :: PreOrder L;
  later_emit ctx sev msg c : L c (emitDiag ctx sev msg c);
  later_used x c : L c (markUsed x c) }.

Definition leads (L : Checker → Checker → Prop) {A} (m : T A) : Prop := ∀ s,
  match m s with ROk _ s' | RThrow _ s' => L (ty_checker s) (ty_checker s') | _ => True end.

Section leads.
Context {L : Checker → Checker → Prop} `{!Later L}.

Lemma leads_ret {A} (a : A) : leads L (mret a).
Proof. intros s. change (L (ty_checker s) (ty_checker s)). reflexivity. Qed.
Lemma leads_bind {A B} (m : T A) (f : A → T B) : leads L m → (∀ a, leads L (f a)) → leads L (m ≫= f).
Proof.
  intros Hm Hf s. specialize (Hm s). unfold mbind, M_bind. destruct (m s) as [a s'|x s'| |]; try done.
  specialize (Hf a s'). destruct (f a s'); [by etrans..|done|done].
Qed.
Lemma leads_get : leads L getS.
Proof. intros s. change (L (ty_checker s) (ty_checker s)). reflexivity. Qed.
Lemma leads_lift {A} (m : outcome A) : leads L (liftO m).
Proof. intros s. unfold liftO. destruct m; reflexivity || done. Qed.
Lemma leads_undef {A} : leads L (@undefT A).
Proof. done. Qed.
Lemma leads_onChecker f : (∀ c, L c (f c)) → leads L (onChecker f).
Proof. intros Hf s. apply Hf. Qed.
Lemma leads_emit ctx sev msg : leads L (onChecker (emitDiag ctx sev msg)).
Proof. apply leads_onChecker. intros. apply later_emit. Qed.
Lemma leads_error ctx msg : leads L (onChecker (error ctx msg)).
Proof. apply leads_emit. Qed.
Lemma leads_errorT position e msg : leads L (errorT position e msg).
Proof. apply leads_emit. Qed.
Lemma leads_warningT position e msg : leads L (warningT position e msg).
Proof. apply leads_emit. Qed.
Lemma leads_used x : leads L (onChecker (markUsed x)).
Proof. apply leads_onChecker. intros. apply later_used. Qed.
Lemma leads_validate e ctx : leads L (onChecker (validateExprNotMoved e ctx)).
Proof.
  apply leads_onChecker. intros c. unfold validateExprNotMoved, error.
  repeat (case_match; try reflexivity). apply later_emit.
Qed.
Lemma leads_modify f : (∀ s, ty_checker (f s) = ty_checker s) → leads L (modifyS f).
Proof. intros Hf s. cbn. by rewrite Hf. Qed.
Lemma leads_lookup n : leads L (lookupT n).
Proof. apply leads_bind; [apply leads_get|]. intros. apply leads_ret. Qed.
Lemma leads_info p : leads L (infoT p).
Proof. apply leads_bind; [apply leads_get|]. intros. apply leads_lift. Qed.
Lemma leads_infoOpt p : leads L (infoOpt p).
Proof. destruct p; [|apply leads_ret]. apply leads_bind; [apply leads_info|]. intros. apply leads_ret. Qed.
Lemma leads_push t : leads L (pushT t).
Proof. intros s. unfold pushT. by destruct (pushDynamic _ t). Qed.
Lemma leads_pointer p : leads L (pointerT p).
Proof. intros s. unfold pointerT. by destruct (getPointerType _ p) as [[]| | |]. Qed.
Lemma leads_name p : leads L (nameT p).
Proof. destruct p; [|apply leads_undef]. apply leads_bind; [apply leads_info|]. intros. apply leads_ret. Qed.
Lemma leads_assignable fuel l r : leads L (assignableT fuel l r).
Proof. apply leads_bind; [apply leads_get|]. intros. apply leads_lift. Qed.
Lemma leads_notAssignable fuel l r : leads L (notAssignable fuel l r).
Proof.
  destruct l, r; try apply leads_ret. apply leads_bind; [apply leads_assignable|]. intros. apply leads_ret.
Qed.
Lemma leads_findOperator g fuel p n : leads L (findOperator g fuel p n).
Proof. apply leads_bind; [apply leads_get|]. intros. apply leads_lift. Qed.
Lemma leads_overload g fuel l lt op k : leads L k → leads L (orOverload g fuel l lt op k).
Proof.
  intros Hk. unfold orOverload. apply leads_bind; [|intros [o|]; [apply leads_ret|done]].
  unfold resolveOpOverload. case_match; [apply leads_ret|]. case_match; [apply leads_ret|].
  apply leads_bind; [apply leads_findOperator|]. intros. apply leads_ret.
Qed.
End leads.

Create HintDb leads discriminated.
#[export] Hint Resolve leads_get leads_lift leads_undef leads_emit leads_error leads_errorT leads_warningT leads_used
  leads_validate leads_lookup leads_info leads_infoOpt leads_push leads_pointer leads_name leads_assignable
  leads_notAssignable leads_findOperator : leads.

(** Walks through a computation. *)
Ltac lead :=
  cbv zeta;
  lazymatch goal with
  | |- leads _ (match ?x with _ => _ end) => destruct x; lead
  | |- leads _ (mret _) => apply leads_ret
  | |- leads _ (when _ _) => unfold when; lead
  | |- leads _ (mbind _ _) => apply leads_bind; [lead|intros; lead]
  | |- leads _ (orOverload _ _ _ _ _ _) => apply leads_overload; lead
  | |- _ => solve [eauto with leads]
  end.

Section typing.
Context {L : Checker → Checker → Prop} `{!Later L}.
Context (g : Tables) (fuel : nat) (position : expr → context).
Context (resolveTypeSpec resolveTypeSpecInContext : option string → T (option tyref * Z)).
Context (constTypeSpec : string → option TypeInfo) (declarator : ExportedSymbol → option Declarator).
Context (resolveRest : expr → T (option tyref)) (restDims : expr → T Z).

(** The same of the parts of typing that are parameters. *)
Record parameters_lead : Prop := {
  pl_spec ts : leads L (resolveTypeSpec ts);
  pl_spec_in ts : leads L (resolveTypeSpecInContext ts);
  pl_decl sym cd init : declarator sym = Some cd → cd_expression cd = Some init → leads L init;
  pl_rest e : leads L (resolveRest e);
  pl_dims e : leads L (restDims e) }.

Context (Hp : parameters_lead).

Lemma leads_numeric e op lt rt : leads L (numericOperands position e op lt rt).
Proof. unfold numericOperands. lead. Qed.
Lemma leads_mixed e op l r lt rt : leads L (mixedOperands position e op l r lt rt).
Proof. unfold mixedOperands. lead. Qed.
Lemma leads_integer e op lt rt : leads L (integerOperands position e op lt rt).
Proof. unfold integerOperands, integerOperand. lead. Qed.
Hint Resolve leads_numeric leads_mixed leads_integer : leads.

Lemma leads_binary e k op l r a b : leads L (resolveBinary g fuel position e k op l r a b).
Proof.
  unfold resolveBinary, checkMul, checkAddSub, checkShift, checkRel, checkEq, checkBitwise, checkLogical,
    checkNullCoal, checkRange. lead.
Qed.
Lemma leads_unwrap p : leads L (unwrapSuccess fuel p).
Proof. unfold unwrapSuccess. lead. Qed.
Hint Resolve leads_binary leads_unwrap : leads.
Lemma leads_unary e k inner p : leads L (resolveUnary fuel position e k inner p).
Proof.
  unfold resolveUnary, checkIncr, checkNeg, checkBitNot, checkAddrOf, checkDeref, checkSpawn, checkAwait. lead.
Qed.
Lemma leads_literal k t : leads L (resolveLiteral k t).
Proof. unfold resolveLiteral. lead. Qed.
Lemma leads_ident e x : leads L (resolveIdent g position resolveTypeSpec declarator e x).
Proof.
  assert (Hd : ∀ sym cd, declarator sym = Some cd → leads L (declaredType resolveTypeSpec cd)).
  { intros sym cd Hcd. unfold declaredType. apply leads_bind.
    - destruct (cd_typeSpec cd); [|apply leads_ret]. apply leads_bind; [apply (pl_spec Hp)|intros; apply leads_ret].
    - intros [t|]; [apply leads_ret|]. destruct (cd_expression cd) eqn:Hi; [by eapply (pl_decl Hp)|apply leads_ret]. }
  assert (Hcd : ∀ sym, leads L match declarator sym with Some cd => declaredType resolveTypeSpec cd | None => mret None end).
  { intros sym. destruct (declarator sym) eqn:E; [by eapply Hd|apply leads_ret]. }
  unfold resolveIdent. apply leads_bind; [apply leads_get|]. intros s.
  repeat (first [solve [lead] | apply leads_bind; [first [apply Hcd|solve [lead]]|intros] |
    match goal with |- leads _ (match ?x with _ => _ end) => destruct x end]).
Qed.
Lemma leads_tuple es : leads L (tupleType es).
Proof.
  unfold tupleType. apply leads_bind; [|intros; lead].
  induction es as [|e es IH]; cbn [mapM_]; lead.
Qed.
Lemma leads_tupleBase e arrow dot p : leads L (tupleBase position e arrow dot p).
Proof. unfold tupleBase. lead. Qed.
Lemma leads_element e i note t : leads L (tupleElement position e i note t).
Proof. unfold tupleElement. lead. Qed.
Hint Resolve leads_unary leads_literal leads_ident leads_tuple leads_tupleBase leads_element : leads.
Lemma leads_tupleIndex e arrow p i : leads L (checkTupleIndex position e arrow p i).
Proof. unfold checkTupleIndex. lead. Qed.
Lemma leads_chained e arrow p i : leads L (checkChainedTupleIndex position e arrow p i).
Proof. unfold checkChainedTupleIndex. lead. Qed.
Lemma leads_cast e src dst n dims : leads L dims → leads L (checkCast position e src dst n dims).
Proof. intros Hd. unfold checkCast. lead. Qed.
Lemma leads_arrow e p x : leads L (checkArrowAccess position e p x).
Proof. unfold checkArrowAccess. lead. Qed.
Lemma leads_field e b p x : leads L (checkFieldAccess g position e b p x).
Proof. unfold checkFieldAccess. lead. Qed.
Lemma leads_index e i b t dims : leads L dims → leads L (checkIndex g fuel position e i b t dims).
Proof. intros Hd. unfold checkIndex, checkElementIndex. lead. Qed.
Lemma leads_enum e a b : leads L (checkEnumAccess g position resolveTypeSpec declarator e a b).
Proof. pose proof (pl_spec Hp). unfold checkEnumAccess. lead. Qed.
Lemma leads_is e p ts v : leads L (checkIs position resolveTypeSpecInContext e p ts v).
Proof. pose proof (pl_spec_in Hp). unfold checkIs. lead. Qed.
Lemma leads_sizeof e ts : leads L (checkSizeof position resolveTypeSpecInContext e ts).
Proof. pose proof (pl_spec_in Hp). unfold checkSizeof, unknownType. lead. Qed.
Lemma leads_alignof e ts : leads L (checkAlignof position resolveTypeSpec e ts).
Proof. pose proof (pl_spec Hp). unfold checkAlignof, unknownType. lead. Qed.
Lemma leads_offsetof e ts f : leads L (checkOffsetof position resolveTypeSpec e ts f).
Proof. pose proof (pl_spec Hp). unfold checkOffsetof. lead. Qed.
Lemma leads_atType e n ts : leads L (checkAtType position resolveTypeSpec e n ts).
Proof. pose proof (pl_spec Hp). unfold checkAtType. lead. Qed.
Lemma leads_atPtr e a p n m : leads L m → leads L (checkAtPtr position e a p n m).
Proof. intros Hm. unfold checkAtPtr. lead. Qed.
Lemma leads_cfg e inner : leads L (checkCfg g position constTypeSpec e inner).
Proof.
  unfold checkCfg. apply leads_bind; [by apply leads_modify|]. intros _. lead.
Qed.
Lemma leads_tryOr e p q : leads L (checkTryOr fuel position e p q).
Proof. unfold checkTryOr. lead. Qed.
Lemma leads_condition e p : leads L (ternaryCondition position e p).
Proof. unfold ternaryCondition. lead. Qed.
Lemma leads_ternary e p q : leads L (checkTernary fuel position e p q).
Proof. unfold checkTernary. lead. Qed.
Lemma leads_arrayElement e x y p q : leads L (checkArrayElement fuel position e x y p q).
Proof. unfold checkArrayElement. lead. Qed.
Hint Resolve leads_tupleIndex leads_chained leads_cast leads_arrow leads_field leads_index leads_enum leads_is
  leads_sizeof leads_alignof leads_offsetof leads_atType leads_atPtr leads_cfg leads_tryOr leads_condition
  leads_ternary leads_arrayElement : leads.

Notation res := (resolveExprType g fuel position resolveTypeSpec resolveTypeSpecInContext constTypeSpec
  declarator resolveRest restDims).
Notation dims := (resolveExprArrayDims g fuel position resolveTypeSpec resolveTypeSpecInContext
  constTypeSpec declarator resolveRest restDims).

Lemma leads_depth e (m : T (option tyref)) : leads L m → leads L (withDepth position e m).
Proof.
  intros Hm s. unfold withDepth. set (s1 := s <| ty_recursionDepth := _ |>).
  match goal with |- context [(if ?b then ?a else m) s1] => set (body := if b then a else m) end.
  assert (H : leads L body) by (unfold body; lead).
  specialize (H s1). by destruct (body s1).
Qed.

Lemma leads_both e : leads L (res e) ∧ leads L (dims e).
Proof.
  induction e as [e IH] using expr_children_ind.
  pose proof (pl_spec Hp) as H1. pose proof (pl_spec_in Hp) as H2. pose proof (pl_rest Hp) as H3. pose proof (pl_dims Hp) as H4.
  assert (Hargs : Forall (λ e, leads L (res e)) (Syntax.children e)) by (by eapply Forall_impl; [exact IH|intros ? []]).
  split.
  - destruct e; cbn [Syntax.children] in *; cbn [resolveExprType]; apply leads_depth;
      repeat match goal with
      | H : Forall _ (_ :: _) |- _ => apply Forall_cons in H as [? H]
      | H : leads L _ ∧ leads L _ |- _ => destruct H
      end; try solve [lead].
    + apply leads_bind; [|intros; lead]. clear IH. induction Hargs as [|x es Hx _ IHes]; cbv beta iota; lead.
    + destruct es as [|x es]; [lead|]. apply Forall_cons in Hargs as [Hx Hes]. apply leads_bind; [done|].
      intros t. apply leads_bind; [|intros; lead]. clear IH. generalize (EArray (x :: es)) as e0. intros e0.
      induction Hes as [|y es Hy _ IHes]; cbv beta iota; lead.
  - destruct e; cbn [Syntax.children] in *; cbn [resolveExprArrayDims];
      repeat match goal with
      | H : Forall _ (_ :: _) |- _ => apply Forall_cons in H as [? H]
      | H : leads L _ ∧ leads L _ |- _ => destruct H
      end; try solve [lead].
Qed.

Theorem resolveExprType_leads e : leads L (res e).
Proof. apply leads_both. Qed.
End typing.

(** ** Instances *)

(** Errors are never taken back. *)
Definition is_error (d : Diagnostic) : bool := match d_severity d with Error => true | _ => false end.
Definition problems (c : Checker) : nat := length (filter (λ d, is_error d = true) (diagnostics_ c)).
Definition reports (c c' : Checker) : Prop := problems c ≤ problems c'.

Lemma problems_emit ctx sev msg c :
  problems (emitDiag ctx sev msg c) = problems c + match sev with Error => 1 | _ => 0 end.
Proof.
  unfold emitDiag, problems. destruct ctx as [[start stop]|]; repeat case_match; cbn [diagnostics_];
    cbn; rewrite filter_app, length_app; done.
Qed.

#[export] Instance reports_later : Later reports.
Proof.
  split; [|intros; unfold reports; rewrite problems_emit; lia|intros; unfold reports; by apply Nat.eq_le_incl].
  split; [intros c; unfold reports; lia|]. unfold reports. intros ? ? ?. lia.
Qed.

(** Variables stay, with their types. *)
Definition persists (c c' : Checker) : Prop := ∀ x vi, locals_ c !! x = Some vi →
  ∃ vi', locals_ c' !! x = Some vi' ∧ vi_type vi' = vi_type vi ∧ vi_arrayDims vi' = vi_arrayDims vi.

#[export] Instance persists_later : Later persists.
Proof.
  split.
  - split; [intros c x vi Hx; by eauto|]. intros c1 c2 c3 H1 H2 x vi Hx.
    destruct (H1 x vi Hx) as (vi' & Hx' & Ht & Hd). destruct (H2 x vi' Hx') as (vi2 & ? & ? & ?).
    exists vi2. split_and!; congruence.
  - intros ctx sev msg c x vi Hx. exists vi. split_and!; try done. unfold emitDiag. by repeat case_match.
  - intros y c x vi Hx. unfold markUsed. cbn. destruct (decide (y = x)) as [->|].
    + rewrite lookup_alter_eq, Hx. cbn. by eexists.
    + rewrite lookup_alter_ne by done. by eauto.
Qed.

(** The function being checked stays the same. *)
Definition sameFunction (c c' : Checker) : Prop := currentFnConsumeKey_ c' = currentFnConsumeKey_ c.

#[export] Instance sameFunction_later : Later sameFunction.
Proof.
  split; [|intros; apply emitDiag_consuming|done].
  split; [done|]. unfold sameFunction. by intros ? ? ? -> ->.
Qed.

#[export] Hint Resolve reports_later persists_later sameFunction_later : leads.
