(* ===== verification/AssignStmts.v ===== *)
(** * Assignments

    The statements of [checkers/Checker_assign.cpp]: assignment to a variable or an element,
    to a field, through an arrow and through a pointer, and the compound forms of each.  Their
    dispatch is part of [Checker::checkStmt] ([checkers/Checker_stmt.cpp]).  Expressions are
    typed with [resolveExprType], whose parameters are those of [ExprType].

    An assignment to a variable keeps an iterator to it while the right-hand side is typed.
    Its later use is undefined once the variable is gone. *)

From S2P Require Import Prelude.
From S2P Require Import CxxLib.
From S2P Require Import TypeInfo.
From S2P Require Import Assign.
From S2P Require Import Traits.
From S2P Require Import Syntax.
From S2P Require Import ComptimeValue.
From S2P Require Import ConstEval.
From S2P Require Import Builtins.
From S2P Require Import Ownership.
From S2P Require Import Attributes.
From S2P Require Import Modules.
From S2P Require Import Imports.
From S2P Require Import ExprType.
From S2P Require Import Calls.
Local Open Scope Z_scope.

(** The statements, with the identifiers of their contexts in order. *)
Inductive assignment :=
| AssignStmt (name : string) (indices : list expr) (rhs : expr)
| CompoundAssignStmt (name op : string) (rhs : expr)
| FieldAssignStmt (name : string) (fields : list string) (rhs : expr)
| FieldCompoundAssignStmt (name : string) (fields : list string) (op : string) (rhs : expr)
| ArrowAssignStmt (ids : list string) (rhs : expr)
| ArrowCompoundAssignStmt (ids : list string) (op : string) (rhs : expr)
| DerefAssignStmt (target : string + expr) (rhs : expr)
| DerefCompoundAssignStmt (target : string + expr) (op : string) (rhs : expr)
| IndexFieldAssignStmt (es : list expr)
| FieldIndexAssignStmt (es : list expr)
| ArrowAnyAssignStmt (es : list expr)
| ArrowAnyCompoundAssignStmt (es : list expr).

(** What a compound assignment says of its target, and which it accepts. *)
Record CompoundTarget := {
  ct_what : string;
  ct_coalesce : string;
  ct_typeName : string;
  ct_form : string;
  ct_pointers : bool;
  ct_integers : option TypeInfo → bool }.

Definition variableTarget : CompoundTarget := {|
  ct_what := "variable"; ct_coalesce := "variable"; ct_typeName := "variable"; ct_form := "";
  ct_pointers := true; ct_integers := isIntegerOrPointer |}.
Definition fieldTarget : CompoundTarget := {|
  ct_what := "field"; ct_coalesce := "field"; ct_typeName := "field"; ct_form := "field ";
  ct_pointers := true; ct_integers := isIntegerOrPointer |}.
Definition arrowTarget : CompoundTarget := {|
  ct_what := "field"; ct_coalesce := "field"; ct_typeName := "field"; ct_form := "arrow ";
  ct_pointers := true; ct_integers := isInteger |}.
Definition derefTarget : CompoundTarget := {|
  ct_what := "pointer target"; ct_coalesce := "target (deref of pointer-to-pointer)";
  ct_typeName := "target"; ct_form := "deref "; ct_pointers := false; ct_integers := isInteger |}.

Definition isArrayLit (e : expr) : bool := match e with EArray _ => true | _ => false end.

Definition isScalarLit (e : expr) : bool :=
  match e with
  | ELit (NullLit | BtickLit | RawBtickLit | IntBtickLit | ShellBtickLit | CmptBtickLit) _ => false
  | ELit _ _ => true
  | _ => false
  end.

Definition is_setter (o : OperatorInfo) : bool :=
  bool_decide (op_internalName o = "opIndex") && (length (op_paramTypes o) =? 2)%nat.

(** Where a chain of fields leads: to a type, to a field of a bit struct, or to an error. *)
Inductive walk :=
| Arrived (type : option tyref)
| AtBitField (name : string)
| Stopped.

Section assign_stmts.
Context (g : Tables) (fuel : nat) (position : expr → context).
Context (resolveTypeSpec resolveTypeSpecInContext : option string → T (option tyref * Z)).
Context (constTypeSpec : string → option TypeInfo) (declarator : ExportedSymbol → option Declarator).
Context (resolveRest : expr → T (option tyref)) (restDims : expr → T Z).
(** [VarInfo::isConst] of the variables. *)
Context (isConst : string → bool).
(** Where the statement is. *)
Context (stmt : context).

Notation typeOf := (resolveExprType g fuel position resolveTypeSpec resolveTypeSpecInContext
  constTypeSpec declarator resolveRest restDims).

Definition errorS (msg : string) : T unit := onChecker (error stmt msg).

(** [if (l && r && !isAssignable(l, r)) error(msg)], with the names of the types. *)
Definition unlessAssignable (l r : option tyref) (msg : string → string → string) : T unit :=
  n ← notAssignable fuel l r;
  if n : bool then a ← nameT l; b ← nameT r; errorS (msg a b) else mret ().

(** [if (t && !ok(t)) error(msg + name)] *)
Definition unlessKind (ok : option TypeInfo → bool) (t : option TypeInfo) (msg : string) : T unit :=
  match t with
  | Some ti => when (negb (ok t)) (errorS (msg +:+ quote (ti_name ti)))
  | None => mret ()
  end.

(** [checkNegativeToUnsigned] *)
Definition checkNegativeToUnsigned (target : option TypeInfo) (e : expr) : T unit :=
  match target with
  | None => mret ()
  | Some t =>
      if negb (hasKind TK.Integer t) || ti_isSigned t then mret () else
      match match e with EUnary UTry e | ETryOr e _ => e | _ => e end with
      | EUnary UNeg _ => errorS ("cannot assign negative value to unsigned type " +:+ quote (ti_name t))
      | EIdent id =>
          match cEnumConstants_ g !! id with
          | Some c =>
              if ce_isFloat c || ce_isString c then mret () else
              when (ce_value c <? 0)
                (errorS ("cannot assign negative value " +:+ to_string (ce_value c) +:+ " (" +:+ quote id +:+
                         ") to unsigned type " +:+ quote (ti_name t)))
          | None => mret ()
          end
      | _ => mret ()
      end
  end.

(** ** Variables and elements *)

Definition onLocal (name : string) (f : VarInfo → VarInfo) : T unit :=
  onChecker (λ c, c <| locals_ := alter f name (locals_ c) |>).

(** [it->second], when the right-hand side has been typed. *)
Definition localT (name : string) : T VarInfo :=
  s ← getS;
  match locals_ (ty_checker s) !! name with Some vi => mret vi | None => undefT end.

(** [auto it = locals_.find(name)]; [k] is what follows when there is such a variable, with
    the pointer to its type. *)
Definition withLocal (name : string) (k : option tyref → T unit) : T unit :=
  s ← getS;
  match locals_ (ty_checker s) !! name with
  | None => errorS ("undefined variable " +:+ quote name)
  | Some _ => k (default None (ty_varTypes s !! name))
  end.

(** The loop along the parents that looks for an index operator with two parameters. *)
Fixpoint findSetter (fuel : nat) (e : type_env) (t : option tyref) (setter : option OperatorInfo)
    : outcome (option OperatorInfo) :=
  match fuel with
  | O => NoFuel
  | S fuel =>
      match t with
      | None => Ret setter
      | Some p =>
          t ← deref e p;
          findSetter fuel e (ti_parentType t)
            (fold_left (λ s o, if is_setter o then Some o else s)
               (default [] (operatorMethods_ g !! ti_name t)) setter)
      end
  end.

Definition setterT (p : option tyref) : T (option OperatorInfo) :=
  s ← getS; liftO (findSetter fuel (ty_env s) p None).

(** [obj[i] = rhs] with such an operator *)
Definition callSetter (setter : OperatorInfo) (index rhs : expr) : T unit :=
  idxType ← typeOf index;
  unlessAssignable (default None (op_paramTypes setter !! 0%nat)) idxType (λ a b,
    "index type mismatch: expected " +:+ quote a +:+ ", got " +:+ quote b);;
  rhsType ← typeOf rhs;
  unlessAssignable (default None (op_paramTypes setter !! 1%nat)) rhsType (λ a b,
    "value type mismatch: expected " +:+ quote a +:+ ", got " +:+ quote b).

(** [m[key] = rhs] *)
Definition assignMapElement (vt : TypeInfo) (index rhs : expr) : T unit :=
  keyType ← typeOf index;
  rhsType ← typeOf rhs;
  unlessAssignable (ti_keyType vt) keyType (λ a b,
    "map key type mismatch: expected " +:+ quote a +:+ ", got " +:+ quote b);;
  unlessAssignable (ti_valueType vt) rhsType (λ a b,
    "map value type mismatch: expected " +:+ quote a +:+ ", got " +:+ quote b).

Fixpoint checkIndices (indices : list expr) : T unit :=
  match indices with
  | [] => mret ()
  | i :: indices =>
      p ← typeOf i;
      t ← infoOpt p;
      unlessKind isInteger t "index must be integer, got ";;
      checkIndices indices
  end.

(** The type an element has behind [n] index operations. *)
Fixpoint indexedType (n : nat) (p : option tyref) : T (option tyref) :=
  match n, p with
  | S n, Some p =>
      q ← autoDeref p;
      t ← infoT q;
      indexedType n
        (if hasKind TK.Extended t then
           match ti_keyType t with
           | Some _ => ti_valueType t
           | None => match ti_elementType t with Some el => Some el | None => Some q end
           end
         else Some q)
  | _, _ => mret p
  end.

(** The dimensions of a whole variable against the form of the right-hand side. *)
Definition checkDims (name : string) (dims : Z) (rhs : expr) : T unit :=
  if (dims =? 0) && isArrayLit rhs then
    errorS ("type mismatch: cannot assign array literal to non-array variable " +:+ quote name)
  else when ((0 <? dims) && negb (isArrayLit rhs) && isScalarLit rhs)
    (errorS ("type mismatch: cannot assign scalar to array variable " +:+ quote name)).

(** What the assignment of a whole variable does to its buffer, range and ownership. *)
Definition trackAssigned (name : string) (varType : option tyref) (rhs : expr) : T unit :=
  vi ← localT name;
  when (isDropTrackedType (vi_type vi) (vi_arrayDims vi))
    (onChecker (λ c, c <| locals_ :=
       alter (λ vi, updateOwnershipOnInitialization (locals_ c) vi (Some rhs)) name (locals_ c) |>));;
  onChecker (markExprAsMoved rhs stmt);;
  vt ← infoOpt varType;
  liftC (trackVarBufferFromExpr name rhs vt);;
  liftC (trackVarNumericRangeFromExpr name rhs vt).

(** The part of [checkAssignStmt] behind the special containers. *)
Definition assignElement (name : string) (varType : option tyref) (indices : list expr) (rhs : expr) : T unit :=
  let whole := (length indices =? 0)%nat in
  checkIndices indices;;
  rhsType ← typeOf rhs;
  expectedType ← indexedType (length indices) varType;
  n ← notAssignable fuel expectedType rhsType;
  (if n : bool then
     a ← nameT expectedType; b ← nameT rhsType;
     errorS ("type mismatch: cannot assign " +:+ quote b +:+ " to variable " +:+ quote name +:+
             " of type " +:+ quote a)
   else match rhsType, expectedType with
   | Some _, Some _ => if whole then vi ← localT name; checkDims name (vi_arrayDims vi) rhs else mret ()
   | _, _ => mret ()
   end);;
  et ← infoOpt expectedType;
  checkNegativeToUnsigned et rhs;;
  if whole then trackAssigned name varType rhs else mret ().

(** A set, whose elements cannot be assigned, or an element of a map. *)
Definition assignContainer (name : string) (varType : option tyref) (t : TypeInfo) (indices : list expr)
    (rhs : expr) : T unit :=
  if hasKind TK.Extended t && bool_decide (ti_extendedKind t = "Set") then
    el ← infoOpt (ti_elementType t);
    errorS ("set<" +:+ match el with Some el => ti_name el | None => "?" end +:+
            "> does not support indexing")
  else match hasKind TK.Extended t, ti_keyType t, indices with
  | true, Some _, [index] => assignMapElement t index rhs
  | _, _, _ => assignElement name varType indices rhs
  end.

(** A struct, with the index operators of its type, or something else. *)
Definition assignTo (name : string) (varType : option tyref) (indices : list expr) (rhs : expr) : T unit :=
  vt ← infoOpt varType;
  match vt with
  | None => assignElement name varType indices rhs
  | Some t =>
      match hasKind TK.Struct t, indices with
      | true, index :: _ =>
          setter ← setterT varType;
          match setter with
          | Some o => callSetter o index rhs
          | None =>
              getter ← findOperator g fuel varType "opIndex";
              match getter with
              | Some _ => errorS ("operator '[]' for type " +:+ quote (ti_name t) +:+
                                  " requires a setter overload with value parameter")
              | None => assignContainer name varType t indices rhs
              end
          end
      | _, _ => assignContainer name varType t indices rhs
      end
  end.

Definition checkAssignStmt (name : string) (indices : list expr) (rhs : expr) : T unit :=
  withLocal name (λ varType,
    if isConst name then errorS ("cannot assign to constant " +:+ quote name) else
    onLocal name (λ vi, vi <| vi_initialized := true |>);;
    assignTo name varType indices rhs).

(** ** Compound assignments *)

Definition arithmeticOps : list string := ["+="; "-="; "*="; "/="].
Definition integerOps : list string := ["%="; "&="; "|="; "^="; "<<="; ">>="].

Definition checkDivision (op : string) (rhs : expr) : T unit :=
  when (bool_decide (op ∈ ["/="; "%="]) && is_zero_literal rhs) (errorS "division by zero").

(** The part of the compound statements behind their targets: [target] is the type assigned
    to, [rhsType] that of the right-hand side. *)
Definition checkCompound (ct : CompoundTarget) (op : string) (target rhsType : option tyref) (rhs : expr)
    : T unit :=
  tt ← infoOpt target;
  rt ← infoOpt rhsType;
  let needs what := "operator " +:+ quote op +:+ " requires " +:+ what +:+ ", got " in
  if bool_decide (op = "??=") then
    unlessKind is_pointer tt ("'??=' requires pointer " +:+ ct_coalesce ct +:+ ", got ");;
    unlessAssignable target rhsType (λ a b,
      "'??=' type mismatch: " +:+ ct_typeName ct +:+ " type " +:+ quote a +:+ ", cannot use " +:+ quote b)
  else
    (if ct_pointers ct && is_pointer tt && bool_decide (op ∈ ["+="; "-="]) then
       unlessKind isInteger rt ("pointer arithmetic " +:+ quote op +:+ " requires integer operand, got ")
     else
       let numeric := bool_decide (op ∈ arithmeticOps) in
       let integer := bool_decide (op ∈ integerOps) in
       (if numeric then unlessKind isNumeric tt (needs ("numeric " +:+ ct_what ct)) else mret ());;
       (if integer then unlessKind (ct_integers ct) tt (needs ("integer " +:+ ct_what ct)) else mret ());;
       (if numeric then unlessKind isNumeric rt (needs "numeric operand") else mret ());;
       (if integer then unlessKind isIntegerOrPointer rt (needs "integer operand") else mret ());;
       unlessAssignable target rhsType (λ a b,
         "type mismatch in " +:+ ct_form ct +:+ "compound assignment: " +:+ ct_typeName ct +:+ " type " +:+
         quote a +:+ ", cannot use " +:+ quote b));;
    checkDivision op rhs.

Definition checkCompoundAssignStmt (name op : string) (rhs : expr) : T unit :=
  withLocal name (λ varType,
    rhsType ← typeOf rhs;
    vt ← infoOpt varType;
    if bool_decide (op = "+=") && is_string vt then
      rt ← infoOpt rhsType;
      match rt with
      | Some t => when (negb (is_string rt))
          (errorS ("cannot concatenate 'string' with " +:+ quote (ti_name t) +:+ " using '+='"))
      | None => mret ()
      end
    else checkCompound variableTarget op varType rhsType rhs).

(** ** Fields *)

Definition noSuchField (t : TypeInfo) (name : string) : T walk :=
  errorS ("struct " +:+ quote (ti_name t) +:+ " has no field " +:+ quote name);; mret Stopped.

(** The loop over the fields; [prev] is the identifier before them. *)
Fixpoint walkFields (prev : string) (fields : list string) (current : option tyref) : T walk :=
  match fields with
  | [] => mret (Arrived current)
  | f :: fields =>
      current ← match current with Some p => q ← autoDeref p; mret (Some q) | None => mret None end;
      t ← infoOpt current;
      let notStruct := errorS (quote prev +:+ " is not a struct or union type");; mret Stopped in
      match t with
      | None => notStruct
      | Some t =>
          if hasKind TK.BitStruct t then
            if existsb (λ bf, bool_decide (bf_name bf = f) && negb (bf_isPadding bf)) (ti_bitFields t)
            then mret (AtBitField f)
            else errorS (quote (ti_name t) +:+ " has no field " +:+ quote f);; mret Stopped
          else if hasKind TK.Struct t || hasKind TK.Union t then
            match findField f (ti_fields t) with
            | Some fi => walkFields f fields (fi_typeInfo fi)
            | None => noSuchField t f
            end
          else notStruct
      end
  end.

(** Behind the walk; [k] goes on with the types of the field and of the right-hand side. *)
Definition assignField (w : walk) (rhs : expr) (k : option tyref → option tyref → T unit) : T unit :=
  match w with
  | Stopped => mret ()
  | AtBitField f =>
      rhsType ← typeOf rhs;
      rt ← infoOpt rhsType;
      match rt with
      | Some t => when (negb (hasKind TK.Integer t))
          (errorS ("bitstruct field " +:+ quote f +:+ " requires an integer value"))
      | None => mret ()
      end
  | Arrived t => rhsType ← typeOf rhs; k t rhsType
  end.

Definition fieldMismatch (form : string) (target rhsType : option tyref) : T unit :=
  unlessAssignable target rhsType (λ a b,
    "type mismatch in " +:+ form +:+ " assignment: expected " +:+ quote a +:+ ", got " +:+ quote b).

Definition checkFieldAssignStmt (name : string) (fields : list string) (rhs : expr) : T unit :=
  withLocal name (λ varType,
    if isConst name then errorS ("cannot assign to constant " +:+ quote name) else
    w ← walkFields name fields varType;
    assignField w rhs (fieldMismatch "field")).

Definition checkFieldCompoundAssignStmt (name : string) (fields : list string) (op : string) (rhs : expr)
    : T unit :=
  withLocal name (λ varType,
    w ← walkFields name fields varType;
    assignField w rhs (λ t rhsType, checkCompound fieldTarget op t rhsType rhs)).

(** ** Arrows *)

(** A type behind a pointer, and whether there was one. *)
Definition pointee (p : option tyref) (pointerBase : bool) : T (option tyref * bool) :=
  t ← infoOpt p;
  match t with
  | Some t => match hasKind TK.Pointer t, ti_pointeeType t with
              | true, Some q => mret (Some q, true)
              | _, _ => mret (p, pointerBase)
              end
  | None => mret (p, pointerBase)
  end.

Definition structOrUnion (t : option TypeInfo) : option TypeInfo :=
  match t with Some t => if hasKind TK.Struct t || hasKind TK.Union t then Some t else None | None => None end.

(** The fields before the arrow; [None] after an error. *)
Fixpoint walkBase (fields : list string) (current : option tyref) (pointerBase : bool)
    : T (option (option tyref * bool)) :=
  match fields with
  | [] => mret (Some (current, pointerBase))
  | f :: fields =>
      t ← infoOpt current;
      match structOrUnion t with
      | None => errorS ("cannot access field " +:+ quote f +:+ " on non-struct type");; mret None
      | Some t =>
          match findField f (ti_fields t) ≫= fi_typeInfo with
          | None => noSuchField t f;; mret None
          | Some p => r ← pointee (Some p) pointerBase; walkBase fields r.1 r.2
          end
      end
  end.

(** The type of the last field, behind the arrow, from a variable of type [varType]. *)
Definition arrowFrom (varType : option tyref) (ids : list string) : T (option tyref) :=
  r ← pointee varType false;
  b ← walkBase (tail (removelast ids)) r.1 r.2;
  match b with
  | None => mret None
  | Some (current, pointerBase) =>
      t ← infoOpt current;
      match structOrUnion t with
      | Some t =>
          if pointerBase : bool then
            match findField (List.last ids "") (ti_fields t) ≫= fi_typeInfo with
            | Some p => mret (Some p)
            | None => noSuchField t (List.last ids "");; mret None
            end
          else errorS "'->' requires pointer to struct or union";; mret None
      | None => errorS "'->' requires pointer to struct or union";; mret None
      end
  end.

Definition arrowField (ids : list string) (malformed : string) : T (option tyref) :=
  match ids with
  | name :: _ :: _ =>
      s ← getS;
      match locals_ (ty_checker s) !! name with
      | None => errorS ("undefined variable " +:+ quote name);; mret None
      | Some _ => arrowFrom (default None (ty_varTypes s !! name)) ids
      end
  | _ => errorS malformed;; mret None
  end.

Definition checkArrowAssignStmt (ids : list string) (rhs : expr) : T unit :=
  fieldType ← arrowField ids "malformed '->' assignment";
  match fieldType with
  | None => mret ()
  | Some _ => rhsType ← typeOf rhs; fieldMismatch "arrow" fieldType rhsType
  end.

Definition checkArrowCompoundAssignStmt (ids : list string) (op : string) (rhs : expr) : T unit :=
  fieldType ← arrowField ids "malformed '->' compound assignment";
  match fieldType with
  | None => mret ()
  | Some _ => rhsType ← typeOf rhs; checkCompound arrowTarget op fieldType rhsType rhs
  end.

(** ** Pointers *)

Definition checkDerefAssignStmt (target : string + expr) (rhs : expr) : T unit :=
  match target with
  | inl name =>
      withLocal name (λ varType,
        vt ← infoOpt varType;
        unlessKind is_pointer vt
          ("cannot dereference non-pointer variable " +:+ quote name +:+ " of type ");;
        typeOf rhs;; mret ())
  | inr e =>
      p ← typeOf e;
      t ← infoOpt p;
      unlessKind is_pointer t "cannot dereference non-pointer expression of type ";;
      typeOf rhs;; mret ()
  end.

(** The type behind a pointer, or null. *)
Definition pointeeOf (p : option tyref) : T (option tyref) :=
  t ← infoOpt p;
  mret match t with Some t => if hasKind TK.Pointer t then ti_pointeeType t else None | None => None end.

Definition checkDerefCompoundAssignStmt (target : string + expr) (op : string) (rhs : expr) : T unit :=
  let continue targetType :=
    rhsType ← typeOf rhs; checkCompound derefTarget op targetType rhsType rhs in
  match target with
  | inl name =>
      withLocal name (λ varType,
        q ← pointeeOf varType;
        match q with
        | None =>
            n ← nameT varType;
            errorS ("cannot dereference non-pointer variable " +:+ quote name +:+ " of type " +:+ quote n)
        | Some _ => continue q
        end)
  | inr e =>
      p ← typeOf e;
      q ← pointeeOf p;
      match q with
      | None => errorS "cannot dereference non-pointer expression"
      | Some _ => continue q
      end
  end.

(** ** The dispatch of [checkStmt] *)

Fixpoint typeAll (es : list expr) : T unit :=
  match es with [] => mret () | e :: es => typeOf e;; typeAll es end.

Definition checkAssignment (a : assignment) : T unit :=
  match a with
  | AssignStmt name indices rhs => checkAssignStmt name indices rhs
  | CompoundAssignStmt name op rhs => checkCompoundAssignStmt name op rhs
  | FieldAssignStmt name fields rhs => checkFieldAssignStmt name fields rhs
  | FieldCompoundAssignStmt name fields op rhs => checkFieldCompoundAssignStmt name fields op rhs
  | ArrowAssignStmt ids rhs => checkArrowAssignStmt ids rhs
  | ArrowCompoundAssignStmt ids op rhs => checkArrowCompoundAssignStmt ids op rhs
  | DerefAssignStmt target rhs => checkDerefAssignStmt target rhs
  | DerefCompoundAssignStmt target op rhs => checkDerefCompoundAssignStmt target op rhs
  | IndexFieldAssignStmt es | FieldIndexAssignStmt es => typeAll es
  | ArrowAnyAssignStmt _ | ArrowAnyCompoundAssignStmt _ => mret ()
  end.
End assign_stmts.
