(* ===== verification/AssignSafety.v ===== *)
(** * Checking an assignment is safe

    The triples of [ExprTypeSafety] for the statements of [AssignStmts].  An assignment to a
    variable is followed from the state it runs in, because it uses the variable again when its
    right-hand side is typed. *)

From S2P Require Import Prelude.
From S2P Require Import CxxLib.
From S2P Require Import TypeInfo.
From S2P Require Import Assign.
From S2P Require Import Traits.
From S2P Require Import Syntax.
From S2P Require Import ComptimeValue.
From S2P Require Import ConstEval.
From S2P Require Import Builtins.
From S2P Require Import Ownership.
From S2P Require Import Attributes.
From S2P Require Import Modules.
From S2P Require Import Imports.
From S2P Require Import ExprType.
From S2P Require Import ExprTypeSafety.
From S2P Require Import ExprTypeKeep.
From S2P Require Import Calls.
From S2P Require Import CallsKeep.
From S2P Require Import CallsSafety.
From S2P Require Import AssignStmts.
Local Open Scope nat_scope.

Notation any := (λ _ _, True).

(** ** What the steps keep *)

Section keep.
Context {L : Checker → Checker → Prop} `{!Later L}.
Context (g : Tables) (fuel : nat) (stmt : context).

Lemma leads_errorS msg : leads L (errorS stmt msg).
Proof. apply leads_emit. Qed.
Hint Resolve leads_errorS : leads.
Lemma leads_unlessAssignable l r msg : leads L (unlessAssignable fuel stmt l r msg).
Proof. unfold unlessAssignable. lead. Qed.
Lemma leads_unlessKind ok t msg : leads L (unlessKind stmt ok t msg).
Proof. unfold unlessKind. lead. Qed.
Lemma leads_negative t e : leads L (checkNegativeToUnsigned g stmt t e).
Proof. unfold checkNegativeToUnsigned. lead. Qed.
Lemma leads_dims x n e : leads L (checkDims stmt x n e).
Proof. unfold checkDims. lead. Qed.
Lemma leads_localT x : leads L (localT x).
Proof. unfold localT. lead. Qed.
Lemma leads_autoDeref p : leads L (autoDeref p).
Proof. unfold autoDeref. lead. Qed.
Hint Resolve leads_autoDeref : leads.
Lemma leads_indexedType n : ∀ p, leads L (indexedType n p).
Proof. induction n; intros [p|]; cbn [indexedType]; lead. Qed.
Hint Resolve leads_unlessAssignable leads_unlessKind : leads.
Lemma leads_compound ct op p q e : leads L (checkCompound fuel stmt ct op p q e).
Proof. unfold checkCompound, checkDivision. lead. Qed.
Lemma leads_noField t x : leads L (noSuchField stmt t x).
Proof. unfold noSuchField. lead. Qed.
Hint Resolve leads_noField : leads.
Lemma leads_walkFields fs : ∀ prev p, leads L (walkFields stmt prev fs p).
Proof. induction fs; intros prev p; cbn [walkFields]; lead. Qed.
Lemma leads_pointee p b : leads L (pointee p b).
Proof. unfold pointee. lead. Qed.
Hint Resolve leads_pointee : leads.
Lemma leads_walkBase fs : ∀ p b, leads L (walkBase stmt fs p b).
Proof. induction fs; intros p b; cbn [walkBase]; lead. Qed.
Hint Resolve leads_walkBase : leads.
Lemma leads_arrowField ids msg : leads L (arrowField stmt ids msg).
Proof. unfold arrowField, arrowFrom. lead. Qed.
End keep.

#[export] Hint Resolve leads_errorS leads_unlessAssignable leads_unlessKind leads_negative leads_dims leads_localT
  leads_autoDeref leads_noField leads_pointee leads_walkBase
  leads_indexedType leads_compound leads_walkFields leads_arrowField : leads.

Section safety.
Context (g : Tables) (fuel : nat) (position : expr → context).
Context (resolveTypeSpec resolveTypeSpecInContext : option string → T (option tyref * Z)).
Context (constTypeSpec : string → option TypeInfo) (declarator : ExportedSymbol → option Declarator).
Context (resolveRest : expr → T (option tyref)) (restDims : expr → T Z).
Context (isConst : string → bool) (stmt : context) (D : nat).
Context (Hps : parameters_safe g fuel resolveTypeSpec resolveTypeSpecInContext declarator resolveRest restDims D).

Notation res := (resolveExprType g fuel position resolveTypeSpec resolveTypeSpecInContext constTypeSpec
  declarator resolveRest restDims).
Notation stmtOf f := (f g fuel position resolveTypeSpec resolveTypeSpecInContext constTypeSpec
  declarator resolveRest restDims).
Notation spawns := (spawns D).

Lemma safe_typeOf s0 N e : 0 < N → N + spawns e < fuel → no_cfg e = true → safe g s0 N (res e) (N + spawns e) known.
Proof. intros. by apply (sound_all g fuel position _ _ constTypeSpec _ _ _ D Hps e). Qed.

(** *** Steps that add no types *)

Section level.
Context (N : nat) (HN : N < fuel) (Hpos : 0 < N).
Notation safely s0 m R := (safe g s0 N m N R).

Lemma safe_fault s0 msg : safely s0 (errorS stmt msg) any.
Proof. apply safe_onChecker. Qed.
Hint Resolve safe_fault : typing.

Lemma safe_unlessAssignable s0 l r msg : known l s0 → known r s0 →
  safely s0 (unlessAssignable fuel stmt l r msg) any.
Proof.
  intros Hl Hr. unfold unlessAssignable. eapply safe_bind; [by apply safe_notAssignable; [lia|..]|].
  intros n s1 Hg _ Hn. lift. eapply safe_mismatch; [done|done|done| |apply safe_ret]. intros. apply safe_fault.
Qed.

Lemma safe_unlessKind s0 ok t msg : safely s0 (unlessKind stmt ok t msg) any.
Proof. unfold unlessKind. repeat step. Qed.

Lemma safe_negative s0 t e : safely s0 (checkNegativeToUnsigned g stmt t e) any.
Proof. unfold checkNegativeToUnsigned. cbv zeta. destruct t; [|apply safe_ret]. case_match; [apply safe_ret|]. repeat (case_match; try by repeat step). Qed.
Hint Resolve safe_unlessAssignable safe_unlessKind safe_negative : typing.

Lemma safe_onLocal s0 x f : safely s0 (onLocal x f) any.
Proof. apply safe_onChecker. Qed.

(** The type of a variable. *)
Lemma known_var s x : ok g N s → known (default None (ty_varTypes s !! x)) s.
Proof.
  intros Hok. destruct (ty_varTypes s !! x) as [[p|]|] eqn:Hx; try apply known_None.
  apply known_Some. by eapply ok_vars.
Qed.

Lemma safe_withLocal s0 x k N' : N ≤ N' → (∀ p s1, grows s0 s1 → known p s1 → safe g s1 N (k p) N' any) →
  safe g s0 N (withLocal stmt x k) N' any.
Proof.
  intros Hle Hk s Hs Hok. unfold withLocal, mbind, M_bind, getS. destruct (locals_ (ty_checker s) !! x).
  - by apply (Hk _ s Hs (known_var s x Hok)).
  - pose proof (safe_up g s0 N N N' _ _ Hle (safe_fault s0 ("undefined variable " +:+ quote x))) as H. by apply H.
Qed.

Lemma safe_indexedType n : ∀ p s0, known p s0 → safely s0 (indexedType n p) known.
Proof.
  induction n as [|n IH]; intros [p|] s0 Hp; cbn [indexedType]; try by apply safe_ret_known.
  eapply safe_bind; [apply safe_autoDeref; by apply Hp|]. intros q s1 Hg1 _ Hq. lift.
  eapply safe_bind; [apply safe_info; by apply Hq|]. intros t s2 Hg2 Hok2 Ht. lift. apply IH.
  destruct (hasKind TK.Extended t); [|done]. destruct (ti_keyType t).
  - eapply held_denotes; [done|exact Ht|apply pointer_value].
  - destruct (ti_elementType t) as [el|] eqn:Hel; [|done]. rewrite <-Hel.
    eapply held_denotes; [done|exact Ht|apply pointer_element].
Qed.

Lemma safe_compound s0 ct op p q rhs : known p s0 → known q s0 →
  safely s0 (checkCompound fuel stmt ct op p q rhs) any.
Proof. intros Hp Hq. unfold checkCompound, checkDivision. repeat step. Qed.

Lemma safe_pointee s0 p b : known p s0 → safely s0 (pointee p b) (λ r s, known r.1 s).
Proof.
  intros Hp. unfold pointee. eapply safe_bind; [by apply safe_infoOpt|]. intros t s1 Hg1 Hok1 Ht. lift.
  intros s Hs Hok. destruct t as [t|]; [|split_and!; [done..|by eapply known_grows]].
  destruct (hasKind TK.Pointer t), (ti_pointeeType t) as [q|] eqn:Hq; split_and!; try done; try (by eapply known_grows).
  eapply known_grows; [|done]. cbn. rewrite <-Hq. eapply held_denotes; [exact Hok1|exact Ht|apply pointer_pointee].
Qed.

Lemma safe_pointeeOf s0 p : known p s0 → safely s0 (pointeeOf p) known.
Proof.
  intros Hp. unfold pointeeOf. eapply safe_bind; [by apply safe_infoOpt|]. intros t s1 Hg1 Hok1 Ht.
  apply safe_ret_known. destruct t as [t|]; [|done]. destruct (hasKind TK.Pointer t); [|done].
  eapply held_denotes; [exact Hok1|exact Ht|apply pointer_pointee].
Qed.

(** *** Chains of fields *)

Definition arrives (w : walk) (s : Typer) : Prop := match w with Arrived p => known p s | _ => True end.

Lemma safe_noField s0 t x : safely s0 (noSuchField stmt t x) arrives.
Proof. eapply safe_bind; [apply safe_fault|]. intros _ s1 _ _ _ s Hs Hok. done. Qed.

Lemma safe_walkFields fs : ∀ prev p s0, known p s0 → safely s0 (walkFields stmt prev fs p) arrives.
Proof.
  assert (Hstop : ∀ s0 msg, safely s0 (errorS stmt msg;; mret Stopped) arrives).
  { intros s0 msg. eapply safe_bind; [apply safe_fault|]. intros _ s1 _ _ _ s Hs Hok. done. }
  induction fs as [|f fs IH]; intros prev p s0 Hp; cbn [walkFields].
  { intros s Hs Hok. split_and!; [done..|]. by eapply known_grows. }
  eapply (safe_bind _ _ _ N _ _ _ known).
  { destruct p as [p|]; [|by apply safe_ret_known]. eapply safe_bind; [apply safe_autoDeref; by apply Hp|].
    intros. by apply safe_ret_known. }
  intros q s1 Hg1 _ Hq. lift. eapply safe_bind; [by apply safe_infoOpt|]. intros t s2 Hg2 Hok2 Ht. cbv zeta.
  destruct t as [t|]; [|apply Hstop].
  case_match. { case_match; [by intros s Hs Hok|apply Hstop]. }
  case_match; [|apply Hstop].
  destruct (findField f (ti_fields t)) as [fi|] eqn:Hf; [|apply safe_noField]. apply IH. by eapply field_known.
Qed.

Lemma safe_walkBase fs : ∀ p b s0, known p s0 →
  safely s0 (walkBase stmt fs p b) (λ r s, ∀ q b', r = Some (q, b') → known q s).
Proof.
  assert (Hstop : ∀ s0 (m : T walk) R, safely s0 m R →
    safely s0 (m;; mret (None : option (option tyref * bool))) (λ r s, ∀ q b', r = Some (q, b') → known q s)).
  { intros s0 m R Hm. eapply safe_bind; [exact Hm|]. intros _ s1 _ _ _ s Hs Hok. done. }
  induction fs as [|f fs IH]; intros p b s0 Hp; cbn [walkBase].
  { intros s Hs Hok. split_and!; [done..|]. intros q b' [= <- <-]. by eapply known_grows. }
  eapply safe_bind; [by apply safe_infoOpt|]. intros t s1 Hg1 Hok1 Ht. lift.
  destruct (structOrUnion t) as [t'|] eqn:Hst.
  - assert (t = Some t') as -> by (unfold structOrUnion in Hst; repeat case_match; by simplify_eq).
    destruct (findField f (ti_fields t') ≫= fi_typeInfo) as [q|] eqn:Hf; [|by eapply Hstop, safe_noField].
    apply bind_Some in Hf as (fi & Hf & Hq).
    eapply safe_bind; [apply safe_pointee; rewrite <-Hq; by eapply field_known|].
    intros r s2 Hg2 _ Hr. lift. by apply IH.
  - eapply safe_bind; [apply safe_fault|]. intros _ s2 _ _ _ s Hs Hok. done.
Qed.

Lemma safe_arrowFrom s0 p ids : known p s0 → safely s0 (arrowFrom stmt p ids) known.
Proof.
  assert (Herr : ∀ s1 m, safely s1 (errorS stmt m;; mret None) known) by (intros; by repeat step).
  intros Hp. unfold arrowFrom.
  eapply safe_bind; [by apply safe_pointee|]. intros r s1 Hg1 _ Hr. lift.
  eapply safe_bind; [by apply safe_walkBase|]. intros b s2 Hg2 _ Hb. destruct b as [[q b]|]; [|by step].
  specialize (Hb q b eq_refl). eapply safe_bind; [by apply safe_infoOpt|]. intros t s3 Hg3 Hok3 Ht. lift.
  destruct (structOrUnion t) as [t'|] eqn:Hst; [|apply Herr]. destruct b; [|apply Herr].
  assert (t = Some t') as -> by (unfold structOrUnion in Hst; repeat case_match; by simplify_eq).
  destruct (findField _ _ ≫= fi_typeInfo) as [r'|] eqn:Hf.
  - apply bind_Some in Hf as (fi & Hf & Hq). apply safe_ret_known. rewrite <-Hq. by eapply field_known.
  - eapply safe_bind; [apply safe_noField|]. intros. by step.
Qed.

Lemma safe_arrowField s0 ids msg : safely s0 (arrowField stmt ids msg) known.
Proof.
  assert (Herr : ∀ s1 m, safely s1 (errorS stmt m;; mret None) known) by (intros; by repeat step).
  unfold arrowField. destruct ids as [|x [|y ids]]; try apply Herr.
  intros s Hs Hok. unfold mbind at 1, M_bind at 1, getS.
  destruct (locals_ (ty_checker s) !! x); [|by apply (Herr s0)].
  apply (safe_arrowFrom s); [by apply known_var|done|done].
Qed.
End level.

(** *** Statements that type expressions *)

Notation sub e := (spawns e).

(** An expression first. *)
Lemma safe_typed {A} s0 N e N' (k : option tyref → T A) R : 0 < N → N + sub e < fuel → no_cfg e = true →
  (∀ p s1, grows s0 s1 → known p s1 → safe g s1 (N + sub e) (k p) N' R) → safe g s0 N (res e ≫= k) N' R.
Proof.
  intros Hpos HN Hc Hk. eapply safe_bind; [by apply safe_typeOf|]. intros p s1 Hg _ Hp. by apply Hk.
Qed.

Lemma safe_compoundStmt s0 N x op rhs : 0 < N → N + sub rhs < fuel → no_cfg rhs = true →
  safe g s0 N (stmtOf checkCompoundAssignStmt stmt x op rhs) (N + sub rhs) any.
Proof.
  intros Hpos HN Hc. apply safe_withLocal; [lia|]. intros varType s1 Hg1 Hv.
  apply safe_typed; [done..|]. intros q s2 Hg2 Hq. lift.
  eapply safe_bind; [by apply safe_infoOpt|]. intros vt s3 Hg3 _ _. lift. destruct (_ && _).
  - repeat step.
  - by apply safe_compound; [lia..| |].
Qed.

Lemma safe_assignField s0 N w rhs k : 0 < N → N + sub rhs < fuel → no_cfg rhs = true → arrives w s0 →
  (∀ p q s1, grows s0 s1 → known p s1 → known q s1 → safe g s1 (N + sub rhs) (k p q) (N + sub rhs) any) →
  safe g s0 N (stmtOf assignField stmt w rhs k) (N + sub rhs) any.
Proof.
  intros Hpos HN Hc Hw Hk. destruct w as [p|f|]; cbn [assignField arrives] in *.
  - apply safe_typed; [done..|]. intros q s1 Hg1 Hq. lift. by apply Hk.
  - apply safe_typed; [done..|]. intros q s1 Hg1 Hq. repeat step.
  - apply (safe_up _ s0 N N); [lia|apply safe_ret].
Qed.

Lemma safe_fieldStmt s0 N x fs rhs : 0 < N → N + sub rhs < fuel → no_cfg rhs = true →
  safe g s0 N (stmtOf checkFieldAssignStmt isConst stmt x fs rhs) (N + sub rhs) any.
Proof.
  intros Hpos HN Hc. apply safe_withLocal; [lia|]. intros varType s1 Hg1 Hv.
  destruct (isConst x); [apply (safe_up _ s1 N N); [lia|apply safe_onChecker]|].
  eapply safe_bind; [apply safe_walkFields; (done || lia)|]. intros w s2 Hg2 _ Hw. lift.
  apply safe_assignField; [done..|]. intros. apply safe_unlessAssignable; (done || lia).
Qed.

Lemma safe_fieldCompoundStmt s0 N x fs op rhs : 0 < N → N + sub rhs < fuel → no_cfg rhs = true →
  safe g s0 N (stmtOf checkFieldCompoundAssignStmt stmt x fs op rhs) (N + sub rhs) any.
Proof.
  intros Hpos HN Hc. apply safe_withLocal; [lia|]. intros varType s1 Hg1 Hv.
  eapply safe_bind; [apply safe_walkFields; (done || lia)|]. intros w s2 Hg2 _ Hw. lift.
  apply safe_assignField; [done..|]. intros. apply safe_compound; (done || lia).
Qed.

Lemma safe_arrowStmt s0 N ids rhs : 0 < N → N + sub rhs < fuel → no_cfg rhs = true →
  safe g s0 N (stmtOf checkArrowAssignStmt stmt ids rhs) (N + sub rhs) any.
Proof.
  intros Hpos HN Hc. eapply safe_bind; [apply safe_arrowField; lia|]. intros p s1 Hg1 _ Hp. lift.
  destruct p as [p|]; [|apply (safe_up _ s1 N N); [lia|apply safe_ret]].
  apply safe_typed; [done..|]. intros q s2 Hg2 Hq. lift. apply safe_unlessAssignable; (done || lia).
Qed.

Lemma safe_arrowCompoundStmt s0 N ids op rhs : 0 < N → N + sub rhs < fuel → no_cfg rhs = true →
  safe g s0 N (stmtOf checkArrowCompoundAssignStmt stmt ids op rhs) (N + sub rhs) any.
Proof.
  intros Hpos HN Hc. eapply safe_bind; [apply safe_arrowField; lia|]. intros p s1 Hg1 _ Hp. lift.
  destruct p as [p|]; [|apply (safe_up _ s1 N N); [lia|apply safe_ret]].
  apply safe_typed; [done..|]. intros q s2 Hg2 Hq. lift. apply safe_compound; (done || lia).
Qed.

(** The pointer of a dereference. *)
Definition target_levels (target : string + expr) : nat := match target with inl _ => 0 | inr e => sub e end.
Definition target_ok (target : string + expr) : bool := match target with inl _ => true | inr e => no_cfg e end.

Lemma safe_derefStmt s0 N target rhs : 0 < N → N + target_levels target + sub rhs < fuel →
  target_ok target = true → no_cfg rhs = true →
  safe g s0 N (stmtOf checkDerefAssignStmt stmt target rhs) (N + target_levels target + sub rhs) any.
Proof.
  intros Hpos HN Ht Hc. destruct target as [x|e]; cbn [checkDerefAssignStmt target_levels target_ok] in *.
  - rewrite Nat.add_0_r in *. apply safe_withLocal; [lia|]. intros varType s1 Hg1 Hv.
    eapply safe_bind; [by apply safe_infoOpt|]. intros vt s2 Hg2 _ _.
    eapply safe_bind; [apply safe_unlessKind; lia|]. intros _ s3 Hg3 _ _.
    apply safe_typed; [done..|]. intros. apply safe_ret.
  - apply safe_typed; [lia|lia|done|]. intros p s1 Hg1 Hp.
    eapply safe_bind; [by apply safe_infoOpt|]. intros t s2 Hg2 _ _.
    eapply safe_bind; [apply safe_unlessKind; lia|]. intros _ s3 Hg3 _ _.
    apply safe_typed; [lia|lia|done|]. intros. apply safe_ret.
Qed.

(** [*p op= rhs] reads the name of the variable's type even if there is none. *)
Definition has_type (target : string + expr) (s : Typer) : Prop :=
  match target with inl x => ∃ p, ty_varTypes s !! x = Some (Some p) | inr _ => True end.

Lemma safe_derefCompoundStmt s0 N target op rhs : 0 < N → N + target_levels target + sub rhs < fuel →
  target_ok target = true → no_cfg rhs = true → has_type target s0 →
  safe g s0 N (stmtOf checkDerefCompoundAssignStmt stmt target op rhs) (N + target_levels target + sub rhs) any.
Proof.
  intros Hpos HN Ht Hc Hty.
  destruct target as [x|e]; cbn [checkDerefCompoundAssignStmt target_levels target_ok has_type] in *; cbv zeta.
  - rewrite Nat.add_0_r in *. destruct Hty as [p Hp]. intros s Hs Hok. unfold withLocal, mbind at 1, M_bind at 1, getS.
    destruct (locals_ (ty_checker s) !! x); [|by apply (safe_up g s0 N N (N + sub rhs) (errorS stmt _) any); [lia|apply safe_onChecker|..]].
    assert (Hv : known (Some p) s) by (apply known_Some; eapply (ok_vars _ _ _ Hok x); by rewrite (grows_vars _ _ Hs)).
    rewrite (grows_vars _ _ Hs), Hp. cbn [default id].
    match goal with |- match ?m s with _ => _ end => cut (safe g s N m (N + sub rhs) any); [intros H; by apply H|] end.
    eapply (safe_bind g s N N _ _ _ known); [by apply safe_pointeeOf|]. intros q s1 Hg1 _ Hq. lift. destruct q as [q|].
    + apply safe_typed; [done..|]. intros r s2 Hg2 Hr. lift. apply safe_compound; (done || lia).
    + apply (safe_up _ s1 N N); [lia|]. assert (exists_in s1 p) by by apply Hv. repeat step.
  - apply safe_typed; [lia|lia|done|]. intros p s1 Hg1 Hp.
    eapply safe_bind; [by apply safe_pointeeOf|]. intros q s2 Hg2 _ Hq. lift. destruct q as [q|].
    + apply safe_typed; [lia|lia|done|]. intros r s3 Hg3 Hr. lift. apply safe_compound; (done || lia).
    + apply (safe_up _ s2 (N + sub e) (N + sub e)); [lia|apply safe_onChecker].
Qed.

Lemma safe_typeAll es : ∀ s0 N, 0 < N → N + sum_list_with spawns es < fuel → forallb no_cfg es = true →
  safe g s0 N (stmtOf typeAll es) (N + sum_list_with spawns es) any.
Proof.
  induction es as [|e es IH]; intros s0 N Hpos HN Hc; cbn [typeAll sum_list_with forallb] in *.
  { rewrite Nat.add_0_r. apply safe_ret. }
  apply andb_true_iff in Hc as [Hc Hcs]. apply safe_typed; [lia|lia|done|]. intros p s1 Hg1 Hp.
  rewrite Nat.add_assoc. apply IH; [lia|lia|done].
Qed.

(** *** Assignment to an element *)

Lemma safe_checkIndices es : ∀ s0 N, 0 < N → N + sum_list_with spawns es < fuel → forallb no_cfg es = true →
  safe g s0 N (stmtOf checkIndices stmt es) (N + sum_list_with spawns es) any.
Proof.
  induction es as [|e es IH]; intros s0 N Hpos HN Hc; cbn [checkIndices sum_list_with forallb] in *.
  { rewrite Nat.add_0_r. apply safe_ret. }
  apply andb_true_iff in Hc as [Hc Hcs]. apply safe_typed; [lia|lia|done|]. intros p s1 Hg1 Hp.
  eapply safe_bind; [by apply safe_infoOpt|]. intros t s2 Hg2 _ _.
  eapply safe_bind; [by apply safe_unlessKind|]. intros _ s3 Hg3 _ _.
  rewrite Nat.add_assoc. apply IH; [lia|lia|done].
Qed.

Lemma safe_slotOf s0 N x p es rhs : 0 < N → es ≠ [] → N + (sum_list_with spawns es + sub rhs) < fuel →
  forallb no_cfg es = true → no_cfg rhs = true → known p s0 →
  safe g s0 N (stmtOf assignElement stmt x p es rhs) (N + (sum_list_with spawns es + sub rhs)) any.
Proof.
  intros Hpos Hne HN Hces Hc Hp. unfold assignElement. cbv zeta.
  replace (length es =? 0)%nat with false by by destruct es.
  eapply safe_bind; [apply safe_checkIndices; (done || lia)|]. intros _ s1 Hg1 _ _. lift. rewrite Nat.add_assoc.
  apply safe_typed; [lia|lia|done|]. intros q s2 Hg2 Hq. lift.
  eapply safe_bind; [by apply safe_indexedType|]. intros r s3 Hg3 _ Hr. lift.
  eapply safe_bind; [by apply safe_notAssignable; [lia|..]|]. intros n s4 Hg4 _ Hn. lift.
  eapply (safe_bind _ _ _ (N + sum_list_with spawns es + sub rhs) _ _ _ any).
  { eapply safe_mismatch; [done|done|done|intros; apply safe_onChecker|]. repeat case_match; apply safe_ret. }
  intros _ s5 Hg5 _ _. lift. eapply safe_bind; [by apply safe_infoOpt|]. intros t s6 Hg6 _ _.
  eapply safe_bind; [apply safe_negative; lia|]. intros. apply safe_ret.
Qed.

Lemma safe_setter s0 N p : N < fuel → known p s0 →
  safe g s0 N (setterT g fuel p) N in_operators.
Proof.
  intros HN Hp s Hs Hok. unfold setterT, mbind, M_bind, getS.
  set (good o := ∀ op, o = Some op → ∃ y ops, operatorMethods_ g !! y = Some ops ∧ op ∈ ops).
  assert (Hfold : ∀ y ops, operatorMethods_ g !! y = Some ops → ∀ l o, (∀ op, op ∈ l → op ∈ ops) → good o →
    good (fold_left (λ s o, if is_setter o then Some o else s) l o)).
  { intros y ops Hy. induction l as [|op l IH]; intros o Hin Ho; cbn [fold_left]; [done|].
    apply IH; [intros; apply Hin; by right|]. destruct (is_setter op); [|done].
    intros ? [= <-]. exists y, ops. split; [done|]. apply Hin. by left. }
  assert (H : ∃ o, findSetter g fuel (ty_env s) p None = Ret o ∧ good o).
  { assert (Hk : known p s) by by eapply known_grows.
    assert (Hgen : ∀ o, good o → ∃ o', findSetter g fuel (ty_env s) p o = Ret o' ∧ good o').
    2: { apply Hgen. by intros op. }
    refine (parents_ind g fuel N s (λ f ti, ∀ o, good o → ∃ o', findSetter g f (ty_env s) ti o = Ret o' ∧ good o')
      p Hok HN Hk _ _).
    - intros f o Ho. by exists o.
    - intros f q t Ht IH o Ho. cbn [findSetter]. unfold deref. rewrite Ht. cbn [mbind outcome_bind]. apply IH.
      destruct (operatorMethods_ g !! ti_name t) as [ops|] eqn:Hops; [by eapply Hfold|done]. }
  destruct H as (o & -> & Ho). cbn [liftO]. split_and!; [done..|]. destruct o as [op|]; [|done].
  destruct (Ho op eq_refl) as (y & ops & Hy & Hop). split.
  - intros q Hq. apply (ok_tables _ _ _ Hok). by eapply it_result.
  - intros r Hr q ->. apply (ok_tables _ _ _ Hok). by eapply it_param.
Qed.

Lemma known_param s op i : in_operators (Some op) s → known (default None (op_paramTypes op !! i)) s.
Proof.
  intros [_ Hp]. destruct (op_paramTypes op !! i) as [p|] eqn:Hi; [|apply known_None].
  apply Hp. by eapply list_elem_of_lookup_2.
Qed.

Lemma safe_callSetter s0 N op i rhs : 0 < N → N + sub i + sub rhs < fuel → no_cfg i = true → no_cfg rhs = true →
  in_operators (Some op) s0 → safe g s0 N (stmtOf callSetter stmt op i rhs) (N + sub i + sub rhs) any.
Proof.
  intros Hpos HN Hi Hc Hop. unfold callSetter. apply safe_typed; [lia|lia|done|]. intros p s1 Hg1 Hp. lift.
  eapply safe_bind; [apply safe_unlessAssignable; first [lia|by apply known_param|done]|]. intros _ s2 Hg2 _ _. lift.
  apply safe_typed; [lia|lia|done|]. intros q s3 Hg3 Hq. lift.
  apply safe_unlessAssignable; first [lia|by apply known_param|done].
Qed.

Lemma safe_mapElement s0 N p t i rhs : 0 < N → N + sub i + sub rhs < fuel → no_cfg i = true → no_cfg rhs = true →
  ok g N s0 → denotes p (Some t) s0 → safe g s0 N (stmtOf assignMapElement stmt t i rhs) (N + sub i + sub rhs) any.
Proof.
  intros Hpos HN Hi Hc Hok Ht. unfold assignMapElement.
  assert (Hk : known (ti_keyType t) s0) by (eapply held_denotes; [exact Hok|exact Ht|apply pointer_key]).
  assert (Hv : known (ti_valueType t) s0) by (eapply held_denotes; [exact Hok|exact Ht|apply pointer_value]).
  apply safe_typed; [lia|lia|done|]. intros q s1 Hg1 Hq. lift.
  apply safe_typed; [lia|lia|done|]. intros r s2 Hg2 Hr. lift.
  eapply safe_bind; [apply safe_unlessAssignable; (done || lia)|]. intros _ s3 Hg3 _ _. lift.
  apply safe_unlessAssignable; (done || lia).
Qed.

(** *** Assignment to a variable

    From the state it runs in.  The variable is used again behind the typing of its right-hand
    side, through an iterator that is gone if the variable is: a step is undefined only if [U],
    which will be that typing has removed it. *)

Section undefined.
Context (U : Prop).

Definition follows {A} (s : Typer) (m : T A) (N : nat) (R : A → Typer → Prop) : Prop :=
  match m s with
  | ROk a s' => grows s s' ∧ ok g N s' ∧ persists (ty_checker s) (ty_checker s') ∧ R a s'
  | RThrow _ s' => grows s s'
  | RUndef => U
  | RNoFuel => False
  end.

(** The state is good for whoever comes next. *)
Definition finishes (s : Typer) (m : T unit) (N : nat) : Prop :=
  match m s with
  | ROk _ s' => grows s s' ∧ ok g N s' | RThrow _ s' => grows s s' | RUndef => U | RNoFuel => False
  end.

Lemma follows_safe {A} s N N' (m : T A) R : safe g s N m N' R → leads persists m → ok g N s → follows s m N' R.
Proof.
  intros Hm Hk Hok. specialize (Hm s (reflexivity _) Hok). specialize (Hk s). unfold follows.
  destruct (m s); try done. by destruct Hm as (? & ? & ?).
Qed.

Lemma finishes_safe s N N' N2 m : safe g s N m N' any → N' ≤ N2 → ok g N s → finishes s m N2.
Proof.
  intros Hm Hle Hok. specialize (Hm s (reflexivity _) Hok). unfold finishes. destruct (m s); try done.
  destruct Hm as (? & ? & ?). split; [done|by eapply ok_mono].
Qed.

Lemma finishes_bind {A} s (m : T A) f N1 N2 R : follows s m N1 R →
  (∀ a s', grows s s' → ok g N1 s' → persists (ty_checker s) (ty_checker s') → R a s' → finishes s' (f a) N2) →
  finishes s (m ≫= f) N2.
Proof.
  unfold follows, finishes. intros Hm Hf. unfold mbind, M_bind. destruct (m s) as [a s'|x s'| |]; try done.
  destruct Hm as (Hg & Hok & Hk & HR). specialize (Hf a s' Hg Hok Hk HR). destruct (f a s'); try done; [|by etrans].
  destruct Hf. split; [by etrans|done].
Qed.

(** The variable is there, unless it has been removed. *)
Definition has (x : string) (s : Typer) : Prop := locals_ (ty_checker s) !! x = None → U.

Lemma has_persists x s s' : has x s → persists (ty_checker s) (ty_checker s') → has x s'.
Proof.
  unfold has. intros Hx Hp Hn. apply Hx. destruct (locals_ (ty_checker s) !! x) as [vi|] eqn:E; [|done].
  destruct (Hp x vi E) as (vi' & ? & _). congruence.
Qed.

Lemma follows_local s N x : has x s → ok g N s → follows s (localT x) N any.
Proof.
  unfold has. intros Hx Hok. unfold follows, localT, mbind, M_bind, getS.
  destruct (locals_ (ty_checker s) !! x) as [vi|]; [|by apply Hx].
  change (grows s s ∧ ok g N s ∧ persists (ty_checker s) (ty_checker s) ∧ True).
  split_and!; [done|done|reflexivity|done].
Qed.

(** No [calloc], whose second argument the tracking of buffers divides by. *)
Definition no_calloc (e : expr) : bool :=
  match probe e with ECall (EIdent f) _ => negb (bool_decide (f = "calloc")) | _ => true end.

Lemma steady_trackBuffer x e t : no_calloc e = true → steady (trackVarBufferFromExpr x e t).
Proof.
  intros Hc c. unfold trackVarBufferFromExpr. destruct (locals_ c !! x) as [vi|]; [|done]. cbv zeta.
  set (c' := c <| locals_ := _ |>).
  assert (H : returns_or_throws (trackBuffer (locals_ c') x e t (resetTrackedBufferInfo vi))).
  { unfold trackBuffer. case_match; [done|]. case_match; [done|]. apply rt_bind; [apply rt_literalLen|].
    intros [cap|]; [done|]. unfold no_calloc in Hc. destruct (probe e); try done.
    destruct e0; try done. apply negb_true_iff in Hc. unfold allocCapacity, tryEvalUSizeExpr.
    rewrite Hc. cbn [andb]. repeat case_match; try done; repeat (apply rt_bind; intros); try done; apply rt_range. }
  destruct (trackBuffer _ _ _ _ _); done.
Qed.

Lemma steady_trackRange x e t : steady (trackVarNumericRangeFromExpr x e t).
Proof.
  intros c. unfold trackVarNumericRangeFromExpr. destruct (locals_ c !! x) as [vi|]; [|done]. cbv zeta.
  destruct (negb (isKind TK.Integer t)); [done|]. pose proof (rt_range (locals_ (c <| locals_ := <[x:=resetTrackedNumericInfo vi]> (locals_ c) |>)) e) as H1.
  destruct (tryEvalUSizeRangeExpr _ _) as [[[]|]| | |]; done.
Qed.

Lemma finishes_track s N x p rhs : N < fuel → ok g N s → has x s → known p s → no_calloc rhs = true →
  finishes s (trackAssigned stmt x p rhs) N.
Proof.
  intros HN Hok Hx Hp Hc. eapply finishes_bind; [by apply follows_local|]. intros vi s1 Hg1 Hok1 _ _. lift.
  apply (finishes_safe _ N N); [|lia|done].
  eapply (safe_bind _ _ _ N _ _ _ any); [apply safe_when, safe_onChecker|]. intros _ s2 Hg2 _ _. lift.
  eapply safe_bind; [apply safe_onChecker|]. intros _ s3 Hg3 _ _. lift.
  eapply safe_bind; [by apply safe_infoOpt|]. intros t s4 Hg4 _ _.
  eapply safe_bind; [by apply safe_liftC, steady_trackBuffer|]. intros _ s5 Hg5 _ _.
  apply safe_liftC, steady_trackRange.
Qed.

(** Typing, which need not keep the variables. *)
Lemma finishes_typed s N e N2 f : 0 < N → N + sub e < fuel → no_cfg e = true → ok g N s →
  (∀ q s', res e s = ROk q s' → grows s s' → ok g (N + sub e) s' → known q s' → finishes s' (f q) N2) →
  finishes s (res e ≫= f) N2.
Proof.
  intros Hpos HN Hc Hok Hf. pose proof (safe_typeOf s N e Hpos HN Hc s (reflexivity _) Hok) as Hs.
  unfold finishes, mbind, M_bind. destruct (res e s) as [q s'|x s'| |] eqn:E; try done.
  destruct Hs as (Hg & Hok' & Hq). specialize (Hf q s' eq_refl Hg Hok' Hq). unfold finishes in Hf.
  destruct (f q s'); try done; [|by etrans]. destruct Hf. split; [by etrans|done].
Qed.

(** Reading a type changes nothing. *)
Lemma follows_infoOpt s N p : known p s → ok g N s → follows s (infoOpt p) N (λ t s', denotes p t s' ∧ s' = s).
Proof.
  intros Hp Hok. assert (H : follows s (infoOpt p) N (λ t s', denotes p t s')).
  { apply (follows_safe _ N); [by apply safe_infoOpt|apply leads_infoOpt|done]. }
  assert (Hs : ∀ t s', infoOpt p s = ROk t s' → s' = s).
  { destruct p as [p|]; cbn [infoOpt]; [|by intros t s' [= _ <-]]. unfold infoT, mbind, M_bind, getS, liftO.
    destruct (deref _ p); [|done..]. by intros t s' [= _ <-]. }
  unfold follows in *. destruct (infoOpt p s) as [t s'| | |]; try done. specialize (Hs t s' eq_refl).
  destruct H as (? & ? & ? & ?). by subst.
Qed.

Lemma finishes_whole s N x p rhs : 0 < N → N + sub rhs < fuel → no_cfg rhs = true → no_calloc rhs = true →
  ok g N s → (∀ q s', res rhs s = ROk q s' → has x s') → known p s →
  finishes s (stmtOf assignElement stmt x p [] rhs) (N + sub rhs).
Proof.
  intros Hpos HN Hc Hcal Hok Hx Hp. unfold assignElement. cbv zeta. cbn [checkIndices length Nat.eqb indexedType].
  set (N1 := N + sub rhs) in *.
  eapply (finishes_bind _ _ _ N _ (λ _ s', s' = s)); [unfold follows; cbn; split_and!; (done || reflexivity)|].
  intros _ s1 Hg1 Hok1 Hk1 ->. apply (finishes_typed _ N); [done..|].
  intros q s2 Hq2 Hg2 Hok2 Hq. lift. pose proof (Hx q s2 Hq2) as Hx2. fold N1 in Hok2.
  eapply (finishes_bind _ _ _ N1 _ known); [apply (follows_safe _ N1); [by apply safe_ret_known|apply leads_ret|done]|].
  intros r s3 Hg3 Hok3 Hk3 Hr. lift. pose proof (has_persists _ _ _ Hx2 Hk3) as Hx3.
  eapply finishes_bind; [apply (follows_safe _ N1); [apply safe_notAssignable; (done || lia)|apply leads_notAssignable|done]|].
  intros n s4 Hg4 Hok4 Hk4 Hn. lift. pose proof (has_persists _ _ _ Hx3 Hk4) as Hx4.
  eapply (finishes_bind _ _ _ N1 _ any).
  { destruct n.
    - apply (follows_safe _ N1); [|lead|done]. apply (safe_mismatch g N1 s4 r q
        (λ a b, errorS stmt ("type mismatch: cannot assign " +:+ quote b +:+ " to variable " +:+ quote x +:+ " of type " +:+ quote a))
        any true (mret ())); [done|done|done|intros; apply safe_onChecker|apply safe_ret].
    - destruct q, r; try (apply (follows_safe _ N1); [apply safe_ret|apply leads_ret|done]).
      unfold follows, localT, mbind at 1, M_bind at 1, mbind at 1, M_bind at 1, getS.
      destruct (locals_ (ty_checker s4) !! x) as [vi|] eqn:Hvi; [|by apply Hx4].
      change (follows s4 (checkDims stmt x (vi_arrayDims vi) rhs) N1 any).
      apply (follows_safe _ N1); [|apply leads_dims|done]. unfold checkDims, when.
      repeat case_match; try apply safe_onChecker; apply safe_ret. }
  intros _ s5 Hg5 Hok5 Hk5 _. lift. pose proof (has_persists _ _ _ Hx4 Hk5) as Hx5.
  eapply finishes_bind; [apply (follows_safe _ N1); [by apply safe_infoOpt|apply leads_infoOpt|done]|].
  intros t s6 Hg6 Hok6 Hk6 _. lift. pose proof (has_persists _ _ _ Hx5 Hk6) as Hx6.
  eapply (finishes_bind _ _ _ N1 _ any); [apply (follows_safe _ N1); [by apply safe_negative|apply leads_negative|done]|].
  intros _ s7 Hg7 Hok7 Hk7 _. lift. apply finishes_track; try done. by eapply has_persists.
Qed.

Lemma safe_setElement s0 N t : N < fuel → (∀ el, ti_elementType t = Some el → exists_in s0 el) →
  safe g s0 N (el ← infoOpt (ti_elementType t);
    errorS stmt ("set<" +:+ match el with Some el => ti_name el | None => "?" end +:+ "> does not support indexing")) N any.
Proof. intros HN Hel. eapply safe_bind; [by apply safe_infoOpt|]. intros. apply safe_onChecker. Qed.

Definition assign_levels (es : list expr) (rhs : expr) : nat := sum_list_with spawns es + sub rhs.

(** Typing the value of a whole variable keeps it. *)
Definition survives (s : Typer) (x : string) (es : list expr) (rhs : expr) : Prop :=
  es = [] → ∀ q s', res rhs s = ROk q s' → has x s'.

Lemma finishes_element s N x p es rhs : 0 < N → N + assign_levels es rhs < fuel → forallb no_cfg es = true →
  no_cfg rhs = true → (es = [] → no_calloc rhs = true) → ok g N s → survives s x es rhs → known p s →
  finishes s (stmtOf assignElement stmt x p es rhs) (N + assign_levels es rhs).
Proof.
  unfold assign_levels. intros Hpos HN Hces Hc Hcal Hok Hx Hp. destruct es as [|e es].
  - cbn [sum_list_with] in *. rewrite Nat.add_0_l in *. apply finishes_whole; try done; [by apply Hcal|by apply Hx].
  - eapply finishes_safe; [by apply safe_slotOf|reflexivity|done].
Qed.

Lemma finishes_container s N x p t es rhs : 0 < N → N + assign_levels es rhs < fuel →
  forallb no_cfg es = true → no_cfg rhs = true → (es = [] → no_calloc rhs = true) → ok g N s → survives s x es rhs →
  denotes p (Some t) s → finishes s (stmtOf assignContainer stmt x p t es rhs) (N + assign_levels es rhs).
Proof.
  intros Hpos HN Hces Hc Hcal Hok Hx Ht. unfold assignContainer. destruct (_ && _).
  - apply (finishes_safe _ N N); [|lia|done]. apply safe_setElement; [lia|].
    change (known (ti_elementType t) s). eapply held_denotes; [exact Hok|exact Ht|apply pointer_element].
  - assert (known p s) by by eapply denotes_known.
    destruct (hasKind TK.Extended t), (ti_keyType t), es as [|i [|j es]]; try by apply finishes_element.
    unfold assign_levels in *. cbn [sum_list_with forallb] in *. rewrite andb_true_r, Nat.add_0_r in *.
    apply (finishes_safe _ N (N + sub i + sub rhs)); [|lia|done]. eapply safe_mapElement; (done || lia).
Qed.

Lemma finishes_assignTo s N x p es rhs : 0 < N → N + assign_levels es rhs < fuel →
  forallb no_cfg es = true → no_cfg rhs = true → (es = [] → no_calloc rhs = true) → ok g N s → survives s x es rhs →
  known p s → finishes s (stmtOf assignTo stmt x p es rhs) (N + assign_levels es rhs).
Proof.
  intros Hpos HN Hces Hc Hcal Hok Hx Hp.
  eapply finishes_bind; [by apply follows_infoOpt|]. intros vt s1 _ _ _ [Ht ->].
  destruct vt as [t|]; [|by apply finishes_element].
  destruct (hasKind TK.Struct t); [|by apply finishes_container]. destruct es as [|e es]; [by apply finishes_container|].
  eapply finishes_bind; [apply (follows_safe _ N); [apply safe_setter; [lia|done]|unfold setterT; lead|done]|].
  intros o s2 Hg2 Hok2 Hk2 Ho. lift. destruct o as [op|].
  - unfold assign_levels in *. cbn [sum_list_with forallb] in *. apply andb_true_iff in Hces as [Hce Hces].
    apply (finishes_safe _ N (N + sub e + sub rhs)); [|lia|done]. apply safe_callSetter; (done || lia).
  - eapply finishes_bind; [apply (follows_safe _ N); [apply safe_findOperator; [lia|done]|apply leads_findOperator|done]|].
    intros o s3 Hg3 Hok3 Hk3 _. lift. destruct o; [apply (finishes_safe _ N N); [apply safe_onChecker|lia|done]|].
    by apply finishes_container.
Qed.

(** The state in which the right-hand side of [x = rhs] is typed. *)
Definition initialized (x : string) (s : Typer) : Typer :=
  s <| ty_checker := (ty_checker s) <| locals_ := alter (λ vi, vi <| vi_initialized := true |>) x (locals_ (ty_checker s)) |> |>.

Lemma finishes_assign s N x es rhs : 0 < N → N + assign_levels es rhs < fuel →
  forallb no_cfg es = true → no_cfg rhs = true → (es = [] → no_calloc rhs = true) → ok g N s →
  survives (initialized x s) x es rhs →
  finishes s (stmtOf checkAssignStmt isConst stmt x es rhs) (N + assign_levels es rhs).
Proof.
  intros Hpos HN Hces Hc Hcal Hok Hsv.
  assert (Herr : ∀ s' msg, ok g N s' → finishes s' (errorS stmt msg) (N + assign_levels es rhs)).
  { intros s' msg Hok'. apply (finishes_safe s' N N); [apply safe_onChecker|lia|done]. }
  unfold checkAssignStmt, withLocal, finishes, mbind at 1, M_bind at 1, getS.
  destruct (locals_ (ty_checker s) !! x) as [vi|] eqn:Hx; [|by apply Herr].
  set (p := default None (ty_varTypes s !! x)). assert (Hp : known p s) by by eapply known_var.
  match goal with |- match ?m s with _ => _ end => change (finishes s m (N + assign_levels es rhs)) end.
  destruct (isConst x); [by apply Herr|].
  eapply (finishes_bind _ _ _ N _ (λ _ s', s' = initialized x s)).
  { pose proof (safe_onLocal N s x (λ vi, vi <| vi_initialized := true |>) s (reflexivity _) Hok) as Hs.
    unfold follows, onLocal, onChecker, modifyS in *. destruct Hs as (? & ? & _). split_and!; [done|done| |done].
    intros y vy Hy. cbn.
    destruct (decide (y = x)) as [->|]; [rewrite lookup_alter_eq, Hy; by eexists|rewrite lookup_alter_ne by done; by eauto]. }
  intros _ s1 Hg1 Hok1 Hk1 ->. lift. by apply finishes_assignTo.
Qed.
End undefined.

(** ** Every assignment *)

(** The levels of types its expressions can add. *)
Definition levels (a : assignment) : nat :=
  match a with
  | AssignStmt _ es rhs => assign_levels es rhs
  | CompoundAssignStmt _ _ rhs | FieldAssignStmt _ _ rhs | FieldCompoundAssignStmt _ _ _ rhs
  | ArrowAssignStmt _ rhs | ArrowCompoundAssignStmt _ _ rhs => sub rhs
  | DerefAssignStmt target rhs | DerefCompoundAssignStmt target _ rhs => target_levels target + sub rhs
  | IndexFieldAssignStmt es | FieldIndexAssignStmt es | ArrowAnyAssignStmt es | ArrowAnyCompoundAssignStmt es =>
      sum_list_with spawns es
  end.

(** No [@cfg], no [calloc] into a variable, and a type for the pointer of [*p op= e]. *)
Definition admissible (a : assignment) (s : Typer) : Prop :=
  match a with
  | AssignStmt _ es rhs => forallb no_cfg es = true ∧ no_cfg rhs = true ∧ (es = [] → no_calloc rhs = true)
  | CompoundAssignStmt _ _ rhs | FieldAssignStmt _ _ rhs | FieldCompoundAssignStmt _ _ _ rhs
  | ArrowAssignStmt _ rhs | ArrowCompoundAssignStmt _ _ rhs => no_cfg rhs = true
  | DerefAssignStmt target rhs => target_ok target = true ∧ no_cfg rhs = true
  | DerefCompoundAssignStmt target _ rhs => target_ok target = true ∧ no_cfg rhs = true ∧ has_type target s
  | IndexFieldAssignStmt es | FieldIndexAssignStmt es => forallb no_cfg es = true
  | ArrowAnyAssignStmt _ | ArrowAnyCompoundAssignStmt _ => True
  end.

(** Typing the value of a whole variable removes the variable. *)
Definition lost (a : assignment) (s : Typer) : Prop :=
  match a with
  | AssignStmt x [] rhs => ∃ q s', res rhs (initialized x s) = ROk q s' ∧ locals_ (ty_checker s') !! x = None
  | _ => False
  end.

End safety.

(** ** [x = 'c'] for an integer and [y = 'c'] for a string *)

Definition localOf (t : TypeInfo) : VarInfo := newVar (Some t).
Definition typeNamed (n : string) : TypeInfo := default (mkTypeInfo n TK.Void 0 false "") (newTypeRegistry !! n).

Definition twoVariables : Typer :=
  startTyper <| ty_checker := emptyChecker (<["x" := localOf (typeNamed "int32")]> {[ "y" := localOf (typeNamed "string") ]}) |>
             <| ty_varTypes := <["x" := Some (RegT "int32")]> {[ "y" := Some (RegT "string") ]} |>.

Lemma twoVariables_ok : ok exampleTables 1 twoVariables.
Proof.
  destruct startTyper_ok as [Hc Hu Hb Hch _ Ht]. split; try done.
  intros x p H. cbn in H. destruct (decide (x = "x")) as [->|]; [|rewrite lookup_insert_ne in H by done;
    destruct (decide (x = "y")) as [->|]; [|by rewrite lookup_singleton_ne in H]].
  - rewrite lookup_insert_eq in H. simplify_eq. eexists. vm_compute. reflexivity.
  - rewrite lookup_singleton_eq in H. simplify_eq. eexists. vm_compute. reflexivity.
Qed.

Lemma example_lead L `{!Later L} : parameters_lead (L := L) namedSpec namedSpec (λ _, None) noRest noDims.
Proof.
  split; [..|done| |]; intros; try apply leads_ret; apply leads_bind; [apply leads_lookup|intros; apply leads_ret|apply leads_lookup|intros; apply leads_ret].
Qed.

Notation exampleAssign := (checkAssignment exampleTables 4 (λ _, None) namedSpec namedSpec (λ _, None)
  (λ _, None) noRest noDims (λ _, false) None).


(** Typing a lambda erases the variables its parameters hide. *)
Definition lambdaRest (param : string) (e : expr) : T (option tyref) :=
  onChecker (λ c, c <| locals_ := delete param (locals_ c) |>);; mret None.

Lemma lambdaRest_safe param : parameters_safe exampleTables 4 namedSpec namedSpec (λ _, None) (lambdaRest param) noDims 0.
Proof.
  destruct example_parameters as [H1 H2 H3 _ H5]. split; try done.
  intros e s0 N _ _. rewrite Nat.add_0_r. eapply safe_bind; [apply safe_onChecker|].
  intros _ s1 _ _ _ s Hs Hok. by split_and!; [..|apply known_None].
Qed.

(** [x = |x| ..] uses the dangling iterator, [y = |x| ..] does not. *)
Lemma lambda_loses_variable :
  let assign x := checkAssignment exampleTables 4 (λ _, None) namedSpec namedSpec (λ _, None) (λ _, None)
    (lambdaRest "x") noDims (λ _, false) None (AssignStmt x [] (EOther [] [] "")) twoVariables in
  assign "x" = RUndef ∧ match assign "y" with ROk _ _ => True | _ => False end.
Proof. vm_compute. auto. Qed.
