(* ===== verification/AssignAccept.v ===== *)
(** * Accepted assignments are well typed

    What holds of an assignment whose check reports no error: the variable exists and is no
    constant, the chain of fields leads somewhere, and the value can be assigned to what it is
    stored in.  At the end, the assignments of which this is not so. *)

From S2P Require Import Prelude.
From S2P Require Import CxxLib.
From S2P Require Import TypeInfo.
From S2P Require Import Assign.
From S2P Require Import Traits.
From S2P Require Import Syntax.
From S2P Require Import ComptimeValue.
From S2P Require Import ConstEval.
From S2P Require Import Builtins.
From S2P Require Import Ownership.
From S2P Require Import Attributes.
From S2P Require Import Modules.
From S2P Require Import Imports.
From S2P Require Import ExprType.
From S2P Require Import ExprTypeSafety.
From S2P Require Import ExprTypeKeep.
From S2P Require Import Calls.
From S2P Require Import CallsKeep.
From S2P Require Import CallsSafety.
From S2P Require Import AssignStmts.
From S2P Require Import AssignSafety.
Local Open Scope nat_scope.

(** ** Specification *)

(** [x] is what [p] points at if it is a pointer to something, else [p]. *)
Definition behind (e : type_env) (p q : tyref) : Prop :=
  ∃ t, resolve e p = Some t ∧
    q = match hasKind TK.Pointer t, ti_pointeeType t with true, Some r => r | _, _ => p end.

(** The fields after a bit field are not looked at. *)
Inductive fieldPath (e : type_env) : option tyref → list string → walk → Prop :=
| path_here p : fieldPath e p [] (Arrived p)
| path_bit p q t f fs : behind e p q → resolve e q = Some t → hasKind TK.BitStruct t = true →
    (∃ bf, bf ∈ ti_bitFields t ∧ bf_name bf = f ∧ bf_isPadding bf = false) →
    fieldPath e (Some p) (f :: fs) (AtBitField f)
| path_field p q t f fi fs w : behind e p q → resolve e q = Some t → hasKind TK.Struct t || hasKind TK.Union t = true →
    findField f (ti_fields t) = Some fi → fieldPath e (fi_typeInfo fi) fs w →
    fieldPath e (Some p) (f :: fs) w.

(** A type behind a pointer; the flag says whether there has been one. *)
Definition through (e : type_env) (p : tyref) (b : bool) (q : tyref) (b' : bool) : Prop :=
  ∃ t, resolve e p = Some t ∧
    (q, b') = match hasKind TK.Pointer t, ti_pointeeType t with true, Some r => (r, true) | _, _ => (p, b) end.

Inductive basePath (e : type_env) : tyref → bool → list string → tyref → bool → Prop :=
| base_here p b : basePath e p b [] p b
| base_field p b t f fi q r b1 fs p' b' : resolve e p = Some t → hasKind TK.Struct t || hasKind TK.Union t = true →
    findField f (ti_fields t) = Some fi → fi_typeInfo fi = Some q → through e q b r b1 →
    basePath e r b1 fs p' b' → basePath e p b (f :: fs) p' b'.

(** [ids] are the variable, the fields before the arrow and the field behind it. *)
Definition arrowPath (e : type_env) (p : option tyref) (ids : list string) (r : tyref) : Prop :=
  ∃ p' q b base t fi, p = Some p' ∧ through e p' false q b ∧ basePath e q b (tail (removelast ids)) base true ∧
    resolve e base = Some t ∧ hasKind TK.Struct t || hasKind TK.Union t = true ∧
    findField (List.last ids "") (ti_fields t) = Some fi ∧ fi_typeInfo fi = Some r.

(** The type behind [n] index operations: of the values of a map, of the elements of another
    container; indexing anything else changes nothing. *)
Definition component (q : tyref) (t : TypeInfo) : option tyref :=
  if hasKind TK.Extended t then
    match ti_keyType t, ti_elementType t with
    | Some _, _ => ti_valueType t
    | None, Some el => Some el
    | None, None => Some q
    end
  else Some q.

Inductive elementOf (e : type_env) : nat → option tyref → option tyref → Prop :=
| element_here p : elementOf e 0 p p
| element_null n : elementOf e n None None
| element_in n p q t r : behind e p q → resolve e q = Some t → elementOf e n (component q t) r →
    elementOf e (S n) (Some p) r.

Section spec.
Context (fuel : nat).

(** A value of type [q] can be stored in a place of type [p]. *)
Definition stores (e : type_env) (p q : option tyref) : Prop :=
  ∀ p' q', p = Some p' → q = Some q' → isAssignable fuel e p q = Ret true.

Definition kindOf (e : type_env) (ok : option TypeInfo → bool) (p : option tyref) : Prop :=
  ∀ q t, p = Some q → resolve e q = Some t → ok (Some t) = true.

Definition compound_ok (e : type_env) (ct : CompoundTarget) (op : string) (p q : option tyref) (rhs : expr) : Prop :=
  if bool_decide (op = "??=") then kindOf e is_pointer p ∧ stores e p q
  else ((∃ p' t, p = Some p' ∧ resolve e p' = Some t ∧ hasKind TK.Pointer t = true ∧ ct_pointers ct = true ∧
          op ∈ ["+="; "-="] ∧ kindOf e isInteger q) ∨
        ((op ∈ arithmeticOps → kindOf e isNumeric p ∧ kindOf e isNumeric q) ∧
         (op ∈ integerOps → kindOf e (ct_integers ct) p ∧ kindOf e isIntegerOrPointer q) ∧ stores e p q)) ∧
       (op ∈ ["/="; "%="] → is_zero_literal rhs = false).
End spec.

(** ** Checks without errors *)

Definition silent {A} (m : T A) (s : Typer) (a : A) (s' : Typer) : Prop :=
  m s = ROk a s' ∧ problems (ty_checker s') = problems (ty_checker s).

Lemma silent_bind {A B} (m : T A) (f : A → T B) s b s2 : leads reports m → (∀ a, leads reports (f a)) →
  silent (m ≫= f) s b s2 → ∃ a s1, silent m s a s1 ∧ silent (f a) s1 b s2.
Proof.
  intros Hm Hf [H Hp]. unfold mbind, M_bind in H. specialize (Hm s). destruct (m s) as [a s1|x s1| |] eqn:E; try done.
  specialize (Hf a s1). rewrite H in Hf. exists a, s1. unfold reports in *. split; (split; [done|lia]).
Qed.

Lemma silent_ret {A} (a b : A) s s' : silent (mret a) s b s' → b = a ∧ s' = s.
Proof. intros [H _]. by injection H. Qed.
Lemma silent_info p s t s' : silent (infoT p) s t s' → s' = s ∧ resolve (ty_env s) p = Some t.
Proof.
  intros [H _]. unfold infoT, mbind, M_bind, getS, deref in H. destruct (resolve (ty_env s) p); cbn in H; [|done].
  by simplify_eq.
Qed.
Lemma silent_infoOpt p s t s' : silent (infoOpt p) s t s' → s' = s ∧ denotes p t s.
Proof.
  destruct p as [p|]; cbn [infoOpt]; [|by intros [-> ->]%silent_ret]. intros H.
  apply silent_bind in H as (a & s1 & H1 & H2); [|intros; lead..].
  apply silent_info in H1 as [-> Ht]. by apply silent_ret in H2 as [-> ->].
Qed.
Lemma silent_name p s n s' : silent (nameT p) s n s' → s' = s.
Proof.
  destruct p as [p|]; cbn [nameT]; [|by intros []]. intros H.
  apply silent_bind in H as (a & s1 & H1 & H2); [|intros; lead..].
  apply silent_info in H1 as [-> Ht]. by apply silent_ret in H2 as [-> ->].
Qed.

Lemma silent_errorS stmt msg s u s' : ¬ silent (errorS stmt msg) s u s'.
Proof.
  intros [H Hp]. unfold errorS, onChecker, modifyS in H. injection H as _ <-. cbn in Hp.
  unfold error in Hp. rewrite problems_emit in Hp. lia.
Qed.

(** A check that stops with an error is not silent. *)
Lemma silent_stop {A} stmt msg (k : T A) s a s' : leads reports k → ¬ silent (errorS stmt msg;; k) s a s'.
Proof. intros Hk H. apply silent_bind in H as (u & s1 & H1 & _); [by apply silent_errorS in H1|lead|by intros _]. Qed.

Lemma silent_notAssignable fuel l r s b s' : silent (notAssignable fuel l r) s b s' →
  s' = s ∧ (b = false → stores fuel (ty_env s) l r) ∧ (b = true → is_Some l ∧ is_Some r).
Proof.
  destruct l as [l|], r as [r|]; cbn [notAssignable]; try (intros [-> ->]%silent_ret; split_and!; [done| |done]; by intros _ p q).
  intros H. apply silent_bind in H as (ok & s1 & [H1 _] & H2); [|intros; lead..]. apply silent_ret in H2 as [-> ->].
  unfold assignableT, mbind, M_bind, getS in H1. destruct (isAssignable fuel (ty_env s) (Some l) (Some r)) as [b'| | |] eqn:E;
    cbn in H1; try done. simplify_eq. split_and!; [done| |by intros; split; eexists].
  intros Hb p q _ _. apply negb_false_iff in Hb as ->. done.
Qed.

(** Behind two names and an error. *)
Lemma silent_mismatch stmt (b : bool) l r (msg : string → string → string) (els : T unit) s u s' :
  leads reports els → silent (if b then x ← nameT l; y ← nameT r; errorS stmt (msg x y) else els) s u s' →
  b = false ∧ silent els s u s'.
Proof.
  intros Hels H. destruct b; [|done]. exfalso.
  apply silent_bind in H as (x & s1 & H1 & H2); [|intros; lead..].
  apply silent_bind in H2 as (y & s2 & H2 & H3); [|intros; lead..]. by apply silent_errorS in H3.
Qed.

Lemma silent_unlessAssignable fuel stmt l r msg s u s' : silent (unlessAssignable fuel stmt l r msg) s u s' →
  s' = s ∧ stores fuel (ty_env s) l r.
Proof.
  intros H. apply silent_bind in H as (b & s1 & H1 & H2); [|intros; lead..].
  apply silent_notAssignable in H1 as (-> & Hst & _). apply silent_mismatch in H2 as [-> H2]; [|lead].
  apply silent_ret in H2 as [_ ->]. auto.
Qed.

Lemma silent_unlessKind stmt ok p t msg s u s' : denotes p t s → silent (unlessKind stmt ok t msg) s u s' →
  s' = s ∧ kindOf (ty_env s) ok p.
Proof.
  intros Ht H. unfold unlessKind, when in H. destruct t as [t|].
  - destruct (ok (Some t)) eqn:Hok; [|by apply silent_errorS in H]. apply silent_ret in H as [_ ->].
    split; [done|]. intros q t' -> Hq. cbn in Ht. by simplify_eq.
  - apply silent_ret in H as [_ ->]. split; [done|]. intros q t' ->. done.
Qed.

(** ** Fields *)

Section fields.
Context (stmt : context).

Lemma silent_autoDeref p s q s' : silent (autoDeref p) s q s' → s' = s ∧ behind (ty_env s) p q.
Proof.
  intros H. apply silent_bind in H as (t & s1 & H1 & H2); [|intros; lead..]. apply silent_info in H1 as [-> Ht].
  apply silent_ret in H2 as [-> ->]. split; [done|]. by exists t.
Qed.

Lemma silent_walkFields fs : ∀ prev p s w s', silent (walkFields stmt prev fs p) s w s' →
  s' = s ∧ fieldPath (ty_env s) p fs w.
Proof.
  induction fs as [|f fs IH]; intros prev p s w s' H; cbn [walkFields] in H.
  { apply silent_ret in H as [-> ->]. split; [done|constructor]. }
  apply silent_bind in H as (q & s1 & H1 & H2); [|intros; lead..].
  destruct p as [p|].
  2: { apply silent_ret in H1 as [-> ->].
    apply silent_bind in H2 as (t & s2 & H2 & H3); [|intros; lead..].
    apply silent_infoOpt in H2 as [-> Ht]. destruct t; [done|]. apply silent_stop in H3; [done|lead]. }
  apply silent_bind in H1 as (q' & s2 & H1 & H3); [|intros; lead..]. apply silent_autoDeref in H1 as [-> Hq].
  apply silent_ret in H3 as [-> ->].
  apply silent_bind in H2 as (t & s2 & H2 & H3); [|intros; lead..].
  apply silent_infoOpt in H2 as [-> Ht]. destruct t as [t|]; [|done]. cbn in Ht.
  destruct (hasKind TK.BitStruct t) eqn:Hbit.
  - destruct (existsb _ _) eqn:Hex; [|apply silent_stop in H3; [done|lead]]. apply silent_ret in H3 as [-> ->].
    split; [done|]. eapply path_bit; [done..|]. apply existsb_exists in Hex as (bf & Hin & Hb).
    apply andb_true_iff in Hb as [Hn Hpad]. exists bf. apply bool_decide_eq_true in Hn. apply negb_true_iff in Hpad.
    split_and!; [|done..]. by apply list_elem_of_In.
  - destruct (_ || _) eqn:Hst; [|apply silent_stop in H3; [done|lead]].
    destruct (findField f (ti_fields t)) as [fi|] eqn:Hf; [|apply silent_stop in H3; [done|lead]].
    apply IH in H3 as [-> Hpath]. split; [done|]. by eapply path_field.
Qed.

(** ** Arrows *)

Lemma silent_pointee p b s r s' : silent (pointee (Some p) b) s r s' →
  s' = s ∧ ∃ q b', r = (Some q, b') ∧ through (ty_env s) p b q b'.
Proof.
  intros H. apply silent_bind in H as (t & s1 & H1 & H2); [|intros; lead..]. apply silent_infoOpt in H1 as [-> Ht].
  destruct t as [t|]; [|done]. cbn in Ht.
  destruct (hasKind TK.Pointer t) eqn:Hp, (ti_pointeeType t) as [q|] eqn:Hq; apply silent_ret in H2 as [-> ->];
    (split; [done|]); eexists _, _; (split; [done|]); exists t; by rewrite Hp, ?Hq.
Qed.

Lemma silent_pointee_null b s r s' : silent (pointee None b) s r s' → s' = s ∧ r = (None, b).
Proof. intros H. apply silent_bind in H as (t & s1 & H1 & H2); [|intros; lead..].
  apply silent_infoOpt in H1 as [-> Ht]. destruct t; [done|]. by apply silent_ret in H2 as [-> ->].
Qed.

Lemma silent_noField t f s w s' : ¬ silent (noSuchField stmt t f) s w s'.
Proof. apply silent_stop. lead. Qed.

Lemma structOrUnion_Some t t' : structOrUnion t = Some t' → t = Some t' ∧ hasKind TK.Struct t' || hasKind TK.Union t' = true.
Proof. unfold structOrUnion. intros H. repeat case_match; by simplify_eq. Qed.

Lemma silent_walkBase fs : ∀ p b s r s', silent (walkBase stmt fs (Some p) b) s r s' →
  s' = s ∧ ∃ p' b', r = Some (Some p', b') ∧ basePath (ty_env s) p b fs p' b'.
Proof.
  induction fs as [|f fs IH]; intros p b s r s' H; cbn [walkBase] in H.
  { apply silent_ret in H as [-> ->]. split; [done|]. eexists _, _. split; [done|constructor]. }
  apply silent_bind in H as (t & s1 & H1 & H2); [|intros; lead..]. apply silent_infoOpt in H1 as [-> Ht].
  destruct (structOrUnion t) as [t'|] eqn:Hst; [|apply silent_stop in H2; [done|lead]].
  apply structOrUnion_Some in Hst as [-> Hst]. cbn in Ht.
  destruct (findField f (ti_fields t') ≫= fi_typeInfo) as [q|] eqn:Hf.
  - apply bind_Some in Hf as (fi & Hf & Hq). apply silent_bind in H2 as (r' & s1 & H1 & H2); [|intros; lead..].
    apply silent_pointee in H1 as (-> & q' & b' & -> & Hth). apply IH in H2 as (-> & p' & b1 & -> & Hpath).
    split; [done|]. eexists _, _. split; [done|]. by eapply base_field.
  - apply silent_bind in H2 as (w & s1 & H1 & _); [by apply silent_noField in H1|intros; lead..].
Qed.

Lemma silent_arrowFrom p ids s r s' : silent (arrowFrom stmt p ids) s r s' →
  s' = s ∧ ∃ q, r = Some q ∧ arrowPath (ty_env s) p ids q.
Proof.
  unfold arrowFrom. intros H. apply silent_bind in H as (r1 & s1 & H1 & H2); [|intros; lead..].
  destruct p as [p|].
  2: { apply silent_pointee_null in H1 as [-> ->]. apply silent_bind in H2 as (b & s1 & H1 & H2); [|intros; lead..].
    cbn [fst snd] in H1. destruct (tail (removelast ids)) as [|f fs]; cbn [walkBase] in H1.
    - apply silent_ret in H1 as [-> ->]. apply silent_bind in H2 as (t & s1 & H1 & H2); [|intros; lead..].
      apply silent_infoOpt in H1 as [-> Ht]. destruct t; [done|]. apply silent_stop in H2; [done|lead].
    - apply silent_bind in H1 as (t & s2 & H1 & H3); [|intros; lead..]. apply silent_infoOpt in H1 as [-> Ht].
      destruct t; [done|]. apply silent_stop in H3; [done|lead]. }
  apply silent_pointee in H1 as (-> & q & b & -> & Hth). cbn [fst snd] in H2.
  apply silent_bind in H2 as (o & s1 & H1 & H2); [|intros; lead..].
  apply silent_walkBase in H1 as (-> & base & b' & -> & Hpath).
  apply silent_bind in H2 as (t & s1 & H1 & H2); [|intros; lead..]. apply silent_infoOpt in H1 as [-> Ht].
  destruct (structOrUnion t) as [t'|] eqn:Hst; [|apply silent_stop in H2; [done|lead]].
  apply structOrUnion_Some in Hst as [-> Hst]. destruct b'; [|apply silent_stop in H2; [done|lead]].
  destruct (findField _ _ ≫= fi_typeInfo) as [r1|] eqn:Hf.
  - apply bind_Some in Hf as (fi & Hf & Hq). apply silent_ret in H2 as [-> ->]. split; [done|].
    exists r1. split; [done|]. by exists p, q, b, base, t', fi.
  - apply silent_bind in H2 as (w & s1 & H1 & _); [by apply silent_noField in H1|intros; lead..].
Qed.
End fields.

(** ** Compound assignments *)

Lemma silent_when stmt (b : bool) msg s u s' : silent (when b (errorS stmt msg)) s u s' → b = false ∧ s' = s.
Proof. destruct b; [by intros []%silent_errorS|]. by intros [_ ->]%silent_ret. Qed.

Lemma silent_if (b : bool) (m : T unit) s u s' (P : Prop) : (silent m s u s' → s' = s ∧ P) →
  silent (if b then m else mret ()) s u s' → s' = s ∧ (b = true → P).
Proof. intros Hm H. destruct b; [apply Hm in H as []; auto|]. by apply silent_ret in H as [_ ->]. Qed.

Lemma silent_compound fuel stmt ct op p q rhs s u s' : silent (checkCompound fuel stmt ct op p q rhs) s u s' →
  s' = s ∧ compound_ok fuel (ty_env s) ct op p q rhs.
Proof.
  unfold checkCompound, checkDivision. cbv zeta. intros H.
  apply silent_bind in H as (tt & s1 & H1 & H2); [|intros; lead..]. apply silent_infoOpt in H1 as [-> Ht].
  apply silent_bind in H2 as (rt & s1 & H1 & H2); [|intros; lead..]. apply silent_infoOpt in H1 as [-> Hr].
  unfold compound_ok. destruct (bool_decide (op = "??=")).
  { apply silent_bind in H2 as ([] & s1 & H1 & H2); [|intros; lead..]. apply (silent_unlessKind _ _ p) in H1 as [-> Hk]; [|done].
    apply silent_unlessAssignable in H2 as [-> Hst]. auto. }
  apply silent_bind in H2 as ([] & s1 & H1 & H2); [|intros; lead..]. apply silent_when in H2 as [Hz ->].
  assert (Hzero : op ∈ ["/="; "%="] → is_zero_literal rhs = false).
  { intros Hop. rewrite bool_decide_eq_true_2 in Hz by done. done. }
  destruct (ct_pointers ct && is_pointer tt && bool_decide (op ∈ ["+="; "-="])) eqn:Hptr.
  - split_free. apply (silent_unlessKind _ _ q) in H1 as [-> Hk]; [|done]. split_and!; [done| |done]. left.
    destruct tt as [t|]; [|done]. destruct p as [p|]; [|done]. exists p, t. split_and!; try done.
    by eapply bool_decide_eq_true_1.
  - apply silent_bind in H1 as ([] & s2 & H1 & H2); [|intros; lead..].
    eapply silent_if in H1 as [-> Hn1]; [|by apply (silent_unlessKind _ _ p)].
    apply silent_bind in H2 as ([] & s2 & H1 & H2); [|intros; lead..].
    eapply silent_if in H1 as [-> Hi1]; [|by apply (silent_unlessKind _ _ p)].
    apply silent_bind in H2 as ([] & s2 & H1 & H2); [|intros; lead..].
    eapply silent_if in H1 as [-> Hn2]; [|by apply (silent_unlessKind _ _ q)].
    apply silent_bind in H2 as ([] & s2 & H1 & H2); [|intros; lead..].
    eapply silent_if in H1 as [-> Hi2]; [|by apply (silent_unlessKind _ _ q)].
    apply silent_unlessAssignable in H2 as [-> Hst]. split_and!; [done| |done]. right.
    split_and!; [| |done]; intros Hop; split; first [apply Hn1|apply Hn2|apply Hi1|apply Hi2]; by apply bool_decide_eq_true_2.
Qed.

(** ** The statements *)

Section statements.
Context (g : Tables) (fuel : nat) (position : expr → context).
Context (resolveTypeSpec resolveTypeSpecInContext : option string → T (option tyref * Z)).
Context (constTypeSpec : string → option TypeInfo) (declarator : ExportedSymbol → option Declarator).
Context (resolveRest : expr → T (option tyref)) (restDims : expr → T Z).
Context (isConst : string → bool) (stmt : context).
Context (Hpl : parameters_lead (L := reports) resolveTypeSpec resolveTypeSpecInContext declarator resolveRest restDims).

Notation res := (resolveExprType g fuel position resolveTypeSpec resolveTypeSpecInContext constTypeSpec
  declarator resolveRest restDims).
Notation stmtOf f := (f g fuel position resolveTypeSpec resolveTypeSpecInContext constTypeSpec
  declarator resolveRest restDims).

Definition varType (x : string) (s : Typer) : option tyref := default None (ty_varTypes s !! x).
Definition declared (x : string) (s : Typer) : Prop := is_Some (locals_ (ty_checker s) !! x).

(** [rhs] has a type from [s], of which [P] holds in the state behind it. *)
Definition typed (s : Typer) (rhs : expr) (P : type_env → option tyref → Prop) : Prop :=
  ∃ q s', res rhs s = ROk q s' ∧ P (ty_env s') q.

Definition is_set (e : type_env) (p : option tyref) : Prop :=
  ∃ q t, p = Some q ∧ resolve e q = Some t ∧ hasKind TK.Extended t && bool_decide (ti_extendedKind t = "Set") = true.

Definition concatenates (e : type_env) (op : string) (p q : option tyref) : Prop :=
  op = "+=" ∧ (∃ p' t, p = Some p' ∧ resolve e p' = Some t ∧ hasKind TK.String t = true) ∧ kindOf e is_string q.

(** Indices with integer types, typed one after the other. *)
Inductive integers : list expr → Typer → Typer → Prop :=
| integers_nil s : integers [] s s
| integers_cons i es s p s1 s2 : res i s = ROk p s1 → kindOf (ty_env s1) isInteger p → integers es s1 s2 →
    integers (i :: es) s s2.

(** [x[i] = rhs] by an index operator with two parameters. *)
Definition by_setter (s s0 : Typer) (x : string) (i rhs : expr) : Prop :=
  ∃ o p s1, findSetter g fuel (ty_env s) (varType x s) None = Ret (Some o) ∧ res i s0 = ROk p s1 ∧
    stores fuel (ty_env s1) (default None (op_paramTypes o !! 0%nat)) p ∧
    typed s1 rhs (λ e q, stores fuel e (default None (op_paramTypes o !! 1%nat)) q).

(** The value of a key in a map. *)
Definition in_map (s s0 : Typer) (x : string) (i rhs : expr) : Prop :=
  ∃ m t p s1, varType x s = Some m ∧ resolve (ty_env s) m = Some t ∧ hasKind TK.Extended t = true ∧
    res i s0 = ROk p s1 ∧ typed s1 rhs (λ e q, stores fuel e (ti_keyType t) p ∧ stores fuel e (ti_valueType t) q).

Definition in_element (s0 : Typer) (x : string) (es : list expr) (rhs : expr) : Prop :=
  ∃ s1, integers es s0 s1 ∧
    typed s1 rhs (λ e q, ∃ r, elementOf e (length es) (varType x s0) r ∧ stores fuel e r q).

(** What an accepted assignment guarantees; of a [followed] one only. *)
Definition well_typed (s : Typer) (a : assignment) : Prop :=
  match a with
  | AssignStmt x [] rhs => declared x s ∧ isConst x = false ∧ ¬ is_set (ty_env s) (varType x s) ∧
      typed (initialized x s) rhs (λ e q, stores fuel e (varType x s) q)
  | CompoundAssignStmt x op rhs => declared x s ∧
      typed s rhs (λ e q, concatenates e op (varType x s) q ∨ compound_ok fuel e variableTarget op (varType x s) q rhs)
  | AssignStmt x (i :: es) rhs => declared x s ∧ isConst x = false ∧ ¬ is_set (ty_env s) (varType x s) ∧
      (by_setter s (initialized x s) x i rhs ∨ (es = [] ∧ in_map s (initialized x s) x i rhs) ∨
       in_element (initialized x s) x (i :: es) rhs)
  | FieldAssignStmt x fs rhs => declared x s ∧ isConst x = false ∧ ∃ w, fieldPath (ty_env s) (varType x s) fs w ∧
      typed s rhs (λ e q, match w with
        | Arrived p => stores fuel e p q | AtBitField _ => kindOf e (isKind TK.Integer) q | Stopped => False end)
  | FieldCompoundAssignStmt x fs op rhs => declared x s ∧ ∃ w, fieldPath (ty_env s) (varType x s) fs w ∧
      typed s rhs (λ e q, match w with
        | Arrived p => compound_ok fuel e fieldTarget op p q rhs
        | AtBitField _ => kindOf e (isKind TK.Integer) q | Stopped => False end)
  | ArrowAssignStmt ids rhs => ∃ x r, head ids = Some x ∧ declared x s ∧ arrowPath (ty_env s) (varType x s) ids r ∧
      typed s rhs (λ e q, stores fuel e (Some r) q)
  | ArrowCompoundAssignStmt ids op rhs => ∃ x r, head ids = Some x ∧ declared x s ∧
      arrowPath (ty_env s) (varType x s) ids r ∧ typed s rhs (λ e q, compound_ok fuel e arrowTarget op (Some r) q rhs)
  | DerefCompoundAssignStmt (inl x) op rhs => declared x s ∧ ∃ p t r, varType x s = Some p ∧
      resolve (ty_env s) p = Some t ∧ hasKind TK.Pointer t = true ∧ ti_pointeeType t = Some r ∧
      typed s rhs (λ e q, compound_ok fuel e derefTarget op (Some r) q rhs)
  | DerefCompoundAssignStmt (inr p) op rhs => ∃ p' s1 t r, res p s = ROk (Some p') s1 ∧
      resolve (ty_env s1) p' = Some t ∧ hasKind TK.Pointer t = true ∧ ti_pointeeType t = Some r ∧
      typed s1 rhs (λ e q, compound_ok fuel e derefTarget op (Some r) q rhs)
  | DerefAssignStmt (inl x) rhs => declared x s ∧ kindOf (ty_env s) is_pointer (varType x s) ∧ typed s rhs (λ _ _, True)
  | DerefAssignStmt (inr p) rhs => ∃ q s1, res p s = ROk q s1 ∧ kindOf (ty_env s1) is_pointer q ∧ typed s1 rhs (λ _ _, True)
  | IndexFieldAssignStmt _ | FieldIndexAssignStmt _ | ArrowAnyAssignStmt _ | ArrowAnyCompoundAssignStmt _ => False
  end.

(** The others have their expressions typed, or nothing. *)
Definition followed (a : assignment) : bool :=
  match a with
  | IndexFieldAssignStmt _ | FieldIndexAssignStmt _ | ArrowAnyAssignStmt _ | ArrowAnyCompoundAssignStmt _ => false
  | _ => true
  end.

Lemma leads_res e : leads reports (res e).
Proof. by apply resolveExprType_leads. Qed.
Hint Resolve leads_res : leads.

Lemma leads_same f : (∀ c, problems (f c) = problems c) → leads reports (onChecker f).
Proof. intros Hf. apply leads_onChecker. intros c. unfold reports. by rewrite Hf. Qed.

Lemma leads_moved e ctx : leads reports (onChecker (markExprAsMoved e ctx)).
Proof.
  apply leads_onChecker. intros c. unfold reports, markExprAsMoved, recordConsumed, error.
  repeat case_match; rewrite ?problems_emit; cbn; unfold problems; cbn; lia.
Qed.

Lemma leads_liftC {A} (m : M Checker A) : (∀ c, match m c with ROk _ c' | RThrow _ c' => problems c' = problems c | _ => True end) →
  leads reports (liftC m).
Proof. intros Hm s. specialize (Hm (ty_checker s)). unfold liftC, reports. destruct (m _); try done; cbn; lia. Qed.

Lemma leads_track x p rhs : leads reports (trackAssigned stmt x p rhs).
Proof.
  unfold trackAssigned. apply leads_bind; [lead|]. intros vi.
  apply leads_bind; [unfold when; case_match; [by apply leads_same|lead]|]. intros _.
  apply leads_bind; [apply leads_moved|]. intros _. apply leads_bind; [lead|]. intros t.
  apply leads_bind; [|intros _]; apply leads_liftC; intros c.
  - unfold trackVarBufferFromExpr. destruct (locals_ c !! x); [|done]. cbv zeta. by destruct (trackBuffer _ _ _ _ _).
  - unfold trackVarNumericRangeFromExpr. destruct (locals_ c !! x); [|done]. cbv zeta.
    destruct (negb _); [done|]. by destruct (tryEvalUSizeRangeExpr _ _) as [[[]|]| | |].
Qed.
Hint Resolve leads_track : leads.

Lemma silent_withLocal x k s u s' : silent (withLocal stmt x k) s u s' → declared x s ∧ silent (k (varType x s)) s u s'.
Proof.
  unfold withLocal. intros [H Hp]. unfold mbind, M_bind, getS in H. unfold declared.
  destruct (locals_ (ty_checker s) !! x) as [vi|]; [by split; [eexists|]|].
  exfalso. by eapply (silent_errorS stmt).
Qed.

Lemma typed_intro s rhs q s' (P : type_env → option tyref → Prop) : silent (res rhs) s q s' → P (ty_env s') q → typed s rhs P.
Proof. intros [H _] HP. by exists q, s'. Qed.

Lemma accepted_variable x rhs s u s' : silent (stmtOf checkAssignStmt isConst stmt x [] rhs) s u s' →
  well_typed s (AssignStmt x [] rhs).
Proof.
  intros (Hd & H)%silent_withLocal. destruct (isConst x) eqn:Hc; [by apply silent_errorS in H|].
  assert (Hel : ∀ p, leads reports (stmtOf assignElement stmt x p [] rhs)).
  { intros p. unfold assignElement. cbn [checkIndices length Nat.eqb]. cbv zeta. lead. }
  assert (Hco : ∀ p t, leads reports (stmtOf assignContainer stmt x p t [] rhs)).
  { intros p t. unfold assignContainer. destruct (_ && _); [lead|]. by destruct (hasKind _ _), (ti_keyType t). }
  apply silent_bind in H as ([] & s1 & [H1 _] & H2);
    [|by apply leads_same|intros _; unfold assignTo; apply leads_bind; [lead|]; intros [t|]; [|done]; by destruct (hasKind _ _)].
  injection H1 as <-. fold (initialized x s) in H2.
  apply silent_bind in H2 as (vt & s1 & H1 & H2); [|lead|intros [t|]; [|done]; by destruct (hasKind _ _)].
  apply silent_infoOpt in H1 as [-> Ht]. change (denotes (varType x s) vt s) in Ht.
  assert (Hset : silent (stmtOf assignElement stmt x (varType x s) [] rhs) (initialized x s) u s' ∧ ¬ is_set (ty_env s) (varType x s)).
  { destruct vt as [t|].
    - assert (H : silent (stmtOf assignContainer stmt x (varType x s) t [] rhs) (initialized x s) u s') by by destruct (hasKind TK.Struct t).
      unfold assignContainer in H. destruct (_ && _) eqn:Hset.
      + apply silent_bind in H as (el & s1 & H1 & H3); [by apply silent_errorS in H3|lead|intros; lead].
      + split; [by destruct (hasKind TK.Extended t), (ti_keyType t)|]. intros (p & t' & Hp & Hr & Hs).
        rewrite Hp in Ht. cbn in Ht. rewrite Hr in Ht. injection Ht as ->. congruence.
    - split; [done|]. intros (p & t' & Hp & _). by rewrite Hp in Ht. }
  destruct Hset as [H Hns]. split_and!; [done..|].
  unfold assignElement in H. cbn [checkIndices length Nat.eqb indexedType] in H. cbv zeta in H.
  apply silent_bind in H as ([] & s1 & H1 & H3); [|intros; lead..]. apply silent_ret in H1 as [_ ->].
  apply silent_bind in H3 as (q & s1 & Hq & H3); [|intros; lead..].
  apply silent_bind in H3 as (r & s2 & H1 & H3); [|intros; lead..]. apply silent_ret in H1 as [-> ->].
  apply silent_bind in H3 as (n & s2 & H1 & H3); [|intros; lead..]. apply silent_notAssignable in H1 as (-> & Hst & _).
  apply silent_bind in H3 as ([] & s2 & H1 & H3); [|intros; lead..].
  apply silent_mismatch in H1 as [-> _]; [|lead]. eapply typed_intro; [done|]. by apply Hst.
Qed.

Lemma silent_indexedType n : ∀ p s r s', silent (indexedType n p) s r s' → s' = s ∧ elementOf (ty_env s) n p r.
Proof.
  induction n as [|n IH]; intros [p|] s r s' H; cbn [indexedType] in H;
    try (apply silent_ret in H as [-> ->]; split; [done|constructor]).
  apply silent_bind in H as (q & s1 & H1 & H2); [|intros; lead..]. apply silent_autoDeref in H1 as [-> Hq].
  apply silent_bind in H2 as (t & s2 & H2 & H3); [|intros; lead..]. apply silent_info in H2 as [-> Ht].
  apply IH in H3 as [-> H3]. split; [done|]. by eapply element_in.
Qed.

Lemma reported_checkIndices es : leads reports (stmtOf checkIndices stmt es).
Proof. induction es; cbn [checkIndices]; lead. Qed.
Hint Resolve reported_checkIndices : leads.

Lemma silent_checkIndices es : ∀ s u s', silent (stmtOf checkIndices stmt es) s u s' → integers es s s'.
Proof.
  induction es as [|i es IH]; intros s u s' H; cbn [checkIndices] in H.
  { apply silent_ret in H as [_ ->]. constructor. }
  apply silent_bind in H as (p & s1 & [H1 _] & H2); [|intros; lead..].
  apply silent_bind in H2 as (t & s2 & H2 & H3); [|intros; lead..]. apply silent_infoOpt in H2 as [-> Ht].
  apply silent_bind in H3 as ([] & s2 & H3 & H4); [|intros; lead..].
  apply (silent_unlessKind _ _ p) in H3 as [-> Hk]; [|done]. eapply integers_cons; [done..|]. by eapply IH.
Qed.

Lemma silent_element x p i es rhs s u s' : silent (stmtOf assignElement stmt x p (i :: es) rhs) s u s' →
  ∃ s1, integers (i :: es) s s1 ∧ typed s1 rhs (λ e q, ∃ r, elementOf e (length (i :: es)) p r ∧ stores fuel e r q).
Proof.
  intros H. unfold assignElement in H. cbv zeta in H. replace (length (i :: es) =? 0) with false in H by done.
  apply silent_bind in H as ([] & s1 & H1 & H3); [|intros; lead..]. apply silent_checkIndices in H1.
  apply silent_bind in H3 as (q & s2 & Hq & H3); [|intros; lead..].
  apply silent_bind in H3 as (r & s3 & H2 & H3); [|intros; lead..]. apply silent_indexedType in H2 as [-> Hr].
  apply silent_bind in H3 as (n & s3 & H2 & H3); [|intros; lead..]. apply silent_notAssignable in H2 as (-> & Hst & _).
  apply silent_bind in H3 as ([] & s3 & H2 & H3); [|intros; lead..].
  apply silent_mismatch in H2 as [-> _]; [|lead]. exists s1. split; [done|].
  eapply typed_intro; [done|]. exists r. split; [done|by apply Hst].
Qed.

Lemma silent_setter p s o s' : silent (setterT g fuel p) s o s' → s' = s ∧ findSetter g fuel (ty_env s) p None = Ret o.
Proof.
  intros [H _]. unfold setterT, mbind, M_bind, getS, liftO in H. destruct (findSetter _ _ _ _ _); try done.
  by injection H as -> ->.
Qed.

Lemma silent_callSetter o i rhs s u s' : silent (stmtOf callSetter stmt o i rhs) s u s' →
  ∃ p s1, res i s = ROk p s1 ∧ stores fuel (ty_env s1) (default None (op_paramTypes o !! 0%nat)) p ∧
    typed s1 rhs (λ e q, stores fuel e (default None (op_paramTypes o !! 1%nat)) q).
Proof.
  intros H. unfold callSetter in H. apply silent_bind in H as (p & s1 & [H1 _] & H2); [|intros; lead..].
  apply silent_bind in H2 as ([] & s2 & H2 & H3); [|intros; lead..]. apply silent_unlessAssignable in H2 as [-> Hp].
  apply silent_bind in H3 as (q & s2 & Hq & H3); [|intros; lead..]. apply silent_unlessAssignable in H3 as [-> Hst].
  exists p, s1. split_and!; [done..|]. by eapply typed_intro.
Qed.

Lemma silent_map t i rhs s u s' : silent (stmtOf assignMapElement stmt t i rhs) s u s' →
  ∃ p s1, res i s = ROk p s1 ∧ typed s1 rhs (λ e q, stores fuel e (ti_keyType t) p ∧ stores fuel e (ti_valueType t) q).
Proof.
  intros H. unfold assignMapElement in H. apply silent_bind in H as (p & s1 & [H1 _] & H2); [|intros; lead..].
  apply silent_bind in H2 as (q & s2 & Hq & H2); [|intros; lead..].
  apply silent_bind in H2 as ([] & s3 & H2 & H3); [|intros; lead..]. apply silent_unlessAssignable in H2 as [-> Hk].
  apply silent_unlessAssignable in H3 as [-> Hv]. exists p, s1. split; [done|]. by eapply typed_intro.
Qed.

Lemma reported_assignElement x p es rhs : leads reports (stmtOf assignElement stmt x p es rhs).
Proof. unfold assignElement. lead. Qed.
Hint Resolve reported_assignElement : leads.
Lemma leads_container x p t es rhs : leads reports (stmtOf assignContainer stmt x p t es rhs).
Proof. unfold assignContainer, assignMapElement. lead. Qed.
Hint Resolve leads_container : leads.
Lemma leads_setterT p : leads reports (setterT g fuel p).
Proof. unfold setterT. lead. Qed.
Hint Resolve leads_setterT : leads.
Lemma reported_assignTo x p es rhs : leads reports (stmtOf assignTo stmt x p es rhs).
Proof. unfold assignTo, callSetter. lead. Qed.
Hint Resolve reported_assignTo : leads.

(** A container that is no set. *)
Lemma silent_container x p t i es rhs s u s' : silent (stmtOf assignContainer stmt x p t (i :: es) rhs) s u s' →
  (hasKind TK.Extended t && bool_decide (ti_extendedKind t = "Set")) = false ∧
  ((es = [] ∧ hasKind TK.Extended t = true ∧ silent (stmtOf assignMapElement stmt t i rhs) s u s') ∨
   silent (stmtOf assignElement stmt x p (i :: es) rhs) s u s').
Proof.
  unfold assignContainer. intros H. destruct (_ && bool_decide _).
  { apply silent_bind in H as (el & s1 & H1 & H3); [by apply silent_errorS in H3|lead|intros; lead]. }
  split; [done|]. destruct (hasKind TK.Extended t), (ti_keyType t), es; auto.
Qed.

Lemma accepted_element x i es rhs s u s' : silent (stmtOf checkAssignStmt isConst stmt x (i :: es) rhs) s u s' →
  well_typed s (AssignStmt x (i :: es) rhs).
Proof.
  intros (Hd & H)%silent_withLocal. destruct (isConst x) eqn:Hc; [by apply silent_errorS in H|].
  apply silent_bind in H as ([] & s1 & [H1 _] & H2); [|by apply leads_same|intros; lead].
  injection H1 as <-. fold (initialized x s) in H2. unfold assignTo in H2.
  apply silent_bind in H2 as (vt & s1 & H1 & H2); [|lead|intros; unfold callSetter; lead].
  apply silent_infoOpt in H1 as [-> Ht]. change (denotes (varType x s) vt s) in Ht.
  assert (Hset : ∀ t, vt = Some t → hasKind TK.Extended t && bool_decide (ti_extendedKind t = "Set") = false →
    ¬ is_set (ty_env s) (varType x s)).
  { intros t -> Hf (p & t' & Hp & Hr & Hs). rewrite Hp in Ht. cbn in Ht. rewrite Hr in Ht. injection Ht as ->. congruence. }
  assert (Hcont : ∀ t, vt = Some t → silent (stmtOf assignContainer stmt x (varType x s) t (i :: es) rhs) (initialized x s) u s' →
    well_typed s (AssignStmt x (i :: es) rhs)).
  { intros t Evt [Hf H]%silent_container. split_and!; [done|done|by eapply Hset|]. right.
    destruct H as [(-> & Hk & (p & s1 & H)%silent_map)|H]; [left|right; by apply silent_element in H].
    destruct H as [Hp Hv]. split; [done|]. destruct (varType x s) as [m|] eqn:Hm; [|by rewrite Evt in Ht].
    rewrite Evt in Ht. by exists m, t, p, s1. }
  destruct vt as [t|].
  2: { split_and!; [done|done| |right; right; by apply silent_element in H2]. intros (p & t' & Hp & _). by rewrite Hp in Ht. }
  destruct (hasKind TK.Struct t) eqn:Hst; [|by eapply Hcont].
  apply silent_bind in H2 as (o & s1 & H1 & H2); [|lead|intros; unfold callSetter; lead].
  apply silent_setter in H1 as [-> Ho]. destruct o as [o|].
  - split_and!; [done|done| |left].
    + eapply Hset; [done|]. unfold hasKind in *. apply bool_decide_eq_true in Hst. rewrite Hst. done.
    + apply silent_callSetter in H2 as (p & s1 & H). by exists o, p, s1.
  - apply silent_bind in H2 as (o & s1 & H1 & H2); [|lead|intros; lead].
    destruct o; [by apply silent_errorS in H2|]. assert (s1 = initialized x s) as ->.
    { destruct H1 as [H1 _]. unfold findOperator, mbind, M_bind, getS, liftO in H1. repeat case_match; simplify_eq; done. }
    by eapply Hcont.
Qed.

Lemma leads_assignField w rhs k : (∀ p q, leads reports (k p q)) → leads reports (stmtOf assignField stmt w rhs k).
Proof. intros Hk. unfold assignField. lead. Qed.

Lemma accepted_assignField w rhs k P s u s' :
  (∀ p q, leads reports (k p q)) → (∀ p q s1 s2, silent (k p q) s1 u s2 → P (ty_env s1) p q) →
  w ≠ Stopped → silent (stmtOf assignField stmt w rhs k) s u s' →
  typed s rhs (λ e q, match w with Arrived p => P e p q | AtBitField _ => kindOf e (isKind TK.Integer) q | Stopped => False end).
Proof.
  intros Hk HP Hw H. destruct w as [p|f|]; [..|done]; cbn [assignField] in H.
  - apply silent_bind in H as (q & s1 & H1 & H2); [|intros; lead..]. eapply typed_intro; [done|]. by eapply HP.
  - apply silent_bind in H as (q & s1 & H1 & H2); [|intros; lead..]. eapply typed_intro; [done|].
    apply silent_bind in H2 as (t & s2 & H2 & H3); [|intros; lead..]. apply silent_infoOpt in H2 as [-> Ht].
    intros q' t' -> Hr. destruct t as [t|]; [|done]. cbn in Ht. simplify_eq.
    apply silent_when in H3 as [Hb _]. by apply negb_false_iff in Hb.
Qed.

Lemma fieldPath_arrives e p fs w : fieldPath e p fs w → w ≠ Stopped.
Proof. by induction 1. Qed.

Lemma silent_arrow ids msg s r s' : silent (arrowField stmt ids msg) s r s' →
  s' = s ∧ ∃ x q, head ids = Some x ∧ declared x s ∧ r = Some q ∧ arrowPath (ty_env s) (varType x s) ids q.
Proof.
  unfold arrowField. destruct ids as [|x [|y ids]]; try (intros H; by apply silent_stop in H; [|lead]).
  intros [H Hp]. unfold mbind at 1, M_bind at 1, getS in H. unfold declared.
  destruct (locals_ (ty_checker s) !! x) as [vi|] eqn:Hx.
  - assert (Hq : silent (arrowFrom stmt (varType x s) (x :: y :: ids)) s r s') by done.
    apply silent_arrowFrom in Hq as (-> & q & -> & Hpath). split; [done|]. exists x, q.
    split_and!; [done|by rewrite Hx; eexists|done|done].
  - exfalso. eapply (silent_stop stmt ("undefined variable " +:+ quote x) (mret None)); [lead|done].
Qed.

End statements.

(** ** [x = 'c'] *)


(** ** Assignments that are accepted or rejected against their meaning *)

Definition pointerTo (n : string) : TypeInfo :=
  (mkTypeInfo ("*" +:+ n) TK.Pointer 64 false "") <| ti_pointeeType := Some (RegT n) |>.

(** A variable of type [set<int32>], a pointer to an integer and an integer. *)
Definition gapVariables : Typer :=
  twoVariables <| ty_env := {| te_types := newTypeRegistry; te_dynamicTypes :=
                    [(mkTypeInfo "set<int32>" TK.Extended 0 false "") <| ti_extendedKind := "Set" |>
                       <| ti_elementType := Some (RegT "int32") |>; pointerTo "int32"] |} |>
    <| ty_checker := emptyChecker (<["s" := localOf (typeNamed "int32")]> (<["p" := localOf (pointerTo "int32")]>
                                   {[ "x" := localOf (typeNamed "int32") ]})) |>
    <| ty_varTypes := <["s" := Some (DynT 0)]> (<["p" := Some (DynT 1)]> {[ "x" := Some (RegT "int32") ]}) |>.

Definition problemsOf (constants : string → bool) (a : assignment) : option nat :=
  match checkAssignment exampleTables 4 (λ _, None) namedSpec namedSpec (λ _, None) (λ _, None) noRest noDims
          constants None a gapVariables with
  | ROk _ s' => Some (problems (ty_checker s'))
  | _ => None
  end.

(** A set cannot be assigned as a whole, because the test for an index counts the right-hand
    side.  A constant can be changed by a compound assignment, but not by [=]; the type of [e]
    does not matter in [*p = e]; and an assignment through several arrows is not looked at,
    not even its variable. *)
Lemma assignment_gaps :
  problemsOf (λ _, false) (AssignStmt "s" [] (EIdent "s")) = Some 1 ∧
  problemsOf (λ _, true) (AssignStmt "x" [] (ELit IntLit "1")) = Some 1 ∧
  problemsOf (λ _, true) (CompoundAssignStmt "x" "+=" (ELit IntLit "1")) = Some 0 ∧
  problemsOf (λ _, false) (AssignStmt "x" [] (ELit StrLit "text")) = Some 1 ∧
  problemsOf (λ _, false) (DerefAssignStmt (inl "p") (ELit StrLit "text")) = Some 0 ∧
  problemsOf (λ _, false) (ArrowAnyAssignStmt [EIdent "undeclared"]) = Some 0.
Proof. vm_compute. tauto. Qed.
