(* ===== verification/CallStmts.v ===== *)
(** * Call statements

    [Checker::checkCallStmt] ([checkers/Checker_stmt.cpp]) and [Checker::isKnownFunction]
    ([checkers/Checker_driver.cpp]).  A call that is a statement is not checked as the
    expression is: the two are separate code, and share the steps of [Calls] only where the
    messages are the same. *)

From S2P Require Import Prelude.
From S2P Require Import CxxLib.
From S2P Require Import TypeInfo.
From S2P Require Import Assign.
From S2P Require Import Traits.
From S2P Require Import Syntax.
From S2P Require Import ComptimeValue.
From S2P Require Import ConstEval.
From S2P Require Import Builtins.
From S2P Require Import Ownership.
From S2P Require Import Attributes.
From S2P Require Import Modules.
From S2P Require Import Imports.
From S2P Require Import ExprType.
From S2P Require Import GenericInfer.
From S2P Require Import Calls.
Local Open Scope Z_scope.

(** What only statements look up: the functions every file has, those marked [must_use],
    the generic functions whose last parameter is a variadic one with a specifier, and the
    order in which the known modules are iterated. *)
Record CallStmtTables := {
  globalBuiltins_ : gset string;
  isMustUse : string → bool;
  isTypedVariadic : string → bool;
  moduleOrder : list (string * list string) }.

Section call_stmts.
Context (g : Tables) (ct : CallTables) (st : CallStmtTables) (fuel : nat) (position : expr → context).
(** The types and the dimensions of expressions. *)
Context (typeOf : expr → T (option tyref)) (dimsOf : expr → T Z).
(** Where the statement is, and what it calls. *)
Context (stmt : context) (name : string) (args : option (list expr)).

Notation errorS msg := (onChecker (error stmt msg)).

(** The steps of [Calls] report at the statement. *)
Notation at_stmt := (λ _ : expr, stmt).
Definition theCall : expr := ECall (EIdent name) args.
Definition argExprs : list expr := default [] args.

Definition isKnownFunction : bool :=
  bool_decide (is_Some (functions_ g !! name)) ||
  bool_decide (is_Some (genericFuncTemplates_ ct !! name)) ||
  isComptime (comptimeRegistry_ g) name ||
  bool_decide (name ∈ globalBuiltins_ st) ||
  isImported (importResolver_ g) name ||
  bool_decide (is_Some (userImports_ g !! name)) ||
  match moduleRegistry_ g with
  | Some m =>
      negb (bool_decide (currentModulePath_ g = "")) &&
      match findSymbol m (currentModulePath_ g) name with
      | Some sym =>
          bool_decide (sym_kind sym = SFunction) && negb (bool_decide (sym_sourceFile sym = currentFile_ g))
      | None => false
      end
  | None => false
  end.

(** The types of the arguments; [None] after an error about one of type void. *)
Definition typedArgs : T (option (list (option tyref))) :=
  types ← sequence (typeOf <$> argExprs);
  void ← findVoid 0 types;
  match void with
  | Some i =>
      errorAt position argExprs i ("argument " +:+ count (S i) +:+
        " has type 'void'; functions returning void cannot be used as values");; mret None
  | None => mret (Some types)
  end.

Definition argMismatch (i : nat) (p a : tyref) : T unit :=
  ok ← assignableT fuel (Some p) (Some a);
  if ok : bool then mret () else
  np ← nameT (Some p); na ← nameT (Some a);
  errorS ("argument " +:+ count (S i) +:+ " type mismatch in " +:+ quote name +:+ ": expected " +:+ quote np +:+
          ", got " +:+ quote na).

(** Arguments from the [i]th on against the parameters. *)
Fixpoint argsAssignable (i : nat) (params types : list (option tyref)) : T unit :=
  match params, types with
  | p :: params, a :: types =>
      match p, a with Some p, Some a => argMismatch i p a | _, _ => mret () end;;
      argsAssignable (S i) params types
  | _, _ => mret ()
  end.

(** Arguments from the [i]th on against the type of the elements of a variadic parameter. *)
Fixpoint restAssignable (i : nat) (element : tyref) (types : list (option tyref)) : T unit :=
  match types with
  | [] => mret ()
  | a :: types =>
      match a with Some a => argMismatch i element a | None => mret () end;;
      restAssignable (S i) element types
  end.

Definition wrongCountS (bound : string) (n : nat) (params : list (option tyref)) (given : nat) : T unit :=
  types ← formatParamTypes params;
  wrongCount at_stmt theCall ("function " +:+ quote name +:+ " expects " +:+ bound +:+ count n) types given.

(** A variable that holds a function or a closure. *)
Definition callLocal (t : TypeInfo) : T unit :=
  types ← typedArgs;
  match types with
  | None => mret ()
  | Some types =>
      let params := ti_paramTypes t in
      if negb (length types =? length params)%nat then wrongCountS "" (length params) params (length types)
      else argsAssignable 0 params types;; effects g at_stmt name argExprs theCall
  end.

(** The guards for arrays given to the functions that print; [true] after an error. *)
Fixpoint findArray (es : list expr) : T bool :=
  match es with
  | [] => mret false
  | e :: es => n ← dimsOf e; if 0 <? n then mret true else findArray es
  end.

Definition printNames : list string := ["print"; "println"; "eprint"; "eprintln"].

Definition rejectsArrays : T bool :=
  if bool_decide (name ∈ printNames) &&
     (isImported (importResolver_ g) name || bool_decide (is_Some (functions_ g !! name))) then
    array ← findArray argExprs;
    (if array : bool then
       errorS ("function " +:+ quote name +:+ " does not accept array arguments directly; use " +:+
               "'.toString()' (or '.join(...)' for strings) before printing")
     else mret ());;
    mret array
  else mret false.

(** Arguments of type [*char] given to [sprintf]. *)
Fixpoint rejectCharPointers (es : list expr) (types : list (option tyref)) : T unit :=
  match es, types with
  | e :: es, a :: types =>
      t ← infoOpt a;
      pointee ← match t with
                | Some t => if hasKind TK.Pointer t then infoOpt (ti_pointeeType t) else mret None
                | None => mret None
                end;
      when (isKind TK.Char pointee)
        (errorT position e ("'sprintf' from Lucis does not accept '*char'; " +:+
           "pass 'string' values (use 'fromCStr(...)' if needed)"));;
      rejectCharPointers es types
  | _, _ => mret ()
  end.

Definition callGeneric (tmpl : GenericFuncTemplate) (types : list (option tyref)) : T unit :=
  let variadic := isTypedVariadic st name in
  let formals := length (gf_formals tmpl) in
  let fixedCount := if variadic then (formals - 1)%nat else formals in
  let expects bound n := errorS ("generic function " +:+ quote name +:+ " expects " +:+ bound +:+ count n +:+
                                 " argument(s), got " +:+ count (length types)) in
  if negb variadic && negb (length types =? formals)%nat then expects "" formals else
  if variadic && (length types <? fixedCount)%nat then expects "at least " fixedCount else
  inferred ← inferGenericTypeArgs stmt name (gf_typeParams tmpl) (gf_formals tmpl) types;
  match inferred with
  | None => mret ()
  | Some ts => gf_instantiate tmpl ts stmt;; effects g at_stmt name argExprs theCall
  end.

Definition callFunction (fn : TypeInfo) (types : list (option tyref)) : T unit :=
  let params := ti_paramTypes fn in
  (if ti_isVariadic fn then
     let typed := bool_decide (is_Some (ti_variadicElementType fn)) in
     let fixedCount :=
       if typed && (0 <? length params)%nat then (length params - 1)%nat else length params in
     (if (length types <? fixedCount)%nat then wrongCountS "at least " fixedCount params (length types)
      else mret ());;
     argsAssignable 0 (take fixedCount params) types;;
     match ti_variadicElementType fn with
     | Some element => restAssignable fixedCount element (drop fixedCount types)
     | None => mret ()
     end
   else if negb (length types =? length params)%nat then wrongCountS "" (length params) params (length types)
   else argsAssignable 0 params types);;
  analyze ct at_stmt name theCall argExprs;;
  effects g at_stmt name argExprs theCall.

(** The loop over the arguments of a function that is not polymorphic indexes the parameters
    with the arguments, of which a variadic one has more. *)
Definition builtinArgsInRange (sig : BuiltinSignature) (types : list (option tyref)) : T unit :=
  checkBuiltinArgs fuel at_stmt theCall name 0 (bs_paramTypes sig) types;;
  if existsb (λ a, bool_decide (is_Some a)) (drop (length (bs_paramTypes sig)) types) then undefT else mret ().

Definition callBuiltin (sig : BuiltinSignature) (types : list (option tyref)) : T unit :=
  let params := bs_paramTypes sig in
  let expects bound := errorS (quote name +:+ " expects " +:+ bound +:+ count (length params) +:+
                               " argument(s) " +:+ parenthesised params +:+ ", got " +:+ count (length types)) in
  if bs_isVariadic sig && (length types <? length params)%nat then expects "at least " else
  if negb (bs_isVariadic sig) && negb (length types =? length params)%nat then expects "" else
  (if bs_isPolymorphic sig then mret () else builtinArgsInRange sig types);;
  polymorphicArgs at_stmt theCall name sig types;;
  analyze ct at_stmt name theCall argExprs;;
  effects g at_stmt name argExprs theCall.

(** A generic function, a function or a built-in one. *)
Definition callKnown (types : list (option tyref)) : T unit :=
  match genericFuncTemplates_ ct !! name with
  | Some tmpl => callGeneric tmpl types
  | None =>
      fn ← match functions_ g !! name with
           | Some (Some p) => t ← infoT p; mret (if hasKind TK.Function t then Some t else None)
           | Some None => undefT
           | None => mret None
           end;
      match fn with
      | Some fn => callFunction fn types
      | None =>
          match br_lookup (builtinRegistry_ g) name with
          | Some sig => callBuiltin sig types
          | None => mret ()
          end
      end
  end.

(** A function found by its name. *)
Definition callNamed : T unit :=
  if negb isKnownFunction then
    let hint := suggestImport (moduleOrder st) name in
    errorS ("call to undeclared function " +:+ quote name +:+
            (if bool_decide (hint = "") then "" else ". Did you forget '" +:+ hint +:+ "'?"))
  else
    when (isDeprecated ct name) (onChecker (warning stmt ("call to deprecated function " +:+ quote name)));;
    when (isMustUse st name)
      (onChecker (warning stmt ("unused return value: " +:+ quote name +:+ " is marked #[must_use]")));;
    types ← typedArgs;
    match types with
    | None => mret ()
    | Some types =>
        rejected ← rejectsArrays;
        if rejected : bool then mret () else
        (if bool_decide (name = "sprintf") && isImported (importResolver_ g) "sprintf"
         then rejectCharPointers argExprs types else mret ());;
        callKnown types
    end.

Definition callMacro (params : list string) : T unit :=
  when (negb (length argExprs =? length params)%nat)
    (errorS ("function-like macro " +:+ quote name +:+ " expects " +:+ count (length params) +:+
             " argument(s), got " +:+ count (length argExprs))).

Definition checkCallStmt : T unit :=
  s ← getS;
  localType ← match locals_ (ty_checker s) !! name with
              | Some _ => infoOpt (default None (ty_varTypes s !! name))
              | None => mret None
              end;
  match match localType with
        | Some t => if hasKind TK.Function t || hasKind TK.Closure t then Some t else None
        | None => None
        end with
  | Some t => callLocal t
  | None =>
      match cFunctionLikeMacros_ ct !! name with
      | Some params => callMacro params
      | None => callNamed
      end
  end.
End call_stmts.
