(* ===== verification/Statements.v ===== *)
(** * Statements

    [Checker::checkStmt], [checkBlock] and the statements they dispatch to
    ([checkers/Checker_stmt.cpp]), [extractArraySizesFromSpec] ([checkers/Checker_type.cpp])
    and [checkFunction] ([checkers/Checker_decl.cpp]).  Assignments are those of [AssignStmts],
    constants those of [ConstDecl], calls those of [CallStmts].

    A block works on the variables of the checker itself, and puts back at its end what it
    found at its beginning.  The state of [ExprType] is extended by what statements add to it:
    the depths of blocks and loops, the labels, the variants that [use] brings into scope, and
    of every variable where it was declared.  The preprocessor blocks of C, whose evaluation
    runs a compiler, are left out. *)

From S2P Require Import Prelude.
From S2P Require Import CxxLib.
From S2P Require Import TypeInfo.
From S2P Require Import Assign.
From S2P Require Import Traits.
From S2P Require Import Syntax.
From S2P Require Import ComptimeValue.
From S2P Require Import ConstEval.
From S2P Require Import Flow.
From S2P Require Import Builtins.
From S2P Require Import Ownership.
From S2P Require Import CBuffer.
From S2P Require Import Attributes.
From S2P Require Import Modules.
From S2P Require Import Imports.
From S2P Require Import ExprType.
From S2P Require Import ConstDecl.
From S2P Require Import TypeSpec.
From S2P Require Import Calls.
From S2P Require Import AssignStmts.
From S2P Require Import CallStmts.
Local Open Scope Z_scope.

(** ** Syntax *)

(** A [VarDeclaratorContext]. *)
Record VarDeclarator := {
  vd_name : string;
  vd_expression : option expr;
  vd_ctx : context }.

(** [constraint] is the text of the string literal. *)
Record AsmOutput := { ao_constraint : string; ao_name : option string; ao_ctx : context }.
Record AsmOperand := { ai_constraint : string; ai_expression : expr; ai_ctx : context }.
Record Asm := {
  asm_volatile : bool;
  asm_outputs : option (list AsmOutput);
  asm_inputs : list AsmOperand;
  asm_labels : list string }.

(** An item of the callback list of [#scope]. *)
Record ScopeCallback := {
  cb_dot : bool;
  cb_ids : list string;
  cb_args : list expr;
  cb_ctx : context }.

Notation attributes := (option (list AttributeContext)).

(** [StatementContext], with its place, by alternative of the rule.  [UseDecl] has the
    enumeration of [use E::*], if it is one; the names of a destructuring are all the
    identifiers of its context. *)
Inductive statement :=
| Stmt (ctx : context) (k : stmtKind)
with stmtKind :=
| UseDecl (attrs : attributes) (wildcard : option string)
| ConstDeclStmt (attrs : attributes) (ds : list ConstDeclarator)
| VarDestructureStmt (attrs : attributes) (names : list string) (init : option expr)
| VarDeclStmt (attrs : attributes) (prefix : option string) (spec : typeSpec) (ds : list VarDeclarator)
| AssignmentStmt (a : assignment)
| CallStmt (name : string) (args : option (list expr))
| AsmStmt (a : Asm)
| LabelDef (name : string) (s : statement)
| ExprStmt (e : expr)
| ReturnStmt (e : option expr)
| IfStatement (cond : expr) (body : ifBody) (elifs : list elseIf) (els : option ifBody)
| ForInStmt (spec : string) (x : string) (e : expr) (body : list statement)
| ForClassicStmt (spec : string) (x : string) (init cond update : expr) (body : list statement)
| LoopStmt (body : list statement)
| WhileStmt (cond : expr) (body : list statement)
| DoWhileStmt (body : list statement) (cond : expr)
| BreakStmt
| ContinueStmt
| SwitchStmt (e : expr) (cases : list caseClause) (dflt : option (list statement))
| LockStmt (e : expr) (body : list statement)
| TryCatchStmt (body : list statement) (catches : list catchClause) (finally : option (list statement))
| ThrowStmt (e : expr)
| BailStmt (e : expr)
| DeferCall (name : string) (args : option (list expr))
| DeferExpr (e : expr)
| NakedBlockStmt (body : list statement)
| InlineBlockStmt (body : list statement)
| ScopeBlockStmt (callbacks : list ScopeCallback) (body : list statement)
with ifBody :=
| BodyOfBlock (b : list statement)
| BodyOfStatement (s : statement)
with elseIf :=
| ElseIfClause (ctx : context) (cond : expr) (body : ifBody)
with caseClause :=
| CaseClause (labels : list expr) (body : list statement)
with catchClause :=
| CatchClause (spec name : string) (body : list statement).

Definition placeOf (s : statement) : context := match s with Stmt ctx _ => ctx end.
Definition kindOfStmt (s : statement) : stmtKind := match s with Stmt _ k => k end.

(** *** The statement without its places and types, as [Flow] has it *)

Definition assignmentShape (a : assignment) : stmt :=
  match a with
  | AssignStmt x indices rhs => SAssign x indices rhs
  | CompoundAssignStmt x op rhs => SCompoundAssign x op rhs
  | FieldAssignStmt _ _ rhs | FieldCompoundAssignStmt _ _ _ rhs | ArrowAssignStmt _ rhs
  | ArrowCompoundAssignStmt _ _ rhs => SOther [rhs] [] ""
  | DerefAssignStmt target rhs | DerefCompoundAssignStmt target _ rhs =>
      SOther (match target with inl _ => [rhs] | inr e => [e; rhs] end) [] ""
  | IndexFieldAssignStmt es | FieldIndexAssignStmt es | ArrowAnyAssignStmt es
  | ArrowAnyCompoundAssignStmt es => SOther es [] ""
  end.

Fixpoint shape (s : statement) : stmt :=
  let ifShape (b : ifBody) : if_body :=
    match b with BodyOfBlock b => IfBlock (shape <$> b) | BodyOfStatement s => IfStmt (shape s) end in
  match s with
  | Stmt _ k =>
      match k with
      | UseDecl _ _ | VarDestructureStmt _ _ None => SOther [] [] ""
      | ConstDeclStmt _ ds => SOther (omap cdecl_expression ds) [] ""
      | AsmStmt a => SOther (ai_expression <$> asm_inputs a) (asm_labels a) ""
      | VarDestructureStmt _ names (Some e) => SVarDestructure names e
      | VarDeclStmt _ _ _ ds => SVarDecl ((λ d, (vd_name d, vd_expression d)) <$> ds)
      | AssignmentStmt a => assignmentShape a
      | CallStmt name args => SCall name args
      | LabelDef name s => SLabel name (shape s)
      | ExprStmt e => SExpr e
      | ReturnStmt e => SReturn e
      | IfStatement cond body elifs els =>
          SIf cond (ifShape body) ((λ i, match i with ElseIfClause _ c b => ElseIf c (ifShape b) end) <$> elifs)
            match els with Some b => Some (ifShape b) | None => None end
      | ForInStmt _ x e b => SForIn x e (shape <$> b)
      | ForClassicStmt _ x init cond update b => SForClassic x init cond update (shape <$> b)
      | LoopStmt b => SLoop (shape <$> b)
      | WhileStmt cond b => SWhile cond (shape <$> b)
      | DoWhileStmt b cond => SDoWhile (shape <$> b) cond
      | BreakStmt => SBreak
      | ContinueStmt => SContinue
      | SwitchStmt e cases dflt =>
          SSwitch e ((λ c, match c with CaseClause es b => Case es (shape <$> b) end) <$> cases)
            match dflt with Some b => Some (shape <$> b) | None => None end
      | LockStmt e b => SLock e (shape <$> b)
      | TryCatchStmt b catches finally =>
          STryCatch (shape <$> b) ((λ c, match c with CatchClause ts x b => Catch ts x (shape <$> b) end) <$> catches)
            match finally with Some b => Some (shape <$> b) | None => None end
      | ThrowStmt e => SThrow e
      | BailStmt e => SBail e
      | DeferCall name args => SDefer (SCall name args)
      | DeferExpr e => SDefer (SExpr e)
      | NakedBlockStmt b => SNakedBlock (shape <$> b)
      | InlineBlockStmt b => SInlineBlock (shape <$> b)
      | ScopeBlockStmt callbacks b => SScopeBlock (c ← callbacks; cb_args c) (shape <$> b)
      end
  end.

Definition isTerminator (s : statement) : bool := isTerminatorStmt (shape s).

(** ** State *)

(** The members of [VarInfo] that [Ownership] leaves out: [scopeDepth] and [isConst]. *)
Record Declared := { dc_scopeDepth : Z; dc_isConst : bool }.

Record Scopes := {
  sc_const : ConstState;
  sc_declared : gmap string Declared;
  sc_imports : gmap string InjectedVariant;
  sc_scopeDepth : Z;
  sc_loopDepth : Z;
  sc_labels : gset string;
  sc_asmLabels : gset string }.

#[export] Instance settable_Scopes : Settable Scopes := λ s,
  Build_Scopes (sc_const s) (sc_declared s) (sc_imports s) (sc_scopeDepth s) (sc_loopDepth s)
    (sc_labels s) (sc_asmLabels s).

Notation SM := (M Scopes).

Definition typer (s : Scopes) : Typer := cs_typer (sc_const s).
Definition locals (s : Scopes) : gmap string VarInfo := locals_ (ty_checker (typer s)).
Definition varTypes (s : Scopes) : gmap string (option tyref) := ty_varTypes (typer s).

Definition setTyper (f : Typer → Typer) (s : Scopes) : Scopes :=
  s <| sc_const := (sc_const s) <| cs_typer := f (typer s) |> |>.

(** The variables become [vs], with types [ts]. *)
Definition setLocals (vs : gmap string VarInfo) (ts : gmap string (option tyref)) : Scopes → Scopes :=
  setTyper (λ t, t <| ty_checker := (ty_checker t) <| locals_ := vs |> |> <| ty_varTypes := ts |>).

(** A step of the smaller states. *)
Definition onTyper {A} (m : T A) : SM A := λ s,
  match m (typer s) with
  | ROk a t => ROk a (setTyper (λ _, t) s)
  | RThrow x t => RThrow x (setTyper (λ _, t) s)
  | RUndef => RUndef
  | RNoFuel => RNoFuel
  end.

Definition onConst {A} (m : CT A) : SM A := λ s,
  match m (sc_const s) with
  | ROk a c => ROk a (s <| sc_const := c |>)
  | RThrow x c => RThrow x (s <| sc_const := c |>)
  | RUndef => RUndef
  | RNoFuel => RNoFuel
  end.

Definition whenS (b : bool) (m : SM unit) : SM unit := if b then m else mret ().

Fixpoint eachS {A} (f : A → SM unit) (l : list A) : SM unit :=
  match l with [] => mret () | a :: l => f a;; eachS f l end.

Definition errorAtS (ctx : context) (msg : string) : SM unit := onTyper (onChecker (error ctx msg)).
Definition warningS (ctx : context) (msg : string) : SM unit := onTyper (onChecker (warning ctx msg)).
Definition undefS {A} : SM A := λ _, RUndef.

(** ** Variables *)

(** [locals_[x] = vi] *)
Definition declare (x : string) (vi : VarInfo) (p : option tyref) (d : Declared) : SM unit :=
  modifyS (λ s, setLocals (<[x := vi]> (locals s)) (<[x := p]> (varTypes s)) s
                <| sc_declared := <[x := d]> (sc_declared s) |>).

(** [locals_.erase(x)] *)
Definition forget (x : string) : SM unit :=
  modifyS (λ s, setLocals (delete x (locals s)) (delete x (varTypes s)) s
                <| sc_declared := delete x (sc_declared s) |>).

(** [{type, dims, {}, true, true, nullptr}] *)
Definition boundVar (t : option TypeInfo) (dims : Z) : VarInfo :=
  (newVar t) <| vi_arrayDims := dims |> <| vi_used := true |>.

Definition bindVar (x : string) (p : option tyref) (dims : Z) : SM unit :=
  t ← onTyper (infoOpt p);
  declare x (boundVar t dims) p {| dc_scopeDepth := 0; dc_isConst := false |}.

Definition isConstVar (s : Scopes) (x : string) : bool :=
  match sc_declared s !! x with Some d => dc_isConst d | None => false end.

(** Whether the current scope has a variable of that name. *)
Definition redeclared (s : Scopes) (x : string) : bool :=
  bool_decide (is_Some (locals s !! x)) &&
  bool_decide (dc_scopeDepth <$> sc_declared s !! x = Some (sc_scopeDepth s)).

(** *** Scopes *)

(** The variables, and with [imports] the variants, are what they were in [saved]. *)
Definition leaveScope (imports : bool) (saved : Scopes) (s : Scopes) : Scopes :=
  let s' := setLocals (restoreLocals (locals saved) (locals s)) (varTypes saved) s
              <| sc_declared := sc_declared saved |> in
  if imports then s' <| sc_imports := sc_imports saved |> else s'.

(** A body in a scope of its own; the variables of the outer scopes it has initialized. *)
Definition inScope {A} (imports : bool) (body : SM A) : SM (gset string) :=
  saved ← getS;
  modifyS (λ s, s <| sc_scopeDepth := sc_scopeDepth s + 1 |>);;
  body;;
  modifyS (λ s, s <| sc_scopeDepth := sc_scopeDepth s - 1 |>);;
  s ← getS;
  modifyS (leaveScope imports saved);;
  mret (newlyInitialized (locals saved) (locals s)).

Definition inLoop {A} (body : SM A) : SM A :=
  modifyS (λ s, s <| sc_loopDepth := sc_loopDepth s + 1 |>);;
  a ← body;
  modifyS (λ s, s <| sc_loopDepth := sc_loopDepth s - 1 |>);;
  mret a.

(** What is initialized in every branch is initialized afterwards. *)
Definition markInitialized (xs : gset string) : SM unit :=
  modifyS (λ s, setLocals
    (map_imap (λ x vi, Some (if decide (x ∈ xs) then vi <| vi_initialized := true |> else vi)) (locals s))
    (varTypes s) s).

Definition intersection_all (ls : list (gset string)) : gset string :=
  match ls with [] => ∅ | l :: ls => fold_left (λ a b, a ∩ b) ls l end.

(** ** Array sizes *)

Fixpoint extractArraySizesFromSpec (values : gmap string ComptimeValue) (ts : typeSpec) : outcome (list Z) :=
  match ts with
  | TSArray d t =>
      n ← match d with
          | DimLit text => v ← stoull 10 text; Ret [to_uint32 v]
          | DimName x => Ret match values !! x with Some (intVal z) => [to_uint32 z] | _ => [] end
          | DimNone => Ret []
          end;
      l ← extractArraySizesFromSpec values t;
      Ret (n ++ l)
  | _ => Ret []
  end.

Definition isRangeExpr (e : expr) : bool :=
  match e with EBin BRange _ _ _ | EBin BRangeIncl _ _ _ => true | _ => false end.

Section statements.
Context (g : Tables) (ct : CallTables) (st : CallStmtTables) (fuel : nat) (position : expr → context).
Context (resolveTypeSpec resolveTypeSpecInContext : option string → T (option tyref * Z)).
Context (constTypeSpec : string → option TypeInfo) (declarator : ExportedSymbol → option Declarator).
(** The rest of the expressions, with the variants in scope. *)
Context (resolveRest : gmap string InjectedVariant → expr → T (option tyref)).
Context (restDims : gmap string InjectedVariant → expr → T Z).
(** [resolveTypeSpecWithSubst(_, activeTypeSubst_, _)], if there are substitutions. *)
Context (withSubst : option (string → T (option tyref * Z))).
(** [isDeclActive] *)
Context (isActive : attributes → bool).
(** [currentReturnType_] and the type of the function the block belongs to. *)
Context (currentReturnType retType : option tyref).

(** The tables as they are now. *)
Definition tables (s : Scopes) : Tables :=
  g <| moduleRegistry_ := cs_modules (sc_const s) |>
    <| enumVariantImports_ := iv_enumType <$> sc_imports s |>.

Definition reading {A} (m : Scopes → T A) : SM A := λ s, onTyper (m s) s.

(** A computation of [ExprType] or [AssignStmts] with the tables as they are now. *)
Notation now f s := (f (tables s) fuel position resolveTypeSpec resolveTypeSpecInContext constTypeSpec
  declarator (resolveRest (sc_imports s)) (restDims (sc_imports s))).

Definition typeT (s : Scopes) : expr → T (option tyref) := now resolveExprType s.
Definition dimsT (s : Scopes) : expr → T Z := now resolveExprArrayDims s.
Definition typeE (e : expr) : SM (option tyref) := reading (λ s, typeT s e).
Definition dimsE (e : expr) : SM Z := reading (λ s, dimsT s e).
Definition infoE (p : option tyref) : SM (option TypeInfo) := onTyper (infoOpt p).

(** The type of an expression, looked up. *)
Definition typed (e : expr) : SM (option TypeInfo) := p ← typeE e; infoE p.

Definition specE (ts : string) : SM (option tyref * Z) := onTyper (resolveTypeSpec (Some ts)).

(** The specifier of a loop variable. *)
Definition substSpecE (ts : string) : SM (option tyref * Z) :=
  onTyper match withSubst with Some f => f ts | None => resolveTypeSpec (Some ts) end.

(** [if (l && r && !isAssignable(l, r)) error(ctx, msg)] *)
Definition unlessAssignableS (ctx : context) (l r : option tyref) (msg : string → string → string) : SM unit :=
  onTyper (unlessAssignable fuel ctx l r msg).

(** [evaluateConstExpr] *)
Definition constE (e : expr) : SM (option ComptimeValue) :=
  s ← getS;
  liftO (evaluateConstExpr (te_types (ty_env (typer s))) (ty_compileTimeValues (typer s)) constTypeSpec e).

Definition constBool (e : expr) : SM (option bool) :=
  v ← constE e; mret match v with Some (boolVal b) => Some b | _ => None end.

Definition checkCondition (ctx : context) (what : string) (cond : expr) : SM unit :=
  t ← typed cond;
  match t with
  | Some ti => whenS (negb (isConditionType t)) (errorAtS ctx
      (what +:+ "condition has type " +:+ quote (ti_name ti) +:+ ", expected 'bool' or numeric type"))
  | None => mret ()
  end.

(** ** Declarations *)

(** A constant that is no variable yet is one of this scope. *)
Definition checkConstDeclarator (d : ConstDeclarator) : SM unit :=
  let x := cdecl_name d in
  s ← getS;
  (if bool_decide (locals s !! x = None)
   then modifyS (λ s, s <| sc_declared := <[x := {| dc_scopeDepth := sc_scopeDepth s; dc_isConst := true |}]>
                                            (sc_declared s) |>)
   else mret ());;
  onConst (now ConstDecl.checkConstDeclarator s d).

Definition checkConstDeclStmt (attrs : attributes) (ds : list ConstDeclarator) : SM unit :=
  if isActive attrs then eachS checkConstDeclarator ds else mret ().

(** [VarInfo vi{type, dims, sizes, true, false, nullptr}] initialized with [e] *)
Definition declareVar (x : string) (p : option tyref) (dims : Z) (e : expr) : SM unit :=
  t ← infoE p;
  s ← getS;
  declare x (updateOwnershipOnInitialization (locals s) ((newVar t) <| vi_arrayDims := dims |>) (Some e)) p
    {| dc_scopeDepth := sc_scopeDepth s; dc_isConst := false |}.

Definition storeValue (x : string) (e : expr) : SM unit :=
  v ← constE e;
  match v with
  | Some v => modifyS (setTyper (λ t, t <| ty_compileTimeValues := <[x := v]> (ty_compileTimeValues t) |>))
  | None => mret ()
  end.

Definition moved (e : expr) (ctx : context) : SM unit := onTyper (onChecker (markExprAsMoved e ctx)).

Definition alreadyDeclared (ctx : context) (x : string) : SM unit :=
  errorAtS ctx ("variable " +:+ quote x +:+ " already declared in this scope").

(** *** [auto (x, y) = e] *)

Fixpoint destructure (ctx : context) (names : list string) (elements : list (option tyref)) (e : expr) : SM unit :=
  match names, elements with
  | x :: names, p :: elements =>
      s ← getS;
      (if redeclared s x then alreadyDeclared ctx x else declareVar x p 0 e);;
      destructure ctx names elements e
  | _, _ => mret ()
  end.

Definition checkDestructure (ctx : context) (names : list string) (init : option expr) : SM unit :=
  match init with
  | None => errorAtS ctx "tuple destructuring requires an initializer"
  | Some e =>
      t ← typed e;
      match match t with Some t => if hasKind TK.Tuple t then Some t else None | None => None end with
      | None => errorAtS ctx "tuple destructuring requires a tuple expression"
      | Some t =>
          if negb (length names =? length (ti_tupleElements t))%nat then
            errorAtS ctx ("tuple destructuring expects " +:+ count (length (ti_tupleElements t)) +:+
                          " variables, got " +:+ count (length names))
          else destructure ctx names (ti_tupleElements t) e;; moved e ctx
      end
  end.

(** *** [T x = e, y] *)

(** [IDENTIFIER()] of a specifier. *)
Definition specIdentifier (ts : typeSpec) : option string :=
  match ts with TSIdent x | TSGeneric x _ | TSArray (DimName x) _ => Some x | _ => None end.

(** The type of [M::T x]. *)
Definition qualifiedType (ctx : context) (prefix typeName : string) : SM (option tyref) :=
  s ← getS;
  let exported := match cs_modules (sc_const s) with
                  | Some m => bool_decide (is_Some (findSymbol m prefix typeName))
                  | None => true
                  end in
  if negb exported then
    errorAtS ctx ("'" +:+ prefix +:+ "::" +:+ typeName +:+ "' is not exported");; mret None
  else
    p ← onTyper (lookupT typeName);
    match p with
    | None =>
        errorAtS ctx ("type " +:+ quote typeName +:+ " from module " +:+ quote prefix +:+
          " is not imported; add 'use " +:+ prefix +:+ "::" +:+ typeName +:+ ";'");; mret None
    | Some p => mret (Some p)
    end.

Definition declaredSpec (ctx : context) (prefix : option string) (ts : typeSpec) : SM (option tyref * Z) :=
  match withSubst, prefix, specIdentifier ts with
  | Some f, _, _ => onTyper (f (getText ts))
  | None, Some prefix, Some typeName => p ← qualifiedType ctx prefix typeName; mret (p, 0)
  | None, _, _ => specE (getText ts)
  end.

(** The type [auto] stands for: that of the first initializer, whose dimensions are those of
    every variable.  [None] after an error. *)
Fixpoint inferAuto (ctx : context) (ds : list VarDeclarator) : SM (option (tyref * Z)) :=
  match ds with
  | [] => errorAtS ctx "type 'auto' requires at least one initializer expression";; mret None
  | d :: ds =>
      match vd_expression d with
      | None => inferAuto ctx ds
      | Some e =>
          p ← typeE e;
          t ← infoE p;
          match p, t with
          | Some p, Some t =>
              if hasKind TK.Void t then
                errorAtS (vd_ctx d) ("cannot infer auto type for variable " +:+ quote (vd_name d));; mret None
              else n ← dimsE e; mret (Some (p, n))
          | _, _ =>
              errorAtS (vd_ctx d) ("cannot infer auto type for variable " +:+ quote (vd_name d));; mret None
          end
      end
  end.

(** The last initializer, which variables without one are given. *)
Definition lastInit (ds : list VarDeclarator) : option expr :=
  List.last (vd_expression <$> filter (λ d, is_Some (vd_expression d)) ds) None.

(** What follows the declaration of [x], initialized with [e]. *)
Definition trackDeclared (ctx : context) (x : string) (e : expr) (t : option TypeInfo) : SM unit :=
  storeValue x e;;
  moved e ctx;;
  onTyper (liftC (trackVarBufferFromExpr x e t));;
  onTyper (liftC (trackVarNumericRangeFromExpr x e t)).

Definition arraySizesE (ts : typeSpec) : SM (list Z) :=
  s ← getS; liftO (extractArraySizesFromSpec (ty_compileTimeValues (typer s)) ts).

Definition declareAuto (ctx : context) (p : tyref) (dims : Z) (ts : typeSpec) (last : option expr)
    (d : VarDeclarator) : SM unit :=
  let x := vd_name d in
  match vd_expression d with
  | None =>
      match last with
      | None => errorAtS (vd_ctx d) ("type 'auto' requires an initializer for " +:+ quote x)
      | Some e => arraySizesE ts;; declareVar x (Some p) dims e
      end
  | Some e =>
      q ← typeE e;
      t ← infoE q;
      if isRangeExpr e then
        errorAtS (vd_ctx d) ("cannot infer type for " +:+ quote x +:+ ": range expression has no concrete type")
      else match t with
      | None => errorAtS (vd_ctx d) ("cannot infer type for " +:+ quote x)
      | Some ti =>
          if hasKind TK.Void ti then
            errorAtS (vd_ctx d) ("cannot infer type: initializer for " +:+ quote x +:+ " has type 'void'")
          else
            arraySizesE ts;;
            declareVar x q dims e;;
            trackDeclared ctx x e t
      end
  end.

(** A variable without an initializer of its own. *)
Definition declareBare (x : string) (p : tyref) (dims : Z) (ts : typeSpec) (propagated : bool) : SM unit :=
  t ← infoE (Some p);
  arraySizesE ts;;
  s ← getS;
  let autoInit := propagated || isKind TK.Extended t || isKind TK.Struct t || (0 <? dims) in
  declare x ((newVar t) <| vi_arrayDims := dims |> <| vi_initialized := autoInit |>
               <| vi_ownership := if autoInit && isDropTrackedType t dims then OS.Owned else OS.BorrowedImm |>)
    (Some p) {| dc_scopeDepth := sc_scopeDepth s; dc_isConst := false |}.

(** The elements of a literal for a collection. *)
Definition checkElements (t : TypeInfo) (es : list expr) : SM unit :=
  eachS (λ e,
    p ← typeE e;
    unlessAssignableS (position e) (ti_elementType t) p (λ a b,
      "element type mismatch: expected " +:+ quote a +:+ ", got " +:+ quote b)) es.

(** [[N]uint8 x = c".."]: whether the sizes agree; there may be an error about them. *)
Definition cstringFits (d : VarDeclarator) (t : TypeInfo) (sizes : list Z) (e : expr) : SM bool :=
  match e with
  | ELit CStrLit _ =>
      if bool_decide (ti_name t = "uint8") || bool_decide (ti_name t = "char") then
        len ← liftO (tryGetCStringLiteralLen e);
        match len with
        | None => mret false
        | Some n =>
            let inferred := to_uint32 (n + 1) in
            match sizes with
            | [] => mret true
            | size :: _ =>
                if size =? inferred then mret true else
                errorAtS (vd_ctx d) ("c-string literal length (" +:+ to_string inferred +:+
                  ") does not match array size (" +:+ to_string size +:+ ")");; mret false
            end
        end
      else mret false
  | _ => mret false
  end.

(** An initializer of type [q] that is no literal of a collection. *)
Definition checkValue (d : VarDeclarator) (p : tyref) (t : TypeInfo) (dims : Z) (sizes : list Z) (e : expr)
    (q : option tyref) : SM unit :=
  let x := vd_name d in
  n ← onTyper (notAssignable fuel (Some p) q);
  it ← infoE q;
  if n : bool then
    fits ← (if (0 <? dims) && isKind TK.Pointer it then cstringFits d t sizes e else mret false);
    if fits : bool then mret () else
    match it with
    | Some it => errorAtS (vd_ctx d) ("type mismatch: cannot assign " +:+ quote (ti_name it) +:+
        " to variable " +:+ quote x +:+ " of type " +:+ quote (ti_name t))
    | None => undefS
    end
  else match it with
  | Some _ =>
      if (dims =? 0) && isArrayLit e then
        errorAtS (vd_ctx d) ("type mismatch: cannot assign array literal to non-array variable " +:+ quote x)
      else whenS ((0 <? dims) && negb (isArrayLit e) && isScalarLit e)
        (errorAtS (vd_ctx d) ("type mismatch: cannot assign scalar to array variable " +:+ quote x))
  | None => mret ()
  end.

(** The initializer against the declared type; [false] is the [continue] after an error. *)
Definition checkInit (d : VarDeclarator) (p : tyref) (t : TypeInfo) (dims : Z) (sizes : list Z) (e : expr)
    (q : option tyref) : SM bool :=
  match hasKind TK.Extended t, e with
  | true, EArray es =>
      if bool_decide (ti_extendedKind t = "Map") then
        errorAtS (vd_ctx d) "Map cannot be initialized with a literal; use method 'set' to add entries";;
        mret false
      else checkElements t es;; mret true
  | _, _ => checkValue d p t dims sizes e q;; mret true
  end.

Definition declareTyped (ctx : context) (p : tyref) (dims : Z) (ts : typeSpec) (last : option expr)
    (d : VarDeclarator) : SM unit :=
  let x := vd_name d in
  match vd_expression d with
  | None => declareBare x p dims ts (bool_decide (is_Some last))
  | Some e =>
      q ← typeE e;
      if isRangeExpr e then
        errorAtS (vd_ctx d) ("type mismatch: cannot initialize variable " +:+ quote x +:+ " with a range expression")
      else
        sizes ← arraySizesE ts;
        t ← onTyper (infoT p);
        ok ← checkInit d p t dims sizes e q;
        if ok : bool then
          reading (λ s, checkNegativeToUnsigned (tables s) (vd_ctx d) (Some t) e);;
          declareVar x (Some p) dims e;;
          trackDeclared ctx x e (Some t)
        else mret ()
  end.

Definition checkVarDecl (ctx : context) (prefix : option string) (ts : typeSpec) (ds : list VarDeclarator) : SM unit :=
  let each f := eachS (λ d, s ← getS; if redeclared s (vd_name d) then alreadyDeclared (vd_ctx d) (vd_name d) else f d) ds in
  if is_auto ts then
    match ds with
    | [] => mret ()
    | _ =>
        r ← inferAuto ctx ds;
        match r with
        | None => mret ()
        | Some (p, dims) => each (declareAuto ctx p dims ts (lastInit ds))
        end
    end
  else
    r ← declaredSpec ctx prefix ts;
    match r.1 with
    | None => mret ()
    | Some p => each (declareTyped ctx p r.2 ts (lastInit ds))
    end.

(** ** Simple statements *)

Definition checkUse (ctx : context) (wildcard : string) : SM unit :=
  r ← specE wildcard;
  t ← infoE r.1;
  match t with
  | None => errorAtS ctx "unknown type in 'use' wildcard"
  | Some ti =>
      if negb (hasKind TK.Enum ti) then errorAtS ctx ("type " +:+ quote (ti_name ti) +:+ " is not an enum")
      else if 0 <? r.2 then errorAtS ctx "cannot use array type in 'use' wildcard"
      else eachS (λ v,
        s ← getS;
        match sc_imports s !! ev_name v with
        | None => modifyS (λ s, s <| sc_imports :=
            <[ev_name v := {| iv_enumType := r.1; iv_variantInfo := v |}]> (sc_imports s) |>)
        | Some iv =>
            n ← onTyper (nameT (iv_enumType iv));
            errorAtS ctx ("ambiguous variant name " +:+ quote (ev_name v) +:+ ": already imported from " +:+ quote n)
        end) (ti_enumVariantInfos ti)
  end.

Definition checkAssignmentStmt (ctx : context) (a : assignment) : SM unit :=
  reading (λ s, now checkAssignment s (isConstVar s) ctx a).

Definition checkCall (ctx : context) (name : string) (args : option (list expr)) : SM unit :=
  reading (λ s, checkCallStmt (tables s) ct st fuel position (typeT s) (dimsT s) ctx name args).

Definition unquoted (text : string) : string := str_drop 1 (str_take (String.length text - 1) text).

Definition firstIs (p : Ascii.ascii → bool) (s : string) : bool :=
  match s with String c _ => p c | EmptyString => false end.

Definition checkAsmOutput (o : AsmOutput) : SM unit :=
  let c := unquoted (ao_constraint o) in
  (if bool_decide (c = "") then errorAtS (ao_ctx o) "asm output constraint cannot be empty"
   else whenS (negb (firstIs (λ a, bool_decide (a = "="%char) || bool_decide (a = "+"%char) || is_digit a) c))
     (errorAtS (ao_ctx o) ("asm output constraint must start with '=', '+', or a digit (got " +:+ quote c +:+ ")")));;
  match ao_name o with
  | None => mret ()
  | Some x =>
      s ← getS;
      if bool_decide (is_Some (locals s !! x)) then onTyper (onChecker (markUsed x))
      else errorAtS (ao_ctx o) ("undefined variable " +:+ quote x +:+ " in asm output")
  end.

Definition checkAsmOperand (numOutputs : nat) (o : AsmOperand) : SM unit :=
  let c := unquoted (ai_constraint o) in
  (if bool_decide (c = "") then errorAtS (ai_ctx o) "asm input constraint cannot be empty"
   else if firstIs (λ a, bool_decide (a = "="%char)) c then
     errorAtS (ai_ctx o) "asm input constraint cannot use '=' (reserved for outputs)"
   else if firstIs (λ a, bool_decide (a = "+"%char)) c then
     errorAtS (ai_ctx o) "asm input constraint cannot use '+' (use in output with '+r' instead)"
   else if firstIs is_digit c then
     i ← liftO (stoi c);
     whenS (Z.of_nat numOutputs <=? i) (errorAtS (ai_ctx o)
       ("asm matching constraint " +:+ quote c +:+ " refers to output " +:+ c +:+ " but there " +:+
        (if (numOutputs =? 1)%nat then "is only 1 output" else "are only " +:+ count numOutputs +:+ " outputs")))
   else mret ());;
  typeE (ai_expression o);; mret ().

Definition checkAsmStmt (ctx : context) (a : Asm) : SM unit :=
  whenS (negb (asm_volatile a) && bool_decide (asm_outputs a = None))
    (warningS ctx "asm statement with no outputs should be 'asm volatile'");;
  eachS checkAsmOutput (default [] (asm_outputs a));;
  eachS (checkAsmOperand (length (default [] (asm_outputs a)))) (asm_inputs a);;
  modifyS (λ s, s <| sc_asmLabels := sc_asmLabels s ∪ list_to_set (asm_labels a) |>).

Definition checkLabel (ctx : context) (name : string) : SM unit :=
  s ← getS;
  if decide (name ∈ sc_labels s) then errorAtS ctx ("duplicate label " +:+ quote name)
  else modifyS (λ s, s <| sc_labels := {[ name ]} ∪ sc_labels s |>).

Definition checkBailStmt (ctx : context) (e : expr) : SM unit :=
  r ← infoE currentReturnType;
  match r with
  | Some ret =>
      if negb (hasKind TK.Fallible ret) then
        errorAtS ctx "'bail' só pode ser usado dentro de função com retorno !T"
      else
        p ← typeE e;
        t ← infoE p;
        match p, t with
        | Some p, Some t =>
            ok ← onTyper (assignableT fuel (ti_errorType ret) (Some p));
            if (ok : bool) || hasKind TK.String t then mret () else
            n ← onTyper (nameT (ti_errorType ret));
            errorAtS ctx ("'bail' type mismatch: expected " +:+ quote n +:+ ", got " +:+ quote (ti_name t))
        | _, _ => mret ()
        end
  | None => errorAtS ctx "'bail' só pode ser usado dentro de função com retorno !T"
  end.

(** [expectedType->kind] *)
Definition checkReturnStmt (ctx : context) (e : option expr) : SM unit :=
  r ← infoE retType;
  match r with
  | None => undefS
  | Some ret =>
      match e with
      | None => whenS (negb (hasKind TK.Void ret))
          (errorAtS ctx ("function with return type " +:+ quote (ti_name ret) +:+ " must return a value"))
      | Some e =>
          if hasKind TK.Void ret then errorAtS ctx "void function should not return a value" else
          p ← typeE e;
          unlessAssignableS ctx retType p (λ a b,
            "return type mismatch: expected " +:+ quote a +:+ ", got " +:+ quote b);;
          moved e ctx
      end
  end.

Definition checkBreak (ctx : context) (what : string) : SM unit :=
  s ← getS;
  whenS (sc_loopDepth s =? 0) (errorAtS ctx (quote what +:+ " used outside of a loop")).

(** [cBindings_->findFunction] *)
Definition findCFunction (name : string) : bool :=
  match cBindings_ ct with Some m => bool_decide (is_Some (m !! name)) | None => false end.

Definition checkCallback (cb : ScopeCallback) : SM unit :=
  s ← getS;
  (if cb_dot cb then
     let x := default "" (cb_ids cb !! 0%nat) in
     whenS (bool_decide (locals s !! x = None))
       (warningS (cb_ctx cb) ("unknown variable " +:+ quote x +:+ " in #scope callback"))
   else match cb_ids cb with
   | f :: _ => whenS (negb (isKnownFunction (tables s) ct st f) && negb (findCFunction f))
       (warningS (cb_ctx cb) ("unknown function " +:+ quote f +:+ " in #scope callback"))
   | [] => undefS
   end);;
  eachS (λ e, typeE e;; mret ()) (cb_args cb).

(** ** Conditions *)

(** The name [e is T::V(x)] binds, with the type of the payload. *)
Definition extractIsBinding (cond : expr) : SM (option (string * option tyref)) :=
  match cond with
  | EIs _ ts (Some (variant, Some x)) =>
      r ← specE ts;
      t ← infoE r.1;
      match t with
      | Some ti =>
          match hasKind TK.Enum ti, findEnumVariantInfo variant ti with
          | true, Some v =>
              match ev_payloadKind v, ev_payloadFields v with
              | PayloadTuple, [f] => mret (Some (x, fi_typeInfo f))
              | _, _ => mret None
              end
          | _, _ => mret None
          end
      | None => mret None
      end
  | _ => mret None
  end.

(** A branch, with the binding of its condition, unless it is dead. *)
Definition checkBranch (cond : expr) (dead : bool) (body : SM (gset string)) : SM (gset string) :=
  b ← extractIsBinding cond;
  match b with
  | Some (x, Some p) => bindVar x (Some p) 0
  | _ => mret ()
  end;;
  inits ← (if dead then mret ∅ else body);
  match b with
  | Some (x, _) => whenS (negb (bool_decide (x = ""))) (forget x)
  | None => mret ()
  end;;
  mret inits.

(** ** Switches *)

Definition coveredVariants (labels : list expr) : gset string :=
  list_to_set (omap (λ e, match e with EEnumAccess _ v => Some v | _ => None end) labels).

Definition missingVariants (t : TypeInfo) (labels : list expr) : list string :=
  filter (λ v, v ∉ coveredVariants labels) (ti_enumVariants t).

Definition checkExhaustive (ctx : context) (t : TypeInfo) (labels : list expr) : SM unit :=
  match missingVariants t labels with
  | [] => mret ()
  | missing => warningS ctx
      ("switch on enum " +:+ quote (ti_name t) +:+ " is not exhaustive. Missing: " +:+
       str_join ", " ((λ v, quote (ti_name t +:+ "::" +:+ v)) <$> missing) +:+
       ". Add a 'default' clause or handle all variants")
  end.

Definition checkSubject (ctx : context) (t : option TypeInfo) : SM unit :=
  match t with
  | Some ti => whenS (negb (isInteger t) && negb (bool_decide (ti_name ti = "char")) && negb (hasKind TK.Enum ti))
      (errorAtS ctx ("switch expression must be an integer, char or enum type, got " +:+ quote (ti_name ti)))
  | None => mret ()
  end.

(** ** Blocks *)

Section blocks.
(** [checkStmt]; it answers whether control leaves the statement. *)
Context (check : statement → SM bool).

(** The loop of [checkBlock]. *)
Fixpoint checkStatements (terminated : bool) (b : list statement) : SM bool :=
  match b with
  | [] => mret terminated
  | s :: b =>
      if terminated then warningS (placeOf s) "unreachable code";; mret true
      else t ← check s; checkStatements t b
  end.

Definition checkBlock (b : list statement) : SM (gset string) := inScope true (checkStatements false b).

(** [checkIfBodyTracked] *)
Definition checkIfBody (body : ifBody) : SM (gset string) :=
  match body with
  | BodyOfBlock b => checkBlock b
  | BodyOfStatement s => inScope false (check s)
  end.

(** The loop over the else-ifs: the sets of initialized variables, and whether what follows
    is dead. *)
Fixpoint checkElseIfs (elifs : list elseIf) (inits : list (gset string)) : SM (list (gset string) * bool) :=
  match elifs with
  | [] => mret (inits, false)
  | ElseIfClause ctx cond body :: elifs =>
      checkCondition ctx "" cond;;
      c ← constBool cond;
      i ← checkBranch cond (bool_decide (c = Some false)) (checkIfBody body);
      if bool_decide (c = Some true) then mret (inits ++ [i], true)
      else checkElseIfs elifs (inits ++ [i])
  end.

Definition checkIfStmt (ctx : context) (cond : expr) (body : ifBody) (elifs : list elseIf)
    (els : option ifBody) : SM unit :=
  checkCondition ctx "" cond;;
  c ← constBool cond;
  i ← checkBranch cond (bool_decide (c = Some false)) (checkIfBody body);
  r ← (if bool_decide (c = Some true) then mret ([i], true) else checkElseIfs elifs [i]);
  match els with
  | None => mret ()
  | Some els =>
      inits ← (if r.2 : bool then mret r.1 else j ← checkIfBody els; mret (r.1 ++ [j]));
      markInitialized (intersection_all inits)
  end.

Fixpoint checkCases (cases : list caseClause) : SM unit :=
  match cases with
  | [] => mret ()
  | CaseClause labels b :: cases => eachS (λ e, typeE e;; mret ()) labels;; checkBlock b;; checkCases cases
  end.

Definition checkOptBlock (b : option (list statement)) : SM unit :=
  match b with Some b => checkBlock b;; mret () | None => mret () end.

Definition checkSwitchStmt (ctx : context) (e : expr) (cases : list caseClause)
    (dflt : option (list statement)) : SM unit :=
  t ← typed e;
  checkSubject ctx t;;
  checkCases cases;;
  checkOptBlock dflt;;
  match t, dflt with
  | Some ti, None =>
      if hasKind TK.Enum ti
      then checkExhaustive ctx ti (c ← cases; match c with CaseClause labels _ => labels end)
      else mret ()
  | _, _ => mret ()
  end.

(** The variable of a [catch] hides one of the same name, which comes back. *)
Definition withCatchVar (x : string) (p : option tyref) (dims : Z) (body : SM (gset string)) : SM unit :=
  s ← getS;
  match p with Some _ => bindVar x p dims | None => mret () end;;
  body;;
  match locals s !! x with
  | Some vi => declare x vi (default None (varTypes s !! x))
                 (default {| dc_scopeDepth := 0; dc_isConst := false |} (sc_declared s !! x))
  | None => forget x
  end.

Fixpoint checkCatches (catches : list catchClause) : SM unit :=
  match catches with
  | [] => mret ()
  | CatchClause ts x b :: catches =>
      r ← specE ts;
      withCatchVar x r.1 r.2 (checkBlock b);;
      checkCatches catches
  end.

Definition checkIterable (ctx : context) (iterType : option TypeInfo) (e : expr) (t : option TypeInfo) : SM unit :=
  match isRangeExpr e, t with
  | false, Some ti =>
      if hasKind TK.Extended ti then mret () else
      if hasKind TK.Integer ti then
        match iterType with
        | Some it => whenS (negb (hasKind TK.Integer it)) (errorAtS ctx
            ("cannot iterate over integer " +:+ quote (ti_name ti) +:+ " with loop variable of type " +:+
             quote (ti_name it) +:+ ", expected an integer type"))
        | None => mret ()
        end
      else errorAtS ctx ("cannot iterate over type " +:+ quote (ti_name ti) +:+
                         ", expected a Vec, Map, Set, or integer range")
  | _, _ => mret ()
  end.

Definition bindLoopVar (x : string) (r : option tyref * Z) : SM unit :=
  match r.1 with Some _ => bindVar x r.1 r.2 | None => mret () end.

Definition checkForInStmt (ctx : context) (ts x : string) (e : expr) (b : list statement) : SM unit :=
  r ← substSpecE ts;
  iterType ← infoE r.1;
  t ← typed e;
  checkIterable ctx iterType e t;;
  bindLoopVar x r;;
  inLoop (checkBlock b);;
  forget x.

Definition checkForClassicStmt (ctx : context) (ts x : string) (init cond update : expr)
    (b : list statement) : SM unit :=
  r ← substSpecE ts;
  p ← typeE init;
  unlessAssignableS ctx r.1 p (λ a b,
    "for init type mismatch: expected " +:+ quote a +:+ ", got " +:+ quote b);;
  bindLoopVar x r;;
  checkCondition ctx "for " cond;;
  typeE update;;
  inLoop (checkBlock b);;
  forget x.
End blocks.

(** ** [checkStmt] *)

Fixpoint checkStmt (s : statement) : SM bool :=
  match s with
  | Stmt ctx k =>
      t ← match k with
          | UseDecl attrs wildcard =>
              (if isActive attrs then match wildcard with Some ts => checkUse ctx ts | None => mret () end
               else mret ());; mret false
          | ConstDeclStmt attrs ds => checkConstDeclStmt attrs ds;; mret false
          | VarDestructureStmt attrs names init =>
              (if isActive attrs then checkDestructure ctx names init else mret ());; mret false
          | VarDeclStmt attrs prefix ts ds =>
              (if isActive attrs then checkVarDecl ctx prefix ts ds else mret ());; mret false
          | AssignmentStmt a => checkAssignmentStmt ctx a;; mret false
          | CallStmt name args => checkCall ctx name args;; mret false
          | AsmStmt a => checkAsmStmt ctx a;; mret false
          | LabelDef name s => checkLabel ctx name;; checkStmt s
          | ExprStmt e => typeE e;; mret false
          | ReturnStmt e => checkReturnStmt ctx e;; mret false
          | IfStatement cond body elifs els => checkIfStmt checkStmt ctx cond body elifs els;; mret false
          | ForInStmt ts x e b => checkForInStmt checkStmt ctx ts x e b;; mret false
          | ForClassicStmt ts x init cond update b =>
              checkForClassicStmt checkStmt ctx ts x init cond update b;; mret false
          | LoopStmt b => inLoop (checkBlock checkStmt b);; mret false
          | WhileStmt cond b => checkCondition ctx "" cond;; inLoop (checkBlock checkStmt b);; mret false
          | DoWhileStmt b cond => inLoop (checkBlock checkStmt b);; checkCondition ctx "" cond;; mret false
          | BreakStmt => checkBreak ctx "break";; mret false
          | ContinueStmt => checkBreak ctx "continue";; mret false
          | SwitchStmt e cases dflt => checkSwitchStmt checkStmt ctx e cases dflt;; mret false
          | LockStmt e b => typeE e;; checkBlock checkStmt b;; mret false
          | TryCatchStmt b catches finally =>
              checkBlock checkStmt b;; checkCatches checkStmt catches;; checkOptBlock checkStmt finally;; mret false
          | ThrowStmt e => typeE e;; mret false
          | BailStmt e => checkBailStmt ctx e;; mret false
          | DeferCall name args => checkCall ctx name args;; mret false
          | DeferExpr e => typeE e;; mret false
          | NakedBlockStmt b => checkBlock checkStmt b;; mret false
          | InlineBlockStmt b => checkStatements checkStmt false b
          | ScopeBlockStmt callbacks b =>
              inScope true (checkStatements checkStmt false b;; eachS checkCallback callbacks);; mret false
          end;
      mret (t || isTerminator s)
  end.
End statements.

(** ** [checkFunction] *)

(** A [ParamContext]; an untyped variadic parameter has no name. *)
Record Param := {
  pm_spread : bool;
  pm_name : option string;
  pm_spec : string;
  pm_ctx : context }.

Record FunctionDecl := {
  fd_attributes : attributes;
  fd_generic : bool;
  fd_name : string;
  fd_spec : string;
  fd_params : list Param;
  fd_body : list statement;
  fd_ctx : context }.

Section functions.
Context (g : Tables) (ct : CallTables) (st : CallStmtTables) (fuel : nat) (position : expr → context).
Context (resolveTypeSpec resolveTypeSpecInContext : option string → T (option tyref * Z)).
Context (constTypeSpec : string → option TypeInfo) (declarator : ExportedSymbol → option Declarator).
Context (resolveRest : gmap string InjectedVariant → expr → T (option tyref)).
Context (restDims : gmap string InjectedVariant → expr → T Z).
Context (withSubst : option (string → T (option tyref * Z))).
Context (isActive : attributes → bool).
(** The orders in which hash tables are iterated, and where a variable has been declared. *)
Context (localsOrder : gmap string VarInfo → list (string * VarInfo)).
Context (labelsOrder : gset string → list string).
Context (declToken : string → context).

Notation checkBody ret := (checkBlock (checkStmt g ct st fuel position resolveTypeSpec resolveTypeSpecInContext
  constTypeSpec declarator resolveRest restDims withSubst isActive ret ret)).

(** The loop over the parameters; [i] is [paramIdx]. *)
Fixpoint registerParams (i : nat) (ps : list Param) : SM unit :=
  match ps with
  | [] => mret ()
  | p :: ps =>
      match pm_name p with
      | None => registerParams i ps
      | Some x =>
          r ← onTyper (resolveTypeSpec (Some (pm_spec p)));
          match r.1 with
          | None => registerParams i ps
          | Some _ =>
              s ← getS;
              if bool_decide (is_Some (locals s !! x)) then
                errorAtS (pm_ctx p) ("duplicate parameter name " +:+ quote x);;
                registerParams i ps
              else
                bindVar x r.1 (if pm_spread p then 1 else r.2);;
                onTyper (onChecker (λ c, c <| currentParamIndices_ := <[x := i]> (currentParamIndices_ c) |>));;
                registerParams (S i) ps
          end
      end
  end.

Definition checkAsmLabels (ctx : context) : SM unit :=
  s ← getS;
  eachS (λ l, whenS (bool_decide (l ∉ sc_labels s))
    (errorAtS ctx ("undefined label " +:+ quote l +:+ " in asm goto"))) (labelsOrder (sc_asmLabels s)).

Definition unused (s : Scopes) (x : string) (vi : VarInfo) : bool :=
  negb (vi_used vi) && negb (bool_decide (x = "_")) &&
  negb (match sc_declared s !! x with
        | Some d => dc_isConst d && (dc_scopeDepth d =? 0)
        | None => false
        end).

Definition warnUnusedLocals (ctx : context) : SM unit :=
  s ← getS;
  eachS (λ p, whenS (unused s p.1 p.2)
    (warningS (match declToken p.1 with None => ctx | c => c end)
       ("variable " +:+ quote p.1 +:+ " is declared but never used"))) (localsOrder (locals s)).

(** The registration of a compile-time function is left out. *)
Definition checkFunction (f : FunctionDecl) : SM unit :=
  if negb (isActive (fd_attributes f)) || fd_generic f then mret () else
  r ← onTyper (resolveTypeSpec (Some (fd_spec f)));
  ret ← match r.1 with Some p => mret (Some p) | None => onTyper (lookupT "void") end;
  modifyS (λ s, s <| sc_labels := ∅ |> <| sc_asmLabels := ∅ |>);;
  before ← getS;
  onTyper (onChecker (λ c, c <| currentFnConsumeKey_ := fd_name f |> <| currentParamIndices_ := ∅ |>));;
  registerParams 0 (fd_params f);;
  checkBody ret (fd_body f);;
  onTyper (onChecker (λ c, c
    <| currentFnConsumeKey_ := currentFnConsumeKey_ (ty_checker (typer before)) |>
    <| currentParamIndices_ := currentParamIndices_ (ty_checker (typer before)) |>));;
  checkAsmLabels (fd_ctx f);;
  t ← onTyper (infoOpt ret);
  match t with
  | None => undefS
  | Some t => whenS (negb (hasKind TK.Void t) && negb (blockAlwaysReturns (shape <$> fd_body f)))
      (errorAtS (fd_ctx f) ("function " +:+ quote (fd_name f) +:+ " must return a value of type " +:+
        quote (ti_name t) +:+ " on all code paths"))
  end;;
  warnUnusedLocals (fd_ctx f).
End functions.
