(* ===== verification/StatementKeep.v ===== *)
(** * What checking a statement keeps

    Statements change more of the checker than expressions do, but they never take a diagnostic
    back: [leads] of [ExprTypeKeep] for the statements of [AssignStmts], [CallStmts] and
    [ConstDecl], for relations that only look at the diagnostics.  [steps] is the same for the
    states of [Statements], and [checkStmt_steps] holds for any relation that scopes and loops
    respect. *)

From S2P Require Import Prelude.
From S2P Require Import CxxLib.
From S2P Require Import TypeInfo.
From S2P Require Import Assign.
From S2P Require Import Traits.
From S2P Require Import Syntax.
From S2P Require Import ComptimeValue.
From S2P Require Import ConstEval.
From S2P Require Import Flow.
From S2P Require Import Builtins.
From S2P Require Import Ownership.
From S2P Require Import CBuffer.
From S2P Require Import Attributes.
From S2P Require Import Modules.
From S2P Require Import Imports.
From S2P Require Import ExprType.
From S2P Require Import ExprTypeKeep.
From S2P Require Import ConstDecl.
From S2P Require Import TypeSpec.
From S2P Require Import TypeSpecSafety.
From S2P Require Import GenericInfer.
From S2P Require Import Calls.
From S2P Require Import AssignStmts.
From S2P Require Import AssignSafety.
From S2P Require Import CallStmts.
From S2P Require Import Statements.

(** ** Relations that look at the diagnostics *)

Class Loose (L : Checker → Checker → Prop) := {
  loose_later :: Later L;
  loose_silent c c' : diagnostics_ c' = diagnostics_ c → L c c' }.

Definition anything (c c' : Checker) : Prop := True.

#[export] Instance anything_loose : Loose anything.
Proof. split; [split; [split|..]|]; done. Qed.

#[export] Instance reports_loose : Loose reports.
Proof. split; [apply _|]. intros c c' H. unfold reports, problems. by rewrite H. Qed.

Section loose.
Context {L : Checker → Checker → Prop} `{!Loose L}.

Lemma leads_quiet f : (∀ c, diagnostics_ (f c) = diagnostics_ c) → leads L (onChecker f).
Proof. intros Hf. apply leads_onChecker. intros c. by apply loose_silent. Qed.

Lemma leads_quietC {A} (m : M Checker A) :
  (∀ c, match m c with ROk _ c' | RThrow _ c' => L c c' | _ => True end) → leads L (liftC m).
Proof. intros Hm s. specialize (Hm (ty_checker s)). unfold liftC. by destruct (m _). Qed.

Lemma later_moved e ctx c : L c (markExprAsMoved e ctx c).
Proof.
  unfold markExprAsMoved, recordConsumed, error. repeat case_match; try reflexivity; try by apply loose_silent.
  all: etrans; [|apply later_emit]; by apply loose_silent.
Qed.

Lemma leads_move e ctx : leads L (onChecker (markExprAsMoved e ctx)).
Proof. apply leads_onChecker. intros. apply later_moved. Qed.

Lemma leads_buffer x e t : leads L (liftC (trackVarBufferFromExpr x e t)).
Proof.
  apply leads_quietC. intros c. unfold trackVarBufferFromExpr. destruct (locals_ c !! x); [|reflexivity]. cbv zeta.
  destruct (trackBuffer _ _ _ _ _); try done; try reflexivity; by apply loose_silent.
Qed.

Lemma leads_range x e t : leads L (liftC (trackVarNumericRangeFromExpr x e t)).
Proof.
  apply leads_quietC. intros c. unfold trackVarNumericRangeFromExpr. destruct (locals_ c !! x); [|reflexivity]. cbv zeta.
  destruct (negb _); [by apply loose_silent|].
  destruct (tryEvalUSizeRangeExpr _ _) as [[[]|]| | |]; try done; try reflexivity; by apply loose_silent.
Qed.

Lemma later_builtinArgs reg f ctx args : ∀ i c, L c (builtinArgs reg f i args ctx c).
Proof.
  induction args as [|a args IH]; intros i c; cbn [builtinArgs]; [reflexivity|]. etrans; [|apply IH].
  repeat case_match; try reflexivity. apply later_moved.
Qed.

Lemma later_consumedArgs f args ctx l : ∀ c,
  match consumedArgs f l args ctx c with ROk _ c' | RThrow _ c' => L c c' | _ => True end.
Proof.
  induction l as [|i l IH]; intros c; cbn [consumedArgs]; [change (L c c); reflexivity|]. cbv zeta.
  set (c1 := match args !! i with Some a => _ | None => c end).
  assert (H1 : L c c1). { unfold c1. destruct (args !! i); [apply later_moved|reflexivity]. }
  case_bool_decide; [|done]. specialize (IH c1). destruct (consumedArgs _ _ _ _ c1); try done; by etrans.
Qed.

Lemma later_edges f args : ∀ i c, L c (recordEdges f i args c).
Proof.
  induction args as [|a args IH]; intros i c; cbn [recordEdges]; [reflexivity|]. etrans; [|apply IH].
  unfold recordConsumeEdgeIfParam. repeat case_match; try reflexivity; by apply loose_silent.
Qed.

Lemma leads_effects g position f es e : leads L (effects g position f es e).
Proof.
  apply leads_quietC. intros c. unfold applyCallOwnershipEffects. cbv zeta.
  destruct (if bool_decide (f = "") then None else br_lookup (builtinRegistry_ g) f); [apply later_builtinArgs|].
  match goal with |- context [consumedArgs ?f ?l ?a ?x c] => pose proof (later_consumedArgs f a x l c) as Hc; destruct (consumedArgs f l a x c) end;
    try done. etrans; [exact Hc|apply later_edges].
Qed.

(** Computations of the checker alone. *)
Definition leadsC {A} (m : M Checker A) : Prop := ∀ c, match m c with ROk _ c' | RThrow _ c' => L c c' | _ => True end.

Lemma leadsC_ret {A} (a : A) : leadsC (mret a).
Proof. intros c. change (L c c). reflexivity. Qed.
Lemma leadsC_bind {A B} (m : M Checker A) (f : A → M Checker B) : leadsC m → (∀ a, leadsC (f a)) → leadsC (m ≫= f).
Proof.
  intros Hm Hf c. specialize (Hm c). unfold mbind, M_bind. destruct (m c) as [a c'|x c'| |]; try done.
  specialize (Hf a c'). destruct (f a c'); by try etrans.
Qed.
Lemma leadsC_get : leadsC getS.
Proof. intros c. change (L c c). reflexivity. Qed.
Lemma leadsC_lift {A} (m : outcome A) : leadsC (liftO m).
Proof. intros c. unfold liftO. destruct m; reflexivity || done. Qed.
Lemma leadsC_warn ctx f d : leadsC (warnBuffer ctx f d).
Proof. intros c. unfold warnBuffer, modifyS, warning. apply later_emit. Qed.
Lemma leadsC_mark args l : leadsC (modifyS (λ c, fold_left (λ c i, markEscaped args i c) l c)).
Proof.
  intros c. cbn. apply loose_silent. revert c. induction l as [|i l IH]; intros c; [done|]. cbn [fold_left].
  rewrite IH. unfold markEscaped. by repeat case_match.
Qed.

Lemma leads_analyze ct position f e es : leads L (analyze ct position f e es).
Proof.
  apply leads_quietC. change (leadsC (analyzeUnsafeCBufferCall (cBindings_ ct) f (position e) es)).
  unfold analyzeUnsafeCBufferCall, checkSize, checkSource. cbv zeta.
  repeat first [apply leadsC_ret|apply leadsC_get|apply leadsC_lift|apply leadsC_warn|apply leadsC_mark
    |apply leadsC_bind; [|intros]|case_match].
Qed.
End loose.

#[export] Hint Resolve leads_move leads_buffer leads_range leads_effects leads_analyze loose_later : leads.

(** ** Calls *)

Section calls.
Context {L : Checker → Checker → Prop} `{!Loose L}.

Lemma leads_sequence {A} (l : list (T A)) : Forall (leads L) l → leads L (sequence l).
Proof. induction 1; cbn [sequence]; lead. Qed.

Lemma leads_formatTypes l : leads L (formatParamTypes l).
Proof.
  unfold formatParamTypes. apply leads_bind; [|intros; apply leads_ret]. apply leads_sequence, Forall_fmap, Forall_forall.
  intros [p|] _; cbn; lead.
Qed.
Lemma leads_wrongCount position e what types n : leads L (wrongCount position e what types n).
Proof. apply leads_emit. Qed.
Lemma leads_warning ctx msg : leads L (onChecker (warning ctx msg)).
Proof. apply leads_emit. Qed.
Lemma leads_errorAt position es i msg : leads L (errorAt position es i msg).
Proof. unfold errorAt. lead. Qed.
Lemma leads_builtinType n : leads L (builtinTypeT n).
Proof. intros s. unfold builtinTypeT. destruct (resolveBuiltinReturnType _ n). change (L (ty_checker s) (ty_checker s)). reflexivity. Qed.
Hint Resolve leads_formatTypes leads_wrongCount leads_warning leads_errorAt leads_builtinType : leads.

Lemma leads_findVoid args : ∀ i, leads L (findVoid i args).
Proof. induction args; intros i; cbn [findVoid]; lead. Qed.
Lemma leads_builtinArgs fuel position e f params : ∀ i args, leads L (checkBuiltinArgs fuel position e f i params args).
Proof. induction params as [|p params IH]; intros i [|a args]; cbn [checkBuiltinArgs]; try apply leads_ret. lead. Qed.
Lemma leads_likeFirst position e f t args : ∀ i, leads L (checkLikeFirst position e f t i args).
Proof. induction args; intros i; cbn [checkLikeFirst]; lead. Qed.
Lemma leads_numericArgs position e f args : ∀ i, leads L (checkNumeric position e f i args).
Proof. induction args; intros i; cbn [checkNumeric]; lead. Qed.
Hint Resolve leads_findVoid leads_builtinArgs leads_likeFirst leads_numericArgs : leads.
Lemma leads_polymorphic position e f sig args : leads L (polymorphicArgs position e f sig args).
Proof. unfold polymorphicArgs. lead. Qed.

Lemma leads_unifyParam ctx f inferred x p : leads L (unifyParam ctx f inferred x p).
Proof. unfold unifyParam. lead. Qed.

Lemma leads_unify params ctx f F : ∀ a inferred, leads L (unifyGenericTypeArg params ctx f F a inferred).
Proof.
  induction F as [F IH] using typeSpec_children_ind. intros a inferred. pose proof leads_unifyParam as Hparam.
  assert (Hall : ∀ l, Forall (λ F, ∀ a inferred, leads L (unifyGenericTypeArg params ctx f F a inferred)) l →
    ∀ args inferred, leads L ((fix go (l : list typeSpec) (args : list (option tyref)) (inferred : Inferred) : T (bool * Inferred * bool) :=
      match l, args with
      | t :: l, a :: args => r ← unifyGenericTypeArg params ctx f t a inferred; if r.1.1 : bool then go l args r.1.2 else mret r
      | _, _ => mret (true, inferred, false)
      end) l args inferred)).
  { induction 1 as [|t l Ht _ IHl]; intros [|a' args] inf; cbv beta iota; lead. }
  destruct F; cbn [spec_children] in IH; cbn [unifyGenericTypeArg is_bare is_array];
    repeat match goal with H : Forall _ (_ :: _) |- _ => apply Forall_cons in H as [? H] end; lead.
Qed.

Lemma leads_inferLoop params ctx f formals : ∀ i args inferred, leads L (inferLoop params ctx f i formals args inferred).
Proof.
  pose proof leads_unify. induction formals as [|[F|] formals IH]; intros i [|a args] inferred; cbn [inferLoop]; lead.
Qed.

(** The constraints of type parameters are checked by computations. *)
Definition constraints_lead (tps : list (string * option Constraint)) : Prop :=
  Forall (λ tp, ∀ c p, tp.2 = Some c → leads L (c p)) tps.

Lemma leads_collectArgs ctx f tps : constraints_lead tps → ∀ inferred, leads L (collectArgs ctx f tps inferred).
Proof.
  induction 1 as [|[x [c|]] tps Hc _ IH]; intros inferred; cbn [collectArgs]; try apply leads_ret; cbn in Hc.
  - assert (∀ p, leads L (c p)) by (intros; by apply Hc). lead.
  - lead.
Qed.

Lemma leads_infer ctx f tps formals args : constraints_lead tps → leads L (inferGenericTypeArgs ctx f tps formals args).
Proof. intros Hc. unfold inferGenericTypeArgs. pose proof leads_inferLoop. pose proof (leads_collectArgs ctx f tps Hc). lead. Qed.
End calls.

#[export] Hint Resolve leads_formatTypes leads_wrongCount leads_warning leads_errorAt leads_builtinType leads_findVoid
  leads_builtinArgs leads_polymorphic : leads.

Section call_stmts.
Context {L : Checker → Checker → Prop} `{!Loose L}.
Context (g : Tables) (ct : CallTables) (st : CallStmtTables) (fuel : nat) (position : expr → context).
Context (typeOf : expr → T (option tyref)) (dimsOf : expr → T Z) (stmt : context) (name : string) (args : option (list expr)).
Context (Htype : ∀ e, leads L (typeOf e)) (Hdims : ∀ e, leads L (dimsOf e)).
Hint Resolve Htype Hdims : leads.

(** The same of the instantiation of generic functions and the constraints of their
    parameters. *)
Definition templates_lead : Prop := ∀ tmpl, genericFuncTemplates_ ct !! name = Some tmpl →
  constraints_lead (L := L) (gf_typeParams tmpl) ∧ ∀ ts ctx, leads L (gf_instantiate tmpl ts ctx).

Lemma leads_typedArgs : leads L (typedArgs position typeOf args).
Proof.
  unfold typedArgs. apply leads_bind; [|intros; lead]. apply leads_sequence, Forall_fmap, Forall_forall. intros e _. apply Htype.
Qed.
Lemma leads_argMismatch i p a : leads L (argMismatch fuel stmt name i p a).
Proof. unfold argMismatch. lead. Qed.
Hint Resolve leads_typedArgs leads_argMismatch : leads.
Lemma leads_argsAssignable params : ∀ i types, leads L (argsAssignable fuel stmt name i params types).
Proof. induction params as [|p params IH]; intros i [|a types]; cbn [argsAssignable]; lead. Qed.
Lemma leads_restAssignable el types : ∀ i, leads L (restAssignable fuel stmt name i el types).
Proof. induction types as [|a types IH]; intros i; cbn [restAssignable]; lead. Qed.
Lemma leads_wrongCountS b n ps k : leads L (wrongCountS stmt name args b n ps k).
Proof. unfold wrongCountS. lead. Qed.
Lemma leads_findArray es : leads L (findArray dimsOf es).
Proof. induction es; cbn [findArray]; lead. Qed.
Hint Resolve leads_argsAssignable leads_restAssignable leads_wrongCountS leads_findArray : leads.
Lemma leads_rejectsArrays : leads L (rejectsArrays g dimsOf stmt name args).
Proof. unfold rejectsArrays. lead. Qed.
Lemma leads_rejectPointers es : ∀ types, leads L (rejectCharPointers position es types).
Proof. induction es as [|e es IH]; intros [|a types]; cbn [rejectCharPointers]; lead. Qed.
Lemma leads_callLocal t : leads L (callLocal g fuel position typeOf stmt name args t).
Proof. unfold callLocal. lead. Qed.
Lemma leads_callFunction fn types : leads L (callFunction g ct fuel stmt name args fn types).
Proof. unfold callFunction. lead. Qed.
Lemma leads_callBuiltin sig types : leads L (callBuiltin g ct fuel stmt name args sig types).
Proof. unfold callBuiltin, builtinArgsInRange. lead. Qed.
Lemma leads_callMacro params : leads L (callMacro stmt name args params).
Proof. unfold callMacro. lead. Qed.
Hint Resolve leads_rejectsArrays leads_rejectPointers leads_callLocal leads_callFunction leads_callBuiltin leads_callMacro : leads.

Lemma leads_callStmt : templates_lead → leads L (checkCallStmt g ct st fuel position typeOf dimsOf stmt name args).
Proof.
  intros Ht. assert (Hg : ∀ tmpl types, genericFuncTemplates_ ct !! name = Some tmpl → leads L (callGeneric g st stmt name args tmpl types)).
  { intros tmpl types Hn. destruct (Ht tmpl Hn) as [Hc Hi]. unfold callGeneric. cbv zeta.
    pose proof (leads_infer stmt name (gf_typeParams tmpl) (gf_formals tmpl) types Hc). lead. }
  assert (Hk : ∀ types, leads L (callKnown g ct st fuel stmt name args types)).
  { intros types. unfold callKnown. destruct (genericFuncTemplates_ ct !! name) eqn:Hn; [by apply Hg|]. lead. }
  unfold checkCallStmt, callNamed. lead.
Qed.
End call_stmts.

(** ** Assignments and constants *)

Section assign.
Context {L : Checker → Checker → Prop} `{!Loose L}.
Context (g : Tables) (fuel : nat) (position : expr → context).
Context (resolveTypeSpec resolveTypeSpecInContext : option string → T (option tyref * Z)).
Context (constTypeSpec : string → option TypeInfo) (declarator : ExportedSymbol → option Declarator).
Context (resolveRest : expr → T (option tyref)) (restDims : expr → T Z).
Context (Hp : parameters_lead (L := L) resolveTypeSpec resolveTypeSpecInContext declarator resolveRest restDims).

Notation stmtOf f := (f g fuel position resolveTypeSpec resolveTypeSpecInContext constTypeSpec
  declarator resolveRest restDims).

Lemma leads_typeOf e : leads L (stmtOf resolveExprType e).
Proof. by apply resolveExprType_leads. Qed.
Lemma leads_dimsOf e : leads L (stmtOf resolveExprArrayDims e).
Proof. by apply leads_both. Qed.
Hint Resolve leads_typeOf leads_dimsOf : leads.

Section assignment.
Context (isConst : string → bool) (stmt : context).

Lemma leads_onLocal x f : leads L (onLocal x f).
Proof. apply leads_quiet. done. Qed.
Hint Resolve leads_onLocal : leads.
Lemma leads_trackAssigned x p e : leads L (trackAssigned stmt x p e).
Proof.
  unfold trackAssigned. apply leads_bind; [lead|]. intros vi. apply leads_bind; [|intros; lead].
  unfold when. case_match; [by apply leads_quiet|lead].
Qed.
Lemma leads_checkIndices es : leads L (stmtOf checkIndices stmt es).
Proof. induction es; cbn [checkIndices]; lead. Qed.
Hint Resolve leads_trackAssigned leads_checkIndices : leads.
Lemma leads_assignElement x p es rhs : leads L (stmtOf assignElement stmt x p es rhs).
Proof. unfold assignElement. lead. Qed.
Lemma leads_mapElement t i rhs : leads L (stmtOf assignMapElement stmt t i rhs).
Proof. unfold assignMapElement. lead. Qed.
Lemma leads_callSetter o i rhs : leads L (stmtOf callSetter stmt o i rhs).
Proof. unfold callSetter. lead. Qed.
Hint Resolve leads_assignElement leads_mapElement leads_callSetter : leads.
Lemma leads_assignContainer x p t es rhs : leads L (stmtOf assignContainer stmt x p t es rhs).
Proof. unfold assignContainer. lead. Qed.
Hint Resolve leads_assignContainer : leads.
Lemma leads_setter p : leads L (setterT g fuel p).
Proof. unfold setterT. lead. Qed.
Hint Resolve leads_setter : leads.
Lemma leads_assignTo x p es rhs : leads L (stmtOf assignTo stmt x p es rhs).
Proof. unfold assignTo. lead. Qed.
Lemma leads_withLocal x k : (∀ p, leads L (k p)) → leads L (withLocal stmt x k).
Proof. intros. unfold withLocal. lead. Qed.
Lemma leads_pointeeOf p : leads L (pointeeOf p).
Proof. unfold pointeeOf. lead. Qed.
Lemma leads_fieldStmt w rhs k : (∀ p q, leads L (k p q)) → leads L (stmtOf assignField stmt w rhs k).
Proof. intros. unfold assignField. lead. Qed.
Lemma leads_typeAll es : leads L (stmtOf typeAll es).
Proof. induction es; cbn [typeAll]; lead. Qed.
Hint Resolve leads_assignTo leads_withLocal leads_pointeeOf leads_typeAll : leads.
Lemma leads_fieldMismatch form p q : leads L (fieldMismatch fuel stmt form p q).
Proof. unfold fieldMismatch. lead. Qed.
Hint Resolve leads_fieldMismatch : leads.

Lemma leads_assignment a : leads L (stmtOf checkAssignment isConst stmt a).
Proof.
  assert (Hw : ∀ x fs (w : option tyref → option tyref → T unit) rhs, (∀ p q, leads L (w p q)) → ∀ p,
    leads L (r ← walkFields stmt x fs p; stmtOf assignField stmt r rhs w)).
  { intros x fs w rhs Hk p. apply leads_bind; [lead|]. intros. by apply leads_fieldStmt. }
  destruct a; cbn [checkAssignment].
  - unfold checkAssignStmt. apply leads_withLocal. intros. lead.
  - unfold checkCompoundAssignStmt. apply leads_withLocal. intros. lead.
  - unfold checkFieldAssignStmt. apply leads_withLocal. intros p. destruct (isConst name); [lead|]. apply Hw. intros. lead.
  - unfold checkFieldCompoundAssignStmt. apply leads_withLocal. intros p. apply Hw. intros. lead.
  - unfold checkArrowAssignStmt. lead.
  - unfold checkArrowCompoundAssignStmt. lead.
  - unfold checkDerefAssignStmt. destruct target; [apply leads_withLocal; intros|]; lead.
  - unfold checkDerefCompoundAssignStmt. cbv zeta. destruct target; [apply leads_withLocal; intros|]; lead.
  - lead.
  - lead.
  - lead.
  - lead.
Qed.
End assignment.

(** *** Constants *)

Definition leadsK (L : Checker → Checker → Prop) {A} (m : CT A) : Prop := ∀ s,
  match m s with
  | ROk _ s' | RThrow _ s' => L (ty_checker (cs_typer s)) (ty_checker (cs_typer s'))
  | _ => True
  end.

Lemma leadsK_ret {A} (a : A) : leadsK L (mret a).
Proof. intros s. change (L (ty_checker (cs_typer s)) (ty_checker (cs_typer s))). reflexivity. Qed.
Lemma leadsK_bind {A B} (m : CT A) (f : A → CT B) : leadsK L m → (∀ a, leadsK L (f a)) → leadsK L (m ≫= f).
Proof.
  intros Hm Hf s. specialize (Hm s). unfold mbind, M_bind. destruct (m s) as [a s'|x s'| |]; try done.
  specialize (Hf a s'). destruct (f a s'); by try etrans.
Qed.
Lemma leadsK_get : leadsK L getS.
Proof. intros s. change (L (ty_checker (cs_typer s)) (ty_checker (cs_typer s))). reflexivity. Qed.
Lemma leadsK_lift {A} (m : outcome A) : leadsK L (liftO m).
Proof. intros s. unfold liftO. destruct m; reflexivity || done. Qed.
Lemma leadsK_modify f : (∀ s, diagnostics_ (ty_checker (cs_typer (f s))) = diagnostics_ (ty_checker (cs_typer s))) → leadsK L (modifyS f).
Proof. intros Hf s. by apply loose_silent. Qed.
Lemma leadsK_typing {A} (m : Tables → T A) : (∀ g, leads L (m g)) → leadsK L (typing g m).
Proof. intros Hm s. unfold typing. specialize (Hm (g <| moduleRegistry_ := cs_modules s |>) (cs_typer s)). by destruct (m _ _). Qed.
End assign.

Section constants.
Context {L : Checker → Checker → Prop} `{!Loose L}.
Context (g : Tables) (fuel : nat) (position : expr → context).
Context (resolveTypeSpec resolveTypeSpecInContext : option string → T (option tyref * Z)).
Context (constTypeSpec : string → option TypeInfo) (declarator : ExportedSymbol → option Declarator).
Context (resolveRest : expr → T (option tyref)) (restDims : expr → T Z).
Context (Hp : parameters_lead (L := L) resolveTypeSpec resolveTypeSpecInContext declarator resolveRest restDims).

Notation constOf f := (f g fuel position resolveTypeSpec resolveTypeSpecInContext constTypeSpec
  declarator resolveRest restDims).

(** Walks through a computation of [ConstDecl]. *)
Ltac leadK :=
  cbv zeta;
  lazymatch goal with
  | |- leadsK _ (match ?x with _ => _ end) => destruct x; leadK
  | |- leadsK _ (mret _) => apply leadsK_ret
  | |- leadsK _ getS => apply leadsK_get
  | |- leadsK _ (liftO _) => apply leadsK_lift
  | |- leadsK _ (mbind _ _) => apply leadsK_bind; [leadK|intros; leadK]
  | |- leadsK _ (typing _ _) => apply leadsK_typing; intros; lead
  | |- leadsK _ (modifyS _) => apply leadsK_modify; intros; by repeat case_match
  | |- _ => solve [eauto with leads]
  end.

Lemma leadsK_typeOf e : leadsK L (constOf ConstDecl.typeOf e).
Proof. apply leadsK_typing. intros. by apply leads_typeOf. Qed.
Lemma leadsK_dimsOf e : leadsK L (constOf ConstDecl.dimsOf e).
Proof. apply leadsK_typing. intros. by apply leads_dimsOf. Qed.
Lemma leadsK_report ctx msg : leadsK L (report g ctx msg).
Proof. unfold report. leadK. Qed.
Hint Resolve leadsK_typeOf leadsK_dimsOf leadsK_report : leads.
Lemma leadsK_constInit d p q : leadsK L (checkConstInit g d p q).
Proof. unfold checkConstInit. leadK. Qed.
Lemma leadsK_setType x b p n i : leadsK L (setConstType g x b p n i).
Proof. unfold setConstType. leadK. Qed.
Lemma leadsK_literalDims e : leadsK L (constOf literalDims e).
Proof. unfold literalDims. leadK. Qed.
Lemma leadsK_storeValue x e : leadsK L (storeConstValue g constTypeSpec x e).
Proof. unfold storeConstValue. leadK. Qed.
Hint Resolve leadsK_constInit leadsK_setType leadsK_literalDims leadsK_storeValue : leads.
Lemma leadsK_constType d b : leadsK L (constOf checkConstType d b).
Proof. pose proof (pl_spec _ _ _ _ _ Hp). unfold checkConstType. leadK. Qed.
Hint Resolve leadsK_constType : leads.
Lemma leadsK_declarator d : leadsK L (constOf ConstDecl.checkConstDeclarator d).
Proof. unfold ConstDecl.checkConstDeclarator. leadK. Qed.
End constants.
