(* ===== verification/StatementSteps.v ===== *)
(** * The statements, step by step

    A relation to later states that scopes and loops respect holds between the state before
    and the state after any statement, if the steps of the smaller states lead to later ones
    ([checkStmt_steps]).  This is the induction that [StatementScopes] and [StatementFlow]
    share. *)

From S2P Require Import Prelude.
From S2P Require Import CxxLib.
From S2P Require Import TypeInfo.
From S2P Require Import Assign.
From S2P Require Import Traits.
From S2P Require Import Syntax.
From S2P Require Import ComptimeValue.
From S2P Require Import ConstEval.
From S2P Require Import Flow.
From S2P Require Import Builtins.
From S2P Require Import Ownership.
From S2P Require Import CBuffer.
From S2P Require Import Attributes.
From S2P Require Import Modules.
From S2P Require Import Imports.
From S2P Require Import ExprType.
From S2P Require Import ExprTypeKeep.
From S2P Require Import ConstDecl.
From S2P Require Import TypeSpec.
From S2P Require Import GenericInfer.
From S2P Require Import Calls.
From S2P Require Import AssignStmts.
From S2P Require Import AssignSafety.
From S2P Require Import CallStmts.
From S2P Require Import Statements.
From S2P Require Import StatementKeep.

(** ** Relations between states *)

Notation checkerOf s := (ty_checker (typer s)).

Definition sameDepths (s s' : Scopes) : Prop :=
  sc_scopeDepth s' = sc_scopeDepth s ∧ sc_loopDepth s' = sc_loopDepth s.

(** A relation to later states that scopes and loops respect. *)
Class Onward (L : Checker → Checker → Prop) (R : Scopes → Scopes → Prop) := {
  onward_loose :: Loose L;
  onward_preorder :: PreOrder R;
  onward_update s s' : sameDepths s s' → sc_labels s ⊆ sc_labels s' → L (checkerOf s) (checkerOf s') → R s s';
  onward_scope imports s s' :
    R (s <| sc_scopeDepth := (sc_scopeDepth s + 1)%Z |>) s' →
    R s (leaveScope imports s (s' <| sc_scopeDepth := (sc_scopeDepth s' - 1)%Z |>));
  onward_loop s s' :
    R (s <| sc_loopDepth := (sc_loopDepth s + 1)%Z |>) s' →
    R s (s' <| sc_loopDepth := (sc_loopDepth s' - 1)%Z |>) }.

Definition steps (R : Scopes → Scopes → Prop) {A} (m : SM A) : Prop := ∀ s,
  match m s with ROk _ s' => R s s' | _ => True end.

Section preorder.
Context {R : Scopes → Scopes → Prop} `{!PreOrder R}.

Lemma steps_ret {A} (a : A) : steps R (mret a).
Proof. intros s. change (R s s). reflexivity. Qed.
Lemma steps_seq {A B} (m : SM A) (f : A → SM B) : steps R m → (∀ a, steps R (f a)) → steps R (m ≫= f).
Proof.
  intros Hm Hf s. specialize (Hm s). unfold mbind, M_bind. destruct (m s) as [a s'|x s'| |]; try done.
  specialize (Hf a s'). destruct (f a s'); try done. by etrans.
Qed.
Lemma steps_get : steps R getS.
Proof. intros s. change (R s s). reflexivity. Qed.
Lemma steps_outcome {A} (m : outcome A) : steps R (liftO m).
Proof. intros s. unfold liftO. destruct m; reflexivity || done. Qed.
Lemma steps_undef {A} : steps R (@undefS A).
Proof. done. Qed.
Lemma steps_each {A} (f : A → SM unit) l : (∀ a, steps R (f a)) → steps R (eachS f l).
Proof. intros Hf. induction l; cbn [eachS]; [apply steps_ret|]. by apply steps_seq. Qed.
End preorder.

#[export] Hint Resolve onward_loose : leads.

Section steps.
Context {L : Checker → Checker → Prop} {R : Scopes → Scopes → Prop} `{!Onward L R}.

Lemma steps_modify f : (∀ s, sameDepths s (f s) ∧ sc_labels s ⊆ sc_labels (f s) ∧
  diagnostics_ (checkerOf (f s)) = diagnostics_ (checkerOf s)) → steps R (modifyS f).
Proof. intros Hf s. destruct (Hf s) as (? & ? & ?). apply onward_update; [done..|]. by apply loose_silent. Qed.
Lemma steps_typer {A} (m : T A) : leads L m → steps R (onTyper m).
Proof.
  intros Hm s. specialize (Hm (typer s)). unfold onTyper. destruct (m (typer s)); try done.
  by apply onward_update.
Qed.
Lemma steps_reading {A} (m : Scopes → T A) : (∀ s, leads L (m s)) → steps R (reading m).
Proof. intros Hm s. by apply (steps_typer (m s)). Qed.
Lemma steps_const {A} (m : CT A) : leadsK L m → steps R (onConst m).
Proof.
  intros Hm s. specialize (Hm (sc_const s)). unfold onConst. destruct (m (sc_const s)); try done.
  by apply onward_update.
Qed.
Lemma steps_scope {A} imports (m : SM A) : steps R m → steps R (inScope imports m).
Proof.
  intros Hm s. unfold inScope, mbind, M_bind, getS, modifyS. specialize (Hm (s <| sc_scopeDepth := (sc_scopeDepth s + 1)%Z |>)).
  destruct (m _); try done. by apply onward_scope.
Qed.
Lemma steps_loop {A} (m : SM A) : steps R m → steps R (inLoop m).
Proof.
  intros Hm s. unfold inLoop, mbind, M_bind, modifyS. specialize (Hm (s <| sc_loopDepth := (sc_loopDepth s + 1)%Z |>)).
  destruct (m _); try done. by apply onward_loop.
Qed.
Lemma steps_error ctx msg : steps R (errorAtS ctx msg).
Proof. apply steps_typer. lead. Qed.
Lemma steps_warning ctx msg : steps R (warningS ctx msg).
Proof. apply steps_typer. lead. Qed.
Lemma steps_declare x vi p d : steps R (declare x vi p d).
Proof. by apply steps_modify. Qed.
Lemma steps_forget x : steps R (forget x).
Proof. by apply steps_modify. Qed.
Lemma steps_initialized xs : steps R (markInitialized xs).
Proof. by apply steps_modify. Qed.
Lemma steps_info p : steps R (infoE p).
Proof. apply steps_typer. lead. Qed.
Lemma steps_assignable fuel ctx l r msg : steps R (unlessAssignableS fuel ctx l r msg).
Proof. apply steps_typer. lead. Qed.
Lemma steps_moved e ctx : steps R (moved e ctx).
Proof. apply steps_typer. lead. Qed.
End steps.

Create HintDb steps discriminated.
#[export] Hint Resolve onward_preorder steps_get steps_outcome steps_undef steps_error steps_warning steps_declare steps_forget
  steps_initialized steps_info steps_assignable steps_moved : steps.

(** Walks through a computation on statements. *)
Ltac stepS :=
  cbv zeta;
  lazymatch goal with
  | |- steps _ (match ?x with _ => _ end) => destruct x; stepS
  | |- steps _ (mret _) => apply steps_ret
  | |- steps _ (whenS _ _) => unfold whenS; stepS
  | |- steps _ (mbind _ _) => apply steps_seq; [stepS|intros; stepS]
  | |- steps _ (eachS _ _) => apply steps_each; intros; stepS
  | |- steps _ (onTyper _) => apply steps_typer; lead
  | |- steps _ (inScope _ _) => apply steps_scope; stepS
  | |- steps _ (inLoop _) => apply steps_loop; stepS
  | |- _ => solve [eauto with steps]
  end.

(** ** Induction on statements *)

Definition bodyOf (b : ifBody) : list statement :=
  match b with BodyOfBlock b => b | BodyOfStatement s => [s] end.
Definition elifBody (e : elseIf) : list statement := match e with ElseIfClause _ _ b => bodyOf b end.
Definition caseBody (c : caseClause) : list statement := match c with CaseClause _ b => b end.
Definition catchBody (c : catchClause) : list statement := match c with CatchClause _ _ b => b end.

(** The statements directly inside a statement. *)
Definition substatements (s : statement) : list statement :=
  match kindOfStmt s with
  | LabelDef _ s => [s]
  | IfStatement _ b elifs els => bodyOf b ++ flat_map elifBody elifs ++ match els with Some b => bodyOf b | None => [] end
  | ForInStmt _ _ _ b | ForClassicStmt _ _ _ _ _ b | LoopStmt b | WhileStmt _ b | DoWhileStmt b _
  | LockStmt _ b | NakedBlockStmt b | InlineBlockStmt b | ScopeBlockStmt _ b => b
  | SwitchStmt _ cases d => flat_map caseBody cases ++ default [] d
  | TryCatchStmt b catches f => b ++ flat_map catchBody catches ++ default [] f
  | _ => []
  end.

Lemma statement_ind' (P : statement → Prop) : (∀ s, Forall P (substatements s) → P s) → ∀ s, P s.
Proof.
  intros Hstep. fix IH 1. intros s. apply Hstep.
  set (all := fix all l : Forall P l :=
    match l with [] => Forall_nil_2 _ | x :: l => Forall_cons_2 _ _ _ (IH x) (all l) end).
  set (body := λ b, match b return Forall P (bodyOf b) with
    | BodyOfBlock b => all b | BodyOfStatement s => Forall_cons_2 _ _ _ (IH s) (Forall_nil_2 _) end).
  set (elifs := fix elifs (l : list elseIf) : Forall P (flat_map elifBody l) :=
    match l with [] => Forall_nil_2 _ | ElseIfClause _ _ b :: l => Forall_app_2 _ _ _ (body b) (elifs l) end).
  set (cases := fix cases (l : list caseClause) : Forall P (flat_map caseBody l) :=
    match l with [] => Forall_nil_2 _ | CaseClause _ b :: l => Forall_app_2 _ _ _ (all b) (cases l) end).
  set (catches := fix catches (l : list catchClause) : Forall P (flat_map catchBody l) :=
    match l with [] => Forall_nil_2 _ | CatchClause _ _ b :: l => Forall_app_2 _ _ _ (all b) (catches l) end).
  destruct s as [ctx k]. destruct k as [| | | | | | | | | |c b es [e|]| | | | | | | |e cs [d|]| |b cs [f|]| | | | | | |];
    unfold substatements; cbn [kindOfStmt default]; repeat (apply Forall_app_2);
    first [exact (Forall_nil_2 _)|exact (Forall_cons_2 _ _ _ (IH _) (Forall_nil_2 _))
      |apply elifs|apply cases|apply catches|apply body|apply all].
Qed.

(** ** [checkStmt] *)

Section blocks.
Context {L : Checker → Checker → Prop} {R : Scopes → Scopes → Prop} `{!Onward L R}.
Context (check : statement → SM bool).

Lemma steps_statements b : Forall (λ s, steps R (check s)) b → ∀ t, steps R (checkStatements check t b).
Proof. induction 1 as [|s b Hs _ IH]; intros t; cbn [checkStatements]; stepS. Qed.

Lemma steps_block b : Forall (λ s, steps R (check s)) b → steps R (checkBlock check b).
Proof. intros H. pose proof (steps_statements b H). unfold checkBlock. stepS. Qed.

Lemma steps_optBlock b : Forall (λ s, steps R (check s)) (default [] b) → steps R (checkOptBlock check b).
Proof. intros H. destruct b; cbn [checkOptBlock]; [|stepS]. pose proof (steps_block l H). stepS. Qed.

Lemma steps_body b : Forall (λ s, steps R (check s)) (bodyOf b) → steps R (checkIfBody check b).
Proof. intros H. destruct b; cbn [checkIfBody bodyOf] in *; [by apply steps_block|]. apply Forall_cons in H as [H _]. stepS. Qed.
End blocks.

(** What the parts of statements that are parameters do. *)
Record statement_parameters_lead (L : Checker → Checker → Prop) (ct : CallTables)
    (resolveTypeSpec resolveTypeSpecInContext : option string → T (option tyref * Z))
    (declarator : ExportedSymbol → option Declarator)
    (resolveRest : gmap string InjectedVariant → expr → T (option tyref))
    (restDims : gmap string InjectedVariant → expr → T Z)
    (withSubst : option (string → T (option tyref * Z))) : Prop := {
  spl_typing imports : parameters_lead (L := L) resolveTypeSpec resolveTypeSpecInContext declarator
    (resolveRest imports) (restDims imports);
  spl_subst f ts : withSubst = Some f → leads L (f ts);
  spl_templates f : templates_lead (L := L) ct f }.

Section statements.
Context {L : Checker → Checker → Prop} {R : Scopes → Scopes → Prop} `{!Onward L R}.
Context (g : Tables) (ct : CallTables) (st : CallStmtTables) (fuel : nat) (position : expr → context).
Context (resolveTypeSpec resolveTypeSpecInContext : option string → T (option tyref * Z)).
Context (constTypeSpec : string → option TypeInfo) (declarator : ExportedSymbol → option Declarator).
Context (resolveRest : gmap string InjectedVariant → expr → T (option tyref)).
Context (restDims : gmap string InjectedVariant → expr → T Z).
Context (withSubst : option (string → T (option tyref * Z))).
Context (isActive : attributes → bool).
Context (currentReturnType retType : option tyref).
Context (Hp : statement_parameters_lead L ct resolveTypeSpec resolveTypeSpecInContext declarator resolveRest restDims withSubst).

Notation typeE := (typeE g fuel position resolveTypeSpec resolveTypeSpecInContext constTypeSpec declarator resolveRest restDims).
Notation dimsE := (dimsE g fuel position resolveTypeSpec resolveTypeSpecInContext constTypeSpec declarator resolveRest restDims).
Notation at_ f := (f g fuel position resolveTypeSpec resolveTypeSpecInContext constTypeSpec declarator resolveRest restDims).

Lemma steps_type e : steps R (typeE e).
Proof. apply steps_reading. intros s. apply leads_typeOf. apply Hp. Qed.
Lemma steps_dims e : steps R (dimsE e).
Proof. apply steps_reading. intros s. apply leads_dimsOf. apply Hp. Qed.
Lemma steps_spec ts : steps R (specE resolveTypeSpec ts).
Proof. apply steps_typer. apply (pl_spec _ _ _ _ _ (spl_typing _ _ _ _ _ _ _ _ Hp ∅)). Qed.
Lemma steps_subst ts : steps R (substSpecE resolveTypeSpec withSubst ts).
Proof.
  unfold substSpecE. apply steps_typer. destruct withSubst as [f|] eqn:E.
  - by apply (spl_subst _ _ _ _ _ _ _ _ Hp).
  - apply (pl_spec _ _ _ _ _ (spl_typing _ _ _ _ _ _ _ _ Hp ∅)).
Qed.
Hint Resolve steps_type steps_dims steps_spec steps_subst : steps.

Lemma steps_constE e : steps R (constE constTypeSpec e).
Proof. unfold constE. stepS. Qed.
Hint Resolve steps_constE : steps.
Lemma steps_constBool e : steps R (constBool constTypeSpec e).
Proof. unfold constBool. stepS. Qed.
Lemma steps_typed e : steps R (at_ typed e).
Proof. unfold typed. stepS. Qed.
Hint Resolve steps_constBool steps_typed : steps.
Lemma steps_condition ctx w e : steps R (at_ checkCondition ctx w e).
Proof. unfold checkCondition. stepS. Qed.
Lemma steps_bindVar x p n : steps R (bindVar x p n).
Proof. unfold bindVar. stepS. Qed.
Lemma steps_declareVar x p n e : steps R (declareVar x p n e).
Proof. unfold declareVar. stepS. Qed.
Lemma steps_storeValue x e : steps R (storeValue constTypeSpec x e).
Proof. unfold storeValue. apply steps_seq; [stepS|]. intros [v|]; [|stepS]. by apply steps_modify. Qed.
Lemma steps_sizes ts : steps R (arraySizesE ts).
Proof. unfold arraySizesE. stepS. Qed.
Lemma steps_already ctx x : steps R (alreadyDeclared ctx x).
Proof. unfold alreadyDeclared. stepS. Qed.
Hint Resolve steps_condition steps_bindVar steps_declareVar steps_storeValue steps_sizes steps_already : steps.

(** *** Declarations *)

Lemma steps_constDecl attrs ds : steps R (at_ checkConstDeclStmt isActive attrs ds).
Proof.
  unfold checkConstDeclStmt. destruct (isActive attrs); [|stepS]. apply steps_each. intros d. unfold checkConstDeclarator.
  apply steps_seq; [stepS|]. intros s. apply steps_seq; [case_match; [by apply steps_modify|stepS]|]. intros _ s'.
  apply (steps_const (L := L)). apply leadsK_declarator. apply Hp.
Qed.

Lemma steps_destructure ctx xs e : ∀ ps, steps R (destructure ctx xs ps e).
Proof. induction xs as [|x xs IH]; intros [|p ps]; cbn [destructure]; stepS. Qed.
Hint Resolve steps_destructure : steps.
Lemma steps_checkDestructure ctx xs e : steps R (at_ checkDestructure ctx xs e).
Proof. unfold checkDestructure. stepS. Qed.

Lemma steps_track ctx x e t : steps R (trackDeclared constTypeSpec ctx x e t).
Proof. unfold trackDeclared. stepS. Qed.
Hint Resolve steps_track : steps.
Lemma steps_declareAuto ctx p n ts l d : steps R (at_ declareAuto ctx p n ts l d).
Proof. unfold declareAuto. stepS. Qed.
Lemma steps_inferAuto ctx ds : steps R (at_ inferAuto ctx ds).
Proof. induction ds as [|d ds IH]; cbn [inferAuto]; stepS. Qed.
Lemma steps_declareBare x p n ts b : steps R (declareBare x p n ts b).
Proof. unfold declareBare. stepS. Qed.
Lemma steps_cstring d t l e : steps R (cstringFits d t l e).
Proof. unfold cstringFits. stepS. Qed.
Hint Resolve steps_cstring : steps.
Lemma steps_value d p t n l e q : steps R (checkValue fuel d p t n l e q).
Proof. unfold checkValue. stepS. Qed.
Hint Resolve steps_value : steps.
Lemma steps_checkInit d p t n l e q : steps R (at_ checkInit d p t n l e q).
Proof. unfold checkInit, checkElements. stepS. Qed.
Hint Resolve steps_declareAuto steps_inferAuto steps_declareBare steps_checkInit : steps.
Lemma steps_declareTyped ctx p n ts l d : steps R (at_ declareTyped ctx p n ts l d).
Proof.
  unfold declareTyped. destruct (vd_expression d) as [e|]; [|stepS]. apply steps_seq; [stepS|]. intros q.
  destruct (isRangeExpr e); [stepS|]. do 3 (apply steps_seq; [stepS|intros]). case_match; [|stepS].
  apply steps_seq; [|intros; stepS]. apply steps_reading. intros s. cbv beta. lead.
Qed.
Lemma steps_qualified ctx x y : steps R (qualifiedType ctx x y).
Proof. unfold qualifiedType. stepS. Qed.
Hint Resolve steps_qualified : steps.
Lemma steps_declaredSpec ctx prefix ts : steps R (declaredSpec resolveTypeSpec withSubst ctx prefix ts).
Proof.
  assert (Hs : ∀ w, (∀ f ts, w = Some f → leads L (f ts)) → steps R (declaredSpec resolveTypeSpec w ctx prefix ts)).
  { intros [f|] Hw; unfold declaredSpec; [|stepS]. apply steps_typer. by apply Hw. }
  apply Hs. intros f t. apply Hp.
Qed.
Hint Resolve steps_declareTyped steps_declaredSpec : steps.
Lemma steps_varDecl ctx prefix ts ds : steps R (at_ checkVarDecl withSubst ctx prefix ts ds).
Proof. unfold checkVarDecl. stepS. Qed.

(** *** Simple statements *)

Lemma steps_use ctx ts : steps R (checkUse resolveTypeSpec ctx ts).
Proof.
  unfold checkUse. do 2 (apply steps_seq; [stepS|intros]). case_match; [|stepS]. case_match; [stepS|]. case_match; [stepS|].
  apply steps_each. intros v. apply steps_seq; [stepS|]. intros s. case_match; [stepS|]. by apply steps_modify.
Qed.
Lemma steps_assignment ctx a : steps R (at_ checkAssignmentStmt ctx a).
Proof. apply steps_reading. intros s. apply leads_assignment. apply Hp. Qed.
Lemma steps_call ctx f args : steps R (checkCall g ct st fuel position resolveTypeSpec resolveTypeSpecInContext constTypeSpec
  declarator resolveRest restDims ctx f args).
Proof.
  apply steps_reading. intros s. apply leads_callStmt; [| |apply Hp].
  - intros e. apply leads_typeOf. apply Hp.
  - intros e. apply leads_dimsOf. apply Hp.
Qed.
Lemma steps_asmOutput o : steps R (checkAsmOutput o).
Proof. unfold checkAsmOutput. stepS. Qed.
Lemma steps_asmOperand n o : steps R (at_ checkAsmOperand n o).
Proof. unfold checkAsmOperand. stepS. Qed.
Hint Resolve steps_asmOutput steps_asmOperand : steps.
Lemma steps_asm ctx a : steps R (at_ checkAsmStmt ctx a).
Proof. unfold checkAsmStmt. do 3 (apply steps_seq; [stepS|intros _]). by apply steps_modify. Qed.
Lemma steps_label ctx x : steps R (checkLabel ctx x).
Proof.
  unfold checkLabel. apply steps_seq; [stepS|]. intros s. case_match; [stepS|]. apply steps_modify.
  intros s'. split_and!; try done. cbn. set_solver.
Qed.
Lemma steps_bail ctx e : steps R (at_ checkBailStmt currentReturnType ctx e).
Proof. unfold checkBailStmt. stepS. Qed.
Lemma steps_return ctx e : steps R (at_ checkReturnStmt retType ctx e).
Proof. unfold checkReturnStmt. stepS. Qed.
Lemma steps_break ctx x : steps R (checkBreak ctx x).
Proof. unfold checkBreak. stepS. Qed.
Lemma steps_callback cb : steps R (checkCallback g ct st fuel position resolveTypeSpec resolveTypeSpecInContext constTypeSpec
  declarator resolveRest restDims cb).
Proof. unfold checkCallback. stepS. Qed.
Lemma steps_isBinding e : steps R (extractIsBinding resolveTypeSpec e).
Proof. unfold extractIsBinding. stepS. Qed.
Hint Resolve steps_isBinding : steps.
Lemma steps_branch e dead body : steps R body → steps R (checkBranch resolveTypeSpec e dead body).
Proof. intros Hb. unfold checkBranch. stepS. Qed.
Lemma steps_subject ctx t : steps R (checkSubject ctx t).
Proof. unfold checkSubject. stepS. Qed.
Lemma steps_exhaustive ctx t l : steps R (checkExhaustive ctx t l).
Proof. unfold checkExhaustive. stepS. Qed.
Lemma steps_iterable ctx it e t : steps R (checkIterable ctx it e t).
Proof. unfold checkIterable. destruct (isRangeExpr e); stepS. Qed.
Lemma steps_loopVar x r : steps R (bindLoopVar x r).
Proof. unfold bindLoopVar. stepS. Qed.
Lemma steps_catchVar x p n body : steps R body → steps R (withCatchVar x p n body).
Proof. intros Hb. unfold withCatchVar. stepS. Qed.
Hint Resolve steps_constDecl steps_checkDestructure steps_varDecl steps_use steps_assignment steps_call steps_asm
  steps_label steps_bail steps_return steps_break steps_callback steps_subject steps_exhaustive steps_iterable
  steps_loopVar : steps.

(** *** Statements with statements inside *)

Section inside.
Context (check : statement → SM bool).
Notation ok_ b := (Forall (λ s, steps R (check s)) b).

Lemma steps_elseIfs elifs : ok_ (flat_map elifBody elifs) → ∀ l, steps R (at_ checkElseIfs check elifs l).
Proof.
  induction elifs as [|[ctx c b] elifs IH]; intros Hb l; cbn [checkElseIfs flat_map elifBody] in *; [stepS|].
  apply Forall_app in Hb as [Hb He]. apply steps_seq; [stepS|]. intros _. apply steps_seq; [stepS|]. intros v.
  apply steps_seq; [by apply steps_branch, steps_body|]. intros i. destruct (bool_decide _); [stepS|]. by apply IH.
Qed.

Lemma steps_if ctx c b elifs els : ok_ (bodyOf b) → ok_ (flat_map elifBody elifs) →
  ok_ (match els with Some b => bodyOf b | None => [] end) → steps R (at_ checkIfStmt check ctx c b elifs els).
Proof.
  intros Hb He Hl. unfold checkIfStmt. apply steps_seq; [stepS|]. intros _. apply steps_seq; [stepS|]. intros v.
  apply steps_seq; [by apply steps_branch, steps_body|]. intros i.
  apply steps_seq; [destruct (bool_decide _); [stepS|by apply steps_elseIfs]|]. intros r.
  destruct els as [els|]; [|stepS]. pose proof (steps_body (R := R) check els Hl). stepS.
Qed.

Lemma steps_cases cases : ok_ (flat_map caseBody cases) → steps R (at_ checkCases check cases).
Proof.
  induction cases as [|[l b] cases IH]; intros Hb; cbn [checkCases flat_map caseBody] in *; [stepS|].
  apply Forall_app in Hb as [Hb Hc]. pose proof (steps_block (R := R) check b Hb). specialize (IH Hc). stepS.
Qed.

Lemma steps_switch ctx e cases d : ok_ (flat_map caseBody cases) → ok_ (default [] d) →
  steps R (at_ checkSwitchStmt check ctx e cases d).
Proof.
  intros Hc Hd. unfold checkSwitchStmt. pose proof (steps_cases cases Hc). pose proof (steps_optBlock (R := R) check d Hd). stepS.
Qed.

Lemma steps_catches catches : ok_ (flat_map catchBody catches) → steps R (checkCatches resolveTypeSpec check catches).
Proof.
  induction catches as [|[ts x b] catches IH]; intros Hb; cbn [checkCatches flat_map catchBody] in *; [stepS|].
  apply Forall_app in Hb as [Hb Hc]. specialize (IH Hc). apply steps_seq; [stepS|]. intros r.
  apply steps_seq; [|intros; stepS]. by apply steps_catchVar, steps_block.
Qed.

Lemma steps_forIn ctx ts x e b : ok_ b → steps R (at_ checkForInStmt withSubst check ctx ts x e b).
Proof. intros Hb. unfold checkForInStmt. pose proof (steps_block (R := R) check b Hb). stepS. Qed.

Lemma steps_forClassic ctx ts x i c u b : ok_ b → steps R (at_ checkForClassicStmt withSubst check ctx ts x i c u b).
Proof. intros Hb. unfold checkForClassicStmt. pose proof (steps_block (R := R) check b Hb). stepS. Qed.
End inside.

Hint Resolve steps_if steps_switch steps_catches steps_forIn steps_forClassic steps_block steps_optBlock
  steps_statements : steps.

Lemma checkStmt_steps s : steps R (checkStmt g ct st fuel position resolveTypeSpec resolveTypeSpecInContext constTypeSpec
  declarator resolveRest restDims withSubst isActive currentReturnType retType s).
Proof.
  induction s as [[ctx k] IH] using statement_ind'. unfold substatements in IH.
  destruct k; cbn [kindOfStmt] in IH; cbn [checkStmt];
    repeat match goal with
    | H : Forall _ (_ ++ _) |- _ => apply Forall_app in H as [? H]
    | H : Forall _ [_] |- _ => apply Forall_cons in H as [H _]
    end;
    (apply steps_seq; [stepS|intros; apply steps_ret]).
Qed.
End statements.
