(* ===== verification/StatementScopes.v ===== *)
(** * Scopes

    What a block leaves behind: the depths of blocks and loops are as before, and the variables
    are, with their types, their places and everything that is known of them but whether they
    are used.  So nothing is remembered of what happened inside: that a value was moved, that a
    variable has been given a value in every branch, that one was never used. *)

From S2P Require Import Prelude.
From S2P Require Import CxxLib.
From S2P Require Import TypeInfo.
From S2P Require Import Assign.
From S2P Require Import Traits.
From S2P Require Import Syntax.
From S2P Require Import ComptimeValue.
From S2P Require Import ConstEval.
From S2P Require Import Flow.
From S2P Require Import Builtins.
From S2P Require Import Ownership.
From S2P Require Import CBuffer.
From S2P Require Import Attributes.
From S2P Require Import Modules.
From S2P Require Import Imports.
From S2P Require Import ExprType.
From S2P Require Import ExprTypeSafety.
From S2P Require Import ExprTypeKeep.
From S2P Require Import ConstDecl.
From S2P Require Import TypeSpec.
From S2P Require Import Methods.
From S2P Require Import GenericInfer.
From S2P Require Import Calls.
From S2P Require Import CallsSafety.
From S2P Require Import AssignStmts.
From S2P Require Import AssignSafety.
From S2P Require Import CallStmts.
From S2P Require Import Statements.
From S2P Require Import StatementKeep.
From S2P Require Import StatementSteps.
Local Open Scope Z_scope.

(** ** Depths *)

Definition balanced (s s' : Scopes) : Prop := sameDepths s s' ∧ sc_labels s ⊆ sc_labels s'.

#[export] Instance balanced_onward : Onward anything balanced.
Proof.
  unfold balanced, sameDepths. split; [apply _|split|by auto| |].
  - done.
  - intros s1 s2 s3 [[-> ->] H1] [[-> ->] H2]. split; [done|by etrans].
  - intros imports s s' [[H1 H2] H3]. cbn in *. split; [|by destruct imports].
    destruct imports; cbn; split; (done || lia).
  - intros s s' [[H1 H2] H3]. cbn in *. split; [|done]. split; (done || lia).
Qed.

Lemma leads_anything {A} (m : T A) : leads anything m.
Proof. intros s. by destruct (m s). Qed.

(** ** Blocks *)

(** A variable behind a block: the same, but perhaps used. *)
Definition sameButUsed (vi vi' : VarInfo) : Prop := ∃ used, vi' = vi <| vi_used := vi_used vi || used |>.

Record restored (s s' : Scopes) : Prop := {
  rs_locals x : option_Forall2 sameButUsed (locals s !! x) (locals s' !! x);
  rs_types : varTypes s' = varTypes s;
  rs_declared : sc_declared s' = sc_declared s;
  rs_depths : sameDepths s s';
  rs_labels : sc_labels s ⊆ sc_labels s' }.

Lemma restoreLocals_same saved now x : option_Forall2 sameButUsed (saved !! x) (restoreLocals saved now !! x).
Proof.
  rewrite restoreLocals_lookup. destruct (saved !! x) as [vi|]; cbn; constructor.
  unfold orUsed. destruct (now !! x) as [vi'|]; [by exists (vi_used vi')|]. exists false. rewrite orb_false_r. by destruct vi.
Qed.

Lemma newlyInitialized_spec saved now x :
  x ∈ newlyInitialized saved now → ∃ vi, saved !! x = Some vi ∧ vi_initialized vi = false.
Proof.
  unfold newlyInitialized. intros [vi [Hx H]%map_lookup_filter_Some]%elem_of_dom. exists vi. split; [done|].
  apply andb_true_iff in H as [H _]. cbn in H. by apply negb_true_iff in H.
Qed.

Lemma inScope_restores {A} imports (m : SM A) s inits s' : steps balanced m → inScope imports m s = ROk inits s' →
  restored s s' ∧ (imports = true → sc_imports s' = sc_imports s) ∧
  ∀ x, x ∈ inits → ∃ vi, locals s !! x = Some vi ∧ vi_initialized vi = false.
Proof.
  intros Hm H. pose proof (steps_scope imports m Hm s) as Hb. rewrite H in Hb. destruct Hb as [Hd Hl].
  unfold inScope, mbind, M_bind, getS, modifyS in H. destruct (m _) as [a s1|x s1| |]; try done. injection H as <- <-.
  split; [|split].
  - split; [|by destruct imports..|done|done]. intros x.
    assert (E : locals (leaveScope imports s (s1 <| sc_scopeDepth := sc_scopeDepth s1 - 1 |>)) = restoreLocals (locals s) (locals s1))
      by by destruct imports.
    rewrite E. apply restoreLocals_same.
  - by intros ->.
  - intros x. apply newlyInitialized_spec.
Qed.

Section statements.
Context (g : Tables) (ct : CallTables) (st : CallStmtTables) (fuel : nat) (position : expr → context).
Context (resolveTypeSpec resolveTypeSpecInContext : option string → T (option tyref * Z)).
Context (constTypeSpec : string → option TypeInfo) (declarator : ExportedSymbol → option Declarator).
Context (resolveRest : gmap string InjectedVariant → expr → T (option tyref)).
Context (restDims : gmap string InjectedVariant → expr → T Z).
Context (withSubst : option (string → T (option tyref * Z))).
Context (isActive : attributes → bool).

Notation check ret ret' := (checkStmt g ct st fuel position resolveTypeSpec resolveTypeSpecInContext constTypeSpec
  declarator resolveRest restDims withSubst isActive ret ret').

Lemma anything_parameters : statement_parameters_lead anything ct resolveTypeSpec resolveTypeSpecInContext declarator
  resolveRest restDims withSubst.
Proof.
  split; intros; [split; intros; apply leads_anything|apply leads_anything|].
  intros tmpl _. split; [|intros; apply leads_anything]. apply Forall_forall. intros tp _ c p _. apply leads_anything.
Qed.

Lemma check_balanced ret ret' s : steps balanced (check ret ret' s).
Proof. apply checkStmt_steps, anything_parameters. Qed.

Lemma statements_balanced ret ret' b t : steps balanced (checkStatements (check ret ret') t b).
Proof. apply steps_statements, Forall_forall. intros s _. apply check_balanced. Qed.

(** C5: Checking a block that ends puts every variable back: those declared inside are gone, those
    outside have the types, the ownership, the buffer sizes, the ranges and the initialization
    they had before, and differ at most in being used.  The variants in scope, the depths of
    blocks and loops are the same, labels are only added, and the variables reported as
    initialized inside are ones from outside that were not. *)
Theorem checkBlock_restores ret ret' b s inits s' :
  checkBlock (check ret ret') b s = ROk inits s' →
  restored s s' ∧ sc_imports s' = sc_imports s ∧
  ∀ x, x ∈ inits → ∃ vi, locals s !! x = Some vi ∧ vi_initialized vi = false.
Proof.
  intros H. destruct (inScope_restores _ _ _ _ _ (statements_balanced ret ret' b false) H) as (? & Hi & ?). auto.
Qed.

(** ** Unused variables *)

(** An unused variable was there before, unused. *)
Definition noNewUnused (s s' : Scopes) : Prop := ∀ x vi, locals s' !! x = Some vi → vi_used vi = false →
  ∃ vi0, locals s !! x = Some vi0 ∧ vi_used vi0 = false ∧ sc_declared s' !! x = sc_declared s !! x.

#[local] Instance noNewUnused_preorder : PreOrder noNewUnused.
Proof.
  split.
  - intros s x vi Hx Hu. by exists vi.
  - intros s1 s2 s3 H12 H23 x vi Hx Hu. destruct (H23 x vi Hx Hu) as (vi2 & Hx2 & Hu2 & E2).
    destruct (H12 x vi2 Hx2 Hu2) as (vi1 & Hx1 & Hu1 & E1). exists vi1. split_and!; [done..|congruence].
Qed.

Lemma restored_unused s s' : restored s s' → noNewUnused s s'.
Proof.
  intros Hr x vi Hx Hu. pose proof (rs_locals _ _ Hr x) as Ho. rewrite Hx in Ho.
  inversion Ho as [vi0 vi' [u ->] E|]; subst. exists vi0. cbn in Hu. apply orb_false_iff in Hu as [Hu _].
  by rewrite (rs_declared _ _ Hr).
Qed.

Definition sameLocals (c c' : Checker) : Prop := locals_ c' = locals_ c.

Lemma unused_typer {A} (m : T A) : leads sameLocals m → steps noNewUnused (onTyper m).
Proof.
  intros Hm s. specialize (Hm (typer s)). unfold onTyper. destruct (m (typer s)) as [a t| | |]; try done.
  intros x vi Hx Hu. exists vi. unfold locals in Hx. cbn in Hx. unfold sameLocals in Hm. by rewrite Hm in Hx.
Qed.

Lemma same_onChecker f : (∀ c, locals_ (f c) = locals_ c) → leads sameLocals (onChecker f).
Proof. intros Hf s. apply Hf. Qed.

Lemma same_info p : leads sameLocals (infoOpt p).
Proof.
  intros s. destruct p as [p|]; [|done]. cbn [infoOpt]. unfold infoT, mbind, M_bind, getS, liftO.
  by destruct (deref _ p).
Qed.

Lemma unused_error ctx msg : steps noNewUnused (errorAtS ctx msg).
Proof. apply unused_typer, same_onChecker. intros. apply emitDiag_locals. Qed.
Lemma unused_warning ctx msg : steps noNewUnused (warningS ctx msg).
Proof. apply unused_typer, same_onChecker. intros. apply emitDiag_locals. Qed.

Lemma unused_bind x p n : steps noNewUnused (bindVar x p n).
Proof.
  unfold bindVar. apply steps_seq; [apply unused_typer, same_info|]. intros t s y vi Hy Hu.
  unfold declare, modifyS, setLocals, setTyper, locals in Hy. cbn in Hy.
  destruct (decide (y = x)) as [->|Hne]; [rewrite lookup_insert_eq in Hy; by simplify_eq|].
  rewrite lookup_insert_ne in Hy by done. exists vi. split_and!; [done..|].
  unfold declare, modifyS. cbn. by rewrite lookup_insert_ne.
Qed.

(** Specifiers leave the variables alone. *)
Context (Hspec : ∀ ts, leads sameLocals (resolveTypeSpec ts)).

Lemma unused_params ps : ∀ i, steps noNewUnused (registerParams resolveTypeSpec i ps).
Proof.
  induction ps as [|p ps IH]; intros i; cbn [registerParams]; [apply steps_ret|]. destruct (pm_name p) as [x|]; [|apply IH].
  apply steps_seq; [by apply unused_typer|]. intros [[q|] n]; cbn [fst]; [|apply IH].
  apply steps_seq; [apply steps_get|]. intros s. case_bool_decide.
  - apply steps_seq; [apply unused_error|]. intros _. apply IH.
  - apply steps_seq; [apply unused_bind|]. intros _. apply steps_seq; [|intros; apply IH]. by apply unused_typer, same_onChecker.
Qed.

Lemma unused_when b m : steps noNewUnused m → steps noNewUnused (whenS b m).
Proof. destruct b; [done|]. intros _. apply steps_ret. Qed.

Context (localsOrder : gmap string VarInfo → list (string * VarInfo)) (labelsOrder : gset string → list string).
Context (declToken : string → context).

Notation checkFunction := (checkFunction g ct st fuel position resolveTypeSpec resolveTypeSpecInContext constTypeSpec
  declarator resolveRest restDims withSubst isActive localsOrder labelsOrder declToken).

(** What [warnUnusedLocals] warns about. *)
Definition reported (s : Scopes) : list string := (filter (λ p, unused s p.1 p.2 = true) (localsOrder (locals s))).*1.

Lemma function_unused f : steps noNewUnused (checkFunction f).
Proof.
  unfold Statements.checkFunction. destruct (negb _ || _); [apply steps_ret|].
  apply steps_seq; [by apply unused_typer|]. intros [r n].
  apply steps_seq; [destruct r; [apply steps_ret|by apply unused_typer]|]. intros ret.
  apply steps_seq; [intros s x vi Hx Hu; by exists vi|]. intros _.
  apply steps_seq; [apply steps_get|]. intros before.
  apply steps_seq; [by apply unused_typer, same_onChecker|]. intros _.
  apply steps_seq; [apply unused_params|]. intros _. apply steps_seq.
  { intros s. destruct (checkBlock _ _ s) as [inits s'| | |] eqn:E; try done.
    by eapply restored_unused, checkBlock_restores. }
  intros _. apply steps_seq; [by apply unused_typer, same_onChecker|]. intros _.
  apply steps_seq.
  { apply steps_seq; [apply steps_get|]. intros s. apply steps_each. intros l. apply unused_when, unused_error. }
  intros _. apply steps_seq; [apply unused_typer, same_info|]. intros t.
  apply steps_seq; [destruct t; [apply unused_when, unused_error|done]|]. intros _.
  apply steps_seq; [apply steps_get|]. intros s. apply steps_each. intros p. apply unused_when, unused_warning.
Qed.

(** C38: The variables reported as unused after a function are among the unused ones that were in
    scope when its check began: [checkBlock] has removed those of the body and parameters
    count as used, so no variable of a function is ever reported. *)
Theorem checkFunction_unused f s s' x :
  (∀ m p, p ∈ localsOrder m ↔ m !! p.1 = Some p.2) →
  checkFunction f s = ROk tt s' → x ∈ reported s' → x ∈ reported s.
Proof.
  intros Ho H Hx. pose proof (function_unused f s) as Hf. rewrite H in Hf.
  unfold reported in *. apply list_elem_of_fmap in Hx as ([y vi] & -> & [Hu Hy]%list_elem_of_filter). cbn in *.
  rewrite Ho in Hy. cbn in Hy. unfold unused in Hu. apply andb_true_iff in Hu as [[Hu Hn]%andb_true_iff Hd].
  apply negb_true_iff in Hu. destruct (Hf y vi Hy Hu) as (vi0 & Hx0 & Hu0 & Ed).
  apply list_elem_of_fmap. exists (y, vi0). split; [done|]. apply list_elem_of_filter. rewrite Ho. split; [|done].
  unfold unused. cbn. rewrite Hu0, Hn. by rewrite Ed in Hd.
Qed.
End statements.

(** ** Examples *)

Definition exampleCallStmts : CallStmtTables := {|
  globalBuiltins_ := {[ "exit" ]}; isMustUse := λ _, false; isTypedVariadic := λ _, false; moduleOrder := [] |}.

Definition startScopes : Scopes := {|
  sc_const := {| cs_typer := startTyper; cs_globalVars := ∅; cs_modules := None |};
  sc_declared := ∅; sc_imports := ∅; sc_scopeDepth := 0; sc_loopDepth := 0; sc_labels := ∅; sc_asmLabels := ∅ |}.

Notation exampleStmt := (checkStmt exampleTables exampleCalls exampleCallStmts 10 (λ _, None) namedSpec namedSpec
  (λ _, None) (λ _, None) (λ _, noRest) (λ _, noDims) None (λ _, true) (Some (RegT "void")) (Some (RegT "void"))).

(** The errors of a block; [None] if its check has no result. *)
Definition errorsOf (b : list statement) : option (list string) :=
  match checkBlock exampleStmt b startScopes with ROk _ s => Some (errors_ (checkerOf s)) | _ => None end.

Definition stmtOfKind (k : stmtKind) : statement := Stmt None k.
Definition varOf (t x : string) (e : option expr) : statement :=
  stmtOfKind (VarDeclStmt None None (TSPrim t) [{| vd_name := x; vd_expression := e; vd_ctx := None |}]).
Definition assignOf (x : string) (e : expr) : statement := stmtOfKind (AssignmentStmt (AssignStmt x [] e)).
Definition useOf (x : string) : statement := stmtOfKind (ExprStmt (EIdent x)).
Definition intOf (n : string) : expr := ELit IntLit n.
Definition ifOf (c : expr) (b : list statement) (els : list statement) : statement :=
  stmtOfKind (IfStatement c (BodyOfBlock b) [] (Some (BodyOfBlock els))).
Definition equalTo (x n : string) : expr := EBin BEq "==" (EIdent x) (intOf n).
Definition breakOf : statement := stmtOfKind BreakStmt.

(** [bool c; c = true; int32 x;] and then the block. *)
Definition withFlag (b : list statement) : list statement :=
  varOf "bool" "c" None :: assignOf "c" (ELit BoolLit "true") :: varOf "int32" "x" None :: b.

(** The checker takes variables for others of the same name, and for what they were once.
    - A variable without a value counts as initialized when both branches of an [if] declare one
      of its name, and is not when a branch that does not return, or a block that always runs,
      gives it a value.
    - Behind a loop, the variable its loop variable hid is gone.
    - A moved string can be used again if it was moved in a block.
    - The initial value of a variable decides a condition after an assignment, or after a block
      that has declared another of its name, so a [break] outside of a loop is accepted. *)
Lemma statement_gaps :
  errorsOf (withFlag [ifOf (EIdent "c") [varOf "int32" "x" (Some (intOf "1"))] [varOf "int32" "x" (Some (intOf "2"))];
    useOf "x"]) = Some [] ∧
  errorsOf (withFlag [ifOf (EIdent "c") [stmtOfKind (ReturnStmt None)] [assignOf "x" (intOf "1")]; useOf "x"]) =
    Some ["variable 'x' is used before being initialized"] ∧
  errorsOf (withFlag [stmtOfKind (NakedBlockStmt [assignOf "x" (intOf "1")]); useOf "x"]) =
    Some ["variable 'x' is used before being initialized"] ∧
  errorsOf [varOf "int32" "i" (Some (intOf "1")); stmtOfKind (ForInStmt "int32" "i" (intOf "3") []); useOf "i"] =
    Some ["undefined variable 'i'"] ∧
  errorsOf [varOf "string" "v" (Some (ELit StrLit "a")); stmtOfKind (NakedBlockStmt [varOf "string" "w" (Some (EIdent "v"))]);
    varOf "string" "z" (Some (EIdent "v"))] = Some [] ∧
  errorsOf [varOf "int32" "n" (Some (intOf "0")); assignOf "n" (intOf "5"); ifOf (equalTo "n" "5") [breakOf] []] = Some [] ∧
  errorsOf [varOf "int32" "n" (Some (intOf "2")); stmtOfKind (NakedBlockStmt [varOf "int32" "n" (Some (intOf "3"))]);
    ifOf (equalTo "n" "2") [breakOf] []] = Some [].
Proof. vm_compute. split_and!; reflexivity. Qed.

Lemma checkBlock_restores_witness :
  let b := withFlag [assignOf "x" (intOf "1"); breakOf] in
  match checkBlock exampleStmt b startScopes with
  | ROk inits s' => restored startScopes s' ∧ sc_imports s' = sc_imports startScopes ∧
      (∀ x, x ∈ inits → ∃ vi, locals startScopes !! x = Some vi ∧ vi_initialized vi = false) ∧
      errors_ (checkerOf s') = ["'break' used outside of a loop"]
  | _ => False
  end.
Proof.
  cbv zeta. destruct (checkBlock exampleStmt (withFlag [assignOf "x" (intOf "1"); breakOf]) startScopes) as [inits s'| | |] eqn:E;
    [|exfalso; vm_compute in E; discriminate E..].
  assert (He : errorsOf (withFlag [assignOf "x" (intOf "1"); breakOf]) = Some (errors_ (checkerOf s'))) by (unfold errorsOf; by rewrite E).
  destruct (checkBlock_restores _ _ _ _ _ _ _ _ _ _ _ _ _ _ _ _ _ _ _ E) as (H1 & H2 & H3).
  split; [exact H1|]. split; [exact H2|]. split; [exact H3|]. vm_compute in He. by injection He as ->.
Defined.

(** A function with a parameter, and a variable that is never used. *)
Definition unusedExample : FunctionDecl := {|
  fd_attributes := None; fd_generic := false; fd_name := "f"; fd_spec := "void";
  fd_params := [{| pm_spread := false; pm_name := Some "p"; pm_spec := "int32"; pm_ctx := None |}];
  fd_body := [varOf "int32" "x" (Some (intOf "1"))]; fd_ctx := None |}.

Notation exampleFunction := (checkFunction exampleTables exampleCalls exampleCallStmts 10 (λ _, None) namedSpec namedSpec
  (λ _, None) (λ _, None) (λ _, noRest) (λ _, noDims) None (λ _, true) map_to_list elements (λ _, None)).

Lemma checkFunction_unused_witness :
  match exampleFunction unusedExample startScopes with
  | ROk _ s' => (∀ x, x ∈ reported map_to_list s' → x ∈ reported map_to_list startScopes) ∧ diagnostics_ (checkerOf s') = []
  | _ => False
  end.
Proof.
  destruct (exampleFunction unusedExample startScopes) as [[] s'| | |] eqn:E; [|exfalso; vm_compute in E; discriminate E..].
  split.
  - intros x. eapply checkFunction_unused; [..|exact E].
    + intros ts s. destruct ts; [|done]. reflexivity.
    + intros m [y vi]. apply elem_of_map_to_list.
  - assert (Hd : match exampleFunction unusedExample startScopes with ROk _ s => Some (diagnostics_ (checkerOf s)) | _ => None end = Some [])
      by by vm_compute.
    rewrite E in Hd. by injection Hd.
Defined.
