(* ===== verification/StatementFlow.v ===== *)
(** * Where control goes in an accepted function

    [checkStmt] counts loops to find a stray [break] and cuts a block at the first statement
    that control does not pass; [Flow] says how control can leave a statement.  A function
    accepted without an error keeps its [break]s and [continue]s inside of loops, and if it
    returns a value its end is not reached.

    Conditions that are constant are the exception: the checker does not look into branches it
    takes for dead. *)

From S2P Require Import Prelude.
From S2P Require Import CxxLib.
From S2P Require Import TypeInfo.
From S2P Require Import Assign.
From S2P Require Import Traits.
From S2P Require Import Syntax.
From S2P Require Import ComptimeValue.
From S2P Require Import ConstEval.
From S2P Require Import Flow.
From S2P Require Import Builtins.
From S2P Require Import Ownership.
From S2P Require Import CBuffer.
From S2P Require Import Attributes.
From S2P Require Import Modules.
From S2P Require Import Imports.
From S2P Require Import ExprType.
From S2P Require Import ExprTypeSafety.
From S2P Require Import ExprTypeKeep.
From S2P Require Import ConstDecl.
From S2P Require Import TypeSpec.
From S2P Require Import Methods.
From S2P Require Import GenericInfer.
From S2P Require Import Calls.
From S2P Require Import CallsSafety.
From S2P Require Import AssignStmts.
From S2P Require Import AssignSafety.
From S2P Require Import CallStmts.
From S2P Require Import Statements.
From S2P Require Import StatementKeep.
From S2P Require Import StatementSteps.
From S2P Require Import StatementScopes.
Local Open Scope Z_scope.

(** ** Checks without errors *)

Definition noisier (s s' : Scopes) : Prop := sameDepths s s' ∧ reports (checkerOf s) (checkerOf s').

#[export] Instance noisier_onward : Onward reports noisier.
Proof.
  unfold noisier, sameDepths. split; [apply _|split|by auto| |].
  - done.
  - intros s1 s2 s3 [[-> ->] H1] [[-> ->] H2]. split; [done|by etrans].
  - intros imports s s' [[H1 H2] H3]. cbn in *. split; [destruct imports; cbn; split; (done || lia)|]. etrans; [exact H3|].
    apply loose_silent. by destruct imports.
  - intros s s' [[H1 H2] H3]. cbn in *. split; [|done]. split; (done || lia).
Qed.

#[local] Hint Resolve noisier_onward : steps leads.

Notation errorCount s := (problems (checkerOf s)).

Definition accepts {A} (m : SM A) (s : Scopes) (a : A) (s' : Scopes) : Prop :=
  m s = ROk a s' ∧ errorCount s' = errorCount s.

Lemma accepts_bind {A B} (m : SM A) (f : A → SM B) s b s2 : steps noisier m → (∀ a, steps noisier (f a)) →
  accepts (m ≫= f) s b s2 → ∃ a s1, accepts m s a s1 ∧ accepts (f a) s1 b s2 ∧ sameDepths s s1.
Proof.
  intros Hm Hf [H Hp]. unfold mbind, M_bind in H. specialize (Hm s). destruct (m s) as [a s1|x s1| |] eqn:E; try done.
  specialize (Hf a s1). rewrite H in Hf. destruct Hm as [Hd Hm], Hf as [_ Hf]. unfold reports in *.
  exists a, s1. unfold accepts. split_and!; (done || lia || apply Hd).
Qed.

Lemma accepts_ret {A} (a b : A) s s' : accepts (mret a) s b s' → b = a ∧ s' = s.
Proof. intros [H _]. by injection H. Qed.

Lemma accepts_map {A B} (m : SM A) (f : A → B) s b s' :
  accepts (m ≫= λ a, mret (f a)) s b s' → ∃ a, accepts m s a s' ∧ b = f a.
Proof.
  intros [H Hp]. unfold mbind, M_bind in H. destruct (m s) as [a s1|x s1| |] eqn:E; try done.
  injection H as <- <-. by exists a.
Qed.

Lemma not_accepts_error ctx msg s u s' : ¬ accepts (errorAtS ctx msg) s u s'.
Proof.
  intros [H Hp]. unfold errorAtS, onTyper, onChecker, modifyS in H. injection H as _ <-. cbn in Hp.
  unfold error in Hp. rewrite problems_emit in Hp. lia.
Qed.

Lemma accepts_scope {A} imports (m : SM A) s inits s' : steps noisier m → accepts (inScope imports m) s inits s' →
  ∃ a s0 s1, accepts m s0 a s1 ∧ sc_loopDepth s0 = sc_loopDepth s.
Proof.
  intros Hm [H Hp]. unfold inScope, mbind, M_bind, getS, modifyS in H.
  set (s0 := s <| sc_scopeDepth := sc_scopeDepth s + 1 |>) in *. specialize (Hm s0).
  destruct (m s0) as [a s1|x s1| |] eqn:E; try done. injection H as <- <-. exists a, s0, s1. split; [|done]. split; [done|].
  destruct Hm as [_ Hm]. unfold reports in Hm. cbn in Hm, Hp. destruct imports; cbn in Hp; exact Hp.
Qed.

(** ** Control flow *)

(** Control that leaves a statement in [d] loops; [t] says that it does not pass it. *)
Definition flows (d : Z) (t : bool) (o : flow) : Prop := (d = 0 → o ≠ OBreak ∧ o ≠ OContinue) ∧ (t = true → o ≠ ONext).

Lemma terminator_exec x o : isTerminatorStmt x = true → exec_stmt x o → o ≠ ONext.
Proof.
  intros Ht Hx. destruct x; cbn in Ht; try done; inversion Hx; subst; try done;
    try (by eapply abrupt_leaves);
    match goal with H : falls_through _ = true |- _ => cbn in H; rewrite Ht in H; done end.
Qed.

(** The expressions of a statement keep their [break]s and [continue]s inside. *)
Definition calm (x : stmt) : Prop := Forall (λ e, noStray e = true) (stmt_exprs x).

Lemma abrupt_flows x e d t o : calm x → e ∈ stmt_exprs x → abrupt e o → flows d t o.
Proof.
  intros Hc He Ho. split; intros _; [|by eapply abrupt_leaves].
  apply (noStray_abrupt _ _ Ho). by apply (proj1 (Forall_forall _ _) Hc).
Qed.

(** Evaluation that leaves the statement. *)
Ltac leaves :=
  match goal with
  | Hc : calm ?x, He : ?e ∈ stmt_exprs _, H : abrupt ?e _ |- _ => by apply (abrupt_flows x e _ _ _ Hc He H)
  end.

(** A statement in which no other is contained, and that is no [break] or [continue]. *)
Definition leaf (x : stmt) : bool :=
  match x with
  | SReturn _ | SVarDecl _ | SVarDestructure _ _ | SAssign _ _ _ | SCompoundAssign _ _ _ | SCall _ _ | SExpr _
  | SThrow _ | SBail _ | SDefer _ | SOther _ _ _ => true
  | _ => false
  end.

Lemma leaf_flows x d o : leaf x = true → calm x → exec_stmt x o → flows d (isTerminatorStmt x) o.
Proof.
  intros Hl Hc Hx. split; [|intros Ht; by eapply terminator_exec].
  intros _. destruct x; try done; inversion Hx; subst; try done;
    match goal with H : abrupt ?e _ |- _ =>
      apply (noStray_abrupt e _ H); by apply (proj1 (Forall_forall _ _) Hc)
    end.
Qed.

(** A condition that no evaluation takes for constant. *)
Definition openCondition (constTypeSpec : string → option TypeInfo) (c : expr) : Prop :=
  ∀ types_ values b, evaluateConstExpr types_ values constTypeSpec c ≠ Ret (Some (boolVal b)).

Definition conditions (k : stmtKind) : list expr :=
  match k with
  | IfStatement c _ elifs _ => c :: ((λ i, match i with ElseIfClause _ c _ => c end) <$> elifs)
  | _ => []
  end.

(** No [if] with a condition that can be constant has a [break] or [continue] that leaves it,
    and no block inside an expression has one that leaves the expression. *)
Inductive decided (constTypeSpec : string → option TypeInfo) (s : statement) : Prop :=
| decided_intro :
    (∀ x, x ∈ substatements s → decided constTypeSpec x) →
    calm (shape s) →
    (Forall (openCondition constTypeSpec) (conditions (kindOfStmt s)) ∨
     ∀ o, exec_stmt (shape s) o → o ≠ OBreak ∧ o ≠ OContinue) →
    decided constTypeSpec s.

Section statements.
Context (g : Tables) (ct : CallTables) (st : CallStmtTables) (fuel : nat) (position : expr → context).
Context (resolveTypeSpec resolveTypeSpecInContext : option string → T (option tyref * Z)).
Context (constTypeSpec : string → option TypeInfo) (declarator : ExportedSymbol → option Declarator).
Context (resolveRest : gmap string InjectedVariant → expr → T (option tyref)).
Context (restDims : gmap string InjectedVariant → expr → T Z).
Context (withSubst : option (string → T (option tyref * Z))).
Context (isActive : attributes → bool).
(** The parts that are parameters do not take errors back. *)
Context (Hp : statement_parameters_lead reports ct resolveTypeSpec resolveTypeSpecInContext declarator resolveRest restDims withSubst).

Section body.
Context (ret ret' : option tyref).
Notation check := (checkStmt g ct st fuel position resolveTypeSpec resolveTypeSpecInContext constTypeSpec
  declarator resolveRest restDims withSubst isActive ret ret').
Notation at_ f := (f g fuel position resolveTypeSpec resolveTypeSpecInContext constTypeSpec declarator resolveRest restDims).

Lemma noisier_check s : steps noisier (check s).
Proof. by apply checkStmt_steps. Qed.
Lemma noisier_all b : Forall (λ s, steps noisier (check s)) b.
Proof. apply Forall_forall. intros s _. apply noisier_check. Qed.
Lemma noisier_block b : steps noisier (checkBlock check b).
Proof. apply steps_block, noisier_all. Qed.
Lemma noisier_body b : steps noisier (checkIfBody check b).
Proof. apply steps_body, noisier_all. Qed.
Hint Resolve noisier_check noisier_block noisier_body steps_type steps_dims steps_spec steps_constBool steps_typed
  steps_condition steps_isBinding steps_bindVar steps_subject steps_exhaustive steps_loopVar steps_iterable steps_label
  steps_break steps_callback : steps.

Definition sound (s : statement) : Prop := decided constTypeSpec s → ∀ s0 t s1, accepts (check s) s0 t s1 →
  ∀ o, exec_stmt (shape s) o → flows (sc_loopDepth s0) t o.

(** *** Blocks *)

Lemma sound_statements b : Forall sound b → Forall (decided constTypeSpec) b → ∀ s0 t s1,
  accepts (checkStatements check false b) s0 t s1 → ∀ o, exec_block (shape <$> b) o → flows (sc_loopDepth s0) t o.
Proof.
  induction 1 as [|s b Hs _ IH]; intros Hd s0 t s1 Ha o Ho; cbn [checkStatements] in Ha; cbn [fmap list_fmap] in Ho.
  - apply accepts_ret in Ha as [-> _]. inversion Ho; subst. by split.
  - apply Forall_cons in Hd as [Hd Hb].
    apply accepts_bind in Ha as (t1 & s2 & H1 & H2 & Hdep); [|eauto with steps|intros; by apply steps_statements, noisier_all].
    specialize (Hs Hd s0 t1 s2 H1). destruct Hdep as [_ Hdep]. destruct t1.
    + assert (t = true) as ->.
      { destruct b; cbn [checkStatements] in H2; [by apply accepts_ret in H2 as [-> _]|].
        apply accepts_bind in H2 as (u & s4 & _ & H3 & _); [|eauto with steps|intros; apply steps_ret]. by apply accepts_ret in H3 as [-> _]. }
      inversion Ho; subst; [|by apply Hs]. exfalso. by apply (Hs ONext).
    + rewrite <-Hdep. inversion Ho; subst; [by eapply IH|]. split; [|done]. rewrite Hdep. by apply Hs.
Qed.

Lemma sound_block b : Forall sound b → Forall (decided constTypeSpec) b → ∀ s0 i s1,
  accepts (checkBlock check b) s0 i s1 → ∀ o, exec_block (shape <$> b) o → flows (sc_loopDepth s0) false o.
Proof.
  intros Hs Hd s0 i s1 Ha o Ho. unfold checkBlock in Ha.
  apply accepts_scope in Ha as (t & s2 & s3 & Ha & <-); [|by apply steps_statements, noisier_all].
  split; [|done]. by eapply sound_statements.
Qed.

Lemma sound_ifBody b : Forall sound (bodyOf b) → Forall (decided constTypeSpec) (bodyOf b) → ∀ s0 i s1,
  accepts (checkIfBody check b) s0 i s1 → ∀ o,
  exec_ifBody match b with BodyOfBlock b => IfBlock (shape <$> b) | BodyOfStatement s => IfStmt (shape s) end o →
  flows (sc_loopDepth s0) false o.
Proof.
  intros Hs Hd s0 i s1 Ha o Ho. destruct b as [b|s]; cbn [bodyOf checkIfBody] in *.
  - inversion Ho; subst. by eapply sound_block.
  - apply Forall_cons in Hs as [Hs _]. apply Forall_cons in Hd as [Hd _].
    apply accepts_scope in Ha as (t & s2 & s3 & Ha & <-); [|eauto with steps]. inversion Ho; subst.
    split; [|done]. by eapply Hs.
Qed.

(** *** Branches *)

Lemma accepts_open c s0 v s1 : openCondition constTypeSpec c → accepts (constBool constTypeSpec c) s0 v s1 → v = None.
Proof.
  intros Hc [H _]. unfold constBool, constE, mbind, M_bind, getS, liftO in H. cbn in H.
  specialize (Hc (te_types (ty_env (typer s0))) (ty_compileTimeValues (typer s0))).
  destruct (evaluateConstExpr _ _ _ c) as [[v0|]| | |]; try done; cbn in H; [|by injection H as <- _].
  destruct v0; injection H as <- _; try done. exfalso. by eapply Hc.
Qed.

Lemma accepts_branch c body s0 i s1 : steps noisier body → accepts (checkBranch resolveTypeSpec c false body) s0 i s1 →
  ∃ j s2 s3, accepts body s2 j s3 ∧ sc_loopDepth s2 = sc_loopDepth s0.
Proof.
  intros Hb Ha. unfold checkBranch in Ha.
  apply accepts_bind in Ha as (b & s2 & _ & Ha & [_ E2]); [|eauto with steps|intros; stepS].
  apply accepts_bind in Ha as (u & s3 & _ & Ha & [_ E3]); [|stepS|intros; stepS].
  apply accepts_bind in Ha as (j & s4 & Ha & _ & _); [|done|intros; stepS]. exists j, s3, s4. split; [done|congruence].
Qed.

Lemma sound_elseIfs elifs : Forall sound (flat_map elifBody elifs) → Forall (decided constTypeSpec) (flat_map elifBody elifs) →
  Forall (openCondition constTypeSpec) ((λ i, match i with ElseIfClause _ c _ => c end) <$> elifs) →
  ∀ l s0 r s1, accepts (at_ checkElseIfs check elifs l) s0 r s1 → r.2 = false ∧
  ∀ x c b o, ElseIfClause x c b ∈ elifs →
    exec_ifBody match b with BodyOfBlock b => IfBlock (shape <$> b) | BodyOfStatement s => IfStmt (shape s) end o →
    flows (sc_loopDepth s0) false o.
Proof.
  induction elifs as [|[ctx c b] elifs IH]; intros Hs Hd Ho l s0 r s1 Ha; cbn [checkElseIfs flat_map elifBody] in *.
  - apply accepts_ret in Ha as [-> _]. split; [done|]. by intros x c b o ?%not_elem_of_nil.
  - apply Forall_app in Hs as [Hsb Hs], Hd as [Hdb Hd]. cbn [fmap list_fmap] in Ho. apply Forall_cons in Ho as [Hc Ho].
    assert (Hkeep : ∀ l, steps noisier (at_ checkElseIfs check elifs l)).
    { intros l'. eapply steps_elseIfs; [exact Hp|apply noisier_all]. }
    apply accepts_bind in Ha as (u & s2 & _ & Ha & [_ E2]); [|eauto with steps|intros].
    2: { apply steps_seq; [eauto with steps|intros v]. apply steps_seq; [eapply steps_branch; eauto with steps|intros i].
         destruct (bool_decide _); [apply steps_ret|apply Hkeep]. }
    apply accepts_bind in Ha as (v & s3 & Hv & Ha & [_ E3]); [|eauto with steps|intros v].
    2: { apply steps_seq; [eapply steps_branch; eauto with steps|intros i]. destruct (bool_decide _); [apply steps_ret|apply Hkeep]. }
    apply accepts_open in Hv as ->; [|done]. change (bool_decide (None = Some false)) with false in Ha.
    apply accepts_bind in Ha as (i & s4 & Hb & Ha & [_ E4]); [|eapply steps_branch; eauto with steps|intros i].
    2: { destruct (bool_decide _); [apply steps_ret|apply Hkeep]. }
    change (bool_decide (None = Some true)) with false in Ha. cbv iota in Ha.
    destruct (IH Hs Hd Ho _ _ _ _ Ha) as [Hr Hall]. split; [done|]. intros x c' b' o [E|Hin]%elem_of_cons Hx.
    + injection E as -> -> ->. apply accepts_branch in Hb as (j & s5 & s6 & Hb & E5); [|eauto with steps].
      pose proof (sound_ifBody _ Hsb Hdb _ _ _ Hb o Hx) as Hf. congruence.
    + pose proof (Hall x c' b' o Hin Hx) as Hf. by rewrite E4, E3, E2 in Hf.
Qed.

Notation bodiesOf els := (match els with Some b => bodyOf b | None => [] end).

Lemma sound_if ctx c b elifs els : Forall sound (bodyOf b) → Forall (decided constTypeSpec) (bodyOf b) →
  Forall sound (flat_map elifBody elifs) → Forall (decided constTypeSpec) (flat_map elifBody elifs) →
  Forall sound (bodiesOf els) → Forall (decided constTypeSpec) (bodiesOf els) →
  Forall (openCondition constTypeSpec) (conditions (IfStatement c b elifs els)) →
  calm (shape (Stmt ctx (IfStatement c b elifs els))) → ∀ s0 u s1,
  accepts (at_ checkIfStmt check ctx c b elifs els) s0 u s1 → ∀ o,
  exec_stmt (shape (Stmt ctx (IfStatement c b elifs els))) o → flows (sc_loopDepth s0) false o.
Proof.
  intros Hsb Hdb Hse Hde Hsl Hdl [Hc Ho]%Forall_cons Hcalm s0 u s1 Ha o Hx. unfold checkIfStmt in Ha.
  set (rest := λ r : list (gset string) * bool, match els with Some els => _ | None => mret () end) in Ha.
  assert (Hrest : ∀ r, steps noisier (rest r)).
  { intros r. unfold rest. destruct els as [els|]; [|apply steps_ret]. apply steps_seq; [destruct r.2; [apply steps_ret|]|]; intros; stepS. }
  assert (Helse : ∀ v i, steps noisier (if bool_decide (v = Some true) then mret ([i], true) else at_ checkElseIfs check elifs [i])).
  { intros v i. destruct (bool_decide _); [apply steps_ret|]. eapply steps_elseIfs; [exact Hp|apply noisier_all]. }
  assert (Hthen : ∀ v b, steps noisier (checkBranch resolveTypeSpec c v (checkIfBody check b))) by (intros; eapply steps_branch; eauto with steps).
  apply accepts_bind in Ha as (u1 & s2 & _ & Ha & [_ E2]); [|eauto with steps|intros; repeat (apply steps_seq; eauto with steps; intros)].
  apply accepts_bind in Ha as (v & s3 & Hv & Ha & [_ E3]); [|eauto with steps|intros; repeat (apply steps_seq; eauto with steps; intros)].
  apply accepts_open in Hv as ->; [|done]. change (bool_decide (None = Some false)) with false in Ha.
  apply accepts_bind in Ha as (i & s4 & Hb & Ha & [_ E4]); [|done|intros; apply steps_seq; eauto with steps].
  change (bool_decide (None = Some true)) with false in Ha. cbv iota in Ha.
  apply accepts_bind in Ha as (r & s5 & He & Ha & [_ E5]); [|apply (Helse None)|done].
  destruct (sound_elseIfs elifs Hse Hde Ho _ _ _ _ He) as [Hr Hall].
  cbn [shape] in Hx. inversion Hx; subst; clear Hx; try by split.
  - leaves.
  - apply accepts_branch in Hb as (j & s6 & s7 & Hb & E6); [|eauto with steps].
    rewrite <-E2, <-E3, <-E6. by eapply sound_ifBody.
  - match goal with H : ElseIf _ _ ∈ _ |- _ => apply list_elem_of_fmap in H as ([x c1 b1] & [= -> ->] & Hin) end.
    rewrite <-E2, <-E3, <-E4. by eapply Hall.
  - destruct els as [els|]; [|done]. simplify_eq. unfold rest in Ha. rewrite Hr in Ha.
    apply accepts_bind in Ha as (l & s6 & Ha & _ & _); [|stepS|intros; stepS].
    apply accepts_bind in Ha as (j & s7 & Ha & _ & _); [|eauto with steps|intros; stepS].
    rewrite <-E2, <-E3, <-E4, <-E5. by eapply sound_ifBody.
Qed.

(** *** Clauses *)

Lemma sound_cases cases : Forall sound (flat_map caseBody cases) → Forall (decided constTypeSpec) (flat_map caseBody cases) →
  ∀ s0 u s1, accepts (at_ checkCases check cases) s0 u s1 →
  ∀ ls b o, CaseClause ls b ∈ cases → exec_block (shape <$> b) o → flows (sc_loopDepth s0) false o.
Proof.
  induction cases as [|[l b] cases IH]; intros Hs Hd s0 u s1 Ha ls b' o; cbn [checkCases flat_map caseBody] in *;
    [by intros ?%not_elem_of_nil|].
  apply Forall_app in Hs as [Hsb Hs], Hd as [Hdb Hd].
  assert (Hc : steps noisier (at_ checkCases check cases)) by (eapply steps_cases; [exact Hp|apply noisier_all]).
  apply accepts_bind in Ha as (u1 & s2 & _ & Ha & [_ E2]); [|stepS|intros; stepS].
  apply accepts_bind in Ha as (u2 & s3 & Hb & Ha & [_ E3]); [|stepS|intros; stepS].
  intros [E|Hin]%elem_of_cons Hx.
  - injection E as -> ->. rewrite <-E2. by eapply (sound_block _ Hsb Hdb).
  - rewrite <-E2, <-E3. by eapply IH.
Qed.

Lemma sound_optBlock b : Forall sound (default [] b) → Forall (decided constTypeSpec) (default [] b) → ∀ s0 u s1,
  accepts (checkOptBlock check b) s0 u s1 → ∀ o, exec_block (shape <$> default [] b) o → flows (sc_loopDepth s0) false o.
Proof.
  intros Hs Hd s0 u s1 Ha o Ho. destruct b as [b|]; cbn [checkOptBlock default] in *.
  - apply accepts_bind in Ha as (i & s2 & Ha & _ & _); [|stepS|intros; stepS]. by eapply sound_block.
  - inversion Ho; subst. by split.
Qed.

Lemma sound_switch ctx e cases d : Forall sound (flat_map caseBody cases) → Forall (decided constTypeSpec) (flat_map caseBody cases) →
  Forall sound (default [] d) → Forall (decided constTypeSpec) (default [] d) →
  calm (shape (Stmt ctx (SwitchStmt e cases d))) → ∀ s0 u s1,
  accepts (at_ checkSwitchStmt check ctx e cases d) s0 u s1 → ∀ o,
  exec_stmt (shape (Stmt ctx (SwitchStmt e cases d))) o → flows (sc_loopDepth s0) false o.
Proof.
  intros Hsc Hdc Hsd Hdd Hcalm s0 u s1 Ha o Hx. unfold checkSwitchStmt in Ha.
  assert (Hc : steps noisier (at_ checkCases check cases)) by (eapply steps_cases; [exact Hp|apply noisier_all]).
  assert (Ho : steps noisier (checkOptBlock check d)) by (apply steps_optBlock, noisier_all).
  apply accepts_bind in Ha as (t & s2 & _ & Ha & [_ E2]); [|stepS|intros; stepS].
  apply accepts_bind in Ha as (u1 & s3 & _ & Ha & [_ E3]); [|stepS|intros; stepS].
  apply accepts_bind in Ha as (u2 & s4 & H1 & Ha & [_ E4]); [|stepS|intros; stepS].
  apply accepts_bind in Ha as (u3 & s5 & H2 & _ & _); [|stepS|intros; stepS].
  cbn [shape] in Hx. inversion Hx; subst; clear Hx; try by split.
  - leaves.
  - match goal with H : Case _ _ ∈ _ |- _ => apply list_elem_of_fmap in H as ([l1 b1] & [= -> ->] & Hin) end.
    rewrite <-E2, <-E3. by eapply sound_cases.
  - destruct d as [d|]; [|done]. simplify_eq. rewrite <-E2, <-E3, <-E4. by eapply sound_optBlock.
Qed.

Lemma sound_catches catches : Forall sound (flat_map catchBody catches) → Forall (decided constTypeSpec) (flat_map catchBody catches) →
  ∀ s0 u s1, accepts (checkCatches resolveTypeSpec check catches) s0 u s1 →
  ∀ ts x b o, CatchClause ts x b ∈ catches → exec_block (shape <$> b) o → flows (sc_loopDepth s0) false o.
Proof.
  induction catches as [|[ts x b] catches IH]; intros Hs Hd s0 u s1 Ha ts' x' b' o; cbn [checkCatches flat_map catchBody] in *;
    [by intros ?%not_elem_of_nil|].
  apply Forall_app in Hs as [Hsb Hs], Hd as [Hdb Hd].
  assert (Hc : steps noisier (checkCatches resolveTypeSpec check catches)) by (eapply steps_catches; [exact Hp|apply noisier_all]).
  assert (Hv : ∀ p n, steps noisier (withCatchVar x p n (checkBlock check b))) by (intros; eapply steps_catchVar; eauto with steps).
  apply accepts_bind in Ha as (r & s2 & _ & Ha & [_ E2]); [|stepS|intros; stepS].
  apply accepts_bind in Ha as (u1 & s3 & H1 & Ha & [_ E3]); [|done|intros; stepS].
  intros [E|Hin]%elem_of_cons Hx.
  - injection E as -> -> ->. unfold withCatchVar in H1.
    apply accepts_bind in H1 as (s4 & s5 & H0 & H1 & [_ E5]); [|stepS|intros; stepS].
    apply accepts_bind in H1 as (u2 & s6 & _ & H1 & [_ E6]); [|stepS|intros; stepS].
    apply accepts_bind in H1 as (i & s7 & H1 & _ & _); [|stepS|intros; stepS].
    rewrite <-E2, <-E5, <-E6. by eapply (sound_block _ Hsb Hdb).
  - rewrite <-E2, <-E3. by eapply IH.
Qed.

(** The blocks of a [try], one after the other. *)
Lemma sound_try ctx b catches f : Forall sound b → Forall (decided constTypeSpec) b →
  Forall sound (flat_map catchBody catches) → Forall (decided constTypeSpec) (flat_map catchBody catches) →
  Forall sound (default [] f) → Forall (decided constTypeSpec) (default [] f) → ∀ s0 t s1,
  accepts (checkBlock check b;; checkCatches resolveTypeSpec check catches;; checkOptBlock check f;; mret false) s0 t s1 → ∀ o,
  exec_stmt (shape (Stmt ctx (TryCatchStmt b catches f))) o → flows (sc_loopDepth s0) false o.
Proof.
  intros Hsb Hdb Hsc Hdc Hsf Hdf s0 t s1 Ha o Hx.
  assert (Hc : steps noisier (checkCatches resolveTypeSpec check catches)) by (eapply steps_catches; [exact Hp|apply noisier_all]).
  assert (Ho : steps noisier (checkOptBlock check f)) by (apply steps_optBlock, noisier_all).
  apply accepts_bind in Ha as (i & s2 & H1 & Ha & [_ E2]); [|stepS|intros; stepS].
  apply accepts_bind in Ha as (u1 & s3 & H2 & Ha & [_ E3]); [|done|intros; stepS].
  apply accepts_bind in Ha as (u2 & s4 & H3 & _ & _); [|done|intros; stepS].
  pose proof (sound_block b Hsb Hdb _ _ _ H1) as Fb. pose proof (sound_catches catches Hsc Hdc _ _ _ H2) as Fc.
  pose proof (sound_optBlock f Hsf Hdf _ _ _ H3) as Ff. rewrite E2 in Fc. rewrite E3, E2 in Ff.
  assert (Hdef : default [] match f with Some b => Some (shape <$> b) | None => None end = shape <$> default [] f) by by destruct f.
  cbn [shape] in Hx. inversion Hx; subst; clear Hx; try by split.
  - by match goal with H : _ ∈ stmt_exprs _ |- _ => apply not_elem_of_nil in H end.
  - by apply Fb.
  - apply Ff. congruence.
  - match goal with H : Catch _ _ _ ∈ _ |- _ => apply list_elem_of_fmap in H as ([ts1 x1 b1] & [= -> -> ->] & Hin) end.
    by eapply Fc.
  - apply Ff. congruence.
Qed.

(** *** Every statement *)

Definition answersFalse (m : SM bool) : Prop := ∀ s t s', m s = ROk t s' → t = false.
Lemma false_ret : answersFalse (mret false).
Proof. by intros s t s' [= <- _]. Qed.
Lemma false_bind {A} (m : SM A) f : (∀ a, answersFalse (f a)) → answersFalse (m ≫= f).
Proof. intros Hf s t s'. unfold mbind, M_bind. destruct (m s); try done. apply Hf. Qed.

Lemma accepts_break ctx what s u s' : accepts (checkBreak ctx what) s u s' → sc_loopDepth s ≠ 0.
Proof.
  intros Ha. apply accepts_bind in Ha as (s1 & s2 & [H _] & Ha & _); [|stepS|intros; stepS]. injection H as <- <-.
  unfold whenS in Ha. destruct (sc_loopDepth s =? 0) eqn:E; [by apply not_accepts_error in Ha|]. by apply Z.eqb_neq in E.
Qed.

Lemma exec_loop x o : match x with SLoop _ | SWhile _ _ | SDoWhile _ _ | SForIn _ _ _ | SForClassic _ _ _ _ _ => True | _ => False end →
  calm x → exec_stmt x o → o ≠ OBreak ∧ o ≠ OContinue.
Proof.
  intros Hx Hc Ho. destruct x; try done; inversion Ho; subst; try done;
    try (match goal with H : stays _ = false |- _ => by split; intros -> end);
    match goal with H : abrupt ?e _ |- _ =>
      apply (noStray_abrupt e _ H); by apply (proj1 (Forall_forall _ _) Hc)
    end.
Qed.

Lemma sound_statement s : sound s.
Proof.
  induction s as [[ctx k] IH] using statement_ind'. intros Hd s0 t s1 Ha o Hx.
  destruct Hd as [Hsub Hcalm Hc]. assert (Hdec : Forall (decided constTypeSpec) (substatements (Stmt ctx k))) by (by apply Forall_forall).
  clear Hsub. unfold substatements in IH, Hdec. cbn [kindOfStmt] in IH, Hdec, Hc.
  assert (Hleaf : leaf (shape (Stmt ctx k)) = true → t = isTerminator (Stmt ctx k) → flows (sc_loopDepth s0) t o).
  { intros Hl ->. by apply leaf_flows. }
  assert (Hloop : match shape (Stmt ctx k) with SLoop _ | SWhile _ _ | SDoWhile _ _ | SForIn _ _ _ | SForClassic _ _ _ _ _ => True | _ => False end →
    t = false → flows (sc_loopDepth s0) t o).
  { intros Hl ->. split; [|done]. intros _. by eapply exec_loop. }
  assert (Hif : conditions k ≠ [] → Forall (openCondition constTypeSpec) (conditions k) ∨ flows (sc_loopDepth s0) false o).
  { intros _. destruct Hc as [Hc|Hc]; [by left|right]. split; [intros _; by apply Hc|done]. }
  destruct k; cbn [checkStmt] in Ha; apply accepts_map in Ha as (t0 & Ha & ->);
    repeat match goal with
    | H : Forall _ (_ ++ _) |- _ => apply Forall_app in H as [? H]
    | H : Forall _ [_] |- _ => apply Forall_cons in H as [H _]
    end;
    try (assert (t0 = false) as ->;
      [destruct Ha as [Ha _]; revert Ha; repeat (apply false_bind; intros _); apply false_ret|]);
    try first [by apply Hleaf|by apply Hloop].
  - apply Hleaf; [by destruct init|done].
  - apply Hleaf; [by destruct a as [| | | | | |[]|[]| | | |]|done].
  - apply accepts_bind in Ha as (u & s2 & _ & Ha & [_ E]); [|stepS|intros; stepS]. rewrite orb_false_r, <-E.
    cbn [shape] in Hx. inversion Hx; subst; [by split|leaves|done|]. by eapply IH.
  - destruct (Hif ltac:(done)) as [Ho|Hf]; [|exact Hf].
    apply accepts_map with (f := λ _, false) in Ha as (u & Ha & _). by eapply sound_if.
  - apply accepts_map with (f := λ _, false) in Ha as (u & Ha & _). apply accepts_break in Ha.
    split; [done|]. intros _. by eapply terminator_exec; [|exact Hx].
  - apply accepts_map with (f := λ _, false) in Ha as (u & Ha & _). apply accepts_break in Ha.
    split; [done|]. intros _. by eapply terminator_exec; [|exact Hx].
  - apply accepts_map with (f := λ _, false) in Ha as (u & Ha & _). by eapply sound_switch.
  - apply accepts_bind in Ha as (u & s2 & _ & Ha & [_ E]); [|stepS|intros; stepS]. rewrite <-E.
    apply accepts_map with (f := λ _, false) in Ha as (i & Ha & _).
    cbn [shape] in Hx. inversion Hx; subst; [by split|leaves|done|]. by eapply (sound_block _ IH Hdec).
  - by eapply (sound_try ctx body catches finally).
  - apply accepts_map with (f := λ _, false) in Ha as (i & Ha & _).
    cbn [shape] in Hx. inversion Hx; subst; [by split|leaves|done|]. by eapply (sound_block _ IH Hdec).
  - cbn [shape] in Hx. inversion Hx; subst; [by split|leaves|done|]. rewrite orb_false_r. by eapply (sound_statements _ IH Hdec).
  - apply accepts_map with (f := λ _, false) in Ha as (i & Ha & _).
    apply accepts_scope in Ha as (u & s2 & s3 & Ha & E); [|apply steps_seq; [by apply steps_statements, noisier_all|intros; stepS]].
    apply accepts_bind in Ha as (t1 & s4 & Ha & _ & _); [|by apply steps_statements, noisier_all|intros; stepS].
    cbn [shape] in Hx. inversion Hx; subst; [by split|leaves|done|]. rewrite <-E. split; [|done]. by eapply (sound_statements _ IH Hdec).
Qed.
End body.

(** ** Functions *)

Context (localsOrder : gmap string VarInfo → list (string * VarInfo)) (labelsOrder : gset string → list string).
Context (declToken : string → context).

Notation checkFunction := (checkFunction g ct st fuel position resolveTypeSpec resolveTypeSpecInContext constTypeSpec
  declarator resolveRest restDims withSubst isActive localsOrder labelsOrder declToken).

Definition sameTypes (s s' : Scopes) : Prop := ty_env (typer s') = ty_env (typer s).
#[local] Instance sameTypes_preorder : PreOrder sameTypes.
Proof. split; [done|]. unfold sameTypes. intros ? ? ?. congruence. Qed.

Lemma types_when b ctx msg : steps sameTypes (whenS b (errorAtS ctx msg)).
Proof. by destruct b; intros s. Qed.
Lemma types_unused ctx : steps sameTypes (warnUnusedLocals localsOrder declToken ctx).
Proof.
  unfold warnUnusedLocals. apply steps_seq; [apply steps_get|]. intros s. apply steps_each. intros p. by destruct (unused _ _ _); intros s'.
Qed.

Lemma noisier_spec ts : steps noisier (onTyper (resolveTypeSpec ts)).
Proof. apply (steps_typer (L := reports)). apply (pl_spec _ _ _ _ _ (spl_typing _ _ _ _ _ _ _ _ Hp ∅)). Qed.
Lemma noisier_checker f : (∀ c, diagnostics_ (f c) = diagnostics_ c) → steps noisier (onTyper (onChecker f)).
Proof. intros Hf. apply (steps_typer (L := reports)). by apply leads_quiet. Qed.
Lemma noisier_modify f : (∀ s, sameDepths s (f s) ∧ checkerOf (f s) = checkerOf s) → steps noisier (modifyS f).
Proof. intros Hf s. destruct (Hf s) as [Hd Hc]. split; [done|]. unfold reports. by rewrite Hc. Qed.

Lemma noisier_params ps : ∀ i, steps noisier (registerParams resolveTypeSpec i ps).
Proof.
  pose proof noisier_spec. induction ps as [|p ps IH]; intros i; cbn [registerParams]; [apply steps_ret|].
  destruct (pm_name p); [|apply IH]. apply steps_seq; [done|]. intros [[q|] n]; cbn [fst]; [|apply IH].
  apply steps_seq; [apply steps_get|]. intros s'. destruct (bool_decide _); [stepS|].
  apply steps_seq; [unfold bindVar; stepS|]. intros _. apply steps_seq; [by apply noisier_checker|]. intros _. apply IH.
Qed.

Lemma noisier_labels ctx : steps noisier (checkAsmLabels labelsOrder ctx).
Proof. unfold checkAsmLabels. stepS. Qed.
Lemma noisier_unused ctx : steps noisier (warnUnusedLocals localsOrder declToken ctx).
Proof. unfold warnUnusedLocals. stepS. Qed.

(** What follows the body: the end of a function that returns a value is not reached. *)
Definition afterBody (f : FunctionDecl) (ret : option tyref) : SM unit :=
  checkAsmLabels labelsOrder (fd_ctx f);;
  t ← onTyper (infoOpt ret);
  match t with
  | None => undefS
  | Some t => whenS (negb (hasKind TK.Void t) && negb (blockAlwaysReturns (shape <$> fd_body f)))
      (errorAtS (fd_ctx f) ("function " +:+ quote (fd_name f) +:+ " must return a value of type " +:+
        quote (ti_name t) +:+ " on all code paths"))
  end;;
  warnUnusedLocals localsOrder declToken (fd_ctx f).

Lemma noisier_after f ret : steps noisier (afterBody f ret).
Proof. pose proof noisier_labels. pose proof noisier_unused. unfold afterBody. stepS. Qed.

Lemma accepts_after f p s u s' t : accepts (afterBody f (Some p)) s u s' → resolve (ty_env (typer s')) p = Some t →
  hasKind TK.Void t = false → blockAlwaysReturns (shape <$> fd_body f) = true.
Proof.
  intros Ha Ht Hv. pose proof noisier_labels. pose proof noisier_unused. unfold afterBody in Ha.
  apply accepts_bind in Ha as (u1 & s2 & _ & Ha & _); [|done|intros; stepS].
  apply accepts_bind in Ha as (t1 & s3 & Hi & Ha & _); [|stepS|intros; stepS].
  apply accepts_bind in Ha as (u2 & s4 & Hr & Ha & _); [|stepS|intros; stepS].
  assert (Et : t1 = Some t).
  { destruct Hi as [Hi _]. destruct Ha as [Ha _]. pose proof (types_unused (fd_ctx f) s4) as H4. rewrite Ha in H4.
    assert (H3 : sameTypes s3 s4).
    { destruct t1; [|by destruct Hr]. destruct Hr as [Hr _].
      match type of Hr with whenS ?b (errorAtS ?c ?m) _ = _ => pose proof (types_when b c m s3) as Hw; by rewrite Hr in Hw end. }
    unfold sameTypes in *. rewrite H4, H3 in Ht. unfold onTyper in Hi. cbn [infoOpt] in Hi.
    unfold infoT, mbind, M_bind, getS, liftO, deref in Hi.
    destruct (resolve (ty_env (typer s2)) p) as [t2|] eqn:E2; cbn in Hi; [|done]. injection Hi as <- <-.
    cbn in Ht. congruence. }
  subst t1. destruct Hr as [Hr He]. destruct (blockAlwaysReturns (shape <$> fd_body f)); [done|]. rewrite Hv in Hr. cbn in Hr.
  by destruct (not_accepts_error _ _ _ _ _ (conj Hr He)).
Qed.

End statements.

(** ** An example: a loop that is left, and a return *)

Definition asks (x : string) : expr := EMethodCall (EIdent x) "ok" None.

Definition flowExample : FunctionDecl := {|
  fd_attributes := None; fd_generic := false; fd_name := "f"; fd_spec := "int32";
  fd_params := [{| pm_spread := false; pm_name := Some "p"; pm_spec := "int32"; pm_ctx := None |}];
  fd_body := [stmtOfKind (WhileStmt (asks "p") [stmtOfKind (IfStatement (asks "p") (BodyOfStatement breakOf) [] None)]);
              stmtOfKind (ReturnStmt (Some (EIdent "p")))];
  fd_ctx := None |}.

Lemma example_statement_parameters L `{!Loose L} :
  statement_parameters_lead L exampleCalls namedSpec namedSpec (λ _, None) (λ _, noRest) (λ _, noDims) None.
Proof.
  split; [|done|].
  - intros _. apply example_lead. apply _.
  - intros f tmpl H. cbn in H. by rewrite lookup_empty in H.
Qed.

Lemma flowExample_decided : Forall (decided (λ _, None)) (fd_body flowExample).
Proof.
  assert (Hasks : openCondition (λ _, None) (asks "p")) by done.
  assert (Hcalm : ∀ x, forallb noStray (stmt_exprs x) = true → calm x).
  { intros x H. apply Forall_forall. intros e He. exact (forallb_in _ _ _ H He). }
  assert (Hnone : ∀ s, substatements s = [] → conditions (kindOfStmt s) = [] → calm (shape s) → decided (λ _, None) s).
  { intros s H1 H2 H3. split; [rewrite H1; by intros x ?%not_elem_of_nil|done|]. left. rewrite H2. constructor. }
  constructor; [|constructor; [by apply Hnone, Hcalm|constructor]].
  split; [|by apply Hcalm|left; constructor]. intros x [->|H]%elem_of_cons; [|by apply not_elem_of_nil in H].
  split; [|by apply Hcalm|left; constructor; [done|constructor]]. intros x [->|H]%elem_of_cons; [|by apply not_elem_of_nil in H].
  by apply Hnone, Hcalm.
Qed.

